(* ===== verification/_CoqProject ===== *)
-Q . S2P
Prelude.v
Wire.v
RelKey.v
VisFilter.v
Iter.v
IterStack.v
IterLaws.v
Drain.v
Heap.v
Merge.v
Reads.v
History.v
Stack.v
Mutation.v
LocalWAL.v
Skiplist.v
Memtable.v
Cache.v
GoStd.v
Locator.v
BCFile.v
Container.v
Index.v
Utf8.v
EmbeddingSpace.v
Convergence.v
BlockMeta.v
Adjacency.v
IndexFile.v
Codec.v
RFileWriter.v
RFileReader.v
IndexTree.v
RFileScan.v
RFileBuild.v
RFileGroup.v
RFileClose.v
RFileSafe.v
RFile.v
RFileShared.v
RFileSource.v
Parquet.v
Store.v
TabletFiles.v
Images.v
Compaction.v
Tablet.v
TabletOk.v
TabletLife.v
TabletCompact.v
TabletCompactOk.v
Table.v
TableOk.v
TableLife.v
Engine.v
EngineLife.v
LogFile.v
LogSafe.v
Quorum.v
LogMerge.v
