(* ===== verification/Prelude.v ===== *)
(** * Shoal's storage core: a verification development

    Shoal (phrocker/shoal-oss) is an Accumulo-compatible table store in Go.  A
    table is a sorted multimap from keys (row, family, qualifier, visibility,
    timestamp, delete flag) to values.  Writes go to a write-ahead log and a
    memtable; memtables are flushed to RFiles, immutable files of sorted
    cells; a scan merges the memtable and the files and passes the result
    through a stack of iterators that apply deletes, visibility and version
    limits.  This development models that core, under src/internal/, and
    proves what makes it correct.

    ** The parts and where they are modelled

    - [Wire] (rfile/wire): the key and its order, Hadoop variable-length
      integers, [DataInput] primitives, the standalone key codec.
    - [RelKey] (rfile/relkey): the data block's relative-key codec: encoder,
      cursor, decoder, and the reader that skips what a filter rejects.
    - [BCFile], [Container] (rfile/bcfile): the block container below an
      RFile: its integers, strings, regions and indexes; its trailer; the
      reader over [io.ReaderAt] and the writer.
    - [Codec] (rfile/bcfile/block): the registries of block codecs, the size
      limits and each codec's framing over its library.
    - [Index], [IndexTree], [IndexFile] (rfile/index): index entries and blocks
      in both layouts, the walker over the levels, the index as a tree, and
      the directory of a file with its locality groups.
    - [Utf8], [EmbeddingSpace], [Convergence] (embeddingspace), [BlockMeta],
      [Adjacency] (rfile/blockmeta, rfile/adjacency): the side sections of a
      file: the vector space its cells are in, the overlays of its blocks, the
      out-edge index.
    - [RFileWriter], [RFileReader] (rfile): the writer and the reader.
      [RFileBuild], [RFileGroup], [RFileClose] follow a file being written,
      [RFileScan] what a reader delivers, [RFile] joins them; [RFileSafe] is
      the writer under any sequence of calls.  [RFileShared] is the shared
      file and the fetches through the block cache, [RFileSource] the reader as
      the leaf of an iterator stack.
    - [Parquet] (parquetfile): the other file format over parquet-go.
    - [VisFilter] (visfilter): visibility expressions, their parser, and the
      evaluator with its cache of parsed expressions.
    - [Iter], [IterStack], [IterLaws], [Drain] (iterrt): the iterator interface [SKVI]
      (a class of operations over a state), the in-memory leaf, and the
      as-of, visibility, versioning and deleting iterators.  The class
      [SKVILaws] states what an iterator promises the iterators over it: the
      cells it has yet to surface ([view]), the cells a seek will surface
      ([scan]), and that every operation keeps to them.  Each iterator's
      instance is proved from the laws of an arbitrary source.
    - [Heap], [Merge] (container/heap, iterrt/merge.go): the heap operations
      and the k-way merge over them, with its instance of the laws.  [Reads]
      and [History] are what merging and cutting at tombstones commute with,
      and reads as a function of the writes.
    - [Stack] (iterrt/registry.go, stack.go): the registry of iterators,
      validation of a stack's specification, building, and the stack that the
      query backend puts over every scan.
    - [Mutation] (cclient/mutation.go): client mutations and their wire form.
    - [LocalWAL] (localwal): the embedded engine's log: appending, syncing,
      replay after a crash, truncation.
    - [Skiplist], [Memtable] (memtable, qwal's log entries,
      tablet/memtable.go): the two memtables and their iterators.
    - [Store], [TabletFiles], [Images] (storage's helpers, tablet): a tablet's
      directory, the names of its files, the manifest that lists them, imports
      and exports, and the files' contents in either format.
    - [Compaction] (compaction): merging files into one, with the conversion
      of their embedding space.
    - [Tablet], [TabletCompact] (tablet): opening, writes and conditional
      writes, flushing, snapshots, scans and lookups, closing; compaction with
      the tombstones it keeps.  [TabletOk], [TabletLife], [TabletCompactOk] are
      the invariant, the tablet against the history of its writes, and what
      compaction preserves.
    - [Table] (engine/table.go): a table's manifest and directory, the routing
      of rows to tablets, writes, conditional writes, maintenance and scans
      over all of them.  [TableOk] relates a table's steps to steps of each of
      its tablets, with the part of the history that is in its rows;
      [TableLife] is what a table promises.
    - [Engine] (engine/engine.go): the engine over its named tables, with its
      counters and reports; [EngineLife] is the engine against the histories
      of its tables.
    - [LogFile], [LogSafe], [Quorum], [LogMerge] (qwal): the tablet server's
      log: decoding a segment, agreeing with the peers on its length and
      streaming it, merging the segments of a tablet.
    - [Cache], [Locator] (cache): the block cache and the cache of tablet
      locations, the latter also under concurrent calls.
    - [GoStd]: [sort.Search] and [sort.SliceStable] of Go's library.

    A mutation's cells ([Mutation.Cells]) are inserted in the skiplist; both
    memtable iterators, the file sources, the leaf and the merge satisfy
    [SKVILaws], so the stack theorems hold over any of them and over merges of
    them; a tablet's scan is the stack over the merge of its sources, and a
    table's scan the merge of its tablets' scanners.

    ** What the theorems show

    - A file written by the RFile writer opens in the reader, whose cursors
      answer any seeks and advances as cursors over the sorted cells, also
      with filters and skipped blocks, shared, or through the block cache; its
      side sections are those of its cells; whatever is called in whatever
      order, the writer returns.  Parquet files read back what was encoded.
    - In every reachable state of a tablet, whatever write, flush, compaction
      or crash came before, a query reads the newest acknowledged version of
      every coordinate; a conditional write is a compare-and-set on that
      history; a tablet that stopped anywhere opens again; compaction changes
      no read.  The manifest round trips, imports are idempotent, new names
      are fresh.
    - The split points of a table divide its rows.  In every reachable state
      of a table a scan reads the newest acknowledged version of every
      coordinate, in whatever order its tablets answer; conditional writes
      that each tablet decides on its own are those of deciding all of them in
      order; a table that was created opens again, wherever it stopped.  An
      engine keeps its tables apart: a scan by name reads what was written to
      that table, whatever was called on the others.
    - A compaction's output is the merged, delete-applied cells of its inputs
      or all of them converted, is labelled so, and every convergence attempt
      is settled exactly once.
    - A log segment cut anywhere is read up to the cut; reading a replicated
      segment delivers every entry a majority has stored and nothing that is
      not in the log; whatever bytes are decoded, the entries are well typed;
      merged segments keep each one's order.
    - Codecs round trip, and truncated input is an end-of-file error where the
      code relies on that: keys, integer encodings, data blocks with filter
      pushdown, containers, indexes, mutations.
    - Reading any validated stack over any lawful leaf terminates and denotes
      the composition of the layers' list functions; the scan stack reads, per
      coordinate, the newest visible cell no tombstone covers.  The merge is
      stable; versioning and deletes behave per coordinate, wherever a seek
      starts.
    - A visibility expression is visible exactly when it is in the grammar and
      satisfied, whatever the evaluator has cached.
    - After any crash the log replays a prefix of what was appended that
      contains all that was synced.
    - Memtables are sorted multimaps, latest write first among equal keys, for
      any outcome of the level coin flips.
    - The caches are transparent: the block cache is a recency list of bounded
      size; the location cache answers as its source, and under concurrency
      never names a tablet that does not cover the row.
    - Where the code departs from its documentation or its intent, a theorem
      shows the behaviour on a concrete run: tombstones of the greatest
      timestamp forgotten by a seek, filtered scans that end early, families
      in two locality groups, row ranges a bloom filter wrongly prunes, writes
      after a torn log tail, tables of more tablets than names or stopped while
      being created, a quorum of the peers that answer, a log segment
      of no length read without a bound, merged segments out of order.

    ** Conventions

    Bytes are [Z] in [0, 256) and slices are lists of them; fixed-width
    integers are [Z] with the wrap-around written out ([int64] and so on)
    where it can occur.  A nil slice is told from an empty one (as [option])
    only where the code observes the difference.  A fallible function returns
    [result], with the errors the code compares by identity as constructors
    and the others by their message; a panic is a value of the result where
    one can occur.  State is passed explicitly, each method a function of the
    receiver's state; shared or concurrent state is a step relation.

    Code outside the repository is a parameter: the compression libraries
    ([Codec.Libraries]), encoding/json, parquet-go, the random source, the
    order a map is ranged over, [io.ReaderAt], gRPC peers, the metadata walker
    and the embedding converger.  Storage that may fail, or stop the process,
    takes the list of what happens to its next operations.

    Loops that are not structural take fuel: an iterator's loops the bound its
    source gives on the cells it can still surface ([bound]); the visibility
    parser the length of its input; the eviction loop, replay, bisection and
    the log decoder the number of elements, bytes, or indices left; the index
    walker the levels.  Each theorem about such a function gives its result
    outright, so the fuel is enough.

    ** Not modelled

    Of what is modelled: compaction's output budget, progress callbacks and
    contexts; the tablet's file cache (which [RFileShared] shows to change no
    answer); the prefetcher, which nothing starts; the texts of some errors;
    the aliasing of scratch buffers in [RelKey]'s reader.  A failed append
    that leaves torn bytes while the process lives is not a step of a tablet.
    Compaction, imports and, of a table, a change of the embedding state are
    operations of the models but not steps of a tablet's or a table's life.
    A read after a full compaction may surface cells of the memtable that are
    older than a tombstone it dropped; [TabletCompactOk.same_reads] is about
    the files.  Locks make the methods of a component one step each, except in
    [Locator], where the lock is released; sinks of in-memory encoders do not
    fail.

    Not at all: the engine's events and its shipping of files to other
    engines; the search iterators; the SQL frontend; metadata access, hosting
    and the scan and compaction services; and, as pure I/O, generated code or
    applications over the engine: storage backends, RPC services, the effects
    gateway, decision and explorer services, vector and graph libraries,
    commands and bindings.

    This file holds the shared prelude: bytes and integers, errors, readers
    and the combinators that prove round trips. *)

From stdpp Require Export base numbers list gmap strings sorting.
From Stdlib Require Export ZArith Lia.

#[global] Open Scope Z_scope.
#[export] Set Warnings "-clear-no-such-hyp".

(** ** Bytes and machine integers

    A Go [byte] is a [Z] in [0, 256); a Go [[]byte] is a list of them.  The
    distinction between a nil and an empty slice is kept (as [option bytes])
    only where the code observes it. *)

Abbreviation bytes := (list Z).

Definition is_byte (b : Z) : Prop := 0 <= b < 256.
Definition is_bytes (l : bytes) : Prop := Forall is_byte l.

(** Go's fixed-width integers: two's complement, wrapping. *)
Definition uint8 (x : Z) : Z := x mod 2 ^ 8.
Definition uint16 (x : Z) : Z := x mod 2 ^ 16.
Definition uint32 (x : Z) : Z := x mod 2 ^ 32.
Definition uint64 (x : Z) : Z := x mod 2 ^ 64.
Definition int8 (x : Z) : Z := (x + 2 ^ 7) mod 2 ^ 8 - 2 ^ 7.
Definition int32 (x : Z) : Z := (x + 2 ^ 31) mod 2 ^ 32 - 2 ^ 31.
Definition int64 (x : Z) : Z := (x + 2 ^ 63) mod 2 ^ 64 - 2 ^ 63.

Definition in_int32 (x : Z) : Prop := - 2 ^ 31 <= x < 2 ^ 31.
Definition in_int64 (x : Z) : Prop := - 2 ^ 63 <= x < 2 ^ 63.

Definition MaxInt64 : Z := 2 ^ 63 - 1.

(** [len l] is Go's [len] of a slice, as a Go [int]. *)
Definition len {A} (l : list A) : Z := Z.of_nat (length l).

(** ** Errors

    The error values the code distinguishes with [errors.Is] are
    constructors; every other error is [Fail] with the message, and
    [fmt.Errorf] with [%w] is [Wrap]. *)
Inductive err : Set :=
| EOF
| UnexpectedEOF
| ErrVIntOverflow
| Fail (msg : string)
| Wrap (msg : string) (e : err).

#[global] Instance err_eq_dec : EqDecision err.
Proof. solve_decision. Defined.

(** [errors.Is e target]. *)
Fixpoint errors_Is (e target : err) : bool :=
  bool_decide (e = target) ||
  match e with Wrap _ e' => errors_Is e' target | _ => false end.

(** The [(value, error)] result of a fallible Go function. *)
Inductive result (A : Type) : Type :=
| Ok (a : A)
| Err (e : err).
Arguments Ok {A} _.
Arguments Err {A} _.

#[global] Instance Ok_inj A : Inj eq eq (@Ok A).
Proof. by intros x y [=]. Qed.

#[global] Instance result_ret : MRet result := fun A a => Ok a.
#[global] Instance result_bind : MBind result := fun A B f r =>
  match r with Ok a => f a | Err e => Err e end.

Lemma bind_Ok {A B} (m : result A) (f : A -> result B) b :
  m ≫= f = Ok b <-> exists a, m = Ok a /\ f a = Ok b.
Proof. destruct m; cbn; [|by split; [|intros (? & [=] & _)]]. split; [eauto|by intros (? & [= ->] & ?)]. Qed.

Lemma bind_Err {A B} (m : result A) (f : A -> result B) e :
  m ≫= f = Err e <-> m = Err e \/ exists a, m = Ok a /\ f a = Err e.
Proof.
  destruct m as [a|e']; cbn.
  - split; [eauto|]. by intros [[=]|(? & [= ->] & ?)].
  - split; [intros [= ->]; by left|]. by intros [[= ->]|(? & [=] & ?)].
Qed.

Definition is_Ok {A} (r : result A) : bool :=
  match r with Ok _ => true | Err _ => false end.

(** [if err != nil { return fmt.Errorf("msg: %w", err) }]. *)
Definition wrap {A} (msg : string) (r : result A) : result A :=
  match r with Ok a => Ok a | Err e => Err (Wrap msg e) end.

(** A reader is a function of the bytes that are still to be delivered;
    reading consumes a prefix of them. *)
Definition reader (A : Type) : Type := bytes -> result (A * bytes).

#[global] Instance reader_ret : MRet reader := fun A a s => Ok (a, s).
#[global] Instance reader_bind : MBind reader := fun A B f p s =>
  match p s with Ok (a, s') => f a s' | Err e => Err e end.

(** [return ..., err] in a reader, and wrapping a reader's error with [%w]. *)
Definition rfail {A} (e : err) : reader A := fun _ => Err e.
Definition rwrap {A} (msg : string) (p : reader A) : reader A :=
  fun s => wrap msg (p s).

(** A step that reads nothing. *)
Definition rlift {A} (r : result A) : reader A :=
  fun s => match r with Ok a => Ok (a, s) | Err e => Err e end.

(** [r.ReadByte()]: [io.EOF] at the end. *)
Definition ReadByte : reader Z := fun s =>
  match s with [] => Err EOF | b :: s' => Ok (b, s') end.

(** [io.ReadFull(r, buf)] with [len(buf) = n]: nothing to read is always a
    success, no byte at all is [io.EOF], a short read is
    [io.ErrUnexpectedEOF]. *)
Definition ReadFull (n : Z) : reader bytes := fun s =>
  if n <=? 0 then Ok ([], s)
  else if len s =? 0 then Err EOF
  else if len s <? n then Err UnexpectedEOF
  else Ok (take (Z.to_nat n) s, drop (Z.to_nat n) s).

(** Big-endian unsigned integers ([encoding/binary.BigEndian]). *)
Fixpoint be_put (n : nat) (v : Z) : bytes :=
  match n with
  | O => []
  | S n' => Z.land (Z.shiftr v (8 * Z.of_nat n')) 255 :: be_put n' v
  end.

Definition be_get_acc (acc : Z) (l : bytes) : Z :=
  foldl (fun a b => Z.lor (Z.shiftl a 8) b) acc l.
Definition be_get (l : bytes) : Z := be_get_acc 0 l.

(** ** Encodings and the readers that invert them

    [parses p bs a]: the reader [p] recognises the encoding [bs] of [a].  It
    delivers [a] and leaves whatever follows [bs] untouched, and on every
    proper prefix of [bs] (a torn or truncated input) it fails with an
    end-of-file error. *)

Definition eof_like (e : err) : bool := errors_Is e EOF || errors_Is e UnexpectedEOF.

Definition parses {A} (p : reader A) (bs : bytes) (a : A) : Prop :=
  (forall rest, p (bs ++ rest) = Ok (a, rest)) /\
  (forall s t, t <> [] -> bs = s ++ t -> exists e, p s = Err e /\ eof_like e = true).

Create HintDb parse.

Lemma eof_like_wrap msg e : eof_like (Wrap msg e) = eof_like e.
Proof. unfold eof_like. cbn. by rewrite !bool_decide_eq_false_2. Qed.

Lemma parses_ret {A} (a : A) : parses (mret a) [] a.
Proof.
  split; [done|]. intros s t Ht E. symmetry in E. apply app_nil in E as [_ ->]. done.
Qed.

Lemma parses_bind {A B} (p : reader A) (q : A -> reader B) bs1 bs2 a b :
  parses p bs1 a -> parses (q a) bs2 b -> parses (p ≫= q) (bs1 ++ bs2) b.
Proof.
  intros [Hp Tp] [Hq Tq]. split.
  - intros rest. unfold mbind, reader_bind. by rewrite <-(assoc_L (++)), Hp.
  - intros s t Ht E. unfold mbind, reader_bind.
    apply app_eq_inv in E as [(k & -> & ->) | (k & -> & ->)].
    + destruct k as [|x k].
      * rewrite app_nil_r in *. simpl in Ht.
        rewrite <-(app_nil_r s), Hp. apply (Tq [] bs2); [|done]. done.
      * destruct (Tp s (x :: k)) as (e & -> & He); [done|done|]. eauto.
    + rewrite Hp. by apply (Tq k t).
Qed.

Lemma parses_wrap {A} msg (p : reader A) bs a :
  parses p bs a -> parses (rwrap msg p) bs a.
Proof.
  intros [Hp Tp]. split; unfold rwrap.
  - intros rest. by rewrite Hp.
  - intros s t Ht E. destruct (Tp s t Ht E) as (e & -> & He).
    exists (Wrap msg e). by rewrite eof_like_wrap.
Qed.

Lemma parses_if_false {A} (b : bool) (p q : reader A) bs a :
  b = false -> parses q bs a -> parses (if b then p else q) bs a.
Proof. by intros ->. Qed.

Lemma parses_app_nil {A} (p : reader A) bs a :
  parses p (bs ++ []) a -> parses p bs a.
Proof. by rewrite app_nil_r. Qed.

Lemma parses_ReadByte b : parses ReadByte [b] b.
Proof.
  split; [done|]. intros [|x s] t Ht E; [by exists EOF|].
  destruct s, t; naive_solver.
Qed.

Lemma len_nil {A} : len (@nil A) = 0.
Proof. done. Qed.
Lemma len_cons {A} (x : A) l : len (x :: l) = 1 + len l.
Proof. unfold len. cbn [length]. lia. Qed.
Lemma len_app {A} (l1 l2 : list A) : len (l1 ++ l2) = len l1 + len l2.
Proof. unfold len. rewrite length_app. lia. Qed.
Lemma len_replicate {A} n (x : A) : len (replicate n x) = Z.of_nat n.
Proof. unfold len. by rewrite length_replicate. Qed.
Lemma len_nonneg {A} (l : list A) : 0 <= len l.
Proof. unfold len. lia. Qed.
Lemma len_0_nil {A} (l : list A) : len l = 0 -> l = [].
Proof. unfold len. destruct l; cbn; [done|lia]. Qed.

Lemma parses_ReadFull bs n : n = len bs -> parses (ReadFull n) bs bs.
Proof.
  intros ->. unfold ReadFull. pose proof (len_nonneg bs). split.
  - intros rest. destruct (Z.leb_spec (len bs) 0).
    { assert (bs = []) as -> by (apply len_0_nil; lia). done. }
    rewrite len_app. pose proof (len_nonneg rest).
    rewrite (proj2 (Z.eqb_neq _ _)), (proj2 (Z.ltb_ge _ _)) by lia.
    unfold len. rewrite Nat2Z.id. by rewrite take_app_length, drop_app_length.
  - intros s t Ht ->. rewrite len_app in *.
    assert (0 < len t) by (pose proof (len_nonneg t); destruct t; [done|rewrite len_cons in *; pose proof (len_nonneg t); lia]).
    pose proof (len_nonneg s). rewrite (proj2 (Z.leb_gt _ _)) by lia.
    destruct (Z.eqb_spec (len s) 0); [by exists EOF|].
    rewrite (proj2 (Z.ltb_lt _ _)) by lia. by exists UnexpectedEOF.
Qed.

#[export] Hint Resolve parses_ret parses_wrap parses_ReadByte parses_ReadFull : parse.

(** [reads p bs a]: the first half of [parses], for readers whose error on a
    short input is not an end-of-file error. *)
Definition reads {A} (p : reader A) (bs : bytes) (a : A) : Prop :=
  forall rest, p (bs ++ rest) = Ok (a, rest).

Lemma parses_reads {A} (p : reader A) bs a : parses p bs a -> reads p bs a.
Proof. by intros [Hp _]. Qed.

Lemma reads_ret {A} (a : A) : reads (mret a) [] a.
Proof. done. Qed.

Lemma reads_bind {A B} (p : reader A) (q : A -> reader B) bs1 bs2 a b :
  reads p bs1 a -> reads (q a) bs2 b -> reads (p ≫= q) (bs1 ++ bs2) b.
Proof. intros Hp Hq rest. unfold mbind, reader_bind. by rewrite <-(assoc_L (++)), Hp. Qed.

Lemma reads_wrap {A} msg (p : reader A) bs a : reads p bs a -> reads (rwrap msg p) bs a.
Proof. intros Hp rest. unfold rwrap. by rewrite Hp. Qed.

Lemma reads_app_nil {A} (p : reader A) bs a : reads p (bs ++ []) a -> reads p bs a.
Proof. by rewrite app_nil_r. Qed.

(** [reader.Len()]: the bytes still to come. *)
Definition Len : reader Z := fun s => Ok (len s, s).

(** The counted loop [for i := 0; i < count; i++ { out[i] = p() }]. *)
Fixpoint read_n {A} (p : reader A) (n : nat) : reader (list A) :=
  match n with
  | O => mret []
  | S n => x ← p; xs ← read_n p n; mret (x :: xs)
  end.

Lemma reads_read_n {A} (p : reader A) (enc : A -> bytes) xs :
  (forall x, x ∈ xs -> reads p (enc x) x) -> reads (read_n p (length xs)) (concat (enc <$> xs)) xs.
Proof.
  induction xs as [|x xs IH]; intros H; [apply reads_ret|]. rewrite fmap_cons. cbn [length read_n concat].
  eapply reads_bind; [apply H; by left|]. apply reads_app_nil.
  eapply reads_bind; [apply IH; intros; apply H; by right|apply reads_ret].
Qed.

#[export] Hint Resolve reads_ret reads_wrap parses_reads : parse.

(** ** Big-endian arithmetic *)

Lemma land_255 x : Z.land x 255 = x mod 256.
Proof. change 255 with (Z.ones 8). by rewrite Z.land_ones. Qed.

Lemma shiftr_8 x n : Z.shiftr x (8 * Z.of_nat n) = x / 256 ^ Z.of_nat n.
Proof.
  rewrite Z.shiftr_div_pow2 by lia. f_equal.
  change 256 with (2 ^ 8). rewrite <-Z.pow_mul_r by lia. done.
Qed.

Lemma lor_shiftl_byte a b : is_byte b -> Z.lor (Z.shiftl a 8) b = a * 256 + b.
Proof.
  intros Hb. rewrite <-Z.add_nocarry_lor; [by rewrite Z.shiftl_mul_pow2 by lia|].
  rewrite <-(Z.mod_small b (2 ^ 8)) by (unfold is_byte in Hb; lia).
  apply Z.bits_inj'. intros n Hn. rewrite Z.land_spec, Z.bits_0.
  destruct (Z.lt_ge_cases n 8).
  - by rewrite Z.shiftl_spec_low.
  - rewrite Z.mod_pow2_bits_high by lia. apply andb_false_r.
Qed.

Lemma be_put_length n v : length (be_put n v) = n.
Proof. induction n; cbn; congruence. Qed.

Lemma be_put_bytes n v : is_bytes (be_put n v).
Proof.
  induction n; cbn; constructor; [|done].
  rewrite land_255. unfold is_byte. pose proof (Z.mod_pos_bound (Z.shiftr v (8 * Z.of_nat n)) 256). lia.
Qed.

Lemma pow256_pos n : 0 < 256 ^ Z.of_nat n.
Proof. apply Z.pow_pos_nonneg; lia. Qed.

Lemma be_get_put_acc acc n v :
  be_get_acc acc (be_put n v) = acc * 256 ^ Z.of_nat n + v mod 256 ^ Z.of_nat n.
Proof.
  revert acc. induction n as [|n IH]; intros acc.
  { cbn. rewrite Z.mod_1_r. lia. }
  unfold be_get_acc. cbn [be_put foldl]. fold (be_get_acc (Z.lor (Z.shiftl acc 8) (Z.land (Z.shiftr v (8 * Z.of_nat n)) 255)) (be_put n v)).
  rewrite IH, land_255, shiftr_8, lor_shiftl_byte.
  2: { pose proof (Z.mod_pos_bound (v / 256 ^ Z.of_nat n) 256). unfold is_byte. lia. }
  rewrite Nat2Z.inj_succ, Z.pow_succ_r by lia.
  rewrite (Z.mul_comm 256), Z.rem_mul_r by (pose proof (pow256_pos n); lia). ring.
Qed.

Lemma be_get_put n v : 0 <= v < 256 ^ Z.of_nat n -> be_get (be_put n v) = v.
Proof. intros. unfold be_get. rewrite be_get_put_acc, Z.mod_small by done. ring. Qed.

Lemma be_get_bound_acc acc l :
  0 <= acc -> is_bytes l ->
  acc * 256 ^ len l <= be_get_acc acc l < (acc + 1) * 256 ^ len l.
Proof.
  intros Hacc Hl. revert acc Hacc. induction Hl as [|b l Hb Hl IH]; intros acc Hacc.
  { unfold be_get_acc. cbn [foldl]. rewrite len_nil. lia. }
  unfold be_get_acc. cbn [foldl]. rewrite lor_shiftl_byte by done.
  unfold is_byte in Hb. specialize (IH (acc * 256 + b) ltac:(lia)).
  fold (be_get_acc (acc * 256 + b) l).
  rewrite len_cons, Z.pow_add_r, Z.pow_1_r by (pose proof (len_nonneg l); lia).
  assert (0 < 256 ^ len l) as Hp by apply pow256_pos.
  set (p := 256 ^ len l) in *. nia.
Qed.

Lemma be_get_bound l : is_bytes l -> 0 <= be_get l < 256 ^ len l.
Proof. intros. pose proof (be_get_bound_acc 0 l ltac:(lia) ltac:(done)). unfold be_get. lia. Qed.

(** ** Wrapping integers *)

Lemma int64_id x : in_int64 x -> int64 x = x.
Proof. unfold in_int64, int64. intros. rewrite Z.mod_small; lia. Qed.
Lemma int32_id x : in_int32 x -> int32 x = x.
Proof. unfold in_int32, int32. intros. rewrite Z.mod_small; lia. Qed.
Lemma int64_range x : in_int64 (int64 x).
Proof. unfold in_int64, int64. pose proof (Z.mod_pos_bound (x + 2 ^ 63) (2 ^ 64)). lia. Qed.
Lemma int32_range x : in_int32 (int32 x).
Proof. unfold in_int32, int32. pose proof (Z.mod_pos_bound (x + 2 ^ 31) (2 ^ 32)). lia. Qed.

Lemma int64_uint64 x : int64 (uint64 x) = int64 x.
Proof. unfold int64, uint64. by rewrite Zplus_mod_idemp_l. Qed.
Lemma int32_uint32 x : int32 (uint32 x) = int32 x.
Proof. unfold int32, uint32. by rewrite Zplus_mod_idemp_l. Qed.

(** Wrapping each step of an accumulation is wrapping once at the end. *)
Lemma int64_step a b : int64 (int64 a * 256 + b) = int64 (a * 256 + b).
Proof.
  unfold int64. f_equal.
  replace (((a + 2 ^ 63) mod 2 ^ 64 - 2 ^ 63) * 256 + b + 2 ^ 63)
    with (((a + 2 ^ 63) mod 2 ^ 64) * 256 + (b + 2 ^ 63 - 2 ^ 63 * 256)) by ring.
  rewrite Z.add_mod, Z.mul_mod_idemp_l, <-Z.add_mod by lia. f_equal. ring.
Qed.

Lemma int64_add_sub a b : in_int64 a -> int64 (int64 (a - b) + b) = a.
Proof.
  intros Ha. rewrite <-(int64_id a) at 2 by done. unfold int64. f_equal.
  replace ((a - b + 2 ^ 63) mod 2 ^ 64 - 2 ^ 63 + b + 2 ^ 63)
    with ((a - b + 2 ^ 63) mod 2 ^ 64 + b) by ring.
  rewrite Zplus_mod_idemp_l. f_equal. ring.
Qed.

Lemma len_int32 {A} (l : list A) : len l < 2 ^ 31 -> int32 (len l) = len l /\ in_int32 (len l).
Proof. intros Hl. pose proof (len_nonneg l). assert (in_int32 (len l)) by (unfold in_int32; lia). by rewrite int32_id. Qed.

(** ** Lists *)

Lemma filter_all {A} (P : A -> Prop) `{forall x, Decision (P x)} l : Forall P l -> filter P l = l.
Proof. induction 1; [done|]. rewrite filter_cons_True by done. congruence. Qed.

Lemma filter_none {A} (P : A -> Prop) `{forall x, Decision (P x)} l :
  Forall (fun x => ~ P x) l -> filter P l = [].
Proof. induction 1; [done|]. by rewrite filter_cons_False. Qed.

Lemma sublist_Forall {A} (P : A -> Prop) l1 l2 : sublist l1 l2 -> Forall P l2 -> Forall P l1.
Proof. induction 1; rewrite ?Forall_cons; naive_solver. Qed.

Lemma filter_sublist {A} (P : A -> Prop) `{forall x, Decision (P x)} l : sublist (filter P l) l.
Proof.
  induction l as [|x l IH]; [done|]. rewrite filter_cons.
  case_decide; by constructor.
Qed.
