(* ===== verification/Wire.v ===== *)
(** * Wire: keys and primitive encodings (src/internal/rfile/wire)

    The cell coordinate [Key] with its comparators (key.go), Hadoop variable
    length integers (varint.go) and Java [DataInput]/[DataOutput] primitives
    with the standalone key encoding (datainput.go).  Writers produce the bytes
    they append; the sink is a [bytes.Buffer], whose writes do not fail. *)

From S2P Require Import Prelude.

(** ** Comparators *)

(** A comparator that is a linear order. *)
Class Cmp {A} (cmp : A -> A -> comparison) : Prop := {
  cmp_eq x y : cmp x y = Eq <-> x = y;
  cmp_antisym x y : cmp y x = CompOpp (cmp x y);
  cmp_trans x y z : cmp x y = Lt -> cmp y z = Lt -> cmp x z = Lt;
}.

(** The tests [c < 0], [c > 0], [c == 0] on a comparison. *)
Definition is_lt (c : comparison) : bool := match c with Lt => true | _ => false end.
Definition is_gt (c : comparison) : bool := match c with Gt => true | _ => false end.
Definition is_eq (c : comparison) : bool := match c with Eq => true | _ => false end.

(** [if c := first; c != 0 { return c }; return second]. *)
Definition then_cmp (c d : comparison) : comparison :=
  match c with Eq => d | _ => c end.
Infix "<?>" := then_cmp (at level 60, right associativity).

(** [bytes.Compare]: byte-lexicographic. *)
Fixpoint bytes_Compare (a b : bytes) : comparison :=
  match a, b with
  | [], [] => Eq
  | [], _ => Lt
  | _, [] => Gt
  | x :: a', y :: b' => Z.compare x y <?> bytes_Compare a' b'
  end.

(** [bytes.Equal]. *)
Definition bytes_Equal (a b : bytes) : bool := bool_decide (a = b).

(** ** Key (key.go) *)

Record Key := mkKey {
  Row : bytes;
  ColumnFamily : bytes;
  ColumnQualifier : bytes;
  ColumnVisibility : bytes;
  Timestamp : Z;
  Deleted : bool;
}.

#[export] Instance Key_eq_dec : EqDecision Key.
Proof. solve_decision. Defined.

Definition Key_Equal (k o : Key) : bool :=
  bytes_Equal (Row k) (Row o) &&
  bytes_Equal (ColumnFamily k) (ColumnFamily o) &&
  bytes_Equal (ColumnQualifier k) (ColumnQualifier o) &&
  bytes_Equal (ColumnVisibility k) (ColumnVisibility o) &&
  (Timestamp k =? Timestamp o) &&
  Bool.eqb (Deleted k) (Deleted o).

Definition Compare (k o : Key) : comparison :=
  bytes_Compare (Row k) (Row o) <?>
  bytes_Compare (ColumnFamily k) (ColumnFamily o) <?>
  bytes_Compare (ColumnQualifier k) (ColumnQualifier o) <?>
  bytes_Compare (ColumnVisibility k) (ColumnVisibility o) <?>
  if negb (Timestamp k =? Timestamp o) then
    if Timestamp o <? Timestamp k then Lt else Gt
  else if Deleted k && negb (Deleted o) then Lt
  else if negb (Deleted k) && Deleted o then Gt
  else Eq.

Definition CompareRowCFCQ (k o : Key) : comparison :=
  bytes_Compare (Row k) (Row o) <?>
  bytes_Compare (ColumnFamily k) (ColumnFamily o) <?>
  bytes_Compare (ColumnQualifier k) (ColumnQualifier o).

Definition CompareRowCFCQCV (k o : Key) : comparison :=
  bytes_Compare (Row k) (Row o) <?>
  bytes_Compare (ColumnFamily k) (ColumnFamily o) <?>
  bytes_Compare (ColumnQualifier k) (ColumnQualifier o) <?>
  bytes_Compare (ColumnVisibility k) (ColumnVisibility o).

(** The coordinate of a key: everything a version or a tombstone shares. *)
Definition coord (k : Key) : bytes * (bytes * (bytes * bytes)) :=
  (Row k, (ColumnFamily k, (ColumnQualifier k, ColumnVisibility k))).

(** A key as Go can hold it: byte-valued fields, an [int64] timestamp, and a
    total length an [int32] offset can express. *)
Definition key_len (k : Key) : Z :=
  len (Row k) + len (ColumnFamily k) + len (ColumnQualifier k) + len (ColumnVisibility k).
Definition key_ok (k : Key) : Prop :=
  in_int64 (Timestamp k) /\ key_len k < 2 ^ 31.

(** ** Variable-length integers (varint.go) *)

Definition DecodeVIntSize (first : Z) : Z :=
  let v := int8 first in
  if v >=? -112 then 1
  else if v <? -120 then -119 - v
  else -111 - v.

Definition IsNegativeVInt (first : Z) : bool :=
  let v := int8 first in
  (v <? -120) || ((v >=? -112) && (v <? 0)).

(** The loop over the [n] magnitude bytes of [ReadVLong]. *)
Fixpoint ReadVLong_mag (n : nat) (i : Z) : reader Z :=
  match n with
  | O => mret i
  | S n' =>
      b ← rwrap "vint magnitude byte" ReadByte;
      ReadVLong_mag n' (Z.lor (int64 (Z.shiftl i 8)) b)
  end.

Definition ReadVLong : reader (Z * Z) :=
  first ← ReadByte;
  let size := DecodeVIntSize first in
  if size =? 1 then mret (int8 first, 1)
  else if size >? 9 then rfail ErrVIntOverflow
  else
    i ← ReadVLong_mag (Z.to_nat (size - 1)) 0;
    mret (if IsNegativeVInt first then Z.lnot i else i, size).

Definition ReadVInt : reader (Z * Z) :=
  '(v, n) ← ReadVLong;
  if (v >? 2 ^ 31 - 1) || (v <? - 2 ^ 31)
  then rfail (Fail "rfile: vint does not fit in int32")
  else mret (int32 v, n).

(** [for tmp != 0 { tmp >>= 8; bytesNeeded++ }]: eight turns empty any
    non-negative int64. *)
Fixpoint bytesNeeded (fuel : nat) (tmp : Z) : nat :=
  match fuel with
  | O => O
  | S f => if tmp =? 0 then O else S (bytesNeeded f (Z.shiftr tmp 8))
  end.

(** The bytes appended and the count returned. *)
Definition WriteVLong (v : Z) : bytes * Z :=
  if (v >=? -112) && (v <=? 127) then ([uint8 (int8 v)], 1)
  else
    let mag := if v <? 0 then Z.lnot v else v in
    let bias := if v <? 0 then -120 else -112 in
    let n := bytesNeeded 8 mag in
    (uint8 (int8 (bias - Z.of_nat n)) :: be_put n mag, 1 + Z.of_nat n).

Definition WriteVInt (v : Z) : bytes * Z := WriteVLong v.

(** ** DataInput / DataOutput primitives (datainput.go) *)

Definition ReadInt32 : reader Z :=
  buf ← rwrap "rfile: readInt32" (ReadFull 4); mret (int32 (be_get buf)).
Definition ReadInt64 : reader Z :=
  buf ← rwrap "rfile: readInt64" (ReadFull 8); mret (int64 (be_get buf)).
Definition ReadBool : reader bool :=
  buf ← rwrap "rfile: readBool" (ReadFull 1);
  mret (negb (default 0 (buf !! 0%nat) =? 0)).

Definition ReadUTF : reader bytes :=
  lenBuf ← rwrap "rfile: readUTF length" (ReadFull 2);
  let length := uint16 (be_get lenBuf) in
  if length =? 0 then mret []
  else rwrap "rfile: readUTF body" (ReadFull length).

Definition WriteInt32 (v : Z) : bytes := be_put 4 (uint32 v).
Definition WriteInt64 (v : Z) : bytes := be_put 8 (uint64 v).
Definition WriteBool (v : bool) : bytes := [if v then 1 else 0].
Definition WriteUTF (s : bytes) : result bytes :=
  if len s >? 65535 then Err (Fail "rfile: writeUTF: string too long")
  else Ok (be_put 2 (uint16 (len s)) ++ s).

Definition ReadKey : reader Key :=
  '(cfOff, _) ← rwrap "rfile: ReadKey cfOffset" ReadVInt;
  '(cqOff, _) ← rwrap "rfile: ReadKey cqOffset" ReadVInt;
  '(cvOff, _) ← rwrap "rfile: ReadKey cvOffset" ReadVInt;
  '(total, _) ← rwrap "rfile: ReadKey totalLen" ReadVInt;
  if (cfOff <? 0) || (cqOff <? cfOff) || (cvOff <? cqOff) || (total <? cvOff)
  then rfail (Fail "rfile: ReadKey corrupt offsets")
  else
    row ← rwrap "rfile: ReadKey row" (ReadFull cfOff);
    cf ← rwrap "rfile: ReadKey cf" (ReadFull (cqOff - cfOff));
    cq ← rwrap "rfile: ReadKey cq" (ReadFull (cvOff - cqOff));
    cv ← rwrap "rfile: ReadKey cv" (ReadFull (total - cvOff));
    '(ts, _) ← rwrap "rfile: ReadKey timestamp" ReadVLong;
    del ← rwrap "rfile: ReadKey deleted" ReadBool;
    mret (mkKey row cf cq cv ts del).

Definition WriteKey (k : Key) : bytes :=
  let cfOff := int32 (len (Row k)) in
  let cqOff := int32 (cfOff + int32 (len (ColumnFamily k))) in
  let cvOff := int32 (cqOff + int32 (len (ColumnQualifier k))) in
  let total := int32 (cvOff + int32 (len (ColumnVisibility k))) in
  (WriteVInt cfOff).1 ++ (WriteVInt cqOff).1 ++ (WriteVInt cvOff).1 ++
  (WriteVInt total).1 ++
  Row k ++ ColumnFamily k ++ ColumnQualifier k ++ ColumnVisibility k ++
  (WriteVLong (Timestamp k)).1 ++ WriteBool (Deleted k).

(** ** Order laws *)

#[global] Arguments cmp_eq {A} cmp {_}.
#[global] Arguments cmp_antisym {A} cmp {_}.
#[global] Arguments cmp_trans {A} cmp {_}.

#[export] Instance Z_Cmp : Cmp Z.compare.
Proof.
  split; [apply Z.compare_eq_iff|intros; by rewrite Z.compare_antisym|].
  intros x y z. rewrite !Z.compare_lt_iff. lia.
Qed.

Lemma flip_Cmp {A} (cmp : A -> A -> comparison) :
  Cmp cmp -> Cmp (fun x y => cmp y x).
Proof.
  intros H. split; intros *.
  - rewrite (cmp_eq cmp). split; congruence.
  - apply (cmp_antisym cmp).
  - intros H1 H2. exact (cmp_trans cmp _ _ _ H2 H1).
Qed.

Lemma cmp_refl {A} (cmp : A -> A -> comparison) `{!Cmp cmp} x : cmp x x = Eq.
Proof. by apply (cmp_eq cmp). Qed.

Lemma lex_Cmp {A B} (c1 : A -> A -> comparison) (c2 : B -> B -> comparison) :
  Cmp c1 -> Cmp c2 -> Cmp (fun x y => c1 x.1 y.1 <?> c2 x.2 y.2).
Proof.
  intros H1 H2. split.
  - intros [a b] [a' b']; cbn. destruct (c1 a a') eqn:E; cbn.
    + apply (cmp_eq c1) in E as ->. rewrite (cmp_eq c2). split; congruence.
    + split; [done|]. intros [= -> ->]. by rewrite (cmp_refl c1) in E.
    + split; [done|]. intros [= -> ->]. by rewrite (cmp_refl c1) in E.
  - intros [a b] [a' b']; cbn. rewrite (cmp_antisym c1 a a'), (cmp_antisym c2 b b').
    by destruct (c1 a a'), (c2 b b').
  - intros [a b] [a' b'] [a'' b'']; cbn.
    destruct (c1 a a') eqn:E; cbn; [|intros _|done].
    + apply (cmp_eq c1) in E as ->. destruct (c1 a' a''); cbn; [|done|done].
      apply (cmp_trans c2).
    + destruct (c1 a' a'') eqn:E'; cbn; [|intros _|done].
      * apply (cmp_eq c1) in E' as ->. by rewrite E.
      * by rewrite (cmp_trans c1 _ _ _ E E').
Qed.

(** The strict order of a comparator on a projection is what [sort] asks of
    its [less]. *)
Section less_of.
Context {A B} (cmp : A -> A -> comparison) `{!Cmp cmp} (f : B -> A).

Lemma less_irr x : is_lt (cmp (f x) (f x)) = false.
Proof. by rewrite (cmp_refl cmp). Qed.

Lemma less_trans x y z :
  is_lt (cmp (f x) (f y)) = true -> is_lt (cmp (f y) (f z)) = true -> is_lt (cmp (f x) (f z)) = true.
Proof.
  destruct (cmp (f x) (f y)) eqn:E1; [done| |done]. destruct (cmp (f y) (f z)) eqn:E2; [done| |done].
  by rewrite (cmp_trans cmp _ _ _ E1 E2).
Qed.

Lemma less_neg x y z :
  is_lt (cmp (f x) (f y)) = false -> is_lt (cmp (f y) (f z)) = false -> is_lt (cmp (f x) (f z)) = false.
Proof.
  intros H1 H2. destruct (cmp (f x) (f z)) eqn:E; [done| |done]. rewrite (cmp_antisym cmp (f z) (f y)) in H2.
  destruct (cmp (f z) (f y)) eqn:E2; [|by rewrite (cmp_trans cmp _ _ _ E E2) in H1|done].
  apply (cmp_eq cmp) in E2. rewrite <-E2 in H1. by rewrite E in H1.
Qed.

Lemma not_less_le x y : is_lt (cmp (f y) (f x)) = false <-> cmp (f x) (f y) <> Gt.
Proof. rewrite (cmp_antisym cmp (f x) (f y)). by destruct (cmp (f x) (f y)). Qed.
End less_of.

#[export] Instance bytes_Cmp : Cmp bytes_Compare.
Proof.
  split.
  - induction x as [|a x IH]; intros [|b y]; cbn; [done..|].
    destruct (Z.compare_spec a b) as [->| |]; cbn.
    + rewrite IH. split; congruence.
    + split; [done|intros [= ? ?]; lia].
    + split; [done|intros [= ? ?]; lia].
  - induction x as [|a x IH]; intros [|b y]; cbn; [done..|].
    rewrite (cmp_antisym Z.compare a b), IH. by destruct (Z.compare a b).
  - induction x as [|a x IH]; intros [|b y] [|c z]; cbn; try done.
    destruct (Z.compare_spec a b), (Z.compare_spec b c), (Z.compare_spec a c);
      cbn; try done; try lia. apply IH.
Qed.

#[export] Instance bool_Cmp : Cmp Bool.compare.
Proof.
  split; [intros [] []; cbn; split; congruence|by intros [] []|by intros [] [] []].
Qed.

(** Keys compare as the tuple of their fields, with the timestamp and the
    delete flag reversed. *)
Lemma Compare_tuple k o :
  Compare k o =
  bytes_Compare (Row k) (Row o) <?>
  bytes_Compare (ColumnFamily k) (ColumnFamily o) <?>
  bytes_Compare (ColumnQualifier k) (ColumnQualifier o) <?>
  bytes_Compare (ColumnVisibility k) (ColumnVisibility o) <?>
  Z.compare (Timestamp o) (Timestamp k) <?> Bool.compare (Deleted o) (Deleted k).
Proof.
  unfold Compare. do 4 f_equal.
  destruct (Z.eqb_spec (Timestamp k) (Timestamp o)) as [->|]; cbn [negb].
  - rewrite Z.compare_refl. cbn. by destruct (Deleted k), (Deleted o).
  - destruct (Z.ltb_spec (Timestamp o) (Timestamp k)) as [H|H].
    + by rewrite (proj2 (Z.compare_lt_iff _ _) H).
    + by rewrite (proj2 (Z.compare_gt_iff (Timestamp o) (Timestamp k))) by lia.
Qed.

Definition key_tuple (k : Key) :=
  (Row k, (ColumnFamily k, (ColumnQualifier k, (ColumnVisibility k, (Timestamp k, Deleted k))))).

Lemma Cmp_inj {A B} (f : A -> B) (c : B -> B -> comparison) (d : A -> A -> comparison) :
  Cmp c -> (forall x y, f x = f y -> x = y) -> (forall x y, d x y = c (f x) (f y)) -> Cmp d.
Proof.
  intros Hc Hf Hd. split; intros *; rewrite !Hd.
  - rewrite (cmp_eq c). split; [apply Hf|congruence].
  - apply (cmp_antisym c).
  - apply (cmp_trans c).
Qed.

(** The key order is linear: antisymmetric, transitive, and only a key itself
    compares equal to it. *)
#[export] Instance Compare_Cmp : Cmp Compare.
Proof.
  apply (Cmp_inj key_tuple (fun x y =>
    bytes_Compare x.1 y.1 <?> bytes_Compare x.2.1 y.2.1 <?> bytes_Compare x.2.2.1 y.2.2.1 <?>
    bytes_Compare x.2.2.2.1 y.2.2.2.1 <?> Z.compare y.2.2.2.2.1 x.2.2.2.2.1 <?>
    Bool.compare y.2.2.2.2.2 x.2.2.2.2.2)); [| |apply Compare_tuple].
  - pose proof (lex_Cmp _ _ (flip_Cmp _ Z_Cmp) (flip_Cmp _ bool_Cmp)) as H.
    do 4 apply (lex_Cmp bytes_Compare _ bytes_Cmp) in H. exact H.
  - intros [] []. unfold key_tuple. cbn. congruence.
Qed.

(** The order on coordinates that [CompareRowCFCQCV] computes. *)
Definition coord_cmp (x y : bytes * (bytes * (bytes * bytes))) : comparison :=
  bytes_Compare x.1 y.1 <?> bytes_Compare x.2.1 y.2.1 <?>
  bytes_Compare x.2.2.1 y.2.2.1 <?> bytes_Compare x.2.2.2 y.2.2.2.

#[export] Instance coord_Cmp : Cmp coord_cmp.
Proof.
  pose proof bytes_Cmp as H. do 3 apply (lex_Cmp bytes_Compare _ bytes_Cmp) in H. exact H.
Qed.

Lemma CompareRowCFCQCV_coord k o : CompareRowCFCQCV k o = coord_cmp (coord k) (coord o).
Proof. done. Qed.

Lemma CompareRowCFCQCV_eq k o : CompareRowCFCQCV k o = Eq <-> coord k = coord o.
Proof. rewrite CompareRowCFCQCV_coord. apply (cmp_eq coord_cmp). Qed.

Lemma then_cmp_assoc a b c : (a <?> b) <?> c = a <?> b <?> c.
Proof. by destruct a. Qed.

(** The full order refines the coordinate order. *)
Lemma Compare_coord k o :
  Compare k o = CompareRowCFCQCV k o <?>
    Z.compare (Timestamp o) (Timestamp k) <?> Bool.compare (Deleted o) (Deleted k).
Proof. rewrite Compare_tuple. unfold CompareRowCFCQCV. by rewrite !then_cmp_assoc. Qed.

Lemma Key_Equal_spec k o : Key_Equal k o = true <-> k = o.
Proof.
  unfold Key_Equal, bytes_Equal. rewrite !andb_true_iff, !bool_decide_eq_true, Z.eqb_eq, Bool.eqb_true_iff.
  destruct k, o; cbn. split; [intros; destruct_and!; congruence|by intros [= -> -> -> -> -> ->]].
Qed.

(** [key_le]: sorted order of an iterator's output. *)
Definition key_le (k o : Key) : Prop := Compare k o <> Gt.

#[export] Instance key_le_dec : RelDecision key_le.
Proof. intros k o. unfold key_le. apply _. Defined.

#[export] Instance key_le_preorder : PreOrder key_le.
Proof.
  split.
  - intros k. unfold key_le. by rewrite (cmp_refl Compare).
  - intros x y z. unfold key_le. destruct (Compare x y) eqn:E1; [| |done].
    + by apply (cmp_eq Compare) in E1 as ->.
    + destruct (Compare y z) eqn:E2; [| |done].
      * apply (cmp_eq Compare) in E2 as ->. by rewrite E1.
      * by rewrite (cmp_trans Compare _ _ _ E1 E2).
Qed.

#[export] Instance key_le_antisymm : AntiSymm eq key_le.
Proof.
  intros x y. unfold key_le. rewrite (cmp_antisym Compare x y).
  destruct (Compare x y) eqn:E; cbn; [by apply (cmp_eq Compare) in E as ->|done|done].
Qed.

#[export] Instance key_le_total : Total key_le.
Proof.
  intros x y. unfold key_le. rewrite (cmp_antisym Compare x y).
  destruct (Compare x y); cbn; auto.
Qed.

Lemma key_lt_le k o : Compare k o = Lt -> key_le k o.
Proof. unfold key_le. by intros ->. Qed.

(** Keys between two keys of one coordinate have that coordinate: the versions
    of a cell are contiguous in a sorted stream. *)
Lemma key_le_coord_between a b c :
  key_le a b -> key_le b c -> coord a = coord c -> coord b = coord a.
Proof.
  unfold key_le. rewrite !Compare_coord, !CompareRowCFCQCV_coord. intros Hab Hbc Hac.
  rewrite <-Hac, (cmp_antisym coord_cmp (coord a) (coord b)) in Hbc.
  destruct (coord_cmp (coord a) (coord b)) eqn:E; cbn in *; [|done|done].
  by apply (cmp_eq coord_cmp) in E.
Qed.

(** ** Variable-length integers *)

Lemma int8_uint8 x : -128 <= x < 128 -> int8 (uint8 x) = x.
Proof.
  intros. unfold int8, uint8. rewrite Zplus_mod_idemp_l, Z.mod_small; lia.
Qed.

Lemma int8_id x : -128 <= x < 128 -> int8 x = x.
Proof. intros. unfold int8. rewrite Z.mod_small; lia. Qed.

Lemma uint8_byte x : is_byte (uint8 x).
Proof. unfold is_byte, uint8. pose proof (Z.mod_pos_bound x (2 ^ 8)). lia. Qed.

Lemma mag_step i b : is_byte b -> Z.lor (int64 (Z.shiftl i 8)) b = int64 (i * 256 + b).
Proof.
  intros Hb. rewrite Z.shiftl_mul_pow2 by lia. change (2 ^ 8) with 256.
  unfold int64. set (q := (i * 256 + 2 ^ 63) / 2 ^ 64).
  assert (i * 256 + 2 ^ 63 = 2 ^ 64 * q + (i * 256 + 2 ^ 63) mod 2 ^ 64) as E by (apply Z.div_mod; lia).
  pose proof (Z.mod_pos_bound (i * 256 + 2 ^ 63) (2 ^ 64) ltac:(lia)) as Hm.
  replace ((i * 256 + 2 ^ 63) mod 2 ^ 64 - 2 ^ 63) with (Z.shiftl (i - 2 ^ 56 * q) 8)
    by (rewrite Z.shiftl_mul_pow2 by lia; lia).
  rewrite lor_shiftl_byte by done. unfold is_byte in Hb.
  rewrite <-(Z.mod_unique (i * 256 + b + 2 ^ 63) (2 ^ 64) q ((i * 256 + 2 ^ 63) mod 2 ^ 64 + b)); lia.
Qed.

Lemma int64_be_get_acc a l :
  is_bytes l -> int64 (be_get_acc (int64 a) l) = int64 (be_get_acc a l).
Proof.
  intros Hl. revert a. induction Hl as [|b l Hb Hl IH]; intros a; unfold be_get_acc; cbn [foldl].
  - apply int64_id, int64_range.
  - fold (be_get_acc (Z.lor (Z.shiftl (int64 a) 8) b) l) (be_get_acc (Z.lor (Z.shiftl a 8) b) l).
    rewrite !lor_shiftl_byte by done.
    by rewrite <-IH, int64_step, IH.
Qed.

Lemma ReadVLong_mag_parses l i :
  is_bytes l -> in_int64 i ->
  parses (ReadVLong_mag (length l) i) l (int64 (be_get_acc i l)).
Proof.
  intros Hl. revert i. induction Hl as [|b l Hb Hl IH]; intros i Hi; cbn [ReadVLong_mag length].
  - unfold be_get_acc. cbn. rewrite int64_id by done. apply parses_ret.
  - change (b :: l) with ([b] ++ l). eapply parses_bind; [by eauto with parse|].
    rewrite mag_step by done. unfold be_get_acc. cbn [foldl app].
    fold (be_get_acc (Z.lor (Z.shiftl i 8) b) l).
    rewrite lor_shiftl_byte, <-int64_be_get_acc by done. apply IH, int64_range.
Qed.

Lemma bytesNeeded_spec fuel tmp :
  0 <= tmp < 256 ^ Z.of_nat fuel ->
  tmp < 256 ^ Z.of_nat (bytesNeeded fuel tmp) /\ (bytesNeeded fuel tmp <= fuel)%nat /\
  (0 < tmp -> (1 <= bytesNeeded fuel tmp)%nat).
Proof.
  revert tmp. induction fuel as [|f IH]; intros tmp Ht; cbn [bytesNeeded].
  { cbn in *. lia. }
  destruct (Z.eqb_spec tmp 0) as [->|Hne]; [cbn; lia|].
  rewrite Nat2Z.inj_succ, Z.pow_succ_r in Ht by lia.
  assert (Z.shiftr tmp 8 = tmp / 256) as E by by rewrite Z.shiftr_div_pow2.
  rewrite E. destruct (IH (tmp / 256)) as (H1 & H2 & _).
  { split; [apply Z.div_pos; lia|apply Z.div_lt_upper_bound; lia]. }
  rewrite Nat2Z.inj_succ, Z.pow_succ_r by lia. split; [|lia].
  pose proof (Z.div_mod tmp 256). pose proof (Z.mod_pos_bound tmp 256). lia.
Qed.

Lemma DecodeVIntSize_single v :
  -112 <= v <= 127 -> DecodeVIntSize (uint8 (int8 v)) = 1.
Proof.
  intros. unfold DecodeVIntSize.
  by rewrite (int8_id v), int8_uint8, Z.geb_leb, (proj2 (Z.leb_le _ _)) by lia.
Qed.

Lemma DecodeVIntSize_multi (neg : bool) (n : nat) :
  (1 <= n <= 8)%nat ->
  DecodeVIntSize (uint8 (int8 ((if neg then -120 else -112) - Z.of_nat n))) = 1 + Z.of_nat n.
Proof.
  intros Hn. set (x := (if neg then -120 else -112) - Z.of_nat n).
  assert (-128 <= x < -112) as Hx by (unfold x; destruct neg; lia).
  unfold DecodeVIntSize. rewrite (int8_id x), int8_uint8, Z.geb_leb, (proj2 (Z.leb_gt _ _)) by lia.
  destruct (Z.ltb_spec x (-120)); unfold x in *; destruct neg; lia.
Qed.

Lemma ReadVLong_multi (neg : bool) mag :
  0 < mag < 2 ^ 63 ->
  let n := bytesNeeded 8 mag in
  let bias := if neg then -120 else -112 in
  parses ReadVLong (uint8 (int8 (bias - Z.of_nat n)) :: be_put n mag)
    (if neg then Z.lnot mag else mag, 1 + Z.of_nat n).
Proof.
  intros Hm n bias. destruct (bytesNeeded_spec 8 mag) as (H1 & H2 & H3).
  { change (256 ^ Z.of_nat 8) with (2 ^ 64). lia. }
  fold n in H1, H2, H3. specialize (H3 ltac:(lia)).
  pose proof (DecodeVIntSize_multi neg n ltac:(lia)) as Hsize. fold bias in Hsize.
  set (x := bias - Z.of_nat n) in *.
  assert (-128 <= x < -112) as Hx by (unfold x, bias; destruct neg; lia).
  rewrite (int8_id x) in * by lia.
  change (uint8 x :: be_put n mag) with ([uint8 x] ++ be_put n mag).
  eapply parses_bind; [apply parses_ReadByte|]. rewrite Hsize.
  apply parses_if_false; [lia|]. apply parses_if_false; [lia|].
  apply parses_app_nil. eapply parses_bind.
  { replace (Z.to_nat (1 + Z.of_nat n - 1)) with (length (be_put n mag)) by (rewrite be_put_length; lia).
    apply ReadVLong_mag_parses; [apply be_put_bytes|unfold in_int64; lia]. }
  fold (be_get (be_put n mag)). rewrite be_get_put by lia.
  rewrite int64_id by (unfold in_int64; lia).
  replace (IsNegativeVInt (uint8 x)) with neg; [apply parses_ret|].
  unfold IsNegativeVInt. rewrite int8_uint8 by lia. unfold x, bias in *. destruct neg; lia.
Qed.

Lemma ReadVLong_WriteVLong v :
  in_int64 v -> parses ReadVLong (WriteVLong v).1 (v, (WriteVLong v).2).
Proof.
  unfold in_int64. intros Hv. unfold WriteVLong.
  destruct ((v >=? -112) && (v <=? 127)) eqn:Hs; cbn [fst snd].
  { assert (-112 <= v <= 127) by lia.
    apply parses_app_nil. eapply parses_bind; [apply parses_ReadByte|].
    rewrite DecodeVIntSize_single, (int8_id v), int8_uint8 by lia. apply parses_ret. }
  destruct (Z.ltb_spec v 0).
  - pose proof (ReadVLong_multi true (Z.lnot v)) as P. cbv zeta in P.
    rewrite Z.lnot_involutive in P. apply P. unfold Z.lnot. lia.
  - apply (ReadVLong_multi false v). lia.
Qed.

Lemma ReadVInt_WriteVInt v :
  in_int32 v -> parses ReadVInt (WriteVInt v).1 (v, (WriteVInt v).2).
Proof.
  intros Hv. unfold in_int32 in *. apply parses_app_nil.
  eapply parses_bind; [apply ReadVLong_WriteVLong; unfold in_int64; lia|]. cbn.
  apply parses_if_false; [lia|]. rewrite int32_id by done. apply parses_ret.
Qed.

Lemma parses_ReadInt32 v : in_int32 v -> parses ReadInt32 (WriteInt32 v) v.
Proof.
  intros Hv. unfold WriteInt32, ReadInt32. apply parses_app_nil.
  eapply parses_bind; [apply parses_wrap, parses_ReadFull; unfold len; by rewrite be_put_length|].
  rewrite be_get_put, int32_uint32, int32_id by (try done; apply Z.mod_pos_bound; lia). apply parses_ret.
Qed.

Lemma parses_ReadInt64 v : in_int64 v -> parses ReadInt64 (WriteInt64 v) v.
Proof.
  intros Hv. unfold WriteInt64, ReadInt64. apply parses_app_nil.
  eapply parses_bind; [apply parses_wrap, parses_ReadFull; unfold len; by rewrite be_put_length|].
  rewrite be_get_put, int64_uint64, int64_id by (try done; apply Z.mod_pos_bound; lia). apply parses_ret.
Qed.

Lemma parses_ReadBool b : parses ReadBool (WriteBool b) b.
Proof.
  apply parses_app_nil. eapply parses_bind; [by apply parses_wrap, parses_ReadFull|].
  destruct b; apply parses_ret.
Qed.

Lemma parses_ReadUTF s bs : WriteUTF s = Ok bs -> parses ReadUTF bs s.
Proof.
  unfold WriteUTF. destruct (Z.gtb_spec (len s) 65535) as [|Hs]; [done|]. intros E0.
  assert (bs = be_put 2 (uint16 (len s)) ++ s) as -> by congruence. clear E0.
  pose proof (len_nonneg s). unfold ReadUTF. eapply parses_bind.
  { apply parses_wrap, parses_ReadFull. unfold len. by rewrite be_put_length. }
  assert (uint16 (len s) = len s) as E by (apply Z.mod_small; lia).
  rewrite be_get_put, E, E by (rewrite E; cbn; lia).
  destruct (Z.eqb_spec (len s) 0) as [H0|_].
  - rewrite (len_0_nil s H0). apply parses_ret.
  - by apply parses_wrap, parses_ReadFull.
Qed.

#[export] Hint Resolve ReadVLong_WriteVLong ReadVInt_WriteVInt parses_ReadInt32
  parses_ReadInt64 parses_ReadBool parses_ReadUTF : parse.

(** The offsets [WriteKey] stores are the true cumulative lengths. *)
Lemma int32_off a b : 0 <= a -> 0 <= b -> a + b < 2 ^ 31 -> int32 (a + int32 b) = a + b.
Proof. intros. rewrite (int32_id b), int32_id; unfold in_int32; lia. Qed.

Lemma ReadKey_WriteKey k : key_ok k -> parses ReadKey (WriteKey k) k.
Proof.
  unfold key_ok, key_len. intros [Hts Hlen].
  pose proof (len_nonneg (Row k)). pose proof (len_nonneg (ColumnFamily k)).
  pose proof (len_nonneg (ColumnQualifier k)). pose proof (len_nonneg (ColumnVisibility k)).
  unfold WriteKey. rewrite (int32_id (len (Row k))) by (unfold in_int32; lia).
  rewrite !int32_off by lia.
  repeat (eapply parses_bind; [apply parses_wrap, ReadVInt_WriteVInt; unfold in_int32; lia|]; cbn beta iota).
  apply parses_if_false; [lia|].
  do 4 (eapply parses_bind; [apply parses_wrap, parses_ReadFull; lia|]; cbn beta).
  eapply parses_bind; [by apply parses_wrap, ReadVLong_WriteVLong|]. cbn beta iota.
  apply parses_app_nil. eapply parses_bind; [apply parses_wrap, parses_ReadBool|].
  destruct k; apply parses_ret.
Qed.

Lemma WriteVLong_size v :
  in_int64 v ->
  exists first mag, (WriteVLong v).1 = first :: mag /\ is_byte first /\
    DecodeVIntSize first = (WriteVLong v).2 /\ len (first :: mag) = (WriteVLong v).2 /\
    1 <= (WriteVLong v).2 <= 9.
Proof.
  unfold in_int64, WriteVLong. intros Hv.
  destruct ((v >=? -112) && (v <=? 127)) eqn:Hs; cbn [fst snd].
  - eexists _, _. split_and!; [done|apply uint8_byte|apply DecodeVIntSize_single; lia|done|lia|lia].
  - set (mag := if v <? 0 then Z.lnot v else v).
    assert (0 < mag < 2 ^ 63) by (unfold mag, Z.lnot; destruct (Z.ltb_spec v 0); lia).
    destruct (bytesNeeded_spec 8 mag) as (H1 & H2 & H3).
    { change (256 ^ Z.of_nat 8) with (2 ^ 64). lia. }
    eexists _, _. split_and!; [done|apply uint8_byte|apply DecodeVIntSize_multi; lia
      |unfold len; cbn [length]; rewrite be_put_length; lia|lia|lia].
Qed.

(** ** Properties *)

(** The standalone key encoding round-trips: [ReadKey] on what [WriteKey]
    wrote returns the same key and leaves the bytes after it, and on any
    proper prefix of an encoded key it fails with an end-of-file error. *)
Theorem key_codec_roundtrip k :
  key_ok k ->
  (forall rest, ReadKey (WriteKey k ++ rest) = Ok (k, rest)) /\
  (forall s t, t <> [] -> WriteKey k = s ++ t ->
     exists e, ReadKey s = Err e /\ eof_like e = true).
Proof. apply ReadKey_WriteKey. Qed.

Definition ex_key : Key := mkKey [114; 49] [102] [113] [] (-5) true.

Lemma key_codec_roundtrip_witness :
  ReadKey (WriteKey ex_key ++ [7]) = Ok (ex_key, [7]) /\
  exists e, ReadKey (take 3 (WriteKey ex_key)) = Err e /\ eof_like e = true.
Proof.
  assert (key_ok ex_key) as Hk by (split; vm_compute; [split|]; congruence).
  destruct (key_codec_roundtrip ex_key Hk) as [H1 H2]. split; [apply H1|].
  apply (H2 _ (drop 3 (WriteKey ex_key))); [vm_compute; congruence|symmetry; apply take_drop].
Defined.

(** Variable-length integers: for every int64 the encoding is 1 to 9 bytes
    long, its first byte alone determines that length ([DecodeVIntSize]), and
    [ReadVLong] returns the value with the number of bytes consumed, leaving
    the rest of the input; for an int32, [ReadVInt] accepts it too. *)
Theorem vlong_roundtrip v :
  in_int64 v ->
  (exists first mag, (WriteVLong v).1 = first :: mag /\
     DecodeVIntSize first = len (WriteVLong v).1 /\ 1 <= len (WriteVLong v).1 <= 9) /\
  (forall rest, ReadVLong ((WriteVLong v).1 ++ rest) = Ok ((v, len (WriteVLong v).1), rest)) /\
  (in_int32 v ->
   forall rest, ReadVInt ((WriteVInt v).1 ++ rest) = Ok ((v, len (WriteVInt v).1), rest)).
Proof.
  intros Hv. destruct (WriteVLong_size v Hv) as (first & mag & E & _ & H1 & H2 & H3).
  assert (len (WriteVLong v).1 = (WriteVLong v).2) as El by (by rewrite E).
  rewrite !El. split_and!; [|apply (ReadVLong_WriteVLong v Hv)|].
  - eauto.
  - intros Hv32. unfold WriteVInt. rewrite El. apply (ReadVInt_WriteVInt v Hv32).
Qed.

Lemma vlong_roundtrip_witness :
  in_int64 (-300) /\ ReadVLong ((WriteVLong (-300)).1 ++ [1]) = Ok ((-300, 3), [1]).
Proof.
  assert (in_int64 (-300)) as H by (vm_compute; split; congruence).
  split; [exact H|]. apply (proj1 (proj2 (vlong_roundtrip (-300) H))).
Defined.

(** The key order.  [Compare] is a linear order whose equality is
    [Key.Equal]; within one coordinate a newer timestamp sorts first, and at
    one timestamp the tombstone sorts before the live cell; and the versions
    of a coordinate are contiguous in the order. *)
Theorem key_order :
  (forall k o, Compare k o = Eq <-> Key_Equal k o = true) /\
  (forall k o, Compare o k = CompOpp (Compare k o)) /\
  (forall a b c, Compare a b = Lt -> Compare b c = Lt -> Compare a c = Lt) /\
  (forall k o, CompareRowCFCQCV k o = Eq ->
     (Timestamp o < Timestamp k -> Compare k o = Lt) /\
     (Timestamp k = Timestamp o -> Deleted k = true -> Deleted o = false -> Compare k o = Lt)) /\
  (forall a b c, Compare a b <> Gt -> Compare b c <> Gt ->
     CompareRowCFCQCV a c = Eq -> CompareRowCFCQCV a b = Eq).
Proof.
  split_and!.
  - intros. rewrite Key_Equal_spec. apply (cmp_eq Compare).
  - apply (cmp_antisym Compare).
  - apply (cmp_trans Compare).
  - intros k o E. rewrite Compare_coord, E. cbn. split.
    + intros Ht. by rewrite (proj2 (Z.compare_lt_iff _ _) Ht).
    + intros -> -> ->. by rewrite Z.compare_refl.
  - intros a b c Hab Hbc. rewrite !CompareRowCFCQCV_eq. intros Hac.
    symmetry. by apply (key_le_coord_between a b c).
Qed.
