(* ===== verification/RelKey.v ===== *)
(** * RelKey: the relative-key block codec (src/internal/rfile/relkey)

    Every RFile data block is a run of cells whose keys are encoded against
    the key before them (encode.go) and decoded by a cursor over the
    decompressed block (cursor.go, relkey.go).  Slices are their contents:
    the scratch buffers the reader reuses in place between cells are not
    modelled. *)

From S2P Require Import Prelude Wire.

(** ** Flag bits *)

Definition RowSame : Z := Z.shiftl 1 0.
Definition CFSame : Z := Z.shiftl 1 1.
Definition CQSame : Z := Z.shiftl 1 2.
Definition CVSame : Z := Z.shiftl 1 3.
Definition TSSame : Z := Z.shiftl 1 4.
Definition DeletedBit : Z := Z.shiftl 1 5.
Definition PrefixCompressionEnabled : Z := Z.shiftl 1 7.

Definition RowCommonPrefix : Z := Z.shiftl 1 0.
Definition CFCommonPrefix : Z := Z.shiftl 1 1.
Definition CQCommonPrefix : Z := Z.shiftl 1 2.
Definition CVCommonPrefix : Z := Z.shiftl 1 3.
Definition TSDiff : Z := Z.shiftl 1 4.

(** [x & mask != 0]. *)
Definition has (x mask : Z) : bool := negb (Z.land x mask =? 0).
(** [x & mask == mask]. *)
Definition has_all (x mask : Z) : bool := Z.land x mask =? mask.

(** ** The block cursor (cursor.go) *)

Record rcursor := mkCursor { cur_buf : bytes; cur_pos : nat }.

Definition advance (c : rcursor) (n : nat) : rcursor :=
  mkCursor (cur_buf c) (cur_pos c + n).

(** The bytes the cursor has not consumed. *)
Definition remaining (c : rcursor) : bytes := drop (cur_pos c) (cur_buf c).

(** Each method returns [None] for [ok = false]; the position after a failed
    call is never observed, since the reader latches an error then. *)
Definition byteAt (c : rcursor) : option (Z * rcursor) :=
  match cur_buf c !! cur_pos c with
  | None => None
  | Some b => Some (b, advance c 1)
  end.

Definition sliceN (n : Z) (c : rcursor) : option (bytes * rcursor) :=
  if n <? 0 then None
  else
    let end_ := Z.of_nat (cur_pos c) + n in
    if end_ >? len (cur_buf c) then None
    else Some (take (Z.to_nat n) (drop (cur_pos c) (cur_buf c)), advance c (Z.to_nat n)).

Definition skip (n : Z) (c : rcursor) : option (unit * rcursor) :=
  if n <? 0 then None
  else
    let end_ := Z.of_nat (cur_pos c) + n in
    if end_ >? len (cur_buf c) then None else Some (tt, advance c (Z.to_nat n)).

Definition int32be (c : rcursor) : option (Z * rcursor) :=
  if Z.of_nat (cur_pos c) + 4 >? len (cur_buf c) then None
  else Some (int32 (be_get (take 4 (drop (cur_pos c) (cur_buf c)))), advance c 4).

(** [for k := 0; k < mag; k++ { i = (i << 8) | int64(c.buf[c.pos+k]) }]. *)
Definition vlong_mag (bs : bytes) : Z :=
  foldl (fun i b => Z.lor (int64 (Z.shiftl i 8)) b) 0 bs.

Definition vlong (c : rcursor) : option (Z * rcursor) :=
  match cur_buf c !! cur_pos c with
  | None => None
  | Some b =>
      let first := int8 b in
      let c := advance c 1 in
      if first >=? -112 then Some (first, c)
      else
        let size := if first <? -120 then -119 - first else -111 - first in
        let mag := size - 1 in
        if Z.of_nat (cur_pos c) + mag >? len (cur_buf c) then None
        else
          let i := vlong_mag (take (Z.to_nat mag) (drop (cur_pos c) (cur_buf c))) in
          let c := advance c (Z.to_nat mag) in
          Some (if (first <? -120) || ((first >=? -112) && (first <? 0)) then Z.lnot i else i, c)
  end.

Definition vint (c : rcursor) : option (Z * rcursor) :=
  match vlong c with
  | None => None
  | Some (v, c) =>
      if (v >? 2 ^ 31 - 1) || (v <? - 2 ^ 31) then None else Some (int32 v, c)
  end.

(** ** Encoding one cell (encode.go) *)

(** Length of the longest common prefix. *)
Fixpoint common_len (a b : bytes) : nat :=
  match a, b with
  | x :: a', y :: b' => if x =? y then S (common_len a' b') else O
  | _, _ => O
  end.

Definition computeCommon (prev cur : bytes) (sameBit prefixBit fs fp : Z)
  : Z * Z * Z :=
  if bytes_Equal prev cur then (-1, Z.lor fs sameBit, fp)
  else
    let common := Z.of_nat (common_len prev cur) in
    if common >? 1 then (common, fs, Z.lor fp prefixBit)
    else (common, fs, fp).

Definition writeField (field : bytes) (commonLen fs fp sameBit prefixBit : Z) : bytes :=
  if has_all fs sameBit then []
  else if has_all fp prefixBit then
    (WriteVInt (int32 commonLen)).1 ++ (WriteVInt (int32 (len field - commonLen))).1 ++
    drop (Z.to_nat commonLen) field
  else (WriteVInt (int32 (len field))).1 ++ field.

(** The locals [EncodeKey] computes before it writes anything. *)
Record kflags := mkFlags {
  rowPrefix : Z; cfPrefix : Z; cqPrefix : Z; cvPrefix : Z;
  tsDiff : Z;
  fieldsSame : Z; fieldsPrefixed : Z;
}.

Definition key_flags (prev : option Key) (k : Key) : kflags :=
  match prev with
  | None => mkFlags 0 0 0 0 0 (if Deleted k then Z.lor 0 DeletedBit else 0) 0
  | Some prev =>
      let '(rowPrefix, fs, fp) := computeCommon (Row prev) (Row k) RowSame RowCommonPrefix 0 0 in
      let '(cfPrefix, fs, fp) := computeCommon (ColumnFamily prev) (ColumnFamily k) CFSame CFCommonPrefix fs fp in
      let '(cqPrefix, fs, fp) := computeCommon (ColumnQualifier prev) (ColumnQualifier k) CQSame CQCommonPrefix fs fp in
      let '(cvPrefix, fs, fp) := computeCommon (ColumnVisibility prev) (ColumnVisibility k) CVSame CVCommonPrefix fs fp in
      let tsDiff := int64 (Timestamp k - Timestamp prev) in
      let '(fs, fp) := if tsDiff =? 0 then (Z.lor fs TSSame, fp) else (fs, Z.lor fp TSDiff) in
      let fs := if negb (fp =? 0) then Z.lor fs PrefixCompressionEnabled else fs in
      let fs := if Deleted k then Z.lor fs DeletedBit else fs in
      mkFlags rowPrefix cfPrefix cqPrefix cvPrefix tsDiff fs fp
  end.

(** The key part: flag bytes, the four fields, the timestamp. *)
Definition encode_rel (f : kflags) (k : Key) : bytes :=
  [fieldsSame f] ++
  (if has_all (fieldsSame f) PrefixCompressionEnabled then [fieldsPrefixed f] else []) ++
  writeField (Row k) (rowPrefix f) (fieldsSame f) (fieldsPrefixed f) RowSame RowCommonPrefix ++
  writeField (ColumnFamily k) (cfPrefix f) (fieldsSame f) (fieldsPrefixed f) CFSame CFCommonPrefix ++
  writeField (ColumnQualifier k) (cqPrefix f) (fieldsSame f) (fieldsPrefixed f) CQSame CQCommonPrefix ++
  writeField (ColumnVisibility k) (cvPrefix f) (fieldsSame f) (fieldsPrefixed f) CVSame CVCommonPrefix ++
  (if has_all (fieldsSame f) TSSame then []
   else if has_all (fieldsPrefixed f) TSDiff then (WriteVLong (tsDiff f)).1
   else (WriteVLong (Timestamp k)).1).

Definition EncodeKey (prev : option Key) (k : Key) (value : bytes) : bytes :=
  encode_rel (key_flags prev k) k ++ be_put 4 (int32 (len value)) ++ value.

(** ** Decoding (relkey.go) *)

(** One of row, family, qualifier, visibility: SAME, COMMON_PREFIX or NEW. *)
Definition field (fs fp sameBit prefixBit : Z) (prev : bytes) (c : rcursor)
  : result (bytes * rcursor) :=
  if has fs sameBit then Ok (prev, c)
  else if has fp prefixBit then
    match vint c with
    | None => Err UnexpectedEOF
    | Some (prefixLen, c) =>
        if (prefixLen <? 0) || (prefixLen >? len prev)
        then Err (Fail "prefix len out of range")
        else match vint c with
        | None => Err UnexpectedEOF
        | Some (suffixLen, c) =>
            if suffixLen <? 0 then Err (Fail "negative suffix len")
            else match sliceN suffixLen c with
            | None => Err UnexpectedEOF
            | Some (suffix, c) => Ok (take (Z.to_nat prefixLen) prev ++ suffix, c)
            end
        end
    end
  else
    match vint c with
    | None => Err UnexpectedEOF
    | Some (n, c) =>
        if n <? 0 then Err (Fail "negative field length")
        else match sliceN n c with
        | None => Err UnexpectedEOF
        | Some (out, c) => Ok (out, c)
        end
    end.

(** The timestamp of a relative key. *)
Definition decode_ts (fs fp : Z) (prev : Z) (c : rcursor) : result (Z * rcursor) :=
  if has fs TSSame then Ok (prev, c)
  else if has fp TSDiff then
    match vlong c with
    | None => Err UnexpectedEOF
    | Some (delta, c) => Ok (int64 (delta + prev), c)
    end
  else
    match vlong c with
    | None => Err UnexpectedEOF
    | Some (v, c) => Ok (v, c)
    end.

(** [decodeKey] after the flag bytes; [hasPrev] and [prev] are the reader's
    fields of those names. *)
Definition decode_fields (hasPrev : bool) (prev : Key) (fs fp : Z) (c : rcursor) : result (Key * rcursor) :=
  if negb hasPrev &&
     (has fs (Z.lor RowSame (Z.lor CFSame (Z.lor CQSame (Z.lor CVSame TSSame)))) ||
      has fp (Z.lor RowCommonPrefix (Z.lor CFCommonPrefix (Z.lor CQCommonPrefix (Z.lor CVCommonPrefix TSDiff)))))
  then Err (Fail "relkey: first key in block has same/prefix bits set")
  else
    '(row, c) ← wrap "row" (field fs fp RowSame RowCommonPrefix (Row prev) c);
    '(cf, c) ← wrap "cf" (field fs fp CFSame CFCommonPrefix (ColumnFamily prev) c);
    '(cq, c) ← wrap "cq" (field fs fp CQSame CQCommonPrefix (ColumnQualifier prev) c);
    '(cv, c) ← wrap "cv" (field fs fp CVSame CVCommonPrefix (ColumnVisibility prev) c);
    '(ts, c) ← decode_ts fs fp (Timestamp prev) c;
    Ok (mkKey row cf cq cv ts (has fs DeletedBit), c).

Definition decodeKey (hasPrev : bool) (prev : Key) (c : rcursor) : result (Key * rcursor) :=
  match byteAt c with
  | None => Err UnexpectedEOF
  | Some (fs, c) =>
      if has fs PrefixCompressionEnabled then
        match byteAt c with
        | None => Err UnexpectedEOF
        | Some (fp, c) => decode_fields hasPrev prev fs fp c
        end
      else decode_fields hasPrev prev fs 0 c
  end.

Definition zero_key : Key := mkKey [] [] [] [] 0 false.

(** [Reader]: [r_err] is the sticky terminal error. *)
Record Reader := mkReader {
  r_cur : rcursor;
  r_entries : Z;
  r_read : Z;
  r_prev : Key;
  r_hasPrev : bool;
  r_filter : option (Key -> bool);
  r_err : option err;
}.

Definition NewReader (buf : bytes) (entries : Z) : Reader :=
  mkReader (mkCursor buf 0) entries 0 zero_key false None None.
Definition SetFilter (f : Key -> bool) (r : Reader) : Reader :=
  mkReader (r_cur r) (r_entries r) (r_read r) (r_prev r) (r_hasPrev r) (Some f) (r_err r).
Definition Remaining (r : Reader) : Z := r_entries r - r_read r.
Definition Reader_Err (r : Reader) : option err :=
  match r_err r with
  | Some e => if errors_Is e EOF then None else Some e
  | None => None
  end.

(** [r.err = e; return nil, nil, e]. *)
Definition latch (r : Reader) (e : err) : Reader :=
  mkReader (r_cur r) (r_entries r) (r_read r) (r_prev r) (r_hasPrev r) (r_filter r) (Some e).

(** The body of [NextView]'s loop, repeated over the cells the filter rejects;
    each turn consumes one of the [entries - read] cells the block owes. *)
Fixpoint NextView_loop (fuel : nat) (r : Reader) : Reader * result (Key * bytes) :=
  match fuel with
  | O => (r, Err (Fail "out of fuel"))
  | S fuel =>
      if r_read r >=? r_entries r then (latch r EOF, Err EOF)
      else match decodeKey (r_hasPrev r) (r_prev r) (r_cur r) with
      | Err e => (latch r e, Err e)
      | Ok (k, c) =>
          match int32be c with
          | None => (latch r UnexpectedEOF, Err UnexpectedEOF)
          | Some (valLen, c) =>
              if valLen <? 0 then
                (latch r (Fail "relkey: negative value length"), Err (Fail "relkey: negative value length"))
              else
                let r := mkReader c (r_entries r) (r_read r + 1) k true (r_filter r) (r_err r) in
                if match r_filter r with Some f => negb (f k) | None => false end then
                  match skip valLen c with
                  | None => (latch r UnexpectedEOF, Err UnexpectedEOF)
                  | Some (_, c) =>
                      NextView_loop fuel
                        (mkReader c (r_entries r) (r_read r) (r_prev r) (r_hasPrev r) (r_filter r) (r_err r))
                  end
                else
                  match sliceN valLen c with
                  | None => (latch r UnexpectedEOF, Err UnexpectedEOF)
                  | Some (val, c) =>
                      (mkReader c (r_entries r) (r_read r) (r_prev r) (r_hasPrev r) (r_filter r) (r_err r),
                       Ok (k, val))
                  end
          end
      end
  end.

Definition NextView (r : Reader) : Reader * result (Key * bytes) :=
  match r_err r with
  | Some e => (r, Err e)
  | None => NextView_loop (S (Z.to_nat (Remaining r))) r
  end.

(** [Next] clones what [NextView] returns. *)
Definition Reader_Next (r : Reader) : Reader * result (Key * bytes) := NextView r.

(** ** Cursor lemmas

    [at_ pre s] is the cursor that has consumed [pre] and still holds [s]. *)

Definition at_ (pre s : bytes) : rcursor := mkCursor (pre ++ s) (length pre).

Definition cparses {A} (op : rcursor -> option (A * rcursor)) (bs : bytes) (a : A) : Prop :=
  forall pre rest, op (at_ pre (bs ++ rest)) = Some (a, at_ (pre ++ bs) rest).

Lemma advance_at pre bs rest n :
  n = length bs -> advance (at_ pre (bs ++ rest)) n = at_ (pre ++ bs) rest.
Proof. intros ->. unfold advance, at_. cbn. by rewrite length_app, (assoc_L (++)). Qed.

Lemma at_lookup pre s : cur_buf (at_ pre s) !! cur_pos (at_ pre s) = head s.
Proof. cbn. rewrite lookup_app_r, Nat.sub_diag by lia. by destruct s. Qed.

Lemma at_drop pre s : drop (cur_pos (at_ pre s)) (cur_buf (at_ pre s)) = s.
Proof. apply drop_app_length. Qed.

Lemma at_fits pre s n :
  0 <= n -> (Z.of_nat (cur_pos (at_ pre s)) + n >? len (cur_buf (at_ pre s))) = (len s <? n).
Proof.
  intros. unfold at_; cbn. rewrite len_app. unfold len.
  destruct (Z.gtb_spec (Z.of_nat (length pre) + n) (Z.of_nat (length pre) + Z.of_nat (length s)));
    destruct (Z.ltb_spec (Z.of_nat (length s)) n); lia || done.
Qed.

Lemma len_app_ltb (bs rest : bytes) n : n = len bs -> (len (bs ++ rest) <? n) = false.
Proof. intros ->. rewrite len_app. pose proof (len_nonneg rest). lia. Qed.

Lemma cparses_byteAt b : cparses byteAt [b] b.
Proof.
  intros pre rest. unfold byteAt. rewrite at_lookup. cbn [app head].
  by rewrite (advance_at pre [b] rest).
Qed.

Lemma cparses_sliceN bs n : n = len bs -> cparses (sliceN n) bs bs.
Proof.
  intros -> pre rest. unfold sliceN. pose proof (len_nonneg bs).
  rewrite (proj2 (Z.ltb_ge _ _)), at_fits, len_app_ltb, at_drop by done.
  unfold len. rewrite Nat2Z.id, take_app_length. by rewrite advance_at.
Qed.

Lemma cparses_skip bs n : n = len bs -> cparses (skip n) bs tt.
Proof.
  intros -> pre rest. unfold skip. pose proof (len_nonneg bs).
  rewrite (proj2 (Z.ltb_ge _ _)), at_fits, len_app_ltb by done.
  unfold len. rewrite Nat2Z.id. by rewrite advance_at.
Qed.

Lemma cparses_int32be v : in_int32 v -> cparses int32be (be_put 4 v) v.
Proof.
  intros Hv pre rest. unfold int32be.
  rewrite at_fits, len_app_ltb, at_drop by (done || unfold len; by rewrite be_put_length).
  rewrite (take_app_length' _ _ 4) by done. rewrite advance_at by done.
  do 2 f_equal. unfold be_get. rewrite be_get_put_acc, Z.mul_0_l, Z.add_0_l.
  change (256 ^ Z.of_nat 4) with (2 ^ 32). fold (uint32 v). by rewrite int32_uint32, int32_id.
Qed.

(** The cursor's in-place varint decoder is [wire.ReadVLong]. *)
Lemma ReadVLong_mag_fold n i s :
  ReadVLong_mag n i s =
  if decide (n <= length s)%nat
  then Ok (foldl (fun i b => Z.lor (int64 (Z.shiftl i 8)) b) i (take n s), drop n s)
  else Err (Wrap "vint magnitude byte" EOF).
Proof.
  revert i s. induction n as [|n IH]; intros i s; cbn [ReadVLong_mag].
  { by rewrite decide_True by lia. }
  destruct s as [|b s]; [by rewrite decide_False by (cbn; lia)|].
  unfold mbind, reader_bind, rwrap. cbn [ReadByte wrap]. rewrite IH. cbn.
  repeat case_decide; done || lia.
Qed.

Lemma int8_range b : -128 <= int8 b < 128.
Proof. unfold int8. pose proof (Z.mod_pos_bound (b + 2 ^ 7) (2 ^ 8)). lia. Qed.

Lemma vlong_ReadVLong pre s :
  match ReadVLong s with
  | Ok ((v, n), s') => exists bs, s = bs ++ s' /\ len bs = n /\ vlong (at_ pre s) = Some (v, at_ (pre ++ bs) s')
  | Err _ => vlong (at_ pre s) = None
  end.
Proof.
  unfold vlong. rewrite at_lookup. destruct s as [|b s]; [done|]. cbn [head].
  unfold ReadVLong, mbind, reader_bind at 1. cbn [ReadByte].
  rewrite (advance_at pre [b] s) by done.
  unfold DecodeVIntSize, IsNegativeVInt. set (f := int8 b) in *. cbv zeta.
  assert (-128 <= f < 128) as Hf by apply int8_range.
  destruct (f >=? -112) eqn:E1.
  { cbn. exists [b]. done. }
  set (size := if f <? -120 then -119 - f else -111 - f).
  assert (2 <= size <= 9) as Hs by (unfold size; destruct (Z.ltb_spec f (-120)); lia).
  replace (size =? 1) with false by lia. replace (size >? 9) with false by lia.
  unfold reader_bind. rewrite ReadVLong_mag_fold, at_fits, at_drop by lia.
  case_decide as Hd.
  - replace (len s <? size - 1) with false by (unfold len; lia). cbn [mret reader_ret].
    exists (b :: take (Z.to_nat (size - 1)) s). split_and!.
    + cbn. by rewrite take_drop.
    + rewrite len_cons. unfold len. rewrite length_take. lia.
    + change (b :: take (Z.to_nat (size - 1)) s) with ([b] ++ take (Z.to_nat (size - 1)) s).
      rewrite (assoc_L (++)), <-(advance_at (pre ++ [b]) (take (Z.to_nat (size - 1)) s) _ (Z.to_nat (size - 1)))
        by (rewrite length_take; lia).
      by rewrite take_drop.
  - by replace (len s <? size - 1) with true by (unfold len; lia).
Qed.

Lemma cparses_vlong v : in_int64 v -> cparses vlong (WriteVLong v).1 v.
Proof.
  intros Hv pre rest. pose proof (vlong_ReadVLong pre ((WriteVLong v).1 ++ rest)) as P.
  rewrite (proj1 (ReadVLong_WriteVLong v Hv) rest) in P. destruct P as (bs & E & _ & ->).
  apply app_inv_tail in E as ->. done.
Qed.

Lemma cparses_vint v : in_int32 v -> cparses vint (WriteVInt v).1 v.
Proof.
  intros Hv pre rest. unfold vint, WriteVInt.
  rewrite cparses_vlong by (unfold in_int32, in_int64 in *; lia).
  unfold in_int32 in Hv. replace ((v >? 2 ^ 31 - 1) || (v <? - 2 ^ 31)) with false by lia.
  by rewrite int32_id.
Qed.

(** ** Flag lemmas *)

Lemma land_pow2 x i : 0 <= i -> Z.land x (Z.shiftl 1 i) = if Z.testbit x i then 2 ^ i else 0.
Proof.
  intros Hi. rewrite Z.shiftl_1_l. apply Z.bits_inj'. intros n Hn.
  rewrite Z.land_spec, Z.pow2_bits_eqb by done.
  destruct (Z.eqb_spec i n) as [->|Hne].
  - destruct (Z.testbit x n); cbn; [by rewrite Z.pow2_bits_true|by rewrite Z.bits_0].
  - rewrite andb_false_r. destruct (Z.testbit x i); [by rewrite Z.pow2_bits_false|by rewrite Z.bits_0].
Qed.

Lemma has_testbit x i : 0 <= i -> has x (Z.shiftl 1 i) = Z.testbit x i.
Proof.
  intros Hi. unfold has. rewrite land_pow2 by done. pose proof (Z.pow_pos_nonneg 2 i ltac:(lia) Hi).
  destruct (Z.testbit x i); [|done]. by rewrite (proj2 (Z.eqb_neq _ _)) by lia.
Qed.

Lemma has_all_testbit x i : 0 <= i -> has_all x (Z.shiftl 1 i) = Z.testbit x i.
Proof.
  intros Hi. unfold has_all. rewrite land_pow2, Z.shiftl_1_l by done.
  pose proof (Z.pow_pos_nonneg 2 i ltac:(lia) Hi).
  destruct (Z.testbit x i); [apply Z.eqb_refl|]. rewrite (proj2 (Z.eqb_neq _ _)) by lia. done.
Qed.

(** ** One field *)

Lemma common_len_spec a b :
  take (common_len a b) a = take (common_len a b) b /\
  (common_len a b <= length a)%nat /\ (common_len a b <= length b)%nat.
Proof.
  revert b. induction a as [|x a IH]; intros [|y b]; cbn; [split; [done|lia]..|].
  destruct (Z.eqb_spec x y) as [->|]; cbn; [|split; [done|lia]].
  destruct (IH b) as (-> & H1 & H2). split; [done|lia].
Qed.

Definition rparses {A} (op : rcursor -> result (A * rcursor)) (bs : bytes) (a : A) : Prop :=
  forall pre rest, op (at_ pre (bs ++ rest)) = Ok (a, at_ (pre ++ bs) rest).

(** What the encoder's flags say about a field relative to the previous one. *)
Definition field_flags (prev cur : bytes) (commonLen : Z) (same pfx : bool) : Prop :=
  (same = true -> cur = prev) /\
  (same = false -> pfx = true -> commonLen = Z.of_nat (common_len prev cur)).

Lemma field_rparses i fs fp prev cur commonLen :
  0 <= i -> len cur < 2 ^ 31 ->
  field_flags prev cur commonLen (Z.testbit fs i) (Z.testbit fp i) ->
  rparses (field fs fp (Z.shiftl 1 i) (Z.shiftl 1 i) prev)
    (writeField cur commonLen fs fp (Z.shiftl 1 i) (Z.shiftl 1 i)) cur.
Proof.
  intros Hi Hlen [Hsame Hpfx] pre rest. unfold field, writeField.
  rewrite !has_testbit, !has_all_testbit by done. pose proof (len_nonneg cur).
  destruct (Z.testbit fs i).
  { rewrite (Hsame eq_refl). cbn. by rewrite app_nil_r. }
  destruct (Z.testbit fp i).
  - rewrite (Hpfx eq_refl eq_refl). set (n := common_len prev cur).
    destruct (common_len_spec prev cur) as (Ht & Hp & Hc). fold n in Ht, Hp, Hc.
    assert (len cur - Z.of_nat n = len (drop n cur)) as Hd by (unfold len in *; rewrite length_drop; lia).
    rewrite !(int32_id) by (unfold in_int32, len in *; lia).
    rewrite <-!(assoc_L (++)), cparses_vint by (unfold in_int32, len in *; lia).
    replace ((Z.of_nat n <? 0) || (Z.of_nat n >? len prev)) with false by (unfold len; lia).
    rewrite cparses_vint by (unfold in_int32, len in *; lia).
    replace (len cur - Z.of_nat n <? 0) with false by (unfold len in *; lia).
    rewrite Nat2Z.id, cparses_sliceN by done.
    rewrite <-!(assoc_L (++)). by rewrite Ht, take_drop.
  - rewrite int32_id by (unfold in_int32; lia).
    rewrite <-!(assoc_L (++)), cparses_vint by (unfold in_int32; lia).
    replace (len cur <? 0) with false by lia.
    rewrite cparses_sliceN by done. by rewrite <-!(assoc_L (++)).
Qed.

(** ** The flags of a cell *)

Lemma testbit_lor_pow2 x i j : 0 <= i -> 0 <= j ->
  Z.testbit (Z.lor x (Z.shiftl 1 i)) j = Z.testbit x j || (i =? j).
Proof. intros. by rewrite Z.lor_spec, Z.shiftl_1_l, Z.pow2_bits_eqb. Qed.

(** A field's contribution: it sets only its own bits, in one of the two flag
    bytes. *)
Lemma computeCommon_bits i prev cur fs fp n fs' fp' :
  0 <= i ->
  computeCommon prev cur (Z.shiftl 1 i) (Z.shiftl 1 i) fs fp = (n, fs', fp') ->
  Z.testbit fs i = false -> Z.testbit fp i = false ->
  field_flags prev cur n (Z.testbit fs' i) (Z.testbit fp' i) /\
  (forall j, 0 <= j -> i <> j -> Z.testbit fs' j = Z.testbit fs j /\ Z.testbit fp' j = Z.testbit fp j).
Proof.
  intros Hi. unfold computeCommon, bytes_Equal, field_flags.
  case_bool_decide; [|destruct (Z.gtb_spec (Z.of_nat (common_len prev cur)) 1)];
    intros [= <- <- <-] Hs Hp; rewrite ?testbit_lor_pow2, ?Hs, ?Hp, ?Z.eqb_refl by done;
    (split; [naive_solver|]; intros j Hj Hij; rewrite ?testbit_lor_pow2 by done;
     by rewrite ?(proj2 (Z.eqb_neq i j) Hij), ?orb_false_r).
Qed.

Definition flags_ok (prev : option Key) (k : Key) (f : kflags) : Prop :=
  let p := default zero_key prev in
  field_flags (Row p) (Row k) (rowPrefix f) (Z.testbit (fieldsSame f) 0) (Z.testbit (fieldsPrefixed f) 0) /\
  field_flags (ColumnFamily p) (ColumnFamily k) (cfPrefix f) (Z.testbit (fieldsSame f) 1) (Z.testbit (fieldsPrefixed f) 1) /\
  field_flags (ColumnQualifier p) (ColumnQualifier k) (cqPrefix f) (Z.testbit (fieldsSame f) 2) (Z.testbit (fieldsPrefixed f) 2) /\
  field_flags (ColumnVisibility p) (ColumnVisibility k) (cvPrefix f) (Z.testbit (fieldsSame f) 3) (Z.testbit (fieldsPrefixed f) 3) /\
  (Z.testbit (fieldsSame f) 4 = true -> int64 (Timestamp k - Timestamp p) = 0) /\
  (Z.testbit (fieldsSame f) 4 = false -> Z.testbit (fieldsPrefixed f) 4 = true -> tsDiff f = int64 (Timestamp k - Timestamp p)) /\
  Z.testbit (fieldsSame f) 5 = Deleted k /\
  (Z.testbit (fieldsSame f) 7 = false -> fieldsPrefixed f = 0) /\
  (prev = None -> fieldsSame f = 0 \/ fieldsSame f = DeletedBit).

(** Rewrites the bits of a flag byte back to the step that set them. *)
Ltac keep_bits :=
  repeat match goal with
  | K : forall j, 0 <= j -> ?i <> j -> Z.testbit ?f j = _ /\ _ |- context [Z.testbit ?f ?b] =>
      rewrite (proj1 (K b ltac:(lia) ltac:(lia)))
  | K : forall j, 0 <= j -> ?i <> j -> _ /\ Z.testbit ?f j = _ |- context [Z.testbit ?f ?b] =>
      rewrite (proj2 (K b ltac:(lia) ltac:(lia)))
  | |- context [Z.testbit 0 _] => rewrite Z.bits_0
  | |- context [Z.testbit (Z.lor _ (Z.shiftl 1 _)) _] =>
      rewrite testbit_lor_pow2 by lia; cbn [Z.eqb Pos.eqb]; rewrite ?orb_false_r, ?orb_true_r
  end.

Lemma key_flags_ok prev k : flags_ok prev k (key_flags prev k).
Proof.
  destruct prev as [p|].
  2: { unfold flags_ok, field_flags, key_flags.
       destruct (Deleted k); cbn; split_and!; try done; naive_solver. }
  unfold key_flags, RowSame, CFSame, CQSame, CVSame, TSSame, DeletedBit, PrefixCompressionEnabled,
    RowCommonPrefix, CFCommonPrefix, CQCommonPrefix, CVCommonPrefix, TSDiff.
  destruct (computeCommon (Row p) _ _ _ _ _) as [[n0 fs0] fp0] eqn:E0.
  apply computeCommon_bits in E0 as [F0 K0]; [|lia|done|done].
  destruct (computeCommon (ColumnFamily p) _ _ _ _ _) as [[n1 fs1] fp1] eqn:E1.
  apply computeCommon_bits in E1 as [F1 K1]; [|lia|by keep_bits|by keep_bits].
  destruct (computeCommon (ColumnQualifier p) _ _ _ _ _) as [[n2 fs2] fp2] eqn:E2.
  apply computeCommon_bits in E2 as [F2 K2]; [|lia|by keep_bits|by keep_bits].
  destruct (computeCommon (ColumnVisibility p) _ _ _ _ _) as [[n3 fs3] fp3] eqn:E3.
  apply computeCommon_bits in E3 as [F3 K3]; [|lia|by keep_bits|by keep_bits].
  set (d := int64 (Timestamp k - Timestamp p)).
  destruct (Z.eqb_spec d 0) as [Hd|Hd].
  - unfold flags_ok; cbn [default rowPrefix cfPrefix cqPrefix cvPrefix tsDiff fieldsSame fieldsPrefixed].
    destruct (Deleted k), (fp3 =? 0) eqn:Hp; cbn [negb]; keep_bits; split_and!; try done; lia.
  - set (fp4 := Z.lor fp3 (Z.shiftl 1 4)).
    assert (Z.testbit fp4 4 = true) as Hb by (unfold fp4; by keep_bits).
    assert ((fp4 =? 0) = false) as -> by (apply Z.eqb_neq; intros E; by rewrite E in Hb).
    unfold flags_ok; cbn [default rowPrefix cfPrefix cqPrefix cvPrefix tsDiff fieldsSame fieldsPrefixed negb].
    unfold fp4. destruct (Deleted k); keep_bits; split_and!; try done.
Qed.

(** ** Round trip of a cell *)

Lemma decode_ts_rparses f prev k :
  flags_ok prev k f -> in_int64 (Timestamp k) -> in_int64 (Timestamp (default zero_key prev)) ->
  rparses (decode_ts (fieldsSame f) (fieldsPrefixed f) (Timestamp (default zero_key prev)))
    (if has_all (fieldsSame f) TSSame then []
     else if has_all (fieldsPrefixed f) TSDiff then (WriteVLong (tsDiff f)).1
     else (WriteVLong (Timestamp k)).1) (Timestamp k).
Proof.
  intros (_ & _ & _ & _ & H1 & H2 & _) Hts Hp pre rest. unfold decode_ts, TSSame, TSDiff.
  rewrite !has_testbit, !has_all_testbit by lia.
  set (p := default zero_key prev) in *.
  pose proof (int64_add_sub (Timestamp k) (Timestamp p) Hts) as E.
  destruct (Z.testbit (fieldsSame f) 4); [|destruct (Z.testbit (fieldsPrefixed f) 4)].
  - rewrite H1, Z.add_0_l, int64_id in E by done. rewrite E. cbn. by rewrite app_nil_r.
  - rewrite (H2 eq_refl eq_refl), cparses_vlong by apply int64_range. by rewrite E.
  - by rewrite cparses_vlong.
Qed.

Lemma decode_fields_rparses prev k f :
  flags_ok prev k f -> key_ok k -> in_int64 (Timestamp (default zero_key prev)) ->
  (prev = None -> fieldsPrefixed f = 0) ->
  rparses (decode_fields (bool_decide (is_Some prev)) (default zero_key prev) (fieldsSame f) (fieldsPrefixed f))
    (writeField (Row k) (rowPrefix f) (fieldsSame f) (fieldsPrefixed f) RowSame RowCommonPrefix ++
     writeField (ColumnFamily k) (cfPrefix f) (fieldsSame f) (fieldsPrefixed f) CFSame CFCommonPrefix ++
     writeField (ColumnQualifier k) (cqPrefix f) (fieldsSame f) (fieldsPrefixed f) CQSame CQCommonPrefix ++
     writeField (ColumnVisibility k) (cvPrefix f) (fieldsSame f) (fieldsPrefixed f) CVSame CVCommonPrefix ++
     (if has_all (fieldsSame f) TSSame then []
      else if has_all (fieldsPrefixed f) TSDiff then (WriteVLong (tsDiff f)).1
      else (WriteVLong (Timestamp k)).1)) k.
Proof.
  intros Hf [Hts Hlen] Hp Hfp pre rest. unfold key_len in Hlen.
  pose proof (len_nonneg (Row k)). pose proof (len_nonneg (ColumnFamily k)).
  pose proof (len_nonneg (ColumnQualifier k)). pose proof (len_nonneg (ColumnVisibility k)).
  pose proof Hf as (F0 & F1 & F2 & F3 & _ & _ & Hdel & _ & Hnone).
  unfold decode_fields, mbind, result_bind.
  replace (negb _ && _) with false.
  2: { destruct prev; [done|]. rewrite Hfp by done. by destruct (Hnone eq_refl) as [-> | ->]. }
  rewrite <-!(assoc_L (++)).
  rewrite (field_rparses 0 _ _ _ (Row k)) by (done || lia). cbn [wrap].
  rewrite (field_rparses 1 _ _ _ (ColumnFamily k)) by (done || lia). cbn [wrap].
  rewrite (field_rparses 2 _ _ _ (ColumnQualifier k)) by (done || lia). cbn [wrap].
  rewrite (field_rparses 3 _ _ _ (ColumnVisibility k)) by (done || lia). cbn [wrap].
  rewrite (decode_ts_rparses f prev k) by done.
  unfold DeletedBit. rewrite has_testbit, Hdel, <-!(assoc_L (++)) by lia. by destruct k.
Qed.

Lemma decodeKey_rparses prev k :
  key_ok k -> in_int64 (Timestamp (default zero_key prev)) ->
  rparses (decodeKey (bool_decide (is_Some prev)) (default zero_key prev))
    (encode_rel (key_flags prev k) k) k.
Proof.
  intros Hk Hp pre rest. pose proof (key_flags_ok prev k) as Hf.
  assert (prev = None -> fieldsPrefixed (key_flags prev k) = 0) as Hnone by by intros ->.
  set (f := key_flags prev k) in *.
  pose proof Hf as (_ & _ & _ & _ & _ & _ & _ & Hfp & _).
  unfold encode_rel, decodeKey. rewrite <-(assoc_L (++)), cparses_byteAt.
  unfold PrefixCompressionEnabled. rewrite has_testbit, has_all_testbit by lia.
  destruct (Z.testbit (fieldsSame f) 7).
  - rewrite <-(assoc_L (++)), cparses_byteAt.
    rewrite decode_fields_rparses by done. by rewrite <-!(assoc_L (++)).
  - cbn [app]. rewrite <-(Hfp eq_refl) at 1.
    rewrite decode_fields_rparses by done. by rewrite <-!(assoc_L (++)).
Qed.

(** ** Blocks *)

(** A block is the cells encoded one after another, each against the key
    before it; the first against nothing. *)
Fixpoint encode_block (prev : option Key) (cells : list (Key * bytes)) : bytes :=
  match cells with
  | [] => []
  | (k, v) :: cells => EncodeKey prev k v ++ encode_block (Some k) cells
  end.

(** Calling [NextView] until it returns an error. *)
Fixpoint drain (fuel : nat) (r : Reader) : list (Key * bytes) * Reader * option err :=
  match fuel with
  | O => ([], r, None)
  | S fuel =>
      match NextView r with
      | (r, Err e) => ([], r, Some e)
      | (r, Ok c) => let '(cs, r, e) := drain fuel r in (c :: cs, r, e)
      end
  end.

Definition cell_ok (c : Key * bytes) : Prop := key_ok c.1 /\ len c.2 < 2 ^ 31.

Definition accepts (flt : option (Key -> bool)) (k : Key) : bool :=
  match flt with Some f => f k | None => true end.

(** The reader positioned before [cells], with [prev] the key before them. *)
Definition block_reader (pre : bytes) (prev : option Key) (cells : list (Key * bytes)) (rest : bytes)
    (n : Z) (flt : option (Key -> bool)) : Reader :=
  mkReader (at_ pre (encode_block prev cells ++ rest)) n (n - len cells)
    (default zero_key prev) (bool_decide (is_Some prev)) flt None.

Lemma NextView_loop_cell fuel pre prev k v cells rest n flt :
  cell_ok (k, v) -> in_int64 (Timestamp (default zero_key prev)) ->
  NextView_loop (S fuel) (block_reader pre prev ((k, v) :: cells) rest n flt) =
  let r := block_reader (pre ++ EncodeKey prev k v) (Some k) cells rest n flt in
  if accepts flt k then (r, Ok (k, v)) else NextView_loop fuel r.
Proof.
  intros [Hk Hv] Hp. cbn [fst snd] in *. pose proof (len_nonneg v).
  cbn [NextView_loop block_reader r_read r_entries r_hasPrev r_prev r_cur r_filter r_err encode_block].
  rewrite len_cons. pose proof (len_nonneg cells).
  replace (n - (1 + len cells) >=? n) with false by lia.
  unfold EncodeKey. rewrite <-!(assoc_L (++)), decodeKey_rparses by done.
  rewrite int32_id, cparses_int32be by (unfold in_int32; lia).
  replace (len v <? 0) with false by lia.
  replace (n - (1 + len cells) + 1) with (n - len cells) by lia.
  replace (match flt with Some f => negb (f k) | None => false end) with (negb (accepts flt k))
    by (by destruct flt).
  cbv zeta. destruct (accepts flt k); cbn [negb].
  - rewrite cparses_sliceN by done. by rewrite <-!(assoc_L (++)).
  - rewrite cparses_skip by done. by rewrite <-!(assoc_L (++)).
Qed.

Lemma NextView_loop_done fuel pre prev rest n flt :
  NextView_loop (S fuel) (block_reader pre prev [] rest n flt) =
  (latch (block_reader pre prev [] rest n flt) EOF, Err EOF).
Proof.
  cbn [NextView_loop]. unfold block_reader; cbn [r_read r_entries]. rewrite len_nil.
  by replace (n - 0 >=? n) with true by lia.
Qed.

Lemma Remaining_block pre prev cells rest n flt :
  Remaining (block_reader pre prev cells rest n flt) = len cells.
Proof. unfold Remaining, block_reader; cbn. lia. Qed.

Lemma NextView_block pre prev cells rest n flt :
  NextView (block_reader pre prev cells rest n flt) =
  NextView_loop (S (length cells)) (block_reader pre prev cells rest n flt).
Proof. unfold NextView. rewrite Remaining_block. unfold len. by rewrite Nat2Z.id. Qed.

(** One [NextView] and then draining: the accepted cells, in order, then
    [io.EOF]. *)
Lemma drain_step m fuel pre prev cells rest n flt :
  Forall cell_ok cells -> in_int64 (Timestamp (default zero_key prev)) ->
  (length cells <= m)%nat -> (length cells <= fuel)%nat ->
  exists r, match NextView_loop (S m) (block_reader pre prev cells rest n flt) with
    | (r, Err e) => ([], r, Some e)
    | (r, Ok c) => let '(cs, r, e) := drain fuel r in (c :: cs, r, e)
    end = (filter (fun c => accepts flt c.1 = true) cells, r, Some EOF) /\ r_err r = Some EOF.
Proof.
  intros Hc. revert m fuel pre prev. induction Hc as [|[k v] cells Hk Hc IH]; intros m fuel pre prev Hp Hm Hf.
  { rewrite NextView_loop_done. by eexists. }
  rewrite NextView_loop_cell by done. cbv zeta. rewrite filter_cons; cbn [fst length] in *.
  assert (in_int64 (Timestamp (default zero_key (Some k)))) as Hk' by apply Hk.
  destruct (accepts flt k).
  - rewrite decide_True by done. destruct fuel as [|fuel]; [lia|]. cbn [drain]. rewrite NextView_block.
    destruct (IH (length cells) fuel (pre ++ EncodeKey prev k v) (Some k)) as (r & -> & Hr); [done|lia..|].
    by exists r.
  - rewrite decide_False by done. destruct m as [|m]; [lia|]. apply IH; [done|lia..].
Qed.

Lemma drain_block fuel pre prev cells rest n flt :
  Forall cell_ok cells -> in_int64 (Timestamp (default zero_key prev)) ->
  (length cells < fuel)%nat ->
  exists r, drain fuel (block_reader pre prev cells rest n flt) =
    (filter (fun c => accepts flt c.1 = true) cells, r, Some EOF) /\ r_err r = Some EOF.
Proof.
  intros. destruct fuel as [|fuel]; [lia|]. cbn [drain]. rewrite NextView_block.
  apply drain_step; done || lia.
Qed.

Lemma NewReader_block cells rest flt :
  mkReader (mkCursor (encode_block None cells ++ rest) 0) (len cells) 0 zero_key false flt None =
  block_reader [] None cells rest (len cells) flt.
Proof. unfold block_reader, at_. by rewrite Z.sub_diag. Qed.

(** ** Properties *)

(** C28: block round trip with filter pushdown.  For any cells a block can hold,
    reading the encoded block with [NextView] until it stops delivers exactly
    the cells the installed filter accepts (all of them without one), in
    order and with their values, although rejected cells' values are skipped
    undecoded; the reader then reports a clean end ([Err] is nil). *)
Theorem block_roundtrip cells rest f :
  Forall cell_ok cells ->
  let r0 := NewReader (encode_block None cells ++ rest) (len cells) in
  (exists r, drain (S (length cells)) r0 = (cells, r, Some EOF) /\ Reader_Err r = None) /\
  (exists r, drain (S (length cells)) (SetFilter f r0) =
     (filter (fun c => f c.1 = true) cells, r, Some EOF) /\ Reader_Err r = None).
Proof.
  intros Hc r0. unfold r0, NewReader, SetFilter; cbn [r_cur r_entries r_read r_prev r_hasPrev r_err].
  rewrite !NewReader_block.
  destruct (drain_block (S (length cells)) [] None cells rest (len cells) None) as (r1 & -> & E1);
    [done|vm_compute; split; congruence|lia|].
  destruct (drain_block (S (length cells)) [] None cells rest (len cells) (Some f)) as (r2 & -> & E2);
    [done|vm_compute; split; congruence|lia|].
  unfold Reader_Err. split; [exists r1; rewrite E1|exists r2; by rewrite E2].
  split; [|done]. do 2 f_equal. rewrite filter_all; [done|]. by apply Forall_true.
Qed.

Definition ex_cells : list (Key * bytes) :=
  [(mkKey [97; 98; 99] [102] [113; 49] [] 9 false, [1; 2]);
   (mkKey [97; 98; 99] [102] [113; 50] [] 9 true, []);
   (mkKey [97; 98; 100] [102] [113; 50] [65] (-4) false, [255])].

Lemma block_roundtrip_witness :
  Forall cell_ok ex_cells /\
  exists r, drain 4 (NewReader (encode_block None ex_cells) 3) = (ex_cells, r, Some EOF) /\ Reader_Err r = None.
Proof.
  assert (Forall cell_ok ex_cells) as H.
  { repeat constructor; vm_compute; congruence. }
  split; [exact H|].
  pose proof (proj1 (block_roundtrip ex_cells [] (fun _ => true) H)) as P.
  rewrite app_nil_r in P. exact P.
Defined.

(** The cursor's varint decoder, written out over the block buffer, agrees
    with the reference [wire.ReadVLong] on every input: it succeeds exactly
    when [ReadVLong] does, with the same value, and advances past exactly the
    bytes [ReadVLong] consumed. *)
Theorem cursor_vlong_equiv pre s :
  match ReadVLong s with
  | Ok ((v, n), s') =>
      exists c, vlong (at_ pre s) = Some (v, c) /\ remaining c = s' /\
        Z.of_nat (cur_pos c) = len pre + n
  | Err _ => vlong (at_ pre s) = None
  end.
Proof.
  pose proof (vlong_ReadVLong pre s) as P. destruct (ReadVLong s) as [[[v n] s']|e]; [|done].
  destruct P as (bs & -> & <- & ->). eexists. split; [done|]. split.
  - apply at_drop.
  - unfold at_, len. cbn. rewrite length_app. lia.
Qed.
