(* ===== verification/VisFilter.v ===== *)
(** * VisFilter: column-visibility expressions (src/internal/visfilter)

    The recursive-descent parser for visibility expressions, the evaluator over
    an authorization set, and the per-scan [Evaluator] with its parse cache.
    The parser's position is the suffix of the source still to be read. *)

From S2P Require Import Prelude.

(** ** Authorizations *)

Record Authorizations := mkAuths { auth_set : gset bytes }.

Definition NewAuthorizations (labels : list bytes) : Authorizations :=
  mkAuths (foldl (fun s l => {[l]} ∪ s) ∅ labels).
Definition AddLabel (a : Authorizations) (label : bytes) : Authorizations :=
  mkAuths ({[label]} ∪ auth_set a).
Definition HasLabel (a : Authorizations) (label : bytes) : bool :=
  bool_decide (label ∈ auth_set a).

(** ** Expression trees *)

#[warnings="-register-all"]
Inductive node :=
| kindLabel (label : bytes)
| kindAnd (children : list node)
| kindOr (children : list node).

(** The loops over [n.children] short-circuit; [forallb] and [existsb] stop at
    the same child. *)
Fixpoint evalNode (n : node) (auths : Authorizations) : bool :=
  match n with
  | kindLabel l => HasLabel auths l
  | kindAnd cs => forallb (fun c => evalNode c auths) cs
  | kindOr cs => existsb (fun c => evalNode c auths) cs
  end.

(** ** Parser *)

Definition ErrParse : err := Fail "visfilter: malformed visibility expression".
Definition OutOfFuel : err := Fail "out of fuel".

Definition chr_amp : Z := 38.      (* '&' *)
Definition chr_lparen : Z := 40.   (* '(' *)
Definition chr_rparen : Z := 41.   (* ')' *)
Definition chr_bar : Z := 124.     (* '|' *)

Definition isLabelByte (b : Z) : bool :=
  ((65 <=? b) && (b <=? 90)) || ((97 <=? b) && (b <=? 122)) || ((48 <=? b) && (b <=? 57)) ||
  (b =? 95) || (b =? 58) || (b =? 46) || (b =? 47) || (b =? 45).

Fixpoint span_label (s : bytes) : bytes * bytes :=
  match s with
  | b :: s' =>
      if isLabelByte b then let '(l, r) := span_label s' in (b :: l, r) else ([], s)
  | [] => ([], [])
  end.

(** [p.pos < len(p.src) && p.src[p.pos] == b]. *)
Definition looking_at (b : Z) (s : bytes) : bool :=
  match s with x :: _ => x =? b | [] => false end.

Definition parseAtom (parseExpr : bytes -> result (node * bytes)) (s : bytes) : result (node * bytes) :=
  match s with
  | [] => Err (Wrap "unexpected end" ErrParse)
  | b :: s' =>
      if b =? chr_lparen then
        '(inner, s') ← parseExpr s';
        if looking_at chr_rparen s' then Ok (inner, drop 1 s')
        else Err (Wrap "missing close paren" ErrParse)
      else
        let '(label, rest) := span_label s in
        if bool_decide (label = []) then Err (Wrap "expected label" ErrParse)
        else Ok (kindLabel label, rest)
  end.

(** [for p.src[p.pos] == sep { p.pos++; next := item(); children = append(...) }].
    Every turn consumes the separator, so the input length bounds the turns. *)
Fixpoint list_loop (sep : Z) (item : bytes -> result (node * bytes)) (fuel : nat)
    (children : list node) (s : bytes) : result (list node * bytes) :=
  match fuel with
  | O => Err OutOfFuel
  | S fuel =>
      if looking_at sep s then
        '(next, s) ← item (drop 1 s);
        list_loop sep item fuel (children ++ [next]) s
      else Ok (children, s)
  end.

Definition parseAnd (parseExpr : bytes -> result (node * bytes)) (s : bytes) : result (node * bytes) :=
  '(first, s) ← parseAtom parseExpr s;
  if negb (looking_at chr_amp s) then Ok (first, s)
  else
    '(children, s) ← list_loop chr_amp (parseAtom parseExpr) (S (length s)) [first] s;
    Ok (kindAnd children, s).

(** Recursion on the nesting of parentheses; each level consumes one. *)
Fixpoint parseExpr (fuel : nat) (s : bytes) : result (node * bytes) :=
  match fuel with
  | O => Err OutOfFuel
  | S fuel =>
      '(first, s) ← parseAnd (parseExpr fuel) s;
      if negb (looking_at chr_bar s) then Ok (first, s)
      else
        '(children, s) ← list_loop chr_bar (parseAnd (parseExpr fuel)) (S (length s)) [first] s;
        Ok (kindOr children, s)
  end.

Definition parse (cv : bytes) : result node :=
  '(n, rest) ← parseExpr (S (length cv)) cv;
  match rest with
  | [] => Ok n
  | _ => Err (Wrap "trailing bytes" ErrParse)
  end.

(** ** Evaluator with its cache *)

(** A [None] entry is the cached parse failure ([nil] in the map). *)
Record Evaluator := mkEvaluator {
  e_auths : Authorizations;
  e_cache : gmap bytes (option node);
}.

Definition NewEvaluator (auths : Authorizations) : Evaluator := mkEvaluator auths ∅.

Definition Visible (e : Evaluator) (cv : bytes) : Evaluator * bool :=
  if len cv =? 0 then (e, true)
  else match e_cache e !! cv with
  | Some None => (e, false)
  | Some (Some n) => (e, evalNode n (e_auths e))
  | None =>
      match parse cv with
      | Err _ => (mkEvaluator (e_auths e) (<[cv := None]> (e_cache e)), false)
      | Ok n => (mkEvaluator (e_auths e) (<[cv := Some n]> (e_cache e)), evalNode n (e_auths e))
      end
  end.

Definition CacheSize (e : Evaluator) : Z := Z.of_nat (size (e_cache e)).

(** ** The grammar, as the package comment gives it

    [expr := and ('|' and)*], [and := atom ('&' atom)*],
    [atom := label | '(' expr ')']. *)

Inductive vexpr :=
| VLabel (l : bytes)
| VAnd (a b : vexpr)
| VOr (a b : vexpr).

Inductive level := LAtom | LAnd | LExpr.

Inductive derives : level -> bytes -> vexpr -> Prop :=
| d_label l : l <> [] -> Forall (fun b => isLabelByte b = true) l -> derives LAtom l (VLabel l)
| d_paren s e : derives LExpr s e -> derives LAtom (chr_lparen :: s ++ [chr_rparen]) e
| d_and1 s e : derives LAtom s e -> derives LAnd s e
| d_and s e t f : derives LAtom s e -> derives LAnd t f -> derives LAnd (s ++ chr_amp :: t) (VAnd e f)
| d_expr1 s e : derives LAnd s e -> derives LExpr s e
| d_expr s e t f : derives LAnd s e -> derives LExpr t f -> derives LExpr (s ++ chr_bar :: t) (VOr e f).

Fixpoint satisfied (e : vexpr) (auths : Authorizations) : bool :=
  match e with
  | VLabel l => HasLabel auths l
  | VAnd a b => satisfied a auths && satisfied b auths
  | VOr a b => satisfied a auths || satisfied b auths
  end.

(** What a cell's visibility means, without parser or cache. *)
Definition visible_spec (auths : Authorizations) (cv : bytes) : Prop :=
  cv = [] \/ exists e, derives LExpr cv e /\ satisfied e auths = true.

(** ** Lexing *)

Lemma span_label_app l rest :
  Forall (fun b => isLabelByte b = true) l ->
  match rest with b :: _ => isLabelByte b = false | [] => True end ->
  span_label (l ++ rest) = (l, rest).
Proof.
  intros Hl Hr. induction Hl as [|b l Hb _ IH]; cbn.
  - destruct rest as [|b rest]; [done|]. cbn. by rewrite Hr.
  - by rewrite Hb, IH.
Qed.

Lemma span_label_spec s l rest :
  span_label s = (l, rest) -> s = l ++ rest /\ Forall (fun b => isLabelByte b = true) l.
Proof.
  revert l rest. induction s as [|b s IH]; cbn; intros l rest.
  { intros [= <- <-]. by split. }
  destruct (isLabelByte b) eqn:Hb; [|intros [= <- <-]; by split].
  destruct (span_label s) as [l' r'] eqn:E. intros [= <- <-].
  destruct (IH _ _ eq_refl) as [-> ?]. split; [done|by constructor].
Qed.

Lemma looking_at_spec b s : looking_at b s = true <-> exists s', s = b :: s'.
Proof.
  destruct s as [|x s]; cbn; [by split; [|intros [? [=]]]|].
  rewrite Z.eqb_eq. split; [intros ->; eauto|by intros [? [= -> _]]].
Qed.

(** ** Lists of alternatives or conjuncts

    Both loops of the parser: [sep]-separated items, folded with [opb]. *)
Section separated.
Context (sep : Z) (item : bytes -> result (node * bytes)).
Context (base top : bytes -> vexpr -> Prop) (comb : vexpr -> vexpr -> vexpr).
Context (opb : bool -> bool -> bool) (agg : list node -> Authorizations -> bool).
Hypothesis top1 : forall s e, base s e -> top s e.
Hypothesis topc : forall s e t f, base s e -> top t f -> top (s ++ sep :: t) (comb e f).
Hypothesis sat_comb : forall e f a, satisfied (comb e f) a = opb (satisfied e a) (satisfied f a).
Hypothesis agg1 : forall n a, agg [n] a = evalNode n a.
Hypothesis aggc : forall n ns a, ns <> [] -> agg (n :: ns) a = opb (evalNode n a) (agg ns a).

Lemma list_loop_sound fuel cs s cs' rest :
  (forall s n rest, item s = Ok (n, rest) ->
     exists p e, s = p ++ rest /\ base p e /\ forall a, evalNode n a = satisfied e a) ->
  list_loop sep item fuel cs s = Ok (cs', rest) ->
  looking_at sep rest = false /\
  ((cs' = cs /\ s = rest) \/
   exists ns q e, cs' = cs ++ ns /\ ns <> [] /\ s = sep :: q ++ rest /\ top q e /\
     forall a, agg ns a = satisfied e a).
Proof.
  intros Hitem. revert cs s. induction fuel as [|fuel IH]; intros cs s; cbn [list_loop]; [done|].
  destruct (looking_at sep s) eqn:Hs; [|intros [= <- <-]; by split; [|left]].
  apply looking_at_spec in Hs as [s' ->]. change (drop 1 (sep :: s')) with s'.
  intros ([n s''] & E & H)%bind_Ok.
  apply Hitem in E as (p & e & -> & Hb & Hn).
  apply IH in H as [Hr [[-> ->]|(ns & q & f & -> & Hns & -> & Ht & Hagg)]]; (split; [done|right]).
  - exists [n], p, e. split_and!; [done|by intros [=]|done|by apply top1|].
    intros a. by rewrite agg1.
  - exists (n :: ns), (p ++ sep :: q), (comb e f). split_and!.
    + by rewrite <-(assoc_L (++)).
    + by intros [=].
    + by rewrite <-(assoc_L (++)).
    + by apply topc.
    + intros a. by rewrite aggc, sat_comb, Hn, Hagg.
Qed.

Lemma list_loop_length fuel cs s :
  (forall s n rest, item s = Ok (n, rest) -> (length rest < length s)%nat) ->
  (forall t e, (length t < length s)%nat -> item t = Err e -> errors_Is e ErrParse = true) ->
  (length s < fuel)%nat ->
  match list_loop sep item fuel cs s with
  | Ok (_, rest) => (length rest <= length s)%nat
  | Err e => errors_Is e ErrParse = true
  end.
Proof.
  intros Hlen. revert cs s. induction fuel as [|fuel IH]; intros cs s He Hf; cbn [list_loop]; [lia|].
  destruct (looking_at sep s) eqn:Hs; [|done].
  apply looking_at_spec in Hs as [s' ->]. change (drop 1 (sep :: s')) with s'. cbn [length] in *.
  destruct (item s') as [[n s'']|e] eqn:E; cbn; [|apply (He s'); [lia|done]].
  apply Hlen in E. specialize (IH (cs ++ [n]) s'').
  assert (forall t e, (length t < length s'')%nat -> item t = Err e -> errors_Is e ErrParse = true) as He'.
  { intros t e Ht. apply He. lia. }
  specialize (IH He' ltac:(lia)). destruct (list_loop _ _ _ _ _) as [[? rest]|]; [lia|done].
Qed.
End separated.

(** ** Every accepted string is in the grammar *)

Lemma forallb_single (f : node -> bool) n : forallb f [n] = f n.
Proof. apply andb_true_r. Qed.
Lemma existsb_single (f : node -> bool) n : existsb f [n] = f n.
Proof. apply orb_false_r. Qed.

Definition sound (L : level) (p : bytes -> result (node * bytes)) : Prop :=
  forall s n rest, p s = Ok (n, rest) ->
    exists q e, s = q ++ rest /\ derives L q e /\ forall a, evalNode n a = satisfied e a.

Lemma parseAtom_sound pe : sound LExpr pe -> sound LAtom (parseAtom pe).
Proof.
  intros Hpe [|b s] n rest; cbn [parseAtom]; [done|].
  destruct (Z.eqb_spec b chr_lparen) as [->|].
  - intros ([inner s'] & E & H)%bind_Ok. revert H.
    apply Hpe in E as (q & e & -> & Hd & Hn). destruct (looking_at chr_rparen s') eqn:Hl; [|done].
    apply looking_at_spec in Hl as [s'' ->]. cbn. intros [= <- <-].
    exists (chr_lparen :: q ++ [chr_rparen]), e. split; [by rewrite <-app_comm_cons, <-(assoc_L (++))|].
    split; [by constructor|done].
  - destruct (span_label (b :: s)) as [l r] eqn:E. case_bool_decide as Hl; [done|].
    apply span_label_spec in E as [-> Hf]. intros [= <- <-]. exists l, (VLabel l).
    split_and!; [done|by constructor|done].
Qed.

Lemma parseAnd_sound pe : sound LExpr pe -> sound LAnd (parseAnd pe).
Proof.
  intros Hpe s n rest. unfold parseAnd. intros ([first s'] & E & H)%bind_Ok. revert H.
  apply parseAtom_sound in E as (q & e & -> & Hd & Hn); [|done].
  destruct (looking_at chr_amp s') eqn:Hl; cbn [negb].
  2: { intros [= <- <-]. exists q, e. split_and!; [done|by constructor|done]. }
  intros ([cs s''] & E & H)%bind_Ok. revert H.
  eapply (list_loop_sound chr_amp _ (derives LAtom) (derives LAnd) VAnd andb
    (fun ns a => forallb (fun c => evalNode c a) ns)) in E as
    [Hr [[-> ->]|(ns & t & f & -> & Hns & -> & Ht & Hagg)]]; try done; try congruence.
  - intros [= <- <-]. cbn [app]. exists (q ++ chr_amp :: t), (VAnd e f).
    split_and!; [by rewrite <-(assoc_L (++))|by constructor|].
    intros a. cbn. by rewrite Hn, Hagg.
  - by constructor.
  - by constructor.
  - intros. apply (forallb_single (fun c => evalNode c a)).
  - by apply parseAtom_sound.
Qed.

Lemma parseExpr_sound fuel : sound LExpr (parseExpr fuel).
Proof.
  induction fuel as [|fuel IH]; intros s n rest; [done|]. cbn [parseExpr].
  intros ([first s'] & E & H)%bind_Ok. revert H.
  apply parseAnd_sound in E as (q & e & -> & Hd & Hn); [|done].
  destruct (looking_at chr_bar s') eqn:Hl; cbn [negb].
  2: { intros [= <- <-]. exists q, e. split_and!; [done|by constructor|done]. }
  intros ([cs s''] & E & H)%bind_Ok. revert H.
  eapply (list_loop_sound chr_bar _ (derives LAnd) (derives LExpr) VOr orb
    (fun ns a => existsb (fun c => evalNode c a) ns)) in E as
    [Hr [[-> ->]|(ns & t & f & -> & Hns & -> & Ht & Hagg)]]; try done; try congruence.
  - intros [= <- <-]. cbn [app]. exists (q ++ chr_bar :: t), (VOr e f).
    split_and!; [by rewrite <-(assoc_L (++))|by constructor|].
    intros a. cbn. by rewrite Hn, Hagg.
  - by constructor.
  - by constructor.
  - intros. apply (existsb_single (fun c => evalNode c a)).
  - by apply parseAnd_sound.
Qed.

(** ** Every string of the grammar is accepted *)

(** What may follow an item of a level: nothing that would extend it. *)
Definition stops (L : level) (rest : bytes) : Prop :=
  match rest with
  | [] => True
  | b :: _ =>
      isLabelByte b = false /\
      match L with LAtom => True | LAnd => b <> chr_amp | LExpr => b <> chr_amp /\ b <> chr_bar end
  end.

Lemma derives_nonempty L s e : derives L s e -> (0 < length s)%nat.
Proof.
  induction 1; rewrite ?length_app; cbn; try lia.
  destruct l; [done|cbn; lia].
Qed.

Lemma not_looking_at b rest :
  (forall s, rest <> b :: s) -> looking_at b rest = false.
Proof.
  intros H. destruct (looking_at b rest) eqn:E; [|done].
  apply looking_at_spec in E as [s ->]. by destruct (H s).
Qed.

Definition complete (L : level) (p : bytes -> result (node * bytes)) (s : bytes) (e : vexpr) : Prop :=
  forall rest, stops L rest ->
    exists n, p (s ++ rest) = Ok (n, rest) /\ forall a, evalNode n a = satisfied e a.

(** The loop over the remaining items, which start at a separator. *)
Definition complete_loop (L : level) (sep : Z) (item : bytes -> result (node * bytes))
    (agg : list node -> Authorizations -> bool) (s : bytes) (e : vexpr) : Prop :=
  forall rest fuel cs, stops L rest -> (length s < fuel)%nat ->
    exists ns, list_loop sep item fuel cs (sep :: s ++ rest) = Ok (cs ++ ns, rest) /\ ns <> [] /\
      forall a, agg ns a = satisfied e a.

Definition agg_and (ns : list node) (a : Authorizations) := forallb (fun c => evalNode c a) ns.
Definition agg_or (ns : list node) (a : Authorizations) := existsb (fun c => evalNode c a) ns.

(** [loop_last] and [loop_more] extend a completed loop by one item. *)
Lemma loop_last L L0 sep item agg s e :
  (forall rest, stops L rest -> stops L0 rest /\ looking_at sep rest = false) ->
  (forall n a, agg [n] a = evalNode n a) -> (0 < length s)%nat ->
  complete L0 item s e -> complete_loop L sep item agg s e.
Proof.
  intros Hstop Hagg Hs Hc rest fuel cs Hr Hf. destruct (Hstop rest Hr) as [Hr0 Hl].
  destruct fuel as [|[|fuel]]; [lia..|]. cbn [list_loop]. rewrite (proj2 (looking_at_spec sep (sep :: s ++ rest))) by eauto.
  change (drop 1 (sep :: s ++ rest)) with (s ++ rest).
  destruct (Hc rest Hr0) as (n & -> & Hn). cbn. rewrite Hl.
  exists [n]. split_and!; [done|by intros [=]|]. intros a. by rewrite Hagg.
Qed.

Lemma loop_more L L0 sep item agg comb opb s e t f :
  (forall rest, stops L0 (sep :: rest)) ->
  (forall n ns a, ns <> [] -> agg (n :: ns) a = opb (evalNode n a) (agg ns a)) ->
  (forall a, satisfied (comb e f) a = opb (satisfied e a) (satisfied f a)) ->
  complete L0 item s e -> complete_loop L sep item agg t f ->
  complete_loop L sep item agg (s ++ sep :: t) (comb e f).
Proof.
  intros Hstop Hagg Hsat Hc Hl rest fuel cs Hr Hf. rewrite length_app in Hf. cbn in Hf.
  destruct fuel as [|fuel]; [lia|]. cbn [list_loop]. rewrite (proj2 (looking_at_spec sep _)) by eauto.
  rewrite <-(assoc_L (++)). cbn [app].
  change (drop 1 (sep :: s ++ sep :: t ++ rest)) with (s ++ sep :: t ++ rest).
  destruct (Hc (sep :: t ++ rest) (Hstop _)) as (n & -> & Hn). cbn [mbind result_bind].
  destruct (Hl rest fuel (cs ++ [n]) Hr ltac:(lia)) as (ns & -> & Hns & Ha).
  exists (n :: ns). rewrite <-(assoc_L (++)). split_and!; [done|by intros [=]|].
  intros a. by rewrite Hagg, Hsat, Hn, Ha.
Qed.

Lemma stops_and rest : stops LAnd rest -> stops LAtom rest /\ looking_at chr_amp rest = false.
Proof.
  intros H. destruct rest as [|b rest]; [done|]. destruct H as [H1 H2]. split; [done|].
  apply not_looking_at. congruence.
Qed.
Lemma stops_expr rest : stops LExpr rest -> stops LAnd rest /\ looking_at chr_bar rest = false.
Proof.
  intros H. destruct rest as [|b rest]; [done|]. destruct H as (H1 & H2 & H3). split; [done|].
  apply not_looking_at. congruence.
Qed.

(** What a derivation gives at each level, with [fuel] parenthesis levels. *)
Definition derivable (L : level) (s : bytes) (e : vexpr) : Prop :=
  forall fuel, (length s <= fuel)%nat ->
  match L with
  | LAtom => complete LAtom (parseAtom (parseExpr fuel)) s e
  | LAnd => complete LAnd (parseAnd (parseExpr fuel)) s e /\
            complete_loop LAnd chr_amp (parseAtom (parseExpr fuel)) agg_and s e
  | LExpr => complete LExpr (parseExpr (S fuel)) s e /\
             complete_loop LExpr chr_bar (parseAnd (parseExpr fuel)) agg_or s e
  end.

(** A single item, or an item followed by the loop. *)
Lemma and_single pe s e :
  complete LAtom (parseAtom pe) s e -> complete LAnd (parseAnd pe) s e.
Proof.
  intros Hc rest [Hr Hl]%stops_and. destruct (Hc rest Hr) as (n & E & Hn).
  exists n. unfold parseAnd. rewrite E. cbn. by rewrite Hl.
Qed.

Lemma and_list pe s e t f :
  complete LAtom (parseAtom pe) s e -> complete_loop LAnd chr_amp (parseAtom pe) agg_and t f ->
  complete LAnd (parseAnd pe) (s ++ chr_amp :: t) (VAnd e f).
Proof.
  intros Hc Hl rest Hr. unfold parseAnd. rewrite <-(assoc_L (++)). cbn [app].
  destruct (Hc (chr_amp :: t ++ rest)) as (n & -> & Hn); [done|]. cbn [mbind result_bind].
  rewrite (proj2 (looking_at_spec _ _)) by eauto. cbn [negb].
  edestruct (Hl rest) as (ns & -> & Hns & Ha); [done|cbn; rewrite length_app; lia|].
  eexists. split; [done|]. intros a. cbn. unfold agg_and in Ha. by rewrite Hn, Ha.
Qed.

Lemma expr_single fuel s e :
  complete LAnd (parseAnd (parseExpr fuel)) s e -> complete LExpr (parseExpr (S fuel)) s e.
Proof.
  intros Hc rest [Hr Hl]%stops_expr. destruct (Hc rest Hr) as (n & E & Hn).
  exists n. cbn [parseExpr]. rewrite E. cbn. by rewrite Hl.
Qed.

Lemma expr_list fuel s e t f :
  complete LAnd (parseAnd (parseExpr fuel)) s e ->
  complete_loop LExpr chr_bar (parseAnd (parseExpr fuel)) agg_or t f ->
  complete LExpr (parseExpr (S fuel)) (s ++ chr_bar :: t) (VOr e f).
Proof.
  intros Hc Hl rest Hr. cbn [parseExpr]. rewrite <-(assoc_L (++)). cbn [app].
  destruct (Hc (chr_bar :: t ++ rest)) as (n & -> & Hn); [done|]. cbn [mbind result_bind].
  rewrite (proj2 (looking_at_spec _ _)) by eauto. cbn [negb].
  edestruct (Hl rest) as (ns & -> & Hns & Ha); [done|cbn; rewrite length_app; lia|].
  eexists. split; [done|]. intros a. cbn. unfold agg_or in Ha. by rewrite Hn, Ha.
Qed.

Lemma derives_derivable L s e : derives L s e -> derivable L s e.
Proof.
  induction 1 as [l Hne Hl|s e _ IH|s e H IH|s e t f Hs IHs Ht IHt|s e H IH|s e t f Hs IHs Ht IHt];
    intros fuel Hf.
  - intros rest Hr. exists (kindLabel l). split; [|done].
    assert (span_label (l ++ rest) = (l, rest)) as E.
    { apply span_label_app; [done|]. destruct rest; [done|apply Hr]. }
    destruct l as [|b l]; [done|]. cbn [app parseAtom]. cbn [app] in E. rewrite E.
    rewrite bool_decide_eq_false_2 by done. inversion Hl as [|? ? Hb]; subst.
    destruct (Z.eqb_spec b chr_lparen) as [->|]; done.
  - intros rest Hr. cbn [length] in Hf. rewrite length_app in Hf. cbn in Hf.
    cbn [app parseAtom]. rewrite Z.eqb_refl, <-(assoc_L (++)). cbn [app].
    destruct fuel as [|fuel]; [lia|]. destruct (IH fuel ltac:(lia)) as [Hc _].
    destruct (Hc (chr_rparen :: rest)) as (n & -> & Hn); [done|]. exists n. by split.
  - specialize (IH fuel Hf). split; [by apply and_single|].
    eapply loop_last; [apply stops_and|intros; apply (forallb_single (fun c => evalNode c a))|
      by eapply derives_nonempty|done].
  - rewrite length_app in Hf. cbn in Hf.
    specialize (IHs fuel ltac:(lia)). destruct (IHt fuel ltac:(lia)) as [_ IHl].
    split; [by apply and_list|]. by eapply (loop_more _ LAtom _ _ _ VAnd andb).
  - destruct (IH fuel Hf) as [IHc _]. split; [by apply expr_single|].
    eapply loop_last; [apply stops_expr|intros; apply (existsb_single (fun c => evalNode c a))|
      by eapply derives_nonempty|done].
  - rewrite length_app in Hf. cbn in Hf.
    destruct (IHs fuel ltac:(lia)) as [IHc _]. destruct (IHt fuel ltac:(lia)) as [_ IHl].
    split; [by apply expr_list|]. by eapply (loop_more _ LAnd _ _ _ VOr orb).
Qed.

(** ** The parser runs out of input, never out of fuel *)

Definition only_parse_errors (p : bytes -> result (node * bytes)) (m : nat) : Prop :=
  forall s e, (length s < m)%nat -> p s = Err e -> errors_Is e ErrParse = true.

Lemma sound_consumes L p : sound L p ->
  forall s n rest, p s = Ok (n, rest) -> (length rest < length s)%nat.
Proof.
  intros Hp s n rest (q & e & -> & Hd & _)%Hp. apply derives_nonempty in Hd.
  rewrite length_app. lia.
Qed.

Lemma parseAtom_errors pe m :
  only_parse_errors pe m -> only_parse_errors (parseAtom pe) (S m).
Proof.
  intros Hpe [|b s] e Hs; cbn [parseAtom]; [by intros [= <-]|]. cbn in Hs.
  destruct (b =? chr_lparen).
  - intros [E|([inner s'] & _ & E)]%bind_Err; [apply (Hpe s); [lia|done]|].
    destruct (looking_at chr_rparen s'); [done|by injection E as <-].
  - destruct (span_label (b :: s)). case_bool_decide; [by intros [= <-]|done].
Qed.

Lemma parseAnd_errors pe m :
  sound LExpr pe -> only_parse_errors pe m -> only_parse_errors (parseAnd pe) (S m).
Proof.
  intros Hsound Hpe s e Hs. unfold parseAnd.
  intros [E|([first s'] & E & H)]%bind_Err; [by apply (parseAtom_errors pe m Hpe s)|].
  pose proof (sound_consumes LAtom _ (parseAtom_sound _ Hsound)) as Hlen.
  apply Hlen in E. destruct (looking_at chr_amp s'); [|done]. cbn [negb] in H.
  pose proof (list_loop_length chr_amp (parseAtom pe) (S (length s')) [first] s' Hlen) as Hloop.
  apply bind_Err in H as [H|([? ?] & _ & H)]; [|done]. rewrite H in Hloop.
  apply Hloop; [|lia]. intros t e' Ht. apply (parseAtom_errors pe m Hpe). lia.
Qed.

Lemma parseExpr_errors fuel : only_parse_errors (parseExpr fuel) fuel.
Proof.
  induction fuel as [|fuel IH]; intros s e Hs; [lia|]. cbn [parseExpr].
  pose proof (parseExpr_sound fuel) as Hsound.
  pose proof (parseAnd_errors _ _ Hsound IH) as Hand.
  intros [E|([first s'] & E & H)]%bind_Err; [by apply (Hand s)|].
  pose proof (sound_consumes LAnd _ (parseAnd_sound _ Hsound)) as Hlen.
  apply Hlen in E. destruct (looking_at chr_bar s'); [|done]. cbn [negb] in H.
  pose proof (list_loop_length chr_bar (parseAnd (parseExpr fuel)) (S (length s')) [first] s' Hlen) as Hloop.
  apply bind_Err in H as [H|([? ?] & _ & H)]; [|done]. rewrite H in Hloop.
  apply Hloop; [|lia]. intros t e' Ht. apply Hand. lia.
Qed.

Lemma parse_grammar cv :
  match parse cv with
  | Ok n => exists e, derives LExpr cv e /\ forall a, evalNode n a = satisfied e a
  | Err e => errors_Is e ErrParse = true /\ forall x, ~ derives LExpr cv x
  end.
Proof.
  destruct (parse cv) as [n|e] eqn:E; unfold parse in E.
  - apply bind_Ok in E as ([n' rest] & E & H). destruct rest; [|done]. injection H as <-.
    apply parseExpr_sound in E as (q & e & -> & Hd & Hn). rewrite app_nil_r. eauto.
  - split.
    + apply bind_Err in E as [E|([n' rest] & _ & E)].
      * apply (parseExpr_errors (S (length cv)) cv); [lia|done].
      * destruct rest; [done|by injection E as <-].
    + intros x Hx. destruct (derives_derivable _ _ _ Hx (length cv) ltac:(lia)) as [Hc _].
      destruct (Hc [] I) as (n & En & _). rewrite app_nil_r in En. rewrite En in E. done.
Qed.

(** ** The cache is transparent *)

Definition cache_ok (e : Evaluator) : Prop :=
  forall cv o, e_cache e !! cv = Some o ->
    o = match parse cv with Ok n => Some n | Err _ => None end.

Definition visible_uncached (auths : Authorizations) (cv : bytes) : bool :=
  if len cv =? 0 then true
  else match parse cv with Ok n => evalNode n auths | Err _ => false end.

Lemma Visible_spec e cv :
  cache_ok e ->
  (Visible e cv).2 = visible_uncached (e_auths e) cv /\
  cache_ok (Visible e cv).1 /\ e_auths (Visible e cv).1 = e_auths e.
Proof.
  intros He. unfold Visible, visible_uncached. destruct (len cv =? 0); [done|].
  destruct (e_cache e !! cv) as [o|] eqn:Ec.
  - apply He in Ec. subst o. by destruct (parse cv).
  - destruct (parse cv) eqn:Ep; (split; [done|split; [|done]]);
      (intros cv' o; cbn [fst e_cache]; rewrite lookup_insert; case_decide; [subst cv'; rewrite Ep; congruence|apply He]).
Qed.

Lemma visible_uncached_spec auths cv :
  visible_uncached auths cv = true <-> visible_spec auths cv.
Proof.
  unfold visible_uncached, visible_spec. destruct (Z.eqb_spec (len cv) 0) as [H0|H0].
  { split; [left; by apply len_0_nil|done]. }
  assert (cv <> []) as Hne by (intros ->; done).
  pose proof (parse_grammar cv) as P. destruct (parse cv) as [n|e].
  - destruct P as (e & Hd & Hn). rewrite Hn. split; [eauto|].
    intros [?|(e' & Hd' & Hs)]; [done|].
    (* the tree that was parsed decides every derivation of the same string *)
    destruct (derives_derivable _ _ _ Hd (length cv) ltac:(lia)) as [Hc _].
    destruct (derives_derivable _ _ _ Hd' (length cv) ltac:(lia)) as [Hc' _].
    destruct (Hc [] I) as (m & Em & Hm), (Hc' [] I) as (m' & Em' & Hm').
    rewrite <-Hm. rewrite <-Hm' in Hs. congruence.
  - destruct P as [_ P]. split; [done|]. intros [?|(x & Hd & _)]; [done|]. by destruct (P x).
Qed.

(** A run of [Visible] calls on one evaluator. *)
Definition run_visible (e : Evaluator) (cvs : list bytes) : Evaluator :=
  foldl (fun e cv => (Visible e cv).1) e cvs.

Lemma run_visible_ok e cvs :
  cache_ok e -> cache_ok (run_visible e cvs) /\ e_auths (run_visible e cvs) = e_auths e.
Proof.
  revert e. induction cvs as [|cv cvs IH]; intros e He; [done|]. cbn.
  destruct (Visible_spec e cv He) as (_ & H1 & H2). rewrite <-H2. by apply IH.
Qed.

Lemma elem_of_NewAuthorizations labels l : l ∈ auth_set (NewAuthorizations labels) <-> l ∈ labels.
Proof.
  unfold NewAuthorizations; cbn.
  enough (forall s, l ∈ foldl (fun s l => {[l]} ∪ s) s labels <-> l ∈ (s : gset bytes) \/ l ∈ labels) as H
    by (rewrite H; set_solver).
  induction labels as [|x labels IH]; intros s; cbn; [set_solver|]. rewrite IH. set_solver.
Qed.

Lemma satisfied_mono e a b :
  auth_set a ⊆ auth_set b -> satisfied e a = true -> satisfied e b = true.
Proof.
  intros Hab. induction e; cbn.
  - unfold HasLabel. rewrite !bool_decide_eq_true. set_solver.
  - rewrite !andb_true_iff. intros []. split; auto.
  - rewrite !orb_true_iff. intros []; auto.
Qed.

(** ** Properties *)

(** C27: the visibility decision.  Whatever expressions an evaluator has decided
    before (its parse cache starts empty and only [Visible] changes it), a
    call of [Visible] answers true exactly when the label is empty or the
    expression is in the documented grammar and the authorizations satisfy
    it; so a malformed expression is never visible. *)
Theorem visible_correct labels history cv :
  (Visible (run_visible (NewEvaluator (NewAuthorizations labels)) history) cv).2 = true <->
  visible_spec (NewAuthorizations labels) cv.
Proof.
  destruct (run_visible_ok (NewEvaluator (NewAuthorizations labels)) history) as [Hc Ha].
  { intros ? ?. cbn. by rewrite lookup_empty. }
  destruct (Visible_spec _ cv Hc) as (-> & _). rewrite Ha. apply visible_uncached_spec.
Qed.

(** The parser decides the grammar.  It never runs out of its fuel: it
    fails only with [ErrParse] and only on strings outside the grammar; on a
    string of the grammar it returns a tree that evaluates, for every
    authorization set, as the expression reads. *)
Theorem parse_decides_grammar cv :
  match parse cv with
  | Ok n => exists e, derives LExpr cv e /\ forall a, evalNode n a = satisfied e a
  | Err e => errors_Is e ErrParse = true /\ forall x, ~ derives LExpr cv x
  end.
Proof. apply parse_grammar. Qed.

(** Authorizations are monotone: adding labels never hides a cell. *)
Theorem visible_monotone labels more history history' cv :
  (Visible (run_visible (NewEvaluator (NewAuthorizations labels)) history) cv).2 = true ->
  (Visible (run_visible (NewEvaluator (NewAuthorizations (labels ++ more))) history') cv).2 = true.
Proof.
  assert (forall l h, (Visible (run_visible (NewEvaluator (NewAuthorizations l)) h) cv).2 =
    visible_uncached (NewAuthorizations l) cv) as E.
  { intros l h. destruct (run_visible_ok (NewEvaluator (NewAuthorizations l)) h) as [Hc Ha].
    { intros ? ?. cbn. by rewrite lookup_empty. }
    destruct (Visible_spec _ cv Hc) as (-> & _). by rewrite Ha. }
  rewrite !E, !visible_uncached_spec. intros [->|(e & Hd & Hs)]; [by left|right].
  exists e. split; [done|]. eapply satisfied_mono, Hs. intros l.
  rewrite !elem_of_NewAuthorizations. set_solver.
Qed.

Lemma visible_monotone_witness :
  (Visible (run_visible (NewEvaluator (NewAuthorizations [[65]; [66]])) [[67]]) [65; 38; 66]).2 = true.
Proof.
  apply (visible_monotone [[65]; [66]] [] [] [[67]] [65; 38; 66]). vm_compute. reflexivity.
Defined.
