(* ===== verification/Iter.v ===== *)
(** * Iter: the iterator runtime's contract and its in-memory leaf
    (src/internal/iterrt: iterrt.go, source_slice.go, cfAllowed)

    [SKVI] is the interface every iterator implements; [SKVILaws] is what an
    iterator promises to the iterator stacked on it, in terms of the list of
    cells it has yet to surface ([view]) and of what a seek surfaces ([scan]).
    Every iterator of the runtime discharges the laws from those of its
    sources, so a stack of them denotes the composition of list functions. *)

From S2P Require Import Prelude Wire.

Abbreviation Cell := (Key * bytes)%type.

(** ** Ranges (iterrt.go) *)

Inductive IteratorScope := ScopeScan | ScopeMinc | ScopeMajc.

#[export] Instance IteratorScope_eq_dec : EqDecision IteratorScope.
Proof. solve_decision. Defined.

(** The fields of the environment that iterators consult; a nil
    [Authorizations] is [None]. *)
Record IteratorEnvironment := mkEnv {
  Scope : IteratorScope;
  FullMajorCompaction : bool;
  Auths : option (list bytes);
}.

Record Range := mkRange {
  Start : option Key;
  StartInclusive : bool;
  InfiniteStart : bool;
  End_ : option Key;
  EndInclusive : bool;
  InfiniteEnd : bool;
}.

Definition InfiniteRange : Range := mkRange None false true None false true.
Definition AfterKey (k : Key) : Range := mkRange (Some k) false false None false true.

Definition Contains (r : Range) (k : Key) : bool :=
  negb (match Start r with
        | Some s => negb (InfiniteStart r) &&
            (is_lt (Compare k s) || (is_eq (Compare k s) && negb (StartInclusive r)))
        | None => false
        end) &&
  negb (match End_ r with
        | Some e => negb (InfiniteEnd r) &&
            (is_gt (Compare k e) || (is_eq (Compare k e) && negb (EndInclusive r)))
        | None => false
        end).

Definition BeforeStart (r : Range) (k : Key) : bool :=
  if InfiniteStart r then false
  else match Start r with
  | None => false
  | Some s => is_lt (Compare k s) || (is_eq (Compare k s) && negb (StartInclusive r))
  end.

Definition AfterEnd (r : Range) (k : Key) : bool :=
  if InfiniteEnd r then false
  else match End_ r with
  | None => false
  | Some e => is_gt (Compare k e) || (is_eq (Compare k e) && negb (EndInclusive r))
  end.

(** [cfAllowed] of source_rfile.go: the column-family restriction of a seek. *)
Definition cfAllowed (cf : bytes) (families : list bytes) (inclusive : bool) : bool :=
  if len families =? 0 then negb inclusive
  else
    let in_ := existsb (fun f => bytes_Equal f cf) families in
    if inclusive then in_ else negb in_.

(** The cells a leaf surfaces for a seek. *)
Definition in_seek (r : Range) (cfs : list bytes) (inclusive : bool) (c : Cell) : bool :=
  Contains r c.1 && cfAllowed (ColumnFamily c.1) cfs inclusive.

(** ** The interface *)

Class SKVI (I : Type) := {
  Seek : Range -> list bytes -> bool -> I -> I * option err;
  Next : I -> I * option err;
  (** [HasTop] may latch an error, so it returns the receiver too. *)
  HasTop : I -> I * bool;
  GetTopKey : I -> option Key;
  GetTopValue : I -> option bytes;
  DeepCopy : IteratorEnvironment -> I -> I;
  (** Not a method of the code: an upper bound on the cells still to come,
      the fuel of the loops that advance a source. *)
  bound : I -> nat;
}.

Definition sorted_cells (l : list Cell) : Prop := StronglySorted key_le l.*1.

Class SKVILaws (I : Type) `{SKVI I} := {
  (** [ready]: initialised, may be seeked.  [live]: positioned by a seek. *)
  ready : I -> Prop;
  live : I -> Prop;
  view : I -> list Cell;
  scan : I -> Range -> list bytes -> bool -> list Cell;
  live_ready i : live i -> ready i;
  scan_sorted i r cfs incl : ready i -> sorted_cells (scan i r cfs incl);
  view_sorted i : live i -> sorted_cells (view i);
  seek_ok i r cfs incl : ready i ->
    exists i', Seek r cfs incl i = (i', None) /\ live i' /\
      view i' = scan i r cfs incl /\ scan i' = scan i;
  hastop_ok i : live i ->
    exists i', HasTop i = (i', bool_decide (view i <> [])) /\ live i' /\
      view i' = view i /\ scan i' = scan i;
  top_ok i c l : live i -> view i = c :: l -> GetTopKey i = Some c.1 /\ GetTopValue i = Some c.2;
  next_ok i c l : live i -> view i = c :: l ->
    exists i', Next i = (i', None) /\ live i' /\ view i' = l /\ scan i' = scan i;
  bound_ok i : live i -> (length (view i) <= bound i)%nat;
}.

(** The nil dereference of [GetTopKey()] on an exhausted source. *)
Definition Panic : err := Fail "nil pointer dereference".
Definition OutOfFuel : err := Fail "out of fuel".

(** ** Loops over a source

    [for src.HasTop() && p(src.GetTopKey()) { src.Next() }], where [p] may keep
    state of its own; an error of [Next] ends the loop. *)
Fixpoint while_top {I S} `{SKVI I} (p : S -> Key -> S * bool) (fuel : nat) (s : S) (src : I)
  : S * I * option err :=
  match fuel with
  | O => (s, src, Some OutOfFuel)
  | S fuel =>
      let '(src, has) := HasTop src in
      if has then
        match GetTopKey src with
        | None => (s, src, Some Panic)
        | Some k =>
            let '(s, go) := p s k in
            if go then
              let '(src, e) := Next src in
              match e with
              | Some e => (s, src, Some e)
              | None => while_top p fuel s src
              end
            else (s, src, None)
        end
      else (s, src, None)
  end.

Definition while_key {I} `{SKVI I} (p : Key -> bool) (fuel : nat) (src : I) : I * option err :=
  let '(_, src, e) := while_top (fun (_ : unit) k => (tt, p k)) fuel tt src in (src, e).

(** Reading an iterator to its end, as a scanner or a compaction does:
    [for it.HasTop() { use(it.GetTopKey(), it.GetTopValue()); it.Next() }]. *)
Fixpoint drain_iter {I} `{SKVI I} (fuel : nat) (it : I) : list Cell * I * option err :=
  match fuel with
  | O => ([], it, Some OutOfFuel)
  | S fuel =>
      let '(it, has) := HasTop it in
      if has then
        match GetTopKey it, GetTopValue it with
        | Some k, Some v =>
            let '(it, e) := Next it in
            match e with
            | Some e => ([(k, v)], it, Some e)
            | None => let '(l, it, e) := drain_iter fuel it in ((k, v) :: l, it, e)
            end
        | _, _ => ([], it, Some Panic)
        end
      else ([], it, None)
  end.

(** A whole read: seek, then drain. *)
Definition seek_drain {I} `{SKVI I} (r : Range) (cfs : list bytes) (incl : bool) (it : I) : result (list Cell) :=
  let '(it, e) := Seek r cfs incl it in
  match e with
  | Some e => Err e
  | None =>
      let '(out, _, e) := drain_iter (S (bound it)) it in
      match e with Some e => Err e | None => Ok out end
  end.

(** ** SliceSource (source_slice.go) *)

Record SliceSource := mkSliceSource {
  ss_cells : list Cell;
  ss_pos : nat;
  ss_rng : Range;
  ss_cfs : list bytes;
  ss_inclusive : bool;
}.

Definition zero_range : Range := mkRange None false false None false false.

Definition NewSliceSource (cells : list Cell) : SliceSource :=
  mkSliceSource cells 0 zero_range [] false.

Definition ss_set_pos (s : SliceSource) (pos : nat) : SliceSource :=
  mkSliceSource (ss_cells s) pos (ss_rng s) (ss_cfs s) (ss_inclusive s).

(** Each turn advances [pos], so one turn per cell and one to stop. *)
Fixpoint SliceSource_skip (fuel : nat) (s : SliceSource) : SliceSource :=
  match fuel with
  | O => s
  | S fuel =>
      match ss_cells s !! ss_pos s with
      | None => s
      | Some c =>
          if BeforeStart (ss_rng s) c.1 then SliceSource_skip fuel (ss_set_pos s (ss_pos s + 1))
          else if AfterEnd (ss_rng s) c.1 then ss_set_pos s (length (ss_cells s))
          else if negb (cfAllowed (ColumnFamily c.1) (ss_cfs s) (ss_inclusive s))
          then SliceSource_skip fuel (ss_set_pos s (ss_pos s + 1))
          else s
      end
  end.

Definition SliceSource_Seek (r : Range) (cfs : list bytes) (inclusive : bool) (s : SliceSource)
  : SliceSource * option err :=
  (SliceSource_skip (S (length (ss_cells s))) (mkSliceSource (ss_cells s) 0 r cfs inclusive), None).

Definition SliceSource_Next (s : SliceSource) : SliceSource * option err :=
  if (length (ss_cells s) <=? ss_pos s)%nat
  then (s, Some (Fail "iterrt: SliceSource.Next called without a top"))
  else (SliceSource_skip (S (length (ss_cells s))) (ss_set_pos s (ss_pos s + 1)), None).

Definition SliceSource_HasTop (s : SliceSource) : bool := (ss_pos s <? length (ss_cells s))%nat.
Definition SliceSource_GetTopKey (s : SliceSource) : option Key := fst <$> ss_cells s !! ss_pos s.
Definition SliceSource_GetTopValue (s : SliceSource) : option bytes := snd <$> ss_cells s !! ss_pos s.
Definition SliceSource_DeepCopy (env : IteratorEnvironment) (s : SliceSource) : SliceSource :=
  NewSliceSource (ss_cells s).

#[export] Instance SliceSource_SKVI : SKVI SliceSource := {
  Seek := SliceSource_Seek;
  Next := SliceSource_Next;
  HasTop s := (s, SliceSource_HasTop s);
  GetTopKey := SliceSource_GetTopKey;
  GetTopValue := SliceSource_GetTopValue;
  DeepCopy := SliceSource_DeepCopy;
  bound s := length (ss_cells s);
}.

(** ** Ranges and the key order *)

Lemma Contains_split r k : Contains r k = negb (BeforeStart r k) && negb (AfterEnd r k).
Proof.
  unfold Contains, BeforeStart, AfterEnd.
  destruct (Start r), (End_ r), (InfiniteStart r), (InfiniteEnd r); done.
Qed.

Lemma BeforeStart_mono r a b : key_le a b -> BeforeStart r b = true -> BeforeStart r a = true.
Proof.
  unfold BeforeStart, key_le. intros Hab. destruct (InfiniteStart r), (Start r) as [s|]; try done.
  destruct (Compare b s) eqn:Eb; cbn; [|intros _|done].
  - apply (cmp_eq Compare) in Eb as ->. by destruct (Compare a s).
  - destruct (Compare a b) eqn:Ea; [|by rewrite (cmp_trans Compare _ _ _ Ea Eb)|done].
    apply (cmp_eq Compare) in Ea as ->. by rewrite Eb.
Qed.

Lemma AfterEnd_mono r a b : key_le a b -> AfterEnd r a = true -> AfterEnd r b = true.
Proof.
  unfold AfterEnd, key_le. intros Hab. destruct (InfiniteEnd r), (End_ r) as [e|]; try done.
  destruct (Compare a e) eqn:Ea; cbn; [|done|intros _].
  - apply (cmp_eq Compare) in Ea as ->. rewrite (cmp_antisym Compare e b).
    destruct (Compare e b); done.
  - rewrite (cmp_antisym Compare e b). rewrite (cmp_antisym Compare e a) in Ea.
    destruct (Compare e a) eqn:Ee; try done.
    destruct (Compare a b) eqn:Eab; [|by rewrite (cmp_trans Compare _ _ _ Ee Eab)|done].
    apply (cmp_eq Compare) in Eab as ->. by rewrite Ee.
Qed.

(** ** Sorted cell lists *)

(** [l] ends with a cell of key [k]. *)
Definition ends_at (k : Key) (l : list Cell) : Prop := exists l' v, l = l' ++ [(k, v)].

Lemma sorted_cells_nil : sorted_cells [].
Proof. constructor. Qed.

Lemma sorted_cells_cons c l :
  sorted_cells (c :: l) <-> sorted_cells l /\ Forall (fun d => key_le c.1 d.1) l.
Proof.
  unfold sorted_cells. rewrite fmap_cons. split.
  - intros [H1 H2]%StronglySorted_inv. split; [done|]. by apply (proj1 (Forall_fmap fst (key_le c.1) l)).
  - intros [H1 H2]. constructor; [done|]. by apply (proj2 (Forall_fmap fst (key_le c.1) l)).
Qed.

Lemma sorted_cells_app l1 l2 :
  sorted_cells (l1 ++ l2) <->
  sorted_cells l1 /\ sorted_cells l2 /\ forall c d, c ∈ l1 -> d ∈ l2 -> key_le c.1 d.1.
Proof.
  induction l1 as [|c l1 IH]; cbn [app].
  - split; [intros; split_and!; [apply sorted_cells_nil|done|set_solver]|tauto].
  - rewrite !sorted_cells_cons, IH, Forall_app, !Forall_forall. set_solver.
Qed.

Lemma sorted_cells_sublist l1 l2 : sublist l1 l2 -> sorted_cells l2 -> sorted_cells l1.
Proof.
  induction 1 as [|c l1 l2 Hsub IH|c l1 l2 Hsub IH]; [done|..]; rewrite ?sorted_cells_cons.
  - intros [H1 H2]. split; [auto|]. by eapply sublist_Forall.
  - intros [H1 _]. auto.
Qed.

Lemma sorted_cells_filter (P : Cell -> Prop) `{forall c, Decision (P c)} l :
  sorted_cells l -> sorted_cells (filter P l).
Proof. apply sorted_cells_sublist, filter_sublist. Qed.

Lemma sorted_cells_drop n l : sorted_cells l -> sorted_cells (drop n l).
Proof. apply sorted_cells_sublist, sublist_drop. Qed.

(** [drop_while p l]: what is left when the leading [p]-cells are skipped. *)
Fixpoint drop_while (p : Key -> bool) (l : list Cell) : list Cell :=
  match l with
  | [] => []
  | c :: l' => if p c.1 then drop_while p l' else l
  end.

Lemma drop_while_sublist p l : sublist (drop_while p l) l.
Proof. induction l as [|c l IH]; cbn; [done|]. destruct (p c.1); [by constructor|done]. Qed.

Lemma drop_while_length p l : (length (drop_while p l) <= length l)%nat.
Proof. apply sublist_length, drop_while_sublist. Qed.

Lemma drop_while_sorted p l : sorted_cells l -> sorted_cells (drop_while p l).
Proof. apply sorted_cells_sublist, drop_while_sublist. Qed.

Lemma drop_while_head p l c l' : drop_while p l = c :: l' -> p c.1 = false.
Proof. induction l as [|d l IH]; cbn; [done|]. destruct (p d.1) eqn:E; [done|]. by intros [= <- <-]. Qed.

(** On a sorted list, skipping a downward-closed prefix is filtering. *)
Lemma drop_while_filter p l :
  (forall a b, key_le a b -> p b = true -> p a = true) -> sorted_cells l ->
  drop_while p l = filter (fun c => p c.1 = false) l.
Proof.
  intros Hp. induction l as [|c l IH]; cbn [drop_while]; [done|]. rewrite sorted_cells_cons. intros [Hs Hc].
  destruct (p c.1) eqn:E.
  - rewrite filter_cons_False by congruence. by apply IH.
  - rewrite filter_all; [done|]. constructor; [done|].
    eapply Forall_impl; [exact Hc|]. intros d Hd. cbn. destruct (p d.1) eqn:E'; [|done].
    by rewrite (Hp _ _ Hd E') in E.
Qed.

(** ** What a loop over a lawful source does *)

Section laws.
Context {I : Type} `{SKVILaws I}.

Lemma while_top_spec {S} (p : S -> Key -> S * bool) (Inv : S -> Prop) (q : Key -> bool) fuel s i :
  (forall s k, Inv s -> (p s k).2 = q k /\ Inv (p s k).1) ->
  Inv s -> live i -> (length (view i) < fuel)%nat ->
  exists s' i', while_top p fuel s i = (s', i', None) /\ Inv s' /\ live i' /\
    view i' = drop_while q (view i) /\ scan i' = scan i.
Proof.
  intros Hp. revert s i. induction fuel as [|fuel IH]; intros s i Hs Hi Hf; [lia|]. cbn [while_top].
  destruct (hastop_ok i Hi) as (i1 & -> & Hi1 & Hv1 & Hsc1).
  destruct (view i) as [|c l] eqn:Ev.
  { exists s, i1. rewrite bool_decide_eq_false_2 by tauto. by rewrite Hv1. }
  rewrite bool_decide_eq_true_2 by done.
  destruct (top_ok i1 c l Hi1 Hv1) as [-> _]. cbn [drop_while length] in *.
  destruct (p s c.1) as [s' go] eqn:Ep. destruct (Hp s c.1 Hs) as [Hq Hs']. rewrite Ep in Hq, Hs'. cbn in Hq, Hs'.
  subst go. destruct (q c.1) eqn:Eq.
  - destruct (next_ok i1 c l Hi1 Hv1) as (i2 & -> & Hi2 & Hv2 & Hsc2).
    destruct (IH s' i2 Hs' Hi2) as (s3 & i3 & -> & ? & ? & Hv3 & Hsc3); [rewrite Hv2; lia|].
    exists s3, i3. rewrite Hv3, Hv2. split_and!; [done..|congruence].
  - exists s', i1. by rewrite Hv1.
Qed.

Lemma while_key_spec (p : Key -> bool) fuel i :
  live i -> (length (view i) < fuel)%nat ->
  exists i', while_key p fuel i = (i', None) /\ live i' /\
    view i' = drop_while p (view i) /\ scan i' = scan i.
Proof.
  intros Hi Hf. unfold while_key.
  destruct (while_top_spec (fun (_ : unit) k => (tt, p k)) (fun _ => True) p fuel tt i)
    as (s & i' & -> & _ & ?); [done..|]. eauto.
Qed.

(** Reading to the end surfaces exactly the view, and terminates. *)
Lemma drain_iter_spec fuel i :
  live i -> (length (view i) < fuel)%nat ->
  exists i', drain_iter fuel i = (view i, i', None) /\ live i' /\ view i' = [] /\ scan i' = scan i.
Proof.
  revert i. induction fuel as [|fuel IH]; intros i Hi Hf; [lia|]. cbn [drain_iter].
  destruct (hastop_ok i Hi) as (i1 & -> & Hi1 & Hv1 & Hsc1).
  destruct (view i) as [|c l] eqn:Ev.
  { exists i1. by rewrite bool_decide_eq_false_2 by tauto. }
  rewrite bool_decide_eq_true_2 by done. cbn [length] in Hf.
  destruct (top_ok i1 c l Hi1 Hv1) as [-> ->].
  destruct (next_ok i1 c l Hi1 Hv1) as (i2 & -> & Hi2 & Hv2 & Hsc2).
  destruct (IH i2 Hi2) as (i3 & -> & ? & ? & Hsc3); [rewrite Hv2; lia|].
  exists i3. rewrite Hv2. split_and!; [by destruct c|done|done|congruence].
Qed.

Lemma seek_drain_ok r cfs incl i : ready i -> seek_drain r cfs incl i = Ok (scan i r cfs incl).
Proof.
  intros Hi. unfold seek_drain. destruct (seek_ok i r cfs incl Hi) as (i' & -> & Hl & Hview & _).
  destruct (drain_iter_spec (S (bound i')) i' Hl) as (i2 & -> & _).
  { pose proof (bound_ok i' Hl). lia. }
  by rewrite Hview.
Qed.
End laws.

(** ** SliceSource keeps the contract *)

Definition ss_view (s : SliceSource) : list Cell :=
  filter (fun c => in_seek (ss_rng s) (ss_cfs s) (ss_inclusive s) c = true) (drop (ss_pos s) (ss_cells s)).

Definition ss_live (s : SliceSource) : Prop :=
  sorted_cells (ss_cells s) /\
  match ss_cells s !! ss_pos s with
  | Some c => in_seek (ss_rng s) (ss_cfs s) (ss_inclusive s) c = true
  | None => True
  end.

(** [skip] only moves the position, to the next cell of the view. *)
Lemma SliceSource_skip_spec fuel s :
  sorted_cells (ss_cells s) -> (length (ss_cells s) < ss_pos s + fuel)%nat ->
  exists pos, SliceSource_skip fuel s = ss_set_pos s pos /\
    ss_live (ss_set_pos s pos) /\ ss_view (ss_set_pos s pos) = ss_view s.
Proof.
  intros Hs. revert s Hs. induction fuel as [|fuel IH]; intros s Hs Hf.
  { exists (ss_pos s). split; [by destruct s|]. unfold ss_live; cbn.
    by rewrite lookup_ge_None_2 by lia. }
  cbn [SliceSource_skip]. destruct (ss_cells s !! ss_pos s) as [c|] eqn:Ec.
  2: { exists (ss_pos s). split; [by destruct s|]. unfold ss_live; cbn. by rewrite Ec. }
  assert (drop (ss_pos s) (ss_cells s) = c :: drop (S (ss_pos s)) (ss_cells s)) as Hd by by apply drop_S.
  assert (forall P : in_seek (ss_rng s) (ss_cfs s) (ss_inclusive s) c <> true,
    ss_view (ss_set_pos s (ss_pos s + 1)) = ss_view s) as Hskip.
  { intros P. unfold ss_view; cbn. rewrite Hd, filter_cons_False, Nat.add_1_r by done. done. }
  assert (exists pos, SliceSource_skip fuel (ss_set_pos s (ss_pos s + 1)) = ss_set_pos s pos /\
    ss_live (ss_set_pos s pos) /\ ss_view (ss_set_pos s pos) = ss_view (ss_set_pos s (ss_pos s + 1))) as Hrec.
  { apply (IH (ss_set_pos s (ss_pos s + 1))); cbn; [done|lia]. }
  unfold in_seek in Hskip. rewrite Contains_split in Hskip.
  destruct (BeforeStart (ss_rng s) c.1) eqn:Eb.
  { rewrite Hskip in Hrec by done. exact Hrec. }
  destruct (AfterEnd (ss_rng s) c.1) eqn:Ea.
  - exists (length (ss_cells s)). split; [done|]. unfold ss_live, ss_view; cbn.
    rewrite lookup_ge_None_2, (drop_ge (ss_cells s) (length (ss_cells s))) by lia.
    split; [done|]. symmetry. apply filter_none.
    pose proof (sorted_cells_drop (ss_pos s) _ Hs) as Hs'. rewrite Hd in Hs' |- *.
    apply sorted_cells_cons in Hs' as [_ Hs']. constructor.
    + unfold in_seek. by rewrite Contains_split, Ea, andb_false_r.
    + eapply Forall_impl; [exact Hs'|]. intros d Hcd. unfold in_seek. cbn.
      by rewrite Contains_split, (AfterEnd_mono _ _ _ Hcd Ea), andb_false_r.
  - destruct (cfAllowed _ _ _) eqn:Ecf; cbn [negb].
    + exists (ss_pos s). split; [by destruct s|]. split; [|done]. split; [done|]. cbn. rewrite Ec.
      unfold in_seek. by rewrite Contains_split, Eb, Ea, Ecf.
    + rewrite Hskip in Hrec by done. exact Hrec.
Qed.

Lemma ss_view_top s c l :
  ss_live s -> ss_view s = c :: l ->
  ss_cells s !! ss_pos s = Some c /\
  l = filter (fun c => in_seek (ss_rng s) (ss_cfs s) (ss_inclusive s) c = true) (drop (S (ss_pos s)) (ss_cells s)).
Proof.
  unfold ss_live, ss_view. intros [_ Hl] Hv.
  destruct (ss_cells s !! ss_pos s) as [d|] eqn:Ed.
  - rewrite (drop_S _ _ _ Ed), filter_cons_True in Hv by done. by injection Hv as -> <-.
  - apply lookup_ge_None in Ed. by rewrite drop_ge in Hv by lia.
Qed.

#[export, refine] Instance SliceSource_Laws : SKVILaws SliceSource := {
  ready s := sorted_cells (ss_cells s);
  live := ss_live;
  view := ss_view;
  scan s r cfs incl := filter (fun c => in_seek r cfs incl c = true) (ss_cells s);
}.
Proof.
  - intros s [Hs _]. done.
  - intros s r cfs incl Hs. by apply sorted_cells_filter.
  - intros s [Hs _]. by apply sorted_cells_filter, sorted_cells_drop.
  - intros s r cfs incl Hs. cbn [Seek SliceSource_SKVI]. unfold SliceSource_Seek.
    destruct (SliceSource_skip_spec (S (length (ss_cells s))) (mkSliceSource (ss_cells s) 0 r cfs incl))
      as (pos & -> & Hl & Hv); [done|cbn; lia|].
    eexists. split; [done|]. split; [done|]. rewrite Hv. unfold ss_view; cbn. by rewrite drop_0.
  - intros s Hs. exists s. split; [|done]. cbn. f_equal. unfold SliceSource_HasTop.
    destruct Hs as [Hs Hl]. destruct (ss_cells s !! ss_pos s) as [c|] eqn:Ec.
    + rewrite bool_decide_eq_true_2 by (unfold ss_view; by rewrite (drop_S _ _ _ Ec), filter_cons_True).
      apply lookup_lt_Some in Ec. by apply Nat.ltb_lt.
    + apply lookup_ge_None in Ec. rewrite bool_decide_eq_false_2.
      * by apply Nat.ltb_ge.
      * unfold ss_view. rewrite drop_ge by done. tauto.
  - intros s c l Hs Hv. destruct (ss_view_top s c l Hs Hv) as [Hc _]. cbn.
    unfold SliceSource_GetTopKey, SliceSource_GetTopValue. by rewrite Hc.
  - intros s c l Hs Hv. destruct (ss_view_top s c l Hs Hv) as [Hc ->]. cbn.
    unfold SliceSource_Next. apply lookup_lt_Some in Hc as Hlt.
    rewrite (proj2 (Nat.leb_gt _ _)) by done.
    destruct (SliceSource_skip_spec (S (length (ss_cells s))) (ss_set_pos s (ss_pos s + 1)))
      as (pos & -> & Hl & Hv'); [apply Hs|cbn; lia|].
    eexists. split; [done|]. split; [done|]. split; [|done].
    rewrite Hv'. unfold ss_view; cbn. by rewrite Nat.add_1_r.
  - intros s Hs. cbn. unfold ss_view. etrans; [apply sublist_length, filter_sublist|].
    rewrite length_drop. lia.
Defined.
