(* ===== verification/IterStack.v ===== *)
(** * IterStack: the iterators stacked on a source
    (src/internal/iterrt: asof.go, visibility.go, versioning.go, deleting.go)

    Each iterator is a record over its source's type, with the methods of the
    interface translated one by one; the instances make any of them a source
    for the next. *)

From S2P Require Import Prelude Wire VisFilter Iter.
From Stdlib Require Import Ascii.

(** ** Option parsing (strconv) *)

Abbreviation options := (gmap string string).

(** [options\[key\]] present and not empty. *)
Definition option_set (o : options) (key : string) : option string :=
  match o !! key with
  | Some s => if bool_decide (s = ""%string) then None else Some s
  | None => None
  end.

Definition digit (c : Ascii.ascii) : option Z :=
  let n := Z.of_N (Ascii.N_of_ascii c) in
  if (48 <=? n) && (n <=? 57) then Some (n - 48) else None.

Fixpoint digits (s : string) (acc : Z) : option Z :=
  match s with
  | EmptyString => Some acc
  | String c s' => match digit c with Some d => digits s' (10 * acc + d) | None => None end
  end.

(** [strconv.ParseInt(s, 10, 64)]: an optional sign, then decimal digits; a
    value outside int64 is an error.  [strconv.Atoi] agrees with it on a
    64-bit [int]. *)
Definition ParseInt (s : string) : option Z :=
  let '(neg, body) :=
    match s with
    | String "-"%char s' => (true, s')
    | String "+"%char s' => (false, s')
    | _ => (false, s)
    end in
  match body with
  | EmptyString => None
  | _ =>
      match digits body 0 with
      | None => None
      | Some n =>
          let v := if (neg : bool) then - n else n in
          if (v <? - 2 ^ 63) || (v >? MaxInt64) then None else Some v
      end
  end.

(** [strconv.ParseBool]. *)
Definition ParseBool (s : string) : option bool :=
  if bool_decide (s ∈ ["1"; "t"; "T"; "TRUE"; "true"; "True"]%string) then Some true
  else if bool_decide (s ∈ ["0"; "f"; "F"; "FALSE"; "false"; "False"]%string) then Some false
  else None.

(** ** AsOfIterator (asof.go) *)

Record AsOfIterator (I : Type) := mkAsOf {
  ao_source : I;
  ao_ceiling : Z;
  ao_err : option err;
}.
Arguments mkAsOf {I}.
Arguments ao_source {I}.
Arguments ao_ceiling {I}.
Arguments ao_err {I}.

Section AsOf.
  Context {I : Type} `{SKVI I}.

(** [None] is a nil source. *)
Definition AsOfIterator_Init (source : option I) (o : options) : result (AsOfIterator I) :=
  match source with
  | None => Err (Fail "iterrt: AsOfIterator requires a non-nil source")
  | Some src =>
      match option_set o "asOfTimestamp" with
      | None => Ok (mkAsOf src 0 None)
      | Some s =>
          match ParseInt s with
          | None => Err (Fail "iterrt: AsOfIterator bad integer")
          | Some n => Ok (mkAsOf src (if n >? 0 then n else 0) None)
          end
      end
  end.

Definition AsOfIterator_active (a : AsOfIterator I) : bool := ao_ceiling a >? 0.

Definition AsOfIterator_findTop (a : AsOfIterator I) : AsOfIterator I * option err :=
  if negb (AsOfIterator_active a) then (a, None)
  else
    let '(src, e) :=
      while_key (fun k => Timestamp k >? ao_ceiling a) (S (bound (ao_source a))) (ao_source a) in
    match e with
    | Some e => (mkAsOf src (ao_ceiling a) (Some e), Some e)
    | None => (mkAsOf src (ao_ceiling a) (ao_err a), None)
    end.

Definition AsOfIterator_Seek (r : Range) (cfs : list bytes) (inclusive : bool) (a : AsOfIterator I)
  : AsOfIterator I * option err :=
  let '(src, e) := Seek r cfs inclusive (ao_source a) in
  match e with
  | Some e => (mkAsOf src (ao_ceiling a) (Some e), Some e)
  | None => AsOfIterator_findTop (mkAsOf src (ao_ceiling a) None)
  end.

Definition AsOfIterator_Next (a : AsOfIterator I) : AsOfIterator I * option err :=
  match ao_err a with
  | Some e => (a, Some e)
  | None =>
      let '(src, has) := HasTop (ao_source a) in
      if negb has then
        (mkAsOf src (ao_ceiling a) None, Some (Fail "iterrt: AsOfIterator.Next called without a top"))
      else
        let '(src, e) := Next src in
        match e with
        | Some e => (mkAsOf src (ao_ceiling a) (Some e), Some e)
        | None => AsOfIterator_findTop (mkAsOf src (ao_ceiling a) None)
        end
  end.

Definition AsOfIterator_HasTop (a : AsOfIterator I) : AsOfIterator I * bool :=
  match ao_err a with
  | Some _ => (a, false)
  | None => let '(src, has) := HasTop (ao_source a) in (mkAsOf src (ao_ceiling a) None, has)
  end.

(** [if !source.HasTop() { return nil }; return source.GetTopKey()]; the
    source's [HasTop] leaves its top where it is. *)
Definition AsOfIterator_GetTopKey (a : AsOfIterator I) : option Key :=
  let '(src, has) := HasTop (ao_source a) in if has then GetTopKey src else None.
Definition AsOfIterator_GetTopValue (a : AsOfIterator I) : option bytes :=
  let '(src, has) := HasTop (ao_source a) in if has then GetTopValue src else None.
Definition AsOfIterator_DeepCopy (env : IteratorEnvironment) (a : AsOfIterator I) : AsOfIterator I :=
  mkAsOf (DeepCopy env (ao_source a)) (ao_ceiling a) None.
End AsOf.

#[export] Instance AsOfIterator_SKVI {I} `{SKVI I} : SKVI (AsOfIterator I) := {
  Seek := AsOfIterator_Seek;
  Next := AsOfIterator_Next;
  HasTop := AsOfIterator_HasTop;
  GetTopKey := AsOfIterator_GetTopKey;
  GetTopValue := AsOfIterator_GetTopValue;
  DeepCopy := AsOfIterator_DeepCopy;
  bound a := bound (ao_source a);
}.

(** ** VisibilityFilter (visibility.go) *)

Record VisibilityFilter (I : Type) := mkVis {
  vf_source : I;
  vf_active : bool;
  vf_eval : Evaluator;
  vf_err : option err;
}.
Arguments mkVis {I}.
Arguments vf_source {I}.
Arguments vf_active {I}.
Arguments vf_eval {I}.
Arguments vf_err {I}.

Section VisibilityFilter.
  Context {I : Type} `{SKVI I}.

(** The evaluator of an inactive filter is nil in the code and never used. *)
Definition env_active (env : IteratorEnvironment) : bool :=
  bool_decide (Scope env = ScopeScan) && bool_decide (is_Some (Auths env)).
Definition env_eval (env : IteratorEnvironment) : Evaluator :=
  NewEvaluator (NewAuthorizations (default [] (Auths env))).

Definition VisibilityFilter_Init (source : option I) (env : IteratorEnvironment) : result (VisibilityFilter I) :=
  match source with
  | None => Err (Fail "iterrt: VisibilityFilter requires a non-nil source")
  | Some src => Ok (mkVis src (env_active env) (env_eval env) None)
  end.

(** The loop runs while the top is NOT visible. *)
Definition VisibilityFilter_skipInvisible (f : VisibilityFilter I) : VisibilityFilter I * option err :=
  if negb (vf_active f) then (f, None)
  else
    let '(ev, src, e) :=
      while_top (fun ev k => let '(ev, vis) := Visible ev (ColumnVisibility k) in (ev, negb vis))
        (S (bound (vf_source f))) (vf_eval f) (vf_source f) in
    match e with
    | Some e => (mkVis src true ev (Some e), Some e)
    | None => (mkVis src true ev (vf_err f), None)
    end.

Definition VisibilityFilter_Seek (r : Range) (cfs : list bytes) (inclusive : bool) (f : VisibilityFilter I)
  : VisibilityFilter I * option err :=
  let '(src, e) := Seek r cfs inclusive (vf_source f) in
  match e with
  | Some e => (mkVis src (vf_active f) (vf_eval f) (Some e), Some e)
  | None => VisibilityFilter_skipInvisible (mkVis src (vf_active f) (vf_eval f) None)
  end.

Definition VisibilityFilter_Next (f : VisibilityFilter I) : VisibilityFilter I * option err :=
  match vf_err f with
  | Some e => (f, Some e)
  | None =>
      let '(src, has) := HasTop (vf_source f) in
      if negb has then
        (mkVis src (vf_active f) (vf_eval f) None,
         Some (Fail "iterrt: VisibilityFilter.Next called without a top"))
      else
        let '(src, e) := Next src in
        match e with
        | Some e => (mkVis src (vf_active f) (vf_eval f) (Some e), Some e)
        | None => VisibilityFilter_skipInvisible (mkVis src (vf_active f) (vf_eval f) None)
        end
  end.

Definition VisibilityFilter_HasTop (f : VisibilityFilter I) : VisibilityFilter I * bool :=
  match vf_err f with
  | Some _ => (f, false)
  | None =>
      let '(src, has) := HasTop (vf_source f) in (mkVis src (vf_active f) (vf_eval f) None, has)
  end.
Definition VisibilityFilter_GetTopKey (f : VisibilityFilter I) : option Key :=
  let '(src, has) := HasTop (vf_source f) in if has then GetTopKey src else None.
Definition VisibilityFilter_GetTopValue (f : VisibilityFilter I) : option bytes :=
  let '(src, has) := HasTop (vf_source f) in if has then GetTopValue src else None.
Definition VisibilityFilter_DeepCopy (env : IteratorEnvironment) (f : VisibilityFilter I) : VisibilityFilter I :=
  mkVis (DeepCopy env (vf_source f)) (env_active env) (env_eval env) None.
End VisibilityFilter.

#[export] Instance VisibilityFilter_SKVI {I} `{SKVI I} : SKVI (VisibilityFilter I) := {
  Seek := VisibilityFilter_Seek;
  Next := VisibilityFilter_Next;
  HasTop := VisibilityFilter_HasTop;
  GetTopKey := VisibilityFilter_GetTopKey;
  GetTopValue := VisibilityFilter_GetTopValue;
  DeepCopy := VisibilityFilter_DeepCopy;
  bound f := bound (vf_source f);
}.

(** ** VersioningIterator (versioning.go) *)

Record VersioningIterator (I : Type) := mkVers {
  vi_source : I;
  vi_maxVersions : Z;
  vi_coord : option Key;
  vi_numVersions : Z;
  vi_err : option err;
}.
Arguments mkVers {I}.
Arguments vi_source {I}.
Arguments vi_maxVersions {I}.
Arguments vi_coord {I}.
Arguments vi_numVersions {I}.
Arguments vi_err {I}.

Section Versioning.
  Context {I : Type} `{SKVI I}.

Definition VersioningIterator_Init (source : option I) (o : options) : result (VersioningIterator I) :=
  match source with
  | None => Err (Fail "iterrt: VersioningIterator requires a non-nil source")
  | Some src =>
      maxVersions ←
        match option_set o "maxVersions" with
        | None => Ok 1
        | Some s =>
            match ParseInt s with
            | None => Err (Fail "iterrt: VersioningIterator bad integer maxVersions")
            | Some n => Ok n
            end
        end;
      if maxVersions <? 1
      then Err (Fail "iterrt: maxVersions for versioning iterator must be >= 1")
      else Ok (mkVers src maxVersions None 0 None)
  end.

Definition VersioningIterator_resetRun (v : VersioningIterator I) : VersioningIterator I :=
  let '(src, has) := HasTop (vi_source v) in
  mkVers src (vi_maxVersions v) (if has then GetTopKey src else None) 1 (vi_err v).

Definition VersioningIterator_Seek (r : Range) (cfs : list bytes) (inclusive : bool) (v : VersioningIterator I)
  : VersioningIterator I * option err :=
  let '(src, e) := Seek r cfs inclusive (vi_source v) in
  match e with
  | Some e => (mkVers src (vi_maxVersions v) (vi_coord v) (vi_numVersions v) (Some e), Some e)
  | None =>
      (VersioningIterator_resetRun (mkVers src (vi_maxVersions v) (vi_coord v) (vi_numVersions v) None), None)
  end.

Definition VersioningIterator_skipCoordinate (v : VersioningIterator I) : VersioningIterator I * option err :=
  let with_src src e := mkVers src (vi_maxVersions v) (vi_coord v) (vi_numVersions v) e in
  let '(src, e) := Next (vi_source v) in
  match e with
  | Some e => (with_src src (Some e), Some e)
  | None =>
      match vi_coord v with
      | None => let '(src, _) := HasTop src in (with_src src (vi_err v), None)
      | Some skip =>
          let '(src, e) := while_key (fun k => is_eq (CompareRowCFCQCV k skip)) (S (bound src)) src in
          match e with
          | Some e => (with_src src (Some e), Some e)
          | None => (with_src src (vi_err v), None)
          end
      end
  end.

Definition VersioningIterator_Next (v : VersioningIterator I) : VersioningIterator I * option err :=
  match vi_err v with
  | Some e => (v, Some e)
  | None =>
      let with_src src e := mkVers src (vi_maxVersions v) (vi_coord v) (vi_numVersions v) e in
      let '(src, has) := HasTop (vi_source v) in
      if negb has then
        (with_src src None, Some (Fail "iterrt: VersioningIterator.Next called without a top"))
      else if vi_numVersions v >=? vi_maxVersions v then
        let '(v, e) := VersioningIterator_skipCoordinate (with_src src None) in
        match e with
        | Some e => (v, Some e)
        | None => (VersioningIterator_resetRun v, None)
        end
      else
        let '(src, e) := Next src in
        match e with
        | Some e => (with_src src (Some e), Some e)
        | None =>
            let '(src, has) := HasTop src in
            if has then
              if match vi_coord v, GetTopKey src with
                 | Some coord, Some k => is_eq (CompareRowCFCQCV k coord)
                 | _, _ => false
                 end
              then (mkVers src (vi_maxVersions v) (vi_coord v) (vi_numVersions v + 1) None, None)
              else (VersioningIterator_resetRun (with_src src None), None)
            else (with_src src None, None)
        end
  end.

Definition VersioningIterator_HasTop (v : VersioningIterator I) : VersioningIterator I * bool :=
  match vi_err v with
  | Some _ => (v, false)
  | None =>
      let '(src, has) := HasTop (vi_source v) in
      (mkVers src (vi_maxVersions v) (vi_coord v) (vi_numVersions v) None, has)
  end.
Definition VersioningIterator_GetTopKey (v : VersioningIterator I) : option Key :=
  let '(src, has) := HasTop (vi_source v) in if has then GetTopKey src else None.
Definition VersioningIterator_GetTopValue (v : VersioningIterator I) : option bytes :=
  let '(src, has) := HasTop (vi_source v) in if has then GetTopValue src else None.
Definition VersioningIterator_DeepCopy (env : IteratorEnvironment) (v : VersioningIterator I) : VersioningIterator I :=
  mkVers (DeepCopy env (vi_source v)) (vi_maxVersions v) None 0 None.
End Versioning.

#[export] Instance VersioningIterator_SKVI {I} `{SKVI I} : SKVI (VersioningIterator I) := {
  Seek := VersioningIterator_Seek;
  Next := VersioningIterator_Next;
  HasTop := VersioningIterator_HasTop;
  GetTopKey := VersioningIterator_GetTopKey;
  GetTopValue := VersioningIterator_GetTopValue;
  DeepCopy := VersioningIterator_DeepCopy;
  bound v := bound (vi_source v);
}.

(** ** DeletingIterator (deleting.go) *)

Inductive DeletingBehavior := DeletingProcess | DeletingFail.

#[export] Instance DeletingBehavior_eq_dec : EqDecision DeletingBehavior.
Proof. solve_decision. Defined.

Definition ErrUnexpectedDelete : err :=
  Fail "iterrt: DeletingIterator saw unexpected delete (behavior=fail)".

Record DeletingIterator (I : Type) := mkDel {
  di_source : I;
  di_propagateDeletes : bool;
  di_behavior : DeletingBehavior;
  di_err : option err;
}.
Arguments mkDel {I}.
Arguments di_source {I}.
Arguments di_propagateDeletes {I}.
Arguments di_behavior {I}.
Arguments di_err {I}.

Definition compareRowCFCQCVTime (a b : Key) : comparison :=
  bytes_Compare (Row a) (Row b) <?>
  bytes_Compare (ColumnFamily a) (ColumnFamily b) <?>
  bytes_Compare (ColumnQualifier a) (ColumnQualifier b) <?>
  bytes_Compare (ColumnVisibility a) (ColumnVisibility b) <?>
  if negb (Timestamp a =? Timestamp b) then
    if Timestamp b <? Timestamp a then Lt else Gt
  else Eq.

Section Deleting.
  Context {I : Type} `{SKVI I}.

Definition DeletingIterator_Init (source : option I) (o : options) (env : IteratorEnvironment)
  : result (DeletingIterator I) :=
  match source with
  | None => Err (Fail "iterrt: DeletingIterator requires a non-nil source")
  | Some src =>
      let propagateDeletes := negb (bool_decide (Scope env = ScopeMajc) && FullMajorCompaction env) in
      propagateDeletes ←
        match option_set o "propagateDeletes" with
        | None => Ok propagateDeletes
        | Some s =>
            match ParseBool s with
            | None => Err (Fail "iterrt: DeletingIterator bad propagateDeletes")
            | Some b => Ok b
            end
        end;
      behavior ←
        match option_set o "behavior" with
        | None => Ok DeletingProcess
        | Some s =>
            if bool_decide (s ∈ ["process"; "PROCESS"]%string) then Ok DeletingProcess
            else if bool_decide (s ∈ ["fail"; "FAIL"]%string) then Ok DeletingFail
            else Err (Fail "iterrt: DeletingIterator bad behavior (want process|fail)")
        end;
      Ok (mkDel src propagateDeletes behavior None)
  end.

Definition di_with (d : DeletingIterator I) (src : I) (e : option err) : DeletingIterator I :=
  mkDel src (di_propagateDeletes d) (di_behavior d) e.

Definition DeletingIterator_skipCoordinate (d : DeletingIterator I) : DeletingIterator I * option err :=
  match GetTopKey (di_source d) with
  | None => (d, Some Panic)
  | Some skip =>
      let '(src, e) := Next (di_source d) in
      match e with
      | Some e => (di_with d src (Some e), Some e)
      | None =>
          let '(src, e) := while_key (fun k => is_eq (CompareRowCFCQCV k skip)) (S (bound src)) src in
          match e with
          | Some e => (di_with d src (Some e), Some e)
          | None => (di_with d src (di_err d), None)
          end
      end
  end.

(** [for source.HasTop() && source.GetTopKey().Deleted { skipCoordinate() }]. *)
Fixpoint findTop_loop (fuel : nat) (d : DeletingIterator I) : DeletingIterator I * option err :=
  match fuel with
  | O => (d, Some OutOfFuel)
  | S fuel =>
      let '(src, has) := HasTop (di_source d) in
      let d := di_with d src (di_err d) in
      if has then
        match GetTopKey src with
        | None => (d, Some Panic)
        | Some k =>
            if Deleted k then
              let '(d, e) := DeletingIterator_skipCoordinate d in
              match e with
              | Some e => (d, Some e)
              | None => findTop_loop fuel d
              end
            else (d, None)
        end
      else (d, None)
  end.

Definition DeletingIterator_findTop (d : DeletingIterator I) : DeletingIterator I * option err :=
  if di_propagateDeletes d then (d, None)
  else findTop_loop (S (bound (di_source d))) d.

Definition DeletingIterator_advance (d : DeletingIterator I) : DeletingIterator I * option err :=
  match di_err d with
  | Some e => (d, Some e)
  | None =>
      let '(src, has) := HasTop (di_source d) in
      let d := di_with d src None in
      if negb has then (d, Some (Fail "iterrt: DeletingIterator.Next called without a top"))
      else match GetTopKey src with
      | None => (d, Some Panic)
      | Some k =>
          let '(d, e) :=
            if Deleted k then DeletingIterator_skipCoordinate d
            else
              let '(src, e) := Next src in
              match e with
              | Some e => (di_with d src (Some e), Some e)
              | None => (di_with d src None, None)
              end in
          match e with
          | Some e => (d, Some e)
          | None => DeletingIterator_findTop d
          end
      end
  end.

Definition DeletingIterator_Next (d : DeletingIterator I) : DeletingIterator I * option err :=
  DeletingIterator_advance d.

Definition DeletingIterator_HasTop (d : DeletingIterator I) : DeletingIterator I * bool :=
  match di_err d with
  | Some _ => (d, false)
  | None =>
      let '(src, has) := HasTop (di_source d) in
      if negb has then (di_with d src None, false)
      else if bool_decide (di_behavior d = DeletingFail) &&
              match GetTopKey src with Some k => Deleted k | None => false end
      then (di_with d src (Some ErrUnexpectedDelete), false)
      else (di_with d src None, true)
  end.

Definition DeletingIterator_GetTopKey (d : DeletingIterator I) : option Key :=
  let '(src, has) := HasTop (di_source d) in if has then GetTopKey src else None.
Definition DeletingIterator_GetTopValue (d : DeletingIterator I) : option bytes :=
  let '(src, has) := HasTop (di_source d) in if has then GetTopValue src else None.

(** [for has(d) && before(key(d)) { d.advance() }], for the two catch-up loops
    of [Seek]: the first looks at the source's top, the second at its own. *)
Fixpoint catch_up (has : DeletingIterator I -> DeletingIterator I * bool)
    (before : Key -> bool) (fuel : nat) (d : DeletingIterator I) : DeletingIterator I * option err :=
  match fuel with
  | O => (d, Some OutOfFuel)
  | S fuel =>
      let '(d, b) := has d in
      if b then
        match GetTopKey (di_source d) with
        | None => (d, Some Panic)
        | Some k =>
            if before k then
              let '(d, e) := DeletingIterator_advance d in
              match e with
              | Some e => (d, Some e)
              | None => catch_up has before fuel d
              end
            else (d, None)
        end
      else (d, None)
  end.

Definition source_HasTop (d : DeletingIterator I) : DeletingIterator I * bool :=
  let '(src, has) := HasTop (di_source d) in (di_with d src (di_err d), has).

(** The start key with its timestamp maximized. *)
Definition maximize_start (r : Range) : Range :=
  match Start r with
  | Some s =>
      if InfiniteStart r then r
      else
        mkRange
          (Some (mkKey (Row s) (ColumnFamily s) (ColumnQualifier s) (ColumnVisibility s) MaxInt64 false))
          true false (End_ r) (EndInclusive r) (InfiniteEnd r)
  | None => r
  end.

Definition DeletingIterator_Seek (r : Range) (cfs : list bytes) (inclusive : bool) (d : DeletingIterator I)
  : DeletingIterator I * option err :=
  let '(src, e) := Seek (maximize_start r) cfs inclusive (di_source d) in
  match e with
  | Some e => (di_with d src (Some e), Some e)
  | None =>
      let '(d, e) := DeletingIterator_findTop (di_with d src None) in
      match e with
      | Some e => (d, Some e)
      | None =>
          match Start r with
          | Some start =>
              if InfiniteStart r then (d, None)
              else
                let '(d, e) :=
                  catch_up source_HasTop (fun k => is_lt (compareRowCFCQCVTime k start))
                    (S (bound (di_source d))) d in
                match e with
                | Some e => (d, Some e)
                | None =>
                    catch_up DeletingIterator_HasTop (BeforeStart r) (S (bound (di_source d))) d
                end
          | None => (d, None)
          end
      end
  end.

Definition DeletingIterator_DeepCopy (env : IteratorEnvironment) (d : DeletingIterator I) : DeletingIterator I :=
  mkDel (DeepCopy env (di_source d)) (di_propagateDeletes d) (di_behavior d) None.
End Deleting.

#[export] Instance DeletingIterator_SKVI {I} `{SKVI I} : SKVI (DeletingIterator I) := {
  Seek := DeletingIterator_Seek;
  Next := DeletingIterator_Next;
  HasTop := DeletingIterator_HasTop;
  GetTopKey := DeletingIterator_GetTopKey;
  GetTopValue := DeletingIterator_GetTopValue;
  DeepCopy := DeletingIterator_DeepCopy;
  bound d := bound (di_source d);
}.
