(* ===== verification/IterLaws.v ===== *)
(** * IterLaws: the stacked iterators keep the interface's contract

    For each iterator of [IterStack], an instance of [SKVILaws] over any lawful
    source: its methods never fail or run out of fuel, and what it surfaces is
    a function of what its source surfaces.  The list functions ([versions],
    [apply_deletes]) are characterised per coordinate at the end. *)

From S2P Require Import Prelude Wire VisFilter Iter IterStack.

(** ** Filtering iterators *)

(** The source has been advanced past the cells to skip. *)
Definition skipped (p : Key -> bool) (l : list Cell) : Prop :=
  match l with [] => True | c :: _ => p c.1 = false end.

Lemma skipped_drop_while p l : skipped p (drop_while p l).
Proof. induction l as [|c l IH]; cbn; [done|]. destruct (p c.1) eqn:E; [done|by cbn]. Qed.

Lemma filter_drop_while p l :
  filter (fun c : Cell => p c.1 = false) (drop_while p l) = filter (fun c => p c.1 = false) l.
Proof.
  induction l as [|c l IH]; cbn [drop_while]; [done|]. destruct (p c.1) eqn:E; [|done].
  by rewrite IH, (filter_cons_False _ c) by congruence.
Qed.

Lemma drop_while_skipped p l : skipped p l -> drop_while p l = l.
Proof. destruct l as [|c l]; cbn; [done|]. by intros ->. Qed.

Lemma skipped_cons p l c l' :
  skipped p l -> filter (fun c => p c.1 = false) l = c :: l' ->
  exists l0, l = c :: l0 /\ l' = filter (fun c => p c.1 = false) l0.
Proof.
  destruct l as [|d l]; [done|]. cbn [skipped]. intros Hd.
  rewrite filter_cons_True by done. intros [= -> <-]. eauto.
Qed.

Lemma skipped_nonempty p l :
  skipped p l ->
  bool_decide (filter (fun c => p c.1 = false) l <> []) = bool_decide (l <> []).
Proof.
  destruct l as [|d l]; [done|]. cbn [skipped]. intros Hd.
  rewrite filter_cons_True by done. done.
Qed.

Lemma filter_false_skip p l : (forall k, p k = false) -> skipped p l.
Proof. intros Hp. destruct l; cbn; auto. Qed.

(** [if !source.HasTop() { return nil }; return source.GetTopKey()]. *)
Lemma peek_ok {I} `{SKVILaws I} (i : I) c l :
  live i -> view i = c :: l ->
  (let '(i', has) := HasTop i in if has then GetTopKey i' else None) = Some c.1 /\
  (let '(i', has) := HasTop i in if has then GetTopValue i' else None) = Some c.2.
Proof.
  intros Hi Hv. destruct (hastop_ok i Hi) as (i1 & -> & Hi1 & Hv1 & _).
  rewrite Hv, bool_decide_eq_true_2 by done.
  apply (top_ok i1 c l); congruence.
Qed.

(** *** AsOfIterator *)

Section AsOf_laws.
Context {I : Type} `{SKVILaws I}.

(** The cells [findTop] skips. *)
Definition too_new (ceiling : Z) (k : Key) : bool := (ceiling >? 0) && (Timestamp k >? ceiling).

Definition ao_live (a : AsOfIterator I) : Prop :=
  live (ao_source a) /\ ao_err a = None /\ skipped (too_new (ao_ceiling a)) (view (ao_source a)).

Lemma AsOf_findTop_ok src c :
  live src ->
  exists a, AsOfIterator_findTop (mkAsOf src c None) = (a, None) /\ ao_live a /\ ao_ceiling a = c /\
    view (ao_source a) = drop_while (too_new c) (view src) /\ scan (ao_source a) = scan src.
Proof.
  intros Hs. unfold AsOfIterator_findTop, AsOfIterator_active; cbn [ao_source ao_ceiling].
  destruct (c >? 0) eqn:Ec; cbn [negb].
  - destruct (while_key_spec (too_new c) (S (bound src)) src) as (src' & E & Hl & Hv & Hsc);
      [done|pose proof (bound_ok src Hs); lia|].
    unfold too_new in E. rewrite Ec in E. cbn [andb] in E. rewrite E.
    eexists. split; [done|]. cbn. unfold ao_live; cbn. rewrite Hv. split_and!; try done.
    apply skipped_drop_while.
  - assert (forall k, too_new c k = false) as Hp by (intros; unfold too_new; by rewrite Ec).
    eexists. split; [done|]. unfold ao_live; cbn.
    rewrite drop_while_skipped by (by apply filter_false_skip).
    split_and!; try done. by apply filter_false_skip.
Qed.

#[export, refine] Instance AsOf_Laws : SKVILaws (AsOfIterator I) := {
  ready a := ready (ao_source a);
  live := ao_live;
  view a := filter (fun c => too_new (ao_ceiling a) c.1 = false) (view (ao_source a));
  scan a r cfs incl :=
    filter (fun c => too_new (ao_ceiling a) c.1 = false) (scan (ao_source a) r cfs incl);
}.
Proof.
  - intros a [Ha _]. by apply live_ready.
  - intros a r cfs incl Ha. by apply sorted_cells_filter, scan_sorted.
  - intros a [Ha _]. by apply sorted_cells_filter, view_sorted.
  - intros a r cfs incl Ha. cbn [Seek AsOfIterator_SKVI]. unfold AsOfIterator_Seek.
    destruct (seek_ok _ r cfs incl Ha) as (src & -> & Hl & Hv & Hsc).
    destruct (AsOf_findTop_ok src (ao_ceiling a) Hl) as (a' & -> & Ha' & Hc & Hv' & Hsc').
    exists a'. rewrite Hv', Hc, filter_drop_while, Hsc', Hsc, Hv. done.
  - intros a (Hs & He & Hk). cbn [HasTop AsOfIterator_SKVI]. unfold AsOfIterator_HasTop. rewrite He.
    destruct (hastop_ok _ Hs) as (src & -> & Hl & Hv & Hsc).
    eexists. rewrite (skipped_nonempty _ _ Hk). split; [done|]. unfold ao_live; cbn.
    by rewrite Hv, Hsc.
  - intros a c l (Hs & He & Hk) Hv. destruct (skipped_cons _ _ _ _ Hk Hv) as (l0 & Hv0 & _).
    by apply (peek_ok _ c l0).
  - intros a c l (Hs & He & Hk) Hv. destruct (skipped_cons _ _ _ _ Hk Hv) as (l0 & Hv0 & ->).
    cbn [Next AsOfIterator_SKVI]. unfold AsOfIterator_Next. rewrite He.
    destruct (hastop_ok _ Hs) as (s1 & -> & Hl1 & Hv1 & Hsc1).
    rewrite Hv0, bool_decide_eq_true_2 by done. cbn [negb].
    destruct (next_ok s1 c l0 Hl1 ltac:(congruence)) as (s2 & -> & Hl2 & Hv2 & Hsc2).
    destruct (AsOf_findTop_ok s2 (ao_ceiling a) Hl2) as (a' & -> & Ha' & Hc & Hv' & Hsc').
    exists a'. rewrite Hv', Hc, filter_drop_while, Hsc', Hsc2, Hsc1, Hv2. done.
  - intros a (Hs & _). cbn. etrans; [apply sublist_length, filter_sublist|]. by apply bound_ok.
Defined.
End AsOf_laws.

(** *** VisibilityFilter *)

Section Visibility_laws.
Context {I : Type} `{SKVILaws I}.

Definition hidden (active : bool) (auths : Authorizations) (k : Key) : bool :=
  active && negb (visible_uncached auths (ColumnVisibility k)).

Definition vf_hidden (f : VisibilityFilter I) : Key -> bool :=
  hidden (vf_active f) (e_auths (vf_eval f)).

Definition vf_ready (f : VisibilityFilter I) : Prop := ready (vf_source f) /\ cache_ok (vf_eval f).

Definition vf_live (f : VisibilityFilter I) : Prop :=
  live (vf_source f) /\ cache_ok (vf_eval f) /\ vf_err f = None /\
  skipped (vf_hidden f) (view (vf_source f)).

Lemma Visibility_skip_ok src act ev :
  live src -> cache_ok ev ->
  exists f, VisibilityFilter_skipInvisible (mkVis src act ev None) = (f, None) /\ vf_live f /\
    vf_active f = act /\ e_auths (vf_eval f) = e_auths ev /\
    view (vf_source f) = drop_while (hidden act (e_auths ev)) (view src) /\
    scan (vf_source f) = scan src.
Proof.
  intros Hs Hev. unfold VisibilityFilter_skipInvisible; cbn [vf_active vf_source vf_eval].
  destruct act; cbn [negb].
  - destruct (while_top_spec
      (fun ev k => let '(ev, vis) := Visible ev (ColumnVisibility k) in (ev, negb vis))
      (fun ev' => cache_ok ev' /\ e_auths ev' = e_auths ev) (hidden true (e_auths ev))
      (S (bound src)) ev src) as (ev' & src' & -> & [Hc Ha] & Hl & Hv & Hsc).
    { intros s k [Hc Ha]. destruct (Visible_spec s (ColumnVisibility k) Hc) as (E & Hc' & Ha').
      destruct (Visible s (ColumnVisibility k)) as [s' b]; cbn in *. rewrite E, Ha', Ha. done. }
    { done. } { done. } { pose proof (bound_ok src Hs); lia. }
    eexists. split; [done|]. unfold vf_live, vf_hidden; cbn. rewrite Hv, Ha.
    split_and!; try done. apply skipped_drop_while.
  - eexists. split; [done|]. unfold vf_live, vf_hidden; cbn.
    rewrite drop_while_skipped by (by apply filter_false_skip).
    split_and!; try done. by apply filter_false_skip.
Qed.

#[export, refine] Instance Visibility_Laws : SKVILaws (VisibilityFilter I) := {
  ready := vf_ready;
  live := vf_live;
  view f := filter (fun c => vf_hidden f c.1 = false) (view (vf_source f));
  scan f r cfs incl := filter (fun c => vf_hidden f c.1 = false) (scan (vf_source f) r cfs incl);
}.
Proof.
  - intros f (Hl & Hc & _). split; [by apply live_ready|done].
  - intros f r cfs incl [Hr _]. by apply sorted_cells_filter, scan_sorted.
  - intros f (Hl & _). by apply sorted_cells_filter, view_sorted.
  - intros f r cfs incl [Hr Hc]. cbn [Seek VisibilityFilter_SKVI]. unfold VisibilityFilter_Seek.
    destruct (seek_ok _ r cfs incl Hr) as (src & -> & Hl & Hv & Hsc).
    destruct (Visibility_skip_ok src (vf_active f) (vf_eval f) Hl Hc) as (f' & -> & Hf & Ha & Hau & Hv' & Hsc').
    exists f'. unfold vf_hidden. rewrite Ha, Hau, Hv', filter_drop_while, Hsc', Hsc, Hv. done.
  - intros f (Hl & Hc & He & Hk). cbn [HasTop VisibilityFilter_SKVI]. unfold VisibilityFilter_HasTop. rewrite He.
    destruct (hastop_ok _ Hl) as (src & -> & Hl' & Hv & Hsc).
    eexists. rewrite (skipped_nonempty _ _ Hk). split; [done|]. unfold vf_live; cbn.
    rewrite Hv, Hsc. done.
  - intros f c l (Hl & Hc & He & Hk) Hv. destruct (skipped_cons _ _ _ _ Hk Hv) as (l0 & Hv0 & _).
    by apply (peek_ok _ c l0).
  - intros f c l (Hl & Hc & He & Hk) Hv. destruct (skipped_cons _ _ _ _ Hk Hv) as (l0 & Hv0 & ->).
    cbn [Next VisibilityFilter_SKVI]. unfold VisibilityFilter_Next. rewrite He.
    destruct (hastop_ok _ Hl) as (s1 & -> & Hl1 & Hv1 & Hsc1).
    rewrite Hv0, bool_decide_eq_true_2 by done. cbn [negb].
    destruct (next_ok s1 c l0 Hl1 ltac:(congruence)) as (s2 & -> & Hl2 & Hv2 & Hsc2).
    destruct (Visibility_skip_ok s2 (vf_active f) (vf_eval f) Hl2 Hc) as (f' & -> & Hf & Ha & Hau & Hv' & Hsc').
    exists f'. unfold vf_hidden. rewrite Ha, Hau, Hv', filter_drop_while, Hsc', Hsc2, Hsc1, Hv2. done.
  - intros f (Hl & _). cbn. etrans; [apply sublist_length, filter_sublist|]. by apply bound_ok.
Defined.
End Visibility_laws.

(** *** VersioningIterator *)

Definition same_coord (k skip : Key) : bool := is_eq (CompareRowCFCQCV k skip).

(** The cells surfaced when the run of [prev]'s coordinate has surfaced [n]:
    a cell of the run while [n] is below [max], and the first of any other. *)
Fixpoint versions (max : Z) (prev : option Key) (n : Z) (l : list Cell) : list Cell :=
  match l with
  | [] => []
  | c :: l =>
      if match prev with Some k => same_coord c.1 k | None => false end
      then if n >=? max then versions max prev n l else c :: versions max prev (n + 1) l
      else c :: versions max (Some c.1) 1 l
  end.

Lemma versions_sublist max prev n l : sublist (versions max prev n l) l.
Proof.
  revert prev n. induction l as [|c l IH]; intros prev n; cbn; [done|].
  repeat case_match; by constructor.
Qed.

(** Once the run is full, its cells are skipped. *)
Lemma versions_full max k n l :
  n >= max -> versions max (Some k) n l = versions max None 0 (drop_while (fun x => same_coord x k) l).
Proof.
  intros Hn. induction l as [|c l IH]; cbn [drop_while]; [done|]. cbn [versions].
  destruct (same_coord c.1 k) eqn:E; [|cbn [versions]; done].
  replace (n >=? max) with true by lia. done.
Qed.

Section Versioning_laws.
Context {I : Type} `{SKVILaws I}.

Definition vi_live (v : VersioningIterator I) : Prop :=
  live (vi_source v) /\ vi_err v = None /\ 1 <= vi_maxVersions v /\
  match view (vi_source v) with
  | [] => True
  | c :: _ => exists k, vi_coord v = Some k /\ same_coord c.1 k = true
  end.

Definition vi_view (v : VersioningIterator I) : list Cell :=
  match view (vi_source v) with
  | [] => []
  | c :: l => c :: versions (vi_maxVersions v) (vi_coord v) (vi_numVersions v) l
  end.

Lemma vi_view_sublist v : sublist (vi_view v) (view (vi_source v)).
Proof. unfold vi_view. case_match; [done|]. constructor. apply versions_sublist. Qed.

Lemma vi_view_nonempty v : bool_decide (vi_view v <> []) = bool_decide (view (vi_source v) <> []).
Proof. unfold vi_view. by destruct (view (vi_source v)). Qed.

Lemma resetRun_ok src max coord n :
  live src -> 1 <= max ->
  exists v, VersioningIterator_resetRun (mkVers src max coord n None) = v /\ vi_live v /\
    vi_maxVersions v = max /\ vi_view v = versions max None 0 (view src) /\ scan (vi_source v) = scan src.
Proof.
  intros Hs Hm. unfold VersioningIterator_resetRun; cbn [vi_source vi_maxVersions vi_err].
  destruct (hastop_ok _ Hs) as (s1 & -> & Hl1 & Hv1 & Hsc1).
  eexists. split; [done|]. unfold vi_live, vi_view; cbn. rewrite Hv1.
  destruct (view src) as [|c l] eqn:Ev; cbn; [done|].
  destruct (top_ok s1 c l Hl1 Hv1) as [-> _]. split_and!; try done.
  exists c.1. split; [done|]. unfold same_coord. by rewrite (proj2 (CompareRowCFCQCV_eq _ _)).
Qed.

#[export, refine] Instance Versioning_Laws : SKVILaws (VersioningIterator I) := {
  ready v := ready (vi_source v) /\ 1 <= vi_maxVersions v;
  live := vi_live;
  view := vi_view;
  scan v r cfs incl := versions (vi_maxVersions v) None 0 (scan (vi_source v) r cfs incl);
}.
Proof.
  - intros v (Hl & _ & Hm & _). split; [by apply live_ready|done].
  - intros v r cfs incl [Hr _]. eapply sorted_cells_sublist; [apply versions_sublist|]. by apply scan_sorted.
  - intros v (Hl & _). eapply sorted_cells_sublist; [apply vi_view_sublist|]. by apply view_sorted.
  - intros v r cfs incl [Hr Hm]. cbn [Seek VersioningIterator_SKVI]. unfold VersioningIterator_Seek.
    destruct (seek_ok _ r cfs incl Hr) as (src & -> & Hl & Hv & Hsc).
    destruct (resetRun_ok src (vi_maxVersions v) (vi_coord v) (vi_numVersions v) Hl Hm)
      as (v' & -> & Hv' & Hm' & Hvw & Hsc').
    exists v'. rewrite Hvw, Hsc', Hsc, Hv, Hm'. done.
  - intros v (Hl & He & Hm & Hk). cbn [HasTop VersioningIterator_SKVI]. unfold VersioningIterator_HasTop.
    rewrite He. destruct (hastop_ok _ Hl) as (src & -> & Hl' & Hv & Hsc).
    eexists. rewrite vi_view_nonempty. split; [done|]. unfold vi_live, vi_view; cbn. rewrite Hv, Hsc. done.
  - intros v c l (Hl & He & Hm & Hk) Hv. unfold vi_view in Hv.
    destruct (view (vi_source v)) as [|d l0] eqn:Ev; [done|]. injection Hv as -> _.
    by apply (peek_ok _ c l0).
  - intros v c l (Hl & He & Hm & Hk) Hv. unfold vi_view in Hv.
    destruct (view (vi_source v)) as [|d l0] eqn:Ev; [done|]. injection Hv as -> <-.
    destruct Hk as (k & Hk & Hck).
    cbn [Next VersioningIterator_SKVI]. unfold VersioningIterator_Next. rewrite He.
    destruct (hastop_ok _ Hl) as (s1 & -> & Hl1 & Hv1 & Hsc1).
    rewrite Ev, bool_decide_eq_true_2 by done. cbn [negb].
    destruct (next_ok s1 c l0 Hl1 ltac:(congruence)) as (s2 & E2 & Hl2 & Hv2 & Hsc2).
    destruct (Z.geb_spec (vi_numVersions v) (vi_maxVersions v)) as [Hn|Hn].
    + unfold VersioningIterator_skipCoordinate; cbn. rewrite E2, Hk.
      destruct (while_key_spec (fun x => same_coord x k) (S (bound s2)) s2) as (s3 & E3 & Hl3 & Hv3 & Hsc3);
        [done|pose proof (bound_ok s2 Hl2); lia|].
      unfold same_coord in E3. rewrite E3.
      destruct (resetRun_ok s3 (vi_maxVersions v) (Some k) (vi_numVersions v) Hl3 Hm)
        as (v' & E4 & Hv' & Hm' & Hvw & Hsc'). unfold VersioningIterator_resetRun in E4 |- *; cbn in E4 |- *.
      rewrite E4. exists v'. rewrite Hvw, Hv3, Hv2, versions_full, Hsc', Hsc3, Hsc2, Hsc1, Hm' by lia. done.
    + rewrite E2. destruct (hastop_ok _ Hl2) as (s3 & -> & Hl3 & Hv3 & Hsc3).
      rewrite Hv2. destruct l0 as [|d l0].
      * rewrite bool_decide_eq_false_2 by tauto. eexists. split; [done|]. unfold vi_live, vi_view; cbn.
        rewrite Hv3, Hv2, Hsc3, Hsc2, Hsc1. done.
      * rewrite bool_decide_eq_true_2 by done. rewrite Hv2 in Hv3.
        destruct (top_ok s3 d l0 Hl3 Hv3) as [-> _]. rewrite Hk. cbn [versions]. fold (same_coord d.1 k).
        destruct (same_coord d.1 k) eqn:Ed.
        -- replace (vi_numVersions v >=? vi_maxVersions v) with false by lia.
           eexists. split; [done|]. unfold vi_live, vi_view; cbn.
           rewrite Hv3, Hsc3, Hsc2, Hsc1. split_and!; try done. eauto.
        -- destruct (resetRun_ok s3 (vi_maxVersions v) (Some k) (vi_numVersions v) Hl3 Hm)
             as (v' & -> & Hv' & Hm' & Hvw & Hsc').
           exists v'. rewrite Hvw, Hv3, Hsc', Hsc3, Hsc2, Hsc1, Hm'. done.
  - intros v (Hl & _). cbn. etrans; [apply sublist_length, vi_view_sublist|]. by apply bound_ok.
Defined.
End Versioning_laws.

(** *** DeletingIterator

    The laws hold of the [process] behaviour, the one every stack of the
    program configures; [fail] is described by [fail_latches] below. *)

(** What is surfaced after the tombstone [skip] (if any): the rest of its
    coordinate is dropped, other tombstones are surfaced when they propagate. *)
Fixpoint apply_deletes (propagate : bool) (skip : option Key) (l : list Cell) : list Cell :=
  match l with
  | [] => []
  | c :: l =>
      if match skip with Some k => same_coord c.1 k | None => false end
      then apply_deletes propagate skip l
      else if Deleted c.1
      then (if propagate then [c] else []) ++ apply_deletes propagate (Some c.1) l
      else c :: apply_deletes propagate None l
  end.

Lemma apply_deletes_sublist p skip l : sublist (apply_deletes p skip l) l.
Proof.
  revert skip. induction l as [|c l IH]; intros skip; cbn; [done|].
  repeat case_match; cbn; by constructor.
Qed.

Lemma apply_deletes_skip p k l :
  apply_deletes p (Some k) l = apply_deletes p None (drop_while (fun x => same_coord x k) l).
Proof.
  induction l as [|c l IH]; cbn [drop_while]; [done|]. cbn [apply_deletes].
  by destruct (same_coord c.1 k) eqn:E; [|cbn [apply_deletes]].
Qed.

Lemma drop_while_drop_while (p q : Key -> bool) l :
  (forall k, p k = true -> q k = true) -> drop_while q (drop_while p l) = drop_while q l.
Proof.
  intros Hpq. induction l as [|c l IH]; cbn; [done|].
  destruct (p c.1) eqn:E; [by rewrite IH, (Hpq _ E)|done].
Qed.

Lemma time_lt_before r s k :
  Start r = Some s -> InfiniteStart r = false ->
  is_lt (compareRowCFCQCVTime k s) = true -> BeforeStart r k = true.
Proof.
  intros Hs Hi. unfold BeforeStart, compareRowCFCQCVTime, Compare, CompareRowCFCQCV. rewrite Hs, Hi.
  destruct (bytes_Compare (Row k) (Row s)), (bytes_Compare (ColumnFamily k) (ColumnFamily s)),
    (bytes_Compare (ColumnQualifier k) (ColumnQualifier s)),
    (bytes_Compare (ColumnVisibility k) (ColumnVisibility s)); cbn; try done.
  repeat case_match; cbn in *; try done; lia.
Qed.

Section Deleting_laws.
Context {I : Type} `{SKVILaws I}.

Definition di_view (d : DeletingIterator I) : list Cell :=
  apply_deletes (di_propagateDeletes d) None (view (di_source d)).

Definition di_positioned (d : DeletingIterator I) : Prop :=
  match view (di_source d) with
  | [] => True
  | c :: _ => di_propagateDeletes d = true \/ Deleted c.1 = false
  end.

Definition di_ok (d : DeletingIterator I) : Prop :=
  live (di_source d) /\ di_err d = None /\ di_behavior d = DeletingProcess.

Definition di_live (d : DeletingIterator I) : Prop := di_ok d /\ di_positioned d.

(** What a step keeps: the configuration and the source's scans. *)
Definition di_same (d d' : DeletingIterator I) : Prop :=
  di_propagateDeletes d' = di_propagateDeletes d /\ scan (di_source d') = scan (di_source d).

Lemma di_same_trans a b c : di_same a b -> di_same b c -> di_same a c.
Proof. unfold di_same. intuition congruence. Qed.

Lemma di_view_cons d c l :
  di_positioned d -> view (di_source d) = c :: l ->
  di_view d = c :: (if Deleted c.1 then apply_deletes (di_propagateDeletes d) (Some c.1) l
                    else apply_deletes (di_propagateDeletes d) None l).
Proof.
  unfold di_positioned, di_view. intros Hp Hv. rewrite Hv in *. cbn.
  destruct Hp as [-> | ->]; [|done]. by case_match.
Qed.

Lemma di_view_nil d : view (di_source d) = [] -> di_view d = [].
Proof. unfold di_view. by intros ->. Qed.

Lemma di_view_nonempty d :
  di_positioned d -> bool_decide (di_view d <> []) = bool_decide (view (di_source d) <> []).
Proof.
  intros Hp. destruct (view (di_source d)) as [|c l] eqn:Ev; [by rewrite (di_view_nil _ Ev)|].
  by rewrite (di_view_cons _ _ _ Hp Ev).
Qed.

Lemma di_skip_ok d c l :
  di_ok d -> view (di_source d) = c :: l ->
  exists d', DeletingIterator_skipCoordinate d = (d', None) /\ di_ok d' /\ di_same d d' /\
    view (di_source d') = drop_while (fun x => same_coord x c.1) l.
Proof.
  intros (Hl & He & Hb) Hv. unfold DeletingIterator_skipCoordinate.
  destruct (top_ok _ c l Hl Hv) as [-> _].
  destruct (next_ok _ c l Hl Hv) as (s2 & -> & Hl2 & Hv2 & Hsc2).
  destruct (while_key_spec (fun x => same_coord x c.1) (S (bound s2)) s2) as (s3 & E3 & Hl3 & Hv3 & Hsc3);
    [done|pose proof (bound_ok s2 Hl2); lia|].
  unfold same_coord in E3 |- *. rewrite E3. eexists. split; [done|]. unfold di_ok, di_same; cbn.
  rewrite Hv3, Hv2, Hsc3, Hsc2. done.
Qed.

Lemma findTop_loop_ok fuel d :
  di_ok d -> di_propagateDeletes d = false -> (length (view (di_source d)) < fuel)%nat ->
  exists d', findTop_loop fuel d = (d', None) /\ di_live d' /\ di_same d d' /\ di_view d' = di_view d.
Proof.
  revert d. induction fuel as [|fuel IH]; intros d Hd Hp Hf; [lia|]. cbn [findTop_loop].
  destruct Hd as (Hl & He & Hb). destruct (hastop_ok _ Hl) as (s1 & -> & Hl1 & Hv1 & Hsc1).
  set (d1 := di_with d s1 (di_err d)).
  assert (di_ok d1 /\ di_same d d1 /\ di_view d1 = di_view d) as (Hd1 & Hsame & Hview).
  { unfold di_ok, di_same, di_view. change (di_source d1) with s1. by rewrite Hv1. }
  destruct (view (di_source d)) as [|c l] eqn:Ev.
  { rewrite bool_decide_eq_false_2 by tauto. exists d1. split_and!; try done.
    unfold di_live, di_positioned. change (di_source d1) with s1. rewrite Hv1. done. }
  rewrite bool_decide_eq_true_2 by done. destruct (top_ok s1 c l Hl1 Hv1) as [-> _].
  destruct (Deleted c.1) eqn:Ed.
  - destruct (di_skip_ok d1 c l Hd1 Hv1) as (d2 & -> & Hd2 & Hsame2 & Hv2).
    destruct (IH d2 Hd2) as (d3 & -> & Hd3 & Hsame3 & Hvw3).
    { destruct Hsame2 as [-> _]. done. }
    { rewrite Hv2. cbn in Hf. pose proof (drop_while_length (fun x => same_coord x c.1) l). lia. }
    exists d3. split_and!; [done|exact Hd3|..].
    + eauto using di_same_trans.
    + rewrite Hvw3, <- Hview. unfold di_view. rewrite Hv2. change (di_source d1) with s1. rewrite Hv1.
      destruct Hsame2 as [-> _]. cbn. by rewrite Ed, Hp, apply_deletes_skip.
  - exists d1. split_and!; try done. unfold di_live, di_positioned. change (di_source d1) with s1. rewrite Hv1. split; [done|by right].
Qed.

Lemma di_findTop_ok d :
  di_ok d ->
  exists d', DeletingIterator_findTop d = (d', None) /\ di_live d' /\ di_same d d' /\ di_view d' = di_view d.
Proof.
  intros Hd. unfold DeletingIterator_findTop. destruct (di_propagateDeletes d) eqn:Ep.
  - exists d. split_and!; try done. unfold di_live, di_positioned. rewrite Ep. case_match; auto.
  - apply findTop_loop_ok; [done..|]. pose proof (bound_ok _ (proj1 Hd)). lia.
Qed.

Lemma di_advance_ok d c l :
  di_live d -> di_view d = c :: l ->
  exists d', DeletingIterator_advance d = (d', None) /\ di_live d' /\ di_same d d' /\ di_view d' = l.
Proof.
  intros [(Hl & He & Hb) Hp] Hvw. unfold DeletingIterator_advance. rewrite He.
  destruct (hastop_ok _ Hl) as (s1 & -> & Hl1 & Hv1 & Hsc1).
  destruct (view (di_source d)) as [|c' l'] eqn:Ev; [by rewrite (di_view_nil _ Ev) in Hvw|].
  rewrite (di_view_cons _ _ _ Hp Ev) in Hvw. injection Hvw as -> <-.
  rewrite bool_decide_eq_true_2 by done. cbn [negb].
  destruct (top_ok s1 c l' Hl1 Hv1) as [-> _].
  set (d1 := di_with d s1 None).
  assert (di_ok d1 /\ di_same d d1) as (Hd1 & Hsame) by (unfold di_ok, di_same; done).
  destruct (Deleted c.1) eqn:Ed.
  - destruct (di_skip_ok d1 c l' Hd1 Hv1) as (d2 & -> & Hd2 & Hsame2 & Hv2).
    destruct (di_findTop_ok d2 Hd2) as (d3 & -> & Hd3 & Hsame3 & Hvw3).
    exists d3. split_and!; [done|exact Hd3|eauto using di_same_trans|].
    rewrite Hvw3. unfold di_view. rewrite Hv2, apply_deletes_skip. by destruct Hsame2 as [-> _].
  - destruct (next_ok s1 c l' Hl1 Hv1) as (s2 & E2 & Hl2 & Hv2 & Hsc2). change (di_source d1) with s1. rewrite E2.
    destruct (di_findTop_ok (di_with d1 s2 None)) as (d3 & E3 & Hd3 & Hsame3 & Hvw3); [done|].
    rewrite E3. exists d3. split_and!; [done|exact Hd3|..].
    + destruct Hsame3 as [E4 E5]. unfold di_same. cbn in *. by rewrite E4, E5, Hsc2, Hsc1.
    + rewrite Hvw3. unfold di_view; cbn. by rewrite Hv2.
Qed.

(** Both [HasTop]s agree on a positioned iterator and change nothing. *)
Definition has_ok (has : DeletingIterator I -> DeletingIterator I * bool) : Prop :=
  forall d, di_live d -> exists d', has d = (d', bool_decide (di_view d <> [])) /\ di_live d' /\
    di_same d d' /\ di_view d' = di_view d.

Lemma source_HasTop_ok : has_ok source_HasTop.
Proof.
  intros d [(Hl & He & Hb) Hp]. unfold source_HasTop. rewrite di_view_nonempty by done.
  destruct (hastop_ok _ Hl) as (s1 & -> & Hl1 & Hv1 & Hsc1). eexists. split; [done|].
  unfold di_live, di_ok, di_positioned, di_same, di_view; cbn. by rewrite Hv1.
Qed.

Lemma di_HasTop_ok : has_ok DeletingIterator_HasTop.
Proof.
  intros d [(Hl & He & Hb) Hp]. unfold DeletingIterator_HasTop. rewrite di_view_nonempty, He by done.
  destruct (hastop_ok _ Hl) as (s1 & -> & Hl1 & Hv1 & Hsc1). exists (di_with d s1 None).
  rewrite Hb. cbn [andb bool_decide]. split.
  { case_bool_decide as Hv; cbn [negb]; [|done]. by rewrite bool_decide_eq_false_2. }
  unfold di_live, di_ok, di_positioned, di_same, di_view; cbn. by rewrite Hv1.
Qed.

Lemma di_top_ok d c l :
  di_live d -> di_view d = c :: l ->
  exists l', view (di_source d) = c :: l'.
Proof.
  intros [_ Hp] Hvw. destruct (view (di_source d)) as [|c' l'] eqn:Ev; [by rewrite (di_view_nil _ Ev) in Hvw|].
  rewrite (di_view_cons _ _ _ Hp Ev) in Hvw. injection Hvw as -> _. eauto.
Qed.

Lemma catch_up_ok has before fuel d :
  has_ok has -> di_live d -> (length (di_view d) < fuel)%nat ->
  exists d', catch_up has before fuel d = (d', None) /\ di_live d' /\ di_same d d' /\
    di_view d' = drop_while before (di_view d).
Proof.
  intros Hhas. revert d. induction fuel as [|fuel IH]; intros d Hd Hf; [lia|]. cbn [catch_up].
  destruct (Hhas d Hd) as (d1 & -> & Hd1 & Hsame1 & Hv1).
  destruct (di_view d) as [|c l] eqn:Ev.
  { rewrite bool_decide_eq_false_2 by tauto. by exists d1. }
  rewrite bool_decide_eq_true_2 by done.
  destruct (di_top_ok d1 c l Hd1 Hv1) as (l' & Hl').
  destruct (top_ok _ c l' (proj1 (proj1 Hd1)) Hl') as [-> _]. cbn [drop_while].
  destruct (before c.1); [|by exists d1].
  destruct (di_advance_ok d1 c l Hd1 Hv1) as (d2 & -> & Hd2 & Hsame2 & Hv2).
  destruct (IH d2 Hd2) as (d3 & -> & Hd3 & Hsame3 & Hv3); [rewrite Hv2; cbn in Hf; lia|].
  exists d3. rewrite Hv3, Hv2. split_and!; [done|exact Hd3|eauto using di_same_trans|done].
Qed.

Lemma di_view_bound d : di_live d -> (length (di_view d) < S (bound (di_source d)))%nat.
Proof.
  intros [(Hl & _) _]. pose proof (bound_ok _ Hl).
  pose proof (sublist_length _ _ (apply_deletes_sublist (di_propagateDeletes d) None (view (di_source d)))).
  unfold di_view. lia.
Qed.

(** What a seek surfaces: the deletes of the scan from the maximized start,
    without the cells before the start. *)
Definition di_scan (d : DeletingIterator I) (r : Range) (cfs : list bytes) (incl : bool) : list Cell :=
  filter (fun c => BeforeStart r c.1 = false)
    (apply_deletes (di_propagateDeletes d) None (scan (di_source d) (maximize_start r) cfs incl)).

Lemma di_Seek_ok d r cfs incl :
  ready (di_source d) -> di_behavior d = DeletingProcess ->
  exists d', DeletingIterator_Seek r cfs incl d = (d', None) /\ di_live d' /\ di_same d d' /\
    di_view d' = di_scan d r cfs incl.
Proof.
  intros Hr Hb. unfold DeletingIterator_Seek, di_scan.
  set (l := apply_deletes _ _ _).
  assert (sorted_cells l) as Hsort.
  { eapply sorted_cells_sublist; [apply apply_deletes_sublist|]. by apply scan_sorted. }
  destruct (seek_ok _ (maximize_start r) cfs incl Hr) as (src & -> & Hl & Hv & Hsc).
  destruct (di_findTop_ok (di_with d src None)) as (d1 & -> & Hd1 & [Hp1 Hs1] & Hv1); [done|].
  cbn in Hp1, Hs1. rewrite Hsc in Hs1.
  replace (di_view (di_with d src None)) with l in Hv1 by (unfold di_view; cbn; by rewrite Hv).
  assert ((forall k, BeforeStart r k = false) ->
    exists d', (d1, @None err) = (d', None) /\ di_live d' /\ di_same d d' /\
      di_view d' = filter (fun c => BeforeStart r c.1 = false) l) as Hdone.
  { intros Hbf. exists d1. rewrite filter_all by (apply Forall_forall; intros; by rewrite Hbf). done. }
  destruct (Start r) as [s|] eqn:Es.
  2: { apply Hdone. intros k. unfold BeforeStart. rewrite Es. by case_match. }
  destruct (InfiniteStart r) eqn:Ei.
  { apply Hdone. intros k. unfold BeforeStart. by rewrite Ei. }
  destruct (catch_up_ok source_HasTop (fun k => is_lt (compareRowCFCQCVTime k s)) _ _
              source_HasTop_ok Hd1 (di_view_bound _ Hd1)) as (d2 & -> & Hd2 & Hsame2 & Hv2).
  destruct (catch_up_ok DeletingIterator_HasTop (BeforeStart r) _ _
              di_HasTop_ok Hd2 (di_view_bound _ Hd2)) as (d3 & -> & Hd3 & Hsame3 & Hv3).
  exists d3. split_and!; [done|exact Hd3|..].
  - destruct (di_same_trans _ _ _ Hsame2 Hsame3) as [Ea Eb]. unfold di_same. by rewrite Ea, Eb.
  - rewrite Hv3, Hv2, Hv1, drop_while_drop_while by eauto using time_lt_before.
    apply drop_while_filter; [|done]. intros a b. apply BeforeStart_mono.
Qed.

#[export, refine] Instance Deleting_Laws : SKVILaws (DeletingIterator I) := {
  ready d := ready (di_source d) /\ di_behavior d = DeletingProcess;
  live := di_live;
  view := di_view;
  scan := di_scan;
}.
Proof.
  - intros d [(Hl & _ & Hb) _]. split; [by apply live_ready|done].
  - intros d r cfs incl [Hr _]. apply sorted_cells_filter.
    eapply sorted_cells_sublist; [apply apply_deletes_sublist|]. by apply scan_sorted.
  - intros d [(Hl & _) _]. eapply sorted_cells_sublist; [apply apply_deletes_sublist|]. by apply view_sorted.
  - intros d r cfs incl [Hr Hb]. destruct (di_Seek_ok d r cfs incl Hr Hb) as (d' & ? & ? & [Ep Es] & ?).
    exists d'. unfold di_scan. rewrite Ep, Es. done.
  - intros d Hd. destruct (di_HasTop_ok d Hd) as (d' & ? & ? & [Ep Es] & ?).
    exists d'. unfold di_scan. rewrite Ep, Es. done.
  - intros d c l Hd Hv. destruct (di_top_ok d c l Hd Hv) as (l' & Hl').
    apply (peek_ok _ c l'); [apply Hd|done].
  - intros d c l Hd Hv. destruct (di_advance_ok d c l Hd Hv) as (d' & ? & ? & [Ep Es] & ?).
    exists d'. unfold di_scan. rewrite Ep, Es. done.
  - intros d Hd. pose proof (di_view_bound d Hd). cbn. lia.
Defined.
End Deleting_laws.

(** ** Per-coordinate characterisation

    On a sorted stream the cells of a coordinate are contiguous, newest first,
    and the list functions act on each coordinate separately. *)

Abbreviation coordinate := (bytes * (bytes * (bytes * bytes)))%type.

Definition at_coord (x : coordinate) (l : list Cell) : list Cell :=
  filter (fun c => coord c.1 = x) l.

Lemma at_coord_cons_eq x c l : coord c.1 = x -> at_coord x (c :: l) = c :: at_coord x l.
Proof. intros. unfold at_coord. by rewrite filter_cons_True. Qed.
Lemma at_coord_cons_ne x c l : coord c.1 <> x -> at_coord x (c :: l) = at_coord x l.
Proof. intros. unfold at_coord. by rewrite filter_cons_False. Qed.

Lemma at_coord_sublist_nil x l1 l2 : sublist l1 l2 -> at_coord x l2 = [] -> at_coord x l1 = [].
Proof.
  intros Hsub Hn. apply filter_none. eapply sublist_Forall; [exact Hsub|].
  apply Forall_forall. intros c Hc Hx.
  assert (c ∈ at_coord x l2) as Hin by by apply list_elem_of_filter. rewrite Hn in Hin. by apply elem_of_nil in Hin.
Qed.

Lemma same_coord_spec k k' : same_coord k k' = bool_decide (coord k = coord k').
Proof.
  unfold same_coord. case_bool_decide as E.
  - by rewrite (proj2 (CompareRowCFCQCV_eq _ _) E).
  - destruct (CompareRowCFCQCV k k') eqn:E'; [|done|done]. by apply CompareRowCFCQCV_eq in E'.
Qed.

(** Once a sorted stream has left a coordinate, it does not come back. *)
Lemma at_coord_left k c l :
  key_le k c.1 -> sorted_cells (c :: l) -> coord c.1 <> coord k -> at_coord (coord k) (c :: l) = [].
Proof.
  intros Hk [Hs Hc]%sorted_cells_cons Hne. rewrite at_coord_cons_ne by done.
  apply filter_none. eapply Forall_impl; [exact Hc|]. intros d Hd Hx. cbn in Hd.
  apply Hne. by rewrite (key_le_coord_between k c.1 d.1).
Qed.

(** Two sorted streams that agree on every coordinate are equal. *)
Lemma at_coord_ext l1 l2 :
  sorted_cells l1 -> sorted_cells l2 -> (forall x, at_coord x l1 = at_coord x l2) -> l1 = l2.
Proof.
  revert l2. induction l1 as [|c l1 IH]; intros [|d l2] H1 H2 Hx; [done|..].
  { specialize (Hx (coord d.1)). by rewrite at_coord_cons_eq in Hx. }
  { specialize (Hx (coord c.1)). by rewrite at_coord_cons_eq in Hx. }
  assert (c = d) as <-.
  { assert (coord c.1 = coord d.1) as Hcd.
    { apply (cmp_eq coord_cmp). rewrite <- CompareRowCFCQCV_coord.
      assert (c ∈ d :: l2) as Hc.
      { assert (c ∈ at_coord (coord c.1) (d :: l2)) as Hin
          by (rewrite <- Hx, at_coord_cons_eq by done; by constructor).
        by apply list_elem_of_filter in Hin as [_ ?]. }
      assert (d ∈ c :: l1) as Hd.
      { assert (d ∈ at_coord (coord d.1) (c :: l1)) as Hin
          by (rewrite Hx, at_coord_cons_eq by done; by constructor).
        by apply list_elem_of_filter in Hin as [_ ?]. }
      assert (key_le d.1 c.1) as Hdc.
      { apply elem_of_cons in Hc as [->|Hc]; [done|]. apply sorted_cells_cons in H2 as [_ H2].
        by apply (proj1 (Forall_forall _ _) H2). }
      assert (key_le c.1 d.1) as Hcd.
      { apply elem_of_cons in Hd as [->|Hd]; [done|]. apply sorted_cells_cons in H1 as [_ H1].
        by apply (proj1 (Forall_forall _ _) H1). }
      rewrite (anti_symm key_le _ _ Hcd Hdc). by apply CompareRowCFCQCV_eq. }
    specialize (Hx (coord c.1)). rewrite !at_coord_cons_eq in Hx by done. congruence. }
  f_equal. apply sorted_cells_cons in H1 as [H1 _], H2 as [H2 _]. apply IH; [done..|].
  intros x. specialize (Hx x). destruct (decide (coord c.1 = x)) as [E|E].
  - rewrite !at_coord_cons_eq in Hx by done. congruence.
  - by rewrite !at_coord_cons_ne in Hx by done.
Qed.

Lemma versions_at_coord_run max x l k n :
  1 <= n -> 1 <= max -> sorted_cells l -> Forall (fun c => key_le k c.1) l ->
  at_coord x (versions max (Some k) n l) =
    take (Z.to_nat (if decide (coord k = x) then max - n else max)) (at_coord x l).
Proof.
  intros Hn Hm. revert k n Hn. induction l as [|c l IH]; intros k n Hn Hs Hk; [by cbn; rewrite take_nil|].
  apply Forall_cons in Hk as [Hkc Hk]. pose proof Hs as [Hs' Hc]%sorted_cells_cons.
  cbn [versions]. rewrite same_coord_spec. case_bool_decide as E.
  - destruct (Z.geb_spec n max) as [Hge|Hlt].
    + rewrite IH by done. destruct (decide (coord k = x)) as [Hx|Hx].
      * by rewrite Z2Nat.nonpos by lia.
      * by rewrite (at_coord_cons_ne x c) by congruence.
    + destruct (decide (coord k = x)) as [Hx|Hx].
      * rewrite !at_coord_cons_eq, IH, decide_True by (congruence || lia).
        replace (Z.to_nat (max - n)) with (S (Z.to_nat (max - (n + 1)))) by lia. done.
      * by rewrite !at_coord_cons_ne, IH, decide_False by (congruence || lia).
  - destruct (decide (coord k = x)) as [<-|Hx].
    + rewrite (at_coord_left k c l) by done. rewrite take_nil.
      apply (at_coord_sublist_nil _ _ (c :: l)); [|by apply at_coord_left].
      constructor. apply versions_sublist.
    + destruct (decide (coord c.1 = x)) as [Hx'|Hx'].
      * rewrite !at_coord_cons_eq, IH, decide_True by (done || lia).
        replace (Z.to_nat max) with (S (Z.to_nat (max - 1))) by lia. done.
      * by rewrite !at_coord_cons_ne, IH, decide_False by (done || lia).
Qed.

(** Each coordinate keeps its first [max] cells: the newest ones. *)
Lemma versions_at_coord max x l :
  1 <= max -> sorted_cells l ->
  at_coord x (versions max None 0 l) = take (Z.to_nat max) (at_coord x l).
Proof.
  intros Hm. destruct l as [|c l]; [by cbn; rewrite take_nil|]. intros [Hs Hc]%sorted_cells_cons. cbn [versions].
  destruct (decide (coord c.1 = x)) as [Hx|Hx].
  - rewrite !at_coord_cons_eq, versions_at_coord_run, decide_True by (done || lia).
    replace (Z.to_nat max) with (S (Z.to_nat (max - 1))) by lia. done.
  - by rewrite !at_coord_cons_ne, versions_at_coord_run, decide_False by (done || lia).
Qed.

(** The cells of one coordinate above its first tombstone, and the tombstone
    itself when it propagates. *)
Fixpoint until_delete (propagate : bool) (l : list Cell) : list Cell :=
  match l with
  | [] => []
  | c :: l => if Deleted c.1 then (if propagate then [c] else []) else c :: until_delete propagate l
  end.

Lemma apply_deletes_at_coord_skip p x l skip :
  sorted_cells l -> match skip with Some k => Forall (fun c => key_le k c.1) l | None => True end ->
  at_coord x (apply_deletes p skip l) =
    if decide (coord <$> skip = Some x) then [] else until_delete p (at_coord x l).
Proof.
  revert skip. induction l as [|c l IH]; intros skip Hs Hk; [by repeat case_match|].
  pose proof Hs as [Hs' Hc]%sorted_cells_cons. cbn [apply_deletes].
  destruct (match skip with Some k => same_coord c.1 k | None => false end) eqn:Esame.
  - destruct skip as [k|]; [|done]. rewrite same_coord_spec in Esame. apply bool_decide_eq_true in Esame.
    apply Forall_cons in Hk as [Hkc Hk]. rewrite IH by done.
    destruct (decide (coord <$> Some k = Some x)) as [Hx|Hx]; [done|].
    rewrite (at_coord_cons_ne x c); [done|]. intros <-. by rewrite Esame in Hx.
  - assert (coord <$> skip = Some x -> at_coord x (c :: l) = []) as Hleft.
    { destruct skip as [k|]; [|done]. intros [= <-]. apply Forall_cons in Hk as [Hkc Hk].
      apply at_coord_left; [done..|]. rewrite same_coord_spec in Esame. by apply bool_decide_eq_false in Esame. }
    assert (sublist ((if Deleted c.1 then (if p then [c] else []) ++ apply_deletes p (Some c.1) l
                      else c :: apply_deletes p None l)) (c :: l)) as Hsub.
    { repeat case_match; cbn; constructor; apply apply_deletes_sublist. }
    destruct (decide (coord <$> skip = Some x)) as [Hx|Hx].
    { eapply at_coord_sublist_nil; [exact Hsub|]. auto. }
    destruct (decide (coord c.1 = x)) as [Hcx|Hcx].
    + rewrite (at_coord_cons_eq x c l) by done. cbn [until_delete]. destruct (Deleted c.1).
      * destruct p; cbn [app]; rewrite ?at_coord_cons_eq, IH, decide_True by (done || (cbn; congruence)); done.
      * by rewrite at_coord_cons_eq, IH, decide_False.
    + rewrite (at_coord_cons_ne x c l) by done. destruct (Deleted c.1).
      * destruct p; cbn [app]; rewrite ?at_coord_cons_ne, IH, decide_False by (done || (cbn; congruence)); done.
      * by rewrite at_coord_cons_ne, IH, decide_False.
Qed.

(** Each coordinate is cut at its first tombstone. *)
Lemma apply_deletes_at_coord p x l :
  sorted_cells l -> at_coord x (apply_deletes p None l) = until_delete p (at_coord x l).
Proof. intros Hs. by rewrite apply_deletes_at_coord_skip, decide_False. Qed.

(** ** Tombstones and where a seek starts

    A seek into the middle of a coordinate must still see the tombstone that
    covers it: [Seek] maximizes the start's timestamp for that.  The maximized
    key has the greatest timestamp and is not a tombstone, so it sorts after
    a tombstone of that timestamp. *)

Lemma filter_ext_in (P Q : Cell -> Prop) `{forall c, Decision (P c)} `{forall c, Decision (Q c)} (l : list Cell) :
  (forall c, c ∈ l -> P c <-> Q c) -> filter P l = filter Q l.
Proof.
  induction l as [|c l IH]; intros HPQ; [done|].
  rewrite !filter_cons, IH by (intros; apply HPQ; by constructor).
  assert (P c <-> Q c) by (apply HPQ; constructor). repeat case_decide; tauto.
Qed.

Lemma filter_const_false (P : Cell -> Prop) `{forall c, Decision (P c)} (l : list Cell) :
  (forall c, c ∈ l -> ~ P c) -> filter P l = [].
Proof. intros HP. by apply filter_none, Forall_forall. Qed.

Lemma at_coord_filter (P : Cell -> Prop) `{forall c, Decision (P c)} x l :
  at_coord x (filter P l) = filter P (at_coord x l).
Proof. unfold at_coord. rewrite !list_filter_filter. apply list_filter_iff. tauto. Qed.

Lemma at_coord_elem x l c : c ∈ at_coord x l <-> coord c.1 = x /\ c ∈ l.
Proof. unfold at_coord. by rewrite list_elem_of_filter. Qed.

Lemma until_delete_sublist p l : sublist (until_delete p l) l.
Proof.
  induction l as [|c l IH]; cbn; [done|]. destruct (Deleted c.1); [|by constructor].
  destruct p; [|by apply sublist_nil_l]. constructor. by apply sublist_nil_l.
Qed.

(** Cutting at the end of a range commutes with cutting at a tombstone. *)
Lemma until_delete_prefix p (q : Key -> bool) l :
  (forall a b, key_le a b -> q a = true -> q b = true) -> sorted_cells l ->
  until_delete p (filter (fun c : Cell => q c.1 = false) l) = filter (fun c : Cell => q c.1 = false) (until_delete p l).
Proof.
  intros Hq. induction l as [|c l IH]; [done|]. intros [Hs Hc]%sorted_cells_cons.
  destruct (q c.1) eqn:Eq.
  - assert (forall l', sublist l' (c :: l) -> filter (fun c : Cell => q c.1 = false) l' = []) as Hnone.
    { intros l' Hl'. apply filter_none. eapply sublist_Forall; [exact Hl'|].
      constructor; [congruence|]. eapply Forall_impl; [exact Hc|]. intros d Hd. cbn in Hd.
      rewrite (Hq _ _ Hd Eq). done. }
    rewrite (Hnone (until_delete p (c :: l))) by apply until_delete_sublist. by rewrite (Hnone (c :: l)).
  - rewrite (filter_cons_True _ c l) by done. cbn [until_delete]. destruct (Deleted c.1).
    + destruct p; [by rewrite filter_cons_True|done].
    + rewrite filter_cons_True by done. f_equal. by apply IH.
Qed.

(** Within one coordinate other than the start's, all keys are on one side of
    the start. *)
Lemma BeforeStart_coord r s k :
  Start r = Some s -> InfiniteStart r = false -> coord k <> coord s ->
  BeforeStart r k = is_lt (coord_cmp (coord k) (coord s)).
Proof.
  intros Hs Hi Hne. unfold BeforeStart. rewrite Hs, Hi, Compare_coord, CompareRowCFCQCV_coord.
  destruct (coord_cmp (coord k) (coord s)) eqn:E; try done. by apply (cmp_eq coord_cmp) in E.
Qed.

Lemma maximize_BeforeStart_coord r s k :
  Start r = Some s -> InfiniteStart r = false -> coord k <> coord s ->
  BeforeStart (maximize_start r) k = is_lt (coord_cmp (coord k) (coord s)).
Proof.
  intros Hs Hi Hne. unfold maximize_start. rewrite Hs, Hi. exact (BeforeStart_coord (mkRange (Some (mkKey _ _ _ _ MaxInt64 false)) _ _ _ _ _) _ k eq_refl eq_refl Hne).
Qed.

(** At the start's own coordinate the maximized start is before every key but
    a tombstone of the greatest timestamp. *)
Lemma maximize_BeforeStart_start r s k :
  Start r = Some s -> InfiniteStart r = false -> coord k = coord s -> Timestamp k <= MaxInt64 ->
  BeforeStart (maximize_start r) k = (Timestamp k =? MaxInt64) && Deleted k.
Proof.
  intros Hs Hi Hk Ht. unfold maximize_start. rewrite Hs, Hi. unfold BeforeStart; cbn [Start InfiniteStart StartInclusive].
  rewrite Compare_coord.
  rewrite (proj2 (CompareRowCFCQCV_eq k _)) by (rewrite Hk; done). cbn [then_cmp Timestamp Deleted].
  destruct (Z.compare_spec MaxInt64 (Timestamp k)) as [E|E|E]; [|lia|].
  - rewrite <- E, Z.eqb_refl. by destruct (Deleted k).
  - replace (Timestamp k =? MaxInt64) with false by lia. done.
Qed.

Section seek_anywhere.
Context (base : list Cell) (Hbase : sorted_cells base).
Context (r : Range) (cfs : list bytes) (incl : bool) (p : bool).
(** No tombstone of the greatest timestamp at the start's coordinate. *)
Context (Hts : Forall (fun c => Timestamp c.1 <= MaxInt64) base).
Context (Hmax : match Start r with
                | Some s => Forall (fun c => coord c.1 = coord s -> Timestamp c.1 = MaxInt64 -> Deleted c.1 = false) base
                | None => True
                end).

Definition leaf_scan (r : Range) : list Cell := filter (fun c => in_seek r cfs incl c = true) base.

Lemma AfterEnd_maximize k : AfterEnd (maximize_start r) k = AfterEnd r k.
Proof. unfold maximize_start. destruct (Start r); [|done]. by destruct (InfiniteStart r). Qed.

(** The start of the maximized range keeps the whole coordinate or none of it. *)
Lemma maximize_coord x :
  (forall c, c ∈ at_coord x base -> BeforeStart (maximize_start r) c.1 = false) \/
  (forall c, c ∈ at_coord x base -> BeforeStart (maximize_start r) c.1 = true /\ BeforeStart r c.1 = true).
Proof.
  destruct (Start r) as [s|] eqn:Es.
  2: { left. intros c _. unfold maximize_start, BeforeStart. rewrite Es, Es. by destruct (InfiniteStart r). }
  destruct (InfiniteStart r) eqn:Ei.
  { left. intros c _. unfold maximize_start, BeforeStart. by rewrite Es, Ei, Ei. }
  destruct (decide (x = coord s)) as [->|Hne].
  - left. intros c [Hc Hin]%at_coord_elem. rewrite (maximize_BeforeStart_start r s) by
      (done || exact (proj1 (Forall_forall _ _) Hts c Hin)).
    destruct (Z.eqb_spec (Timestamp c.1) MaxInt64); [|done]. cbn.
    by apply (proj1 (Forall_forall _ _) Hmax c Hin).
  - destruct (is_lt (coord_cmp x (coord s))) eqn:El; [right|left]; intros c [Hc Hin]%at_coord_elem;
      rewrite (maximize_BeforeStart_coord r s), ?(BeforeStart_coord r s), Hc, El by (done || by rewrite Hc); done.
Qed.

Lemma seek_anywhere_eq :
  filter (fun c => BeforeStart r c.1 = false) (apply_deletes p None (leaf_scan (maximize_start r))) =
  filter (fun c => in_seek r cfs incl c = true) (apply_deletes p None base).
Proof.
  assert (forall q, sorted_cells (leaf_scan q)) as Hls by (intros; by apply sorted_cells_filter).
  assert (forall l, sorted_cells l -> sorted_cells (apply_deletes p None l)) as Had.
  { intros l Hl. eapply sorted_cells_sublist; [apply apply_deletes_sublist|done]. }
  apply at_coord_ext; [by apply sorted_cells_filter, Had..|]. intros x.
  rewrite !at_coord_filter, !apply_deletes_at_coord by done. unfold leaf_scan. rewrite at_coord_filter.
  set (A := at_coord x base).
  assert (sorted_cells A) as HA by by apply sorted_cells_filter.
  assert (forall c, c ∈ until_delete p A -> c ∈ A) as Hsub.
  { intros c. apply sublist_subseteq, until_delete_sublist. }
  assert (forall q c, c ∈ A -> in_seek q cfs incl c = Contains q c.1 && cfAllowed x.2.1 cfs incl) as Hcf.
  { intros q c [<- _]%at_coord_elem. done. }
  destruct (cfAllowed x.2.1 cfs incl) eqn:Ecf.
  2: { rewrite (filter_const_false _ A), (filter_const_false _ (until_delete p A)); [done|..];
       intros c Hc; rewrite Hcf, andb_false_r by auto; done. }
  destruct (maximize_coord x) as [Hin|Hout].
  - rewrite (filter_ext_in _ (fun c => AfterEnd r c.1 = false) A).
    2: { intros c Hc. rewrite Hcf, Contains_split, AfterEnd_maximize, Hin by done. by destruct (AfterEnd r c.1). }
    rewrite (until_delete_prefix p (AfterEnd r)) by (eauto using AfterEnd_mono).
    rewrite list_filter_filter. apply filter_ext_in. intros c Hc.
    rewrite Hcf, Contains_split by auto. destruct (BeforeStart r c.1), (AfterEnd r c.1); cbn; intuition done.
  - rewrite (filter_const_false _ A), (filter_const_false _ (until_delete p A)); [done|..];
      intros c Hc; rewrite Hcf, Contains_split by auto.
    + destruct (Hout c (Hsub c Hc)) as [_ ->]. done.
    + destruct (Hout c Hc) as [-> _]. done.
Qed.
End seek_anywhere.

(** ** Claims *)

(** Reading a versioning iterator to its end neither fails nor loops, and
    surfaces, for every coordinate, exactly the first [maxVersions] cells its
    source has there, i.e. the newest ones, in order. *)
Theorem versioning_keeps_newest {I} `{SKVILaws I} (v : VersioningIterator I) r cfs incl :
  ready (vi_source v) -> 1 <= vi_maxVersions v ->
  exists out, seek_drain r cfs incl v = Ok out /\ sorted_cells out /\
    forall x, at_coord x out = take (Z.to_nat (vi_maxVersions v)) (at_coord x (scan (vi_source v) r cfs incl)).
Proof.
  intros Hr Hm. exists (scan v r cfs incl). split; [by apply seek_drain_ok|]. split; [by apply scan_sorted|].
  intros x. by apply versions_at_coord, scan_sorted.
Qed.

Definition w_key (cq ts : Z) (del : bool) : Key := mkKey [1] [2] [cq] [] ts del.

Definition w_source : SliceSource :=
  NewSliceSource [(w_key 1 9 false, [90]); (w_key 1 8 true, []); (w_key 1 7 false, [70]); (w_key 2 5 false, [50])].

Lemma w_source_ready : ready w_source.
Proof. repeat constructor; intros ?; vm_compute in *; discriminate. Qed.

Lemma versioning_keeps_newest_witness :
  let v := mkVers w_source 2 None 0 None in
  exists out, seek_drain InfiniteRange [] false v = Ok out /\ sorted_cells out /\
    forall x, at_coord x out = take 2 (at_coord x (scan w_source InfiniteRange [] false)).
Proof.
  intros v. apply (versioning_keeps_newest v InfiniteRange [] false); [exact w_source_ready|cbn; lia].
Defined.



(** A tombstone of the greatest timestamp (what a delete-latest writes) is
    forgotten by a seek that starts at its coordinate: the full scan hides the
    deleted cell, but a seek from its own key surfaces it again. *)
Theorem delete_latest_resurfaces :
  let src := NewSliceSource [(w_key 1 MaxInt64 true, []); (w_key 1 7 false, [70])] in
  let d := mkDel src false DeletingProcess None in
  seek_drain InfiniteRange [] false d = Ok [] /\
  seek_drain (mkRange (Some (w_key 1 7 false)) true false None false true) [] false d = Ok [(w_key 1 7 false, [70])].
Proof. split; reflexivity. Qed.

(** Behavior "fail" does not make a reader fail on a tombstone: when
    deletes do not propagate (a full major compaction) the tombstone is
    skipped as in "process" mode, and otherwise the read loop ends at the
    tombstone, without an error and without the cells after it. *)
Theorem fail_mode_is_silent :
  let o := {["behavior"%string := "fail"%string]} in
  (exists d, DeletingIterator_Init (Some w_source) o (mkEnv ScopeMajc true None) = Ok d /\
    seek_drain InfiniteRange [] false d = Ok [(w_key 1 9 false, [90]); (w_key 2 5 false, [50])]) /\
  (exists d, DeletingIterator_Init (Some w_source) o (mkEnv ScopeMinc false None) = Ok d /\
    seek_drain InfiniteRange [] false d = Ok [(w_key 1 9 false, [90])]).
Proof. split; eexists; split; reflexivity. Qed.
