(* ===== verification/Drain.v ===== *)
(** * Drain: reading an iterator to its end, errors included

    [drains i l i' e]: advancing [i] until it has no top or an advance fails
    surfaces the cells [l] and leaves [i']; [e] is the error of the last
    advance.  It needs no law of the iterator, so it also describes one whose
    source may fail half way. *)

From S2P Require Import Prelude Wire Iter.

Inductive drains {I} `{SKVI I} : I -> list Cell -> I -> option err -> Prop :=
| drains_end i i' : HasTop i = (i', false) -> drains i [] i' None
| drains_step i i1 i2 c l i' e :
    HasTop i = (i1, true) -> GetTopKey i1 = Some c.1 -> GetTopValue i1 = Some c.2 -> Next i1 = (i2, None) ->
    drains i2 l i' e -> drains i (c :: l) i' e
| drains_fail i i1 i' c e :
    HasTop i = (i1, true) -> GetTopKey i1 = Some c.1 -> GetTopValue i1 = Some c.2 -> Next i1 = (i', Some e) ->
    drains i [c] i' (Some e).

(** What is needed of an iterator whose source may fail: [Y i l e] says that
    [i] is about to surface [l] and then to end, or to fail with [e]; [D] is
    what is known once it has failed. *)
Record yields_laws {I} `{SKVI I} (Y : I -> list Cell -> option err -> Prop) (D : I -> err -> Prop) : Prop := {
  yl_HasTop i l e : Y i l e -> exists i', HasTop i = (i', bool_decide (l <> [])) /\ Y i' l e;
  yl_top i c l e : Y i (c :: l) e -> GetTopKey i = Some c.1 /\ GetTopValue i = Some c.2;
  yl_Next i c l e : Y i (c :: l) e ->
    match l, e with
    | [], Some x => exists i', Next i = (i', Some x) /\ D i' x
    | _, _ => exists i', Next i = (i', None) /\ Y i' l e
    end;
}.

(** The state a drain ends in. *)
Definition drained {I} (Y : I -> list Cell -> option err -> Prop) (D : I -> err -> Prop) (i : I) (e : option err) : Prop :=
  match e with Some x => D i x | None => Y i [] None end.

Lemma yields_drains {I} `{SKVI I} Y D (i : I) l e :
  yields_laws Y D -> Y i l e -> (l = [] -> e = None) -> exists i', drains i l i' e /\ drained Y D i' e.
Proof.
  intros HY. revert i. induction l as [|c l IH]; intros i Hi He.
  - rewrite He in * by done. destruct (yl_HasTop Y D HY i [] None Hi) as (i1 & E & H1). rewrite bool_decide_eq_false_2 in E by tauto.
    exists i1. split; [by constructor|done].
  - destruct (yl_HasTop Y D HY i _ _ Hi) as (i1 & E & H1). rewrite bool_decide_eq_true_2 in E by done.
    destruct (yl_top Y D HY i1 _ _ _ H1) as [Hk Hv]. pose proof (yl_Next Y D HY i1 _ _ _ H1) as Hn.
    assert ((exists x i2, l = [] /\ e = Some x /\ Next i1 = (i2, Some x) /\ D i2 x) \/
            ((l = [] -> e = None) /\ exists i2, Next i1 = (i2, None) /\ Y i2 l e)) as [(x & i2 & -> & -> & E2 & H2)|[He2 (i2 & E2 & H2)]].
    { destruct l as [|d l]; [|by right]. destruct e as [x|]; [|by right]. left. destruct Hn as (i2 & ? & ?). by exists x, i2. }
    + exists i2. split; [by eapply drains_fail|done].
    + destruct (IH i2 H2 He2) as (i' & Hd & ?). exists i'. split; [by eapply drains_step|done].
Qed.

(** Lawful iterators never fail. *)
Definition live_view {I} `{SKVILaws I} (i : I) (l : list Cell) (e : option err) : Prop := live i /\ view i = l /\ e = None.

Lemma live_yields {I} `{SKVILaws I} : yields_laws live_view (fun _ _ => False).
Proof.
  constructor.
  - intros i l e (Hl & <- & ->). destruct (hastop_ok i Hl) as (i' & E & H1 & H2 & _). exists i'. by rewrite E, <-H2.
  - intros i c l e (Hl & Hv & ->). by apply (top_ok i c l).
  - intros i c l e (Hl & Hv & ->). destruct (next_ok i c l Hl Hv) as (i' & E & H1 & H2 & _). by destruct l; exists i'.
Qed.

Lemma live_drains {I} `{SKVILaws I} (i : I) : live i -> exists i', drains i (view i) i' None /\ live i' /\ view i' = [].
Proof.
  intros Hl. destruct (yields_drains live_view (fun _ _ => False) i (view i) None live_yields) as (i' & Hd & H1 & H2 & _); [done|done|].
  by exists i'.
Qed.
