(* ===== verification/Heap.v ===== *)
(** * Heap: Go's container/heap, as the merge uses it

    The binary heap of the Go standard library over a list, with the
    comparison as a parameter: [Init], [Fix], [Pop] and the sifts [up] and
    [down] they are made of.  The lemmas give the heap property after each
    operation and the minimality of the root, for any comparison that is
    total and transitive on the elements of the heap. *)

From S2P Require Import Prelude.

Section heap.
Context {A : Type} (Less : A -> A -> bool).

(** [h.Less(i, j)] and [h.Swap(i, j)]; the indices are always in range. *)
Definition less_at (l : list A) (i j : nat) : bool :=
  match l !! i, l !! j with Some x, Some y => Less x y | _, _ => false end.

Definition swap (l : list A) (i j : nat) : list A :=
  match l !! i, l !! j with Some x, Some y => <[i := y]> (<[j := x]> l) | _, _ => l end.

(** The element reaches a leaf in fewer turns than there are elements. *)
Fixpoint down_loop (fuel : nat) (l : list A) (i n : nat) : list A * nat :=
  match fuel with
  | O => (l, i)
  | S fuel =>
      let j1 := (2 * i + 1)%nat in
      if (n <=? j1)%nat then (l, i)
      else
        let j2 := (j1 + 1)%nat in
        let j := if (j2 <? n)%nat && less_at l j2 j1 then j2 else j1 in
        if less_at l j i then down_loop fuel (swap l i j) j n else (l, i)
  end.

Definition down (l : list A) (i0 n : nat) : list A * bool :=
  let '(l, i) := down_loop n l i0 n in (l, (i0 <? i)%nat).

Fixpoint up_loop (fuel : nat) (l : list A) (j : nat) : list A :=
  match fuel with
  | O => l
  | S fuel =>
      let i := ((j - 1) / 2)%nat in
      if (i =? j)%nat || negb (less_at l j i) then l else up_loop fuel (swap l i j) i
  end.

Definition up (l : list A) (j : nat) : list A := up_loop (S j) l j.

(** [for i := n/2 - 1; i >= 0; i-- { down(h, i, n) }]: [k] turns to go. *)
Fixpoint Init_loop (k : nat) (l : list A) (n : nat) : list A :=
  match k with
  | O => l
  | S k => Init_loop k (down l k n).1 n
  end.

Definition heap_Init (l : list A) : list A := Init_loop (length l / 2) l (length l).

Definition heap_Fix (l : list A) (i : nat) : list A :=
  let '(l', moved) := down l i (length l) in if moved then l' else up l' i.

(** Pop moves the root to the end, where the slice's [Pop] cuts it. *)
Definition heap_Pop (l : list A) : list A :=
  let n := (length l - 1)%nat in
  take n (down (swap l 0 n) 0 n).1.

(** [Push] appends, and [up] takes the element to its place. *)
Definition heap_Push (l : list A) (x : A) : list A := up (l ++ [x]) (length l).

(** ** The heap property *)

Definition child (c p : nat) : Prop := c = (2 * p + 1)%nat \/ c = (2 * p + 2)%nat.

(** No child below [n] is less than its parent, for parents from [k] on. *)
Definition heap_ok (k n : nat) (l : list A) : Prop :=
  forall p c x y, child c p -> (k <= p)%nat -> (c < n)%nat -> l !! p = Some x -> l !! c = Some y ->
    Less y x = false.

(** The same but for the children of [i], which are no less than [i]'s parent. *)
Definition heap_except (k n i : nat) (l : list A) : Prop :=
  (forall p c x y, child c p -> (k <= p)%nat -> p <> i -> (c < n)%nat ->
    l !! p = Some x -> l !! c = Some y -> Less y x = false) /\
  (forall p c x y, child i p -> child c i -> (k <= p)%nat -> (c < n)%nat ->
    l !! p = Some x -> l !! c = Some y -> Less y x = false).

Lemma swap_perm l i j : swap l i j ≡ₚ l.
Proof.
  unfold swap. destruct (l !! i) as [x|] eqn:Ei, (l !! j) as [y|] eqn:Ej; try done.
  destruct (decide (i = j)) as [->|Hij].
  { rewrite list_insert_insert_eq, list_insert_id; [done|]. congruence. }
  apply Permutation_inj. split; [by rewrite !length_insert|].
  exists (fun k => if decide (k = i) then j else if decide (k = j) then i else k).
  split. { intros a b. repeat case_decide; congruence. }
  intros k. pose proof (lookup_lt_Some _ _ _ Ei). pose proof (lookup_lt_Some _ _ _ Ej).
  repeat case_decide; subst.
  - by rewrite list_lookup_insert_eq by (by rewrite length_insert).
  - by rewrite list_lookup_insert_ne, list_lookup_insert_eq by done.
  - by rewrite !list_lookup_insert_ne by done.
Qed.

Lemma swap_length l i j : length (swap l i j) = length l.
Proof. by rewrite swap_perm. Qed.

Lemma swap_lookup l i j x y k :
  l !! i = Some x -> l !! j = Some y ->
  swap l i j !! k = if decide (k = i) then Some y else if decide (k = j) then Some x else l !! k.
Proof.
  intros Hi Hj. unfold swap. rewrite Hi, Hj.
  pose proof (lookup_lt_Some _ _ _ Hi). pose proof (lookup_lt_Some _ _ _ Hj).
  repeat case_decide; subst.
  - by rewrite list_lookup_insert_eq by (by rewrite length_insert).
  - by rewrite list_lookup_insert_ne, list_lookup_insert_eq by done.
  - by rewrite !list_lookup_insert_ne by done.
Qed.

(** ** The operations keep it *)

(** [P] holds of the elements the comparison is good for. *)
Context (P : A -> Prop).
Hypothesis Less_asym : forall x y, P x -> P y -> Less x y = true -> Less y x = false.
Hypothesis Less_trans : forall x y z, P x -> P y -> P z ->
  Less y x = false -> Less z y = false -> Less z x = false.

(** The elements below [n]: the only ones a sift compares. *)
Definition below (n : nat) (l : list A) : Prop := forall j x, (j < n)%nat -> l !! j = Some x -> P x.

Lemma below_Forall n l : Forall P l -> below n l.
Proof. intros HP j x _ Hx. by eapply Forall_lookup_1. Qed.

Lemma down_loop_ok fuel k n i l :
  below n l -> (n <= length l)%nat -> (k <= i)%nat -> (n <= i + fuel)%nat -> heap_except k n i l ->
  exists l' i', down_loop fuel l i n = (l', i') /\ heap_ok k n l' /\ l' ≡ₚ l /\
    (forall j, (n <= j)%nat -> l' !! j = l !! j).
Proof.
  revert i l. induction fuel as [|fuel IH]; intros i l HP Hn Hk Hf [Hex Hgp].
  { exists l, i. split_and!; try done. intros p c x y Hc Hkp Hcn. apply (Hex p c); unfold child in *; lia || done. }
  cbn [down_loop].
  destruct (Nat.leb_spec n (2 * i + 1)) as [Hj|Hj].
  { exists l, i. split_and!; try done. intros p c x y Hc Hkp Hcn. apply (Hex p c); unfold child in *; lia || done. }
  set (j := if ((2 * i + 1 + 1) <? n)%nat && less_at l (2 * i + 1 + 1) (2 * i + 1) then _ else _).
  destruct (lookup_lt_is_Some_2 l i ltac:(lia)) as [x Hx].
  destruct (lookup_lt_is_Some_2 l (2 * i + 1) ltac:(lia)) as [y1 Hy1].
  assert (P x) as Px by (apply (HP i); lia || done). assert (P y1) as Py1 by (apply (HP (2 * i + 1)%nat); lia || done).
  assert (child j i /\ (j < n)%nat /\ exists y, l !! j = Some y /\
    forall c z, child c i -> (c < n)%nat -> l !! c = Some z -> z = y \/ Less z y = false) as (Hji & Hjn & y & Hy & Hmin).
  { unfold j, less_at, child. destruct (Nat.ltb_spec (2 * i + 1 + 1) n) as [H2|H2]; cbn [andb].
    - destruct (lookup_lt_is_Some_2 l (2 * i + 1 + 1) ltac:(lia)) as [y2 Hy2]. rewrite Hy2, Hy1.
      destruct (Less y2 y1) eqn:E; (split; [lia|split; [lia|]]).
      + exists y2. split; [done|]. intros c z [->| ->] _ Hz; [right|left].
        * rewrite Hz in Hy1. injection Hy1 as ->. apply Less_asym; [|done..]. by apply (HP _ _ H2).
        * replace (2 * i + 2)%nat with (2 * i + 1 + 1)%nat in Hz by lia. congruence.
      + exists y1. split; [done|]. intros c z [->| ->] _ Hz; [left; congruence|right].
        replace (2 * i + 2)%nat with (2 * i + 1 + 1)%nat in Hz by lia. congruence.
    - split; [lia|split; [lia|]]. exists y1. split; [done|].
      intros c z [->| ->] Hc Hz; [left; congruence|lia]. }
  clearbody j. assert (P y) as Py by (by apply (HP j)).
  unfold less_at at 1. rewrite Hy, Hx. destruct (Less y x) eqn:Eyx.
  - assert (heap_except k n j (swap l i j)) as Hex'.
    { assert (i <> j) as Hij by (unfold child in Hji; lia). split.
      - intros p c a b Hcp Hkp Hpj Hcn. rewrite !(swap_lookup l i j x y) by done.
        repeat case_decide; subst; try (unfold child in *; lia).
        + intros [= <-] [= <-]. by apply Less_asym.
        + intros [= <-] Hb. destruct (Hmin c b Hcp Hcn Hb) as [->|?]; [|done].
          destruct (Less y y) eqn:E; [|done]. by rewrite (Less_asym y y) in E.
        + intros Ha [= <-]. by apply (Hgp p j).
        + assert (c <> j) by done. intros Ha Hb. by apply (Hex p c).
      - intros p c a b Hjp Hcj Hkp Hcn. rewrite !(swap_lookup l i j x y) by done.
        assert (p = i) as -> by (unfold child in *; lia).
        repeat case_decide; subst; try (unfold child in *; lia).
        intros [= <-] Hb. apply (Hex j c); try done. unfold child in *; lia. }
    destruct (IH j (swap l i j)) as (l' & i' & -> & Hok & Hp & Hout).
    { intros m z Hm. rewrite (swap_lookup l i j x y) by done.
      repeat case_decide; [congruence..|]. by apply HP. }
    { by rewrite swap_length. } { unfold child in Hji; lia. }
    { unfold child in Hji; lia. } { done. }
    exists l', i'. split_and!; [done..|by rewrite Hp, swap_perm|].
    intros m Hm. rewrite Hout, (swap_lookup l i j x y), !decide_False by (done || unfold child in Hji; lia). done.
  - exists l, i. split_and!; try done. intros p c a b Hcp Hkp Hcn Ha Hb.
    destruct (decide (p = i)) as [->|Hpi]; [|by apply (Hex p c)].
    rewrite Hx in Ha. injection Ha as <-.
    destruct (Hmin c b Hcp Hcn Hb) as [->|?]; [done|].
    apply (Less_trans x y b); try done. by apply (HP c).
Qed.

Lemma down_ok k n l :
  below n l -> (n <= length l)%nat -> heap_ok (S k) n l ->
  exists l' b, down l k n = (l', b) /\ heap_ok k n l' /\ l' ≡ₚ l /\ (forall j, (n <= j)%nat -> l' !! j = l !! j).
Proof.
  intros HP Hn Hok. unfold down.
  destruct (down_loop_ok n k n k l HP Hn ltac:(lia) ltac:(lia)) as (l' & i' & -> & ?).
  { split; [|unfold child; lia]. intros p c x y Hc Hkp Hpk. apply Hok; [done|lia]. }
  eauto.
Qed.

Lemma Init_loop_ok k n l :
  Forall P l -> n = length l -> heap_ok k n l ->
  heap_ok 0 n (Init_loop k l n) /\ Init_loop k l n ≡ₚ l.
Proof.
  revert l. induction k as [|k IH]; intros l HP Hn Hok; cbn [Init_loop]; [done|].
  destruct (down_ok k n l (below_Forall _ _ HP) ltac:(lia) Hok) as (l' & b & -> & Hok' & Hp & _). cbn [fst].
  destruct (IH l') as [H1 H2]; [by rewrite Hp|by rewrite Hp|done|]. split; [done|by rewrite H2].
Qed.

Lemma heap_Init_ok l :
  Forall P l -> heap_ok 0 (length l) (heap_Init l) /\ heap_Init l ≡ₚ l.
Proof.
  intros HP. apply Init_loop_ok; [done..|].
  intros p c x y Hc Hk Hcn. exfalso. unfold child in Hc.
  pose proof (Nat.div_mod_eq (length l) 2). pose proof (Nat.mod_upper_bound (length l) 2). lia.
Qed.

Lemma up_zero l : up l 0 = l.
Proof. done. Qed.

Lemma heap_Fix_ok l :
  Forall P l -> heap_ok 1 (length l) l ->
  heap_ok 0 (length l) (heap_Fix l 0) /\ heap_Fix l 0 ≡ₚ l.
Proof.
  intros HP Hok. unfold heap_Fix.
  destruct (down_ok 0 (length l) l (below_Forall _ _ HP) ltac:(lia) Hok) as (l' & b & -> & Hok' & Hp & _).
  destruct b; [done|]. by rewrite up_zero.
Qed.

Lemma heap_Pop_ok x l :
  Forall P l -> heap_ok 1 (length (x :: l)) (x :: l) ->
  heap_ok 0 (length l) (heap_Pop (x :: l)) /\ heap_Pop (x :: l) ≡ₚ l.
Proof.
  intros HP Hok. unfold heap_Pop. cbn [length].
  replace (S (length l) - 1)%nat with (length l) by lia. set (n := length l) in *.
  assert (exists y, (x :: l) !! n = Some y) as [y Hy].
  { apply lookup_lt_is_Some_2. cbn. unfold n. lia. }
  pose proof (fun k => swap_lookup (x :: l) 0 n x y k eq_refl Hy) as Hsw.
  set (s := swap (x :: l) 0 n) in *.
  assert (s ≡ₚ x :: l) as Hs by apply swap_perm.
  destruct (down_ok 0 n s) as (l' & b & -> & Hok' & Hp & Hout).
  { assert (forall m z, m <> 0%nat -> (x :: l) !! m = Some z -> P z) as HP'.
    { intros [|m] z Hm Hz; [done|]. by eapply Forall_lookup_1. }
    intros m z Hm. rewrite Hsw. repeat case_decide; try lia; [|by apply HP'].
    intros [= <-]. apply (HP' n); [lia|done]. }
  { rewrite Hs. cbn. lia. }
  { intros p c a d Hcp Hkp Hcn. rewrite !Hsw.
    repeat case_decide; try (unfold child in *; lia). apply Hok; cbn; fold n; unfold child in *; lia. }
  cbn [fst].
  assert (l' !! n = Some x) as Hlast.
  { rewrite Hout, Hsw by done. destruct (decide (n = 0%nat)) as [E|_]; [|by rewrite decide_True].
    by rewrite <- Hy, E. }
  assert (length l' = S n) as Hlen by (by rewrite Hp, Hs).
  split.
  - intros p c a d Hcp Hkp Hcn. rewrite !lookup_take, !decide_True by (unfold child in *; lia).
    by apply Hok'.
  - apply (Permutation_cons_inv (a := x)). rewrite <- Hs, <- Hp.
    rewrite <- (take_drop_middle l' n x Hlast) at 2.
    rewrite (drop_ge l' (S n)) by lia. by rewrite <- Permutation_cons_append.
Qed.

(** The heap property but for [j] below its parent, whose children are no less
    than that parent. *)
Definition heap_rising (j : nat) (l : list A) : Prop :=
  (forall p c x y, child c p -> c <> j -> l !! p = Some x -> l !! c = Some y -> Less y x = false) /\
  (forall p c x y, child j p -> child c j -> l !! p = Some x -> l !! c = Some y -> Less y x = false).

Lemma rising_swap i j x y l :
  Forall P l -> child j i -> l !! i = Some x -> l !! j = Some y -> Less y x = true -> heap_rising j l -> heap_rising i (swap l j i).
Proof.
  intros HP Hc Hi Hj Hless [H1 H2]. pose proof (fun k => swap_lookup l j i y x k Hj Hi) as Hsw.
  assert (forall k z, l !! k = Some z -> P z) as HPk by (intros k z; by apply Forall_lookup_1).
  assert (Less x y = false) as Hxy by (apply Less_asym; eauto).
  assert (i <> j) as Hne by (unfold child in Hc; lia). split.
  - intros p c a b Hcp Hci. rewrite !Hsw. destruct (decide (c = j)) as [->|Hcj].
    + assert (p = i) as -> by (unfold child in *; lia). rewrite decide_False, decide_True by done. by intros [= <-] [= <-].
    + rewrite (decide_False (P := c = i)) by done. destruct (decide (p = j)) as [->|Hpj].
      * intros [= <-] Hb. by apply (H2 i c).
      * destruct (decide (p = i)) as [->|Hpi]; [|intros Ha Hb; by apply (H1 p c)].
        intros [= <-] Hb. apply (Less_trans y x b); eauto.
  - intros p c a b Hip Hci. rewrite !Hsw. rewrite (decide_False (P := p = j)), (decide_False (P := p = i)) by (unfold child in *; lia).
    intros Ha. pose proof (H1 p i a x Hip Hne Ha Hi) as Hxa. destruct (decide (c = j)) as [->|Hcj]; [by intros [= <-]|].
    rewrite decide_False by (unfold child in *; lia). intros Hb. apply (Less_trans a x b); eauto.
Qed.

Lemma up_loop_ok fuel j l :
  Forall P l -> (j < fuel)%nat -> (j < length l)%nat -> heap_rising j l -> heap_ok 0 (length l) (up_loop fuel l j) /\ up_loop fuel l j ≡ₚ l.
Proof.
  revert j l. induction fuel as [|fuel IH]; intros j l HP Hf Hj [H1 H2]; [lia|]. cbn [up_loop]. set (i := ((j - 1) / 2)%nat).
  destruct (lookup_lt_is_Some_2 l j Hj) as [y Hy]. destruct (decide (j = 0%nat)) as [->|H0].
  { change ((i =? 0)%nat) with true. cbn [orb]. split; [|done]. intros p c a b Hcp _ _. apply H1; [done|]. unfold child in Hcp. lia. }
  assert (child j i) as Hc.
  { unfold child, i. pose proof (Nat.div_mod_eq (j - 1) 2). pose proof (Nat.mod_upper_bound (j - 1) 2). lia. }
  assert (i < j)%nat as Hlt by (unfold child in Hc; lia). destruct (lookup_lt_is_Some_2 l i ltac:(lia)) as [x Hx].
  rewrite (proj2 (Nat.eqb_neq i j)) by lia. cbn [orb]. unfold less_at. rewrite Hy, Hx. destruct (Less y x) eqn:Hless; cbn [negb].
  - assert (swap l i j = swap l j i) as -> by (unfold swap; rewrite Hy, Hx; by rewrite list_insert_insert_ne by lia).
    destruct (IH i (swap l j i)) as [G1 G2]; [by rewrite swap_perm|lia|rewrite swap_length; lia|by apply (rising_swap i j x y)|].
    rewrite swap_length in G1. split; [exact G1|]. by rewrite G2, swap_perm.
  - split; [|done]. intros p c a b Hcp _ _ Ha Hb. destruct (decide (c = j)) as [->|Hcj]; [|by apply (H1 p c)].
    assert (p = i) as -> by (unfold child in *; lia). congruence.
Qed.

Lemma heap_Push_ok l x :
  Forall P (l ++ [x]) -> heap_ok 0 (length l) l ->
  heap_ok 0 (length (l ++ [x])) (heap_Push l x) /\ heap_Push l x ≡ₚ x :: l.
Proof.
  intros HP Hok. unfold heap_Push, up. destruct (up_loop_ok (S (length l)) (length l) (l ++ [x]) HP) as [H1 H2]; [lia|rewrite length_app; cbn; lia| |].
  - assert (forall k z, (k < length l)%nat -> (l ++ [x]) !! k = Some z -> l !! k = Some z) as Hin by (intros k z Hk; by rewrite lookup_app_l).
    assert (forall k z, (l ++ [x]) !! k = Some z -> (k <= length l)%nat) as Hlen.
    { intros k z Hk%lookup_lt_Some. rewrite length_app in Hk. cbn in Hk. lia. }
    split; intros p c a b Hcp Hcj Ha Hb; pose proof (Hlen _ _ Ha); pose proof (Hlen _ _ Hb); [|unfold child in *; lia].
    apply (Hok p c); [done|lia|lia|apply Hin; [unfold child in *; lia|done]|apply Hin; [lia|done]].
  - split; [exact H1|]. rewrite H2. by rewrite Permutation_app_comm.
Qed.

(** Nothing is less than the root. *)
Lemma heap_root x l y :
  Forall P (x :: l) -> heap_ok 0 (length (x :: l)) (x :: l) -> y ∈ x :: l -> Less y x = false \/ y = x.
Proof.
  intros HP Hok [j Hj]%list_elem_of_lookup. revert y Hj.
  induction (lt_wf j) as [j _ IH]. intros y Hj.
  destruct (decide (j = 0)%nat) as [->|H0]; [right; cbn in Hj; congruence|left].
  assert (child j ((j - 1) / 2)) as Hc.
  { unfold child. pose proof (Nat.div_mod_eq (j - 1) 2). pose proof (Nat.mod_upper_bound (j - 1) 2). lia. }
  assert (((j - 1) / 2 < j)%nat) as Hlt by (unfold child in Hc; lia).
  pose proof (lookup_lt_Some _ _ _ Hj) as Hjl.
  destruct (lookup_lt_is_Some_2 (x :: l) ((j - 1) / 2) ltac:(lia)) as [z Hz].
  pose proof (Hok _ _ _ _ Hc ltac:(lia) Hjl Hz Hj) as Hzy.
  destruct (IH _ Hlt z Hz) as [Hxz| ->]; [|done].
  apply (Less_trans x z y); try done; by eapply Forall_lookup_1 + (apply Forall_cons in HP as [? _]).
Qed.
End heap.
