(* ===== verification/Merge.v ===== *)
(** * Merge: the k-way merge of sorted sources (src/internal/iterrt/merge.go)

    The heap's entries name their source by its index, which is also its
    priority; the sources themselves are one list, so an entry and the
    iterator's source list share the source as the code's pointers do.
    The merge is shown to surface the stable merge of what its sources
    surface: sorted by key, and among equal keys by source priority. *)

From stdpp Require Import sorting.
From S2P Require Import Prelude Wire Iter Heap.

Record MergingIterator (I : Type) := mkMerge {
  mi_sources : list I;
  mi_h : list nat;
  mi_err : option err;
}.
Arguments mkMerge {I}.
Arguments mi_sources {I}.
Arguments mi_h {I}.
Arguments mi_err {I}.

Section Merging.
  Context {I : Type} `{SKVI I}.

Definition NewMergingIterator (sources : list I) : MergingIterator I := mkMerge sources [] None.

(** [init] is the sources' [Init] with a nil source. *)
Fixpoint init_all (init : I -> option err) (ss : list I) : option err :=
  match ss with
  | [] => None
  | s :: ss => match init s with Some e => Some e | None => init_all init ss end
  end.

Definition MergingIterator_Init (init : I -> option err) (source : option I) (m : MergingIterator I) : option err :=
  match source with
  | Some _ => Some (Fail "iterrt: MergingIterator takes its sources via NewMergingIterator, not Init")
  | None => init_all init (mi_sources m)
  end.

(** [mergeHeap.Less]: by top key, then by priority. *)
Definition mergeHeap_Less (ss : list I) (i j : nat) : bool :=
  match ss !! i ≫= GetTopKey, ss !! j ≫= GetTopKey with
  | Some a, Some b =>
      let c := Compare a b in
      if negb (is_eq c) then is_lt c else (i <? j)%nat
  | _, _ => false
  end.

(** The loop of [Seek]: seeks the sources from index [i] on and collects the
    entries of those that have a top. *)
Fixpoint seek_all (r : Range) (cfs : list bytes) (inclusive : bool) (i : nat) (ss : list I)
  : list I * list nat * option err :=
  match ss with
  | [] => ([], [], None)
  | s :: ss =>
      let '(s, e) := Seek r cfs inclusive s in
      match e with
      | Some e => (s :: ss, [], Some e)
      | None =>
          let '(s, has) := HasTop s in
          let '(ss, h, e) := seek_all r cfs inclusive (S i) ss in
          (s :: ss, (if has then [i] else []) ++ h, e)
      end
  end.

Definition MergingIterator_Seek (r : Range) (cfs : list bytes) (inclusive : bool) (m : MergingIterator I)
  : MergingIterator I * option err :=
  let '(ss, h, e) := seek_all r cfs inclusive 0 (mi_sources m) in
  match e with
  | Some e => (mkMerge ss h (Some e), Some e)
  | None => (mkMerge ss (heap_Init (mergeHeap_Less ss) h) None, None)
  end.

Definition MergingIterator_Next (m : MergingIterator I) : MergingIterator I * option err :=
  match mi_err m with
  | Some e => (m, Some e)
  | None =>
      match mi_h m with
      | [] => (m, Some (Fail "iterrt: MergingIterator.Next called without a top"))
      | i :: _ =>
          match mi_sources m !! i with
          | None => (m, Some Panic)
          | Some top =>
              let '(top, e) := Next top in
              match e with
              | Some e => (mkMerge (<[i := top]> (mi_sources m)) (mi_h m) (Some e), Some e)
              | None =>
                  let '(top, has) := HasTop top in
                  let ss := <[i := top]> (mi_sources m) in
                  if has then (mkMerge ss (heap_Fix (mergeHeap_Less ss) (mi_h m) 0) None, None)
                  else (mkMerge ss (heap_Pop (mergeHeap_Less ss) (mi_h m)) None, None)
              end
          end
      end
  end.

Definition MergingIterator_HasTop (m : MergingIterator I) : bool :=
  bool_decide (mi_err m = None) && (0 <? length (mi_h m))%nat.

Definition MergingIterator_GetTopKey (m : MergingIterator I) : option Key :=
  match mi_h m with [] => None | i :: _ => mi_sources m !! i ≫= GetTopKey end.

Definition MergingIterator_GetTopValue (m : MergingIterator I) : option bytes :=
  match mi_h m with [] => None | i :: _ => mi_sources m !! i ≫= GetTopValue end.

Definition MergingIterator_DeepCopy (env : IteratorEnvironment) (m : MergingIterator I) : MergingIterator I :=
  mkMerge (DeepCopy env <$> mi_sources m) [] None.
End Merging.

#[export] Instance MergingIterator_SKVI {I} `{SKVI I} : SKVI (MergingIterator I) := {
  Seek := MergingIterator_Seek;
  Next := MergingIterator_Next;
  HasTop m := (m, MergingIterator_HasTop m);
  GetTopKey := MergingIterator_GetTopKey;
  GetTopValue := MergingIterator_GetTopValue;
  DeepCopy := MergingIterator_DeepCopy;
  bound m := list_sum (bound <$> mi_sources m);
}.

(** ** The stable merge *)

Definition cell_le (c d : Cell) : Prop := key_le c.1 d.1.

#[export] Instance cell_le_dec : RelDecision cell_le.
Proof. intros c d. unfold cell_le. apply _. Defined.
#[export] Instance cell_le_total : Total cell_le.
Proof. intros c d. apply (total key_le). Qed.
#[export] Instance cell_le_trans : Transitive cell_le.
Proof. intros c d e. unfold cell_le. apply transitivity. Qed.

(** Cells of an earlier list come before the equal cells of a later one. *)
Definition merge_all (ls : list (list Cell)) : list Cell := foldr (list_merge cell_le) [] ls.

Lemma merge_all_cons l ls : merge_all (l :: ls) = list_merge cell_le l (merge_all ls).
Proof. done. Qed.

Lemma sorted_cells_StronglySorted l : sorted_cells l <-> StronglySorted cell_le l.
Proof.
  induction l as [|c l IH]; [split; constructor|]. rewrite sorted_cells_cons, IH. split.
  - intros []. by constructor.
  - by intros []%StronglySorted_inv.
Qed.

Lemma merge_all_sorted ls : Forall sorted_cells ls -> sorted_cells (merge_all ls).
Proof.
  induction 1 as [|l ls Hl _ IH]; [constructor|]. rewrite merge_all_cons.
  apply sorted_cells_StronglySorted, Sorted_StronglySorted; [apply _|].
  apply Sorted_list_merge; [apply _|..]; by apply StronglySorted_Sorted, sorted_cells_StronglySorted.
Qed.

(** Nothing is dropped or made up. *)
Lemma merge_all_perm ls : merge_all ls ≡ₚ concat ls.
Proof. induction ls as [|l ls IH]; [done|]. by rewrite merge_all_cons, merge_Permutation, IH. Qed.

Lemma merge_all_nil ls : Forall (eq []) ls -> merge_all ls = [].
Proof. induction 1 as [|l ls <- _ IH]; [done|]. by rewrite merge_all_cons, IH. Qed.

Lemma merge_all_head ls d u :
  merge_all ls = d :: u -> exists j v, ls !! j = Some (d :: v).
Proof.
  revert u. induction ls as [|l ls IH]; intros u; [done|]. rewrite merge_all_cons.
  destruct l as [|c t].
  - rewrite list_merge_nil_l. intros E. destruct (IH _ E) as (j & v & Hj). by exists (S j), v.
  - destruct (merge_all ls) as [|e w] eqn:Em.
    + rewrite list_merge_nil_r. intros [= <- <-]. by exists 0%nat, t.
    + rewrite list_merge_cons. case_decide; intros [= <- _].
      * by exists 0%nat, t.
      * destruct (IH w eq_refl) as (j & v & Hj). by exists (S j), v.
Qed.

(** The source with the least top, the first of those with equal tops, is the
    one the merge takes its next cell from. *)
Lemma merge_all_pick ls i c t :
  ls !! i = Some (c :: t) ->
  (forall j d u, ls !! j = Some (d :: u) -> j <> i ->
    if (j <? i)%nat then Compare c.1 d.1 = Lt else key_le c.1 d.1) ->
  merge_all ls = c :: merge_all (<[i := t]> ls).
Proof.
  revert i. induction ls as [|l ls IH]; intros i Hi Hmin; [done|].
  destruct i as [|i]; cbn in Hi.
  - injection Hi as ->. cbn [insert list_insert]. rewrite !merge_all_cons.
    destruct (merge_all ls) as [|d u] eqn:Em; [by rewrite !list_merge_nil_r|].
    destruct (merge_all_head _ _ _ Em) as (j & v & Hj).
    rewrite list_merge_cons, decide_True; [done|]. by apply (Hmin (S j) d v).
  - cbn [list_insert insert]. rewrite !merge_all_cons, (IH i Hi).
    2: { intros j d u Hj Hne. specialize (Hmin (S j) d u Hj ltac:(congruence)). exact Hmin. }
    destruct l as [|d u]; [by rewrite !list_merge_nil_l|].
    rewrite list_merge_cons, decide_False; [done|].
    specialize (Hmin 0%nat d u eq_refl ltac:(done)). cbn in Hmin.
    unfold cell_le, key_le. rewrite (cmp_antisym Compare c.1 d.1), Hmin. tauto.
Qed.

(** ** The merge keeps the contract *)

Lemma nat_Cmp : Cmp Nat.compare.
Proof.
  split.
  - apply Nat.compare_eq_iff.
  - intros. apply Nat.compare_antisym.
  - intros x y z. rewrite !Nat.compare_lt_iff. lia.
Qed.

(** The heap's order: a key and a source index. *)
Definition entry_cmp (x y : Key * nat) : comparison := Compare x.1 y.1 <?> Nat.compare x.2 y.2.

#[export] Instance entry_Cmp : Cmp entry_cmp.
Proof. exact (lex_Cmp Compare Nat.compare _ nat_Cmp). Qed.

Section Merge_laws.
Context {I : Type} `{SKVILaws I}.

(** Source [i] is positioned on a cell. *)
Definition has_cell (ss : list I) (i : nat) : Prop :=
  exists s c l, ss !! i = Some s /\ live s /\ view s = c :: l.

Lemma has_cell_key ss i :
  has_cell ss i -> exists s c l, ss !! i = Some s /\ live s /\ view s = c :: l /\ ss !! i ≫= GetTopKey = Some c.1 /\
    ss !! i ≫= GetTopValue = Some c.2.
Proof.
  intros (s & c & l & Hi & Hl & Hv). exists s, c, l. rewrite Hi. cbn.
  by destruct (top_ok s c l Hl Hv) as [-> ->].
Qed.

Lemma Less_spec ss i j ki kj :
  ss !! i ≫= GetTopKey = Some ki -> ss !! j ≫= GetTopKey = Some kj ->
  mergeHeap_Less ss i j = is_lt (entry_cmp (ki, i) (kj, j)).
Proof.
  intros Hi Hj. unfold mergeHeap_Less, entry_cmp. rewrite Hi, Hj. cbn [fst snd].
  destruct (Compare ki kj); try done.
  cbn [is_eq negb then_cmp]. destruct (Nat.compare_spec i j), (Nat.ltb_spec i j); try done; lia.
Qed.

Lemma Less_asym ss x y :
  has_cell ss x -> has_cell ss y -> mergeHeap_Less ss x y = true -> mergeHeap_Less ss y x = false.
Proof.
  intros (_ & c & _ & _ & _ & _ & Hx & _)%has_cell_key (_ & d & _ & _ & _ & _ & Hy & _)%has_cell_key.
  rewrite (Less_spec ss x y c.1 d.1), (Less_spec ss y x d.1 c.1) by done.
  rewrite (cmp_antisym entry_cmp (c.1, x)). by destruct (entry_cmp (c.1, x) _).
Qed.

Lemma Less_trans ss x y z :
  has_cell ss x -> has_cell ss y -> has_cell ss z ->
  mergeHeap_Less ss y x = false -> mergeHeap_Less ss z y = false -> mergeHeap_Less ss z x = false.
Proof.
  intros (_ & c & _ & _ & _ & _ & Hx & _)%has_cell_key (_ & d & _ & _ & _ & _ & Hy & _)%has_cell_key
    (_ & e & _ & _ & _ & _ & Hz & _)%has_cell_key.
  rewrite (Less_spec ss y x d.1 c.1), (Less_spec ss z y e.1 d.1), (Less_spec ss z x e.1 c.1) by done.
  set (a := (c.1, x)). set (b := (d.1, y)). set (f := (e.1, z)).
  rewrite (cmp_antisym entry_cmp a b), (cmp_antisym entry_cmp b f), (cmp_antisym entry_cmp a f).
  destruct (entry_cmp a b) eqn:E1, (entry_cmp b f) eqn:E2; try done; cbn; intros _ _.
  - apply (cmp_eq entry_cmp) in E1 as ->. by rewrite E2.
  - apply (cmp_eq entry_cmp) in E1 as ->. by rewrite E2.
  - apply (cmp_eq entry_cmp) in E2 as <-. by rewrite E1.
  - by rewrite (cmp_trans entry_cmp _ _ _ E1 E2).
Qed.

Definition h_ok (ss : list I) (h : list nat) : Prop :=
  NoDup h /\ (forall i, i ∈ h <-> has_cell ss i) /\ heap_ok (mergeHeap_Less ss) 0 (length h) h.

Definition mi_live (m : MergingIterator I) : Prop :=
  mi_err m = None /\ Forall live (mi_sources m) /\ h_ok (mi_sources m) (mi_h m).

Definition mi_scan (m : MergingIterator I) (r : Range) (cfs : list bytes) (incl : bool) : list Cell :=
  merge_all ((fun f => f r cfs incl) <$> (scan <$> mi_sources m)).

Lemma h_ok_Forall ss h : (forall i, i ∈ h <-> has_cell ss i) -> Forall (has_cell ss) h.
Proof. intros Hh. apply Forall_forall. intros i. apply Hh. Qed.

Lemma seek_all_ok r cfs incl i ss :
  Forall ready ss ->
  exists ss' h, seek_all r cfs incl i ss = (ss', h, None) /\ Forall live ss' /\
    view <$> ss' = (fun f => f r cfs incl) <$> (scan <$> ss) /\ scan <$> ss' = scan <$> ss /\
    NoDup h /\ (forall j, j ∈ h <-> (i <= j)%nat /\ has_cell ss' (j - i)).
Proof.
  intros Hr. revert i. induction Hr as [|s ss Hs _ IH]; intros i; cbn [seek_all].
  { exists [], []. split_and!; try done; [constructor|]. intros j. split; [by intros ?%elem_of_nil|].
    by intros [_ (? & ? & ? & ? & _)]. }
  destruct (seek_ok s r cfs incl Hs) as (s1 & -> & Hl1 & Hv1 & Hsc1).
  destruct (hastop_ok s1 Hl1) as (s2 & -> & Hl2 & Hv2 & Hsc2).
  destruct (IH (S i)) as (ss' & h & -> & Hl & Hv & Hsc & Hnd & Hh).
  exists (s2 :: ss'), ((if bool_decide (view s1 <> []) then [i] else []) ++ h).
  assert (i ∉ h) as Hi by (rewrite Hh; intros [? _]; lia).
  split_and!; [done|by constructor|cbn; by rewrite Hv2, Hv1, Hv|cbn; by rewrite Hsc2, Hsc1, Hsc|..].
  - case_bool_decide; [by constructor|done].
  - intros j. rewrite elem_of_app, Hh.
    assert ((j ∈ (if bool_decide (view s1 <> []) then [i] else [])) <-> j = i /\ has_cell (s2 :: ss') 0) as ->.
    { unfold has_cell. rewrite <- Hv2. destruct (view s2) as [|c l] eqn:Ev.
      - rewrite bool_decide_eq_false_2 by tauto. split; [by intros ?%elem_of_nil|].
        intros [_ (s0 & c & l & E & _ & ?)]. injection E as <-. congruence.
      - rewrite bool_decide_eq_true_2, list_elem_of_singleton by done. split; [|tauto].
        intros ->. split; [done|]. exists s2, c, l. done. }
    destruct (decide (j = i)) as [->|Hne].
    + rewrite Nat.sub_diag. split; [intros [[_ ?]|[? _]]; [done|lia]|]. intros [_ ?]. by left.
    + split; [intros [[? _]|[? Hc]]; [done|]|intros [? Hc]; right]; (split; [lia|]).
      * by replace (j - i)%nat with (S (j - S i)) by lia.
      * by replace (j - i)%nat with (S (j - S i)) in Hc by lia.
Qed.

(** The root of the heap is the source the stable merge picks. *)
Lemma root_pick ss i h :
  Forall live ss -> h_ok ss (i :: h) ->
  exists s c l, ss !! i = Some s /\ live s /\ view s = c :: l /\
    merge_all (view <$> ss) = c :: merge_all (<[i := l]> (view <$> ss)).
Proof.
  intros Hss (Hnd & Hin & Hheap). pose proof (h_ok_Forall _ _ Hin) as HP.
  assert (has_cell ss i) as Hi by (apply Hin; constructor).
  destruct (has_cell_key _ _ Hi) as (s & c & l & Hs & Hl & Hv & Hk & _).
  exists s, c, l. split_and!; try done. apply merge_all_pick; [by rewrite list_lookup_fmap, Hs; cbn; rewrite Hv|].
  intros j d u Hj Hne. rewrite list_lookup_fmap in Hj.
  destruct (ss !! j) as [t|] eqn:Ht; [|done]. injection Hj as Hj.
  assert (has_cell ss j) as Hcj. { exists t, d, u. split_and!; [done| |done]. by eapply Forall_lookup_1. }
  destruct (has_cell_key _ _ Hcj) as (t' & d' & u' & Ht' & _ & Hv' & Hkj & _).
  assert (d' = d) as -> by congruence.
  destruct (heap_root (mergeHeap_Less ss) (has_cell ss) (Less_trans ss) i h j HP Hheap) as [Hless|Hless];
    [by apply Hin| |congruence].
  rewrite (Less_spec ss j i d.1 c.1) in Hless by done. unfold entry_cmp in Hless. cbn in Hless.
  rewrite (cmp_antisym Compare c.1 d.1) in Hless. unfold key_le.
  destruct (Nat.ltb_spec j i).
  - destruct (Compare c.1 d.1); [|done|done]. cbn in Hless.
    destruct (Nat.compare_spec j i); done || lia.
  - destruct (Compare c.1 d.1); done.
Qed.

(** Only the root's key changes when its source advances. *)
Lemma advance_heap ss i h s :
  h_ok ss (i :: h) -> heap_ok (mergeHeap_Less (<[i := s]> ss)) 1 (length (i :: h)) (i :: h).
Proof.
  intros (Hnd & Hin & Hheap) p c x y Hc Hp Hcn Hx Hy.
  apply NoDup_cons in Hnd as [Hni _].
  destruct p as [|p]; [lia|]. destruct c as [|c]; [unfold child in Hc; lia|].
  assert (x <> i /\ y <> i) as [Hxi Hyi].
  { split; intros ->; apply Hni; by eapply list_elem_of_lookup_2. }
  unfold mergeHeap_Less. rewrite !list_lookup_insert_ne by done.
  by apply (Hheap (S p) (S c) x y Hc ltac:(lia)).
Qed.

Lemma has_cell_insert ss i s j :
  has_cell ss i -> live s ->
  has_cell (<[i := s]> ss) j <-> (j = i /\ view s <> []) \/ (j <> i /\ has_cell ss j).
Proof.
  intros (s0 & _ & _ & Hi & _) Hl. pose proof (lookup_lt_Some _ _ _ Hi). unfold has_cell.
  destruct (decide (j = i)) as [->|Hne].
  - rewrite list_lookup_insert_eq by done. split.
    + intros (? & c & l & [= <-] & _ & Hv). left. split; [done|]. by rewrite Hv.
    + intros [[_ Hv]|[? _]]; [|done]. destruct (view s) as [|c l] eqn:E; [done|]. by exists s, c, l.
  - rewrite list_lookup_insert_ne by done. naive_solver.
Qed.

Lemma Next_ok m c l :
  mi_live m -> merge_all (view <$> mi_sources m) = c :: l ->
  exists m', MergingIterator_Next m = (m', None) /\ mi_live m' /\
    merge_all (view <$> mi_sources m') = l /\ scan <$> mi_sources m' = scan <$> mi_sources m.
Proof.
  intros (He & Hss & Hh) Hv. unfold MergingIterator_Next. rewrite He.
  destruct (mi_h m) as [|i h] eqn:Eh.
  { exfalso. destruct (merge_all_head _ _ _ Hv) as (j & v & Hj). rewrite list_lookup_fmap in Hj.
    destruct (mi_sources m !! j) as [t|] eqn:Et; [|done]. injection Hj as Hj.
    assert (j ∈ []) as []%elem_of_nil. apply Hh. exists t, c, v. split_and!; [done| |done].
    by eapply Forall_lookup_1. }
  set (ss := mi_sources m) in *.
  destruct (root_pick ss i h Hss Hh) as (s & c' & l' & Hs & Hl & Hvs & Hpick).
  rewrite Hpick in Hv. injection Hv as <- <-. rewrite Hs.
  destruct (next_ok s c' l' Hl Hvs) as (s1 & -> & Hl1 & Hv1 & Hsc1).
  destruct (hastop_ok s1 Hl1) as (s2 & -> & Hl2 & Hv2 & Hsc2).
  assert (view <$> <[i := s2]> ss = <[i := l']> (view <$> ss)) as Hview
    by (by rewrite list_fmap_insert, Hv2, Hv1).
  assert (scan <$> <[i := s2]> ss = scan <$> ss) as Hscan.
  { rewrite list_fmap_insert. apply list_insert_id. by rewrite list_lookup_fmap, Hs, Hsc2, Hsc1. }
  pose proof (advance_heap ss i h s2 Hh) as Hadv.
  assert (Forall live (<[i := s2]> ss)) as Hss' by by apply Forall_insert.
  assert (has_cell ss i) as Hci by (exists s, c', l'; done).
  destruct Hh as (Hnd & Hin & _). apply NoDup_cons in Hnd as [Hni Hnd].
  assert (Forall (has_cell (<[i := s2]> ss)) h) as HP.
  { apply Forall_forall. intros j Hj. apply has_cell_insert; [done..|]. right. split; [by intros ->|].
    apply Hin. by constructor. }
  rewrite Hv1. case_bool_decide as Hl'; (eexists; split; [done|]); cbn [mi_sources]; rewrite Hview, Hscan;
    (split; [|done]); (split; [done|]); (split; [done|]); cbn [mi_sources mi_h].
  - assert (Forall (has_cell (<[i := s2]> ss)) (i :: h)) as HP'.
    { constructor; [|done]. apply has_cell_insert; [done..|]. left. by rewrite Hv2, Hv1. }
    destruct (heap_Fix_ok (mergeHeap_Less (<[i := s2]> ss)) _ (Less_asym _) (Less_trans _) (i :: h) HP' Hadv) as [Hok Hp].
    split_and!; [rewrite Hp; by constructor| |by rewrite (Permutation_length Hp)].
    intros j. rewrite Hp, has_cell_insert, Hv2, Hv1, elem_of_cons by done.
    specialize (Hin j). rewrite elem_of_cons in Hin. destruct (decide (j = i)) as [->|]; naive_solver.
  - destruct (heap_Pop_ok (mergeHeap_Less (<[i := s2]> ss)) _ (Less_asym _) (Less_trans _) i h HP Hadv) as [Hok Hp].
    split_and!; [by rewrite Hp| |by rewrite (Permutation_length Hp)].
    intros j. rewrite Hp, has_cell_insert, Hv2, Hv1 by done.
    specialize (Hin j). rewrite elem_of_cons in Hin. naive_solver.
Qed.

Lemma sum_bound_ok ss : Forall live ss -> (length (merge_all (view <$> ss)) <= list_sum (bound <$> ss))%nat.
Proof.
  intros Hss. rewrite merge_all_perm, length_concat. induction Hss as [|s ss Hs _ IH]; [done|].
  pose proof (bound_ok s Hs). unfold list_sum in *. cbn [fmap list_fmap map foldr] in *. lia.
Qed.

Lemma mi_view_nonempty m :
  mi_live m -> MergingIterator_HasTop m = bool_decide (merge_all (view <$> mi_sources m) <> []).
Proof.
  intros (He & Hss & Hh). unfold MergingIterator_HasTop. rewrite He. cbn [andb bool_decide].
  destruct (mi_h m) as [|i h] eqn:Eh.
  - rewrite bool_decide_eq_true_2 by done. symmetry. apply bool_decide_eq_false_2. intros Hne. apply Hne.
    destruct (merge_all _) as [|c l] eqn:Em; [done|]. exfalso.
    destruct (merge_all_head _ _ _ Em) as (j & v & Hj). rewrite list_lookup_fmap in Hj.
    destruct (mi_sources m !! j) as [t|] eqn:Et; [|done]. injection Hj as Hj.
    assert (j ∈ []) as []%elem_of_nil. apply Hh. exists t, c, v. split_and!; [done| |done].
    by eapply Forall_lookup_1.
  - destruct (root_pick _ i h Hss Hh) as (s & c & l & _ & _ & _ & ->). by rewrite bool_decide_eq_true_2.
Qed.

#[export, refine] Instance Merging_Laws : SKVILaws (MergingIterator I) := {
  ready m := Forall ready (mi_sources m);
  live := mi_live;
  view m := merge_all (view <$> mi_sources m);
  scan := mi_scan;
}.
Proof.
  - intros m (_ & Hss & _). eapply Forall_impl; [exact Hss|]. intros s. apply live_ready.
  - intros m r cfs incl Hr. apply merge_all_sorted. rewrite Forall_fmap, Forall_fmap.
    eapply Forall_impl; [exact Hr|]. intros s Hs. cbn. by apply scan_sorted.
  - intros m (_ & Hss & _). apply merge_all_sorted. rewrite Forall_fmap.
    eapply Forall_impl; [exact Hss|]. intros s Hs. by apply view_sorted.
  - intros m r cfs incl Hr. cbn [Seek MergingIterator_SKVI]. unfold MergingIterator_Seek.
    destruct (seek_all_ok r cfs incl 0 _ Hr) as (ss & h & -> & Hl & Hv & Hsc & Hnd & Hh).
    eexists. split; [done|]. unfold mi_live, mi_scan. cbn [mi_sources mi_h mi_err]. rewrite Hv, Hsc.
    split; [|done]. split; [done|]. split; [done|].
    assert (forall j, j ∈ h <-> has_cell ss j) as Hin.
    { intros j. rewrite Hh, Nat.sub_0_r. split; [tauto|]. split; [lia|done]. }
    destruct (heap_Init_ok (mergeHeap_Less ss) _ (Less_asym ss) (Less_trans ss) h (h_ok_Forall _ _ Hin)) as [Hok Hp].
    split_and!; [by rewrite Hp| |by rewrite (Permutation_length Hp)]. intros j. by rewrite Hp, Hin.
  - intros m Hm. exists m. split; [|done]. cbn. by rewrite mi_view_nonempty.
  - intros m c l Hm Hv. cbn. unfold MergingIterator_GetTopKey, MergingIterator_GetTopValue.
    destruct Hm as (He & Hss & Hh). destruct (mi_h m) as [|i h] eqn:Eh.
    + exfalso. assert (MergingIterator_HasTop m = true) as Ht.
      { rewrite mi_view_nonempty, Hv by (unfold mi_live; by rewrite Eh). done. }
      unfold MergingIterator_HasTop in Ht. rewrite Eh in Ht. by rewrite andb_false_r in Ht.
    + destruct (root_pick _ i h Hss Hh) as (s & d & u & Hs & Hls & Hvs & Hpick).
      rewrite Hpick in Hv. injection Hv as -> _. rewrite Hs. cbn. by apply (top_ok s c u).
  - intros m c l Hm Hv. destruct (Next_ok m c l Hm Hv) as (m' & Hn & Hm' & Hv' & Hsc).
    exists m'. unfold mi_scan. rewrite Hsc. done.
  - intros m (_ & Hss & _). cbn. by apply sum_bound_ok.
Defined.
End Merge_laws.

(** ** Equal keys keep the order of the sources *)

Lemma list_merge_key k l1 l2 :
  sorted_cells l1 -> sorted_cells l2 ->
  filter (fun c : Cell => c.1 = k) (list_merge cell_le l1 l2) =
    filter (fun c : Cell => c.1 = k) l1 ++ filter (fun c : Cell => c.1 = k) l2.
Proof.
  revert l2. induction l1 as [|c l1 IH1]; intros l2 H1 H2; [by rewrite list_merge_nil_l|].
  pose proof H1 as [H1' Hc]%sorted_cells_cons.
  induction l2 as [|d l2 IH2]; [by rewrite list_merge_nil_r, app_nil_r|].
  pose proof H2 as [H2' Hd]%sorted_cells_cons. rewrite list_merge_cons. case_decide as Hcd.
  - rewrite !(filter_cons _ c), (IH1 (d :: l2) H1' H2). by case_decide.
  - rewrite (filter_cons _ d (list_merge _ _ _)), (IH2 H2'), (filter_cons _ d l2). case_decide as Hk; [|done].
    assert (filter (fun c : Cell => c.1 = k) (c :: l1) = []) as ->; [|done].
    apply filter_none. assert (forall e : Cell, key_le c.1 e.1 -> e.1 <> k) as Hne.
    { intros e He Hek. apply Hcd. unfold cell_le. by rewrite Hk, <- Hek. }
    constructor; [by apply Hne|]. eapply Forall_impl; [exact Hc|]. auto.
Qed.

Lemma merge_all_key k ls :
  Forall sorted_cells ls ->
  filter (fun c : Cell => c.1 = k) (merge_all ls) = concat ((fun l => filter (fun c : Cell => c.1 = k) l) <$> ls).
Proof.
  induction 1 as [|l ls Hl Hls IH]; [done|].
  rewrite merge_all_cons, list_merge_key, IH; [done..|by apply merge_all_sorted].
Qed.

(** C15: reading a merge to its end neither fails nor loops, and surfaces
    every cell of every source exactly once, sorted by key; the cells of one
    full key come out in the order of the sources, newest source first, and
    within a source in that source's order. *)
Theorem merge_is_stable {I} `{SKVILaws I} (sources : list I) r cfs incl :
  Forall ready sources ->
  exists out, seek_drain r cfs incl (NewMergingIterator sources) = Ok out /\
    sorted_cells out /\ out ≡ₚ concat ((fun s => scan s r cfs incl) <$> sources) /\
    forall k, filter (fun c => c.1 = k) out =
      concat ((fun s => filter (fun c => c.1 = k) (scan s r cfs incl)) <$> sources).
Proof.
  intros Hr. assert (Forall sorted_cells ((fun s => scan s r cfs incl) <$> sources)) as Hs.
  { rewrite Forall_fmap. eapply Forall_impl; [exact Hr|]. intros s Hs. by apply scan_sorted. }
  eexists. rewrite seek_drain_ok by done. split; [done|]. cbn [scan Merging_Laws]. unfold mi_scan. cbn [mi_sources NewMergingIterator].
  rewrite <- list_fmap_compose. split_and!.
  - by apply merge_all_sorted.
  - by rewrite merge_all_perm.
  - intros k. by rewrite merge_all_key, <- list_fmap_compose.
Qed.

Lemma merge_is_stable_witness :
  let k := mkKey [1] [] [] [] MaxInt64 false in
  let sources := [NewSliceSource [(k, [2])]; NewSliceSource [(k, [1]); (mkKey [3] [] [] [] 0 false, [])]] in
  exists out, seek_drain InfiniteRange [] false (NewMergingIterator sources) = Ok out /\
    sorted_cells out /\ out ≡ₚ concat ((fun s => scan s InfiniteRange [] false) <$> sources) /\
    forall k, filter (fun c => c.1 = k) out =
      concat ((fun s => filter (fun c => c.1 = k) (scan s InfiniteRange [] false)) <$> sources).
Proof.
  intros k sources. apply (merge_is_stable sources). unfold sources.
  repeat constructor; intros ?; vm_compute in *; discriminate.
Defined.

(** A merge of leaves of two kinds: the memtable's and the files'. *)
#[export] Instance sum_SKVI {A B} `{SKVI A, SKVI B} : SKVI (A + B) := {
  Seek r cfs incl i :=
    match i with
    | inl a => let '(a, e) := Seek r cfs incl a in (inl a, e)
    | inr b => let '(b, e) := Seek r cfs incl b in (inr b, e)
    end;
  Next i :=
    match i with
    | inl a => let '(a, e) := Next a in (inl a, e)
    | inr b => let '(b, e) := Next b in (inr b, e)
    end;
  HasTop i :=
    match i with
    | inl a => let '(a, h) := HasTop a in (inl a, h)
    | inr b => let '(b, h) := HasTop b in (inr b, h)
    end;
  GetTopKey i := match i with inl a => GetTopKey a | inr b => GetTopKey b end;
  GetTopValue i := match i with inl a => GetTopValue a | inr b => GetTopValue b end;
  DeepCopy env i := match i with inl a => inl (DeepCopy env a) | inr b => inr (DeepCopy env b) end;
  bound i := match i with inl a => bound a | inr b => bound b end;
}.

#[export, refine] Instance sum_Laws {A B} `{SKVILaws A, SKVILaws B} : SKVILaws (A + B) := {
  ready i := match i with inl a => ready a | inr b => ready b end;
  live i := match i with inl a => live a | inr b => live b end;
  view i := match i with inl a => view a | inr b => view b end;
  scan i := match i with inl a => scan a | inr b => scan b end;
}.
Proof.
  - intros [a|b]; apply live_ready.
  - intros [a|b]; apply scan_sorted.
  - intros [a|b]; apply view_sorted.
  - intros [a|b] r cfs incl Hi; cbn; destruct (seek_ok _ r cfs incl Hi) as (i' & -> & ?); eauto.
  - intros [a|b] Hi; cbn; destruct (hastop_ok _ Hi) as (i' & -> & ?); eauto.
  - intros [a|b]; intros c l Hi Hv; cbn in *; eapply top_ok; eassumption.
  - intros [a|b] c l Hi Hv; cbn; destruct (next_ok _ c l Hi Hv) as (i' & -> & ?); eauto.
  - intros [a|b] Hi; cbn; by apply bound_ok.
Defined.
