(* ===== verification/Reads.v ===== *)
(** * Reads: what merging and cutting at tombstones commute with

    A read of a coordinate merges the cells of every file there and stops at
    the first tombstone.  Replacing a run of files by their merge, cut at its
    tombstones and keeping them, changes no read. *)

From S2P Require Import Prelude Wire Iter IterLaws Merge.

Abbreviation at_key k := (filter (fun c : Cell => c.1 = k)).

(** Sorted lists are determined by the cells of each key, in order. *)
Lemma key_ext l1 l2 : sorted_cells l1 -> sorted_cells l2 -> (forall k, at_key k l1 = at_key k l2) -> l1 = l2.
Proof.
  revert l2. induction l1 as [|c l1 IH]; intros [|d l2] H1 H2 Hk; [done|..].
  { specialize (Hk d.1). by rewrite filter_cons_True in Hk. }
  { specialize (Hk c.1). by rewrite filter_cons_True in Hk. }
  apply sorted_cells_cons in H1 as [H1 Hc], H2 as [H2 Hd].
  assert (forall (e f : Cell) l l', (forall k, at_key k (e :: l) = at_key k (f :: l')) -> Forall (fun x => key_le f.1 x.1) l' -> key_le f.1 e.1) as Hle.
  { intros e f l l' He Hf. assert (e ∈ at_key e.1 (f :: l')) as Hin by (rewrite <-He, filter_cons_True by done; constructor).
    apply list_elem_of_filter in Hin as [_ Hin]. apply elem_of_cons in Hin as [->|Hin]; [done|]. by apply (proj1 (Forall_forall _ _) Hf). }
  pose proof (Hle c d l1 l2 Hk Hd) as Hdc. pose proof (Hle d c l2 l1 (fun k => eq_sym (Hk k)) Hc) as Hcd.
  assert (c.1 = d.1) as E by (by apply (anti_symm key_le)). pose proof (Hk c.1) as Hh. rewrite !filter_cons_True in Hh by done.
  injection Hh as <- _. f_equal. apply IH; [done..|]. intros k. specialize (Hk k). rewrite !filter_cons in Hk. by case_decide; simplify_eq.
Qed.

Lemma merge_sorted l1 l2 : sorted_cells l1 -> sorted_cells l2 -> sorted_cells (list_merge cell_le l1 l2).
Proof.
  intros H1 H2. replace (list_merge cell_le l1 l2) with (merge_all [l1; l2]) by (by rewrite !merge_all_cons; change (merge_all []) with (@nil Cell); rewrite list_merge_nil_r).
  apply merge_all_sorted. by repeat constructor.
Qed.

Lemma merge_filter (P : Cell -> Prop) `{forall c, Decision (P c)} l1 l2 :
  sorted_cells l1 -> sorted_cells l2 ->
  filter P (list_merge cell_le l1 l2) = list_merge cell_le (filter P l1) (filter P l2).
Proof.
  intros H1 H2. pose proof (sorted_cells_filter P _ H1) as F1. pose proof (sorted_cells_filter P _ H2) as F2.
  apply key_ext; [by apply sorted_cells_filter, merge_sorted|by apply merge_sorted|]. intros k.
  rewrite (list_merge_key k) by done.
  assert (forall l : list Cell, at_key k (filter P l) = filter P (at_key k l)) as Hc.
  { intros l. rewrite !list_filter_filter. apply list_filter_iff. tauto. }
  by rewrite !Hc, list_merge_key, filter_app.
Qed.

Lemma merge_assoc l1 l2 l3 :
  sorted_cells l1 -> sorted_cells l2 -> sorted_cells l3 ->
  list_merge cell_le l1 (list_merge cell_le l2 l3) = list_merge cell_le (list_merge cell_le l1 l2) l3.
Proof.
  intros H1 H2 H3. apply key_ext; [by repeat apply merge_sorted..|]. intros k.
  rewrite !list_merge_key by (done || by apply merge_sorted). by rewrite (assoc_L (++)).
Qed.

Lemma merge_all_app a b :
  Forall sorted_cells a -> Forall sorted_cells b -> merge_all (a ++ b) = list_merge cell_le (merge_all a) (merge_all b).
Proof.
  intros Ha Hb. induction Ha as [|l a Hl Ha IH]; [change (merge_all []) with (@nil Cell); by rewrite list_merge_nil_l|]. cbn [app]. rewrite !merge_all_cons, IH.
  apply merge_assoc; [done|by apply merge_all_sorted..].
Qed.

Lemma merge_all_filter (P : Cell -> Prop) `{forall c, Decision (P c)} ls :
  Forall sorted_cells ls -> filter P (merge_all ls) = merge_all (filter P <$> ls).
Proof.
  induction 1 as [|l ls Hl Hls IH]; [done|]. cbn [fmap list_fmap]. rewrite !merge_all_cons, <-IH. by apply merge_filter, merge_all_sorted.
Qed.

Lemma at_coord_merge x l1 l2 :
  sorted_cells l1 -> sorted_cells l2 -> at_coord x (list_merge cell_le l1 l2) = list_merge cell_le (at_coord x l1) (at_coord x l2).
Proof. apply merge_filter. Qed.

Lemma at_coord_merge_all x ls : Forall sorted_cells ls -> at_coord x (merge_all ls) = merge_all (at_coord x <$> ls).
Proof.
  induction 1 as [|l ls Hl Hls IH]; [done|]. rewrite fmap_cons, !merge_all_cons, <-IH. apply merge_filter; [done|by apply merge_all_sorted].
Qed.

(** In order already, a merge is an append. *)
Lemma merge_in_order l1 l2 : sorted_cells (l1 ++ l2) -> list_merge cell_le l1 l2 = l1 ++ l2.
Proof.
  intros Hs. assert (sorted_cells l1 /\ sorted_cells l2) as [H1 H2].
  { split; (eapply sorted_cells_sublist; [|exact Hs]); [by apply sublist_inserts_r|by apply sublist_inserts_l]. }
  apply key_ext; [by apply merge_sorted|done|]. intros k. by rewrite list_merge_key, filter_app.
Qed.

(** ** Cutting at tombstones *)

Lemma until_delete_idem p l : until_delete p (until_delete true l) = until_delete p l.
Proof. induction l as [|c l IH]; [done|]. cbn [until_delete]. destruct (Deleted c.1) eqn:E; cbn [until_delete]; rewrite E; [done|by rewrite IH]. Qed.

Lemma until_delete_twice l : until_delete false (until_delete false l) = until_delete false l.
Proof. induction l as [|c l IH]; [done|]. cbn [until_delete]. destruct (Deleted c.1) eqn:E; cbn [until_delete]; [done|by rewrite E, IH]. Qed.

Lemma until_delete_split l : until_delete false l ++ filter (fun c => negb (Deleted c.1) = false) (until_delete true l) = until_delete true l.
Proof.
  induction l as [|c l IH]; [done|]. cbn [until_delete]. destruct (Deleted c.1) eqn:E; rewrite filter_cons, E; cbn [negb].
  - by rewrite decide_True.
  - rewrite decide_False by done. cbn [app]. by rewrite IH.
Qed.

Lemma cut_merge_l p l1 l2 :
  until_delete p (list_merge cell_le (until_delete true l1) l2) = until_delete p (list_merge cell_le l1 l2).
Proof.
  revert l2. induction l1 as [|c l1 IH1]; intros l2; [done|]. cbn [until_delete]. destruct (Deleted c.1) eqn:Ec.
  - induction l2 as [|d l2 IH2]; [rewrite !list_merge_nil_r; cbn [until_delete]; by rewrite Ec|].
    rewrite !list_merge_cons. case_decide; cbn [until_delete]; [by rewrite Ec|]. destruct (Deleted d.1); [done|]. by rewrite IH2.
  - induction l2 as [|d l2 IH2].
    { rewrite !list_merge_nil_r. cbn [until_delete]. by rewrite Ec, until_delete_idem. }
    rewrite !list_merge_cons. case_decide; cbn [until_delete]; [by rewrite Ec, IH1|]. destruct (Deleted d.1); [done|]. by rewrite IH2.
Qed.

Lemma cut_merge_r p l1 l2 :
  until_delete p (list_merge cell_le l1 (until_delete true l2)) = until_delete p (list_merge cell_le l1 l2).
Proof.
  revert l2. induction l1 as [|c l1 IH1]; intros l2; [rewrite !list_merge_nil_l; apply until_delete_idem|].
  induction l2 as [|d l2 IH2]; [done|]. cbn [until_delete]. destruct (Deleted d.1) eqn:Ed.
  - rewrite !list_merge_cons. case_decide; cbn [until_delete]; [|by rewrite Ed]. destruct (Deleted c.1); [done|].
    specialize (IH1 (d :: l2)). cbn [until_delete] in IH1. rewrite Ed in IH1. by rewrite IH1.
  - rewrite !list_merge_cons. case_decide; cbn [until_delete]; [|by rewrite Ed, IH2]. destruct (Deleted c.1); [done|].
    specialize (IH1 (d :: l2)). cbn [until_delete] in IH1. rewrite Ed in IH1. by rewrite IH1.
Qed.

(** What a coordinate reads as over a list of sources, newest first. *)
Definition read_coord (x : coordinate) (ls : list (list Cell)) : list Cell := until_delete false (at_coord x (merge_all ls)).

(** Sources that cut to the same cells may replace each other anywhere. *)
Lemma read_coord_replace x newer a b older :
  Forall sorted_cells newer -> Forall sorted_cells a -> Forall sorted_cells b -> Forall sorted_cells older ->
  until_delete true (at_coord x (merge_all a)) = until_delete true (at_coord x (merge_all b)) ->
  read_coord x (newer ++ a ++ older) = read_coord x (newer ++ b ++ older).
Proof.
  intros Hn Ha Hb Ho Hab. unfold read_coord.
  assert (forall c, Forall sorted_cells c -> until_delete false (at_coord x (merge_all (newer ++ c ++ older))) =
    until_delete false (list_merge cell_le (at_coord x (merge_all newer))
      (until_delete true (list_merge cell_le (until_delete true (at_coord x (merge_all c))) (at_coord x (merge_all older)))))) as Hc.
  { intros c Hc. rewrite cut_merge_l, cut_merge_r, <-!at_coord_merge by (repeat apply merge_sorted; by apply merge_all_sorted).
    by rewrite !merge_all_app by (try apply Forall_app; done). }
  by rewrite (Hc a Ha), (Hc b Hb), Hab.
Qed.
