(* ===== verification/History.v ===== *)
(** * History: reads as a function of what was written

    A store's history is the list of cells written, oldest first.  For every
    full key its sources hold a latest cell, the one of the newest source;
    when that is the last one written for every key, a read of any set of keys
    delivers the newest cell of the history: the first in key order, and of
    equal keys the last written. *)

From S2P Require Import Prelude Wire Iter IterLaws Merge Reads.

(** What the sources, newest first, hold for a full key. *)
Definition latest (k : Key) (ls : list (list Cell)) : option Cell := head (concat (at_key k <$> ls)).

Lemma latest_nil k : latest k [] = None.
Proof. done. Qed.

Lemma latest_cons k l ls : latest k (l :: ls) = match head (at_key k l) with Some c => Some c | None => latest k ls end.
Proof. unfold latest. rewrite fmap_cons. cbn [concat]. by destruct (at_key k l). Qed.

Lemma latest_app k a b : latest k (a ++ b) = match latest k a with Some c => Some c | None => latest k b end.
Proof. induction a as [|l a IH]; [done|]. cbn [app]. rewrite !latest_cons, IH. by destruct (head (at_key k l)). Qed.

Lemma latest_merge k ls : Forall sorted_cells ls -> latest k ls = head (at_key k (merge_all ls)).
Proof. intros Hs. unfold latest. by rewrite merge_all_key. Qed.

(** The newest cell of a history among the keys [P] accepts. *)
Definition newer (P : Key -> bool) (best : option Cell) (c : Cell) : option Cell :=
  if P c.1 then match best with Some b => if decide (key_le c.1 b.1) then Some c else best | None => Some c end else best.
Definition newest (P : Key -> bool) (hist : list Cell) : option Cell := foldl (newer P) None hist.

Lemma newest_snoc P hist c : newest P (hist ++ [c]) = newer P (newest P hist) c.
Proof. unfold newest. by rewrite foldl_app. Qed.

Lemma at_key_last k hist c : last (at_key k (hist ++ [c])) = if decide (c.1 = k) then Some c else last (at_key k hist).
Proof.
  rewrite filter_app, filter_cons, filter_nil. case_decide; [by rewrite last_snoc|by rewrite app_nil_r].
Qed.

Lemma newest_Some P hist c :
  newest P hist = Some c ->
  P c.1 = true /\ last (at_key c.1 hist) = Some c /\ forall d, d ∈ hist -> P d.1 = true -> key_le c.1 d.1.
Proof.
  revert c. induction hist as [|d hist IH] using rev_ind; intros c; [done|]. rewrite newest_snoc, at_key_last. unfold newer.
  assert (forall b, newest P hist = Some b -> b.1 <> d.1 \/ P d.1 = true -> Some b = Some c -> (P d.1 = true -> key_le c.1 d.1) -> d.1 <> c.1 ->
    P c.1 = true /\ (if decide (d.1 = c.1) then Some d else last (at_key c.1 hist)) = Some c /\
    (forall e, e ∈ hist ++ [d] -> P e.1 = true -> key_le c.1 e.1)) as Hkeep.
  { intros b Hb _ [= ->] Hle Hne. destruct (IH c Hb) as (H1 & H2 & H3). split; [done|]. split; [by case_decide|].
    intros e [He|He%list_elem_of_singleton]%elem_of_app; [by apply H3|]. subst e. done. }
  destruct (P d.1) eqn:EP.
  - destruct (newest P hist) as [b|] eqn:Eb.
    + destruct (IH b eq_refl) as (H1 & H2 & H3). destruct (decide (key_le d.1 b.1)) as [Hle|Hle].
      * intros [= <-]. split; [done|]. split; [by case_decide|]. intros e [He|He%list_elem_of_singleton]%elem_of_app; [|by subst e].
        intros HPe. etrans; [exact Hle|]. by apply H3.
      * intros H. apply (Hkeep b); [done|by right|done|..]; injection H as <-.
        -- intros _. destruct (total key_le b.1 d.1); [done|]. done.
        -- intros E. apply Hle. by rewrite E.
    + intros [= <-]. split; [done|]. split; [by case_decide|]. intros e [He|He%list_elem_of_singleton]%elem_of_app; [|by subst e].
      intros HPe. exfalso. clear Hkeep IH. assert (forall h, e ∈ h -> newest P h <> None) as Hn; [|by apply (Hn hist)].
      intros h. induction h as [|f h IHh] using rev_ind; [by intros ?%elem_of_nil|]. rewrite newest_snoc. unfold newer.
      intros [Hin|Hin%list_elem_of_singleton]%elem_of_app.
      * specialize (IHh Hin). destruct (P f.1), (newest P h); [|done..]. by case_decide.
      * subst f. rewrite HPe. destruct (newest P h); [by case_decide|done].
  - intros H. destruct (IH c H) as (H1 & _). assert (c.1 <> d.1) by congruence. apply (Hkeep c); [done|by left|done..|congruence].
Qed.

Lemma newest_None P hist : newest P hist = None -> Forall (fun c => P c.1 = false) hist.
Proof.
  induction hist as [|c hist IH] using rev_ind; [by constructor|]. rewrite newest_snoc. unfold newer. intros H. apply Forall_app.
  destruct (P c.1) eqn:E.
  - destruct (newest P hist); [|done]. by case_decide.
  - split; [by apply IH|by repeat constructor].
Qed.

(** The first cell of a sorted stream among the keys [P] accepts. *)
Lemma head_filter (P : Key -> bool) l c :
  sorted_cells l -> head (filter (fun d => P d.1 = true) l) = Some c ->
  P c.1 = true /\ head (at_key c.1 l) = Some c /\ forall d, d ∈ l -> P d.1 = true -> key_le c.1 d.1.
Proof.
  induction l as [|d l IH]; [done|]. intros [Hs Hd]%sorted_cells_cons. rewrite filter_cons. case_decide as HP.
  - intros [= <-]. split; [done|]. split; [by rewrite filter_cons_True|]. intros e [->|He]%elem_of_cons _; [done|].
    by apply (proj1 (Forall_forall _ _) Hd).
  - intros H. destruct (IH Hs H) as (H1 & H2 & H3). split; [done|]. split.
    + rewrite filter_cons_False; [done|]. intros E. apply HP. by rewrite E.
    + intros e [->|He]%elem_of_cons; [done|]. by apply H3.
Qed.

(** ** Reads are those of the history *)

Definition reads_history (ls : list (list Cell)) (hist : list Cell) : Prop := forall k, latest k ls = last (at_key k hist).

Lemma head_Some_elem {A} (l : list A) a : head l = Some a -> a ∈ l.
Proof. destruct l; [done|]. intros [= ->]. constructor. Qed.

Lemma last_at_key k l c : last (at_key k l) = Some c -> c.1 = k /\ c ∈ l.
Proof. intros H%last_Some_elem_of. by apply list_elem_of_filter in H. Qed.

Lemma head_at_key k l c : head (at_key k l) = Some c -> c.1 = k /\ c ∈ l.
Proof. intros H%head_Some_elem. by apply list_elem_of_filter in H. Qed.

Lemma read_newest P ls hist :
  Forall sorted_cells ls -> reads_history ls hist -> head (filter (fun d => P d.1 = true) (merge_all ls)) = newest P hist.
Proof.
  intros Hs Hh. pose proof (merge_all_sorted _ Hs) as Hm.
  assert (forall k, head (at_key k (merge_all ls)) = last (at_key k hist)) as Hk by (intros k; rewrite <-latest_merge by done; apply Hh).
  assert (forall c, c ∈ hist -> exists d, d ∈ merge_all ls /\ d.1 = c.1) as H1.
  { intros c Hc. specialize (Hk c.1). destruct (last (at_key c.1 hist)) as [d|] eqn:E.
    - destruct (head_at_key _ _ _ Hk). by exists d.
    - apply last_None in E. assert (c ∈ at_key c.1 hist) as Hin by (by apply list_elem_of_filter). rewrite E in Hin. by apply elem_of_nil in Hin. }
  assert (forall c, c ∈ merge_all ls -> exists d, d ∈ hist /\ d.1 = c.1) as H2.
  { intros c Hc. specialize (Hk c.1). destruct (head (at_key c.1 (merge_all ls))) as [d|] eqn:E.
    - symmetry in Hk. destruct (last_at_key _ _ _ Hk). by exists d.
    - assert (c ∈ at_key c.1 (merge_all ls)) as Hin by (by apply list_elem_of_filter). destruct (at_key c.1 (merge_all ls)); [by apply elem_of_nil in Hin|done]. }
  destruct (head (filter _ (merge_all ls))) as [c|] eqn:Eh.
  - destruct (head_filter P _ c Hm Eh) as (Hc1 & Hc2 & Hc3). destruct (newest P hist) as [d|] eqn:En.
    + destruct (newest_Some P hist d En) as (Hd1 & Hd2 & Hd3). rewrite Hk in Hc2.
      assert (c.1 = d.1) as E.
      { apply (anti_symm key_le).
        - destruct (H1 d) as (e & He & Ee); [by apply (last_at_key d.1)|]. rewrite <-Ee. apply Hc3; [done|by rewrite Ee].
        - apply Hd3; [|done]. by apply (last_at_key c.1). }
      rewrite E in Hc2. congruence.
    + apply newest_None in En. destruct (H2 c) as (e & He & Ee).
      { apply head_Some_elem in Eh. apply list_elem_of_filter in Eh. tauto. }
      pose proof (proj1 (Forall_forall _ _) En e He) as Hx. cbn beta in Hx. rewrite Ee in Hx. congruence.
  - destruct (newest P hist) as [d|] eqn:En; [|done]. destruct (newest_Some P hist d En) as (Hd1 & Hd2 & _).
    destruct (H1 d) as (e & He & Ee); [by apply (last_at_key d.1)|].
    assert (e ∈ filter (fun d => P d.1 = true) (merge_all ls)) as Hin by (apply list_elem_of_filter; by rewrite Ee).
    destruct (filter _ _); [by apply elem_of_nil in Hin|done].
Qed.
