(* ===== verification/Stack.v ===== *)
(** * Stack: validating and building iterator stacks
    (src/internal/iterrt: registry.go, stack.go)

    An [Iterator] is a Go interface value: a dynamic type with its method
    table, and the value; it carries the laws of its type.  [BuildStack] folds
    the registry's constructors over the leaf.  The registry is an argument:
    the theorems hold of any registry that maps the four names modelled in
    [IterStack] to their registrations, whatever else it holds. *)

From stdpp Require Import sorting strings.
From S2P Require Import Prelude Wire VisFilter Iter IterStack IterLaws Merge.
From Stdlib Require Import Ascii.

(** ** Capabilities (registry.go) *)

Inductive CapabilityContext := ContextUnknown | ContextScan | ContextMinc | ContextMajc | ContextOffline.

#[export] Instance CapabilityContext_eq_dec : EqDecision CapabilityContext.
Proof. solve_decision. Defined.

Definition ContextFromScope (scope : IteratorScope) : CapabilityContext :=
  match scope with
  | ScopeScan => ContextScan
  | ScopeMinc => ContextMinc
  | ScopeMajc => ContextMajc
  end.

(** An interface value. *)
Record Iterator := mkIter {
  it_T : Type;
  it_ops : SKVI it_T;
  it_laws : @SKVILaws it_T it_ops;
  it_val : it_T;
}.

(** The match of a pattern; [None] is the panic of a slice expression whose
    bounds cross. *)
Abbreviation iteratorOptionPattern := (string -> option bool).

Record iteratorRegistration := mkReg {
  reg_Name : string;
  reg_Contexts : list CapabilityContext;
  reg_ActiveContexts : list CapabilityContext;
  reg_OptionKeys : list string;
  reg_patterns : list iteratorOptionPattern;
  (** [reg.new().Init(source, options, env)] *)
  reg_new : Iterator -> options -> IteratorEnvironment -> result Iterator;
}.

Record IterSpec := mkSpec { Name : string; Options : options }.

Inductive ValidationIssue :=
  | UnsupportedIteratorContextError (name : string) (ctx : CapabilityContext) (supported : list CapabilityContext)
  | UnsupportedIteratorOptionError (name option : string) (ctx : CapabilityContext).

Inductive ValidationError :=
  | UnknownIteratorError (name : string)
  | SingleIssue (issue : ValidationIssue)
  | IteratorValidationError (name : string) (ctx : CapabilityContext) (issues : list ValidationIssue).

(** *** Option patterns *)

Fixpoint allDigits_loop (s : string) : bool :=
  match s with
  | EmptyString => true
  | String c s => match digit c with Some _ => allDigits_loop s | None => false end
  end.

Definition allDigits (s : string) : bool :=
  match s with EmptyString => false | _ => allDigits_loop s end.

Definition HasPrefix (s p : string) : bool := String.prefix p s.

Definition HasSuffix (s p : string) : bool :=
  (String.length p <=? String.length s)%nat &&
  bool_decide (String.substring (String.length s - String.length p) (String.length p) s = p).

(** [s\[lo:hi\]]: a panic when the bounds cross or pass the end. *)
Definition slice (s : string) (lo hi : nat) : option string :=
  if ((lo <=? hi) && (hi <=? String.length s))%nat then Some (String.substring lo (hi - lo) s) else None.

Definition numericIndexPattern (prefix : string) : iteratorOptionPattern := fun key =>
  if negb (HasPrefix key prefix) then Some false
  else allDigits <$> slice key (String.length prefix) (String.length key).

Definition numericIndexSuffixPattern (prefix suffix : string) : iteratorOptionPattern := fun key =>
  if negb (HasPrefix key prefix) || negb (HasSuffix key suffix) then Some false
  else allDigits <$> slice key (String.length prefix) (String.length key - String.length suffix).

(** *** Validation; [None] is a panic of a pattern *)

Definition supportsContext (r : iteratorRegistration) (ctx : CapabilityContext) : bool :=
  existsb (fun supported => bool_decide (supported = ctx)) (reg_Contexts r).

Fixpoint match_patterns (ps : list iteratorOptionPattern) (key : string) : option bool :=
  match ps with
  | [] => Some false
  | p :: ps =>
      match p key with
      | Some false => match_patterns ps key
      | matched => matched
      end
  end.

Definition supportsOption (r : iteratorRegistration) (key : string) : option bool :=
  if existsb (fun exact => bool_decide (key = exact)) (reg_OptionKeys r) then Some true
  else match_patterns (reg_patterns r) key.

(** The keys are tried in the order of [sort.Strings]. *)
Definition sorted_keys (o : options) : list string := merge_sort stdpp.strings.String.le (map_to_list o).*1.

Fixpoint invalid_loop (r : iteratorRegistration) (keys : list string) : option (list string) :=
  match keys with
  | [] => Some []
  | key :: keys =>
      ok ← supportsOption r key;
      rest ← invalid_loop r keys;
      Some (if (ok : bool) then rest else key :: rest)
  end.

Definition invalidOptions (r : iteratorRegistration) (o : options) : option (list string) :=
  if bool_decide (o = ∅) then Some [] else invalid_loop r (sorted_keys o).

Section registry.
  Context (registryByName : gmap string iteratorRegistration).

(** The outer [option] is a panic, the inner one a nil error. *)
Definition ValidateSpec (spec : IterSpec) (ctx : CapabilityContext) : option (option ValidationError) :=
  match registryByName !! Name spec with
  | None => Some (Some (UnknownIteratorError (Name spec)))
  | Some reg =>
      bad ← invalidOptions reg (Options spec);
      let issues :=
        (if supportsContext reg ctx then []
         else [UnsupportedIteratorContextError (Name spec) ctx (reg_Contexts reg)]) ++
        ((fun o => UnsupportedIteratorOptionError (Name spec) o ctx) <$> bad) in
      Some (match issues with
      | [] => None
      | [issue] => Some (SingleIssue issue)
      | _ => Some (IteratorValidationError (Name spec) ctx issues)
      end)
  end.

(** The issues of the [StackValidationError], with their positions; an empty
    list is a nil error. *)
Fixpoint ValidateStack (i : nat) (specs : list IterSpec) (ctx : CapabilityContext)
  : option (list (nat * ValidationError)) :=
  match specs with
  | [] => Some []
  | spec :: specs =>
      e ← ValidateSpec spec ctx;
      rest ← ValidateStack (S i) specs ctx;
      Some (match e with Some e => (i, e) :: rest | None => rest end)
  end.

Inductive StackError :=
  | StackPanic
  | StackValidationError (ctx : CapabilityContext) (issues : list (nat * ValidationError))
  | StackUnknown (position : nat) (name : string)
  | StackInit (position : nat) (name : string) (e : err).

Definition newIterator (name : string) : option (Iterator -> options -> IteratorEnvironment -> result Iterator) :=
  reg_new <$> registryByName !! name.

Fixpoint BuildStack_loop (i : nat) (cur : Iterator) (specs : list IterSpec) (env : IteratorEnvironment)
  : StackError + Iterator :=
  match specs with
  | [] => inr cur
  | spec :: specs =>
      match newIterator (Name spec) with
      | None => inl (StackUnknown i (Name spec))
      | Some new =>
          match new cur (Options spec) env with
          | Err e => inl (StackInit i (Name spec) e)
          | Ok next => BuildStack_loop (S i) next specs env
          end
      end
  end.

Definition BuildStack (leaf : Iterator) (specs : list IterSpec) (env : IteratorEnvironment)
  : StackError + Iterator :=
  let ctx := ContextFromScope (Scope env) in
  match ValidateStack 0 specs ctx with
  | None => inl StackPanic
  | Some [] => BuildStack_loop 0 leaf specs env
  | Some issues => inl (StackValidationError ctx issues)
  end.
End registry.

(** ** The registrations of the modelled iterators *)

Definition all_contexts : list CapabilityContext := [ContextScan; ContextMinc; ContextMajc; ContextOffline].

Definition reg_versioning : iteratorRegistration :=
  mkReg "versioning" all_contexts all_contexts ["maxVersions"%string] []
    (fun src o env => let '(mkIter T ops laws v) := src in
      it ← VersioningIterator_Init (Some v) o;
      Ok (mkIter (VersioningIterator T) _ Versioning_Laws it)).

Definition reg_visibility : iteratorRegistration :=
  mkReg "visibility" all_contexts [ContextScan] [] []
    (fun src o env => let '(mkIter T ops laws v) := src in
      it ← VisibilityFilter_Init (Some v) env;
      Ok (mkIter (VisibilityFilter T) _ Visibility_Laws it)).

Definition reg_deleting : iteratorRegistration :=
  mkReg "deleting" all_contexts all_contexts ["propagateDeletes"%string; "behavior"%string] []
    (fun src o env => let '(mkIter T ops laws v) := src in
      it ← DeletingIterator_Init (Some v) o env;
      Ok (mkIter (DeletingIterator T) _ Deleting_Laws it)).

Definition reg_asOf : iteratorRegistration :=
  mkReg "asOf" [ContextScan] [ContextScan] ["asOfTimestamp"%string] []
    (fun src o env => let '(mkIter T ops laws v) := src in
      it ← AsOfIterator_Init (Some v) o;
      Ok (mkIter (AsOfIterator T) _ AsOf_Laws it)).

(** The registry's patterned entry for the document index: its constructor is
    not modelled, its option patterns are. *)
Definition documentIndex_patterns : list iteratorOptionPattern :=
  [numericIndexPattern "shard.";
   numericIndexSuffixPattern "term." ".field";
   numericIndexSuffixPattern "term." ".value"].

Definition base_registry : gmap string iteratorRegistration :=
  list_to_map ((fun r => (reg_Name r, r)) <$> [reg_versioning; reg_visibility; reg_deleting; reg_asOf]).

(** ** What a stack denotes *)

(** A leaf's scans, as [scan] gives them. *)
Abbreviation scans := (Range -> list bytes -> bool -> list Cell).

Definition it_ready (i : Iterator) : Prop :=
  let '(mkIter T ops laws v) := i in ready v.
Definition it_scan (i : Iterator) : scans :=
  let '(mkIter T ops laws v) := i in scan v.

(** Seeking an interface value and reading it to the end, as [Tablet.Scan] and
    its scanner do. *)
Definition run (r : Range) (cfs : list bytes) (incl : bool) (i : Iterator) : result (list Cell) :=
  let '(mkIter T ops laws v) := i in seek_drain r cfs incl v.

(** One layer of a stack, after its options have been read. *)
Inductive layer :=
  | LAsOf (ceiling : Z)
  | LVisibility (active : bool) (auths : Authorizations)
  | LVersioning (max : Z)
  | LDeleting (propagate : bool).

Definition denote_layer (l : layer) (f : scans) : scans := fun r cfs incl =>
  match l with
  | LAsOf c => filter (fun x => too_new c x.1 = false) (f r cfs incl)
  | LVisibility act auths => filter (fun x => hidden act auths x.1 = false) (f r cfs incl)
  | LVersioning max => versions max None 0 (f r cfs incl)
  | LDeleting p =>
      filter (fun x => BeforeStart r x.1 = false) (apply_deletes p None (f (maximize_start r) cfs incl))
  end.

(** The layer a specification configures; [fail]-mode deleting is left out. *)
Definition read_layer (env : IteratorEnvironment) (spec : IterSpec) : option layer :=
  if bool_decide (Name spec = "asOf"%string) then
    match option_set (Options spec) "asOfTimestamp" with
    | None => Some (LAsOf 0)
    | Some s => n ← ParseInt s; Some (LAsOf (if n >? 0 then n else 0))
    end
  else if bool_decide (Name spec = "visibility"%string) then
    Some (LVisibility (env_active env) (NewAuthorizations (default [] (Auths env))))
  else if bool_decide (Name spec = "versioning"%string) then
    max ← match option_set (Options spec) "maxVersions" with None => Some 1 | Some s => ParseInt s end;
    if max <? 1 then None else Some (LVersioning max)
  else if bool_decide (Name spec = "deleting"%string) then
    p ← match option_set (Options spec) "propagateDeletes" with
        | None => Some (negb (bool_decide (Scope env = ScopeMajc) && FullMajorCompaction env))
        | Some s => ParseBool s
        end;
    match option_set (Options spec) "behavior" with
    | None => Some (LDeleting p)
    | Some s => if bool_decide (s ∈ ["process"; "PROCESS"]%string) then Some (LDeleting p) else None
    end
  else None.

Fixpoint denote (ls : list layer) (f : scans) : scans :=
  match ls with [] => f | l :: ls => denote ls (denote_layer l f) end.

(** The registry holds the modelled registrations. *)
Definition registry_ok (reg : gmap string iteratorRegistration) : Prop := base_registry ⊆ reg.

Lemma base_registry_ok : registry_ok base_registry.
Proof. unfold registry_ok. done. Qed.

Lemma newIterator_base reg name r :
  registry_ok reg -> base_registry !! name = Some r -> newIterator reg name = Some (reg_new r).
Proof. intros Hr Hn. unfold newIterator. by rewrite (lookup_weaken _ _ _ _ Hn Hr). Qed.

Lemma base_registry_entry r :
  r ∈ [reg_versioning; reg_visibility; reg_deleting; reg_asOf] -> base_registry !! reg_Name r = Some r.
Proof.
  intros Hr. apply elem_of_list_to_map_1.
  - cbn. apply (bool_decide_unpack _). by vm_compute.
  - apply list_elem_of_fmap. eauto.
Qed.

(** Initialising one layer. *)
Definition inits_to (r : iteratorRegistration) (env : IteratorEnvironment) (o : options) (l : layer) : Prop :=
  forall src, it_ready src -> exists it,
    reg_new r src o env = Ok it /\ it_ready it /\ it_scan it = denote_layer l (it_scan src).

Lemma asOf_inits env o l :
  read_layer env (mkSpec "asOf" o) = Some l -> inits_to reg_asOf env o l.
Proof.
  unfold read_layer; cbn [Name Options]. rewrite bool_decide_eq_true_2 by done. intros Hl [T ops laws v] Hsrc.
  cbn [reg_new reg_asOf]. unfold AsOfIterator_Init.
  destruct (option_set o "asOfTimestamp") as [s|]; [destruct (ParseInt s) as [n|]; [|done]|];
    injection Hl as <-; eexists; split; done.
Qed.

Lemma visibility_inits env o l :
  read_layer env (mkSpec "visibility" o) = Some l -> inits_to reg_visibility env o l.
Proof.
  unfold read_layer; cbn [Name Options].
  rewrite bool_decide_eq_false_2, bool_decide_eq_true_2 by done. intros [= <-] [T ops laws v] Hsrc.
  eexists. split; [done|]. split; [|done]. split; [done|]. intros cv r. cbn. by rewrite lookup_empty.
Qed.

Lemma versioning_inits env o l :
  read_layer env (mkSpec "versioning" o) = Some l -> inits_to reg_versioning env o l.
Proof.
  unfold read_layer; cbn [Name Options].
  rewrite !bool_decide_eq_false_2, bool_decide_eq_true_2 by done. intros Hl [T ops laws v] Hsrc.
  cbn [reg_new reg_versioning]. unfold VersioningIterator_Init.
  destruct (option_set o "maxVersions") as [s|]; [destruct (ParseInt s) as [n|]; [|done]|];
    cbn in Hl |- *.
  - destruct (Z.ltb_spec n 1); [done|]. injection Hl as <-. eexists. split; [done|]. by split.
  - injection Hl as <-. eexists. split; [done|]. by split.
Qed.

Lemma deleting_inits env o l :
  read_layer env (mkSpec "deleting" o) = Some l -> inits_to reg_deleting env o l.
Proof.
  unfold read_layer; cbn [Name Options].
  rewrite !bool_decide_eq_false_2, bool_decide_eq_true_2 by done. intros Hl [T ops laws v] Hsrc.
  cbn [reg_new reg_deleting]. unfold DeletingIterator_Init.
  destruct (option_set o "propagateDeletes") as [s|]; [destruct (ParseBool s) as [p|]; [|done]|];
    (destruct (option_set o "behavior") as [b|];
      [destruct (decide (b ∈ ["process"; "PROCESS"]%string)) as [Hb|Hb];
        [rewrite (bool_decide_eq_true_2 _ Hb) in Hl |- *|by rewrite (bool_decide_eq_false_2 _ Hb) in Hl]|]);
    cbn in Hl |- *; injection Hl as <-; eexists; split; done.
Qed.

Lemma read_layer_inits env spec l :
  read_layer env spec = Some l ->
  exists r, r ∈ [reg_versioning; reg_visibility; reg_deleting; reg_asOf] /\
    Name spec = reg_Name r /\ inits_to r env (Options spec) l.
Proof.
  destruct spec as [name o]. intros Hl. pose proof Hl as Hl'. unfold read_layer in Hl; cbn [Name Options] in Hl.
  case_bool_decide; [subst; exists reg_asOf; split_and!; [set_solver|done|by apply asOf_inits]|].
  case_bool_decide; [subst; exists reg_visibility; split_and!; [set_solver|done|by apply visibility_inits]|].
  case_bool_decide; [subst; exists reg_versioning; split_and!; [set_solver|done|by apply versioning_inits]|].
  case_bool_decide; [subst; exists reg_deleting; split_and!; [set_solver|done|by apply deleting_inits]|done].
Qed.

(** Building over a ready leaf succeeds and denotes the layers' composition. *)
Lemma BuildStack_loop_denotes reg env specs ls i leaf :
  registry_ok reg -> mapM (read_layer env) specs = Some ls -> it_ready leaf ->
  exists top, BuildStack_loop reg i leaf specs env = inr top /\ it_ready top /\
    it_scan top = denote ls (it_scan leaf).
Proof.
  intros Hr. revert ls i leaf. induction specs as [|spec specs IH]; intros ls i leaf Hls Hleaf.
  { injection Hls as <-. by exists leaf. }
  cbn in Hls. destruct (read_layer env spec) as [l|] eqn:El; [|done]. cbn in Hls.
  destruct (mapM (read_layer env) specs) as [ls'|] eqn:Els; [|done]. injection Hls as <-.
  destruct (read_layer_inits _ _ _ El) as (r & Hin & Hname & Hinit).
  destruct (Hinit leaf Hleaf) as (it & Hnew & Hit & Hscan).
  destruct (IH ls' (S i) it eq_refl Hit) as (top & Htop & Hready & Hden).
  exists top. cbn [BuildStack_loop].
  rewrite (newIterator_base reg _ r Hr) by (rewrite Hname; by apply base_registry_entry).
  rewrite Hnew, Htop. cbn [denote]. rewrite <- Hscan. done.
Qed.

Lemma it_scan_sorted i r cfs incl : it_ready i -> sorted_cells (it_scan i r cfs incl).
Proof. destruct i as [T ops laws v]. apply scan_sorted. Qed.

(** Seeking a ready iterator and draining it surfaces its scan. *)
Lemma run_ready r cfs incl i : it_ready i -> run r cfs incl i = Ok (it_scan i r cfs incl).
Proof.
  destruct i as [T ops laws v]. apply seek_drain_ok.
Qed.

(** ** The scan stack of the query backends
    (internal/shoalql/accumulobackend: normalizedScanStack) *)

Definition normalizedScanStack (query : list IterSpec) : list IterSpec :=
  let before := filter (fun spec => Name spec = "asOf"%string) query in
  let after := filter (fun spec => Name spec <> "asOf"%string) query in
  before ++
  [mkSpec "deleting" {["propagateDeletes"%string := "false"%string]};
   mkSpec "visibility" ∅;
   mkSpec "versioning" {["maxVersions"%string := "1"%string]}] ++
  after.

Lemma filter_hidden_at act auths x l :
  filter (fun c => hidden act auths c.1 = false) (at_coord x l) =
    if act && negb (visible_uncached auths x.2.2.2) then [] else at_coord x l.
Proof.
  unfold hidden. destruct (act && negb (visible_uncached auths x.2.2.2)) eqn:E.
  - apply filter_none, Forall_forall. intros c [Hc _]%list_elem_of_filter. rewrite <- Hc in E. cbn in E.
    by rewrite E.
  - apply filter_all, Forall_forall. intros c [Hc _]%list_elem_of_filter. rewrite <- Hc in E. cbn in E.
    by rewrite E.
Qed.

(** What a query at a point in time reads of one coordinate: the newest cell
    that is no newer than the ceiling and above any tombstone that is no newer
    than it, provided its label is visible. *)
Definition read_at (auths : Authorizations) (ceiling : Z) (x : coordinate) (l : list Cell) : list Cell :=
  if visible_uncached auths x.2.2.2
  then take 1 (until_delete false (filter (fun c => too_new ceiling c.1 = false) (at_coord x l)))
  else [].

Lemma scan_layers_at auths ceiling x f cfs incl :
  sorted_cells (f InfiniteRange cfs incl) ->
  at_coord x (denote [LAsOf ceiling; LDeleting false; LVisibility true auths; LVersioning 1] f InfiniteRange cfs incl) =
    read_at auths ceiling x (f InfiniteRange cfs incl).
Proof.
  intros Hs. cbn [denote denote_layer]. change (maximize_start InfiniteRange) with InfiniteRange.
  set (l := f InfiniteRange cfs incl) in *.
  assert (sorted_cells (filter (fun c => too_new ceiling c.1 = false) l)) as Hs1 by by apply sorted_cells_filter.
  rewrite versions_at_coord; [|done|].
  2: { do 2 apply sorted_cells_filter. eapply sorted_cells_sublist; [apply apply_deletes_sublist|done]. }
  rewrite at_coord_filter, filter_hidden_at. unfold read_at. cbn [andb].
  destruct (visible_uncached auths x.2.2.2); cbn [negb]; [|done].
  rewrite at_coord_filter, filter_all by (by apply Forall_forall).
  by rewrite apply_deletes_at_coord, at_coord_filter.
Qed.

(** ** Validation is fail-closed *)

Lemma ValidateStack_nil reg i specs ctx :
  ValidateStack reg i specs ctx = Some [] ->
  Forall (fun spec => ValidateSpec reg spec ctx = Some None) specs.
Proof.
  revert i. induction specs as [|spec specs IH]; intros i; cbn [ValidateStack]; [by constructor|].
  destruct (ValidateSpec reg spec ctx) as [[e|]|] eqn:Ev; cbn [mbind option_bind];
    (destruct (ValidateStack reg (S i) specs ctx) as [rest|] eqn:Er; cbn [mbind option_bind]; [|done]); try done.
  intros [= ->]. constructor; eauto.
Qed.

Lemma invalid_loop_nil r keys :
  invalid_loop r keys = Some [] -> Forall (fun k => supportsOption r k = Some true) keys.
Proof.
  induction keys as [|k keys IH]; cbn [invalid_loop]; [by constructor|].
  destruct (supportsOption r k) as [[]|] eqn:Ek; cbn [mbind option_bind]; [| |done];
    (destruct (invalid_loop r keys) as [rest|]; cbn [mbind option_bind]; [|done]); [|done].
  intros [= ->]. constructor; auto.
Qed.

Lemma ValidateSpec_ok reg spec ctx :
  ValidateSpec reg spec ctx = Some None ->
  exists r, reg !! Name spec = Some r /\ supportsContext r ctx = true /\
    forall k, is_Some (Options spec !! k) -> supportsOption r k = Some true.
Proof.
  unfold ValidateSpec. destruct (reg !! Name spec) as [r|]; [|done].
  destruct (invalidOptions r (Options spec)) as [bad|] eqn:Eb; cbn [mbind option_bind]; [|done].
  destruct (supportsContext r ctx) eqn:Ec; cbn [app].
  2: { destruct bad; done. }
  destruct bad as [|b [|b' bad]]; try done. intros _. exists r. split_and!; [done..|]. intros k [v Hk].
  unfold invalidOptions in Eb. case_bool_decide as Ho; [by rewrite Ho, lookup_empty in Hk|].
  apply invalid_loop_nil in Eb. rewrite Forall_forall in Eb. apply Eb. unfold sorted_keys.
  rewrite merge_sort_Permutation. apply list_elem_of_fmap. exists (k, v). split; [done|].
  by apply elem_of_map_to_list.
Qed.

Lemma ValidateSpec_singleton reg name r k v ctx :
  reg !! name = Some r -> supportsContext r ctx = true -> supportsOption r k = Some true ->
  ValidateSpec reg (mkSpec name {[k := v]}) ctx = Some None.
Proof.
  intros Hr Hc Hk. unfold ValidateSpec; cbn [Name Options]. rewrite Hr. unfold invalidOptions.
  rewrite bool_decide_eq_false_2 by apply insert_non_empty. unfold sorted_keys. rewrite map_to_list_singleton.
  cbn. by rewrite Hk, Hc.
Qed.

Lemma ValidateSpec_empty reg name r ctx :
  reg !! name = Some r -> supportsContext r ctx = true -> ValidateSpec reg (mkSpec name ∅) ctx = Some None.
Proof.
  intros Hr Hc. unfold ValidateSpec; cbn [Name Options]. rewrite Hr. unfold invalidOptions.
  rewrite bool_decide_eq_true_2 by done. cbn. by rewrite Hc.
Qed.

Lemma registry_entry reg r :
  registry_ok reg -> r ∈ [reg_versioning; reg_visibility; reg_deleting; reg_asOf] -> reg !! reg_Name r = Some r.
Proof. intros Hr Hin. eapply lookup_weaken; [by apply base_registry_entry|done]. Qed.

Lemma option_set_singleton k s : s <> ""%string -> option_set {[k := s]} k = Some s.
Proof. intros Hs. unfold option_set. rewrite lookup_singleton_eq. by case_bool_decide. Qed.

Section query_stack.
Context (reg : gmap string iteratorRegistration) (Hreg : registry_ok reg).
Context (auths : list bytes) (s : string) (ceiling : Z).
Context (Hs : ParseInt s = Some ceiling) (Hc : 0 < ceiling).

Definition query_specs : list IterSpec :=
  normalizedScanStack [mkSpec "asOf" {["asOfTimestamp"%string := s]}].
Definition query_layers : list layer :=
  [LAsOf ceiling; LDeleting false; LVisibility true (NewAuthorizations auths); LVersioning 1].

Lemma query_specs_eq :
  query_specs =
    [mkSpec "asOf" {["asOfTimestamp"%string := s]};
     mkSpec "deleting" {["propagateDeletes"%string := "false"%string]};
     mkSpec "visibility" ∅;
     mkSpec "versioning" {["maxVersions"%string := "1"%string]}].
Proof. done. Qed.

Lemma query_layers_eq : mapM (read_layer (mkEnv ScopeScan false (Some auths))) query_specs = Some query_layers.
Proof.
  rewrite query_specs_eq. unfold mapM, read_layer. cbn [Name Options Auths Scope FullMajorCompaction].
  rewrite !option_set_singleton by (done || (intros ->; by vm_compute in Hs)).
  rewrite Hs. cbn [mbind option_bind]. replace (ceiling >? 0) with true by lia. reflexivity.
Qed.

Lemma query_specs_valid : ValidateStack reg 0 query_specs ContextScan = Some [].
Proof.
  rewrite query_specs_eq. cbn [ValidateStack].
  rewrite (ValidateSpec_singleton reg "asOf" reg_asOf) by (done || (apply (registry_entry reg reg_asOf); set_solver)).
  rewrite (ValidateSpec_singleton reg "deleting" reg_deleting)
    by (done || (apply (registry_entry reg reg_deleting); set_solver)).
  rewrite (ValidateSpec_empty reg "visibility" reg_visibility)
    by (done || (apply (registry_entry reg reg_visibility); set_solver)).
  rewrite (ValidateSpec_singleton reg "versioning" reg_versioning)
    by (done || (apply (registry_entry reg reg_versioning); set_solver)).
  done.
Qed.
End query_stack.

Lemma BuildStack_denotes (reg : gmap string iteratorRegistration) env specs ls leaf :
  registry_ok reg -> ValidateStack reg 0 specs (ContextFromScope (Scope env)) = Some [] ->
  mapM (read_layer env) specs = Some ls -> it_ready leaf ->
  exists top, BuildStack reg leaf specs env = inr top /\ it_ready top /\
    it_scan top = denote ls (it_scan leaf).
Proof.
  intros Hr Hval Hls Hleaf. unfold BuildStack. rewrite Hval. by apply BuildStack_loop_denotes.
Qed.

(** ** Claims *)


Definition slice_iter (l : list Cell) : Iterator := mkIter SliceSource _ SliceSource_Laws (NewSliceSource l).

Definition w_cell (row ts : Z) (del : bool) (v : Z) : Cell := (mkKey [row] [] [] [] ts del, [v]).

Definition w_cells : list Cell := [w_cell 1 9 false 90; w_cell 1 7 true 0; w_cell 1 5 false 50; w_cell 2 4 false 40].

Definition w_env : IteratorEnvironment := mkEnv ScopeScan false (Some []).

Definition w_specs (ceiling : string) : list IterSpec :=
  normalizedScanStack [mkSpec "asOf" {["asOfTimestamp"%string := ceiling]}].

Lemma w_cells_sorted : sorted_cells w_cells.
Proof. repeat constructor; intros ?; vm_compute in *; discriminate. Qed.


(** C16: the stack the query backends put over a leaf reads, for every
    coordinate, at most one cell: the newest one that is no newer than the
    as-of ceiling, unless a tombstone at or below the ceiling covers it or its
    label is not visible to the caller; and what it reads is sorted. *)
Theorem query_stack_reads_newest (reg : gmap string iteratorRegistration) auths s ceiling leaf cfs incl :
  registry_ok reg -> ParseInt s = Some ceiling -> 0 < ceiling -> it_ready leaf ->
  exists top out, BuildStack reg leaf (query_specs s) (mkEnv ScopeScan false (Some auths)) = inr top /\
    run InfiniteRange cfs incl top = Ok out /\ sorted_cells out /\
    forall x, at_coord x out =
      read_at (NewAuthorizations auths) ceiling x (it_scan leaf InfiniteRange cfs incl).
Proof.
  intros Hr Hs Hc Hleaf.
  destruct (BuildStack_denotes reg (mkEnv ScopeScan false (Some auths)) (query_specs s) (query_layers auths ceiling) leaf Hr
    (query_specs_valid reg Hr s ceiling Hs Hc) (query_layers_eq auths s ceiling Hs Hc) Hleaf) as (top & Htop & Hready & Hscan).
  exists top. eexists. split; [done|]. split; [by apply run_ready|]. split.
  - by apply it_scan_sorted.
  - intros x. rewrite Hscan. apply scan_layers_at. by apply it_scan_sorted.
Qed.

Lemma query_stack_reads_newest_witness :
  exists top out, BuildStack base_registry (slice_iter w_cells) (query_specs "6") w_env = inr top /\
    run InfiniteRange [] false top = Ok out /\ sorted_cells out /\
    forall x, at_coord x out =
      read_at (NewAuthorizations []) 6 x (it_scan (slice_iter w_cells) InfiniteRange [] false).
Proof.
  apply (query_stack_reads_newest base_registry [] "6" 6 (slice_iter w_cells)); [exact base_registry_ok|reflexivity|lia|exact w_cells_sorted].
Defined.

(** Validation is fail-closed: a stack that [BuildStack] returns has only
    registered iterators, each allowed in the scope's context and each given
    only option keys its registration declares. *)
Theorem built_stack_is_valid (reg : gmap string iteratorRegistration) leaf specs env top :
  BuildStack reg leaf specs env = inr top ->
  Forall (fun spec => exists r, reg !! Name spec = Some r /\
    supportsContext r (ContextFromScope (Scope env)) = true /\
    forall k, is_Some (Options spec !! k) -> supportsOption r k = Some true) specs.
Proof.
  unfold BuildStack. destruct (ValidateStack reg 0 specs _) as [[|? ?]|] eqn:Ev; [|done..]. intros _.
  eapply Forall_impl; [by eapply ValidateStack_nil|]. intros spec. apply ValidateSpec_ok.
Qed.

Lemma built_stack_is_valid_witness :
  Forall (fun spec => exists r, base_registry !! Name spec = Some r /\
    supportsContext r ContextScan = true /\
    forall k, is_Some (Options spec !! k) -> supportsOption r k = Some true) [mkSpec "visibility" ∅].
Proof.
  refine (built_stack_is_valid base_registry (slice_iter w_cells) [mkSpec "visibility" ∅] w_env _ _).
  reflexivity.
Defined.

(** The document index's registration, but for its constructor. *)
Definition reg_documentIndex (new : Iterator -> options -> IteratorEnvironment -> result Iterator) : iteratorRegistration :=
  mkReg "documentIndex" [ContextScan] [ContextScan] ["shardCount"; "termCount"; "boolOp"]%string
    documentIndex_patterns new.

(** Validating a document-index stack whose options hold the key
    [term.field] panics instead of rejecting the key, so neither a stack nor an
    error is returned: the key has the prefix [term.] and the suffix [.field],
    which overlap in it, and the slice between them has crossed bounds. *)
Theorem term_field_option_panics new leaf auths :
  BuildStack {["documentIndex"%string := reg_documentIndex new]} leaf
    [mkSpec "documentIndex" {["term.field"%string := "K"%string]}] (mkEnv ScopeScan false auths) = inl StackPanic.
Proof. reflexivity. Qed.
