(* ===== verification/Mutation.v ===== *)
(** * Mutation: row mutations and their compact encoding
    (src/internal/cclient/mutation.go)

    A mutation is a row and its ordered column entries; [ToThrift] and
    [FromThrift] are the wire form, in which values of 32 KiB and more are
    moved out of the stream and referenced by their negated position.  The
    thrift struct itself is generated code: a record here.  [cloneBytes] is
    the identity on values. *)

From S2P Require Import Prelude Wire Iter.

Definition mutationValueCopyCutoff : Z := Z.shiftl 1 15.
Definition MutationLatestTimestamp : Z := 9223372036854775807.

Record MutationEntry := mkEntry {
  ColFamily : bytes;
  ColQualifier : bytes;
  ColVisibility : bytes;
  eTimestamp : Z;
  HasTimestamp : bool;
  Value : bytes;
  eDeleted : bool;
}.

Record Mutation := mkMutation { m_row : bytes; m_entries : list MutationEntry }.

Record TMutation := mkTMutation {
  T_Row : bytes;
  T_Data : bytes;
  T_Values : list bytes;
  T_Entries : Z;
}.

Definition NewMutation (row : bytes) : result Mutation :=
  if len row =? 0 then Err (Fail "cclient: Mutation row must be non-empty")
  else Ok (mkMutation row []).

Definition append_entry (e : MutationEntry) (m : Mutation) : Mutation :=
  mkMutation (m_row m) (m_entries m ++ [e]).

Definition put_entry (cf cq cv : bytes) (timestamp : Z) (value : bytes) : MutationEntry :=
  mkEntry cf cq cv timestamp (negb (timestamp =? MutationLatestTimestamp)) value false.
Definition delete_entry (cf cq cv : bytes) (timestamp : Z) : MutationEntry :=
  mkEntry cf cq cv timestamp (negb (timestamp =? MutationLatestTimestamp)) [] true.

Definition Put (cf cq cv : bytes) (timestamp : Z) (value : bytes) (m : Mutation) : Mutation :=
  append_entry (put_entry cf cq cv timestamp value) m.
Definition PutLatest (cf cq cv value : bytes) (m : Mutation) : Mutation :=
  Put cf cq cv MutationLatestTimestamp value m.
Definition Delete (cf cq cv : bytes) (timestamp : Z) (m : Mutation) : Mutation :=
  append_entry (delete_entry cf cq cv timestamp) m.
Definition DeleteLatest (cf cq cv : bytes) (m : Mutation) : Mutation :=
  Delete cf cq cv MutationLatestTimestamp m.

Definition Size (m : Mutation) : Z := len (m_entries m).

(** The cell an entry projects to. *)
Definition entry_cell (row : bytes) (e : MutationEntry) : Cell :=
  (mkKey row (ColFamily e) (ColQualifier e) (ColVisibility e) (eTimestamp e) (eDeleted e), Value e).
Definition Cells (m : Mutation) : list Cell := entry_cell (m_row m) <$> m_entries m.

(** ** Encoding *)

Definition writeMutationBytes (value : bytes) : bytes := (WriteVLong (len value)).1 ++ value.
Definition boolByte (value : bool) : Z := if value then 1 else 0.

(** One turn of the encoding loop: the bytes of an entry, and the values so
    far with the entry's own when it is moved out of line. *)
Definition entry_hasTimestamp (e : MutationEntry) : bool :=
  HasTimestamp e || negb (eTimestamp e =? MutationLatestTimestamp).

Definition serialize_entry (e : MutationEntry) (values : list bytes) : bytes * list bytes :=
  let head :=
    writeMutationBytes (ColFamily e) ++ writeMutationBytes (ColQualifier e) ++
    writeMutationBytes (ColVisibility e) ++
    [boolByte (entry_hasTimestamp e)] ++
    (if entry_hasTimestamp e then (WriteVLong (eTimestamp e)).1 else []) ++
    [boolByte (eDeleted e)] in
  if len (Value e) <? mutationValueCopyCutoff
  then (head ++ writeMutationBytes (Value e), values)
  else
    let values := values ++ [Value e] in
    (head ++ (WriteVLong (- len values)).1, values).

Fixpoint serialize_loop (es : list MutationEntry) (encoded : bytes) (values : list bytes) : bytes * list bytes :=
  match es with
  | [] => (encoded, values)
  | e :: es =>
      let '(bs, values) := serialize_entry e values in serialize_loop es (encoded ++ bs) values
  end.

Definition serialize (m : Mutation) : result (bytes * list bytes) :=
  if len (m_row m) =? 0 then Err (Fail "cclient: Mutation row must be non-empty")
  else if len (m_entries m) >? 2 ^ 31 - 1 then Err (Fail "cclient: Mutation has too many entries")
  else Ok (serialize_loop (m_entries m) [] []).

Definition Serialize (m : Mutation) : result bytes :=
  serialized ← serialize m; Ok serialized.1.

Definition ToThrift (m : Mutation) : result TMutation :=
  serialized ← serialize m;
  Ok (mkTMutation (m_row m) serialized.1 serialized.2 (int32 (len (m_entries m)))).

(** ** Decoding *)

Definition readMutationBytes : reader bytes :=
  '(length, _) ← ReadVLong;
  rlen ← Len;
  if (length <? 0) || (length >? rlen) || (length >? MaxInt64) then rfail (Fail "invalid length")
  else ReadFull length.

Definition readMutationBool : reader bool :=
  value ← ReadByte;
  if value =? 0 then mret false
  else if value =? 1 then mret true
  else rfail (Fail "invalid boolean").

(** The value: inline, or the out-of-line one the negative length names. *)
Definition readMutationValue (values : list bytes) : reader bytes :=
  '(valueLength, _) ← rwrap "cclient: decode entry value length" ReadVLong;
  if valueLength <? 0 then
    let valueIndex := int64 (int64 (- valueLength) - 1) in
    if (valueIndex <? 0) || (valueIndex >=? len values)
    then rfail (Fail "cclient: decode entry invalid large value reference")
    else mret (default [] (values !! Z.to_nat valueIndex))
  else
    rlen ← Len;
    if (valueLength >? rlen) || (valueLength >? MaxInt64)
    then rfail (Fail "cclient: decode entry invalid value length")
    else rwrap "cclient: decode entry value" (ReadFull valueLength).

(** [mutation.Put] or [mutation.Delete] sets [HasTimestamp] from the timestamp;
    the decoded flag then overrides it. *)
Definition set_HasTimestamp (b : bool) (e : MutationEntry) : MutationEntry :=
  mkEntry (ColFamily e) (ColQualifier e) (ColVisibility e) (eTimestamp e) b (Value e) (eDeleted e).

Definition readMutationEntry (values : list bytes) : reader MutationEntry :=
  cf ← rwrap "cclient: decode entry column family" readMutationBytes;
  cq ← rwrap "cclient: decode entry column qualifier" readMutationBytes;
  cv ← rwrap "cclient: decode entry visibility" readMutationBytes;
  hasTimestamp ← rwrap "cclient: decode entry timestamp flag" readMutationBool;
  timestamp ← (if (hasTimestamp : bool)
               then '(ts, _) ← rwrap "cclient: decode entry timestamp" ReadVLong; mret ts
               else mret MutationLatestTimestamp);
  deleted ← rwrap "cclient: decode entry delete flag" readMutationBool;
  value ← readMutationValue values;
  if deleted && negb (len value =? 0) then rfail (Fail "cclient: decode entry delete carries a value")
  else mret (set_HasTimestamp hasTimestamp
    (if (deleted : bool) then delete_entry cf cq cv timestamp else put_entry cf cq cv timestamp value)).

Fixpoint FromThrift_loop (n : nat) (values : list bytes) (m : Mutation) : reader Mutation :=
  match n with
  | O => mret m
  | S n => e ← readMutationEntry values; FromThrift_loop n values (append_entry e m)
  end.

(** [None] is a nil struct. *)
Definition FromThrift (input : option TMutation) : result Mutation :=
  match input with
  | None => Err (Fail "cclient: invalid thrift Mutation")
  | Some t =>
      if (len (T_Row t) =? 0) || (T_Entries t <? 0) then Err (Fail "cclient: invalid thrift Mutation")
      else
        mutation ← NewMutation (T_Row t);
        '(mutation, rest) ← FromThrift_loop (Z.to_nat (T_Entries t)) (T_Values t) mutation (T_Data t);
        if negb (len rest =? 0) then Err (Fail "cclient: mutation has trailing bytes")
        else Ok mutation
  end.

(** ** The wire form determines the mutation *)

(** An entry as Go can hold it. *)
Definition entry_ok (e : MutationEntry) : Prop :=
  in_int64 (eTimestamp e) /\
  len (ColFamily e) <= MaxInt64 /\ len (ColQualifier e) <= MaxInt64 /\
  len (ColVisibility e) <= MaxInt64 /\ len (Value e) <= MaxInt64 /\
  (eDeleted e = true -> Value e = []).

(** What decoding restores: the timestamp flag is the one that was encoded. *)
Definition norm_entry (e : MutationEntry) : MutationEntry := set_HasTimestamp (entry_hasTimestamp e) e.

Lemma reads_mutationBytes value : len value <= MaxInt64 -> reads readMutationBytes (writeMutationBytes value) value.
Proof.
  intros Hl rest. unfold readMutationBytes, writeMutationBytes, mbind, reader_bind. pose proof (len_nonneg value).
  rewrite <- (assoc_L (++)). rewrite (proj1 (ReadVLong_WriteVLong (len value) ltac:(unfold in_int64, MaxInt64 in *; lia))).
  cbn [Len]. rewrite len_app. pose proof (len_nonneg rest).
  replace ((len value <? 0) || (len value >? len value + len rest) || (len value >? MaxInt64)) with false by lia.
  by apply parses_ReadFull.
Qed.

Lemma reads_mutationBool b : reads readMutationBool [boolByte b] b.
Proof. intros rest. by destruct b. Qed.

#[export] Hint Resolve reads_mutationBytes reads_mutationBool : parse.

Lemma reads_inline_value values value :
  len value < mutationValueCopyCutoff -> reads (readMutationValue values) (writeMutationBytes value) value.
Proof.
  intros Hl rest. change mutationValueCopyCutoff with 32768 in Hl.
  unfold readMutationValue, writeMutationBytes, mbind, reader_bind, rwrap. pose proof (len_nonneg value).
  rewrite <- (assoc_L (++)). rewrite (proj1 (ReadVLong_WriteVLong (len value) ltac:(unfold in_int64; lia))).
  cbn [Len wrap]. replace (len value <? 0) with false by lia. cbn beta. rewrite len_app. pose proof (len_nonneg rest).
  replace ((len value >? len value + len rest) || (len value >? MaxInt64)) with false by (unfold MaxInt64; lia).
  by rewrite (proj1 (parses_ReadFull value _ eq_refl)).
Qed.

Lemma reads_large_value values value more :
  len (values ++ [value]) <= MaxInt64 ->
  reads (readMutationValue ((values ++ [value]) ++ more)) (WriteVLong (- len (values ++ [value]))).1 value.
Proof.
  intros Hl rest. unfold readMutationValue, mbind, reader_bind, rwrap.
  assert (0 < len (values ++ [value])) as Hpos by (unfold len; rewrite length_app; cbn; lia).
  set (n := len (values ++ [value])) in *.
  rewrite (proj1 (ReadVLong_WriteVLong (- n) ltac:(unfold in_int64, MaxInt64 in *; lia))). cbn [wrap].
  replace (- n <? 0) with true by lia. rewrite (int64_id (- - n)), (int64_id (- - n - 1)) by (unfold in_int64, MaxInt64 in *; lia).
  rewrite len_app. fold n. pose proof (len_nonneg more).
  replace ((- - n - 1 <? 0) || (- - n - 1 >=? n + len more)) with false by lia.
  assert (((values ++ [value]) ++ more) !! Z.to_nat (- - n - 1) = Some value) as ->; [|done].
  rewrite <- (assoc_L (++)). unfold n. rewrite len_app.
  replace (Z.to_nat (- - (len values + len [value]) - 1)) with (length values) by (unfold len; cbn [length]; lia).
  apply (list_lookup_middle values more value _ eq_refl).
Qed.

Lemma reads_entry e values more :
  entry_ok e -> len (serialize_entry e values).2 <= MaxInt64 ->
  reads (readMutationEntry ((serialize_entry e values).2 ++ more)) (serialize_entry e values).1 (norm_entry e).
Proof.
  intros (Hts & Hcf & Hcq & Hcv & Hval & Hdel) Hl.
  assert (forall vs bs, reads (readMutationValue vs) bs (Value e) ->
    reads (readMutationEntry vs)
      ((writeMutationBytes (ColFamily e) ++ writeMutationBytes (ColQualifier e) ++
        writeMutationBytes (ColVisibility e) ++ [boolByte (entry_hasTimestamp e)] ++
        (if entry_hasTimestamp e then (WriteVLong (eTimestamp e)).1 else []) ++ [boolByte (eDeleted e)]) ++ bs)
      (norm_entry e)) as Hread.
  { intros vs bs Hv. unfold readMutationEntry. rewrite <- !(assoc_L (++)).
    eapply reads_bind; [by eauto with parse|]. eapply reads_bind; [by eauto with parse|].
    eapply reads_bind; [by eauto with parse|]. eapply reads_bind; [by eauto with parse|]. cbv beta.
    eapply reads_bind with (a := eTimestamp e).
    { unfold entry_hasTimestamp. destruct (HasTimestamp e || negb (eTimestamp e =? MutationLatestTimestamp)) eqn:Eh.
      - apply reads_app_nil. eapply reads_bind; [by eauto with parse|]. apply reads_ret.
      - apply orb_false_iff in Eh as [_ Eh]. apply negb_false_iff, Z.eqb_eq in Eh as ->. apply reads_ret. }
    cbv beta. eapply reads_bind; [by eauto with parse|]. cbv beta. apply reads_app_nil. eapply reads_bind; [exact Hv|].
    cbv beta. unfold norm_entry, set_HasTimestamp. destruct e as [cf cq cv ts has v del]; cbn in *.
    destruct del; [rewrite Hdel by done|]; apply reads_ret. }
  unfold serialize_entry in *. destruct (Z.ltb_spec (len (Value e)) mutationValueCopyCutoff); cbn [fst snd] in *.
  - apply Hread. by apply reads_inline_value.
  - apply Hread. by apply reads_large_value.
Qed.

(** Serialising only appends to the values. *)
Lemma serialize_entry_values e values : exists vs, (serialize_entry e values).2 = values ++ vs.
Proof. unfold serialize_entry. case_match; [by exists []; rewrite app_nil_r|by eexists]. Qed.

Lemma serialize_loop_values es encoded values : exists vs, (serialize_loop es encoded values).2 = values ++ vs.
Proof.
  revert encoded values. induction es as [|e es IH]; intros encoded values; cbn [serialize_loop].
  { exists []. by rewrite app_nil_r. }
  destruct (serialize_entry_values e values) as [vs Hvs]. destruct (serialize_entry e values) as [bs values'].
  cbn in Hvs. subst values'. destruct (IH (encoded ++ bs) (values ++ vs)) as [vs' ->].
  exists (vs ++ vs'). by rewrite (assoc_L (++)).
Qed.

(** The loop reads back what the loop wrote. *)
Lemma FromThrift_loop_ok es encoded values m :
  Forall entry_ok es -> len (serialize_loop es encoded values).2 <= MaxInt64 ->
  exists bs, (serialize_loop es encoded values).1 = encoded ++ bs /\
    reads (FromThrift_loop (length es) (serialize_loop es encoded values).2 m) bs
      (mkMutation (m_row m) (m_entries m ++ (norm_entry <$> es))).
Proof.
  intros Hes. revert encoded values m. induction Hes as [|e es He _ IH]; intros encoded values m Hl; cbn [serialize_loop].
  { exists []. rewrite !app_nil_r. split; [done|]. destruct m. apply reads_ret. }
  cbn [serialize_loop] in Hl. pose proof (reads_entry e values) as Hread.
  destruct (serialize_entry e values) as [bs1 values1] eqn:E1.
  destruct (serialize_loop_values es (encoded ++ bs1) values1) as [vs Hvs].
  destruct (IH (encoded ++ bs1) values1 (append_entry (norm_entry e) m) Hl) as (bs2 & Hbs2 & Hr2).
  exists (bs1 ++ bs2). rewrite Hbs2, (assoc_L (++)). split; [done|]. cbn [length FromThrift_loop].
  eapply reads_bind.
  - rewrite Hvs. apply Hread; [done|]. cbn. rewrite Hvs, len_app in Hl. pose proof (len_nonneg vs). lia.
  - cbn [append_entry m_row m_entries] in Hr2. rewrite <- (assoc_L (++)) in Hr2. exact Hr2.
Qed.

(** The number of out-of-line values is at most the number of entries. *)
Lemma serialize_loop_count es encoded values :
  len (serialize_loop es encoded values).2 <= len values + len es.
Proof.
  revert encoded values. induction es as [|e es IH]; intros encoded values; cbn [serialize_loop]; [cbn; rewrite len_nil; lia|].
  destruct (serialize_entry e values) as [bs values'] eqn:E. specialize (IH (encoded ++ bs) values').
  assert (len values' <= len values + 1).
  { unfold serialize_entry in E. destruct (_ <? _); injection E as _ <-; [lia|unfold len; rewrite length_app; cbn [length]; lia]. }
  rewrite len_cons. lia.
Qed.

(** ** Claims *)

(** C38: a mutation survives the wire: encoding a mutation with a row, fewer
    than 2^31 entries and no value on a delete succeeds, and decoding gives the
    same row and entries in order, inline and out-of-line values alike; only
    the timestamp flag is normalised to the encoded one. *)
Theorem mutation_roundtrip (m : Mutation) :
  m_row m <> [] -> len (m_entries m) < 2 ^ 31 -> Forall entry_ok (m_entries m) ->
  exists t, ToThrift m = Ok t /\
    FromThrift (Some t) = Ok (mkMutation (m_row m) (norm_entry <$> m_entries m)).
Proof.
  intros Hrow Hn Hes.
  assert (len (m_row m) <> 0) as Hrow' by (intros E; by apply len_0_nil in E).
  unfold ToThrift, serialize. rewrite (proj2 (Z.eqb_neq _ _) Hrow').
  replace (len (m_entries m) >? 2 ^ 31 - 1) with false by lia. cbn [mbind result_bind].
  eexists. split; [done|]. pose proof (len_nonneg (m_entries m)).
  destruct (FromThrift_loop_ok (m_entries m) [] [] (mkMutation (m_row m) [])) as (bs & Hbs & Hr); [done|..].
  { pose proof (serialize_loop_count (m_entries m) [] []). rewrite len_nil in *. unfold MaxInt64. lia. }
  unfold FromThrift. cbn [T_Row T_Data T_Values T_Entries]. rewrite int32_id by (unfold in_int32; lia).
  rewrite (proj2 (Z.eqb_neq _ _) Hrow'). replace (len (m_entries m) <? 0) with false by lia. cbn [orb].
  unfold NewMutation. rewrite (proj2 (Z.eqb_neq _ _) Hrow'). cbn [mbind result_bind].
  replace (Z.to_nat (len (m_entries m))) with (length (m_entries m)) by (unfold len; lia).
  rewrite Hbs. cbn [app]. specialize (Hr []). rewrite app_nil_r in Hr.
  rewrite Hr. done.
Qed.

Definition w_mutation : Mutation :=
  DeleteLatest [7] [8] [] (Put [1] [2] [65] 5 [9; 9] (PutLatest [1] [2] [] (replicate 4 3) (mkMutation [82] []))).

Lemma mutation_roundtrip_witness :
  exists t, ToThrift w_mutation = Ok t /\
    FromThrift (Some t) = Ok (mkMutation (m_row w_mutation) (norm_entry <$> m_entries w_mutation)).
Proof.
  apply (mutation_roundtrip w_mutation); [done|vm_compute; done|].
  repeat constructor; vm_compute; done || discriminate.
Defined.
