(* ===== verification/LocalWAL.v ===== *)
(** * LocalWAL: the embedded engine's write-ahead log
    (src/internal/localwal/wal.go)

    The log file is its contents and the length of the prefix that has been
    fsynced.  A crash keeps some prefix of the contents that is at least the
    fsynced one: the file is append-only, and an unsynced suffix may be lost or
    torn anywhere.  The lock makes every method atomic, so the operations are
    functions of the whole state; the ticker of [WithSyncInterval] is further
    [Sync] steps. *)

From S2P Require Import Prelude Wire Iter Mutation.

Inductive SyncMode := SyncFull | SyncNormal | SyncOff.

#[export] Instance SyncMode_eq_dec : EqDecision SyncMode.
Proof. solve_decision. Defined.

Record WAL := mkWAL {
  w_file : bytes;
  w_synced : nat;
  w_seq : Z;
  w_mode : SyncMode;
  w_dirty : bool;
}.

(** [Open] on a file that holds [content]; what a file holds at open is on disk. *)
Definition Open (content : bytes) (mode : SyncMode) : WAL := mkWAL content (length content) 0 mode false.

(** ** Encoding *)

Definition appendUint32 (v : Z) : bytes := be_put 4 (uint32 v).
Definition appendInt64 (v : Z) : bytes := be_put 8 (uint64 v).
Definition appendBytes (b : bytes) : bytes := appendUint32 (len b) ++ b.

Definition appendEntry (e : MutationEntry) : bytes :=
  appendBytes (ColFamily e) ++ appendBytes (ColQualifier e) ++ appendBytes (ColVisibility e) ++
  appendInt64 (eTimestamp e) ++ [if eDeleted e then 1 else 0] ++ appendBytes (Value e).

Definition appendMutation (m : Mutation) : bytes :=
  appendBytes (m_row m) ++ appendUint32 (len (m_entries m)) ++ concat (appendEntry <$> m_entries m).

(** ** Decoding *)

Definition readUint32 : reader Z := buf ← ReadFull 4; mret (be_get buf).
Definition readInt64 : reader Z := buf ← ReadFull 8; mret (int64 (be_get buf)).
Definition readBytes : reader bytes := n ← readUint32; if n =? 0 then mret [] else ReadFull n.

Definition readEntry (m : Mutation) : reader Mutation :=
  cf ← readBytes;
  cq ← readBytes;
  cv ← readBytes;
  ts ← readInt64;
  delBuf ← ReadFull 1;
  val ← readBytes;
  mret (if default 0 (delBuf !! 0%nat) =? 1 then Delete cf cq cv ts m else Put cf cq cv ts val m).

Fixpoint readEntries (count : nat) (m : Mutation) : reader Mutation :=
  match count with
  | O => mret m
  | S count => m ← readEntry m; readEntries count m
  end.

Definition readMutation : reader Mutation :=
  row ← readBytes;
  m ← (fun s => m ← NewMutation row; Ok (m, s));
  count ← readUint32;
  readEntries (Z.to_nat count) m.

(** ** Operations *)

(** A write: all of the bytes, or an error after the first [n] of them. *)
Inductive write_outcome := WriteAll | WriteFails (n : nat).

Definition file_Write (w : WAL) (buf : bytes) (o : write_outcome) : WAL * option err :=
  match o with
  | WriteAll => (mkWAL (w_file w ++ buf) (w_synced w) (w_seq w) (w_mode w) (w_dirty w), None)
  | WriteFails n =>
      (mkWAL (w_file w ++ take n buf) (w_synced w) (w_seq w) (w_mode w) (w_dirty w), Some (Fail "localwal: write"))
  end.

Definition set_dirty (w : WAL) (d : bool) : WAL := mkWAL (w_file w) (w_synced w) (w_seq w) (w_mode w) d.

(** [sync_ok]: whether the fsync succeeds. *)
Definition syncLocked (sync_ok : bool) (w : WAL) : WAL * option err :=
  if negb (w_dirty w) then (w, None)
  else if negb sync_ok then (w, Some (Fail "localwal: sync"))
  else (mkWAL (w_file w) (length (w_file w)) (w_seq w) (w_mode w) false, None).

Definition Sync (sync_ok : bool) (w : WAL) : WAL * option err := syncLocked sync_ok w.

Definition Append (mutations : list Mutation) (o : write_outcome) (sync_ok : bool) (w : WAL)
  : WAL * Z * option err :=
  let buf := concat (appendMutation <$> mutations) in
  let '(w, e) :=
    if len buf >? 0 then
      let '(w, e) := file_Write w buf o in
      match e with Some e => (w, Some e) | None => (set_dirty w true, None) end
    else (w, None) in
  match e with
  | Some e => (w, w_seq w, Some e)
  | None =>
      let '(w, e) := if bool_decide (w_mode w = SyncFull) then syncLocked sync_ok w else (w, None) in
      match e with
      | Some e => (w, w_seq w, Some e)
      | None =>
          let w := mkWAL (w_file w) (w_synced w) (int64 (w_seq w + 1)) (w_mode w) (w_dirty w) in
          (w, int64 (w_seq w - 1), None)
      end
  end.

(** The loop of [Replay], with [fn] threading a state; every turn but the last
    consumes bytes. *)
Fixpoint Replay_loop {A} (fn : A -> Mutation -> result A) (fuel : nat) (s : bytes) (a : A) (count : Z)
  : Z * A * option err :=
  match fuel with
  | O => (count, a, Some OutOfFuel)
  | S fuel =>
      match readMutation s with
      | Err e =>
          if errors_Is e EOF || errors_Is e UnexpectedEOF then (count, a, None)
          else (count, a, Some (Wrap "localwal: replay entry" e))
      | Ok (m, s) =>
          match fn a m with
          | Err e => (count, a, Some e)
          | Ok a => Replay_loop fn fuel s a (count + 1)
          end
      end
  end.

Definition Replay {A} (fn : A -> Mutation -> result A) (a : A) (w : WAL) : Z * A * option err :=
  Replay_loop fn (S (length (w_file w))) (w_file w) a 0.

(** The fast path: the file is emptied in place. *)
Definition Truncate (w : WAL) : WAL := mkWAL [] 0 (w_seq w) (w_mode w) false.

Definition Close (sync_ok : bool) (w : WAL) : WAL * option err := syncLocked sync_ok w.

(** ** Round trip *)

(** A mutation whose lengths the 32-bit prefixes can express, as [Put] and
    [Delete] build it. *)
Definition wal_entry_ok (e : MutationEntry) : Prop :=
  in_int64 (eTimestamp e) /\ HasTimestamp e = negb (eTimestamp e =? MutationLatestTimestamp) /\
  len (ColFamily e) < 2 ^ 32 /\ len (ColQualifier e) < 2 ^ 32 /\
  len (ColVisibility e) < 2 ^ 32 /\ len (Value e) < 2 ^ 32 /\ (eDeleted e = true -> Value e = []).

Definition wal_mutation_ok (m : Mutation) : Prop :=
  m_row m <> [] /\ len (m_row m) < 2 ^ 32 /\ len (m_entries m) < 2 ^ 32 /\ Forall wal_entry_ok (m_entries m).

Lemma parses_readUint32 v : 0 <= v < 2 ^ 32 -> parses readUint32 (appendUint32 v) v.
Proof.
  intros Hv. unfold readUint32, appendUint32. apply parses_app_nil.
  eapply parses_bind; [apply parses_ReadFull; unfold len; by rewrite be_put_length|].
  assert (uint32 v = v) as E by (unfold uint32; by rewrite Z.mod_small). rewrite E.
  rewrite be_get_put by done. apply parses_ret.
Qed.

Lemma parses_readInt64 v : in_int64 v -> parses readInt64 (appendInt64 v) v.
Proof.
  intros Hv. unfold readInt64, appendInt64. apply parses_app_nil.
  eapply parses_bind; [apply parses_ReadFull; unfold len; by rewrite be_put_length|].
  rewrite be_get_put, int64_uint64, int64_id by (try done; apply Z.mod_pos_bound; lia). apply parses_ret.
Qed.

Lemma parses_readBytes b : len b < 2 ^ 32 -> parses readBytes (appendBytes b) b.
Proof.
  intros Hb. pose proof (len_nonneg b). unfold readBytes, appendBytes.
  eapply parses_bind; [by apply parses_readUint32|].
  destruct (Z.eqb_spec (len b) 0) as [E|E]; [apply len_0_nil in E as ->; apply parses_ret|].
  by apply parses_ReadFull.
Qed.

#[export] Hint Resolve parses_readUint32 parses_readInt64 parses_readBytes : parse.

Lemma parses_readEntry e m : wal_entry_ok e -> parses (readEntry m) (appendEntry e) (append_entry e m).
Proof.
  intros (Hts & Hhas & Hcf & Hcq & Hcv & Hval & Hdel). unfold readEntry, appendEntry.
  do 3 (eapply parses_bind; [by eauto with parse|]).
  eapply parses_bind; [by eauto with parse|]. eapply parses_bind; [by apply parses_ReadFull|].
  apply parses_app_nil. eapply parses_bind; [by eauto with parse|].
  destruct e as [cf cq cv ts has v del]; cbn in *. subst has.
  destruct del; cbn; [rewrite Hdel by done|]; apply parses_ret.
Qed.

Lemma parses_readEntries es m :
  Forall wal_entry_ok es ->
  parses (readEntries (length es) m) (concat (appendEntry <$> es)) (mkMutation (m_row m) (m_entries m ++ es)).
Proof.
  intros Hes. revert m. induction Hes as [|e es He _ IH]; intros m.
  { rewrite app_nil_r. destruct m. apply parses_ret. }
  cbn [length readEntries fmap list_fmap concat]. eapply parses_bind; [by apply parses_readEntry|].
  specialize (IH (append_entry e m)). cbn [append_entry m_row m_entries] in IH.
  by rewrite <- (assoc_L (++)) in IH.
Qed.

Lemma parses_readMutation m : wal_mutation_ok m -> parses readMutation (appendMutation m) m.
Proof.
  intros (Hrow & Hlr & Hle & Hes). unfold readMutation, appendMutation.
  eapply parses_bind; [by eauto with parse|].
  change (appendUint32 (len (m_entries m)) ++ concat (appendEntry <$> m_entries m))
    with ([] ++ (appendUint32 (len (m_entries m)) ++ concat (appendEntry <$> m_entries m))).
  eapply parses_bind with (a := mkMutation (m_row m) []).
  { assert ((len (m_row m) =? 0) = false) as E.
    { apply Z.eqb_neq. intros E. by apply len_0_nil in E. }
    unfold NewMutation. rewrite E. apply parses_ret. }
  pose proof (len_nonneg (m_entries m)).
  eapply parses_bind; [by apply parses_readUint32|].
  replace (Z.to_nat (len (m_entries m))) with (length (m_entries m)) by (unfold len; lia).
  pose proof (parses_readEntries (m_entries m) (mkMutation (m_row m) []) Hes) as Hp. by destruct m.
Qed.

Lemma appendMutation_length m : (8 <= length (appendMutation m))%nat.
Proof.
  unfold appendMutation, appendBytes, appendUint32. rewrite !length_app, !be_put_length. lia.
Qed.

Definition encode_all (ms : list Mutation) : bytes := concat (appendMutation <$> ms).
Arguments encode_all : simpl never.

Lemma encode_all_app ms1 ms2 : encode_all (ms1 ++ ms2) = encode_all ms1 ++ encode_all ms2.
Proof. unfold encode_all. by rewrite fmap_app, concat_app. Qed.

(** What [Replay] collects when [fn] appends to a list. *)
Definition collect (acc : list Mutation) (m : Mutation) : result (list Mutation) := Ok (acc ++ [m]).

(** The mutations of a (possibly torn) log: those that are entirely in it. *)
Fixpoint intact (n : nat) (ms : list Mutation) : list Mutation :=
  match ms with
  | [] => []
  | m :: ms =>
      if (length (appendMutation m) <=? n)%nat then m :: intact (n - length (appendMutation m)) ms else []
  end.

Lemma Replay_loop_torn fuel ms n acc count :
  Forall wal_mutation_ok ms -> (length (take n (encode_all ms)) < fuel)%nat ->
  Replay_loop collect fuel (take n (encode_all ms)) acc count =
    (count + len (intact n ms), acc ++ intact n ms, None).
Proof.
  intros Hms. revert n fuel acc count. induction Hms as [|m ms Hm _ IH]; intros n fuel acc count Hf.
  { destruct fuel; [cbn in Hf; lia|]. unfold encode_all. cbn. rewrite take_nil. cbn.
    by rewrite app_nil_r, len_nil, Z.add_0_r. }
  destruct fuel as [|fuel]; [lia|]. change (encode_all (m :: ms)) with (appendMutation m ++ encode_all ms) in *.
  pose proof (appendMutation_length m) as Hlen. pose proof (parses_readMutation m Hm) as [Hread Htorn].
  cbn [Replay_loop intact]. destruct (Nat.leb_spec (length (appendMutation m)) n) as [Hn|Hn].
  - rewrite take_app_ge, Hread in * by done. cbn [collect].
    rewrite length_app in Hf. rewrite IH by lia. rewrite <- (assoc_L (++)), len_cons. f_equal. f_equal. lia.
  - rewrite take_app_le by lia.
    destruct (Htorn (take n (appendMutation m)) (drop n (appendMutation m))) as (e & -> & He).
    { intros Hd. apply (f_equal length) in Hd. rewrite length_drop, length_nil in Hd. lia. }
    { by rewrite take_drop. }
    unfold eof_like in He. rewrite He, app_nil_r, len_nil, Z.add_0_r. done.
Qed.

Lemma Replay_torn ms n seq mode dirty synced :
  Forall wal_mutation_ok ms ->
  Replay collect [] (mkWAL (take n (encode_all ms)) synced seq mode dirty) = (len (intact n ms), intact n ms, None).
Proof. intros Hms. unfold Replay. cbn [w_file]. rewrite Replay_loop_torn by (done || lia). done. Qed.

Lemma intact_prefix n ms : intact n ms `prefix_of` ms.
Proof.
  revert n. induction ms as [|m ms IH]; intros n; cbn; [done|].
  case_match; [by apply prefix_cons|apply prefix_nil].
Qed.

(** Every mutation of an intact prefix is recovered. *)
Lemma intact_app n ms1 ms2 :
  (length (encode_all ms1) <= n)%nat ->
  intact n (ms1 ++ ms2) = ms1 ++ intact (n - length (encode_all ms1)) ms2.
Proof.
  revert n. induction ms1 as [|m ms1 IH]; intros n Hn; [cbn; by rewrite Nat.sub_0_r|].
  change (encode_all (m :: ms1)) with (appendMutation m ++ encode_all ms1) in *. rewrite length_app in *.
  cbn [intact app]. rewrite (proj2 (Nat.leb_le _ _)) by lia. rewrite IH by lia. do 3 f_equal. lia.
Qed.

(** ** The log as a state machine

    [all]: the mutations appended since the log was last empty.  [syn]: those
    among them that were appended before the last successful fsync. *)

Record log_state := mkLog { ls_wal : WAL; ls_all : list Mutation; ls_syn : list Mutation }.

Inductive log_step : log_state -> log_state -> Prop :=
  | step_Append w all syn ms sync_ok w' seq e :
      Forall wal_mutation_ok ms -> Append ms WriteAll sync_ok w = (w', seq, e) ->
      log_step (mkLog w all syn)
        (mkLog w' (all ++ ms) (if bool_decide (e = None /\ w_mode w = SyncFull) then all ++ ms else syn))
  | step_Sync w all syn sync_ok w' e :
      Sync sync_ok w = (w', e) ->
      log_step (mkLog w all syn) (mkLog w' all (if bool_decide (e = None) then all else syn))
  | step_Truncate w all syn : log_step (mkLog w all syn) (mkLog (Truncate w) [] []).

Definition log_reachable (mode : SyncMode) : log_state -> Prop :=
  rtc log_step (mkLog (Open [] mode) [] []).

(** The file a crash leaves behind. *)
Definition crash_image (w : WAL) (file : bytes) : Prop :=
  exists n, (w_synced w <= n)%nat /\ file = take n (w_file w).

Definition log_ok (s : log_state) : Prop :=
  Forall wal_mutation_ok (ls_all s) /\ w_file (ls_wal s) = encode_all (ls_all s) /\
  (exists more, ls_all s = ls_syn s ++ more) /\ w_synced (ls_wal s) = length (encode_all (ls_syn s)) /\
  (w_dirty (ls_wal s) = false -> encode_all (ls_all s) = encode_all (ls_syn s)).

Lemma encode_all_nil ms : encode_all ms = [] -> ms = [].
Proof.
  destruct ms as [|m ms]; [done|]. intros E. apply (f_equal length) in E.
  change (encode_all (m :: ms)) with (appendMutation m ++ encode_all ms) in E.
  rewrite length_app, length_nil in E. pose proof (appendMutation_length m). lia.
Qed.

(** A clean log has no mutation past the fsynced ones. *)
Lemma log_clean s : log_ok s -> w_dirty (ls_wal s) = false -> ls_all s = ls_syn s.
Proof.
  intros (_ & _ & [more Hmore] & _ & Hclean) Hd. specialize (Hclean Hd). rewrite Hmore, encode_all_app in Hclean. rewrite Hmore.
  rewrite <- (app_nil_r (encode_all (ls_syn s))) in Hclean at 2. apply app_inv_head, encode_all_nil in Hclean as ->.
  by rewrite app_nil_r.
Qed.

Lemma syncLocked_ok sync_ok w all syn w' e :
  log_ok (mkLog w all syn) -> syncLocked sync_ok w = (w', e) ->
  w_mode w' = w_mode w /\ log_ok (mkLog w' all (if bool_decide (e = None) then all else syn)).
Proof.
  intros Hok. unfold syncLocked. destruct (w_dirty w) eqn:Ed; cbn [negb].
  - destruct sync_ok; cbn [negb]; intros [= <- <-]; (split; [done|]).
    + rewrite bool_decide_eq_true_2 by done. destruct Hok as (Hf & Hfile & _ & _ & _); cbn in *.
      split_and!; cbn; try done; [exists []; by rewrite app_nil_r|by rewrite Hfile].
    + by rewrite bool_decide_eq_false_2.
  - intros [= <- <-]. split; [done|]. rewrite bool_decide_eq_true_2 by done.
    pose proof (log_clean _ Hok Ed) as E. cbn in E. by rewrite E at 2.
Qed.

Lemma log_written w all syn ms :
  log_ok (mkLog w all syn) -> Forall wal_mutation_ok ms -> ms <> [] ->
  log_ok (mkLog (mkWAL (w_file w ++ encode_all ms) (w_synced w) (w_seq w) (w_mode w) true) (all ++ ms) syn).
Proof.
  intros (Hf & Hfile & [more Hmore] & Hs & _) Hms Hne. cbn in *. split_and!; cbn.
  - by apply Forall_app.
  - by rewrite Hfile, encode_all_app.
  - exists (more ++ ms). by rewrite Hmore, (assoc_L (++)).
  - done.
  - done.
Qed.

Lemma log_step_ok s s' : log_ok s -> log_step s s' -> log_ok s'.
Proof.
  intros Hok Hstep. destruct Hstep as [w all syn ms sync_ok w' seq e Hms HA|w all syn sync_ok w' e HS|w all syn].
  - unfold Append in HA. fold (encode_all ms) in HA.
    assert (exists w1, log_ok (mkLog w1 (all ++ ms) syn) /\ w_mode w1 = w_mode w /\
      (if len (encode_all ms) >? 0
       then let '(w, e) := file_Write w (encode_all ms) WriteAll in
            match e with Some e => (w, Some e) | None => (set_dirty w true, None) end
       else (w, None)) = (w1, None)) as (w1 & Hok1 & Hmode & E1).
    { clear HA. destruct (Z.gtb_spec (len (encode_all ms)) 0) as [Hl|Hl].
      - exists (set_dirty (file_Write w (encode_all ms) WriteAll).1 true). split; [|done].
        refine (log_written w all syn ms Hok Hms _). intros ->. by vm_compute in Hl.
      - exists w. assert (ms = []) as -> by (apply encode_all_nil, len_0_nil; pose proof (len_nonneg (encode_all ms)); lia).
        by rewrite app_nil_r. }
    rewrite E1 in HA. rewrite Hmode in HA.
    assert (forall w syn', log_ok (mkLog w (all ++ ms) syn') ->
      log_ok (mkLog (mkWAL (w_file w) (w_synced w) (int64 (w_seq w + 1)) (w_mode w) (w_dirty w)) (all ++ ms) syn'))
      as Hseq by done.
    destruct (decide (w_mode w = SyncFull)) as [Hm|Hm].
    + rewrite (bool_decide_eq_true_2 _ Hm) in HA. destruct (syncLocked sync_ok w1) as [w2 e2] eqn:E2.
      destruct (syncLocked_ok _ _ _ _ _ _ Hok1 E2) as [_ Hok2].
      destruct e2 as [e2|]; injection HA as <- <- <-.
      * rewrite bool_decide_eq_false_2 in Hok2 by done. rewrite bool_decide_eq_false_2 by naive_solver. done.
      * rewrite bool_decide_eq_true_2 in Hok2 by done. rewrite bool_decide_eq_true_2 by done. by apply Hseq.
    + rewrite (bool_decide_eq_false_2 _ Hm) in HA. injection HA as <- <- <-.
      rewrite bool_decide_eq_false_2 by naive_solver. by apply Hseq.
  - by eapply syncLocked_ok.
  - split_and!; cbn; try done. by exists [].
Qed.

Lemma log_reachable_ok mode s : log_reachable mode s -> log_ok s.
Proof.
  intros Hr. unfold log_reachable in Hr. remember (mkLog (Open [] mode) [] []) as s0 eqn:E.
  assert (log_ok s0) as H0 by (subst; split_and!; cbn; try done; by exists []). clear E.
  induction Hr; eauto using log_step_ok.
Qed.

(** ** Claims *)


Definition w_m1 : Mutation := Put [1] [2] [] 5 [9] (mkMutation [82] []).
Definition w_m2 : Mutation := Put [1] [2] [] 6 [10] (mkMutation [83] []).

Lemma w_m_ok : Forall wal_mutation_ok [w_m1; w_m2].
Proof. repeat constructor; vm_compute; done || discriminate. Qed.


(** With [SyncFull], an [Append] that returned no error is never lost: a
    crash right after it, or after any later append, still replays it. *)
Theorem sync_full_is_durable w all syn ms sync_ok w' seq file mode' :
  log_reachable SyncFull (mkLog w all syn) -> Forall wal_mutation_ok ms ->
  Append ms WriteAll sync_ok w = (w', seq, None) -> crash_image w' file ->
  w_mode w = SyncFull ->
  Replay collect [] (Open file mode') = (len (all ++ ms), all ++ ms, None).
Proof.
  intros Hr Hms HA (n & Hn & ->) Hm.
  assert (log_ok (mkLog w' (all ++ ms) (all ++ ms))) as (Hf & Hfile & _ & Hs & _).
  { pose proof (step_Append w all syn ms sync_ok w' seq None Hms HA) as Hstep.
    rewrite bool_decide_eq_true_2 in Hstep by done.
    eapply log_step_ok; [by eapply log_reachable_ok|exact Hstep]. }
  cbn [ls_wal ls_all ls_syn] in *. unfold Open. rewrite Hfile, Replay_torn by done.
  assert (intact n (all ++ ms) = all ++ ms) as ->; [|done].
  rewrite <- (app_nil_r (all ++ ms)) at 1. rewrite intact_app by lia. cbn. by rewrite app_nil_r.
Qed.

Lemma sync_full_is_durable_witness :
  let w := Open [] SyncFull in
  Replay collect [] (Open (w_file (Append [w_m1; w_m2] WriteAll true w).1.1) SyncFull) = (2, [w_m1; w_m2], None).
Proof.
  intros w. refine (sync_full_is_durable w [] [] [w_m1; w_m2] true _ 0 _ SyncFull _ w_m_ok eq_refl _ eq_refl).
  - apply rtc_refl.
  - exists (length (w_file (Append [w_m1; w_m2] WriteAll true w).1.1)). split; [vm_compute; lia|by vm_compute].
Defined.

(** But reopening a log whose tail a crash has torn does not cut the torn
    bytes off, so what is appended next is unreadable: an [Append] that
    returned no error and was fsynced is not replayed, even with no second
    crash. *)
Theorem append_after_torn_tail_is_lost :
  exists torn w,
    crash_image (Append [w_m1] WriteAll false (Open [] SyncNormal)).1.1 torn /\
    Replay collect [] (Open torn SyncFull) = (0, [], None) /\
    Append [w_m2] WriteAll true (Open torn SyncFull) = (w, 0, None) /\ w_synced w = length (w_file w) /\
    Replay collect [] w = (0, [], None).
Proof.
  exists (take 5 (appendMutation w_m1)). eexists. split; [by exists 5%nat; split; [vm_compute; lia|]|].
  split; [by vm_compute|]. split; [reflexivity|]. split; by vm_compute.
Qed.
