(* ===== verification/Skiplist.v ===== *)
(** * Skiplist: the ordered multimap under the memtable
    (src/internal/memtable/skiplist.go)

    The nodes are an arena: a list of records whose [next] arrays hold arena
    indexes, the head being index 0, so an update through one pointer is seen
    through every other.  The random source is a stream of coin flips, left
    arbitrary.  The invariant relates the arena to one chain per level; the
    operations are shown to be insertion into, and lower bound of, a sorted
    list. *)

From S2P Require Import Prelude Wire Iter.

Definition maxLevel : nat := 24.

Record node := mkNode { n_key : Key; n_value : bytes; n_next : list (option nat) }.

(** [sl_coins n] is whether the [n]-th [Float64] of the source is below
    [levelProb]; [sl_draws] counts those consumed. *)
Record skiplist := mkSkiplist {
  sl_nodes : list node;
  sl_level : nat;
  sl_length : Z;
  sl_coins : nat -> bool;
  sl_draws : nat;
}.

Definition zero_Key : Key := mkKey [] [] [] [] 0 false.
Definition head : nat := 0%nat.

Definition newSkiplist (coins : nat -> bool) : skiplist :=
  mkSkiplist [mkNode zero_Key [] (replicate maxLevel None)] 0 0 coins 0.

(** [x.next\[i\]]; the invariant keeps [i] inside the array. *)
Definition next_at (ns : list node) (x i : nat) : option nat :=
  match ns !! x with Some n => default None (n_next n !! i) | None => None end.

Definition set_next (ns : list node) (x i : nat) (y : option nat) : list node :=
  match ns !! x with
  | Some n => <[x := mkNode (n_key n) (n_value n) (<[i := y]> (n_next n))]> ns
  | None => ns
  end.

Definition key_at (ns : list node) (x : nat) : Key :=
  match ns !! x with Some n => n_key n | None => zero_Key end.

(** [for lvl < maxLevel-1 && rng.Float64() < levelProb { lvl++ }]. *)
Fixpoint randomLevel_loop (fuel : nat) (coins : nat -> bool) (draws lvl : nat) : nat * nat :=
  match fuel with
  | O => (lvl, draws)
  | S fuel =>
      if (lvl <? maxLevel - 1)%nat then
        if coins draws then randomLevel_loop fuel coins (S draws) (S lvl) else (lvl, S draws)
      else (lvl, draws)
  end.

Definition randomLevel (s : skiplist) : nat * nat :=
  randomLevel_loop maxLevel (sl_coins s) (sl_draws s) 0.

(** [for x.next\[i\] != nil && x.next\[i\].key.Compare(key) < 0 { x = x.next\[i\] }]. *)
Fixpoint walk (fuel : nat) (ns : list node) (i : nat) (key : Key) (x : nat) : nat :=
  match fuel with
  | O => x
  | S fuel =>
      match next_at ns x i with
      | Some y => if is_lt (Compare (key_at ns y) key) then walk fuel ns i key y else x
      | None => x
      end
  end.

(** The descent from level [i] to level 0: the node reached at each level,
    level 0 first. *)
Fixpoint descend (ns : list node) (key : Key) (i x : nat) : list nat :=
  let x := walk (length ns) ns i key x in
  match i with
  | O => [x]
  | S i => descend ns key i x ++ [x]
  end.

(** [n.next\[i\] = update\[i\].next\[i\]; update\[i\].next\[i\] = n], for
    [k] levels starting at [i]. *)
Fixpoint link (k i : nat) (update : list nat) (n : nat) (ns : list node) : list node :=
  match k with
  | O => ns
  | S k =>
      let u := default head (update !! i) in
      let ns := set_next ns n i (next_at ns u i) in
      link k (S i) update n (set_next ns u i (Some n))
  end.

Definition insert (key : Key) (value : bytes) (s : skiplist) : skiplist :=
  let update := descend (sl_nodes s) key (sl_level s) head in
  let '(lvl, draws) := randomLevel s in
  let update := if (sl_level s <? lvl)%nat then update ++ replicate (lvl - sl_level s) head else update in
  let level := if (sl_level s <? lvl)%nat then lvl else sl_level s in
  let n := length (sl_nodes s) in
  let ns := sl_nodes s ++ [mkNode key value (replicate (S lvl) None)] in
  mkSkiplist (link (S lvl) 0 update n ns) level (sl_length s + 1) (sl_coins s) draws.

(** [None] is nil. *)
Definition seekFirst (target : Key) (s : skiplist) : option nat :=
  next_at (sl_nodes s) (default head (descend (sl_nodes s) target (sl_level s) head !! 0%nat)) 0.

Definition first (s : skiplist) : option nat := next_at (sl_nodes s) head 0.

Definition sl_len (s : skiplist) : Z := sl_length s.

(** The cells on level 0 from a node on, as a walk of the code visits them. *)
Fixpoint cells_from (fuel : nat) (ns : list node) (x : option nat) : list Cell :=
  match fuel, x with
  | S fuel, Some x =>
      match ns !! x with
      | Some n => (n_key n, n_value n) :: cells_from fuel ns (default None (n_next n !! 0%nat))
      | None => []
      end
  | _, _ => []
  end.

Definition contents (s : skiplist) : list Cell := cells_from (length (sl_nodes s)) (sl_nodes s) (first s).

(** ** Chains *)

Fixpoint chain (ns : list node) (i x : nat) (l : list nat) : Prop :=
  match l with
  | [] => next_at ns x i = None
  | y :: l => next_at ns x i = Some y /\ chain ns i y l
  end.

Definition before (ns : list node) (key : Key) (x : nat) : bool := is_lt (Compare (key_at ns x) key).

Definition lo (ns : list node) (key : Key) (l : list nat) : list nat := filter (fun x => before ns key x = true) l.
Definition hi (ns : list node) (key : Key) (l : list nat) : list nat := filter (fun x => before ns key x = false) l.

Definition keys_sorted (ns : list node) (l : list nat) : Prop := StronglySorted key_le (key_at ns <$> l).

(** The chain of each level lists nodes in key order; level 0 has all of them,
    and a level's chain is a sublist of the one below. *)
Record sl_ok (s : skiplist) (ch : nat -> list nat) : Prop := {
  ok_chain i : (i < maxLevel)%nat -> chain (sl_nodes s) i head (ch i);
  ok_high i : (sl_level s < i)%nat -> ch i = [];
  ok_level : (sl_level s < maxLevel)%nat;
  ok_sub i : sublist (ch (S i)) (ch i);
  ok_nodup : NoDup (ch 0%nat);
  ok_nodes x : x ∈ ch 0%nat <-> (1 <= x < length (sl_nodes s))%nat;
  ok_sorted : keys_sorted (sl_nodes s) (ch 0%nat);
  ok_head : exists n, sl_nodes s !! head = Some n /\ length (n_next n) = maxLevel;
  ok_height i x : x ∈ ch i -> exists n, sl_nodes s !! x = Some n /\ (i < length (n_next n))%nat;
  ok_len : sl_length s = len (ch 0%nat);
}.

Lemma ok_sub0 s ch i : sl_ok s ch -> sublist (ch i) (ch 0%nat).
Proof. intros Hs. induction i as [|i IH]; [done|]. etrans; [apply Hs|done]. Qed.

Lemma keys_sorted_sublist ns l1 l2 : sublist l1 l2 -> keys_sorted ns l2 -> keys_sorted ns l1.
Proof.
  unfold keys_sorted. induction 1 as [|x l1 l2 Hsub IH|x l1 l2 Hsub IH]; [done|..]; rewrite fmap_cons.
  - intros [H1 H2]%StronglySorted_inv. constructor; [by apply IH|].
    apply (proj2 (Forall_fmap _ _ _)). eapply sublist_Forall; [exact Hsub|]. by apply (proj1 (Forall_fmap _ _ _)).
  - intros [H1 _]%StronglySorted_inv. by apply IH.
Qed.

Lemma keys_sorted_app ns l1 l2 :
  keys_sorted ns (l1 ++ l2) <->
  keys_sorted ns l1 /\ keys_sorted ns l2 /\ forall x y, x ∈ l1 -> y ∈ l2 -> key_le (key_at ns x) (key_at ns y).
Proof.
  unfold keys_sorted. induction l1 as [|x l1 IH]; cbn [app].
  { split; [intros; split_and!; [constructor|done|set_solver]|tauto]. }
  rewrite !fmap_cons. split.
  - intros [H1 H2]%StronglySorted_inv. apply IH in H1 as (H1 & H3 & H4).
    apply (proj1 (Forall_fmap _ _ _)) in H2. rewrite Forall_app, !Forall_forall in H2. destruct H2 as [H5 H6].
    split_and!; [constructor; [done|]|done|].
    + apply (proj2 (Forall_fmap _ _ _)), Forall_forall. exact H5.
    + intros a b [->|Ha]%elem_of_cons Hb; [by apply H6|by apply H4].
  - intros ([H1 H2]%StronglySorted_inv & H3 & H4). constructor.
    + apply IH. split_and!; [done..|]. intros. apply H4; [by constructor|done].
    + apply (proj2 (Forall_fmap _ _ _)). rewrite Forall_app. split; [by apply (proj1 (Forall_fmap _ _ _)) in H2|].
      apply Forall_forall. intros b Hb. apply H4; [by constructor|done].
Qed.

Lemma before_mono ns key x y : key_le (key_at ns x) (key_at ns y) -> before ns key y = true -> before ns key x = true.
Proof.
  unfold before, key_le. intros Hxy. destruct (Compare (key_at ns y) key) eqn:E; try done. intros _.
  destruct (Compare (key_at ns x) (key_at ns y)) eqn:E'; [|by rewrite (cmp_trans Compare _ _ _ E' E)|done].
  apply (cmp_eq Compare) in E' as ->. by rewrite E.
Qed.

(** A sorted chain is its keys below the target followed by the others. *)
Lemma lo_hi ns key l : keys_sorted ns l -> lo ns key l ++ hi ns key l = l.
Proof.
  induction l as [|x l IH]; [done|]. intros Hs. pose proof Hs as [_ Hx]%StronglySorted_inv.
  assert (keys_sorted ns l) as Hs' by (eapply keys_sorted_sublist; [|exact Hs]; by constructor).
  apply (proj1 (Forall_fmap _ _ _)) in Hx. specialize (IH Hs'). unfold lo, hi in *.
  destruct (before ns key x) eqn:E.
  - rewrite filter_cons_True, filter_cons_False by congruence. cbn [app]. by rewrite IH.
  - rewrite filter_cons_False, filter_cons_True by congruence.
    rewrite filter_none, filter_all; [done|..]; eapply Forall_impl; try exact Hx; intros y Hy; cbn in Hy;
      destruct (before ns key y) eqn:E'; try done; by rewrite (before_mono _ _ _ _ Hy E') in E.
Qed.

Lemma lo_sub ns key l1 l2 : sublist l1 l2 -> sublist (lo ns key l1) (lo ns key l2).
Proof.
  unfold lo. induction 1 as [|x l1 l2 Hsub IH|x l1 l2 Hsub IH]; [done|..]; rewrite !filter_cons.
  - case_decide; [by constructor|done].
  - case_decide; [by constructor|done].
Qed.

Lemma hi_sub ns key l1 l2 : sublist l1 l2 -> sublist (hi ns key l1) (hi ns key l2).
Proof.
  unfold hi. induction 1 as [|x l1 l2 Hsub IH|x l1 l2 Hsub IH]; [done|..]; rewrite !filter_cons.
  - case_decide; [by constructor|done].
  - case_decide; [by constructor|done].
Qed.

(** The node a walk stops at: the last one below the key, or the head. *)
Definition pred_of (ns : list node) (key : Key) (l : list nat) : nat := default head (last (lo ns key l)).

Lemma walk_spec fuel ns i key a b x :
  chain ns i x b -> keys_sorted ns (a ++ b) -> (length b <= fuel)%nat ->
  Forall (fun y => before ns key y = true) a -> x = default head (last a) ->
  walk fuel ns i key x = pred_of ns key (a ++ b).
Proof.
  revert a b x. induction fuel as [|fuel IH]; intros a b x Hc Hs Hf Ha Hx.
  { destruct b; [|cbn in Hf; lia]. rewrite app_nil_r. unfold pred_of, lo. cbn. by rewrite filter_all. }
  cbn [walk]. destruct b as [|y b]; cbn [chain] in Hc.
  { rewrite Hc, app_nil_r. unfold pred_of, lo. by rewrite filter_all. }
  destruct Hc as [-> Hc]. fold (before ns key y). destruct (before ns key y) eqn:Ey.
  - rewrite (IH (a ++ [y]) b y); [by rewrite <- (assoc_L (++))|done|by rewrite <- (assoc_L (++))|cbn in Hf; lia|..].
    + apply Forall_app. split; [done|]. by repeat constructor.
    + by rewrite last_snoc.
  - unfold pred_of. assert (lo ns key (a ++ y :: b) = a) as ->; [|done].
    unfold lo. rewrite filter_app, filter_all by done.
    rewrite filter_none, app_nil_r; [done|]. apply keys_sorted_app in Hs as (_ & Hs & _).
    apply StronglySorted_inv in Hs as [_ Hy]. constructor; [congruence|].
    apply (proj1 (Forall_fmap _ _ _)) in Hy. eapply Forall_impl; [exact Hy|]. intros z Hz. cbn in Hz.
    destruct (before ns key z) eqn:E; [|done]. by rewrite (before_mono _ _ _ _ Hz E) in Ey.
Qed.

Lemma chain_app ns i x a b : chain ns i x (a ++ b) -> chain ns i (default x (last a)) b.
Proof.
  revert x. induction a as [|y a IH]; intros x; [done|]. cbn [app chain]. intros [_ Hc].
  apply IH in Hc. rewrite last_cons. by destruct (last a).
Qed.

Lemma ch_length s ch i : sl_ok s ch -> (length (ch i) <= length (sl_nodes s))%nat.
Proof.
  intros Hs. pose proof (sublist_length _ _ (ok_sub0 s ch i Hs)).
  assert (ch 0%nat ⊆+ seq 0 (length (sl_nodes s))) as Hsub.
  { apply NoDup_submseteq; [apply Hs|]. intros x Hx. apply elem_of_seq. apply (ok_nodes s ch Hs) in Hx. lia. }
  apply submseteq_length in Hsub. rewrite length_seq in Hsub. lia.
Qed.

Lemma ok_sorted_at s ch i : sl_ok s ch -> keys_sorted (sl_nodes s) (ch i).
Proof. intros Hs. exact (keys_sorted_sublist _ _ _ (ok_sub0 s ch i Hs) (ok_sorted s ch Hs)). Qed.

Lemma walk_level s ch key i x a b :
  sl_ok s ch -> (i < maxLevel)%nat -> ch i = a ++ b ->
  Forall (fun y => before (sl_nodes s) key y = true) a -> x = default head (last a) ->
  walk (length (sl_nodes s)) (sl_nodes s) i key x = pred_of (sl_nodes s) key (ch i).
Proof.
  intros Hs Hi Hab Ha Hx. pose proof (ok_sorted_at s ch i Hs) as Hsort. pose proof (ok_chain s ch Hs i Hi) as Hc.
  pose proof (ch_length s ch i Hs) as Hl. rewrite Hab in *. rewrite length_app in Hl.
  apply chain_app in Hc. rewrite <- Hx in Hc. apply walk_spec; [done..|lia|done|done].
Qed.

Lemma descend_spec s ch key i x a b :
  sl_ok s ch -> (i < maxLevel)%nat -> ch i = a ++ b ->
  Forall (fun y => before (sl_nodes s) key y = true) a -> x = default head (last a) ->
  descend (sl_nodes s) key i x = (fun j => pred_of (sl_nodes s) key (ch j)) <$> seq 0 (S i).
Proof.
  intros Hs. revert x a b. induction i as [|i IH]; intros x a b Hi Hab Ha Hx;
    cbn [descend]; rewrite (walk_level s ch key _ x a b) by done; [done|].
  rewrite (seq_S (S i)), fmap_app. f_equal.
  set (y := pred_of (sl_nodes s) key (ch (S i))).
  assert (exists a b, ch i = a ++ b /\ Forall (fun z => before (sl_nodes s) key z = true) a /\ y = default head (last a))
    as (a' & b' & Hab' & Ha' & Hy); [|by apply (IH y a' b'); [lia|..]].
  unfold y, pred_of. destruct (last (lo (sl_nodes s) key (ch (S i)))) as [z|] eqn:El; [|by exists [], (ch i)].
  apply last_Some_elem_of, list_elem_of_filter in El as [Hz Hin].
  assert (z ∈ ch i) as Hin' by (eapply sublist_subseteq; [apply Hs|done]).
  apply list_elem_of_split in Hin' as (c & d & Hcd). exists (c ++ [z]), d.
  rewrite <- (assoc_L (++)). split; [done|]. rewrite last_snoc. split; [|done].
  pose proof (ok_sorted_at s ch i Hs) as Hsi.
  rewrite Hcd in Hsi. apply keys_sorted_app in Hsi as (_ & _ & Hle).
  apply Forall_app. split; [|by repeat constructor]. apply Forall_forall. intros w Hw'.
  eapply before_mono; [|exact Hz]. apply Hle; [done|by constructor].
Qed.

Lemma descend_head s ch key :
  sl_ok s ch ->
  descend (sl_nodes s) key (sl_level s) head =
    (fun j => pred_of (sl_nodes s) key (ch j)) <$> seq 0 (S (sl_level s)).
Proof. intros Hs. eapply (descend_spec s ch key _ _ [] _ Hs); [apply (ok_level s ch Hs)|done..]. Qed.

(** ** Linking a node *)

Definition has_slot (ns : list node) (x i : nat) : Prop :=
  exists n, ns !! x = Some n /\ (i < length (n_next n))%nat.

(** Keys, values and array lengths: what linking does not change. *)
Definition shape (ns : list node) : list (Key * bytes * nat) :=
  (fun n => (n_key n, n_value n, length (n_next n))) <$> ns.

Lemma next_at_set_next ns x i y x' j :
  has_slot ns x i ->
  next_at (set_next ns x i y) x' j = if decide (x' = x /\ j = i) then y else next_at ns x' j.
Proof.
  intros (n & Hn & Hi). unfold set_next, next_at. rewrite Hn. pose proof (lookup_lt_Some _ _ _ Hn).
  destruct (decide (x' = x)) as [->|Hne].
  - rewrite list_lookup_insert_eq by done. cbn [n_next]. destruct (decide (j = i)) as [->|Hji].
    + by rewrite list_lookup_insert_eq, decide_True.
    + rewrite list_lookup_insert_ne, decide_False by naive_solver. by rewrite Hn.
  - rewrite list_lookup_insert_ne, decide_False by naive_solver. done.
Qed.

Lemma shape_set_next ns x i y : shape (set_next ns x i y) = shape ns.
Proof.
  unfold set_next. destruct (ns !! x) as [n|] eqn:Hn; [|done]. unfold shape.
  rewrite list_fmap_insert. cbn. rewrite length_insert. apply list_insert_id. by rewrite list_lookup_fmap, Hn.
Qed.

Lemma shape_lookup ns ns' x n :
  shape ns = shape ns' -> ns !! x = Some n ->
  exists n', ns' !! x = Some n' /\ n_key n' = n_key n /\ n_value n' = n_value n /\ length (n_next n') = length (n_next n).
Proof.
  intros Hs Hn. assert (shape ns !! x = Some (n_key n, n_value n, length (n_next n))) as Hx
    by (unfold shape; by rewrite list_lookup_fmap, Hn).
  rewrite Hs in Hx. unfold shape in Hx. apply list_lookup_fmap_Some in Hx as (n' & Heq & Hn').
  injection Heq as -> -> ->. eauto.
Qed.

Lemma shape_slot ns ns' x i : shape ns = shape ns' -> has_slot ns x i -> has_slot ns' x i.
Proof. intros Hs (n & Hn & Hi). destruct (shape_lookup _ _ _ _ Hs Hn) as (n' & ? & _ & _ & E). exists n'. by rewrite E. Qed.

Lemma shape_key ns ns' x : shape ns = shape ns' -> key_at ns' x = key_at ns x.
Proof.
  intros Hs. unfold key_at. destruct (ns !! x) as [n|] eqn:En.
  - by destruct (shape_lookup _ _ _ _ Hs En) as (n' & -> & -> & _).
  - destruct (ns' !! x) as [n'|] eqn:En'; [|done].
    destruct (shape_lookup _ _ _ _ (eq_sym Hs) En') as (n & ? & _). congruence.
Qed.

Lemma link_spec k i update n ns :
  (forall j, (i <= j < i + k)%nat -> has_slot ns n j /\ has_slot ns (default head (update !! j)) j /\
     default head (update !! j) <> n) ->
  shape (link k i update n ns) = shape ns /\
  forall x j, next_at (link k i update n ns) x j =
    if decide (i <= j < i + k)%nat then
      if decide (x = n) then next_at ns (default head (update !! j)) j
      else if decide (x = default head (update !! j)) then Some n else next_at ns x j
    else next_at ns x j.
Proof.
  revert i ns. induction k as [|k IH]; intros i ns Hu; cbn [link].
  { split; [done|]. intros x j. rewrite decide_False by lia. done. }
  destruct (Hu i ltac:(lia)) as (Hn & Hui & Hne). set (u := default head (update !! i)) in *.
  set (ns1 := set_next ns n i (next_at ns u i)). set (ns2 := set_next ns1 u i (Some n)).
  assert (shape ns2 = shape ns) as Hs2 by (unfold ns2, ns1; by rewrite !shape_set_next).
  assert (has_slot ns1 u i) as Hu1 by (eapply shape_slot; [symmetry; apply shape_set_next|done]).
  destruct (IH (S i) ns2) as [Hs Hnext].
  { intros j Hj. destruct (Hu j ltac:(lia)) as (H1 & H2 & H3). split_and!; [..|done]; (eapply shape_slot; [symmetry; exact Hs2|done]). }
  rewrite Hs, Hs2. split; [done|]. intros x j. rewrite Hnext.
  assert (forall y, next_at ns2 y j = if decide (j = i) then
      (if decide (y = n) then next_at ns u i else if decide (y = u) then Some n else next_at ns y i)
      else next_at ns y j) as E.
  { intros y. unfold ns2, ns1. rewrite !next_at_set_next by done.
    destruct (decide (j = i)) as [->|]; repeat case_decide; naive_solver. }
  rewrite !E. destruct (decide (j = i)) as [->|Hji].
  - rewrite (decide_False (P := (S i <= i < S i + k)%nat)), (decide_True (P := (i <= i < i + S k)%nat)) by lia. done.
  - rewrite (decide_ext (S i <= j < S i + k)%nat (i <= j < i + S k)%nat) by lia. done.
Qed.

Lemma chain_ext ns ns' i x l :
  (forall y, y = x \/ y ∈ l -> next_at ns' y i = next_at ns y i) -> chain ns i x l -> chain ns' i x l.
Proof.
  revert x. induction l as [|y l IH]; intros x Hn; cbn [chain].
  - intros <-. apply Hn. by left.
  - intros [Hx Hc]. split; [rewrite Hn; [done|by left]|]. apply IH; [|done].
    intros z [->|Hz]; apply Hn; right; by constructor.
Qed.

(** Linking [n] after the last node of [a]. *)
Lemma chain_insert ns ns' i x a b n :
  chain ns i x (a ++ b) -> NoDup (x :: a ++ b) -> n ∉ x :: a ++ b ->
  (forall y, y ∈ x :: a ++ b -> next_at ns' y i = if decide (y = default x (last a)) then Some n else next_at ns y i) ->
  next_at ns' n i = next_at ns (default x (last a)) i ->
  chain ns' i x (a ++ n :: b).
Proof.
  revert x. induction a as [|y a IH]; intros x Hc Hnd Hn Hy Hnn; cbn [app] in *.
  - cbn in Hnn. apply NoDup_cons in Hnd as [Hx _]. cbn [chain].
    split; [by rewrite Hy, decide_True by constructor|].
    destruct b as [|y b]; cbn [chain] in *; rewrite Hnn; [done|].
    destruct Hc as [-> Hc]. split; [done|]. eapply chain_ext; [|exact Hc]. intros z Hz.
    rewrite Hy, decide_False; [done|..].
    + cbn. intros ->. apply Hx. destruct Hz as [->|Hz]; [constructor|by constructor].
    + constructor. destruct Hz as [->|Hz]; [constructor|by constructor].
  - cbn [chain] in *. destruct Hc as [Hxy Hc]. apply NoDup_cons in Hnd as [Hx Hnd].
    rewrite last_cons in Hy, Hnn.
    assert (default x (from_option Some (Some y) (last a)) = default y (last a)) as Hlast by by destruct (last a).
    split.
    + rewrite Hy, decide_False; [done|..|by constructor]. 
      intros E. apply Hx. rewrite E. destruct (last a) as [z|] eqn:El; cbn; [|by constructor].
      apply last_Some_elem_of in El. constructor. apply elem_of_app. by left.
    + apply IH; [done|done|..].
      * intros Hin. apply Hn. by constructor.
      * intros z Hz. rewrite Hy by (by constructor). by destruct (last a).
      * by destruct (last a).
Qed.

(** ** The operations keep the invariant *)

Lemma randomLevel_bound fuel coins draws lvl :
  (lvl < maxLevel)%nat -> ((randomLevel_loop fuel coins draws lvl).1 < maxLevel)%nat.
Proof.
  revert draws lvl. induction fuel as [|fuel IH]; intros draws lvl Hl; cbn [randomLevel_loop]; [done|].
  destruct (Nat.ltb_spec lvl (maxLevel - 1)); [|done]. destruct (coins draws); [|done].
  apply IH. unfold maxLevel in *. lia.
Qed.

Lemma newSkiplist_ok coins : sl_ok (newSkiplist coins) (fun _ => []).
Proof.
  split; cbn -[replicate maxLevel]; try done.
  - intros i Hi. unfold next_at. cbn -[replicate maxLevel]. by rewrite lookup_replicate_2.
  - unfold maxLevel. lia.
  - constructor.
  - intros x. rewrite elem_of_nil. lia.
  - constructor.
  - by eexists.
  - intros i x Hx. by apply elem_of_nil in Hx.
Qed.

Section insert.
Context (s : skiplist) (ch : nat -> list nat) (Hs : sl_ok s ch) (key : Key) (value : bytes) (lvl : nat).
Context (Hlvl : (lvl < maxLevel)%nat).

Let ns := sl_nodes s.
Let n := length ns.
Let ns1 := ns ++ [mkNode key value (replicate (S lvl) None)].
Let update :=
  if (sl_level s <? lvl)%nat
  then descend ns key (sl_level s) head ++ replicate (lvl - sl_level s) head
  else descend ns key (sl_level s) head.
Let ns' := link (S lvl) 0 update n ns1.

Definition insert_chain (i : nat) : list nat :=
  if (i <=? lvl)%nat then lo (sl_nodes s) key (ch i) ++ length (sl_nodes s) :: hi (sl_nodes s) key (ch i) else ch i.

Lemma update_spec i : default head (update !! i) = pred_of ns key (ch i).
Proof.
  assert (default head (descend ns key (sl_level s) head !! i) = pred_of ns key (ch i)) as Hd.
  { unfold ns. rewrite (descend_head s ch key Hs), list_lookup_fmap.
    destruct (decide (i < S (sl_level s))%nat).
    - by rewrite lookup_seq_lt by lia.
    - rewrite lookup_seq_ge by lia. cbn. by rewrite (ok_high s ch Hs) by lia. }
  unfold update. destruct (sl_level s <? lvl)%nat; [|done].
  rewrite lookup_app. destruct (descend ns key (sl_level s) head !! i) as [y|] eqn:E; [done|].
  cbn in Hd. rewrite <- Hd. destruct (replicate _ head !! _) as [z|] eqn:Ez; [|done].
  by apply lookup_replicate in Ez as [-> _].
Qed.

Lemma ch_range i x : x ∈ ch i -> (1 <= x < n)%nat.
Proof.
  intros Hx. apply (ok_nodes s ch Hs). eapply sublist_subseteq; [exact (ok_sub0 s ch i Hs)|done].
Qed.

Lemma ns1_lookup x : (x < n)%nat -> ns1 !! x = ns !! x.
Proof. intros Hx. unfold ns1. by rewrite lookup_app_l. Qed.

Lemma ns1_new : ns1 !! n = Some (mkNode key value (replicate (S lvl) None)).
Proof. unfold ns1. by rewrite lookup_app_r, Nat.sub_diag. Qed.

Lemma ns1_next x i : (x < n)%nat -> next_at ns1 x i = next_at ns x i.
Proof. intros Hx. unfold next_at. by rewrite ns1_lookup. Qed.

Lemma ns1_key x : (x < n)%nat -> key_at ns1 x = key_at ns x.
Proof. intros Hx. unfold key_at. by rewrite ns1_lookup. Qed.

Lemma n_pos : (0 < n)%nat.
Proof. destruct (ok_head s ch Hs) as (h & Hh & _). apply lookup_lt_Some in Hh. unfold n, ns. unfold head in Hh. lia. Qed.

Lemma pred_slot i : (i <= lvl)%nat -> has_slot ns1 (pred_of ns key (ch i)) i /\ pred_of ns key (ch i) <> n.
Proof.
  intros Hi. pose proof n_pos. unfold pred_of. destruct (last (lo ns key (ch i))) as [y|] eqn:El; cbn.
  - apply last_Some_elem_of, list_elem_of_filter in El as [_ Hy]. pose proof (ch_range i y Hy).
    destruct (ok_height s ch Hs i y Hy) as (m & Hm & Hh). split; [|lia]. exists m. by rewrite ns1_lookup by lia.
  - destruct (ok_head s ch Hs) as (h & Hh & Hhl). unfold head in *. split; [|lia].
    exists h. rewrite ns1_lookup by lia. split; [done|]. lia.
Qed.

Lemma link_ns1 :
  shape ns' = shape ns1 /\
  forall x j, next_at ns' x j =
    if decide (j <= lvl)%nat then
      if decide (x = n) then next_at ns1 (pred_of ns key (ch j)) j
      else if decide (x = pred_of ns key (ch j)) then Some n else next_at ns1 x j
    else next_at ns1 x j.
Proof.
  destruct (link_spec (S lvl) 0 update n ns1) as [Hsh Hnext].
  { intros j Hj. rewrite update_spec. destruct (pred_slot j ltac:(lia)) as [H1 H2]. split_and!; [|done..].
    eexists. rewrite ns1_new. split; [done|]. cbn [n_next]. rewrite length_replicate. lia. }
  split; [done|]. intros x j. unfold ns'. rewrite Hnext, update_spec.
  by rewrite (decide_ext (0 <= j < 0 + S lvl)%nat (j <= lvl)%nat) by lia.
Qed.

Lemma ns'_key x : key_at ns' x = key_at ns1 x.
Proof. apply shape_key. symmetry. apply link_ns1. Qed.

Lemma lohi i : lo ns key (ch i) ++ hi ns key (ch i) = ch i.
Proof. apply lo_hi. by apply ok_sorted_at. Qed.

Lemma nodup_head i : NoDup (head :: ch i) /\ n ∉ head :: ch i.
Proof.
  pose proof n_pos. assert (head ∉ ch i) as Hh by (intros Hx; apply ch_range in Hx; unfold head in Hx; lia).
  assert (n ∉ ch i) as Hn by (intros Hx; apply ch_range in Hx; lia).
  split.
  - constructor; [done|]. eapply sublist_NoDup; [apply (ok_nodup s ch Hs)|exact (ok_sub0 s ch i Hs)].
  - rewrite not_elem_of_cons. split; [unfold head; lia|done].
Qed.

Lemma insert_chain_ok i : (i < maxLevel)%nat -> chain ns' i head (insert_chain i).
Proof.
  intros Hi. destruct link_ns1 as [_ Hnext]. pose proof (ok_chain s ch Hs i Hi) as Hc.
  assert (chain ns1 i head (ch i)) as Hc1.
  { eapply chain_ext; [|exact Hc]. intros y Hy. apply ns1_next. pose proof n_pos.
    destruct Hy as [->|Hy]; [unfold head; lia|apply ch_range in Hy; lia]. }
  destruct (nodup_head i) as [Hnd Hn]. unfold insert_chain. fold ns n. destruct (Nat.leb_spec i lvl) as [Hil|Hil].
  - rewrite <- lohi in Hc1, Hnd, Hn. eapply chain_insert; [exact Hc1|done..| |].
    + intros y Hy. rewrite Hnext, decide_True by done. rewrite decide_False; [done|]. by intros ->.
    + by rewrite Hnext, !decide_True.
  - eapply chain_ext; [|exact Hc1]. intros y _. rewrite Hnext, decide_False by lia. done.
Qed.

Lemma insert_sorted : keys_sorted ns' (insert_chain 0).
Proof.
  unfold insert_chain. cbn [Nat.leb]. fold ns n.
  assert (forall x, x ∈ ch 0%nat -> key_at ns' x = key_at ns x) as Hold
    by (intros x Hx; rewrite ns'_key, ns1_key; [done|apply ch_range in Hx; lia]).
  assert (key_at ns' n = key) as Hnew by (rewrite ns'_key; unfold key_at; by rewrite ns1_new).
  assert (forall l, sublist l (ch 0%nat) -> key_at ns' <$> l = key_at ns <$> l) as Hmap.
  { intros l Hl. apply list_fmap_ext. intros j x Hx. apply Hold. eapply sublist_subseteq; [exact Hl|].
    by eapply list_elem_of_lookup_2. }
  assert (sublist (lo ns key (ch 0%nat)) (ch 0%nat)) as Hlo by apply filter_sublist.
  assert (sublist (hi ns key (ch 0%nat)) (ch 0%nat)) as Hhi by apply filter_sublist.
  pose proof (ok_sorted s ch Hs) as Hsort. apply keys_sorted_app. split_and!.
  - unfold keys_sorted. rewrite Hmap by done. exact (keys_sorted_sublist _ _ _ Hlo Hsort).
  - unfold keys_sorted. rewrite fmap_cons, Hmap, Hnew by done. constructor.
    + exact (keys_sorted_sublist _ _ _ Hhi Hsort).
    + apply (proj2 (Forall_fmap _ _ _)), Forall_forall. intros x Hx. cbn.
      apply list_elem_of_filter in Hx as [Hx _]. unfold before in Hx. unfold key_le.
      rewrite (cmp_antisym Compare (key_at ns x) key). by destruct (Compare (key_at ns x) key).
  - assert (forall x, x ∈ lo ns key (ch 0%nat) -> Compare (key_at ns x) key = Lt) as Hlt.
    { intros x [Hx _]%list_elem_of_filter. unfold before in Hx. by destruct (Compare (key_at ns x) key). }
    intros x y Hx [->|Hy]%elem_of_cons.
    + rewrite Hnew, Hold by exact (sublist_subseteq _ _ Hlo _ Hx). apply key_lt_le. by apply Hlt.
    + rewrite (Hold x (sublist_subseteq _ _ Hlo _ Hx)), (Hold y (sublist_subseteq _ _ Hhi _ Hy)). etrans; [by apply key_lt_le, Hlt|].
      apply list_elem_of_filter in Hy as [Hy _]. unfold before in Hy. unfold key_le.
      rewrite (cmp_antisym Compare (key_at ns y) key). by destruct (Compare (key_at ns y) key).
Qed.

Lemma insert_ok draws :
  sl_ok (mkSkiplist ns' (if (sl_level s <? lvl)%nat then lvl else sl_level s) (sl_length s + 1) (sl_coins s) draws)
    insert_chain.
Proof.
  destruct link_ns1 as [Hsh _]. pose proof n_pos.
  assert (length ns' = S n) as Hlen.
  { apply (f_equal length) in Hsh. unfold shape in Hsh. rewrite !length_fmap in Hsh. rewrite Hsh.
    unfold ns1. rewrite length_app. cbn. fold n. lia. }
  assert (lo ns key (ch 0%nat) ++ n :: hi ns key (ch 0%nat) ≡ₚ n :: ch 0%nat) as Hperm.
  { rewrite <- Permutation_middle, lohi. done. }
  split; cbn [sl_nodes sl_level sl_length].
  - apply insert_chain_ok.
  - intros i Hi. unfold insert_chain. destruct (Nat.ltb_spec (sl_level s) lvl), (Nat.leb_spec i lvl);
      try lia; by apply (ok_high s ch Hs); lia.
  - pose proof (ok_level s ch Hs). by case_match.
  - intros i. pose proof (ok_sub s ch Hs i) as Hsub. unfold insert_chain. fold ns n.
    destruct (Nat.leb_spec (S i) lvl), (Nat.leb_spec i lvl); try lia; [..|done].
    + apply sublist_app; [by apply lo_sub|]. constructor. by apply hi_sub.
    + etrans; [exact Hsub|]. rewrite <- (lohi i) at 1. apply sublist_app; [done|]. by constructor.
  - unfold insert_chain. cbn [Nat.leb]. fold ns n. rewrite Hperm. constructor; [|apply Hs].
    intros Hx. apply ch_range in Hx. lia.
  - intros x. unfold insert_chain. cbn [Nat.leb]. fold ns n. rewrite Hperm, elem_of_cons, Hlen, (ok_nodes s ch Hs).
    fold ns n. lia.
  - exact insert_sorted.
  - destruct (ok_head s ch Hs) as (h & Hh & Hhl).
    assert (ns1 !! head = Some h) as Hh1 by (rewrite ns1_lookup; [done|unfold head; lia]).
    destruct (shape_lookup _ _ _ _ (eq_sym Hsh) Hh1) as (h' & Hh' & _ & _ & E). exists h'. by rewrite E.
  - intros i x Hx.
    assert (has_slot ns1 x i) as Hslot; [|destruct (shape_slot _ _ _ _ (eq_sym Hsh) Hslot) as (m & ? & ?); eauto].
    assert (x ∈ ch i -> has_slot ns1 x i) as Hold.
    { intros Hin. destruct (ok_height s ch Hs i x Hin) as (m & Hm & Hh). exists m.
      rewrite ns1_lookup; [done|]. apply ch_range in Hin. lia. }
    unfold insert_chain in Hx. fold ns n in Hx. destruct (Nat.leb_spec i lvl); [|by apply Hold].
    apply elem_of_app in Hx as [Hx|[->|Hx]%elem_of_cons].
    + apply Hold. by apply list_elem_of_filter in Hx as [_ ?].
    + eexists. rewrite ns1_new. split; [done|]. cbn [n_next]. rewrite length_replicate. lia.
    + apply Hold. by apply list_elem_of_filter in Hx as [_ ?].
  - unfold insert_chain. cbn [Nat.leb]. fold ns n. rewrite (ok_len s ch Hs). unfold len.
    rewrite (Permutation_length Hperm). cbn [length]. lia.
Qed.
End insert.

Lemma insert_eq key value s :
  insert key value s =
    let lvl := (randomLevel s).1 in
    let ns := sl_nodes s in
    mkSkiplist
      (link (S lvl) 0
        (if (sl_level s <? lvl)%nat
         then descend ns key (sl_level s) head ++ replicate (lvl - sl_level s) head
         else descend ns key (sl_level s) head)
        (length ns) (ns ++ [mkNode key value (replicate (S lvl) None)]))
      (if (sl_level s <? lvl)%nat then lvl else sl_level s) (sl_length s + 1) (sl_coins s) (randomLevel s).2.
Proof. unfold insert. by destruct (randomLevel s). Qed.

Lemma insert_sl_ok key value s ch :
  sl_ok s ch -> sl_ok (insert key value s) (insert_chain s ch key (randomLevel s).1).
Proof.
  intros Hs. rewrite insert_eq. apply insert_ok; [done|]. apply randomLevel_bound. unfold maxLevel. lia.
Qed.

(** ** The multimap a skiplist holds *)

Definition node_cell (ns : list node) (x : nat) : Cell :=
  match ns !! x with Some n => (n_key n, n_value n) | None => (zero_Key, []) end.

Lemma node_cell_key ns x : (node_cell ns x).1 = key_at ns x.
Proof. unfold node_cell, key_at. by destruct (ns !! x). Qed.

Lemma cells_from_chain fuel ns x l :
  chain ns 0 x l -> Forall (fun y => is_Some (ns !! y)) l -> (length l <= fuel)%nat ->
  cells_from fuel ns (next_at ns x 0) = node_cell ns <$> l.
Proof.
  revert x l. induction fuel as [|fuel IH]; intros x l Hc Hl Hf.
  { by destruct l; [|cbn in Hf; lia]. }
  destruct l as [|y l]; cbn [chain] in Hc.
  { by rewrite Hc. }
  destruct Hc as [-> Hc]. apply Forall_cons in Hl as [[n Hn] Hl]. cbn [cells_from fmap list_fmap].
  unfold node_cell at 1. rewrite Hn. f_equal. cbn in Hf. rewrite <- (IH y l Hc Hl ltac:(lia)).
  f_equal. unfold next_at. by rewrite Hn.
Qed.

(** The cells of the level-0 nodes [l], which end the chain. *)
Lemma cells_from_suffix s ch a l :
  sl_ok s ch -> ch 0%nat = a ++ l ->
  cells_from (length (sl_nodes s)) (sl_nodes s) (next_at (sl_nodes s) (default head (last a)) 0) =
    node_cell (sl_nodes s) <$> l.
Proof.
  intros Hs Hal. pose proof (ok_chain s ch Hs 0%nat ltac:(unfold maxLevel; lia)) as Hc. rewrite Hal in Hc.
  apply chain_app in Hc. pose proof (ch_length s ch 0%nat Hs) as Hlen. rewrite Hal, length_app in Hlen.
  apply cells_from_chain; [done| |lia]. apply Forall_forall. intros y Hy. apply lookup_lt_is_Some.
  apply (ok_nodes s ch Hs). rewrite Hal. apply elem_of_app. by right.
Qed.

Lemma contents_ok s ch : sl_ok s ch -> contents s = node_cell (sl_nodes s) <$> ch 0%nat.
Proof. intros Hs. exact (cells_from_suffix s ch [] (ch 0%nat) Hs eq_refl). Qed.

Lemma contents_sorted s ch : sl_ok s ch -> sorted_cells (contents s).
Proof.
  intros Hs. rewrite (contents_ok s ch Hs). unfold sorted_cells. rewrite <- list_fmap_compose.
  pose proof (ok_sorted s ch Hs) as Hsort. unfold keys_sorted in Hsort.
  erewrite list_fmap_ext; [exact Hsort|]. intros i x _. cbn. apply node_cell_key.
Qed.

(** Insertion before the cells of equal key. *)
Definition cell_before (key : Key) (c : Cell) : bool := is_lt (Compare c.1 key).

Definition insert_sorted_cell (key : Key) (value : bytes) (l : list Cell) : list Cell :=
  filter (fun c => cell_before key c = true) l ++ (key, value) :: filter (fun c => cell_before key c = false) l.

Lemma filter_node_cell (ns : list node) (key : Key) (b : bool) (l : list nat) :
  filter (fun c => cell_before key c = b) (node_cell ns <$> l) = node_cell ns <$> filter (fun x => before ns key x = b) l.
Proof.
  induction l as [|x l IH]; [done|]. rewrite fmap_cons, !filter_cons, IH.
  assert (cell_before key (node_cell ns x) = before ns key x) as -> by (unfold cell_before, before; by rewrite node_cell_key).
  by case_decide.
Qed.

Lemma insert_nodes key value s ch :
  sl_ok s ch ->
  (forall x, x ∈ ch 0%nat -> node_cell (sl_nodes (insert key value s)) x = node_cell (sl_nodes s) x) /\
  node_cell (sl_nodes (insert key value s)) (length (sl_nodes s)) = (key, value).
Proof.
  intros Hs. rewrite insert_eq. cbn [sl_nodes].
  pose proof (link_ns1 s ch Hs key value (randomLevel s).1) as Hlink.
  destruct Hlink as [Hsh _]; [apply randomLevel_bound; unfold maxLevel; lia|].
  match type of Hsh with shape ?a = shape ?b => set (ns' := a) in *; set (ns1 := b) in * end.
  assert (forall x, node_cell ns' x = node_cell ns1 x) as Heq.
  { intros x. unfold node_cell. destruct (ns1 !! x) as [n|] eqn:En.
    - by destruct (shape_lookup _ _ _ _ (eq_sym Hsh) En) as (n' & -> & -> & -> & _).
    - destruct (ns' !! x) as [n'|] eqn:En'; [|done].
      destruct (shape_lookup _ _ _ _ Hsh En') as (n & ? & _). congruence. }
  split.
  - intros x Hx. rewrite Heq. unfold node_cell, ns1. rewrite lookup_app_l; [done|].
    apply (ok_nodes s ch Hs) in Hx. lia.
  - rewrite Heq. unfold node_cell, ns1. by rewrite lookup_app_r, Nat.sub_diag.
Qed.

Lemma insert_contents key value s ch :
  sl_ok s ch -> contents (insert key value s) = insert_sorted_cell key value (contents s).
Proof.
  intros Hs. rewrite (contents_ok _ _ (insert_sl_ok key value s ch Hs)), (contents_ok s ch Hs).
  destruct (insert_nodes key value s ch Hs) as [Hold Hnew].
  unfold insert_chain, insert_sorted_cell. cbn [Nat.leb]. rewrite fmap_app, fmap_cons, Hnew, !filter_node_cell.
  assert (forall b, node_cell (sl_nodes (insert key value s)) <$> filter (fun x => before (sl_nodes s) key x = b) (ch 0%nat) =
                    node_cell (sl_nodes s) <$> filter (fun x => before (sl_nodes s) key x = b) (ch 0%nat)) as Hmap.
  { intros b. apply list_fmap_ext. intros i x Hx. apply Hold. apply list_elem_of_lookup_2 in Hx.
    by apply list_elem_of_filter in Hx as [_ ?]. }
  unfold lo, hi. by rewrite !Hmap.
Qed.

(** [seekFirst] finds the lower bound of its target. *)
Lemma seekFirst_ok target s ch :
  sl_ok s ch ->
  exists a l, ch 0%nat = a ++ l /\ seekFirst target s = next_at (sl_nodes s) (default head (last a)) 0 /\
    node_cell (sl_nodes s) <$> l = filter (fun c => cell_before target c = false) (contents s).
Proof.
  intros Hs. exists (lo (sl_nodes s) target (ch 0%nat)), (hi (sl_nodes s) target (ch 0%nat)). split_and!.
  - symmetry. apply lo_hi. by apply ok_sorted_at.
  - unfold seekFirst. rewrite (descend_head s ch target Hs). done.
  - rewrite (contents_ok s ch Hs), filter_node_cell. done.
Qed.

(** A skiplist some sequence of insertions into the empty one has built. *)
Definition wf (s : skiplist) : Prop := exists ch, sl_ok s ch.

Lemma wf_new coins : wf (newSkiplist coins).
Proof. eexists. apply newSkiplist_ok. Qed.

Lemma wf_insert key value s : wf s -> wf (insert key value s).
Proof. intros [ch Hs]. eexists. by apply insert_sl_ok. Qed.

Definition insert_all (cells : list Cell) (s : skiplist) : skiplist :=
  foldl (fun s c => insert c.1 c.2 s) s cells.

Lemma wf_insert_all cells s : wf s -> wf (insert_all cells s).
Proof. revert s. induction cells as [|c cells IH]; intros s Hs; [done|]. apply IH. by apply wf_insert. Qed.

Lemma insert_sorted_cell_perm key value l : insert_sorted_cell key value l ≡ₚ (key, value) :: l.
Proof.
  unfold insert_sorted_cell. rewrite <- Permutation_middle. constructor.
  induction l as [|c l IH]; [done|]. destruct (cell_before key c) eqn:E.
  - rewrite filter_cons_True, filter_cons_False by congruence. by constructor.
  - rewrite filter_cons_False, filter_cons_True by congruence. rewrite <- Permutation_middle. by constructor.
Qed.

Lemma insert_sorted_cell_key k key value l :
  filter (fun c : Cell => c.1 = k) (insert_sorted_cell key value l) =
    (if decide (key = k) then [(key, value)] else []) ++ filter (fun c : Cell => c.1 = k) l.
Proof.
  unfold insert_sorted_cell. rewrite filter_app, filter_cons. cbn [fst].
  assert (forall b, filter (fun c : Cell => c.1 = k) (filter (fun c => cell_before key c = b) l) =
    if decide (is_lt (Compare k key) = b) then filter (fun c : Cell => c.1 = k) l else []) as Hf.
  { intros b. rewrite list_filter_filter. induction l as [|c l IH]; [by case_decide|].
    rewrite !filter_cons, IH. unfold cell_before.
    destruct (decide (c.1 = k)) as [<-|Hne]; repeat case_decide; naive_solver. }
  rewrite !Hf. destruct (decide (key = k)) as [->|Hne].
  - rewrite (cmp_refl Compare). done.
  - destruct (is_lt (Compare k key)); cbn; by rewrite ?app_nil_r.
Qed.

Lemma insert_all_contents cells s :
  wf s ->
  contents (insert_all cells s) ≡ₚ cells ++ contents s /\
  forall k, filter (fun c : Cell => c.1 = k) (contents (insert_all cells s)) =
    reverse (filter (fun c : Cell => c.1 = k) cells) ++ filter (fun c : Cell => c.1 = k) (contents s).
Proof.
  revert s. induction cells as [|[key value] cells IH]; intros s Hs; [done|].
  destruct (IH (insert key value s) (wf_insert _ _ _ Hs)) as [Hp Hk]. destruct Hs as [ch Hs].
  rewrite (insert_contents key value s ch Hs) in Hp, Hk. split.
  - cbn [insert_all foldl]. fold (insert_all cells (insert key value s)). cbn [fst snd].
    rewrite Hp, insert_sorted_cell_perm. by rewrite <- Permutation_middle.
  - intros k. change (insert_all ((key, value) :: cells) s) with (insert_all cells (insert key value s)).
    rewrite Hk, insert_sorted_cell_key, filter_cons. cbn [fst].
    case_decide; [|done]. by rewrite reverse_cons, <- (assoc_L (++)).
Qed.

(** ** Claims *)

(** C32: whatever levels the coin flips pick, a skiplist built by insertions
    holds exactly the inserted cells, sorted by key on level 0, and cells of
    one full key come out latest insertion first; [len] counts them. *)
Theorem skiplist_is_sorted_multimap (coins : nat -> bool) (cells : list Cell) :
  let s := insert_all cells (newSkiplist coins) in
  sorted_cells (contents s) /\ contents s ≡ₚ cells /\ sl_len s = len cells /\
  forall k, filter (fun c => c.1 = k) (contents s) = reverse (filter (fun c => c.1 = k) cells).
Proof.
  intros s. destruct (wf_insert_all cells _ (wf_new coins)) as [ch Hch].
  destruct (insert_all_contents cells _ (wf_new coins)) as [Hp Hk].
  assert (contents (newSkiplist coins) = []) as E by done. rewrite E, app_nil_r in Hp.
  split_and!.
  - exact (contents_sorted _ ch Hch).
  - done.
  - fold s in Hch. unfold sl_len. rewrite (ok_len s ch Hch). apply Permutation_length in Hp. fold s in Hp.
    rewrite (contents_ok s ch Hch), length_fmap in Hp. unfold len. by rewrite Hp.
  - intros k. rewrite Hk, E. by rewrite app_nil_r.
Qed.
