(* ===== verification/Memtable.v ===== *)
(** * Memtable: the sorted in-memory leaves
    (src/internal/memtable/memtable.go, src/internal/tablet/memtable.go)

    [Memtable] folds the decoded log entries of a tablet into a skiplist,
    dropping what the flush watermark says is already in a file; [memIter] is
    its iterator.  [skiplistMemtable] is the embedded engine's copy of the
    same structure, shown to be the same skiplist; [slIter] is its iterator.
    An iterator holds the arena as it is when the iterator is used: the
    skiplist is not written to while it is being read. *)

From S2P Require Import Prelude Wire Iter Mutation Skiplist.

(** ** Log entries (the fields of qwal.Entry the memtable reads) *)

Inductive LogEvent :=
  EventOpen | EventDefineTablet | EventMutation | EventManyMutations | EventCompactionStart | EventCompactionFinish.

Record Entry := mkLogEntry {
  Event : LogEvent;
  TabletID : Z;
  Seq : Z;
  Mutations : list Mutation;
}.

(** ** Memtable (memtable.go) *)

Record Memtable := mkMemtable {
  mt_tabletID : Z;
  mt_watermark : Z;
  mt_list : skiplist;
  mt_skipped : Z;
}.

Definition AllTablets : Z := -1.
Definition NoWatermark : Z := -1.

(** [coins]: the random source the seed determines. *)
Definition New (tabletID watermark : Z) (coins : nat -> bool) : Memtable :=
  mkMemtable tabletID watermark (newSkiplist coins) 0.

Definition ingestMutation (l : skiplist) (mut : Mutation) : skiplist :=
  foldl (fun l c => insert c.1 c.2 l) l (Cells mut).

Definition Ingest (m : Memtable) (e : Entry) : Memtable :=
  match Event e with
  | EventMutation | EventManyMutations =>
      if negb (mt_tabletID m =? AllTablets) && negb (TabletID e =? mt_tabletID m) then m
      else if negb (mt_watermark m =? NoWatermark) && (Seq e <=? mt_watermark m)
      then mkMemtable (mt_tabletID m) (mt_watermark m) (mt_list m) (mt_skipped m + 1)
      else mkMemtable (mt_tabletID m) (mt_watermark m)
             (foldl ingestMutation (mt_list m) (Mutations e)) (mt_skipped m)
  | _ => m
  end.

(** The stream: the entries and errors its [Next] returns, then [io.EOF]. *)
Fixpoint IngestStream (m : Memtable) (stream : list (result Entry)) : Memtable * option err :=
  match stream with
  | [] => (m, None)
  | Err e :: stream => if bool_decide (e = EOF) then (m, None) else (m, Some e)
  | Ok e :: stream => IngestStream (Ingest m e) stream
  end.

Definition Memtable_Len (m : Memtable) : Z := sl_len (mt_list m).
Definition Skipped (m : Memtable) : Z := mt_skipped m.

(** ** memIter *)

Record memIter := mkMemIter {
  mi_list : skiplist;
  mi_rng : Range;
  mi_cfSet : list bytes;
  mi_cfIncl : bool;
  mi_hasCF : bool;
  mi_cur : option nat;
}.

Definition Memtable_Iterator (m : Memtable) : memIter := mkMemIter (mt_list m) zero_range [] false false None.

Definition set_cur (it : memIter) (cur : option nat) : memIter :=
  mkMemIter (mi_list it) (mi_rng it) (mi_cfSet it) (mi_cfIncl it) (mi_hasCF it) cur.

Definition cfPasses (it : memIter) (k : Key) : bool :=
  if negb (mi_hasCF it) then true
  else
    let in_ := existsb (fun cf => bytes_Equal cf (ColumnFamily k)) (mi_cfSet it) in
    if mi_cfIncl it then in_ else negb in_.

(** Each turn follows a level-0 pointer, so one turn per node and one to stop. *)
Fixpoint skipToVisible (fuel : nat) (it : memIter) : memIter :=
  match fuel, mi_cur it with
  | S fuel, Some x =>
      let k := key_at (sl_nodes (mi_list it)) x in
      if AfterEnd (mi_rng it) k then set_cur it None
      else if cfPasses it k then it
      else skipToVisible fuel (set_cur it (next_at (sl_nodes (mi_list it)) x 0))
  | _, _ => it
  end.

(** [for cur != nil && p(cur.key) { cur = cur.next\[0\] }]. *)
Fixpoint skip_nodes (p : Key -> bool) (fuel : nat) (ns : list node) (cur : option nat) : option nat :=
  match fuel, cur with
  | S fuel, Some x => if p (key_at ns x) then skip_nodes p fuel ns (next_at ns x 0) else cur
  | _, _ => cur
  end.

Definition fuel_of (s : skiplist) : nat := S (length (sl_nodes s)).

Definition memIter_Seek (r : Range) (cfs : list bytes) (inclusive : bool) (it : memIter) : memIter * option err :=
  let l := mi_list it in
  let hasCF := len cfs >? 0 in
  let cur :=
    match Start r with
    | Some start =>
        if InfiniteStart r then first l
        else
          let cur := seekFirst start l in
          if negb (StartInclusive r)
          then skip_nodes (fun k => is_eq (Compare k start)) (fuel_of l) (sl_nodes l) cur
          else cur
    | None => first l
    end in
  (skipToVisible (fuel_of l) (mkMemIter l r (if hasCF then cfs else []) inclusive hasCF cur), None).

Definition memIter_Next (it : memIter) : memIter * option err :=
  match mi_cur it with
  | None => (it, None)
  | Some x =>
      (skipToVisible (fuel_of (mi_list it)) (set_cur it (next_at (sl_nodes (mi_list it)) x 0)), None)
  end.

Definition memIter_HasTop (it : memIter) : bool := bool_decide (is_Some (mi_cur it)).
Definition memIter_GetTopKey (it : memIter) : option Key := key_at (sl_nodes (mi_list it)) <$> mi_cur it.
Definition memIter_GetTopValue (it : memIter) : option bytes :=
  (fun x => (node_cell (sl_nodes (mi_list it)) x).2) <$> mi_cur it.
Definition memIter_DeepCopy (env : IteratorEnvironment) (it : memIter) : memIter :=
  mkMemIter (mi_list it) zero_range [] false false None.

#[export] Instance memIter_SKVI : SKVI memIter := {
  Seek := memIter_Seek;
  Next := memIter_Next;
  HasTop it := (it, memIter_HasTop it);
  GetTopKey := memIter_GetTopKey;
  GetTopValue := memIter_GetTopValue;
  DeepCopy := memIter_DeepCopy;
  bound it := length (sl_nodes (mi_list it));
}.

(** ** skiplistMemtable (internal/tablet/memtable.go)

    Levels are counted from 1 here, and the level of the empty list is 0. *)

Definition slMaxLevel : nat := 24.

Record skiplistMemtable := mkSlMemtable {
  sm_nodes : list node;
  sm_level : nat;
  sm_count : Z;
  sm_deletes : Z;
  sm_coins : nat -> bool;
  sm_draws : nat;
}.

Definition newSkiplistMemtable (coins : nat -> bool) : skiplistMemtable :=
  mkSlMemtable [mkNode zero_Key [] (replicate slMaxLevel None)] 0 0 0 coins 0.

Fixpoint sm_randomLevel_loop (fuel : nat) (coins : nat -> bool) (draws lvl : nat) : nat * nat :=
  match fuel with
  | O => (lvl, draws)
  | S fuel =>
      if (lvl <? slMaxLevel)%nat then
        if coins draws then sm_randomLevel_loop fuel coins (S draws) (S lvl) else (lvl, S draws)
      else (lvl, draws)
  end.

Definition sm_randomLevel (sl : skiplistMemtable) : nat * nat :=
  sm_randomLevel_loop slMaxLevel (sm_coins sl) (sm_draws sl) 1.

(** The update array: the descent for the levels in use, the head for the
    levels the new node adds. *)
Definition sm_Insert (key : Key) (value : bytes) (sl : skiplistMemtable) : skiplistMemtable :=
  let update := match sm_level sl with O => [] | S top => descend (sm_nodes sl) key top head end in
  let '(lvl, draws) := sm_randomLevel sl in
  let update := if (sm_level sl <? lvl)%nat then update ++ replicate (lvl - sm_level sl) head else update in
  let level := if (sm_level sl <? lvl)%nat then lvl else sm_level sl in
  let n := length (sm_nodes sl) in
  mkSlMemtable (link lvl 0 update n (sm_nodes sl ++ [mkNode key value (replicate lvl None)])) level
    (sm_count sl + 1) (if Deleted key then sm_deletes sl + 1 else sm_deletes sl) (sm_coins sl) draws.

Definition sm_Len (sl : skiplistMemtable) : Z := sm_count sl.
Definition sm_Deletes (sl : skiplistMemtable) : Z := sm_deletes sl.

(** *** slIter *)

Record slIter := mkSlIter { si_nodes : list node; si_cur : option nat; si_rng : Range }.

Definition sm_Iterator (sl : skiplistMemtable) : slIter := mkSlIter (sm_nodes sl) None zero_range.

Definition si_checkEnd (it : slIter) : slIter :=
  match si_cur it with
  | None => it
  | Some x =>
      if InfiniteEnd (si_rng it) then it
      else match End_ (si_rng it) with
      | None => it
      | Some e =>
          let c := Compare (key_at (si_nodes it) x) e in
          if is_gt c || (is_eq c && negb (EndInclusive (si_rng it)))
          then mkSlIter (si_nodes it) None (si_rng it) else it
      end
  end.

(** The walk to the start of the range. *)
Definition si_start (r : Range) (ns : list node) : option nat :=
  match Start r with
  | Some start =>
      if InfiniteStart r then next_at ns head 0
      else
        let cur := skip_nodes (fun k => is_lt (Compare k start)) (S (length ns)) ns (next_at ns head 0) in
        if negb (StartInclusive r)
        then skip_nodes (fun k => is_eq (Compare k start)) (S (length ns)) ns cur else cur
  | None => next_at ns head 0
  end.

(** The column families are not consulted. *)
Definition slIter_Seek (r : Range) (cfs : list bytes) (inclusive : bool) (it : slIter) : slIter * option err :=
  (si_checkEnd (mkSlIter (si_nodes it) (si_start r (si_nodes it)) r), None).

Definition slIter_Next (it : slIter) : slIter * option err :=
  match si_cur it with
  | None => (it, None)
  | Some x => (si_checkEnd (mkSlIter (si_nodes it) (next_at (si_nodes it) x 0) (si_rng it)), None)
  end.

(** [GetTopKey] and [GetTopValue] dereference [cur] unchecked. *)
#[export] Instance slIter_SKVI : SKVI slIter := {
  Seek := slIter_Seek;
  Next := slIter_Next;
  HasTop it := (it, bool_decide (is_Some (si_cur it)));
  GetTopKey it := key_at (si_nodes it) <$> si_cur it;
  GetTopValue it := (fun x => (node_cell (si_nodes it) x).2) <$> si_cur it;
  DeepCopy env it := mkSlIter (si_nodes it) None zero_range;
  bound it := length (si_nodes it);
}.

(** ** Walking the level-0 chain *)

Section walking.
Context (s : skiplist) (ch : nat -> list nat) (Hs : sl_ok s ch).

Let ns := sl_nodes s.

Lemma suffix_cur a l : ch 0%nat = a ++ l -> next_at ns (default head (last a)) 0 = l !! 0%nat.
Proof.
  intros Hal. pose proof (ok_chain s ch Hs 0%nat ltac:(unfold maxLevel; lia)) as Hc. rewrite Hal in Hc.
  apply chain_app in Hc. destruct l as [|x l]; [exact Hc|]. destruct Hc as [Hc _]. exact Hc.
Qed.

Lemma suffix_next a x l : ch 0%nat = a ++ x :: l -> next_at ns x 0 = l !! 0%nat.
Proof.
  intros Hal. rewrite cons_middle, (assoc_L (++)) in Hal. pose proof (suffix_cur _ _ Hal) as H.
  by rewrite last_snoc in H.
Qed.

Lemma suffix_cells a l : ch 0%nat = a ++ l -> cells_from (length ns) ns (l !! 0%nat) = node_cell ns <$> l.
Proof. intros Hal. pose proof (cells_from_suffix s ch a l Hs Hal) as H. fold ns in H. by rewrite (suffix_cur a l Hal) in H. Qed.

Lemma suffix_length a l : ch 0%nat = a ++ l -> (length l <= length ns)%nat.
Proof. intros Hal. pose proof (ch_length s ch 0%nat Hs) as H. rewrite Hal, length_app in H. unfold ns. lia. Qed.

Lemma suffix_sorted a l : ch 0%nat = a ++ l -> sorted_cells (node_cell ns <$> l).
Proof.
  intros Hal. pose proof (contents_sorted s ch Hs) as H. rewrite (contents_ok s ch Hs), Hal, fmap_app in H.
  by apply sorted_cells_app in H as (_ & H & _).
Qed.

Lemma skip_nodes_spec p fuel a l :
  ch 0%nat = a ++ l -> (length l < fuel)%nat ->
  exists a' l', ch 0%nat = a' ++ l' /\ skip_nodes p fuel ns (l !! 0%nat) = l' !! 0%nat /\
    node_cell ns <$> l' = drop_while p (node_cell ns <$> l).
Proof.
  revert a l. induction fuel as [|fuel IH]; intros a l Hal Hf; [lia|].
  destruct l as [|x l]; cbn [skip_nodes lookup list_lookup].
  { exists a, []. done. }
  rewrite fmap_cons. cbn [drop_while]. rewrite node_cell_key. destruct (p (key_at ns x)).
  - rewrite (suffix_next a x l Hal). apply (IH (a ++ [x])); [by rewrite <- (assoc_L (++))|cbn in Hf; lia].
  - exists a, (x :: l). done.
Qed.
End walking.

(** ** Seeking *)

Lemma drop_while_ext (p q : Key -> bool) l :
  (forall c : Cell, c ∈ l -> p c.1 = q c.1) -> drop_while p l = drop_while q l.
Proof.
  induction l as [|c l IH]; intros Hpq; cbn; [done|]. rewrite (Hpq c) by constructor.
  case_match; [|done]. apply IH. intros d Hd. apply Hpq. by constructor.
Qed.

(** Skipping to the start, then past the start's own cells if it is exclusive. *)
Lemma start_skipped r start l :
  Start r = Some start -> InfiniteStart r = false -> sorted_cells l ->
  (if negb (StartInclusive r)
   then drop_while (fun k => is_eq (Compare k start)) (filter (fun c => cell_before start c = false) l)
   else filter (fun c => cell_before start c = false) l) =
  filter (fun c => BeforeStart r c.1 = false) l.
Proof.
  intros Hst Hinf Hl.
  assert (forall k, BeforeStart r k = is_lt (Compare k start) || (is_eq (Compare k start) && negb (StartInclusive r))) as Hb
    by (intros; unfold BeforeStart; by rewrite Hst, Hinf).
  destruct (StartInclusive r) eqn:Ei; cbn [negb].
  - apply list_filter_iff. intros c. unfold cell_before. rewrite Hb, andb_false_r, orb_false_r. done.
  - rewrite (drop_while_ext _ (BeforeStart r)).
    2: { intros c [Hc _]%list_elem_of_filter. unfold cell_before in Hc. by rewrite Hb, Hc, andb_true_r. }
    rewrite drop_while_filter; [|intros a b; apply BeforeStart_mono|by apply sorted_cells_filter].
    rewrite list_filter_filter. apply list_filter_iff. intros c. rewrite Hb. unfold cell_before.
    destruct (Compare c.1 start); cbn; intuition done.
Qed.

Lemma filter_not_before r (l : list Cell) :
  Start r = None \/ InfiniteStart r = true -> filter (fun c : Cell => BeforeStart r c.1 = false) l = l.
Proof.
  intros H. apply filter_all, Forall_forall. intros c _. unfold BeforeStart.
  destruct H as [-> | ->]; [by case_match|done].
Qed.

Lemma cell_before_mono start a b :
  key_le a b -> is_lt (Compare b start) = true -> is_lt (Compare a start) = true.
Proof.
  unfold key_le. intros Hab. destruct (Compare b start) eqn:E; try done. intros _.
  destruct (Compare a b) eqn:E'; [|by rewrite (cmp_trans Compare _ _ _ E' E)|done].
  apply (cmp_eq Compare) in E' as ->. by rewrite E.
Qed.

(** ** memIter keeps the contract *)

Definition fam_passes (cfs : list bytes) (incl : bool) (k : Key) : bool :=
  if len cfs >? 0 then cfAllowed (ColumnFamily k) cfs incl else true.

Definition mem_pass (it : memIter) (c : Cell) : bool := negb (AfterEnd (mi_rng it) c.1) && cfPasses it c.1.

Definition mem_suffix (it : memIter) (l : list nat) : Prop :=
  exists ch a, sl_ok (mi_list it) ch /\ ch 0%nat = a ++ l /\ mi_cur it = l !! 0%nat.

Definition mem_live (it : memIter) : Prop :=
  exists l, mem_suffix it l /\ match l with [] => True | x :: _ => mem_pass it (node_cell (sl_nodes (mi_list it)) x) = true end.

Definition mem_view (it : memIter) : list Cell :=
  filter (fun c => mem_pass it c = true) (cells_from (length (sl_nodes (mi_list it))) (sl_nodes (mi_list it)) (mi_cur it)).

Lemma mem_suffix_view it l :
  mem_suffix it l -> mem_view it = filter (fun c => mem_pass it c = true) (node_cell (sl_nodes (mi_list it)) <$> l).
Proof. intros (ch & a & Hs & Hal & Hc). unfold mem_view. by rewrite Hc, (suffix_cells _ ch Hs a l Hal). Qed.

Lemma mem_suffix_next it x l : mem_suffix it (x :: l) -> mem_suffix (set_cur it (next_at (sl_nodes (mi_list it)) x 0)) l.
Proof.
  intros (ch & a & Hs & Hal & Hc). exists ch, (a ++ [x]). split_and!; [done|by rewrite <- (assoc_L (++))|].
  exact (suffix_next _ ch Hs a x l Hal).
Qed.

Lemma mem_suffix_end it l : mem_suffix it l -> mem_suffix (set_cur it None) [].
Proof. intros (ch & a & Hs & Hal & Hc). exists ch, (ch 0%nat). by rewrite app_nil_r. Qed.

Lemma skipToVisible_spec fuel it l :
  mem_suffix it l -> (length l < fuel)%nat ->
  exists cur, skipToVisible fuel it = set_cur it cur /\ mem_live (set_cur it cur) /\
    mem_view (set_cur it cur) = mem_view it.
Proof.
  revert it l. induction fuel as [|fuel IH]; intros it l Hl Hf; [lia|].
  pose proof Hl as (ch & a & Hs & Hal & Hc). cbn [skipToVisible]. rewrite Hc.
  destruct l as [|x l]; cbn [lookup list_lookup].
  { exists (mi_cur it). assert (set_cur it (mi_cur it) = it) as -> by by destruct it.
    split_and!; [done| |done]. by exists []. }
  set (ns := sl_nodes (mi_list it)) in *. pose proof (mem_suffix_view it _ Hl) as Hv. fold ns in Hv.
  rewrite fmap_cons in Hv.
  destruct (AfterEnd (mi_rng it) (key_at ns x)) eqn:Ea.
  - exists None. split; [done|]. pose proof (mem_suffix_end it _ Hl) as He. split; [by exists []|].
    rewrite (mem_suffix_view _ _ He), Hv. symmetry. apply filter_none.
    pose proof (suffix_sorted _ ch Hs a (x :: l) Hal) as Hsort. fold ns in Hsort. rewrite fmap_cons in Hsort.
    apply sorted_cells_cons in Hsort as [_ Hx]. rewrite node_cell_key in Hx. unfold mem_pass.
    constructor; [by rewrite node_cell_key, Ea|]. eapply Forall_impl; [exact Hx|]. intros c Hxc. cbn in Hxc |- *.
    by rewrite (AfterEnd_mono _ _ _ Hxc Ea).
  - destruct (cfPasses it (key_at ns x)) eqn:Ef.
    + exists (mi_cur it). assert (set_cur it (mi_cur it) = it) as -> by by destruct it.
      split_and!; [done| |done]. exists (x :: l). split; [done|].
      unfold mem_pass. fold ns. by rewrite node_cell_key, Ea, Ef.
    + pose proof (mem_suffix_next it x l Hl) as Hn. fold ns in Hn.
      destruct (IH _ l Hn) as (cur & -> & Hlive & Hview); [cbn in Hf; lia|].
      exists cur. split; [done|]. split; [exact Hlive|]. etrans; [exact Hview|].
      rewrite (mem_suffix_view _ _ Hn), Hv, filter_cons_False; [done|].
      unfold mem_pass. by rewrite node_cell_key, Ea, Ef.
Qed.

Lemma mem_view_top it c l :
  mem_live it -> mem_view it = c :: l ->
  exists x l', mem_suffix it (x :: l') /\ c = node_cell (sl_nodes (mi_list it)) x /\
    l = filter (fun c => mem_pass it c = true) (node_cell (sl_nodes (mi_list it)) <$> l').
Proof.
  intros (l0 & Hl0 & Hp) Hv. rewrite (mem_suffix_view _ _ Hl0) in Hv. destruct l0 as [|x l']; [done|].
  rewrite fmap_cons, filter_cons_True in Hv by done. injection Hv as <- <-. eauto.
Qed.

Lemma mem_suffix_length it l : mem_suffix it l -> (length l <= length (sl_nodes (mi_list it)))%nat.
Proof. intros (ch & a & Hs & Hal & _). exact (suffix_length _ ch Hs a l Hal). Qed.

(** The node a seek starts its scan from. *)
Definition seek_cur (r : Range) (l : skiplist) : option nat :=
  match Start r with
  | Some start =>
      if InfiniteStart r then first l
      else
        let cur := seekFirst start l in
        if negb (StartInclusive r)
        then skip_nodes (fun k => is_eq (Compare k start)) (fuel_of l) (sl_nodes l) cur
        else cur
  | None => first l
  end.

Lemma seek_cur_spec r s ch :
  sl_ok s ch ->
  exists a l, ch 0%nat = a ++ l /\ seek_cur r s = l !! 0%nat /\
    node_cell (sl_nodes s) <$> l = filter (fun c => BeforeStart r c.1 = false) (contents s).
Proof.
  intros Hs. unfold seek_cur.
  assert (Start r = None \/ InfiniteStart r = true -> exists a l, ch 0%nat = a ++ l /\ first s = l !! 0%nat /\
    node_cell (sl_nodes s) <$> l = filter (fun c => BeforeStart r c.1 = false) (contents s)) as Hfirst.
  { intros Hinf. exists [], (ch 0%nat). split; [done|]. split; [exact (suffix_cur s ch Hs [] _ eq_refl)|].
    by rewrite filter_not_before, (contents_ok s ch Hs). }
  destruct (Start r) as [start|] eqn:Est; [|by apply Hfirst; left].
  destruct (InfiniteStart r) eqn:Ei; [by apply Hfirst; right|].
  rewrite <- (start_skipped r start (contents s) Est Ei (contents_sorted s ch Hs)).
  destruct (seekFirst_ok start s ch Hs) as (a & l & Hal & Hsk & Hcells). rewrite Hsk, (suffix_cur s ch Hs a l Hal).
  destruct (StartInclusive r); cbn [negb]; [by exists a, l|].
  destruct (skip_nodes_spec s ch Hs (fun k => is_eq (Compare k start)) (fuel_of s) a l Hal) as (a' & l' & Hal' & Hsk' & Hc').
  { pose proof (suffix_length s ch Hs a l Hal). unfold fuel_of. lia. }
  exists a', l'. rewrite <- Hcells. done.
Qed.

#[export, refine] Instance memIter_Laws : SKVILaws memIter := {
  ready it := wf (mi_list it);
  live := mem_live;
  view := mem_view;
  scan it r cfs incl := filter (fun c => Contains r c.1 && fam_passes cfs incl c.1 = true) (contents (mi_list it));
}.
Proof.
  - intros it (l & (ch & a & Hs & _) & _). by exists ch.
  - intros it r cfs incl [ch Hs]. by eapply sorted_cells_filter, contents_sorted.
  - intros it (l & Hl & _). rewrite (mem_suffix_view _ _ Hl). apply sorted_cells_filter.
    destruct Hl as (ch & a & Hs & Hal & _). exact (suffix_sorted _ ch Hs a l Hal).
  - intros it r cfs incl [ch Hs]. cbn [Seek memIter_SKVI]. unfold memIter_Seek.
    fold (seek_cur r (mi_list it)). destruct (seek_cur_spec r (mi_list it) ch Hs) as (a & l & Hal & Hcur & Hcells).
    set (it0 := mkMemIter _ r _ incl _ _).
    assert (mem_suffix it0 l) as Hl by (exists ch, a; done).
    destruct (skipToVisible_spec (fuel_of (mi_list it)) it0 l Hl) as (cur & -> & Hlive & Hview).
    { pose proof (mem_suffix_length _ _ Hl). cbn in *. unfold fuel_of. lia. }
    eexists. split; [done|]. split; [exact Hlive|]. split; [|done].
    rewrite Hview, (mem_suffix_view _ _ Hl). cbn [mi_list it0]. rewrite Hcells, list_filter_filter.
    apply list_filter_iff. intros c. unfold mem_pass, fam_passes, cfPasses. cbn [mi_rng mi_hasCF mi_cfSet mi_cfIncl it0].
    rewrite Contains_split. unfold cfAllowed.
    destruct (BeforeStart r c.1), (AfterEnd r c.1); cbn; try naive_solver.
    destruct (Z.gtb_spec (len cfs) 0); cbn; [|naive_solver].
    rewrite (proj2 (Z.eqb_neq _ _)) by lia. naive_solver.
  - intros it (l & Hl & Hp). exists it. split; [|split_and!; [by exists l|done|done]]. cbn. f_equal.
    unfold memIter_HasTop. rewrite (mem_suffix_view _ _ Hl). destruct Hl as (ch & a & Hs & Hal & ->).
    destruct l as [|x l]; [done|]. rewrite fmap_cons, filter_cons_True by done. by rewrite !bool_decide_eq_true_2.
  - intros it c l Hlive Hv. destruct (mem_view_top it c l Hlive Hv) as (x & l' & (ch & a & Hs & Hal & Hc) & -> & _).
    cbn. unfold memIter_GetTopKey, memIter_GetTopValue. rewrite Hc. cbn. by rewrite node_cell_key.
  - intros it c l Hlive Hv. destruct (mem_view_top it c l Hlive Hv) as (x & l' & Hl & -> & ->).
    cbn [Next memIter_SKVI]. unfold memIter_Next. pose proof Hl as (ch & a & Hs & Hal & Hc). rewrite Hc.
    cbn [lookup list_lookup]. pose proof (mem_suffix_next _ _ _ Hl) as Hn.
    destruct (skipToVisible_spec (fuel_of (mi_list it)) _ l' Hn) as (cur & -> & Hlive' & Hview).
    { pose proof (mem_suffix_length _ _ Hn). cbn in *. unfold fuel_of. lia. }
    eexists. split; [done|]. split; [exact Hlive'|]. split; [|done].
    rewrite Hview, (mem_suffix_view _ _ Hn). done.
  - intros it (l & Hl & _). cbn. rewrite (mem_suffix_view _ _ Hl).
    etrans; [apply sublist_length, filter_sublist|]. rewrite length_fmap. by apply mem_suffix_length.
Defined.

(** ** The embedded memtable is the same skiplist *)

Definition to_skiplist (sl : skiplistMemtable) : skiplist :=
  mkSkiplist (sm_nodes sl) (sm_level sl - 1) (sm_count sl) (sm_coins sl) (sm_draws sl).

(** Before the first insertion no level is in use and the head has no successor. *)
Definition sm_ok (sl : skiplistMemtable) : Prop :=
  wf (to_skiplist sl) /\ (sm_level sl = 0%nat -> next_at (sm_nodes sl) head 0 = None).

Lemma sm_randomLevel_loop_eq fuel coins draws lvl :
  sm_randomLevel_loop fuel coins draws (S lvl) =
    let '(lvl', draws') := randomLevel_loop fuel coins draws lvl in (S lvl', draws').
Proof.
  revert draws lvl. induction fuel as [|fuel IH]; intros draws lvl; [done|].
  cbn [sm_randomLevel_loop randomLevel_loop].
  assert ((S lvl <? slMaxLevel)%nat = (lvl <? maxLevel - 1)%nat) as -> by
    (unfold slMaxLevel, maxLevel; destruct (Nat.ltb_spec (S lvl) 24), (Nat.ltb_spec lvl (24 - 1)); lia || done).
  destruct (lvl <? maxLevel - 1)%nat; [|done]. destruct (coins draws); [apply IH|done].
Qed.

Lemma sm_Insert_refines key value sl :
  (sm_level sl = 0%nat -> next_at (sm_nodes sl) head 0 = None) ->
  to_skiplist (sm_Insert key value sl) = insert key value (to_skiplist sl).
Proof.
  intros Hempty. unfold sm_Insert, insert, sm_randomLevel, randomLevel, to_skiplist.
  cbn [sl_nodes sl_level sl_length sl_coins sl_draws]. change slMaxLevel with maxLevel.
  rewrite (sm_randomLevel_loop_eq maxLevel (sm_coins sl) (sm_draws sl) 0).
  destruct (randomLevel_loop maxLevel (sm_coins sl) (sm_draws sl) 0) as [lvl draws].
  cbn [sm_nodes sm_level sm_count sm_coins sm_draws].
  destruct (sm_level sl) as [|top]; cbn [Nat.sub].
  - cbn [descend app]. assert (walk (length (sm_nodes sl)) (sm_nodes sl) 0 key head = head) as Hw
      by (destruct (length (sm_nodes sl)); cbn [walk]; [done|]; by rewrite Hempty).
    rewrite Hw. destruct lvl as [|lvl]; [done|].
    change (0 <? S (S lvl))%nat with true. change (0 <? S lvl)%nat with true. cbn [Nat.sub]. done.
  - rewrite Nat.sub_0_r. change (S top <? S lvl)%nat with (top <? lvl)%nat.
    destruct (top <? lvl)%nat; cbn [Nat.sub]; by rewrite ?Nat.sub_0_r.
Qed.

Definition sm_insert_all (cells : list Cell) (sl : skiplistMemtable) : skiplistMemtable :=
  foldl (fun sl c => sm_Insert c.1 c.2 sl) sl cells.

Lemma sm_Insert_level key value sl : sm_level (sm_Insert key value sl) <> 0%nat.
Proof.
  unfold sm_Insert, sm_randomLevel. change 1%nat with (S 0). rewrite sm_randomLevel_loop_eq.
  destruct (randomLevel_loop _ _ _ 0) as [lvl draws]. cbn [sm_level]. destruct (Nat.ltb_spec (sm_level sl) (S lvl)); lia.
Qed.

Lemma sm_insert_all_refines cells sl :
  sm_ok sl -> to_skiplist (sm_insert_all cells sl) = insert_all cells (to_skiplist sl) /\ sm_ok (sm_insert_all cells sl).
Proof.
  revert sl. induction cells as [|c cells IH]; intros sl [Hwf Hempty]; [done|]. cbn [sm_insert_all insert_all foldl].
  rewrite <- (sm_Insert_refines c.1 c.2 sl Hempty). apply IH. split.
  - rewrite sm_Insert_refines by done. by apply wf_insert.
  - intros H. by apply sm_Insert_level in H.
Qed.

Lemma sm_new_ok coins : sm_ok (newSkiplistMemtable coins).
Proof. split; [|done]. exact (wf_new coins). Qed.

Lemma sm_counts cells sl :
  sm_Len (sm_insert_all cells sl) = sm_Len sl + len cells /\
  sm_Deletes (sm_insert_all cells sl) = sm_Deletes sl + len (filter (fun c => Deleted c.1 = true) cells).
Proof.
  revert sl. induction cells as [|c cells IH]; intros sl.
  { change (sm_insert_all [] sl) with sl. rewrite filter_nil, !len_nil. lia. }
  cbn [sm_insert_all foldl]. destruct (IH (sm_Insert c.1 c.2 sl)) as [H1 H2].
  unfold sm_insert_all in H1, H2. rewrite H1, H2, len_cons, filter_cons.
  unfold sm_Insert, sm_Len, sm_Deletes. destruct (sm_randomLevel sl) as [lvl draws]. cbn [sm_count sm_deletes].
  destruct (Deleted c.1); [rewrite decide_True by done; rewrite len_cons|rewrite decide_False by done]; lia.
Qed.

(** *** slIter keeps the contract *)

Definition si_suffix (it : slIter) (l : list nat) : Prop :=
  exists s ch a, si_nodes it = sl_nodes s /\ sl_ok s ch /\ ch 0%nat = a ++ l /\ si_cur it = l !! 0%nat.

Definition si_live (it : slIter) : Prop :=
  exists l, si_suffix it l /\ match l with [] => True | x :: _ => AfterEnd (si_rng it) (key_at (si_nodes it) x) = false end.

Definition si_view (it : slIter) : list Cell :=
  filter (fun c => AfterEnd (si_rng it) c.1 = false) (cells_from (length (si_nodes it)) (si_nodes it) (si_cur it)).

Lemma si_suffix_view it l :
  si_suffix it l -> si_view it = filter (fun c => AfterEnd (si_rng it) c.1 = false) (node_cell (si_nodes it) <$> l).
Proof.
  intros (s & ch & a & Hn & Hs & Hal & Hc). unfold si_view. rewrite Hc, Hn. by rewrite (suffix_cells s ch Hs a l Hal).
Qed.

Lemma si_suffix_sorted it l : si_suffix it l -> sorted_cells (node_cell (si_nodes it) <$> l).
Proof. intros (s & ch & a & Hn & Hs & Hal & Hc). rewrite Hn. exact (suffix_sorted s ch Hs a l Hal). Qed.

Lemma si_checkEnd_spec it l :
  si_suffix it l ->
  si_live (si_checkEnd it) /\ si_view (si_checkEnd it) = si_view it /\ si_nodes (si_checkEnd it) = si_nodes it.
Proof.
  intros Hl. pose proof (si_suffix_view it l Hl) as Hv. pose proof (si_suffix_sorted it l Hl) as Hsort.
  pose proof Hl as (s & ch & a & Hn & Hs & Hal & Hc).
  destruct l as [|x l]; cbn [lookup list_lookup] in Hc.
  { unfold si_checkEnd. rewrite Hc. split; [by exists []|done]. }
  assert (si_checkEnd it = if AfterEnd (si_rng it) (key_at (si_nodes it) x) then mkSlIter (si_nodes it) None (si_rng it) else it) as ->.
  { unfold si_checkEnd, AfterEnd. rewrite Hc. destruct (InfiniteEnd (si_rng it)), (End_ (si_rng it)); done. }
  destruct (AfterEnd (si_rng it) (key_at (si_nodes it) x)) eqn:Ea.
  - assert (si_suffix (mkSlIter (si_nodes it) None (si_rng it)) []) as He.
    { exists s, ch, (ch 0%nat). rewrite app_nil_r. done. }
    split; [by exists []|]. split; [|done]. rewrite (si_suffix_view _ _ He), Hv. symmetry. apply filter_none.
    rewrite fmap_cons in Hsort |- *. apply sorted_cells_cons in Hsort as [_ Hx]. rewrite node_cell_key in Hx.
    constructor; [by rewrite node_cell_key, Ea|]. eapply Forall_impl; [exact Hx|]. intros c Hxc. cbn in Hxc |- *.
    by rewrite (AfterEnd_mono _ _ _ Hxc Ea).
  - split; [by exists (x :: l)|done].
Qed.

Lemma si_view_top it c l :
  si_live it -> si_view it = c :: l ->
  exists x l', si_suffix it (x :: l') /\ c = node_cell (si_nodes it) x /\
    l = filter (fun c => AfterEnd (si_rng it) c.1 = false) (node_cell (si_nodes it) <$> l').
Proof.
  intros (l0 & Hl0 & Hp) Hv. rewrite (si_suffix_view _ _ Hl0) in Hv. destruct l0 as [|x l']; [done|].
  rewrite fmap_cons, filter_cons_True in Hv by by rewrite node_cell_key. injection Hv as <- <-. eauto.
Qed.

Lemma si_start_spec r s ch :
  sl_ok s ch ->
  exists a l, ch 0%nat = a ++ l /\ si_start r (sl_nodes s) = l !! 0%nat /\
    node_cell (sl_nodes s) <$> l = filter (fun c => BeforeStart r c.1 = false) (contents s).
Proof.
  intros Hs. unfold si_start. pose proof (contents_ok s ch Hs) as Hcont. pose proof (contents_sorted s ch Hs) as Hsort.
  pose proof (suffix_cur s ch Hs [] _ eq_refl) as Hf. cbn [last default] in Hf.
  assert (forall P : Prop, Start r = None \/ InfiniteStart r = true ->
    exists a l, ch 0%nat = a ++ l /\ next_at (sl_nodes s) head 0 = l !! 0%nat /\
    node_cell (sl_nodes s) <$> l = filter (fun c => BeforeStart r c.1 = false) (contents s)) as Hfirst.
  { intros _ Hinf. exists [], (ch 0%nat). by rewrite filter_not_before, Hcont. }
  destruct (Start r) as [start|] eqn:Est; [|by apply (Hfirst True); left].
  destruct (InfiniteStart r) eqn:Ei; [by apply (Hfirst True); right|].
  rewrite <- (start_skipped r start (contents s) Est Ei Hsort).
  destruct (skip_nodes_spec s ch Hs (fun k => is_lt (Compare k start)) (S (length (sl_nodes s))) [] _ eq_refl)
    as (a & l & Hal & Hsk & Hc).
  { pose proof (ch_length s ch 0%nat Hs). lia. }
  rewrite Hf. cbv zeta. rewrite Hsk. rewrite <- Hcont, drop_while_filter in Hc; [|intros x y; apply cell_before_mono|done].
  destruct (StartInclusive r); cbn [negb]; [by exists a, l|].
  destruct (skip_nodes_spec s ch Hs (fun k => is_eq (Compare k start)) (S (length (sl_nodes s))) a l Hal)
    as (a' & l' & Hal' & Hsk' & Hc').
  { pose proof (suffix_length s ch Hs a l Hal). lia. }
  exists a', l'. unfold cell_before. rewrite <- Hc. done.
Qed.

#[export, refine] Instance slIter_Laws : SKVILaws slIter := {
  ready it := exists s, si_nodes it = sl_nodes s /\ wf s;
  live := si_live;
  view := si_view;
  scan it r cfs incl :=
    filter (fun c => Contains r c.1 = true) (cells_from (length (si_nodes it)) (si_nodes it) (next_at (si_nodes it) head 0));
}.
Proof.
  - intros it (l & (s & ch & a & Hn & Hs & _) & _). exists s. split; [done|]. by exists ch.
  - intros it r cfs incl (s & -> & ch & Hs). apply sorted_cells_filter. exact (contents_sorted s ch Hs).
  - intros it (l & Hl & _). rewrite (si_suffix_view _ _ Hl). apply sorted_cells_filter. by apply si_suffix_sorted.
  - intros it r cfs incl (s & Hn & ch & Hs). cbn [Seek slIter_SKVI]. unfold slIter_Seek. rewrite Hn.
    destruct (si_start_spec r s ch Hs) as (a & l & Hal & -> & Hcells).
    assert (si_suffix (mkSlIter (sl_nodes s) (l !! 0%nat) r) l) as Hl by (exists s, ch, a; done).
    destruct (si_checkEnd_spec _ _ Hl) as (Hlive & Hview & Hnodes).
    eexists. split; [done|]. split; [exact Hlive|]. rewrite Hnodes. split; [|done].
    rewrite Hview, (si_suffix_view _ _ Hl). cbn [si_nodes si_rng]. rewrite Hcells, list_filter_filter.
    apply list_filter_iff. intros c. rewrite Contains_split.
    destruct (BeforeStart r c.1), (AfterEnd r c.1); cbn; intuition done.
  - intros it (l & Hl & Hp). exists it. split; [|split_and!; [by exists l|done|done]]. cbn. f_equal.
    rewrite (si_suffix_view _ _ Hl). destruct Hl as (s & ch & a & Hn & Hs & Hal & ->).
    destruct l as [|x l]; [done|]. rewrite fmap_cons, filter_cons_True by by rewrite node_cell_key.
    by rewrite !bool_decide_eq_true_2.
  - intros it c l Hlive Hv. destruct (si_view_top it c l Hlive Hv) as (x & l' & (s & ch & a & Hn & Hs & Hal & Hc) & -> & _).
    cbn. rewrite Hc. cbn. by rewrite node_cell_key.
  - intros it c l Hlive Hv. destruct (si_view_top it c l Hlive Hv) as (x & l' & Hl & -> & ->).
    cbn [Next slIter_SKVI]. unfold slIter_Next. pose proof Hl as (s & ch & a & Hn & Hs & Hal & Hc). rewrite Hc.
    cbn [lookup list_lookup].
    assert (si_suffix (mkSlIter (si_nodes it) (next_at (si_nodes it) x 0) (si_rng it)) l') as Hl'.
    { exists s, ch, (a ++ [x]). cbn. split_and!; [done..|by rewrite <- (assoc_L (++))|]. rewrite Hn.
      exact (suffix_next s ch Hs a x l' Hal). }
    destruct (si_checkEnd_spec _ _ Hl') as (Hlive' & Hview & Hnodes).
    eexists. split; [done|]. split; [exact Hlive'|]. rewrite Hnodes. split; [|done].
    by rewrite Hview, (si_suffix_view _ _ Hl').
  - intros it (l & Hl & _). cbn. rewrite (si_suffix_view _ _ Hl).
    etrans; [apply sublist_length, filter_sublist|]. rewrite length_fmap.
    destruct Hl as (s & ch & a & Hn & Hs & Hal & _). rewrite Hn. exact (suffix_length s ch Hs a l Hal).
Defined.

(** ** What ingestion keeps *)

Definition is_mutation_event (e : Entry) : bool :=
  match Event e with EventMutation | EventManyMutations => true | _ => false end.

Definition for_tablet (tabletID : Z) (e : Entry) : bool :=
  is_mutation_event e && ((tabletID =? AllTablets) || (TabletID e =? tabletID)).

Definition flushed (watermark : Z) (e : Entry) : bool := negb (watermark =? NoWatermark) && (Seq e <=? watermark).

(** The entries whose cells are held, and those the watermark dropped. *)
Definition kept (t w : Z) (es : list Entry) : list Entry :=
  filter (fun e => for_tablet t e && negb (flushed w e) = true) es.
Definition dropped (t w : Z) (es : list Entry) : list Entry :=
  filter (fun e => for_tablet t e && flushed w e = true) es.

Definition entry_cells (e : Entry) : list Cell := concat (Cells <$> Mutations e).

Lemma ingest_all_eq l ms : foldl ingestMutation l ms = insert_all (concat (Cells <$> ms)) l.
Proof.
  revert l. induction ms as [|m ms IH]; intros l; [done|]. cbn [foldl fmap list_fmap concat].
  unfold insert_all in *. rewrite foldl_app, IH. done.
Qed.

Lemma Ingest_eq m e :
  Ingest m e =
    if for_tablet (mt_tabletID m) e then
      if flushed (mt_watermark m) e
      then mkMemtable (mt_tabletID m) (mt_watermark m) (mt_list m) (mt_skipped m + 1)
      else mkMemtable (mt_tabletID m) (mt_watermark m) (insert_all (entry_cells e) (mt_list m)) (mt_skipped m)
    else m.
Proof.
  unfold Ingest, for_tablet, is_mutation_event, flushed, entry_cells. rewrite ingest_all_eq.
  destruct (Event e), (mt_tabletID m =? AllTablets), (TabletID e =? mt_tabletID m); done.
Qed.

Lemma IngestStream_ok es m :
  let m' := (IngestStream m (Ok <$> es)).1 in
  (IngestStream m (Ok <$> es)).2 = None /\
  mt_list m' = insert_all (concat (entry_cells <$> kept (mt_tabletID m) (mt_watermark m) es)) (mt_list m) /\
  mt_skipped m' = mt_skipped m + len (dropped (mt_tabletID m) (mt_watermark m) es).
Proof.
  revert m. induction es as [|e es IH]; intros m; cbn zeta.
  { cbn [fmap list_fmap IngestStream fst snd]. unfold kept, dropped. rewrite !filter_nil, len_nil. cbn. split_and!; [done..|lia]. }
  cbn [fmap list_fmap IngestStream]. destruct (IH (Ingest m e)) as (H1 & H2 & H3).
  assert (mt_tabletID (Ingest m e) = mt_tabletID m /\ mt_watermark (Ingest m e) = mt_watermark m) as [Et Ew].
  { rewrite Ingest_eq. by repeat case_match. }
  rewrite Et, Ew in H2, H3. change (list_fmap Entry (result Entry) Ok es) with (Ok <$> es).
  split; [done|]. rewrite H2, H3. unfold kept, dropped. rewrite !filter_cons, Ingest_eq.
  destruct (for_tablet (mt_tabletID m) e), (flushed (mt_watermark m) e); cbn [andb negb mt_list mt_skipped].
  - rewrite decide_False, decide_True by done. rewrite len_cons. split; [done|lia].
  - rewrite decide_True, decide_False by done. rewrite fmap_cons. cbn [concat]. unfold insert_all. rewrite foldl_app. done.
  - rewrite !decide_False by done. done.
  - rewrite !decide_False by done. done.
Qed.

(** ** Claims *)

(** C31: a memtable that has drained a log stream serves, to any seek, exactly
    the cells of the mutations of its tablet whose sequence number is above
    the flush watermark, restricted to the range and families, sorted, and for
    one full key the latest log entry first; [Skipped] counts the entries the
    watermark dropped. *)
Theorem memtable_serves_unflushed tabletID watermark coins es r cfs incl :
  let m := (IngestStream (New tabletID watermark coins) (Ok <$> es)).1 in
  let cells := concat (entry_cells <$> kept tabletID watermark es) in
  exists all, seek_drain r cfs incl (Memtable_Iterator m) =
      Ok (filter (fun c => Contains r c.1 && fam_passes cfs incl c.1 = true) all) /\
    sorted_cells all /\ all ≡ₚ cells /\
    (forall k, filter (fun c => c.1 = k) all = reverse (filter (fun c => c.1 = k) cells)) /\
    Memtable_Len m = len cells /\ Skipped m = len (dropped tabletID watermark es).
Proof.
  intros m cells. destruct (IngestStream_ok es (New tabletID watermark coins)) as (_ & Hl & Hsk). fold m in Hl, Hsk.
  cbn [New mt_tabletID mt_watermark mt_list mt_skipped] in Hl, Hsk. fold cells in Hl.
  assert (wf (mt_list m)) as Hwf by (rewrite Hl; apply wf_insert_all, wf_new).
  destruct (insert_all_contents cells _ (wf_new coins)) as [Hp Hk]. rewrite <- Hl in Hp, Hk.
  change (contents (newSkiplist coins)) with (@nil Cell) in Hp, Hk. rewrite app_nil_r in Hp.
  destruct Hwf as [ch Hch]. exists (contents (mt_list m)). split_and!.
  - rewrite seek_drain_ok by by exists ch. done.
  - exact (contents_sorted _ ch Hch).
  - done.
  - intros k. by rewrite Hk, app_nil_r.
  - unfold Memtable_Len, sl_len. rewrite (ok_len _ ch Hch). apply Permutation_length in Hp.
    rewrite (contents_ok _ ch Hch), length_fmap in Hp. unfold len. by rewrite Hp.
  - unfold Skipped. rewrite Hsk. lia.
Qed.

(** The embedded engine's memtable is, insertion by insertion and for the
    same random source, the log merger's skiplist with its levels counted from
    one; so it holds the inserted cells as the same sorted multimap, its
    iterator serves every cell of the range, latest write first among equal
    keys, and [Len] and [Deletes] count the cells and the tombstones. *)
Theorem embedded_memtable_refines coins cells r cfs incl :
  let sl := sm_insert_all cells (newSkiplistMemtable coins) in
  to_skiplist sl = insert_all cells (newSkiplist coins) /\
  sm_Len sl = len cells /\ sm_Deletes sl = len (filter (fun c => Deleted c.1 = true) cells) /\
  exists all, seek_drain r cfs incl (sm_Iterator sl) = Ok (filter (fun c => Contains r c.1 = true) all) /\
    sorted_cells all /\ all ≡ₚ cells /\
    forall k, filter (fun c => c.1 = k) all = reverse (filter (fun c => c.1 = k) cells).
Proof.
  intros sl. destruct (sm_insert_all_refines cells _ (sm_new_ok coins)) as [Href [Hwf _]]. fold sl in Href, Hwf.
  change (to_skiplist (newSkiplistMemtable coins)) with (newSkiplist coins) in Href.
  destruct (sm_counts cells (newSkiplistMemtable coins)) as [Hlen Hdel]. fold sl in Hlen, Hdel.
  split; [exact Href|]. split; [exact Hlen|]. split; [exact Hdel|].
  destruct (insert_all_contents cells _ (wf_new coins)) as [Hp Hk].
  change (contents (newSkiplist coins)) with (@nil Cell) in Hp, Hk. rewrite app_nil_r in Hp. rewrite <- Href in Hp, Hk.
  exists (contents (to_skiplist sl)). split_and!.
  - rewrite seek_drain_ok by (exists (to_skiplist sl); split; done). done.
  - destruct Hwf as [ch Hch]. exact (contents_sorted _ ch Hch).
  - done.
  - intros k. by rewrite Hk, app_nil_r.
Qed.

(** The embedded memtable's iterator breaks the column-family part of the
    interface: whatever families a seek restricts to, or excludes, it serves
    the same cells, where the log merger's iterator does not. *)
Theorem embedded_iterator_ignores_families :
  (forall coins cells r cfs incl cfs' incl',
    let it := sm_Iterator (sm_insert_all cells (newSkiplistMemtable coins)) in
    seek_drain r cfs incl it = seek_drain r cfs' incl' it) /\
  let cell := (mkKey [1] [2] [] [] 0 false, []) in
  seek_drain InfiniteRange [[3]] true (sm_Iterator (sm_insert_all [cell] (newSkiplistMemtable (fun _ => false)))) = Ok [cell] /\
  seek_drain InfiniteRange [[3]] true
    (mkMemIter (insert_all [cell] (newSkiplist (fun _ => false))) zero_range [] false false None) = Ok [].
Proof.
  split; [|split; reflexivity]. intros coins cells r cfs incl cfs' incl' it.
  assert (ready it) as Hr.
  { destruct (sm_insert_all_refines cells _ (sm_new_ok coins)) as [_ [Hwf _]].
    by exists (to_skiplist (sm_insert_all cells (newSkiplistMemtable coins))). }
  by rewrite !seek_drain_ok.
Qed.
