(* ===== verification/Cache.v ===== *)
(** * Cache: the decompressed-block cache (src/internal/cache/block.go)

    A map from (path, offset) to the elements of a doubly linked list in
    recency order.  An element of container/list is its identity and its
    value: the map holds identities, so replacing a payload through the map is
    seen through the list.  The cache is shown to refine a plain
    least-recently-used list of bounded total size.  The lock makes each
    method one step; the counters are read under no lock but only ever added
    to.  Lengths of slices in memory sum below 2^63. *)

From S2P Require Import Prelude.

Definition blockKey : Type := string * Z.

Record blockEntry := mkBlock { b_key : blockKey; b_payload : bytes }.

#[export] Instance blockKey_eq_dec : EqDecision blockKey.
Proof. unfold blockKey. solve_decision. Defined.
#[export] Instance blockEntry_eq_dec : EqDecision blockEntry.
Proof. solve_decision. Defined.

Record BlockCache := mkCache {
  c_capacity : Z;
  c_bytes : Z;
  c_lru : list (nat * blockEntry);
  c_lookup : gmap blockKey nat;
  c_next : nat;
  c_hits : Z;
  c_misses : Z;
  c_evicts : Z;
}.

Definition NewBlockCache (capacityBytes : Z) : BlockCache := mkCache capacityBytes 0 [] ∅ 0 0 0 0.

(** ** container/list *)

Definition element (id : nat) (l : list (nat * blockEntry)) : option blockEntry :=
  snd <$> List.find (fun e => (e.1 =? id)%nat) l.
Definition Remove (id : nat) (l : list (nat * blockEntry)) : list (nat * blockEntry) :=
  filter (fun e => e.1 <> id) l.
Definition MoveToFront (id : nat) (l : list (nat * blockEntry)) : list (nat * blockEntry) :=
  match element id l with Some e => (id, e) :: Remove id l | None => l end.
(** [el.Value.payload = payload]. *)
Definition set_payload (id : nat) (payload : bytes) (l : list (nat * blockEntry)) : list (nat * blockEntry) :=
  (fun e => if (e.1 =? id)%nat then (id, mkBlock (b_key e.2) payload) else e) <$> l.

(** ** Operations *)

(** [None] is a nil pointer dereference: the receiver is nil and the method
    touches its counter. *)
Definition Get (path : string) (offset : Z) (c : option BlockCache) : option (BlockCache * (bytes * bool)) :=
  match c with
  | None => None
  | Some c =>
      let miss := mkCache (c_capacity c) (c_bytes c) (c_lru c) (c_lookup c) (c_next c)
                    (c_hits c) (c_misses c + 1) (c_evicts c) in
      if c_capacity c <=? 0 then Some (miss, ([], false))
      else match c_lookup c !! ((path, offset) : blockKey) with
      | None => Some (miss, ([], false))
      | Some el =>
          let payload := match element el (c_lru c) with Some e => b_payload e | None => [] end in
          Some (mkCache (c_capacity c) (c_bytes c) (MoveToFront el (c_lru c)) (c_lookup c) (c_next c)
                  (c_hits c + 1) (c_misses c) (c_evicts c), (payload, true))
      end
  end.

Definition evictOldestLocked (c : BlockCache) : BlockCache :=
  match last (c_lru c) with
  | None => c
  | Some (el, entry) =>
      mkCache (c_capacity c) (c_bytes c - len (b_payload entry)) (Remove el (c_lru c))
        (delete (b_key entry) (c_lookup c)) (c_next c) (c_hits c) (c_misses c) (c_evicts c + 1)
  end.

(** Each turn removes an element. *)
Fixpoint evict_loop (fuel : nat) (c : BlockCache) : BlockCache :=
  match fuel with
  | O => c
  | S fuel =>
      if (c_bytes c >? c_capacity c) && (len (c_lru c) >? 0) then evict_loop fuel (evictOldestLocked c) else c
  end.

Definition insert_block (path : string) (offset : Z) (payload : bytes) (c : BlockCache) : BlockCache :=
  let key : blockKey := (path, offset) in
  match c_lookup c !! key with
  | Some el =>
      let old := match element el (c_lru c) with Some e => b_payload e | None => [] end in
      mkCache (c_capacity c) (c_bytes c - len old + len payload)
        (MoveToFront el (set_payload el payload (c_lru c))) (c_lookup c) (c_next c)
        (c_hits c) (c_misses c) (c_evicts c)
  | None =>
      mkCache (c_capacity c) (c_bytes c + len payload) ((c_next c, mkBlock key payload) :: c_lru c)
        (<[key := c_next c]> (c_lookup c)) (S (c_next c)) (c_hits c) (c_misses c) (c_evicts c)
  end.

Definition Put (path : string) (offset : Z) (payload : bytes) (c : option BlockCache) : option BlockCache :=
  match c with
  | None => None
  | Some c =>
      if (c_capacity c <=? 0) || (len payload =? 0) then Some c
      else
        let c := insert_block path offset payload c in
        Some (evict_loop (S (length (c_lru c))) c)
  end.

Record Stats := mkStats {
  Hits : Z; Misses : Z; Evicts : Z; BytesUsed : Z; Capacity : Z; Entries : Z;
}.

Definition get_Stats (c : option BlockCache) : Stats :=
  match c with
  | None => mkStats 0 0 0 0 0 0
  | Some c => mkStats (c_hits c) (c_misses c) (c_evicts c) (c_bytes c) (c_capacity c) (len (c_lru c))
  end.

(** The walk reads the successor before it removes an element. *)
Fixpoint drop_loop (path : string) (els : list (nat * blockEntry)) (c : BlockCache) : BlockCache :=
  match els with
  | [] => c
  | (el, entry) :: els =>
      drop_loop path els
        (if bool_decide ((b_key entry).1 = path)
         then mkCache (c_capacity c) (c_bytes c - len (b_payload entry)) (Remove el (c_lru c))
                (delete (b_key entry) (c_lookup c)) (c_next c) (c_hits c) (c_misses c) (c_evicts c)
         else c)
  end.

Definition Drop (path : string) (c : option BlockCache) : option BlockCache :=
  match c with None => None | Some c => Some (drop_loop path (c_lru c) c) end.

(** ** The specification: a recency list *)

Abbreviation blocks := (list blockEntry).

Definition total (l : blocks) : Z := foldr (fun e n => len (b_payload e) + n) 0 l.
Arguments total : simpl never.

Definition without (k : blockKey) (l : blocks) : blocks := filter (fun e => b_key e <> k) l.

Definition spec_find (k : blockKey) (l : blocks) : option blockEntry :=
  List.find (fun e => bool_decide (b_key e = k)) l.

(** The longest prefix whose payloads fit. *)
Fixpoint fit (capacity : Z) (l : blocks) : blocks :=
  match l with
  | [] => []
  | e :: l => if len (b_payload e) <=? capacity then e :: fit (capacity - len (b_payload e)) l else []
  end.

Definition spec_Get (k : blockKey) (l : blocks) : blocks * option bytes :=
  match spec_find k l with
  | Some e => (e :: without k l, Some (b_payload e))
  | None => (l, None)
  end.

Definition spec_Put (capacity : Z) (k : blockKey) (payload : bytes) (l : blocks) : blocks :=
  fit capacity (mkBlock k payload :: without k l).

Definition spec_Drop (path : string) (l : blocks) : blocks := filter (fun e => (b_key e).1 <> path) l.

(** ** The invariant *)

Record cache_inv (c : BlockCache) : Prop := {
  inv_ids : NoDup (c_lru c).*1;
  inv_next i e : (i, e) ∈ c_lru c -> (i < c_next c)%nat;
  inv_lookup k i : c_lookup c !! k = Some i <-> exists p, (i, mkBlock k p) ∈ c_lru c;
  inv_bytes : c_bytes c = total (c_lru c).*2;
}.

Lemma new_inv cap : cache_inv (NewBlockCache cap).
Proof.
  split; cbn; [constructor|by intros ? ? ?%elem_of_nil| |done].
  intros k i. rewrite lookup_empty. split; [done|]. by intros (p & ?%elem_of_nil).
Qed.

Section lists.
Context (l : list (nat * blockEntry)) (Hnd : NoDup l.*1).

Lemma same_entry i e e' : (i, e) ∈ l -> (i, e') ∈ l -> e = e'.
Proof.
  induction l as [|[j d] l' IH]; [by intros ?%elem_of_nil|].
  rewrite fmap_cons in Hnd. apply NoDup_cons in Hnd as [Hj Hnd']. cbn in Hj.
  assert (forall d', (j, d') ∈ l' -> False) as Hno.
  { intros d' Hd'. apply Hj. apply list_elem_of_fmap. by exists (j, d'). }
  intros [[= -> ->]|H1]%elem_of_cons [[= <-]|H2]%elem_of_cons; [done|..].
  - by apply Hno in H2.
  - subst. by apply Hno in H1.
  - by apply (IH Hnd').
Qed.

Lemma element_spec i e : (i, e) ∈ l -> element i l = Some e.
Proof.
  intros Hin. unfold element. destruct (List.find _ l) as [[j d]|] eqn:E.
  - apply find_some in E as [Hj Hji]. cbn in Hji. apply Nat.eqb_eq in Hji as ->. cbn. f_equal.
    apply (same_entry i); [by apply list_elem_of_In|done].
  - eapply find_none in E; [|by apply list_elem_of_In]. cbn in E. by rewrite Nat.eqb_refl in E.
Qed.

Lemma Remove_perm i e : (i, e) ∈ l -> l ≡ₚ (i, e) :: Remove i l.
Proof.
  intros Hin. unfold Remove. revert Hin. induction l as [|[j d] l' IH]; [by intros ?%elem_of_nil|].
  rewrite fmap_cons in Hnd. apply NoDup_cons in Hnd as [Hj Hnd']. cbn in Hj.
  intros [[= <- <-]|Hin]%elem_of_cons.
  - rewrite filter_cons_False by naive_solver. constructor.
    rewrite filter_all; [done|]. apply Forall_forall. intros [k f] Hk. cbn. intros ->. apply Hj.
    apply list_elem_of_fmap. by exists (i, f).
  - assert (j <> i) by (intros ->; apply Hj, list_elem_of_fmap; by exists (i, e)).
    rewrite filter_cons_True by done. rewrite (IH Hnd' Hin) at 1. by constructor.
Qed.

(** Elements are removed by identity, the specification's entries by key. *)
Lemma Remove_snd i e :
  (i, e) ∈ l -> (forall j d, (j, d) ∈ l -> b_key d = b_key e -> j = i) ->
  (Remove i l).*2 = without (b_key e) l.*2.
Proof.
  intros Hin Hk. unfold Remove, without.
  assert (forall l', (forall x, x ∈ l' -> x ∈ l) ->
    (filter (fun x => x.1 <> i) l').*2 = filter (fun d => b_key d <> b_key e) l'.*2) as Hgen; [|by apply Hgen].
  induction l' as [|[j d] l' IH]; intros Hsub; [done|]. rewrite fmap_cons, !filter_cons. cbn [fst snd].
  assert (b_key d = b_key e <-> j = i) as Hiff.
  { assert ((j, d) ∈ l) as Hj by (apply Hsub; constructor). split; [by apply Hk|].
    intros ->. f_equal. by apply (same_entry i). }
  rewrite <- IH by (intros; apply Hsub; by constructor). repeat case_decide; tauto.
Qed.
End lists.

Lemma filter_iff_in {A} (P Q : A -> Prop) `{forall x, Decision (P x), forall x, Decision (Q x)} (l : list A) :
  (forall x, x ∈ l -> P x <-> Q x) -> filter P l = filter Q l.
Proof.
  induction l as [|x l IH]; intros HPQ; [done|]. rewrite !filter_cons, IH by (intros; apply HPQ; by right).
  pose proof (HPQ x (list_elem_of_here _ _)). repeat case_decide; tauto.
Qed.

Lemma total_cons e l : total (e :: l) = len (b_payload e) + total l.
Proof. done. Qed.

Lemma total_perm l1 l2 : l1 ≡ₚ l2 -> total l1 = total l2.
Proof. induction 1; rewrite ?total_cons; lia. Qed.

Lemma total_nonneg l : 0 <= total l.
Proof.
  induction l as [|e l IH]; [done|]. rewrite total_cons. pose proof (len_nonneg (b_payload e)). lia.
Qed.

Lemma total_app l1 l2 : total (l1 ++ l2) = total l1 + total l2.
Proof. induction l1 as [|e l1 IH]; [done|]. rewrite <-app_comm_cons, !total_cons. lia. Qed.

(** One element per key. *)
Lemma inv_key c i j d e :
  cache_inv c -> (i, d) ∈ c_lru c -> (j, e) ∈ c_lru c -> b_key d = b_key e -> i = j.
Proof.
  intros Hc Hi Hj Hk. destruct d as [k p], e as [k' p']. cbn in Hk. subst k'.
  assert (c_lookup c !! k = Some i) as E1 by (apply (inv_lookup c Hc); eauto).
  assert (c_lookup c !! k = Some j) as E2 by (apply (inv_lookup c Hc); eauto). congruence.
Qed.

(** Removing an element from the list and its key from the map. *)
Lemma remove_inv c i e evicts :
  cache_inv c -> (i, e) ∈ c_lru c ->
  let c' := mkCache (c_capacity c) (c_bytes c - len (b_payload e)) (Remove i (c_lru c))
              (delete (b_key e) (c_lookup c)) (c_next c) (c_hits c) (c_misses c) evicts in
  cache_inv c' /\ (c_lru c').*2 = without (b_key e) (c_lru c).*2.
Proof.
  intros Hc Hin c'. pose proof (Remove_perm _ (inv_ids c Hc) i e Hin) as Hp. split.
  - split; cbn.
    + pose proof (inv_ids c Hc) as Hnd. rewrite Hp in Hnd. rewrite fmap_cons in Hnd. by apply NoDup_cons in Hnd as [_ ?].
    + intros j d Hj. apply (inv_next c Hc j d). by apply list_elem_of_filter in Hj as [_ ?].
    + intros k j. rewrite lookup_delete_Some, (inv_lookup c Hc). split.
      * intros (Hne & p & Hj). exists p. apply list_elem_of_filter. cbn. split; [|done].
        intros ->. apply Hne. symmetry. change k with (b_key (mkBlock k p)). f_equal.
        by apply (same_entry _ (inv_ids c Hc) i).
      * intros (p & Hj). apply list_elem_of_filter in Hj as [Hne Hj]. cbn in Hne. split; [|by exists p].
        intros Hk. apply Hne. eapply (inv_key c j i _ e Hc Hj Hin). by cbn.
    + rewrite (inv_bytes c Hc).
      assert ((c_lru c).*2 ≡ₚ e :: (Remove i (c_lru c)).*2) as Hp2 by (by rewrite Hp at 1).
      rewrite (total_perm _ _ Hp2), total_cons. lia.
  - apply Remove_snd; [apply Hc|done|]. intros j d Hj Hk. by apply (inv_key c j i d e Hc).
Qed.

Lemma evict_inv c e l :
  cache_inv c -> (c_lru c).*2 = l ++ [e] ->
  cache_inv (evictOldestLocked c) /\ (c_lru (evictOldestLocked c)).*2 = l /\
  c_bytes (evictOldestLocked c) = c_bytes c - len (b_payload e) /\
  c_capacity (evictOldestLocked c) = c_capacity c.
Proof.
  intros Hc Hl. unfold evictOldestLocked.
  assert (last (c_lru c).*2 = Some e) as Hlast by (by rewrite Hl, last_snoc).
  rewrite fmap_last in Hlast. destruct (last (c_lru c)) as [[i e']|] eqn:El; [|done].
  injection Hlast as ->. pose proof (last_Some_elem_of _ _ El) as Hin.
  destruct (remove_inv c i e (c_evicts c + 1) Hc Hin) as [Hinv Hsnd]. split; [exact Hinv|].
  split; [|done]. cbn [c_lru] in Hsnd |- *. rewrite Hsnd, Hl. unfold without. rewrite filter_app.
  rewrite filter_cons_False, filter_nil, app_nil_r by tauto. apply filter_all, Forall_forall.
  intros d Hd Hk. apply last_Some in El as [l0 El]. rewrite El, fmap_app in Hl. cbn in Hl.
  apply app_inj_tail in Hl as [<- _]. apply list_elem_of_fmap in Hd as ([j d'] & -> & Hj). cbn in Hk.
  assert (j = i) as ->.
  { apply (inv_key c j i d' e Hc); [rewrite El; apply elem_of_app; by left|done|done]. }
  pose proof (inv_ids c Hc) as Hnd. rewrite El, fmap_app in Hnd. apply NoDup_app in Hnd as (_ & Hnd & _).
  apply (Hnd i); [apply list_elem_of_fmap; by exists (i, d')|]. cbn. constructor.
Qed.

(** ** The eviction loop keeps the longest prefix that fits *)

Lemma fit_all cap l : total l <= cap -> fit cap l = l.
Proof.
  revert cap. induction l as [|e l IH]; intros cap; [done|]. rewrite total_cons.
  pose proof (total_nonneg l). intros. cbn [fit].
  replace (len (b_payload e) <=? cap) with true by lia. rewrite IH; [done|lia].
Qed.

Lemma fit_snoc cap l e : cap < total (l ++ [e]) -> fit cap (l ++ [e]) = fit cap l.
Proof.
  revert cap. induction l as [|d l IH]; intros cap; cbn [app]; rewrite total_cons.
  - unfold total. cbn [foldr fit]. intros. by replace (len (b_payload e) <=? cap) with false by lia.
  - intros. cbn [fit]. destruct (len (b_payload d) <=? cap); [|done]. f_equal. apply IH. lia.
Qed.

Lemma fit_total cap l : 0 <= cap -> total (fit cap l) <= cap.
Proof.
  revert cap. induction l as [|d l IH]; intros cap Hcap; cbn [fit]; [by unfold total|].
  destruct (Z.leb_spec (len (b_payload d)) cap); [|by unfold total].
  rewrite total_cons. specialize (IH (cap - len (b_payload d))). lia.
Qed.

Definition blocks_of (c : BlockCache) : blocks := (c_lru c).*2.

Lemma evict_loop_fit fuel c :
  cache_inv c -> 0 <= c_capacity c -> (length (c_lru c) < fuel)%nat ->
  let c' := evict_loop fuel c in
  cache_inv c' /\ blocks_of c' = fit (c_capacity c) (blocks_of c) /\ c_capacity c' = c_capacity c.
Proof.
  revert c. induction fuel as [|fuel IH]; intros c Hc Hcap Hf; [lia|]. cbn [evict_loop].
  pose proof (inv_bytes c Hc) as Hb. fold (blocks_of c) in Hb.
  destruct (Z.gtb_spec (c_bytes c) (c_capacity c)) as [Hgt|Hle]; cbn [andb].
  - destruct (blocks_of c) as [|e l _] eqn:E using rev_ind.
    { unfold total in Hb. cbn in Hb. lia. }
    destruct (evict_inv c e l Hc E) as (Hc' & Hl & _ & Hcap').
    assert (length (c_lru c) = S (length l)) as Hlen.
    { rewrite <-(length_fmap snd). unfold blocks_of in E. rewrite E, length_app. cbn [length]. lia. }
    replace (len (c_lru c) >? 0) with true by (unfold len; lia).
    assert (length (c_lru (evictOldestLocked c)) = length l) as Hlen'
      by (by rewrite <-(length_fmap snd), Hl).
    destruct (IH (evictOldestLocked c)) as (H1 & H2 & H3); [done|lia|lia|].
    split; [exact H1|]. split; [|congruence]. rewrite H2, Hcap'. unfold blocks_of. rewrite Hl.
    symmetry. apply fit_snoc. lia.
  - by rewrite fit_all by lia.
Qed.

(** ** One step of each operation *)

Lemma key_ids c k i p : cache_inv c -> (i, mkBlock k p) ∈ c_lru c -> c_lookup c !! k = Some i.
Proof. intros Hc Hin. apply (inv_lookup c Hc). by exists p. Qed.

(** Pushing an element whose identity and key are not there. *)
Lemma push_inv c i e next hits misses :
  cache_inv c -> c_lookup c !! b_key e = None -> (forall d, ~ (i, d) ∈ c_lru c) ->
  (c_next c <= next)%nat -> (i < next)%nat ->
  cache_inv (mkCache (c_capacity c) (c_bytes c + len (b_payload e)) ((i, e) :: c_lru c)
    (<[b_key e := i]> (c_lookup c)) next hits misses (c_evicts c)).
Proof.
  intros Hc Hk Hi Hnext Hlt. split; cbn.
  - constructor; [|apply Hc]. intros ([j d] & -> & Hj)%list_elem_of_fmap. by apply (Hi d).
  - intros j d [[= -> ->]|Hj]%elem_of_cons; [done|]. pose proof (inv_next c Hc j d Hj). lia.
  - intros k j. rewrite lookup_insert_Some, (inv_lookup c Hc). split.
    + intros [[<- <-]|(Hne & p & Hj)]; [|exists p; by constructor]. exists (b_payload e). destruct e. by left.
    + intros (p & [[= -> <-]|Hj]%elem_of_cons); [by left|]. right. split; [|by exists p].
      intros Hkk. rewrite Hkk, (key_ids c k j p Hc Hj) in Hk. done.
  - rewrite total_cons, (inv_bytes c Hc). lia.
Qed.

Lemma lookup_find c k :
  cache_inv c ->
  match c_lookup c !! k with
  | Some i => exists e, (i, e) ∈ c_lru c /\ b_key e = k /\ spec_find k (blocks_of c) = Some e
  | None => spec_find k (blocks_of c) = None /\ without k (blocks_of c) = blocks_of c
  end.
Proof.
  intros Hc. destruct (c_lookup c !! k) as [i|] eqn:E.
  - apply (inv_lookup c Hc) in E as (p & Hin). exists (mkBlock k p). split_and!; [done|done|].
    unfold spec_find. destruct (List.find _ _) as [d|] eqn:F.
    + apply find_some in F as [Hd Hk]. apply bool_decide_eq_true in Hk.
      apply list_elem_of_In, list_elem_of_fmap in Hd as ([j d'] & -> & Hj). cbn in *. f_equal.
      assert (j = i) as -> by (by apply (inv_key c j i d' (mkBlock k p) Hc)).
      by apply (same_entry _ (inv_ids c Hc) i).
    + eapply find_none in F; [|apply list_elem_of_In, list_elem_of_fmap; by exists (i, mkBlock k p)].
      cbn in F. by rewrite bool_decide_eq_true_2 in F.
  - assert (forall d, d ∈ blocks_of c -> b_key d <> k) as Hno.
    { intros d Hd <-. apply list_elem_of_fmap in Hd as ([j [kk p]] & -> & Hj). cbn in E.
      by rewrite (key_ids c kk j p Hc Hj) in E. }
    split; [|by apply filter_all, Forall_forall].
    unfold spec_find. destruct (List.find _ _) as [d|] eqn:F; [|done].
    apply find_some in F as [Hd Hk%bool_decide_eq_true]. by apply list_elem_of_In, Hno in Hd.
Qed.

(** An element moved to the front, with a payload that may be new. *)
Lemma refresh_inv c i e payload hits misses :
  cache_inv c -> (i, e) ∈ c_lru c ->
  let c' := mkCache (c_capacity c) (c_bytes c - len (b_payload e) + len payload)
    ((i, mkBlock (b_key e) payload) :: Remove i (c_lru c)) (c_lookup c) (c_next c) hits misses (c_evicts c) in
  cache_inv c' /\ blocks_of c' = mkBlock (b_key e) payload :: without (b_key e) (blocks_of c).
Proof.
  intros Hc Hin c'. destruct (remove_inv c i e (c_evicts c) Hc Hin) as [Hr Hsnd]. cbn [c_lru] in Hsnd.
  split; [|unfold blocks_of, c'; cbn [c_lru]; rewrite fmap_cons; by f_equal].
  assert (c_lookup c !! b_key e = Some i) as Hk by (apply (key_ids c _ i (b_payload e) Hc); by destruct e).
  pose proof (push_inv _ i (mkBlock (b_key e) payload) (c_next c) hits misses Hr) as Hp. cbn in Hp.
  rewrite insert_delete_eq, insert_id in Hp by done. apply Hp.
  - apply lookup_delete_eq.
  - intros d [Hne _]%list_elem_of_filter. done.
  - done.
  - by apply (inv_next c Hc i e).
Qed.

Lemma element_set_payload i e payload l :
  NoDup l.*1 -> (i, e) ∈ l ->
  MoveToFront i (set_payload i payload l) = (i, mkBlock (b_key e) payload) :: Remove i l.
Proof.
  intros Hnd Hin. unfold MoveToFront.
  assert (Remove i (set_payload i payload l) = Remove i l) as ->.
  { unfold Remove, set_payload. clear Hnd Hin. induction l as [|[j d] l IH]; [done|].
    rewrite fmap_cons, !filter_cons. cbn [fst snd]. destruct (Nat.eqb_spec j i) as [->|Hne]; cbn [fst].
    - repeat (rewrite decide_False by tauto). done.
    - repeat (rewrite decide_True by done). by rewrite IH. }
  rewrite (element_spec (set_payload i payload l)) with (e := mkBlock (b_key e) payload); [done| |].
  - unfold set_payload. rewrite <-list_fmap_compose.
    rewrite (list_fmap_ext _ fst); [done|]. intros _ [j d] _. cbn. by destruct (Nat.eqb_spec j i).
  - apply list_elem_of_fmap. exists (i, e). cbn. by rewrite Nat.eqb_refl.
Qed.

Lemma Get_refines path off c :
  cache_inv c -> 0 < c_capacity c ->
  exists c' p ok, Get path off (Some c) = Some (c', (p, ok)) /\ cache_inv c' /\
    c_capacity c' = c_capacity c /\
    spec_Get (path, off) (blocks_of c) = (blocks_of c', if ok then Some p else None) /\
    c_hits c' + c_misses c' = c_hits c + c_misses c + 1.
Proof.
  intros Hc Hcap. unfold Get, spec_Get. replace (c_capacity c <=? 0) with false by lia.
  pose proof (lookup_find c (path, off) Hc) as Hl. destruct (c_lookup c !! ((path, off) : blockKey)) as [i|] eqn:E.
  - destruct Hl as (e & Hin & Hk & ->). rewrite (element_spec _ (inv_ids c Hc) i e Hin).
    unfold MoveToFront. rewrite (element_spec _ (inv_ids c Hc) i e Hin).
    destruct (refresh_inv c i e (b_payload e) (c_hits c + 1) (c_misses c) Hc Hin) as [Hr Hb].
    replace (mkBlock (b_key e) (b_payload e)) with e in Hr, Hb by (by destruct e).
    replace (c_bytes c - len (b_payload e) + len (b_payload e)) with (c_bytes c) in Hr by lia.
    eexists _, _, _. split; [reflexivity|]. split; [exact Hr|]. split; [done|].
    split; [|cbn; lia]. rewrite <-Hk. by f_equal.
  - destruct Hl as [-> _]. eexists _, _, _. split; [reflexivity|]. split_and!; [|done|done|cbn; lia].
    split; [apply Hc|apply (inv_next c Hc)|apply (inv_lookup c Hc)|apply (inv_bytes c Hc)].
Qed.

Lemma insert_block_refines path off payload c :
  cache_inv c ->
  let c' := insert_block path off payload c in
  cache_inv c' /\ c_capacity c' = c_capacity c /\
  blocks_of c' = mkBlock (path, off) payload :: without (path, off) (blocks_of c).
Proof.
  intros Hc. unfold insert_block.
  pose proof (lookup_find c (path, off) Hc) as Hl. destruct (c_lookup c !! ((path, off) : blockKey)) as [i|] eqn:E.
  - destruct Hl as (e & Hin & Hk & _). rewrite (element_spec _ (inv_ids c Hc) i e Hin).
    rewrite (element_set_payload i e _ _ (inv_ids c Hc) Hin).
    destruct (refresh_inv c i e payload (c_hits c) (c_misses c) Hc Hin) as [Hr Hb].
    split; [exact Hr|]. split; [done|]. by rewrite <-Hk.
  - destruct Hl as [_ Hw]. split; [|split; [done|]; by rewrite Hw].
    apply (push_inv c (c_next c) (mkBlock (path, off) payload)); [done|done| |lia|lia].
    intros d Hd. pose proof (inv_next c Hc _ d Hd). lia.
Qed.

Lemma Put_refines path off payload c :
  cache_inv c -> 0 < c_capacity c -> payload <> [] ->
  exists c', Put path off payload (Some c) = Some c' /\ cache_inv c' /\ c_capacity c' = c_capacity c /\
    blocks_of c' = spec_Put (c_capacity c) (path, off) payload (blocks_of c).
Proof.
  intros Hc Hcap Hp. unfold Put. replace (c_capacity c <=? 0) with false by lia.
  replace (len payload =? 0) with false by (destruct payload; [done|rewrite len_cons; pose proof (len_nonneg payload); lia]).
  cbn [orb]. destruct (insert_block_refines path off payload c Hc) as (Hi & Hc1 & Hb).
  destruct (evict_loop_fit (S (length (c_lru (insert_block path off payload c))))
    (insert_block path off payload c) Hi) as (H1 & H2 & H3); [lia|lia|].
  eexists. split; [reflexivity|]. split; [exact H1|]. split; [congruence|].
  rewrite H2, Hc1, Hb. done.
Qed.

Lemma drop_loop_refines path els c :
  cache_inv c -> (forall i e, (i, e) ∈ els -> (b_key e).1 = path -> (i, e) ∈ c_lru c) -> NoDup els.*1 ->
  let c' := drop_loop path els c in
  cache_inv c' /\ c_capacity c' = c_capacity c /\
  blocks_of c' = filter (fun e => (b_key e).1 <> path \/ ~ e ∈ els.*2) (blocks_of c).
Proof.
  revert c. induction els as [|[i e] els IH]; intros c Hc Hels Hnd.
  { cbn. split; [done|]. split; [done|]. symmetry. apply filter_all, Forall_forall. intros.
    right. by intros ?%elem_of_nil. }
  rewrite fmap_cons in Hnd. apply NoDup_cons in Hnd as [Hi Hnd]. cbn [drop_loop].
  case_bool_decide as Hk.
  - assert ((i, e) ∈ c_lru c) as Hin by (apply Hels; [by left|done]).
    destruct (remove_inv c i e (c_evicts c) Hc Hin) as [Hr Hsnd]. cbn [c_lru] in Hsnd.
    match goal with |- context [drop_loop path els ?d] => set (c1 := d) end.
    destruct (IH c1 Hr) as (H1 & H2 & H3); [|done|].
    { intros j d Hj Hd. apply list_elem_of_filter. cbn. split; [|apply Hels; [by right|done]].
      intros ->. apply Hi, list_elem_of_fmap. by exists (i, d). }
    split; [exact H1|]. split; [done|]. rewrite H3.
    assert (blocks_of c1 = without (b_key e) (blocks_of c)) as -> by exact Hsnd.
    unfold without. rewrite list_filter_filter. apply filter_iff_in. intros d Hd.
    change ((i, e) :: els).*2 with (e :: els.*2). rewrite not_elem_of_cons.
    assert (b_key d = b_key e -> d = e) as Huniq.
    { intros Hkk. apply list_elem_of_fmap in Hd as ([j d'] & -> & Hj). cbn in *.
      assert (j = i) as -> by (by apply (inv_key c j i d' e Hc)). by apply (same_entry _ (inv_ids c Hc) i). }
    split.
    + intros [[Hp|Hp] Hne]; [by left|right]. split; [|done]. intros ->. done.
    + intros [Hp|[Hne Hp]]; (split; [tauto|]); [congruence|]. intros Hkk. apply Hne, Huniq, Hkk.
  - destruct (IH c Hc) as (H1 & H2 & H3); [intros j d Hj; apply Hels; by right|done|].
    split; [exact H1|]. split; [done|]. rewrite H3. apply filter_iff_in. intros d Hd.
    change ((i, e) :: els).*2 with (e :: els.*2). rewrite not_elem_of_cons. destruct (decide (d = e)) as [->|]; tauto.
Qed.

Lemma Drop_refines path c :
  cache_inv c ->
  exists c', Drop path (Some c) = Some c' /\ cache_inv c' /\ c_capacity c' = c_capacity c /\
    blocks_of c' = spec_Drop path (blocks_of c).
Proof.
  intros Hc. destruct (drop_loop_refines path (c_lru c) c Hc) as (H1 & H2 & H3); [done|apply Hc|].
  eexists. split; [reflexivity|]. split; [exact H1|]. split; [done|]. rewrite H3.
  apply filter_iff_in. intros d Hd. unfold blocks_of in Hd. tauto.
Qed.

(** ** Sequences of operations *)

Inductive op :=
| OGet (path : string) (offset : Z)
| OPut (path : string) (offset : Z) (payload : bytes)
| ODrop (path : string).

(** The output of a [Get]; the other operations return nothing. *)
Definition exec (o : op) (c : option BlockCache) : option (option BlockCache * option bytes) :=
  match o with
  | OGet path offset =>
      '(c', (p, ok)) ← Get path offset c; Some (Some c', if (ok : bool) then Some p else None)
  | OPut path offset payload => Some (Put path offset payload c, None)
  | ODrop path => Some (Drop path c, None)
  end.

Fixpoint exec_all (os : list op) (c : option BlockCache) : option (option BlockCache * list (option bytes)) :=
  match os with
  | [] => Some (c, [])
  | o :: os =>
      '(c, out) ← exec o c;
      '(c, outs) ← exec_all os c;
      Some (c, out :: outs)
  end.

Definition spec_step (capacity : Z) (o : op) (l : blocks) : blocks * option bytes :=
  match o with
  | OGet path offset => spec_Get (path, offset) l
  | OPut path offset [] => (l, None)
  | OPut path offset payload => (spec_Put capacity (path, offset) payload l, None)
  | ODrop path => (spec_Drop path l, None)
  end.

Fixpoint spec_all (capacity : Z) (os : list op) (l : blocks) : blocks * list (option bytes) :=
  match os with
  | [] => (l, [])
  | o :: os =>
      let '(l, out) := spec_step capacity o l in
      let '(l, outs) := spec_all capacity os l in
      (l, out :: outs)
  end.

Lemma exec_refines o c :
  cache_inv c -> 0 < c_capacity c ->
  exists c' out, exec o (Some c) = Some (Some c', out) /\ cache_inv c' /\ c_capacity c' = c_capacity c /\
    spec_step (c_capacity c) o (blocks_of c) = (blocks_of c', out).
Proof.
  intros Hc Hcap. destruct o as [path off|path off payload|path]; cbn [exec spec_step].
  - destruct (Get_refines path off c Hc Hcap) as (c' & p & ok & -> & H1 & H2 & H3 & _). cbn. eauto 10.
  - destruct payload as [|b payload].
    + unfold Put. cbn [len length]. rewrite orb_true_r. eauto 10.
    + destruct (Put_refines path off (b :: payload) c Hc Hcap) as (c' & -> & H1 & H2 & H3); [done|].
      eexists _, _. split; [reflexivity|]. by rewrite H3.
  - destruct (Drop_refines path c Hc) as (c' & -> & H1 & H2 & H3). eexists _, _. split; [reflexivity|]. by rewrite H3.
Qed.

Lemma exec_all_refines os c :
  cache_inv c -> 0 < c_capacity c ->
  exists c' outs, exec_all os (Some c) = Some (Some c', outs) /\ cache_inv c' /\ c_capacity c' = c_capacity c /\
    spec_all (c_capacity c) os (blocks_of c) = (blocks_of c', outs).
Proof.
  revert c. induction os as [|o os IH]; intros c Hc Hcap; [cbn; eauto 10|].
  destruct (exec_refines o c Hc Hcap) as (c1 & out & E & H1 & H2 & H3).
  destruct (IH c1 H1) as (c' & outs & E' & H1' & H2' & H3'); [lia|].
  exists c', (out :: outs). split; [cbn [exec_all]; rewrite E; cbn; by rewrite E'|].
  split; [done|]. split; [congruence|]. cbn [spec_all]. rewrite H3, <-H2, H3'. done.
Qed.

Lemma spec_step_total cap o l : 0 <= cap -> total l <= cap -> total (spec_step cap o l).1 <= cap.
Proof.
  assert (forall P `{forall e, Decision (P e)} (l : blocks), total (filter P l) <= total l) as Hf.
  { intros P ? l0. induction l0 as [|e l0 IH]; [done|]. rewrite filter_cons.
    pose proof (len_nonneg (b_payload e)). case_decide; rewrite ?total_cons; lia. }
  intros Hcap Hl. destruct o as [path off|path off payload|path]; cbn [spec_step].
  - unfold spec_Get. destruct (spec_find _ l) as [e|] eqn:E; [|done]. cbn [fst].
    apply find_some in E as [Hin Hk%bool_decide_eq_true]. apply list_elem_of_In in Hin.
    apply list_elem_of_split in Hin as (l1 & l2 & ->). rewrite total_app, total_cons in Hl.
    unfold without. rewrite total_cons, filter_app, total_app, filter_cons_False by tauto.
    pose proof (Hf (fun e0 => b_key e0 <> (path, off)) _ l1).
    pose proof (Hf (fun e0 => b_key e0 <> (path, off)) _ l2). lia.
  - destruct payload; [done|]. by apply fit_total.
  - unfold spec_Drop. cbn [fst]. pose proof (Hf (fun e0 => (b_key e0).1 <> path) _ l). lia.
Qed.

Lemma spec_all_total cap os l : 0 <= cap -> total l <= cap -> total (spec_all cap os l).1 <= cap.
Proof.
  intros Hcap. revert l. induction os as [|o os IH]; intros l Hl; [done|].
  cbn [spec_all]. pose proof (spec_step_total cap o l Hcap Hl) as H1. destruct (spec_step cap o l) as [l1 out].
  specialize (IH l1 H1). by destruct (spec_all cap os l1).
Qed.

(** C37: from the empty cache, any sequence of gets, puts and drops runs
    without a panic and answers exactly as the recency list of bounded total
    size that specifies the cache: a get returns the payload last put and not
    dropped, unless it has been pushed out, and moves it to the front; a put
    keeps the longest prefix of the recency list that fits.  The two views of
    the contents, the map of element pointers and the list, agree throughout
    ([cache_inv]), and the byte count reported by [Stats] is the sum of the
    payloads held and never exceeds the capacity. *)
Theorem cache_refines_recency_list cap os :
  0 < cap ->
  exists c outs, exec_all os (Some (NewBlockCache cap)) = Some (Some c, outs) /\ cache_inv c /\
    spec_all cap os [] = (blocks_of c, outs) /\
    BytesUsed (get_Stats (Some c)) = total (blocks_of c) /\ total (blocks_of c) <= cap /\
    Entries (get_Stats (Some c)) = len (blocks_of c).
Proof.
  intros Hcap. destruct (exec_all_refines os (NewBlockCache cap) (new_inv cap) Hcap) as (c & outs & E & H1 & H2 & H3).
  exists c, outs. cbn [c_capacity NewBlockCache] in H3. change (blocks_of (NewBlockCache cap)) with (@nil blockEntry) in H3.
  split_and!; [done|done|done|apply H1| |].
  - pose proof (spec_all_total cap os [] ltac:(lia)) as Ht. rewrite H3 in Ht. apply Ht. unfold total. cbn. lia.
  - cbn. unfold len, blocks_of. by rewrite length_fmap.
Qed.

Lemma cache_refines_recency_list_witness :
  0 < 5 /\
  exists c, exec_all [OPut "f" 0 [1; 2]; OPut "f" 9 [3]; OGet "f" 0; OPut "g" 0 [4; 5; 6]; OGet "f" 9; OGet "f" 0;
                      ODrop "f"; OGet "f" 0] (Some (NewBlockCache 5))
    = Some (Some c, [None; None; Some [1; 2]; None; None; Some [1; 2]; None; None]) /\
  blocks_of c = [mkBlock ("g"%string, 0) [4; 5; 6]].
Proof.
  split; [lia|].
  destruct (cache_refines_recency_list 5
    [OPut "f" 0 [1; 2]; OPut "f" 9 [3]; OGet "f" 0; OPut "g" 0 [4; 5; 6]; OGet "f" 9; OGet "f" 0;
     ODrop "f"; OGet "f" 0] ltac:(lia)) as (c & outs & E & _ & Hs & _).
  exists c.
  match type of Hs with ?l = _ => let v := eval vm_compute in l in change l with v in Hs end. injection Hs as Hb <-. split; [exact E|]. by rewrite <-Hb.
Defined.

(** A block larger than the whole cache is not kept, and nothing else is
    kept either. *)
Lemma oversized_block_is_not_stored path off payload c :
  cache_inv c -> 0 < c_capacity c < len payload ->
  exists c', Put path off payload (Some c) = Some c' /\ c_lru c' = [] /\ c_lookup c' !! ((path, off) : blockKey) = None.
Proof.
  intros Hc Hcap. destruct (Put_refines path off payload c Hc) as (c' & E & H1 & _ & H2); [lia| |].
  { intros ->. destruct Hcap as [H0 H1]. unfold len in H1. cbn in H1. lia. }
  exists c'. split; [done|]. unfold spec_Put in H2. cbn [fit b_payload] in H2.
  replace (len payload <=? c_capacity c) with false in H2 by lia.
  assert (c_lru c' = []) as Hnil by (by apply fmap_nil_inv in H2). split; [done|].
  destruct (c_lookup c' !! ((path, off) : blockKey)) as [i|] eqn:Ei; [|done].
  apply (inv_lookup c' H1) in Ei as (p & Hin). rewrite Hnil in Hin. by apply elem_of_nil in Hin.
Qed.

(** The other methods accept a nil cache; [Get] reads its counter first. *)
Lemma nil_cache_get_panics path off : Get path off None = None /\ Put path off [1] None = None.
Proof. done. Qed.
