(* ===== verification/GoStd.v ===== *)
(** * GoStd: the parts of Go's package sort the code uses

    [sort.Search] is the library's bisection on [0, n); [sort.SliceStable] is
    a stable insertion sort, which is the only stable permutation of its input
    that the comparison orders ([SliceStable_ok] states the properties that
    determine it). *)

From S2P Require Import Prelude.

(** ** sort.Search *)

Fixpoint search_loop (fuel : nat) (f : nat -> bool) (i j : nat) : nat :=
  match fuel with
  | O => i
  | S fuel =>
      if (i <? j)%nat then
        let h := ((i + j) / 2)%nat in
        if negb (f h) then search_loop fuel f (S h) j else search_loop fuel f i h
      else i
  end.

(** Each turn shortens [i, j). *)
Definition Search (n : nat) (f : nat -> bool) : nat := search_loop n f 0 n.

Section search.
Context (f : nat -> bool).

(** The two bounds of the bisection. *)
Definition below (i : nat) : Prop := i = 0%nat \/ f (pred i) = false.
Definition above (n j : nat) : Prop := j = n \/ f j = true.

Lemma search_loop_ok n fuel i j :
  (j - i <= fuel)%nat -> (i <= j)%nat -> (j <= n)%nat -> below i -> above n j ->
  let k := search_loop fuel f i j in (i <= k <= j)%nat /\ below k /\ above n k.
Proof.
  revert i j. induction fuel as [|fuel IH]; intros i j Hf Hij Hjn Hb Ha; cbn [search_loop].
  { replace j with i in * by lia. split_and!; [lia|lia|done|done]. }
  destruct (Nat.ltb_spec i j) as [Hlt|Hge].
  - pose proof (Nat.Div0.div_lt_upper_bound (i + j) 2 j ltac:(lia)).
    pose proof (Nat.div_le_lower_bound (i + j) 2 i ltac:(lia) ltac:(lia)).
    set (h := ((i + j) / 2)%nat) in *. destruct (f h) eqn:Eh; cbn [negb].
    + destruct (IH i h) as ([? ?] & ? & ?); [lia|lia|lia|done|by right|]. split_and!; [lia|lia|done|done].
    + destruct (IH (S h) j) as ([? ?] & ? & ?); [lia|lia|lia|by right|done|]. split_and!; [lia|lia|done|done].
  - replace j with i in * by lia. split_and!; [lia|lia|done|done].
Qed.

Lemma Search_ok n :
  let k := Search n f in (k <= n)%nat /\ below k /\ above n k.
Proof.
  destruct (search_loop_ok n n 0 n) as ([_ ?] & ? & ?); [lia|lia|lia|by left|by left|]. by split_and!.
Qed.

(** For a monotone predicate, the least index where it holds. *)
Lemma Search_least n i :
  (forall a b, (a <= b < n)%nat -> f a = true -> f b = true) ->
  (i < n)%nat -> f i = true -> (Search n f <= i)%nat.
Proof.
  intros Hm Hi Hfi. destruct (Search_ok n) as (Hle & Hb & _).
  destruct (Nat.leb_spec (Search n f) i) as [|Hgt]; [done|]. destruct Hb as [Hb|Hb]; [lia|].
  rewrite (Hm i (pred (Search n f))) in Hb; [done|lia|done].
Qed.
End search.

(** ** sort.SliceStable *)

Section stable.
Context {A : Type} (less : A -> A -> bool).

Fixpoint insert_stable (x : A) (l : list A) : list A :=
  match l with
  | [] => [x]
  | y :: l' => if less y x then y :: insert_stable x l' else x :: l
  end.

Definition SliceStable (l : list A) : list A := foldr insert_stable [] l.

Definition not_less (x y : A) : Prop := less y x = false.

Lemma insert_stable_perm x l : insert_stable x l ≡ₚ x :: l.
Proof.
  induction l as [|y l IH]; [done|]. cbn. destruct (less y x); [|done]. rewrite IH. constructor.
Qed.

Lemma SliceStable_perm l : SliceStable l ≡ₚ l.
Proof. induction l as [|x l IH]; [done|]. cbn. by rewrite insert_stable_perm, IH. Qed.

Context (Hirr : forall x, less x x = false).
Context (Htrans : forall x y z, less x y = true -> less y z = true -> less x z = true).
Context (Hneg : forall x y z, less x y = false -> less y z = false -> less x z = false).

Lemma insert_stable_sorted x l :
  StronglySorted not_less l -> StronglySorted not_less (insert_stable x l).
Proof.
  induction 1 as [|y l Hs IH Hy]; [repeat constructor|]. cbn. destruct (less y x) eqn:E.
  - constructor; [done|]. rewrite insert_stable_perm. constructor; [|done].
    unfold not_less. destruct (less x y) eqn:E'; [|done].
    by rewrite <-(Hirr x), (Htrans x y x).
  - constructor; [by constructor|]. constructor; [done|].
    eapply Forall_impl; [exact Hy|]. intros z Hz. unfold not_less in *. by apply (Hneg z y x).
Qed.

Lemma SliceStable_sorted l : StronglySorted not_less (SliceStable l).
Proof. induction l as [|x l IH]; [constructor|]. by apply insert_stable_sorted. Qed.

(** Elements the comparison does not order keep their relative order. *)
Definition same_class (x y : A) : Prop := less x y = false /\ less y x = false.
#[local] Instance same_class_dec x y : Decision (same_class x y).
Proof. unfold same_class. apply _. Defined.

Lemma insert_stable_stable x y l :
  filter (same_class y) (insert_stable x l) = filter (same_class y) (x :: l).
Proof.
  induction l as [|z l IH]; [done|]. cbn [insert_stable]. destruct (less z x) eqn:E; [|done].
  assert (same_class y z -> same_class y x -> False) as Hno.
  { intros [_ H1] [H2 _]. by rewrite (Hneg z y x) in E. }
  rewrite !filter_cons in *. rewrite IH. repeat case_decide; tauto.
Qed.

Lemma SliceStable_ok l :
  SliceStable l ≡ₚ l /\ StronglySorted not_less (SliceStable l) /\
  forall y, filter (same_class y) (SliceStable l) = filter (same_class y) l.
Proof.
  split; [apply SliceStable_perm|]. split; [apply SliceStable_sorted|]. intros y.
  induction l as [|x l IH]; [done|]. cbn [SliceStable foldr]. fold (SliceStable l).
  rewrite insert_stable_stable, !filter_cons, IH. done.
Qed.

(** Sorting commutes with selecting. *)
Lemma filter_insert_stable (P : A -> Prop) `{!forall x, Decision (P x)} x l :
  StronglySorted not_less l ->
  filter P (insert_stable x l) = if decide (P x) then insert_stable x (filter P l) else filter P l.
Proof.
  induction 1 as [|y l Hs IH Hy]; cbn [insert_stable].
  { rewrite filter_cons, filter_nil. by case_decide. }
  destruct (less y x) eqn:E.
  - rewrite !(filter_cons P y), IH. destruct (decide (P x)), (decide (P y)); cbn [insert_stable]; by rewrite ?E.
  - rewrite (filter_cons P x). destruct (decide (P x)) as [Hx|]; [|done].
    assert (Forall (fun z => less z x = false) (filter P (y :: l))) as Hall.
    { apply Forall_forall. intros z [_ Hz]%list_elem_of_filter. apply elem_of_cons in Hz as [->|Hz]; [done|].
      eapply Forall_forall in Hy; [|exact Hz]. by apply (Hneg z y x). }
    destruct (filter P (y :: l)) as [|z l']; [done|]. cbn. apply Forall_cons in Hall as [Hz _]. by rewrite Hz.
Qed.

Lemma filter_SliceStable (P : A -> Prop) `{!forall x, Decision (P x)} l :
  filter P (SliceStable l) = SliceStable (filter P l).
Proof.
  induction l as [|x l IH]; [done|]. cbn [SliceStable foldr]. fold (SliceStable l).
  rewrite filter_insert_stable by apply SliceStable_sorted. rewrite IH, filter_cons. by case_decide.
Qed.

(** A sorted slice is left as it is. *)
Lemma SliceStable_id l : StronglySorted not_less l -> SliceStable l = l.
Proof.
  induction 1 as [|x l Hs IH Hx]; [done|]. cbn [SliceStable foldr]. fold (SliceStable l). rewrite IH.
  destruct l as [|y l]; [done|]. cbn. apply Forall_cons in Hx as [Hx _]. unfold not_less in Hx. by rewrite Hx.
Qed.
End stable.

Lemma SliceStable_ext {A} (less less' : A -> A -> bool) l :
  (forall x y, x ∈ l -> y ∈ l -> less x y = less' x y) -> SliceStable less l = SliceStable less' l.
Proof.
  intros H. induction l as [|x l IH]; [done|]. cbn [SliceStable foldr]. fold (SliceStable less l) (SliceStable less' l).
  rewrite IH by (intros; apply H; by right).
  assert (forall y, y ∈ SliceStable less' l -> less y x = less' y x) as Hx.
  { intros y Hy. rewrite SliceStable_perm in Hy. apply H; [by right|by left]. }
  revert Hx. generalize (SliceStable less' l) as m. induction m as [|y m IHm]; intros Hx; [done|]. cbn.
  rewrite Hx by (by left). destruct (less' y x); [|done]. by rewrite IHm by (intros; apply Hx; by right).
Qed.

Lemma StronglySorted_lookup {A} (R : A -> A -> Prop) l i j x y :
  StronglySorted R l -> l !! i = Some x -> l !! j = Some y -> (i < j)%nat -> R x y.
Proof.
  intros Hs. revert i j. induction Hs as [|z l Hs IH Hz]; intros i j Hi Hj Hlt; [done|].
  destruct j as [|j]; [lia|]. cbn in Hj. destruct i as [|i]; cbn in Hi.
  - injection Hi as ->. exact (proj1 (Forall_forall _ _) Hz y (list_elem_of_lookup_2 _ _ _ Hj)).
  - apply (IH i j); [done|done|lia].
Qed.

(** [sort.Search] with a predicate that can fail: the caller records the
    first error, answers true from then on and discards the index. *)
Fixpoint search_err_loop (fuel : nat) (f : nat -> result bool) (i j : nat) : result nat :=
  match fuel with
  | O => Ok i
  | S fuel =>
      if (i <? j)%nat then
        let h := ((i + j) / 2)%nat in
        b ← f h;
        if negb b then search_err_loop fuel f (S h) j else search_err_loop fuel f i h
      else Ok i
  end.

Definition Search_err (n : nat) (f : nat -> result bool) : result nat := search_err_loop n f 0 n.

Lemma search_err_loop_ok n f g fuel i j :
  (forall a, (a < n)%nat -> f a = Ok (g a)) -> (j <= n)%nat ->
  search_err_loop fuel f i j = Ok (search_loop fuel g i j).
Proof.
  intros Hf. revert i j. induction fuel as [|fuel IH]; intros i j Hj; [done|]. cbn [search_err_loop search_loop].
  destruct (Nat.ltb_spec i j) as [Hlt|]; [|done].
  pose proof (Nat.Div0.div_lt_upper_bound (i + j) 2 j ltac:(lia)).
  rewrite Hf by lia. cbn [mbind result_bind]. destruct (g _); cbn [negb]; apply IH; lia.
Qed.

Lemma Search_err_ok n f g :
  (forall a, (a < n)%nat -> f a = Ok (g a)) -> Search_err n f = Ok (Search n g).
Proof. intros Hf. by apply (search_err_loop_ok n). Qed.
