(* ===== verification/Locator.v ===== *)
(** * Locator: the tablet-location cache (src/internal/cache/locator.go)

    Per table, the cache holds the source's last answer sorted by end row.
    [TableLocator] is the interface to the metadata walker and a parameter:
    it is passed to each operation, so that it may answer differently from
    call to call.  Of a [metadata.TabletInfo] the cache reads the row range;
    the other fields are carried along as the parameter [Meta].  A nil row is
    [None] and an empty one [Some []].

    The methods are first the sequential functions of the source, then steps
    of a transition system in which a [Locate] that misses releases the lock
    while it asks the source. *)

From S2P Require Import Prelude Wire GoStd.

Definition ErrNoTabletCovers : err := Fail "no tablet covers row".
Definition ErrTableNotFound : err := Fail "table not found".

Section locator.
  Context {Meta : Type}.

Record TabletInfo := mkTablet { EndRow : option bytes; PrevRow : option bytes; meta : Meta }.

Record LocatorCache := mkLocator { byTable : gmap string (list TabletInfo) }.

(** [LocateTable(ctx, tableID)]. *)
Definition TableLocator : Type := string -> result (list TabletInfo).

Definition New : LocatorCache := mkLocator ∅.

Definition endRowLess (a b : option bytes) : bool :=
  match a, b with
  | None, _ => false
  | Some _, None => true
  | Some a, Some b => bool_decide (bytes_Compare a b = Lt)
  end.

Definition tablet_less (s t : TabletInfo) : bool := endRowLess (EndRow s) (EndRow t).

(** The predicate [findContaining] bisects on. *)
Definition end_reaches (tablets : list TabletInfo) (row : bytes) (i : nat) : bool :=
  match tablets !! i with
  | None => true
  | Some t => match EndRow t with
              | None => true
              | Some e => bool_decide (bytes_Compare e row <> Lt)
              end
  end.

(** [None] is -1. *)
Definition findContaining (tablets : list TabletInfo) (row : bytes) : option nat :=
  if (length tablets =? 0)%nat then None
  else
    let idx := Search (length tablets) (end_reaches tablets row) in
    if (idx =? length tablets)%nat then None
    else
      t ← tablets !! idx;
      match PrevRow t with
      | Some p => if bool_decide (bytes_Compare row p <> Gt) then None else Some idx
      | None => Some idx
      end.

Definition lookup_tablet (tableID : string) (row : bytes) (c : LocatorCache) : option TabletInfo :=
  tabs ← byTable c !! tableID;
  idx ← findContaining tabs row;
  tabs !! idx.

(** The end of [refresh], under the lock. *)
Definition store (tableID : string) (tablets : list TabletInfo) (c : LocatorCache) : LocatorCache :=
  mkLocator (<[tableID := SliceStable tablet_less tablets]> (byTable c)).

Definition refresh (src : TableLocator) (tableID : string) (c : LocatorCache) :
    LocatorCache * result (list TabletInfo) :=
  match src tableID with
  | Err e => (c, Err e)
  | Ok [] => (c, Err (Wrap ("table=" +:+ tableID) ErrTableNotFound))
  | Ok tablets => (store tableID tablets c, Ok (SliceStable tablet_less tablets))
  end.

Definition Locate (src : TableLocator) (tableID : string) (row : bytes) (c : LocatorCache) :
    LocatorCache * result TabletInfo :=
  match lookup_tablet tableID row c with
  | Some t => (c, Ok t)
  | None =>
      match refresh src tableID c with
      | (c, Err e) => (c, Err (Wrap ("populate cache for table " +:+ tableID) e))
      | (c, Ok _) =>
          match lookup_tablet tableID row c with
          | Some t => (c, Ok t)
          | None => (c, Err (Wrap ("table=" +:+ tableID) ErrNoTabletCovers))
          end
      end
  end.

Definition Invalidate (tableID : string) (row : bytes) (c : LocatorCache) : LocatorCache :=
  match byTable c !! tableID with
  | None => c
  | Some tabs => match findContaining tabs row with
                 | None => c
                 | Some _ => mkLocator (delete tableID (byTable c))
                 end
  end.

Definition InvalidateTable (tableID : string) (c : LocatorCache) : LocatorCache := mkLocator (delete tableID (byTable c)).
Definition InvalidateAll (c : LocatorCache) : LocatorCache := mkLocator ∅.

(** [None] is a nil slice. *)
Definition Snapshot (tableID : string) (c : LocatorCache) : option (list TabletInfo) :=
  match byTable c !! tableID with
  | None | Some [] => None
  | Some tabs => Some tabs
  end.

Definition LocateTable (src : TableLocator) (tableID : string) (c : LocatorCache) :
    LocatorCache * result (list TabletInfo) :=
  match Snapshot tableID c with
  | Some tabs => (c, Ok tabs)
  | None => refresh src tableID c
  end.

(** ** Row ranges *)

(** The row is in [(PrevRow, EndRow]]. *)
Definition covers (row : bytes) (t : TabletInfo) : bool :=
  match PrevRow t with None => true | Some p => bool_decide (bytes_Compare row p = Gt) end &&
  match EndRow t with None => true | Some e => bool_decide (bytes_Compare row e <> Gt) end.

Definition proper_range (t : TabletInfo) : Prop :=
  forall p e, PrevRow t = Some p -> EndRow t = Some e -> bytes_Compare p e = Lt.

(** The first range ends at or before the start of the second. *)
Definition precedes (s t : TabletInfo) : Prop :=
  exists e p, EndRow s = Some e /\ PrevRow t = Some p /\ bytes_Compare e p <> Gt.

(** A table's tablets: disjoint proper ranges in order, gaps allowed. *)
Definition tablets_ok (l : list TabletInfo) : Prop := Forall proper_range l /\ StronglySorted precedes l.

Lemma covers_spec row t :
  covers row t = true <->
  (forall p, PrevRow t = Some p -> bytes_Compare row p = Gt) /\
  (forall e, EndRow t = Some e -> bytes_Compare row e <> Gt).
Proof.
  unfold covers. rewrite andb_true_iff.
  destruct (PrevRow t), (EndRow t); rewrite ?bool_decide_eq_true; naive_solver.
Qed.

(** A search hit covers the row, whatever the list. *)
Lemma findContaining_sound l row i :
  findContaining l row = Some i -> exists t, l !! i = Some t /\ covers row t = true.
Proof.
  unfold findContaining. destruct (length l =? 0)%nat; [done|].
  destruct (Search_ok (end_reaches l row) (length l)) as (Hle & _ & Ha).
  set (k := Search _ _) in *. destruct (Nat.eqb_spec k (length l)) as [|Hne]; [done|].
  destruct Ha as [Ha|Ha]; [done|]. unfold end_reaches in Ha.
  destruct (l !! k) as [t|] eqn:Ek; [cbn|done]. intros Hp. exists t.
  assert (k = i) as <- by (destruct (PrevRow t); [case_bool_decide|]; congruence).
  split; [done|]. apply covers_spec. split.
  - intros p Ep. rewrite Ep in Hp. case_bool_decide as Hc; [done|]. destruct (bytes_Compare row p); naive_solver.
  - intros e Ee. rewrite Ee in Ha. apply bool_decide_eq_true in Ha. rewrite (cmp_antisym bytes_Compare e row).
    by destruct (bytes_Compare e row).
Qed.

Lemma le_trans_bytes a b c : bytes_Compare a b <> Gt -> bytes_Compare b c <> Gt -> bytes_Compare a c <> Gt.
Proof.
  intros H1 H2. destruct (bytes_Compare a b) eqn:E1; [apply (cmp_eq bytes_Compare) in E1 as ->; done| |done].
  destruct (bytes_Compare b c) eqn:E2; [apply (cmp_eq bytes_Compare) in E2 as <-; by rewrite E1| |done].
  by rewrite (cmp_trans bytes_Compare _ _ _ E1 E2).
Qed.

Lemma cmp_le_lt a b c : bytes_Compare a b <> Gt -> bytes_Compare b c = Lt -> bytes_Compare a c = Lt.
Proof.
  intros H1 H2. destruct (bytes_Compare a b) eqn:E; [by apply (cmp_eq bytes_Compare) in E as ->| |done].
  exact (cmp_trans bytes_Compare _ _ _ E H2).
Qed.

Lemma precedes_disjoint row s t : precedes s t -> covers row s = true -> covers row t = true -> False.
Proof.
  intros (e & p & He & Hp & Hle) [_ Hs]%covers_spec [Ht _]%covers_spec.
  specialize (Hs e He). specialize (Ht p Hp). by apply (le_trans_bytes row e p Hs Hle).
Qed.

Lemma covers_unique l row i j s t :
  tablets_ok l -> l !! i = Some s -> l !! j = Some t ->
  covers row s = true -> covers row t = true -> i = j.
Proof.
  intros [_ Hs] Hi Hj Cs Ct. destruct (Nat.lt_trichotomy i j) as [Hlt|[?|Hlt]]; [|done|]; exfalso.
  - exact (precedes_disjoint row s t (StronglySorted_lookup _ _ _ _ _ _ Hs Hi Hj Hlt) Cs Ct).
  - exact (precedes_disjoint row t s (StronglySorted_lookup _ _ _ _ _ _ Hs Hj Hi Hlt) Ct Cs).
Qed.

Lemma end_reaches_mono l row a b :
  tablets_ok l -> (a <= b < length l)%nat -> end_reaches l row a = true -> end_reaches l row b = true.
Proof.
  intros [Hp Hs] Hab. destruct (decide (a = b)) as [->|]; [done|]. unfold end_reaches.
  destruct (l !! a) as [s|] eqn:Ea; [|apply lookup_ge_None in Ea; lia].
  destruct (l !! b) as [t|] eqn:Eb; [|done].
  destruct (StronglySorted_lookup _ _ _ _ _ _ Hs Ea Eb ltac:(lia)) as (e & p & He & Hpt & Hle). rewrite He.
  destruct (EndRow t) as [e'|] eqn:Et; [|done].
  pose proof (Forall_lookup_1 _ _ _ _ Hp Eb p e' Hpt Et) as Hlt.
  rewrite !bool_decide_eq_true. intros Hne Hc. apply Hne.
  rewrite (cmp_antisym bytes_Compare row e). rewrite (cmp_antisym bytes_Compare row e') in Hc.
  destruct (bytes_Compare row e) eqn:E; [..|done]; exfalso.
  - apply (cmp_eq bytes_Compare) in E as ->.
    assert (bytes_Compare e e' <> Gt) as Hx by (eapply le_trans_bytes; [exact Hle|by rewrite Hlt]).
    by destruct (bytes_Compare e e').
  - assert (bytes_Compare row e' <> Gt) as Hx.
    { eapply le_trans_bytes; [|eapply le_trans_bytes; [exact Hle|by rewrite Hlt]]. by rewrite E. }
    by destruct (bytes_Compare row e').
Qed.

(** On a table's tablets the search finds the one that covers the row. *)
Lemma findContaining_complete l row i t :
  tablets_ok l -> l !! i = Some t -> covers row t = true -> findContaining l row = Some i.
Proof.
  intros Hl Hi Hc. pose proof (lookup_lt_Some _ _ _ Hi) as Hlen. unfold findContaining.
  replace (length l =? 0)%nat with false by (symmetry; apply Nat.eqb_neq; lia).
  pose proof Hc as [Hp He]%covers_spec.
  assert (end_reaches l row i = true) as Hfi.
  { unfold end_reaches. rewrite Hi. destruct (EndRow t) as [e|]; [|done]. apply bool_decide_eq_true.
    rewrite (cmp_antisym bytes_Compare row e). specialize (He e eq_refl). by destruct (bytes_Compare row e). }
  pose proof (Search_least (end_reaches l row) (length l) i) as Hle.
  specialize (Hle (fun a b => end_reaches_mono l row a b Hl) Hlen Hfi).
  destruct (Search_ok (end_reaches l row) (length l)) as (_ & _ & Ha).
  set (k := Search _ _) in *. destruct (Nat.eqb_spec k (length l)) as [|_]; [lia|].
  destruct Ha as [|Ha]; [lia|].
  destruct (lookup_lt_is_Some_2 l k ltac:(lia)) as [s Ek]. rewrite Ek. cbn.
  assert (k = i) as ->.
  { destruct (decide (k = i)) as [|Hne]; [done|exfalso]. destruct Hl as [_ Hs].
    destruct (StronglySorted_lookup _ _ _ _ _ _ Hs Ek Hi ltac:(lia)) as (e & p & Hse & Htp & Hep).
    unfold end_reaches in Ha. rewrite Ek, Hse in Ha. apply bool_decide_eq_true in Ha. apply Ha.
    specialize (Hp p Htp). eapply cmp_le_lt; [exact Hep|]. rewrite (cmp_antisym bytes_Compare row p). by rewrite Hp. }
  assert (s = t) as -> by congruence. destruct (PrevRow t) as [p|] eqn:Ep; [|done].
  rewrite bool_decide_eq_false_2; [done|]. intros Hn. by apply Hn, Hp.
Qed.

(** ** The order of end rows *)

Lemma tablet_less_irr t : tablet_less t t = false.
Proof.
  unfold tablet_less, endRowLess. destruct (EndRow t) as [e|]; [|done].
  apply bool_decide_eq_false. by rewrite (cmp_refl bytes_Compare).
Qed.

Lemma tablet_less_trans r s t : tablet_less r s = true -> tablet_less s t = true -> tablet_less r t = true.
Proof.
  unfold tablet_less, endRowLess. destruct (EndRow r), (EndRow s), (EndRow t); try done.
  rewrite !bool_decide_eq_true. apply (cmp_trans bytes_Compare).
Qed.

Lemma tablet_less_neg r s t : tablet_less r s = false -> tablet_less s t = false -> tablet_less r t = false.
Proof.
  unfold tablet_less, endRowLess. destruct (EndRow r) as [a|], (EndRow s) as [b|], (EndRow t) as [c|]; try done.
  rewrite !bool_decide_eq_false. intros H1 H2 H3. apply H2.
  destruct (bytes_Compare b c) eqn:E; [|done|].
  - apply (cmp_eq bytes_Compare) in E as ->. done.
  - exfalso. apply H1. eapply (cmp_trans bytes_Compare); [exact H3|].
    rewrite (cmp_antisym bytes_Compare b c). by rewrite E.
Qed.

Lemma precedes_less s t : proper_range t -> precedes s t -> tablet_less s t = true.
Proof.
  intros Hp (e & p & He & Hpt & Hle). unfold tablet_less, endRowLess. rewrite He.
  destruct (EndRow t) as [e'|] eqn:Et; [|done]. apply bool_decide_eq_true.
  eapply cmp_le_lt; [exact Hle|]. by apply Hp.
Qed.

Lemma tablets_ok_less l i j s t :
  tablets_ok l -> l !! i = Some s -> l !! j = Some t -> (i < j)%nat -> tablet_less s t = true.
Proof.
  intros [Hp Hs] Hi Hj Hlt. apply precedes_less; [exact (Forall_lookup_1 _ _ _ _ Hp Hj)|].
  exact (StronglySorted_lookup _ _ _ _ _ _ Hs Hi Hj Hlt).
Qed.

Lemma tablets_ok_sorted l : tablets_ok l -> StronglySorted (not_less tablet_less) l.
Proof.
  intros [Hp Hs]. induction Hs as [|s l Hs IH Hx]; [constructor|]. apply Forall_cons in Hp as [Hps Hp].
  constructor; [by apply IH|]. apply Forall_forall. intros t Ht. unfold not_less.
  pose proof (precedes_less s t (proj1 (Forall_forall _ _) Hp t Ht) (proj1 (Forall_forall _ _) Hx t Ht)) as Hlt.
  destruct (tablet_less t s) eqn:E; [|done]. rewrite <-(tablet_less_irr s). symmetry. by apply (tablet_less_trans s t).
Qed.

(** Sorting recovers the table's order from any permutation of it. *)
Lemma sort_tablets l v : tablets_ok v -> l ≡ₚ v -> SliceStable tablet_less l = v.
Proof.
  intros Hv Hp.
  assert (SliceStable tablet_less l ≡ₚ v) as Hp' by (by rewrite SliceStable_perm).
  apply (StronglySorted_unique_strong (not_less tablet_less)); [| |by apply tablets_ok_sorted|done].
  - intros s t Hs Ht Hst Hts. rewrite Hp' in Hs.
    apply list_elem_of_lookup in Hs as [i Hi], Ht as [j Hj].
    destruct (Nat.lt_trichotomy i j) as [Hlt|[->|Hlt]]; [|congruence|]; exfalso.
    + pose proof (tablets_ok_less v i j s t Hv Hi Hj Hlt) as H. unfold not_less in *. congruence.
    + pose proof (tablets_ok_less v j i t s Hv Hj Hi Hlt) as H. unfold not_less in *. congruence.
  - apply SliceStable_sorted; [apply tablet_less_irr|apply tablet_less_trans|apply tablet_less_neg].
Qed.

(** ** Sequences of calls *)

Inductive call :=
| CLocate (tableID : string) (row : bytes)
| CLocateTable (tableID : string)
| CInvalidate (tableID : string) (row : bytes)
| CInvalidateTable (tableID : string)
| CInvalidateAll.

Inductive answer :=
| ATablet (r : result TabletInfo)
| ATablets (r : result (list TabletInfo))
| ADone.

Definition exec (src : TableLocator) (o : call) (c : LocatorCache) : LocatorCache * answer :=
  match o with
  | CLocate t row => let '(c, r) := Locate src t row c in (c, ATablet r)
  | CLocateTable t => let '(c, r) := LocateTable src t c in (c, ATablets r)
  | CInvalidate t row => (Invalidate t row c, ADone)
  | CInvalidateTable t => (InvalidateTable t c, ADone)
  | CInvalidateAll => (InvalidateAll c, ADone)
  end.

Fixpoint exec_all (src : TableLocator) (os : list call) (c : LocatorCache) : LocatorCache * list answer :=
  match os with
  | [] => (c, [])
  | o :: os =>
      let '(c, a) := exec src o c in
      let '(c, l) := exec_all src os c in
      (c, a :: l)
  end.

(** What each call answers when it asks the source directly. *)
Definition direct (src : TableLocator) (o : call) : answer :=
  match o with
  | CLocate t row =>
      ATablet match src t with
      | Err e => Err (Wrap ("populate cache for table " +:+ t) e)
      | Ok [] => Err (Wrap ("populate cache for table " +:+ t) (Wrap ("table=" +:+ t) ErrTableNotFound))
      | Ok l => match List.find (covers row) l with
                | Some x => Ok x
                | None => Err (Wrap ("table=" +:+ t) ErrNoTabletCovers)
                end
      end
  | CLocateTable t =>
      ATablets match src t with
      | Err e => Err e
      | Ok [] => Err (Wrap ("table=" +:+ t) ErrTableNotFound)
      | Ok l => Ok (SliceStable tablet_less l)
      end
  | _ => ADone
  end.

(** The source answers with a table's tablets, in any order. *)
Definition source_ok (src : TableLocator) : Prop :=
  forall t l, src t = Ok l -> exists v, tablets_ok v /\ l ≡ₚ v.

(** Searching the sorted tablets and trying each tablet of the answer agree. *)
Lemma search_is_find l v row :
  tablets_ok v -> l ≡ₚ v -> (idx ← findContaining v row; v !! idx) = List.find (covers row) l.
Proof.
  intros Hv Hp. destruct (List.find (covers row) l) as [t|] eqn:F.
  - apply find_some in F as [Hin Hc]. apply list_elem_of_In in Hin. rewrite Hp in Hin.
    apply list_elem_of_lookup in Hin as [i Hi]. by rewrite (findContaining_complete v row i t Hv Hi Hc).
  - destruct (findContaining v row) as [i|] eqn:E; [|done]. exfalso.
    apply findContaining_sound in E as (t & Hi & Hc). apply list_elem_of_lookup_2 in Hi. rewrite <-Hp in Hi.
    eapply find_none in F; [|by apply list_elem_of_In]. congruence.
Qed.

(** Every entry is the source's answer, sorted. *)
Definition coherent (src : TableLocator) (c : LocatorCache) : Prop :=
  forall t l, byTable c !! t = Some l -> exists l0, src t = Ok l0 /\ l0 <> [] /\ l = SliceStable tablet_less l0.

Lemma lookup_coherent src c t row :
  source_ok src -> coherent src c ->
  lookup_tablet t row c = match byTable c !! t, src t with Some _, Ok l => List.find (covers row) l | _, _ => None end.
Proof.
  intros Hsrc Hc. unfold lookup_tablet. destruct (byTable c !! t) as [l|] eqn:E; cbn; [|done].
  destruct (Hc t l E) as (l0 & Hl0 & _ & ->). rewrite Hl0. destruct (Hsrc t l0 Hl0) as (v & Hv & Hp).
  rewrite (sort_tablets l0 v Hv Hp). by apply search_is_find.
Qed.

Lemma refresh_coherent src c t :
  coherent src c ->
  coherent src (refresh src t c).1 /\
  forall l, l <> [] -> src t = Ok l ->
    refresh src t c = (store t l c, Ok (SliceStable tablet_less l)).
Proof.
  intros Hc. unfold refresh. destruct (src t) as [[|x l]|e] eqn:E; split; try done.
  - by intros l Hne [= <-].
  - intros t' l' Hl. cbn [fst store byTable] in Hl.
    apply lookup_insert_Some in Hl as [[<- <-]|[_ ?]]; [|by apply Hc]. by exists (x :: l).
  - by intros l' _ [= <-].
Qed.

Lemma coherent_delete src c t : coherent src c -> coherent src (mkLocator (delete t (byTable c))).
Proof. intros Hc t' l. cbn [byTable]. intros [_ ?]%lookup_delete_Some. by apply Hc. Qed.

Lemma Locate_direct src t row c :
  source_ok src -> coherent src c ->
  coherent src (Locate src t row c).1 /\ ATablet (Locate src t row c).2 = direct src (CLocate t row).
Proof.
  intros Hsrc Hc. unfold Locate, direct. rewrite (lookup_coherent src c t row Hsrc Hc).
  pose proof (refresh_coherent src c t Hc) as [Hr Hres].
  destruct (src t) as [[|x l]|e] eqn:E.
  - assert (refresh src t c = (c, Err (Wrap ("table=" +:+ t) ErrTableNotFound))) as Hrf by (unfold refresh; by rewrite E).
    destruct (byTable c !! t) eqn:Ect; [|by rewrite Hrf].
    destruct (Hc t _ Ect) as (? & ? & Hne & _). congruence.
  - specialize (Hres (x :: l) ltac:(done) eq_refl). rewrite Hres in Hr |- *. cbn [fst] in Hr.
    rewrite (lookup_coherent src _ t row Hsrc Hr). cbn [store byTable]. rewrite lookup_insert_eq, E.
    destruct (byTable c !! t), (List.find (covers row) (x :: l)); by split.
  - assert (refresh src t c = (c, Err e)) as Hrf by (unfold refresh; by rewrite E).
    destruct (byTable c !! t) eqn:Ect; by rewrite Hrf.
Qed.

Lemma exec_direct src o c :
  source_ok src -> coherent src c -> coherent src (exec src o c).1 /\ (exec src o c).2 = direct src o.
Proof.
  intros Hsrc Hc. destruct o as [t row|t|t row|t|]; cbn [exec].
  - destruct (Locate_direct src t row c Hsrc Hc). by destruct (Locate src t row c).
  - unfold LocateTable, Snapshot, direct. pose proof (refresh_coherent src c t Hc) as [Hr Hres].
    destruct (byTable c !! t) as [tabs|] eqn:E.
    + destruct (Hc t tabs E) as (l0 & Hl0 & Hne & ->). rewrite Hl0.
      destruct l0 as [|x l0]; [done|]. destruct (SliceStable tablet_less (x :: l0)) eqn:Es; [|done].
      pose proof (SliceStable_perm tablet_less (x :: l0)) as Hp. rewrite Es in Hp. by apply Permutation_nil_cons in Hp.
    + destruct (src t) as [[|x l]|e] eqn:Es.
      * unfold refresh. by rewrite Es.
      * by rewrite (Hres (x :: l)) in Hr |- *.
      * unfold refresh. by rewrite Es.
  - unfold Invalidate. split; [|done]. cbn [fst]. destruct (byTable c !! t); [|done].
    destruct (findContaining _ _); [by apply coherent_delete|done].
  - split; [by apply coherent_delete|done].
  - split; [|done]. intros t l. cbn [byTable InvalidateAll fst]. by intros ?%lookup_empty_Some.
Qed.

Lemma exec_all_direct src os c :
  source_ok src -> coherent src c -> (exec_all src os c).2 = direct src <$> os.
Proof.
  intros Hsrc. revert c. induction os as [|o os IH]; intros c Hc; [done|].
  destruct (exec_direct src o c Hsrc Hc) as [H1 H2]. cbn [exec_all]. destruct (exec src o c) as [c1 a].
  specialize (IH c1 H1). destruct (exec_all src os c1). cbn in *. congruence.
Qed.

Lemma coherent_New src : coherent src New.
Proof. intros t l. cbn. by intros ?%lookup_empty_Some. Qed.

(** ** Concurrent calls *)

(** Where a running [Locate] is: before its first lookup, about to ask the
    source, holding the source's answer, before its second lookup, returned.
    Between these it does not hold the lock. *)
Inductive pc :=
| PStart
| PMiss
| PFetched (tablets : list TabletInfo)
| PStored
| PDone (r : result TabletInfo).

(** [w_log] records what the source answered, the last answer first. *)
Record world := mkWorld {
  w_cache : LocatorCache;
  w_threads : gmap nat (string * bytes * pc);
  w_log : list (string * list TabletInfo);
}.

Definition initial : world := mkWorld New ∅ [].

Definition goto (i : nat) (t : string) (row : bytes) (p : pc) (w : world) : world :=
  mkWorld (w_cache w) (<[i := (t, row, p)]> (w_threads w)) (w_log w).
Definition with_cache (c : LocatorCache) (w : world) : world := mkWorld c (w_threads w) (w_log w).

Inductive step : world -> world -> Prop :=
| step_call w i t row :
    w_threads w !! i = None -> step w (goto i t row PStart w)
| step_lookup w i t row :
    w_threads w !! i = Some (t, row, PStart) ->
    step w (goto i t row (match lookup_tablet t row (w_cache w) with
                          | Some x => PDone (Ok x) | None => PMiss end) w)
| step_ask w i t row tablets :
    w_threads w !! i = Some (t, row, PMiss) ->
    step w (goto i t row (PFetched tablets)
              (mkWorld (w_cache w) (w_threads w) ((t, tablets) :: w_log w)))
| step_ask_fails w i t row e :
    w_threads w !! i = Some (t, row, PMiss) ->
    step w (goto i t row (PDone (Err (Wrap ("populate cache for table " +:+ t) e))) w)
| step_none w i t row :
    w_threads w !! i = Some (t, row, PFetched []) ->
    step w (goto i t row (PDone (Err (Wrap ("populate cache for table " +:+ t)
                                       (Wrap ("table=" +:+ t) ErrTableNotFound)))) w)
| step_store w i t row tablets :
    w_threads w !! i = Some (t, row, PFetched tablets) -> tablets <> [] ->
    step w (goto i t row PStored (with_cache (store t tablets (w_cache w)) w))
| step_again w i t row :
    w_threads w !! i = Some (t, row, PStored) ->
    step w (goto i t row (PDone (match lookup_tablet t row (w_cache w) with
                                 | Some x => Ok x
                                 | None => Err (Wrap ("table=" +:+ t) ErrNoTabletCovers) end)) w)
| step_Invalidate w t row : step w (with_cache (Invalidate t row (w_cache w)) w)
| step_InvalidateTable w t : step w (with_cache (InvalidateTable t (w_cache w)) w)
| step_InvalidateAll w : step w (with_cache (InvalidateAll (w_cache w)) w).

(** Cache entries and results come from answers of the source. *)
Definition cache_logged (log : list (string * list TabletInfo)) (c : LocatorCache) : Prop :=
  forall t l, byTable c !! t = Some l -> exists l0, (t, l0) ∈ log /\ l ≡ₚ l0.

Definition pc_ok (log : list (string * list TabletInfo)) (t : string) (row : bytes) (p : pc) : Prop :=
  match p with
  | PFetched l => (t, l) ∈ log
  | PDone (Ok x) => covers row x = true /\ exists l, (t, l) ∈ log /\ x ∈ l
  | _ => True
  end.

Definition world_ok (w : world) : Prop :=
  cache_logged (w_log w) (w_cache w) /\
  forall i t row p, w_threads w !! i = Some (t, row, p) -> pc_ok (w_log w) t row p.

Lemma lookup_logged log c t row x :
  cache_logged log c -> lookup_tablet t row c = Some x ->
  covers row x = true /\ exists l, (t, l) ∈ log /\ x ∈ l.
Proof.
  intros Hc. unfold lookup_tablet. destruct (byTable c !! t) as [l|] eqn:E; cbn; [|done].
  destruct (findContaining l row) as [i|] eqn:Ei; cbn; [|done]. intros Hx.
  apply findContaining_sound in Ei as (x' & Hx' & Hcov). assert (x' = x) as -> by congruence.
  split; [done|]. destruct (Hc t l E) as (l0 & Hl & Hp). exists l0. split; [done|].
  rewrite <-Hp. by eapply list_elem_of_lookup_2.
Qed.

Lemma goto_ok w i t row p : world_ok w -> pc_ok (w_log w) t row p -> world_ok (goto i t row p w).
Proof.
  intros [Hc Ht] Hp. split; [done|]. intros j t' row' p'. cbn.
  intros [[_ [= <- <- <-]]|[_ Hj]]%lookup_insert_Some; [done|by apply (Ht j)].
Qed.

Lemma cache_ok w c : world_ok w -> cache_logged (w_log w) c -> world_ok (with_cache c w).
Proof. by intros [_ Ht] Hc. Qed.

Lemma delete_logged log t c : cache_logged log c -> cache_logged log (mkLocator (delete t (byTable c))).
Proof. intros Hc t' l. cbn [byTable]. intros [_ ?]%lookup_delete_Some. by apply Hc. Qed.

Lemma step_ok w w' : step w w' -> world_ok w -> world_ok w'.
Proof.
  intros Hstep Hw. pose proof Hw as [Hc Ht].
  destruct Hstep as [w i t row Hi|w i t row Hi|w i t row l Hi|w i t row e Hi|w i t row Hi|w i t row l Hi Hl|w i t row Hi|w t row|w t|w].
  - by apply goto_ok.
  - apply goto_ok; [done|]. destruct (lookup_tablet t row (w_cache w)) eqn:E; [|done].
    by apply (lookup_logged _ (w_cache w)).
  - apply goto_ok; [|by left]. split.
    + intros t' l' Hl'. destruct (Hc t' l' Hl') as (l0 & Hl0 & Hp). exists l0. split; [by right|done].
    + intros j t' row' p' Hj. specialize (Ht j t' row' p' Hj). destruct p' as [| |l'| |[x|e]]; cbn in *; try done.
      * by right.
      * destruct Ht as (? & l' & ? & ?). split; [done|]. exists l'. split; [by right|done].
  - by apply goto_ok.
  - by apply goto_ok.
  - apply goto_ok; [|done]. apply cache_ok; [done|]. intros t' l'. cbn [store byTable].
    intros [[<- <-]|[_ ?]]%lookup_insert_Some; [|by apply Hc]. exists l.
    split; [exact (Ht i t row _ Hi)|apply SliceStable_perm].
  - apply goto_ok; [done|]. destruct (lookup_tablet t row (w_cache w)) eqn:E; [|done].
    by apply (lookup_logged _ (w_cache w)).
  - apply cache_ok; [done|]. unfold Invalidate. destruct (byTable (w_cache w) !! t); [|done].
    destruct (findContaining _ _); [by apply delete_logged|done].
  - apply cache_ok; [done|]. by apply delete_logged.
  - apply cache_ok; [done|]. intros t l. cbn. by intros ?%lookup_empty_Some.
Qed.

Lemma reachable_ok w : rtc step initial w -> world_ok w.
Proof.
  intros H. assert (world_ok initial) as H0.
  { split; [intros t l; cbn; by intros ?%lookup_empty_Some|]. intros i t row p. cbn. by intros ?%lookup_empty_Some. }
  revert H0. induction H as [|w1 w2 w3 Hs _ IH]; [done|]. intros H0. by apply IH, (step_ok w1).
Qed.

End locator.

Arguments TabletInfo : clear implicits.
Arguments TableLocator : clear implicits.
Arguments world : clear implicits.

(** ** Properties *)

(** On the tablets of a table (disjoint proper ranges in end-row order,
    possibly with gaps) the binary search returns the index of the only
    tablet whose range [(PrevRow, EndRow]] contains the row, with nil bounds
    unbounded, and -1 exactly when no tablet does. *)
Theorem findContaining_correct {Meta} (l : list (TabletInfo Meta)) row :
  tablets_ok l ->
  match findContaining l row with
  | Some i => exists t, l !! i = Some t /\ covers row t = true /\
                        forall j t', l !! j = Some t' -> covers row t' = true -> j = i
  | None => Forall (fun t => covers row t = false) l
  end.
Proof.
  intros Hl. destruct (findContaining l row) as [i|] eqn:E.
  - apply findContaining_sound in E as (t & Hi & Hc). exists t. split_and!; [done|done|].
    intros j t' Hj Hc'. exact (covers_unique l row j i t' t Hl Hj Hi Hc' Hc).
  - apply Forall_forall. intros t Ht. destruct (covers row t) eqn:Hc; [|done].
    apply list_elem_of_lookup in Ht as [i Hi]. by rewrite (findContaining_complete l row i t Hl Hi Hc) in E.
Qed.

(** Three tablets with a gap between "d" and "g": (-inf, "d"], ("g", "m"], ("m", +inf). *)
Definition demo_tablets : list (TabletInfo nat) :=
  [mkTablet (Some [100]) None 0%nat; mkTablet (Some [109]) (Some [103]) 1%nat; mkTablet None (Some [109]) 2%nat].

Lemma demo_tablets_ok : tablets_ok demo_tablets.
Proof.
  split.
  - repeat constructor; by intros p e [= <-] [= <-].
  - repeat constructor; eexists _, _; by split_and!.
Defined.

Lemma findContaining_correct_witness :
  tablets_ok demo_tablets /\
  (exists t, demo_tablets !! 1%nat = Some t /\ covers [109] t = true /\
     forall j t', demo_tablets !! j = Some t' -> covers [109] t' = true -> j = 1%nat) /\
  Forall (fun t => covers [102] t = false) demo_tablets.
Proof.
  split; [exact demo_tablets_ok|]. split.
  - exact (findContaining_correct demo_tablets [109] demo_tablets_ok).
  - exact (findContaining_correct demo_tablets [102] demo_tablets_ok).
Defined.

(** C36: the cache is transparent.  Against a source that keeps giving the
    same answers, each a table's tablets in any order or an error, any
    sequence of locates, table listings and invalidations of any kind answers
    call by call as asking the source each time would: the tablet that covers
    the row, [ErrNoTabletCovers] when none does, [ErrTableNotFound] for an
    empty answer, which is never cached, and the source's own errors. *)
Theorem locator_cache_is_transparent {Meta} (src : TableLocator Meta) os :
  source_ok src -> (exec_all src os New).2 = direct src <$> os.
Proof. intros Hsrc. apply exec_all_direct; [done|apply coherent_New]. Qed.

Definition demo_source : TableLocator nat := fun t =>
  if bool_decide (t = "a"%string) then Ok (reverse demo_tablets)
  else if bool_decide (t = "b"%string) then Ok [] else Err (Fail "down").

Lemma demo_source_ok : source_ok demo_source.
Proof.
  intros t l. unfold demo_source. case_bool_decide; [|case_bool_decide; [|done]]; intros [= <-].
  - exists demo_tablets. split; [exact demo_tablets_ok|apply reverse_Permutation].
  - exists []. split; [split; constructor|done].
Defined.

Lemma locator_cache_is_transparent_witness :
  source_ok demo_source /\
  (exec_all demo_source [CLocate "a" [104]; CLocate "a" [102]; CLocateTable "a"; CInvalidate "a" [1];
                         CLocate "a" [200]; CLocate "b" [1]; CLocateTable "c"] New).2
  = [ATablet (Ok (mkTablet (Some [109]) (Some [103]) 1%nat));
     ATablet (Err (Wrap "table=a" ErrNoTabletCovers)); ATablets (Ok demo_tablets); ADone;
     ATablet (Ok (mkTablet None (Some [109]) 2%nat));
     ATablet (Err (Wrap "populate cache for table b" (Wrap "table=b" ErrTableNotFound)));
     ATablets (Err (Fail "down"))].
Proof.
  split; [exact demo_source_ok|].
  rewrite (locator_cache_is_transparent demo_source _ demo_source_ok). reflexivity.
Defined.

(** With any number of concurrent locates and invalidations, interleaved
    in any way and against a source that may change its answers, a locate
    that succeeds returns a tablet that covers its row and that the source
    named in some answer for that table. *)
Theorem concurrent_locate_covers {Meta} (w : world Meta) i t row x :
  rtc step initial w -> w_threads w !! i = Some (t, row, PDone (Ok x)) ->
  covers row x = true /\ exists l, (t, l) ∈ w_log w /\ x ∈ l.
Proof. intros Hr Hi. destruct (reachable_ok w Hr) as [_ Ht]. exact (Ht i t row _ Hi). Qed.

(** One tablet for the whole table, wherever it is hosted. *)
Definition hosted_at (m : nat) : list (TabletInfo nat) := [mkTablet None None m].

(** The run of a locate that is overtaken by an invalidation. *)
Definition asked : world nat :=
  mkWorld New {[0%nat := ("t"%string, [1], PFetched (hosted_at 7))]} [("t"%string, hosted_at 7)].
Definition invalidated : world nat := with_cache (InvalidateTable "t" (w_cache asked)) asked.
Definition stored : world nat :=
  goto 0 "t" [1] PStored (with_cache (store "t" (hosted_at 7) (w_cache invalidated)) invalidated).
Definition second (p : pc) : world nat := goto 1 "t" [5] p stored.

Lemma asked_reachable : rtc step initial asked.
Proof.
  eapply rtc_l; [by apply (step_call _ 0 "t" [1])|].
  eapply rtc_l; [by apply (step_lookup _ 0 "t" [1])|]. change (lookup_tablet "t" [1] _) with (@None (TabletInfo nat)).
  eapply rtc_l; [by apply (step_ask _ 0 "t" [1] (hosted_at 7))|].
  match goal with |- rtc step ?w asked => replace w with asked by (vm_compute; reflexivity) end. apply rtc_refl.
Defined.

Lemma second_reachable : rtc step invalidated (second (PDone (Ok (mkTablet None None 7%nat)))).
Proof.
  eapply rtc_l; [by apply (step_store _ 0 "t" [1] (hosted_at 7))|]. fold stored.
  eapply rtc_l; [by apply (step_call _ 1 "t" [5])|].
  eapply rtc_l; [by apply (step_lookup _ 1 "t" [5])|].
  match goal with |- rtc step ?w ?w' => replace w with w' by (vm_compute; reflexivity) end. apply rtc_refl.
Defined.

Lemma concurrent_locate_covers_witness :
  let w := second (PDone (Ok (mkTablet None None 7%nat))) in
  rtc step initial w /\ w_threads w !! 1%nat = Some ("t"%string, [5], PDone (Ok (mkTablet None None 7%nat))) /\
  covers [5] (mkTablet None None 7%nat) = true /\ exists l, ("t"%string, l) ∈ w_log w /\ mkTablet None None 7%nat ∈ l.
Proof.
  intros w. assert (rtc step initial w) as Hr.
  { etrans; [exact asked_reachable|]. eapply rtc_l; [apply (step_InvalidateTable _ "t")|]. exact second_reachable. }
  split; [exact Hr|]. split; [reflexivity|]. apply (concurrent_locate_covers w 1 "t"); [exact Hr|reflexivity].
Defined.

(** An invalidation can be lost.  A locate asks the source and holds its
    answer; [InvalidateTable] runs to completion; the locate then stores the
    answer it was given before.  A locate that starts after the invalidation
    is served that answer, and the source has not been asked again: contrary
    to the documentation of [Invalidate], the next locate does not
    repopulate. *)
Theorem invalidation_can_be_lost :
  exists (w1 w3 : world nat) x,
    rtc step initial w1 /\
    w_threads w1 !! 1%nat = None /\
    rtc step (with_cache (InvalidateTable "t" (w_cache w1)) w1) w3 /\
    w_threads w3 !! 1%nat = Some ("t"%string, [5], PDone (Ok x)) /\
    w_log w3 = w_log w1.
Proof.
  exists asked, (second (PDone (Ok (mkTablet None None 7%nat)))), (mkTablet None None 7%nat).
  split; [exact asked_reachable|]. split; [reflexivity|]. split; [exact second_reachable|].
  split; reflexivity.
Qed.
