(* ===== verification/BCFile.v ===== *)
(** * BCFile: the container's encodings (src/internal/rfile/bcfile)

    The block-compressed file format: its variable-length integers
    (varint.go), strings (string.go), block regions (region.go), version and
    magic (version.go, magic.go), and the two indexes (index.go).  Writers
    produce the bytes they append, to a sink that does not fail; readers take
    the bytes of a [bytes.Reader].  Go strings are their bytes. *)

From S2P Require Import Prelude Wire GoStd.

Definition ErrCorruptVInt : err := Fail "bcfile: corrupted vint encoding".
Definition ErrCorruptString : err := Fail "bcfile: corrupted string encoding".
Definition ErrUnsupportedVersion : err := Fail "bcfile: unsupported version".
Definition ErrBadMagic : err := Fail "bcfile: not a valid BCFile (magic mismatch)".
Definition ErrMissingDataPrefix : err := Fail "bcfile: meta entry missing 'data:' prefix".

(** ** Variable-length integers (varint.go) *)

(** [readFull]: one [ReadByte] per byte, so a short tail is [io.EOF]. *)
Fixpoint readFull (n : nat) : reader bytes :=
  match n with
  | O => mret []
  | S n => b ← ReadByte; buf ← readFull n; mret (b :: buf)
  end.

(** The value and the number of bytes consumed.  At most eight bytes are
    accumulated, so no shift leaves the 64-bit range. *)
Definition ReadVLong : reader (Z * Z) :=
  first ← ReadByte;
  let fb := int8 first in
  if -32 <=? fb then mret (fb, 1)
  else
    let bucket := (fb + 128) / 8 in
    if (7 <=? bucket) && (bucket <=? 11) then
      b ← rwrap "bcfile vint byte 1" ReadByte;
      mret (Z.lor (Z.shiftl (fb + 52) 8) b, 2)
    else if (3 <=? bucket) && (bucket <=? 6) then
      buf ← rwrap "bcfile vint 3-byte tail" (readFull 2);
      mret (Z.lor (Z.shiftl (fb + 88) 16) (Z.lor (Z.shiftl (nth 0 buf 0) 8) (nth 1 buf 0)), 3)
    else if (1 <=? bucket) && (bucket <=? 2) then
      buf ← rwrap "bcfile vint 4-byte tail" (readFull 3);
      mret (Z.lor (Z.shiftl (fb + 112) 24)
              (Z.lor (Z.lor (Z.shiftl (nth 0 buf 0) 16) (Z.shiftl (nth 1 buf 0) 8)) (nth 2 buf 0)), 4)
    else if bucket =? 0 then
      let dataLen := fb + 129 in
      if (dataLen <? 4) || (8 <? dataLen) then rfail (Wrap "len byte out of [4..8]" ErrCorruptVInt)
      else
        buf ← rwrap "bcfile vint tail" (readFull (Z.to_nat dataLen));
        mret (be_get_acc (int8 (nth 0 buf 0)) (drop 1 buf), 1 + dataLen)
    else rfail (Wrap "firstByte" ErrCorruptVInt).

Definition ReadVInt : reader (Z * Z) :=
  '(v, n) ← ReadVLong;
  if (v >? 2 ^ 31 - 1) || (v <? - 2 ^ 31) then rfail (Fail "bcfile: vint does not fit in int32")
  else mret (v, n).

(** [bits.Len64]. *)
Definition Len64 (x : Z) : Z := if x <=? 0 then 0 else Z.log2 x + 1.

Definition vlong_dataLen (n : Z) : Z :=
  let un := if n <? 0 then Z.lnot n else n in
  Len64 un / 8 + 1.

(** The cases of the switch, each falling through to the next. *)
Definition vlong_case4 (n first : Z) : bytes :=
  if (first <? 8) && (first >=? -8) then
    [uint8 (int8 (first - 112)); uint8 (Z.shiftr n 16); uint8 (Z.shiftr n 8); uint8 n]
  else uint8 (int8 (4 - 129)) :: be_put 4 n.
Definition vlong_case3 (n first : Z) : bytes :=
  if (first <? 16) && (first >=? -16) then
    [uint8 (int8 (first - 88)); uint8 (Z.shiftr n 8); uint8 n]
  else vlong_case4 n (Z.shiftr first 8).
Definition vlong_case2 (n first : Z) : bytes :=
  if (first <? 20) && (first >=? -20) then [uint8 (int8 (first - 52)); uint8 n]
  else vlong_case3 n (Z.shiftr first 8).

(** The default case's check of [dataLen] cannot fail ([dataLen_bound]). *)
Definition WriteVLong (n : Z) : bytes :=
  if (n <? 128) && (n >=? -32) then [uint8 (int8 n)]
  else
    let dataLen := vlong_dataLen n in
    let first := Z.shiftr n ((dataLen - 1) * 8) in
    if dataLen =? 1 then vlong_case2 n (Z.shiftr first 8)
    else if dataLen =? 2 then vlong_case2 n first
    else if dataLen =? 3 then vlong_case3 n first
    else if dataLen =? 4 then vlong_case4 n first
    else uint8 (int8 (dataLen - 129)) :: be_put (Z.to_nat dataLen) n.

Definition WriteVInt (n : Z) : bytes := WriteVLong n.

(** ** Strings (string.go) *)

(** [None] is the null string. *)
Definition ReadString : reader (option bytes) :=
  '(length, _) ← rwrap "bcfile: read string length" ReadVInt;
  if length =? -1 then mret None
  else if length <? 0 then rfail (Wrap "length" ErrCorruptString)
  else
    remaining ← Len;
    if length >? remaining then rfail (Wrap "length exceeds remaining bytes" ErrCorruptString)
    else
      buf ← rwrap "bcfile: read string body" (ReadFull length);
      mret (Some buf).

Definition WriteString (s : bytes) : bytes := WriteVInt (int32 (len s)) ++ s.
Definition WriteNullString : bytes := WriteVInt (-1).

(** ** Block regions (region.go) *)

Record BlockRegion := mkRegion { Offset : Z; CompressedSize : Z; RawSize : Z }.

#[export] Instance BlockRegion_eq_dec : EqDecision BlockRegion.
Proof. solve_decision. Defined.

Definition MaxCompressedBlockSize : Z := 256 * 1024 * 1024.
Definition MaxRawBlockSize : Z := 512 * 1024 * 1024.

(** [None] is nil: the region is valid. *)
Definition ValidateBlockRegion (region : BlockRegion) (fileLength : Z) : option err :=
  if fileLength <? 0 then Some (Fail "bcfile: negative file length")
  else if Offset region <? 0 then Some (Fail "bcfile: negative block offset")
  else if CompressedSize region <? 0 then Some (Fail "bcfile: negative CompressedSize")
  else if RawSize region <? 0 then Some (Fail "bcfile: negative RawSize")
  else if CompressedSize region >? MaxCompressedBlockSize then Some (Fail "bcfile: compressed block size exceeds limit")
  else if RawSize region >? MaxRawBlockSize then Some (Fail "bcfile: raw block size exceeds limit")
  else if (Offset region >? fileLength) || (CompressedSize region >? int64 (fileLength - Offset region))
  then Some (Fail "bcfile: block region out of bounds")
  else None.

Definition ReadBlockRegion : reader BlockRegion :=
  '(off, _) ← rwrap "BlockRegion offset" ReadVLong;
  '(csz, _) ← rwrap "BlockRegion compressedSize" ReadVLong;
  '(rsz, _) ← rwrap "BlockRegion rawSize" ReadVLong;
  mret (mkRegion off csz rsz).

Definition WriteBlockRegion (br : BlockRegion) : bytes :=
  WriteVLong (Offset br) ++ WriteVLong (CompressedSize br) ++ WriteVLong (RawSize br).

(** ** The meta index (index.go) *)

Record MetaIndexEntry := mkEntry { Name : bytes; CompressionAlgo : bytes; Region : BlockRegion }.

#[export] Instance MetaIndexEntry_eq_dec : EqDecision MetaIndexEntry.
Proof. solve_decision. Defined.

Record MetaIndex := mkMetaIndex { Entries : gmap bytes MetaIndexEntry }.

Definition maxMetaIndexEntries : Z := Z.shiftl 1 16.
Definition maxDataIndexBlocks : Z := Z.shiftl 1 20.
(** "data:" *)
Definition metaNamePrefix : bytes := [100; 97; 116; 97; 58].
(** "BCFile.index" *)
Definition DataIndexBlockName : bytes := [66; 67; 70; 105; 108; 101; 46; 105; 110; 100; 101; 120].

Definition HasPrefix (s prefix : bytes) : bool := bool_decide (take (length prefix) s = prefix).
Definition TrimPrefix (s prefix : bytes) : bytes :=
  if HasPrefix s prefix then drop (length prefix) s else s.

Definition readMetaIndexEntry : reader MetaIndexEntry :=
  full ← rwrap "entry name" ReadString;
  match full with
  | None => rfail (Fail "bcfile: null meta entry name")
  | Some full =>
      if negb (HasPrefix full metaNamePrefix) then rfail (Wrap "entry name" ErrMissingDataPrefix)
      else
        algo ← rwrap "compression name" ReadString;
        match algo with
        | None => rfail (Fail "bcfile: null compression algorithm")
        | Some algo =>
            region ← ReadBlockRegion;
            mret (mkEntry (TrimPrefix full metaNamePrefix) algo region)
        end
  end.

Fixpoint read_entries (count : nat) (entries : gmap bytes MetaIndexEntry) : reader (gmap bytes MetaIndexEntry) :=
  match count with
  | O => mret entries
  | S count =>
      entry ← rwrap "MetaIndex entry" readMetaIndexEntry;
      match entries !! Name entry with
      | Some _ => rfail (Fail "bcfile: duplicate MetaIndex entry")
      | None => read_entries count (<[Name entry := entry]> entries)
      end
  end.

Definition ReadMetaIndex : reader MetaIndex :=
  '(count, _) ← rwrap "MetaIndex count" ReadVInt;
  if count <? 0 then rfail (Fail "bcfile: negative MetaIndex count")
  else if count >? maxMetaIndexEntries then rfail (Fail "bcfile: MetaIndex entry count exceeds limit")
  else
    entries ← read_entries (Z.to_nat count) ∅;
    mret (mkMetaIndex entries).

Definition string_less (a b : bytes) : bool := bool_decide (bytes_Compare a b = Lt).

Definition WriteMetaEntry (entry : MetaIndexEntry) : bytes :=
  WriteString (metaNamePrefix ++ Name entry) ++ WriteString (CompressionAlgo entry) ++
  WriteBlockRegion (Region entry).

(** The keys are distinct, so the order the map yields them in does not
    matter ([sorted_names_unique]). *)
Definition sorted_names (entries : gmap bytes MetaIndexEntry) : list bytes :=
  SliceStable string_less (map_to_list entries).*1.

Definition WriteMetaIndex (mi : MetaIndex) : bytes :=
  WriteVInt (int32 (Z.of_nat (size (Entries mi)))) ++
  concat ((fun name => match Entries mi !! name with Some entry => WriteMetaEntry entry | None => [] end) <$> sorted_names (Entries mi)).

Definition Lookup (mi : MetaIndex) (name : bytes) : option MetaIndexEntry := Entries mi !! name.

(** ** The data index (index.go) *)

Record DataIndex := mkDataIndex { DefaultCompression : bytes; Blocks : list BlockRegion }.

Fixpoint read_regions (count : nat) : reader (list BlockRegion) :=
  match count with
  | O => mret []
  | S count =>
      region ← rwrap "DataIndex block" ReadBlockRegion;
      blocks ← read_regions count;
      mret (region :: blocks)
  end.

Definition ReadDataIndex : reader DataIndex :=
  algo ← rwrap "DataIndex compression name" ReadString;
  match algo with
  | None => rfail (Fail "bcfile: null DataIndex compression algorithm")
  | Some algo =>
      '(count, _) ← rwrap "DataIndex block count" ReadVInt;
      if count <? 0 then rfail (Fail "bcfile: negative DataIndex block count")
      else if count >? maxDataIndexBlocks then rfail (Fail "bcfile: DataIndex block count exceeds limit")
      else
        blocks ← read_regions (Z.to_nat count);
        mret (mkDataIndex algo blocks)
  end.

Definition WriteDataIndex (di : DataIndex) : bytes :=
  WriteString (DefaultCompression di) ++ WriteVInt (int32 (len (Blocks di))) ++
  concat (WriteBlockRegion <$> Blocks di).

(** ** The integer encoding is the documented table *)

Lemma Len64_div x k : 0 <= x -> 0 <= k -> 2 ^ k <= x < 2 ^ (k + 8) -> k mod 8 = 7 -> Len64 x / 8 = (k + 1) / 8.
Proof.
  intros Hx Hk Hr Hm. assert (0 < x) as Hpos by (pose proof (Z.pow_pos_nonneg 2 k ltac:(lia) Hk); lia).
  unfold Len64. replace (x <=? 0) with false by lia.
  pose proof (proj1 (Z.log2_le_pow2 x k Hpos) (proj1 Hr)).
  pose proof (proj1 (Z.log2_lt_pow2 x (k + 8) Hpos) (proj2 Hr)).
  assert (k + 1 = 8 * ((k + 1) / 8)) as E by (Z.to_euclidean_division_equations; lia).
  symmetry. apply (Z.div_unique (Z.log2 x + 1) 8 ((k + 1) / 8) (Z.log2 x - k)); lia.
Qed.

Definition needs (n : Z) (k : Z) : Prop := - 2 ^ (8 * k - 1) <= n < 2 ^ (8 * k - 1).

Lemma dataLen_needs n k :
  1 <= k -> needs n k -> (k = 1 \/ ~ needs n (k - 1)) -> vlong_dataLen n = k.
Proof.
  unfold needs, vlong_dataLen. intros Hk Hn Hlow.
  set (un := if n <? 0 then Z.lnot n else n).
  assert (0 <= un < 2 ^ (8 * k - 1)) as Hun.
  { unfold un. destruct (Z.ltb_spec n 0); [unfold Z.lnot|]; lia. }
  destruct (decide (k = 1)) as [->|Hk1].
  - change (2 ^ (8 * 1 - 1)) with 128 in Hun. unfold Len64. destruct (Z.leb_spec un 0); [done|].
    pose proof (proj1 (Z.log2_lt_pow2 un 7 ltac:(lia)) ltac:(change (2 ^ 7) with 128; lia)).
    pose proof (Z.log2_nonneg un). rewrite Z.div_small; lia.
  - destruct Hlow as [|Hlow]; [lia|].
    assert (2 ^ (8 * (k - 1) - 1) <= un) as Hge.
    { unfold un. destruct (Z.ltb_spec n 0); [unfold Z.lnot|]; lia. }
    rewrite (Len64_div un (8 * (k - 1) - 1)); [|lia|lia| |].
    + replace (8 * (k - 1) - 1 + 1) with ((k - 1) * 8) by lia. rewrite Z.div_mul; lia.
    + replace (8 * (k - 1) - 1 + 8) with (8 * k - 1) by lia. lia.
    + replace (8 * (k - 1) - 1) with (7 + (k - 2) * 8) by lia. by rewrite Z.mod_add.
Qed.

Lemma needs_least n : in_int64 n -> exists k, 1 <= k <= 8 /\ needs n k /\ (k = 1 \/ ~ needs n (k - 1)).
Proof.
  intros Hn. unfold needs, in_int64 in *.
  destruct (decide (- 2 ^ 7 <= n < 2 ^ 7)); [exists 1; cbn; lia|].
  destruct (decide (- 2 ^ 15 <= n < 2 ^ 15)); [exists 2; cbn; lia|].
  destruct (decide (- 2 ^ 23 <= n < 2 ^ 23)); [exists 3; cbn; lia|].
  destruct (decide (- 2 ^ 31 <= n < 2 ^ 31)); [exists 4; cbn; lia|].
  destruct (decide (- 2 ^ 39 <= n < 2 ^ 39)); [exists 5; cbn; lia|].
  destruct (decide (- 2 ^ 47 <= n < 2 ^ 47)); [exists 6; cbn; lia|].
  destruct (decide (- 2 ^ 55 <= n < 2 ^ 55)); [exists 7; cbn; lia|].
  exists 8. cbn. lia.
Qed.

Lemma dataLen_bound n : in_int64 n -> 1 <= vlong_dataLen n <= 8.
Proof. intros Hn. destruct (needs_least n Hn) as (k & Hk & H1 & H2). rewrite (dataLen_needs n k); [lia|lia|done|done]. Qed.

(** [lead k bias n]: the header byte carries the bits of [n] above its [k]
    low bytes, which follow. *)
Definition lead (k : nat) (bias n : Z) : bytes := uint8 (n / 256 ^ Z.of_nat k + bias) :: be_put k n.

Definition vlong_table (n : Z) : bytes :=
  if (-32 <=? n) && (n <? 128) then [uint8 n]
  else if (-20 * 2 ^ 8 <=? n) && (n <? 20 * 2 ^ 8) then lead 1 (-52) n
  else if (-16 * 2 ^ 16 <=? n) && (n <? 16 * 2 ^ 16) then lead 2 (-88) n
  else if (-8 * 2 ^ 24 <=? n) && (n <? 8 * 2 ^ 24) then lead 3 (-112) n
  else if (- 2 ^ 31 <=? n) && (n <? 2 ^ 31) then uint8 (-125) :: be_put 4 n
  else uint8 (vlong_dataLen n - 129) :: be_put (Z.to_nat (vlong_dataLen n)) n.

Lemma uint8_int8 x : uint8 (int8 x) = uint8 x.
Proof.
  unfold uint8, int8. change (2 ^ 8) with 256. change (2 ^ 7) with 128. rewrite Zminus_mod_idemp_l. f_equal. lia.
Qed.

Lemma be_put_uint8 n v : be_put (S n) v = uint8 (Z.shiftr v (8 * Z.of_nat n)) :: be_put n v.
Proof. cbn [be_put]. by rewrite land_255. Qed.

Lemma shiftr_div x k : 0 <= k -> Z.shiftr x k = x / 2 ^ k.
Proof. intros. by rewrite Z.shiftr_div_pow2. Qed.

Lemma case4_table n :
  vlong_case4 n (n / 2 ^ 24) =
  if (-8 * 2 ^ 24 <=? n) && (n <? 8 * 2 ^ 24) then lead 3 (-112) n else uint8 (-125) :: be_put 4 n.
Proof.
  unfold vlong_case4, lead. rewrite !uint8_int8. change (256 ^ Z.of_nat 3) with (2 ^ 24).
  replace ((n / 2 ^ 24 <? 8) && (n / 2 ^ 24 >=? -8)) with ((-8 * 2 ^ 24 <=? n) && (n <? 8 * 2 ^ 24)).
  2: { apply eq_true_iff_eq. rewrite !andb_true_iff. change (2 ^ 24) with 16777216. Z.to_euclidean_division_equations. lia. }
  destruct (_ && _); [|done]. rewrite !be_put_uint8. cbn [be_put]. done.
Qed.

Lemma case3_table n :
  vlong_case3 n (n / 2 ^ 16) =
  if (-16 * 2 ^ 16 <=? n) && (n <? 16 * 2 ^ 16) then lead 2 (-88) n
  else if (-8 * 2 ^ 24 <=? n) && (n <? 8 * 2 ^ 24) then lead 3 (-112) n else uint8 (-125) :: be_put 4 n.
Proof.
  unfold vlong_case3. rewrite (shiftr_div (n / 2 ^ 16) 8), Z.div_div, <-Z.pow_add_r by lia.
  change (16 + 8) with 24. rewrite case4_table.
  replace ((n / 2 ^ 16 <? 16) && (n / 2 ^ 16 >=? -16)) with ((-16 * 2 ^ 16 <=? n) && (n <? 16 * 2 ^ 16)).
  2: { apply eq_true_iff_eq. rewrite !andb_true_iff. change (2 ^ 16) with 65536. Z.to_euclidean_division_equations. lia. }
  destruct (_ && _); [|done]. unfold lead. rewrite !uint8_int8. by rewrite !be_put_uint8.
Qed.

Lemma case2_table n :
  vlong_case2 n (n / 2 ^ 8) =
  if (-20 * 2 ^ 8 <=? n) && (n <? 20 * 2 ^ 8) then lead 1 (-52) n
  else if (-16 * 2 ^ 16 <=? n) && (n <? 16 * 2 ^ 16) then lead 2 (-88) n
  else if (-8 * 2 ^ 24 <=? n) && (n <? 8 * 2 ^ 24) then lead 3 (-112) n else uint8 (-125) :: be_put 4 n.
Proof.
  unfold vlong_case2. rewrite (shiftr_div (n / 2 ^ 8) 8), Z.div_div, <-Z.pow_add_r by lia.
  change (8 + 8) with 16. rewrite case3_table.
  replace ((n / 2 ^ 8 <? 20) && (n / 2 ^ 8 >=? -20)) with ((-20 * 2 ^ 8 <=? n) && (n <? 20 * 2 ^ 8)).
  2: { apply eq_true_iff_eq. rewrite !andb_true_iff. change (2 ^ 8) with 256. Z.to_euclidean_division_equations. lia. }
  destruct (_ && _); [|done]. unfold lead. rewrite !uint8_int8. by rewrite !be_put_uint8.
Qed.

Lemma WriteVLong_table n : in_int64 n -> WriteVLong n = vlong_table n.
Proof.
  intros Hn. unfold WriteVLong, vlong_table. rewrite uint8_int8.
  replace ((n <? 128) && (n >=? -32)) with ((-32 <=? n) && (n <? 128)) by (apply eq_true_iff_eq; rewrite !andb_true_iff; lia).
  destruct ((-32 <=? n) && (n <? 128)) eqn:E1; [done|].
  destruct (needs_least n Hn) as (k & Hk & Hneeds & Hlow). rewrite (dataLen_needs n k) by (lia || done).
  unfold needs in Hneeds, Hlow. rewrite !uint8_int8.
  assert (k = 1 \/ k = 2 \/ k = 3 \/ k = 4 \/ 5 <= k) as [->|[->|[->|[->|H5]]]] by lia; cbn [Z.eqb Pos.eqb].
  - change ((1 - 1) * 8) with 0. rewrite Z.shiftr_0_r, shiftr_div by lia. rewrite case2_table.
    change (8 * 1 - 1) with 7 in Hneeds. replace ((- 2 ^ 31 <=? n) && (n <? 2 ^ 31)) with true by (cbn in *; lia). done.
  - change ((2 - 1) * 8) with 8. rewrite shiftr_div by lia. rewrite case2_table.
    change (8 * 2 - 1) with 15 in Hneeds. replace ((- 2 ^ 31 <=? n) && (n <? 2 ^ 31)) with true by (cbn in *; lia). done.
  - change ((3 - 1) * 8) with 16. rewrite shiftr_div by lia. rewrite case3_table.
    change (8 * 3 - 1) with 23 in Hneeds. change (8 * (3 - 1) - 1) with 15 in Hlow.
    replace ((- 2 ^ 31 <=? n) && (n <? 2 ^ 31)) with true by (cbn in *; lia).
    replace ((-20 * 2 ^ 8 <=? n) && (n <? 20 * 2 ^ 8)) with false by (cbn in *; lia). done.
  - change ((4 - 1) * 8) with 24. rewrite shiftr_div by lia. rewrite case4_table.
    change (8 * 4 - 1) with 31 in Hneeds. change (8 * (4 - 1) - 1) with 23 in Hlow.
    replace ((- 2 ^ 31 <=? n) && (n <? 2 ^ 31)) with true by (cbn in *; lia).
    replace ((-20 * 2 ^ 8 <=? n) && (n <? 20 * 2 ^ 8)) with false by (cbn in *; lia).
    replace ((-16 * 2 ^ 16 <=? n) && (n <? 16 * 2 ^ 16)) with false by (cbn in *; lia). done.
  - destruct Hlow as [->|Hlow]; [lia|].
    assert (2 ^ 31 <= 2 ^ (8 * (k - 1) - 1)) as Hp by (apply Z.pow_le_mono_r; lia).
    replace (k =? 1) with false by lia. replace (k =? 2) with false by lia.
    replace (k =? 3) with false by lia. replace (k =? 4) with false by lia.
    replace ((- 2 ^ 31 <=? n) && (n <? 2 ^ 31)) with false by lia.
    replace ((-20 * 2 ^ 8 <=? n) && (n <? 20 * 2 ^ 8)) with false by lia.
    replace ((-16 * 2 ^ 16 <=? n) && (n <? 16 * 2 ^ 16)) with false by lia.
    replace ((-8 * 2 ^ 24 <=? n) && (n <? 8 * 2 ^ 24)) with false by lia. done.
Qed.

(** ** Reading the encodings back *)

Lemma parses_readFull buf : parses (readFull (length buf)) buf buf.
Proof.
  induction buf as [|b buf IH]; [apply parses_ret|].
  change (b :: buf) with ([b] ++ buf) at 2. cbn [length readFull].
  apply (parses_bind _ _ [b] buf b); [apply parses_ReadByte|].
  apply parses_app_nil. apply (parses_bind _ _ buf [] buf); [done|apply parses_ret].
Qed.

Lemma parses_readFull_be k n : parses (readFull k) (be_put k n) (be_put k n).
Proof. pose proof (parses_readFull (be_put k n)) as H. by rewrite be_put_length in H. Qed.

(** The low bytes complete the leading ones. *)
Lemma be_get_lead k n : be_get_acc (n / 256 ^ Z.of_nat k) (be_put k n) = n.
Proof.
  rewrite be_get_put_acc. pose proof (pow256_pos k). rewrite (Z.mul_comm _ (256 ^ Z.of_nat k)). symmetry.
  apply Z.div_mod. lia.
Qed.

Lemma parses_first first (q : Z -> reader (Z * Z)) bs a :
  parses (q first) bs a -> parses (b ← ReadByte; q b) (first :: bs) a.
Proof. intros. apply (parses_bind _ _ [first] bs first); [apply parses_ReadByte|done]. Qed.

Lemma parses_tail {A} msg k n (f : bytes -> A) a :
  f (be_put k n) = a -> parses (buf ← rwrap msg (readFull k); mret (f buf)) (be_put k n) a.
Proof.
  intros <-. apply parses_app_nil. eapply parses_bind; [apply parses_wrap, parses_readFull_be|apply parses_ret].
Qed.

Lemma shiftl_lor_lor a b c :
  Z.lor (Z.shiftl a 16) (Z.lor (Z.shiftl b 8) c) = Z.lor (Z.shiftl (Z.lor (Z.shiftl a 8) b) 8) c.
Proof. by rewrite Z.shiftl_lor, Z.shiftl_shiftl, Z.lor_assoc by lia. Qed.

Lemma shiftl_lor_lor_lor a b c d :
  Z.lor (Z.shiftl a 24) (Z.lor (Z.lor (Z.shiftl b 16) (Z.shiftl c 8)) d) =
  Z.lor (Z.shiftl (Z.lor (Z.shiftl (Z.lor (Z.shiftl a 8) b) 8) c) 8) d.
Proof. by rewrite !Z.shiftl_lor, !Z.shiftl_shiftl, !Z.lor_assoc by lia. Qed.

(** The header byte of each row of the table selects that row. *)
Lemma parses_lead1 n : -20 * 2 ^ 8 <= n < 20 * 2 ^ 8 -> parses ReadVLong (lead 1 (-52) n) (n, 2).
Proof.
  intros Hn. unfold ReadVLong, lead. apply parses_first. change (256 ^ Z.of_nat 1) with 256.
  change (20 * 2 ^ 8) with 5120 in Hn. change (-20 * 2 ^ 8) with (-5120) in Hn.
  assert (-20 <= n / 256 < 20) as Hq by (Z.to_euclidean_division_equations; lia).
  rewrite int8_uint8 by lia. set (fb := n / 256 + -52).
  replace (-32 <=? fb) with false by lia.
  replace ((7 <=? (fb + 128) / 8) && ((fb + 128) / 8 <=? 11)) with true
    by (symmetry; apply andb_true_iff; Z.to_euclidean_division_equations; lia).
  replace (fb + 52) with (n / 256) by lia. change (be_put 1 n) with ([Z.land (Z.shiftr n 0) 255] ++ []).
  eapply parses_bind; [apply parses_wrap, parses_ReadByte|].
  assert (Z.lor (Z.shiftl (n / 256) 8) (Z.land (Z.shiftr n 0) 255) = n) as -> by exact (be_get_lead 1 n). apply parses_ret.
Qed.

Lemma parses_lead2 n : -16 * 2 ^ 16 <= n < 16 * 2 ^ 16 -> parses ReadVLong (lead 2 (-88) n) (n, 3).
Proof.
  intros Hn. unfold ReadVLong, lead. apply parses_first. change (256 ^ Z.of_nat 2) with 65536.
  change (16 * 2 ^ 16) with 1048576 in Hn. change (-16 * 2 ^ 16) with (-1048576) in Hn.
  assert (-16 <= n / 65536 < 16) as Hq by (Z.to_euclidean_division_equations; lia).
  rewrite int8_uint8 by lia. set (fb := n / 65536 + -88).
  assert (3 <= (fb + 128) / 8 <= 6) as Hb by (Z.to_euclidean_division_equations; lia).
  set (bucket := (fb + 128) / 8) in *. cbv zeta.
  replace (-32 <=? fb) with false by lia.
  replace ((7 <=? bucket) && (bucket <=? 11)) with false by lia.
  replace ((3 <=? bucket) && (bucket <=? 6)) with true by lia.
  apply parses_tail with (f := fun buf => (Z.lor (Z.shiftl (fb + 88) 16) (Z.lor (Z.shiftl (nth 0 buf 0) 8) (nth 1 buf 0)), 3)).
  f_equal. rewrite shiftl_lor_lor. replace (fb + 88) with (n / 65536) by lia.
  exact (be_get_lead 2 n).
Qed.

Lemma parses_lead3 n : -8 * 2 ^ 24 <= n < 8 * 2 ^ 24 -> parses ReadVLong (lead 3 (-112) n) (n, 4).
Proof.
  intros Hn. unfold ReadVLong, lead. apply parses_first. change (256 ^ Z.of_nat 3) with 16777216.
  change (8 * 2 ^ 24) with 134217728 in Hn. change (-8 * 2 ^ 24) with (-134217728) in Hn.
  assert (-8 <= n / 16777216 < 8) as Hq by (Z.to_euclidean_division_equations; lia).
  rewrite int8_uint8 by lia. set (fb := n / 16777216 + -112).
  assert (1 <= (fb + 128) / 8 <= 2) as Hb by (Z.to_euclidean_division_equations; lia).
  set (bucket := (fb + 128) / 8) in *. cbv zeta.
  replace (-32 <=? fb) with false by lia.
  replace ((7 <=? bucket) && (bucket <=? 11)) with false by lia.
  replace ((3 <=? bucket) && (bucket <=? 6)) with false by lia.
  replace ((1 <=? bucket) && (bucket <=? 2)) with true by lia.
  apply parses_tail with (f := fun buf => (Z.lor (Z.shiftl (fb + 112) 24)
    (Z.lor (Z.lor (Z.shiftl (nth 0 buf 0) 16) (Z.shiftl (nth 1 buf 0) 8)) (nth 2 buf 0)), 4)).
  f_equal. rewrite shiftl_lor_lor_lor. replace (fb + 112) with (n / 16777216) by lia.
  exact (be_get_lead 3 n).
Qed.

Lemma parses_whole n d :
  4 <= d <= 8 -> - 2 ^ (8 * d - 1) <= n < 2 ^ (8 * d - 1) ->
  parses ReadVLong (uint8 (d - 129) :: be_put (Z.to_nat d) n) (n, 1 + d).
Proof.
  intros Hd Hn. unfold ReadVLong. apply parses_first. rewrite int8_uint8 by lia.
  set (fb := d - 129). assert ((fb + 128) / 8 = 0) as Hb by (apply Z.div_small; lia).
  cbv zeta. rewrite Hb. cbn [Z.leb Z.compare andb Z.eqb].
  replace (-32 <=? fb) with false by lia. replace (fb + 129) with d by lia.
  replace ((d <? 4) || (8 <? d)) with false by lia.
  apply parses_tail with (f := fun buf => (be_get_acc (int8 (nth 0 buf 0)) (drop 1 buf), 1 + d)).
  f_equal. destruct (Z.to_nat d) as [|k] eqn:Ek; [lia|]. rewrite be_put_uint8. cbn [nth drop].
  rewrite shiftr_div by lia. assert (2 ^ (8 * Z.of_nat k) = 256 ^ Z.of_nat k) as E.
  { change 256 with (2 ^ 8). by rewrite <-Z.pow_mul_r by lia. }
  rewrite E, int8_uint8; [apply be_get_lead|].
  replace (8 * d - 1) with (7 + 8 * Z.of_nat k) in Hn by lia. rewrite Z.pow_add_r, E in Hn by lia.
  change (2 ^ 7) with 128 in Hn. pose proof (pow256_pos k).
  split; [apply Z.div_le_lower_bound; lia|apply Z.div_lt_upper_bound; lia].
Qed.

Lemma parses_ReadVLong n : in_int64 n -> parses ReadVLong (WriteVLong n) (n, len (WriteVLong n)).
Proof.
  intros Hn. rewrite (WriteVLong_table n Hn). unfold vlong_table.
  destruct (Z.leb_spec (-32) n), (Z.ltb_spec n 128); cbn [andb].
  1: { unfold ReadVLong. apply parses_first. rewrite int8_uint8 by lia.
       replace (-32 <=? n) with true by lia. apply parses_ret. }
  all: destruct (_ && (n <? 20 * 2 ^ 8)) eqn:E1; [apply parses_lead1; lia|].
  all: destruct (_ && (n <? 16 * 2 ^ 16)) eqn:E2; [apply parses_lead2; lia|].
  all: destruct (_ && (n <? 8 * 2 ^ 24)) eqn:E3; [apply parses_lead3; lia|].
  all: destruct (_ && (n <? 2 ^ 31)) eqn:E4; [apply (parses_whole n 4); cbn in *; lia|].
  all: destruct (needs_least n Hn) as (k & Hk & Hneeds & Hlow); rewrite (dataLen_needs n k) by (lia || done).
  all: assert (5 <= k) by (unfold needs in *; destruct (decide (k <= 4)); [|lia]; exfalso;
         pose proof (Z.pow_le_mono_r 2 (8 * k - 1) 31 ltac:(lia) ltac:(lia)); lia).
  all: rewrite len_cons; unfold len; rewrite be_put_length, Z2Nat.id by lia; apply parses_whole; [lia|done].
Qed.

Lemma parses_ReadVInt n : in_int32 n -> parses ReadVInt (WriteVInt n) (n, len (WriteVInt n)).
Proof.
  intros Hn. unfold ReadVInt, WriteVInt. apply parses_app_nil. eapply parses_bind.
  - apply parses_ReadVLong. unfold in_int32, in_int64 in *. lia.
  - cbn beta iota. unfold in_int32 in Hn. replace ((n >? 2 ^ 31 - 1) || (n <? - 2 ^ 31)) with false by lia. apply parses_ret.
Qed.

(** ** Strings, regions and indexes *)

Definition short (s : bytes) : Prop := len s < 2 ^ 31.
Definition region_ok (r : BlockRegion) : Prop := in_int64 (Offset r) /\ in_int64 (CompressedSize r) /\ in_int64 (RawSize r).

Lemma short_int32 {A} (s : list A) : len s < 2 ^ 31 -> int32 (len s) = len s /\ in_int32 (len s).
Proof.
  intros Hs. pose proof (len_nonneg s). assert (in_int32 (len s)) by (unfold in_int32; lia).
  split; [by apply int32_id|done].
Qed.

Lemma reads_WriteString s : short s -> reads ReadString (WriteString s) (Some s).
Proof.
  intros Hs. destruct (short_int32 s Hs) as [E Hi]. unfold ReadString, WriteString. rewrite E.
  eapply reads_bind; [apply reads_wrap, parses_reads, parses_ReadVInt, Hi|]. cbn beta iota.
  pose proof (len_nonneg s). replace (len s =? -1) with false by lia. replace (len s <? 0) with false by lia.
  intros rest. unfold mbind, reader_bind. unfold Len at 1. cbv beta iota.
  rewrite len_app. pose proof (len_nonneg rest). replace (len s >? len s + len rest) with false by lia.
  unfold rwrap. by rewrite (proj1 (parses_ReadFull s (len s) eq_refl)).
Qed.

Lemma reads_WriteNullString : reads ReadString WriteNullString None.
Proof.
  unfold ReadString, WriteNullString. apply reads_app_nil.
  eapply reads_bind; [apply reads_wrap, parses_reads, parses_ReadVInt; unfold in_int32; lia|]. apply reads_ret.
Qed.

Lemma reads_WriteBlockRegion r : region_ok r -> reads ReadBlockRegion (WriteBlockRegion r) r.
Proof.
  intros (H1 & H2 & H3). unfold ReadBlockRegion, WriteBlockRegion.
  eapply reads_bind; [apply reads_wrap, parses_reads, parses_ReadVLong, H1|]. cbn beta iota.
  eapply reads_bind; [apply reads_wrap, parses_reads, parses_ReadVLong, H2|]. cbn beta iota.
  apply reads_app_nil. eapply reads_bind; [apply reads_wrap, parses_reads, parses_ReadVLong, H3|]. cbn beta iota.
  destruct r. apply reads_ret.
Qed.

Definition entry_ok (e : MetaIndexEntry) : Prop :=
  short (metaNamePrefix ++ Name e) /\ short (CompressionAlgo e) /\ region_ok (Region e).

Lemma HasPrefix_app p s : HasPrefix (p ++ s) p = true.
Proof. unfold HasPrefix. apply bool_decide_eq_true. by rewrite take_app_length. Qed.

Lemma reads_WriteMetaEntry e : entry_ok e -> reads readMetaIndexEntry (WriteMetaEntry e) e.
Proof.
  intros (H1 & H2 & H3). unfold readMetaIndexEntry, WriteMetaEntry.
  eapply reads_bind; [apply reads_wrap, reads_WriteString, H1|]. cbv beta iota.
  rewrite HasPrefix_app. cbn [negb].
  eapply reads_bind; [apply reads_wrap, reads_WriteString, H2|]. cbv beta iota.
  apply reads_app_nil. eapply reads_bind; [apply reads_WriteBlockRegion, H3|].
  unfold TrimPrefix. rewrite HasPrefix_app, drop_app_length. destruct e. apply reads_ret.
Qed.

(** Reading the entries of distinct names, in any order, inserts them all. *)
Lemma reads_entries es m :
  Forall entry_ok es -> NoDup (Name <$> es) -> (forall e, e ∈ es -> m !! Name e = None) ->
  reads (read_entries (length es) m) (concat (WriteMetaEntry <$> es))
    (foldl (fun m e => <[Name e := e]> m) m es).
Proof.
  revert m. induction es as [|e es IH]; intros m Hok Hnd Hm; [apply reads_ret|].
  apply Forall_cons in Hok as [He Hok]. rewrite fmap_cons in Hnd. apply NoDup_cons in Hnd as [Hne Hnd].
  rewrite fmap_cons. cbn [length read_entries concat foldl].
  eapply reads_bind; [apply reads_wrap, reads_WriteMetaEntry, He|]. cbv beta.
  rewrite (Hm e) by (by left). apply IH; [done|done|]. intros d Hd.
  rewrite lookup_insert_ne; [apply Hm; by right|]. intros E. apply Hne. rewrite E.
  apply list_elem_of_fmap. by exists d.
Qed.

Lemma reads_regions rs :
  Forall region_ok rs -> reads (read_regions (length rs)) (concat (WriteBlockRegion <$> rs)) rs.
Proof.
  induction 1 as [|r rs Hr Hrs IH]; [apply reads_ret|]. rewrite fmap_cons. cbn [length read_regions concat].
  eapply reads_bind; [apply reads_wrap, reads_WriteBlockRegion, Hr|].
  apply reads_app_nil. eapply reads_bind; [exact IH|apply reads_ret].
Qed.

Definition data_index_ok (di : DataIndex) : Prop :=
  short (DefaultCompression di) /\ Forall region_ok (Blocks di) /\ len (Blocks di) <= maxDataIndexBlocks.

Lemma reads_WriteDataIndex di : data_index_ok di -> reads ReadDataIndex (WriteDataIndex di) di.
Proof.
  intros (H1 & H2 & H3). destruct di as [algo blocks]. cbn [DefaultCompression Blocks] in *.
  unfold ReadDataIndex, WriteDataIndex. cbn [DefaultCompression Blocks].
  eapply reads_bind; [apply reads_wrap, reads_WriteString, H1|]. cbv beta iota.
  change maxDataIndexBlocks with 1048576 in *. destruct (short_int32 blocks ltac:(lia)) as [E Hi]. rewrite E.
  eapply reads_bind; [apply reads_wrap, parses_reads, parses_ReadVInt, Hi|]. cbn beta iota.
  pose proof (len_nonneg blocks). replace (len blocks <? 0) with false by lia.
  replace (len blocks >? 1048576) with false by lia.
  apply reads_app_nil. eapply reads_bind; [|apply reads_ret].
  unfold len. rewrite Nat2Z.id. by apply reads_regions.
Qed.

(** ** The order of the meta index *)

Lemma string_less_irr s : string_less s s = false.
Proof. apply bool_decide_eq_false. by rewrite (cmp_refl bytes_Compare). Qed.

Lemma string_less_trans a b c : string_less a b = true -> string_less b c = true -> string_less a c = true.
Proof. unfold string_less. rewrite !bool_decide_eq_true. apply (cmp_trans bytes_Compare). Qed.

Lemma string_less_total a b : string_less a b = false -> string_less b a = false -> a = b.
Proof.
  unfold string_less. rewrite !bool_decide_eq_false, (cmp_antisym bytes_Compare a b).
  destruct (bytes_Compare a b) eqn:E; [by apply (cmp_eq bytes_Compare) in E|done|done].
Qed.

Lemma string_less_neg a b c : string_less a b = false -> string_less b c = false -> string_less a c = false.
Proof.
  intros H1 H2. destruct (string_less a c) eqn:E; [|done].
  destruct (string_less c b) eqn:E2; [by rewrite (string_less_trans a c b) in H1|].
  assert (b = c) as -> by (by apply string_less_total). congruence.
Qed.

(** However the map is iterated, its sorted names are the same. *)
Lemma sorted_names_unique (mi : gmap bytes MetaIndexEntry) names : names ≡ₚ (map_to_list mi).*1 -> SliceStable string_less names = sorted_names mi.
Proof.
  intros Hp. apply (StronglySorted_unique_strong (not_less string_less)).
  - intros a b _ _ H1 H2. by apply string_less_total.
  - apply SliceStable_sorted; [apply string_less_irr|apply string_less_trans|apply string_less_neg].
  - apply SliceStable_sorted; [apply string_less_irr|apply string_less_trans|apply string_less_neg].
  - unfold sorted_names. by rewrite !SliceStable_perm.
Qed.

Definition meta_index_ok (mi : MetaIndex) : Prop :=
  (forall name e, Entries mi !! name = Some e -> Name e = name /\ entry_ok e) /\
  Z.of_nat (size (Entries mi)) <= maxMetaIndexEntries.

Definition entry_of (mi : gmap bytes MetaIndexEntry) (name : bytes) : MetaIndexEntry :=
  default (mkEntry [] [] (mkRegion 0 0 0)) (mi !! name).

Lemma sorted_names_spec (mi : gmap bytes MetaIndexEntry) name : name ∈ sorted_names mi <-> is_Some (mi !! name).
Proof.
  unfold sorted_names. rewrite SliceStable_perm, list_elem_of_fmap. split.
  - intros ([k e] & -> & Hin). apply elem_of_map_to_list in Hin. by exists e.
  - intros [e He]. exists (name, e). split; [done|]. by apply elem_of_map_to_list.
Qed.

Lemma sorted_names_length (mi : gmap bytes MetaIndexEntry) : length (sorted_names mi) = size mi.
Proof.
  unfold sorted_names. rewrite (Permutation_length (SliceStable_perm _ _)), length_fmap. apply length_map_to_list.
Qed.

Lemma foldl_insert (es : list MetaIndexEntry) (m : gmap bytes MetaIndexEntry) name :
  NoDup (Name <$> es) ->
  foldl (fun m e => <[Name e := e]> m) m es !! name =
  match List.find (fun e => bool_decide (Name e = name)) es with Some e => Some e | None => m !! name end.
Proof.
  revert m. induction es as [|e es IH]; intros m Hnd; [done|]. rewrite fmap_cons in Hnd.
  apply NoDup_cons in Hnd as [Hne Hnd]. cbn [foldl List.find]. rewrite IH by done.
  case_bool_decide as E.
  - destruct (List.find _ es) as [d|] eqn:F.
    + apply find_some in F as [Hd Hk%bool_decide_eq_true]. exfalso. apply Hne, list_elem_of_fmap.
      exists d. split; [congruence|by apply list_elem_of_In].
    + by rewrite <-E, lookup_insert_eq.
  - by rewrite lookup_insert_ne.
Qed.

Lemma reads_WriteMetaIndex mi : meta_index_ok mi -> reads ReadMetaIndex (WriteMetaIndex mi) mi.
Proof.
  destruct mi as [mi]. intros [Hkey Hsize]. cbn [Entries] in *. unfold ReadMetaIndex, WriteMetaIndex. cbn [Entries]. change maxMetaIndexEntries with 65536 in *.
  assert (in_int32 (Z.of_nat (size mi))) as Hi by (unfold in_int32; lia). rewrite (int32_id _ Hi).
  eapply reads_bind; [apply reads_wrap, parses_reads, parses_ReadVInt, Hi|]. cbn beta iota.
  replace (Z.of_nat (size mi) <? 0) with false by lia. replace (Z.of_nat (size mi) >? 65536) with false by lia.
  rewrite Nat2Z.id. set (es := entry_of mi <$> sorted_names mi).
  assert (forall name, name ∈ sorted_names mi -> mi !! name = Some (entry_of mi name)) as Hin.
  { intros name [e He]%sorted_names_spec. unfold entry_of. by rewrite He. }
  assert (Name <$> es = sorted_names mi) as Hnames.
  { unfold es. rewrite <-list_fmap_compose. rewrite (list_fmap_ext _ id); [apply list_fmap_id|].
    intros i name Hn%list_elem_of_lookup_2. cbn. by apply (Hkey name _ (Hin name Hn)). }
  assert (NoDup (sorted_names mi)) as Hnd.
  { unfold sorted_names. rewrite SliceStable_perm. apply NoDup_fst_map_to_list. }
  assert ((fun name => match mi !! name with Some entry => WriteMetaEntry entry | None => [] end) <$> sorted_names mi
          = WriteMetaEntry <$> es) as ->.
  { unfold es. rewrite <-list_fmap_compose. apply list_fmap_ext.
    intros i name Hn%list_elem_of_lookup_2. cbn. by rewrite (Hin name Hn). }
  assert (length es = size mi) as Hlen by (unfold es; by rewrite length_fmap, sorted_names_length).
  rewrite <-Hlen. assert (foldl (fun m e => <[Name e := e]> m) ∅ es = mi) as Hfold.
  { apply map_eq. intros name. rewrite foldl_insert by (by rewrite Hnames).
    destruct (List.find _ es) as [e|] eqn:F.
    - apply find_some in F as [He Hk%bool_decide_eq_true]. apply list_elem_of_In in He.
      apply list_elem_of_fmap in He as (name' & -> & Hn). rewrite <-Hk.
      rewrite (proj1 (Hkey name' _ (Hin name' Hn))). by rewrite (Hin name' Hn).
    - rewrite lookup_empty. destruct (mi !! name) as [e|] eqn:E; [|done].
      assert (name ∈ sorted_names mi) as Hn by (apply sorted_names_spec; by exists e).
      eapply find_none in F; [|apply list_elem_of_In, list_elem_of_fmap; by exists name].
      rewrite (proj1 (Hkey name _ (Hin name Hn))), bool_decide_eq_true_2 in F by done. done. }
  apply reads_app_nil. apply (reads_bind _ _ (concat (WriteMetaEntry <$> es)) [] mi); [|apply reads_ret].
  rewrite <-Hfold. apply reads_entries; [|by rewrite Hnames|intros; apply lookup_empty].
  apply Forall_forall. intros e (name & -> & Hn)%list_elem_of_fmap. by apply (Hkey name _ (Hin name Hn)).
Qed.

(** ** Properties *)

(** BCFile integers round trip in the documented encoding.  For every
    64-bit integer the cascading switch of [WriteVLong] writes the row of the
    format's table for the integer's range (1 byte from -32 to 127, the
    biased headers of 2, 3 and 4 bytes, and the length-prefixed 5 to 9
    bytes), and [ReadVLong] returns the integer and the number of bytes and
    leaves the rest of the input; every proper prefix of the encoding fails
    with an end-of-file error. *)
Theorem bcfile_vlong_roundtrip n :
  in_int64 n ->
  WriteVLong n = vlong_table n /\ parses ReadVLong (WriteVLong n) (n, len (WriteVLong n)).
Proof. intros Hn. split; [by apply WriteVLong_table|by apply parses_ReadVLong]. Qed.

Lemma bcfile_vlong_roundtrip_witness :
  in_int64 (-5121) /\ WriteVLong (-5121) = [167; 235; 255] /\
  parses ReadVLong [167; 235; 255] (-5121, 3).
Proof.
  assert (in_int64 (-5121)) as H by (unfold in_int64; lia).
  split; [exact H|]. split; [reflexivity|]. exact (proj2 (bcfile_vlong_roundtrip (-5121) H)).
Defined.
