(* ===== verification/Container.v ===== *)
(** * Container: reading and writing BCFiles (src/internal/rfile/bcfile)

    The trailer (footer.go, version.go, magic.go), the reader that locates the
    indexes and blocks of a file (reader.go), and the writer that lays a file
    out (writer.go).  A file is read through [io.ReaderAt], an interface and a
    parameter here ([ReaderAt], with [Serves] what its documentation
    promises); the writer's sink does not fail. *)

From S2P Require Import Prelude Wire GoStd BCFile.

Definition int16 (x : Z) : Z := (x + 2 ^ 15) mod 2 ^ 16 - 2 ^ 15.

(** ** io.ReaderAt *)

(** [src.ReadAt(make([]byte, n), off)]: offset, then length. *)
Definition ReaderAt : Type := Z -> Z -> result bytes.

(** The source holds [file]: a read inside it delivers its bytes. *)
Class Serves (src : ReaderAt) (file : bytes) : Prop :=
  serves off n : 0 <= off < len file -> 0 <= n <= len file - off ->
    src off n = Ok (take (Z.to_nat n) (drop (Z.to_nat off) file)).

(** [bytes.Reader.ReadAt]. *)
Definition bytes_ReadAt (file : bytes) : ReaderAt := fun off n =>
  if off <? 0 then Err (Fail "bytes.Reader.ReadAt: negative offset")
  else if off >=? len file then Err EOF
  else
    let b := take (Z.to_nat n) (drop (Z.to_nat off) file) in
    if len b <? n then Err EOF else Ok b.

#[export] Instance bytes_Serves file : Serves (bytes_ReadAt file) file.
Proof.
  intros off n Ho Hn. unfold bytes_ReadAt. replace (off <? 0) with false by lia.
  replace (off >=? len file) with false by lia.
  assert (len (take (Z.to_nat n) (drop (Z.to_nat off) file)) = n) as ->.
  { unfold len in *. rewrite length_take, length_drop. lia. }
  by replace (n <? n) with false by lia.
Qed.

(** ** Version and magic *)

Record Version := mkVersion { Major : Z; Minor : Z }.
Definition VersionSize : Z := 4.
Definition APIVersion3 : Version := mkVersion 3 0.
Definition APIVersion1 : Version := mkVersion 1 0.

Definition CompatibleWith (v other : Version) : bool := Major v =? Major other.

Definition ReadVersion : reader Version :=
  buf ← rwrap "bcfile: read version" (ReadFull VersionSize);
  mret (mkVersion (int16 (be_get (take 2 buf))) (int16 (be_get (drop 2 buf)))).

Definition WriteVersion (v : Version) : bytes := be_put 2 (uint16 (Major v)) ++ be_put 2 (uint16 (Minor v)).

(** [None] is nil. *)
Definition CheckSupported (v : Version) : option err :=
  if CompatibleWith v APIVersion3 || CompatibleWith v APIVersion1 then None
  else Some (Wrap "got another version" ErrUnsupportedVersion).

Definition MagicBytes : bytes :=
  [0xd1; 0x11; 0xd3; 0x68; 0x91; 0xb5; 0xd7; 0xb6; 0x39; 0xdf; 0x41; 0x40; 0x92; 0xba; 0xe1; 0x50].
Definition MagicSize : Z := 16.

Definition VerifyMagic : reader unit :=
  buf ← rwrap "bcfile: read magic" (ReadFull MagicSize);
  if negb (bytes_Equal buf MagicBytes) then rfail ErrBadMagic else mret tt.
Definition WriteMagic : bytes := MagicBytes.

(** ** Footer (footer.go) *)

Definition FooterMinSizeV3 : Z := MagicSize + VersionSize + 16.
Definition FooterMinSizeV1 : Z := MagicSize + VersionSize + 8.

Record Footer := mkFooter { f_Version : Version; OffsetIndexMeta : Z; OffsetCryptoParams : Z }.

Definition ErrFileTooShort : err := Fail "bcfile: file too short for a valid BCFile trailer".
Definition ErrInvalidFooterOffsets : err := Fail "bcfile: invalid footer offsets".

Definition validateFooterOffsets (footer : Footer) (fileLength : Z) : option err :=
  if OffsetIndexMeta footer <? 0 then Some (Wrap "MetaIndex offset is negative" ErrInvalidFooterOffsets)
  else if CompatibleWith (f_Version footer) APIVersion3 then
    let trailerStart := fileLength - FooterMinSizeV3 in
    if OffsetCryptoParams footer <? 0 then Some (Wrap "crypto params offset is negative" ErrInvalidFooterOffsets)
    else if OffsetIndexMeta footer >=? OffsetCryptoParams footer then
      Some (Wrap "MetaIndex offset must precede crypto params offset" ErrInvalidFooterOffsets)
    else if OffsetCryptoParams footer >? trailerStart then
      Some (Wrap "crypto params offset exceeds trailer start" ErrInvalidFooterOffsets)
    else None
  else
    let trailerStart := fileLength - FooterMinSizeV1 in
    if OffsetIndexMeta footer >=? trailerStart then
      Some (Wrap "MetaIndex offset must precede trailer start" ErrInvalidFooterOffsets)
    else None.

Definition validated (footer : Footer) (fileLength : Z) : result Footer :=
  match validateFooterOffsets footer fileLength with Some e => Err e | None => Ok footer end.

Definition ReadFooter (r : ReaderAt) (fileLength : Z) : result Footer :=
  if fileLength <? FooterMinSizeV1 then Err (Wrap "have, need at least" ErrFileTooShort)
  else
    let tailStart := fileLength - MagicSize - VersionSize in
    tail ← wrap "bcfile: read trailer (version+magic)" (r tailStart (MagicSize + VersionSize));
    let versionBytes := take (Z.to_nat VersionSize) tail in
    let magicBytes := drop (Z.to_nat VersionSize) tail in
    if negb (bytes_Equal magicBytes MagicBytes) then Err ErrBadMagic
    else
      let version := mkVersion (int16 (be_get (take 2 versionBytes))) (int16 (be_get (drop 2 versionBytes))) in
      match CheckSupported version with
      | Some e => Err e
      | None =>
          if CompatibleWith version APIVersion3 then
            if fileLength <? FooterMinSizeV3 then Err (Wrap "v3 file too short" ErrFileTooShort)
            else
              offBuf ← wrap "bcfile: read v3 offsets" (r (tailStart - 16) 16);
              validated (mkFooter version (int64 (be_get (take 8 offBuf))) (int64 (be_get (drop 8 offBuf)))) fileLength
          else if CompatibleWith version APIVersion1 then
            offBuf ← wrap "bcfile: read v1 offset" (r (tailStart - 8) 8);
            validated (mkFooter version (int64 (be_get offBuf)) 0) fileLength
          else Err (Wrap "unhandled version" ErrUnsupportedVersion)
      end.

Definition WriteFooter (f : Footer) : result bytes :=
  if negb (CompatibleWith (f_Version f) APIVersion3) then Err (Fail "WriteFooter only supports v3")
  else Ok (be_put 8 (uint64 (OffsetIndexMeta f)) ++ be_put 8 (uint64 (OffsetCryptoParams f)) ++
           WriteVersion (f_Version f) ++ WriteMagic).

(** ** Reader (reader.go) *)

Definition maxMetaIndexRegionSize : Z := 64 * 1024 * 1024.
Definition ErrNoSuchMetaBlock : err := Fail "bcfile: no such meta block".
Definition ErrMetaIndexTooLarge : err := Fail "bcfile: MetaIndex region too large".

Record Reader := mkReader { src : ReaderAt; fileLength : Z; footer : Footer; metaIndex : MetaIndex }.

Definition metaIndexUpperBound (footer : Footer) (fileLength : Z) : Z :=
  if CompatibleWith (f_Version footer) APIVersion3 then OffsetCryptoParams footer
  else fileLength - FooterMinSizeV1.

Definition region_less (a b : MetaIndexEntry) : bool :=
  if negb (Offset (Region a) =? Offset (Region b)) then Offset (Region a) <? Offset (Region b)
  else string_less (Name a) (Name b).

(** The loop over adjacent entries. *)
Fixpoint find_overlap (entries : list MetaIndexEntry) : option err :=
  match entries with
  | previous :: ((current :: _) as entries') =>
      if Offset (Region current) <? int64 (Offset (Region previous) + CompressedSize (Region previous))
      then Some (Fail "bcfile: MetaIndex entries overlap")
      else find_overlap entries'
  | _ => None
  end.

(** The names are distinct, so [sort.Slice] has one result. *)
Definition validateMetaIndexRegions (mi : MetaIndex) : option err :=
  find_overlap (SliceStable region_less (map_to_list (Entries mi)).*2).

(** The loop of [NewReader] over the entries: which of several invalid
    entries is reported depends on the map's iteration order. *)
Fixpoint validate_entries (entries : list MetaIndexEntry) (limit : Z) : option err :=
  match entries with
  | [] => None
  | entry :: entries =>
      match ValidateBlockRegion (Region entry) limit with
      | Some e => Some (Wrap "bcfile: MetaIndex entry" e)
      | None => validate_entries entries limit
      end
  end.

Definition NewReader (src : ReaderAt) (fileLength : Z) : result Reader :=
  footer ← ReadFooter src fileLength;
  let miEnd := metaIndexUpperBound footer fileLength in
  let miLen := miEnd - OffsetIndexMeta footer in
  if miLen <=? 0 then Err (Fail "bcfile: MetaIndex region empty")
  else if miLen >? maxMetaIndexRegionSize then Err (Wrap "bytes exceeds limit" ErrMetaIndexTooLarge)
  else
    miBuf ← wrap "bcfile: read MetaIndex region" (src (OffsetIndexMeta footer) miLen);
    '(mi, _) ← ReadMetaIndex miBuf;
    match validate_entries (map_to_list (Entries mi)).*2 (OffsetIndexMeta footer) with
    | Some e => Err e
    | None =>
        match validateMetaIndexRegions mi with
        | Some e => Err e
        | None => Ok (mkReader src fileLength footer mi)
        end
    end.

Definition DataRegionEnd (r : Reader) : Z :=
  foldl (fun e entry => if Offset (Region entry) <? e then Offset (Region entry) else e)
    (OffsetIndexMeta (footer r)) (map_to_list (Entries (metaIndex r))).*2.

Definition MetaBlockEntry (r : Reader) (name : bytes) : result MetaIndexEntry :=
  match Lookup (metaIndex r) name with
  | Some e => Ok e
  | None => Err (Wrap "name" ErrNoSuchMetaBlock)
  end.

(** A Go [int] has 64 bits, so the platform limit is never met. *)
Definition RawBlock (r : Reader) (region : BlockRegion) : result bytes :=
  match ValidateBlockRegion region (fileLength r) with
  | Some e => Err e
  | None => wrap "bcfile: read block" (src r (Offset region) (CompressedSize region))
  end.

(** ** Writer (writer.go) *)

Record Writer := mkWriter {
  w_out : bytes;
  w_n : Z;
  w_defaultCompression : bytes;
  w_dataBlocks : list BlockRegion;
  w_metaIndex : MetaIndex;
  w_closed : bool;
}.

Definition NewWriter (defaultCompression : bytes) : Writer :=
  mkWriter [] 0 defaultCompression [] (mkMetaIndex ∅) false.

(** [countingWriter.Write]. *)
Definition Write (p : bytes) (w : Writer) : Writer :=
  mkWriter (w_out w ++ p) (w_n w + len p) (w_defaultCompression w) (w_dataBlocks w) (w_metaIndex w) (w_closed w).

Definition add_block (region : BlockRegion) (w : Writer) : Writer :=
  mkWriter (w_out w) (w_n w) (w_defaultCompression w) (w_dataBlocks w ++ [region]) (w_metaIndex w) (w_closed w).
Definition add_meta (entry : MetaIndexEntry) (w : Writer) : Writer :=
  mkWriter (w_out w) (w_n w) (w_defaultCompression w) (w_dataBlocks w)
    (mkMetaIndex (<[Name entry := entry]> (Entries (w_metaIndex w)))) (w_closed w).
Definition set_closed (w : Writer) : Writer :=
  mkWriter (w_out w) (w_n w) (w_defaultCompression w) (w_dataBlocks w) (w_metaIndex w) true.

Definition AppendDataBlock (compressed : bytes) (rawSize : Z) (w : Writer) : Writer * result BlockRegion :=
  if w_closed w then (w, Err (Fail "bcfile: writer closed"))
  else if rawSize <? 0 then (w, Err (Fail "bcfile: negative rawSize"))
  else
    let region := mkRegion (w_n w) (len compressed) rawSize in
    (add_block region (Write compressed w), Ok region).

Definition AppendMetaBlock (name codec compressed : bytes) (rawSize : Z) (w : Writer) : Writer * result BlockRegion :=
  if w_closed w then (w, Err (Fail "bcfile: writer closed"))
  else match Entries (w_metaIndex w) !! name with
  | Some _ => (w, Err (Fail "bcfile: meta block already exists"))
  | None =>
      if rawSize <? 0 then (w, Err (Fail "bcfile: negative rawSize"))
      else
        let region := mkRegion (w_n w) (len compressed) rawSize in
        (add_meta (mkEntry name codec region) (Write compressed w), Ok region)
  end.

(** "none" *)
Definition CodecNone : bytes := [110; 111; 110; 101].

(** Each step of [Close] works on the writer the previous one left. *)
Definition Close (w : Writer) : Writer * option err :=
  if w_closed w then (w, None)
  else
    let w := set_closed w in
    let diBuf := WriteDataIndex (mkDataIndex (w_defaultCompression w) (w_dataBlocks w)) in
    let diOffset := w_n w in
    let w := Write diBuf w in
    let w := add_meta (mkEntry DataIndexBlockName CodecNone (mkRegion diOffset (len diBuf) (len diBuf))) w in
    let metaIndexOffset := w_n w in
    let w := Write (WriteMetaIndex (w_metaIndex w)) w in
    let cryptoOffset := w_n w in
    let w := Write (replicate 8 0) w in
    match WriteFooter (mkFooter APIVersion3 metaIndexOffset cryptoOffset) with
    | Err e => (w, Some (Wrap "bcfile.Close: write trailer" e))
    | Ok trailer => (Write trailer w, None)
    end.

(** ** Reading back the trailer *)

Lemma serves_at src file pre p post :
  Serves src file -> file = pre ++ p ++ post -> p ++ post <> [] -> src (len pre) (len p) = Ok p.
Proof.
  intros Hs -> Hne. rewrite Hs.
  - unfold len. rewrite !Nat2Z.id, drop_app_length. by rewrite take_app_length.
  - pose proof (len_nonneg pre). rewrite (len_app pre).
    destruct (p ++ post) as [|x l]; [done|]. rewrite len_cons. pose proof (len_nonneg l). lia.
  - rewrite !len_app. pose proof (len_nonneg p). pose proof (len_nonneg post). lia.
Qed.

Lemma be_put_len n v : len (be_put n v) = Z.of_nat n.
Proof. unfold len. by rewrite be_put_length. Qed.

Lemma be_get_put8 v : 0 <= v < 2 ^ 63 -> int64 (be_get (be_put 8 (uint64 v))) = v.
Proof.
  intros Hv. unfold uint64. rewrite Z.mod_small by lia. rewrite be_get_put by (change (256 ^ Z.of_nat 8) with (2 ^ 64); lia).
  apply int64_id. unfold in_int64. lia.
Qed.

(** The bytes [WriteFooter] writes: the two offsets, then version and magic. *)
Definition trailer_offsets (a b : Z) : bytes := be_put 8 (uint64 a) ++ be_put 8 (uint64 b).
Definition trailer_tail : bytes := WriteVersion APIVersion3 ++ WriteMagic.

Lemma WriteFooter_v3 a b : WriteFooter (mkFooter APIVersion3 a b) = Ok (trailer_offsets a b ++ trailer_tail).
Proof. done. Qed.

Lemma trailer_offsets_len a b : len (trailer_offsets a b) = 16.
Proof. unfold trailer_offsets. by rewrite len_app, !be_put_len. Qed.

Lemma ReadFooter_v3 src pre a b :
  let file := pre ++ trailer_offsets a b ++ trailer_tail in
  Serves src file -> 0 <= a < b -> b <= len pre -> len file < 2 ^ 63 ->
  ReadFooter src (len file) = Ok (mkFooter APIVersion3 a b).
Proof.
  intros file Hs Hab Hb Hlen. pose proof (trailer_offsets_len a b) as Hoffs.
  set (offs := trailer_offsets a b) in *.
  assert (len file = len pre + 36) as EL.
  { unfold file. rewrite !len_app, Hoffs. change (len trailer_tail) with 20. lia. }
  pose proof (len_nonneg pre). rewrite EL in *. unfold ReadFooter.
  change FooterMinSizeV1 with 28. change FooterMinSizeV3 with 36. change MagicSize with 16. change VersionSize with 4.
  replace (len pre + 36 <? 28) with false by lia.
  replace (len pre + 36 - 16 - 4) with (len (pre ++ offs)) by (rewrite len_app; lia).
  change (16 + 4) with (len trailer_tail).
  rewrite (serves_at src file (pre ++ offs) trailer_tail [] Hs) by (rewrite ?app_nil_r, <-?(assoc_L (++)); done).
  cbn [wrap mbind result_bind].
  replace (negb (bytes_Equal (drop (Z.to_nat 4) trailer_tail) MagicBytes)) with false by reflexivity.
  change (mkVersion _ _) with APIVersion3.
  change (CheckSupported APIVersion3) with (@None err). change (CompatibleWith APIVersion3 APIVersion3) with true.
  cbv beta iota. replace (len pre + 36 <? 36) with false by lia.
  replace (len (pre ++ offs) - 16) with (len pre) by (rewrite len_app; lia).
  rewrite <-Hoffs. rewrite (serves_at src file pre offs trailer_tail Hs) by done.
  cbn [wrap mbind result_bind].
  change (take 8 offs) with (be_put 8 (uint64 a)). change (drop 8 offs) with (be_put 8 (uint64 b)).
  rewrite !be_get_put8 by lia. unfold validated, validateFooterOffsets.
  cbn [OffsetIndexMeta OffsetCryptoParams f_Version]. change (CompatibleWith APIVersion3 APIVersion3) with true.
  change FooterMinSizeV3 with 36. cbv beta iota zeta.
  replace (a <? 0) with false by lia. replace (b <? 0) with false by lia.
  replace (a >=? b) with false by lia. by replace (b >? len pre + 36 - 36) with false by lia.
Qed.

(** ** Overlaps *)

Definition region_end (e : MetaIndexEntry) : Z := Offset (Region e) + CompressedSize (Region e).

(** What the reader demands of an entry below [limit]; the block is not
    empty. *)
Definition entry_good (limit : Z) (e : MetaIndexEntry) : Prop :=
  short (metaNamePrefix ++ Name e) /\ short (CompressionAlgo e) /\
  0 <= Offset (Region e) /\ 0 < CompressedSize (Region e) <= MaxCompressedBlockSize /\
  0 <= RawSize (Region e) <= MaxRawBlockSize /\ region_end e <= limit.

Definition disjoint_entries (d e : MetaIndexEntry) : Prop :=
  region_end d <= Offset (Region e) \/ region_end e <= Offset (Region d).

Lemma region_less_irr e : region_less e e = false.
Proof. unfold region_less. rewrite Z.eqb_refl. cbn. apply string_less_irr. Qed.

Lemma region_less_spec a b :
  region_less a b = true <->
  Offset (Region a) < Offset (Region b) \/
  Offset (Region a) = Offset (Region b) /\ string_less (Name a) (Name b) = true.
Proof.
  unfold region_less. destruct (Z.eqb_spec (Offset (Region a)) (Offset (Region b))); cbn [negb].
  - split; [by right|]. by intros [?|[_ ?]]; [lia|].
  - rewrite Z.ltb_lt. split; [by left|]. by intros [?|[? _]].
Qed.

Lemma region_less_trans a b c : region_less a b = true -> region_less b c = true -> region_less a c = true.
Proof.
  rewrite !region_less_spec. intros [?|[? H1]] [?|[? H2]]; [lia..|]. right. split; [lia|]. by eapply string_less_trans.
Qed.

Lemma region_less_neg a b c : region_less a b = false -> region_less b c = false -> region_less a c = false.
Proof.
  rewrite <-!not_true_iff_false, !region_less_spec. intros H1 H2 [H|[E H]].
  - apply H2. destruct (Z.lt_trichotomy (Offset (Region b)) (Offset (Region c))) as [|[|]]; [by left| |].
    + exfalso. apply H1. left. lia.
    + exfalso. apply H1. left. lia.
  - destruct (Z.lt_trichotomy (Offset (Region b)) (Offset (Region c))) as [|[|]]; [apply H2; by left| |apply H1; left; lia].
    destruct (string_less (Name a) (Name b)) eqn:E1; [apply H1; right; split; [lia|done]|].
    destruct (string_less (Name b) (Name c)) eqn:E2; [apply H2; right; split; [lia|done]|].
    by rewrite (string_less_neg _ _ _ E1 E2) in H.
Qed.

Lemma find_overlap_none limit es :
  limit < 2 ^ 63 -> StronglySorted (not_less region_less) es -> Forall (entry_good limit) es ->
  (forall i j d e, i <> j -> es !! i = Some d -> es !! j = Some e -> disjoint_entries d e) ->
  find_overlap es = None.
Proof.
  intros Hlim Hs. induction Hs as [|d es Hs IH Hd]; intros Hg Hdis; [done|].
  apply Forall_cons in Hg as [Hgd Hg]. destruct es as [|e es]; [done|]. cbn [find_overlap].
  apply Forall_cons in Hd as [Hde _]. unfold not_less in Hde. rewrite <-not_true_iff_false, region_less_spec in Hde.
  pose proof (Hdis 0%nat 1%nat d e ltac:(done) eq_refl eq_refl) as Hj.
  pose proof (proj1 (proj1 (Forall_cons _ _ _) Hg)) as Hge.
  unfold entry_good, disjoint_entries, region_end in *.
  rewrite int64_id by (unfold in_int64; lia).
  destruct (Z.ltb_spec (Offset (Region e)) (Offset (Region d) + CompressedSize (Region d))); [lia|].
  apply IH; [done|]. intros i j d' e' Hij Hi Hj'. apply (Hdis (S i) (S j)); [congruence|done|done].
Qed.

Lemma ValidateBlockRegion_ok r limit :
  limit < 2 ^ 63 /\ 0 <= Offset r /\ 0 <= CompressedSize r <= MaxCompressedBlockSize /\
  0 <= RawSize r <= MaxRawBlockSize /\ Offset r + CompressedSize r <= limit ->
  ValidateBlockRegion r limit = None.
Proof.
  intros (Hl & Ho & Hc & Hr & He). unfold ValidateBlockRegion. rewrite int64_id by (unfold in_int64; lia).
  replace (limit <? 0) with false by lia. replace (Offset r <? 0) with false by lia.
  replace (CompressedSize r <? 0) with false by lia. replace (RawSize r <? 0) with false by lia.
  replace (CompressedSize r >? MaxCompressedBlockSize) with false by lia.
  replace (RawSize r >? MaxRawBlockSize) with false by lia.
  by replace ((Offset r >? limit) || (CompressedSize r >? limit - Offset r)) with false by lia.
Qed.

(** A meta index whose entries are good and pairwise disjoint passes the
    reader's checks. *)
Lemma validate_ok mi limit :
  limit < 2 ^ 63 ->
  (forall name e, Entries mi !! name = Some e -> Name e = name /\ entry_good limit e) ->
  (forall n1 n2 d e, n1 <> n2 -> Entries mi !! n1 = Some d -> Entries mi !! n2 = Some e -> disjoint_entries d e) ->
  validate_entries (map_to_list (Entries mi)).*2 limit = None /\ validateMetaIndexRegions mi = None.
Proof.
  intros Hlim Hkey Hdis. set (es := (map_to_list (Entries mi)).*2).
  assert (forall e, e ∈ es <-> Entries mi !! Name e = Some e) as Hin.
  { intros e. unfold es. rewrite list_elem_of_fmap. split.
    - intros ([n d] & -> & Hd). apply elem_of_map_to_list in Hd. cbn. by rewrite (proj1 (Hkey _ _ Hd)).
    - intros He. exists (Name e, e). split; [done|]. by apply elem_of_map_to_list. }
  assert (NoDup es) as Hnd.
  { unfold es. apply (NoDup_fmap_1 Name). rewrite <-list_fmap_compose.
    rewrite (list_fmap_ext _ fst); [apply NoDup_fst_map_to_list|].
    intros i [n d] Hd%list_elem_of_lookup_2. apply elem_of_map_to_list in Hd. cbn. by apply Hkey. }
  assert (forall e, e ∈ es -> entry_good limit e) as Hgood by (intros e He%Hin; by apply (Hkey (Name e))).
  split.
  - clear Hin Hnd Hdis Hkey. induction es as [|e es IH]; [done|]. cbn [validate_entries].
    rewrite (ValidateBlockRegion_ok (Region e) limit); [apply IH; intros; apply Hgood; by right|].
    pose proof (Hgood e ltac:(by left)) as He. unfold entry_good, region_end in He. lia.
  - unfold validateMetaIndexRegions. fold es. pose proof (SliceStable_perm region_less es) as Hp.
    apply (find_overlap_none limit); [done| | |].
    + apply SliceStable_sorted; [apply region_less_irr|apply region_less_trans|apply region_less_neg].
    + rewrite Hp. by apply Forall_forall.
    + intros i j d e Hij Hi Hj. assert (NoDup (SliceStable region_less es)) as Hnd' by (by rewrite Hp).
      assert (d <> e) as Hne by (intros ->; apply Hij; by eapply (NoDup_lookup _ i j e Hnd')).
      apply list_elem_of_lookup_2 in Hi, Hj. rewrite Hp in Hi, Hj. apply Hin in Hi, Hj.
      apply (Hdis (Name d) (Name e)); [|done|done]. intros E. rewrite E in Hi. congruence.
Qed.

(** ** What the writer has laid out *)

(** The payload lies at the region. *)
Definition holds (file : bytes) (r : BlockRegion) (p : bytes) : Prop :=
  exists pre post, file = pre ++ p ++ post /\ Offset r = len pre /\ CompressedSize r = len p.

Lemma holds_app file r p x : holds file r p -> holds (file ++ x) r p.
Proof.
  intros (pre & post & -> & H1 & H2). exists pre, (post ++ x). split; [|done].
  by rewrite <-!(assoc_L (++)).
Qed.

Lemma holds_new file p raw : holds (file ++ p) (mkRegion (len file) (len p) raw) p.
Proof. exists file, []. by rewrite app_nil_r. Qed.

Inductive append :=
| AData (compressed : bytes) (rawSize : Z)
| AMeta (name codec compressed : bytes) (rawSize : Z).

Definition exec_append (a : append) (w : Writer) : Writer * result BlockRegion :=
  match a with
  | AData compressed rawSize => AppendDataBlock compressed rawSize w
  | AMeta name codec compressed rawSize => AppendMetaBlock name codec compressed rawSize w
  end.

(** Appends up to the first error. *)
Fixpoint appends (ops : list append) (w : Writer) : Writer * result (list BlockRegion) :=
  match ops with
  | [] => (w, Ok [])
  | a :: ops =>
      match exec_append a w with
      | (w, Err e) => (w, Err e)
      | (w, Ok region) =>
          match appends ops w with
          | (w, Err e) => (w, Err e)
          | (w, Ok regions) => (w, Ok (region :: regions))
          end
      end
  end.

(** The blocks the reader accepts: within the size limits, and a meta block
    not empty and not called like the data index. *)
Definition append_ok (a : append) : Prop :=
  match a with
  | AData p raw => len p <= MaxCompressedBlockSize /\ 0 <= raw <= MaxRawBlockSize
  | AMeta name codec p raw =>
      0 < len p <= MaxCompressedBlockSize /\ 0 <= raw <= MaxRawBlockSize /\
      short (metaNamePrefix ++ name) /\ short codec /\ name <> DataIndexBlockName
  end.

Fixpoint data_regions (ops : list append) (regions : list BlockRegion) : list BlockRegion :=
  match ops, regions with
  | AData _ _ :: ops, r :: regions => r :: data_regions ops regions
  | AMeta _ _ _ _ :: ops, _ :: regions => data_regions ops regions
  | _, _ => []
  end.

Lemma data_regions_snoc ops regions a r :
  length ops = length regions ->
  data_regions (ops ++ [a]) (regions ++ [r]) =
  data_regions ops regions ++ match a with AData _ _ => [r] | _ => [] end.
Proof.
  revert regions. induction ops as [|b ops IH]; intros [|r' regions] Hlen; [by destruct a|done|done|].
  injection Hlen as Hlen. cbn. destruct b; by rewrite IH.
Qed.

(** The block of an append is in its region, and indexed if it is a meta
    block. *)
Definition placed (w : Writer) (a : append) (r : BlockRegion) : Prop :=
  match a with
  | AData p raw => holds (w_out w) r p /\ RawSize r = raw
  | AMeta name codec p raw =>
      holds (w_out w) r p /\ RawSize r = raw /\
      Entries (w_metaIndex w) !! name = Some (mkEntry name codec r)
  end.

Record meta_inv (w : Writer) : Prop := {
  mi_n : w_n w = len (w_out w);
  mi_good name e : Entries (w_metaIndex w) !! name = Some e -> Name e = name /\ entry_good (w_n w) e;
  mi_disjoint n1 n2 d e : n1 <> n2 -> Entries (w_metaIndex w) !! n1 = Some d ->
    Entries (w_metaIndex w) !! n2 = Some e -> disjoint_entries d e;
}.

Lemma entry_good_mono l l' e : l <= l' -> entry_good l e -> entry_good l' e.
Proof. intros Hle (? & ? & ? & ? & ? & ?). split_and!; (done || lia). Qed.

Lemma Write_inv p w : meta_inv w -> meta_inv (Write p w).
Proof.
  intros [Hn Hg Hd]. split; cbn.
  - by rewrite len_app, Hn.
  - intros name e He. destruct (Hg name e He) as [? Hgood]. split; [done|].
    apply (entry_good_mono (w_n w)); [|done]. pose proof (len_nonneg p). lia.
  - done.
Qed.

(** A new entry lies at the end of what has been written. *)
Lemma add_meta_inv p w name codec raw :
  meta_inv w -> Entries (w_metaIndex w) !! name = None ->
  0 < len p <= MaxCompressedBlockSize -> 0 <= raw <= MaxRawBlockSize ->
  short (metaNamePrefix ++ name) -> short codec ->
  meta_inv (add_meta (mkEntry name codec (mkRegion (w_n w) (len p) raw)) (Write p w)).
Proof.
  intros Hw Hnone Hp Hraw Hs1 Hs2. pose proof (Write_inv p w Hw) as [Hn Hg Hd]. split; [done| |].
  - intros n e. cbn. intros [[<- <-]|[_ He]]%lookup_insert_Some; [|by apply Hg].
    pose proof (mi_n w Hw). pose proof (len_nonneg (w_out w)).
    split; [done|]. unfold entry_good, region_end. cbn. split_and!; (done || lia).
  - intros n1 n2 d e Hne. cbn.
    assert (forall n x, n <> name -> Entries (w_metaIndex w) !! n = Some x -> region_end x <= w_n w) as Hend.
    { intros n x _ Hx. destruct (mi_good w Hw n x Hx) as [_ (_ & _ & _ & _ & _ & ?)]. done. }
    intros [[<- <-]|[H1 Hx1]]%lookup_insert_Some [[<- <-]|[H2 Hx2]]%lookup_insert_Some; [done|..].
    + right. by apply (Hend n2).
    + left. by apply (Hend n1).
    + by apply (Hd n1 n2).
Qed.

Lemma placed_mono w w' a r :
  (exists x, w_out w' = w_out w ++ x) ->
  (forall n e, Entries (w_metaIndex w) !! n = Some e -> Entries (w_metaIndex w') !! n = Some e) ->
  placed w a r -> placed w' a r.
Proof.
  intros [x Hx] Hm. destruct a as [p raw|name codec p raw]; cbn; rewrite Hx.
  - intros [? ?]. split; [by apply holds_app|done].
  - intros (? & ? & ?). split_and!; [by apply holds_app|done|by apply Hm].
Qed.

(** [ops] were appended to a writer that had the data blocks [base]. *)
Record laid_out (codec : bytes) (base : list BlockRegion) (ops : list append) (regions : list BlockRegion) (w : Writer) : Prop := {
  lo_inv : meta_inv w;
  lo_open : w_closed w = false;
  lo_codec : w_defaultCompression w = codec;
  lo_data : w_dataBlocks w = base ++ data_regions ops regions;
  lo_placed : Forall2 (placed w) ops regions;
  lo_index : Entries (w_metaIndex w) !! DataIndexBlockName = None;
}.

Lemma new_laid_out codec : laid_out codec [] [] [] (NewWriter codec).
Proof.
  split; [|done|done|done|constructor|apply lookup_empty].
  split; [done|intros n e|intros n1 n2 d e _]; cbn; by intros ?%lookup_empty_Some.
Qed.

Lemma append_laid_out codec base ops regions w a w' r :
  laid_out codec base ops regions w -> append_ok a -> exec_append a w = (w', Ok r) ->
  laid_out codec base (ops ++ [a]) (regions ++ [r]) w'.
Proof.
  intros Hl Hok E. pose proof (lo_inv _ _ _ _ _ Hl) as Hinv.
  assert (Forall2 (placed w') ops regions /\ placed w' a r /\ meta_inv w' /\ w_closed w' = false /\
          w_defaultCompression w' = codec /\
          w_dataBlocks w' = w_dataBlocks w ++ match a with AData _ _ => [r] | _ => [] end /\
          Entries (w_metaIndex w') !! DataIndexBlockName = None) as (H1 & H2 & H3 & H4 & H5 & H6 & H7).
  { destruct a as [p raw|name codec' p raw]; cbn in E; unfold AppendDataBlock, AppendMetaBlock in E;
      rewrite (lo_open _ _ _ _ _ Hl) in E.
    - destruct (raw <? 0); [done|]. injection E as <- <-. split_and!.
      + eapply Forall2_impl; [apply Hl|]. intros. eapply placed_mono; [by eexists|done|done].
      + cbn. rewrite (mi_n w Hinv). split; [apply holds_new|done].
      + destruct (Write_inv p w Hinv). by split.
      + apply Hl.
      + apply Hl.
      + done.
      + apply Hl.
    - destruct (Entries (w_metaIndex w) !! name) eqn:En; [done|]. destruct (raw <? 0); [done|]. injection E as <- <-.
      destruct Hok as (Hp & Hraw & Hs1 & Hs2 & Hne). split_and!.
      + eapply Forall2_impl; [apply Hl|]. intros. eapply placed_mono; [by eexists| |done].
        intros n e Hn. cbn. rewrite lookup_insert_ne; [done|]. intros ->. congruence.
      + cbn. rewrite (mi_n w Hinv). split_and!; [apply holds_new|done|]. by rewrite lookup_insert_eq.
      + by apply add_meta_inv.
      + apply Hl.
      + apply Hl.
      + cbn. by rewrite app_nil_r.
      + cbn. rewrite lookup_insert_ne by done. apply Hl. }
  split; [done|done|done| | |done].
  - rewrite H6, (lo_data _ _ _ _ _ Hl), <-(assoc_L (++)). f_equal. symmetry. apply data_regions_snoc. eapply Forall2_length, Hl.
  - apply Forall2_app; [done|]. by repeat constructor.
Qed.

Lemma appends_laid_out codec base ops done regions w w' rs :
  laid_out codec base done regions w -> Forall append_ok ops -> appends ops w = (w', Ok rs) ->
  laid_out codec base (done ++ ops) (regions ++ rs) w'.
Proof.
  revert done regions w rs. induction ops as [|a ops IH]; intros done regions w rs Hl Hok E.
  { injection E as <- <-. by rewrite !app_nil_r. }
  apply Forall_cons in Hok as [Ha Hok]. cbn in E. destruct (exec_append a w) as [w1 [r|]] eqn:E1; [|done].
  destruct (appends ops w1) as [w2 [rs'|]] eqn:E2; [|done]. injection E as -> <-.
  pose proof (IH _ _ _ _ (append_laid_out _ _ _ _ _ _ _ _ Hl Ha E1) Hok E2) as H.
  by rewrite <-!(assoc_L (++)) in H.
Qed.

(** ** Closing, and opening what was closed *)

Lemma RawBlock_holds sr base x reg p f mi :
  Serves sr (base ++ x) -> x <> [] -> holds base reg p -> len (base ++ x) < 2 ^ 63 ->
  len p <= MaxCompressedBlockSize -> 0 <= RawSize reg <= MaxRawBlockSize ->
  RawBlock (mkReader sr (len (base ++ x)) f mi) reg = Ok p.
Proof.
  intros Hs Hx (pre & post & Hb & Ho & Hc) Hlen Hp Hraw. unfold RawBlock. cbn [src fileLength].
  rewrite Hb in *. clear Hb. rewrite <-!(assoc_L (++)) in *.
  pose proof (len_nonneg pre). pose proof (len_nonneg p). pose proof (len_nonneg (post ++ x)).
  rewrite ValidateBlockRegion_ok by (rewrite Ho, Hc, !(len_app pre), !(len_app p) in *; lia).
  rewrite Ho, Hc, (serves_at sr _ pre p (post ++ x) Hs); [done|done|].
  destruct p, post, x; done.
Qed.

Definition within_limits (w : Writer) : Prop :=
  len (w_out w) < 2 ^ 63 /\
  len (w_dataBlocks w) <= maxDataIndexBlocks /\
  len (WriteDataIndex (mkDataIndex (w_defaultCompression w) (w_dataBlocks w))) <= MaxCompressedBlockSize /\
  Z.of_nat (size (Entries (w_metaIndex w))) <= maxMetaIndexEntries /\
  len (WriteMetaIndex (w_metaIndex w)) <= maxMetaIndexRegionSize.

(** What follows the blocks in the file. *)
Definition suffix (mi : MetaIndex) (off : Z) : bytes :=
  WriteMetaIndex mi ++ replicate 8 0 ++
  trailer_offsets off (off + len (WriteMetaIndex mi)) ++ trailer_tail.

Lemma WriteVLong_nonempty n : in_int64 n -> 0 < len (WriteVLong n).
Proof.
  intros Hn. rewrite (WriteVLong_table n Hn). unfold vlong_table, lead.
  repeat case_match; rewrite len_cons; match goal with |- context [len ?l] => pose proof (len_nonneg l) end; lia.
Qed.

Lemma WriteVInt_nonempty n : 0 < len (WriteVInt (int32 n)).
Proof.
  apply WriteVLong_nonempty. pose proof (int32_range n). unfold in_int32, in_int64 in *. lia.
Qed.

Lemma WriteMetaIndex_nonempty mi : 0 < len (WriteMetaIndex mi).
Proof.
  unfold WriteMetaIndex. rewrite len_app. pose proof (WriteVInt_nonempty (Z.of_nat (size (Entries mi)))).
  match goal with |- context [len (concat ?l)] => pose proof (len_nonneg (concat l)) end. lia.
Qed.

Lemma meta_inv_index_ok w :
  meta_inv w -> w_n w < 2 ^ 63 -> Z.of_nat (size (Entries (w_metaIndex w))) <= maxMetaIndexEntries ->
  meta_index_ok (w_metaIndex w).
Proof.
  intros Hw Hn Hsize. split; [|done]. intros name e He.
  destruct (mi_good w Hw name e He) as [? (H1 & H2 & H3 & H4 & H5 & H6)]. split; [done|].
  unfold region_end in H6. change MaxCompressedBlockSize with 268435456 in *.
  change MaxRawBlockSize with 536870912 in *. unfold entry_ok, region_ok, in_int64.
  split_and!; (done || lia).
Qed.

Lemma NewReader_suffix src w :
  let file := w_out w ++ suffix (w_metaIndex w) (w_n w) in
  meta_inv w -> Serves src file -> len file < 2 ^ 63 ->
  Z.of_nat (size (Entries (w_metaIndex w))) <= maxMetaIndexEntries ->
  len (WriteMetaIndex (w_metaIndex w)) <= maxMetaIndexRegionSize ->
  exists f, NewReader src (len file) = Ok (mkReader src (len file) f (w_metaIndex w)) /\ OffsetIndexMeta f = w_n w.
Proof.
  intros file Hw Hs Hlen Hsize Hmi. pose proof (mi_n w Hw) as Hn.
  set (miBuf := WriteMetaIndex (w_metaIndex w)) in *.
  set (a := w_n w) in *. set (b := a + len miBuf) in *.
  assert (0 < len miBuf) as Hpos by apply WriteMetaIndex_nonempty.
  pose proof (len_nonneg (w_out w)) as Hout.
  assert (file = (w_out w ++ miBuf ++ replicate 8 0) ++ trailer_offsets a b ++ trailer_tail) as Ef
    by (unfold file, suffix; by rewrite <-!(assoc_L (++))).
  assert (a < len file) as Ha.
  { rewrite Ef, len_app, len_app, (len_app miBuf). pose proof (len_nonneg (replicate 8 0)).
    pose proof (len_nonneg (trailer_offsets a b ++ trailer_tail)). lia. }
  unfold NewReader.
  assert (ReadFooter src (len file) = Ok (mkFooter APIVersion3 a b)) as ->.
  { rewrite Ef in *. apply ReadFooter_v3; [done|lia| |done]. rewrite !len_app.
    pose proof (len_nonneg (replicate 8 0)). lia. }
  cbn [mbind result_bind]. unfold metaIndexUpperBound. cbn [f_Version OffsetIndexMeta OffsetCryptoParams].
  change (CompatibleWith APIVersion3 APIVersion3) with true. cbv beta iota zeta.
  replace (b - a) with (len miBuf) by lia. replace (len miBuf <=? 0) with false by lia.
  replace (len miBuf >? maxMetaIndexRegionSize) with false by lia.
  assert (src a (len miBuf) = Ok miBuf) as ->.
  { rewrite Hn. apply (serves_at src file (w_out w) miBuf _ Hs eq_refl). destruct miBuf; done. }
  cbn [wrap mbind result_bind].
  assert (ReadMetaIndex miBuf = Ok (w_metaIndex w, [])) as ->.
  { rewrite <-(app_nil_r miBuf). apply reads_WriteMetaIndex. apply meta_inv_index_ok; [done|lia|done]. }
  cbn [mbind result_bind].
  destruct (validate_ok (w_metaIndex w) a) as [-> ->]; [lia|apply (mi_good w Hw)|apply (mi_disjoint w Hw)|].
  eexists. by split.
Qed.

(** The writer once the data index is written and indexed. *)
Definition closing (w : Writer) : Writer :=
  let diBuf := WriteDataIndex (mkDataIndex (w_defaultCompression w) (w_dataBlocks w)) in
  add_meta (mkEntry DataIndexBlockName CodecNone (mkRegion (w_n w) (len diBuf) (len diBuf)))
    (Write diBuf (set_closed w)).

Lemma Close_open w :
  w_closed w = false -> meta_inv w ->
  (Close w).2 = None /\ w_metaIndex (Close w).1 = w_metaIndex (closing w) /\
  w_dataBlocks (Close w).1 = w_dataBlocks w /\ w_defaultCompression (Close w).1 = w_defaultCompression w /\
  w_out (Close w).1 = w_out (closing w) ++ suffix (w_metaIndex (closing w)) (w_n (closing w)).
Proof.
  intros Ho Hw. unfold Close. rewrite Ho, WriteFooter_v3. cbn [fst snd]. split_and!; try done.
  unfold suffix. cbn [w_out Write]. by rewrite <-!(assoc_L (++)).
Qed.

Lemma WriteDataIndex_nonempty di : 0 < len (WriteDataIndex di).
Proof.
  unfold WriteDataIndex, WriteString. rewrite !len_app.
  pose proof (WriteVInt_nonempty (len (DefaultCompression di))). pose proof (len_nonneg (DefaultCompression di)).
  pose proof (len_nonneg (WriteVInt (int32 (len (Blocks di))))).
  pose proof (len_nonneg (concat (WriteBlockRegion <$> Blocks di))). lia.
Qed.

Lemma closing_inv codec base ops regions w :
  laid_out codec base ops regions w ->
  len (WriteDataIndex (mkDataIndex (w_defaultCompression w) (w_dataBlocks w))) <= MaxCompressedBlockSize ->
  meta_inv (closing w) /\ Forall2 (placed (closing w)) ops regions.
Proof.
  intros Hl Hd. pose proof (lo_inv _ _ _ _ _ Hl) as Hw. split.
  - apply (add_meta_inv _ (set_closed w)); [destruct Hw; by split|apply Hl| | |done|done].
    + pose proof (WriteDataIndex_nonempty (mkDataIndex (w_defaultCompression w) (w_dataBlocks w))). lia.
    + pose proof (len_nonneg (WriteDataIndex (mkDataIndex (w_defaultCompression w) (w_dataBlocks w)))).
      change MaxRawBlockSize with (2 * MaxCompressedBlockSize).
      change MaxCompressedBlockSize with 268435456 in *. lia.
  - eapply Forall2_impl; [apply Hl|]. intros a r. apply placed_mono; [by eexists|].
    intros n e Hn. cbn. rewrite lookup_insert_ne; [done|]. intros <-. by rewrite (lo_index _ _ _ _ _ Hl) in Hn.
Qed.

(** ** Properties *)

(** What a reader finds of an appended block. *)
Definition readable (r : Reader) (a : append) (region : BlockRegion) : Prop :=
  match a with
  | AData p raw => RawBlock r region = Ok p /\ RawSize region = raw
  | AMeta name codec p raw =>
      MetaBlockEntry r name = Ok (mkEntry name codec region) /\ RawBlock r region = Ok p /\ RawSize region = raw
  end.

Lemma placed_readable sr w x f a region :
  Serves sr (w_out w ++ x) -> x <> [] -> len (w_out w ++ x) < 2 ^ 63 -> append_ok a -> placed w a region ->
  readable (mkReader sr (len (w_out w ++ x)) f (w_metaIndex w)) a region.
Proof.
  intros Hs Hx Hlen Ha Hp. destruct a as [p raw|name codec p raw]; cbn in Ha, Hp |- *.
  - destruct Hp as [Hh <-]. split; [|done]. apply RawBlock_holds; (done || lia).
  - destruct Hp as (Hh & <- & He). unfold MetaBlockEntry, Lookup. cbn [metaIndex]. rewrite He.
    split_and!; [done| |done]. apply RawBlock_holds; (done || lia).
Qed.

Lemma suffix_nonempty mi off : suffix mi off <> [].
Proof.
  intros E. pose proof (WriteMetaIndex_nonempty mi) as H. unfold suffix in E. apply app_nil in E as [E _].
  rewrite E in H. done.
Qed.

Lemma data_regions_ok w ops regions :
  Forall2 (placed w) ops regions -> Forall append_ok ops -> len (w_out w) < 2 ^ 63 ->
  Forall region_ok (data_regions ops regions).
Proof.
  intros Hp Hok Hlen. induction Hp as [|a r ops regions Hr Hp IH]; [constructor|].
  apply Forall_cons in Hok as [Ha Hok]. destruct a as [p raw|name codec p raw]; cbn; [|by apply IH].
  constructor; [|by apply IH]. cbn in Ha, Hr. destruct Hr as [(pre & post & E & Ho & Hc) Hraw].
  rewrite E, !len_app in Hlen. pose proof (len_nonneg pre). pose proof (len_nonneg p). pose proof (len_nonneg post).
  change MaxRawBlockSize with 536870912 in *. unfold region_ok, in_int64. lia.
Qed.

Lemma data_index_readable w :
  meta_inv w -> Forall region_ok (w_dataBlocks w) -> within_limits (Close w).1 -> short (w_defaultCompression w) ->
  ReadDataIndex (WriteDataIndex (mkDataIndex (w_defaultCompression w) (w_dataBlocks w))) =
    Ok (mkDataIndex (w_defaultCompression w) (w_dataBlocks w), []).
Proof.
  intros Hw Hok Hlim Hc. rewrite <-(app_nil_r (WriteDataIndex _)). apply reads_WriteDataIndex. split_and!; [done|done|].
  destruct Hlim as (_ & Hb & _). unfold Close in Hb. destruct (w_closed w); [done|]. by rewrite WriteFooter_v3 in Hb.
Qed.

(** Closing a writer and opening what it closed. *)
Lemma close_readable codec base ops regions w sr :
  short codec -> Forall append_ok ops -> Forall region_ok base -> laid_out codec base ops regions w ->
  within_limits (Close w).1 -> Serves sr (w_out (Close w).1) ->
  (Close w).2 = None /\
  exists f, let r := mkReader sr (len (w_out (Close w).1)) f (w_metaIndex (closing w)) in
    NewReader sr (len (w_out (Close w).1)) = Ok r /\ OffsetIndexMeta f = w_n (closing w) /\
    Forall2 (readable r) ops regions /\
    exists e di, MetaBlockEntry r DataIndexBlockName = Ok e /\ CompressionAlgo e = CodecNone /\
      BCFile.RawSize (Region e) = len di /\ holds (w_out (closing w)) (Region e) di /\ len di <= MaxCompressedBlockSize /\
      ReadDataIndex di = Ok (mkDataIndex codec (base ++ data_regions ops regions), []).
Proof.
  intros Hcodec Hops Hbase Hl Hlim Hs.
  pose proof (lo_inv _ _ _ _ _ Hl) as Hw. pose proof Hlim as Hlim'.
  destruct (Close_open w (lo_open _ _ _ _ _ Hl) Hw) as (Hc1 & Hc2 & Hc3 & Hc4 & Hc5).
  destruct Hlim as (Hlen & Hblocks & Hdi & Hsize & Hmi). rewrite Hc2, Hc3, Hc4 in *.
  destruct (closing_inv _ _ _ _ _ Hl Hdi) as [Hinv Hplaced]. rewrite Hc5 in *. split; [done|].
  destruct (NewReader_suffix sr (closing w) Hinv Hs Hlen Hsize Hmi) as (f & Hr & Hf).
  exists f. cbv zeta. split; [exact Hr|]. split; [exact Hf|].
  pose proof (suffix_nonempty (w_metaIndex (closing w)) (w_n (closing w))) as Hne. split.
  - apply Forall2_same_length_lookup_2; [by eapply Forall2_length|]. intros i a region Ha Hreg.
    apply placed_readable; [done..|exact (Forall_lookup_1 _ _ _ _ Hops Ha)|].
    exact (Forall2_lookup_lr _ _ _ _ _ _ Hplaced Ha Hreg).
  - unfold MetaBlockEntry, Lookup. cbn [metaIndex closing add_meta w_metaIndex Entries Name].
    rewrite lookup_insert_eq. eexists _, _. split; [reflexivity|]. split; [reflexivity|]. split; [reflexivity|]. cbn [Region]. split_and!.
    + cbn. rewrite (mi_n w Hw). apply holds_new.
    + exact Hdi.
    + rewrite data_index_readable; [by rewrite (lo_codec _ _ _ _ _ Hl), (lo_data _ _ _ _ _ Hl)|done| |done|by rewrite (lo_codec _ _ _ _ _ Hl)].
      rewrite (lo_data _ _ _ _ _ Hl). apply Forall_app. split; [done|].
      apply (data_regions_ok (closing w)); [done|done|]. rewrite len_app in Hlen.
      pose proof (len_nonneg (suffix (w_metaIndex (closing w)) (w_n (closing w)))). lia.
Qed.


(** A data block, a meta block and an empty data block, under codec "gz". *)
Definition demo_ops : list append := [AData [1; 2; 3] 5; AMeta [97] [110] [7; 8] 2; AData [] 0].
Definition demo_writer : Writer := (appends demo_ops (NewWriter [103; 122])).1.
Definition demo_regions : list BlockRegion := [mkRegion 0 3 5; mkRegion 3 2 2; mkRegion 5 0 0].


(** Two meta blocks, the first of them empty. *)
Definition empty_first : list append := [AMeta [98] [110] [] 0; AMeta [97] [110] [7; 8] 2].

(** The writer accepts an empty meta block and closes the file without an
    error, but the reader can refuse the file.  An empty block and the block
    written next share an offset; the reader sorts entries of equal offset by
    name, and when the other block's name sorts first it takes the empty one
    for an overlap. *)
Theorem empty_meta_block_is_unreadable :
  exists w regions, appends empty_first (NewWriter CodecNone) = (w, Ok regions) /\
    (Close w).2 = None /\
    NewReader (bytes_ReadAt (w_out (Close w).1)) (len (w_out (Close w).1)) =
      Err (Fail "bcfile: MetaIndex entries overlap").
Proof. eexists _, _. split; [reflexivity|]. split; vm_compute; reflexivity. Qed.
