(* ===== verification/Index.v ===== *)
(** * Index: the multi-level block index (src/internal/rfile/index)

    Index entries and blocks with their encodings (entry.go, block.go,
    limits.go), random access into a block (entries.go), and the walker that
    descends the tree of blocks (walker.go).  Child blocks are fetched by a
    [LevelReader], an interface and a parameter; it is a function of the
    region, so it answers alike within one walk.  Decoders read a
    [bytes.Reader]. *)

From S2P Require Import Prelude Wire Iter GoStd BCFile.

(** ** Limits (limits.go) *)

Definition maxIndexEntries : Z := Z.shiftl 1 20.
Definition maxIndexDataBytes : Z := 64 * 1024 * 1024.

Definition validateDecodedCount (count maxCount minBytesPerEntry reservedBytes : Z) : reader unit :=
  if count <? 0 then rfail (Fail "negative count")
  else if count >? maxCount then rfail (Fail "count exceeds limit")
  else
    remaining ← Len;
    let available := remaining - reservedBytes in
    if (available <? 0) || (count * minBytesPerEntry >? available)
    then rfail (Fail "count exceeds remaining encoded bytes") else mret tt.

Definition validateDecodedLength (length maxLength reservedBytes : Z) : reader unit :=
  if length <? 0 then rfail (Fail "negative length")
  else if length >? maxLength then rfail (Fail "length exceeds limit")
  else
    remaining ← Len;
    let available := remaining - reservedBytes in
    if (available <? 0) || (length >? available)
    then rfail (Fail "length exceeds remaining encoded bytes") else mret tt.

(** ** Entries (entry.go) *)

Record IndexEntry := mkIndexEntry {
  ie_Key : Key;
  NumEntries : Z;
  ie_Offset : Z;
  ie_CompressedSize : Z;
  ie_RawSize : Z;
}.

#[export] Instance IndexEntry_eq_dec : EqDecision IndexEntry.
Proof. solve_decision. Defined.

Definition ReadIndexEntry : reader IndexEntry :=
  key ← rwrap "IndexEntry key" ReadKey;
  entries ← rwrap "IndexEntry entries" ReadInt32;
  '(off, _) ← rwrap "IndexEntry offset" BCFile.ReadVLong;
  '(csz, _) ← rwrap "IndexEntry compressedSize" BCFile.ReadVLong;
  '(rsz, _) ← rwrap "IndexEntry rawSize" BCFile.ReadVLong;
  mret (mkIndexEntry key entries off csz rsz).

Definition WriteIndexEntry (e : IndexEntry) : bytes :=
  WriteKey (ie_Key e) ++ WriteInt32 (NumEntries e) ++ BCFile.WriteVLong (ie_Offset e) ++
  BCFile.WriteVLong (ie_CompressedSize e) ++ BCFile.WriteVLong (ie_RawSize e).

(** ** Blocks (block.go) *)

Record IndexBlock := mkIndexBlock {
  Level : Z;
  ib_Offset : Z;
  HasNext : bool;
  Offsets : list Z;
  Data : bytes;
}.

Definition V3 : Z := 3.
Definition V4 : Z := 4.
Definition V6 : Z := 6.
Definition V7 : Z := 7.
Definition V8 : Z := 8.
Definition hasMultiLevelIndex (ver : Z) : bool := (ver =? V6) || (ver =? V7) || (ver =? V8).
Definition ErrUnsupportedVersion : err := Fail "rfile/index: unsupported RFile version".

(** The loop's body: each offset is in range and above the one before. *)
Fixpoint offsets_increase (previous : option Z) (offsets : list Z) (indexSize : Z) : option err :=
  match offsets with
  | [] => None
  | offset :: offsets =>
      if (offset <? 0) || (offset >=? indexSize) then Some (Fail "IndexBlock: offset is outside")
      else if match previous with Some p => offset <=? p | None => false end
      then Some (Fail "IndexBlock: offset is not greater")
      else offsets_increase (Some offset) offsets indexSize
  end.

Definition validateIndexOffsets (offsets : list Z) (indexSize : Z) : option err :=
  match offsets with
  | [] => if negb (indexSize =? 0) then Some (Fail "IndexBlock: data bytes have no offsets") else None
  | o :: _ => if negb (o =? 0) then Some (Fail "IndexBlock: first offset is not zero")
              else offsets_increase None offsets indexSize
  end.

Definition check (e : option err) : reader unit :=
  match e with Some e => rfail e | None => mret tt end.

Fixpoint read_offsets (n : nat) : reader (list Z) :=
  match n with
  | O => mret []
  | S n => o ← rwrap "IndexBlock offsets" ReadInt32; os ← read_offsets n; mret (o :: os)
  end.

Definition readMultiLevelBlock : reader IndexBlock :=
  level ← rwrap "IndexBlock level" ReadInt32;
  offset ← rwrap "IndexBlock offset" ReadInt32;
  hasNext ← rwrap "IndexBlock hasNext" ReadBool;
  numOffsets ← rwrap "IndexBlock numOffsets" ReadInt32;
  if numOffsets <? 0 then rfail (Fail "IndexBlock: negative numOffsets")
  else
    _ ← validateDecodedCount numOffsets maxIndexEntries 4 4;
    offsets ← read_offsets (Z.to_nat numOffsets);
    indexSize ← rwrap "IndexBlock indexSize" ReadInt32;
    if indexSize <? 0 then rfail (Fail "IndexBlock: negative indexSize")
    else
      _ ← check (validateIndexOffsets offsets indexSize);
      _ ← validateDecodedLength indexSize maxIndexDataBytes 0;
      data ← rwrap "IndexBlock data" (ReadFull indexSize);
      mret (mkIndexBlock level offset hasNext offsets data).

(** The loop of [readFlatBlock]: each entry is encoded again at a known
    offset of the data. *)
Fixpoint read_flat (n : nat) (offsets : list Z) (data : bytes) : reader (list Z * bytes) :=
  match n with
  | O => mret (offsets, data)
  | S n =>
      entry ← rwrap "flat IndexEntry" ReadIndexEntry;
      read_flat n (offsets ++ [int32 (len data)]) (data ++ WriteIndexEntry entry)
  end.

Definition readFlatBlock : reader IndexBlock :=
  size ← rwrap "IndexBlock flat size" ReadInt32;
  if size <? 0 then rfail (Fail "IndexBlock: negative flat size")
  else
    _ ← validateDecodedCount size maxIndexEntries 1 0;
    '(offsets, data) ← read_flat (Z.to_nat size) [] [];
    mret (mkIndexBlock 0 0 false offsets data).

Definition ReadIndexBlock (version : Z) : reader IndexBlock :=
  if hasMultiLevelIndex version then readMultiLevelBlock
  else if (version =? V3) || (version =? V4) then readFlatBlock
  else rfail (Wrap "version" ErrUnsupportedVersion).

Definition WriteIndexBlock (b : IndexBlock) : bytes :=
  WriteInt32 (Level b) ++ WriteInt32 (ib_Offset b) ++ WriteBool (HasNext b) ++
  WriteInt32 (int32 (len (Offsets b))) ++ concat (WriteInt32 <$> Offsets b) ++
  WriteInt32 (int32 (len (Data b))) ++ Data b.

(** ** Random access (entries.go) *)

Definition block_Len (b : IndexBlock) : nat := length (Offsets b).

Definition segment (b : IndexBlock) (i : nat) : result bytes :=
  match Offsets b !! i with
  | None => Err (Fail "Entries: index out of range")
  | Some start =>
      let end_ := default (len (Data b)) (Offsets b !! S i) in
      if (start <? 0) || (start >? end_) || (end_ >? len (Data b))
      then Err (Fail "Entries: segment out of range")
      else Ok (take (Z.to_nat (end_ - start)) (drop (Z.to_nat start) (Data b)))
  end.

Definition At (b : IndexBlock) (i : nat) : result IndexEntry :=
  s ← segment b i;
  '(entry, rest) ← ReadIndexEntry s;
  if negb (len rest =? 0) then Err (Fail "Entries.At: entry left bytes in its declared segment")
  else Ok entry.

Definition KeyAt (b : IndexBlock) (i : nat) : result Key :=
  s ← segment b i;
  '(key, _) ← ReadKey s;
  Ok key.

(** ** The walker (walker.go) *)

Definition region_of (e : IndexEntry) : BlockRegion := mkRegion (ie_Offset e) (ie_CompressedSize e) (ie_RawSize e).
Definition blockRegionKey (r : BlockRegion) : Z * Z := (Offset r, CompressedSize r).

(** [ReadIndexBlock(region)]: the block may be nil. *)
Definition LevelReader : Type := BlockRegion -> result (option IndexBlock).

Definition ErrPastEnd : err := Fail "rfile/index: target key is past the last index entry".
Definition maxTraversalDepth : Z := 64.

(** The walker's root and reader may both be nil. *)
Record Walker := mkWalker { root : option IndexBlock; lr : option LevelReader }.

Definition validateRootLevel (root : option IndexBlock) : option err :=
  match root with
  | None => Some (Fail "rfile/index: nil root index block")
  | Some root =>
      if Level root <? 0 then Some (Fail "rfile/index: negative root level")
      else if Level root >? maxTraversalDepth then Some (Fail "rfile/index: root level exceeds maximum traversal depth")
      else None
  end.

(** Entries that decode have a key.  [is] are the entries still to check. *)
Fixpoint validate_loop (b : IndexBlock) (is_ : list nat) (first previous : option Key)
  : result (option Key * option Key) :=
  match is_ with
  | [] => Ok (first, previous)
  | i :: is_ =>
      entry ← At b i;
      if match previous with Some p => is_lt (Compare (ie_Key entry) p) | None => false end
      then Err (Fail "rfile/index: entry key sorts before entry key")
      else if (Level b =? 0) && (NumEntries entry <=? 0)
      then Err (Fail "rfile/index: leaf entry has non-positive cell count")
      else validate_loop b is_ (match first with Some _ => first | None => Some (ie_Key entry) end) (Some (ie_Key entry))
  end.

(** The first and the last key, nil for no entries. *)
Definition validateBlockEntries (b : IndexBlock) : result (option Key * option Key) :=
  if Level b <? 0 then Err (Fail "rfile/index: negative block level")
  else validate_loop b (seq 0 (block_Len b)) None None.

Definition ValidateBlock (b : option IndexBlock) : option err :=
  match validateRootLevel b with
  | Some e => Some e
  | None =>
      match b with
      | None => Some (Fail "rfile/index: nil index block")
      | Some b => match validateBlockEntries b with Err e => Some e | Ok _ => None end
      end
  end.

Definition binarySearchKey (b : IndexBlock) (target : Key) : result nat :=
  Search_err (block_Len b) (fun i => k ← KeyAt b i; Ok (negb (is_lt (Compare k target)))).

Abbreviation visited_set := (gset (Z * Z)).

Definition readChildBlock (lr : LevelReader) (parentLevel : Z) (region : BlockRegion)
    (lowerBound : option Key) (upperBound : Key) (visited : visited_set)
  : result (IndexBlock * visited_set) :=
  let key := blockRegionKey region in
  if bool_decide (key ∈ visited) then Err (Fail "repeated child block region")
  else
    let visited := {[key]} ∪ visited in
    child ← lr region;
    match child with
    | None => Err (Fail "LevelReader returned nil child block")
    | Some child =>
        if negb (Level child =? parentLevel - 1) then Err (Fail "child block level, want another")
        else
          '(first, last) ← validateBlockEntries child;
          match first, last with
          | Some first, Some last =>
              if match lowerBound with Some l => is_lt (Compare first l) | None => false end
              then Err (Fail "child first key sorts before parent lower bound")
              else if negb (Key_Equal last upperBound) then
                Err (Fail "child final key does not match parent upper bound")
              else Ok (child, visited)
          | _, _ => Err (Fail "child index block has no entries")
          end
    end.

(** [at_root]: the block is the root, by identity.  Every turn descends one
    level. *)
Fixpoint Seek_loop (fuel : nat) (lr : option LevelReader) (target : Key) (cur : IndexBlock) (at_root : bool)
    (visited : visited_set) : result IndexEntry :=
  match fuel with
  | O => Err (Fail "out of fuel")
  | S fuel =>
      _ ← validateBlockEntries cur;
      idx ← binarySearchKey cur target;
      if (idx =? block_Len cur)%nat then
        if at_root then Err ErrPastEnd
        else Err (Fail "rfile/index: walker invariant violation: target past end at non-root level")
      else
        entry ← At cur idx;
        if Level cur =? 0 then Ok entry
        else match lr with
        | None => Err (Fail "rfile/index: multi-level index requires LevelReader")
        | Some lr' =>
            lowerBound ← (if (0 <? idx)%nat then k ← KeyAt cur (idx - 1); Ok (Some k) else Ok None);
            '(child, visited) ← wrap "rfile/index: descend"
              (readChildBlock lr' (Level cur) (region_of entry) lowerBound (ie_Key entry) visited);
            Seek_loop fuel lr target child false visited
        end
  end.

(** One turn per level, and the root's level is at most 64. *)
Definition Seek (w : Walker) (target : Key) : result IndexEntry :=
  match validateRootLevel (root w), root w with
  | Some e, _ => Err e
  | None, None => Err (Fail "rfile/index: nil root index block")
  | None, Some cur => Seek_loop (S (Z.to_nat (Level cur))) (lr w) target cur true ∅
  end.

(** *** IterateLeaves: the callback threads a state *)

Section iterate.
Context {A : Type} (reader_ : option LevelReader) (fn : A -> IndexEntry -> result A).

Record iterationState := mkState { visited : visited_set; lastLeaf : option Key; acc : A }.

(** The loop over the entries of one block; [rec] walks a child. *)
Fixpoint iterate_entries (rec : IndexBlock -> iterationState -> result iterationState) (b : IndexBlock)
    (is_ : list nat) (lowerBound : option Key) (st : iterationState) : result iterationState :=
  match is_ with
  | [] => Ok st
  | i :: is_ =>
      entry ← At b i;
      if Level b =? 0 then
        let key := blockRegionKey (region_of entry) in
        if bool_decide (key ∈ visited st) then Err (Fail "rfile/index: repeated leaf block region")
        else if match lastLeaf st with Some l => is_lt (Compare (ie_Key entry) l) | None => false end
        then Err (Fail "rfile/index: leaf key sorts before previous leaf key")
        else
          a ← fn (acc st) entry;
          iterate_entries rec b is_ (Some (ie_Key entry))
            (mkState ({[key]} ∪ visited st) (Some (ie_Key entry)) a)
      else match reader_ with
      | None => Err (Fail "rfile/index: multi-level iterate requires LevelReader")
      | Some lr =>
          '(child, v) ← wrap "rfile/index: descend"
            (readChildBlock lr (Level b) (region_of entry) lowerBound (ie_Key entry) (visited st));
          st ← rec child (mkState v (lastLeaf st) (acc st));
          iterate_entries rec b is_ (Some (ie_Key entry)) st
      end
  end.

Fixpoint iterateLeaves (fuel : nat) (b : IndexBlock) (st : iterationState) : result iterationState :=
  match fuel with
  | O => Err (Fail "out of fuel")
  | S fuel =>
      _ ← validateBlockEntries b;
      iterate_entries (iterateLeaves fuel) b (seq 0 (block_Len b)) None st
  end.
End iterate.

Arguments iterationState : clear implicits.

Definition IterateLeaves {A} (w : Walker) (fn : A -> IndexEntry -> result A) (a : A) : result A :=
  match validateRootLevel (root w), root w with
  | Some e, _ => Err e
  | None, None => Err (Fail "rfile/index: nil root index block")
  | None, Some b =>
      st ← iterateLeaves (lr w) fn (S (Z.to_nat (Level b))) b (mkState ∅ None a);
      Ok (acc st)
  end.

(** ** Blocks that pass validation *)

Definition keys (es : list IndexEntry) : list Key := ie_Key <$> es.

Definition decoded (b : IndexBlock) (es : list IndexEntry) : Prop :=
  Forall2 (fun i e => At b i = Ok e) (seq 0 (block_Len b)) es.

(** Every entry decodes and the keys do not decrease. *)
Definition valid (b : IndexBlock) (es : list IndexEntry) : Prop :=
  decoded b es /\ StronglySorted key_le (keys es).

Lemma not_lt_le a b : is_lt (Compare a b) = false <-> key_le b a.
Proof. unfold key_le. rewrite (cmp_antisym Compare a b). by destruct (Compare a b). Qed.

Lemma is_lt_true a b : is_lt (Compare a b) = true <-> Compare a b = Lt.
Proof. by destruct (Compare a b). Qed.

Definition first_key (d : option Key) (es : list IndexEntry) : option Key :=
  match d with Some _ => d | None => ie_Key <$> head es end.
Definition last_key (d : option Key) (es : list IndexEntry) : option Key :=
  match last es with Some e => Some (ie_Key e) | None => d end.

Lemma validate_loop_ok b is_ f p r :
  validate_loop b is_ f p = Ok r ->
  exists es, Forall2 (fun i e => At b i = Ok e) is_ es /\ StronglySorted key_le (keys es) /\
    match p with Some p => Forall (key_le p) (keys es) | None => True end /\
    r = (first_key f es, last_key p es).
Proof.
  revert f p r. induction is_ as [|i is_ IH]; intros f p r; cbn [validate_loop].
  { intros [= <-]. exists []. split_and!; [constructor|constructor|by destruct p|by destruct f]. }
  intros (e & He & H)%bind_Ok. destruct (match p with Some _ => _ | None => _ end) eqn:Ep; [done|].
  destruct (_ && _); [done|]. apply IH in H as (es & Hes & Hs & Hle & ->). exists (e :: es).
  split; [by constructor|]. split; [by constructor|]. split.
  - destruct p as [p|]; [|done]. apply not_lt_le in Ep. constructor; [done|].
    eapply Forall_impl; [exact Hle|]. intros k Hk. by trans (ie_Key e).
  - unfold first_key, last_key. rewrite last_cons. f_equal; [by destruct f|]. by destruct (last es).
Qed.

Lemma validateBlockEntries_ok b r :
  validateBlockEntries b = Ok r -> exists es, valid b es /\ r = (head (keys es), last (keys es)).
Proof.
  unfold validateBlockEntries. destruct (Level b <? 0); [done|].
  intros (es & Hd & Hs & _ & ->)%validate_loop_ok. exists es. split; [done|].
  unfold first_key, last_key, keys. rewrite fmap_last. by destruct es, (last _).
Qed.

Section block.
Context (b : IndexBlock) (es : list IndexEntry) (Hd : decoded b es).

Lemma decoded_length : length es = block_Len b.
Proof. pose proof (Forall2_length _ _ _ Hd) as H. rewrite length_seq in H. done. Qed.

Lemma decoded_At i e : es !! i = Some e -> At b i = Ok e.
Proof.
  intros Hi. pose proof (lookup_lt_Some _ _ _ Hi) as Hlt. rewrite decoded_length in Hlt.
  apply (Forall2_lookup_lr _ _ _ i i e Hd); [|done]. by rewrite lookup_seq_lt.
Qed.

Lemma decoded_KeyAt i e : es !! i = Some e -> KeyAt b i = Ok (ie_Key e).
Proof.
  intros Hi%decoded_At. unfold At, KeyAt in *. apply bind_Ok in Hi as (s & -> & H). cbn [mbind result_bind].
  apply bind_Ok in H as ([e' rest] & H & H'). destruct (negb _); [done|]. injection H' as ->.
  unfold ReadIndexEntry, mbind, reader_bind in H. unfold rwrap at 1 in H. unfold mbind, result_bind.
  destruct (ReadKey s) as [[k s']|] eqn:E; [|done]. cbn [wrap] in H. f_equal.
  repeat match type of H with
  | match ?x with _ => _ end = _ => destruct x as [[? ?]|]; cbv beta iota in H; [|done]
  | (let '(_, _) := ?x in _) _ = _ => destruct x; cbv beta iota in H
  | match ?x with _ => _ end _ = _ => destruct x; cbv beta iota in H
  end. by injection H as <- _.
Qed.

Lemma decoded_unique es' : decoded b es' -> es' = es.
Proof.
  intros Hd'. apply list_eq. intros i. destruct (es !! i) as [e|] eqn:E.
  - pose proof (decoded_At i e E) as Ha. pose proof (lookup_lt_Some _ _ _ E) as Hlt.
    destruct (lookup_lt_is_Some_2 es' i) as [e' He'].
    { pose proof (Forall2_length _ _ _ Hd) as H1. pose proof (Forall2_length _ _ _ Hd') as H2. lia. }
    rewrite He'. assert (At b i = Ok e') as Ha'.
    { apply (Forall2_lookup_lr _ _ _ i i e' Hd'); [|done]. rewrite lookup_seq_lt; [done|].
      by rewrite decoded_length in Hlt. }
    congruence.
  - apply lookup_ge_None in E. apply lookup_ge_None.
    pose proof (Forall2_length _ _ _ Hd) as H1. pose proof (Forall2_length _ _ _ Hd') as H2. lia.
Qed.

Definition reaches (target : Key) (e : IndexEntry) : bool := negb (is_lt (Compare (ie_Key e) target)).

(** The search splits the block's entries at the first key not below the
    target. *)
Lemma binarySearchKey_ok target :
  StronglySorted key_le (keys es) ->
  exists idx, binarySearchKey b target = Ok idx /\ (idx <= length es)%nat /\
    (forall i e, es !! i = Some e -> (i < idx)%nat -> reaches target e = false) /\
    (forall e, es !! idx = Some e -> reaches target e = true).
Proof.
  intros Hs. set (g := fun i => match es !! i with Some e => reaches target e | None => true end).
  exists (Search (block_Len b) g). split.
  { unfold binarySearchKey. apply Search_err_ok. intros a Ha. rewrite <-decoded_length in Ha.
    destruct (lookup_lt_is_Some_2 es a Ha) as [e He]. rewrite (decoded_KeyAt a e He). cbn. unfold g. by rewrite He. }
  rewrite <-decoded_length. destruct (Search_ok g (length es)) as (Hle & Hb & Ha).
  set (k := Search _ _) in *. split; [done|]. split.
  - intros i e He Hi. destruct Hb as [Hb|Hb]; [lia|]. unfold g in Hb.
    destruct (es !! pred k) as [d|] eqn:Ed; [|done]. unfold reaches in *. apply negb_false_iff in Hb.
    apply is_lt_true in Hb. apply negb_false_iff, is_lt_true.
    assert (key_le (ie_Key e) (ie_Key d)) as Hle'.
    { destruct (decide (i = pred k)) as [->|]; [by replace e with d by congruence|].
      apply (StronglySorted_lookup key_le (keys es) i (pred k)); [done|..|lia];
        unfold keys; rewrite list_lookup_fmap; [by rewrite He|by rewrite Ed]. }
    unfold key_le in Hle'. destruct (Compare (ie_Key e) (ie_Key d)) eqn:Ec; [|exact (cmp_trans Compare _ _ _ Ec Hb)|done].
    apply (cmp_eq Compare) in Ec as ->. done.
  - intros e He. destruct Ha as [Ha|Ha].
    + apply lookup_lt_Some in He. lia.
    + unfold g in Ha. by rewrite He in Ha.
Qed.
End block.

(** ** The tree of blocks *)

Section tree.
Context (reader_ : option LevelReader).

(** The child an entry's region leads to, [lower] being the key of the entry
    before it. *)
Definition child_ok (level : Z) (lower : option Key) (e : IndexEntry) (child : IndexBlock) : Prop :=
  exists lr f, reader_ = Some lr /\ lr (region_of e) = Ok (Some child) /\ Level child = level - 1 /\
    validateBlockEntries child = Ok (Some f, Some (ie_Key e)) /\
    match lower with Some l => key_le l f | None => True end.

Lemma readChildBlock_ok lr level e lower v child v' :
  reader_ = Some lr ->
  readChildBlock lr level (region_of e) lower (ie_Key e) v = Ok (child, v') <->
  (blockRegionKey (region_of e) ∉ v) /\ v' = ({[blockRegionKey (region_of e)]} ∪ v) /\ child_ok level lower e child.
Proof.
  intros Hlr. unfold readChildBlock. split.
  - case_bool_decide as Hv; [done|]. intros (ch & Hch & H)%bind_Ok. destruct ch as [c|]; [|done].
    destruct (Z.eqb_spec (Level c) (level - 1)) as [Hlvl|]; [cbn [negb] in H|done].
    apply bind_Ok in H as ([f l] & Hval & H). destruct f as [f|], l as [l|]; [|done..].
    destruct (match lower with Some _ => _ | None => _ end) eqn:Elow; [done|].
    destruct (Key_Equal l (ie_Key e)) eqn:Ekey; [|done]. injection H as <- <-.
    apply Key_Equal_spec in Ekey as ->. split_and!; [done|done|]. exists lr, f. split_and!; [done..|].
    destruct lower as [l|]; [|done]. by apply not_lt_le.
  - intros (Hv & -> & lr' & f & Hlr' & Hch & Hlvl & Hval & Hlow). assert (lr' = lr) as -> by congruence.
    rewrite bool_decide_eq_false_2 by done. rewrite Hch. cbn [mbind result_bind].
    rewrite Hlvl, Z.eqb_refl. cbn [negb]. rewrite Hval. cbn [mbind result_bind].
    assert (match lower with Some l => is_lt (Compare f l) | None => false end = false) as ->.
    { destruct lower as [l|]; [|done]. by apply not_lt_le. }
    by rewrite (proj2 (Key_Equal_spec _ _) eq_refl).
Qed.

(** The children of a block's entries, each a subtree with its leaves; no
    region repeats one of [above]. *)
Fixpoint children (T : visited_set -> IndexBlock -> list IndexEntry -> Prop) (level : Z) (above : visited_set)
    (lower : option Key) (es : list IndexEntry) (Ls : list (list IndexEntry)) : Prop :=
  match es, Ls with
  | [], [] => True
  | e :: es, L :: Ls =>
      (exists child, child_ok level lower e child /\ (blockRegionKey (region_of e) ∉ above) /\
        T ({[blockRegionKey (region_of e)]} ∪ above) child L) /\
      children T level above (Some (ie_Key e)) es Ls
  | _, _ => False
  end.

(** A tree of [n] levels over the leaf entries [L]. *)
Fixpoint tree (n : nat) (above : visited_set) (b : IndexBlock) (L : list IndexEntry) : Prop :=
  exists es, validateBlockEntries b = Ok (head (keys es), last (keys es)) /\ valid b es /\
    match n with
    | O => Level b = 0 /\ L = es
    | S n => Level b = Z.of_nat (S n) /\ exists Ls, L = concat Ls /\ children (tree n) (Level b) above None es Ls
    end.

Lemma children_lookup T level above lower es Ls i e :
  children T level above lower es Ls -> es !! i = Some e ->
  exists L child lower', Ls !! i = Some L /\ child_ok level lower' e child /\
    (blockRegionKey (region_of e) ∉ above) /\ T ({[blockRegionKey (region_of e)]} ∪ above) child L /\
    lower' = match i with O => lower | S j => ie_Key <$> es !! j end.
Proof.
  revert lower Ls i. induction es as [|d es IH]; intros lower [|L Ls] i; cbn [children]; try done.
  intros [(child & H1 & H2 & H3) Hrest] Hi. destruct i as [|i].
  - injection Hi as <-. exists L, child, lower. by split_and!.
  - destruct (IH _ _ i Hrest Hi) as (L' & child' & lower' & H1' & H2' & H3' & H4' & H5').
    exists L', child', lower'. split_and!; [done..|]. subst. by destruct i.
Qed.

Lemma children_length T level above lower es Ls : children T level above lower es Ls -> length es = length Ls.
Proof.
  revert lower Ls. induction es as [|d es IH]; intros lower [|L Ls]; cbn; try done. intros [_ H]. f_equal. by eapply IH.
Qed.

Lemma sorted_le_last es k e : StronglySorted key_le (keys es) -> last (keys es) = Some k -> e ∈ es -> key_le (ie_Key e) k.
Proof.
  intros Hs Hl He. apply list_elem_of_lookup in He as [i Hi].
  assert (keys es !! i = Some (ie_Key e)) as Hk by (unfold keys; by rewrite list_lookup_fmap, Hi).
  rewrite last_lookup in Hl. pose proof (lookup_lt_Some _ _ _ Hk) as Hlt.
  destruct (decide (i = pred (length (keys es)))) as [->|]; [by replace k with (ie_Key e) by congruence|].
  apply (StronglySorted_lookup key_le (keys es) i (pred (length (keys es)))); [done..|lia].
Qed.

(** No leaf below a block is above the block's last key. *)
Lemma tree_bounded n above b L f k :
  tree n above b L -> validateBlockEntries b = Ok (f, Some k) -> Forall (fun e => key_le (ie_Key e) k) L.
Proof.
  revert above b L f k. induction n as [|n IH]; intros above b L f k (es & Hval & [Hd Hs] & H) Hk;
    rewrite Hval in Hk; injection Hk as _ Hk.
  - destruct H as [_ ->]. apply Forall_forall. intros e. by apply sorted_le_last.
  - destruct H as (_ & Ls & -> & Hch). apply Forall_concat, Forall_forall. intros L HL.
    apply list_elem_of_lookup in HL as [i Hi].
    destruct (lookup_lt_is_Some_2 es i) as [e He].
    { rewrite (children_length _ _ _ _ _ _ Hch). by eapply lookup_lt_Some. }
    destruct (children_lookup _ _ _ _ _ _ i e Hch He) as (L' & child & low & HL' & Hok & _ & Ht & _).
    assert (L' = L) as -> by congruence. destruct Hok as (lr & f' & _ & _ & _ & Hv & _).
    eapply Forall_impl; [exact (IH _ _ _ _ _ Ht Hv)|]. intros d Hle. cbn in Hle.
    trans (ie_Key e); [done|]. eapply sorted_le_last; [done..|by eapply list_elem_of_lookup_2].
Qed.

(** What a walk collects. *)
Definition collect (l : list IndexEntry) (e : IndexEntry) : result (list IndexEntry) := Ok (l ++ [e]).

Lemma iterate_leaf_entries rec b is_ lower st st' :
  Level b = 0 -> iterate_entries reader_ collect rec b is_ lower st = Ok st' ->
  exists es, Forall2 (fun i e => At b i = Ok e) is_ es /\ acc st' = acc st ++ es /\ visited st ⊆ visited st'.
Proof.
  intros Hlvl. revert lower st. induction is_ as [|i is_ IH]; intros lower st; cbn [iterate_entries].
  { intros [= <-]. exists []. rewrite app_nil_r. split_and!; [constructor|done|done]. }
  intros (e & He & H)%bind_Ok. rewrite Hlvl in H. cbn [Z.eqb] in H. case_bool_decide; [done|].
  destruct (match lastLeaf st with Some _ => _ | None => _ end); [done|].
  apply bind_Ok in H as (a & [= <-] & H). apply IH in H as (es & Hes & Hacc & Hv). exists (e :: es).
  split; [by constructor|]. cbn [acc visited] in *. split; [by rewrite Hacc, <-(assoc_L (++))|]. set_solver.
Qed.

Lemma iterate_node_entries n above rec b is_ lower st st' :
  Level b = Z.of_nat (S n) -> above ⊆ visited st ->
  (forall child st st', Level child = Z.of_nat n -> rec child st = Ok st' -> forall above, above ⊆ visited st ->
     exists L, tree n above child L /\ acc st' = acc st ++ L /\ visited st ⊆ visited st') ->
  iterate_entries reader_ collect rec b is_ lower st = Ok st' ->
  exists es Ls, Forall2 (fun i e => At b i = Ok e) is_ es /\ children (tree n) (Level b) above lower es Ls /\
    acc st' = acc st ++ concat Ls /\ visited st ⊆ visited st'.
Proof.
  intros Hlvl Hab Hrec. revert lower st Hab. induction is_ as [|i is_ IH]; intros lower st Hab; cbn [iterate_entries].
  { intros [= <-]. exists [], []. cbn. rewrite app_nil_r. split_and!; [constructor|done..]. }
  intros (e & He & H)%bind_Ok. replace (Level b =? 0) with false in H by lia.
  destruct reader_ as [lr|] eqn:Hlr; [|done]. apply bind_Ok in H as ([child v] & Hchild & H).
  destruct (readChildBlock lr _ _ _ _ _) as [[c v']|] eqn:Er; [|done]. cbn in Hchild. injection Hchild as <- <-.
  rewrite <-Hlr in *. apply (readChildBlock_ok lr _ _ _ _ _ _ Hlr) in Er as (Hnew & -> & Hok).
  apply bind_Ok in H as (st1 & Hst1 & H).
  assert (Level c = Z.of_nat n) as Hc by (destruct Hok as (? & ? & _ & _ & -> & _); lia).
  destruct (Hrec c _ _ Hc Hst1 ({[blockRegionKey (region_of e)]} ∪ above)) as (L & Ht & Ha & Hv); [cbn; set_solver|].
  cbn [acc visited] in *. destruct (IH (Some (ie_Key e)) st1) as (es & Ls & H1 & H2 & H3 & H4); [set_solver|done|].
  exists (e :: es), (L :: Ls). split; [by constructor|]. split.
  - split; [|done]. exists c. split_and!; [done|set_solver|done].
  - split; [|set_solver]. cbn [concat]. by rewrite H3, Ha, <-(assoc_L (++)).
Qed.

Lemma iterateLeaves_S {A} (fn : A -> IndexEntry -> result A) n b st :
  iterateLeaves reader_ fn (S n) b st =
  (_ ← validateBlockEntries b; iterate_entries reader_ fn (iterateLeaves reader_ fn n) b (seq 0 (block_Len b)) None st).
Proof. done. Qed.

Lemma iterate_tree n b st st' above :
  Level b = Z.of_nat n -> iterateLeaves reader_ collect (S n) b st = Ok st' -> above ⊆ visited st ->
  exists L, tree n above b L /\ acc st' = acc st ++ L /\ visited st ⊆ visited st'.
Proof.
  revert b st st' above. induction n as [|n IH]; intros b st st' above Hlvl H Hab;
    rewrite iterateLeaves_S in H; apply bind_Ok in H as (r & Hval & H);
    pose proof (validateBlockEntries_ok b r Hval) as (es & Hv & ->).
  - destruct (iterate_leaf_entries _ b _ _ st st' Hlvl H) as (es' & Hd & Ha & Hvis).
    assert (es' = es) as -> by (apply (decoded_unique b); [apply Hv|done]).
    exists es. split; [|done]. exists es. by split_and!.
  - destruct (iterate_node_entries n above (iterateLeaves reader_ collect (S n)) b
      (seq 0 (block_Len b)) None st st' Hlvl Hab)
      as (es' & Ls & Hd & Hch & Ha & Hvis); [|exact H|].
    { intros child s s' Hc Hs ab Hsub. by apply (IH child s s' ab). }
    assert (es' = es) as -> by (apply (decoded_unique b); [apply Hv|done]).
    exists (concat Ls). split; [|done]. exists es. split_and!; [done|done|done|]. by exists Ls.
Qed.

(** The first leaf not below the target. *)
Definition first_reaching (target : Key) (L : list IndexEntry) : option IndexEntry := List.find (reaches target) L.

Lemma find_split target (es : list IndexEntry) idx e :
  (forall i d, es !! i = Some d -> (i < idx)%nat -> reaches target d = false) ->
  es !! idx = Some e -> reaches target e = true -> first_reaching target es = Some e.
Proof.
  unfold first_reaching. revert idx. induction es as [|d es IH]; intros idx Hlow He Hr; [done|]. cbn [List.find].
  destruct idx as [|idx]; [injection He as ->; by rewrite Hr|].
  rewrite (Hlow 0%nat d eq_refl) by lia. apply (IH idx); [|done|done]. intros i d' Hi Hlt. apply (Hlow (S i)); [done|lia].
Qed.

Lemma find_none_all target (es : list IndexEntry) :
  (forall e, e ∈ es -> reaches target e = false) -> first_reaching target es = None.
Proof.
  unfold first_reaching. induction es as [|d es IH]; intros H; [done|]. cbn [List.find].
  rewrite (H d) by (by left). apply IH. intros e He. apply H. by right.
Qed.

Lemma find_app target l1 l2 :
  (forall e, e ∈ l1 -> reaches target e = false) -> first_reaching target (l1 ++ l2) = first_reaching target l2.
Proof.
  unfold first_reaching. induction l1 as [|d l1 IH]; intros H; [done|]. cbn [List.find app].
  rewrite (H d) by (by left). apply IH. intros e He. apply H. by right.
Qed.

Lemma find_app_l target l1 l2 e : first_reaching target l1 = Some e -> first_reaching target (l1 ++ l2) = Some e.
Proof.
  unfold first_reaching. induction l1 as [|d l1 IH]; [done|]. cbn [List.find app]. destruct (reaches target d); auto.
Qed.

Lemma not_reaches_le target d e : key_le (ie_Key d) (ie_Key e) -> reaches target e = false -> reaches target d = false.
Proof.
  unfold reaches. rewrite !negb_false_iff, !is_lt_true. intros Hle Hlt. unfold key_le in Hle.
  destruct (Compare (ie_Key d) (ie_Key e)) eqn:Ec; [by apply (cmp_eq Compare) in Ec as ->| |done].
  exact (cmp_trans Compare _ _ _ Ec Hlt).
Qed.

Lemma elem_of_concat {A} (x : A) (Ls : list (list A)) : x ∈ concat Ls <-> exists L, x ∈ L /\ L ∈ Ls.
Proof.
  rewrite list_elem_of_In, in_concat. split; intros (L & H1 & H2); exists L; rewrite !list_elem_of_In in *; done.
Qed.

(** The leaves under entries below the target are below it too. *)
Lemma children_below n level above lower es Ls target i L e :
  children (tree n) level above lower es Ls -> es !! i = Some e -> Ls !! i = Some L ->
  reaches target e = false -> forall d, d ∈ L -> reaches target d = false.
Proof.
  intros Hch He HL Hr d Hd. destruct (children_lookup _ _ _ _ _ _ i e Hch He) as (L' & child & low & HL' & Hok & _ & Ht & _).
  assert (L' = L) as -> by congruence. destruct Hok as (lr & f & _ & _ & _ & Hv & _).
  apply (not_reaches_le target d e); [|done].
  exact (proj1 (Forall_forall _ _) (tree_bounded _ _ _ _ _ _ Ht Hv) d Hd).
Qed.

Lemma Seek_loop_S fuel target cur at_root v :
  Seek_loop (S fuel) reader_ target cur at_root v =
  (_ ← validateBlockEntries cur;
   idx ← binarySearchKey cur target;
   if (idx =? block_Len cur)%nat then
     if at_root then Err ErrPastEnd
     else Err (Fail "rfile/index: walker invariant violation: target past end at non-root level")
   else
     entry ← At cur idx;
     if Level cur =? 0 then Ok entry
     else match reader_ with
     | None => Err (Fail "rfile/index: multi-level index requires LevelReader")
     | Some lr' =>
         lowerBound ← (if (0 <? idx)%nat then k ← KeyAt cur (idx - 1); Ok (Some k) else Ok None);
         '(child, v) ← wrap "rfile/index: descend"
           (readChildBlock lr' (Level cur) (region_of entry) lowerBound (ie_Key entry) v);
         Seek_loop fuel reader_ target child false v
     end).
Proof. done. Qed.

(** A target no entry of the root reaches is past the end. *)
Lemma Seek_past n above b L target es :
  tree n above b L -> valid b es -> (forall e, e ∈ es -> reaches target e = false) ->
  Seek_loop (S n) reader_ target b true above = Err ErrPastEnd /\ first_reaching target L = None.
Proof.
  intros Ht [Hd Hs] Hno.
  assert (exists es', validateBlockEntries b = Ok (head (keys es'), last (keys es')) /\ valid b es' /\
    first_reaching target L = None) as (es' & Hval & _ & Hnone).
  { destruct n as [|n]; destruct Ht as (es' & Hval & Hv' & H); exists es'; (split_and!; [done..|]);
      pose proof (decoded_unique b es Hd es' (proj1 Hv')) as ->.
    - destruct H as [_ ->]. by apply find_none_all.
    - destruct H as (_ & Ls & -> & Hch). apply find_none_all. intros e He.
      apply elem_of_concat in He as (L & HeL & HL). apply list_elem_of_lookup in HL as [i Hi].
      destruct (lookup_lt_is_Some_2 es i) as [d Hdi].
      { rewrite (children_length _ _ _ _ _ _ Hch). by eapply lookup_lt_Some. }
      apply (children_below n _ _ _ _ _ target i L d Hch Hdi Hi); [|done].
      apply Hno. by eapply list_elem_of_lookup_2. }
  split; [|done]. rewrite Seek_loop_S, Hval. cbn [mbind result_bind].
  destruct (binarySearchKey_ok b es Hd target Hs) as (idx & -> & Hle & _ & Hr). cbn [mbind result_bind].
  rewrite <-(decoded_length b es Hd). destruct (Nat.eqb_spec idx (length es)) as [|Hne]; [done|exfalso].
  destruct (lookup_lt_is_Some_2 es idx ltac:(lia)) as [e He]. pose proof (Hr e He) as Hre.
  rewrite (Hno e) in Hre; [done|]. by eapply list_elem_of_lookup_2.
Qed.

Lemma concat_split {A} (Ls : list (list A)) i L :
  Ls !! i = Some L -> concat Ls = concat (take i Ls) ++ L ++ concat (drop (S i) Ls).
Proof. intros Hi. rewrite <-(take_drop_middle Ls i L Hi) at 1. by rewrite concat_app. Qed.

(** A target the block's last key reaches is found below it. *)
Lemma Seek_found n above b L f k target at_root :
  tree n above b L -> validateBlockEntries b = Ok (f, Some k) -> is_lt (Compare k target) = false ->
  exists e, first_reaching target L = Some e /\ Seek_loop (S n) reader_ target b at_root above = Ok e.
Proof.
  revert above b L f k at_root. induction n as [|n IH]; intros above b L f k at_root (es & Hval & [Hd Hs] & H) Hk Hreach;
    rewrite Hval in Hk; injection Hk as _ Hk;
    rewrite Seek_loop_S, Hval; cbn [mbind result_bind];
    destruct (binarySearchKey_ok b es Hd target Hs) as (idx & -> & Hle & Hlow & Hr); cbn [mbind result_bind];
    rewrite <-(decoded_length b es Hd).
  all: assert (exists e, es !! idx = Some e) as [e He].
  1, 3: destruct (decide (idx < length es)%nat) as [Hlt|]; [by apply lookup_lt_is_Some_2|exfalso];
    unfold keys in Hk; rewrite fmap_last in Hk; destruct (last es) as [d|] eqn:El; [|done]; injection Hk as Hk;
    rewrite last_lookup in El; pose proof (lookup_lt_Some _ _ _ El) as Hpl;
    pose proof (Hlow _ d El ltac:(lia)) as Hd'; unfold reaches in Hd'; rewrite Hk, Hreach in Hd'; done.
  all: pose proof (lookup_lt_Some _ _ _ He) as Hlt; destruct (Nat.eqb_spec idx (length es)) as [|_]; [lia|];
    rewrite (decoded_At b es Hd idx e He); cbn [mbind result_bind].
  - destruct H as [-> ->]. cbn [Z.eqb]. exists e. split; [|done]. by apply (find_split target es idx e Hlow He (Hr e He)).
  - destruct H as (Hlvl & Ls & -> & Hch). replace (Level b =? 0) with false by lia.
    destruct (children_lookup _ _ _ _ _ _ idx e Hch He) as (L & child & low & HL & Hok & Hnew & Ht & Hlow').
    pose proof Hok as (lr & f' & Hlr & _ & _ & Hv & _). rewrite Hlr.
    assert ((if (0 <? idx)%nat then k ← KeyAt b (idx - 1); Ok (Some k) else Ok None) = Ok low) as ->.
    { rewrite Hlow'. destruct idx as [|j]; [done|]. cbn [Nat.ltb Nat.leb]. rewrite Nat.sub_1_r. cbn [pred].
      destruct (lookup_lt_is_Some_2 es j ltac:(lia)) as [d Hdj]. by rewrite (decoded_KeyAt b es Hd j d Hdj), Hdj. }
    cbn [mbind result_bind]. rewrite (proj2 (readChildBlock_ok lr (Level b) e low above child _ Hlr)) by (by split_and!).
    cbn [wrap mbind result_bind]. rewrite <-Hlr.
    destruct (IH _ _ _ _ _ false Ht Hv) as (d & Hfind & Hseek).
    { pose proof (Hr e He) as Hre. unfold reaches in Hre. by apply negb_true_iff in Hre. }
    exists d. split; [|done]. rewrite (concat_split Ls idx L HL). rewrite find_app; [by apply find_app_l|].
    intros x Hx. apply elem_of_concat in Hx as (L' & HxL & HL'). apply list_elem_of_lookup in HL' as [i Hi].
    pose proof (lookup_lt_Some _ _ _ Hi) as Hil. rewrite length_take in Hil. rewrite lookup_take_lt in Hi by lia.
    destruct (lookup_lt_is_Some_2 es i ltac:(lia)) as [d' Hd'].
    apply (children_below n _ _ _ _ _ target i L' d' Hch Hd' Hi); [|done]. apply (Hlow i d' Hd'). lia.
Qed.

End tree.

(** ** Walks visit the leaves in key order *)

Definition in_order (st : iterationState (list IndexEntry)) : Prop :=
  StronglySorted key_le (keys (acc st)) /\
  match lastLeaf st with
  | Some l => Forall (fun k => key_le k l) (keys (acc st))
  | None => acc st = []
  end.

Lemma in_order_snoc st e v :
  in_order st -> match lastLeaf st with Some l => is_lt (Compare (ie_Key e) l) | None => false end = false ->
  in_order (mkState v (Some (ie_Key e)) (acc st ++ [e])).
Proof.
  intros [Hs Hl] He. unfold in_order. cbn [acc lastLeaf]. unfold keys in *. rewrite fmap_app.
  assert (Forall (fun k => key_le k (ie_Key e)) (ie_Key <$> acc st)) as Hall.
  { destruct (lastLeaf st) as [l|]; [|by rewrite Hl]. apply not_lt_le in He.
    eapply Forall_impl; [exact Hl|]. intros k Hk. by trans l. }
  split; [apply StronglySorted_app_2; [|done|repeat constructor]|].
  - intros x y Hx ->%list_elem_of_singleton. exact (proj1 (Forall_forall _ _) Hall x Hx).
  - apply Forall_app. split; [done|]. by repeat constructor.
Qed.

Lemma iterate_in_order reader_ fuel b st st' :
  iterateLeaves reader_ collect fuel b st = Ok st' -> in_order st -> in_order st'.
Proof.
  revert b st st'. induction fuel as [|fuel IH]; intros b st st'; [done|]. rewrite iterateLeaves_S.
  intros (r & _ & H)%bind_Ok. generalize (@None Key) H. generalize (seq 0 (block_Len b)). clear H r.
  intros is_. revert st. induction is_ as [|i is_ IHis]; intros st lower H Hst; cbn [iterate_entries] in H.
  { by injection H as <-. }
  apply bind_Ok in H as (e & He & H). destruct (Level b =? 0).
  - case_bool_decide; [done|]. destruct (match lastLeaf st with Some _ => _ | None => _ end) eqn:El; [done|].
    apply bind_Ok in H as (a & [= <-] & H). apply (IHis _ _ H). by apply in_order_snoc.
  - destruct reader_ as [lr|]; [|done]. apply bind_Ok in H as ([child v] & _ & H).
    apply bind_Ok in H as (st1 & Hst1 & H). apply (IHis _ _ H). by apply (IH _ _ _ Hst1).
Qed.

(** ** Properties *)

(** C25: seeking in the index finds the right block.  If the whole index can
    be walked, collecting its leaf entries, then the leaves come out in key
    order, and a seek to any key descends without an error to the first leaf
    entry in that order whose key is not below the target (an entry's key is
    the last key of its data block), even when a run of equal keys straddles
    blocks; it reports [ErrPastEnd] exactly when every entry is below the
    target. *)
Theorem walker_seek_first_leaf w L target :
  IterateLeaves w collect [] = Ok L ->
  StronglySorted key_le (keys L) /\
  Seek w target = match List.find (reaches target) L with Some e => Ok e | None => Err ErrPastEnd end.
Proof.
  unfold IterateLeaves, Seek. destruct (validateRootLevel (root w)) eqn:Er; [done|].
  destruct (root w) as [b|]; [|done]. intros (st & Hst & [= <-])%bind_Ok.
  split; [apply (iterate_in_order _ _ _ _ _ Hst); split; [constructor|done]|].
  assert (Level b = Z.of_nat (Z.to_nat (Level b))) as Hlvl.
  { unfold validateRootLevel in Er. destruct (Z.ltb_spec (Level b) 0); [done|]. lia. }
  destruct (iterate_tree (lr w) (Z.to_nat (Level b)) b _ _ ∅ Hlvl Hst (empty_subseteq _)) as (L & Ht & Ha & _).
  cbn [acc] in Ha. rewrite Ha, app_nil_l.
  assert (exists es, validateBlockEntries b = Ok (head (keys es), last (keys es)) /\ valid b es) as (es & Hval & Hv).
  { destruct (Z.to_nat (Level b)); destruct Ht as (es & ? & ? & _); by exists es. }
  destruct (last (keys es)) as [k|] eqn:Ek.
  - destruct (is_lt (Compare k target)) eqn:Ec.
    + destruct (Seek_past (lr w) _ _ _ _ target es Ht Hv) as [-> Hn]; [|unfold first_reaching in Hn; by rewrite Hn].
      intros e He. unfold reaches. apply negb_false_iff. destruct (is_lt (Compare (ie_Key e) target)) eqn:E; [done|].
      exfalso. pose proof (sorted_le_last es k e (proj2 Hv) Ek He) as Hle.
      assert (reaches target e = true) as Hr by (unfold reaches; by rewrite E).
      assert (reaches target (mkIndexEntry k 0 0 0 0) = false) as Hr' by (unfold reaches; cbn; by rewrite Ec).
      by rewrite (not_reaches_le target e (mkIndexEntry k 0 0 0 0) Hle Hr') in Hr.
    + destruct (Seek_found (lr w) _ _ _ _ _ k target true Ht Hval Ec) as (e & He & Hs).
      unfold first_reaching in He. by rewrite He.
  - destruct (Seek_past (lr w) _ _ _ _ target es Ht Hv) as [-> Hn]; [|unfold first_reaching in Hn; by rewrite Hn].
    intros e He. destruct es as [|d es]; [by apply elem_of_nil in He|]. unfold keys in Ek. rewrite fmap_last, last_cons in Ek.
    destruct (last es); cbn in Ek; congruence.
Qed.

(** ** Encodings *)

Definition index_entry_ok (e : IndexEntry) : Prop :=
  key_ok (ie_Key e) /\ in_int32 (NumEntries e) /\ region_ok (region_of e).

Lemma parses_ReadIndexEntry e : index_entry_ok e -> parses ReadIndexEntry (WriteIndexEntry e) e.
Proof.
  intros (H1 & H2 & H3 & H4 & H5). unfold ReadIndexEntry, WriteIndexEntry. cbn [region_of Offset CompressedSize RawSize] in *.
  eapply parses_bind; [apply parses_wrap, ReadKey_WriteKey, H1|].
  eapply parses_bind; [apply parses_wrap, parses_ReadInt32, H2|].
  eapply parses_bind; [apply parses_wrap, parses_ReadVLong, H3|]. cbn beta iota.
  eapply parses_bind; [apply parses_wrap, parses_ReadVLong, H4|]. cbn beta iota.
  apply parses_app_nil. eapply parses_bind; [apply parses_wrap, parses_ReadVLong, H5|]. cbn beta iota.
  destruct e. apply parses_ret.
Qed.

Lemma WriteIndexEntry_nonempty e : 0 < len (WriteIndexEntry e).
Proof.
  unfold WriteIndexEntry, WriteInt32. rewrite !len_app. unfold len at 2. rewrite be_put_length.
  pose proof (len_nonneg (WriteKey (ie_Key e))). pose proof (len_nonneg (BCFile.WriteVLong (ie_Offset e))).
  pose proof (len_nonneg (BCFile.WriteVLong (ie_CompressedSize e))).
  pose proof (len_nonneg (BCFile.WriteVLong (ie_RawSize e))). lia.
Qed.

(** The block that holds the entries. *)
Fixpoint offsets_from (o : Z) (es : list IndexEntry) : list Z :=
  match es with [] => [] | e :: es => o :: offsets_from (o + len (WriteIndexEntry e)) es end.
Definition entries_data (es : list IndexEntry) : bytes := concat (WriteIndexEntry <$> es).
Definition block_of (level offset : Z) (hasNext : bool) (es : list IndexEntry) : IndexBlock :=
  mkIndexBlock level offset hasNext (offsets_from 0 es) (entries_data es).

Lemma offsets_from_length o es : length (offsets_from o es) = length es.
Proof. revert o. induction es as [|e es IH]; intros o; [done|]. cbn. by rewrite IH. Qed.

Lemma offsets_from_lookup o es i :
  (i < length es)%nat -> offsets_from o es !! i = Some (o + len (entries_data (take i es))).
Proof.
  revert o i. induction es as [|e es IH]; intros o [|i] Hi; cbn in Hi; [lia|lia| |].
  - cbn. f_equal. unfold entries_data, len. cbn. lia.
  - cbn [offsets_from lookup list_lookup]. change (offsets_from (o + len (WriteIndexEntry e)) es !! i = Some (o + len (entries_data (e :: take i es)))).
    rewrite IH by lia. f_equal. unfold entries_data. rewrite fmap_cons. cbn [concat]. rewrite len_app. lia.
Qed.

Lemma entries_data_split es i e :
  es !! i = Some e -> entries_data es = entries_data (take i es) ++ WriteIndexEntry e ++ entries_data (drop (S i) es).
Proof.
  intros Hi. rewrite <-(take_drop_middle es i e Hi) at 1. unfold entries_data. by rewrite fmap_app, fmap_cons, concat_app.
Qed.

Lemma segment_block_of level offset hasNext es i e :
  es !! i = Some e -> segment (block_of level offset hasNext es) i = Ok (WriteIndexEntry e).
Proof.
  intros Hi. pose proof (lookup_lt_Some _ _ _ Hi) as Hlt. unfold segment. cbn [block_of Offsets Data].
  rewrite offsets_from_lookup by done. rewrite Z.add_0_l.
  set (pre := entries_data (take i es)). set (we := WriteIndexEntry e). set (post := entries_data (drop (S i) es)).
  assert (entries_data es = pre ++ we ++ post) as E by (by apply entries_data_split).
  assert (default (len (entries_data es)) (offsets_from 0 es !! S i) = len pre + len we) as ->.
  { destruct (decide (S i < length es)%nat) as [Hlt'|].
    - rewrite offsets_from_lookup by done. cbn [default]. rewrite Z.add_0_l. rewrite (take_S_r _ _ e) by done.
      unfold entries_data. rewrite fmap_app, concat_app, len_app. cbn. by rewrite app_nil_r.
    - rewrite lookup_ge_None_2 by (rewrite offsets_from_length; lia). cbn [default].
      assert (post = []) as Ep by (unfold post; by rewrite drop_ge by lia).
      rewrite E, Ep, app_nil_r, len_app. done. }
  pose proof (len_nonneg pre). pose proof (len_nonneg we). pose proof (len_nonneg post).
  rewrite E, !len_app. replace ((len pre <? 0) || (len pre >? len pre + len we) || (len pre + len we >? len pre + (len we + len post))) with false by lia.
  f_equal. replace (len pre + len we - len pre) with (len we) by lia. unfold len. rewrite !Nat2Z.id, drop_app_length.
  by rewrite take_app_length.
Qed.

(** Random access into the block gives back the entries. *)
Lemma block_of_decoded level offset hasNext es :
  Forall index_entry_ok es -> decoded (block_of level offset hasNext es) es.
Proof.
  intros Hok. unfold decoded, block_Len. cbn [block_of Offsets]. rewrite offsets_from_length.
  apply Forall2_same_length_lookup_2; [by rewrite length_seq|]. intros i j e Hj He.
  apply lookup_seq in Hj as [-> _]. rewrite Nat.add_0_l. unfold At.
  rewrite (segment_block_of level offset hasNext es i e He). cbn [mbind result_bind].
  pose proof (proj1 (parses_ReadIndexEntry e (Forall_lookup_1 _ _ _ _ Hok He)) []) as Hp.
  rewrite app_nil_r in Hp. by rewrite Hp.
Qed.

Lemma offsets_valid es : validateIndexOffsets (offsets_from 0 es) (len (entries_data es)) = None.
Proof.
  destruct es as [|e es]; [done|]. unfold validateIndexOffsets. cbn [offsets_from]. cbn [Z.eqb negb].
  change (0 :: offsets_from (0 + len (WriteIndexEntry e)) es) with (offsets_from 0 (e :: es)).
  assert (forall es o prev size, match prev with Some p => p < o | None => True end -> 0 <= o ->
    size = o + len (entries_data es) -> offsets_increase prev (offsets_from o es) size = None) as Hgen.
  { clear. induction es as [|d es IH]; intros o prev size Hp Ho Hs; [done|]. cbn [offsets_from offsets_increase].
    unfold entries_data in Hs. rewrite fmap_cons in Hs. cbn [concat] in Hs. rewrite len_app in Hs. fold (entries_data es) in Hs.
    pose proof (WriteIndexEntry_nonempty d). pose proof (len_nonneg (entries_data es)).
    replace ((o <? 0) || (o >=? size)) with false by lia.
    assert (match prev with Some p => o <=? p | None => false end = false) as -> by (destruct prev; [lia|done]).
    apply IH; lia. }
  by apply Hgen.
Qed.

Lemma reads_offsets os :
  Forall in_int32 os -> reads (read_offsets (length os)) (concat (WriteInt32 <$> os)) os.
Proof.
  induction 1 as [|o os Ho Hos IH]; [apply reads_ret|]. rewrite fmap_cons. cbn [length read_offsets concat].
  eapply reads_bind; [apply reads_wrap, parses_reads, parses_ReadInt32, Ho|].
  apply reads_app_nil. eapply reads_bind; [exact IH|apply reads_ret].
Qed.

(** A bound on what remains holds when the input is long enough. *)
Lemma validateDecodedCount_ok count max unit_ reserved s :
  0 <= count <= max -> 0 <= len s - reserved -> count * unit_ <= len s - reserved ->
  validateDecodedCount count max unit_ reserved s = Ok (tt, s).
Proof.
  intros H1 H2 H3. unfold validateDecodedCount. replace (count <? 0) with false by lia.
  replace (count >? max) with false by lia. unfold mbind, reader_bind, Len.
  by replace ((len s - reserved <? 0) || (count * unit_ >? len s - reserved)) with false by lia.
Qed.

Lemma validateDecodedLength_ok length max s :
  0 <= length <= max -> length <= len s -> validateDecodedLength length max 0 s = Ok (tt, s).
Proof.
  intros H1 H2. unfold validateDecodedLength. replace (length <? 0) with false by lia.
  replace (length >? max) with false by lia. unfold mbind, reader_bind, Len.
  by replace ((len s - 0 <? 0) || (length >? len s - 0)) with false by lia.
Qed.

(** The sizes the reader accepts. *)
Definition block_ok (level offset : Z) (es : list IndexEntry) : Prop :=
  in_int32 level /\ in_int32 offset /\ Forall index_entry_ok es /\
  len es <= maxIndexEntries /\ len (entries_data es) <= maxIndexDataBytes.

Lemma WriteInt32s_len os : len (concat (WriteInt32 <$> os)) = 4 * len os.
Proof.
  induction os as [|o os IH]; [done|]. rewrite fmap_cons. cbn [concat]. rewrite len_app, IH, len_cons.
  unfold WriteInt32, len at 1. rewrite be_put_length. lia.
Qed.

Lemma offsets_from_in_int32 o es :
  0 <= o -> o + len (entries_data es) < 2 ^ 31 -> Forall in_int32 (offsets_from o es).
Proof.
  revert o. induction es as [|e es IH]; intros o Ho Hlt; [constructor|]. cbn [offsets_from].
  unfold entries_data in Hlt. rewrite fmap_cons in Hlt. cbn [concat] in Hlt. rewrite len_app in Hlt. fold (entries_data es) in Hlt.
  pose proof (WriteIndexEntry_nonempty e). pose proof (len_nonneg (entries_data es)).
  constructor; [unfold in_int32; lia|]. apply IH; lia.
Qed.

Lemma read_bind {A B} (p : reader A) (q : A -> reader B) s a s' : p s = Ok (a, s') -> (p ≫= q) s = q a s'.
Proof. intros H. unfold mbind, reader_bind. by rewrite H. Qed.

Lemma reads_multi_level level offset hasNext es :
  block_ok level offset es ->
  reads readMultiLevelBlock (WriteIndexBlock (block_of level offset hasNext es)) (block_of level offset hasNext es).
Proof.
  intros (Hl & Ho & Hes & Hn & Hd) rest. change maxIndexEntries with 1048576 in Hn. change maxIndexDataBytes with 67108864 in Hd.
  unfold WriteIndexBlock, readMultiLevelBlock. cbn [block_of Level ib_Offset HasNext Offsets Data].
  set (os := offsets_from 0 es). set (data := entries_data es) in *.
  assert (len os = len es) as Hos by (unfold os, len; by rewrite offsets_from_length).
  pose proof (len_nonneg es). pose proof (len_nonneg data). pose proof (len_nonneg rest).
  destruct (short_int32 os ltac:(lia)) as [Ei Hi]. destruct (short_int32 data ltac:(lia)) as [Ed Hdi].
  rewrite Ei, Ed, <-!(assoc_L (++)).
  erewrite read_bind by apply (reads_wrap _ _ _ _ (parses_reads _ _ _ (parses_ReadInt32 _ Hl))).
  erewrite read_bind by apply (reads_wrap _ _ _ _ (parses_reads _ _ _ (parses_ReadInt32 _ Ho))).
  erewrite read_bind by apply (reads_wrap _ _ _ _ (parses_reads _ _ _ (parses_ReadBool _))).
  erewrite read_bind by apply (reads_wrap _ _ _ _ (parses_reads _ _ _ (parses_ReadInt32 _ Hi))).
  replace (len os <? 0) with false by lia.
  assert (len (WriteInt32 (len data)) = 4) as H4 by (unfold WriteInt32, len at 1; by rewrite be_put_length).
  erewrite read_bind.
  2: { apply validateDecodedCount_ok; [change maxIndexEntries with 1048576; lia|..];
       rewrite !len_app, WriteInt32s_len, H4; lia. }
  assert (Forall in_int32 os) as Hr by (apply offsets_from_in_int32; [lia|fold data; lia]).
  erewrite read_bind.
  2: { unfold len. rewrite Nat2Z.id. apply (reads_offsets os Hr). }
  erewrite read_bind by apply (reads_wrap _ _ _ _ (parses_reads _ _ _ (parses_ReadInt32 _ Hdi))).
  replace (len data <? 0) with false by lia.
  assert (validateIndexOffsets os (len data) = None) as -> by apply offsets_valid.
  erewrite read_bind by reflexivity.
  erewrite read_bind.
  2: { apply validateDecodedLength_ok; [change maxIndexDataBytes with 67108864; lia|]. rewrite len_app. lia. }
  erewrite read_bind by apply (reads_wrap _ _ _ _ (parses_reads _ _ _ (parses_ReadFull data _ eq_refl))).
  done.
Qed.

Lemma reads_flat_loop es done_ :
  Forall index_entry_ok es -> len (entries_data (done_ ++ es)) < 2 ^ 31 ->
  reads (read_flat (length es) (offsets_from 0 done_) (entries_data done_)) (entries_data es)
    (offsets_from 0 (done_ ++ es), entries_data (done_ ++ es)).
Proof.
  revert done_. induction es as [|e es IH]; intros done_ Hok Hlen.
  { rewrite app_nil_r. apply reads_ret. }
  apply Forall_cons in Hok as [He Hok]. unfold entries_data at 2. rewrite fmap_cons. cbn [length read_flat concat].
  fold (entries_data es). eapply reads_bind; [apply reads_wrap, parses_reads, parses_ReadIndexEntry, He|]. cbv beta.
  assert (entries_data (done_ ++ [e]) = entries_data done_ ++ WriteIndexEntry e) as E1.
  { unfold entries_data. rewrite fmap_app, concat_app. cbn. by rewrite app_nil_r. }
  assert (offsets_from 0 (done_ ++ [e]) = offsets_from 0 done_ ++ [int32 (len (entries_data done_))]) as E2.
  { rewrite int32_id.
    - assert (forall o l, offsets_from o (l ++ [e]) = offsets_from o l ++ [o + len (entries_data l)]) as Hsnoc; [|by rewrite Hsnoc].
      clear. intros o l. revert o. induction l as [|d l IH]; intros o; cbn [app offsets_from].
      + do 2 f_equal. unfold entries_data, len. cbn. lia.
      + rewrite IH. do 3 f_equal. unfold entries_data. rewrite fmap_cons. cbn [concat]. rewrite len_app. lia.
    - unfold entries_data in Hlen. rewrite fmap_app, concat_app, len_app in Hlen. fold (entries_data done_) in Hlen.
      pose proof (len_nonneg (entries_data done_)). pose proof (len_nonneg (concat (WriteIndexEntry <$> e :: es))).
      unfold in_int32. lia. }
  rewrite <-E1, <-E2. replace (done_ ++ e :: es) with ((done_ ++ [e]) ++ es) in * by (by rewrite <-(assoc_L (++))).
  by apply IH.
Qed.

Lemma entries_data_length es : len es <= len (entries_data es).
Proof.
  induction es as [|e es IH]; [done|]. unfold entries_data in *. rewrite fmap_cons, len_cons. cbn [concat].
  rewrite len_app. pose proof (WriteIndexEntry_nonempty e). lia.
Qed.

Lemma reads_flat es :
  block_ok 0 0 es -> reads readFlatBlock (WriteInt32 (int32 (len es)) ++ entries_data es) (block_of 0 0 false es).
Proof.
  intros (_ & _ & Hes & Hn & Hd) rest. change maxIndexEntries with 1048576 in Hn. change maxIndexDataBytes with 67108864 in Hd.
  destruct (short_int32 es ltac:(lia)) as [Ei Hi]. rewrite Ei. unfold readFlatBlock. rewrite <-(assoc_L (++)).
  erewrite read_bind by apply (reads_wrap _ _ _ _ (parses_reads _ _ _ (parses_ReadInt32 _ Hi))).
  pose proof (len_nonneg es). pose proof (entries_data_length es). pose proof (len_nonneg rest).
  replace (len es <? 0) with false by lia.
  erewrite read_bind.
  2: { apply validateDecodedCount_ok; [change maxIndexEntries with 1048576; lia|..]; rewrite len_app; lia. }
  erewrite read_bind.
  2: { unfold len. rewrite Nat2Z.id. apply (reads_flat_loop es [] Hes). cbn [app]. lia. }
  done.
Qed.

(** Both layouts of an index block deliver its entries.  For entries
    within the format's limits, the multi-level form (versions 6 to 8) that
    [WriteIndexBlock] writes and the flat list of versions 3 and 4 are read
    back, in front of anything, as the same offsets and data; in that block
    random access decodes every entry, and the key-only access its key. *)
Theorem index_block_layouts level offset hasNext es ver rest :
  block_ok level offset es ->
  (hasMultiLevelIndex ver = true ->
   ReadIndexBlock ver (WriteIndexBlock (block_of level offset hasNext es) ++ rest) =
     Ok (block_of level offset hasNext es, rest)) /\
  (ver = V3 \/ ver = V4 ->
   ReadIndexBlock ver ((WriteInt32 (int32 (len es)) ++ entries_data es) ++ rest) = Ok (block_of 0 0 false es, rest)) /\
  forall l o h i e, es !! i = Some e ->
    At (block_of l o h es) i = Ok e /\ KeyAt (block_of l o h es) i = Ok (ie_Key e).
Proof.
  intros Hok. split; [|split].
  - intros Hm. unfold ReadIndexBlock. rewrite Hm. by apply reads_multi_level.
  - intros Hv. unfold ReadIndexBlock.
    assert (hasMultiLevelIndex ver = false /\ (ver =? V3) || (ver =? V4) = true) as [-> ->] by (by destruct Hv as [-> | ->]).
    apply reads_flat. destruct Hok as (_ & _ & ? & ? & ?). by split_and!.
  - intros l o h i e Hi. pose proof (block_of_decoded l o h es (proj1 (proj2 (proj2 Hok)))) as Hd.
    split; [by apply (decoded_At _ es)|by apply (decoded_KeyAt _ es)].
Qed.

(** Two leaf blocks under one root; the key "b" ends a data block in each. *)
Definition demo_key (b : Z) : Key := mkKey [b] [] [] [] 0 false.
Definition demo_entry (b off : Z) : IndexEntry := mkIndexEntry (demo_key b) 1 off 10 20.
Definition demo_left : IndexBlock := block_of 0 0 true [demo_entry 97 0; demo_entry 98 10].
Definition demo_right : IndexBlock := block_of 0 2 false [demo_entry 98 20; demo_entry 100 30].
Definition demo_root : IndexBlock := block_of 1 0 false [demo_entry 98 100; demo_entry 100 110].
Definition demo_reader : LevelReader := fun r =>
  if Offset r =? 100 then Ok (Some demo_left) else if Offset r =? 110 then Ok (Some demo_right) else Err EOF.
Definition demo_walker : Walker := mkWalker (Some demo_root) (Some demo_reader).

Lemma walker_seek_first_leaf_witness :
  let L := [demo_entry 97 0; demo_entry 98 10; demo_entry 98 20; demo_entry 100 30] in
  IterateLeaves demo_walker collect [] = Ok L /\
  Seek demo_walker (demo_key 98) = Ok (demo_entry 98 10) /\
  Seek demo_walker (demo_key 99) = Ok (demo_entry 100 30) /\
  Seek demo_walker (demo_key 101) = Err ErrPastEnd.
Proof.
  intros L. assert (IterateLeaves demo_walker collect [] = Ok L) as H by (vm_compute; reflexivity).
  split; [exact H|].
  split; [exact (proj2 (walker_seek_first_leaf demo_walker L (demo_key 98) H))|].
  split; [exact (proj2 (walker_seek_first_leaf demo_walker L (demo_key 99) H))|].
  exact (proj2 (walker_seek_first_leaf demo_walker L (demo_key 101) H)).
Defined.

Lemma demo_block_ok : block_ok 1 0 [demo_entry 98 100; demo_entry 100 110].
Proof.
  unfold block_ok. split_and!; [by split|by split| |by vm_compute|by vm_compute].
  apply Forall_cons; split; [|apply Forall_singleton];
    (unfold index_entry_ok, key_ok, region_ok, in_int32, in_int64; cbn; split_and!; done || lia || by vm_compute).
Defined.

Lemma index_block_layouts_witness :
  block_ok 1 0 [demo_entry 98 100; demo_entry 100 110] /\
  ReadIndexBlock V8 (WriteIndexBlock demo_root ++ [7]) = Ok (demo_root, [7]) /\
  At demo_root 1 = Ok (demo_entry 100 110).
Proof.
  split; [exact demo_block_ok|].
  destruct (index_block_layouts 1 0 false _ V8 [7] demo_block_ok) as (H1 & _ & H3).
  split; [exact (H1 eq_refl)|]. exact (proj1 (H3 1 0 false 1%nat _ eq_refl)).
Defined.
