(* ===== verification/Utf8.v ===== *)
(** * Utf8: Go's UTF-8 (unicode/utf8, unicode/utf16 and strings, as the code uses them)

    A Go string is its bytes; these are the library functions that look at
    them as runes: decoding from either end, encoding, validity, and the
    trimming of white space. *)

From S2P Require Import Prelude.

Definition RuneError : Z := 0xFFFD.

Definition in_range (lo hi b : Z) : bool := (lo <=? b) && (b <=? hi).
(** A continuation byte. *)
Definition cont (b : Z) : bool := in_range 0x80 0xBF b.

(** The length of the sequence a first byte announces and the range of its
    second byte (the tables [first] and [acceptRanges]); [None] for a byte
    that starts no sequence. *)
Definition lead_info (b : Z) : option (nat * Z * Z) :=
  if in_range 0xC2 0xDF b then Some (2%nat, 0x80, 0xBF)
  else if b =? 0xE0 then Some (3%nat, 0xA0, 0xBF)
  else if b =? 0xED then Some (3%nat, 0x80, 0x9F)
  else if in_range 0xE1 0xEF b then Some (3%nat, 0x80, 0xBF)
  else if b =? 0xF0 then Some (4%nat, 0x90, 0xBF)
  else if in_range 0xF1 0xF3 b then Some (4%nat, 0x80, 0xBF)
  else if b =? 0xF4 then Some (4%nat, 0x80, 0x8F)
  else None.

(** [utf8.DecodeRune]: the rune and its width; width 0 for no input, width 1
    with [RuneError] for an invalid encoding. *)
Definition DecodeRune (s : bytes) : Z * nat :=
  match s with
  | [] => (RuneError, 0%nat)
  | b0 :: s1 =>
      if b0 <? 0x80 then (b0, 1%nat)
      else match lead_info b0, s1 with
      | Some (2%nat, lo, hi), b1 :: _ =>
          if in_range lo hi b1 then (Z.lor (Z.shiftl (Z.land b0 0x1F) 6) (Z.land b1 0x3F), 2%nat)
          else (RuneError, 1%nat)
      | Some (3%nat, lo, hi), b1 :: b2 :: _ =>
          if in_range lo hi b1 && cont b2 then
            (Z.lor (Z.lor (Z.shiftl (Z.land b0 0x0F) 12) (Z.shiftl (Z.land b1 0x3F) 6)) (Z.land b2 0x3F), 3%nat)
          else (RuneError, 1%nat)
      | Some (4%nat, lo, hi), b1 :: b2 :: b3 :: _ =>
          if in_range lo hi b1 && cont b2 && cont b3 then
            (Z.lor (Z.lor (Z.lor (Z.shiftl (Z.land b0 0x07) 18) (Z.shiftl (Z.land b1 0x3F) 12))
              (Z.shiftl (Z.land b2 0x3F) 6)) (Z.land b3 0x3F), 4%nat)
          else (RuneError, 1%nat)
      | _, _ => (RuneError, 1%nat)
      end
  end.

(** Every decoding step takes at least one byte, so the length is enough
    fuel. *)
Fixpoint valid_loop (fuel : nat) (s : bytes) : bool :=
  match fuel, s with
  | _, [] => true
  | O, _ => false
  | S fuel, b :: _ =>
      let '(r, n) := DecodeRune s in
      if (r =? RuneError) && (n =? 1)%nat then false else valid_loop fuel (drop n s)
  end.
(** [utf8.ValidString]. *)
Definition ValidString (s : bytes) : bool := valid_loop (length s) s.

(** The byte starts an encoding ([utf8.RuneStart]). *)
Definition RuneStart (b : Z) : bool := negb (Z.land b 0xC0 =? 0x80).

(** The index of the last rune start among the last [k] bytes before
    [start], or [lim] when there is none. *)
Fixpoint last_start (k : nat) (s : bytes) (start : nat) : nat :=
  match k with
  | O => start
  | S k => match start with
           | O => O
           | S p => match s !! p with Some b => if RuneStart b then p else last_start k s p | None => p end
           end
  end.

(** [utf8.DecodeLastRune]. *)
Definition DecodeLastRune (s : bytes) : Z * nat :=
  match last s with
  | None => (RuneError, 0%nat)
  | Some b =>
      if b <? 0x80 then (b, 1%nat)
      else
        let start := last_start 3 s (pred (length s)) in
        let '(r, size) := DecodeRune (drop start s) in
        if (start + size =? length s)%nat then (r, size) else (RuneError, 1%nat)
  end.

(** [unicode.IsSpace]. *)
Definition IsSpace (r : Z) : bool :=
  in_range 9 13 r || (r =? 32) || (r =? 0x85) || (r =? 0xA0) || (r =? 0x1680) ||
  in_range 0x2000 0x200A r || (r =? 0x2028) || (r =? 0x2029) || (r =? 0x202F) || (r =? 0x205F) || (r =? 0x3000).

Fixpoint trim_left (fuel : nat) (s : bytes) : bytes :=
  match fuel with
  | O => s
  | S fuel => let '(r, n) := DecodeRune s in if (0 <? n)%nat && IsSpace r then trim_left fuel (drop n s) else s
  end.
Fixpoint trim_right (fuel : nat) (s : bytes) : bytes :=
  match fuel with
  | O => s
  | S fuel =>
      let '(r, n) := DecodeLastRune s in
      if (0 <? n)%nat && IsSpace r then trim_right fuel (take (length s - n) s) else s
  end.
(** [strings.TrimSpace]. *)
Definition TrimSpace (s : bytes) : bytes := let s := trim_left (length s) s in trim_right (length s) s.

(** [utf8.AppendRune] of one rune: surrogates and numbers out of range become
    [RuneError]. *)
Definition EncodeRune (r : Z) : bytes :=
  let enc3 r := [Z.lor 0xE0 (Z.shiftr r 12); Z.lor 0x80 (Z.land (Z.shiftr r 6) 0x3F); Z.lor 0x80 (Z.land r 0x3F)] in
  if in_range 0 0x7F r then [r]
  else if in_range 0x80 0x7FF r then [Z.lor 0xC0 (Z.shiftr r 6); Z.lor 0x80 (Z.land r 0x3F)]
  else if (r <? 0) || (r >? 0x10FFFF) || in_range 0xD800 0xDFFF r then enc3 RuneError
  else if r <=? 0xFFFF then enc3 r
  else [Z.lor 0xF0 (Z.shiftr r 18); Z.lor 0x80 (Z.land (Z.shiftr r 12) 0x3F);
        Z.lor 0x80 (Z.land (Z.shiftr r 6) 0x3F); Z.lor 0x80 (Z.land r 0x3F)].

(** [utf16.DecodeRune] of a valid surrogate pair. *)
Definition utf16_DecodeRune (r1 r2 : Z) : Z :=
  if in_range 0xD800 0xDBFF r1 && in_range 0xDC00 0xDFFF r2 then
    Z.lor (Z.shiftl (r1 - 0xD800) 10) (r2 - 0xDC00) + 0x10000
  else RuneError.
