(* ===== verification/EmbeddingSpace.v ===== *)
(** * EmbeddingSpace: the vector space of a file (src/internal/embeddingspace)

    Every file records whether its cells carry embeddings and of which model
    (embedding_space.go); merges and queries are refused across spaces.  The
    JSON form goes through encoding/json, a parameter here: a pair of
    functions of which only the round trip is used. *)

From S2P Require Import Prelude Utf8.

Definition MaxIdentityBytes : Z := 16 * 1024.

(** A state is a string; these are the three valid ones. *)
Definition str (s : string) : bytes := Z.of_N ∘ Ascii.N_of_ascii <$> String.list_ascii_of_string s.
Definition StateHasEmbeddings : bytes := str "has_embeddings".
Definition StateNoEmbeddings : bytes := str "no_embeddings".
Definition StateUnknown : bytes := str "unknown".
Definition RFileMetaBlockName : bytes := str "shoal.embedding-space".

Record FileState := mkFileState { State : bytes; Identity : bytes }.
#[export] Instance FileState_eq_dec : EqDecision FileState.
Proof. solve_decision. Defined.

(** The zero value. *)
Definition zero_state : FileState := mkFileState [] [].

(** The three errors that carry a cause callers test for; [MismatchError] and
    [IntegrityError] unwrap to theirs. *)
Definition ErrInvalidState : err := Fail "embedding space: invalid state".
Definition ErrMismatch : err := Fail "embedding space: identity mismatch".
Definition ErrIntegrity : err := Fail "embedding space: metadata integrity error".
Definition ErrQueryIdentityRequired : err := Fail "embedding space: query identity required".
Definition ErrQuerySpaceUnknown : err := Fail "embedding space: query source space unknown".
Definition ErrQueryNoEmbeddings : err := Fail "embedding space: query source has no embeddings".

Definition Has (ident : bytes) : FileState := mkFileState StateHasEmbeddings (TrimSpace ident).
Definition NoEmbeddings : FileState := mkFileState StateNoEmbeddings [].
Definition Unknown : FileState := mkFileState StateUnknown [].

Definition HasEmbeddings (s : FileState) : bool := bool_decide (State s = StateHasEmbeddings).
Definition Known (s : FileState) : bool :=
  bool_decide (State s = StateHasEmbeddings) || bool_decide (State s = StateNoEmbeddings).

(** ":" *)
Definition colon : Z := 58.

Definition String_ (s : FileState) : bytes :=
  if bool_decide (State s = StateHasEmbeddings) then State s ++ [colon] ++ Identity s
  else if bool_decide (State s = StateNoEmbeddings) || bool_decide (State s = StateUnknown) then State s
  else str "<invalid>".

(** [None] is nil. *)
Definition Validate (s : FileState) : option err :=
  if bool_decide (State s = StateHasEmbeddings) then
    let ident := TrimSpace (Identity s) in
    if bool_decide (ident = []) || negb (ValidString ident) || (len ident >? MaxIdentityBytes)
    then Some (Wrap "invalid embedding identity" ErrInvalidState)
    else if negb (bool_decide (ident = Identity s)) then
      Some (Wrap "identity has surrounding whitespace" ErrInvalidState)
    else None
  else if bool_decide (State s = StateNoEmbeddings) || bool_decide (State s = StateUnknown) then
    if negb (bool_decide (Identity s = [])) then Some (Wrap "identity set" ErrInvalidState) else None
  else Some (Wrap "state" ErrInvalidState).

(** [strings.Cut(text, ":")]. *)
Fixpoint Cut (text : bytes) : option (bytes * bytes) :=
  match text with
  | [] => None
  | b :: text =>
      if b =? colon then Some ([], text)
      else match Cut text with Some (kind, ident) => Some (b :: kind, ident) | None => None end
  end.

Definition checked (s : FileState) : result FileState :=
  match Validate s with Some e => Err e | None => Ok s end.

Definition Parse (text : bytes) : result FileState :=
  match text with
  | [] => Ok zero_state
  | _ =>
      match Cut text with
      | Some (kind, ident) =>
          if negb (bool_decide (kind = StateHasEmbeddings)) then Err (Wrap "takes no identity" ErrInvalidState)
          else checked (mkFileState kind ident)
      | None => checked (mkFileState text [])
      end
  end.

Section json.
(** [json.Marshal] and [json.Unmarshal] of a [FileState]. *)
Context (Marshal : FileState -> result bytes) (Unmarshal : bytes -> result FileState).

Definition Encode (s : FileState) : result bytes :=
  match Validate s with Some e => Err e | None => Marshal s end.

Definition Decode (b : bytes) : result FileState :=
  if bool_decide (b = []) then Err (Wrap "empty value" ErrInvalidState)
  else match Unmarshal b with Err _ => Err (Wrap "decode JSON" ErrInvalidState) | Ok s => checked s end.

(** What encoding/json documents: valid UTF-8 strings survive, and the text
    of an object is not empty. *)
Definition json_ok : Prop :=
  forall s b, ValidString (State s) = true -> ValidString (Identity s) = true ->
    Marshal s = Ok b -> Unmarshal b = Ok s /\ b <> [].
End json.

(** ** Comparing files *)

(** The first invalid state's error. *)
Fixpoint validate_all (states : list FileState) : option err :=
  match states with
  | [] => None
  | s :: states => match Validate s with Some e => Some e | None => validate_all states end
  end.

(** The fold over the states with embeddings; [embedded] is the first of
    them. *)
Fixpoint same_identity (embedded : option FileState) (states : list FileState) : result (option FileState) :=
  match states with
  | [] => Ok embedded
  | s :: states =>
      if negb (HasEmbeddings s) then same_identity embedded states
      else match embedded with
      | None => same_identity (Some s) states
      | Some e => if negb (bool_decide (Identity e = Identity s)) then Err (Wrap "compare" ErrMismatch)
                  else same_identity embedded states
      end
  end.

Definition Compatible (states : list FileState) : result FileState :=
  match validate_all states with
  | Some e => Err e
  | None =>
      embedded ← same_identity None states;
      let unresolved := existsb (fun s => negb (HasEmbeddings s)) states in
      match states, embedded with
      | [], _ => Ok Unknown
      | _, Some e => if negb unresolved then Ok e else Ok Unknown
      | _, None =>
          if existsb (fun s => bool_decide (State s = StateUnknown)) states then Ok Unknown else Ok NoEmbeddings
      end
  end.

Definition EnsureSameIdentity (left right : bytes) : option err :=
  let l := Has left in
  let r := Has right in
  match Validate l with
  | Some e => Some e
  | None => match Validate r with
            | Some e => Some e
            | None => if negb (bool_decide (Identity l = Identity r)) then Some (Wrap "compare" ErrMismatch) else None
            end
  end.

Definition VerifyMetadataMatchesFooter (metadataState footerState : FileState) : option err :=
  match Validate metadataState with
  | Some e => Some e
  | None => match Validate footerState with
            | Some e => Some e
            | None => if negb (bool_decide (metadataState = footerState)) then Some ErrIntegrity else None
            end
  end.

Fixpoint check_query (queryIdentity : bytes) (states : list FileState) : option err :=
  match states with
  | [] => None
  | s :: states =>
      let s := if bool_decide (s = zero_state) then Unknown else s in
      match Validate s with
      | Some e => Some e
      | None =>
          if bool_decide (State s = StateUnknown) then Some (Wrap "query" ErrQuerySpaceUnknown)
          else if bool_decide (State s = StateNoEmbeddings) then Some (Wrap "query" ErrQueryNoEmbeddings)
          else match EnsureSameIdentity queryIdentity (Identity s) with
          | Some e => Some e
          | None => check_query queryIdentity states
          end
      end
  end.

Definition ValidateQueryStates (queryIdentity : bytes) (states : list FileState) : option err :=
  if bool_decide (queryIdentity = []) then Some (Wrap "query" ErrQueryIdentityRequired)
  else match Validate (mkFileState StateHasEmbeddings queryIdentity) with
  | Some e => Some e
  | None => check_query queryIdentity states
  end.

(** ** Round trips *)

Lemma checked_Ok s t : checked s = Ok t <-> Validate s = None /\ t = s.
Proof. unfold checked. destruct (Validate s); naive_solver. Qed.

Lemma Validate_state s : Validate s = None ->
  (State s = StateHasEmbeddings /\ ValidString (Identity s) = true /\ TrimSpace (Identity s) = Identity s /\
   Identity s <> [] /\ len (Identity s) <= MaxIdentityBytes) \/
  ((State s = StateNoEmbeddings \/ State s = StateUnknown) /\ Identity s = []).
Proof.
  unfold Validate. case_bool_decide as H1.
  - destruct (_ || _) eqn:E; [done|].
    destruct (bool_decide_reflect (TrimSpace (Identity s) = Identity s)) as [H2|]; [|done]. intros _. left. rewrite H2 in E.
    apply orb_false_iff in E as [[E1 E2]%orb_false_iff E3]. apply bool_decide_eq_false in E1.
    split_and!; [done|by destruct (ValidString (Identity s))|done|done|lia].
  - destruct (_ || _) eqn:E; [|done].
    destruct (bool_decide_reflect (Identity s = [])) as [H2|]; [|done]. intros _. right. split; [|done].
    apply orb_true_iff in E as [E|E]; apply bool_decide_eq_true in E; tauto.
Qed.

Lemma Decode_Encode m u s b : json_ok m u -> Encode m s = Ok b -> Decode u b = Ok s.
Proof.
  intros Hj. unfold Encode. destruct (Validate s) eqn:Hv; [done|]. intros Hm.
  assert (ValidString (State s) = true /\ ValidString (Identity s) = true) as [H1 H2].
  { destruct (Validate_state s Hv) as [(-> & -> & _)|([-> | ->] & ->)]; by vm_compute. }
  destruct (Hj s b H1 H2 Hm) as [Hu Hne]. unfold Decode. rewrite bool_decide_eq_false_2, Hu by done.
  by apply checked_Ok.
Qed.

Lemma Cut_app kind ident : colon ∉ kind -> Cut (kind ++ colon :: ident) = Some (kind, ident).
Proof.
  induction kind as [|b kind IH]; intros Hn; [done|]. apply not_elem_of_cons in Hn as [H1 H2]. cbn [app Cut].
  replace (b =? colon) with false by lia. by rewrite IH.
Qed.

(** [Parse] inverts [String] on valid states. *)
Lemma Parse_String s : Validate s = None -> Parse (String_ s) = Ok s.
Proof.
  intros Hv. destruct s as [st ident]. pose proof (Validate_state _ Hv) as Hs. unfold String_. cbn [State Identity] in *.
  destruct Hs as [(-> & _)|([-> | ->] & ->)].
  - rewrite bool_decide_eq_true_2 by done.
    assert (StateHasEmbeddings ++ [colon] ++ ident <> []) as Hne by done.
    unfold Parse. destruct (StateHasEmbeddings ++ [colon] ++ ident) eqn:E; [done|]. rewrite <-E.
    change ([colon] ++ ident) with (colon :: ident). rewrite Cut_app by (apply (bool_decide_unpack _); by vm_compute).
    rewrite bool_decide_eq_true_2 by done. by apply checked_Ok.
  - vm_compute. done.
  - vm_compute. done.
Qed.
