(* ===== verification/Convergence.v ===== *)
(** * Convergence: the target space of a table
    (src/internal/embeddingspace/convergence.go)

    What a compaction should do with a file, given the space its table is
    converging to, and which relabellings of a file are allowed. *)

From S2P Require Import Prelude Utf8 EmbeddingSpace.

Inductive Decision := DecisionNone | DecisionSkip | DecisionRewrite.
#[export] Instance Decision_eq_dec : EqDecision Decision.
Proof. solve_decision. Defined.

Definition ErrNotMonotonic : err := Fail "embedding space: convergence moved a file away from the target".

(** The empty target is none. *)
Definition ParseTarget (raw : bytes) : result bytes :=
  let target := TrimSpace raw in
  if bool_decide (target = []) then Ok []
  else match Validate (Has target) with Some e => Err e | None => Ok target end.

Definition PlanConvergence (target : bytes) (current : FileState) : result Decision :=
  normalized ← ParseTarget target;
  match Validate current with
  | Some e => Err e
  | None =>
      if bool_decide (normalized = []) then Ok DecisionNone
      else if HasEmbeddings current && bool_decide (Identity current = normalized) then Ok DecisionSkip
      else Ok DecisionRewrite
  end.

Definition EnsureMonotonic (target : bytes) (before after : FileState) : option err :=
  match ParseTarget target with
  | Err e => Some e
  | Ok normalized =>
      match Validate before with
      | Some e => Some e
      | None =>
          match Validate after with
          | Some e => Some e
          | None =>
              if bool_decide (before = after) then None
              else if negb (bool_decide (normalized = [])) && bool_decide (after = Has normalized) then None
              else if bool_decide (State after = StateUnknown) then None
              else if negb (bool_decide (normalized = [])) && bool_decide (before = Has normalized)
                then Some (Wrap "left the target" ErrNotMonotonic)
              else if bool_decide (State after = StateNoEmbeddings)
                then Some (Wrap "asserts the file holds no vectors" ErrNotMonotonic)
              else Some (Wrap "neither the input space nor the target" ErrNotMonotonic)
          end
      end
  end.

Definition Converged (target : bytes) (state : FileState) : bool :=
  match ParseTarget target with
  | Err _ => false
  | Ok normalized =>
      if bool_decide (normalized = []) then false
      else if negb (Known state) then false
      else HasEmbeddings state && bool_decide (Identity state = normalized)
  end.

(** ** Which labels a merge may carry *)

Lemma Validate_Unknown : Validate Unknown = None.
Proof. by vm_compute. Qed.

Lemma Validate_NoEmbeddings : Validate NoEmbeddings = None.
Proof. by vm_compute. Qed.

Lemma validate_all_None states : validate_all states = None <-> Forall (fun s => Validate s = None) states.
Proof.
  induction states as [|s states IH]; cbn [validate_all]; [by split; [constructor|]|].
  rewrite Forall_cons, <-IH. destruct (Validate s); naive_solver.
Qed.

(** The three outcomes a relabelling may have. *)
Lemma EnsureMonotonic_None target normalized before after :
  ParseTarget target = Ok normalized -> Validate before = None -> Validate after = None ->
  EnsureMonotonic target before after = None <->
  after = before \/ (normalized <> [] /\ after = Has normalized) \/ after = Unknown.
Proof.
  intros Ht Hb Ha. unfold EnsureMonotonic. rewrite Ht, Hb, Ha.
  assert (State after = StateUnknown <-> after = Unknown) as Hu.
  { split; [|by intros ->]. intros Hs. destruct (Validate_state after Ha) as [(H & _)|[_ Hi]]; [rewrite Hs in H; by vm_compute in H|].
    destruct after as [st ident]. cbn in *. by subst. }
  case_bool_decide as H1; [naive_solver|].
  destruct (bool_decide_reflect (normalized = [])) as [H2|H2]; cbn [negb andb].
  - case_bool_decide as H3; [naive_solver|]. case_bool_decide; split; naive_solver.
  - case_bool_decide as H3; [naive_solver|]. case_bool_decide as H4; [naive_solver|].
    destruct (bool_decide_reflect (before = Has normalized)); [split; naive_solver|]. case_bool_decide; split; naive_solver.
Qed.

Lemma HasEmbeddings_Has s : Validate s = None -> HasEmbeddings s = true -> s = Has (Identity s).
Proof.
  intros Hv Hh. apply bool_decide_eq_true in Hh. destruct (Validate_state s Hv) as [(_ & _ & Ht & _)|([H|H] & _)].
  - destruct s as [st ident]. unfold Has. cbn in *. by subst; rewrite Ht.
  - rewrite H in Hh. by vm_compute in Hh.
  - rewrite H in Hh. by vm_compute in Hh.
Qed.

Lemma same_identity_Ok e states r :
  same_identity e states = Ok r ->
  Forall (fun s => HasEmbeddings s = true -> exists e', r = Some e' /\ Identity e' = Identity s) states /\
  (forall e', e = Some e' -> r = Some e').
Proof.
  revert e. induction states as [|s states IH]; intros e H; cbn [same_identity] in H; [injection H as ->; split; [constructor|done]|].
  destruct (HasEmbeddings s) eqn:Hs; cbn [negb] in H.
  - destruct e as [e|].
    + destruct (bool_decide_reflect (Identity e = Identity s)) as [He|]; [|done]. cbn [negb] in H.
      destruct (IH _ H) as [H1 H2]. split; [|done]. constructor; [|done]. intros _. exists e. split; [by apply H2|done].
    + destruct (IH _ H) as [H1 H2]. split; [|done]. constructor; [|done]. intros _. exists s. split; [by apply H2|done].
  - destruct (IH _ H) as [H1 H2]. split; [|done]. constructor; [by rewrite Hs|done].
Qed.

Lemma same_identity_elem e states r :
  same_identity e states = Ok (Some r) -> e = Some r \/ (r ∈ states /\ HasEmbeddings r = true).
Proof.
  revert e. induction states as [|s states IH]; intros e H; cbn [same_identity] in H; [injection H as ->; by left|].
  rewrite elem_of_cons. destruct (HasEmbeddings s) eqn:Hs; cbn [negb] in H.
  - destruct e as [e|].
    + destruct (negb _); [done|]. destruct (IH _ H) as [|[? ?]]; [by left|right; tauto].
    + destruct (IH _ H) as [[= ->]|[? ?]]; right; tauto.
  - destruct (IH _ H) as [|[? ?]]; [by left|right; tauto].
Qed.

(** A merge is labelled with the space of every input, or with none. *)
Lemma Compatible_label states label :
  Compatible states = Ok label ->
  Forall (fun s => Validate s = None) states /\ Validate label = None /\
  (label = Unknown \/ (states <> [] /\ Forall (fun s => s = label) states)).
Proof.
  unfold Compatible. destruct (validate_all states) eqn:Hv; [done|]. apply validate_all_None in Hv. intros H.
  apply bind_Ok in H as (embedded & He & H). split; [done|]. destruct (same_identity_Ok _ _ _ He) as [Hid _].
  destruct states as [|s0 states0]; [injection H as <-; split; [by apply Validate_Unknown|by left]|].
  set (states := s0 :: states0) in *. destruct embedded as [e|].
  - destruct (existsb _ states) eqn:Ex; cbn [negb] in H; injection H as <-; [split; [by apply Validate_Unknown|by left]|].
    destruct (same_identity_elem _ _ _ He) as [?|[Hin Hhe]]; [done|].
    pose proof (proj1 (Forall_forall _ _) Hv e Hin) as Hve. split; [done|]. right. split; [done|].
    apply Forall_forall. intros s Hs. pose proof (proj1 (Forall_forall _ _) Hv s Hs) as Hvs.
    assert (HasEmbeddings s = true) as Hh.
    { destruct (HasEmbeddings s) eqn:E; [done|]. assert (false = true); [|done]. rewrite <-Ex. apply existsb_exists. exists s.
      split; [by apply list_elem_of_In|by rewrite E]. }
    pose proof (proj1 (Forall_forall _ _) Hid s Hs Hh) as (e' & [= <-] & Ei).
    by rewrite (HasEmbeddings_Has s), (HasEmbeddings_Has e), Ei.
  - destruct (existsb _ states) eqn:Ex; injection H as <-; [split; [by apply Validate_Unknown|by left]|].
    split; [by apply Validate_NoEmbeddings|]. right. split; [done|]. apply Forall_forall. intros s Hs.
    pose proof (proj1 (Forall_forall _ _) Hv s Hs) as Hvs. pose proof (proj1 (Forall_forall _ _) Hid s Hs) as Hn. cbn beta in Hn.
    destruct (Validate_state s Hvs) as [(Hst & _)|([Hst|Hst] & Hi)].
    + destruct Hn as (? & ? & _); [|done]. by apply bool_decide_eq_true.
    + destruct s as [st ident]. cbn in *. by subst.
    + assert (false = true); [|done]. rewrite <-Ex. apply existsb_exists. exists s.
      split; [by apply list_elem_of_In|by apply bool_decide_eq_true].
Qed.
