(* ===== verification/BlockMeta.v ===== *)
(** * BlockMeta: per-block overlays (src/internal/rfile/blockmeta)

    The optional meta block that carries, for every data block, small typed
    payloads a scan can consult before it fetches the block (blockmeta.go);
    the interface through which the writer feeds cells to the builders of
    these payloads (builder.go); and the one built-in overlay, the range of
    timestamps of a block (zonemap.go). *)

From S2P Require Import Prelude Wire.

(** "RFile.blockmeta" *)
Definition MetaBlockName : bytes := [82; 70; 105; 108; 101; 46; 98; 108; 111; 99; 107; 109; 101; 116; 97].
Definition Magic : Z := 0x424D4554.
Definition V1 : Z := 1.

Definition OverlayZoneMap : Z := 1.

Record Vocab := mkVocab { v_Type : Z; v_ID : Z; v_Entries : list bytes }.
Record Overlay := mkOverlay { o_Type : Z; o_Payload : bytes }.
Record BlockMeta := mkBlockMeta { bm_Version : Z; bm_Vocabs : list Vocab; bm_BlockOverlays : list (list Overlay) }.

Definition ErrCorrupt : err := Fail "blockmeta: corrupt".
Definition ErrUnsupportedVersion : err := Fail "blockmeta: unsupported version".

(** ** Reading *)

(** A count or a length that may not be negative. *)
Definition read_count (what : string) : reader Z :=
  n ← rwrap what ReadInt32;
  if n <? 0 then rfail (Wrap what ErrCorrupt) else mret n.

Definition read_entry : reader bytes :=
  '(n, _) ← rwrap "entry len" ReadVInt;
  if n <? 0 then rfail (Wrap "negative len" ErrCorrupt) else rwrap "entry body" (ReadFull n).

Definition readVocab : reader Vocab :=
  t ← rwrap "type" ReadInt32;
  id ← rwrap "id" ReadInt32;
  count ← read_count "entryCount";
  entries ← read_n read_entry (Z.to_nat count);
  mret (mkVocab t id entries).

Definition read_overlay : reader Overlay :=
  t ← rwrap "overlay type" ReadInt32;
  payloadLen ← read_count "overlay payloadLen";
  payload ← rwrap "overlay payload" (ReadFull payloadLen);
  mret (mkOverlay t payload).

Definition readBlockOverlays : reader (list Overlay) :=
  count ← read_count "overlayCount";
  read_n read_overlay (Z.to_nat count).

Definition Parse : reader BlockMeta :=
  magic ← rwrap "magic" ReadInt32;
  if negb (magic =? Magic) then rfail (Wrap "bad magic" ErrCorrupt)
  else
    version ← rwrap "version" ReadInt32;
    if negb (version =? V1) then rfail (Wrap "version" ErrUnsupportedVersion)
    else
      vocabCount ← read_count "vocabCount";
      vocabs ← read_n (rwrap "vocab" readVocab) (Z.to_nat vocabCount);
      blockCount ← read_count "blockCount";
      blockOverlays ← read_n (rwrap "block overlays" readBlockOverlays) (Z.to_nat blockCount);
      mret (mkBlockMeta version vocabs blockOverlays).

(** ** Writing *)

Definition write_entry (e : bytes) : bytes := (WriteVInt (int32 (len e))).1 ++ e.

Definition writeVocab (v : Vocab) : bytes :=
  WriteInt32 (v_Type v) ++ WriteInt32 (v_ID v) ++ WriteInt32 (int32 (len (v_Entries v))) ++
  concat (write_entry <$> v_Entries v).

Definition write_overlay (o : Overlay) : bytes :=
  WriteInt32 (o_Type o) ++ WriteInt32 (int32 (len (o_Payload o))) ++ o_Payload o.

Definition writeBlockOverlays (overlays : list Overlay) : bytes :=
  WriteInt32 (int32 (len overlays)) ++ concat (write_overlay <$> overlays).

Definition Write (m : BlockMeta) : bytes :=
  WriteInt32 Magic ++ WriteInt32 (bm_Version m) ++
  WriteInt32 (int32 (len (bm_Vocabs m))) ++ concat (writeVocab <$> bm_Vocabs m) ++
  WriteInt32 (int32 (len (bm_BlockOverlays m))) ++ concat (writeBlockOverlays <$> bm_BlockOverlays m).

(** The first overlay of the type, for a leaf index in range. *)
Definition FindOverlay (m : BlockMeta) (leafIdx : Z) (t : Z) : option Overlay :=
  if (leafIdx <? 0) || (leafIdx >=? len (bm_BlockOverlays m)) then None
  else overlays ← bm_BlockOverlays m !! Z.to_nat leafIdx; List.find (fun o => o_Type o =? t) overlays.

(** ** Overlay builders (builder.go)

    The interface: [AppendCell] of a key and a value, [OverlayType],
    [Snapshot] (nil emits nothing), and [Reset].  Only the fields of the key
    that the method is passed are its own business; a builder is given the
    whole key here. *)
Record OverlayBuilder := mkOverlayBuilder {
  ob_state : Type;
  ob_cur : ob_state;
  ob_AppendCell : Key -> bytes -> ob_state -> ob_state;
  ob_OverlayType : Z;
  ob_Snapshot : ob_state -> option bytes;
  ob_Reset : ob_state -> ob_state;
}.

Definition AppendCell (k : Key) (v : bytes) (b : OverlayBuilder) : OverlayBuilder :=
  mkOverlayBuilder (ob_state b) (ob_AppendCell b k v (ob_cur b)) (ob_AppendCell b) (ob_OverlayType b)
    (ob_Snapshot b) (ob_Reset b).
Definition Snapshot (b : OverlayBuilder) : option bytes := ob_Snapshot b (ob_cur b).
Definition Reset (b : OverlayBuilder) : OverlayBuilder :=
  mkOverlayBuilder (ob_state b) (ob_Reset b (ob_cur b)) (ob_AppendCell b) (ob_OverlayType b)
    (ob_Snapshot b) (ob_Reset b).

(** ** Zone maps (zonemap.go) *)

Record ZoneMap := mkZoneMap { TsMin : Z; TsMax : Z }.
Definition MinInt64 : Z := - 2 ^ 63.

Definition NewZoneMap : ZoneMap := mkZoneMap MaxInt64 MinInt64.

Definition Update (ts : Z) (z : ZoneMap) : ZoneMap :=
  let z := if ts <? TsMin z then mkZoneMap ts (TsMax z) else z in
  if ts >? TsMax z then mkZoneMap (TsMin z) ts else z.

Definition Empty (z : ZoneMap) : bool := (TsMin z =? MaxInt64) && (TsMax z =? MinInt64).

Definition Encode (z : ZoneMap) : bytes := be_put 8 (uint64 (TsMin z)) ++ be_put 8 (uint64 (TsMax z)).

Definition DecodeZoneMap (payload : bytes) : result ZoneMap :=
  if negb (len payload =? 16) then Err (Wrap "zone-map payload" ErrCorrupt)
  else Ok (mkZoneMap (int64 (be_get (take 8 payload))) (int64 (be_get (drop 8 payload)))).

(** [ZoneMapBuilder]: only the timestamp matters. *)
Definition NewZoneMapBuilder : OverlayBuilder :=
  mkOverlayBuilder ZoneMap NewZoneMap (fun k _ z => Update (Timestamp k) z) OverlayZoneMap
    (fun z => if Empty z then None else Some (Encode z)) (fun _ => NewZoneMap).

(** ** Round trip *)

Lemma reads_read_count {A} what (l : list A) :
  len l < 2 ^ 31 -> reads (read_count what) (WriteInt32 (int32 (len l))) (len l).
Proof.
  intros Hl. pose proof (len_nonneg l). destruct (len_int32 l Hl) as [-> Hin]. apply reads_app_nil.
  eapply reads_bind; [apply reads_wrap, parses_reads, parses_ReadInt32, Hin|].
  replace (len l <? 0) with false by lia. apply reads_ret.
Qed.

(** A counted list: its length, then its elements. *)
Lemma reads_counted {A} what (p : reader A) (enc : A -> bytes) xs {B} (q : list A -> reader B) bs b :
  len xs < 2 ^ 31 -> (forall x, x ∈ xs -> reads p (enc x) x) -> reads (q xs) bs b ->
  reads (count ← read_count what; ys ← read_n p (Z.to_nat count); q ys)
    (WriteInt32 (int32 (len xs)) ++ concat (enc <$> xs) ++ bs) b.
Proof.
  intros Hl Hp Hq. eapply reads_bind; [by apply reads_read_count|].
  replace (Z.to_nat (len xs)) with (length xs) by (unfold len; lia).
  eapply reads_bind; [by apply reads_read_n|exact Hq].
Qed.

Definition vocab_ok (v : Vocab) : Prop :=
  in_int32 (v_Type v) /\ in_int32 (v_ID v) /\ len (v_Entries v) < 2 ^ 31 /\ Forall (fun e => len e < 2 ^ 31) (v_Entries v).
Definition overlay_ok (o : Overlay) : Prop := in_int32 (o_Type o) /\ len (o_Payload o) < 2 ^ 31.
Definition overlays_ok (os : list Overlay) : Prop := len os < 2 ^ 31 /\ Forall overlay_ok os.
Definition blockmeta_ok (m : BlockMeta) : Prop :=
  bm_Version m = V1 /\ len (bm_Vocabs m) < 2 ^ 31 /\ Forall vocab_ok (bm_Vocabs m) /\
  len (bm_BlockOverlays m) < 2 ^ 31 /\ Forall overlays_ok (bm_BlockOverlays m).

Lemma reads_vocab_entry e : len e < 2 ^ 31 -> reads read_entry (write_entry e) e.
Proof.
  intros He. pose proof (len_nonneg e). destruct (len_int32 e He) as [E Hin]. unfold write_entry. rewrite E.
  eapply reads_bind; [apply reads_wrap, parses_reads, ReadVInt_WriteVInt, Hin|].
  cbv beta iota. replace (len e <? 0) with false by lia. by apply reads_wrap, parses_reads, parses_ReadFull.
Qed.

Lemma reads_vocab v : vocab_ok v -> reads readVocab (writeVocab v) v.
Proof.
  intros (H1 & H2 & H3 & H4). destruct v as [t i es]. cbn [v_Type v_ID v_Entries] in *. unfold readVocab, writeVocab. cbn [v_Type v_ID v_Entries].
  eapply reads_bind; [by apply reads_wrap, parses_reads, parses_ReadInt32|].
  eapply reads_bind; [by apply reads_wrap, parses_reads, parses_ReadInt32|].
  rewrite <-(app_nil_r (concat (write_entry <$> es))).
  apply reads_counted; [done| |apply reads_ret]. intros e He. apply reads_vocab_entry. by eapply Forall_forall in H4.
Qed.

Lemma reads_overlay o : overlay_ok o -> reads read_overlay (write_overlay o) o.
Proof.
  intros [H1 H2]. destruct o as [t p]. cbn [o_Type o_Payload] in *. unfold read_overlay, write_overlay. cbn [o_Type o_Payload].
  eapply reads_bind; [by apply reads_wrap, parses_reads, parses_ReadInt32|].
  eapply reads_bind; [by apply reads_read_count|]. apply reads_app_nil.
  eapply reads_bind; [by apply reads_wrap, parses_reads, parses_ReadFull|apply reads_ret].
Qed.

Lemma reads_overlays os : overlays_ok os -> reads readBlockOverlays (writeBlockOverlays os) os.
Proof.
  intros [H1 H2]. unfold writeBlockOverlays.
  eapply reads_bind; [by apply reads_read_count|].
  replace (Z.to_nat (len os)) with (length os) by (unfold len; lia).
  apply reads_read_n. intros o Ho. apply reads_overlay. by eapply Forall_forall in H2.
Qed.

Lemma reads_blockmeta m : blockmeta_ok m -> reads Parse (Write m) m.
Proof.
  intros (H1 & H2 & H3 & H4 & H5). destruct m as [v vs bs]. cbn in H1. subst v. unfold Parse, Write. cbn [bm_Version bm_Vocabs bm_BlockOverlays] in *.
  eapply reads_bind; [by apply reads_wrap, parses_reads, parses_ReadInt32|]. cbn [negb Z.eqb].
  replace (negb (Magic =? Magic)) with false by reflexivity.
  eapply reads_bind; [by apply reads_wrap, parses_reads, parses_ReadInt32|].
  replace (negb (V1 =? V1)) with false by reflexivity.
  apply reads_counted; [done|intros; apply reads_wrap, reads_vocab; by eapply Forall_forall in H3|].
  rewrite <-(app_nil_r (concat (writeBlockOverlays <$> bs))).
  apply reads_counted; [done|intros; apply reads_wrap, reads_overlays; by eapply Forall_forall in H5|].
  apply reads_ret.
Qed.

(** ** Zone maps bound the timestamps they saw *)

Definition covers (z : ZoneMap) (ts : Z) : Prop := TsMin z <= ts <= TsMax z.

Lemma Update_covers ts z : covers (Update ts z) ts /\ (forall t, covers z t -> covers (Update ts z) t).
Proof.
  unfold covers, Update. destruct z as [lo hi]. cbn [TsMin TsMax].
  destruct (Z.ltb_spec ts lo); cbn [TsMin TsMax];
    match goal with |- context [ts >? ?h] => destruct (Z.gtb_spec ts h) end; cbn [TsMin TsMax]; split; try lia; intros; lia.
Qed.

Lemma Update_in_int64 ts z :
  in_int64 ts -> in_int64 (TsMin z) -> in_int64 (TsMax z) -> in_int64 (TsMin (Update ts z)) /\ in_int64 (TsMax (Update ts z)).
Proof. unfold Update. intros. repeat case_match; done. Qed.

(** The zone map of a block's cells. *)
Definition zone_of (tss : list Z) : ZoneMap := foldl (fun z ts => Update ts z) NewZoneMap tss.

Lemma zone_of_covers tss ts : ts ∈ tss -> covers (zone_of tss) ts.
Proof.
  unfold zone_of. generalize NewZoneMap as z. induction tss as [|t tss IH]; intros z Hin; [by apply elem_of_nil in Hin|].
  cbn [foldl]. apply elem_of_cons in Hin as [->|Hin]; [|by apply IH].
  clear IH. pose proof (proj1 (Update_covers t z)) as H. revert H. generalize (Update t z) as z'.
  induction tss as [|u tss IH]; intros z' H; [done|]. cbn [foldl]. apply IH. by apply (Update_covers u).
Qed.

Lemma zone_of_range tss : Forall in_int64 tss -> in_int64 (TsMin (zone_of tss)) /\ in_int64 (TsMax (zone_of tss)).
Proof.
  unfold zone_of. assert (in_int64 (TsMin NewZoneMap) /\ in_int64 (TsMax NewZoneMap)) as H
    by (unfold in_int64, NewZoneMap, MaxInt64, MinInt64; cbn [TsMin TsMax]; lia).
  revert H. generalize NewZoneMap as z. induction tss as [|t tss IH]; intros z H Hall; [done|].
  apply Forall_cons in Hall as [Ht Hall]. cbn [foldl]. apply IH; [|done]. destruct H; by apply Update_in_int64.
Qed.

Lemma be_get_put8_int64 v : in_int64 v -> int64 (be_get (be_put 8 (uint64 v))) = v.
Proof.
  intros Hv. rewrite be_get_put by (change (256 ^ Z.of_nat 8) with (2 ^ 64); unfold uint64; apply Z.mod_pos_bound; lia).
  by rewrite int64_uint64, int64_id.
Qed.

Lemma DecodeZoneMap_Encode z : in_int64 (TsMin z) -> in_int64 (TsMax z) -> DecodeZoneMap (Encode z) = Ok z.
Proof.
  intros H1 H2. destruct z as [lo hi]. unfold DecodeZoneMap, Encode. cbn [TsMin TsMax] in *.
  replace (negb (len _ =? 16)) with false by (unfold len; rewrite length_app, !be_put_length; done).
  rewrite take_app_length', drop_app_length' by (by rewrite be_put_length).
  by rewrite !be_get_put8_int64.
Qed.

(** A zone map that saw a timestamp is not taken for an empty one. *)
Lemma zone_of_not_empty tss : tss <> [] -> Forall in_int64 tss -> Empty (zone_of tss) = false.
Proof.
  intros Hne Hall. destruct tss as [|t tss]; [done|].
  pose proof (zone_of_covers (t :: tss) t ltac:(by left)) as [H1 H2].
  apply not_true_iff_false. unfold Empty. rewrite andb_true_iff, !Z.eqb_eq. unfold MaxInt64, MinInt64.
  intros [E1 E2]. rewrite E1, E2 in *. lia.
Qed.
