(* ===== verification/Adjacency.v ===== *)
(** * Adjacency: the out-edge index of a file (src/internal/rfile/adjacency)

    The optional meta block that mirrors the cells of one column family as a
    compressed sparse row index: a directory of rows, each with a range of a
    flat array of edges.  The builder the writer feeds, the wire form, and
    the lookup of a row's neighbours.  Nil and empty slices are not told
    apart, as no caller does. *)

From S2P Require Import Prelude Wire GoStd.

(** "shoal.adjacency" *)
Definition MetaBlockName : bytes := [115; 104; 111; 97; 108; 46; 97; 100; 106; 97; 99; 101; 110; 99; 121].
Definition Magic : Z := 0x53414447.
Definition V1 : Z := 1.

Definition ErrCorrupt : err := Fail "adjacency: corrupt".
Definition ErrUnsupportedVersion : err := Fail "adjacency: unsupported version".

Record Edge := mkEdge { CQ : bytes; Value : bytes; e_Timestamp : Z; e_Deleted : bool; Vis : bytes }.
Record node := mkNode { n_row : bytes; start : Z; count : Z }.
Record Index := mkIndex { EdgeCF : bytes; nodes : list node; targets : list Edge }.

#[export] Instance Edge_eq_dec : EqDecision Edge.
Proof. solve_decision. Defined.

(** ** Lookup *)

(** [s[low:high]] of a slice that fills its array: out of range panics. *)
Definition slice {A} (s : list A) (low high : Z) : result (list A) :=
  if (0 <=? low) && (low <=? high) && (high <=? len s) then Ok (take (Z.to_nat (high - low)) (drop (Z.to_nat low) s))
  else Err (Fail "panic: slice bounds out of range").

Definition Neighbors (ix : Index) (row : bytes) : result (list Edge) :=
  let i := Search (length (nodes ix)) (fun i =>
    match nodes ix !! i with Some n => negb (is_lt (bytes_Compare (n_row n) row)) | None => false end) in
  match nodes ix !! i with
  | None => Ok []
  | Some n =>
      if negb (bytes_Equal (n_row n) row) then Ok []
      else slice (targets ix) (start n) (int32 (start n + count n))
  end.

Definition NodeCount (ix : Index) : Z := len (nodes ix).

(** ** Building *)

Record entry := mkAdjEntry { e_row : bytes; edge : Edge }.
Record Builder := mkBuilder { b_edgeCF : bytes; entries : list entry }.

Definition NewBuilder (edgeCF : bytes) : Builder := mkBuilder edgeCF [].

Definition Add (row cq value vis : bytes) (ts : Z) (deleted : bool) (b : Builder) : Builder :=
  mkBuilder (b_edgeCF b) (entries b ++ [mkAdjEntry row (mkEdge cq value ts deleted vis)]).

Definition Len (b : Builder) : Z := len (entries b).

(** The order of [Build]'s stable sort: row, then qualifier. *)
Definition entry_less (x y : entry) : bool :=
  match bytes_Compare (e_row x) (e_row y) with
  | Eq => is_lt (bytes_Compare (CQ (edge x)) (CQ (edge y)))
  | c => is_lt c
  end.

(** The loop over the sorted entries; [i] counts them, and the last node is
    the one being extended. *)
Fixpoint group (i : Z) (nodes : list node) (es : list entry) : list node :=
  match es with
  | [] => nodes
  | e :: es =>
      group (i + 1)
        (match last nodes with
         | Some n =>
             if negb (bytes_Equal (n_row n) (e_row e)) then nodes ++ [mkNode (e_row e) (int32 i) 1]
             else take (pred (length nodes)) nodes ++ [mkNode (n_row n) (start n) (int32 (count n + 1))]
         | None => [mkNode (e_row e) (int32 i) 1]
         end) es
  end.

(** nil for no edges; the builder's entries stay sorted. *)
Definition Build (b : Builder) : Builder * option Index :=
  match entries b with
  | [] => (b, None)
  | _ =>
      let sorted := SliceStable entry_less (entries b) in
      (mkBuilder (b_edgeCF b) sorted, Some (mkIndex (b_edgeCF b) (group 0 [] sorted) (edge <$> sorted)))
  end.

(** ** Wire form *)

Definition writeBytes (b : bytes) : bytes := (WriteVInt (int32 (len b))).1 ++ b.

Definition writeEdge (e : Edge) : bytes :=
  writeBytes (CQ e) ++ writeBytes (Value e) ++ WriteInt64 (e_Timestamp e) ++ WriteBool (e_Deleted e) ++ writeBytes (Vis e).

Definition writeNode (n : node) : bytes := writeBytes (n_row n) ++ WriteInt32 (start n) ++ WriteInt32 (count n).

Definition Write (ix : Index) : bytes :=
  WriteInt32 Magic ++ WriteInt32 V1 ++ writeBytes (EdgeCF ix) ++
  WriteInt32 (int32 (len (nodes ix))) ++ concat (writeNode <$> nodes ix) ++
  WriteInt32 (int32 (len (targets ix))) ++ concat (writeEdge <$> targets ix).

Definition readBytes : reader bytes :=
  '(n, _) ← ReadVInt;
  if n <? 0 then rfail (Wrap "negative length" ErrCorrupt) else ReadFull n.

Definition readEdge : reader Edge :=
  cq ← rwrap "cq" readBytes;
  value ← rwrap "value" readBytes;
  ts ← rwrap "timestamp" ReadInt64;
  deleted ← rwrap "deleted" ReadBool;
  vis ← rwrap "vis" readBytes;
  mret (mkEdge cq value ts deleted vis).

Definition readNode : reader node :=
  row ← rwrap "node row" readBytes;
  start ← rwrap "node start" ReadInt32;
  count ← rwrap "node count" ReadInt32;
  if (start <? 0) || (count <? 0) then rfail (Wrap "bad start/count" ErrCorrupt)
  else mret (mkNode row start count).

Definition node_in_range (targets : list Edge) (n : node) : bool := start n + count n <=? len targets.

Definition Parse : reader Index :=
  magic ← rwrap "magic" ReadInt32;
  if negb (magic =? Magic) then rfail (Wrap "bad magic" ErrCorrupt)
  else
    version ← rwrap "version" ReadInt32;
    if negb (version =? V1) then rfail (Wrap "version" ErrUnsupportedVersion)
    else
      edgeCF ← rwrap "edgeCF" readBytes;
      nodeCount ← rwrap "nodeCount" ReadInt32;
      if nodeCount <? 0 then rfail (Wrap "negative nodeCount" ErrCorrupt)
      else
        nodes ← read_n readNode (Z.to_nat nodeCount);
        targetTotal ← rwrap "targetTotal" ReadInt32;
        if targetTotal <? 0 then rfail (Wrap "negative targetTotal" ErrCorrupt)
        else
          targets ← read_n (rwrap "target" readEdge) (Z.to_nat targetTotal);
          if negb (forallb (node_in_range targets) nodes) then rfail (Wrap "node range exceeds targets" ErrCorrupt)
          else mret (mkIndex edgeCF nodes targets).

(** ** Grouping sorted entries *)

Abbreviation row_is r := (fun e => e_row e = r).
#[export] Instance row_is_dec r e : Decision (e_row e = r) := _.

Definition entry_cmp (x y : bytes * bytes) : comparison := bytes_Compare x.1 y.1 <?> bytes_Compare x.2 y.2.
#[export] Instance entry_Cmp : Cmp entry_cmp := lex_Cmp _ _ _ _.
Definition entry_key (e : entry) : bytes * bytes := (e_row e, CQ (edge e)).
Definition row_le (x y : entry) : Prop := bytes_Compare (e_row x) (e_row y) <> Gt.

Lemma entry_less_cmp x y : entry_less x y = is_lt (entry_cmp (entry_key x) (entry_key y)).
Proof. unfold entry_less, entry_cmp. cbn. by destruct (bytes_Compare (e_row x) (e_row y)). Qed.

Lemma entry_less_irr x : entry_less x x = false.
Proof. rewrite entry_less_cmp. apply (less_irr entry_cmp). Qed.
Lemma entry_less_trans x y z : entry_less x y = true -> entry_less y z = true -> entry_less x z = true.
Proof. rewrite !entry_less_cmp. apply (less_trans entry_cmp entry_key). Qed.
Lemma entry_less_neg x y z : entry_less x y = false -> entry_less y z = false -> entry_less x z = false.
Proof. rewrite !entry_less_cmp. apply (less_neg entry_cmp entry_key). Qed.

Lemma not_less_row_le x y : not_less entry_less x y -> row_le x y.
Proof.
  unfold not_less, entry_less, row_le. rewrite (cmp_antisym bytes_Compare (e_row x) (e_row y)).
  by destruct (bytes_Compare (e_row x) (e_row y)).
Qed.

Lemma bytes_lt_ne a b : bytes_Compare a b = Lt -> a <> b.
Proof. intros H ->. by rewrite (cmp_refl bytes_Compare) in H. Qed.

Lemma bytes_le_ne_lt a b : bytes_Compare a b <> Gt -> a <> b -> bytes_Compare a b = Lt.
Proof. intros H Hne. destruct (bytes_Compare a b) eqn:E; [|done|done]. by apply (cmp_eq bytes_Compare) in E. Qed.

(** The node's range of the edges is what the entries of its row are. *)
Definition node_ok (es : list entry) (n : node) : Prop :=
  0 <= start n /\ 1 <= count n /\ start n + count n <= len es /\
  take (Z.to_nat (count n)) (drop (Z.to_nat (start n)) es) = filter (row_is (n_row n)) es.

Definition node_lt (m n : node) : Prop := bytes_Compare (n_row m) (n_row n) = Lt.

(** The directory of a prefix of the sorted entries. *)
Record grouped (es : list entry) (ns : list node) : Prop := {
  g_sorted : StronglySorted node_lt ns;
  g_nodes : Forall (node_ok es) ns;
  g_rows e : e ∈ es -> exists n, n ∈ ns /\ n_row n = e_row e;
  g_last n : last ns = Some n -> start n + count n = len es;
  g_max n e : last ns = Some n -> e ∈ es -> bytes_Compare (e_row e) (n_row n) <> Gt;
}.

Lemma StronglySorted_snoc {A} (R : A -> A -> Prop) l x :
  StronglySorted R l -> Forall (fun y => R y x) l -> StronglySorted R (l ++ [x]).
Proof.
  induction 1 as [|y l Hs IH Hy]; intros Hx; [repeat constructor|]. apply Forall_cons in Hx as [H1 H2]. cbn.
  constructor; [by apply IH|]. apply Forall_app. split; [done|by repeat constructor].
Qed.

Lemma StronglySorted_app_inv_r {A} (R : A -> A -> Prop) l x : StronglySorted R (l ++ [x]) -> Forall (fun y => R y x) l.
Proof.
  induction l as [|y l IH]; cbn; intros H; [constructor|]. inversion H as [|? ? Hs Hy]; subst.
  constructor; [|by apply IH]. apply Forall_app in Hy as [_ Hy]. by inversion Hy.
Qed.

Lemma StronglySorted_app_l {A} (R : A -> A -> Prop) l m : StronglySorted R (l ++ m) -> StronglySorted R l.
Proof.
  induction l as [|x l IH]; cbn; intros Hs; [constructor|]. inversion Hs as [|? ? H1 H2]; subst.
  constructor; [by apply IH|]. by apply Forall_app in H2 as [? _].
Qed.

(** A node keeps its entries when one of another row is added. *)
Lemma node_ok_snoc es e n : node_ok es n -> n_row n <> e_row e -> node_ok (es ++ [e]) n.
Proof.
  intros (H1 & H2 & H3 & H4) Hne. unfold node_ok. rewrite len_app. change (len [e]) with 1. split_and!; [done|done|lia|].
  rewrite filter_app, filter_cons_False by (intros E; by apply Hne). rewrite filter_nil, app_nil_r, <-H4.
  unfold len in H3. rewrite drop_app_le, take_app_le by (rewrite ?length_drop; lia). done.
Qed.

Lemma node_row_seen es n : node_ok es n -> exists e, e ∈ es /\ e_row e = n_row n.
Proof.
  intros (H1 & H2 & H3 & H4). destruct (filter (row_is (n_row n)) es) as [|e l] eqn:E.
  { exfalso. apply (f_equal length) in H4. rewrite length_take, length_drop in H4. unfold len in H3. cbn in H4. lia. }
  exists e. apply and_comm, (list_elem_of_filter (row_is (n_row n)) es e). rewrite E. by left.
Qed.

(** What the loop does with the entry [e], the [i]-th. *)
Definition extend (i : Z) (ns : list node) (e : entry) : list node :=
  match last ns with
  | Some n =>
      if negb (bytes_Equal (n_row n) (e_row e)) then ns ++ [mkNode (e_row e) (int32 i) 1]
      else take (pred (length ns)) ns ++ [mkNode (n_row n) (start n) (int32 (count n + 1))]
  | None => [mkNode (e_row e) (int32 i) 1]
  end.

Lemma group_cons i ns e es : group i ns (e :: es) = group (i + 1) (extend i ns e) es.
Proof. done. Qed.

(** A node of its own for a row not seen. *)
Lemma grouped_new es ns e :
  grouped es ns -> (forall x, x ∈ es -> e_row x <> e_row e) -> (forall x, x ∈ es -> row_le x e) ->
  grouped (es ++ [e]) (ns ++ [mkNode (e_row e) (len es) 1]).
Proof.
  intros Hg Hne Hle. pose proof (len_nonneg es).
  assert (forall n, n ∈ ns -> exists x, x ∈ es /\ e_row x = n_row n) as Hseen.
  { intros n Hn. apply node_row_seen. pose proof (g_nodes _ _ Hg) as Hall. by eapply Forall_forall in Hall. }
  split.
  - apply StronglySorted_snoc; [apply Hg|]. apply Forall_forall. intros n Hn. unfold node_lt. cbn.
    destruct (Hseen n Hn) as (x & Hx & <-). apply bytes_le_ne_lt; [by apply Hle|by apply Hne].
  - apply Forall_app. split.
    + apply Forall_forall. intros n Hn. pose proof (g_nodes _ _ Hg) as Hall. eapply Forall_forall in Hall; [|exact Hn].
      apply node_ok_snoc; [done|]. destruct (Hseen n Hn) as (x & Hx & <-). by apply Hne.
    + constructor; [|constructor]. unfold node_ok. cbn [n_row start count]. rewrite len_app. change (len [e]) with 1.
      split_and!; [done|done|lia|]. rewrite filter_app, filter_none, filter_cons_True, filter_nil;
        [|done|by apply Forall_forall].
      unfold len. rewrite Nat2Z.id, drop_app_length. done.
  - intros x [Hx|Hx]%elem_of_app.
    + destruct (g_rows _ _ Hg x Hx) as (n & Hn & ?). exists n. split; [apply elem_of_app; by left|done].
    + apply list_elem_of_singleton in Hx as ->. eexists. split; [apply elem_of_app; right; by left|done].
  - intros n. rewrite last_snoc. intros [= <-]. cbn. rewrite len_app. done.
  - intros n x. rewrite last_snoc. intros [= <-] [Hx|Hx]%elem_of_app; cbn; [by apply Hle|].
    apply list_elem_of_singleton in Hx as ->. by rewrite (cmp_refl bytes_Compare).
Qed.

(** The last node grows by an entry of its row. *)
Lemma grouped_same es ns n e :
  grouped es (ns ++ [n]) -> n_row n = e_row e -> grouped (es ++ [e]) (ns ++ [mkNode (n_row n) (start n) (count n + 1)]).
Proof.
  intros Hg Hrow. pose proof (g_last _ _ Hg n) as Hend. rewrite last_snoc in Hend. specialize (Hend eq_refl).
  pose proof (g_sorted _ _ Hg) as Hs. pose proof (StronglySorted_app_inv_r _ _ _ Hs) as Hlt.
  pose proof (g_nodes _ _ Hg) as Hn. apply Forall_app in Hn as [Hns Hn]. inversion Hn as [|? ? (H1 & H2 & H3 & H4) _]; subst.
  pose proof (StronglySorted_app_l _ _ _ Hs) as Hs'.
  split.
  - apply StronglySorted_snoc; [done|]. exact Hlt.
  - apply Forall_app. split.
    + apply Forall_forall. intros m Hm. eapply Forall_forall in Hns; [|exact Hm]. eapply Forall_forall in Hlt; [|exact Hm].
      apply node_ok_snoc; [done|]. rewrite <-Hrow. by apply bytes_lt_ne.
    + constructor; [|constructor]. unfold node_ok. cbn [n_row start count]. rewrite len_app. change (len [e]) with 1.
      split_and!; [done|lia|lia|]. rewrite filter_app, filter_cons_True by (by rewrite Hrow). rewrite filter_nil, <-H4.
      unfold len in *. rewrite drop_app_le by lia.
      replace (Z.to_nat (count n + 1)) with (length (drop (Z.to_nat (start n)) es) + 1)%nat by (rewrite length_drop; lia).
      rewrite take_app_add. f_equal. symmetry. apply take_ge. rewrite length_drop. lia.
  - intros x [Hx|Hx]%elem_of_app.
    + destruct (g_rows _ _ Hg x Hx) as (m & [Hm|Hm]%elem_of_app & Hr).
      * exists m. split; [apply elem_of_app; by left|done].
      * apply list_elem_of_singleton in Hm as ->. eexists. split; [apply elem_of_app; right; by left|done].
    + apply list_elem_of_singleton in Hx as ->. eexists. split; [apply elem_of_app; right; by left|done].
  - intros m. rewrite last_snoc. intros [= <-]. cbn. rewrite len_app. change (len [e]) with 1. lia.
  - intros m x. rewrite last_snoc. intros [= <-] [Hx|Hx]%elem_of_app; cbn.
    + apply (g_max _ _ Hg); [by rewrite last_snoc|done].
    + apply list_elem_of_singleton in Hx as ->. rewrite Hrow. by rewrite (cmp_refl bytes_Compare).
Qed.

Lemma grouped_extend es ns e :
  grouped es ns -> (forall x, x ∈ es -> row_le x e) -> len es < 2 ^ 31 - 1 -> grouped (es ++ [e]) (extend (len es) ns e).
Proof.
  intros Hg Hle Hlen. pose proof (len_nonneg es). unfold extend. rewrite int32_id by (unfold in_int32; lia).
  destruct (last ns) as [n|] eqn:El.
  - apply last_Some in El as [ns' ->]. unfold bytes_Equal. case_bool_decide as E; cbn [negb].
    + rewrite length_app, Nat.add_comm. cbn [length pred Nat.add]. rewrite take_app_length.
      pose proof (g_nodes _ _ Hg) as Hn. apply Forall_app in Hn as [_ Hn]. inversion Hn as [|? ? (H1 & H2 & H3 & H4) _]; subst.
      rewrite int32_id by (unfold in_int32; lia). by apply grouped_same.
    + apply grouped_new; [done| |done]. intros x Hx Ex. apply E.
      assert (bytes_Compare (e_row x) (n_row n) <> Gt) as H1 by (apply (g_max _ _ Hg); [by rewrite last_snoc|done]).
      destruct (node_row_seen es n) as (y & Hy & Ey).
      { pose proof (g_nodes _ _ Hg) as Hn. apply Forall_app in Hn as [_ Hn]. by inversion Hn. }
      pose proof (Hle y Hy) as H2. unfold row_le in H2. rewrite Ey, <-Ex in H2. rewrite <-Ex.
      rewrite (cmp_antisym bytes_Compare (n_row n) (e_row x)) in H1.
      destruct (bytes_Compare (n_row n) (e_row x)) eqn:Ec; [by apply (cmp_eq bytes_Compare)|done|done].
  - apply last_None in El as ->. apply (grouped_new es []); [done| |done].
    intros x Hx. destruct (g_rows _ _ Hg x Hx) as (n & Hn & _). by apply elem_of_nil in Hn.
Qed.

Lemma group_grouped es done_ ns :
  StronglySorted (not_less entry_less) (done_ ++ es) -> grouped done_ ns -> len (done_ ++ es) < 2 ^ 31 ->
  grouped (done_ ++ es) (group (len done_) ns es).
Proof.
  revert done_ ns. induction es as [|e es IH]; intros done_ ns Hs Hg Hl; [by rewrite app_nil_r|].
  rewrite group_cons. replace (done_ ++ e :: es) with ((done_ ++ [e]) ++ es) in * by (by rewrite <-(assoc_L (++))).
  replace (len done_ + 1) with (len (done_ ++ [e])) by (by rewrite len_app).
  apply IH; [done| |done]. apply grouped_extend; [done| |].
  - apply StronglySorted_app_l in Hs. intros x Hx. apply not_less_row_le.
    pose proof (StronglySorted_app_inv_r _ _ _ Hs) as Hall. by eapply Forall_forall in Hall.
  - rewrite !len_app in Hl. change (len [e]) with 1 in Hl. pose proof (len_nonneg es). lia.
Qed.

(** ** Looking a row up *)

Lemma Search_sorted_node ns j n row :
  StronglySorted node_lt ns -> ns !! j = Some n -> n_row n = row ->
  Search (length ns) (fun i => match ns !! i with Some n => negb (is_lt (bytes_Compare (n_row n) row)) | None => false end) = j.
Proof.
  intros Hs Hj Hrow. set (f := fun i => _). destruct (Search_ok f (length ns)) as (Hk & Hb & Ha).
  set (k := Search (length ns) f) in *. pose proof (lookup_lt_Some _ _ _ Hj) as Hlt.
  destruct (Nat.lt_trichotomy k j) as [Hlt'|[->|Hlt']]; [|done|].
  - destruct Ha as [->|Ha]; [lia|]. unfold f in Ha. destruct (ns !! k) as [m|] eqn:Ek; [|done].
    pose proof (StronglySorted_lookup _ _ k j m n Hs Ek Hj Hlt') as H. unfold node_lt in H. rewrite Hrow in H. by rewrite H in Ha.
  - destruct Hb as [->|Hb]; [lia|]. unfold f in Hb. destruct (lookup_lt_is_Some_2 ns (pred k) ltac:(lia)) as [m Em].
    rewrite Em in Hb. destruct (Nat.eq_dec (pred k) j) as [<-|Hne].
    + assert (m = n) as -> by congruence. rewrite Hrow, (cmp_refl bytes_Compare) in Hb. done.
    + pose proof (StronglySorted_lookup _ _ j (pred k) n m Hs Hj Em ltac:(lia)) as H. unfold node_lt in H.
      rewrite Hrow in H. rewrite (cmp_antisym bytes_Compare row (n_row m)), H in Hb. done.
Qed.

Lemma slice_ok {A} (s : list A) low high :
  0 <= low <= high -> high <= len s -> slice s low high = Ok (take (Z.to_nat (high - low)) (drop (Z.to_nat low) s)).
Proof. intros. unfold slice. by replace ((0 <=? low) && (low <=? high) && (high <=? len s)) with true by lia. Qed.

Lemma Neighbors_grouped cf es ns row :
  grouped es ns -> len es < 2 ^ 31 ->
  Neighbors (mkIndex cf ns (edge <$> es)) row = Ok (edge <$> filter (row_is row) es).
Proof.
  intros Hg Hl. unfold Neighbors. cbn [nodes targets]. destruct (filter (row_is row) es) as [|e l] eqn:E.
  - destruct (ns !! _) as [n|] eqn:En; [|done]. unfold bytes_Equal. rewrite bool_decide_eq_false_2; [done|]. intros Hrow.
    apply list_elem_of_lookup_2 in En. pose proof (g_nodes _ _ Hg) as Hall. eapply Forall_forall in Hall; [|exact En].
    destruct (node_row_seen es n Hall) as (x & Hx & Ex).
    assert (x ∈ filter (row_is row) es) as Hin by (apply list_elem_of_filter; split; [congruence|done]).
    rewrite E in Hin. by apply elem_of_nil in Hin.
  - assert (e_row e = row /\ e ∈ es) as [He Hin] by (apply (list_elem_of_filter (row_is row) es e); rewrite E; by left).
    destruct (g_rows _ _ Hg e Hin) as (n & Hn & Hrow). rewrite He in Hrow. apply list_elem_of_lookup in Hn as [j Hj].
    rewrite (Search_sorted_node ns j n row (g_sorted _ _ Hg) Hj Hrow), Hj. unfold bytes_Equal.
    rewrite bool_decide_eq_true_2 by done. cbn [negb].
    pose proof (g_nodes _ _ Hg) as Hall. eapply Forall_lookup_1 in Hall as (H1 & H2 & H3 & H4); [|exact Hj].
    rewrite int32_id by (unfold in_int32; lia). rewrite slice_ok by (unfold len in *; rewrite ?length_fmap; lia).
    replace (start n + count n - start n) with (count n) by lia. rewrite <-E, <-Hrow, <-H4.
    by rewrite fmap_take, fmap_drop.
Qed.

(** ** Round trip of the wire form *)

Definition edge_ok (e : Edge) : Prop :=
  len (CQ e) < 2 ^ 31 /\ len (Value e) < 2 ^ 31 /\ in_int64 (e_Timestamp e) /\ len (Vis e) < 2 ^ 31.
Definition node_wire_ok (n : node) : Prop :=
  len (n_row n) < 2 ^ 31 /\ 0 <= start n < 2 ^ 31 /\ 0 <= count n < 2 ^ 31.
Definition index_ok (ix : Index) : Prop :=
  len (EdgeCF ix) < 2 ^ 31 /\ len (nodes ix) < 2 ^ 31 /\ Forall node_wire_ok (nodes ix) /\
  len (targets ix) < 2 ^ 31 /\ Forall edge_ok (targets ix) /\ forallb (node_in_range (targets ix)) (nodes ix) = true.

Lemma reads_bytes b : len b < 2 ^ 31 -> reads readBytes (writeBytes b) b.
Proof.
  intros Hb. pose proof (len_nonneg b). destruct (len_int32 b Hb) as [E Hin]. unfold readBytes, writeBytes. rewrite E.
  eapply reads_bind; [apply parses_reads, ReadVInt_WriteVInt, Hin|]. cbv beta iota.
  replace (len b <? 0) with false by lia. by apply parses_reads, parses_ReadFull.
Qed.

Lemma reads_edge e : edge_ok e -> reads readEdge (writeEdge e) e.
Proof.
  intros (H1 & H2 & H3 & H4). unfold readEdge, writeEdge.
  eapply reads_bind; [by apply reads_wrap, reads_bytes|].
  eapply reads_bind; [by apply reads_wrap, reads_bytes|].
  eapply reads_bind; [by apply reads_wrap, parses_reads, parses_ReadInt64|].
  eapply reads_bind; [apply reads_wrap, parses_reads, parses_ReadBool|]. apply reads_app_nil.
  eapply reads_bind; [by apply reads_wrap, reads_bytes|]. by destruct e.
Qed.

Lemma reads_node n : node_wire_ok n -> reads readNode (writeNode n) n.
Proof.
  intros (H1 & H2 & H3). unfold readNode, writeNode.
  eapply reads_bind; [by apply reads_wrap, reads_bytes|].
  eapply reads_bind; [apply reads_wrap, parses_reads, parses_ReadInt32; unfold in_int32; lia|]. apply reads_app_nil.
  eapply reads_bind; [apply reads_wrap, parses_reads, parses_ReadInt32; unfold in_int32; lia|].
  replace ((start n <? 0) || (count n <? 0)) with false by lia. by destruct n.
Qed.

Lemma reads_adjacency ix : index_ok ix -> reads Parse (Write ix) ix.
Proof.
  intros (H1 & H2 & H3 & H4 & H5 & H6). destruct ix as [cf ns ts]. cbn [EdgeCF nodes targets] in *. unfold Parse, Write.
  cbn [EdgeCF nodes targets]. pose proof (len_nonneg ns). pose proof (len_nonneg ts).
  destruct (len_int32 ns H2) as [-> Hn]. destruct (len_int32 ts H4) as [-> Ht].
  eapply reads_bind; [by apply reads_wrap, parses_reads, parses_ReadInt32|].
  replace (negb (Magic =? Magic)) with false by reflexivity.
  eapply reads_bind; [by apply reads_wrap, parses_reads, parses_ReadInt32|].
  replace (negb (V1 =? V1)) with false by reflexivity.
  eapply reads_bind; [by apply reads_wrap, reads_bytes|].
  eapply reads_bind; [by apply reads_wrap, parses_reads, parses_ReadInt32|].
  replace (len ns <? 0) with false by lia. replace (Z.to_nat (len ns)) with (length ns) by (unfold len; lia).
  eapply reads_bind; [apply reads_read_n; intros n Hin; apply reads_node; by eapply Forall_forall in H3|].
  eapply reads_bind; [by apply reads_wrap, parses_reads, parses_ReadInt32|].
  replace (len ts <? 0) with false by lia. replace (Z.to_nat (len ts)) with (length ts) by (unfold len; lia).
  apply reads_app_nil.
  eapply reads_bind; [apply reads_read_n; intros e Hin; apply reads_wrap, reads_edge; by eapply Forall_forall in H5|].
  rewrite H6. apply reads_ret.
Qed.

(** What the writer can add. *)
Definition entry_ok (e : entry) : Prop := len (e_row e) < 2 ^ 31 /\ edge_ok (edge e).

Lemma Build_sorted cf es :
  es <> [] -> len es < 2 ^ 31 ->
  exists ns, (Build (mkBuilder cf es)).2 = Some (mkIndex cf ns (edge <$> SliceStable entry_less es)) /\
    grouped (SliceStable entry_less es) ns.
Proof.
  intros Hne Hl. eexists. split; [by destruct es|].
  apply (group_grouped (SliceStable entry_less es) [] []).
  - apply SliceStable_sorted; [apply entry_less_irr|apply entry_less_trans|apply entry_less_neg].
  - split; [constructor|constructor|by intros ? ?%elem_of_nil|done|done].
  - rewrite app_nil_l. unfold len in *. by rewrite SliceStable_perm.
Qed.

Lemma grouped_length es ns : grouped es ns -> (length ns <= length es)%nat.
Proof.
  intros Hg. assert (length (n_row <$> ns) <= length (e_row <$> es))%nat as H; [|by rewrite !length_fmap in H].
  apply submseteq_length, NoDup_submseteq.
  - pose proof (g_sorted _ _ Hg) as Hs. clear Hg. induction Hs as [|n ns Hs IH Hn]; [constructor|]. rewrite fmap_cons.
    constructor; [|done]. intros (m & E & Hm)%list_elem_of_fmap. eapply Forall_forall in Hn; [|exact Hm].
    unfold node_lt in Hn. rewrite E, (cmp_refl bytes_Compare) in Hn. done.
  - intros r (n & -> & Hn)%list_elem_of_fmap. pose proof (g_nodes _ _ Hg) as Hall. eapply Forall_forall in Hall; [|exact Hn].
    destruct (node_row_seen es n Hall) as (e & He & <-). apply list_elem_of_fmap. by exists e.
Qed.

Lemma built_index_ok cf es ns :
  grouped es ns -> len es < 2 ^ 31 -> len cf < 2 ^ 31 -> Forall entry_ok es -> index_ok (mkIndex cf ns (edge <$> es)).
Proof.
  intros Hg Hl Hcf Hes. pose proof (grouped_length es ns Hg). unfold index_ok. cbn [EdgeCF nodes targets].
  unfold len in *. rewrite length_fmap. split_and!; [done|lia| |done| |].
  - apply Forall_forall. intros n Hn. pose proof (g_nodes _ _ Hg) as Hall. eapply Forall_forall in Hall; [|exact Hn].
    destruct (node_row_seen es n Hall) as (e & He & Er). eapply Forall_forall in Hes as [Hes _]; [|exact He].
    destruct Hall as (H1 & H2 & H3 & _). unfold node_wire_ok, len in *. rewrite <-Er. split_and!; lia.
  - apply Forall_fmap. eapply Forall_impl; [exact Hes|]. intros e He. apply He.
  - apply forallb_forall. intros n Hn%list_elem_of_In. pose proof (g_nodes _ _ Hg) as Hall. eapply Forall_forall in Hall; [|exact Hn].
    destruct Hall as (H1 & H2 & H3 & _). unfold node_in_range, len in *. rewrite length_fmap. lia.
Qed.

(** ** A parsed index is safe to search *)

Lemma read_n_ok {A} (p : reader A) (P : A -> Prop) n s xs s' :
  (forall s x s', p s = Ok (x, s') -> P x) -> read_n p n s = Ok (xs, s') -> Forall P xs /\ length xs = n.
Proof.
  intros Hp. revert s xs s'. induction n as [|n IH]; intros s xs s'; cbn [read_n].
  { intros [= <- <-]. by split. }
  unfold mbind, reader_bind. destruct (p s) as [[x s1]|] eqn:Ex; [|done].
  destruct (read_n p n s1) as [[ys s2]|] eqn:Ey; [|done]. intros [= <- <-].
  destruct (IH _ _ _ Ey) as [Hall Hl]. split; [constructor; [by eapply Hp|done]|cbn; lia].
Qed.

Lemma readNode_nonneg s n s' : readNode s = Ok (n, s') -> 0 <= start n /\ 0 <= count n.
Proof.
  unfold readNode, mbind, reader_bind, rwrap, wrap. intros H.
  repeat (case_match; try discriminate). injection H as <- <-. cbn.
  match goal with E : _ || _ = false |- _ => apply orb_false_iff in E end. lia.
Qed.

Lemma ReadInt32_range s n s' : ReadInt32 s = Ok (n, s') -> in_int32 n.
Proof.
  unfold ReadInt32, mbind, reader_bind, rwrap. destruct (wrap _ (ReadFull 4 s)) as [[b s1]|]; [|by intros].
  intros [= <- <-]. apply int32_range.
Qed.

(** Every node of a parsed index has a range inside the targets. *)
Lemma Parse_ranges s ix s' :
  Parse s = Ok (ix, s') ->
  len (targets ix) < 2 ^ 31 /\
  Forall (fun n => 0 <= start n /\ 0 <= count n /\ start n + count n <= len (targets ix)) (nodes ix).
Proof.
  unfold Parse, mbind, reader_bind, rwrap. intros H.
  destruct (wrap _ (ReadInt32 s)) as [[m s1]|]; [|done]. destruct (negb (m =? Magic)); [done|].
  destruct (wrap _ (ReadInt32 s1)) as [[v s2]|]; [|done]. destruct (negb (v =? V1)); [done|].
  destruct (wrap _ (readBytes s2)) as [[cf s3]|]; [|done].
  destruct (wrap _ (ReadInt32 s3)) as [[n s4]|]; [|done]. destruct (n <? 0); [done|].
  destruct (read_n readNode _ s4) as [[ns s5]|] eqn:En; [|done].
  destruct (ReadInt32 s5) as [[t s6]|] eqn:Et; cbn [wrap] in H; [|done]. destruct (Z.ltb_spec t 0); [done|].
  destruct (read_n _ _ s6) as [[ts s7]|] eqn:Ets; [|done].
  destruct (forallb _ ns) eqn:Ef; [|done]. injection H as <- <-. cbn [targets nodes].
  apply read_n_ok with (P := fun n => 0 <= start n /\ 0 <= count n) in En as [Hns _]; [|apply readNode_nonneg].
  apply read_n_ok with (P := fun _ => True) in Ets as [_ Hl]; [|done]. apply ReadInt32_range in Et.
  split; [unfold len; unfold in_int32 in Et; lia|]. apply Forall_forall. intros x Hx.
  eapply Forall_forall in Hns; [|exact Hx]. rewrite forallb_forall in Ef.
  specialize (Ef x ltac:(by apply list_elem_of_In)). unfold node_in_range in Ef. lia.
Qed.

(** ** Properties *)

Definition cq_less (x y : entry) : bool := is_lt (bytes_Compare (CQ (edge x)) (CQ (edge y))).

(** The edges of a row in the order the index keeps them. *)
Definition row_edges (row : bytes) (es : list entry) : list Edge :=
  edge <$> SliceStable cq_less (filter (row_is row) es).

Lemma sorted_row_edges row es :
  filter (row_is row) (SliceStable entry_less es) = SliceStable cq_less (filter (row_is row) es).
Proof.
  rewrite (filter_SliceStable entry_less entry_less_irr entry_less_trans entry_less_neg).
  apply SliceStable_ext. intros x y [Hx _]%list_elem_of_filter [Hy _]%list_elem_of_filter.
  unfold entry_less, cq_less. by rewrite Hx, Hy, (cmp_refl bytes_Compare).
Qed.

(** The out-edge index answers exactly the edges of a row.  Whatever
    edges the writer adds, in whatever order, the index it builds is read
    back unchanged, and looking a row up returns the row's edges, all of
    them, ordered by qualifier with ties in the order they were added; a row
    without edges has none. *)
Theorem adjacency_neighbors cf es :
  es <> [] -> len es < 2 ^ 31 -> len cf < 2 ^ 31 -> Forall entry_ok es ->
  exists ix, (Build (mkBuilder cf es)).2 = Some ix /\
    (forall rest, Parse (Write ix ++ rest) = Ok (ix, rest)) /\
    forall row, Neighbors ix row = Ok (row_edges row es).
Proof.
  intros Hne Hl Hcf Hes. destruct (Build_sorted cf es Hne Hl) as (ns & Hb & Hg). eexists. split; [exact Hb|].
  assert (len (SliceStable entry_less es) < 2 ^ 31) as Hl' by (unfold len in *; by rewrite SliceStable_perm). split.
  - apply reads_adjacency, built_index_ok; [done|done|done|]. by rewrite SliceStable_perm.
  - intros row. rewrite Neighbors_grouped by done. by rewrite sorted_row_edges.
Qed.

Definition demo_adj (row cq : Z) (ts : Z) : entry := mkAdjEntry [row] (mkEdge [cq] [7] ts false []).
Definition demo_entries : list entry := [demo_adj 98 122 1; demo_adj 97 120 2; demo_adj 98 121 3; demo_adj 98 122 4].

Lemma adjacency_neighbors_witness :
  exists ix, (Build (mkBuilder [101] demo_entries)).2 = Some ix /\
    (forall rest, Parse (Write ix ++ rest) = Ok (ix, rest)) /\
    Neighbors ix [98] = Ok [edge (demo_adj 98 121 3); edge (demo_adj 98 122 1); edge (demo_adj 98 122 4)] /\
    Neighbors ix [99] = Ok [].
Proof.
  destruct (adjacency_neighbors [101] demo_entries) as (ix & H1 & H2 & H3).
  - done.
  - reflexivity.
  - reflexivity.
  - repeat constructor; vm_compute; try done; intros; congruence.
  - exists ix. split; [exact H1|]. split; [exact H2|]. split; [exact (H3 [98])|exact (H3 [99])].
Defined.

(** C39: a parsed index never panics.  Whatever bytes [Parse] accepts, looking
    any row up in the result succeeds: the ranges were checked against the
    edges, and their ends do not overflow. *)
Theorem parsed_adjacency_is_safe s ix s' row :
  Parse s = Ok (ix, s') -> exists es, Neighbors ix row = Ok es.
Proof.
  intros Hp. destruct (Parse_ranges s ix s' Hp) as [Hl Hall]. unfold Neighbors. destruct (nodes ix !! _) as [n|] eqn:En; [|eauto].
  destruct (negb _); [eauto|]. eapply Forall_lookup_1 in Hall as (H1 & H2 & H3); [|exact En].
  rewrite int32_id by (unfold in_int32; lia). rewrite slice_ok by lia. eauto.
Qed.

Lemma parsed_adjacency_is_safe_witness :
  let s := Write (mkIndex [101] [mkNode [98] 0 1] [edge (demo_adj 98 121 3)]) in
  exists ix s', Parse s = Ok (ix, s') /\ exists es, Neighbors ix [98] = Ok es.
Proof.
  eexists _, _. split; [vm_compute; reflexivity|].
  eapply (parsed_adjacency_is_safe (Write (mkIndex [101] [mkNode [98] 0 1] [edge (demo_adj 98 121 3)]))).
  vm_compute; reflexivity.
Defined.
