(* ===== verification/IndexFile.v ===== *)
(** * IndexFile: the RFile.index meta block (src/internal/rfile/index)

    The directory of a file over its index blocks: locality groups
    (localitygroup.go), the whole meta block with its version-dependent tail
    (reader.go), and the sampler configuration with its strings in Java's
    modified UTF-8 (sampler.go).  A Go map is written in the order its
    iteration happens to take, [order] below, any permutation of the map. *)

From S2P Require Import Prelude Wire Utf8 BCFile Index.

Definition maxLocalityGroups : Z := Z.shiftl 1 12.
Definition maxColumnFamilies : Z := Z.shiftl 1 16.
Definition maxSamplerOptions : Z := Z.shiftl 1 16.

Definition RIndexMagic : Z := 0x20637474.
Definition IsSupportedVersion (ver : Z) : bool :=
  (ver =? V3) || (ver =? V4) || (ver =? V6) || (ver =? V7) || (ver =? V8).
Definition hasStartBlock (ver : Z) : bool := (ver =? V3) || (ver =? V4) || (ver =? V6) || (ver =? V7).

Definition ErrBadMagic : err := Fail "rfile/index: not an RFile.index block (magic mismatch)".
Definition ErrCorruptColumnFamilies : err := Fail "rfile/index: corrupt column-families table".
Definition ErrCorruptSamplerConfiguration : err := Fail "rfile/index: corrupt sampler configuration".

(** ** Locality groups (localitygroup.go) *)

Record LocalityGroup := mkLG {
  IsDefault : bool;
  lg_Name : bytes;
  StartBlock : Z;
  ColumnFamilies : option (gmap bytes Z);
  FirstKey : option Key;
  NumTotalEntries : Z;
  RootIndex : IndexBlock;
}.

Definition corrupt_families {A} (p : reader A) : reader A := rwrap "rfile/index: corrupt column-families table" p.

Definition read_family : reader (bytes * Z) :=
  cfLen ← rwrap "LG cf length" ReadInt32;
  if cfLen <? 0 then rfail (Wrap "cf negative length" ErrCorruptColumnFamilies)
  else
    _ ← corrupt_families (validateDecodedLength cfLen maxIndexDataBytes 8);
    cfBytes ← rwrap "LG cf body" (ReadFull cfLen);
    count ← rwrap "LG cf count" ReadInt64;
    if count <? 0 then rfail (Wrap "cf negative count" ErrCorruptColumnFamilies) else mret (cfBytes, count).

(** A family listed twice keeps its last count. *)
Fixpoint read_families (n : nat) (m : gmap bytes Z) : reader (gmap bytes Z) :=
  match n with
  | O => mret m
  | S n => '(cf, count) ← read_family; read_families n (<[cf := count]> m)
  end.

(** nil for the count -1 of a default group. *)
Definition read_cf_table (isDefault : bool) : reader (option (gmap bytes Z)) :=
  cfCount ← rwrap "LG cfCount" ReadInt32;
  if cfCount =? -1 then
    if negb isDefault then rfail (Wrap "cfCount=-1 on non-default LG" ErrCorruptColumnFamilies) else mret None
  else if cfCount <? 0 then rfail (Wrap "negative cfCount" ErrCorruptColumnFamilies)
  else
    _ ← corrupt_families (validateDecodedCount cfCount maxColumnFamilies 12 0);
    m ← read_families (Z.to_nat cfCount) ∅;
    mret (Some m).

Definition ReadLocalityGroup (ver : Z) : reader LocalityGroup :=
  isDefault ← rwrap "LG isDefault" ReadBool;
  name ← (if negb isDefault then rwrap "LG name" ReadUTF else mret []);
  startBlock ← (if hasStartBlock ver then rwrap "LG startBlock" ReadInt32 else mret 0);
  families ← read_cf_table isDefault;
  hasFirstKey ← rwrap "LG hasFirstKey" ReadBool;
  firstKey ← (if hasFirstKey : bool then k ← rwrap "LG firstKey" ReadKey; mret (Some k) else mret None);
  size ← (if hasMultiLevelIndex ver then
            size ← rwrap "LG MLI size" ReadInt32;
            if size <? 0 then rfail (Fail "LG MLI: negative total-entry count") else mret size
          else mret 0);
  root ← rwrap "LG root IndexBlock" (ReadIndexBlock ver);
  mret (mkLG isDefault name startBlock families firstKey
    (if negb (hasMultiLevelIndex ver) then int32 (Z.of_nat (block_Len root)) else size) root).

(** ** The sampler configuration (sampler.go) *)

Definition samplerConfigurationVersion : Z := 1.

Record SamplerConfiguration := mkSampler { sc_Version : Z; ClassName : bytes; Options : gmap bytes bytes }.

(** The UTF-16 code units of a modified UTF-8 body. *)
Fixpoint code_units (body : bytes) : result (list Z) :=
  match body with
  | [] => Ok []
  | first :: body =>
      if Z.land first 0x80 =? 0 then
        if first =? 0 then Err (Fail "modified UTF: NUL must use the two-byte encoding")
        else units ← code_units body; Ok (first :: units)
      else if Z.land first 0xe0 =? 0xc0 then
        match body with
        | [] => Err (Fail "modified UTF: truncated two-byte sequence")
        | second :: body =>
            if negb (Z.land second 0xc0 =? 0x80) then Err (Fail "modified UTF: invalid continuation byte")
            else
              let value := Z.lor (Z.shiftl (Z.land first 0x1f) 6) (Z.land second 0x3f) in
              if (value <? 0x80) && negb (value =? 0) then Err (Fail "modified UTF: overlong two-byte sequence")
              else if (value =? 0) && (negb (first =? 0xc0) || negb (second =? 0x80)) then
                Err (Fail "modified UTF: invalid NUL encoding")
              else units ← code_units body; Ok (value :: units)
        end
      else if Z.land first 0xf0 =? 0xe0 then
        match body with
        | second :: third :: body =>
            if negb (Z.land second 0xc0 =? 0x80) then Err (Fail "modified UTF: invalid continuation byte")
            else if negb (Z.land third 0xc0 =? 0x80) then Err (Fail "modified UTF: invalid continuation byte")
            else
              let value := Z.lor (Z.lor (Z.shiftl (Z.land first 0x0f) 12) (Z.shiftl (Z.land second 0x3f) 6))
                             (Z.land third 0x3f) in
              if value <? 0x800 then Err (Fail "modified UTF: overlong three-byte sequence")
              else units ← code_units body; Ok (value :: units)
        | _ => Err (Fail "modified UTF: truncated three-byte sequence")
        end
      else Err (Fail "modified UTF: invalid leading byte")
  end.

Definition appendWTF8CodeUnit (unit_ : Z) : bytes :=
  [Z.lor 0xe0 (uint8 (Z.shiftr unit_ 12)); Z.lor 0x80 (Z.land (uint8 (Z.shiftr unit_ 6)) 0x3f);
   Z.lor 0x80 (Z.land (uint8 unit_) 0x3f)].

(** Surrogate pairs become one rune; a lone surrogate keeps its three bytes. *)
Fixpoint decode_units (units : list Z) : bytes :=
  match units with
  | [] => []
  | u :: units =>
      if in_range 0xd800 0xdbff u then
        match units with
        | v :: units' =>
            if in_range 0xdc00 0xdfff v then EncodeRune (utf16_DecodeRune u v) ++ decode_units units'
            else appendWTF8CodeUnit u ++ decode_units units
        | [] => appendWTF8CodeUnit u
        end
      else if in_range 0xdc00 0xdfff u then appendWTF8CodeUnit u ++ decode_units units
      else EncodeRune u ++ decode_units units
  end.

Definition decodeModifiedUTF (body : bytes) : result bytes :=
  units ← code_units body; Ok (decode_units units).

Definition readModifiedUTF : reader bytes :=
  lengthBytes ← rwrap "modified UTF length" (ReadFull 2);
  let length_ := be_get lengthBytes in
  remaining ← Len;
  if length_ >? remaining then rfail (Fail "modified UTF body length exceeds remaining bytes")
  else
    body ← rwrap "modified UTF body" (ReadFull length_);
    rlift (decodeModifiedUTF body).

Definition corrupt_sampler {A} (p : reader A) : reader A := rwrap "rfile/index: corrupt sampler configuration" p.

Fixpoint read_options (n : nat) (options : gmap bytes bytes) : reader (gmap bytes bytes) :=
  match n with
  | O => mret options
  | S n =>
      key ← corrupt_sampler readModifiedUTF;
      match options !! key with
      | Some _ => rfail (Wrap "duplicate option key" ErrCorruptSamplerConfiguration)
      | None =>
          value ← corrupt_sampler readModifiedUTF;
          read_options n (<[key := value]> options)
      end
  end.

Definition readSamplerConfiguration : reader SamplerConfiguration :=
  version ← corrupt_sampler ReadByte;
  if negb (version =? samplerConfigurationVersion) then
    rfail (Wrap "unsupported version" ErrCorruptSamplerConfiguration)
  else
    className ← corrupt_sampler readModifiedUTF;
    optionCount ← corrupt_sampler ReadInt32;
    _ ← corrupt_sampler (validateDecodedCount optionCount maxSamplerOptions 4 0);
    options ← read_options (Z.to_nat optionCount) ∅;
    mret (mkSampler version className options).

(** ** The meta block (reader.go) *)

(** A nil list of sample groups is an empty one to every caller.  The vector
    extension is the bytes it preserves. *)
Record Reader := mkReader {
  Version : Z;
  Groups : list LocalityGroup;
  SampleGroups : list LocalityGroup;
  Sampler : option SamplerConfiguration;
  VectorExtension : option bytes;
}.

(** [raw[len(raw)-r.Len():]], which does not move the reader. *)
Definition Rest : reader bytes := fun s => Ok (s, s).

(** Absent at the end of the input. *)
Definition readOptionalBool : reader bool :=
  n ← Len;
  if n =? 0 then mret false else rwrap "RFile.index optional flag" ReadBool.

Definition readV8Tail (version : Z) (groups : list LocalityGroup) (groupCount : Z) : reader Reader :=
  hasSamples ← readOptionalBool;
  '(samples, sampler) ← (if hasSamples : bool then
      samples ← read_n (rwrap "RFile.index sample group" (ReadLocalityGroup V8)) (Z.to_nat groupCount);
      sampler ← rwrap "RFile.index sampler configuration" readSamplerConfiguration;
      mret (samples, Some sampler)
    else mret ([], None));
  hasVector ← readOptionalBool;
  if hasVector : bool then
    remaining ← Rest; mret (mkReader version groups samples sampler (Some remaining))
  else
    n ← Len;
    if negb (n =? 0) then rfail (Fail "RFile.index: trailing bytes after v8 optional flags")
    else mret (mkReader version groups samples sampler None).

Definition parse_raw : reader Reader :=
  magic ← rwrap "RFile.index magic" ReadInt32;
  if negb (magic =? RIndexMagic) then rfail (Wrap "got another magic" ErrBadMagic)
  else
    version ← rwrap "RFile.index version" ReadInt32;
    if negb (IsSupportedVersion version) then rfail (Wrap "version" Index.ErrUnsupportedVersion)
    else
      groupCount ← rwrap "RFile.index group count" ReadInt32;
      if groupCount <? 0 then rfail (Fail "RFile.index: negative group count")
      else
        _ ← validateDecodedCount groupCount maxLocalityGroups 1 0;
        groups ← read_n (rwrap "RFile.index group" (ReadLocalityGroup version)) (Z.to_nat groupCount);
        if version =? V8 then readV8Tail version groups groupCount
        else mret (mkReader version groups [] None None).

Definition Parse (raw : bytes) : result Reader :=
  '(r, _) ← parse_raw raw; Ok r.

(** ** Writing a locality group *)

Lemma WriteInt32_len n : len (WriteInt32 n) = 4.
Proof. unfold WriteInt32, len. by rewrite be_put_length. Qed.
Lemma WriteInt64_len n : len (WriteInt64 n) = 8.
Proof. unfold WriteInt64, len. by rewrite be_put_length. Qed.

Section write.
(** The order a map's iteration takes. *)
Context (order : gmap bytes Z -> list (bytes * Z)).

Definition write_family (f : bytes * Z) : bytes :=
  WriteInt32 (int32 (len f.1)) ++ f.1 ++ WriteInt64 f.2.

Definition write_cf_table (families : option (gmap bytes Z)) : bytes :=
  match families with
  | None => WriteInt32 (-1)
  | Some m => WriteInt32 (int32 (Z.of_nat (size m))) ++ concat (write_family <$> order m)
  end.

Definition WriteLocalityGroup (lg : LocalityGroup) (ver : Z) : result bytes :=
  name ← (if negb (IsDefault lg) then WriteUTF (lg_Name lg) else Ok []);
  Ok (WriteBool (IsDefault lg) ++ name ++
      (if hasStartBlock ver then WriteInt32 (StartBlock lg) else []) ++
      write_cf_table (ColumnFamilies lg) ++
      WriteBool (match FirstKey lg with Some _ => true | None => false end) ++
      match FirstKey lg with Some k => WriteKey k | None => [] end ++
      (if hasMultiLevelIndex ver then WriteInt32 (NumTotalEntries lg) else []) ++
      WriteIndexBlock (RootIndex lg)).

(** ** Round trip *)

Definition order_ok : Prop := forall m, order m ≡ₚ map_to_list m.
Context (Horder : order_ok).

Definition families_ok (m : gmap bytes Z) : Prop :=
  Z.of_nat (size m) <= maxColumnFamilies /\
  map_Forall (fun cf n => len cf <= maxIndexDataBytes /\ 0 <= n < 2 ^ 63) m.

Lemma reads_family f : len f.1 <= maxIndexDataBytes -> 0 <= f.2 < 2 ^ 63 -> reads read_family (write_family f) f.
Proof.
  intros H1 H2 rest. change maxIndexDataBytes with 67108864 in *. pose proof (len_nonneg f.1). destruct f as [cf n]. cbn [fst snd] in *.
  unfold read_family, write_family. cbn [fst snd]. rewrite int32_id by (unfold in_int32; lia).
  rewrite <-!(assoc_L (++)).
  erewrite read_bind by (apply (reads_wrap _ _ _ (len cf)), parses_reads, parses_ReadInt32; unfold in_int32; lia).
  replace (len cf <? 0) with false by lia. unfold corrupt_families.
  assert (validateDecodedLength (len cf) maxIndexDataBytes 8 (cf ++ WriteInt64 n ++ rest) = Ok (tt, cf ++ WriteInt64 n ++ rest)) as E.
  { unfold validateDecodedLength. change maxIndexDataBytes with 67108864.
    replace (len cf <? 0) with false by lia. replace (len cf >? 67108864) with false by lia.
    unfold mbind, reader_bind, Len. rewrite !len_app, WriteInt64_len.
    pose proof (len_nonneg rest). by replace ((_ <? 0) || (_ >? _)) with false by lia. }
  erewrite read_bind by (unfold rwrap; rewrite E; reflexivity).
  erewrite read_bind by (apply (reads_wrap _ _ _ cf), parses_reads, parses_ReadFull; done).
  erewrite read_bind by (apply (reads_wrap _ _ _ n), parses_reads, parses_ReadInt64; unfold in_int64; lia).
  by replace (n <? 0) with false by lia.
Qed.

Lemma reads_families fs m :
  NoDup fs.*1 -> (forall f, f ∈ fs -> m !! f.1 = None) ->
  Forall (fun f : bytes * Z => len f.1 <= maxIndexDataBytes /\ 0 <= f.2 < 2 ^ 63) fs ->
  reads (read_families (length fs) m) (concat (write_family <$> fs)) (list_to_map fs ∪ m).
Proof.
  revert m. induction fs as [|[cf n] fs IH]; intros m Hnd Hm Hf.
  { cbn. rewrite (left_id_L ∅ (∪)). apply reads_ret. }
  apply Forall_cons in Hf as [Hf Hfs]. rewrite fmap_cons in Hnd. apply NoDup_cons in Hnd as [Hn Hnd].
  rewrite fmap_cons. cbn [length read_families concat list_to_map foldr].
  eapply reads_bind; [apply reads_family; apply Hf|]. cbn [fst snd uncurry].
  replace (<[cf:=n]> (list_to_map fs) ∪ m) with (list_to_map fs ∪ <[cf:=n]> m : gmap bytes Z).
  - apply IH; [done| |done]. intros f Hf'. rewrite lookup_insert_ne; [apply Hm; by right|].
    intros ->. apply Hn. apply list_elem_of_fmap. by exists f.
  - assert ((list_to_map fs : gmap bytes Z) !! cf = None) as Hnone by (by apply not_elem_of_list_to_map_1).
    by rewrite <-insert_union_r, insert_union_l.
Qed.

Lemma write_families_len m : Z.of_nat (size m) * 12 <= len (concat (write_family <$> order m)).
Proof.
  rewrite <-(length_map_to_list (M := gmap bytes)), <-(Permutation_length (Horder m)).
  induction (order m) as [|f fs IH]; [done|]. rewrite fmap_cons. cbn [concat length].
  rewrite len_app. unfold write_family at 1. rewrite !len_app, WriteInt32_len, WriteInt64_len. pose proof (len_nonneg f.1). lia.
Qed.

Lemma reads_cf_table families isDefault :
  match families with Some m => families_ok m | None => isDefault = true end ->
  reads (read_cf_table isDefault) (write_cf_table families) families.
Proof.
  intros Hok rest. unfold read_cf_table, write_cf_table. destruct families as [m|].
  2: { erewrite read_bind by (apply (reads_wrap _ _ _ (-1)), parses_reads, parses_ReadInt32; by vm_compute).
       cbn [Z.eqb Pos.eqb]. by rewrite Hok. }
  destruct Hok as [Hsize Hall]. change maxColumnFamilies with 65536 in *.
  rewrite int32_id by (unfold in_int32; lia). rewrite <-!(assoc_L (++)).
  erewrite read_bind by (apply (reads_wrap _ _ _ (Z.of_nat (size m))), parses_reads, parses_ReadInt32; unfold in_int32; lia).
  replace (Z.of_nat (size m) =? -1) with false by lia. replace (Z.of_nat (size m) <? 0) with false by lia.
  pose proof (write_families_len m) as Hlen.
  erewrite read_bind.
  2: { unfold corrupt_families, rwrap. rewrite validateDecodedCount_ok; [reflexivity|..];
       change maxColumnFamilies with 65536; rewrite ?len_app; pose proof (len_nonneg rest); lia. }
  rewrite Nat2Z.id. assert (length (order m) = size m) as El.
  { by rewrite (Permutation_length (Horder m)), length_map_to_list. }
  rewrite <-El. erewrite read_bind.
  2: { apply reads_families; [| |].
       - rewrite (Horder m). apply NoDup_fst_map_to_list.
       - intros f _. apply lookup_empty.
       - rewrite (Horder m). apply Forall_forall. intros [cf n] Hin%elem_of_map_to_list. by apply (Hall cf n). }
  assert ((list_to_map (order m) : gmap bytes Z) = m) as E.
  { rewrite (list_to_map_proper (order m) (map_to_list m)); [apply list_to_map_to_list| |apply Horder].
    rewrite (Horder m). apply NoDup_fst_map_to_list. }
  by rewrite (right_id_L ∅ (∪)), E.
Qed.
(** What survives version 8, whose groups store no start block. *)
Definition lg_ok (lg : LocalityGroup) (level offset : Z) (hasNext : bool) (es : list IndexEntry) : Prop :=
  (if IsDefault lg then lg_Name lg = [] else len (lg_Name lg) <= 65535) /\
  StartBlock lg = 0 /\
  match ColumnFamilies lg with Some m => families_ok m | None => IsDefault lg = true end /\
  match FirstKey lg with Some k => key_ok k | None => True end /\
  0 <= NumTotalEntries lg < 2 ^ 31 /\
  RootIndex lg = block_of level offset hasNext es /\ block_ok level offset es.

Lemma reads_LocalityGroup lg level offset hasNext es bs :
  lg_ok lg level offset hasNext es -> WriteLocalityGroup lg V8 = Ok bs -> reads (ReadLocalityGroup V8) bs lg.
Proof.
  intros (Hname & Hstart & Hcf & Hkey & Hn & Hroot & Hblock) Hw. unfold WriteLocalityGroup in Hw.
  apply bind_Ok in Hw as (name & Hw & Hbs). apply (inj Ok) in Hbs as <-. unfold ReadLocalityGroup.
  change (hasStartBlock V8) with false. change (hasMultiLevelIndex V8) with true. cbv iota.
  eapply reads_bind; [apply reads_wrap, parses_reads, parses_ReadBool|].
  eapply (reads_bind _ _ _ _ (lg_Name lg)).
  { destruct (IsDefault lg); cbn [negb] in *; [injection Hw as <-; rewrite Hname; apply reads_ret|].
    by apply reads_wrap, parses_reads, parses_ReadUTF. }
  eapply (reads_bind _ _ [] _ 0); [apply reads_ret|].
  eapply reads_bind; [by apply reads_cf_table|].
  eapply reads_bind; [apply reads_wrap, parses_reads, parses_ReadBool|].
  eapply (reads_bind _ _ _ _ (FirstKey lg)).
  { destruct (FirstKey lg) as [k|]; [|apply reads_ret]. apply reads_app_nil.
    eapply reads_bind; [apply reads_wrap, parses_reads, ReadKey_WriteKey, Hkey|apply reads_ret]. }
  eapply (reads_bind _ _ _ _ (NumTotalEntries lg)).
  { apply reads_app_nil. eapply reads_bind; [apply reads_wrap, parses_reads, parses_ReadInt32; unfold in_int32; lia|].
    replace (NumTotalEntries lg <? 0) with false by lia. apply reads_ret. }
  apply reads_app_nil. eapply reads_bind.
  { apply reads_wrap. rewrite Hroot. unfold ReadIndexBlock. change (hasMultiLevelIndex V8) with true. cbv iota.
    by apply reads_multi_level. }
  cbn [negb]. rewrite <-Hroot. destruct lg. cbn in *. subst. apply reads_ret.
Qed.
End write.
