(* ===== verification/Codec.v ===== *)
(** * Codec: compressing and decompressing blocks (src/internal/rfile/bcfile/block)

    The registries a block's bytes pass through on their way to and from the
    file (compress.go, decompress.go), and the five codecs: "none", "gz",
    "zstd", and the Hadoop framings of "snappy" (snappy.go) and "lz4"
    (lz4.go).  The compression libraries below the codecs are parameters. *)

From S2P Require Import Prelude Wire BCFile Container.

Definition EncoderFunc : Type := bytes -> result bytes.
(** The compressed bytes and the size expected of the result. *)
Definition CodecFunc : Type := bytes -> Z -> result bytes.

Definition ErrUnsupportedCodec : err := Fail "block: unsupported codec".
Definition ErrSizeMismatch : err := Fail "block: decompressed size mismatch".

(** ** The registries *)

Abbreviation Compressor := (gmap bytes EncoderFunc).
Abbreviation Decompressor := (gmap bytes CodecFunc).

Definition Register {F} (name : bytes) (fn : F) (c : gmap bytes F) : gmap bytes F := <[name := fn]> c.
Definition Has {F} (codec : bytes) (c : gmap bytes F) : bool := bool_decide (is_Some (c !! codec)).

Definition Encode (c : Compressor) (raw codec : bytes) : result bytes :=
  if len raw >? MaxRawBlockSize then Err (Fail "block: raw size exceeds limit")
  else match c !! codec with
  | None => Err (Wrap "codec" ErrUnsupportedCodec)
  | Some fn =>
      compressed ← fn raw;
      if len compressed >? MaxCompressedBlockSize then Err (Fail "block: compressed size exceeds limit")
      else Ok compressed
  end.

Definition Block (d : Decompressor) (src : ReaderAt) (region : BlockRegion) (codec : bytes) : result bytes :=
  if CompressedSize region <? 0 then Err (Fail "block: negative CompressedSize")
  else if RawSize region <? 0 then Err (Fail "block: negative RawSize")
  else if CompressedSize region >? MaxCompressedBlockSize then Err (Fail "block: CompressedSize exceeds limit")
  else if RawSize region >? MaxRawBlockSize then Err (Fail "block: RawSize exceeds limit")
  else match d !! codec with
  | None => Err (Wrap "codec" ErrUnsupportedCodec)
  | Some fn =>
      compressed ← (if CompressedSize region >? 0
                    then wrap "block: read compressed bytes" (src (Offset region) (CompressedSize region))
                    else Ok []);
      fn compressed (RawSize region)
  end.

Definition CodecGzip : bytes := [103; 122].
Definition CodecSnappy : bytes := [115; 110; 97; 112; 112; 121].
Definition CodecZstd : bytes := [122; 115; 116; 100].
Definition CodecLZ4 : bytes := [108; 122; 52].

(** ** "none" *)

Definition encodeNone : EncoderFunc := fun raw => Ok raw.
Definition decompressNone : CodecFunc := fun compressed rawSize =>
  if negb (len compressed =? rawSize) then Err (Wrap "codec=none" ErrSizeMismatch) else Ok compressed.

(** A big-endian int32 at the front of a stream. *)
Definition take32 (s : bytes) : option (Z * bytes) :=
  if len s <? 4 then None else Some (int32 (be_get (take 4 s)), drop 4 s).

(** The compression libraries.
    - github.com/golang/snappy: [Encode(nil, raw)], [DecodedLen], [Decode].
    - github.com/pierrec/lz4: [CompressBlock] into a buffer of the given size
      (the bytes written, none for n = 0) with the error it gives for a buffer
      too short, and [UncompressBlock] likewise.
    - compress/zlib: a writer closed after one write; a reader's bytes with the
      error that ended it, or the error of its header.
    - github.com/klauspost/compress/zstd: a stream written and closed, and
      [DecodeAll] with the capacity limit. *)
Record Libraries := mkLibraries {
  snappy_Encode : bytes -> bytes;
  snappy_DecodedLen : bytes -> result Z;
  snappy_Decode : bytes -> result bytes;
  lz4_CompressBlock : bytes -> Z -> result bytes;
  lz4_UncompressBlock : bytes -> Z -> result bytes;
  lz4_ErrInvalidSourceShortBuffer : err;
  zlib_deflate : bytes -> bytes;
  zlib_inflate : bytes -> result (bytes * err);
  zstd_compress : bytes -> result bytes;
  zstd_DecodeAll : bytes -> Z -> result bytes;
  zstd_ErrDecoderSizeExceeded : err;
}.

Section libraries.
Context (L : Libraries).

(** ** "gz" *)

Definition encodeGzip : EncoderFunc := fun raw => Ok (zlib_deflate L raw).

(** [io.ReadFull] of one byte more than expected: end-of-file errors are the
    expected end. *)
Definition decompressGzip : CodecFunc := fun compressed rawSize =>
  '(out, end_) ← wrap "block: zlib header" (zlib_inflate L compressed);
  let n := if len out <? rawSize + 1 then len out else rawSize + 1 in
  if (len out <? rawSize + 1) && negb (errors_Is end_ EOF) && negb (errors_Is end_ UnexpectedEOF)
  then Err (Wrap "block: zlib body" end_)
  else if negb (n =? rawSize) then Err (Wrap "codec=gz" ErrSizeMismatch)
  else Ok (take (Z.to_nat n) out).

(** ** "snappy" *)

Definition encodeSnappy : EncoderFunc := fun raw =>
  match raw with
  | [] => Ok (replicate 4 0)
  | _ =>
      let enc := snappy_Encode L raw in
      Ok (be_put 4 (uint32 (len raw)) ++ be_put 4 (uint32 (len enc)) ++ enc)
  end.

(** The chunks of one frame; every chunk takes its 4-byte header. *)
Fixpoint snappy_chunks (fuel : nat) (frameStart originalSize rawSize : Z) (s out : bytes) : result (bytes * bytes) :=
  if len out - frameStart <? originalSize then
    match fuel with
    | O => Err (Fail "out of fuel")
    | S fuel =>
        match take32 s with
        | None => Err (Fail "block: snappy chunk header truncated")
        | Some (chunkLen, s) =>
            if chunkLen <? 0 then Err (Fail "block: snappy negative chunkLen")
            else if chunkLen >? len s then Err (Fail "block: snappy chunk body truncated")
            else
              let chunk := take (Z.to_nat chunkLen) s in
              let s := drop (Z.to_nat chunkLen) s in
              decodedLen ← wrap "block: snappy decode chunk length" (snappy_DecodedLen L chunk);
              let frameRemaining := originalSize - (len out - frameStart) in
              let rawRemaining := rawSize - len out in
              if (decodedLen >? frameRemaining) || (decodedLen >? rawRemaining) then
                Err (Wrap "codec=snappy" ErrSizeMismatch)
              else
                decoded ← wrap "block: snappy decode chunk" (snappy_Decode L chunk);
                snappy_chunks fuel frameStart originalSize rawSize s (out ++ decoded)
        end
    end
  else Ok (s, out).

(** The frames; a frame of size 0 ends them. *)
Fixpoint snappy_frames (fuel : nat) (rawSize : Z) (s out : bytes) : result bytes :=
  match s with
  | [] => Ok out
  | _ =>
      match fuel with
      | O => Err (Fail "out of fuel")
      | S fuel =>
          match take32 s with
          | None => Err (Fail "block: snappy frame header truncated")
          | Some (originalSize, s) =>
              if originalSize <? 0 then Err (Fail "block: snappy negative originalSize")
              else if originalSize =? 0 then Ok out
              else
                let frameStart := len out in
                '(s, out) ← snappy_chunks (length s) frameStart originalSize rawSize s out;
                if negb (len out - frameStart =? originalSize) then Err (Fail "block: snappy frame chunks summed to another size")
                else snappy_frames fuel rawSize s out
          end
      end
  end.

Definition decompressSnappy : CodecFunc := fun compressed rawSize =>
  out ← snappy_frames (length compressed) rawSize compressed [];
  if negb (len out =? rawSize) then Err (Wrap "codec=snappy" ErrSizeMismatch) else Ok out.

(** ** "lz4" *)

Definition hadoopLZ4BufferSize : Z := 256 * 1024.
Definition hadoopLZ4CompressionOverhead : Z := hadoopLZ4BufferSize / 255 + 16.
Definition hadoopLZ4MaxInputSize : Z := hadoopLZ4BufferSize - hadoopLZ4CompressionOverhead.

(** A block of one literal sequence. *)
Definition encodeLZ4LiteralBlock (raw : bytes) : bytes :=
  [uint8 (Z.shiftl (Z.min (len raw) 15) 4)] ++
  (if len raw >=? 15 then
     let remaining := len raw - 15 in replicate (Z.to_nat (remaining / 255)) 255 ++ [uint8 (remaining mod 255)]
   else []) ++ raw.

(** [boundedBuffer.Write]. *)
Definition bounded_Write (limit : Z) (p b : bytes) : result bytes :=
  if len p >? limit - len b then Err (Fail "block: compressed size exceeds limit") else Ok (b ++ p).

(** The chunks of the one frame written. *)
Fixpoint lz4_encode_loop (fuel : nat) (raw out : bytes) : result bytes :=
  match raw with
  | [] => Ok out
  | _ =>
      match fuel with
      | O => Err (Fail "out of fuel")
      | S fuel =>
          let n := Z.to_nat (Z.min hadoopLZ4MaxInputSize (len raw)) in
          let chunk := take n raw in
          encoded ← (match lz4_CompressBlock L chunk (len chunk) with
            | Ok [] => Ok (encodeLZ4LiteralBlock chunk)
            | Ok encoded => Ok encoded
            | Err e => if errors_Is e (lz4_ErrInvalidSourceShortBuffer L) then Ok (encodeLZ4LiteralBlock chunk)
                       else Err (Wrap "block: lz4 encode chunk" e)
            end);
          out ← bounded_Write MaxCompressedBlockSize (be_put 4 (uint32 (len encoded))) out;
          out ← bounded_Write MaxCompressedBlockSize encoded out;
          lz4_encode_loop fuel (drop n raw) out
      end
  end.

Definition encodeLZ4 : EncoderFunc := fun raw =>
  if len raw >? 2 ^ 31 - 1 then Err (Fail "block: lz4 raw size exceeds int32 framing")
  else match raw with
  | [] => Ok (replicate 4 0)
  | _ =>
      out ← bounded_Write MaxCompressedBlockSize (be_put 4 (uint32 (len raw))) [];
      lz4_encode_loop (length raw) raw out
  end.

Definition readHadoopBlockLength (s : bytes) : result (Z * bytes) :=
  match take32 s with
  | None => Err (Fail "block: lz4 header truncated")
  | Some (value, s) => if value <? 0 then Err (Fail "block: lz4 negative length") else Ok (value, s)
  end.

Fixpoint lz4_chunks (fuel : nat) (frameEnd rawSize : Z) (s out : bytes) : result (bytes * bytes) :=
  if len out <? frameEnd then
    match fuel with
    | O => Err (Fail "out of fuel")
    | S fuel =>
        '(chunkLen, s) ← readHadoopBlockLength s;
        if chunkLen =? 0 then Err (Fail "block: lz4 zero-size chunk")
        else if chunkLen >? len s then Err (Fail "block: lz4 chunk body truncated")
        else
          let chunk := take (Z.to_nat chunkLen) s in
          let s := drop (Z.to_nat chunkLen) s in
          decoded ← wrap "block: lz4 decode chunk" (lz4_UncompressBlock L chunk (rawSize - len out));
          if len decoded <=? 0 then Err (Fail "block: lz4 chunk produced no output")
          else if len decoded >? frameEnd - len out then Err (Wrap "codec=lz4" ErrSizeMismatch)
          else lz4_chunks fuel frameEnd rawSize s (out ++ decoded)
    end
  else Ok (s, out).

Fixpoint lz4_frames (fuel : nat) (rawSize : Z) (s out : bytes) : result bytes :=
  match s with
  | [] => Ok out
  | _ =>
      match fuel with
      | O => Err (Fail "out of fuel")
      | S fuel =>
          '(originalSize, s) ← readHadoopBlockLength s;
          if originalSize =? 0 then
            if negb (len s =? 0) then Err (Fail "block: lz4 data follows zero-size frame") else Ok out
          else if originalSize >? rawSize - len out then Err (Wrap "codec=lz4" ErrSizeMismatch)
          else
            '(s, out) ← lz4_chunks (length s) (len out + originalSize) rawSize s out;
            lz4_frames fuel rawSize s out
      end
  end.

Definition decompressLZ4 : CodecFunc := fun compressed rawSize =>
  if rawSize <? 0 then Err (Fail "block: lz4 negative rawSize")
  else if rawSize >? MaxRawBlockSize then Err (Fail "block: lz4 rawSize exceeds limit")
  else if len compressed =? 0 then Err (Fail "block: lz4 stream is empty")
  else
    out ← lz4_frames (length compressed) rawSize compressed [];
    if negb (len out =? rawSize) then Err (Wrap "codec=lz4" ErrSizeMismatch) else Ok out.

(** ** "zstd" *)

Definition encodeZstd : EncoderFunc := fun raw =>
  out ← wrap "block: zstd body" (zstd_compress L raw); bounded_Write MaxCompressedBlockSize out [].

Definition decompressZstd : CodecFunc := fun compressed rawSize =>
  if rawSize <? 0 then Err (Fail "block: zstd negative rawSize")
  else if rawSize >? MaxRawBlockSize then Err (Fail "block: zstd rawSize exceeds limit")
  else if len compressed =? 0 then Err (Fail "block: zstd stream is empty")
  else match zstd_DecodeAll L compressed rawSize with
  | Err e => if errors_Is e (zstd_ErrDecoderSizeExceeded L) then Err (Wrap "codec=zstd" ErrSizeMismatch)
             else Err (Wrap "block: zstd decode" e)
  | Ok out => if negb (len out =? rawSize) then Err (Wrap "codec=zstd" ErrSizeMismatch) else Ok out
  end.

(** ** The default registries *)

Definition DefaultCompressor : Compressor :=
  Register CodecLZ4 encodeLZ4 (Register CodecZstd encodeZstd (Register CodecSnappy encodeSnappy
    (Register CodecGzip encodeGzip (Register CodecNone encodeNone ∅)))).
Definition Default : Decompressor :=
  Register CodecLZ4 decompressLZ4 (Register CodecZstd decompressZstd (Register CodecSnappy decompressSnappy
    (Register CodecGzip decompressGzip (Register CodecNone decompressNone ∅)))).
End libraries.

(** ** What a codec promises

    The interface the file format relies on: decoding what was encoded, with
    the size of the original, gives it back, and only nothing is encoded as
    nothing. *)
Class CodecPair (enc : EncoderFunc) (dec : CodecFunc) : Prop := {
  codec_pair raw c : len raw <= MaxRawBlockSize -> enc raw = Ok c -> dec c (len raw) = Ok raw;
  codec_nonempty raw c : len raw <= MaxRawBlockSize -> enc raw = Ok c -> raw <> [] -> c <> [];
}.

(** A decoder that makes nothing of nothing sees to the latter. *)
Lemma pair_of_decode (enc : EncoderFunc) (dec : CodecFunc) :
  (forall raw c, len raw <= MaxRawBlockSize -> enc raw = Ok c -> dec c (len raw) = Ok raw) ->
  (forall n raw, dec [] n = Ok raw -> raw = []) -> CodecPair enc dec.
Proof. intros H H0. split; [done|]. intros raw c Hl He Hne ->. by apply Hne, (H0 (len raw)), H. Qed.

(** A compressor and a decompressor agree on a codec. *)
Class CodecAgrees (c : Compressor) (d : Decompressor) (codec : bytes) : Prop :=
  codec_agrees (enc : EncoderFunc) : c !! codec = Some enc -> exists dec : CodecFunc, d !! codec = Some dec /\ CodecPair enc dec.

Lemma bytes_ltb_refl (s : bytes) : (len s =? len s) = true.
Proof. apply Z.eqb_refl. Qed.

#[export] Instance none_pair : CodecPair encodeNone decompressNone.
Proof.
  apply pair_of_decode.
  - intros raw c _ [= <-]. unfold decompressNone. by rewrite bytes_ltb_refl.
  - intros n raw. unfold decompressNone. destruct (negb _); [done|]. by intros [= <-].
Qed.

Lemma take32_put v s : in_int32 v -> take32 (be_put 4 (uint32 v) ++ s) = Some (v, s).
Proof.
  intros Hv. unfold take32. rewrite len_app. unfold len at 1. rewrite be_put_length. pose proof (len_nonneg s).
  change (Z.of_nat 4) with 4. replace (4 + len s <? 4) with false by lia.
  rewrite take_app_length', drop_app_length' by (by rewrite be_put_length).
  rewrite be_get_put by (change (256 ^ Z.of_nat 4) with (2 ^ 32); unfold uint32; apply Z.mod_pos_bound; lia).
  by rewrite int32_uint32, int32_id.
Qed.

Lemma be_put4_nonempty v s : be_put 4 v ++ s <> [].
Proof. done. Qed.

Section snappy.
Context (L : Libraries).

(** The library's documentation: decoding inverts encoding, the header holds
    the length, and [MaxEncodedLen] bounds the encoding. *)
Definition snappy_ok : Prop :=
  forall raw, snappy_Decode L (snappy_Encode L raw) = Ok raw /\ snappy_DecodedLen L (snappy_Encode L raw) = Ok (len raw) /\
    len (snappy_Encode L raw) <= 32 + len raw + len raw / 6.

Lemma snappy_chunks_done fuel frameStart originalSize rawSize s out :
  originalSize <= len out - frameStart -> snappy_chunks L fuel frameStart originalSize rawSize s out = Ok (s, out).
Proof. intros H. destruct fuel; cbn [snappy_chunks]; by replace (len out - frameStart <? originalSize) with false by lia. Qed.

Lemma snappy_chunks_step fuel frameStart originalSize rawSize enc decoded s out :
  len out - frameStart < originalSize -> len enc < 2 ^ 31 ->
  snappy_DecodedLen L enc = Ok (len decoded) -> snappy_Decode L enc = Ok decoded ->
  len decoded <= originalSize - (len out - frameStart) -> len decoded <= rawSize - len out ->
  snappy_chunks L (S fuel) frameStart originalSize rawSize (be_put 4 (uint32 (len enc)) ++ enc ++ s) out =
  snappy_chunks L fuel frameStart originalSize rawSize s (out ++ decoded).
Proof.
  intros H1 H2 Hl Hd H3 H4. pose proof (len_nonneg enc). pose proof (len_nonneg s).
  set (h := be_put 4 (uint32 (len enc)) ++ enc ++ s). cbn [snappy_chunks]. unfold h.
  replace (len out - frameStart <? originalSize) with true by lia.
  rewrite take32_put by (unfold in_int32; lia). rewrite len_app.
  replace (len enc <? 0) with false by lia. replace (len enc >? len enc + len s) with false by lia. cbv zeta.
  assert (Z.to_nat (len enc) = length enc) as -> by (unfold len; lia).
  rewrite take_app_length, drop_app_length, Hl, Hd. cbn [wrap mbind result_bind].
  by replace ((len decoded >? originalSize - (len out - frameStart)) || (len decoded >? rawSize - len out)) with false by lia.
Qed.

Lemma snappy_frames_step fuel rawSize originalSize s out s' out' :
  0 < originalSize < 2 ^ 31 ->
  snappy_chunks L (length s) (len out) originalSize rawSize s out = Ok (s', out') ->
  len out' - len out = originalSize ->
  snappy_frames L (S fuel) rawSize (be_put 4 (uint32 originalSize) ++ s) out =
  snappy_frames L fuel rawSize s' out'.
Proof.
  intros H1 H2 H3.
  assert (snappy_frames L (S fuel) rawSize (be_put 4 (uint32 originalSize) ++ s) out =
    match take32 (be_put 4 (uint32 originalSize) ++ s) with
    | None => Err (Fail "block: snappy frame header truncated")
    | Some (originalSize, s) =>
        if originalSize <? 0 then Err (Fail "block: snappy negative originalSize")
        else if originalSize =? 0 then Ok out
        else
          '(s, out') ← snappy_chunks L (length s) (len out) originalSize rawSize s out;
          if negb (len out' - len out =? originalSize) then Err (Fail "block: snappy frame chunks summed to another size")
          else snappy_frames L fuel rawSize s out'
    end) as -> by done.
  rewrite take32_put by (unfold in_int32; lia). replace (originalSize <? 0) with false by lia.
  replace (originalSize =? 0) with false by lia. rewrite H2. cbn [mbind result_bind]. by rewrite H3, Z.eqb_refl.
Qed.

Lemma snappy_pair : snappy_ok -> CodecPair (encodeSnappy L) (decompressSnappy L).
Proof.
  intros Hok. apply pair_of_decode.
  2:{ intros n raw. unfold decompressSnappy. cbn. destruct (negb _); [done|]. by intros [= <-]. }
  intros raw c Hraw. change MaxRawBlockSize with 536870912 in Hraw. unfold encodeSnappy.
  destruct raw as [|b raw']; [by intros [= <-]|]. set (raw := b :: raw') in *. intros Hc.
  apply (inj Ok) in Hc as <-. destruct (Hok raw) as (Hd & Hdl & Hmax). set (enc := snappy_Encode L raw) in *.
  assert (0 < len raw) as Hpos by (unfold raw; rewrite len_cons; pose proof (len_nonneg raw'); lia).
  pose proof (len_nonneg enc). pose proof (Z.div_le_upper_bound (len raw) 6 (len raw) ltac:(lia) ltac:(lia)).
  unfold decompressSnappy. set (s := be_put 4 (uint32 (len enc)) ++ enc).
  assert (snappy_chunks L (length s) (len (@nil Z)) (len raw) (len raw) s [] = Ok ([], raw)) as Hchunk.
  { assert (length s = S (3 + length enc)) as -> by (unfold s; by rewrite length_app, be_put_length).
    replace s with (be_put 4 (uint32 (len enc)) ++ enc ++ []) by (by rewrite app_nil_r).
    rewrite (snappy_chunks_step _ _ _ _ enc raw) by (rewrite ?len_nil; done || lia). rewrite ?app_nil_l.
    apply snappy_chunks_done. rewrite len_nil. lia. }
  rewrite length_app, be_put_length. change (4 + length s)%nat with (S (3 + length s)).
  rewrite (snappy_frames_step _ _ (len raw) s [] [] raw); [|lia|exact Hchunk|rewrite len_nil; lia].
  change (snappy_frames L (3 + length s) (len raw) [] raw) with (Ok raw).
  cbn [mbind result_bind]. by rewrite bytes_ltb_refl.
Qed.
End snappy.

Section lz4.
Context (L : Libraries).

(** The library's documentation: a compressed block fits the buffer, and
    decoding it into enough room gives the chunk back; so does decoding a
    block of one literal sequence, by the format. *)
Definition lz4_ok : Prop :=
  forall chunk room, chunk <> [] -> len chunk <= hadoopLZ4MaxInputSize -> len chunk <= room ->
    (forall enc, lz4_CompressBlock L chunk (len chunk) = Ok enc -> enc <> [] ->
       len enc <= len chunk /\ lz4_UncompressBlock L enc room = Ok chunk) /\
    lz4_UncompressBlock L (encodeLZ4LiteralBlock chunk) room = Ok chunk.

(** A chunk of the frame: its encoding, which the decoder reads back. *)
Definition lz4_chunk (chunk enc : bytes) : Prop :=
  0 < len enc < 2 ^ 31 /\ forall room, len chunk <= room -> lz4_UncompressBlock L enc room = Ok chunk.

Lemma literal_len chunk : chunk <> [] -> len chunk <= hadoopLZ4MaxInputSize -> 0 < len (encodeLZ4LiteralBlock chunk) < 2 ^ 31.
Proof.
  intros Hne Hl. change hadoopLZ4MaxInputSize with 261100 in Hl. unfold encodeLZ4LiteralBlock.
  rewrite !len_app. change (len [_]) with 1. pose proof (len_nonneg chunk).
  destruct (Z.geb_spec (len chunk) 15); [|change (len (@nil Z)) with 0; lia].
  cbv zeta. rewrite len_app, len_replicate. change (len [_]) with 1.
  pose proof (Z.div_le_upper_bound (len chunk - 15) 255 (len chunk) ltac:(lia) ltac:(lia)).
  pose proof (Z.div_pos (len chunk - 15) 255 ltac:(lia) ltac:(lia)). lia.
Qed.

Lemma bounded_Write_Ok limit p b out : bounded_Write limit p b = Ok out -> out = b ++ p.
Proof. unfold bounded_Write. destruct (_ >? _); [done|]. by intros [= <-]. Qed.

Fixpoint chunks_of (cs : list (bytes * bytes)) : bytes :=
  match cs with [] => [] | (_, enc) :: cs => be_put 4 (uint32 (len enc)) ++ enc ++ chunks_of cs end.

(** What the encoder appends is the raw bytes cut into chunks. *)
Lemma lz4_encode_loop_ok fuel raw out c :
  lz4_ok -> lz4_encode_loop L fuel raw out = Ok c ->
  exists cs, c = out ++ chunks_of cs /\ concat cs.*1 = raw /\ Forall (fun ce => ce.1 <> [] /\ lz4_chunk ce.1 ce.2) cs.
Proof.
  intros Hok. revert raw out. induction fuel as [|fuel IH]; intros raw out.
  { destruct raw; [|done]. intros [= <-]. exists []. by rewrite app_nil_r. }
  destruct raw as [|b raw']; [intros [= <-]; exists []; by rewrite app_nil_r|]. set (raw := b :: raw') in *.
  assert (lz4_encode_loop L (S fuel) raw out =
    let n := Z.to_nat (Z.min hadoopLZ4MaxInputSize (len raw)) in
    let chunk := take n raw in
    encoded ← (match lz4_CompressBlock L chunk (len chunk) with
      | Ok [] => Ok (encodeLZ4LiteralBlock chunk)
      | Ok encoded => Ok encoded
      | Err e => if errors_Is e (lz4_ErrInvalidSourceShortBuffer L) then Ok (encodeLZ4LiteralBlock chunk)
                 else Err (Wrap "block: lz4 encode chunk" e)
      end);
    out ← bounded_Write MaxCompressedBlockSize (be_put 4 (uint32 (len encoded))) out;
    out ← bounded_Write MaxCompressedBlockSize encoded out;
    lz4_encode_loop L fuel (drop n raw) out) as -> by done.
  cbv zeta. change hadoopLZ4MaxInputSize with 261100. set (n := Z.to_nat _). set (chunk := take n raw).
  assert (0 < len raw) as Hpos by (unfold raw; rewrite len_cons; pose proof (len_nonneg raw'); lia).
  assert (len chunk = Z.min 261100 (len raw)) as Hcl.
  { unfold chunk, len. rewrite length_take. unfold n, len in *. lia. }
  assert (chunk <> []) as Hne by (intros E; rewrite E, len_nil in Hcl; lia).
  intros (enc & He & H)%bind_Ok. apply bind_Ok in H as (o1 & ->%bounded_Write_Ok & H).
  apply bind_Ok in H as (o2 & ->%bounded_Write_Ok & H).
  destruct (IH _ _ H) as (cs & -> & Hcs & Hall). exists ((chunk, enc) :: cs). split_and!.
  - cbn [chunks_of]. by rewrite <-!(assoc_L (++)).
  - rewrite fmap_cons. cbn [concat]. rewrite Hcs. apply take_drop.
  - constructor; [|done]. split; [done|]. cbn [fst snd].
    assert (len chunk <= hadoopLZ4MaxInputSize) as Hmax by (change hadoopLZ4MaxInputSize with 261100; lia).
    assert (lz4_chunk chunk (encodeLZ4LiteralBlock chunk)) as Hlit.
    { split; [by apply literal_len|]. intros room Hr. by apply (Hok chunk room Hne Hmax Hr). }
    destruct (lz4_CompressBlock L chunk (len chunk)) as [[|x e]|e] eqn:Ec.
    + by injection He as <-.
    + apply (inj Ok) in He as <-. split.
      * destruct (proj1 (Hok chunk (len chunk) Hne Hmax ltac:(lia)) _ Ec ltac:(done)) as [Hle _].
        rewrite len_cons in *. pose proof (len_nonneg e). lia.
      * intros room Hr. by apply (proj1 (Hok chunk room Hne Hmax Hr) _ Ec).
    + destruct (errors_Is e (lz4_ErrInvalidSourceShortBuffer L)); [by injection He as <-|done].
Qed.

Lemma lz4_chunks_ok cs fuel frameEnd rawSize out :
  Forall (fun ce => ce.1 <> [] /\ lz4_chunk ce.1 ce.2) cs -> (length cs <= fuel)%nat ->
  frameEnd = len out + len (concat cs.*1) -> frameEnd <= rawSize ->
  lz4_chunks L fuel frameEnd rawSize (chunks_of cs) out = Ok ([], out ++ concat cs.*1).
Proof.
  intros Hall. revert fuel out. induction Hall as [|[chunk enc] cs [Hne [Hlen Hun]] Hall IH]; intros fuel out Hf Hend Hraw.
  { cbn [fmap list_fmap concat chunks_of] in *. rewrite len_nil in Hend.
    destruct fuel; cbn [lz4_chunks]; replace (len out <? frameEnd) with false by lia; by rewrite app_nil_r. }
  rewrite fmap_cons in *. cbn [concat fst snd length chunks_of] in *. rewrite len_app in Hend.
  destruct fuel as [|fuel]; [lia|].
  assert (0 < len chunk) as Hpos by (destruct chunk; [done|]; rewrite len_cons; pose proof (len_nonneg chunk); lia).
  pose proof (len_nonneg (concat cs.*1)). pose proof (len_nonneg (chunks_of cs)).
  set (s := be_put 4 (uint32 (len enc)) ++ enc ++ chunks_of cs).
  cbn [lz4_chunks]. replace (len out <? frameEnd) with true by lia. unfold readHadoopBlockLength, s.
  rewrite take32_put by (unfold in_int32; lia). replace (len enc <? 0) with false by lia. cbn [mbind result_bind].
  replace (len enc =? 0) with false by lia. rewrite len_app. replace (len enc >? len enc + len (chunks_of cs)) with false by lia.
  cbv zeta. assert (Z.to_nat (len enc) = length enc) as -> by (unfold len; lia).
  rewrite take_app_length, drop_app_length, Hun by lia. cbn [wrap mbind result_bind].
  replace (len chunk <=? 0) with false by lia. replace (len chunk >? frameEnd - len out) with false by lia.
  rewrite IH; [by rewrite <-(assoc_L (++))|lia|rewrite len_app; lia|done].
Qed.

Lemma chunks_of_length cs : Forall (fun ce => ce.1 <> [] /\ lz4_chunk ce.1 ce.2) cs -> (length cs <= length (chunks_of cs))%nat.
Proof.
  induction 1 as [|[chunk enc] cs _ _ IH]; [done|]. cbn [chunks_of length]. rewrite !length_app, be_put_length. lia.
Qed.

Lemma lz4_frames_step fuel rawSize originalSize s out s' out' :
  0 < originalSize < 2 ^ 31 -> originalSize <= rawSize - len out ->
  lz4_chunks L (length s) (len out + originalSize) rawSize s out = Ok (s', out') ->
  lz4_frames L (S fuel) rawSize (be_put 4 (uint32 originalSize) ++ s) out =
  lz4_frames L fuel rawSize s' out'.
Proof.
  intros H1 H2 H3.
  assert (lz4_frames L (S fuel) rawSize (be_put 4 (uint32 originalSize) ++ s) out =
    '(originalSize, s) ← readHadoopBlockLength (be_put 4 (uint32 originalSize) ++ s);
    if originalSize =? 0 then
      if negb (len s =? 0) then Err (Fail "block: lz4 data follows zero-size frame") else Ok out
    else if originalSize >? rawSize - len out then Err (Wrap "codec=lz4" ErrSizeMismatch)
    else
      '(s, out) ← lz4_chunks L (length s) (len out + originalSize) rawSize s out;
      lz4_frames L fuel rawSize s out) as -> by done.
  unfold readHadoopBlockLength. rewrite take32_put by (unfold in_int32; lia).
  replace (originalSize <? 0) with false by lia. cbn [mbind result_bind].
  replace (originalSize =? 0) with false by lia. replace (originalSize >? rawSize - len out) with false by lia.
  by rewrite H3.
Qed.

Lemma lz4_pair : lz4_ok -> CodecPair (encodeLZ4 L) (decompressLZ4 L).
Proof.
  intros Hok. apply pair_of_decode.
  2:{ intros n raw. unfold decompressLZ4. destruct (n <? 0); [done|]. by destruct (n >? MaxRawBlockSize). }
  intros raw c Hraw. change MaxRawBlockSize with 536870912 in Hraw. unfold encodeLZ4. pose proof (len_nonneg raw).
  replace (len raw >? 2 ^ 31 - 1) with false by lia.
  destruct raw as [|b raw']; [by intros [= <-]|]. set (raw := b :: raw') in *.
  assert (0 < len raw) as Hpos by (unfold raw; rewrite len_cons; pose proof (len_nonneg raw'); lia).
  intros (o & ->%bounded_Write_Ok & Hl)%bind_Ok. rewrite app_nil_l in Hl.
  destruct (lz4_encode_loop_ok _ _ _ _ Hok Hl) as (cs & -> & Hcs & Hall).
  unfold decompressLZ4. change MaxRawBlockSize with 536870912.
  replace (len raw <? 0) with false by lia. replace (len raw >? 536870912) with false by lia.
  set (h := be_put 4 (uint32 (len raw))). set (s := chunks_of cs). pose proof (len_nonneg s).
  replace (len (h ++ s) =? 0) with false by (rewrite len_app; change (len h) with 4; lia).
  assert (lz4_frames L (length (h ++ s)) (len raw) (h ++ s) [] = Ok raw) as ->.
  2: { cbn [mbind result_bind]. by rewrite bytes_ltb_refl. }
  rewrite length_app. change (length h + length s)%nat with (S (3 + length s)).
  unfold h. rewrite (lz4_frames_step _ _ (len raw) s [] [] raw); [done|lia|rewrite len_nil; lia|].
  assert (len raw = len (concat cs.*1)) as E by (by rewrite Hcs).
  unfold s. rewrite (lz4_chunks_ok cs); [by rewrite Hcs|done|by apply chunks_of_length|rewrite len_nil; lia|rewrite len_nil; lia].
Qed.
End lz4.

(** ** Writing a block and reading it back *)

(** A stream that was closed ends in [io.EOF]; nothing has no header. *)
Definition zlib_ok (L : Libraries) : Prop :=
  (forall raw, zlib_inflate L (zlib_deflate L raw) = Ok (raw, EOF)) /\ exists e, zlib_inflate L [] = Err e.
Definition zstd_ok (L : Libraries) : Prop :=
  forall raw c, zstd_compress L raw = Ok c -> c <> [] /\ zstd_DecodeAll L c (len raw) = Ok raw.

Lemma gzip_pair L : zlib_ok L -> CodecPair (encodeGzip L) (decompressGzip L).
Proof.
  intros [Hz [e He]]. apply pair_of_decode; [|intros n raw; unfold decompressGzip; by rewrite He].
  intros raw c _ [= <-]. unfold decompressGzip. rewrite Hz. cbn [wrap mbind result_bind].
  replace (len raw <? len raw + 1) with true by lia. cbv zeta. rewrite bytes_ltb_refl. cbn.
  unfold len. by rewrite Nat2Z.id, firstn_all.
Qed.

Lemma zstd_pair L : zstd_ok L -> CodecPair (encodeZstd L) (decompressZstd L).
Proof.
  intros Hz. apply pair_of_decode.
  2:{ intros n raw. unfold decompressZstd. destruct (n <? 0); [done|]. by destruct (n >? MaxRawBlockSize). }
  intros raw c Hraw. unfold encodeZstd. intros (out & Hw & Hb)%bind_Ok. apply bounded_Write_Ok in Hb as ->.
  unfold wrap in Hw. destruct (zstd_compress L raw) as [o|] eqn:Ec; [|done]. apply (inj Ok) in Hw as ->.
  destruct (Hz _ _ Ec) as [Hne Hd]. rewrite app_nil_l. pose proof (len_nonneg raw). unfold decompressZstd.
  replace (len raw <? 0) with false by lia. replace (len raw >? MaxRawBlockSize) with false by lia.
  replace (len out =? 0) with false by (destruct out; [done|]; rewrite len_cons; pose proof (len_nonneg out); lia).
  rewrite Hd. by rewrite bytes_ltb_refl.
Qed.

(** A block encoded under a codec both sides agree on, placed in the file,
    is read back whole. *)
Lemma Block_Encode c d codec `{!CodecAgrees c d codec} src file raw p region post :
  Encode c raw codec = Ok p -> Serves src (file ++ post) -> holds file region p -> post <> [] ->
  BCFile.RawSize region = len raw -> Block d src region codec = Ok raw.
Proof.
  unfold Encode. intros He Hs (pre & post' & -> & Ho & Hc) Hne Hr. pose proof (len_nonneg raw). pose proof (len_nonneg p).
  destruct (Z.gtb_spec (len raw) MaxRawBlockSize); [done|].
  destruct (c !! codec) as [enc|] eqn:Ec; [|done]. apply bind_Ok in He as (p' & He & Hlim).
  destruct (Z.gtb_spec (len p') MaxCompressedBlockSize); [done|]. apply (inj Ok) in Hlim as ->.
  destruct (codec_agrees enc Ec) as (dec & Hd & Hpair). unfold Block.
  assert ((d !! codec : option CodecFunc) = Some dec) as Hd' by exact Hd. unfold CodecFunc in *. rewrite Hr, Hc, Hd'.
  replace (len p <? 0) with false by lia. replace (len raw <? 0) with false by lia.
  replace (len p >? MaxCompressedBlockSize) with false by lia. replace (len raw >? MaxRawBlockSize) with false by lia.
  assert ((if len p >? 0 then wrap "block: read compressed bytes" (src (Offset region) (len p)) else Ok []) = Ok p) as ->.
  { destruct (Z.gtb_spec (len p) 0).
    - rewrite Ho. rewrite (serves_at src _ pre p (post' ++ post) Hs); [done|by rewrite <-!(assoc_L (++))|].
      destruct p, post'; cbn; congruence.
    - assert (p = []) as -> by (apply len_0_nil; lia). done. }
  cbn [mbind result_bind]. by apply Hpair.
Qed.

(** ** Properties *)

Definition libraries_ok (L : Libraries) : Prop := snappy_ok L /\ lz4_ok L /\ zlib_ok L /\ zstd_ok L.

Lemma register_agrees c d codec name enc dec :
  CodecPair enc dec -> CodecAgrees c d codec -> CodecAgrees (Register name enc c) (Register name dec d) codec.
Proof.
  intros Hp Ha e He. unfold Register in *. destruct (decide (name = codec)) as [->|Hne].
  - rewrite (lookup_insert_eq c codec enc) in He. injection He as <-. exists dec.
    split; [exact (lookup_insert_eq d codec dec)|done].
  - rewrite (lookup_insert_ne c name codec enc Hne) in He. destruct (Ha e He) as (dec' & Hd & Hp').
    exists dec'. split; [|done]. etrans; [exact (lookup_insert_ne d name codec dec Hne)|exact Hd].
Qed.

Lemma default_agrees L codec : libraries_ok L -> CodecAgrees (DefaultCompressor L) (Default L) codec.
Proof.
  intros (H1 & H2 & H3 & H4). unfold DefaultCompressor, Default.
  apply register_agrees; [by apply lz4_pair|]. apply register_agrees; [by apply zstd_pair|].
  apply register_agrees; [by apply snappy_pair|]. apply register_agrees; [by apply gzip_pair|].
  apply register_agrees; [apply none_pair|]. intros e He. by apply lookup_empty_Some in He.
Qed.

(** Every codec the writer can use is read back.  For each of the five
    registered codecs, if the compression libraries do what they document, a
    block that [Encode] accepts, wherever it is placed in a file, is returned
    by [Block] byte for byte: the Hadoop framings of snappy and lz4, the
    cutting of lz4 input into chunks with incompressible ones stored as
    literals, and the size checks never get in the way. *)
Theorem codec_roundtrip L codec raw p src file region post :
  libraries_ok L -> Encode (DefaultCompressor L) raw codec = Ok p ->
  Serves src (file ++ post) -> post <> [] -> holds file region p -> BCFile.RawSize region = len raw ->
  Block (Default L) src region codec = Ok raw.
Proof. intros HL He Hs Hne Hh Hr. pose proof (default_agrees L codec HL). by eapply Block_Encode. Qed.

(** Libraries that satisfy their documentation: identities, an lz4 that
    compresses nothing and decodes literal blocks. *)
Fixpoint skip_run (s : bytes) : bytes :=
  match s with b :: s => if b =? 255 then skip_run s else s | [] => [] end.
Definition literal_decode (s : bytes) (room : Z) : result bytes :=
  match s with
  | t :: s => Ok (if t <? 240 then s else skip_run s)
  | [] => Err (Fail "lz4: empty block")
  end.
Definition demo_libraries : Libraries :=
  mkLibraries (fun raw => raw) (fun s => Ok (len s)) (fun s => Ok s) (fun _ _ => Ok []) literal_decode
    (Fail "lz4: short buffer") (fun raw => 120 :: raw)
    (fun s => match s with [] => Err EOF | _ :: s => Ok (s, EOF) end) (fun raw => Ok (0 :: raw)) (fun s _ => Ok (drop 1 s)) (Fail "zstd: size exceeded").

Lemma skip_run_literal n r chunk : r < 255 -> skip_run (replicate n 255 ++ r :: chunk) = chunk.
Proof. intros Hr. induction n as [|n IH]; [|done]. cbn. by replace (r =? 255) with false by lia. Qed.

Lemma literal_decode_ok chunk room : literal_decode (encodeLZ4LiteralBlock chunk) room = Ok chunk.
Proof.
  unfold encodeLZ4LiteralBlock, literal_decode. cbn [app]. pose proof (len_nonneg chunk).
  destruct (Z.geb_spec (len chunk) 15).
  - replace (Z.min (len chunk) 15) with 15 by lia. change (uint8 (Z.shiftl 15 4) <? 240) with false. cbv iota zeta.
    rewrite <-(assoc_L (++)). cbn [app]. rewrite skip_run_literal; [done|]. unfold uint8.
    pose proof (Z.mod_pos_bound (len chunk - 15) 255 ltac:(lia)). rewrite Z.mod_small; lia.
  - replace (Z.min (len chunk) 15) with (len chunk) by lia. rewrite Z.shiftl_mul_pow2 by lia. unfold uint8.
    rewrite Z.mod_small by lia. by replace (len chunk * 2 ^ 4 <? 240) with true by lia.
Qed.

Lemma demo_libraries_ok : libraries_ok demo_libraries.
Proof.
  split; [|split; [|split]].
  - intros raw. split_and!; [done|done|]. cbn. pose proof (Z.div_pos (len raw) 6 (len_nonneg raw) ltac:(lia)). lia.
  - intros chunk room Hne Hl Hr. split; [by intros enc [= <-]|]. apply literal_decode_ok.
  - split; [done|]. by exists EOF.
  - by intros raw c [= <-].
Qed.

Definition demo_raw : bytes := replicate 20 7.
Definition demo_block : bytes := [0; 0; 0; 20; 0; 0; 0; 22; 240; 5] ++ demo_raw.

Lemma codec_roundtrip_witness :
  Encode (DefaultCompressor demo_libraries) demo_raw CodecLZ4 = Ok demo_block /\
  Block (Default demo_libraries) (bytes_ReadAt (([1; 2] ++ demo_block) ++ [9])) (mkRegion 2 30 20) CodecLZ4 = Ok demo_raw.
Proof.
  assert (Encode (DefaultCompressor demo_libraries) demo_raw CodecLZ4 = Ok demo_block) as He by (vm_compute; reflexivity).
  split; [exact He|].
  apply (codec_roundtrip demo_libraries CodecLZ4 demo_raw demo_block _ ([1; 2] ++ demo_block) (mkRegion 2 30 20) [9]).
  - exact demo_libraries_ok.
  - exact He.
  - apply bytes_Serves.
  - discriminate.
  - exists [1; 2], []. split; [reflexivity|]. split; reflexivity.
  - reflexivity.
Defined.
