(* ===== verification/RFileWriter.v ===== *)
(** * RFileWriter: producing an RFile (src/internal/rfile/writer.go)

    The writer encodes cells into data blocks, compresses them into a BCFile,
    and builds the multi-level index over them level by level, each level
    written out as a block when it overflows; closing it writes the RFile.index
    meta block and the optional side sections.  Methods thread the writer's
    state and may fail; what they changed before a failure stays changed. *)

From S2P Require Import Prelude Wire RelKey BCFile Container Index EmbeddingSpace BlockMeta Adjacency IndexFile Codec.

Definition DefaultBlockSize : Z := 100 * 1024.
Definition DefaultIndexBlockSize : Z := 128 * 1024.
Definition MaxRunBlockSize : Z := 64 * 1024 * 1024.

(** "RFile.index" (reader.go) *)
Definition IndexMetaBlockName : bytes := [82; 70; 105; 108; 101; 46; 105; 110; 100; 101; 120].

Definition ErrKeyOutOfOrder : err := Fail "rfile: key appended out of order".
Definition ErrClosed : err := Fail "rfile: writer closed".

(** nil for the default compressor. *)
Record WriterOptions := mkOptions {
  opt_Codec : bytes;
  BlockSize : Z;
  IndexBlockSize : Z;
  opt_Compressor : option Compressor;
  BlockMetaBuilders : list OverlayBuilder;
  AdjacencyEdgeCF : bytes;
  opt_EmbeddingSpace : FileState;
}.

(** A level of the index under construction. *)
Record indexLevel := mkLevel { level : Z; levelOffset : Z; entryData : bytes; entryOffsets : list Z }.

(** The data block under construction. *)
Record blockState := mkBlockState {
  blockBuf : bytes;
  blockPrev : option Key;
  blockLast : option Key;
  blockEntries : Z;
}.
Definition empty_block : blockState := mkBlockState [] None None 0.

(** The state of the current locality group.  A level that has been written
    out for good is nil. *)
Record groupState := mkGroupState {
  lastKey : option Key;
  levels : list (option indexLevel);
  totalAdded : Z;
  pendingLeaf : option IndexEntry;
  firstKey : option Key;
  cfCounts : gmap bytes Z;
}.
Definition empty_group : groupState := mkGroupState None [] 0 None None ∅.

(** [Writer]: the fields a cell or an index entry changes are grouped in
    [blk] and [grp]. *)
Record Writer := mkRWriter {
  out : Container.Writer;
  comp : Compressor;
  opts : WriterOptions;
  runBlockCap : Z;
  blk : blockState;
  grp : groupState;
  localityGroups : list LocalityGroup;
  currentLGName : bytes;
  currentDefault : bool;
  localityNames : gset bytes;
  bmBuilders : list OverlayBuilder;
  blockOverlays : list (list Overlay);
  adjBuilder : option Builder;
  closed : bool;
}.

Definition set_out o w := mkRWriter o (comp w) (opts w) (runBlockCap w) (blk w) (grp w) (localityGroups w)
  (currentLGName w) (currentDefault w) (localityNames w) (bmBuilders w) (blockOverlays w) (adjBuilder w) (closed w).
Definition set_blk b w := mkRWriter (out w) (comp w) (opts w) (runBlockCap w) b (grp w) (localityGroups w)
  (currentLGName w) (currentDefault w) (localityNames w) (bmBuilders w) (blockOverlays w) (adjBuilder w) (closed w).
Definition set_grp g w := mkRWriter (out w) (comp w) (opts w) (runBlockCap w) (blk w) g (localityGroups w)
  (currentLGName w) (currentDefault w) (localityNames w) (bmBuilders w) (blockOverlays w) (adjBuilder w) (closed w).
Definition add_group lg w := mkRWriter (out w) (comp w) (opts w) (runBlockCap w) (blk w) (grp w) (localityGroups w ++ [lg])
  (currentLGName w) (currentDefault w) (localityNames w) (bmBuilders w) (blockOverlays w) (adjBuilder w) (closed w).
Definition start_group name w := mkRWriter (out w) (comp w) (opts w) (runBlockCap w) (blk w) (grp w) (localityGroups w)
  name false ({[name]} ∪ localityNames w) (bmBuilders w) (blockOverlays w) (adjBuilder w) (closed w).
Definition set_overlays bs os w := mkRWriter (out w) (comp w) (opts w) (runBlockCap w) (blk w) (grp w) (localityGroups w)
  (currentLGName w) (currentDefault w) (localityNames w) bs os (adjBuilder w) (closed w).
Definition set_adj a w := mkRWriter (out w) (comp w) (opts w) (runBlockCap w) (blk w) (grp w) (localityGroups w)
  (currentLGName w) (currentDefault w) (localityNames w) (bmBuilders w) (blockOverlays w) a (closed w).
Definition set_rclosed w := mkRWriter (out w) (comp w) (opts w) (runBlockCap w) (blk w) (grp w) (localityGroups w)
  (currentLGName w) (currentDefault w) (localityNames w) (bmBuilders w) (blockOverlays w) (adjBuilder w) true.

Definition set_levels ls g := mkGroupState (lastKey g) ls (totalAdded g) (pendingLeaf g) (firstKey g) (cfCounts g).
Definition set_total n g := mkGroupState (lastKey g) (levels g) n (pendingLeaf g) (firstKey g) (cfCounts g).
Definition set_pending p g := mkGroupState (lastKey g) (levels g) (totalAdded g) p (firstKey g) (cfCounts g).

(** ** The methods' monad: the state and an error *)

Definition meth (A : Type) : Type := Writer -> Writer * result A.
#[global] Instance meth_ret : MRet meth := fun A a w => (w, Ok a).
#[global] Instance meth_bind : MBind meth := fun A B f m w =>
  match m w with (w, Ok a) => f a w | (w, Err e) => (w, Err e) end.

Definition throw {A} (e : err) : meth A := fun w => (w, Err e).
Definition get : meth Writer := fun w => (w, Ok w).
Definition modify (f : Writer -> Writer) : meth unit := fun w => (f w, Ok tt).
(** A step that leaves the writer alone. *)
Definition lift {A} (r : result A) : meth A := fun w => (w, r).
(** A step of the BCFile writer. *)
Definition on_out {A} (msg : string) (f : Container.Writer -> Container.Writer * result A) : meth A :=
  fun w => let '(o, r) := f (out w) in (set_out o w, wrap msg r).

(** ** Construction *)

Definition newAdjBuilder (edgeCF : bytes) : option Builder :=
  match edgeCF with [] => None | _ => Some (NewBuilder edgeCF) end.

Section writer.
(** The compression libraries, the order of map iterations, json.Marshal. *)
Context (L : Libraries) (order : gmap bytes Z -> list (bytes * Z)) (Marshal : FileState -> result bytes).

Definition NewWriter (o : WriterOptions) : result Writer :=
  let codec := match opt_Codec o with [] => CodecNone | c => c end in
  let blockSize := if BlockSize o <=? 0 then DefaultBlockSize else BlockSize o in
  let indexBlockSize := if IndexBlockSize o <=? 0 then DefaultIndexBlockSize else IndexBlockSize o in
  let compressor := match opt_Compressor o with None => DefaultCompressor L | Some c => c end in
  let o := mkOptions codec blockSize indexBlockSize (Some compressor) (BlockMetaBuilders o) (AdjacencyEdgeCF o)
             (opt_EmbeddingSpace o) in
  if negb (Codec.Has codec compressor) then Err (Fail "rfile: codec not registered in compressor")
  else
    let cap := if BlockSize o >? MaxRunBlockSize then BlockSize o else MaxRunBlockSize in
    Ok (mkRWriter (Container.NewWriter codec) compressor o cap empty_block empty_group [] [] true ∅
          (BlockMetaBuilders o) [] (newAdjBuilder (AdjacencyEdgeCF o)) false).

(** ** The multi-level index *)

Definition addEntry (e : IndexEntry) (l : indexLevel) : indexLevel :=
  mkLevel (level l) (levelOffset l) (entryData l ++ WriteIndexEntry e) (entryOffsets l ++ [int32 (len (entryData l))]).
Definition size (l : indexLevel) : Z := len (entryData l) + 4 * len (entryOffsets l).
Definition numEntries (l : indexLevel) : Z := len (entryOffsets l).
Definition toBlock (l : indexLevel) (hasNext : bool) : IndexBlock :=
  mkIndexBlock (level l) (levelOffset l) hasNext (entryOffsets l) (entryData l).

(** Appending to a level that was finalized dereferences nil, a level beyond
    the next is out of range. *)
Definition indexAddAtLevel (lv : nat) (e : IndexEntry) : meth unit :=
  w ← get;
  let ls := levels (grp w) in
  let ls := if (lv =? length ls)%nat
            then ls ++ [Some (mkLevel (Z.of_nat lv) (int32 (totalAdded (grp w) - 1)) [] [])] else ls in
  match ls !! lv with
  | Some (Some l) => modify (set_grp (set_levels (<[lv := Some (addEntry e l)]> ls) (grp w)))
  | Some None => throw (Fail "panic: nil index level")
  | None => throw (Fail "panic: index level out of range")
  end.

(** The recursion climbs one level at a time and stops at the topmost, so the
    levels left are enough fuel. *)
Fixpoint indexFlushLevel (fuel : nat) (lv : nat) (lastKey : Key) (last : bool) : meth unit :=
  match fuel with
  | O => throw (Fail "out of fuel")
  | S fuel =>
      w ← get;
      if last && (Z.of_nat lv =? len (levels (grp w)) - 1) then mret tt
      else match levels (grp w) !! lv with
      | None => throw (Fail "panic: index level out of range")
      | Some None => throw (Fail "rfile: cascade hit nil level")
      | Some (Some lvl) =>
          let overflow := (size lvl >? IndexBlockSize (opts w)) && (numEntries lvl >? 1) in
          if negb overflow && negb last then mret tt
          else if numEntries lvl =? 0 then mret tt
          else
            let ibBuf := WriteIndexBlock (toBlock lvl (negb last)) in
            let rawSize := len ibBuf in
            compressed ← lift (wrap "rfile: compress IndexBlock" (Encode (comp w) ibBuf (opt_Codec (opts w))));
            region ← on_out "rfile: write IndexBlock" (AppendDataBlock compressed rawSize);
            let parent := mkIndexEntry lastKey 0 (Offset region) (CompressedSize region) (RawSize region) in
            _ ← indexAddAtLevel (S lv) parent;
            _ ← indexFlushLevel fuel (S lv) lastKey last;
            w ← get;
            let reset := if last then None
                         else Some (mkLevel (Z.of_nat lv) (totalAdded (grp w)) [] []) in
            modify (set_grp (set_levels (<[lv := reset]> (levels (grp w))) (grp w)))
      end
  end.

Definition indexAdd (leaf : IndexEntry) (last : bool) : meth unit :=
  _ ← modify (fun w => set_grp (set_total (int32 (totalAdded (grp w) + 1)) (grp w)) w);
  _ ← indexAddAtLevel 0 leaf;
  w ← get;
  indexFlushLevel (S (length (levels (grp w)))) 0 (ie_Key leaf) last.

Definition buildRoot (w : Writer) : result IndexBlock :=
  match list.last (levels (grp w)) with
  | None => Ok (mkIndexBlock 0 0 false [] [])
  | Some None => Err (Fail "rfile: top level finalized; multi-level cascade bug")
  | Some (Some top) => Ok (toBlock top false)
  end.

(** ** Data blocks *)

(** The loop over the builders at a flush: a nil payload is not emitted. *)
Fixpoint snapshots (bs : list OverlayBuilder) : list Overlay :=
  match bs with
  | [] => []
  | b :: bs =>
      match Snapshot b with Some payload => [mkOverlay (ob_OverlayType b) payload] | None => [] end ++ snapshots bs
  end.

Definition flushDataBlock : meth unit :=
  w ← get;
  if len (blockBuf (blk w)) =? 0 then mret tt
  else
    let raw := blockBuf (blk w) in
    let rawSize := len raw in
    compressed ← lift (wrap "rfile.flushDataBlock: compress" (Encode (comp w) raw (opt_Codec (opts w))));
    region ← on_out "rfile.flushDataBlock: BCFile append" (AppendDataBlock compressed rawSize);
    match blockLast (blk w) with
    | None => throw (Fail "panic: nil block key")
    | Some key =>
        let leaf := mkIndexEntry key (blockEntries (blk w)) (Offset region) (CompressedSize region) (RawSize region) in
        _ ← (match bmBuilders w with
             | [] => mret tt
             | bs => modify (set_overlays (BlockMeta.Reset <$> bs) (blockOverlays w ++ [snapshots bs]))
             end);
        _ ← (match pendingLeaf (grp w) with Some p => indexAdd p false | None => mret tt end);
        modify (fun w => set_blk empty_block (set_grp (set_pending (Some leaf) (grp w)) w))
    end.

(** [w.cfCounts[cf]++]. *)
Definition count_cf (cf : bytes) (m : gmap bytes Z) : gmap bytes Z := <[cf := int64 (default 0 (m !! cf) + 1)]> m.

(** What appending does once the block has room. *)
Definition add_cell (k : Key) (value : bytes) (w : Writer) : Writer :=
  let b := blk w in
  let g := grp w in
  let w := set_blk (mkBlockState (blockBuf b ++ EncodeKey (blockPrev b) k value) (Some k) (Some k)
                      (int32 (blockEntries b + 1))) w in
  let w := set_grp (mkGroupState (Some k) (levels g) (totalAdded g) (pendingLeaf g)
                      (match firstKey g with None => Some k | f => f end) (count_cf (ColumnFamily k) (cfCounts g))) w in
  let w := set_overlays (AppendCell k value <$> bmBuilders w) (blockOverlays w) w in
  match adjBuilder w with
  | Some a => if bytes_Equal (ColumnFamily k) (b_edgeCF a)
              then set_adj (Some (Add (Row k) (ColumnQualifier k) value (ColumnVisibility k) (Timestamp k) (Deleted k) a)) w
              else w
  | None => w
  end.

(** A nil key is [None]. *)
Definition Append (key : option Key) (value : bytes) : meth unit :=
  w ← get;
  if closed w then throw ErrClosed
  else match key with
  | None => throw (Fail "rfile: nil key")
  | Some k =>
      _ ← (match lastKey (grp w) with
           | None => mret tt
           | Some l =>
               let c := Compare k l in
               if is_lt c then throw (Wrap "sorts before" ErrKeyOutOfOrder)
               else
                 let size := len (blockBuf (blk w)) in
                 if (is_gt c && (size >=? BlockSize (opts w))) || (size >=? runBlockCap w)
                 then flushDataBlock else mret tt
           end);
      modify (add_cell k value)
  end.

(** ** Locality groups *)

Definition finalizeCurrentLocalityGroup : meth unit :=
  _ ← flushDataBlock;
  w ← get;
  _ ← (match pendingLeaf (grp w) with
       | Some p => _ ← indexAdd p true; modify (fun w => set_grp (set_pending None (grp w)) w)
       | None => mret tt
       end);
  w ← get;
  root ← lift (wrap "rfile: build locality group root index" (buildRoot w));
  let lg := mkLG (currentDefault w) (currentLGName w) 0 (Some (cfCounts (grp w))) (firstKey (grp w))
              (totalAdded (grp w)) root in
  modify (fun w => set_blk empty_block (set_grp empty_group (add_group lg w))).

Definition AddLocalityGroup (name : bytes) : meth unit :=
  w ← get;
  if closed w then throw ErrClosed
  else if bool_decide (name = []) then throw (Fail "rfile: locality group name is empty")
  else if bool_decide (name ∈ localityNames w) then throw (Fail "rfile: duplicate locality group")
  else
    _ ← finalizeCurrentLocalityGroup;
    modify (start_group name).

(** ** Closing *)

Fixpoint write_groups (groups : list LocalityGroup) : result bytes :=
  match groups with
  | [] => Ok []
  | lg :: groups => b ← WriteLocalityGroup order lg V8; bs ← write_groups groups; Ok (b ++ bs)
  end.

Definition writeRFileIndexMeta (groups : list LocalityGroup) : result bytes :=
  body ← write_groups groups;
  Ok (WriteInt32 RIndexMagic ++ WriteInt32 V8 ++ WriteInt32 (int32 (len groups)) ++ body ++
      WriteBool false ++ WriteBool false).

Definition close_blockmeta : meth unit :=
  w ← get;
  match bmBuilders w with
  | [] => mret tt
  | _ =>
      let bmBuf := BlockMeta.Write (mkBlockMeta BlockMeta.V1 [] (blockOverlays w)) in
      _ ← on_out "rfile.Close: register blockmeta" (AppendMetaBlock BlockMeta.MetaBlockName CodecNone bmBuf (len bmBuf));
      mret tt
  end.

Definition close_embedding : meth unit :=
  w ← get;
  if bool_decide (State (opt_EmbeddingSpace (opts w)) = []) then mret tt
  else
    encoded ← lift (wrap "rfile.Close: encode" (EmbeddingSpace.Encode Marshal (opt_EmbeddingSpace (opts w))));
    _ ← on_out "rfile.Close: register embedding space"
          (AppendMetaBlock RFileMetaBlockName CodecNone encoded (len encoded));
    mret tt.

Definition close_adjacency : meth unit :=
  w ← get;
  match adjBuilder w with
  | None => mret tt
  | Some a =>
      let '(a, ix) := Build a in
      _ ← modify (set_adj (Some a));
      match ix with
      | None => mret tt
      | Some ix =>
          let adjBuf := Adjacency.Write ix in
          compressed ← lift (wrap "rfile.Close: compress" (Encode (comp w) adjBuf (opt_Codec (opts w))));
          _ ← on_out "rfile.Close: register adjacency"
                (AppendMetaBlock Adjacency.MetaBlockName (opt_Codec (opts w)) compressed (len adjBuf));
          mret tt
      end
  end.

Definition Close : meth unit :=
  w ← get;
  if closed w then mret tt
  else
    _ ← modify set_rclosed;
    _ ← finalizeCurrentLocalityGroup;
    w ← get;
    rfIdx ← lift (wrap "rfile.Close: serialize RFile.index" (writeRFileIndexMeta (localityGroups w)));
    _ ← on_out "rfile.Close: register RFile.index" (AppendMetaBlock IndexMetaBlockName CodecNone rfIdx (len rfIdx));
    _ ← close_blockmeta;
    _ ← close_embedding;
    _ ← close_adjacency;
    on_out "rfile.Close: BCFile close"
      (fun o => let '(o, e) := Container.Close o in (o, match e with Some e => Err e | None => Ok tt end)).
End writer.
