(* ===== verification/RFileReader.v ===== *)
(** * RFileReader: reading an RFile (src/internal/rfile/reader.go)

    Opening a file parses and checks its directory; the reader then walks the
    leaves of one locality group, opens data blocks one after another, and
    presents the group's cells through [Seek] and [Next], with a per-cell
    filter and a per-block skip predicate.

    The reader is modelled with the block cache disabled; the fetch
    through a cache and shared files are in [RFileShared].  The prefetcher is never started by the
    code.  The functions that read index and side sections at open time work
    on the fields they use; [Seek] and [Next] thread the whole reader. *)

From S2P Require Import Prelude Wire Iter RelKey BCFile Container Cache Index EmbeddingSpace BlockMeta Adjacency IndexFile.
From S2P Require Import Codec RFileWriter.

(** ** Fetching blocks *)

Section file.
Context (Unmarshal : bytes -> result FileState) (bc : Container.Reader) (dec : Decompressor).

(** Without a cache. *)
Definition fetchBlock (region : BlockRegion) (codec : bytes) : result bytes :=
  match ValidateBlockRegion region (fileLength bc) with
  | Some e => Err e
  | None => Block dec (src bc) region codec
  end.

(** A nil [dataBlockSet] is [None]. *)
Definition fetchDataBlock (dataBlockSet : option (list BlockRegion)) (region : BlockRegion) (codec : bytes) : result bytes :=
  match ValidateBlockRegion region (DataRegionEnd bc) with
  | Some e => Err e
  | None =>
      if match dataBlockSet with
         | Some set_ => negb (existsb (fun r => (Offset r =? Offset region) &&
             (CompressedSize r =? CompressedSize region) && (RawSize r =? RawSize region)) set_)
         | None => false
         end
      then Err (Fail "rfile: block region is not declared by BCFile.index")
      else fetchBlock region codec
  end.

(** ** Opening *)

Fixpoint validateDataRegions_from (previous : option BlockRegion) (regions : list BlockRegion) (dataRegionEnd : Z) : option err :=
  match regions with
  | [] => None
  | region :: regions =>
      match ValidateBlockRegion region dataRegionEnd with
      | Some e => Some (Wrap "validate DataIndex block" e)
      | None =>
          if match previous with
             | Some p => Offset region <? int64 (Offset p + CompressedSize p)
             | None => false
             end
          then Some (Fail "validate DataIndex block: overlaps or precedes block")
          else validateDataRegions_from (Some region) regions dataRegionEnd
      end
  end.
Definition validateDataRegions (regions : list BlockRegion) (dataRegionEnd : Z) : option err :=
  validateDataRegions_from None regions dataRegionEnd.

(** The codec and the declared data blocks. *)
Definition loadDataCodec : result (bytes * list BlockRegion) :=
  entry ← wrap "locate" (MetaBlockEntry bc DataIndexBlockName);
  raw ← wrap "decompress" (fetchBlock (Region entry) (CompressionAlgo entry));
  '(di, _) ← wrap "parse DataIndex" (ReadDataIndex raw);
  match validateDataRegions (Blocks di) (DataRegionEnd bc) with
  | Some e => Err e
  | None => Ok (DefaultCompression di, Blocks di)
  end.

Definition dataBlockSet (blocks : list BlockRegion) : option (list BlockRegion) :=
  match blocks with [] => None | _ => Some blocks end.

(** An absent section is nil, a present one must parse. *)
Definition loadSection {A} (name : bytes) (parse : bytes -> result A) : result (option A) :=
  match MetaBlockEntry bc name with
  | Err _ => Ok None
  | Ok entry =>
      raw ← wrap "decompress" (fetchBlock (Region entry) (CompressionAlgo entry));
      a ← wrap "parse" (parse raw);
      Ok (Some a)
  end.

Definition loadBlockMeta : result (option BlockMeta) :=
  loadSection BlockMeta.MetaBlockName (fun raw => '(bm, _) ← BlockMeta.Parse raw; Ok bm).
Definition loadAdjacency : result (option Adjacency.Index) :=
  loadSection Adjacency.MetaBlockName (fun raw => '(ix, _) ← Adjacency.Parse raw; Ok ix).
Definition loadEmbeddingSpace : result FileState :=
  s ← loadSection RFileMetaBlockName (EmbeddingSpace.Decode Unmarshal);
  Ok (match s with Some s => s | None => Unknown end).

(** The checks on one group after those before it; which of several repeated
    families is reported depends on the map's iteration. *)
Fixpoint check_groups (groups : list LocalityGroup) (defaultGroups : Z) (named : gset bytes) (families : gset bytes)
  : result Z :=
  match groups with
  | [] => Ok defaultGroups
  | lg :: groups =>
      '(defaultGroups, named) ←
        (if IsDefault lg then
           if negb (bool_decide (lg_Name lg = [])) then Err (Fail "rfile: default locality group has a name")
           else Ok (defaultGroups + 1, named)
         else if bool_decide (lg_Name lg = []) then Err (Fail "rfile: named locality group has an empty name")
         else if bool_decide (lg_Name lg ∈ named) then Err (Fail "rfile: locality groups have duplicate name")
         else Ok (defaultGroups, {[lg_Name lg]} ∪ named));
      let cfs : gset bytes := match ColumnFamilies lg with Some m => dom m | None => ∅ end in
      if negb (bool_decide (cfs ## families)) then Err (Fail "rfile: column family belongs to two locality groups")
      else match ValidateBlock (Some (RootIndex lg)) with
      | Some e => Err (Wrap "rfile: locality group root index" e)
      | None =>
          if negb (Bool.eqb (Z.of_nat (block_Len (RootIndex lg)) =? 0) (NumTotalEntries lg =? 0))
          then Err (Fail "rfile: locality group total-entry count is inconsistent with its root index")
          else check_groups groups defaultGroups named (cfs ∪ families)
      end
  end.

Definition validateReadableIndex (idx : IndexFile.Reader) : option err :=
  match VectorExtension idx with
  | Some _ => Some (Fail "rfile: vector-index extensions are not supported")
  | None =>
      if negb (len (SampleGroups idx) =? 0) || match Sampler idx with Some _ => true | None => false end
      then Some (Fail "rfile: sampled files are not supported")
      else match check_groups (Groups idx) 0 ∅ ∅ with
      | Err e => Some e
      | Ok n => if negb (n =? 1) then Some (Fail "rfile: expected exactly one default locality group") else None
      end
  end.

Fixpoint pickDefaultLG (groups : list LocalityGroup) : option LocalityGroup :=
  match groups with
  | [] => None
  | g :: groups => if IsDefault g then Some g else pickDefaultLG groups
  end.

Definition makeWalker (version : Z) (root : IndexBlock) (blocks : list BlockRegion) (dataCodec : bytes) : Walker :=
  mkWalker (Some root) (Some (fun region =>
    raw ← wrap "level-reader fetch" (fetchDataBlock (dataBlockSet blocks) region dataCodec);
    '(b, _) ← ReadIndexBlock version raw; Ok (Some b))).

(** ** The reader *)

(** [leafIdx], the entry, the file's block metadata. *)
Definition SkipPredicate : Type := nat -> IndexEntry -> option BlockMeta -> bool.

Record Reader := mkRReader {
  lg : LocalityGroup;
  walker : Walker;
  dataCodec : bytes;
  dataBlocks : list BlockRegion;
  bm : option BlockMeta;
  adj : option Adjacency.Index;
  embeddingSpace : FileState;
  filter_ : option (Key -> bool);
  skipPred : option SkipPredicate;
  sharedLeaves : bool;
  leaves : list IndexEntry;
  leafIdx : nat;
  currentBlk : option RelKey.Reader;
  pending : option (Key * bytes);
  exhausted : bool;
  lastErr : option err;
}.

Definition new_reader (version : Z) (g : LocalityGroup) (codec : bytes) (blocks : list BlockRegion)
    (bm : option BlockMeta) (adj : option Adjacency.Index) (es : FileState) : Reader :=
  mkRReader g (makeWalker version (RootIndex g) blocks codec) codec blocks bm adj es None None false [] 0 None None false None.

(** The checked directory of a file. *)
Definition open_index : result IndexFile.Reader :=
  metaEntry ← wrap "rfile: locate" (MetaBlockEntry bc IndexMetaBlockName);
  rawIndex ← wrap "rfile: decompress" (fetchBlock (Region metaEntry) (CompressionAlgo metaEntry));
  idx ← wrap "rfile: parse" (Parse rawIndex);
  match validateReadableIndex idx with Some e => Err e | None => Ok idx end.

Definition Open : result Reader :=
  idx ← open_index;
  match pickDefaultLG (Groups idx) with
  | None => Err (Fail "rfile: no default locality group found")
  | Some defaultLG =>
      '(codec, blocks) ← wrap "rfile: load data codec" loadDataCodec;
      bm ← wrap "rfile: load blockmeta" loadBlockMeta;
      adj ← wrap "rfile: load adjacency" loadAdjacency;
      es ← wrap "rfile: load embedding space" loadEmbeddingSpace;
      Ok (new_reader (Version idx) defaultLG codec blocks bm adj es)
  end.

Definition OpenAll : result (list Reader) :=
  idx ← open_index;
  '(codec, blocks) ← wrap "rfile: load data codec" loadDataCodec;
  bm ← wrap "rfile: load blockmeta" loadBlockMeta;
  adj ← wrap "rfile: load adjacency" loadAdjacency;
  es ← wrap "rfile: load embedding space" loadEmbeddingSpace;
  if len (Groups idx) =? 0 then Err (Fail "rfile: file has no locality groups")
  else Ok ((fun g => new_reader (Version idx) g codec blocks bm adj es) <$>
             List.filter (fun g => negb (Z.of_nat (block_Len (RootIndex g)) =? 0)) (Groups idx)).

(** ** Seeking and iterating *)

Definition collectLeaves (r : Reader) : result (list IndexEntry) :=
  IterateLeaves (walker r) (fun out e => Ok (out ++ [e])) [].

(** The fields an iteration changes. *)
Definition set_cursor (i : nat) (blk : option RelKey.Reader) (p : option (Key * bytes)) (ex : bool) (e : option err)
    (r : Reader) : Reader :=
  mkRReader (lg r) (walker r) (dataCodec r) (dataBlocks r) (bm r) (adj r) (embeddingSpace r) (filter_ r) (skipPred r) (sharedLeaves r)
    (leaves r) i blk p ex e.
Definition set_leaves (ls : list IndexEntry) (r : Reader) : Reader :=
  mkRReader (lg r) (walker r) (dataCodec r) (dataBlocks r) (bm r) (adj r) (embeddingSpace r) (filter_ r) (skipPred r) (sharedLeaves r)
    ls (leafIdx r) (currentBlk r) (pending r) (exhausted r) (lastErr r).
Definition SetSkipPredicate (p : option SkipPredicate) (r : Reader) : Reader :=
  mkRReader (lg r) (walker r) (dataCodec r) (dataBlocks r) (bm r) (adj r) (embeddingSpace r) (filter_ r) p (sharedLeaves r)
    (leaves r) (leafIdx r) (currentBlk r) (pending r) (exhausted r) (lastErr r).
Definition SetFilter (f : Key -> bool) (r : Reader) : Reader :=
  mkRReader (lg r) (walker r) (dataCodec r) (dataBlocks r) (bm r) (adj r) (embeddingSpace r) (Some f) (skipPred r) (sharedLeaves r)
    (leaves r) (leafIdx r) (RelKey.SetFilter f <$> currentBlk r) (pending r) (exhausted r) (lastErr r).

Definition closeCurrentBlock (r : Reader) : Reader := set_cursor (leafIdx r) None None (exhausted r) (lastErr r) r.
Definition exhaust (r : Reader) : Reader := set_cursor (leafIdx r) (currentBlk r) (pending r) true (lastErr r) r.
Definition fail_with (e : err) (r : Reader) : Reader :=
  set_cursor (leafIdx r) (currentBlk r) (pending r) (exhausted r) (Some e) r.
Definition set_leafIdx (i : nat) (r : Reader) : Reader :=
  set_cursor i (currentBlk r) (pending r) (exhausted r) (lastErr r) r.
Definition set_blk (b : RelKey.Reader) (r : Reader) : Reader :=
  set_cursor (leafIdx r) (Some b) (pending r) (exhausted r) (lastErr r) r.
Definition bufferPending (c : Key * bytes) (r : Reader) : Reader :=
  set_cursor (leafIdx r) (currentBlk r) (Some c) (exhausted r) (lastErr r) r.

(** The loop from [start], a turn per leaf. *)
Fixpoint skip_from (p : SkipPredicate) (bm : option BlockMeta) (i : nat) (ls : list IndexEntry) : nat :=
  match ls with
  | [] => i
  | l :: ls => if negb (p i l bm) then i else skip_from p bm (S i) ls
  end.
Definition firstNonSkippedFrom (start : nat) (r : Reader) : nat :=
  match skipPred r with None => start | Some p => skip_from p (bm r) start (drop start (leaves r)) end.

Definition openLeaf (i : nat) (r : Reader) : Reader * result unit :=
  match leaves r !! i with
  | None => (r, Err (Fail "panic: index out of range"))
  | Some leaf =>
      match wrap "rfile: read data block" (fetchDataBlock (dataBlockSet (dataBlocks r)) (region_of leaf) (dataCodec r)) with
      | Err e => (r, Err e)
      | Ok raw =>
          let b := RelKey.NewReader raw (NumEntries leaf) in
          (set_blk (match filter_ r with Some f => RelKey.SetFilter f b | None => b end) r, Ok tt)
      end
  end.

Definition advanceBlock (r : Reader) : Reader * result unit :=
  let r := closeCurrentBlock r in
  let r := set_leafIdx (firstNonSkippedFrom (S (leafIdx r)) r) r in
  if (length (leaves r) <=? leafIdx r)%nat then (exhaust r, Ok tt) else openLeaf (leafIdx r) r.

(** The cells of one block up to the first not below the target; each turn
    takes one of the cells the block still owes. *)
Fixpoint skip_to (fuel : nat) (target : option Key) (b : RelKey.Reader) : RelKey.Reader * result (Key * bytes) :=
  match fuel with
  | O => (b, Err (Fail "out of fuel"))
  | S fuel =>
      match NextView b with
      | (b, Err e) => (b, Err e)
      | (b, Ok (k, v)) =>
          if match target with None => true | Some t => negb (is_lt (Compare k t)) end then (b, Ok (k, v))
          else skip_to fuel target b
      end
  end.

(** The first leaf whose key reaches the target. *)
Fixpoint first_leaf (target : Key) (i : nat) (ls : list IndexEntry) : option nat :=
  match ls with
  | [] => None
  | l :: ls => if negb (is_lt (Compare (ie_Key l) target)) then Some i else first_leaf target (S i) ls
  end.

(** [Seek] from the landing leaf on. *)
Definition seek_block (target : option Key) (r : Reader) : Reader * result unit :=
  match openLeaf (leafIdx r) r with
  | (r, Err e) => (exhaust r, Err e)
  | (r, Ok _) =>
      match currentBlk r with
      | None => (r, Err (Fail "panic: nil block"))
      | Some b =>
          match skip_to (S (Z.to_nat (Remaining b))) target b with
          | (b, Ok c) => (bufferPending c (set_blk b r), Ok tt)
          | (b, Err e) =>
              let r := set_blk b r in
              if errors_Is e EOF then
                let r := closeCurrentBlock r in
                let r := set_leafIdx (firstNonSkippedFrom (S (leafIdx r)) r) r in
                if (length (leaves r) <=? leafIdx r)%nat then (exhaust r, Ok tt)
                else match openLeaf (leafIdx r) r with
                | (r, Err e) => (exhaust r, Err e)
                | (r, Ok _) =>
                    match currentBlk r with
                    | None => (r, Err (Fail "panic: nil block"))
                    | Some b =>
                        match NextView b with
                        | (b, Ok c) => (bufferPending c (set_blk b r), Ok tt)
                        | (b, Err e) =>
                            let r := set_blk b r in
                            if errors_Is e EOF then (exhaust r, Ok tt) else (r, Err e)
                        end
                    end
                end
              else (r, Err e)
          end
      end
  end.

(** The leaves, once collected, are kept (an empty list is nil and collected
    again); a shared file supplies them. *)
Definition leafList (r : Reader) : result (list IndexEntry) :=
  if sharedLeaves r then Ok (leaves r)
  else match leaves r with [] => wrap "rfile.Seek: collect leaves" (collectLeaves r) | ls => Ok ls end.
Definition Seek (target : option Key) (r : Reader) : Reader * result unit :=
  let r := set_cursor (leafIdx r) None None false None r in
  match leafList r with
  | Err e => (r, Err e)
  | Ok ls =>
      let r := set_leaves ls r in
      match ls with
      | [] => (exhaust r, Ok tt)
      | _ =>
          match (match target with None => Some 0%nat | Some t => first_leaf t 0 ls end) with
          | None => (exhaust r, Ok tt)
          | Some startIdx =>
              let startIdx := firstNonSkippedFrom startIdx r in
              if (length ls <=? startIdx)%nat then (exhaust r, Ok tt)
              else seek_block target (set_leafIdx startIdx r)
          end
      end
  end.

Definition SeekRow (row : bytes) (r : Reader) : Reader * result unit := Seek (Some (mkKey row [] [] [] 0 false)) r.

(** [Next] after the implicit seek; each recursion has moved to a later leaf. *)
Fixpoint Next_loop (fuel : nat) (r : Reader) : Reader * result (Key * bytes) :=
  match fuel with
  | O => (r, Err (Fail "out of fuel"))
  | S fuel =>
      match lastErr r with
      | Some e => (r, Err e)
      | None =>
          if exhausted r then (r, Err EOF)
          else
            let '(r, e) :=
              match currentBlk r, pending r with
              | None, None =>
                  match Seek None r with
                  | (r, Err e) => (fail_with e r, Some e)
                  | (r, Ok _) => (r, if exhausted r then Some EOF else None)
                  end
              | _, _ => (r, None)
              end in
            match e, pending r, currentBlk r with
            | Some e, _, _ => (r, Err e)
            | None, Some c, _ => (set_cursor (leafIdx r) (currentBlk r) None (exhausted r) (lastErr r) r, Ok c)
            | None, None, None => (r, Err (Fail "panic: nil block"))
            | None, None, Some b =>
                match Reader_Next b with
                | (b, Ok c) => (set_blk b r, Ok c)
                | (b, Err e) =>
                    let r := set_blk b r in
                    if errors_Is e EOF then
                      match advanceBlock r with
                      | (r, Err e) => (fail_with e r, Err e)
                      | (r, Ok _) => if exhausted r then (r, Err EOF) else Next_loop fuel r
                      end
                    else (fail_with e r, Err e)
                end
            end
      end
  end.

Definition Next (r : Reader) : Reader * result (Key * bytes) :=
  Next_loop (S (S (length (leaves r) - leafIdx r))) r.

Definition Close (r : Reader) : Reader := closeCurrentBlock r.

Definition Reader_Neighbors (r : Reader) (row : bytes) : option (result (list Edge)) :=
  (fun ix => Neighbors ix row) <$> adj r.

Definition Reader_EmbeddingSpace (r : Reader) : FileState :=
  if bool_decide (State (embeddingSpace r) = []) then Unknown else embeddingSpace r.
End file.
