(* ===== verification/IndexTree.v ===== *)
(** * IndexTree: the multi-level index as a tree (src/internal/rfile/index)

    A stored index is a tree of blocks over leaf entries.  [subtree] says that
    an entry of some level leads, through stored blocks, to given leaves;
    walking the leaves of a root over such subtrees succeeds and collects
    them, as long as the leaves are in order and no block region repeats. *)

From S2P Require Import Prelude Wire BCFile Index.

(** ** Blocks that pass validation *)

Lemma validate_loop_pass b is_ es f p :
  Forall2 (fun i e => At b i = Ok e) is_ es -> StronglySorted key_le (keys es) ->
  match p with Some p => Forall (key_le p) (keys es) | None => True end ->
  (Level b = 0 -> Forall (fun e => 0 < NumEntries e) es) ->
  validate_loop b is_ f p = Ok (first_key f es, last_key p es).
Proof.
  intros Hd. revert f p. induction Hd as [|i e is_ es He Hd IH]; intros f p Hs Hp Hn; cbn [validate_loop].
  { by destruct f, p. }
  rewrite He. cbn [mbind result_bind]. change (keys (e :: es)) with (ie_Key e :: keys es) in Hs, Hp. apply StronglySorted_inv in Hs as [Hs Hle].
  assert (match p with Some p => is_lt (Compare (ie_Key e) p) | None => false end = false) as ->.
  { destruct p as [p|]; [|done]. apply Forall_cons in Hp as [Hp _]. by apply not_lt_le. }
  assert ((Level b =? 0) && (NumEntries e <=? 0) = false) as ->.
  { destruct (Z.eqb_spec (Level b) 0) as [E|]; [|done]. apply Hn, Forall_cons in E as [E _]. cbn. lia. }
  rewrite IH; [|done|done|].
  - unfold first_key, last_key. rewrite last_cons. by destruct f, (last es).
  - intros E. by apply Hn, Forall_cons in E as [_ E].
Qed.

Lemma validateBlockEntries_pass b es :
  0 <= Level b -> decoded b es -> StronglySorted key_le (keys es) ->
  (Level b = 0 -> Forall (fun e => 0 < NumEntries e) es) ->
  validateBlockEntries b = Ok (head (keys es), last (keys es)).
Proof.
  intros Hl Hd Hs Hn. unfold validateBlockEntries. replace (Level b <? 0) with false by lia.
  rewrite (validate_loop_pass b _ es None None Hd Hs I Hn). unfold first_key, last_key, keys.
  rewrite fmap_last. by destruct es, (last _).
Qed.

(** ** Subtrees *)

Definition entry_key (e : IndexEntry) : Z * Z := blockRegionKey (region_of e).

Section tree.
Context (stored : BlockRegion -> bytes -> Prop).

(** The entry [e] of level [n] leads to the leaf entries [L], through blocks
    whose region keys, with the leaves', are [V]. *)
Fixpoint subtree (n : nat) (e : IndexEntry) (L : list IndexEntry) (V : list (Z * Z)) : Prop :=
  match n with
  | O => L = [e] /\ V = [entry_key e]
  | S n => exists off hn es Ls Vs,
      es <> [] /\ last (keys es) = Some (ie_Key e) /\ block_ok (Z.of_nat n) off es /\
      stored (region_of e) (WriteIndexBlock (block_of (Z.of_nat n) off hn es)) /\
      Forall3 (subtree n) es Ls Vs /\ L = concat Ls /\ V = entry_key e :: concat Vs
  end.

Lemma subtree_last n e L V : subtree n e L V -> last (keys L) = Some (ie_Key e).
Proof.
  revert e L V. induction n as [|n IH]; intros e L V; cbn [subtree]; [by intros [-> _]|].
  intros (off & hn & es & Ls & Vs & Hne & Hl & _ & _ & H & -> & _). revert Hne Hl.
  induction H as [|e1 L1 V1 es Ls Vs He H IH1]; [done|]. intros _. cbn [concat keys]. unfold keys in *.
  rewrite fmap_cons, fmap_app, last_app, last_cons. destruct es as [|e2 es].
  - inversion H. cbn. intros [= <-]. by apply (IH _ _ _ He).
  - destruct (last (ie_Key <$> e2 :: es)) as [k|] eqn:E; [|by apply last_None in E].
    intros [= ->]. by rewrite IH1.
Qed.

Lemma subtree_nonempty n e L V : subtree n e L V -> L <> [].
Proof. intros H%subtree_last. by destruct L. Qed.

(** In order below, in order above. *)
Lemma subtrees_sorted n es Ls Vs :
  Forall3 (subtree n) es Ls Vs -> StronglySorted key_le (keys (concat Ls)) ->
  StronglySorted key_le (keys es) /\ (forall k, Forall (key_le k) (keys (concat Ls)) -> Forall (key_le k) (keys es)).
Proof.
  induction 1 as [|e L V es Ls Vs He H IH]; [by intros _; split; [constructor|]|].
  cbn [concat keys]. unfold keys in *. rewrite fmap_app. intros Hs.
  destruct (IH (StronglySorted_app_1_r _ _ _ Hs)) as [H1 H2]. pose proof (subtree_last _ _ _ _ He) as Hl.
  apply last_Some in Hl as [l' Hl]. unfold keys in Hl. rewrite fmap_cons. split.
  - constructor; [done|]. apply H2, Forall_forall. intros k Hk. apply (StronglySorted_app_1_elem_of _ _ _ _ _ Hs); [|done].
    rewrite Hl. set_solver.
  - intros k. rewrite Forall_app. intros [Ha Hb]. constructor; [|by apply H2]. rewrite Hl in Ha.
    apply Forall_app in Ha as [_ Ha]. by apply Forall_cons in Ha as [Ha _].
Qed.

Lemma subtrees_head n es Ls Vs k :
  Forall3 (subtree n) es Ls Vs -> es <> [] -> Forall (key_le k) (keys (concat Ls)) ->
  match head (keys es) with Some f => key_le k f | None => False end.
Proof.
  intros H Hne Hk. destruct H as [|e L V es Ls Vs He H]; [done|]. cbn in *. unfold keys in Hk. rewrite fmap_app in Hk.
  apply Forall_app in Hk as [Hk _]. pose proof (subtree_last _ _ _ _ He) as Hl. apply last_Some in Hl as [l' Hl].
  unfold keys in Hl. rewrite Hl in Hk. apply Forall_app in Hk as [_ Hk]. by apply Forall_cons in Hk as [Hk _].
Qed.

(** ** Walking a stored tree *)

Context (lr_ : LevelReader).
Hypothesis lr_reads : forall r level off hn es,
  block_ok level off es -> stored r (WriteIndexBlock (block_of level off hn es)) ->
  lr_ r = Ok (Some (block_of level off hn es)).

Abbreviation state := (iterationState (list IndexEntry)).

(** The walk may go on to leaves [L] and regions [V]. *)
Definition may_walk (st : state) (L : list IndexEntry) (V : list (Z * Z)) : Prop :=
  StronglySorted key_le (keys L) /\ Forall (fun e => 0 < NumEntries e) L /\ NoDup V /\
  (forall v, v ∈ V -> v ∉ visited st) /\
  match lastLeaf st with Some l => Forall (key_le l) (keys L) | None => True end.

(** The state after them. *)
Definition walked (st : state) (L : list IndexEntry) (V : list (Z * Z)) : state :=
  mkState (list_to_set V ∪ visited st) (last_key (lastLeaf st) L) (acc st ++ L).

Lemma last_key_app d L1 L2 : last_key d (L1 ++ L2) = last_key (last_key d L1) L2.
Proof. unfold last_key. rewrite last_app. by destruct (last L2). Qed.

Lemma walked_app st L1 V1 L2 V2 : walked (walked st L1 V1) L2 V2 = walked st (L1 ++ L2) (V1 ++ V2).
Proof.
  unfold walked. cbn [visited lastLeaf acc]. rewrite last_key_app, (assoc_L (++)). f_equal.
  rewrite list_to_set_app_L. by rewrite (assoc_L (∪)), (comm_L (∪) (list_to_set V2)).
Qed.

Lemma may_walk_split st L1 V1 L2 V2 :
  may_walk st (L1 ++ L2) (V1 ++ V2) -> may_walk st L1 V1 /\ may_walk (walked st L1 V1) L2 V2.
Proof.
  intros (Hs & Hn & Hd & Hv & Hl). unfold may_walk, keys in *. rewrite fmap_app in *.
  apply Forall_app in Hn as [Hn1 Hn2]. apply NoDup_app in Hd as (Hd1 & Hd12 & Hd2). split.
  - split_and!; [by eapply StronglySorted_app_1_l|done|done|set_solver|].
    destruct (lastLeaf st); [|done]. by apply Forall_app in Hl as [Hl _].
  - split_and!; [by eapply StronglySorted_app_1_r|done|done| |].
    + cbn. intros v Hv2. apply not_elem_of_union. split; [|apply Hv; set_solver].
      rewrite elem_of_list_to_set. intros Hv1. by apply (Hd12 v).
    + cbn. unfold last_key. destruct (last L1) as [e|] eqn:El.
      * apply last_Some in El as [L' ->]. apply Forall_forall. intros k Hk.
        apply (StronglySorted_app_1_elem_of _ _ _ _ _ Hs); [|done]. rewrite fmap_app. set_solver.
      * destruct (lastLeaf st); [|done]. by apply Forall_app in Hl as [_ Hl].
Qed.

Lemma iterate_entries_cons {A} (reader_ : option LevelReader) (fn : A -> IndexEntry -> result A) rec b i is_ lower st :
  iterate_entries reader_ fn rec b (i :: is_) lower st =
  (entry ← At b i;
   if Level b =? 0 then
     if bool_decide (entry_key entry ∈ visited st) then Err (Fail "rfile/index: repeated leaf block region")
     else if match lastLeaf st with Some l => is_lt (Compare (ie_Key entry) l) | None => false end
     then Err (Fail "rfile/index: leaf key sorts before previous leaf key")
     else
       a ← fn (acc st) entry;
       iterate_entries reader_ fn rec b is_ (Some (ie_Key entry))
         (mkState ({[entry_key entry]} ∪ visited st) (Some (ie_Key entry)) a)
   else match reader_ with
   | None => Err (Fail "rfile/index: multi-level iterate requires LevelReader")
   | Some lr =>
       '(child, v) ← wrap "rfile/index: descend"
         (readChildBlock lr (Level b) (region_of entry) lower (ie_Key entry) (visited st));
       st ← rec child (mkState v (lastLeaf st) (acc st));
       iterate_entries reader_ fn rec b is_ (Some (ie_Key entry)) st
   end).
Proof. done. Qed.

Lemma walk_leaves rec b is_ es lower st :
  Level b = 0 -> Forall2 (fun i e => At b i = Ok e) is_ es -> may_walk st es (entry_key <$> es) ->
  iterate_entries (Some lr_) collect rec b is_ lower st = Ok (walked st es (entry_key <$> es)).
Proof.
  intros Hl Hd. revert lower st. induction Hd as [|i e is_ es He Hd IH]; intros lower st Hw.
  { cbn. unfold walked, last_key. cbn. rewrite app_nil_r. destruct st. cbn. by rewrite (left_id_L ∅ (∪)). }
  rewrite iterate_entries_cons, He. cbn [mbind result_bind]. rewrite Hl. cbn [Z.eqb].
  destruct (may_walk_split st [e] [entry_key e] es (fmap (M:=list) entry_key es) Hw) as [(_ & _ & _ & Hv & Hlast) Hw2].
  rewrite bool_decide_eq_false_2 by (apply Hv; set_solver).
  assert (match lastLeaf st with Some l => is_lt (Compare (ie_Key e) l) | None => false end = false) as ->.
  { destruct (lastLeaf st); [|done]. apply Forall_cons in Hlast as [Hlast _]. by apply not_lt_le. }
  cbn [collect mbind result_bind].
  assert (mkState ({[entry_key e]} ∪ visited st) (Some (ie_Key e)) (acc st ++ [e]) = walked st [e] [entry_key e]) as ->.
  { unfold walked. cbn. by rewrite (right_id_L ∅ (∪)). }
  rewrite IH by done. by rewrite walked_app.
Qed.

(** Children in turn; [lower] is the key before them. *)
Lemma walk_children n rec b is_ es Ls Vs lower st :
  Level b = Z.of_nat (S n) -> Forall2 (fun i e => At b i = Ok e) is_ es -> Forall3 (subtree (S n)) es Ls Vs ->
  (forall child off hn es' Ls' Vs' st,
     child = block_of (Z.of_nat n) off hn es' -> block_ok (Z.of_nat n) off es' -> Forall3 (subtree n) es' Ls' Vs' ->
     may_walk st (concat Ls') (concat Vs') -> rec child st = Ok (walked st (concat Ls') (concat Vs'))) ->
  match lower with Some l => Forall (key_le l) (keys (concat Ls)) | None => True end ->
  may_walk st (concat Ls) (concat Vs) ->
  iterate_entries (Some lr_) collect rec b is_ lower st = Ok (walked st (concat Ls) (concat Vs)).
Proof.
  intros Hl Hd Hsub Hrec. revert lower st is_ Hd. induction Hsub as [|e L V es Ls Vs He Hsub IH]; intros lower st is_ Hd Hlow Hw.
  { inversion Hd. cbn. unfold walked, last_key. cbn. rewrite app_nil_r. destruct st. cbn. by rewrite (left_id_L ∅ (∪)). }
  apply Forall2_cons_inv_r in Hd as (i & is' & HAt & Hd & ->).
  rewrite iterate_entries_cons, HAt. cbn [mbind result_bind]. replace (Level b =? 0) with false by lia.
  pose proof (subtree_last (S n) e L V He) as HL.
  destruct He as (off & hn & es' & Ls' & Vs' & Hne & Hlast & Hok & Hst & Hch & -> & ->).
  cbn [concat] in *. change ((entry_key e :: concat Vs') ++ concat Vs) with ([entry_key e] ++ (concat Vs' ++ concat Vs)) in Hw |- *.
  assert (Hw' : may_walk st ([] ++ (concat Ls' ++ concat Ls)) ([entry_key e] ++ (concat Vs' ++ concat Vs))) by exact Hw.
  apply may_walk_split in Hw' as [(_ & _ & _ & Hnew & _) Hw2].
  apply may_walk_split in Hw2 as [Hw2 Hw3].
  destruct (subtrees_sorted _ _ _ _ Hch (proj1 Hw2)) as [Hs' _].
  set (child := block_of (Z.of_nat n) off hn es').
  assert (Hval : validateBlockEntries child = Ok (head (keys es'), last (keys es'))).
  { apply validateBlockEntries_pass; [cbn; lia|apply block_of_decoded, Hok|done|].
    cbn. intros E. assert (n = O) as -> by lia. destruct Hw2 as (_ & Hn & _).
    clear -Hch Hn. induction Hch as [|e L V es Ls Vs [-> _] H IH]; [constructor|]. cbn in Hn.
    apply Forall_cons in Hn as [Hn1 Hn]. constructor; [done|by apply IH]. }
  destruct (head (keys es')) as [f|] eqn:Ef; [|by destruct es'].
  rewrite (proj2 (readChildBlock_ok (Some lr_) lr_ (Level b) e lower (visited st) child ({[blockRegionKey (region_of e)]} ∪ visited st) eq_refl)).
  2:{ split_and!; [apply Hnew; set_solver|done|]. exists lr_, f. split_and!; [done|by apply lr_reads|cbn; lia|by rewrite Hval, Hlast|].
      destruct lower as [l|]; [|done]. unfold keys in Hlow. rewrite fmap_app in Hlow. apply Forall_app in Hlow as [Hlow _].
      pose proof (subtrees_head n es' Ls' Vs' l Hch Hne Hlow) as Hh. by rewrite Ef in Hh. }
  cbn [wrap mbind result_bind].
  assert (mkState ({[blockRegionKey (region_of e)]} ∪ visited st) (lastLeaf st) (acc st) = walked st [] [entry_key e]) as ->.
  { unfold walked. cbn. by rewrite (right_id_L ∅ (∪)), app_nil_r. }
  rewrite (Hrec child off hn es' Ls' Vs' _ eq_refl Hok Hch Hw2). cbn [mbind result_bind].
  rewrite (IH (Some (ie_Key e)) _ is' Hd); [|cbn|exact Hw3].
  - by rewrite !walked_app.
  - destruct Hw as (Hs & _). unfold keys in *. rewrite fmap_app in Hs. apply Forall_forall. intros k Hk.
    apply (StronglySorted_app_1_elem_of _ _ _ _ _ Hs); [|done]. apply last_Some in HL as [l' HL]. rewrite HL. set_solver.
Qed.

Lemma walk_block n off hn es Ls Vs st :
  block_ok (Z.of_nat n) off es -> Forall3 (subtree n) es Ls Vs -> may_walk st (concat Ls) (concat Vs) ->
  iterateLeaves (Some lr_) collect (S n) (block_of (Z.of_nat n) off hn es) st = Ok (walked st (concat Ls) (concat Vs)).
Proof.
  revert off hn es Ls Vs st. induction n as [|n IH]; intros off hn es Ls Vs st Hok Hch Hw; rewrite iterateLeaves_S.
  - assert (concat Ls = es /\ concat Vs = entry_key <$> es) as [E1 E2].
    { clear -Hch. induction Hch as [|e L V es Ls Vs [-> ->] H [IH1 IH2]]; [done|]. cbn. by rewrite IH1, IH2. }
    rewrite E1, E2 in *. pose proof (block_of_decoded 0 off hn es (proj1 (proj2 (proj2 Hok)))) as Hd.
    destruct (Hw) as (Hs & Hn & _).
    rewrite (validateBlockEntries_pass _ es); [|done|done|done|done]. cbn [mbind result_bind].
    by apply walk_leaves.
  - pose proof (block_of_decoded (Z.of_nat (S n)) off hn es (proj1 (proj2 (proj2 Hok)))) as Hd.
    destruct (subtrees_sorted _ _ _ _ Hch (proj1 Hw)) as [Hs _].
    rewrite (validateBlockEntries_pass _ es); [|cbn; lia|done|done|cbn; lia]. cbn [mbind result_bind].
    apply (walk_children n _ _ _ es Ls Vs None); [done|done|done| |done|done].
    intros child off' hn' es' Ls' Vs' st' ->. apply IH.
Qed.

(** Walking all leaves of a root over stored subtrees. *)
Lemma IterateLeaves_tree n off hn es Ls Vs :
  Z.of_nat n <= maxTraversalDepth -> block_ok (Z.of_nat n) off es -> Forall3 (subtree n) es Ls Vs ->
  may_walk (mkState ∅ None []) (concat Ls) (concat Vs) ->
  IterateLeaves (mkWalker (Some (block_of (Z.of_nat n) off hn es)) (Some lr_)) collect [] = Ok (concat Ls).
Proof.
  intros Hn Hok Hch Hw. unfold IterateLeaves, validateRootLevel. cbn [root lr block_of Level].
  replace (Z.of_nat n <? 0) with false by lia. replace (Z.of_nat n >? maxTraversalDepth) with false by lia.
  rewrite Nat2Z.id. fold (block_of (Z.of_nat n) off hn es). by rewrite (walk_block n off hn es Ls Vs).
Qed.
End tree.
