(* ===== verification/RFileScan.v ===== *)
(** * RFileScan: what a reader delivers (src/internal/rfile/reader.go)

    The cells a reader presents, from the blocks its leaves lead to.  [views]
    relates a reader to the cells it has yet to deliver; seeking establishes
    it and [Next] consumes it one cell at a time.  [scan_cells] is the exact
    result of a seek, filter and skip predicate included. *)

From S2P Require Import Prelude Wire Iter RelKey BCFile Container Index EmbeddingSpace BlockMeta Adjacency IndexFile.
From S2P Require Import Codec RFileWriter RFileReader.

Abbreviation cell := Cell.

(** ** Reading inside one block *)

Definition accepted (flt : option (Key -> bool)) (cells : list cell) : list cell :=
  filter (fun c => accepts flt c.1 = true) cells.

Lemma accepted_cons flt c cells :
  accepted flt (c :: cells) = if accepts flt c.1 then c :: accepted flt cells else accepted flt cells.
Proof.
  unfold accepted. rewrite filter_cons. destruct (accepts flt c.1); [by rewrite decide_True|by rewrite decide_False].
Qed.

Lemma accepted_app flt a b : accepted flt (a ++ b) = accepted flt a ++ accepted flt b.
Proof. apply filter_app. Qed.

Lemma accepted_None cells : accepted None cells = cells.
Proof. apply filter_all, Forall_true. done. Qed.

(** The block reader positioned somewhere in its block. *)
Definition in_block (b : RelKey.Reader) (flt : option (Key -> bool)) (cells : list cell) : Prop :=
  exists pre prev n, b = block_reader pre prev cells [] n flt /\ Forall cell_ok cells /\
    in_int64 (Timestamp (default zero_key prev)).

Lemma NextView_loop_spec m b pre prev cells n flt :
  b = block_reader pre prev cells [] n flt -> Forall cell_ok cells ->
  in_int64 (Timestamp (default zero_key prev)) -> (length cells <= m)%nat ->
  match accepted flt cells with
  | [] => exists b', NextView_loop (S m) b = (b', Err EOF)
  | c :: rest => exists b' cells', NextView_loop (S m) b = (b', Ok c) /\ in_block b' flt cells' /\
      accepted flt cells' = rest /\ (length cells' < length cells)%nat
  end.
Proof.
  intros -> Hc. revert m pre prev. induction Hc as [|[k v] cells Hk Hc IH]; intros m pre prev Hp Hm.
  { rewrite NextView_loop_done. by eexists. }
  rewrite NextView_loop_cell by done. cbv zeta. rewrite accepted_cons. cbn [fst length] in *.
  assert (in_int64 (Timestamp (default zero_key (Some k)))) as Hk' by apply Hk. destruct (accepts flt k).
  - eexists _, cells. split; [done|]. split; [by eexists _, _, _|]. split; [done|lia].
  - destruct m as [|m]; [lia|]. specialize (IH m (pre ++ EncodeKey prev k v) (Some k) Hk' ltac:(lia)).
    destruct (accepted flt cells) as [|c rest]; [done|]. destruct IH as (b' & cells' & H1 & H2 & H3 & H4).
    exists b', cells'. split_and!; [done..|lia].
Qed.

Lemma NextView_spec b flt cells :
  in_block b flt cells ->
  match accepted flt cells with
  | [] => exists b', NextView b = (b', Err EOF)
  | c :: rest => exists b' cells', NextView b = (b', Ok c) /\ in_block b' flt cells' /\
      accepted flt cells' = rest /\ (length cells' < length cells)%nat
  end.
Proof.
  intros (pre & prev & n & -> & Hc & Hp). rewrite NextView_block. by apply (NextView_loop_spec _ _ pre prev cells n).
Qed.

Lemma in_block_Remaining b flt cells : in_block b flt cells -> Z.to_nat (Remaining b) = length cells.
Proof. intros (pre & prev & n & -> & _). rewrite Remaining_block. unfold len. lia. Qed.

(** Dropping the cells below the target. *)
Definition below_target (target : option Key) (k : Key) : bool :=
  match target with None => false | Some t => is_lt (Compare k t) end.
Definition drop_below (target : option Key) : list cell -> list cell := drop_while (below_target target).

Lemma skip_to_spec fuel target b flt cells :
  in_block b flt cells -> (length cells < fuel)%nat ->
  match drop_below target (accepted flt cells) with
  | [] => exists b', skip_to fuel target b = (b', Err EOF)
  | c :: rest => exists b' cells', skip_to fuel target b = (b', Ok c) /\ in_block b' flt cells' /\ accepted flt cells' = rest
  end.
Proof.
  revert b cells. induction fuel as [|fuel IH]; intros b cells Hb Hf; [lia|]. cbn [skip_to].
  pose proof (NextView_spec b flt cells Hb) as H. destruct (accepted flt cells) as [|[k v] rest] eqn:E.
  - destruct H as [b' ->]. by eexists.
  - destruct H as (b' & cells' & -> & Hb' & Hr & Hl). cbn [drop_below drop_while fst]. unfold below_target at 1.
    destruct target as [t|]; [|by eexists _, _]. destruct (is_lt (Compare k t)); cbn [negb]; [|by eexists _, _].
    rewrite <-Hr. apply IH; [done|lia].
Qed.

(** ** The blocks under a reader's leaves *)

Section scan.
Context (bc : Container.Reader) (dec : Decompressor).

Definition leaf_block (r : Reader) (e : IndexEntry) (cells : list cell) : Prop :=
  fetchDataBlock bc dec (dataBlockSet (dataBlocks r)) (region_of e) (dataCodec r) = Ok (encode_block None cells) /\
  NumEntries e = len cells /\ Forall cell_ok cells.

(** The cells of the blocks the skip predicate lets through, from the leaf
    [i] on. *)
Fixpoint alive (p : option SkipPredicate) (m : option BlockMeta) (i : nat) (ls : list IndexEntry) (Bs : list (list cell))
  : list (list cell) :=
  match ls, Bs with
  | l :: ls, B :: Bs =>
      if match p with Some p => p i l m | None => false end then alive p m (S i) ls Bs
      else B :: alive p m (S i) ls Bs
  | _, _ => []
  end.

(** The reader's leaves lead to the blocks [Bs]. *)
Definition has_blocks (r : Reader) (Bs : list (list cell)) : Prop := Forall2 (leaf_block r) (leaves r) Bs.

Definition alive_from (r : Reader) (Bs : list (list cell)) (i : nat) : list (list cell) :=
  alive (skipPred r) (bm r) i (drop i (leaves r)) (drop i Bs).

(** The first leaf not skipped is the first alive block. *)
Lemma skip_from_alive p m i ls Bs :
  length ls = length Bs ->
  let j := skip_from p m i ls in
  (i <= j <= i + length ls)%nat /\
  match alive (Some p) m i ls Bs with
  | [] => j = (i + length ls)%nat
  | B :: Bs' => Bs !! (j - i)%nat = Some B /\ Bs' = alive (Some p) m (S j) (drop (S (j - i)) ls) (drop (S (j - i)) Bs)
  end.
Proof.
  revert i Bs. induction ls as [|l ls IH]; intros i [|B Bs] Hl; try done.
  { cbn. split; lia. }
  injection Hl as Hl. cbn [skip_from alive length]. destruct (p i l m); cbn [negb].
  - destruct (IH (S i) Bs Hl) as [Hj H]. set (j := skip_from p m (S i) ls) in *. split; [lia|].
    destruct (alive (Some p) m (S i) ls Bs) as [|B' Bs']; [lia|]. destruct H as [H1 H2].
    replace (j - i)%nat with (S (j - S i)) by lia. cbn [lookup list_lookup drop]. done.
  - split; [lia|]. rewrite Nat.sub_diag. done.
Qed.

Lemma alive_none m i ls Bs : length ls = length Bs -> alive None m i ls Bs = Bs.
Proof. revert i Bs. induction ls as [|l ls IH]; intros i [|B Bs] H; try done. cbn. rewrite IH; [done|by injection H]. Qed.

Lemma firstNonSkipped_alive r Bs i :
  has_blocks r Bs -> (i <= length (leaves r))%nat ->
  let j := firstNonSkippedFrom i r in
  match alive_from r Bs i with
  | [] => (length (leaves r) <= j)%nat
  | B :: Bs' => (j < length (leaves r))%nat /\ Bs !! j = Some B /\ Bs' = alive_from r Bs (S j)
  end.
Proof.
  intros Hb Hi. pose proof (Forall2_length _ _ _ Hb) as Hl. unfold firstNonSkippedFrom, alive_from.
  assert (length (drop i (leaves r)) = length (drop i Bs)) as Hl' by (rewrite !length_drop; lia).
  destruct (skipPred r) as [p|].
  - destruct (skip_from_alive p (bm r) i (drop i (leaves r)) (drop i Bs) Hl') as [Hj H].
    set (j := skip_from p (bm r) i (drop i (leaves r))) in *. rewrite length_drop in Hj.
    destruct (alive _ _ i _ _) as [|B Bs'] eqn:E; [rewrite length_drop in H; lia|]. destruct H as [H1 H2].
    rewrite lookup_drop in H1. replace (i + (j - i))%nat with j in H1 by lia. split.
    { apply lookup_lt_Some in H1. lia. }
    split; [done|]. rewrite H2, !drop_drop. by replace (i + S (j - i))%nat with (S j) by lia.
  - rewrite alive_none by done. destruct (drop i Bs) as [|B Bs'] eqn:E.
    + apply (f_equal length) in E. rewrite length_drop in E. cbn in E. lia.
    + assert (i < length Bs)%nat as Hlt by (apply (f_equal length) in E; rewrite length_drop in E; cbn in E; lia).
      split; [lia|]. split.
      * rewrite <-(Nat.add_0_r i) at 1. rewrite <-lookup_drop, E. done.
      * rewrite alive_none by (rewrite !length_drop; lia). replace (S i) with (i + 1)%nat by lia.
        by rewrite <-drop_drop, E.
Qed.

Lemma openLeaf_ok r Bs i B :
  has_blocks r Bs -> Bs !! i = Some B ->
  exists b, openLeaf bc dec i r = (set_blk b r, Ok tt) /\ in_block b (filter_ r) B.
Proof.
  intros Hb HB. destruct (Forall2_lookup_r _ _ _ _ _ Hb HB) as (l & Hl & Hf & Hn & Hc).
  unfold openLeaf. rewrite Hl, Hf. cbn [wrap]. eexists. split; [done|].
  exists [], None, (len B). split; [|by split].
  unfold NewReader, RelKey.SetFilter. rewrite Hn, <-NewReader_block, app_nil_r. by destruct (filter_ r).
Qed.

(** The reader stands in the block of a leaf of its list. *)
Definition reading (r : Reader) (Bs : list (list cell)) (cells : list cell) : Prop :=
  has_blocks r Bs /\ lastErr r = None /\ exhausted r = false /\ (leafIdx r < length (leaves r))%nat /\
  exists b, currentBlk r = Some b /\ in_block b (filter_ r) cells.

(** The reader but for its cursor. *)
Definition still (r : Reader) : Reader := set_cursor 0 None None false None r.

(** The cells after the current block. *)
Definition later (r : Reader) (Bs : list (list cell)) : list cell :=
  accepted (filter_ r) (concat (alive_from r Bs (S (leafIdx r)))).

(** The cells [r] has yet to deliver. *)
Definition views (r : Reader) (Bs : list (list cell)) (cs : list cell) : Prop :=
  (exhausted r = true /\ lastErr r = None /\ cs = []) \/
  exists cells, reading r Bs cells /\ cs = option_list (pending r) ++ accepted (filter_ r) cells ++ later r Bs.

Lemma reading_at r Bs b cells p :
  has_blocks r Bs -> lastErr r = None -> exhausted r = false -> (leafIdx r < length (leaves r))%nat ->
  in_block b (filter_ r) cells ->
  reading (set_cursor (leafIdx r) (Some b) p (exhausted r) (lastErr r) r) Bs cells.
Proof. intros Hb He Hx Hi Hin. split_and!; [done..|]. by exists b. Qed.

(** Moving to the next block: the first alive one, or the end. *)
Lemma next_block r Bs :
  has_blocks r Bs -> (leafIdx r < length (leaves r))%nat ->
  let j := firstNonSkippedFrom (S (leafIdx r)) r in
  match alive_from r Bs (S (leafIdx r)) with
  | [] => (length (leaves r) <=? j)%nat = true
  | B :: Bs' => (length (leaves r) <=? j)%nat = false /\ (leafIdx r < j < length (leaves r))%nat /\ Bs !! j = Some B /\
      Bs' = alive_from r Bs (S j)
  end.
Proof.
  intros Hb Hi j. pose proof (firstNonSkipped_alive r Bs (S (leafIdx r)) Hb ltac:(lia)) as H. fold j in H. cbv zeta in H.
  assert (leafIdx r < j)%nat.
  { subst j. unfold firstNonSkippedFrom. destruct (skipPred r); [|lia]. pose proof (Forall2_length _ _ _ Hb).
    pose proof (skip_from_alive s (bm r) (S (leafIdx r)) (drop (S (leafIdx r)) (leaves r)) (drop (S (leafIdx r)) Bs)) as Hs.
    rewrite !length_drop in Hs. cbv zeta in Hs. lia. }
  destruct (alive_from r Bs (S (leafIdx r))) as [|B Bs']; [by apply Nat.leb_le|].
  destruct H as (H1 & H2 & H3). split_and!; try done. by apply Nat.leb_gt.
Qed.

Lemma advanceBlock_spec r Bs :
  has_blocks r Bs -> lastErr r = None -> exhausted r = false -> (leafIdx r < length (leaves r))%nat ->
  exists r', advanceBlock bc dec r = (r', Ok tt) /\ still r' = still r /\ pending r' = None /\
    match alive_from r Bs (S (leafIdx r)) with
    | [] => exhausted r' = true /\ lastErr r' = None
    | B :: Bs' => reading r' Bs B /\ (leafIdx r < leafIdx r')%nat /\
        Bs' = alive_from r' Bs (S (leafIdx r'))
    end.
Proof.
  intros Hb He Hx Hi. pose proof (next_block r Bs Hb Hi) as H. unfold advanceBlock. cbv zeta in *.
  change (firstNonSkippedFrom (S (leafIdx (closeCurrentBlock r))) (closeCurrentBlock r))
    with (firstNonSkippedFrom (S (leafIdx r)) r).
  set (j := firstNonSkippedFrom (S (leafIdx r)) r) in *.
  set (r1 := set_leafIdx j (closeCurrentBlock r)). change (leaves r1) with (leaves r). change (leafIdx r1) with j.
  destruct (alive_from r Bs (S (leafIdx r))) as [|B Bs'].
  - rewrite H. eexists. split; [done|]. done.
  - destruct H as (H & Hj & HB & HBs). rewrite H.
    destruct (openLeaf_ok r1 Bs j B Hb HB) as (b & -> & Hin). eexists. split; [done|].
    split_and!; [done..| |cbn; lia|done]. split_and!; [done..|cbn; lia|]. by eexists.
Qed.

(** ** [Next] *)

Lemma Next_loop_S fuel r :
  lastErr r = None -> exhausted r = false ->
  forall b, currentBlk r = Some b ->
  Next_loop bc dec (S fuel) r =
    match pending r with
    | Some c => (set_cursor (leafIdx r) (currentBlk r) None (exhausted r) (lastErr r) r, Ok c)
    | None =>
        match Reader_Next b with
        | (b, Ok c) => (set_blk b r, Ok c)
        | (b, Err e) =>
            let r := set_blk b r in
            if errors_Is e EOF then
              match advanceBlock bc dec r with
              | (r, Err e) => (fail_with e r, Err e)
              | (r, Ok _) => if exhausted r then (r, Err EOF) else Next_loop bc dec fuel r
              end
            else (fail_with e r, Err e)
        end
    end.
Proof. intros H1 H2 b H3. cbn [Next_loop]. rewrite H1, H2, H3. destruct (pending r); by rewrite ?H1, ?H2, H3. Qed.

Lemma Next_loop_views fuel r Bs cells :
  reading r Bs cells -> (length (leaves r) - leafIdx r < fuel)%nat ->
  match option_list (pending r) ++ accepted (filter_ r) cells ++ later r Bs with
  | [] => exists r', Next_loop bc dec fuel r = (r', Err EOF) /\ views r' Bs [] /\ still r' = still r
  | c :: cs => exists r', Next_loop bc dec fuel r = (r', Ok c) /\ views r' Bs cs /\ still r' = still r
  end.
Proof.
  revert r cells. induction fuel as [|fuel IH]; intros r cells (Hb & He & Hx & Hi & b & Hblk & Hin) Hf; [lia|].
  rewrite (Next_loop_S fuel r He Hx b Hblk). destruct (pending r) as [c|] eqn:Hp; cbn [option_list app].
  { eexists. split; [done|]. split; [|done]. right. exists cells. split; [|done]. split_and!; try done. by exists b. }
  pose proof (NextView_spec b (filter_ r) cells Hin) as H. unfold Reader_Next.
  destruct (accepted (filter_ r) cells) as [|c rest] eqn:E; cbn [app].
  - destruct H as [b' ->]. change (errors_Is EOF EOF) with true. cbv zeta.
    destruct (advanceBlock_spec (set_blk b' r) Bs Hb He Hx Hi) as (r' & Hadv & Hs & Hp' & H).
    change (still (set_blk b' r)) with (still r) in Hs. rewrite Hadv. unfold later in *.
    change (alive_from (set_blk b' r) Bs (S (leafIdx (set_blk b' r)))) with (alive_from r Bs (S (leafIdx r))) in H.
    destruct (alive_from r Bs (S (leafIdx r))) as [|B Bs'].
    + destruct H as [Hx' He']. rewrite Hx'. cbn. eexists. split; [done|]. split; [by left|done].
    + destruct H as (Hr & Hlt & HBs). destruct (Hr) as (_ & _ & Hx' & _ & _). rewrite Hx'.
      cbn [concat]. rewrite accepted_app. cbn [set_blk set_cursor leafIdx] in Hlt.
      pose proof (f_equal leaves Hs : leaves r' = leaves r) as Hls.
      pose proof (f_equal filter_ Hs : filter_ r' = filter_ r) as Hflt.
      specialize (IH r' B Hr ltac:(rewrite Hls; lia)). rewrite Hp', Hflt, Hs, <-HBs in IH. exact IH.
  - destruct H as (b' & cells' & -> & Hin' & Hr & _). eexists. split; [done|]. split; [|done]. right. exists cells'.
    split; [split_and!; try done; by exists b'|]. cbn. rewrite Hp. cbn [option_list app]. by rewrite Hr.
Qed.

Lemma Next_views r Bs cs :
  views r Bs cs ->
  match cs with
  | [] => exists r', Next bc dec r = (r', Err EOF) /\ views r' Bs [] /\ still r' = still r
  | c :: cs' => exists r', Next bc dec r = (r', Ok c) /\ views r' Bs cs' /\ still r' = still r
  end.
Proof.
  intros [(Hx & He & ->)|(cells & Hr & ->)].
  - exists r. unfold Next. cbn [Next_loop]. rewrite He, Hx. split; [done|]. split; [by left|done].
  - apply Next_loop_views; [done|]. lia.
Qed.

(** ** [Seek] *)

(** What a seek that lands in the first of [blocks] leads to.  When that
    block has no accepted cell to land on, only the next one is tried. *)
Definition seek_cells (flt : option (Key -> bool)) (target : option Key) (blocks : list (list cell)) : list cell :=
  match blocks with
  | [] => []
  | B :: Bs =>
      match drop_below target (accepted flt B), Bs with
      | (_ :: _) as cs, _ => cs ++ accepted flt (concat Bs)
      | [], [] => []
      | [], B' :: Bs' =>
          match accepted flt B' with [] => [] | cs => cs ++ accepted flt (concat Bs') end
      end
  end.

Lemma seek_block_spec r Bs target B :
  has_blocks r Bs -> lastErr r = None -> exhausted r = false -> pending r = None ->
  (leafIdx r < length (leaves r))%nat -> Bs !! leafIdx r = Some B ->
  exists r', seek_block bc dec target r = (r', Ok tt) /\ still r' = still r /\
    views r' Bs (seek_cells (filter_ r) target (B :: alive_from r Bs (S (leafIdx r)))).
Proof.
  intros Hb He Hx Hp Hi HB. unfold seek_block. destruct (openLeaf_ok r Bs _ B Hb HB) as (b & -> & Hin).
  cbn [set_blk set_cursor currentBlk seek_cells].
  pose proof (skip_to_spec (S (Z.to_nat (Remaining b))) target b (filter_ r) B Hin) as H.
  rewrite (in_block_Remaining _ _ _ Hin) in *. specialize (H ltac:(lia)).
  destruct (drop_below target (accepted (filter_ r) B)) as [|c cs].
  2:{ destruct H as (b' & cells' & -> & Hin' & Hcs). eexists. split; [done|]. split; [done|]. right. exists cells'.
      split; [by apply (reading_at r Bs b' cells' (Some c))|]. by rewrite <-Hcs. }
  destruct H as [b' ->]. change (errors_Is EOF EOF) with true. cbv zeta.
  pose proof (next_block r Bs Hb Hi) as H.
  set (r1 := closeCurrentBlock _). change (firstNonSkippedFrom (S (leafIdx r1)) r1) with (firstNonSkippedFrom (S (leafIdx r)) r).
  cbv zeta in H. set (j := firstNonSkippedFrom (S (leafIdx r)) r) in *.
  set (r2 := set_leafIdx j r1). change (leaves r2) with (leaves r). change (leafIdx r2) with j.
  destruct (alive_from r Bs (S (leafIdx r))) as [|B' Bs'].
  { rewrite H. eexists. split; [done|]. split; [done|]. by left. }
  destruct H as (H & Hj & HB' & HBs). rewrite H.
  destruct (openLeaf_ok r2 Bs j B' Hb HB') as (b2 & -> & Hin2). cbn [set_blk set_cursor currentBlk].
  pose proof (NextView_spec b2 _ B' Hin2) as Hn. change (filter_ r2) with (filter_ r) in Hn.
  destruct (accepted (filter_ r) B') as [|c cs].
  - destruct Hn as [b3 ->]. change (errors_Is EOF EOF) with true. cbv match.
    eexists. split; [done|]. split; [done|]. by left.
  - destruct Hn as (b3 & cells' & -> & Hin3 & Hcs & _). eexists. split; [done|]. split; [done|]. right. exists cells'.
    split; [apply (reading_at r2 Bs b3 cells' (Some c)); [done..|cbn; lia|done]|]. cbn [option_list app].
    change (filter_ _) with (filter_ r). rewrite Hcs. unfold later. by rewrite HBs.
Qed.

Lemma first_leaf_spec t i ls :
  match first_leaf t i ls with
  | Some j => (i <= j < i + length ls)%nat /\ (exists l, ls !! (j - i)%nat = Some l /\ is_lt (Compare (ie_Key l) t) = false) /\
      Forall (fun l => is_lt (Compare (ie_Key l) t) = true) (take (j - i) ls)
  | None => Forall (fun l => is_lt (Compare (ie_Key l) t) = true) ls
  end.
Proof.
  revert i. induction ls as [|l ls IH]; intros i; cbn [first_leaf]; [done|].
  destruct (is_lt (Compare (ie_Key l) t)) eqn:E; cbn [negb].
  - specialize (IH (S i)). destruct (first_leaf t (S i) ls) as [j|]; [|by constructor].
    destruct IH as (Hj & Hl & Hf). cbn [length]. split; [lia|]. replace (j - i)%nat with (S (j - S i)) by lia.
    split; [done|]. by constructor.
  - rewrite Nat.sub_diag. split; [cbn; lia|]. split; [by exists l|done].
Qed.

Definition landing (target : option Key) (ls : list IndexEntry) : nat :=
  match target with None => 0 | Some t => default (length ls) (first_leaf t 0 ls) end.

(** What [Seek] delivers. *)
Definition scan_cells (r : Reader) (Bs : list (list cell)) (target : option Key) : list cell :=
  seek_cells (filter_ r) target (alive_from r Bs (landing target (leaves r))).

(** The leaves [Seek] works on. *)
Definition known_leaves (r : Reader) : result (list IndexEntry) :=
  if sharedLeaves r then Ok (leaves r) else match leaves r with [] => collectLeaves r | ls => Ok ls end.

Lemma Seek_spec r ls Bs target :
  known_leaves r = Ok ls -> has_blocks (set_leaves ls r) Bs ->
  exists r', Seek bc dec target r = (r', Ok tt) /\ still r' = still (set_leaves ls r) /\
    views r' Bs (scan_cells (set_leaves ls r) Bs target).
Proof.
  intros Hk Hb. unfold Seek. cbv zeta. set (r0 := set_cursor (leafIdx r) None None false None r).
  assert (leafList r0 = Ok ls) as ->.
  { unfold known_leaves in Hk. unfold leafList. change (leaves r0) with (leaves r). change (sharedLeaves r0) with (sharedLeaves r).
    change (collectLeaves r0) with (collectLeaves r). destruct (sharedLeaves r), (leaves r); [done..|by rewrite Hk|done]. }
  set (r1 := set_leaves ls r0). change (set_leaves ls r) with (set_cursor (leafIdx r) (currentBlk r) (pending r) (exhausted r) (lastErr r) r1) in *.
  change (has_blocks r1 Bs) in Hb. unfold scan_cells. cbn [filter_ set_cursor leaves].
  change (alive_from (set_cursor _ _ _ _ _ r1)) with (alive_from r1). change (still (set_cursor _ _ _ _ _ r1)) with (still r1).
  change (filter_ r) with (filter_ r1). change (leaves r1) with ls.
  assert (Hend : forall i, seek_cells (filter_ r1) target (alive_from r1 Bs i) = [] ->
    views (exhaust r1) Bs (seek_cells (filter_ r1) target (alive_from r1 Bs i))) by (intros i ->; by left).
  assert (length ls = length Bs) as Hl by apply (Forall2_length _ _ _ Hb).
  assert (Hlen : alive_from r1 Bs (length ls) = []).
  { unfold alive_from. change (leaves r1) with ls. by rewrite drop_all. }
  assert (Hgo : forall i, (i <= length ls)%nat ->
    exists r', (if (length ls <=? firstNonSkippedFrom i r1)%nat then (exhaust r1, Ok tt)
      else seek_block bc dec target (set_leafIdx (firstNonSkippedFrom i r1) r1)) = (r', Ok tt) /\ still r' = still r1 /\
      views r' Bs (seek_cells (filter_ r1) target (alive_from r1 Bs i))).
  { intros i Hi. pose proof (firstNonSkipped_alive r1 Bs i Hb Hi) as H. cbv zeta in H.
    change (leaves r1) with ls in H. set (j := firstNonSkippedFrom i r1) in *.
    destruct (alive_from r1 Bs i) as [|B Bs'] eqn:E.
    - rewrite (proj2 (Nat.leb_le _ _) H). eexists. split; [done|]. split; [done|]. by left.
    - destruct H as (Hj & HB & HBs). rewrite (proj2 (Nat.leb_gt _ _) Hj).
      destruct (seek_block_spec (set_leafIdx j r1) Bs target B) as (r' & H1 & H2 & H3); try done.
      exists r'. split; [done|]. split; [done|].
      change (alive_from (set_leafIdx j r1) Bs (S (leafIdx (set_leafIdx j r1)))) with (alive_from r1 Bs (S j)) in H3.
      by rewrite HBs. }
  destruct (decide (ls = [])) as [->|Hne].
  { exists (exhaust r1). split; [done|]. split; [done|]. apply Hend. destruct Bs; [|done].
    unfold alive_from. change (leaves r1) with (@nil IndexEntry). by rewrite !drop_nil. }
  assert (forall X Y : Reader * result unit, (match ls with [] => X | _ :: _ => Y end) = Y) as Hm by (by destruct ls).
  rewrite Hm. clear Hm.
  destruct target as [t|]; cbn [landing]; [|by apply Hgo; lia].
  pose proof (first_leaf_spec t 0 ls) as Hf. destruct (first_leaf t 0 ls) as [i|]; cbn [default].
  - apply Hgo. unfold from_option, id. destruct Hf as [Hf _]. lia.
  - exists (exhaust r1). split; [done|]. split; [done|]. apply Hend. by rewrite Hlen.
Qed.

End scan.

(** ** A seek against the sorted contents *)

(** What a reader with filter [flt] should deliver from [target] on. *)
Definition wanted (flt : option (Key -> bool)) (target : option Key) (cells : list cell) : list cell :=
  filter (fun c => below_target target c.1 = false) (accepted flt cells).

Lemma below_target_down target a b : key_le a b -> below_target target b = true -> below_target target a = true.
Proof.
  destruct target as [t|]; [|done]. cbn. intros Hab Hb. destruct (is_lt (Compare a t)) eqn:Ha; [done|].
  apply not_lt_le in Ha. apply is_lt_true in Hb. assert (key_le t b) as H by (by etrans). exfalso.
  unfold key_le in H. rewrite (cmp_antisym Compare), Hb in H. done.
Qed.

Lemma wanted_app flt t a b : wanted flt t (a ++ b) = wanted flt t a ++ wanted flt t b.
Proof. unfold wanted. by rewrite accepted_app, filter_app. Qed.

Lemma drop_below_wanted flt t cells : sorted_cells cells -> drop_below t (accepted flt cells) = wanted flt t cells.
Proof. intros H. apply drop_while_filter; [apply below_target_down|]. by apply sorted_cells_filter. Qed.

Lemma wanted_none flt t cells : Forall (fun c => below_target t c.1 = true) cells -> wanted flt t cells = [].
Proof.
  intros H. unfold wanted. destruct (filter _ _) as [|c l] eqn:E; [done|]. exfalso.
  assert (c ∈ filter (fun c => below_target t c.1 = false) (accepted flt cells)) as Hc by (rewrite E; left).
  apply list_elem_of_filter in Hc as [Hc Hi]. apply list_elem_of_filter in Hi as [_ Hi].
  rewrite Forall_forall in H. rewrite (H _ Hi) in Hc. done.
Qed.

Lemma wanted_all flt t cells : Forall (fun c => below_target t c.1 = false) cells -> wanted flt t cells = accepted flt cells.
Proof. intros H. apply filter_all. rewrite Forall_forall in *. intros c [_ Hi]%list_elem_of_filter. by apply H. Qed.

Lemma seek_cells_wanted flt t Bs :
  sorted_cells (concat Bs) -> Forall (fun B => exists k, ends_at k B /\ below_target t k = false) Bs ->
  (seek_cells flt t Bs = [] \/ seek_cells flt t Bs = wanted flt t (concat Bs)) /\
  (flt = None -> seek_cells flt t Bs = wanted flt t (concat Bs)).
Proof.
  intros Hs He. destruct Bs as [|B Bs]; [by split; [left|]|]. cbn [concat seek_cells] in *.
  apply Forall_cons_1 in He as [(k & (B1 & v & HB) & Hk) He].
  apply sorted_cells_app in Hs as (HsB & HsBs & Hle).
  rewrite drop_below_wanted, wanted_app by done.
  assert (wanted flt t (concat Bs) = accepted flt (concat Bs)) as ->.
  { apply wanted_all, Forall_forall. intros d Hd. destruct (below_target t d.1) eqn:E; [|done].
    assert (key_le k d.1) as Hkd by (apply (Hle (k, v)); [rewrite HB; set_solver|done]).
    by rewrite (below_target_down t _ _ Hkd E) in Hk. }
  destruct (wanted flt t B) as [|c cs] eqn:EB; [|by split; [right|]]. cbn [app].
  assert (flt = None -> False) as Hflt.
  { intros ->. unfold wanted in EB. rewrite accepted_None in EB.
    assert ((k, v) ∈ filter (fun c : cell => below_target t c.1 = false) B) as H.
    { apply list_elem_of_filter. split; [done|]. rewrite HB. set_solver. }
    rewrite EB in H. by apply not_elem_of_nil in H. }
  split; [|by intros ->].
  destruct Bs as [|B' Bs]; [by left|]. cbn [concat]. rewrite accepted_app.
  destruct (accepted flt B'); [by left|by right].
Qed.

(** Every leaf's key is the last of its block. *)
Definition leaf_ends (ls : list IndexEntry) (Bs : list (list cell)) : Prop :=
  Forall2 (fun l B => ends_at (ie_Key l) B) ls Bs.

Lemma alive_sublist p m i ls Bs : sublist (alive p m i ls Bs) Bs.
Proof.
  revert i Bs. induction ls as [|l ls IH]; intros i Bs; cbn; [apply sublist_nil_l|]. destruct Bs as [|B Bs]; [done|].
  destruct (match p with Some _ => _ | None => _ end); by constructor.
Qed.

Lemma alive_app p m i ls1 ls2 Bs1 Bs2 :
  length ls1 = length Bs1 ->
  alive p m i (ls1 ++ ls2) (Bs1 ++ Bs2) = alive p m i ls1 Bs1 ++ alive p m (i + length ls1) ls2 Bs2.
Proof.
  revert i Bs1. induction ls1 as [|l ls1 IH]; intros i [|B Bs1] H; try done; cbn [app alive length].
  - by rewrite Nat.add_0_r.
  - injection H as H. rewrite IH by done. rewrite Nat.add_succ_comm. by destruct (match p with Some _ => _ | None => _ end).
Qed.

Lemma sublist_concat {A} (Ls1 Ls2 : list (list A)) : sublist Ls1 Ls2 -> sublist (concat Ls1) (concat Ls2).
Proof. induction 1; cbn; [done|by apply sublist_app|by apply sublist_inserts_l]. Qed.

Lemma alive_elem p m i ls Bs B : B ∈ alive p m i ls Bs -> B ∈ Bs.
Proof. intros H. eapply elem_of_submseteq; [exact H|]. apply sublist_submseteq, alive_sublist. Qed.

Lemma scan_cells_wanted r Bs t :
  leaf_ends (leaves r) Bs -> sorted_cells (concat Bs) ->
  (scan_cells r Bs t = [] \/ scan_cells r Bs t = wanted (filter_ r) t (concat (alive_from r Bs 0))) /\
  (filter_ r = None -> scan_cells r Bs t = wanted (filter_ r) t (concat (alive_from r Bs 0))).
Proof.
  intros He Hs. unfold scan_cells. set (i := landing t (leaves r)). pose proof (Forall2_length _ _ _ He) as Hl.
  assert (H : (i <= length (leaves r))%nat /\
    Forall (fun l => below_target t (ie_Key l) = true) (take i (leaves r)) /\
    forall l, leaves r !! i = Some l -> below_target t (ie_Key l) = false).
  { subst i. destruct t as [t|]; cbn [landing]; [|split_and!; [lia|constructor|done]].
    pose proof (first_leaf_spec t 0 (leaves r)) as Hf. destruct (first_leaf t 0 (leaves r)) as [j|]; cbn [default from_option id].
    - rewrite Nat.sub_0_r in Hf. destruct Hf as (Hj & (l & H1 & H2) & H3). split_and!; [lia|done|]. intros l' Hl'. by simplify_eq.
    - rewrite take_ge by lia. split_and!; [lia|done|]. intros l Hlk. apply lookup_lt_Some in Hlk. lia. }
  destruct H as (Hi & Hbelow & Hland).
  assert (Hsplit : alive_from r Bs 0 = alive (skipPred r) (bm r) 0 (take i (leaves r)) (take i Bs) ++ alive_from r Bs i).
  { unfold alive_from. rewrite !drop_0. rewrite <-(take_drop i (leaves r)) at 1. rewrite <-(take_drop i Bs) at 1.
    rewrite alive_app by (rewrite !length_take; lia). rewrite length_take, Nat.min_l by lia. done. }
  assert (Hs' : sorted_cells (concat (alive_from r Bs i))).
  { eapply sorted_cells_sublist; [|exact Hs]. apply sublist_concat. etrans; [apply alive_sublist|apply sublist_drop]. }
  rewrite Hsplit, concat_app, wanted_app.
  rewrite (wanted_none _ _ (concat (alive _ _ _ _ _))); [cbn [app]|].
  2:{ apply Forall_forall. intros c (B & Hc & HB)%elem_of_concat.
      apply alive_elem, list_elem_of_lookup in HB as [j HB].
      pose proof (Forall2_take _ _ _ i He) as He'. destruct (Forall2_lookup_r _ _ _ _ _ He' HB) as (l & Hlk & B1 & v & HB1).
      rewrite Forall_forall in Hbelow. pose proof (Hbelow _ (list_elem_of_lookup_2 _ _ _ Hlk)) as Hb.
      apply (below_target_down t _ (ie_Key l)); [|done].
      assert (sorted_cells B) as HsB.
      { apply lookup_take_Some in HB as [HB _]. eapply sorted_cells_sublist; [|exact Hs].
        rewrite <-(take_drop_middle _ _ _ HB), concat_app. cbn. apply sublist_inserts_l, sublist_inserts_r. done. }
      rewrite HB1 in HsB, Hc. apply sorted_cells_app in HsB as (_ & _ & HsB).
      apply elem_of_app in Hc as [Hc|Hc]; [by apply (HsB _ (ie_Key l, v)); [|left]|].
      apply list_elem_of_singleton in Hc as ->. done. }
  apply seek_cells_wanted; [done|]. apply Forall_forall. intros B HB.
  apply alive_elem, list_elem_of_lookup in HB as [j HB].
  rewrite lookup_drop in HB. destruct (Forall2_lookup_r _ _ _ _ _ He HB) as (l & Hlk & HBl). exists (ie_Key l). split; [done|].
  destruct j as [|j]; [rewrite Nat.add_0_r in Hlk; by apply Hland|].
  destruct (lookup_lt_is_Some_2 Bs i) as [B0 HB0]; [apply lookup_lt_Some in HB; lia|].
  destruct (Forall2_lookup_r _ _ _ _ _ He HB0) as (l0 & Hlk0 & HBl0). specialize (Hland _ Hlk0).
  destruct (below_target t (ie_Key l)) eqn:E; [|done]. rewrite <-Hland. symmetry. apply (below_target_down t _ (ie_Key l)); [|done].
  rewrite <-(take_drop_middle _ _ _ HB0), concat_app in Hs. cbn [concat] in Hs.
  apply sorted_cells_app in Hs as (_ & Hs & _). apply sorted_cells_app in Hs as (_ & _ & Hle).
  destruct HBl0 as (B1 & v0 & ->), HBl as (B2 & v & ->). apply (Hle (ie_Key l0, v0) (ie_Key l, v)); [set_solver|].
  apply elem_of_concat. exists (B2 ++ [(ie_Key l, v)]). split; [set_solver|]. apply (list_elem_of_lookup_2 _ j).
  rewrite lookup_drop. by replace (S i + j)%nat with (i + S j)%nat by lia.
Qed.

(** ** The cursor against its specification *)

Section cursor.
Context (bc : Container.Reader) (dec : Decompressor).

(** A seek ends the scan or holds a cell back for [Next]. *)
Definition landed (r : Reader) : Prop := exhausted r = true \/ is_Some (pending r).

Lemma seek_block_landed target r r' : seek_block bc dec target r = (r', Ok tt) -> landed r'.
Proof.
  unfold seek_block, landed. destruct (openLeaf bc dec (leafIdx r) r) as [r1 [[]|]]; [|done].
  destruct (currentBlk r1) as [b|]; [|done]. destruct (skip_to _ target b) as [b1 [d|e]]; [intros [= <-]; right; by eexists|].
  destruct (errors_Is e EOF); [|done]. cbv zeta. destruct (_ <=? _)%nat; [intros [= <-]; by left|].
  destruct (openLeaf bc dec _ _) as [r2 [[]|]]; [|done]. destruct (currentBlk r2) as [b2|]; [|done].
  destruct (NextView b2) as [b3 [d|e2]]; [intros [= <-]; right; by eexists|].
  destruct (errors_Is e2 EOF); [|done]. intros [= <-]. by left.
Qed.

Lemma Seek_landed target r r' : Seek bc dec target r = (r', Ok tt) -> landed r'.
Proof.
  unfold Seek. cbv zeta. destruct (leafList _) as [[|l ls]|]; [intros [= <-]; by left| |done].
  destruct (match target with None => _ | Some _ => _ end) as [i|]; [|intros [= <-]; by left].
  destruct (_ <=? _)%nat; [intros [= <-]; by left|]. apply seek_block_landed.
Qed.

(** Between the creation of a cursor and its first use. *)
Definition fresh (r : Reader) : Prop := lastErr r = None /\ exhausted r = false /\ currentBlk r = None /\ pending r = None.

(** The first [Next] seeks to the start. *)
Lemma Next_fresh r r1 Bs cs :
  fresh r -> Seek bc dec None r = (r1, Ok tt) -> views bc dec r1 Bs cs ->
  match cs with
  | [] => exists r', Next bc dec r = (r', Err EOF) /\ views bc dec r' Bs [] /\ still r' = still r1
  | c :: cs' => exists r', Next bc dec r = (r', Ok c) /\ views bc dec r' Bs cs' /\ still r' = still r1
  end.
Proof.
  intros (H1 & H2 & H3 & H4) Hs Hv. pose proof (Seek_landed _ _ _ Hs) as Hl.
  assert (exhausted r1 = true -> forall fuel, Next_loop bc dec (S fuel) r = (r1, Err EOF)) as Hend.
  { intros Ex fuel. cbn [Next_loop]. by rewrite H1, H2, H3, H4, Hs, Ex. }
  assert (exhausted r1 = false -> forall d, pending r1 = Some d -> forall fuel, Next_loop bc dec (S fuel) r =
    (set_cursor (leafIdx r1) (currentBlk r1) None (exhausted r1) (lastErr r1) r1, Ok d)) as Hgot.
  { intros Ex d Ep fuel. cbn [Next_loop]. by rewrite H1, H2, H3, H4, Hs, Ex, Ep. }
  unfold Next. destruct Hv as [(Hx & He & ->)|(cells & (Hb & He & Hx & Hi & b & Hblk & Hin) & ->)].
  - rewrite Hend by done. exists r1. split; [done|]. split; [by left|done].
  - destruct Hl as [Hl|[d Hd]]; [congruence|]. rewrite (Hgot Hx d Hd), Hd. cbn [option_list app].
    eexists. split; [done|]. split; [|done]. right. exists cells. split; [|done]. split_and!; try done. by exists b.
Qed.

(** The cursor works on the cells [G], whole blocks at a time. *)
Definition works_on (r : Reader) (G : list cell) : Prop :=
  exists ls Bs, known_leaves r = Ok ls /\ has_blocks bc dec (set_leaves ls r) Bs /\ leaf_ends ls Bs /\
    concat Bs = G /\ sorted_cells G.

Lemma known_leaves_still r ls r' :
  known_leaves r = Ok ls -> still r' = still (set_leaves ls r) -> known_leaves r' = Ok ls.
Proof.
  intros Hk Hs. unfold known_leaves in *. pose proof (f_equal leaves Hs : leaves r' = ls) as ->.
  pose proof (f_equal sharedLeaves Hs : sharedLeaves r' = sharedLeaves r) as ->. destruct (sharedLeaves r); [done|].
  destruct ls as [|l ls]; [|done]. destruct (leaves r) eqn:E; [|done]. rewrite <-Hk.
  unfold collectLeaves. by pose proof (f_equal walker Hs : walker r' = walker r) as ->.
Qed.

Lemma has_blocks_still r r' Bs : still r' = still r -> has_blocks bc dec r Bs -> has_blocks bc dec r' Bs.
Proof.
  intros Hs H. unfold has_blocks in *. pose proof (f_equal leaves Hs : leaves r' = leaves r) as ->.
  eapply Forall2_impl; [exact H|]. intros l B (H1 & H2 & H3). split_and!; [|done|done].
  pose proof (f_equal dataBlocks Hs : dataBlocks r' = dataBlocks r) as ->.
  by pose proof (f_equal dataCodec Hs : dataCodec r' = dataCodec r) as ->.
Qed.

(** Its operations, and what each reports: nothing for a seek, a cell or the
    end for [Next]. *)
Inductive cursor_op := OSeek (target : option Key) | ONext.

Definition reader_step (op : cursor_op) (r : Reader) : Reader * result (option cell) :=
  match op with
  | OSeek t => let '(r, e) := Seek bc dec t r in (r, _ ← e; Ok None)
  | ONext => let '(r, c) := Next bc dec r in (r, c ← c; Ok (Some c))
  end.
Fixpoint run_reader (ops : list cursor_op) (r : Reader) : list (result (option cell)) :=
  match ops with [] => [] | op :: ops => let '(r, x) := reader_step op r in x :: run_reader ops r end.
End cursor.

(** A cursor over a sorted list: the cells left. *)
Definition spec_step (G : list cell) (op : cursor_op) (rem : list cell) : list cell * result (option cell) :=
  match op with
  | OSeek t => (wanted None t G, Ok None)
  | ONext => match rem with [] => ([], Err EOF) | c :: rem => (rem, Ok (Some c)) end
  end.
Fixpoint run_spec (G : list cell) (ops : list cursor_op) (rem : list cell) : list (result (option cell)) :=
  match ops with [] => [] | op :: ops => let '(rem, x) := spec_step G op rem in x :: run_spec G ops rem end.

Section refinement.
Context (bc : Container.Reader) (dec : Decompressor).

(** A reader without filter that stands before the cells [rem]. *)
Definition stands (G : list cell) (r : Reader) (rem : list cell) : Prop :=
  filter_ r = None /\ skipPred r = None /\
  exists ls Bs, known_leaves r = Ok ls /\ has_blocks bc dec (set_leaves ls r) Bs /\ leaf_ends ls Bs /\
    concat Bs = G /\ sorted_cells G /\ (fresh r /\ rem = G \/ views bc dec r Bs rem).

Lemma still_set_leaves r ls : leaves r = ls -> still (set_leaves ls r) = still r.
Proof. intros <-. by destruct r. Qed.

Lemma scan_all r Bs t :
  filter_ r = None -> skipPred r = None -> leaf_ends (leaves r) Bs -> sorted_cells (concat Bs) ->
  scan_cells r Bs t = wanted None t (concat Bs).
Proof.
  intros Hf Hp He Hs. destruct (scan_cells_wanted r Bs t He Hs) as [_ H]. rewrite (H Hf), Hf. unfold alive_from. rewrite Hp, !drop_0.
  rewrite alive_none; [done|]. by apply Forall2_length in He.
Qed.

Lemma stands_after G r r' ls Bs rem :
  known_leaves r = Ok ls -> has_blocks bc dec (set_leaves ls r) Bs -> leaf_ends ls Bs -> concat Bs = G -> sorted_cells G ->
  filter_ r = None -> skipPred r = None ->
  still r' = still (set_leaves ls r) -> views bc dec r' Bs rem -> stands G r' rem.
Proof.
  intros Hk Hb He Hg Hs Hf Hp Hst Hv. split; [etrans; [apply (f_equal filter_ Hst)|done]|].
  split; [etrans; [apply (f_equal skipPred Hst)|done]|]. exists ls, Bs. split; [by eapply known_leaves_still|].
  split; [|split_and!; try done; by right].
  apply (has_blocks_still _ _ (set_leaves ls r)); [|done]. rewrite still_set_leaves; [done|apply (f_equal leaves Hst)].
Qed.

Lemma stands_again G r r' ls Bs rem :
  known_leaves r = Ok ls -> has_blocks bc dec (set_leaves ls r) Bs -> leaf_ends ls Bs -> concat Bs = G -> sorted_cells G ->
  filter_ r = None -> skipPred r = None ->
  still r' = still r -> views bc dec r' Bs rem -> stands G r' rem.
Proof.
  intros Hk Hb He Hg Hs Hf Hp Hst Hv. split; [etrans; [apply (f_equal filter_ Hst)|done]|].
  split; [etrans; [apply (f_equal skipPred Hst)|done]|]. exists ls, Bs.
  pose proof (f_equal leaves Hst : leaves r' = leaves r) as El. split.
  { unfold known_leaves in *. rewrite El. pose proof (f_equal sharedLeaves Hst : sharedLeaves r' = sharedLeaves r) as ->.
    destruct (sharedLeaves r); [done|]. destruct (leaves r); [|done]. rewrite <-Hk. unfold collectLeaves.
    by pose proof (f_equal walker Hst : walker r' = walker r) as ->. }
  split; [|split_and!; try done; by right]. apply (has_blocks_still _ _ (set_leaves ls r)); [|done].
  change (set_leaves ls (still r') = set_leaves ls (still r)). by rewrite Hst.
Qed.

Lemma step_refines G op r rem :
  stands G r rem ->
  exists r', reader_step bc dec op r = (r', (spec_step G op rem).2) /\ stands G r' (spec_step G op rem).1.
Proof.
  intros (Hf & Hp & ls & Bs & Hk & Hb & He & Hg & Hs & Hv).
  assert (forall t, scan_cells (set_leaves ls r) Bs t = wanted None t G) as Hscan by (intros t; rewrite <-Hg; apply scan_all; by rewrite ?Hg).
  destruct op as [t|]; cbn [reader_step spec_step fst snd].
  - destruct (Seek_spec bc dec r ls Bs t Hk Hb) as (r' & -> & Hst & Hv'). exists r'. split; [done|].
    rewrite Hscan in Hv'. by apply (stands_after G r r' ls Bs).
  - destruct Hv as [[Hfr ->]|Hv].
    + destruct (Seek_spec bc dec r ls Bs None Hk Hb) as (r1 & Hsk & Hst & Hv'). rewrite Hscan in Hv'.
      assert (wanted None None G = G) as Ew by (unfold wanted; rewrite accepted_None; by apply filter_all, Forall_true).
      rewrite Ew in Hv'. pose proof (Next_fresh bc dec r r1 Bs G Hfr Hsk Hv') as Hn. clear Hscan Hv' Ew.
      assert (forall r' rem', still r' = still r1 -> views bc dec r' Bs rem' -> stands G r' rem') as Hgo
        by (intros r' rem' H1 H2; apply (stands_after G r r' ls Bs); try done; congruence).
      clear Hg Hs. revert Hgo. generalize G at 1 3. intros G' Hgo.
      destruct G as [|d cs]; destruct Hn as (r' & -> & Hv2 & Hst2); exists r'; (split; [done|]); by apply Hgo.
    + pose proof (Next_views bc dec r Bs rem Hv) as Hn.
      destruct rem as [|d rem]; destruct Hn as (r' & -> & Hv2 & Hst2); exists r'; (split; [done|]); by apply (stands_again G r r' ls Bs).
Qed.

Lemma run_refines G ops r rem : stands G r rem -> run_reader bc dec ops r = run_spec G ops rem.
Proof.
  revert r rem. induction ops as [|op ops IH]; intros r rem H; [done|]. cbn [run_reader run_spec].
  destruct (step_refines G op r rem H) as (r' & -> & H'). destruct (spec_step G op rem) as [rem' x]. cbn [fst snd] in *.
  f_equal. by apply IH.
Qed.
End refinement.

(** ** Draining a cursor *)

Section drain.
Context (bc : Container.Reader) (dec : Decompressor).

(** [Next] until the end, at most [fuel] times. *)
Fixpoint drain (fuel : nat) (r : Reader) : result (list cell) :=
  match fuel with
  | O => Err (Fail "out of fuel")
  | S fuel =>
      match Next bc dec r with
      | (r, Ok c) => cs ← drain fuel r; Ok (c :: cs)
      | (_, Err e) => if errors_Is e EOF then Ok [] else Err e
      end
  end.

Lemma drain_views r Bs cs fuel : views bc dec r Bs cs -> (length cs < fuel)%nat -> drain fuel r = Ok cs.
Proof.
  revert r cs. induction fuel as [|fuel IH]; intros r cs Hv Hf; [lia|]. pose proof (Next_views bc dec r Bs cs Hv) as Hn. cbn [drain].
  destruct cs as [|c cs]; destruct Hn as (r' & -> & Hv' & _); [done|]. cbn [length] in Hf. by rewrite (IH r' cs Hv') by lia.
Qed.

(** Under a filter and a skip predicate a seek delivers nothing, or all that
    the filter accepts of the blocks that are left. *)
Lemma filtered_seek r G flt p t fuel :
  works_on bc dec r G -> fresh r -> (length G < fuel)%nat ->
  let r0 := SetSkipPredicate p (match flt with Some f => SetFilter f r | None => r end) in
  (flt = None -> filter_ r = None) ->
  exists r' kept, Seek bc dec t r0 = (r', Ok tt) /\ sublist kept G /\ (p = None -> kept = G) /\
    (drain fuel r' = Ok [] \/ drain fuel r' = Ok (wanted flt t kept)) /\
    (flt = None -> drain fuel r' = Ok (wanted None t kept)).
Proof.
  intros (ls & Bs & Hk & Hb & He & Hg & Hs) Hfr Hfuel r0 Hflt.
  assert (known_leaves r0 = Ok ls) as Hk0 by (unfold r0; by destruct flt).
  assert (has_blocks bc dec (set_leaves ls r0) Bs) as Hb0 by (unfold r0; by destruct flt).
  assert (filter_ r0 = flt) as Ef by (unfold r0; destruct flt; [done|by apply Hflt]).
  destruct (Seek_spec bc dec r0 ls Bs t Hk0 Hb0) as (r' & Hseek & _ & Hv). exists r', (concat (alive_from (set_leaves ls r0) Bs 0)).
  rewrite <-Hg in Hs. destruct (scan_cells_wanted (set_leaves ls r0) Bs t He Hs) as [Hw Hw0].
  change (filter_ (set_leaves ls r0)) with (filter_ r0) in Hw, Hw0. rewrite Ef in Hw, Hw0.
  set (cs := scan_cells _ _ _) in *. set (kept := concat (alive_from _ _ _)) in *.
  assert (sublist kept G) as Hsub by (rewrite <-Hg; apply sublist_concat, (alive_sublist _ _ 0 ls Bs)).
  assert (length cs < fuel)%nat as Hlen.
  { destruct Hw as [-> | ->]; [cbn; lia|]. unfold wanted, accepted. apply sublist_length in Hsub.
    pose proof (length_filter (fun c : cell => below_target t c.1 = false) (filter (fun c : cell => accepts flt c.1 = true) kept)).
    pose proof (length_filter (fun c : cell => accepts flt c.1 = true) kept). lia. }
  pose proof (drain_views r' Bs cs fuel Hv Hlen) as Hd.
  split; [done|]. split; [done|]. split; [|split].
  - intros ->. rewrite <-Hg. unfold kept. f_equal. apply (alive_none _ 0 ls Bs). by apply Forall2_length in He.
  - destruct Hw as [E|E]; rewrite Hd, E; [by left|by right].
  - intros ->. by rewrite Hd, Hw0.
Qed.
End drain.
