(* ===== verification/RFileBuild.v ===== *)
(** * RFileBuild: what the RFile writer lays out (src/internal/rfile/writer.go)

    The invariant of a locality group being written: the blocks flushed so
    far are in the container, the levels of the index hold a forest of stored
    subtrees over their leaf entries, and every region is used once.  Each
    step of the writer keeps it; finishing a group leaves a single root. *)

From S2P Require Import Prelude Wire Iter RelKey BCFile Container Index EmbeddingSpace BlockMeta Adjacency IndexFile.
From S2P Require Import Codec RFileWriter IndexTree.

Lemma meth_bind_Ok {A B} (m : meth A) (f : A -> meth B) w w' b :
  (m ≫= f) w = (w', Ok b) -> exists w1 a, m w = (w1, Ok a) /\ f a w1 = (w', Ok b).
Proof. unfold mbind, meth_bind. destruct (m w) as [w1 [a|e]]; [|done]. intros H. by exists w1, a. Qed.

Lemma lift_Ok {A} (r : result A) w w' a : lift r w = (w', Ok a) -> w' = w /\ r = Ok a.
Proof. unfold lift. by intros [= <- <-]. Qed.

Lemma wrap_Ok {A} msg (r : result A) a : wrap msg r = Ok a -> r = Ok a.
Proof. by destruct r. Qed.

(** ** Sizes of index entries *)

(** The longest key and the largest index block the theorems are about: the
    reader refuses index blocks above 64 MiB or 2^20 entries. *)
Definition key_small (k : Key) : Prop := in_int64 (Timestamp k) /\ key_len k <= 2 ^ 21.
Definition index_cap : Z := 2 ^ 23.

Lemma key_small_ok k : key_small k -> key_ok k.
Proof. intros [? ?]. split; [done|]. lia. Qed.

Lemma WriteVLong_len_le n : in_int64 n -> len (Wire.WriteVLong n).1 <= 9.
Proof. intros Hn. destruct (WriteVLong_size n Hn) as (first & mag & -> & _ & _ & -> & H). lia. Qed.

Lemma WriteVInt_len_le n : len (Wire.WriteVInt (int32 n)).1 <= 9.
Proof. apply WriteVLong_len_le. pose proof (int32_range n). unfold in_int32, in_int64 in *. lia. Qed.

Lemma BCWriteVLong_len_le n : in_int64 n -> len (BCFile.WriteVLong n) <= 9.
Proof.
  intros Hn. rewrite (WriteVLong_table n Hn). pose proof (dataLen_bound n Hn) as Hd. unfold vlong_table, lead.
  repeat case_match; rewrite ?len_cons, ?be_put_len, ?len_nil; lia.
Qed.

Lemma WriteKey_len_le k : key_small k -> len (WriteKey k) <= 2 ^ 21 + 46.
Proof.
  intros [Ht Hl]. unfold WriteKey. rewrite !len_app. unfold key_len in Hl.
  pose proof (WriteVInt_len_le (len (Row k))).
  pose proof (WriteVInt_len_le (int32 (len (Row k)) + int32 (len (ColumnFamily k)))).
  set (b := int32 (int32 (len (Row k)) + int32 (len (ColumnFamily k)))) in *.
  pose proof (WriteVInt_len_le (b + int32 (len (ColumnQualifier k)))).
  set (d := int32 (b + int32 (len (ColumnQualifier k)))) in *.
  pose proof (WriteVInt_len_le (d + int32 (len (ColumnVisibility k)))).
  pose proof (WriteVLong_len_le _ Ht). assert (len (WriteBool (Deleted k)) = 1) as -> by (by destruct (Deleted k)). lia.
Qed.

(** An entry for a small key. *)
Definition entry_small (e : IndexEntry) : Prop :=
  key_small (ie_Key e) /\ in_int32 (NumEntries e) /\ region_ok (region_of e).

Lemma entry_small_ok e : entry_small e -> index_entry_ok e.
Proof. intros (? & ? & ?). split_and!; [by apply key_small_ok|done..]. Qed.

Lemma entry_small_len e : entry_small e -> 8 <= len (WriteIndexEntry e) <= 2 ^ 22 - 4.
Proof.
  intros (Hk & _ & H1 & H2 & H3). unfold WriteIndexEntry. rewrite !len_app, WriteInt32_len.
  cbn [region_of Offset CompressedSize RawSize] in *.
  pose proof (WriteKey_len_le _ Hk). pose proof (len_nonneg (WriteKey (ie_Key e))).
  pose proof (BCWriteVLong_len_le _ H1). pose proof (BCWriteVLong_len_le _ H2). pose proof (BCWriteVLong_len_le _ H3).
  pose proof (Container.WriteVLong_nonempty _ H1). pose proof (Container.WriteVLong_nonempty _ H2).
  pose proof (Container.WriteVLong_nonempty _ H3).
  assert (0 < len (WriteKey (ie_Key e))) as Hpos.
  { unfold WriteKey. rewrite !len_app. assert (len (WriteBool (Deleted (ie_Key e))) = 1) as -> by (by destruct (Deleted (ie_Key e))).
    repeat match goal with |- context [len ?l] => lazymatch l with _ => pose proof (len_nonneg l); generalize dependent (len l); intros end end. lia. }
  lia.
Qed.

Definition es_size (es : list IndexEntry) : Z := len (entries_data es) + 4 * len es.

Lemma es_size_app es1 es2 : es_size (es1 ++ es2) = es_size es1 + es_size es2.
Proof. unfold es_size, entries_data. rewrite fmap_app, concat_app, !len_app. lia. Qed.

Lemma es_size_one e : entry_small e -> 0 <= es_size [e] <= 2 ^ 22.
Proof.
  intros H%entry_small_len. unfold es_size, entries_data. cbn [fmap list_fmap concat]. rewrite app_nil_r.
  change (len [e]) with 1. lia.
Qed.

Lemma es_size_bounds es : Forall entry_small es -> 12 * len es <= es_size es.
Proof.
  induction 1 as [|e es He _ IH]; [done|]. change (e :: es) with ([e] ++ es). rewrite es_size_app, len_app.
  apply entry_small_len in He. unfold es_size at 1. unfold entries_data. cbn [fmap list_fmap concat]. rewrite app_nil_r.
  change (len [e]) with 1. lia.
Qed.

(** A block no larger than a level may grow can be read. *)
Lemma block_ok_small n off es :
  (n <= 64)%nat -> in_int32 off -> Forall entry_small es -> es_size es <= index_cap + 2 ^ 22 -> block_ok (Z.of_nat n) off es.
Proof.
  intros Hn Ho He Hs. pose proof (es_size_bounds es He) as Hb. pose proof (len_nonneg es).
  assert (len (entries_data es) <= es_size es) by (unfold es_size; lia).
  split_and!; [unfold in_int32; lia|done|by eapply Forall_impl; [|apply entry_small_ok]|..];
    change maxIndexEntries with 1048576; change maxIndexDataBytes with 67108864; unfold index_cap in *; lia.
Qed.

(** ** The container during the writing of groups *)

Definition region_in (n : Z) (r : BlockRegion) : Prop :=
  0 <= Offset r /\ 0 < CompressedSize r <= MaxCompressedBlockSize /\ 0 <= RawSize r <= MaxRawBlockSize /\
  Offset r + CompressedSize r <= n.
Definition before (r1 r2 : BlockRegion) : Prop := Offset r1 + CompressedSize r1 <= Offset r2.

Section build.
(** The compressor encodes under [codec], and only nothing as nothing. *)
Context (c : Compressor) (codec : bytes).
Hypothesis encode_nonempty : forall raw p, Encode c raw codec = Ok p -> raw <> [] -> p <> [].

Record out_inv (o : Container.Writer) : Prop := {
  oi_inv : meta_inv o;
  oi_open : w_closed o = false;
  oi_codec : w_defaultCompression o = codec;
  oi_meta : Entries (w_metaIndex o) = ∅;
  oi_blocks : Forall (region_in (w_n o)) (w_dataBlocks o);
  oi_order : StronglySorted before (w_dataBlocks o);
}.

(** A declared region of the file holds the encoding of [raw]. *)
Definition Stored (o : Container.Writer) (r : BlockRegion) (raw : bytes) : Prop :=
  exists p, Encode c raw codec = Ok p /\ holds (w_out o) r p /\ RawSize r = len raw /\ r ∈ w_dataBlocks o.

(** What any later state of the container keeps. *)
Definition grows (o o' : Container.Writer) : Prop :=
  w_n o <= w_n o' /\ forall r raw, Stored o r raw -> Stored o' r raw.

#[export] Instance grows_preorder : PreOrder grows.
Proof.
  split; [by intros o|]. intros o1 o2 o3 [H1 H2] [H3 H4]. split; [lia|]. auto.
Qed.

Lemma Encode_limits raw p : Encode c raw codec = Ok p -> len raw <= MaxRawBlockSize /\ len p <= MaxCompressedBlockSize.
Proof.
  unfold Encode. destruct (Z.gtb_spec (len raw) MaxRawBlockSize); [done|]. destruct (c !! codec) as [fn|]; [|done].
  intros (p' & _ & H')%bind_Ok. destruct (Z.gtb_spec (len p') MaxCompressedBlockSize); [done|].
  apply (inj Ok) in H' as ->. lia.
Qed.

(** Keys in use, all of regions before the end of the file. *)
Definition keys_used (o : Container.Writer) (V : list (Z * Z)) : Prop :=
  NoDup V /\ Forall (fun k => k.1 < w_n o) V.

Lemma append_block o o' raw p r :
  out_inv o -> Encode c raw codec = Ok p -> raw <> [] -> AppendDataBlock p (len raw) o = (o', Ok r) ->
  r = mkRegion (w_n o) (len p) (len raw) /\ out_inv o' /\ Stored o' r raw /\ grows o o' /\ w_n o < w_n o' /\
  (forall V, keys_used o V -> keys_used o' (V ++ [blockRegionKey r])).
Proof.
  intros Ho He Hne. unfold AppendDataBlock. rewrite (oi_open o Ho). pose proof (len_nonneg raw).
  replace (len raw <? 0) with false by lia. intros [= <- <-]. pose proof (Encode_limits _ _ He) as [Hl1 Hl2].
  assert (0 < len p) as Hp.
  { pose proof (encode_nonempty raw p He Hne). destruct p as [|b p]; [done|]. rewrite len_cons. pose proof (len_nonneg p). lia. }
  pose proof (mi_n o (oi_inv o Ho)) as Hn. pose proof (len_nonneg (w_out o)).
  split; [done|]. split_and!.
  - split.
    + destruct (Write_inv p o (oi_inv o Ho)). by split.
    + apply Ho.
    + apply Ho.
    + apply Ho.
    + cbn. apply Forall_app. split; [|repeat constructor; cbn; lia].
      eapply Forall_impl; [apply (oi_blocks o Ho)|]. unfold region_in. intros r. lia.
    + cbn. pose proof (oi_blocks o Ho) as Hb. pose proof (oi_order o Ho) as Hs. revert Hb Hs.
      generalize (w_dataBlocks o). induction l as [|r l IH]; [repeat constructor|].
      intros [Hr Hb]%Forall_cons [Hs Hle]%StronglySorted_inv. cbn. constructor; [by apply IH|].
      apply Forall_app. split; [done|]. repeat constructor. unfold region_in, before in *. cbn. lia.
  - exists p. cbn. rewrite Hn. split_and!; [done|apply holds_new|done|set_solver].
  - split; [cbn; lia|]. intros r raw' (p' & H1 & H2 & H3 & H4). exists p'. cbn. split_and!; [done|by apply holds_app|done|set_solver].
  - cbn. lia.
  - intros V [Hd Hf]. split.
    + apply NoDup_app. split_and!; [done| |apply NoDup_singleton]. intros k Hk ->%list_elem_of_singleton.
      rewrite Forall_forall in Hf. specialize (Hf _ Hk). cbn in Hf. lia.
    + cbn. apply Forall_app. split; [|repeat constructor; cbn; lia].
      eapply Forall_impl; [exact Hf|]. cbn. lia.
Qed.

(** ** Levels *)

Definition level_of (lv : nat) (off : Z) (es : list IndexEntry) : indexLevel :=
  mkLevel (Z.of_nat lv) off (entries_data es) (offsets_from 0 es).

Lemma offsets_from_snoc o es e : offsets_from o (es ++ [e]) = offsets_from o es ++ [o + len (entries_data es)].
Proof.
  revert o. induction es as [|d es IH]; intros o; cbn.
  - unfold entries_data. cbn. by rewrite len_nil, Z.add_0_r.
  - rewrite IH. change (entries_data (d :: es)) with (WriteIndexEntry d ++ entries_data es). rewrite len_app, Z.add_assoc. done.
Qed.

Lemma addEntry_level_of lv off es e :
  len (entries_data es) < 2 ^ 31 -> addEntry e (level_of lv off es) = level_of lv off (es ++ [e]).
Proof.
  intros H. pose proof (len_nonneg (entries_data es)). unfold addEntry, level_of. cbn.
  rewrite offsets_from_snoc, int32_id by (unfold in_int32; lia). f_equal.
  unfold entries_data. rewrite fmap_app, concat_app. cbn. by rewrite app_nil_r.
Qed.

Lemma size_level_of lv off es : size (level_of lv off es) = es_size es.
Proof. unfold size, es_size, level_of, len. cbn. by rewrite offsets_from_length. Qed.
Lemma numEntries_level_of lv off es : numEntries (level_of lv off es) = len es.
Proof. unfold numEntries, level_of, len. cbn. by rewrite offsets_from_length. Qed.

Section levels.
Context (St : BlockRegion -> bytes -> Prop).

(** The entries of a level and what they lead to. *)
Record forest (lv : nat) (off : Z) (es : list IndexEntry) (Ls : list (list IndexEntry)) (Vs : list (list (Z * Z))) : Prop := {
  fo_off : in_int32 off;
  fo_small : Forall entry_small es;
  fo_sub : Forall3 (subtree St lv) es Ls Vs;
}.

(** The levels from [lv] up over the leaves [L]: the higher a level, the
    earlier its leaves.  Every entry of a level is full enough to bound the
    height; the topmost level is not empty. *)
Fixpoint tower (lv : nat) (ls : list (option indexLevel)) (L : list IndexEntry) (V : list (Z * Z)) : Prop :=
  match ls with
  | [] => L = [] /\ V = []
  | l :: ls => exists off es Ls Vs L' V',
      l = Some (level_of lv off es) /\ forest lv off es Ls Vs /\ es_size es <= index_cap /\
      Forall (fun L => 2 ^ lv <= length L)%nat Ls /\ (ls = [] -> es <> []) /\
      tower (S lv) ls L' V' /\ L = L' ++ concat Ls /\ V = V' ++ concat Vs
  end.

Lemma concat_length_le {A} (Ls : list (list A)) n :
  Forall (fun L => n <= length L)%nat Ls -> (length Ls * n <= length (concat Ls))%nat.
Proof. induction 1 as [|L Ls H _ IH]; cbn; [lia|]. rewrite length_app. lia. Qed.

Lemma Forall3_length {A B C} (R : A -> B -> C -> Prop) l1 l2 l3 :
  Forall3 R l1 l2 l3 -> length l1 = length l2 /\ length l1 = length l3.
Proof. induction 1 as [|???????? [IH1 IH2]]; cbn; lia. Qed.

Lemma tower_height lv ls L V : tower lv ls L V -> ls <> [] -> (2 ^ (lv + length ls - 1) <= length L)%nat.
Proof.
  revert lv L V. induction ls as [|l ls IH]; intros lv L V; [done|].
  intros (off & es & Ls & Vs & L' & V' & _ & Hf & _ & Hfull & Htop & Hup & -> & _) _. rewrite length_app. cbn [length].
  destruct ls as [|l2 ls].
  - apply concat_length_le in Hfull. destruct (Forall3_length _ _ _ _ (fo_sub _ _ _ _ _ Hf)) as [Hl _].
    specialize (Htop eq_refl). destruct es as [|e es]; [done|]. rewrite <-Hl in Hfull. cbn [length] in *.
    replace (lv + 1 - 1)%nat with lv by lia. lia.
  - specialize (IH (S lv) L' V' Hup ltac:(done)). cbn [length] in *.
    replace (S lv + S (length ls) - 1)%nat with (lv + S (S (length ls)) - 1)%nat in IH by lia. lia.
Qed.
End levels.

Lemma Forall3_impl {A B C} (R1 R2 : A -> B -> C -> Prop) l1 l2 l3 :
  (forall x y z, R1 x y z -> R2 x y z) -> Forall3 R1 l1 l2 l3 -> Forall3 R2 l1 l2 l3.
Proof. intros H. induction 1; constructor; auto. Qed.

Lemma subtree_mono (S1 S2 : BlockRegion -> bytes -> Prop) n e L V :
  (forall r raw, S1 r raw -> S2 r raw) -> subtree S1 n e L V -> subtree S2 n e L V.
Proof.
  intros HS. revert e L V. induction n as [|n IH]; intros e L V; [done|].
  intros (off & hn & es & Ls & Vs & H1 & H2 & H3 & H4 & H5 & H6 & H7). exists off, hn, es, Ls, Vs.
  split_and!; [done|done|done|by apply HS| |done|done]. eapply Forall3_impl; [|exact H5]. apply IH.
Qed.

Lemma forest_mono (S1 S2 : BlockRegion -> bytes -> Prop) lv off es Ls Vs :
  (forall r raw, S1 r raw -> S2 r raw) -> forest S1 lv off es Ls Vs -> forest S2 lv off es Ls Vs.
Proof. intros HS [H1 H2 H3]. split; [done|done|]. eapply Forall3_impl; [|exact H3]. intros. by eapply subtree_mono. Qed.

Lemma tower_mono (S1 S2 : BlockRegion -> bytes -> Prop) lv ls L V :
  (forall r raw, S1 r raw -> S2 r raw) -> tower S1 lv ls L V -> tower S2 lv ls L V.
Proof.
  intros HS. revert lv L V. induction ls as [|l ls IH]; intros lv L V; [done|].
  intros (off & es & Ls & Vs & L' & V' & H1 & H2 & H3). exists off, es, Ls, Vs, L', V'.
  split; [done|]. split; [by eapply forest_mono|]. naive_solver.
Qed.

Lemma forest_snoc St lv off es Ls Vs e L V :
  forest St lv off es Ls Vs -> entry_small e -> subtree St lv e L V ->
  forest St lv off (es ++ [e]) (Ls ++ [L]) (Vs ++ [V]).
Proof.
  intros [H1 H2 H3] He Hs. split; [done| |].
  - apply Forall_app. split; [done|by apply Forall_singleton].
  - apply Forall3_app; [done|]. by constructor; [|constructor].
Qed.

Lemma forest_nil St lv off : in_int32 off -> forest St lv off [] [] [].
Proof. intros H. split; [done|constructor|constructor]. Qed.

(** The writer's parameters, and what a step on the index leaves alone. *)
Definition env_ok (w : Writer) : Prop :=
  comp w = c /\ opt_Codec (opts w) = codec /\ IndexBlockSize (opts w) <= index_cap /\ in_int32 (totalAdded (grp w)).

(** Only the container and the levels changed. *)
Definition framed (w w' : Writer) : Prop :=
  w' = set_grp (set_levels (levels (grp w')) (grp w)) (set_out (out w') w).

Lemma framed_env w w' : framed w w' -> env_ok w -> env_ok w'.
Proof. unfold framed, env_ok. intros ->. done. Qed.

Lemma framed_refl w : framed w w.
Proof. unfold framed. by destruct w as [? ? ? ? ? [] ? ? ? ? ? ? ? ?]. Qed.
Lemma framed_trans w1 w2 w3 : framed w1 w2 -> framed w2 w3 -> framed w1 w3.
Proof. unfold framed. intros -> ->. done. Qed.

Lemma framed_levels w w' ls : framed w w' -> framed w (set_grp (set_levels ls (grp w')) w').
Proof. unfold framed. by intros ->. Qed.

Lemma indexAddAtLevel_eq lv e w :
  indexAddAtLevel lv e w =
    let ls := levels (grp w) in
    let ls := if (lv =? length ls)%nat
              then ls ++ [Some (mkLevel (Z.of_nat lv) (int32 (totalAdded (grp w) - 1)) [] [])] else ls in
    match ls !! lv with
    | Some (Some l) => (set_grp (set_levels (<[lv := Some (addEntry e l)]> ls) (grp w)) w, Ok tt)
    | Some None => (w, Err (Fail "panic: nil index level"))
    | None => (w, Err (Fail "panic: index level out of range"))
    end.
Proof. unfold indexAddAtLevel, mbind, meth_bind, get. cbv zeta. by destruct (_ !! lv) as [[l|]|]. Qed.

Lemma indexAddAtLevel_Ok lv e w w' :
  indexAddAtLevel lv e w = (w', Ok tt) -> in_int32 (totalAdded (grp w)) ->
  framed w w' /\ out w' = out w /\
  ((exists l, levels (grp w) !! lv = Some (Some l) /\ levels (grp w') = <[lv := Some (addEntry e l)]> (levels (grp w))) \/
   (lv = length (levels (grp w)) /\ exists off, in_int32 off /\
      levels (grp w') = levels (grp w) ++ [Some (addEntry e (level_of lv off []))])).
Proof.
  intros H Ht. rewrite indexAddAtLevel_eq in H. cbv zeta in H.
  destruct (Nat.eqb_spec lv (length (levels (grp w)))) as [->|Hne].
  - rewrite lookup_app_r, Nat.sub_diag in H by lia. cbn in H. injection H as <-.
    split; [unfold framed; by destruct w as [? ? ? ? ? [] ? ? ? ? ? ? ? ?]|]. split; [done|]. right. split; [done|].
    exists (int32 (totalAdded (grp w) - 1)). split; [apply int32_range|]. cbn.
    rewrite insert_app_r_alt, Nat.sub_diag by lia. done.
  - destruct (levels (grp w) !! lv) as [[l|]|] eqn:E; [|done..]. injection H as <-.
    split; [unfold framed; by destruct w as [? ? ? ? ? [] ? ? ? ? ? ? ? ?]|]. split; [done|]. left. by exists l.
Qed.

Definition flush_parent (fuel lv : nat) (k : Key) (last : bool) (region : BlockRegion) : meth unit :=
  _ ← indexAddAtLevel (S lv) (mkIndexEntry k 0 (Offset region) (CompressedSize region) (RawSize region));
  _ ← indexFlushLevel fuel (S lv) k last;
  w ← get;
  modify (set_grp (set_levels
    (<[lv := if last then None else Some (mkLevel (Z.of_nat lv) (totalAdded (grp w)) [] [])]> (levels (grp w))) (grp w))).

Lemma indexFlushLevel_S fuel lv k last w :
  indexFlushLevel (S fuel) lv k last w =
    if last && (Z.of_nat lv =? len (levels (grp w)) - 1) then (w, Ok tt)
    else match levels (grp w) !! lv with
    | None => (w, Err (Fail "panic: index level out of range"))
    | Some None => (w, Err (Fail "rfile: cascade hit nil level"))
    | Some (Some lvl) =>
        if negb ((size lvl >? IndexBlockSize (opts w)) && (numEntries lvl >? 1)) && negb last then (w, Ok tt)
        else if numEntries lvl =? 0 then (w, Ok tt)
        else
          (compressed ← lift (wrap "rfile: compress IndexBlock"
             (Encode (comp w) (WriteIndexBlock (toBlock lvl (negb last))) (opt_Codec (opts w))));
           region ← on_out "rfile: write IndexBlock"
             (AppendDataBlock compressed (len (WriteIndexBlock (toBlock lvl (negb last)))));
           flush_parent fuel lv k last region) w
    end.
Proof.
  unfold indexFlushLevel; fold indexFlushLevel. unfold mbind at 1, meth_bind at 1, get at 1. cbv beta iota.
  destruct (last && _); [done|]. destruct (_ !! lv) as [[lvl|]|]; [|done..]. cbv zeta.
  destruct (negb _ && _); [done|]. by destruct (numEntries lvl =? 0).
Qed.

(** One turn of the cascade, when it succeeds. *)
Lemma indexFlushLevel_turn fuel lv k last w w' off es ls :
  indexFlushLevel (S fuel) lv k last w = (w', Ok tt) ->
  comp w = c -> opt_Codec (opts w) = codec -> drop lv (levels (grp w)) = Some (level_of lv off es) :: ls ->
  (w' = w /\ ((last = true /\ ls = []) \/
              (last = false /\ (es_size es <= IndexBlockSize (opts w) \/ len es <= 1)) \/ es = [])) \/
  (es <> [] /\ (last = false -> 1 < len es) /\ (last = true -> ls <> []) /\
   exists p r o1 w1 w2,
     let raw := WriteIndexBlock (block_of (Z.of_nat lv) off (negb last) es) in
     Encode c raw codec = Ok p /\ AppendDataBlock p (len raw) (out w) = (o1, Ok r) /\
     indexAddAtLevel (S lv) (mkIndexEntry k 0 (Offset r) (CompressedSize r) (RawSize r)) (set_out o1 w) = (w1, Ok tt) /\
     indexFlushLevel fuel (S lv) k last w1 = (w2, Ok tt) /\
     w' = set_grp (set_levels (<[lv := if last then None else Some (level_of lv (totalAdded (grp w2)) [])]>
                                 (levels (grp w2))) (grp w2)) w2).
Proof.
  intros H Hc Hcodec Hls. rewrite indexFlushLevel_S in H.
  assert (levels (grp w) !! lv = Some (Some (level_of lv off es))) as Hlv.
  { pose proof (lookup_drop (levels (grp w)) lv 0) as Hd. by rewrite Hls, Nat.add_0_r in Hd. }
  assert (length (levels (grp w)) = (lv + S (length ls))%nat) as Hlen.
  { apply (f_equal length) in Hls. rewrite length_drop in Hls. cbn in Hls. lia. }
  destruct (last && (Z.of_nat lv =? len (levels (grp w)) - 1)) eqn:Etop.
  { injection H as <-. left. split; [done|]. left. apply andb_true_iff in Etop as [-> Etop].
    split; [done|]. unfold len in Etop. destruct ls; [done|]. cbn in Hlen. lia. }
  rewrite Hlv, size_level_of, numEntries_level_of in H. pose proof (len_nonneg es).
  destruct (negb _ && negb last) eqn:Eover.
  { injection H as <-. left. split; [done|]. right. left. apply andb_true_iff in Eover as [E1 E2].
    destruct last; [done|]. split; [done|]. apply negb_true_iff, andb_false_iff in E1 as [E1|E1]; [left|right]; lia. }
  destruct (Z.eqb_spec (len es) 0) as [E0|E0].
  { injection H as <-. left. split; [done|]. right. right. by apply len_0_nil. }
  right. split; [by intros ->|]. split.
  { intros ->. rewrite andb_true_r in Eover. apply negb_false_iff, andb_true_iff in Eover as [_ E]. lia. }
  split.
  { intros -> ->. cbn [andb length] in *. apply Z.eqb_neq in Etop. unfold len in Etop. lia. }
  apply meth_bind_Ok in H as (wa & p & [-> Hp%wrap_Ok]%lift_Ok & H).
  apply meth_bind_Ok in H as (wb & r & Hr & H). unfold on_out in Hr.
  change (toBlock (level_of lv off es) (negb last)) with (block_of (Z.of_nat lv) off (negb last) es) in *.
  rewrite Hc, Hcodec in Hp.
  destruct (AppendDataBlock p _ (out w)) as [o1 r1] eqn:Ea. injection Hr as <- Hr%wrap_Ok. subst r1.
  unfold flush_parent in H. apply meth_bind_Ok in H as (w1 & [] & H1 & H). apply meth_bind_Ok in H as (w2 & [] & H2 & H).
  apply meth_bind_Ok in H as (w3 & w4 & H3 & H). unfold get in H3. injection H3 as <- <-. unfold modify in H. injection H as <-.
  exists p, r, o1, w1, w2. cbv zeta. by split_and!.
Qed.

Lemma insert_mid {A} (lo : list A) x y ls : <[length lo := x]> (lo ++ y :: ls) = lo ++ x :: ls.
Proof. induction lo as [|z lo IH]; [done|]. cbn. by f_equal. Qed.

Lemma append_mono p raw o o' r : AppendDataBlock p raw o = (o', Ok r) -> w_n o <= w_n o'.
Proof.
  unfold AppendDataBlock. destruct (w_closed o); [done|]. destruct (raw <? 0); [done|]. intros [= <- _]. cbn.
  pose proof (len_nonneg p). lia.
Qed.

Lemma indexFlushLevel_mono fuel lv k last w w' : indexFlushLevel fuel lv k last w = (w', Ok tt) -> w_n (out w) <= w_n (out w').
Proof.
  revert lv w w'. induction fuel as [|fuel IH]; intros lv w w' H; [done|]. rewrite indexFlushLevel_S in H.
  destruct (last && _); [by injection H as <-|]. destruct (_ !! lv) as [[lvl|]|]; [|done..].
  destruct (negb _ && _); [by injection H as <-|]. destruct (numEntries lvl =? 0); [by injection H as <-|].
  apply meth_bind_Ok in H as (w1 & p & [-> _]%lift_Ok & H). apply meth_bind_Ok in H as (w2 & r & H1 & H).
  unfold on_out in H1. destruct (AppendDataBlock _ _ _) as [o rr] eqn:E. injection H1 as <- ->%wrap_Ok.
  apply append_mono in E. unfold flush_parent in H. apply meth_bind_Ok in H as (w3 & [] & H3 & H).
  rewrite indexAddAtLevel_eq in H3. cbv zeta in H3.
  destruct ((if (_ =? _)%nat then _ else _) !! S lv) as [[l|]|]; [|done..]. injection H3 as <-.
  apply meth_bind_Ok in H as (w4 & [] & H4%IH & H). cbn in H. injection H as <-. cbn in *. lia.
Qed.

#[export] Instance keys_used_Proper : Proper (eq ==> Permutation ==> iff) keys_used.
Proof. intros o _ <- V1 V2 HV. unfold keys_used. by rewrite HV. Qed.

(** A level with one more entry, over levels that stay as they were. *)
Lemma tower_add lo ls L' V' e Le Ve w w' :
  levels (grp w) = lo ++ ls -> indexAddAtLevel (length lo) e w = (w', Ok tt) -> in_int32 (totalAdded (grp w)) ->
  tower (Stored (out w)) (length lo) ls L' V' -> entry_small e -> subtree (Stored (out w)) (length lo) e Le Ve ->
  framed w w' /\ out w' = out w /\
  exists off es Ls Vs ls2 L2 V2,
    levels (grp w') = lo ++ Some (level_of (length lo) off (es ++ [e])) :: ls2 /\
    forest (Stored (out w)) (length lo) off (es ++ [e]) (Ls ++ [Le]) (Vs ++ [Ve]) /\
    es_size es <= index_cap /\ Forall (fun L => 2 ^ length lo <= length L)%nat Ls /\
    tower (Stored (out w)) (S (length lo)) ls2 L2 V2 /\ L' = L2 ++ concat Ls /\ V' = V2 ++ concat Vs /\
    (length ls2 = pred (length ls))%nat /\ (ls = [] -> es = []).
Proof.
  intros Hlev Hadd Ht Htow He Hsub. apply indexAddAtLevel_Ok in Hadd as (Hf & Ho & Hadd); [|done].
  split; [done|]. split; [done|]. rewrite Hlev in Hadd.
  destruct Hadd as [(l & Hl & Hlev')|(Hl & off & Hoff & Hlev')].
  - rewrite lookup_app_r, Nat.sub_diag in Hl by lia. destruct ls as [|l0 ls2]; [done|]. cbn in Hl. injection Hl as ->.
    destruct Htow as (off & es & Ls & Vs & L2 & V2 & Hl & Hfo & Hsz & Hfull & _ & Hup & -> & ->). injection Hl as ->.
    exists off, es, Ls, Vs, ls2, L2, V2. rewrite insert_mid in Hlev'.
    rewrite addEntry_level_of in Hlev' by (unfold es_size, index_cap in Hsz; pose proof (len_nonneg es); lia).
    split_and!; try done. by apply forest_snoc.
  - rewrite length_app in Hl. destruct ls as [|l0 ls2]; [|cbn in Hl; lia]. destruct Htow as [-> ->].
    rewrite app_nil_r in Hlev'. exists off, [], [], [], [], [], [].
    rewrite (addEntry_level_of _ _ []) in Hlev' by (unfold entries_data; cbn; rewrite len_nil; lia).
    split_and!; try done. by apply (forest_snoc _ _ _ [] [] []); [apply forest_nil|..].
Qed.

Lemma WriteIndexBlock_nonempty b : WriteIndexBlock b <> [].
Proof. unfold WriteIndexBlock, WriteInt32. done. Qed.

(** The region of a fresh block, in a file a Go offset can address. *)
Lemma fresh_entry_small o p raw k n :
  key_small k -> in_int32 n -> meta_inv o -> Encode c raw codec = Ok p -> w_n o + len p < 2 ^ 63 ->
  entry_small (mkIndexEntry k n (w_n o) (len p) (len raw)).
Proof.
  intros Hk Hn Ho He Hs. pose proof (Encode_limits _ _ He) as [Hl _]. pose proof (mi_n o Ho). pose proof (len_nonneg (w_out o)).
  pose proof (len_nonneg p). pose proof (len_nonneg raw). change MaxRawBlockSize with 536870912 in Hl.
  split_and!; [done|done|]. unfold region_ok, in_int64. cbn. lia.
Qed.

(** What flushing a level with its leaves [L] and regions [V] leaves of it. *)
Definition rooted (St : BlockRegion -> bytes -> Prop) (lv : nat) (ls : list (option indexLevel))
    (L : list IndexEntry) (V : list (Z * Z)) : Prop :=
  exists n off es Ls Vs, ls = replicate n None ++ [Some (level_of (lv + n) off es)] /\
    forest St (lv + n) off es Ls Vs /\ es_size es <= index_cap + 2 ^ 22 /\ (lv + n <= 63)%nat /\
    L = concat Ls /\ V = concat Vs.

Lemma cascade fuel lo k last w w' off es ls Ls Vs L' V' :
  indexFlushLevel fuel (length lo) k last w = (w', Ok tt) -> w_n (out w') < 2 ^ 63 ->
  env_ok w -> out_inv (out w) -> levels (grp w) = lo ++ Some (level_of (length lo) off es) :: ls ->
  forest (Stored (out w)) (length lo) off es Ls Vs -> es_size es <= index_cap + 2 ^ 22 ->
  list.last (keys es) = Some k -> key_small k -> tower (Stored (out w)) (S (length lo)) ls L' V' ->
  (length lo + length ls <= 63)%nat \/ (last = false /\ (length lo <= 64)%nat /\ len es <= 1) ->
  (last = false -> Forall (fun L => 2 ^ length lo <= length L)%nat Ls) ->
  framed w w' /\ out_inv (out w') /\ grows (out w) (out w') /\
  exists ls' V'', levels (grp w') = lo ++ ls' /\
    (forall X, keys_used (out w) (X ++ V' ++ concat Vs) -> keys_used (out w') (X ++ V'')) /\
    if last then rooted (Stored (out w')) (length lo) ls' (L' ++ concat Ls) V''
    else tower (Stored (out w')) (length lo) ls' (L' ++ concat Ls) V''.
Proof.
  revert lo w w' off es ls Ls Vs L' V'.
  induction fuel as [|fuel IH]; intros lo w w' off es ls Ls Vs L' V' H Hsmall Henv Hout Hlev Hfo Hsz Hk Hks Htow Hh Hfull; [done|].
  assert (es <> []) as Hne by (by destruct es). pose proof Henv as (Hc & Hcodec & Hcap & Htot).
  apply (indexFlushLevel_turn _ _ _ _ _ _ off es ls) in H; [|done|done|by rewrite Hlev, drop_app_length].
  destruct H as [[-> Hstop]|(_ & Hmany & Hup & p & r & o1 & w1 & w2 & He & Ha & Hadd & Hrec & ->)].
  { split; [apply framed_refl|]. split; [done|]. split; [reflexivity|].
    exists (Some (level_of (length lo) off es) :: ls), (V' ++ concat Vs). split; [done|]. split; [done|].
    destruct Hstop as [[-> ->]|[[-> Hsize]| ->]]; [| |done].
    - destruct Htow as [-> ->]. exists 0%nat, off, es, Ls, Vs. rewrite Nat.add_0_r. split_and!; try done. cbn in Hh. lia.
    - exists off, es, Ls, Vs, L', V'. split_and!; try done; [|by apply Hfull].
      destruct Hsize as [Hsize|Hsize]; [lia|]. destruct es as [|e [|e2 es]]; [done| |rewrite !len_cons in Hsize; pose proof (len_nonneg es); lia].
      destruct (es_size_one e) as [_ Hle]; [by apply Forall_singleton, Hfo|]. unfold index_cap. lia. }
  cbv zeta in *. destruct Hh as [Hh|(-> & _ & Hh)]; [|specialize (Hmany eq_refl); lia].
  destruct (append_block _ _ _ _ _ Hout He (WriteIndexBlock_nonempty _) Ha) as (Er & Hout1 & Hst & Hgrow1 & Hn1 & Hkeys1).
  set (raw := WriteIndexBlock _) in *. cbn [out set_grp] in Hsmall.
  set (pe := mkIndexEntry k 0 (Offset r) (CompressedSize r) (RawSize r)) in *.
  assert (w_n o1 <= w_n (out w2)) as Hmono.
  { etrans; [|apply (indexFlushLevel_mono _ _ _ _ _ _ Hrec)].
    apply indexAddAtLevel_Ok in Hadd as (_ & -> & _); [done|apply Henv]. }
  assert (entry_small pe) as Hpe.
  { unfold pe. rewrite Er. apply fresh_entry_small; [done|by vm_compute|apply Hout|done|].
    unfold AppendDataBlock in Ha. rewrite (oi_open _ Hout) in Ha. destruct (_ <? 0); [done|]. injection Ha as <- _. cbn in Hmono. lia. }
  pose proof (fo_sub _ _ _ _ _ _ Hfo) as Hsub.
  assert (subtree (Stored o1) (S (length lo)) pe (concat Ls) (entry_key pe :: concat Vs)) as Hpsub.
  { exists off, (negb last), es, Ls, Vs. split_and!; try done.
    - apply block_ok_small; [lia|apply Hfo|apply Hfo|done].
    - change (region_of pe) with (mkRegion (Offset r) (CompressedSize r) (RawSize r)). by rewrite Er in *.
    - eapply Forall3_impl; [|exact Hsub]. intros e L V. apply subtree_mono, Hgrow1. }
  assert (levels (grp (set_out o1 w)) = (lo ++ [Some (level_of (length lo) off es)]) ++ ls) as Hlev1
    by (cbn; by rewrite Hlev, <-(assoc_L (++))).
  assert (length (lo ++ [Some (level_of (length lo) off es)]) = S (length lo)) as Elo by (rewrite length_app; cbn; lia).
  set (lo1 := lo ++ [Some (level_of (length lo) off es)]) in *. rewrite <-Elo in Hadd, Hrec, Htow, Hpsub.
  destruct (tower_add lo1 ls L' V' pe (concat Ls) (entry_key pe :: concat Vs) _ _ Hlev1 Hadd) as
    (Hf1 & Ho1 & off2 & es2 & Ls2 & Vs2 & ls2 & L2 & V2 & Hlev2 & Hfo2 & Hsz2 & Hfull2 & Htow2 & -> & -> & Hlen2 & Hnil);
    [done|eapply tower_mono; [|exact Htow]; apply Hgrow1|done|exact Hpsub|].
  change (out (set_out o1 w)) with o1 in *.
  assert (framed w w1) as Hf01 by (unfold framed in *; rewrite Hf1; done).
  destruct (IH lo1 w1 w2 off2 (es2 ++ [pe]) ls2 (Ls2 ++ [concat Ls]) (Vs2 ++ [entry_key pe :: concat Vs]) L2 V2) as
    (Hf2 & Hout2 & Hgrow2 & ls' & V'' & Hlev3 & Hkeys2 & Hres); rewrite ?Ho1; try done.
  { by eapply framed_env. }
  { rewrite es_size_app. pose proof (es_size_one pe Hpe). lia. }
  { unfold keys. rewrite fmap_app, last_app. done. }
  { rewrite Elo, Hlen2. destruct ls as [|l0 ls]; cbn [length pred] in *; [|left; lia].
    destruct last; [by specialize (Hup eq_refl)|]. right. split_and!; [done|lia|]. rewrite (Hnil eq_refl). done. }
  { intros ->. specialize (Hfull eq_refl). apply Forall_app. split; [exact Hfull2|]. apply Forall_singleton.
    apply concat_length_le in Hfull. destruct (Forall3_length _ _ _ _ Hsub) as [El _].
    specialize (Hmany eq_refl). unfold len in Hmany. rewrite Elo, Nat.pow_succ_r'. nia. }
  rewrite Ho1 in Hgrow2, Hkeys2. rewrite !concat_app in Hres. cbn [concat] in Hres. rewrite app_nil_r, (assoc_L (++)) in Hres.
  assert (levels (grp w2) = lo ++ Some (level_of (length lo) off es) :: ls') as Hlev4
    by (rewrite Hlev3; unfold lo1; by rewrite <-(assoc_L (++))).
  split; [by apply framed_levels, (framed_trans _ w1)|].
  cbn [out set_grp grp levels set_levels]. split; [done|]. split; [by etrans|].
  eexists _, V''. rewrite Hlev4, insert_mid. split; [reflexivity|]. split.
  { intros X HX. apply Hkeys2. apply Hkeys1 in HX. rewrite !concat_app. cbn [concat]. rewrite app_nil_r.
    assert (blockRegionKey r = entry_key pe) as Ekey by (unfold entry_key, pe; by rewrite Er). rewrite Ekey in HX.
    revert HX. apply keys_used_Proper; [done|]. solve_Permutation. }
  destruct last.
  - destruct Hres as (n & off3 & es3 & Ls3 & Vs3 & -> & Hfo3 & Hsz3 & Hn3 & HL3 & HV3). exists (S n), off3, es3, Ls3, Vs3.
    rewrite Elo in *. rewrite <-Nat.add_succ_comm. by split_and!.
  - exists (totalAdded (grp w2)), [], [], [], ((L2 ++ concat Ls2) ++ concat Ls), V''. rewrite Elo in Hres.
    assert (in_int32 (totalAdded (grp w2))) as Ht2 
      by apply (framed_env _ _ (framed_trans _ _ _ Hf01 Hf2) Henv).
    cbn [concat]. rewrite !app_nil_r. split_and!; try done; [by apply forest_nil|].
    intros ->. exfalso. destruct Hres as [Hres _]. apply app_nil in Hres as [_ Hres].
    destruct Hsub as [|e L V es Ls Vs He' _]; [done|]. cbn in Hres. apply app_nil in Hres as [Hres _].
    by apply subtree_nonempty in He'.
Qed.

End build.
