(* ===== verification/RFileGroup.v ===== *)
(** * RFileGroup: a locality group from its first cell to its root (src/internal/rfile/writer.go)

    What [Append] and [flushDataBlock] keep true of the group being written
    ([writing]), and what finishing it records ([group_done]). *)

From S2P Require Import Prelude Wire Iter RelKey BCFile Container Index EmbeddingSpace BlockMeta Adjacency IndexFile.
From S2P Require Import Codec RFileWriter IndexTree RFileBuild.

Lemma encode_block_snoc prev cells k v :
  encode_block prev (cells ++ [(k, v)]) =
  encode_block prev cells ++ EncodeKey (match last cells with Some c => Some c.1 | None => prev end) k v.
Proof.
  revert prev. induction cells as [|[k' v'] cells IH]; intros prev; cbn [app encode_block].
  - by rewrite app_nil_r.
  - rewrite IH, last_cons. destruct (last cells) as [c|]; by rewrite (assoc_L (++)).
Qed.

Lemma EncodeKey_nonempty prev k v : 0 < len (EncodeKey prev k v).
Proof.
  unfold EncodeKey, encode_rel. cbn [app]. rewrite len_cons.
  match goal with |- context [len ?l] => pose proof (len_nonneg l) end. lia.
Qed.

Lemma encode_block_len prev cells : len cells <= len (encode_block prev cells).
Proof.
  revert prev. induction cells as [|[k v] cells IH]; intros prev; [done|]. cbn [encode_block].
  rewrite len_app, len_cons. pose proof (EncodeKey_nonempty prev k v). pose proof (IH (Some k)). lia.
Qed.

Lemma encode_block_nil prev cells : encode_block prev cells = [] <-> cells = [].
Proof.
  split; [|by intros ->]. intros H. pose proof (encode_block_len prev cells) as Hl. rewrite H in Hl.
  apply len_0_nil. pose proof (len_nonneg cells). rewrite len_nil in Hl. lia.
Qed.

(** The counts of the families of the cells written. *)
Definition family_counts (cells : list Cell) : gmap bytes Z :=
  foldl (fun m c => count_cf (ColumnFamily c.1) m) ∅ cells.

Definition cell_small (c : Cell) : Prop := key_small c.1 /\ len c.2 < 2 ^ 31.

Lemma cell_small_ok c : cell_small c -> cell_ok c.
Proof. intros [H1 H2]. split; [by apply key_small_ok|done]. Qed.

Section group.
Context (c : Compressor) (codec : bytes).
Hypothesis encode_nonempty : forall raw p, Encode c raw codec = Ok p -> raw <> [] -> p <> [].
Abbreviation Stored := (Stored c codec).
Abbreviation out_inv := (out_inv codec).
Abbreviation grows := (grows c codec).
Abbreviation env_ok := (env_ok c codec).

(** ** Adding a leaf to the index *)

Definition add_total (n : Z) (w : Writer) : Writer := set_grp (set_total n (grp w)) w.

Lemma indexAdd_Ok leaf last w w' L V :
  indexAdd leaf last w = (w', Ok tt) -> w_n (out w') < 2 ^ 63 -> env_ok w -> out_inv (out w) ->
  tower (Stored (out w)) 0 (levels (grp w)) L V -> entry_small leaf -> Z.of_nat (length L) <= w_n (out w) ->
  framed (add_total (int32 (totalAdded (grp w) + 1)) w) w' /\ env_ok w' /\ out_inv (out w') /\ grows (out w) (out w') /\
  exists V', (forall X, keys_used (out w) (X ++ V ++ [entry_key leaf]) -> keys_used (out w') (X ++ V')) /\
    if last then rooted (Stored (out w')) 0 (levels (grp w')) (L ++ [leaf]) V'
    else tower (Stored (out w')) 0 (levels (grp w')) (L ++ [leaf]) V'.
Proof.
  intros H Hsmall Henv Hout Htow Hleaf Hcount. unfold indexAdd in H.
  apply meth_bind_Ok in H as (w0 & [] & H0 & H). unfold modify in H0. injection H0 as <-.
  change (set_grp _ w) with (add_total (int32 (totalAdded (grp w) + 1)) w) in H.
  set (w0 := add_total _ w) in *.
  assert (env_ok w0) as Henv0.
  { destruct Henv as (H1 & H2 & H3 & _). split_and!; [done..|]. apply int32_range. }
  apply meth_bind_Ok in H as (w1 & [] & Hadd & H). apply meth_bind_Ok in H as (w2 & w3 & Hget & H).
  unfold get in Hget. injection Hget as <- <-.
  assert (length (levels (grp w)) <= 63)%nat as Hheight.
  { destruct (decide (levels (grp w) = [])) as [->|Hne]; [cbn; lia|]. pose proof (tower_height _ _ _ _ _ Htow Hne) as Hh.
    assert (w_n (out w) < 2 ^ 63) as Hw.
    { pose proof (indexFlushLevel_mono _ _ _ _ _ _ H). apply indexAddAtLevel_Ok in Hadd as (_ & Ho & _); [|apply Henv0].
      rewrite Ho in *. change (out w0) with (out w) in *. lia. }
    assert (2 ^ Z.of_nat (length (levels (grp w)) - 1) < 2 ^ 63) as Hz.
    { rewrite Nat.add_0_l in Hh. pose proof (Nat2Z.inj_pow 2 (length (levels (grp w)) - 1)) as Hp.
      change (Z.of_nat 2) with 2 in Hp. rewrite <-Hp. lia. }
    apply Z.pow_lt_mono_r_iff in Hz; lia. }
  destruct (tower_add c codec [] (levels (grp w0)) L V leaf [leaf] [entry_key leaf] w0 w1 eq_refl Hadd) as
    (Hf1 & Ho1 & off & es & Ls & Vs & ls2 & L2 & V2 & Hlev & Hfo & Hsz & Hfull & Htow2 & -> & -> & Hlen & Hnil);
    [apply Henv0|done|done|done|]. change (out w0) with (out w) in *. cbn [app length] in Hlev, Hfo, Hfull, Htow2.
  destruct (cascade c codec encode_nonempty _ [] (ie_Key leaf) last w1 w' off (es ++ [leaf]) ls2 (Ls ++ [[leaf]])
    (Vs ++ [[entry_key leaf]]) L2 V2 H) as (Hf2 & Hout2 & Hgrow & ls' & V'' & Hlev' & Hkeys & Hres); rewrite ?Ho1; try done.
  { by eapply framed_env. }
  { rewrite es_size_app. pose proof (es_size_one leaf Hleaf). lia. }
  { unfold keys. by rewrite fmap_app, last_app. }
  { apply Hleaf. }
  { left. change (levels (grp w0)) with (levels (grp w)) in Hlen. cbn [length]. lia. }
  { intros _. apply Forall_app. split; [exact Hfull|]. apply Forall_singleton. cbn. lia. }
  rewrite Ho1 in *. assert (framed w0 w') as Hf by (by eapply framed_trans).
  split; [done|]. split; [by eapply framed_env|]. split; [done|]. split; [done|]. exists V''.
  rewrite Hlev'. cbn [app]. rewrite !concat_app in *. cbn [concat] in *. rewrite ?app_nil_r, (assoc_L (++)) in Hres.
  split; [|exact Hres]. intros X HX. apply Hkeys. rewrite app_nil_r. by rewrite <-(assoc_L (++) V2) in HX.
Qed.

(** ** Data blocks *)

(** The leaf entry of a flushed block. *)
Definition leaf_in (o : Container.Writer) (e : IndexEntry) (B : list Cell) : Prop :=
  Stored o (region_of e) (encode_block None B) /\ NumEntries e = int32 (len B) /\ ends_at (ie_Key e) B /\ entry_small e.

Lemma leaf_in_mono o o' e B : grows o o' -> leaf_in o e B -> leaf_in o' e B.
Proof. intros [_ Hg] (H1 & H2 & H3 & H4). split_and!; [by apply Hg|done..]. Qed.

Lemma leaves_in_mono o o' L bs : grows o o' -> Forall2 (leaf_in o) L bs -> Forall2 (leaf_in o') L bs.
Proof. intros Hg H. eapply Forall2_impl; [exact H|]. intros e B. by apply leaf_in_mono. Qed.

(** The flushed blocks [bs] under the index and the deferred leaf. *)
Definition indexed (w : Writer) (bs : list (list Cell)) : Prop :=
  exists L V, tower (Stored (out w)) 0 (levels (grp w)) L V /\
    Forall2 (leaf_in (out w)) (L ++ option_list (pendingLeaf (grp w))) bs /\
    keys_used (out w) (V ++ (entry_key <$> option_list (pendingLeaf (grp w)))) /\
    totalAdded (grp w) = int32 (len L) /\
    Z.of_nat (length (L ++ option_list (pendingLeaf (grp w)))) <= w_n (out w) /\
    (pendingLeaf (grp w) = None -> levels (grp w) = []).

(** The group holds the cells [concat bs ++ cur], the last of them in the
    block under construction. *)
Record writing (w : Writer) (bs : list (list Cell)) (cur : list Cell) : Prop := {
  wr_env : env_ok w;
  wr_out : out_inv (out w);
  wr_blk : blk w = mkBlockState (encode_block None cur) (fst <$> last cur) (fst <$> last cur) (int32 (len cur));
  wr_cells : Forall cell_small (concat bs ++ cur);
  wr_sorted : sorted_cells (concat bs ++ cur);
  wr_last : lastKey (grp w) = fst <$> last (concat bs ++ cur);
  wr_first : firstKey (grp w) = fst <$> head (concat bs ++ cur);
  wr_counts : cfCounts (grp w) = family_counts (concat bs ++ cur);
  wr_index : indexed w bs;
}.

(** What writing a group leaves alone. *)
Definition static (w : Writer) :=
  (comp w, opts w, localityGroups w, currentLGName w, currentDefault w, localityNames w, closed w).

Lemma framed_rest w w' : framed w w' ->
  static w' = static w /\ blk w' = blk w /\ lastKey (grp w') = lastKey (grp w) /\ firstKey (grp w') = firstKey (grp w) /\
  cfCounts (grp w') = cfCounts (grp w) /\ pendingLeaf (grp w') = pendingLeaf (grp w) /\ totalAdded (grp w') = totalAdded (grp w).
Proof. unfold framed. by intros ->. Qed.

Lemma int32_succ n : int32 (int32 n + 1) = int32 (n + 1).
Proof. unfold int32. Z.div_mod_to_equations. lia. Qed.

Lemma flushDataBlock_turn w w' :
  flushDataBlock w = (w', Ok tt) -> blockBuf (blk w) <> [] ->
  exists p o1 r key bms ovs w2,
    Encode (comp w) (blockBuf (blk w)) (opt_Codec (opts w)) = Ok p /\
    AppendDataBlock p (len (blockBuf (blk w))) (out w) = (o1, Ok r) /\ blockLast (blk w) = Some key /\
    match pendingLeaf (grp w) with
    | Some pl => indexAdd pl false (set_overlays bms ovs (set_out o1 w)) = (w2, Ok tt)
    | None => w2 = set_overlays bms ovs (set_out o1 w)
    end /\
    w' = set_blk empty_block (set_grp (set_pending
           (Some (mkIndexEntry key (blockEntries (blk w)) (Offset r) (CompressedSize r) (RawSize r))) (grp w2)) w2).
Proof.
  intros H Hne. unfold flushDataBlock in H. apply meth_bind_Ok in H as (w0 & w0' & H0 & H). unfold get in H0. injection H0 as <- <-.
  destruct (Z.eqb_spec (len (blockBuf (blk w))) 0) as [E|_]; [by apply len_0_nil in E|].
  apply meth_bind_Ok in H as (w1 & p & [-> Hp%wrap_Ok]%lift_Ok & H).
  apply meth_bind_Ok in H as (w2 & r & Hr & H). unfold on_out in Hr.
  destruct (AppendDataBlock p _ (out w)) as [o1 r1] eqn:Ea. injection Hr as <- ->%wrap_Ok.
  destruct (blockLast (blk w)) as [key|] eqn:Ek; [|done]. apply meth_bind_Ok in H as (w3 & [] & H3 & H).
  assert (exists bms ovs, w3 = set_overlays bms ovs (set_out o1 w)) as (bms & ovs & ->).
  { change (bmBuilders w) with (bmBuilders (set_out o1 w)) in H3.
    destruct (bmBuilders (set_out o1 w)) as [|b bms] eqn:Eb.
    - injection H3 as <-. exists (bmBuilders w), (blockOverlays w). by destruct w.
    - unfold modify in H3. injection H3 as <-. by eexists _, _. }
  apply meth_bind_Ok in H as (w4 & [] & H4 & H). unfold modify in H. injection H as <-.
  exists p, o1, r, key, bms, ovs, w4. split_and!; try done.
  destruct (pendingLeaf (grp w)); [done|]. by injection H4 as <-.
Qed.

Lemma flushDataBlock_empty w : blockBuf (blk w) = [] -> flushDataBlock w = (w, Ok tt).
Proof. intros H. unfold flushDataBlock, mbind, meth_bind, get. by rewrite H. Qed.

Lemma flushDataBlock_Ok w w' bs cur :
  flushDataBlock w = (w', Ok tt) -> w_n (out w') < 2 ^ 63 -> writing w bs cur ->
  writing w' (bs ++ match cur with [] => [] | _ => [cur] end) [] /\ static w' = static w /\ grows (out w) (out w').
Proof.
  intros H Hsmall [Henv Hout Hblk Hcells Hsorted Hlast Hfirst Hcounts Hidx].
  destruct (decide (cur = [])) as [->|Hne].
  { rewrite flushDataBlock_empty in H by (by rewrite Hblk). injection H as <-. rewrite app_nil_r. split; [by split|by split]. }
  assert (blockBuf (blk w) <> []) as Hbuf by (rewrite Hblk; cbn; by rewrite encode_block_nil).
  destruct (flushDataBlock_turn w w' H Hbuf) as (p & o1 & r & key & bms & ovs & w2 & He & Ha & Hkey & Hadd & ->).
  destruct Henv as (Hc & Hcodec & Hcap & Htot). rewrite Hc, Hcodec in He. rewrite Hblk in He, Ha, Hkey, Hbuf |- *.
  cbn [blockBuf blockLast blockEntries] in He, Ha, Hkey, Hbuf |- *. set (raw := encode_block None cur) in *.
  destruct (append_block c codec encode_nonempty _ _ _ _ _ Hout He Hbuf Ha) as (Er & Hout1 & Hst & Hgrow1 & Hn1 & Hkeys1).
  cbn [out set_blk set_grp] in Hsmall.
  set (w1 := set_overlays bms ovs (set_out o1 w)) in *.
  assert (env_ok w1) as Henv1 by (by split_and!).
  destruct Hidx as (L & V & Htow & Hleaves & Hused & Htotal & Hcount & _).
  assert (match cur with [] => [] | _ => [cur] end = [cur]) as -> by (by destruct cur).
  destruct (last cur) as [[k v]|] eqn:El; [|by apply last_None in El]. cbn in Hkey. injection Hkey as <-.
  apply last_Some in El as [cur0 El].
  set (leaf := mkIndexEntry k (int32 (len cur)) (Offset r) (CompressedSize r) (RawSize r)) in *.
  assert (key_small k) as Hk.
  { rewrite Forall_forall in Hcells. apply (Hcells (k, v)). rewrite El. set_solver. }
  assert (exists L' V', env_ok w2 /\ out_inv (out w2) /\ grows (out w1) (out w2) /\
    tower (Stored (out w2)) 0 (levels (grp w2)) L' V' /\ L' = L ++ option_list (pendingLeaf (grp w)) /\
    keys_used (out w2) (V' ++ [blockRegionKey r]) /\ totalAdded (grp w2) = int32 (len L') /\
    w2 = set_grp (mkGroupState (lastKey (grp w)) (levels (grp w2)) (totalAdded (grp w2)) (pendingLeaf (grp w))
           (firstKey (grp w)) (cfCounts (grp w))) (set_out (out w2) w1))
    as (L' & V' & Henv2 & Hout2 & Hgrow2 & Htow2 & -> & Hused2 & Htot2 & Ew2).
  { assert (tower (Stored (out w1)) 0 (levels (grp w1)) L V) as Htow1 by (eapply tower_mono; [|exact Htow]; apply Hgrow1).
    apply Hkeys1 in Hused. destruct (pendingLeaf (grp w)) as [pl|] eqn:Epl.
    - apply Forall2_app_inv_l in Hleaves as (bs1 & bs2 & _ & Hl2 & _). cbn [option_list] in Hl2.
      apply Forall2_cons_inv_l in Hl2 as (B & _ & (_ & _ & _ & Hpl) & _ & _).
      rewrite length_app in Hcount.
      destruct (indexAdd_Ok pl false w1 w2 L V Hadd Hsmall Henv1 Hout1 Htow1 Hpl) as (Hf & Henv2 & Hout2 & Hgrow2 & V' & Hkeys2 & Htow2);
        [change (out w1) with o1; lia|].
      exists (L ++ [pl]), V'. split_and!; try done.
      + rewrite (comm (++)). apply Hkeys2. revert Hused. apply keys_used_Proper; [done|]. cbn. solve_Permutation.
      + destruct (framed_rest _ _ Hf) as (_ & _ & _ & _ & _ & _ & Et). rewrite Et. cbn. rewrite Htotal, int32_succ, len_app. done.
      + destruct (framed_rest _ _ Hf) as (_ & _ & _ & _ & _ & _ & Et). etrans; [exact Hf|]. rewrite Et. cbn. rewrite <-?Epl. done.
    - cbn [fmap option_fmap option_map option_list list_fmap] in Hused. rewrite app_nil_r in Hused. exists L, V. rewrite Hadd, app_nil_r in *. split_and!; try done.
      unfold w1. destruct w as [? ? ? ? ? [] ? ? ? ? ? ? ? ?]. cbn in *. by subst. }
  assert (static w2 = static w) as Hstat by (by rewrite Ew2).
  assert (w_n o1 <= w_n (out w2)) as Hmono by apply Hgrow2.
  assert (entry_small leaf) as Hleaf.
  { unfold leaf. rewrite Er. apply fresh_entry_small with (c := c) (codec := codec); [done|apply int32_range|apply Hout|done|].
    unfold AppendDataBlock in Ha. rewrite (oi_open _ _ Hout) in Ha. destruct (_ <? 0); [done|]. injection Ha as <- _. cbn in Hmono. lia. }
  assert (grows (out w) (out w2)) as Hgrow by (etrans; [exact Hgrow1|exact Hgrow2]).
  split; [|by split].
  assert (concat (bs ++ [cur]) ++ [] = concat bs ++ cur) as Ecells by (by rewrite concat_app, app_nil_r; cbn; rewrite app_nil_r).
  split; rewrite ?Ecells; try done.
  - rewrite Ew2. cbn. done.
  - rewrite Ew2. cbn. done.
  - rewrite Ew2. cbn. done.
  - exists (L ++ option_list (pendingLeaf (grp w))), V'. cbn [out set_blk set_grp grp set_pending pendingLeaf levels totalAdded option_list].
    split_and!; [done| |exact Hused2|done| |].
    + apply Forall2_app; [by eapply leaves_in_mono|]. constructor; [|constructor].
      split_and!; [|done|by exists cur0, v|done]. destruct Hgrow2 as [_ Hg2]. apply Hg2. by destruct r.
    + rewrite length_app. cbn. lia.
    + done.
Qed.

(** ** Appending *)

Lemma family_counts_snoc cells k v : family_counts (cells ++ [(k, v)]) = count_cf (ColumnFamily k) (family_counts cells).
Proof. unfold family_counts. by rewrite foldl_app. Qed.

Lemma add_cell_writing w bs cur k v :
  writing w bs cur -> cell_small (k, v) -> Forall (fun d : Cell => key_le d.1 k) (concat bs ++ cur) ->
  writing (add_cell k v w) bs (cur ++ [(k, v)]) /\ static (add_cell k v w) = static w /\ out (add_cell k v w) = out w.
Proof.
  intros [Henv Hout Hblk Hcells Hsorted Hlast Hfirst Hcounts Hidx] Hc Hle.
  assert (exists ovs adj', add_cell k v w = set_adj adj' (set_overlays (AppendCell k v <$> bmBuilders w) ovs
    (set_grp (mkGroupState (Some k) (levels (grp w)) (totalAdded (grp w)) (pendingLeaf (grp w))
       (match firstKey (grp w) with None => Some k | f => f end) (count_cf (ColumnFamily k) (cfCounts (grp w))))
     (set_blk (mkBlockState (blockBuf (blk w) ++ EncodeKey (blockPrev (blk w)) k v) (Some k) (Some k)
                (int32 (blockEntries (blk w) + 1))) w)))) as (ovs & adj' & ->).
  { exists (blockOverlays w). unfold add_cell. cbv zeta.
    match goal with |- context [match adjBuilder ?x with _ => _ end] => destruct (adjBuilder x) as [a|] eqn:Ea end.
    - destruct (bytes_Equal _ _); [by eexists|]. exists (adjBuilder w). by destruct w.
    - exists (adjBuilder w). by destruct w. }
  split; [|done]. split; rewrite ?(assoc_L (++)); try done.
  - cbn [blk set_adj set_overlays set_grp set_blk]. rewrite Hblk. cbn [blockBuf blockPrev blockEntries].
    rewrite encode_block_snoc, last_snoc, len_app, int32_succ. cbn. by destruct (last cur).
  - apply Forall_app. split; [done|by apply Forall_singleton].
  - apply sorted_cells_app. split_and!; [done|apply sorted_cells_cons; split; [apply sorted_cells_nil|constructor]|].
    intros d e Hd ->%list_elem_of_singleton. rewrite Forall_forall in Hle. by apply (Hle d).
  - by rewrite last_snoc.
  - cbn [grp set_adj set_overlays set_grp firstKey]. rewrite Hfirst. by destruct (concat bs ++ cur).
  - rewrite family_counts_snoc. cbn. by rewrite Hcounts.
Qed.

Lemma sorted_below_last cells l k : sorted_cells cells -> fst <$> last cells = Some l -> key_le l k -> Forall (fun d : Cell => key_le d.1 k) cells.
Proof.
  intros Hs Hl Hk. destruct (last cells) as [[l' v]|] eqn:E; [|done]. cbn in Hl. injection Hl as ->.
  apply last_Some in E as [l0 ->]. apply sorted_cells_app in Hs as (_ & _ & Hs). apply Forall_app. split.
  - apply Forall_forall. intros d Hd. etrans; [apply (Hs d (l, v) Hd); left|done].
  - by apply Forall_singleton.
Qed.

Lemma Append_turn k v w w' :
  Append (Some k) v w = (w', Ok tt) ->
  match lastKey (grp w) with
  | None => w' = add_cell k v w
  | Some l => key_le l k /\ exists w1, (w1 = w \/ flushDataBlock w = (w1, Ok tt)) /\ w' = add_cell k v w1
  end.
Proof.
  intros H. unfold Append in H. apply meth_bind_Ok in H as (w0 & w0' & H0 & H). unfold get in H0. injection H0 as <- <-.
  destruct (closed w); [done|]. apply meth_bind_Ok in H as (w1 & [] & H1 & H). unfold modify in H. injection H as <-.
  destruct (lastKey (grp w)) as [l|]; [|by injection H1 as <-].
  destruct (is_lt (Compare k l)) eqn:E; [done|]. apply not_lt_le in E. split; [done|]. exists w1.
  split; [|done]. destruct (_ || _); [by right|]. injection H1 as <-. by left.
Qed.

Lemma Append_Ok w w' k v bs cur :
  Append (Some k) v w = (w', Ok tt) -> w_n (out w') < 2 ^ 63 -> writing w bs cur -> cell_small (k, v) ->
  exists bs' cur', concat bs' ++ cur' = (concat bs ++ cur) ++ [(k, v)] /\ writing w' bs' cur' /\
    static w' = static w /\ grows (out w) (out w').
Proof.
  intros H Hsmall Hw Hc. apply Append_turn in H.
  destruct (lastKey (grp w)) as [l|] eqn:El.
  - destruct H as (Hle & w1 & Hw1 & ->).
    assert (Forall (fun d : Cell => key_le d.1 k) (concat bs ++ cur)) as Hall.
    { apply (sorted_below_last _ l); [apply Hw| |done]. rewrite <-El. symmetry. apply Hw. }
    assert (exists bs1 cur1, concat bs1 ++ cur1 = concat bs ++ cur /\ writing w1 bs1 cur1 /\ static w1 = static w /\ grows (out w) (out w1))
      as (bs1 & cur1 & E1 & Hw' & Hs1 & Hg1).
    { destruct Hw1 as [->|Hfl]; [by exists bs, cur|].
      assert (out (add_cell k v w1) = out w1) as Eo.
      { unfold add_cell. cbv zeta. by repeat case_match. }
      rewrite Eo in Hsmall. destruct (flushDataBlock_Ok w w1 bs cur Hfl Hsmall Hw) as (Hw' & Hs & Hg).
      eexists _, []. split; [|done]. rewrite concat_app, app_nil_r. destruct cur; [done|]. cbn. by rewrite app_nil_r. }
    destruct (add_cell_writing w1 bs1 cur1 k v Hw' Hc) as (H1 & H2 & H3); [by rewrite E1|].
    exists bs1, (cur1 ++ [(k, v)]). rewrite (assoc_L (++)), E1, H3. split_and!; [done|done|congruence|done].
  - subst w'. assert (concat bs ++ cur = []) as E.
    { pose proof (wr_last _ _ _ Hw) as E. rewrite El in E. destruct (last (concat bs ++ cur)) eqn:E2; [done|]. by apply last_None in E2. }
    destruct (add_cell_writing w bs cur k v Hw Hc) as (H1 & H2 & H3); [rewrite E; constructor|].
    exists bs, (cur ++ [(k, v)]). rewrite (assoc_L (++)), H3. by split_and!.
Qed.

(** ** Finishing a group *)

(** The recorded group [lg] holds the cells: its root leads to leaves over
    blocks that hold them. *)
Definition group_done (o : Container.Writer) (lg : LocalityGroup) (cells : list Cell) : Prop :=
  exists bs n off es Ls Vs,
    concat bs = cells /\ Forall2 (leaf_in o) (concat Ls) bs /\
    RootIndex lg = block_of (Z.of_nat n) off false es /\ forest (Stored o) n off es Ls Vs /\
    es_size es <= index_cap + 2 ^ 22 /\ (n <= 63)%nat /\ NoDup (concat Vs) /\
    sorted_cells cells /\ Forall cell_small cells /\
    StartBlock lg = 0 /\ ColumnFamilies lg = Some (family_counts cells) /\ FirstKey lg = fst <$> head cells /\
    NumTotalEntries lg = int32 (len (concat Ls)) /\ len (concat Ls) <= w_n o.

Lemma group_done_mono o o' lg cells : grows o o' -> group_done o lg cells -> group_done o' lg cells.
Proof.
  intros Hg (bs & n & off & es & Ls & Vs & H1 & H2 & H3 & H4 & H5 & H6 & H7 & H8 & H9 & H10 & H11 & H12 & H13 & H14).
  exists bs, n, off, es, Ls, Vs. split_and!; try done; [by eapply leaves_in_mono|eapply forest_mono; [apply Hg|done]|].
  destruct Hg. lia.
Qed.

(** Between groups. *)
Definition idle (w : Writer) : Prop := writing w [] [].

Lemma finalize_turn w w' :
  finalizeCurrentLocalityGroup w = (w', Ok tt) ->
  exists w1 w2 root, flushDataBlock w = (w1, Ok tt) /\
    match pendingLeaf (grp w1) with
    | Some p => exists w2', indexAdd p true w1 = (w2', Ok tt) /\ w2 = set_grp (set_pending None (grp w2')) w2'
    | None => w2 = w1
    end /\
    buildRoot w2 = Ok root /\
    w' = set_blk empty_block (set_grp empty_group (add_group
      (mkLG (currentDefault w2) (currentLGName w2) 0 (Some (cfCounts (grp w2))) (firstKey (grp w2)) (totalAdded (grp w2)) root) w2)).
Proof.
  intros H. unfold finalizeCurrentLocalityGroup in H. apply meth_bind_Ok in H as (w1 & [] & H1 & H).
  apply meth_bind_Ok in H as (w1' & w1'' & H0 & H). unfold get in H0. injection H0 as <- <-.
  apply meth_bind_Ok in H as (w2 & [] & H2 & H). apply meth_bind_Ok in H as (w2' & w2'' & H0 & H). unfold get in H0. injection H0 as <- <-.
  apply meth_bind_Ok in H as (w3 & root & [-> Hroot%wrap_Ok]%lift_Ok & H). unfold modify in H. injection H as <-.
  exists w1, w2, root. split_and!; try done. destruct (pendingLeaf (grp w1)) as [p|]; [|by injection H2 as <-].
  apply meth_bind_Ok in H2 as (w4 & [] & H4 & H2). unfold modify in H2. injection H2 as <-. by exists w4.
Qed.

Lemma empty_root_forest St : forest St 0 0 [] [] [].
Proof. apply forest_nil. by vm_compute. Qed.

Lemma finalize_Ok w w' bs cur :
  finalizeCurrentLocalityGroup w = (w', Ok tt) -> w_n (out w') < 2 ^ 63 -> writing w bs cur ->
  exists lg, localityGroups w' = localityGroups w ++ [lg] /\ group_done (out w') lg (concat bs ++ cur) /\
    IsDefault lg = currentDefault w /\ lg_Name lg = currentLGName w /\ idle w' /\ grows (out w) (out w') /\
    static w' = (comp w, opts w, localityGroups w ++ [lg], currentLGName w, currentDefault w, localityNames w, closed w).
Proof.
  intros H Hsmall Hw. destruct (finalize_turn w w' H) as (w1 & w2 & root & Hfl & Hp & Hroot & ->).
  cbn [out set_blk set_grp add_group] in Hsmall |- *.
  assert (w_n (out w1) <= w_n (out w2)) as Hmono.
  { destruct (pendingLeaf (grp w1)) as [p|]; [|by subst]. destruct Hp as (w2' & Hadd & ->). cbn [out set_grp].
    unfold indexAdd in Hadd. apply meth_bind_Ok in Hadd as (wa & [] & Ha & Hadd). injection Ha as <-.
    apply meth_bind_Ok in Hadd as (wb & [] & Hb & Hadd). apply meth_bind_Ok in Hadd as (wc & wd & Hc & Hadd). injection Hc as <- <-.
    apply indexFlushLevel_mono in Hadd. apply indexAddAtLevel_Ok in Hb as (_ & Ho & _); [|apply int32_range].
    rewrite Ho in Hadd. exact Hadd. }
  destruct (flushDataBlock_Ok w w1 bs cur Hfl ltac:(lia) Hw) as (Hw1 & Hs1 & Hg1).
  set (bs1 := bs ++ match cur with [] => [] | _ => [cur] end) in *.
  assert (concat bs1 ++ [] = concat bs ++ cur) as Ecells.
  { unfold bs1. rewrite concat_app, app_nil_r. destruct cur; [done|]. cbn. by rewrite app_nil_r. }
  rewrite app_nil_r in Ecells. destruct Hw1 as [Henv1 Hout1 _ Hcells1 Hsorted1 _ Hfirst1 Hcounts1 Hidx1]. rewrite app_nil_r, Ecells in *.
  destruct Hidx1 as (L & V & Htow & Hleaves & Hused & Htotal & Hcount & Hnone).
  assert (exists n off es Ls Vs, root = block_of (Z.of_nat n) off false es /\ forest (Stored (out w2)) n off es Ls Vs /\
    es_size es <= index_cap + 2 ^ 22 /\ (n <= 63)%nat /\ NoDup (concat Vs) /\ concat Ls = L ++ option_list (pendingLeaf (grp w1)) /\
    env_ok w2 /\ out_inv (out w2) /\ grows (out w1) (out w2) /\ static w2 = static w1 /\
    cfCounts (grp w2) = cfCounts (grp w1) /\ firstKey (grp w2) = firstKey (grp w1) /\ totalAdded (grp w2) = int32 (len (concat Ls)))
    as (n & off & es & Ls & Vs & -> & Hfo & Hsz & Hn & Hnd & HLs & Henv2 & Hout2 & Hg2 & Hs2 & Hcf2 & Hfk2 & Htot2).
  { destruct (pendingLeaf (grp w1)) as [p|] eqn:Epl; cbn [option_list fmap list_fmap] in *.
    - destruct Hp as (w2' & Hadd & ->). cbn [out set_grp grp levels set_pending] in *.
      apply Forall2_app_inv_l in Hleaves as (b1 & b2 & _ & Hl2 & _). apply Forall2_cons_inv_l in Hl2 as (B & _ & (_ & _ & _ & Hpl) & _ & _).
      rewrite length_app in Hcount.
      destruct (indexAdd_Ok p true w1 w2' L V Hadd Hsmall Henv1 Hout1 Htow Hpl) as (Hf & Henv2 & Hout2 & Hgrow2 & V' & Hkeys2 & Hrt); [lia|].
      destruct Hrt as (n & off & es & Ls & Vs & Hlev & Hfo & Hsz & Hn & HL & HV). cbn in Hlev, Hfo, Hn.
      unfold buildRoot in Hroot. cbn [grp set_grp levels set_pending] in Hroot. rewrite Hlev, last_snoc in Hroot. injection Hroot as <-.
      destruct (framed_rest _ _ Hf) as (E1 & _ & _ & E4 & E5 & _ & E7).
      exists n, off, es, Ls, Vs. split_and!; try done.
      + rewrite <-HV. apply (Hkeys2 []). by rewrite app_nil_l.
      + cbn [grp set_grp totalAdded set_pending]. rewrite E7, <-HL, len_app. cbn. by rewrite Htotal, int32_succ.
    - subst w2. rewrite !app_nil_r in *. specialize (Hnone eq_refl). rewrite Hnone in Htow. destruct Htow as [-> ->].
      unfold buildRoot in Hroot. rewrite Hnone in Hroot. injection Hroot as <-.
      exists 0%nat, 0, [], [], []. split_and!; try done; [apply empty_root_forest|lia|constructor]. }
  assert (static w2 = static w) as Hstat by congruence. injection Hstat as E1 E2 E3 E4 E5 E6 E7.
  eexists. split; [cbn; by rewrite E3|]. split.
  { exists bs1, n, off, es, Ls, Vs. cbn. rewrite HLs. split_and!; try done.
    - by eapply leaves_in_mono.
    - by rewrite Hcf2, Hcounts1.
    - by rewrite Hfk2, Hfirst1.
    - by rewrite Htot2, HLs.
    - unfold len. destruct Hg2. lia. }
  split; [done|]. split; [done|]. split; [|split; [by etrans|unfold static; cbn; congruence]].
  split; [by destruct Henv2 as (? & ? & ? & _)|done|done|constructor|apply sorted_cells_nil|done|done|done|].
  exists [], []. split; [done|]. split; [constructor|]. split; [split; constructor|]. split; [done|]. split; [|done].
  destruct Hg1, Hg2. pose proof (mi_n _ (oi_inv _ _ Hout2)). cbn [out set_blk set_grp add_group]. pose proof (len_nonneg (w_out (out w2))).
  assert (0 <= w_n (out w2)) as Hz by lia. exact Hz.
Qed.
End group.
