(* ===== verification/RFileClose.v ===== *)
(** * RFileClose: writing a whole file (src/internal/rfile/writer.go)

    The writer from its construction through all locality groups ([filing]) to
    [Close]: what the finished container holds.  [Steps] tracks what the
    methods never undo: the container only grows, and only appending a cell
    touches the adjacency builder. *)

From S2P Require Import Prelude Wire Iter RelKey BCFile Container Index Utf8 EmbeddingSpace BlockMeta Adjacency IndexFile.
From S2P Require Import Codec RFileWriter IndexTree RFileBuild RFileGroup.

(** ** What every method keeps *)

(** The count of bytes stays what it is to the bytes. *)
Definition excess (o : Container.Writer) : Z := w_n o - len (w_out o).

Definition quiet (w w' : Writer) : Prop :=
  w_n (out w) <= w_n (out w') /\ excess (out w') = excess (out w) /\ adjBuilder w' = adjBuilder w /\
  closed w' = closed w /\ opts w' = opts w /\ (blk w' = blk w \/ blk w' = empty_block).

#[export] Instance quiet_preorder : PreOrder quiet.
Proof.
  split; [intros w; split_and!; try done; by left|].
  intros w1 w2 w3 (? & ? & ? & ? & ? & Hb1) (? & ? & ? & ? & ? & Hb2). split_and!; [lia|congruence..|].
  destruct Hb2 as [-> | ->]; [exact Hb1|by right].
Qed.

Definition Steps {A} (m : meth A) : Prop := forall w, quiet w (m w).1.

Lemma Steps_ret {A} (a : A) : Steps (mret a).
Proof. intros w. cbn. reflexivity. Qed.
Lemma Steps_throw {A} e : Steps (@throw A e).
Proof. intros w. cbn. reflexivity. Qed.
Lemma Steps_lift {A} (r : result A) : Steps (lift r).
Proof. intros w. cbn. reflexivity. Qed.
Lemma Steps_get : Steps get.
Proof. intros w. cbn. reflexivity. Qed.
Lemma Steps_modify f :
  (forall w, out (f w) = out w /\ adjBuilder (f w) = adjBuilder w /\ closed (f w) = closed w /\ opts (f w) = opts w /\
     (blk (f w) = blk w \/ blk (f w) = empty_block)) -> Steps (modify f).
Proof. intros H w. destruct (H w) as (H1 & H2 & H3 & H4 & H5). split_and!; cbn; rewrite ?H1; done. Qed.
Lemma Steps_bind {A B} (m : meth A) (f : A -> meth B) : Steps m -> (forall a, Steps (f a)) -> Steps (m ≫= f).
Proof.
  intros Hm Hf w. unfold mbind, meth_bind. specialize (Hm w). destruct (m w) as [w1 [a|e]]; [|done].
  etrans; [exact Hm|apply Hf].
Qed.
Lemma quiet_same w : quiet w (set_out (out w) w).
Proof. split_and!; try done. by left. Qed.

Lemma Steps_append_data msg p raw : Steps (on_out msg (AppendDataBlock p raw)).
Proof.
  intros w. unfold on_out. destruct (AppendDataBlock p raw (out w)) as [o r] eqn:E. cbn. unfold AppendDataBlock in E. destruct (w_closed _); [injection E as <- _; apply quiet_same|].
  destruct (raw <? 0); [injection E as <- _; apply quiet_same|]. injection E as <- _. unfold quiet, excess. cbn. rewrite len_app. pose proof (len_nonneg p). split_and!; [lia|lia|done|done|done|by left].
Qed.
Lemma Steps_append_meta msg name codec p raw : Steps (on_out msg (AppendMetaBlock name codec p raw)).
Proof.
  intros w. unfold on_out. destruct (AppendMetaBlock name codec p raw (out w)) as [o r] eqn:E. cbn. unfold AppendMetaBlock in E. destruct (w_closed _); [injection E as <- _; apply quiet_same|].
  destruct (_ !! name); [injection E as <- _; apply quiet_same|].
  destruct (raw <? 0); [injection E as <- _; apply quiet_same|]. injection E as <- _. unfold quiet, excess. cbn. rewrite len_app. pose proof (len_nonneg p). split_and!; [lia|lia|done|done|done|by left].
Qed.

Create HintDb steps discriminated.
#[export] Hint Resolve Steps_ret Steps_throw Steps_lift Steps_get Steps_append_data Steps_append_meta : steps.

(** Takes a method apart. *)
Ltac steps :=
  repeat match goal with
  | |- Steps (_ ≫= _) => apply Steps_bind; [|intros]
  | |- Steps (modify _) => apply Steps_modify; intros; split_and!; [reflexivity..|first [left; reflexivity|right; reflexivity]]
  | |- Steps (match ?x with _ => _ end) => destruct x
  | |- Steps (let _ := _ in _) => cbv zeta
  end; try solve [auto with steps].

Lemma Steps_indexAddAtLevel lv e : Steps (indexAddAtLevel lv e).
Proof. unfold indexAddAtLevel. steps. Qed.
#[export] Hint Resolve Steps_indexAddAtLevel : steps.

Lemma Steps_indexFlushLevel fuel lv k last : Steps (indexFlushLevel fuel lv k last).
Proof.
  revert lv. induction fuel as [|fuel IH]; intros lv; unfold indexFlushLevel; fold indexFlushLevel; steps.
Qed.
#[export] Hint Resolve Steps_indexFlushLevel : steps.

Lemma Steps_indexAdd leaf last : Steps (indexAdd leaf last).
Proof. unfold indexAdd. steps. Qed.
#[export] Hint Resolve Steps_indexAdd : steps.

Lemma Steps_flushDataBlock : Steps flushDataBlock.
Proof. unfold flushDataBlock. steps. Qed.
#[export] Hint Resolve Steps_flushDataBlock : steps.

Lemma Steps_finalize : Steps finalizeCurrentLocalityGroup.
Proof. unfold finalizeCurrentLocalityGroup. steps. Qed.
#[export] Hint Resolve Steps_finalize : steps.

Lemma Steps_AddLocalityGroup name : Steps (AddLocalityGroup name).
Proof. unfold AddLocalityGroup. steps. Qed.
#[export] Hint Resolve Steps_AddLocalityGroup : steps.

(** ** The cells of a file *)

(** [Append] in turn. *)
Fixpoint append_all (cells : list Cell) : meth unit :=
  match cells with
  | [] => mret tt
  | (k, v) :: cells => _ ← Append (Some k) v; append_all cells
  end.

(** The named groups after the default one. *)
Fixpoint append_groups (gs : list (bytes * list Cell)) : meth unit :=
  match gs with
  | [] => mret tt
  | (name, cells) :: gs => _ ← AddLocalityGroup name; _ ← append_all cells; append_groups gs
  end.

(** The edges among the cells, for the adjacency index. *)
Definition edge_entries (cf : bytes) (cells : list Cell) : list entry :=
  (fun c : Cell => mkAdjEntry (Row c.1) (mkEdge (ColumnQualifier c.1) c.2 (Timestamp c.1) (Deleted c.1) (ColumnVisibility c.1)))
    <$> filter (fun c : Cell => ColumnFamily c.1 = cf) cells.

Lemma edge_entries_app cf a b : edge_entries cf (a ++ b) = edge_entries cf a ++ edge_entries cf b.
Proof. unfold edge_entries. by rewrite filter_app, fmap_app. Qed.

Lemma edge_entries_len cf cells : len (edge_entries cf cells) <= len cells.
Proof. unfold edge_entries, len. rewrite length_fmap. apply inj_le, length_filter. Qed.

Lemma edge_entries_ok cf cells : Forall cell_small cells -> Forall entry_ok (edge_entries cf cells).
Proof.
  intros H. apply Forall_fmap, Forall_forall. intros c [_ Hc]%list_elem_of_filter. rewrite Forall_forall in H.
  destruct (H c Hc) as [[Ht Hk] Hv]. unfold key_len in Hk. change (2 ^ 21) with 2097152 in Hk.
  pose proof (len_nonneg (Row c.1)). pose proof (len_nonneg (ColumnFamily c.1)). pose proof (len_nonneg (ColumnQualifier c.1)).
  pose proof (len_nonneg (ColumnVisibility c.1)). unfold entry_ok, edge_ok, in_int64 in *. cbn. lia.
Qed.

(** The builder after the cells [done]. *)
Definition adj_after (cf : bytes) (cells : list Cell) : option Builder :=
  match cf with [] => None | _ => Some (mkBuilder cf (edge_entries cf cells)) end.

Lemma add_cell_adj k v w cf cells :
  adjBuilder w = adj_after cf cells -> adjBuilder (add_cell k v w) = adj_after cf (cells ++ [(k, v)]).
Proof.
  intros H. unfold add_cell. cbv zeta. cbn [adjBuilder set_overlays set_grp set_blk]. rewrite H. unfold adj_after.
  destruct cf as [|b cf']; [done|]. set (cf := b :: cf') in *. rewrite edge_entries_app. cbn [b_edgeCF].
  assert (edge_entries cf [(k, v)] = if decide (ColumnFamily k = cf) then
    [mkAdjEntry (Row k) (mkEdge (ColumnQualifier k) v (Timestamp k) (Deleted k) (ColumnVisibility k))] else []) as ->.
  { unfold edge_entries. rewrite filter_cons, filter_nil. cbn [fst]. by destruct (decide _). }
  unfold bytes_Equal. destruct (decide (ColumnFamily k = cf)) as [E|E]; [by rewrite bool_decide_eq_true_2|].
  rewrite bool_decide_eq_false_2 by done. by rewrite app_nil_r.
Qed.

Lemma add_cell_out k v w : out (add_cell k v w) = out w.
Proof. unfold add_cell. cbv zeta. by repeat case_match. Qed.

(** From a writer that has seen the cells [a] to one that has seen [b]. *)
Definition goes (cf : bytes) (w : Writer) (b : list Cell) (w' : Writer) : Prop :=
  w_n (out w) <= w_n (out w') /\ excess (out w') = excess (out w) /\ adjBuilder w' = adj_after cf b /\
  closed w' = closed w /\ opts w' = opts w.

Lemma add_cell_closed k v w : closed (add_cell k v w) = closed w /\ opts (add_cell k v w) = opts w.
Proof. unfold add_cell. cbv zeta. by repeat case_match. Qed.

Lemma Append_quiet k v w w' cf cells :
  Append (Some k) v w = (w', Ok tt) -> adjBuilder w = adj_after cf cells -> goes cf w (cells ++ [(k, v)]) w'.
Proof.
  intros H Ha. apply Append_turn in H. destruct (lastKey (grp w)) as [l|].
  - destruct H as (_ & w1 & Hw1 & ->). unfold goes. destruct (add_cell_closed k v w1) as [-> ->]. rewrite add_cell_out.
    assert (quiet w w1) as (H1 & H2 & H3 & H4 & H5 & _).
    { destruct Hw1 as [->|Hf]; [reflexivity|]. pose proof (Steps_flushDataBlock w) as Hq. by rewrite Hf in Hq. }
    split_and!; [done|done| |done|done]. apply add_cell_adj. congruence.
  - subst w'. unfold goes. destruct (add_cell_closed k v w) as [-> ->]. rewrite add_cell_out. split_and!; [done|done| |done|done]. by apply add_cell_adj.
Qed.

Lemma append_all_quiet cells w w' cf pre :
  append_all cells w = (w', Ok tt) -> adjBuilder w = adj_after cf pre -> goes cf w (pre ++ cells) w'.
Proof.
  revert w pre. induction cells as [|[k v] cells IH]; intros w pre H Ha.
  - injection H as <-. split_and!; [done|done|by rewrite app_nil_r|done|done].
  - cbn [append_all] in H. apply meth_bind_Ok in H as (w1 & [] & H1 & H).
    destruct (Append_quiet _ _ _ _ _ _ H1 Ha) as (H2 & H3 & H4 & H5 & H5'). destruct (IH _ _ H H4) as (H6 & H7 & H8 & H9 & H9').
    rewrite <-(assoc_L (++)) in H8. split_and!; [lia|congruence|done|congruence..].
Qed.

Lemma append_groups_quiet gs w w' cf pre :
  append_groups gs w = (w', Ok tt) -> adjBuilder w = adj_after cf pre -> goes cf w (pre ++ concat gs.*2) w'.
Proof.
  revert w pre. induction gs as [|[name cells] gs IH]; intros w pre H Ha.
  - injection H as <-. split_and!; [done|done|by rewrite app_nil_r|done|done].
  - cbn [append_groups] in H. apply meth_bind_Ok in H as (w1 & [] & H1 & H). apply meth_bind_Ok in H as (w2 & [] & H2 & H).
    pose proof (Steps_AddLocalityGroup name w) as (Hq1 & Hq2 & Hq3 & Hq4 & Hq5 & _). rewrite H1 in Hq1, Hq2, Hq3, Hq4, Hq5. cbn [fst] in Hq1, Hq2, Hq3, Hq4, Hq5.
    destruct (append_all_quiet _ _ _ cf pre H2 ltac:(congruence)) as (H3 & H4 & H5 & H6 & H6').
    destruct (IH _ _ H H5) as (H7 & H8 & H9 & H10 & H10').
    rewrite fmap_cons. cbn [concat snd]. rewrite <-(assoc_L (++)) in H9. split_and!; [lia|congruence|done|congruence..].
Qed.

(** ** A file through its groups *)

Section file.
Context (c : Compressor) (codec : bytes).
Hypothesis encode_nonempty : forall raw p, Encode c raw codec = Ok p -> raw <> [] -> p <> [].
Abbreviation writing := (writing c codec).
Abbreviation group_done := (group_done c codec).
Abbreviation grows := (grows c codec).
Abbreviation idle := (idle c codec).

(** The groups of a file by default flag and name. *)
Definition group_id (lg : LocalityGroup) : bool * bytes := (IsDefault lg, lg_Name lg).
Definition file_ids (names : list bytes) : list (bool * bytes) := (true, []) :: ((false,.) <$> names).

(** The groups recorded hold [Gs], the current one [cells]. *)
Record filing (w : Writer) (Gs : list (list Cell)) (names : list bytes) (cells : list Cell) : Prop := {
  fi_writing : exists bs cur, writing w bs cur /\ concat bs ++ cur = cells;
  fi_groups : Forall2 (group_done (out w)) (localityGroups w) Gs;
  fi_ids : (group_id <$> localityGroups w) ++ [(currentDefault w, currentLGName w)] = file_ids names;
  fi_names : NoDup names /\ ([] ∉ names) /\ localityNames w = list_to_set names;
  fi_open : closed w = false;
}.

Lemma filing_frame w w' Gs names cells bs cur :
  filing w Gs names cells -> static w' = static w -> grows (out w) (out w') -> writing w' bs cur ->
  filing w' Gs names (concat bs ++ cur).
Proof.
  intros [_ Hg Hi Hn Ho] Hs Hgr Hw. injection Hs as E1 E2 E3 E4 E5 E6 E7.
  split; rewrite ?E1, ?E2, ?E3, ?E4, ?E5, ?E6, ?E7; try done; [by eexists _, _|].
  eapply Forall2_impl; [exact Hg|]. intros lg x. by apply group_done_mono.
Qed.

Lemma Append_filing k v w w' Gs names cells :
  Append (Some k) v w = (w', Ok tt) -> w_n (out w') < 2 ^ 63 -> filing w Gs names cells -> cell_small (k, v) ->
  filing w' Gs names (cells ++ [(k, v)]).
Proof.
  intros H Hs Hf Hc. destruct (fi_writing _ _ _ _ Hf) as (bs & cur & Hw & <-).
  destruct (Append_Ok c codec encode_nonempty w w' k v bs cur H Hs Hw Hc) as (bs' & cur' & <- & Hw' & Hst & Hgr).
  by apply (filing_frame w w' Gs names (concat bs ++ cur)).
Qed.

Lemma append_all_mono cells w w' : append_all cells w = (w', Ok tt) -> w_n (out w) <= w_n (out w').
Proof.
  revert w. induction cells as [|[k v] cells IH]; intros w H; [by injection H as <-|].
  cbn [append_all] in H. apply meth_bind_Ok in H as (w1 & [] & H1 & H). apply IH in H. etrans; [|exact H].
  apply Append_turn in H1. destruct (lastKey (grp w)); [|subst; by rewrite add_cell_out].
  destruct H1 as (_ & w2 & [->|Hf] & ->); rewrite add_cell_out; [done|].
  pose proof (Steps_flushDataBlock w) as [Hq _]. by rewrite Hf in Hq.
Qed.

Lemma append_groups_mono gs w w' : append_groups gs w = (w', Ok tt) -> w_n (out w) <= w_n (out w').
Proof.
  revert w. induction gs as [|[name cells] gs IH]; intros w H; [by injection H as <-|].
  cbn [append_groups] in H. apply meth_bind_Ok in H as (w1 & [] & H1 & H). apply meth_bind_Ok in H as (w2 & [] & H2 & H).
  apply IH in H. apply append_all_mono in H2. pose proof (Steps_AddLocalityGroup name w) as [Hq _]. rewrite H1 in Hq. cbn in Hq. lia.
Qed.

Lemma append_all_filing cells w w' Gs names pre :
  append_all cells w = (w', Ok tt) -> w_n (out w') < 2 ^ 63 -> filing w Gs names pre -> Forall cell_small cells ->
  filing w' Gs names (pre ++ cells).
Proof.
  revert w pre. induction cells as [|[k v] cells IH]; intros w pre H Hs Hf Hc.
  { injection H as <-. by rewrite app_nil_r. }
  cbn [append_all] in H. apply meth_bind_Ok in H as (w1 & [] & H1 & H). apply Forall_cons in Hc as [Hc Hcs].
  pose proof (append_all_mono _ _ _ H). change ((k, v) :: cells) with ([(k, v)] ++ cells). rewrite (assoc_L (++)).
  apply (IH w1); [done|done| |done]. apply (Append_filing k v w); [done|lia|done|done].
Qed.

Lemma AddLocalityGroup_filing name w w' Gs names cells :
  AddLocalityGroup name w = (w', Ok tt) -> w_n (out w') < 2 ^ 63 -> filing w Gs names cells ->
  filing w' (Gs ++ [cells]) (names ++ [name]) [].
Proof.
  intros H Hs Hf. unfold AddLocalityGroup in H. apply meth_bind_Ok in H as (w0 & w0' & H0 & H). unfold get in H0. injection H0 as <- <-.
  rewrite (fi_open _ _ _ _ Hf) in H. case_bool_decide as Hne; [done|]. case_bool_decide as Hnew; [done|].
  apply meth_bind_Ok in H as (w1 & [] & Hfin & H). unfold modify in H. injection H as <-.
  destruct (fi_writing _ _ _ _ Hf) as (bs & cur & Hw & <-).
  destruct (finalize_Ok c codec encode_nonempty w w1 bs cur Hfin Hs Hw) as (lg & Hlg & Hdone & Hd & Hn & Hidle & Hgr & Hst).
  injection Hst as E1 E2 E3 E4 E5 E6 E7. destruct (fi_names _ _ _ _ Hf) as (Hnd & Hnil & Hset).
  split; cbn [out localityGroups start_group currentDefault currentLGName localityNames closed].
  - exists [], []. split; [|done]. destruct Hidle as [? ? ? ? ? ? ? ? ?]. by split.
  - rewrite E3. apply Forall2_app; [|by repeat constructor]. eapply Forall2_impl; [apply Hf|]. intros lg' x. by apply group_done_mono.
  - rewrite E3, fmap_app. cbn. unfold group_id at 2. rewrite Hd, Hn, (fi_ids _ _ _ _ Hf). unfold file_ids. by rewrite fmap_app.
  - rewrite E6, Hset in *. rewrite elem_of_list_to_set in Hnew. split_and!.
    + apply NoDup_app. split_and!; [done| |apply NoDup_singleton]. intros x Hx ->%list_elem_of_singleton. done.
    + rewrite not_elem_of_app, list_elem_of_singleton. naive_solver.
    + rewrite list_to_set_app_L. cbn. rewrite (right_id_L ∅ (∪)). apply (comm_L (∪)).
  - rewrite E7. apply Hf.
Qed.

Lemma append_groups_filing gs w w' Gs names cells :
  append_groups gs w = (w', Ok tt) -> w_n (out w') < 2 ^ 63 -> filing w Gs names cells ->
  Forall (fun g : bytes * list Cell => Forall cell_small g.2) gs ->
  exists Gs' cells', filing w' Gs' (names ++ gs.*1) cells' /\ Gs' ++ [cells'] = Gs ++ cells :: gs.*2.
Proof.
  revert w Gs names cells. induction gs as [|[name gc] gs IH]; intros w Gs names cells H Hs Hf Hc.
  { injection H as <-. exists Gs, cells. by rewrite app_nil_r. }
  cbn [append_groups] in H. apply meth_bind_Ok in H as (w1 & [] & H1 & H). apply meth_bind_Ok in H as (w2 & [] & H2 & H).
  apply Forall_cons in Hc as [Hc Hcs]. pose proof (append_groups_mono _ _ _ H). pose proof (append_all_mono _ _ _ H2).
  pose proof (AddLocalityGroup_filing name w w1 Gs names cells H1 ltac:(lia) Hf) as Hf1.
  pose proof (append_all_filing gc w1 w2 _ _ [] H2 ltac:(lia) Hf1 Hc) as Hf2. cbn [app] in Hf2.
  destruct (IH w2 _ _ _ H Hs Hf2 Hcs) as (Gs' & cells' & Hf3 & E). exists Gs', cells'. rewrite !fmap_cons. cbn [fst snd].
  rewrite <-!(assoc_L (++)) in *. by split.
Qed.

(** ** Construction *)

Lemma NewWriter_filing L o w :
  NewWriter L o = Ok w -> opt_Compressor o = None -> c = DefaultCompressor L ->
  codec = match opt_Codec o with [] => CodecNone | x => x end -> IndexBlockSize o <= index_cap ->
  filing w [] [] [] /\ adjBuilder w = adj_after (AdjacencyEdgeCF o) [] /\ opt_EmbeddingSpace (opts w) = opt_EmbeddingSpace o.
Proof.
  unfold NewWriter. intros Hn Hc -> -> Hcap. rewrite Hc in Hn. destruct (negb _); [done|]. apply (inj Ok) in Hn as <-.
  split; [|split; [by destruct (AdjacencyEdgeCF o)|done]].
  split; [|constructor|done| |done]; cbn [out localityGroups currentDefault currentLGName localityNames closed].
  - exists [], []. split; [|done]. split; cbn; try done; try by constructor.
    + split_and!; [done|done| |by vm_compute]. cbn. destruct (IndexBlockSize o <=? 0); [by vm_compute|done].
    + split; try done; try by constructor.
    + exists [], []. split_and!; try done. split; constructor.
  - split_and!; [constructor|apply not_elem_of_nil|done].
Qed.
End file.

(** ** Closing *)

Lemma appends_app ops1 ops2 o : appends (ops1 ++ ops2) o =
  match appends ops1 o with
  | (o1, Err e) => (o1, Err e)
  | (o1, Ok rs1) => match appends ops2 o1 with (o2, Ok rs2) => (o2, Ok (rs1 ++ rs2)) | (o2, Err e) => (o2, Err e) end
  end.
Proof.
  revert o. induction ops1 as [|a ops1 IH]; intros o; cbn [app appends].
  - by destruct (appends ops2 o) as [o2 [rs|]].
  - destruct (exec_append a o) as [o1 [r|]]; [|done]. rewrite IH. destruct (appends ops1 o1) as [o2 [rs1|]]; [|done].
    by destruct (appends ops2 o2) as [o3 [rs2|]].
Qed.

(** The meta blocks of the side sections. *)
Definition blockmeta_section (bs : list OverlayBuilder) (m : BlockMeta) : list append :=
  match bs with [] => [] | _ => [AMeta BlockMeta.MetaBlockName CodecNone (BlockMeta.Write m) (len (BlockMeta.Write m))] end.
Definition embedding_section (enc : option bytes) : list append :=
  match enc with None => [] | Some b => [AMeta RFileMetaBlockName CodecNone b (len b)] end.
Definition adjacency_section (codec p : bytes) (ix : option Adjacency.Index) : list append :=
  match ix with
  | None => []
  | Some ix => [AMeta Adjacency.MetaBlockName codec p (len (Adjacency.Write ix))]
  end.

(** A step appended the blocks [ops] to the container. *)
Definition appended (ops : list append) (w w' : Writer) : Prop :=
  exists o rs, w' = set_out o w /\ appends ops (out w) = (o, Ok rs).

Lemma appended_nil w : appended [] w w.
Proof. exists (out w), []. split; [by destruct w|done]. Qed.

Lemma appended_trans ops1 ops2 w1 w2 w3 : appended ops1 w1 w2 -> appended ops2 w2 w3 -> appended (ops1 ++ ops2) w1 w3.
Proof.
  intros (o1 & rs1 & -> & H1) (o2 & rs2 & -> & H2). exists o2, (rs1 ++ rs2). split; [done|].
  cbn [out set_out] in H2. by rewrite appends_app, H1, H2.
Qed.

Lemma append_meta_step msg name co p raw w w' r :
  on_out msg (AppendMetaBlock name co p raw) w = (w', Ok r) -> appended [AMeta name co p raw] w w'.
Proof.
  unfold on_out. destruct (AppendMetaBlock name co p raw (out w)) as [o r'] eqn:E. intros [= <- ->%wrap_Ok].
  exists o, [r]. split; [done|]. cbn. by rewrite E.
Qed.

Lemma close_blockmeta_step w w' :
  close_blockmeta w = (w', Ok tt) ->
  appended (blockmeta_section (bmBuilders w) (mkBlockMeta BlockMeta.V1 [] (blockOverlays w))) w w'.
Proof.
  intros H. unfold close_blockmeta in H. apply meth_bind_Ok in H as (w0 & w0' & H0 & H). unfold get in H0. injection H0 as <- <-.
  destruct (bmBuilders w) as [|b bs]; [injection H as <-; apply appended_nil|].
  apply meth_bind_Ok in H as (w1 & r & H1 & H). injection H as <-. by apply append_meta_step in H1.
Qed.

Lemma close_embedding_step Marshal w w' :
  close_embedding Marshal w = (w', Ok tt) ->
  exists enc, appended (embedding_section enc) w w' /\
    match enc with
    | None => State (opt_EmbeddingSpace (opts w)) = []
    | Some b => EmbeddingSpace.Encode Marshal (opt_EmbeddingSpace (opts w)) = Ok b
    end.
Proof.
  intros H. unfold close_embedding in H. apply meth_bind_Ok in H as (w0 & w0' & H0 & H). unfold get in H0. injection H0 as <- <-.
  case_bool_decide as Es; [injection H as <-; exists None; split; [apply appended_nil|done]|].
  apply meth_bind_Ok in H as (w1 & enc & [-> He%wrap_Ok]%lift_Ok & H).
  apply meth_bind_Ok in H as (w2 & r & H1 & H). injection H as <-. apply append_meta_step in H1. by exists (Some enc).
Qed.

Lemma close_adjacency_step w w' :
  close_adjacency w = (w', Ok tt) ->
  let ix := match adjBuilder w with Some a => (Build a).2 | None => None end in
  exists p, (exists rs, appends (adjacency_section (opt_Codec (opts w)) p ix) (out w) = (out w', Ok rs)) /\
    blockOverlays w' = blockOverlays w /\
    match ix with Some ix => Encode (comp w) (Adjacency.Write ix) (opt_Codec (opts w)) = Ok p | None => True end.
Proof.
  intros H. unfold close_adjacency in H. apply meth_bind_Ok in H as (w0 & w0' & H0 & H). unfold get in H0. injection H0 as <- <-.
  destruct (adjBuilder w) as [a|]; cbv zeta; [|injection H as <-; exists []; split; [by exists []|done]].
  destruct (Build a) as [a' ix]. cbn [snd]. apply meth_bind_Ok in H as (w1 & [] & H1 & H). unfold modify in H1. injection H1 as <-.
  destruct ix as [ix|]; [|injection H as <-; exists []; split; [by exists []|done]].
  apply meth_bind_Ok in H as (w2 & p & [-> Hp%wrap_Ok]%lift_Ok & H).
  apply meth_bind_Ok in H as (w3 & r & H1 & H). injection H as <-. exists p.
  apply append_meta_step in H1 as (o & rs & -> & Hrs). split; [by exists rs|by split].
Qed.

(** The sections after the directory, and what is in them. *)
Definition sections (w : Writer) (enc : option bytes) (p : bytes) : list append :=
  blockmeta_section (bmBuilders w) (mkBlockMeta BlockMeta.V1 [] (blockOverlays w)) ++ embedding_section enc ++
  adjacency_section (opt_Codec (opts w)) p (match adjBuilder w with Some a => (Build a).2 | None => None end).

Definition sections_encoded (Marshal : FileState -> result bytes) (w : Writer) (enc : option bytes) (p : bytes) : Prop :=
  match enc with
  | None => State (opt_EmbeddingSpace (opts w)) = []
  | Some b => EmbeddingSpace.Encode Marshal (opt_EmbeddingSpace (opts w)) = Ok b
  end /\
  match adjBuilder w with
  | Some a => match (Build a).2 with
              | Some ix => Encode (comp w) (Adjacency.Write ix) (opt_Codec (opts w)) = Ok p
              | None => True
              end
  | None => True
  end.

Lemma Close_turn order Marshal w w' :
  Close order Marshal w = (w', Ok tt) -> closed w = false ->
  exists w1 idx enc p o rs,
    finalizeCurrentLocalityGroup (set_rclosed w) = (w1, Ok tt) /\
    writeRFileIndexMeta order (localityGroups w1) = Ok idx /\ sections_encoded Marshal w1 enc p /\
    appends (AMeta IndexMetaBlockName CodecNone idx (len idx) :: sections w1 enc p) (out w1) = (o, Ok rs) /\
    out w' = (Container.Close o).1 /\ blockOverlays w' = blockOverlays w1.
Proof.
  intros H Ho. unfold Close in H. apply meth_bind_Ok in H as (w0 & w0' & H0 & H). unfold get in H0. injection H0 as <- <-.
  rewrite Ho in H. apply meth_bind_Ok in H as (wc & [] & Hc & H). unfold modify in Hc. injection Hc as <-.
  apply meth_bind_Ok in H as (w1 & [] & Hfin & H). apply meth_bind_Ok in H as (w1' & w1'' & H0 & H). unfold get in H0. injection H0 as <- <-.
  apply meth_bind_Ok in H as (wa & idx & [-> Hidx%wrap_Ok]%lift_Ok & H).
  apply meth_bind_Ok in H as (w2 & r & H2%append_meta_step & H).
  apply meth_bind_Ok in H as (w3 & [] & H3%close_blockmeta_step & H).
  apply meth_bind_Ok in H as (w4 & [] & (enc & H4 & He)%close_embedding_step & H).
  apply meth_bind_Ok in H as (w5 & [] & (p & [rs5 H5] & Eo & Hp)%close_adjacency_step & H).
  unfold on_out in H. destruct (Container.Close (out w5)) as [o e] eqn:Ec. injection H as <- _.
  destruct H2 as (o2 & rs2 & -> & H2), H3 as (o3 & rs3 & -> & H3), H4 as (o4 & rs4 & -> & H4).
  exists w1, idx, enc, p, (out w5), ((rs2 ++ rs3 ++ rs4) ++ rs5). split; [done|]. split; [done|]. split.
  { split; [exact He|]. cbn [adjBuilder set_out comp opts] in Hp. by destruct (adjBuilder w1). }
  split; [|split; [cbn; by rewrite Ec|exact Eo]]. cbn [out set_out bmBuilders blockOverlays opts adjBuilder comp] in *.
  unfold sections. change (?a :: ?b ++ ?c ++ ?d) with ([a] ++ (b ++ (c ++ d))). rewrite appends_app, H2, appends_app, H3, appends_app, H4, H5.
  by rewrite <-!(assoc_L (++)).
Qed.

(** ** The finished container *)

Definition is_meta (a : append) : Prop :=
  match a with AData _ _ => False | AMeta name codec _ raw => name <> DataIndexBlockName /\ short (metaNamePrefix ++ name) /\ short codec end.

(** No meta block is above the size limits of blocks. *)
Definition meta_fits (o : Container.Writer) : Prop :=
  forall name e, Entries (w_metaIndex o) !! name = Some e ->
    CompressedSize (Region e) <= MaxCompressedBlockSize /\ BCFile.RawSize (Region e) <= MaxRawBlockSize.

Definition above (d : Z) (o : Container.Writer) : Prop :=
  d <= w_n o /\ forall name e, Entries (w_metaIndex o) !! name = Some e -> d <= Offset (Region e).

Definition meta_name (a : append) : option bytes := match a with AData _ _ => None | AMeta name _ _ _ => Some name end.

Lemma appends_meta ops o o' rs d :
  Forall is_meta ops -> appends ops o = (o', Ok rs) -> above d o ->
  above d o' /\ w_n o <= w_n o' /\ excess o' = excess o /\
  (forall name e, Entries (w_metaIndex o) !! name = Some e -> Entries (w_metaIndex o') !! name = Some e) /\
  (forall name, Entries (w_metaIndex o) !! name = None -> Some name ∉ (meta_name <$> ops) -> Entries (w_metaIndex o') !! name = None) /\
  Forall (fun a => match a with AData _ _ => False | AMeta name codec p raw => 0 <= raw /\ exists off,
            Entries (w_metaIndex o') !! name = Some (mkEntry name codec (mkRegion off (len p) raw)) end) ops.
Proof.
  intros Hops. revert o rs. induction Hops as [|a ops Ha Hops IH]; intros o rs H Hd.
  { injection H as <- <-. split_and!; (done || constructor). }
  destruct a as [|name codec p raw]; [done|]. cbn in H. unfold AppendMetaBlock in H.
  destruct (w_closed o); [done|]. destruct (_ !! name) eqn:En; [done|].
  destruct (Z.ltb_spec raw 0); [done|]. set (o1 := add_meta _ _) in H.
  destruct (appends ops o1) as [o2 [rs'|]] eqn:E; [|done]. injection H as <- <-.
  pose proof (len_nonneg p). destruct Hd as [Hd1 Hd2].
  assert (above d o1) as Hd'.
  { split; [cbn; lia|]. intros n e. cbn. intros [[<- <-]|[_ He]]%lookup_insert_Some; [cbn; lia|by apply (Hd2 n)]. }
  destruct (IH o1 rs' E Hd') as (H1 & H2 & H3' & H3 & H4 & H5). split; [done|]. split; [cbn in H2; lia|].
  split; [rewrite H3'; unfold excess; cbn; rewrite len_app; lia|]. split; [|split].
  - intros n e Hn. apply H3. cbn. rewrite lookup_insert_ne; [done|]. intros <-. congruence.
  - intros n Hn Hnin. rewrite fmap_cons in Hnin. apply not_elem_of_cons in Hnin as [Hne Hnin]. cbn in Hne.
    apply H4; [|done]. cbn. rewrite lookup_insert_ne; [done|]. congruence.
  - constructor; [|done]. split; [done|]. exists (w_n o). apply H3. cbn. by rewrite lookup_insert_eq.
Qed.

Lemma sections_meta w enc p : short (opt_Codec (opts w)) -> Forall is_meta (sections w enc p).
Proof.
  intros Hc. unfold sections. apply Forall_app. split; [|apply Forall_app; split].
  - unfold blockmeta_section. destruct (bmBuilders w); repeat constructor; vm_compute; done.
  - destruct enc; repeat constructor; vm_compute; done.
  - unfold adjacency_section. destruct (match adjBuilder w with Some _ => _ | None => _ end); repeat constructor; try done; vm_compute; done.
Qed.

Lemma write_int32_nonempty n s : 0 < len (WriteInt32 n ++ s).
Proof. rewrite len_app, WriteInt32_len. pose proof (len_nonneg s). lia. Qed.

(** The sections' payloads are not empty. *)
Lemma sections_payloads Marshal Unmarshal w enc p :
  json_ok Marshal Unmarshal -> sections_encoded Marshal w enc p ->
  (forall raw p, Encode (comp w) raw (opt_Codec (opts w)) = Ok p -> raw <> [] -> p <> []) ->
  Forall (fun a => match a with AData _ _ => True | AMeta _ _ p _ => 0 < len p end) (sections w enc p).
Proof.
  intros Hj [He Ha] Hne. unfold sections. apply Forall_app. split; [|apply Forall_app; split].
  - unfold blockmeta_section. destruct (bmBuilders w); [constructor|]. apply Forall_singleton. apply write_int32_nonempty.
  - destruct enc as [b|]; [|constructor]. apply Forall_singleton. unfold EmbeddingSpace.Encode in He. destruct (Validate _) eqn:Hv; [done|].
    assert (ValidString (State (opt_EmbeddingSpace (opts w))) = true /\ ValidString (Identity (opt_EmbeddingSpace (opts w))) = true) as [H1 H2].
    { destruct (Validate_state _ Hv) as [(-> & -> & _)|([-> | ->] & ->)]; by vm_compute. }
    destruct (Hj _ _ H1 H2 He) as [_ Hb]. destruct b; [done|]. rewrite len_cons. pose proof (len_nonneg b). lia.
  - destruct (adjBuilder w) as [a|]; [|constructor]. destruct (Build a).2 as [ix|]; [|constructor]. apply Forall_singleton.
    assert (p <> []) as Hp by (apply (Hne _ _ Ha); unfold Adjacency.Write, WriteInt32; done).
    destruct p as [|b p]; [done|]. rewrite len_cons. pose proof (len_nonneg p). lia.
Qed.

Lemma Close_out o : exists x, w_out (Container.Close o).1 = w_out o ++ x.
Proof.
  unfold Container.Close. destruct (w_closed o); [exists []; by rewrite app_nil_r|]. rewrite WriteFooter_v3. cbn.
  rewrite <-!(assoc_L (++)). by eexists.
Qed.

Lemma Close_keeps o name e :
  name <> DataIndexBlockName -> Entries (w_metaIndex o) !! name = Some e ->
  Entries (w_metaIndex (Container.Close o).1) !! name = Some e.
Proof.
  intros Hne He. unfold Container.Close. destruct (w_closed o); [done|]. rewrite WriteFooter_v3. cbn. by rewrite lookup_insert_ne.
Qed.

Lemma appends_bytes ops o o' rs : appends ops o = (o', Ok rs) -> exists x, w_out o' = w_out o ++ x.
Proof.
  revert o rs. induction ops as [|a ops IH]; intros o rs H; [injection H as <- <-; exists []; by rewrite app_nil_r|].
  cbn in H. destruct (exec_append a o) as [o1 [r|]] eqn:E; [|done]. destruct (appends ops o1) as [o2 [rs'|]] eqn:E2; [|done].
  injection H as <- <-. destruct (IH _ _ E2) as [x Hx]. 
  assert (exists y, w_out o1 = w_out o ++ y) as [y Hy].
  { destruct a; cbn in E; [unfold AppendDataBlock in E|unfold AppendMetaBlock in E]; repeat case_match; simplify_eq; by eexists. }
  exists (y ++ x). by rewrite Hx, Hy, (assoc_L (++)).
Qed.
(** Closing only adds to the file. *)
Lemma Close_bounds order Marshal w w' :
  Close order Marshal w = (w', Ok tt) -> closed w = false -> excess (out w) = 0 -> w_n (out w) <= len (w_out (out w')).
Proof.
  intros H Ho Hex. destruct (Close_turn order Marshal w w' H Ho) as (w1 & idx & enc & p & o & rs & Hfin & _ & _ & Happ & -> & _).
  pose proof (Steps_finalize (set_rclosed w)) as (Hn & Hex1 & _). rewrite Hfin in Hn, Hex1. cbn [fst] in Hn, Hex1.
  change (out (set_rclosed w)) with (out w) in *. destruct (appends_bytes _ _ _ _ Happ) as [x Hx]. destruct (Close_out o) as [y ->].
  rewrite Hx, !len_app. pose proof (len_nonneg x). pose proof (len_nonneg y). unfold excess in *. lia.
Qed.

Section done.
Context (c : Compressor) (codec : bytes).
Hypothesis encode_nonempty : forall raw p, Encode c raw codec = Ok p -> raw <> [] -> p <> [].
Context (order : gmap bytes Z -> list (bytes * Z)) (Marshal : FileState -> result bytes) (Unmarshal : bytes -> result FileState).
Hypothesis Hjson : json_ok Marshal Unmarshal.
Hypothesis Hcodec : short codec.

(** What a closed file is made of: the blocks of its groups [lgs] written by
    [o1], then the directory and the side sections. *)
Definition file_ops (w1 : Writer) (idx : bytes) (enc : option bytes) (p : bytes) : list append :=
  AMeta IndexMetaBlockName CodecNone idx (len idx) :: sections w1 enc p.

Record finished (w1 : Writer) (Gs : list (list Cell)) (names : list bytes)
    (idx : bytes) (enc : option bytes) (p : bytes) (o : Container.Writer) (rs : list BlockRegion) : Prop := {
  fin_comp : comp w1 = c /\ opt_Codec (opts w1) = codec;
  fin_out : out_inv codec (out w1);
  fin_groups : Forall2 (group_done c codec (out w1)) (localityGroups w1) Gs;
  fin_ids : group_id <$> localityGroups w1 = file_ids names;
  fin_names : NoDup names /\ ([] ∉ names);
  fin_index : writeRFileIndexMeta order (localityGroups w1) = Ok idx;
  fin_sections : sections_encoded Marshal w1 enc p;
  fin_laid : laid_out codec (w_dataBlocks (out w1)) (file_ops w1 idx enc p) rs o;
  fin_ok : Forall append_ok (file_ops w1 idx enc p);
  fin_above : above (w_n (out w1)) o;
  fin_absent : forall name, Some name ∉ (meta_name <$> file_ops w1 idx enc p) -> Entries (w_metaIndex o) !! name = None;
  fin_bytes : exists x, w_out o = w_out (out w1) ++ x;
}.

Lemma Close_finished w w' Gs names cells :
  Close order Marshal w = (w', Ok tt) -> filing c codec w Gs names cells ->
  len (w_out (out w')) < 2 ^ 63 -> meta_fits (out w') ->
  exists w1 idx enc p o rs, finished w1 (Gs ++ [cells]) names idx enc p o rs /\
    out w' = (Container.Close o).1 /\ opts w1 = opts w /\ adjBuilder w1 = adjBuilder w /\ blockOverlays w' = blockOverlays w1.
Proof.
  intros H Hf Hlen Hfits. destruct (Close_turn order Marshal w w' H (fi_open _ _ _ _ _ _ Hf))
    as (w1 & idx & enc & p & o & rs & Hfin & Hidx & Hsec & Happ & Eo & Eov).
  destruct (fi_writing _ _ _ _ _ _ Hf) as (bs & cur & Hw & <-).
  assert (writing c codec (set_rclosed w) bs cur) as Hw' by (destruct Hw; by split).
  pose proof (Steps_finalize (set_rclosed w)) as (_ & Hex & Hadj & _). rewrite Hfin in Hex, Hadj. cbn [fst] in Hex, Hadj.
  destruct (appends_bytes _ _ _ _ Happ) as [x Hx]. destruct (Close_out o) as [y Hy].
  assert (excess (out w) = 0) as Hex0 by (unfold excess; pose proof (mi_n _ (oi_inv _ _ (wr_out _ _ _ _ _ Hw))); lia).
  change (out (set_rclosed w)) with (out w) in Hex. rewrite Eo, Hy, len_app, Hx, len_app in Hlen.
  pose proof (len_nonneg x). pose proof (len_nonneg y).
  destruct (finalize_Ok c codec encode_nonempty _ w1 bs cur Hfin ltac:(unfold excess in *; lia) Hw')
    as (lg & Hlg & Hdone & Hd & Hn & Hidle & Hgr & Hst).
  injection Hst as E1 E2 E3 E4 E5 E6 E7. change (localityGroups (set_rclosed w)) with (localityGroups w) in *.
  change (opts (set_rclosed w)) with (opts w) in *. change (out (set_rclosed w)) with (out w) in *.
  destruct Hidle as [(Hc1 & Hc2 & _) Hout _ _ _ _ _ _ _].
  assert (Forall is_meta (file_ops w1 idx enc p)) as Hmeta.
  { constructor; [by vm_compute|]. apply sections_meta. by rewrite Hc2. }
  assert (above (w_n (out w1)) (out w1)) as Hab.
  { split; [done|]. intros n e. by rewrite (oi_meta _ _ Hout), lookup_empty. }
  destruct (appends_meta _ _ _ _ _ Hmeta Happ Hab) as (Hab' & _ & _ & _ & Habsent & Hent).
  assert (Forall (fun a => match a with AData _ _ => True | AMeta _ _ p _ => 0 < len p end) (file_ops w1 idx enc p)) as Hpos.
  { constructor.
    - unfold writeRFileIndexMeta in Hidx. apply bind_Ok in Hidx as (body & _ & Hb). apply (inj Ok) in Hb as <-. apply write_int32_nonempty.
    - apply (sections_payloads Marshal Unmarshal); [done|done|]. by rewrite Hc1, Hc2. }
  assert (Forall append_ok (file_ops w1 idx enc p)) as Hok.
  { apply Forall_forall. intros a Ha. rewrite !Forall_forall in Hmeta, Hent, Hpos.
    specialize (Hmeta _ Ha). specialize (Hent _ Ha). specialize (Hpos _ Ha). destruct a as [|name co q raw]; [done|].
    destruct Hmeta as (M1 & M2 & M3), Hent as (M4 & off & M5). rewrite Eo in Hfits.
    destruct (Hfits name _ (Close_keeps _ _ _ M1 M5)) as [M6 M7]. cbn in M6, M7. by split_and!. }
  assert (laid_out codec (w_dataBlocks (out w1)) [] [] (out w1)) as Hl0.
  { split; [apply Hout|apply Hout|apply Hout|by rewrite app_nil_r|constructor|]. by rewrite (oi_meta _ _ Hout), lookup_empty. }
  pose proof (appends_laid_out _ _ _ [] [] _ _ _ Hl0 Hok Happ) as Hl.
  exists w1, idx, enc, p, o, rs. split; [|split_and!; done]. split; try done.
  - rewrite E3. apply Forall2_app; [|by repeat constructor]. eapply Forall2_impl; [apply Hf|]. intros lg' z. by apply group_done_mono.
  - rewrite E3, fmap_app. cbn. rewrite <-(fi_ids _ _ _ _ _ _ Hf). unfold group_id at 2. by rewrite Hd, Hn.
  - destruct (fi_names _ _ _ _ _ _ Hf) as (? & ? & _). done.
  - intros name Hno. apply Habsent; [|done]. by rewrite (oi_meta _ _ Hout), lookup_empty.
  - by exists x.
Qed.
End done.
