(* ===== verification/RFileSafe.v ===== *)
(** * RFileSafe: the writer's internal errors cannot happen (src/internal/rfile/writer.go)

    The writer dereferences index levels that a flush may have finalized, and
    climbs them recursively.  Whatever a caller does, also after an error, no
    operation panics, runs out of levels, or reports an inconsistent cascade. *)

From S2P Require Import Prelude Wire Iter RelKey BCFile Container Index EmbeddingSpace BlockMeta Adjacency IndexFile.
From S2P Require Import Codec RFileWriter RFileBuild RFileGroup RFileClose.

(** The errors that only a broken invariant, a nil dereference, or too little
    fuel would lead to. *)
Inductive stuck : err -> Prop :=
| stuck_fuel : stuck (Fail "out of fuel")
| stuck_nil_level : stuck (Fail "panic: nil index level")
| stuck_range : stuck (Fail "panic: index level out of range")
| stuck_cascade : stuck (Fail "rfile: cascade hit nil level")
| stuck_block_key : stuck (Fail "panic: nil block key")
| stuck_root : stuck (Wrap "rfile: build locality group root index" (Fail "rfile: top level finalized; multi-level cascade bug")).

Definition tame {A} (r : result A) : Prop := match r with Ok _ => True | Err e => ~ stuck e end.

(** No level is finalized. *)
Definition live (w : Writer) : Prop := Forall is_Some (levels (grp w)).

(** The block under construction has a last key. *)
Definition keyed (w : Writer) : Prop := len (blockBuf (blk w)) = 0 \/ is_Some (blockLast (blk w)).

Lemma indexAddAtLevel_live lv e w :
  live w -> (lv <= length (levels (grp w)))%nat ->
  exists w', indexAddAtLevel lv e w = (w', Ok tt) /\ live w' /\
    length (levels (grp w')) = Nat.max (length (levels (grp w))) (S lv) /\
    (lv = length (levels (grp w)) -> exists l, levels (grp w') !! lv = Some (Some l) /\ numEntries l = 1).
Proof.
  intros Hl Hlv. rewrite indexAddAtLevel_eq. cbv zeta.
  destruct (Nat.eqb_spec lv (length (levels (grp w)))) as [->|Hne].
  - rewrite lookup_app_r, Nat.sub_diag by lia. cbn [lookup list_lookup]. eexists. split; [done|].
    unfold live. cbn [grp set_grp levels set_levels]. rewrite insert_app_r_alt, Nat.sub_diag by lia. cbn [insert list_insert]. split_and!.
    + apply Forall_app. split; [done|]. apply Forall_singleton. by eexists.
    + rewrite length_app. cbn. lia.
    + intros _. rewrite lookup_app_r, Nat.sub_diag by lia. by eexists.
  - destruct (levels (grp w) !! lv) as [[l|]|] eqn:E.
    + eexists. split; [done|]. unfold live. cbn [grp set_grp levels set_levels]. split_and!; [|rewrite length_insert; lia|done].
      apply Forall_insert; [done|by eexists].
    + eapply Forall_lookup_1 in Hl; [|exact E]. by destruct Hl.
    + apply lookup_ge_None in E. lia.
Qed.

Lemma last_insert_before {A} (l : list A) i x : (S i < length l)%nat -> last (<[i := x]> l) = last l.
Proof.
  intros Hi. rewrite !last_lookup, length_insert. apply list_lookup_insert_ne. lia.
Qed.

(** ** A small program logic *)

(** What a method ends in: [Q] of the state and the value, or [E] of the state
    and an error that is not one of the stuck ones. *)
Definition outcome {A} (Q : Writer -> A -> Prop) (E : Writer -> Prop) (x : Writer * result A) : Prop :=
  match x with (w, Ok a) => Q w a | (w, Err e) => E w /\ ~ stuck e end.

Lemma outcome_bind {A B} (m : meth A) (f : A -> meth B) w (R : Writer -> A -> Prop) (Q : Writer -> B -> Prop) (E : Writer -> Prop) :
  outcome R E (m w) -> (forall w1 a, R w1 a -> outcome Q E (f a w1)) -> outcome Q E ((m ≫= f) w).
Proof. unfold outcome, mbind, meth_bind. destruct (m w) as [w1 [a|e]]; [|done]. intros Hm Hf. by apply Hf. Qed.

Lemma outcome_weaken {A} (Q Q' : Writer -> A -> Prop) (E E' : Writer -> Prop) x :
  outcome Q E x -> (forall w a, Q w a -> Q' w a) -> (forall w, E w -> E' w) -> outcome Q' E' x.
Proof. unfold outcome. destruct x as [w [a|e]]; naive_solver. Qed.

Lemma outcome_lift {A} msg (r : result A) w (Q : Writer -> A -> Prop) (E : Writer -> Prop) :
  msg <> "rfile: build locality group root index"%string -> E w -> (forall a, Q w a) -> outcome Q E (lift (wrap msg r) w).
Proof.
  intros Hm He Hq. unfold lift, outcome. destruct r as [a|e]; cbn [wrap]; [done|]. split; [done|]. intros H. inversion H. by subst.
Qed.

(** Steps of the container change nothing else, and wrap their errors. *)
Lemma outcome_on_out {A} msg (f : Container.Writer -> Container.Writer * result A) w (Q : Writer -> A -> Prop) (E : Writer -> Prop) :
  msg <> "rfile: build locality group root index"%string -> (forall o, E (set_out o w)) -> (forall o a, Q (set_out o w) a) ->
  outcome Q E (on_out msg f w).
Proof.
  intros Hm He Hq. unfold on_out, outcome. destruct (f (out w)) as [o [a|e]]; cbn [wrap]; [done|]. split; [done|].
  intros H. inversion H. by subst.
Qed.

(** Flushing from [lv] up, with fuel for the levels above, or at a topmost
    level of one entry. *)
Lemma indexFlushLevel_live fuel lv k last_ w :
  live w -> (lv < length (levels (grp w)))%nat ->
  (length (levels (grp w)) - lv < fuel)%nat \/
  (S lv = length (levels (grp w)) /\ (0 < fuel)%nat /\ exists l, levels (grp w) !! lv = Some (Some l) /\ numEntries l = 1) ->
  outcome (fun w' _ => (length (levels (grp w)) <= length (levels (grp w')))%nat /\ (last_ = false -> live w') /\
      exists top, last (levels (grp w')) = Some (Some top)) live (indexFlushLevel fuel lv k last_ w).
Proof.
  revert lv w. induction fuel as [|fuel IH]; intros lv w Hl Hlv Hf; [lia|]. rewrite indexFlushLevel_S.
  assert (exists top, last (levels (grp w)) = Some (Some top)) as Htop.
  { destruct (last (levels (grp w))) as [x|] eqn:E; [|apply last_None in E; rewrite E in Hlv; cbn in Hlv; lia].
    rewrite last_lookup in E. destruct (Forall_lookup_1 _ _ _ _ Hl E) as [top ->]. by exists top. }
  destruct (last_ && _) eqn:Et; [split_and!; done|].
  destruct (lookup_lt_is_Some_2 _ _ Hlv) as [x Hx]. destruct (Forall_lookup_1 _ _ _ _ Hl Hx) as [lvl ->].
  rewrite Hx. destruct (negb _ && negb last_) eqn:Eo; [split_and!; done|]. destruct (numEntries lvl =? 0) eqn:Ez; [split_and!; done|].
  assert (length (levels (grp w)) - lv < S fuel)%nat as Hfuel.
  { destruct Hf as [Hf|(Hone & _ & l & Hl1 & Hl2)]; [done|]. rewrite Hl1 in Hx. injection Hx as ->. rewrite Hl2 in Eo. exfalso.
    rewrite andb_false_r in Eo. cbn [negb andb] in Eo. destruct last_; [|done]. cbn [andb] in Et. unfold len in Et. lia. }
  eapply (outcome_bind _ _ _ (fun w' _ => w' = w)); [by apply outcome_lift|]. intros w0 cmp ->.
  eapply (outcome_bind _ _ _ (fun w' _ => grp w' = grp w)); [by apply outcome_on_out|]. intros w1 region Eg. unfold flush_parent.
  eapply (outcome_bind _ _ _ (fun w' _ => live w' /\ length (levels (grp w')) = Nat.max (length (levels (grp w))) (S (S lv)) /\
    (S lv = length (levels (grp w)) -> exists l, levels (grp w') !! (S lv) = Some (Some l) /\ numEntries l = 1))).
  { destruct (indexAddAtLevel_live (S lv) (mkIndexEntry k 0 (Offset region) (CompressedSize region) (RawSize region)) w1)
      as (w2 & -> & H1 & H2 & H3); [unfold live in *; by rewrite Eg|rewrite Eg; lia|]. by rewrite Eg in H2, H3. }
  intros w2 [] (Hl2 & Hlen2 & Hnew).
  eapply outcome_bind.
  { apply (IH (S lv) w2 Hl2 ltac:(lia)). destruct (decide (S lv = length (levels (grp w)))) as [E|E]; [right|left; lia].
    split; [lia|]. split; [lia|]. by apply Hnew. }
  intros w3 [] (Hlen3 & Hlive3 & Htop3).
  eapply (outcome_bind _ _ _ (fun w' a => w' = w3 /\ a = w3)); [done|]. intros w4 w5 [-> ->].
  cbn [outcome modify grp set_grp levels set_levels]. split; [rewrite length_insert; lia|]. split.
  - intros ->. apply Forall_insert; [by apply Hlive3|by eexists].
  - by rewrite last_insert_before by lia.
Qed.

(** ** The methods *)

Lemma outcome_get w (E : Writer -> Prop) : outcome (fun w' a => w' = w /\ a = w) E (get w).
Proof. done. Qed.

(** [w ← get; f w]. *)
Lemma outcome_read {B} (f : Writer -> meth B) w (Q : Writer -> B -> Prop) (E : Writer -> Prop) :
  outcome Q E (f w w) -> outcome Q E ((w ← get; f w) w).
Proof. done. Qed.

Lemma indexAdd_live leaf last_ w :
  live w ->
  outcome (fun w' _ => (last_ = false -> live w') /\ exists top, last (levels (grp w')) = Some (Some top)) live (indexAdd leaf last_ w).
Proof.
  intros Hl. unfold indexAdd. eapply (outcome_bind _ _ _ (fun w' _ => live w')); [done|]. intros w1 [] Hl1.
  eapply (outcome_bind _ _ _ (fun w' _ => live w' /\ (0 < length (levels (grp w')))%nat)).
  { destruct (indexAddAtLevel_live 0 leaf w1 Hl1 ltac:(lia)) as (w2 & -> & H1 & H2 & _). split; [done|lia]. }
  intros w2 [] [Hl2 Hlen]. apply outcome_read.
  eapply outcome_weaken; [apply indexFlushLevel_live; [done|lia|left; lia]|by intros w3 [] (_ & H)|done].
Qed.

Lemma flushDataBlock_live w : live w -> keyed w -> outcome (fun w' _ => live w') live (flushDataBlock w).
Proof.
  intros Hl Hk. unfold flushDataBlock. apply outcome_read. destruct (Z.eqb_spec (len (blockBuf (blk w))) 0) as [E|E]; [done|].
  destruct Hk as [Hk|[key Hk]]; [done|]. cbv zeta.
  eapply (outcome_bind _ _ _ (fun w' _ => w' = w)); [by apply outcome_lift|]. intros w1 cmp ->.
  eapply (outcome_bind _ _ _ (fun w' _ => live w')); [by apply outcome_on_out|]. intros w1 region Hl1. rewrite Hk.
  eapply (outcome_bind _ _ _ (fun w' _ => live w')); [by destruct (bmBuilders w)|]. intros w2 [] Hl2.
  eapply (outcome_bind _ _ _ (fun w' _ => live w')).
  { destruct (pendingLeaf (grp w)) as [p|]; [|done]. eapply outcome_weaken; [by apply indexAdd_live| |done].
    intros w3 [] [H _]. by apply H. }
  intros w3 [] Hl3. done.
Qed.

Lemma quiet_keyed w w' : quiet w w' -> keyed w -> keyed w'.
Proof. intros (_ & _ & _ & _ & _ & [E|E]) Hk; unfold keyed; rewrite E; [done|by left]. Qed.

Definition ready (w : Writer) : Prop := live w /\ keyed w.

(** A step of the index machinery that ends live also ends keyed. *)
Lemma outcome_ready {A} (m : meth A) w :
  Steps m -> keyed w -> outcome (fun w' _ => live w') live (m w) -> outcome (fun w' _ => ready w') ready (m w).
Proof.
  intros Hs Hk H. pose proof (quiet_keyed _ _ (Hs w) Hk) as Hk'. unfold outcome in *. destruct (m w) as [w' [a|e]]; cbn [fst] in Hk'.
  - by split.
  - destruct H. split; [by split|done].
Qed.

Lemma add_cell_ready k v w : live w -> ready (add_cell k v w).
Proof.
  intros Hl. unfold add_cell, ready, live, keyed. cbv zeta.
  repeat case_match; (split; [exact Hl|right; by eexists]).
Qed.

Lemma not_stuck_fail msg :
  msg ∉ ["out of fuel"; "panic: nil index level"; "panic: index level out of range"; "rfile: cascade hit nil level"; "panic: nil block key"]%string ->
  ~ stuck (Fail msg).
Proof. intros Hm Hs. inversion Hs; subst; apply Hm; set_solver. Qed.

Ltac unstuck := first [apply not_stuck_fail; apply (bool_decide_unpack _); vm_compute; exact I | intros Hstuck; inversion Hstuck].

Lemma Append_ready k v w : ready w -> outcome (fun w' _ => ready w') ready (Append k v w).
Proof.
  intros Hr. pose proof Hr as [Hl Hk]. unfold Append. apply outcome_read. destruct (closed w); [split; [done|unstuck]|].
  destruct k as [k|]; [|split; [done|unstuck]].
  eapply (outcome_bind _ _ _ (fun w' _ => ready w')).
  2:{ intros w1 [] [Hl1 _]. by apply add_cell_ready. }
  destruct (lastKey (grp w)) as [l|]; [|done]. cbv zeta. destruct (is_lt _); [split; [done|unstuck]|].
  destruct (_ || _); [|done]. apply outcome_ready; [apply Steps_flushDataBlock|done|by apply flushDataBlock_live].
Qed.

Lemma finalize_live w : live w -> keyed w -> outcome (fun w' _ => live w') live (finalizeCurrentLocalityGroup w).
Proof.
  intros Hl Hk. unfold finalizeCurrentLocalityGroup.
  eapply (outcome_bind _ _ _ (fun w' _ => live w')); [by apply flushDataBlock_live|]. intros w1 [] Hl1. apply outcome_read.
  eapply (outcome_bind _ _ _ (fun w' _ => levels (grp w') = [] \/ exists top, last (levels (grp w')) = Some (Some top))).
  { destruct (pendingLeaf (grp w1)) as [p|].
    - eapply outcome_bind; [by apply indexAdd_live|]. intros w2 [] [_ Ht]. by right.
    - cbn. destruct (last (levels (grp w1))) as [x|] eqn:E; [|left; by apply last_None in E]. right.
      rewrite last_lookup in E. destruct (Forall_lookup_1 _ _ _ _ Hl1 E) as [top ->]. by exists top. }
  intros w2 [] Ht. apply outcome_read.
  assert (exists root, buildRoot w2 = Ok root) as [root ->].
  { unfold buildRoot. destruct Ht as [E|[top E]].
    - rewrite E. by eexists.
    - rewrite E. by eexists. }
  cbn. by apply Forall_nil.
Qed.

Lemma AddLocalityGroup_ready name w : ready w -> outcome (fun w' _ => ready w') ready (AddLocalityGroup name w).
Proof.
  intros Hr. pose proof Hr as [Hl Hk]. unfold AddLocalityGroup. apply outcome_read. destruct (closed w); [split; [done|unstuck]|].
  case_bool_decide; [split; [done|unstuck]|]. case_bool_decide; [split; [done|unstuck]|].
  eapply (outcome_bind _ _ _ (fun w' _ => ready w')); [|done].
  apply outcome_ready; [apply Steps_finalize|done|by apply finalize_live].
Qed.

Lemma Close_ready order Marshal w : ready w -> outcome (fun w' _ => ready w') ready (Close order Marshal w).
Proof.
  intros Hr. unfold Close. apply outcome_read. destruct (closed w); [done|].
  eapply (outcome_bind _ _ _ (fun w' _ => ready w')); [done|]. intros w1 [] [Hl1 Hk1].
  eapply (outcome_bind _ _ _ (fun w' _ => ready w')).
  { apply outcome_ready; [apply Steps_finalize|done|by apply finalize_live]. }
  intros w2 [] Hr2. apply outcome_read.
  eapply (outcome_bind _ _ _ (fun w' _ => ready w')); [by apply outcome_lift|]. intros w3 idx Hr3.
  eapply (outcome_bind _ _ _ (fun w' _ => ready w')); [by apply outcome_on_out|]. intros w4 r4 Hr4.
  eapply (outcome_bind _ _ _ (fun w' _ => ready w')).
  { unfold close_blockmeta. apply outcome_read. destruct (bmBuilders w4); [done|]. cbv zeta.
    eapply (outcome_bind _ _ _ (fun w' _ => ready w')); [by apply outcome_on_out|done]. }
  intros w5 [] Hr5. eapply (outcome_bind _ _ _ (fun w' _ => ready w')).
  { unfold close_embedding. apply outcome_read. case_bool_decide; [done|].
    eapply (outcome_bind _ _ _ (fun w' _ => ready w')); [by apply outcome_lift|]. intros w6 enc Hr6.
    eapply (outcome_bind _ _ _ (fun w' _ => ready w')); [by apply outcome_on_out|done]. }
  intros w6 [] Hr6. eapply (outcome_bind _ _ _ (fun w' _ => ready w')).
  { unfold close_adjacency. apply outcome_read. destruct (adjBuilder w6) as [a|]; [|done]. destruct (Build a) as [a' ix].
    eapply (outcome_bind _ _ _ (fun w' _ => ready w')); [done|]. intros w7 [] Hr7. destruct ix as [ix|]; [|done]. cbv zeta.
    eapply (outcome_bind _ _ _ (fun w' _ => ready w')); [by apply outcome_lift|]. intros w8 p Hr8.
    eapply (outcome_bind _ _ _ (fun w' _ => ready w')); [by apply outcome_on_out|done]. }
  intros w7 [] Hr7. by apply outcome_on_out.
Qed.

(** ** A client of the writer *)

Inductive writer_op := WAppend (k : option Key) (v : bytes) | WGroup (name : bytes) | WClose.

Section client.
Context (order : gmap bytes Z -> list (bytes * Z)) (Marshal : FileState -> result bytes).

Definition exec_writer (op : writer_op) : meth unit :=
  match op with
  | WAppend k v => Append k v
  | WGroup name => AddLocalityGroup name
  | WClose => Close order Marshal
  end.

(** All the operations, whatever they return. *)
Fixpoint run_writer (ops : list writer_op) (w : Writer) : list (result unit) :=
  match ops with [] => [] | op :: ops => let '(w, r) := exec_writer op w in r :: run_writer ops w end.
End client.

(** C14: the writer's methods are total.  On a new writer, any sequence of
    appends (of any keys, nil or out of order, and any values), new groups
    and closes, continued after errors, never dereferences a finalized index
    level, indexes a level out of range, loses the key of a block, finds an
    inconsistent cascade, or climbs more levels than there are; every error is
    one the caller or the encoder caused. *)
Theorem writer_never_panics L order Marshal o w ops :
  NewWriter L o = Ok w -> Forall tame (run_writer order Marshal ops w).
Proof.
  intros Hn. assert (ready w) as Hr.
  { unfold NewWriter in Hn. destruct (negb _); [done|]. apply (inj Ok) in Hn as <-. split; [by apply Forall_nil|by left]. }
  clear Hn. revert w Hr. induction ops as [|op ops IH]; intros w Hr; cbn [run_writer]; [constructor|].
  assert (outcome (fun w' _ => ready w') ready (exec_writer order Marshal op w)) as H.
  { destruct op; [by apply Append_ready|by apply AddLocalityGroup_ready|by apply Close_ready]. }
  unfold outcome in H. destruct (exec_writer order Marshal op w) as [w' [[]|e]].
  - constructor; [done|by apply IH].
  - destruct H as [Hr' He]. constructor; [exact He|by apply IH].
Qed.

(** Appends out of order and of a nil key, a repeated group name, a second
    close, an append after it. *)
Definition rough_ops : list writer_op :=
  let k r := mkKey [r] [1] [] [] 0 false in
  [WAppend (Some (k 1)) [1; 2; 3]; WAppend (Some (k 2)) []; WAppend (Some (k 1)) []; WAppend None []; WGroup []; WGroup [7];
   WGroup [7]; WAppend (Some (k 1)) []; WClose; WClose; WAppend (Some (k 3)) []].

Lemma writer_never_panics_witness :
  exists w, NewWriter demo_libraries (mkOptions [] 5 8 None [] [1] zero_state) = Ok w /\
    Forall tame (run_writer map_to_list (fun s => Ok (State s)) rough_ops w) /\
    (fun r => match r with Ok _ => true | Err _ => false end) <$> run_writer map_to_list (fun s => Ok (State s)) rough_ops w =
      [true; true; false; false; false; true; false; true; true; true; false].
Proof.
  eexists. split; [reflexivity|]. split; [|vm_compute; reflexivity].
  apply (writer_never_panics demo_libraries map_to_list (fun s => Ok (State s)) (mkOptions [] 5 8 None [] [1] zero_state)). reflexivity.
Defined.
