(* ===== verification/RFile.v ===== *)
(** * RFile: a written file is read back (src/internal/rfile)

    A file the writer closed opens in the reader: its container, its directory
    and side sections, and one cursor per locality group whose seeks deliver
    the group's cells.  The theorems compose every layer of the format. *)

From S2P Require Import Prelude GoStd Wire Iter RelKey BCFile Container Index Utf8 EmbeddingSpace BlockMeta Adjacency IndexFile.
From S2P Require Import Codec RFileWriter IndexTree RFileBuild RFileGroup RFileClose RFileReader RFileScan.

(** ** Inputs a file can hold *)

Definition families (cells : list Cell) : gset bytes := list_to_set ((fun c : Cell => ColumnFamily c.1) <$> cells).

(** No family belongs to two groups. *)
Fixpoint disjoint_groups (Gs : list (list Cell)) : Prop :=
  match Gs with
  | [] => True
  | G :: Gs => Forall (fun G' => families G ## families G') Gs /\ disjoint_groups Gs
  end.

(** What the reader's limits ask of the groups: small keys, at most 65536
    families each, fewer than 2^31 cells, 4096 groups, families apart. *)
Record groups_ok (Gs : list (list Cell)) : Prop := {
  go_cells : Forall (Forall cell_small) Gs;
  go_families : Forall (fun G => Z.of_nat (base.size (families G)) <= maxColumnFamilies) Gs;
  go_count : len (concat Gs) < 2 ^ 31;
  go_groups : len Gs <= maxLocalityGroups;
  go_disjoint : disjoint_groups Gs;
}.

(** ** Family tables *)

Lemma dom_family_counts cells : dom (family_counts cells) = families cells.
Proof.
  induction cells as [|[k v] cells IH] using rev_ind; [apply dom_empty_L|].
  rewrite family_counts_snoc. unfold count_cf, families. rewrite dom_insert_L, IH, fmap_app, list_to_set_app_L. cbn.
  rewrite (right_id_L ∅ (∪)). apply (comm_L (∪)).
Qed.

Lemma family_counts_bounds cells cf n :
  len cells < 2 ^ 31 -> family_counts cells !! cf = Some n -> 0 <= n <= len cells.
Proof.
  revert n. induction cells as [|[k v] cells IH] using rev_ind; intros n Hl H; [unfold family_counts in H; cbn in H; by apply lookup_empty_Some in H|].
  rewrite len_app in *. change (len [(k, v)]) with 1 in *. rewrite family_counts_snoc in H. unfold count_cf in H.
  apply lookup_insert_Some in H as [[<- <-]|[_ H]]; [|specialize (IH n ltac:(lia) H); lia].
  assert (0 <= default 0 (family_counts cells !! ColumnFamily k) <= len cells) as Hd.
  { destruct (family_counts cells !! ColumnFamily k) as [m|]; [apply IH; [lia|done]|]. cbn. pose proof (len_nonneg cells). lia. }
  rewrite int64_id by (unfold in_int64; lia). lia.
Qed.

Lemma elem_of_families cf cells : cf ∈ families cells <-> exists c : Cell, c ∈ cells /\ ColumnFamily c.1 = cf.
Proof. unfold families. rewrite elem_of_list_to_set, list_elem_of_fmap. naive_solver. Qed.

Lemma family_table_ok cells :
  Forall cell_small cells -> len cells < 2 ^ 31 -> Z.of_nat (base.size (families cells)) <= maxColumnFamilies ->
  families_ok (family_counts cells).
Proof.
  intros Hc Hl Hs. split.
  - rewrite <-dom_family_counts in Hs. by rewrite size_dom in Hs.
  - intros cf n Hn. pose proof (family_counts_bounds _ _ _ Hl Hn) as Hb. split; [|lia].
    assert (cf ∈ families cells) as (d & Hd & <-)%elem_of_families by (rewrite <-dom_family_counts; by apply elem_of_dom_2 in Hn).
    rewrite Forall_forall in Hc. destruct (Hc d Hd) as [[_ Hk] _]. unfold key_len in Hk. change maxIndexDataBytes with 67108864.
    change (2 ^ 21) with 2097152 in Hk.
    pose proof (len_nonneg (Row d.1)). pose proof (len_nonneg (ColumnQualifier d.1)). pose proof (len_nonneg (ColumnVisibility d.1)). lia.
Qed.

(** ** A recorded group's directory entry *)

Lemma leaf_ends_sorted ls bs : leaf_ends ls bs -> sorted_cells (concat bs) -> StronglySorted key_le (keys ls).
Proof.
  induction 1 as [|l B ls bs (B0 & v & ->) H IH]; intros Hs; [constructor|]. cbn [concat keys] in *. unfold keys in *. rewrite fmap_cons.
  apply sorted_cells_app in Hs as (_ & Hs & Hle). constructor; [by apply IH|].
  apply Forall_forall. intros k (e & -> & He)%list_elem_of_fmap. apply list_elem_of_lookup in He as [j Hj].
  destruct (Forall2_lookup_l _ _ _ _ _ H Hj) as (B1 & HB1 & B2 & v2 & E).
  apply (Hle (ie_Key l, v) (ie_Key e, v2)); [set_solver|]. apply elem_of_concat. exists B1. rewrite E at 1.
  split; [set_solver|]. by eapply list_elem_of_lookup_2.
Qed.

Section group.
Context (c : Compressor) (codec : bytes) (o : Container.Writer).

(** What [group_done] says of the group's leaves and blocks. *)
Lemma group_leaves lg cells :
  group_done c codec o lg cells -> len cells < 2 ^ 31 ->
  exists bs n off es Ls Vs,
    concat bs = cells /\ Forall2 (leaf_in c codec o) (concat Ls) bs /\
    RootIndex lg = block_of (Z.of_nat n) off false es /\ Forall3 (subtree (Stored c codec o) n) es Ls Vs /\
    block_ok (Z.of_nat n) off es /\ (n <= 63)%nat /\ may_walk (mkState ∅ None []) (concat Ls) (concat Vs) /\
    leaf_ends (concat Ls) bs /\ Forall2 (fun l B => NumEntries l = len B) (concat Ls) bs /\
    len (concat Ls) <= len cells /\ NumTotalEntries lg = len (concat Ls).
Proof.
  intros (bs & n & off & es & Ls & Vs & Hbs & Hleaves & Hroot & Hfo & Hsz & Hn & Hnd & Hsort & Hcells & _ & _ & _ & Htot & _) Hlen.
  assert (Forall (fun B : list Cell => B <> [] /\ len B <= len cells) bs) as HB.
  { apply Forall_forall. intros B Hin. pose proof Hin as (j & Hj)%list_elem_of_lookup.
    destruct (Forall2_lookup_r _ _ _ _ _ Hleaves Hj) as (l & _ & _ & _ & (B0 & v & ->) & _). split; [by destruct B0|].
    apply list_elem_of_split in Hin as (b1 & b2 & ->). rewrite <-Hbs, concat_app. cbn [concat]. rewrite !len_app.
    pose proof (len_nonneg (concat b1)). pose proof (len_nonneg (concat b2)). lia. }
  assert (Forall2 (fun l B => NumEntries l = len B) (concat Ls) bs) as Hnum.
  { apply Forall2_same_length_lookup_2; [by eapply Forall2_length|]. intros j l B Hl HBj.
    destruct (Forall2_lookup_lr _ _ _ _ _ _ Hleaves Hl HBj) as (_ & -> & _). apply int32_id.
    eapply Forall_lookup_1 in HB as [_ HB]; [|exact HBj]. pose proof (len_nonneg B). unfold in_int32. lia. }
  assert (leaf_ends (concat Ls) bs) as Hends by (eapply Forall2_impl; [exact Hleaves|]; by intros l B (_ & _ & H & _)).
  assert (len (concat Ls) <= len cells) as Hcount.
  { pose proof (Forall2_length _ _ _ Hleaves) as El. unfold len at 1. rewrite El, <-Hbs. clear -HB.
    induction HB as [|B bs [HB _] _ IH]; [done|]. cbn [concat length]. rewrite len_app.
    destruct B as [|x B]; [done|]. rewrite len_cons. pose proof (len_nonneg B). lia. }
  exists bs, n, off, es, Ls, Vs. unfold may_walk. split_and!; try done.
  - apply Hfo.
  - apply block_ok_small; [lia|apply Hfo|apply Hfo|done].
  - rewrite <-Hbs in Hsort. by eapply leaf_ends_sorted.
  - apply Forall_forall. intros l (j & Hj)%list_elem_of_lookup. destruct (Forall2_lookup_l _ _ _ _ _ Hnum Hj) as (B & HBj & ->).
    eapply Forall_lookup_1 in HB as [HB _]; [|exact HBj]. destruct B as [|x B]; [done|]. rewrite len_cons. pose proof (len_nonneg B). lia.
  - rewrite Htot. apply int32_id. pose proof (len_nonneg (concat Ls)). unfold in_int32. lia.
Qed.
End group.

(** ** The directory *)

Section directory.
Context (order : gmap bytes Z -> list (bytes * Z)) (Horder : order_ok order).

Definition lg_fine (lg : LocalityGroup) : Prop := exists level offset hn es, lg_ok lg level offset hn es.

Lemma WriteLocalityGroup_nonempty lg bs : WriteLocalityGroup order lg V8 = Ok bs -> 1 <= len bs.
Proof.
  unfold WriteLocalityGroup. intros (name & _ & H)%bind_Ok. apply (inj Ok) in H as <-. rewrite len_app.
  assert (len (WriteBool (IsDefault lg)) = 1) as -> by (by destruct (IsDefault lg)).
  match goal with |- context [1 + len ?x] => pose proof (len_nonneg x) end. lia.
Qed.

Lemma reads_groups lgs body :
  Forall lg_fine lgs -> write_groups order lgs = Ok body ->
  reads (read_n (rwrap "RFile.index group" (ReadLocalityGroup V8)) (length lgs)) body lgs /\ len lgs <= len body.
Proof.
  intros Hf. revert body. induction Hf as [|lg lgs (level & offset & hn & es & Hok) Hf IH]; intros body H.
  { injection H as <-. split; [apply reads_ret|done]. }
  cbn [write_groups] in H. apply bind_Ok in H as (b & Hb & H). apply bind_Ok in H as (bs & Hbs & H). apply (inj Ok) in H as <-.
  destruct (IH bs Hbs) as [H1 H2]. split.
  - cbn [length read_n]. eapply reads_bind; [by eapply reads_wrap, reads_LocalityGroup|]. apply reads_app_nil.
    eapply reads_bind; [exact H1|apply reads_ret].
  - rewrite len_app, len_cons. apply WriteLocalityGroup_nonempty in Hb. lia.
Qed.

Lemma Parse_index lgs idx :
  Forall lg_fine lgs -> len lgs <= maxLocalityGroups -> writeRFileIndexMeta order lgs = Ok idx ->
  Parse idx = Ok (IndexFile.mkReader V8 lgs [] None None).
Proof.
  intros Hf Hn H. unfold writeRFileIndexMeta in H. apply bind_Ok in H as (body & Hb & H). apply (inj Ok) in H as <-.
  destruct (reads_groups lgs body Hf Hb) as [Hr Hl]. change maxLocalityGroups with 4096 in Hn. pose proof (len_nonneg lgs).
  destruct (len_int32 lgs ltac:(lia)) as [-> Hin]. unfold Parse, parse_raw.
  erewrite read_bind by (apply reads_wrap, parses_reads, parses_ReadInt32; by vm_compute).
  replace (negb (RIndexMagic =? RIndexMagic)) with false by reflexivity.
  erewrite read_bind by (apply reads_wrap, parses_reads, parses_ReadInt32; by vm_compute).
  replace (negb (IsSupportedVersion V8)) with false by reflexivity.
  erewrite read_bind by (apply reads_wrap, parses_reads, parses_ReadInt32; done).
  replace (len lgs <? 0) with false by lia.
  erewrite read_bind.
  2:{ apply validateDecodedCount_ok; change maxLocalityGroups with 4096; [lia|..]; rewrite ?len_app;
      repeat match goal with |- context [len (WriteBool ?x)] => change (len (WriteBool x)) with 1 end; pose proof (len_nonneg body); lia. }
  replace (Z.to_nat (len lgs)) with (length lgs) by (unfold len; lia).
  erewrite read_bind by apply Hr. reflexivity.
Qed.
End directory.

Section checks.
Context (c : Compressor) (codec : bytes) (o : Container.Writer).
Context (order : gmap bytes Z -> list (bytes * Z)).

(** The groups' cells within the limits, as each group sees them. *)
Definition group_small (G : list Cell) : Prop :=
  Forall cell_small G /\ len G < 2 ^ 31 /\ Z.of_nat (base.size (families G)) <= maxColumnFamilies.

Lemma concat_len_elem {A} (Gs : list (list A)) G : G ∈ Gs -> len G <= len (concat Gs).
Proof.
  intros (b1 & b2 & ->)%list_elem_of_split. rewrite concat_app. cbn [concat]. rewrite !len_app.
  pose proof (len_nonneg (concat b1)). pose proof (len_nonneg (concat b2)). lia.
Qed.

Lemma groups_ok_small Gs : groups_ok Gs -> Forall group_small Gs.
Proof.
  intros [H1 H2 H3 _ _]. apply Forall_forall. intros G HG. rewrite Forall_forall in H1, H2. pose proof (concat_len_elem Gs G HG).
  split_and!; [by apply H1|lia|by apply H2].
Qed.

Lemma group_fine lg cells bs :
  group_done c codec o lg cells -> group_small cells -> (IsDefault lg = true -> lg_Name lg = []) ->
  WriteLocalityGroup order lg V8 = Ok bs -> lg_fine lg.
Proof.
  intros Hg (Hc & Hl & Hf) Hname Hw.
  destruct (group_leaves c codec o lg cells Hg Hl) as (B & n & off & es & Ls & Vs & _ & _ & Hroot & _ & Hblock & _ & _ & _ & _ & Hcnt & Htot).
  destruct Hg as (_ & _ & _ & _ & _ & _ & _ & _ & _ & _ & _ & _ & _ & _ & _ & Hsb & Hcf & Hfk & _).
  exists (Z.of_nat n), off, false, es. pose proof (len_nonneg (concat Ls)). split_and!; try done; try lia.
  - destruct (IsDefault lg) eqn:Ed; [by apply Hname|]. unfold WriteLocalityGroup in Hw. rewrite Ed in Hw. cbn [negb] in Hw.
    apply bind_Ok in Hw as (nm & Hnm & _). unfold WriteUTF in Hnm. destruct (Z.gtb_spec (len (lg_Name lg)) 65535); [done|]. lia.
  - rewrite Hcf. by apply family_table_ok.
  - rewrite Hfk. destruct cells as [|d cells]; [done|]. apply Forall_cons in Hc as [[Hc _] _]. cbn. by apply key_small_ok.
Qed.

Lemma write_groups_each lgs body :
  write_groups order lgs = Ok body -> Forall (fun lg => exists bs, WriteLocalityGroup order lg V8 = Ok bs) lgs.
Proof.
  revert body. induction lgs as [|lg lgs IH]; intros body H; [constructor|]. cbn [write_groups] in H.
  apply bind_Ok in H as (b & Hb & H). apply bind_Ok in H as (bs & Hbs & _). constructor; [by exists b|by eapply IH].
Qed.

(** The root of a recorded group passes the reader's checks. *)
Lemma root_valid lg cells :
  group_done c codec o lg cells -> len cells < 2 ^ 31 ->
  ValidateBlock (Some (RootIndex lg)) = None /\
  Bool.eqb (Z.of_nat (block_Len (RootIndex lg)) =? 0) (NumTotalEntries lg =? 0) = true /\
  (block_Len (RootIndex lg) = 0%nat <-> cells = []).
Proof.
  intros Hg Hl.
  destruct (group_leaves c codec o lg cells Hg Hl)
    as (B & n & off & es & Ls & Vs & HB & Hleaves & -> & Hsub & Hblock & Hn & Hw & Hends & _ & _ & Htot).
  destruct Hw as (Hs & Hpos & _). destruct (subtrees_sorted _ _ _ _ _ Hsub Hs) as [Hes _].
  assert (es = [] <-> concat Ls = []) as Hnil.
  { destruct Hsub as [|e L V es Ls Vs He _]; [done|]. split; [done|]. cbn. intros [HL _]%app_nil. by apply subtree_nonempty in He. }
  assert (block_Len (block_of (Z.of_nat n) off false es) = length es) as Hbl by apply offsets_from_length.
  split_and!.
  - unfold ValidateBlock, validateRootLevel. cbn [block_of Level]. change maxTraversalDepth with 64.
    replace (Z.of_nat n <? 0) with false by lia. replace (Z.of_nat n >? 64) with false by lia. fold (block_of (Z.of_nat n) off false es).
    rewrite (validateBlockEntries_pass _ es); [done|cbn; lia|apply block_of_decoded, Hblock|done|].
    cbn. intros E. assert (n = O) as -> by lia. clear -Hsub Hpos. induction Hsub as [|e L V es Ls Vs [-> _] H IH]; [constructor|].
    cbn in Hpos. apply Forall_cons in Hpos as [Hp Hpos]. constructor; [done|by apply IH].
  - rewrite Hbl, Htot. apply Bool.eqb_true_iff. destruct es as [|e es], (concat Ls) as [|l L]; try done.
    + destruct Hnil as [Hnil _]. by specialize (Hnil eq_refl).
    + destruct Hnil as [_ Hnil]. by specialize (Hnil eq_refl).
  - rewrite Hbl. transitivity (es = []); [by destruct es|]. rewrite Hnil. clear -Hends HB.
    rewrite <-HB. destruct Hends as [|l b ls bs (B0 & v & ->) H]; [done|]. split; [done|]. cbn. by destruct B0.
Qed.

Lemma check_named lgs Gs names n named fams :
  Forall2 (group_done c codec o) lgs Gs -> Forall group_small Gs -> (group_id <$> lgs) = ((false,.) <$> names) ->
  NoDup names -> ([] ∉ names) -> (forall x, x ∈ names -> x ∉ named) ->
  disjoint_groups Gs -> Forall (fun G => families G ## fams) Gs ->
  check_groups lgs n named fams = Ok n.
Proof.
  intros Hg. revert names named fams. induction Hg as [|lg G lgs Gs Hlg Hg IH]; intros names named fams Hs Hid Hnd Hnil Hnew Hdis Hf; [done|].
  destruct names as [|name names]; [done|]. injection Hid as Hdef Hname Hid. apply NoDup_cons in Hnd as [Hn Hnd].
  apply not_elem_of_cons in Hnil as [Hne Hnil]. apply Forall_cons in Hs as [(_ & Hl & _) Hs].
  destruct Hdis as [Hd1 Hdis]. apply Forall_cons in Hf as [Hf1 Hf]. cbn [check_groups].
  rewrite Hdef, Hname, (bool_decide_eq_false_2 (name = [])) by done.
  rewrite (bool_decide_eq_false_2 (name ∈ named)) by (apply Hnew; by left). cbn [mbind result_bind].
  destruct (root_valid lg G Hlg Hl) as (-> & -> & _).
  destruct Hlg as (_ & _ & _ & _ & _ & _ & _ & _ & _ & _ & _ & _ & _ & _ & _ & _ & -> & _).
  rewrite dom_family_counts, bool_decide_eq_true_2 by done. cbn [negb].
  apply (IH names); try done; [set_solver|]. rewrite Forall_forall in *. intros G' HG'. apply disjoint_union_r.
  split; [apply symmetry, Hd1, HG'|by apply Hf].
Qed.

Lemma readable_index lgs Gs names :
  Forall2 (group_done c codec o) lgs Gs -> groups_ok Gs -> (group_id <$> lgs) = file_ids names ->
  NoDup names -> ([] ∉ names) -> validateReadableIndex (IndexFile.mkReader V8 lgs [] None None) = None.
Proof.
  intros Hg Hok Hid Hnd Hnil. pose proof (groups_ok_small _ Hok) as Hs. unfold validateReadableIndex.
  cbn [VectorExtension SampleGroups Sampler Groups]. change (negb (len [] =? 0) || false) with false.
  pose proof (go_disjoint _ Hok) as Hdis. destruct Hg as [|lg G lgs Gs Hlg Hg]; [done|]. injection Hid as Hdef Hname Hid.
  apply Forall_cons in Hs as [(_ & Hl & _) Hs]. destruct Hdis as [Hd1 Hdis]. cbn [check_groups].
  rewrite Hdef, Hname, bool_decide_eq_true_2 by done. cbn [negb mbind result_bind].
  destruct (root_valid lg G Hlg Hl) as (-> & -> & _). pose proof Hlg as Hlg'.
  destruct Hlg as (_ & _ & _ & _ & _ & _ & _ & _ & _ & _ & _ & _ & _ & _ & _ & _ & -> & _).
  rewrite dom_family_counts, bool_decide_eq_true_2 by set_solver. cbn [negb mbind result_bind].
  rewrite (check_named lgs Gs names); try done.
  rewrite Forall_forall in *. intros G' HG'. rewrite (right_id_L ∅ (∪)). by apply symmetry, Hd1.
Qed.
End checks.

(** ** Fetching from the finished file *)

Section opened.
Context (c : Compressor) (codec : bytes) (dec : Decompressor) `{!CodecAgrees c dec codec}.
Hypothesis dec_none : (dec !! CodecNone : option CodecFunc) = Some decompressNone.
Context (order : gmap bytes Z -> list (bytes * Z)) (Marshal : FileState -> result bytes) (Unmarshal : bytes -> result FileState).
Hypothesis Horder : order_ok order.
Hypothesis Hjson : json_ok Marshal Unmarshal.

(** A closed file, its bytes served by [sr]. *)
Context (w1 : Writer) (Gs : list (list Cell)) (names : list bytes) (idx : bytes) (enc : option bytes) (p : bytes)
  (o : Container.Writer) (rs : list BlockRegion).
Hypothesis Hfin : finished c codec order Marshal w1 Gs names idx enc p o rs.
Hypothesis Hgroups : groups_ok Gs.
Hypothesis Hcodec : short codec.
Abbreviation file := (Container.Close o).1.
Hypothesis Hlimits : within_limits file.
Context (sr : ReaderAt) `{!Serves sr (w_out file)}.

Context (f : Footer).
Hypothesis Hfooter : OffsetIndexMeta f = w_n (closing o).
(** The opened container, and its data index. *)
Abbreviation bc := (Container.mkReader sr (len (w_out file)) f (w_metaIndex (closing o))).
Hypothesis Hdata : exists e di, MetaBlockEntry bc DataIndexBlockName = Ok e /\ CompressionAlgo e = CodecNone /\
  BCFile.RawSize (Region e) = len di /\ holds (w_out (closing o)) (Region e) di /\ len di <= MaxCompressedBlockSize /\
  ReadDataIndex di = Ok (mkDataIndex codec (w_dataBlocks (out w1)), []).

Lemma file_bytes : w_out file = w_out (closing o) ++ suffix (w_metaIndex (closing o)) (w_n (closing o)).
Proof.
  pose proof (fin_laid _ _ _ _ _ _ _ _ _ _ _ _ Hfin) as Hl.
  apply (Close_open o (lo_open _ _ _ _ _ Hl) (lo_inv _ _ _ _ _ Hl)).
Qed.

Lemma held_in_file r q : holds (w_out o) r q -> holds (w_out (closing o)) r q.
Proof. intros H. cbn. by apply holds_app. Qed.

Lemma stored_in_file r q : holds (w_out (out w1)) r q -> holds (w_out (closing o)) r q.
Proof. intros H. apply held_in_file. destruct (fin_bytes _ _ _ _ _ _ _ _ _ _ _ _ Hfin) as [x ->]. by apply holds_app. Qed.

Lemma file_short : len (w_out (closing o)) < len (w_out file) < 2 ^ 63.
Proof.
  split; [|apply Hlimits]. rewrite file_bytes, len_app.
  pose proof (suffix_nonempty (w_metaIndex (closing o)) (w_n (closing o))) as H.
  destruct (suffix _ _) as [|x l]; [done|]. rewrite len_cons. pose proof (len_nonneg l). lia.
Qed.

Lemma fetch_held c' co raw q r `{!CodecAgrees c' dec co} :
  Encode c' raw co = Ok q -> holds (w_out (closing o)) r q -> BCFile.RawSize r = len raw -> fetchBlock bc dec r co = Ok raw.
Proof.
  intros He Hh Hr. unfold fetchBlock. cbn [fileLength src]. pose proof file_short as Hs.
  pose proof Hh as (pre & post & E & H1 & H2). rewrite E, !len_app in Hs.
  pose proof (len_nonneg pre). pose proof (len_nonneg q). pose proof (len_nonneg post). pose proof (len_nonneg raw).
  pose proof (Encode_limits c' co _ _ He) as [Hl1 Hl2]. rewrite ValidateBlockRegion_ok by lia.
  apply (Block_Encode c' dec co sr (w_out (closing o)) raw q r (suffix (w_metaIndex (closing o)) (w_n (closing o)))); try done.
  - by rewrite <-file_bytes.
  - apply suffix_nonempty.
Qed.

#[local] Instance none_agrees : CodecAgrees {[CodecNone := encodeNone]} dec CodecNone.
Proof.
  intros e He. exists decompressNone. split; [done|].
  assert (e = encodeNone) as -> by (unfold EncoderFunc in *; rewrite lookup_singleton in He; by injection He as <-). apply _.
Qed.

Lemma fetch_plain r q :
  holds (w_out (closing o)) r q -> BCFile.RawSize r = len q -> len q <= MaxCompressedBlockSize -> fetchBlock bc dec r CodecNone = Ok q.
Proof.
  intros Hh Hr Hq. apply (fetch_held {[CodecNone := encodeNone]} CodecNone q q); [apply none_agrees| |done|done]. unfold Encode.
  change MaxRawBlockSize with (2 * MaxCompressedBlockSize). change MaxCompressedBlockSize with 268435456 in *. pose proof (len_nonneg q).
  replace (len q >? 2 * 268435456) with false by lia.
  match goal with |- context [?m !! CodecNone] => change (m !! CodecNone) with (Some encodeNone) end.
  cbn [encodeNone mbind result_bind wrap]. by replace (len q >? 268435456) with false by lia.
Qed.

(** A meta block of the file. *)
Lemma meta_entry a : a ∈ file_ops w1 idx enc p ->
  match a with
  | AData _ _ => True
  | AMeta name co q raw => exists r, MetaBlockEntry bc name = Ok (mkEntry name co r) /\ holds (w_out (closing o)) r q /\
      BCFile.RawSize r = raw /\ len q <= MaxCompressedBlockSize
  end.
Proof.
  intros Ha. pose proof (fin_laid _ _ _ _ _ _ _ _ _ _ _ _ Hfin) as Hl. pose proof (fin_ok _ _ _ _ _ _ _ _ _ _ _ _ Hfin) as Hops.
  rewrite Forall_forall in Hops. specialize (Hops a Ha). apply list_elem_of_lookup in Ha as [i Hi].
  destruct (Forall2_lookup_l _ _ _ _ _ (lo_placed _ _ _ _ _ Hl) Hi) as (r & _ & Hp).
  destruct a as [|name co q raw]; [done|]. destruct Hp as (H1 & H2 & H3), Hops as ([_ Hq] & _ & _ & _ & Hne).
  exists r. split_and!; [|by apply held_in_file|done|done]. unfold MetaBlockEntry, Lookup. cbn [metaIndex closing add_meta w_metaIndex Entries Name].
  rewrite lookup_insert_ne by done. cbn [Container.Write set_closed w_metaIndex]. by rewrite H3.
Qed.

Lemma meta_absent name :
  name <> DataIndexBlockName -> (Some name ∉ (meta_name <$> file_ops w1 idx enc p)) -> exists e, MetaBlockEntry bc name = Err e.
Proof.
  intros Hne Hn. unfold MetaBlockEntry, Lookup. cbn [metaIndex closing add_meta w_metaIndex Entries Name].
  rewrite lookup_insert_ne by done. cbn [Container.Write set_closed w_metaIndex].
  rewrite (fin_absent _ _ _ _ _ _ _ _ _ _ _ _ Hfin) by done. by eexists.
Qed.

(** The data region ends after every block of the groups. *)
Lemma min_offset_bounds es e0 d :
  d <= e0 -> (forall x, x ∈ es -> d <= Offset (Region x)) ->
  d <= foldl (fun e entry => if Offset (Region entry) <? e then Offset (Region entry) else e) e0 es <= e0.
Proof.
  revert e0. induction es as [|x es IH]; intros e0 Hd Hes; [cbn; lia|]. cbn [foldl].
  pose proof (Hes x ltac:(by left)). destruct (Z.ltb_spec (Offset (Region x)) e0).
  - destruct (IH (Offset (Region x))); [lia|intros; apply Hes; by right|]. lia.
  - apply IH; [done|]. intros; apply Hes; by right.
Qed.

Lemma data_end : w_n (out w1) <= DataRegionEnd bc < 2 ^ 63.
Proof.
  destruct (fin_above _ _ _ _ _ _ _ _ _ _ _ _ Hfin) as [H1 H2].
  pose proof (fin_laid _ _ _ _ _ _ _ _ _ _ _ _ Hfin) as Hl. pose proof (mi_n _ (lo_inv _ _ _ _ _ Hl)) as Hn.
  assert (w_n (closing o) = len (w_out (closing o))) as Hc by (cbn; rewrite len_app; lia).
  assert (w_n o <= w_n (closing o)) as Hle by (cbn; match goal with |- context [_ + len ?x] => pose proof (len_nonneg x) end; lia).
  pose proof file_short. unfold DataRegionEnd. cbn [footer metaIndex]. rewrite Hfooter.
  pose proof (min_offset_bounds (map_to_list (Entries (w_metaIndex (closing o)))).*2 (w_n (closing o)) (w_n (out w1)) ltac:(lia)) as Hb.
  enough (w_n (out w1) <= w_n (closing o)) by (destruct Hb; [|lia]; intros x ([n e] & -> & He)%list_elem_of_fmap;
    apply elem_of_map_to_list in He; cbn [closing add_meta w_metaIndex Entries Name] in He;
    apply lookup_insert_Some in He as [[_ <-]|[_ He]]; [cbn; lia|by apply (H2 n)]). lia.
Qed.

Lemma data_blocks_in_region r : r ∈ w_dataBlocks (out w1) -> ValidateBlockRegion r (DataRegionEnd bc) = None.
Proof.
  intros Hr. pose proof (oi_blocks _ _ (fin_out _ _ _ _ _ _ _ _ _ _ _ _ Hfin)) as Hb. rewrite Forall_forall in Hb.
  specialize (Hb r Hr). pose proof data_end. unfold region_in in Hb. apply ValidateBlockRegion_ok. lia.
Qed.

Lemma fetch_stored r raw :
  Stored c codec (out w1) r raw -> fetchDataBlock bc dec (dataBlockSet (w_dataBlocks (out w1))) r codec = Ok raw.
Proof.
  intros (q & He & Hh & Hr & Hin). unfold fetchDataBlock. rewrite data_blocks_in_region by done.
  assert (match dataBlockSet (w_dataBlocks (out w1)) with
     | Some set_ => negb (existsb (fun r' => (Offset r' =? Offset r) && (CompressedSize r' =? CompressedSize r) && (BCFile.RawSize r' =? BCFile.RawSize r)) set_)
     | None => false end = false) as ->.
  { unfold dataBlockSet. destruct (w_dataBlocks (out w1)) as [|r0 l] eqn:E; [done|]. rewrite <-E in *. apply negb_false_iff, existsb_exists.
    exists r. split; [by apply list_elem_of_In|]. by rewrite !Z.eqb_refl. }
  apply (fetch_held c codec raw q r); [done|by apply stored_in_file|done].
Qed.

Lemma data_regions_valid prev rs' :
  Forall (fun r => ValidateBlockRegion r (DataRegionEnd bc) = None) rs' -> StronglySorted before rs' ->
  Forall (fun r => 0 <= Offset r + CompressedSize r < 2 ^ 63) (option_list prev ++ rs') ->
  match prev with Some q => Forall (before q) rs' | None => True end ->
  validateDataRegions_from prev rs' (DataRegionEnd bc) = None.
Proof.
  revert prev. induction rs' as [|r rs' IH]; intros prev Hv Hs Hr Hp; [done|]. cbn [validateDataRegions_from].
  apply Forall_cons in Hv as [-> Hv]. apply StronglySorted_inv in Hs as [Hs Hle]. apply Forall_app in Hr as [Hr1 Hr].
  assert (match prev with Some q => Offset r <? int64 (Offset q + CompressedSize q) | None => false end = false) as ->.
  { destruct prev as [q|]; [|done]. apply Forall_cons in Hp as [Hp _]. apply Forall_cons in Hr1 as [Hr1 _]. unfold before in Hp.
    rewrite int64_id by (unfold in_int64; lia). lia. }
  by apply IH.
Qed.

Lemma loadDataCodec_file : loadDataCodec bc dec = Ok (codec, w_dataBlocks (out w1)).
Proof.
  destruct Hdata as (e & di & He & Hcomp & Hraw & Hh & Hl & Hparse). unfold loadDataCodec. rewrite He. cbn [wrap mbind result_bind].
  rewrite Hcomp, (fetch_plain (Region e) di) by done. cbn [wrap mbind result_bind]. rewrite Hparse. cbn [wrap mbind result_bind Blocks DefaultCompression].
  pose proof (fin_out _ _ _ _ _ _ _ _ _ _ _ _ Hfin) as Hout.
  assert (validateDataRegions (w_dataBlocks (out w1)) (DataRegionEnd bc) = None) as ->; [|done].
  apply data_regions_valid; [|apply Hout| |done].
  - apply Forall_forall. intros r Hr. by apply data_blocks_in_region.
  - pose proof data_end. eapply Forall_impl; [apply (oi_blocks _ _ Hout)|]. unfold region_in. intros r. lia.
Qed.

(** ** The directory and the side sections *)

Lemma groups_each : Forall2 (group_done c codec (out w1)) (localityGroups w1) Gs.
Proof. apply (fin_groups _ _ _ _ _ _ _ _ _ _ _ _ Hfin). Qed.

Lemma default_nameless lg : lg ∈ localityGroups w1 -> IsDefault lg = true -> lg_Name lg = [].
Proof.
  intros Hlg Hd. pose proof (fin_ids _ _ _ _ _ _ _ _ _ _ _ _ Hfin) as Hid.
  assert (group_id lg ∈ file_ids names) as Hin by (rewrite <-Hid; by apply list_elem_of_fmap_2).
  unfold file_ids, group_id in Hin. rewrite Hd in Hin. apply elem_of_cons in Hin as [Hin|Hin]; [by injection Hin|].
  apply list_elem_of_fmap in Hin as (n & Hn & _). done.
Qed.

Lemma open_index_file : open_index bc dec = Ok (IndexFile.mkReader V8 (localityGroups w1) [] None None).
Proof.
  destruct (meta_entry (AMeta IndexMetaBlockName CodecNone idx (len idx)) ltac:(by left)) as (r & He & Hh & Hr & Hl).
  unfold open_index. rewrite He. cbn [wrap mbind result_bind Region CompressionAlgo].
  rewrite (fetch_plain r idx) by done. cbn [wrap mbind result_bind].
  pose proof (fin_index _ _ _ _ _ _ _ _ _ _ _ _ Hfin) as Hidx. pose proof (groups_ok_small _ Hgroups) as Hs.
  rewrite (Parse_index order Horder (localityGroups w1) idx); [| |pose proof (go_groups _ Hgroups) as Hn|done].
  - cbn [wrap mbind result_bind]. rewrite (readable_index c codec (out w1) (localityGroups w1) Gs names);
      [done|apply groups_each|done|apply (fin_ids _ _ _ _ _ _ _ _ _ _ _ _ Hfin)|apply (fin_names _ _ _ _ _ _ _ _ _ _ _ _ Hfin)..].
  - unfold writeRFileIndexMeta in Hidx. apply bind_Ok in Hidx as (body & Hb & _). apply write_groups_each in Hb.
    apply Forall_forall. intros lg (j & Hj)%list_elem_of_lookup. destruct (Forall2_lookup_l _ _ _ _ _ groups_each Hj) as (G & HG & Hg).
    eapply Forall_lookup_1 in Hb as [bs Hbs]; [|exact Hj]. eapply Forall_lookup_1 in Hs; [|exact HG].
    apply (group_fine c codec (out w1) order lg G bs); try done. apply default_nameless. by eapply list_elem_of_lookup_2.
  - unfold len in *. by rewrite (Forall2_length _ _ _ groups_each).
Qed.

Lemma plain_section {A} name q (parse : bytes -> result A) v :
  AMeta name CodecNone q (len q) ∈ file_ops w1 idx enc p -> parse q = Ok v -> loadSection bc dec name parse = Ok (Some v).
Proof.
  intros Ha Hp. destruct (meta_entry _ Ha) as (r & He & Hh & Hr & Hl). unfold loadSection. rewrite He. cbn [Region CompressionAlgo].
  rewrite (fetch_plain r q) by done. cbn [wrap mbind result_bind]. by rewrite Hp.
Qed.

Lemma absent_section {A} name (parse : bytes -> result A) :
  name <> DataIndexBlockName -> (Some name ∉ (meta_name <$> file_ops w1 idx enc p)) -> loadSection bc dec name parse = Ok None.
Proof. intros H1 H2. destruct (meta_absent name H1 H2) as [e He]. unfold loadSection. by rewrite He. Qed.

(** The names of the sections: which are there depends on the options. *)
Lemma section_names : meta_name <$> file_ops w1 idx enc p =
  [Some IndexMetaBlockName] ++ match bmBuilders w1 with [] => [] | _ => [Some BlockMeta.MetaBlockName] end ++
  match enc with None => [] | Some _ => [Some RFileMetaBlockName] end ++
  match (match adjBuilder w1 with Some a => (Build a).2 | None => None end) with
  | None => [] | Some _ => [Some Adjacency.MetaBlockName] end.
Proof.
  unfold file_ops, sections. rewrite fmap_cons, !fmap_app. cbn [app meta_name]. f_equal. f_equal; [by destruct (bmBuilders w1)|].
  f_equal; [by destruct enc|]. by destruct (match adjBuilder w1 with Some _ => _ | None => _ end).
Qed.

Ltac absent := repeat case_match; cbn [app]; rewrite ?not_elem_of_cons; split_and!; try apply not_elem_of_nil; by vm_compute.

Lemma loadBlockMeta_file :
  let m := mkBlockMeta BlockMeta.V1 [] (blockOverlays w1) in
  (bmBuilders w1 <> [] -> blockmeta_ok m) ->
  loadBlockMeta bc dec = Ok (match bmBuilders w1 with [] => None | _ => Some m end).
Proof.
  intros m Hm. unfold loadBlockMeta. destruct (bmBuilders w1) as [|b bs] eqn:Eb.
  - apply absent_section; [by vm_compute|]. rewrite section_names, Eb. absent.
  - apply (plain_section _ (BlockMeta.Write m)).
    + right. unfold sections. rewrite Eb. by left.
    + pose proof (reads_blockmeta m (Hm ltac:(done)) []) as Hr. rewrite app_nil_r in Hr. by rewrite Hr.
Qed.

Lemma loadEmbeddingSpace_file :
  loadEmbeddingSpace Unmarshal bc dec = Ok (match enc with None => Unknown | Some _ => opt_EmbeddingSpace (opts w1) end).
Proof.
  unfold loadEmbeddingSpace. destruct (fin_sections _ _ _ _ _ _ _ _ _ _ _ _ Hfin) as [He _].
  revert He. case_eq enc; [intros b Ee He|intros Ee He].
  - rewrite (plain_section _ b _ (opt_EmbeddingSpace (opts w1))); [done| |by apply (Decode_Encode Marshal)].
    right. unfold sections. rewrite Ee. apply elem_of_app. right. by left.
  - rewrite absent_section; [done|by vm_compute|]. rewrite section_names. rewrite Ee. absent.
Qed.

Lemma loadAdjacency_file cf cells :
  adjBuilder w1 = adj_after cf cells -> len cf < 2 ^ 31 -> len cells < 2 ^ 31 -> Forall cell_small cells ->
  loadAdjacency bc dec = Ok (match adj_after cf cells with Some a => (Build a).2 | None => None end).
Proof.
  intros Ha Hcf Hl Hc. unfold loadAdjacency. destruct (fin_sections _ _ _ _ _ _ _ _ _ _ _ _ Hfin) as [_ Hs]. rewrite Ha in Hs.
  destruct (match adj_after cf cells with Some a => (Build a).2 | None => None end) as [ix|] eqn:Eix.
  - destruct (adj_after cf cells) as [a|] eqn:Ea; [|done]. rewrite Eix in Hs.
    assert (AMeta Adjacency.MetaBlockName codec p (len (Adjacency.Write ix)) ∈ file_ops w1 idx enc p) as Hin.
    { right. unfold sections. rewrite !elem_of_app. right. right. rewrite Ha, Eix.
      destruct (fin_comp _ _ _ _ _ _ _ _ _ _ _ _ Hfin) as [_ ->]. by left. }
    destruct (meta_entry _ Hin) as (r & He & Hh & Hr & _). unfold loadSection. rewrite He. cbn [Region CompressionAlgo].
    destruct (fin_comp _ _ _ _ _ _ _ _ _ _ _ _ Hfin) as [Hc1 Hc2]. rewrite Hc1, Hc2 in Hs.
    rewrite (fetch_held c codec (Adjacency.Write ix) p r) by done. cbn [wrap mbind result_bind].
    assert (index_ok ix) as Hix.
    { unfold adj_after in Ea. destruct cf as [|b cf']; [done|]. injection Ea as <-. set (cf := b :: cf') in *.
      assert (edge_entries cf cells <> []) as Hne by (intros E; rewrite E in Eix; done).
      pose proof (edge_entries_len cf cells). destruct (Build_sorted cf _ Hne ltac:(lia)) as (ns & Hb & Hg). rewrite Hb in Eix. injection Eix as <-.
      apply built_index_ok; [done| |done|]; unfold len in *; rewrite SliceStable_perm; [lia|by apply edge_entries_ok]. }
    pose proof (reads_adjacency ix Hix []) as Hr'. rewrite app_nil_r in Hr'. by rewrite Hr'.
  - apply absent_section; [by vm_compute|]. rewrite section_names, Ha, Eix. absent.
Qed.

(** ** A cursor per group *)

Lemma level_reader r level off hn es :
  block_ok level off es -> Stored c codec (out w1) r (WriteIndexBlock (block_of level off hn es)) ->
  (raw ← wrap "level-reader fetch" (fetchDataBlock bc dec (dataBlockSet (w_dataBlocks (out w1))) r codec);
   '(b, _) ← ReadIndexBlock V8 raw; Ok (Some b)) = Ok (Some (block_of level off hn es)).
Proof.
  intros Hb Hs. rewrite (fetch_stored _ _ Hs). cbn [wrap mbind result_bind].
  assert (ReadIndexBlock V8 (WriteIndexBlock (block_of level off hn es)) = Ok (block_of level off hn es, [])) as ->; [|done].
  unfold ReadIndexBlock. change (hasMultiLevelIndex V8) with true. cbv iota.
  pose proof (reads_multi_level level off hn es Hb []) as Hr. by rewrite app_nil_r in Hr.
Qed.

(** The cursor of a recorded group stands before all of its cells; under a
    filter or a skip predicate it still works on its blocks. *)
Lemma group_cursor lg G bm adj es :
  group_done c codec (out w1) lg G -> len G < 2 ^ 31 ->
  works_on bc dec (new_reader bc dec V8 lg codec (w_dataBlocks (out w1)) bm adj es) G.
Proof.
  intros Hg Hl. destruct (group_leaves c codec (out w1) lg G Hg Hl)
    as (Bs & n & off & es' & Ls & Vs & HB & Hleaves & Hroot & Hsub & Hblock & Hn & Hw & Hends & Hnum & _ & _).
  exists (concat Ls), Bs. split_and!.
  - unfold known_leaves. cbn [leaves new_reader]. unfold collectLeaves. cbn [walker new_reader]. unfold makeWalker. rewrite Hroot.
    apply (IterateLeaves_tree (Stored c codec (out w1)) _ level_reader n off false es' Ls Vs); [change maxTraversalDepth with 64; lia|done..].
  - unfold has_blocks. cbn [leaves set_leaves]. apply Forall2_same_length_lookup_2; [by eapply Forall2_length|].
    intros i l B Hli HBi. destruct (Forall2_lookup_lr _ _ _ _ _ _ Hleaves Hli HBi) as (Hst & _ & _ & _).
    split_and!; [exact (fetch_stored _ _ Hst)|exact (Forall2_lookup_lr _ _ _ _ _ _ Hnum Hli HBi)|].
    destruct Hg as (_ & _ & _ & _ & _ & _ & _ & _ & _ & _ & _ & _ & _ & _ & Hsm & _). rewrite <-HB in Hsm.
    apply Forall_forall. intros d Hd. rewrite Forall_forall in Hsm. apply cell_small_ok, Hsm, elem_of_concat.
    exists B. split; [done|by eapply list_elem_of_lookup_2].
  - done.
  - done.
  - by destruct Hg as (_ & _ & _ & _ & _ & _ & _ & _ & _ & _ & _ & _ & _ & Hs & _).
Qed.

Lemma group_stands lg G bm adj es :
  group_done c codec (out w1) lg G -> len G < 2 ^ 31 ->
  stands bc dec G (new_reader bc dec V8 lg codec (w_dataBlocks (out w1)) bm adj es) G.
Proof.
  intros Hg Hl. destruct (group_cursor lg G bm adj es Hg Hl) as (ls & Bs & H1 & H2 & H3 & H4 & H5).
  split; [done|]. split; [done|]. exists ls, Bs. split_and!; try done. left. by split.
Qed.
End opened.

(** ** Writing and opening a file *)

(** A file of the default group's cells and named groups, from the writer's
    construction to its close. *)
Definition write_file (L : Libraries) (order : gmap bytes Z -> list (bytes * Z)) (Marshal : FileState -> result bytes)
    (o : WriterOptions) (cells : list cell) (gs : list (bytes * list cell)) : result Writer :=
  w ← NewWriter L o;
  match (_ ← append_all cells; _ ← append_groups gs; RFileWriter.Close order Marshal) w with
  | (w, Ok _) => Ok w
  | (_, Err e) => Err e
  end.

Definition used_codec (o : WriterOptions) : bytes := match opt_Codec o with [] => CodecNone | x => x end.

(** The default compressor, and an index block size the reader can take. *)
Record options_ok (o : WriterOptions) : Prop := {
  oo_default : opt_Compressor o = None;
  oo_index : IndexBlockSize o <= index_cap;
  oo_codec : short (used_codec o);
  oo_edge : len (AdjacencyEdgeCF o) < 2 ^ 31;
}.

(** The finished file is within the format's limits. *)
Record file_fits (w : Writer) : Prop := {
  ff_container : within_limits (out w);
  ff_meta : meta_fits (out w);
  ff_overlays : blockmeta_ok (mkBlockMeta BlockMeta.V1 [] (blockOverlays w));
}.

(** What a cursor over the cells [G] answers. *)
Definition cursor_over (bc : Container.Reader) (dec : Decompressor) (r : Reader) (G : list cell) : Prop :=
  forall ops, run_reader bc dec ops r = run_spec G ops G.

Section written.
Context (L : Libraries) (order : gmap bytes Z -> list (bytes * Z)) (Marshal : FileState -> result bytes)
  (Unmarshal : bytes -> result FileState).
Hypothesis HL : libraries_ok L.
Hypothesis Horder : order_ok order.
Hypothesis Hjson : json_ok Marshal Unmarshal.
Abbreviation c := (DefaultCompressor L).
Abbreviation dec := (Default L).

Lemma default_nonempty codec raw p : Encode c raw codec = Ok p -> raw <> [] -> p <> [].
Proof.
  intros He Hne. pose proof (Encode_limits c codec raw p He) as [Hl _]. pose proof (default_agrees L codec HL) as Ha.
  unfold Encode in He. destruct (Z.gtb_spec (len raw) MaxRawBlockSize); [done|].
  destruct (c !! codec) as [fn|] eqn:Ec; [|done]. apply bind_Ok in He as (q & Hq & He). destruct (len q >? _); [done|].
  apply (inj Ok) in He as ->. destruct (Ha fn Ec) as (d & _ & Hp). by apply (codec_nonempty raw p).
Qed.

Context (o : WriterOptions) (cells : list cell) (gs : list (bytes * list cell)) (w : Writer).
Hypothesis Hwrite : write_file L order Marshal o cells gs = Ok w.
Hypothesis Hopts : options_ok o.
Hypothesis Hgroups : groups_ok (cells :: gs.*2).
Hypothesis Hfits : file_fits w.
Context (sr : ReaderAt) `{!Serves sr (w_out (out w))}.
Abbreviation codec := (used_codec o).

Lemma written_finished : exists w1 names idx enc p fo rs,
  finished c codec order Marshal w1 (cells :: gs.*2) names idx enc p fo rs /\ out w = (Container.Close fo).1 /\
  opt_EmbeddingSpace (opts w1) = opt_EmbeddingSpace o /\
  adjBuilder w1 = adj_after (AdjacencyEdgeCF o) (concat (cells :: gs.*2)) /\ blockOverlays w1 = blockOverlays w.
Proof.
  unfold write_file in Hwrite. apply bind_Ok in Hwrite as (w0 & Hw0 & H). destruct Hopts as [Hd Hi Hc He].
  destruct (NewWriter_filing c codec (default_nonempty codec) L o w0 Hw0 Hd eq_refl eq_refl Hi) as (Hf0 & Ha0 & Hes0).
  destruct ((_ ← append_all cells; _) w0) as [w' [[]|]] eqn:E; [|done]. injection H as ->.
  apply meth_bind_Ok in E as (wa & [] & H1 & E). apply meth_bind_Ok in E as (wb & [] & H2 & H3).
  destruct (append_all_quiet _ _ _ _ [] H1 Ha0) as (Hn1 & He1 & Ha1 & Hc1 & Ho1).
  destruct (append_groups_quiet _ _ _ _ _ H2 Ha1) as (Hn2 & He2 & Ha2 & Hc2 & Ho2).
  pose proof (fi_open _ _ _ _ _ _ Hf0) as Ho. assert (excess (out w0) = 0) as Hex.
  { destruct (fi_writing _ _ _ _ _ _ Hf0) as (bs & cur & Hw & _). unfold excess. pose proof (mi_n _ (oi_inv _ _ (wr_out _ _ _ _ _ Hw))). lia. }
  pose proof (Close_bounds order Marshal wb w H3 ltac:(congruence) ltac:(congruence)) as Hb.
  pose proof (ff_container _ Hfits) as (Hlen & _). pose proof (go_cells _ Hgroups) as Hcells. apply Forall_cons in Hcells as [Hcells Hgs].
  pose proof (append_all_filing c codec (default_nonempty codec) cells w0 wa [] [] [] H1 ltac:(lia) Hf0 Hcells) as Hf1. cbn [app] in Hf1.
  destruct (append_groups_filing c codec (default_nonempty codec) gs wa wb [] [] cells H2 ltac:(lia) Hf1) as (Gs & cur & Hf2 & EG).
  { by rewrite Forall_fmap in Hgs. }
  destruct (Close_finished c codec (default_nonempty codec) order Marshal Unmarshal Hjson Hc wb w Gs _ cur H3 Hf2 Hlen (ff_meta _ Hfits))
    as (w1 & idx & enc & p & fo & rs & Hfin & Hout & Ho3 & Ha3 & Hov).
  rewrite EG in Hfin. exists w1. eexists _, idx, enc, p, fo, rs. split; [exact Hfin|]. split; [done|]. split; [|split; [|done]].
  - congruence.
  - rewrite Ha3. cbn [app concat] in *. exact Ha2.
Qed.

(** The overlays, edges and embedding state the file records. *)
Definition written_overlays : option BlockMeta :=
  match BlockMetaBuilders o with [] => None | _ => Some (mkBlockMeta BlockMeta.V1 [] (blockOverlays w)) end.
Definition written_adjacency : option Adjacency.Index :=
  match adj_after (AdjacencyEdgeCF o) (concat (cells :: gs.*2)) with Some a => (Build a).2 | None => None end.
Definition written_embedding : FileState :=
  if bool_decide (State (opt_EmbeddingSpace o) = []) then Unknown else opt_EmbeddingSpace o.

(** A directory entry leads to the cells of its group. *)
Definition entry_reads (bc : Container.Reader) (blocks : list BlockRegion) (lg : LocalityGroup) (G : list cell) : Prop :=
  (block_Len (RootIndex lg) = 0%nat <-> G = []) /\
  forall bm adj es, works_on bc dec (new_reader bc dec V8 lg codec blocks bm adj es) G.

Lemma written_opens : exists bc lg rest blocks,
  Container.NewReader sr (len (w_out (out w))) = Ok bc /\
  open_index bc dec = Ok (IndexFile.mkReader V8 (lg :: rest) [] None None) /\ IsDefault lg = true /\
  loadDataCodec bc dec = Ok (codec, blocks) /\ loadAdjacency bc dec = Ok written_adjacency /\
  loadEmbeddingSpace Unmarshal bc dec = Ok written_embedding /\
  (exists bm, loadBlockMeta bc dec = Ok bm /\ (bm = None \/ bm = Some (mkBlockMeta BlockMeta.V1 [] (blockOverlays w)))) /\
  Forall2 (entry_reads bc blocks) (lg :: rest) (cells :: gs.*2).
Proof.
  destruct written_finished as (w1 & names & idx & enc & p & fo & rs & Hfin & Hout & Hes & Hadj & Hov).
  pose proof (ff_container _ Hfits) as Hlim. rewrite Hout in Hlim. assert (Serves sr (w_out (Container.Close fo).1)) as Hs by (by rewrite <-Hout).
  pose proof (oo_codec _ Hopts) as Hc. pose proof (fin_laid _ _ _ _ _ _ _ _ _ _ _ _ Hfin) as Hl.
  pose proof (fin_out _ _ _ _ _ _ _ _ _ _ _ _ Hfin) as Ho. pose proof (default_agrees L codec HL) as Hagree.
  assert (Forall region_ok (w_dataBlocks (out w1))) as Hreg.
  { eapply Forall_impl; [apply (oi_blocks _ _ Ho)|]. destruct Hlim as (Hlen & _).
    destruct (Close_out fo) as [y Ey], (fin_bytes _ _ _ _ _ _ _ _ _ _ _ _ Hfin) as [x Ex]. rewrite Ey, Ex, !len_app in Hlen.
    pose proof (len_nonneg x). pose proof (len_nonneg y). pose proof (mi_n _ (oi_inv _ _ Ho)). unfold region_in, region_ok, in_int64.
    change MaxRawBlockSize with 536870912. change MaxCompressedBlockSize with 268435456. intros r. lia. }
  destruct (close_readable codec _ _ rs fo sr Hc (fin_ok _ _ _ _ _ _ _ _ _ _ _ _ Hfin) Hreg Hl Hlim Hs)
    as (_ & f & Hr & Hfoot & _ & e & di & He & Hcomp & Hraw & Hh & Hdi & Hparse).
  assert (data_regions (file_ops w1 idx enc p) rs = []) as Enone.
  { assert (Forall is_meta (file_ops w1 idx enc p)) as Hm.
    { constructor; [by vm_compute|]. apply sections_meta. by destruct (fin_comp _ _ _ _ _ _ _ _ _ _ _ _ Hfin) as [_ ->]. }
    clear -Hm. revert rs. induction Hm as [|a ops Ha Hm IH]; intros [|r rs]; try done; destruct a; try done; cbn. apply IH. }
  rewrite Enone, app_nil_r in Hparse.
  set (bc := Container.mkReader _ _ f _) in *.
  assert (exists e di, MetaBlockEntry bc DataIndexBlockName = Ok e /\ CompressionAlgo e = CodecNone /\
    BCFile.RawSize (Region e) = len di /\ holds (w_out (closing fo)) (Region e) di /\ len di <= MaxCompressedBlockSize /\
    ReadDataIndex di = Ok (mkDataIndex codec (w_dataBlocks (out w1)), [])) as Hdata by (exists e, di; by split_and!).
  assert ((dec !! CodecNone : option CodecFunc) = Some decompressNone) as Hnone by reflexivity.
  pose proof (groups_each c codec order Marshal w1 _ names idx enc p fo rs Hfin) as Hg.
  pose proof (fin_ids _ _ _ _ _ _ _ _ _ _ _ _ Hfin) as Hid. destruct (localityGroups w1) as [|lg rest] eqn:Elg; [done|].
  exists bc, lg, rest, (w_dataBlocks (out w1)). split; [by rewrite Hout|]. split.
  { rewrite <-Elg. eapply open_index_file; eassumption. }
  split; [by injection Hid|]. split; [eapply loadDataCodec_file; eassumption|]. split.
  { pose proof (go_count _ Hgroups) as Hcnt. pose proof (go_cells _ Hgroups) as Hcells.
    eapply loadAdjacency_file; try eassumption; [apply Hopts|]. by apply Forall_concat. }
  split.
  { etrans; [eapply loadEmbeddingSpace_file; eassumption|]. unfold written_embedding. rewrite <-Hes.
    destruct (fin_sections _ _ _ _ _ _ _ _ _ _ _ _ Hfin) as [Henc _]. destruct enc as [b|].
    - rewrite bool_decide_eq_false_2; [done|]. intros Est. unfold EmbeddingSpace.Encode, Validate in Henc. by rewrite Est in Henc.
    - by rewrite bool_decide_eq_true_2. }
  split.
  { eexists. split; [eapply loadBlockMeta_file; try eassumption|].
    - intros _. rewrite Hov. apply Hfits.
    - rewrite Hov. destruct (bmBuilders w1); [by left|by right]. }
  apply Forall2_same_length_lookup_2; [by eapply Forall2_length|]. intros i lg' G Hi HG.
  pose proof (Forall2_lookup_lr _ _ _ _ _ _ Hg Hi HG) as Hd.
  assert (len G < 2 ^ 31) as HlG.
  { pose proof (groups_ok_small _ Hgroups) as Hsm. eapply Forall_lookup_1 in Hsm; [|exact HG]. apply Hsm. }
  split; [apply (root_valid c codec (out w1) lg' G Hd HlG)|]. intros bm adj es. eapply group_cursor; eassumption.
Qed.
End written.

Lemma works_stands bc dec r G : works_on bc dec r G -> fresh r -> filter_ r = None -> skipPred r = None -> stands bc dec G r G.
Proof.
  intros (ls & Bs & H1 & H2 & H3 & H4 & H5) Hf H6 H7. split; [done|]. split; [done|]. exists ls, Bs. split_and!; try done. by left.
Qed.

(** What both ways of opening return. *)
Lemma opened L Marshal Unmarshal order o cells gs w sr :
  libraries_ok L -> order_ok order -> json_ok Marshal Unmarshal ->
  write_file L order Marshal o cells gs = Ok w -> options_ok o -> groups_ok (cells :: gs.*2) -> file_fits w ->
  Serves sr (w_out (out w)) ->
  exists bc, Container.NewReader sr (len (w_out (out w))) = Ok bc /\
    (exists rd, Open Unmarshal bc (Default L) = Ok rd /\ works_on bc (Default L) rd cells /\ fresh rd /\
       filter_ rd = None /\ skipPred rd = None /\ adj rd = written_adjacency o cells gs /\ embeddingSpace rd = written_embedding o) /\
    (exists rds, OpenAll Unmarshal bc (Default L) = Ok rds /\
       Forall2 (fun rd G => works_on bc (Default L) rd G /\ fresh rd /\ filter_ rd = None /\ skipPred rd = None)
         rds (filter (fun G => G <> []) (cells :: gs.*2))).
Proof.
  intros HL Hord Hj Hw Ho Hg Hf Hs.
  destruct (written_opens L order Marshal Unmarshal HL Hord Hj o cells gs w Hw Ho Hg Hf sr)
    as (bc & lg & rest & blocks & Hr & Hidx & Hdef & Hdc & Hadj & Hes & (bm & Hbm & _) & Hread).
  exists bc. split; [done|]. split.
  - unfold Open. rewrite Hidx. cbn [mbind result_bind Groups pickDefaultLG]. rewrite Hdef, Hdc. cbn [wrap mbind result_bind].
    rewrite Hbm, Hadj, Hes. cbn [wrap mbind result_bind]. eexists. split; [done|].
    apply Forall2_cons in Hread as [[_ Hread] _]. split; [apply Hread|]. by split_and!.
  - unfold OpenAll. rewrite Hidx, Hdc. cbn [wrap mbind result_bind]. rewrite Hbm, Hadj, Hes. cbn [wrap mbind result_bind Groups IndexFile.Version].
    assert ((len (lg :: rest) =? 0) = false) as ->.
    { rewrite len_cons. pose proof (len_nonneg rest). lia. }
    eexists. split; [done|]. clear -Hread. induction Hread as [|lg' G lgs Gs [Hnil Hread] _ IH]; [constructor|].
    cbn [List.filter]. rewrite filter_cons. destruct (Z.eqb_spec (Z.of_nat (block_Len (RootIndex lg'))) 0) as [E|E]; cbn [negb].
    + rewrite decide_False; [exact IH|]. intros HG. apply HG, Hnil. lia.
    + rewrite decide_True by (intros ->; apply E; rewrite (proj2 Hnil eq_refl); done). rewrite fmap_cons. constructor; [|exact IH].
      split; [apply Hread|]. by split_and!.
Qed.

(** ** Properties *)

(** C11: an RFile is read back as it was written.  Whatever cells the writer
    accepted in whatever locality groups, under any codec and any block and
    index block sizes, once [Close] returned without error within the limits
    of the format: on any source that serves the file's bytes the container
    opens, [Open] returns a cursor over the default group and [OpenAll] one
    per group with cells; and a cursor answers any sequence of seeks and nexts
    exactly as a cursor over the sorted list of the group's cells would, down
    to the end-of-file errors. *)
Theorem rfile_roundtrip L order Marshal Unmarshal o cells gs w sr :
  libraries_ok L -> order_ok order -> json_ok Marshal Unmarshal ->
  write_file L order Marshal o cells gs = Ok w -> options_ok o -> groups_ok (cells :: gs.*2) -> file_fits w ->
  Serves sr (w_out (out w)) ->
  exists bc, Container.NewReader sr (len (w_out (out w))) = Ok bc /\
    (exists rd, Open Unmarshal bc (Default L) = Ok rd /\ cursor_over bc (Default L) rd cells) /\
    (exists rds, OpenAll Unmarshal bc (Default L) = Ok rds /\
       Forall2 (cursor_over bc (Default L)) rds (filter (fun G => G <> []) (cells :: gs.*2))).
Proof.
  intros HL Hord Hj Hw Ho Hg Hf Hs.
  destruct (opened L Marshal Unmarshal order o cells gs w sr HL Hord Hj Hw Ho Hg Hf Hs)
    as (bc & Hr & (rd & Hrd & Hwk & Hfr & H1 & H2 & _) & rds & Hrds & Hall).
  exists bc. split; [done|]. split.
  - exists rd. split; [done|]. intros ops. by apply run_refines, works_stands.
  - exists rds. split; [done|]. eapply Forall2_impl; [exact Hall|]. intros r G (H3 & H4 & H5 & H6) ops. by apply run_refines, works_stands.
Qed.

(** A file with two groups, several data blocks and index levels, an
    adjacency index, zone maps and an embedding state. *)
Definition demo_Marshal (s : FileState) : result bytes := Ok (len (State s) :: State s ++ Identity s).
Definition demo_Unmarshal (b : bytes) : result FileState :=
  match b with
  | n :: b => Ok (mkFileState (take (Z.to_nat n) b) (drop (Z.to_nat n) b))
  | [] => Err (Fail "json: unexpected end")
  end.

Lemma demo_json : json_ok demo_Marshal demo_Unmarshal.
Proof.
  intros [st ident] b _ _ [= <-]. split; [|done]. unfold demo_Unmarshal. cbn [State Identity].
  replace (Z.to_nat (len st)) with (length st) by (unfold len; lia). by rewrite take_app_length, drop_app_length.
Qed.

Definition demo_key (r cf ts : Z) : Key := mkKey [r; r; r; r] [cf] [r] [] ts false.
Definition demo_cells : list cell :=
  [(demo_key 1 101 5, [1]); (demo_key 1 101 4, [2; 3]); (demo_key 2 101 5, []); (demo_key 3 102 7, [1]);
   (demo_key 4 101 7, [1; 2; 3]); (demo_key 5 101 7, [1; 2; 3]); (demo_key 5 101 7, [1; 2; 4]); (demo_key 6 101 7, [1; 2; 3]);
   (demo_key 7 101 7, [1; 2; 3])].
Definition demo_groups : list (bytes * list cell) := [([103], [(demo_key 1 120 9, [7]); (demo_key 8 120 9, [])]); ([104], [])].
Definition demo_options : WriterOptions :=
  mkOptions CodecGzip 20 60 None [NewZoneMapBuilder] [101] NoEmbeddings.
Definition demo_file : Writer :=
  match write_file demo_libraries map_to_list demo_Marshal demo_options demo_cells demo_groups with
  | Ok w => w
  | Err _ => mkRWriter (Container.NewWriter []) ∅ demo_options 0 empty_block empty_group [] [] true ∅ [] [] None false
  end.

Lemma demo_written : write_file demo_libraries map_to_list demo_Marshal demo_options demo_cells demo_groups = Ok demo_file.
Proof.
  assert (match write_file demo_libraries map_to_list demo_Marshal demo_options demo_cells demo_groups with
          | Ok _ => true | Err _ => false end = true) as H by (vm_compute; reflexivity).
  unfold demo_file. by destruct (write_file _ _ _ _ _ _).
Qed.

Lemma demo_options_ok : options_ok demo_options.
Proof. split; vm_compute; done. Qed.

#[local] Instance cell_small_dec d : Decision (cell_small d).
Proof. unfold cell_small, key_small, in_int64. apply _. Defined.

Lemma demo_groups_ok : groups_ok (demo_cells :: demo_groups.*2).
Proof.
  split; [apply (bool_decide_unpack _); vm_compute; exact I..|]. cbn [demo_groups fmap list_fmap snd disjoint_groups].
  repeat split; apply (bool_decide_unpack _); vm_compute; exact I.
Qed.

Lemma demo_fits : file_fits demo_file.
Proof.
  split.
  - split_and!; apply (bool_decide_unpack _); vm_compute; exact I.
  - assert (map_Forall (fun _ e => CompressedSize (Region e) <= MaxCompressedBlockSize /\ BCFile.RawSize (Region e) <= MaxRawBlockSize)
      (Entries (w_metaIndex (out demo_file)))) as H by (apply (bool_decide_unpack _); vm_compute; exact I).
    intros name e. apply H.
  - split; [done|]. split; [done|]. split; [constructor|]. split; [vm_compute; reflexivity|].
    apply (bool_decide_unpack _). vm_compute. exact I.
Qed.

Lemma rfile_roundtrip_witness :
  exists bc, Container.NewReader (bytes_ReadAt (w_out (out demo_file))) (len (w_out (out demo_file))) = Ok bc /\
    (exists rd, Open demo_Unmarshal bc (Default demo_libraries) = Ok rd /\
       run_reader bc (Default demo_libraries) [ONext; OSeek (Some (demo_key 5 0 0)); ONext; ONext; OSeek (Some (demo_key 9 0 0)); ONext] rd =
         [Ok (Some (demo_key 1 101 5, [1])); Ok None; Ok (Some (demo_key 5 101 7, [1; 2; 3])); Ok (Some (demo_key 5 101 7, [1; 2; 4]));
          Ok None; Err EOF]) /\
    exists rd1 rd2, OpenAll demo_Unmarshal bc (Default demo_libraries) = Ok [rd1; rd2] /\
      run_reader bc (Default demo_libraries) [ONext; ONext; ONext] rd2 =
        [Ok (Some (demo_key 1 120 9, [7])); Ok (Some (demo_key 8 120 9, [])); Err EOF].
Proof.
  destruct (rfile_roundtrip demo_libraries map_to_list demo_Marshal demo_Unmarshal demo_options demo_cells demo_groups demo_file
    (bytes_ReadAt (w_out (out demo_file))) demo_libraries_ok (fun m => reflexivity _) demo_json demo_written demo_options_ok
    demo_groups_ok demo_fits (bytes_Serves _)) as (bc & Hr & (rd & Hrd & Hc) & rds & Hrds & Hall).
  exists bc. split; [exact Hr|]. split.
  - exists rd. split; [exact Hrd|]. rewrite (Hc _). reflexivity.
  - inversion Hall as [|rd1 G1 rds1 Gs1 H1 Hall1 E1 E2]. inversion Hall1 as [|rd2 G2 rds2 Gs2 H2 Hall2 E3 E4]. subst.
    inversion Hall2. subst. exists rd1, rd2. split; [exact Hrds|]. rewrite (H2 _). reflexivity.
Defined.


Definition odd_value_rows (k : Key) : bool := bool_decide (ColumnFamily k = [102]) || bool_decide (Row k = [6; 6; 6; 6]).


(** C13: the side sections survive.  The opened file's adjacency index answers
    a row with exactly the edges among all the cells written, of whatever
    group, ordered by qualifier; without a family of edges, or edges, there is
    none.  Its embedding state is the one the options gave, and the unknown
    state when they gave none. *)
Theorem rfile_side_sections L order Marshal Unmarshal o cells gs w sr :
  libraries_ok L -> order_ok order -> json_ok Marshal Unmarshal ->
  write_file L order Marshal o cells gs = Ok w -> options_ok o -> groups_ok (cells :: gs.*2) -> file_fits w ->
  Serves sr (w_out (out w)) ->
  exists bc rd, Container.NewReader sr (len (w_out (out w))) = Ok bc /\ Open Unmarshal bc (Default L) = Ok rd /\
    (let edges := edge_entries (AdjacencyEdgeCF o) (concat (cells :: gs.*2)) in
     forall row, Reader_Neighbors rd row =
       if bool_decide (AdjacencyEdgeCF o = [] \/ edges = []) then None else Some (Ok (row_edges row edges))) /\
    Reader_EmbeddingSpace rd = if bool_decide (State (opt_EmbeddingSpace o) = []) then Unknown else opt_EmbeddingSpace o.
Proof.
  intros HL Hord Hj Hw Ho Hg Hf Hs.
  destruct (opened L Marshal Unmarshal order o cells gs w sr HL Hord Hj Hw Ho Hg Hf Hs)
    as (bc & Hr & (rd & Hrd & _ & _ & _ & _ & Hadj & Hes) & _).
  exists bc, rd. split; [done|]. split; [done|]. split.
  - cbv zeta. intros row. unfold Reader_Neighbors. rewrite Hadj. unfold written_adjacency, adj_after.
    set (all := concat _). pose proof (edge_entries_len (AdjacencyEdgeCF o) all) as Hlen. pose proof (go_count _ Hg) as Hcnt. fold all in Hcnt.
    destruct (AdjacencyEdgeCF o) as [|b cf] eqn:Ecf; [by rewrite bool_decide_eq_true_2 by (by left)|]. rewrite <-Ecf in *.
    destruct (decide (edge_entries (AdjacencyEdgeCF o) all = [])) as [E|E].
    + rewrite bool_decide_eq_true_2 by (by right). by rewrite E.
    + rewrite bool_decide_eq_false_2 by (intros [Ee|Ee]; [by rewrite Ecf in Ee|done]).
      destruct (Build_sorted (AdjacencyEdgeCF o) _ E ltac:(lia)) as (ns & -> & Hgr). cbn [fmap option_fmap option_map].
      rewrite Neighbors_grouped by (try done; unfold len in *; rewrite SliceStable_perm; lia). by rewrite sorted_row_edges.
  - unfold Reader_EmbeddingSpace. rewrite Hes. unfold written_embedding.
    destruct (bool_decide_reflect (State (opt_EmbeddingSpace o) = [])) as [E|E]; [by vm_compute|]. by rewrite bool_decide_eq_false_2.
Qed.

Lemma rfile_side_sections_witness :
  exists bc rd, Container.NewReader (bytes_ReadAt (w_out (out demo_file))) (len (w_out (out demo_file))) = Ok bc /\
    Open demo_Unmarshal bc (Default demo_libraries) = Ok rd /\
    Reader_Neighbors rd [5; 5; 5; 5] = Some (Ok [mkEdge [5] [1; 2; 3] 7 false []; mkEdge [5] [1; 2; 4] 7 false []]) /\
    Reader_EmbeddingSpace rd = NoEmbeddings.
Proof.
  destruct (rfile_side_sections demo_libraries map_to_list demo_Marshal demo_Unmarshal demo_options demo_cells demo_groups demo_file
    (bytes_ReadAt (w_out (out demo_file))) demo_libraries_ok (fun m => reflexivity _) demo_json demo_written demo_options_ok
    demo_groups_ok demo_fits (bytes_Serves _)) as (bc & rd & H1 & H2 & H3 & H4).
  exists bc, rd. split; [exact H1|]. split; [exact H2|]. split; [exact (H3 [5; 5; 5; 5])|exact H4].
Defined.

(** Open the demonstration file, set a filter, seek and drain. *)
Definition demo_scan (flt : Key -> bool) (t : option Key) : result (list cell) :=
  bc ← Container.NewReader (bytes_ReadAt (w_out (out demo_file))) (len (w_out (out demo_file)));
  rd ← Open demo_Unmarshal bc (Default demo_libraries);
  drain bc (Default demo_libraries) 20 (Seek bc (Default demo_libraries) t (SetFilter flt rd)).1.


(** Two groups that share a family. *)
Definition shared_family : list (bytes * list cell) := [([103], [(demo_key 1 101 9, [7])])].

(** The writer closes a file that cannot be opened.  Groups are documented
    as independent streams, and the writer takes cells of one family in two of
    them and closes without an error; the container opens, but [Open] and
    [OpenAll] refuse the directory. *)
Theorem shared_family_is_unreadable :
  exists w bc, write_file demo_libraries map_to_list demo_Marshal demo_options demo_cells shared_family = Ok w /\
    Container.NewReader (bytes_ReadAt (w_out (out w))) (len (w_out (out w))) = Ok bc /\
    Open demo_Unmarshal bc (Default demo_libraries) = Err (Fail "rfile: column family belongs to two locality groups") /\
    OpenAll demo_Unmarshal bc (Default demo_libraries) = Err (Fail "rfile: column family belongs to two locality groups").
Proof.
  assert (match write_file demo_libraries map_to_list demo_Marshal demo_options demo_cells shared_family with
    | Ok w => match Container.NewReader (bytes_ReadAt (w_out (out w))) (len (w_out (out w))) with
              | Ok bc => (open_index bc (Default demo_libraries)) = Err (Fail "rfile: column family belongs to two locality groups")
              | Err _ => False end
    | Err _ => False end) as H by (vm_compute; reflexivity).
  destruct (write_file _ _ _ _ _ _) as [w|]; [|done]. exists w.
  destruct (Container.NewReader _ _) as [bc|] eqn:E; [|done]. exists bc. unfold Open, OpenAll. rewrite H. by split_and!.
Qed.
