(* ===== verification/RFileShared.v ===== *)
(** * RFileShared: shared files and the block cache (src/internal/rfile/reader.go)

    A [SharedFile] holds what opening a file computes, its leaves collected;
    many cursors are made from one.  Blocks are fetched through a cache shared
    by the readers of many files.  A shared cursor behaves as a cursor opened
    on the file itself, and a cache changes no answer. *)

From S2P Require Import Prelude Wire Iter RelKey BCFile Container Cache Index EmbeddingSpace BlockMeta Adjacency IndexFile.
From S2P Require Import Codec RFileWriter RFileReader RFileScan RFile.

(** ** Shared files *)

(** The container is that of the file; [idx], which only an accessor returns,
    is left out. *)
Record SharedFile := mkShared {
  sf_lg : LocalityGroup;
  sf_dataCodec : bytes;
  sf_dataBlocks : list BlockRegion;
  sf_bm : option BlockMeta;
  sf_adj : option Adjacency.Index;
  sf_embeddingSpace : FileState;
  sf_leaves : list IndexEntry;
}.

Definition ReadEmbeddingSpaceMetadata (Unmarshal : bytes -> result FileState) (bc : Container.Reader) (dec : Decompressor)
  : result FileState := loadEmbeddingSpace Unmarshal bc dec.

Definition OpenShared (Unmarshal : bytes -> result FileState) (bc : Container.Reader) (dec : Decompressor)
  : result SharedFile :=
  r ← Open Unmarshal bc dec;
  leaves ← collectLeaves r;
  Ok (mkShared (lg r) (dataCodec r) (dataBlocks r) (bm r) (adj r) (embeddingSpace r) leaves).

Definition SharedFile_EmbeddingSpace (sf : SharedFile) : FileState :=
  if bool_decide (State (sf_embeddingSpace sf) = []) then Unknown else sf_embeddingSpace sf.

Definition SharedFile_Neighbors (sf : SharedFile) (row : bytes) : option (result (list Edge)) :=
  (fun ix => Neighbors ix row) <$> sf_adj sf.

(** The walker is nil. *)
Definition NewReaderFromShared (sf : SharedFile) : RFileReader.Reader :=
  mkRReader (sf_lg sf) (mkWalker None None) (sf_dataCodec sf) (sf_dataBlocks sf) (sf_bm sf) (sf_adj sf)
    (sf_embeddingSpace sf) None None true (sf_leaves sf) 0 None None false None.

(** ** The block cache *)

(** [fetchBlock] with the reader's cache and its key; either may be absent. *)
Definition fetchBlock_cached (bc : Container.Reader) (dec : Decompressor) (cacheKey : string)
    (region : BlockRegion) (codec : bytes) (cache : option BlockCache) : option BlockCache * result bytes :=
  match ValidateBlockRegion region (fileLength bc) with
  | Some e => (cache, Err e)
  | None =>
      let enabled := match cache with Some _ => negb (bool_decide (cacheKey = ""%string)) | None => false end in
      let miss cache :=
        match Block dec (src bc) region codec with
        | Err e => (cache, Err e)
        | Ok raw => (if enabled then Put cacheKey (Offset region) raw cache else cache, Ok raw)
        end in
      if enabled then
        match Get cacheKey (Offset region) cache with
        | None => (cache, Err (Fail "panic: nil pointer dereference"))
        | Some (c, (v, true)) => (Some c, Ok v)
        | Some (c, (_, false)) => miss (Some c)
        end
      else miss cache
  end.

(** ** Shared cursors *)

Section shared.
Context (bc : Container.Reader) (dec : Decompressor) (wk : Walker) (ls : list IndexEntry).
Hypothesis Hwk : IterateLeaves wk (fun out e => Ok (out ++ [e])) [] = Ok ls.

(** A cursor as its shared counterpart. *)
Definition as_shared (r : RFileReader.Reader) : RFileReader.Reader :=
  mkRReader (lg r) (mkWalker None None) (dataCodec r) (dataBlocks r) (bm r) (adj r) (embeddingSpace r)
    (filter_ r) (skipPred r) true ls (leafIdx r) (currentBlk r) (pending r) (exhausted r) (lastErr r).

(** A cursor of its own with the leaves in place, or before their collection. *)
Definition collected (r : RFileReader.Reader) : Prop := sharedLeaves r = false /\ walker r = wk /\ leaves r = ls.
Definition uncollected (r : RFileReader.Reader) : Prop :=
  sharedLeaves r = false /\ walker r = wk /\ leaves r = [] /\ fresh r.

(** Two outcomes that agree, with the leaves in place. *)
Definition alike {A} (x y : RFileReader.Reader * A) : Prop := y = (as_shared x.1, x.2) /\ collected x.1.

Lemma alike_intro {A} r (a : A) : collected r -> alike (r, a) (as_shared r, a).
Proof. done. Qed.
Hint Resolve alike_intro : core.

Lemma alike_openLeaf i r : collected r -> alike (openLeaf bc dec i r) (openLeaf bc dec i (as_shared r)).
Proof.
  intros Hr. unfold openLeaf. cbn [leaves as_shared dataBlocks dataCodec filter_]. destruct (Hr) as (_ & _ & ->).
  destruct (ls !! i) as [leaf|]; [|by apply alike_intro]. destruct (wrap _ _) as [raw|e]; by apply alike_intro.
Qed.

Lemma as_shared_skip i r : collected r -> firstNonSkippedFrom i (as_shared r) = firstNonSkippedFrom i r.
Proof. intros (_ & _ & Hl). unfold firstNonSkippedFrom. cbn [skipPred as_shared leaves bm]. by rewrite Hl. Qed.

(** Opens a leaf on both sides. *)
Ltac open_both Hr :=
  match goal with
  | |- alike _ (match openLeaf _ _ ?i (as_shared ?r) with _ => _ end) =>
      let E := fresh "E" in
      pose proof (alike_openLeaf i r Hr) as E; destruct (openLeaf bc dec i r) as [? [[]|?]];
      destruct E as (-> & ?); cbn [fst snd] in *
  end.

Lemma alike_seek_block t r : collected r -> alike (seek_block bc dec t r) (seek_block bc dec t (as_shared r)).
Proof.
  intros Hr. unfold seek_block. change (leafIdx (as_shared r)) with (leafIdx r).
  open_both Hr; [|by apply alike_intro]. cbn [currentBlk as_shared].
  destruct (currentBlk r0) as [b|]; [|by apply alike_intro].
  destruct (skip_to _ t b) as [b1 [c|e]]; [by apply alike_intro|].
  destruct (errors_Is e EOF); [|by apply alike_intro]. cbv zeta.
  set (r1 := closeCurrentBlock (set_blk b1 r0)). change (closeCurrentBlock (set_blk b1 (as_shared r0))) with (as_shared r1).
  change (leafIdx (as_shared r1)) with (leafIdx r1). assert (collected r1) as Hr1 by done. rewrite as_shared_skip by done.
  set (i := firstNonSkippedFrom _ _). set (r2 := set_leafIdx i r1). assert (collected r2) as Hr2 by done.
  change (set_leafIdx i (as_shared r1)) with (as_shared r2). change (leaves (as_shared r2)) with ls.
  pose proof (proj2 (proj2 Hr2)) as ->. change (leafIdx (as_shared r2)) with i. change (leafIdx r2) with i.
  destruct (_ <=? _)%nat; [by apply alike_intro|].
  open_both Hr2; [|by apply alike_intro]. cbn [currentBlk as_shared].
  destruct (currentBlk r3) as [b2|]; [|by apply alike_intro].
  destruct (NextView b2) as [b3 [c|e2]]; [by apply alike_intro|]. destruct (errors_Is e2 EOF); by apply alike_intro.
Qed.

Lemma collected_leafList r : collected r \/ uncollected r -> leafList r = Ok ls.
Proof.
  intros H. unfold leafList, collectLeaves. destruct H as [(-> & -> & ->)|(-> & -> & -> & _)]; rewrite Hwk; [by destruct ls|done].
Qed.

(** Also from a cursor whose leaves are not collected yet. *)
Lemma alike_Seek t r : collected r \/ uncollected r -> alike (Seek bc dec t r) (Seek bc dec t (as_shared r)).
Proof.
  intros Hr. unfold Seek. cbv zeta. set (r0 := set_cursor (leafIdx r) None None false None r).
  change (set_cursor _ None None false None (as_shared r)) with (as_shared r0).
  change (leafList r0) with (leafList r). rewrite collected_leafList by done.
  change (leafList (as_shared r0)) with (Ok ls : result (list IndexEntry)). cbv iota.
  set (r1 := set_leaves ls r0). change (set_leaves ls (as_shared r0)) with (as_shared r1).
  assert (collected r1) as Hr1 by (destruct Hr as [(? & ? & _)|(? & ? & _)]; by split_and!).
  clearbody r1. case_eq ls; [intros _; by apply alike_intro|]. intros l ls' El. rewrite <-El.
  destruct (match t with None => _ | Some _ => _ end) as [i|]; [|by apply alike_intro].
  rewrite as_shared_skip by done. destruct (_ <=? _)%nat; [by apply alike_intro|].
  set (i' := firstNonSkippedFrom _ _). change (set_leafIdx i' (as_shared r1)) with (as_shared (set_leafIdx i' r1)).
  by apply alike_seek_block.
Qed.

Lemma alike_advanceBlock r : collected r -> alike (advanceBlock bc dec r) (advanceBlock bc dec (as_shared r)).
Proof.
  intros Hr. unfold advanceBlock. cbv zeta. change (closeCurrentBlock (as_shared r)) with (as_shared (closeCurrentBlock r)).
  change (leafIdx (as_shared (closeCurrentBlock r))) with (leafIdx (closeCurrentBlock r)). rewrite as_shared_skip by done.
  set (i := firstNonSkippedFrom _ _). set (r2 := set_leafIdx i (closeCurrentBlock r)). assert (collected r2) as Hr2 by done.
  change (set_leafIdx i (as_shared _)) with (as_shared r2). change (leaves (as_shared r2)) with ls.
  pose proof (proj2 (proj2 Hr2)) as ->. change (leafIdx (as_shared r2)) with (leafIdx r2).
  destruct (_ <=? _)%nat; [by apply alike_intro|]. by apply alike_openLeaf.
Qed.

Lemma alike_Next_loop fuel r : collected r -> alike (Next_loop bc dec fuel r) (Next_loop bc dec fuel (as_shared r)).
Proof.
  revert r. induction fuel as [|fuel IH]; intros r Hr; [by apply alike_intro|]. cbn [Next_loop].
  change (lastErr (as_shared r)) with (lastErr r). destruct (lastErr r) as [e|]; [by apply alike_intro|].
  change (exhausted (as_shared r)) with (exhausted r). destruct (exhausted r); [by apply alike_intro|].
  assert (alike (match currentBlk r, pending r with
      | None, None => match Seek bc dec None r with
          | (r, Err e) => (fail_with e r, Some e) | (r, Ok _) => (r, if exhausted r then Some EOF else None) end
      | _, _ => (r, None) end)
    (match currentBlk (as_shared r), pending (as_shared r) with
      | None, None => match Seek bc dec None (as_shared r) with
          | (r, Err e) => (fail_with e r, Some e) | (r, Ok _) => (r, if exhausted r then Some EOF else None) end
      | _, _ => (as_shared r, None) end)) as H.
  { cbn [currentBlk pending as_shared]. destruct (currentBlk r); [by apply alike_intro|]. destruct (pending r); [by apply alike_intro|].
    pose proof (alike_Seek None r (or_introl Hr)) as H. destruct (Seek bc dec None r) as [r1 [[]|e]];
      destruct H as (-> & ?); by apply alike_intro. }
  destruct (match currentBlk r, pending r with None, None => _ | _, _ => _ end) as [r1 e]. destruct H as (-> & Hr1).
  cbn [fst snd pending as_shared currentBlk] in *. destruct e as [e|]; [by apply alike_intro|].
  destruct (pending r1) as [c|]; [by apply alike_intro|]. destruct (currentBlk r1) as [b|]; [|by apply alike_intro].
  destruct (Reader_Next b) as [b1 [c|e]]; [by apply alike_intro|]. destruct (errors_Is e EOF); [|by apply alike_intro].
  pose proof (alike_advanceBlock (set_blk b1 r1) Hr1) as H. change (set_blk b1 (as_shared r1)) with (as_shared (set_blk b1 r1)).
  destruct (advanceBlock bc dec (set_blk b1 r1)) as [r2 [[]|e2]]; destruct H as (-> & Hr2); [|by apply alike_intro].
  cbn [fst snd exhausted as_shared] in *. destruct (exhausted r2); [by apply alike_intro|by apply IH].
Qed.

(** The first [Next] of a cursor collects its leaves, so its fuel is less than
    that of the shared one; both stop on the first turn. *)
Lemma alike_Next r : collected r \/ uncollected r -> alike (Next bc dec r) (Next bc dec (as_shared r)).
Proof.
  intros [Hr|Hr].
  - unfold Next. change (leaves (as_shared r)) with ls. change (leafIdx (as_shared r)) with (leafIdx r).
    pose proof (proj2 (proj2 Hr)) as ->. by apply alike_Next_loop.
  - assert (forall n, alike (Next_loop bc dec (S n) r) (Next_loop bc dec (S n) (as_shared r)) /\
      Next_loop bc dec (S n) r = Next_loop bc dec 1 r) as H.
    { intros n. cbn [Next_loop]. destruct (Hr) as (_ & _ & _ & H1 & H2 & H3 & H4).
      cbn [lastErr exhausted currentBlk pending as_shared]. rewrite H1, H2, H3, H4.
      pose proof (alike_Seek None r (or_intror Hr)) as H. pose proof (Seek_landed bc dec None r) as Hl.
      destruct (Seek bc dec None r) as [r1 [[]|e]]; destruct H as (-> & Hr1); [|by split; [apply alike_intro|]].
      destruct (Hl r1 eq_refl) as [Hx|[c Hc]]; cbn [fst snd exhausted pending as_shared] in *.
      - rewrite Hx. by split; [apply alike_intro|].
      - rewrite Hc. destruct (exhausted r1); by split; [apply alike_intro|]. }
    unfold Next. destruct (H (S (length (leaves r) - leafIdx r))) as [_ ->]. destruct (H (S (length (leaves (as_shared r)) - leafIdx (as_shared r)))) as [Ha E].
    by rewrite E in Ha.
Qed.

Lemma run_alike ops r : collected r \/ uncollected r -> run_reader bc dec ops (as_shared r) = run_reader bc dec ops r.
Proof.
  revert r. induction ops as [|[t|] ops IH]; intros r Hr; [done|..]; cbn [run_reader reader_step].
  - pose proof (alike_Seek t r Hr) as H. destruct (Seek bc dec t r) as [r1 x]. destruct H as (-> & Hr1). cbn [fst snd] in *.
    f_equal. apply IH. by left.
  - pose proof (alike_Next r Hr) as H. destruct (Next bc dec r) as [r1 x]. destruct H as (-> & Hr1). cbn [fst snd] in *.
    f_equal. apply IH. by left.
Qed.
End shared.

(** What opening leaves in the reader. *)
Lemma Open_new Unmarshal bc dec rd :
  Open Unmarshal bc dec = Ok rd -> exists v g codec blocks bm adj es, rd = new_reader bc dec v g codec blocks bm adj es.
Proof.
  unfold Open. destruct (open_index bc dec) as [idx|]; [|done]. cbn [mbind result_bind].
  destruct (pickDefaultLG (Groups idx)) as [g|]; [|done].
  destruct (loadDataCodec bc dec) as [[codec blocks]|]; [|done]. cbn [wrap mbind result_bind].
  destruct (loadBlockMeta bc dec); [|done]. cbn [wrap mbind result_bind].
  destruct (loadAdjacency bc dec); [|done]. cbn [wrap mbind result_bind].
  destruct (loadEmbeddingSpace Unmarshal bc dec); [|done]. intros [= <-]. by repeat eexists.
Qed.

Lemma Open_embedding Unmarshal bc dec rd :
  Open Unmarshal bc dec = Ok rd -> ReadEmbeddingSpaceMetadata Unmarshal bc dec = Ok (embeddingSpace rd).
Proof.
  unfold Open, ReadEmbeddingSpaceMetadata. destruct (open_index bc dec) as [idx|]; [|done]. cbn [mbind result_bind].
  destruct (pickDefaultLG (Groups idx)) as [g|]; [|done].
  destruct (loadDataCodec bc dec) as [[codec blocks]|]; [|done]. cbn [wrap mbind result_bind].
  destruct (loadBlockMeta bc dec); [|done]. cbn [wrap mbind result_bind].
  destruct (loadAdjacency bc dec); [|done]. cbn [wrap mbind result_bind].
  destruct (loadEmbeddingSpace Unmarshal bc dec); [|done]. by intros [= <-].
Qed.

(** ** The cache against the file *)

(** A fetch of a data or meta block of the file with the given key, or the
    removal of a file's blocks. *)
Inductive cache_use :=
| UFetch (key : string) (region : BlockRegion) (codec : bytes)
| UDrop (key : string).

Section cached.
Context (dec : Decompressor) (file : string -> Container.Reader).

Definition use_cached (u : cache_use) (c : option BlockCache) : option BlockCache * option (result bytes) :=
  match u with
  | UFetch key region codec =>
      let '(c, r) := fetchBlock_cached (file key) dec key region codec c in (c, Some r)
  | UDrop key => (Cache.Drop key c, None)
  end.
Fixpoint run_cached (us : list cache_use) (c : option BlockCache) : list (option (result bytes)) :=
  match us with [] => [] | u :: us => let '(c, x) := use_cached u c in x :: run_cached us c end.

Definition use_uncached (u : cache_use) : option (result bytes) :=
  match u with
  | UFetch key region codec => Some (fetchBlock (file key) dec region codec)
  | UDrop _ => None
  end.

(** Fetches of one file at one offset are the same fetch. *)
Definition one_block_per_offset (us : list cache_use) : Prop :=
  forall key r1 c1 r2 c2, UFetch key r1 c1 ∈ us -> UFetch key r2 c2 ∈ us -> Offset r1 = Offset r2 -> r1 = r2 /\ c1 = c2.

(** What the cache holds of the blocks to be fetched is right. *)
Record coherent (us : list cache_use) (c : BlockCache) : Prop := {
  coh_inv : cache_inv c;
  coh_blocks key region codec p :
    UFetch key region codec ∈ us -> mkBlock (key, Offset region) p ∈ blocks_of c -> fetchBlock (file key) dec region codec = Ok p;
}.

Lemma coherent_sub us c c' :
  coherent us c -> cache_inv c' -> (forall e, e ∈ blocks_of c' -> e ∈ blocks_of c) -> coherent us c'.
Proof. intros [_ H] Hi Hsub. split; [done|]. intros key region codec p Hu Hp. eapply H; [exact Hu|by apply Hsub]. Qed.

Lemma elem_of_fit cap l e : e ∈ fit cap l -> e ∈ l.
Proof.
  revert cap. induction l as [|d l IH]; intros cap; [done|]. cbn [fit]. destruct (_ <=? _); [|by intros ?%elem_of_nil].
  rewrite !elem_of_cons. intros [->|H]; [by left|right; by eapply IH].
Qed.

Lemma elem_of_without k l e : e ∈ without k l -> e ∈ l.
Proof. unfold without. rewrite list_elem_of_filter. by intros []. Qed.

Lemma spec_find_Some k l e : spec_find k l = Some e -> b_key e = k /\ e ∈ l.
Proof. intros H. apply find_some in H as [Hin Hk]. split; [by apply bool_decide_eq_true in Hk|by apply list_elem_of_In]. Qed.

Lemma Get_coherent us key off c :
  coherent us c -> exists c' v ok, Get key off (Some c) = Some (c', (v, ok)) /\ coherent us c' /\
    (ok = true -> mkBlock (key, off) v ∈ blocks_of c).
Proof.
  intros Hc. pose proof (coh_inv _ _ Hc) as Hi. destruct (Z.leb_spec (c_capacity c) 0) as [Hcap|Hcap].
  - unfold Get. rewrite (proj2 (Z.leb_le _ _) Hcap). eexists _, _, _. split; [reflexivity|]. split; [|done].
    apply (coherent_sub us c); [done| |done]. split; [apply Hi|apply (inv_next c Hi)|apply (inv_lookup c Hi)|apply (inv_bytes c Hi)].
  - destruct (Get_refines key off c Hi Hcap) as (c' & v & ok & E & Hi' & _ & Hs & _). exists c', v, ok. split; [done|].
    unfold spec_Get in Hs. destruct (spec_find (key, off) (blocks_of c)) as [e|] eqn:Ef.
    + apply spec_find_Some in Ef as [Hk He]. destruct ok; [|done]. injection Hs as Hb Hv. split.
      * apply (coherent_sub us c); [done..|]. intros d. rewrite <-Hb, elem_of_cons. intros [->|Hd]; [done|]. by eapply elem_of_without.
      * intros _. rewrite <-Hk, <-Hv. by destruct e.
    + destruct ok; [done|]. injection Hs as Hb. split; [|done]. apply (coherent_sub us c); [done..|]. by rewrite Hb.
Qed.

Lemma Put_coherent us key region codec raw c :
  one_block_per_offset us -> UFetch key region codec ∈ us -> fetchBlock (file key) dec region codec = Ok raw ->
  coherent us c -> exists c', Put key (Offset region) raw (Some c) = Some c' /\ coherent us c'.
Proof.
  intros Hone Hu Hf Hc. destruct (Z.leb_spec (c_capacity c) 0) as [Hcap|Hcap].
  { unfold Put. rewrite (proj2 (Z.leb_le _ _) Hcap). by exists c. }
  destruct (decide (raw = [])) as [->|Hne].
  { unfold Put. change (len [] =? 0) with true. rewrite orb_true_r. by exists c. }
  destruct (Put_refines key (Offset region) raw c (coh_inv _ _ Hc) Hcap Hne) as (c' & E & Hi & _ & Hb). exists c'. split; [done|].
  split; [done|]. intros key' r' codec' p Hu' Hp. rewrite Hb in Hp. apply elem_of_fit, elem_of_cons in Hp as [Hp|Hp].
  - injection Hp as -> Ho ->. by destruct (Hone _ _ _ _ _ Hu' Hu Ho) as [-> ->].
  - apply elem_of_without in Hp. by eapply (coh_blocks _ _ Hc).
Qed.

Lemma Drop_coherent us key c : coherent us c -> exists c', Cache.Drop key (Some c) = Some c' /\ coherent us c'.
Proof.
  intros Hc. destruct (Drop_refines key c (coh_inv _ _ Hc)) as (c' & E & Hi & _ & Hb). exists c'. split; [done|].
  apply (coherent_sub us c); [done..|]. rewrite Hb. intros e. unfold spec_Drop. rewrite list_elem_of_filter. by intros [].
Qed.

Lemma fetch_coherent us key region codec c :
  one_block_per_offset us -> UFetch key region codec ∈ us -> coherent us c ->
  exists c', fetchBlock_cached (file key) dec key region codec (Some c) = (Some c', fetchBlock (file key) dec region codec) /\
    coherent us c'.
Proof.
  intros Hone Hu Hc. pose proof (Get_coherent us key (Offset region) c Hc) as (c1 & v & ok & Eg & Hc1 & Hv).
  pose proof (fun raw H => Put_coherent us key region codec raw c1 Hone Hu H Hc1) as Hput.
  pose proof (fun H => coh_blocks _ _ Hc key region codec v Hu (Hv H)) as Hhit.
  unfold fetchBlock_cached. unfold fetchBlock in *. destruct (ValidateBlockRegion region _) as [e|]; [by exists c|].
  destruct (negb _).
  - rewrite Eg. destruct ok.
    + exists c1. split; [|done]. by rewrite Hhit.
    + destruct (Block dec _ region codec) as [raw|e]; [|by exists c1]. destruct (Hput raw eq_refl) as (c2 & -> & Hc2). by exists c2.
  - exists c. destruct (Block dec _ region codec); by split.
Qed.

Lemma run_coherent us vs c :
  one_block_per_offset us -> coherent us c -> vs ⊆ us -> run_cached vs (Some c) = use_uncached <$> vs.
Proof.
  intros Hone. revert c. induction vs as [|v vs IH]; intros c Hc Hsub; [done|].
  assert (v ∈ us) as Hv by (apply Hsub; by left). assert (vs ⊆ us) as Hvs by (intros x Hx; apply Hsub; by right).
  cbn [run_cached fmap list_fmap]. destruct v as [key region codec|key]; cbn [use_cached use_uncached].
  - destruct (fetch_coherent us key region codec c Hone Hv Hc) as (c' & -> & Hc'). f_equal. by apply IH.
  - destruct (Drop_coherent us key c Hc) as (c' & -> & Hc'). f_equal. by apply IH.
Qed.
End cached.

(** ** Properties *)

(** C26: a shared file's cursors are the file's.  Whenever [OpenShared]
    succeeds, on any file, [Open] succeeds, and a cursor made from the shared
    file answers any sequence of seeks and nexts, under any filter and skip
    predicate, exactly as the opened one; the edges and the embedding state
    are the same, and reading the embedding state alone gives it too. *)
Theorem shared_cursor_equiv Unmarshal bc dec sf :
  OpenShared Unmarshal bc dec = Ok sf ->
  exists rd, Open Unmarshal bc dec = Ok rd /\
    (forall flt p ops,
       let setup r := SetSkipPredicate p (match flt with Some f => SetFilter f r | None => r end) in
       run_reader bc dec ops (setup (NewReaderFromShared sf)) = run_reader bc dec ops (setup rd)) /\
    (forall row, SharedFile_Neighbors sf row = Reader_Neighbors rd row) /\
    SharedFile_EmbeddingSpace sf = Reader_EmbeddingSpace rd /\
    ReadEmbeddingSpaceMetadata Unmarshal bc dec = Ok (embeddingSpace rd).
Proof.
  unfold OpenShared. destruct (Open Unmarshal bc dec) as [rd|] eqn:Eo; [|done]. cbn [mbind result_bind].
  destruct (collectLeaves rd) as [ls|] eqn:El; [|done]. cbn [mbind result_bind]. intros [= <-]. exists rd. split; [done|].
  split; [|split_and!; [done..|by eapply Open_embedding]]. intros flt p ops. cbv zeta.
  set (r := SetSkipPredicate p (match flt with Some f => SetFilter f rd | None => rd end)).
  destruct (Open_new _ _ _ _ Eo) as (v & g & codec & blocks & bm & adj & es & ->).
  etrans; [|apply (run_alike bc dec _ ls El ops r); right; unfold r, uncollected, fresh; destruct flt; by split_and!].
  f_equal. unfold r. by destruct flt.
Qed.

(** Three seeks and some nexts over the demonstration file. *)
Definition demo_ops : list cursor_op := [ONext; OSeek (Some (demo_key 5 0 0)); ONext; ONext; OSeek (Some (demo_key 9 0 0)); ONext].

Lemma shared_cursor_equiv_witness :
  exists bc sf rd, Container.NewReader (bytes_ReadAt (w_out (out demo_file))) (len (w_out (out demo_file))) = Ok bc /\
    OpenShared demo_Unmarshal bc (Default demo_libraries) = Ok sf /\ Open demo_Unmarshal bc (Default demo_libraries) = Ok rd /\
    run_reader bc (Default demo_libraries) demo_ops (SetSkipPredicate None (NewReaderFromShared sf)) =
      run_reader bc (Default demo_libraries) demo_ops (SetSkipPredicate None rd) /\
    (fun x => match x with Ok _ => true | Err _ => false end) <$> run_reader bc (Default demo_libraries) demo_ops (NewReaderFromShared sf) =
      [true; true; true; true; true; false].
Proof.
  assert (match Container.NewReader (bytes_ReadAt (w_out (out demo_file))) (len (w_out (out demo_file))) with
    | Ok bc => match OpenShared demo_Unmarshal bc (Default demo_libraries) with
               | Ok sf => (fun x => match x with Ok _ => true | Err _ => false end) <$>
                   run_reader bc (Default demo_libraries) demo_ops (NewReaderFromShared sf) = [true; true; true; true; true; false]
               | Err _ => False end
    | Err _ => False end) as H by (vm_compute; reflexivity).
  destruct (Container.NewReader _ _) as [bc|]; [|done]. destruct (OpenShared _ bc _) as [sf|] eqn:E; [|done].
  destruct (shared_cursor_equiv demo_Unmarshal bc (Default demo_libraries) sf E) as (rd & Ho & Hr & _).
  exists bc, sf, rd. split; [reflexivity|]. split; [exact E|]. split; [exact Ho|]. split; [exact (Hr None None demo_ops)|exact H].
Defined.

(** The block cache is transparent.  Readers of any number of files that
    share one cache of any capacity, fetching blocks in any order, with files
    dropped from the cache in between, get from every fetch exactly the bytes
    or the error they would get without a cache, as long as the fetches of one
    file at one offset ask for the same region in the same codec; so they do
    when the cache is absent. *)
Theorem block_cache_is_transparent dec file us cap :
  one_block_per_offset us ->
  run_cached dec file us (Some (NewBlockCache cap)) = use_uncached dec file <$> us /\
  run_cached dec file us None = use_uncached dec file <$> us.
Proof.
  intros Hone. split.
  - apply (run_coherent dec file us us); [done| |done]. split; [apply new_inv|]. by intros ? ? ? ? _ ?%elem_of_nil.
  - clear Hone. induction us as [|u us IH]; [done|]. cbn [run_cached fmap list_fmap]. rewrite <-IH.
    destruct u as [key region codec|key]; [|done]. cbn [use_cached use_uncached]. unfold fetchBlock_cached, fetchBlock.
    destruct (ValidateBlockRegion region _); [done|]. by destruct (Block dec _ region codec).
Qed.

(** Two files under one small cache: hits, an eviction, a drop, a region that
    is out of bounds. *)
Definition demo_cached_files (key : string) : Container.Reader :=
  let data := if bool_decide (key = "a"%string) then [1; 2; 3; 4; 5; 6] else [7; 8; 9; 10; 11; 12] in
  Container.mkReader (bytes_ReadAt data) 6 (mkFooter APIVersion1 0 0) (mkMetaIndex ∅).
Definition demo_uses : list cache_use :=
  let r n := mkRegion n 2 2 in
  [UFetch "a" (r 0) CodecNone; UFetch "b" (r 0) CodecNone; UFetch "a" (r 0) CodecNone; UFetch "a" (r 2) CodecNone;
   UFetch "b" (r 0) CodecNone; UDrop "a"; UFetch "a" (r 2) CodecNone; UFetch "a" (r 5) CodecNone].

Lemma block_cache_is_transparent_witness :
  one_block_per_offset demo_uses /\
  run_cached (Default demo_libraries) demo_cached_files demo_uses (Some (NewBlockCache 5)) =
    [Some (Ok [1; 2]); Some (Ok [7; 8]); Some (Ok [1; 2]); Some (Ok [3; 4]); Some (Ok [7; 8]); None; Some (Ok [3; 4]);
     Some (Err (Fail "bcfile: block region out of bounds"))].
Proof.
  assert (one_block_per_offset demo_uses) as H.
  { intros key r1 c1 r2 c2 H1 H2 Ho. unfold demo_uses in H1, H2. rewrite !elem_of_cons, elem_of_nil in H1, H2.
    destruct_or!; simplify_eq; done. }
  split; [exact H|]. rewrite (proj1 (block_cache_is_transparent (Default demo_libraries) demo_cached_files demo_uses 5 H)).
  vm_compute. reflexivity.
Defined.
