(* ===== verification/RFileSource.v ===== *)
(** * RFileSource: an RFile as the leaf of an iterator stack
    (src/internal/iterrt/source_rfile.go)

    The adapter puts the one-cell lookahead of the iterator contract over a
    file's cursor, and applies the range's bounds and the column families,
    which the cursor does not know.  It keeps the contract over any cursor
    that stands on a sorted list of cells. *)

From S2P Require Import Prelude Wire Iter RelKey BCFile Container Index IndexFile Codec RFileReader RFileScan.

(** [rf_opener]'s function reads an immutable file, so it is its result; the
    container and the codecs belong to the reader. *)
Record RFileSource := mkRFileSource {
  rf_bc : Container.Reader;
  rf_dec : Decompressor;
  rf_rdr : RFileReader.Reader;
  rf_opener : option (result RFileReader.Reader);
  rf_rng : Range;
  rf_cfs : list bytes;
  rf_inclusive : bool;
  rf_top : option Cell;
  rf_err : option err;
}.

Definition NewRFileSource (bc : Container.Reader) (dec : Decompressor) (rdr : RFileReader.Reader)
    (opener : option (result RFileReader.Reader)) : RFileSource :=
  mkRFileSource bc dec rdr opener zero_range [] false None None.

Definition RFileSource_Init {I} (source : option I) (s : RFileSource) : option err :=
  match source with
  | Some _ => Some (Fail "iterrt: RFileSource is a leaf iterator, source must be nil")
  | None => None
  end.

Definition rf_set (rdr : RFileReader.Reader) (top : option Cell) (e : option err) (s : RFileSource) : RFileSource :=
  mkRFileSource (rf_bc s) (rf_dec s) rdr (rf_opener s) (rf_rng s) (rf_cfs s) (rf_inclusive s) top e.

(** The cells of the file, by its index. *)
Definition entries (r : RFileReader.Reader) : nat := list_sum ((fun l => Z.to_nat (NumEntries l)) <$> leaves r).

(** The loop of [advance]; each turn takes one of the file's cells. *)
Fixpoint RFileSource_advance (fuel : nat) (s : RFileSource) : RFileSource * option err :=
  match fuel with
  | O => (s, Some OutOfFuel)
  | S fuel =>
      match RFileReader.Next (rf_bc s) (rf_dec s) (rf_rdr s) with
      | (rdr, Err e) =>
          if errors_Is e EOF then (rf_set rdr None (rf_err s) s, None) else (rf_set rdr (rf_top s) (Some e) s, Some e)
      | (rdr, Ok (k, v)) =>
          let s' := rf_set rdr (rf_top s) (rf_err s) s in
          if BeforeStart (rf_rng s) k then RFileSource_advance fuel s'
          else if AfterEnd (rf_rng s) k then (rf_set rdr None (rf_err s) s, None)
          else if negb (cfAllowed (ColumnFamily k) (rf_cfs s) (rf_inclusive s)) then RFileSource_advance fuel s'
          else (rf_set rdr (Some (k, v)) (rf_err s) s, None)
      end
  end.

Definition RFileSource_Seek (r : Range) (cfs : list bytes) (inclusive : bool) (s : RFileSource) : RFileSource * option err :=
  let start := if InfiniteStart r then None else Start r in
  match RFileReader.Seek (rf_bc s) (rf_dec s) start (rf_rdr s) with
  | (rdr, Err e) => (mkRFileSource (rf_bc s) (rf_dec s) rdr (rf_opener s) r cfs inclusive None (Some e), Some e)
  | (rdr, Ok _) =>
      RFileSource_advance (S (entries rdr)) (mkRFileSource (rf_bc s) (rf_dec s) rdr (rf_opener s) r cfs inclusive None None)
  end.

Definition RFileSource_Next (s : RFileSource) : RFileSource * option err :=
  match rf_err s with
  | Some e => (s, Some e)
  | None =>
      match rf_top s with
      | None => (s, Some (Fail "iterrt: RFileSource.Next called without a top"))
      | Some _ => RFileSource_advance (S (entries (rf_rdr s))) (rf_set (rf_rdr s) None (rf_err s) s)
      end
  end.

(** A nil or failing opener panics: the copy is unusable. *)
Definition RFileSource_DeepCopy (env : IteratorEnvironment) (s : RFileSource) : RFileSource :=
  match rf_opener s with
  | Some (Ok rdr) => NewRFileSource (rf_bc s) (rf_dec s) rdr (rf_opener s)
  | _ => rf_set (rf_rdr s) None (Some Panic) s
  end.

#[export] Instance RFileSource_SKVI : SKVI RFileSource := {
  Seek := RFileSource_Seek;
  Next := RFileSource_Next;
  HasTop s := (s, bool_decide (is_Some (rf_top s)));
  GetTopKey s := fst <$> rf_top s;
  GetTopValue s := snd <$> rf_top s;
  DeepCopy := RFileSource_DeepCopy;
  bound s := S (entries (rf_rdr s));
}.

(** ** A cursor with its leaves in place *)

Section cursor.
Context (bc : Container.Reader) (dec : Decompressor).

(** The cursor stands in [G] before [rem]. *)
Definition placed (G : list cell) (r : RFileReader.Reader) (rem : list cell) : Prop :=
  filter_ r = None /\ skipPred r = None /\ known_leaves r = Ok (leaves r) /\
  exists Bs, has_blocks bc dec r Bs /\ leaf_ends (leaves r) Bs /\ concat Bs = G /\ sorted_cells G /\ views bc dec r Bs rem /\ list.suffix rem G.

Lemma placed_stands G r rem : placed G r rem -> stands bc dec G r rem.
Proof.
  intros (Hf & Hp & Hk & Bs & Hb & He & Hg & Hs & Hv & _). split; [done|]. split; [done|]. exists (leaves r), Bs.
  split_and!; try done. by right.
Qed.

Lemma entries_blocks r Bs : has_blocks bc dec r Bs -> entries r = length (concat Bs).
Proof.
  unfold has_blocks, entries. generalize (leaves r). induction 1 as [|l B ls Bs (_ & Hn & _) _ IH]; [done|].
  rewrite fmap_cons. cbn [list_sum foldr concat]. change (foldr Nat.add 0%nat) with list_sum. rewrite IH, length_app, Hn. unfold len. lia.
Qed.

Lemma placed_bound G r rem : placed G r rem -> (length rem <= entries r)%nat.
Proof.
  intros (_ & _ & _ & Bs & Hb & _ & <- & _ & _ & [l E]). rewrite (entries_blocks r Bs Hb), E, length_app. lia.
Qed.

Lemma placed_sorted G r rem : placed G r rem -> sorted_cells rem.
Proof.
  intros (_ & _ & _ & Bs & _ & _ & _ & Hs & _ & [l ->]). by apply sorted_cells_app in Hs as (_ & ? & _).
Qed.

Lemma wanted_suffix t G : sorted_cells G -> list.suffix (wanted None t G) G.
Proof.
  intros Hs. unfold wanted. rewrite accepted_None, <-drop_while_filter; [|apply below_target_down|done].
  clear Hs. induction G as [|c G IH]; [done|]. cbn [drop_while]. destruct (below_target t c.1); [by apply suffix_cons_r|done].
Qed.

Lemma Seek_placed G r rem t :
  stands bc dec G r rem -> exists r', RFileReader.Seek bc dec t r = (r', Ok tt) /\ placed G r' (wanted None t G).
Proof.
  intros (Hf & Hp & ls & Bs & Hk & Hb & He & Hg & Hs & _).
  destruct (Seek_spec bc dec r ls Bs t Hk Hb) as (r' & E & Hst & Hv). exists r'. split; [done|].
  pose proof (f_equal leaves Hst : leaves r' = ls) as El.
  split; [etrans; [apply (f_equal filter_ Hst)|done]|]. split; [etrans; [apply (f_equal skipPred Hst)|done]|].
  split; [rewrite El; by eapply known_leaves_still|]. exists Bs. split_and!.
  - apply (has_blocks_still bc dec (set_leaves ls r)); done.
  - by rewrite El.
  - done.
  - done.
  - rewrite <-Hg, <-(scan_all (set_leaves ls r) Bs t); try done. by rewrite Hg.
  - by apply wanted_suffix.
Qed.

Lemma Next_placed G r rem :
  placed G r rem ->
  match rem with
  | [] => exists r', RFileReader.Next bc dec r = (r', Err EOF) /\ placed G r' []
  | c :: rem => exists r', RFileReader.Next bc dec r = (r', Ok c) /\ placed G r' rem
  end.
Proof.
  intros (Hf & Hp & Hk & Bs & Hb & He & Hg & Hs & Hv & Hsuf). pose proof (Next_views bc dec r Bs rem Hv) as Hn.
  assert (forall r' rem', still r' = still r -> views bc dec r' Bs rem' -> list.suffix rem' G -> placed G r' rem') as Hgo.
  { intros r' rem' Hst Hv' Hsuf'. pose proof (f_equal leaves Hst : leaves r' = leaves r) as El.
    split; [etrans; [apply (f_equal filter_ Hst)|done]|]. split; [etrans; [apply (f_equal skipPred Hst)|done]|].
    split; [rewrite El; eapply known_leaves_still; [exact Hk|]; by destruct r|].
    exists Bs. split_and!; try done; [by eapply has_blocks_still|by rewrite El]. }
  destruct rem as [|c rem]; destruct Hn as (r' & E & Hv' & Hst); exists r'; (split; [done|]); apply Hgo; try done.
  destruct Hsuf as [l ->]. by exists (l ++ [c]); rewrite <-app_assoc.
Qed.
End cursor.

(** ** The adapter keeps the contract *)

(** The cells a cursor has yet to deliver, and all the cells of its file. *)
Definition rest (bc : Container.Reader) (dec : Decompressor) (r : RFileReader.Reader) : list Cell :=
  match drain bc dec (S (entries r)) r with Ok l => l | Err _ => [] end.
Definition file_cells (s : RFileSource) : list Cell :=
  match RFileReader.Seek (rf_bc s) (rf_dec s) None (rf_rdr s) with (r, Ok _) => rest (rf_bc s) (rf_dec s) r | _ => [] end.

Abbreviation rf_in s := (fun c => in_seek (rf_rng s) (rf_cfs s) (rf_inclusive s) c = true).

Definition rf_ready (s : RFileSource) : Prop := exists G rem, stands (rf_bc s) (rf_dec s) G (rf_rdr s) rem.
Definition rf_live (s : RFileSource) : Prop :=
  rf_err s = None /\ exists G rem, placed (rf_bc s) (rf_dec s) G (rf_rdr s) rem /\
    match rf_top s with Some c => list.suffix (c :: rem) G /\ in_seek (rf_rng s) (rf_cfs s) (rf_inclusive s) c = true | None => True end.
Definition rf_view (s : RFileSource) : list Cell :=
  match rf_top s with Some c => c :: filter (rf_in s) (rest (rf_bc s) (rf_dec s) (rf_rdr s)) | None => [] end.
Definition rf_scan (s : RFileSource) (r : Range) (cfs : list bytes) (incl : bool) : list Cell :=
  filter (fun c => in_seek r cfs incl c = true) (file_cells s).

Lemma rest_placed bc dec G r rem : placed bc dec G r rem -> rest bc dec r = rem.
Proof.
  intros H. pose proof (placed_bound _ _ _ _ _ H) as Hb. destruct H as (_ & _ & _ & Bs & _ & _ & _ & _ & Hv & _).
  unfold rest. by rewrite (drain_views bc dec r Bs rem) by (done || lia).
Qed.

Lemma file_cells_stands s G rem : stands (rf_bc s) (rf_dec s) G (rf_rdr s) rem -> file_cells s = G.
Proof.
  intros H. unfold file_cells. destruct (Seek_placed _ _ _ _ _ None H) as (r' & -> & Hp). rewrite (rest_placed _ _ _ _ _ Hp).
  unfold wanted. rewrite accepted_None. by apply filter_all, Forall_true.
Qed.

Lemma rf_live_ready s : rf_live s -> rf_ready s.
Proof. intros (_ & G & rem & H & _). exists G, rem. by apply placed_stands. Qed.

(** [advance] stops at the next cell of the seek. *)
Lemma RFileSource_advance_ok G rem fuel s :
  rf_err s = None -> placed (rf_bc s) (rf_dec s) G (rf_rdr s) rem -> (length rem < fuel)%nat ->
  exists s', RFileSource_advance fuel s = (s', None) /\ rf_live s' /\ rf_view s' = filter (rf_in s) rem /\ file_cells s' = G.
Proof.
  revert rem s. induction fuel as [|fuel IH]; intros rem s He Hp Hf; [lia|]. cbn [RFileSource_advance].
  pose proof (placed_sorted _ _ _ _ _ Hp) as Hs. pose proof Hp as (_ & _ & _ & _ & _ & _ & _ & _ & _ & Hsuf).
  pose proof (Next_placed _ _ _ _ _ Hp) as Hn.
  assert (forall r' rem' top, placed (rf_bc s) (rf_dec s) G r' rem' ->
    match top with Some c => list.suffix (c :: rem') G /\ in_seek (rf_rng s) (rf_cfs s) (rf_inclusive s) c = true | None => True end ->
    rf_live (rf_set r' top (rf_err s) s) /\ file_cells (rf_set r' top (rf_err s) s) = G) as Hend.
  { intros r' rem' top Hp' Htop. split; [split; [done|]; exists G, rem'; done|]. apply (file_cells_stands _ G rem'). by apply placed_stands. }
  destruct rem as [|[k v] rem]; destruct Hn as (r' & -> & Hp'); cbn beta iota.
  - destruct (Hend r' [] None Hp' I) as [H1 H2]. by eexists.
  - cbn [length] in Hf.
    assert (in_seek (rf_rng s) (rf_cfs s) (rf_inclusive s) (k, v) =
      negb (BeforeStart (rf_rng s) k) && negb (AfterEnd (rf_rng s) k) && cfAllowed (ColumnFamily k) (rf_cfs s) (rf_inclusive s)) as Hin
      by (unfold in_seek; by rewrite Contains_split).
    assert (exists s', RFileSource_advance fuel (rf_set r' (rf_top s) (rf_err s) s) = (s', None) /\ rf_live s' /\
      rf_view s' = filter (rf_in s) rem /\ file_cells s' = G) as Hrec by (apply (IH rem (rf_set r' _ _ s)); [done|done|lia]).
    destruct (BeforeStart (rf_rng s) k) eqn:Eb; cbn [negb andb] in Hin; [rewrite filter_cons_False by congruence; exact Hrec|].
    destruct (AfterEnd (rf_rng s) k) eqn:Ea; cbn [negb andb] in Hin.
    + destruct (Hend r' rem None Hp' I) as [H1 H2]. eexists. split; [done|]. split; [done|]. split; [|done].
      rewrite filter_cons_False by congruence. symmetry. apply filter_none. apply sorted_cells_cons in Hs as [_ Hle].
      eapply Forall_impl; [exact Hle|]. intros d Hd. unfold in_seek. by rewrite Contains_split, (AfterEnd_mono _ _ _ Hd Ea), andb_false_r.
    + destruct (cfAllowed _ _ _) eqn:Ec; cbn [negb]; [|rewrite filter_cons_False by congruence; exact Hrec].
      destruct (Hend r' rem (Some (k, v)) Hp') as [H1 H2]; [done|].
      eexists. split; [done|]. split; [done|]. split; [|done]. rewrite filter_cons_True by done.
      unfold rf_view. cbn [rf_top rf_set rf_bc rf_dec rf_rdr rf_rng rf_cfs rf_inclusive]. by rewrite (rest_placed _ _ _ _ _ Hp').
Qed.

(** What a seek skips before the target is before the range. *)
Lemma wanted_in_seek r cfs incl G :
  filter (fun c => in_seek r cfs incl c = true) (wanted None (if InfiniteStart r then None else Start r) G) =
  filter (fun c => in_seek r cfs incl c = true) G.
Proof.
  unfold wanted. rewrite accepted_None, list_filter_filter. apply list_filter_iff. intros [k v]. split; [by intros []|].
  intros H. split; [done|]. unfold in_seek in H. cbn [fst] in *. rewrite Contains_split in H. unfold BeforeStart in H.
  destruct (InfiniteStart r); [done|]. cbn [below_target]. destruct (Start r) as [t|]; [|done]. unfold below_target. by destruct (Compare k t).
Qed.

#[export, refine] Instance RFileSource_Laws : SKVILaws RFileSource := {
  ready := rf_ready;
  live := rf_live;
  view := rf_view;
  scan := rf_scan;
}.
Proof.
  - apply rf_live_ready.
  - intros s r cfs incl (G & rem & H). apply sorted_cells_filter. rewrite (file_cells_stands _ _ _ H).
    by destruct H as (_ & _ & ls & Bs & _ & _ & _ & _ & Hs & _).
  - intros s (_ & G & rem & Hp & Htop). unfold rf_view. rewrite (rest_placed _ _ _ _ _ Hp). destruct (rf_top s) as [c|]; [|constructor].
    destruct Htop as [[l ->] _]. destruct Hp as (_ & _ & _ & Bs & _ & _ & _ & Hs & _).
    apply sorted_cells_app in Hs as (_ & Hs & _). apply sorted_cells_cons in Hs as [Hs Hle]. apply sorted_cells_cons.
    split; [by apply sorted_cells_filter|]. eapply sublist_Forall; [apply filter_sublist|done].
  - intros s r cfs incl (G & rem & H). cbn [Iter.Seek RFileSource_SKVI]. unfold RFileSource_Seek.
    destruct (Seek_placed _ _ _ _ _ (if InfiniteStart r then None else Start r) H) as (rdr & -> & Hp).
    pose proof (placed_bound _ _ _ _ _ Hp) as Hb. set (s0 := mkRFileSource _ _ rdr _ _ _ _ None None).
    destruct (RFileSource_advance_ok G (wanted None (if InfiniteStart r then None else Start r) G) (S (entries rdr)) s0)
      as (s' & E & Hl & Hv & Hc); [done|done|lia|].
    exists s'. split; [done|]. split; [done|]. split.
    + rewrite Hv. unfold rf_scan. rewrite (file_cells_stands _ _ _ H). apply wanted_in_seek.
    + unfold rf_scan. by rewrite Hc, (file_cells_stands _ _ _ H).
  - intros s Hl. exists s. split; [|done]. cbn [Iter.HasTop RFileSource_SKVI]. unfold rf_view. f_equal. apply bool_decide_ext.
    destruct (rf_top s); split; [done|by eexists|by intros []|done].
  - intros s c l _ Hv. unfold rf_view in Hv. cbn [GetTopKey GetTopValue RFileSource_SKVI].
    destruct (rf_top s) as [d|]; [|done]. by injection Hv as -> _.
  - intros s c l Hl Hv. pose proof Hl as (He & G & rem & Hp & Htop). cbn [Iter.Next RFileSource_SKVI]. unfold RFileSource_Next.
    rewrite He. unfold rf_view in Hv. destruct (rf_top s) as [d|] eqn:Et; [|done]. injection Hv as -> <-.
    rewrite (rest_placed _ _ _ _ _ Hp). pose proof (placed_bound _ _ _ _ _ Hp) as Hb.
    destruct (RFileSource_advance_ok G rem (S (entries (rf_rdr s))) (rf_set (rf_rdr s) None None s)) as (s' & E & Hl' & Hv & Hc);
      [done|done|lia|].
    exists s'. split; [done|]. split; [done|]. split; [done|]. unfold rf_scan.
    by rewrite Hc, (file_cells_stands s G rem) by (by apply placed_stands).
  - intros s (_ & G & rem & Hp & _). cbn [bound RFileSource_SKVI]. unfold rf_view. rewrite (rest_placed _ _ _ _ _ Hp).
    pose proof (placed_bound _ _ _ _ _ Hp) as Hb. destruct (rf_top s); cbn [length]; [|lia].
    pose proof (length_filter (fun c => in_seek (rf_rng s) (rf_cfs s) (rf_inclusive s) c = true) rem). lia.
Defined.
