(* ===== verification/Parquet.v ===== *)
(** * Parquet: Parquet files as leaves of an iterator stack
    (src/internal/parquetfile: parquetfile.go, source.go)

    The parquet-go library is a parameter: what it returns for an opened file,
    its row groups with their statistics, bloom filters and page indexes, and
    what it writes.  [library_ok] states the behaviour the code relies on.
    The source prunes row groups and pages; it loses no cell of a seek, except
    where it takes a range for a single row that is not one. *)

From S2P Require Import Prelude Wire Iter Drain EmbeddingSpace.

(** ** The library *)

Record ColumnIndex := mkColumnIndex {
  ci_IsAscending : bool;
  ci_NumPages : nat;
  ci_NullPage : nat -> bool;
  ci_MaxValue : nat -> bytes;
}.

Record OffsetIndex := mkOffsetIndex { oi_NumPages : nat; oi_FirstRowIndex : nat -> nat }.

(** A row group with its [row] column.  A reader is the row it stands at;
    [Read] returns at most a batch of rows and possibly an error with them. *)
Record RowGroup := mkRowGroup {
  rg_NumRows : nat;
  rg_MinValue : option bytes;
  rg_Min : option bytes;
  rg_MaxValue : option bytes;
  rg_Max : option bytes;
  rg_BloomFilter : option (bytes -> result bool);
  rg_ColumnIndex : result ColumnIndex;
  rg_OffsetIndex : result OffsetIndex;
  rg_SeekToRow : nat -> option err;
  rg_Read : nat -> list Cell * option err;
}.

Record File := mkFile {
  f_Lookup : bytes -> option bytes;
  f_has_row_column : bool;
  f_RowGroups : list RowGroup;
}.

Record WriterOptions := mkOptions {
  MaxRowsPerRowGroup : Z;
  wo_PageBufferSize : Z;
  KeyValueMetadata : option (bytes * bytes);
}.

Record Library := mkLibrary {
  GenericWriter : Type;
  NewGenericWriter : WriterOptions -> GenericWriter;
  gw_Write : list Cell -> GenericWriter -> GenericWriter * option err;
  gw_Close : GenericWriter -> result bytes;
  OpenFile : bytes -> result File;
  ReadRows : bytes -> result (list Cell);
}.

(** ** The source (source.go) *)

Record ReadStats := mkStats {
  RowGroupsTotal : Z;
  RowGroupsRead : Z;
  RowGroupsPruned : Z;
  RowsSkippedPageIndex : Z;
  RowsDecoded : Z;
}.

Record rowGroupIndex := mkGroup { g_group : RowGroup; g_minRow : option bytes; g_maxRow : option bytes }.

(** [s_batch]: the rows of the batch from [batchPos] on. *)
Record Source := mkSource {
  s_opener : option (result File);
  s_groups : list rowGroupIndex;
  s_rng : Range;
  s_cfs : list bytes;
  s_inclusive : bool;
  s_selected : list (nat * nat);
  s_groupPos : nat;
  s_reader : option (RowGroup * nat);
  s_batch : list Cell;
  s_top : option Cell;
  s_err : option err;
  s_stats : ReadStats;
}.

Definition index_group (g : RowGroup) : rowGroupIndex :=
  mkGroup g (match rg_MinValue g with Some m => Some m | None => rg_Min g end)
    (match rg_MaxValue g with Some m => Some m | None => rg_Max g end).

Definition NewSource (file : result File) (opener : option (result File)) : result Source :=
  f ← wrap "parquet: open file" file;
  if negb (f_has_row_column f) then Err (Fail "parquet: missing row column")
  else
    let groups := index_group <$> f_RowGroups f in
    Ok (mkSource opener groups zero_range [] false [] 0 None [] None None (mkStats (len groups) 0 0 0 0)).

Definition Source_Init {I} (source : option I) (s : Source) : option err :=
  match source with
  | Some _ => Some (Fail "parquet: Source is a leaf iterator, source must be nil")
  | None => None
  end.

Definition is_empty (b : option bytes) : bool := match b with None | Some [] => true | _ => false end.

Definition overlapsRowRange (group : rowGroupIndex) (r : Range) : bool :=
  if is_empty (g_minRow group) && is_empty (g_maxRow group) then true
  else if match Start r, g_maxRow group with
          | Some s, Some m => negb (InfiniteStart r) && is_lt (bytes_Compare m (Row s))
          | _, _ => false
          end then false
  else if match End_ r, g_minRow group with
          | Some e, Some m => negb (InfiniteEnd r) && is_gt (bytes_Compare m (Row e))
          | _, _ => false
          end then false
  else true.

Definition singleRow (r : Range) : option bytes :=
  match Start r, End_ r with
  | Some s, Some e =>
      if InfiniteStart r || InfiniteEnd r || negb (StartInclusive r) || EndInclusive r then None
      else if bool_decide (Row e = Row s ++ [0]) then Some (Row s) else None
  | _, _ => None
  end.

(** The first page from [page] on whose greatest row reaches the start's. *)
Fixpoint page_loop (pages : list nat) (ci : ColumnIndex) (oi : OffsetIndex) (row : bytes) : option nat :=
  match pages with
  | [] => None
  | page :: pages =>
      if ci_NullPage ci page then page_loop pages ci oi row
      else if negb (is_lt (bytes_Compare (ci_MaxValue ci page) row)) then Some (oi_FirstRowIndex oi page)
      else page_loop pages ci oi row
  end.

Definition pageStartRow (group : rowGroupIndex) (r : Range) : nat :=
  match (if InfiniteStart r then None else Start r) with
  | None => 0%nat
  | Some s =>
      match rg_ColumnIndex (g_group group) with
      | Err _ => 0%nat
      | Ok ci =>
          if negb (ci_IsAscending ci) then 0%nat
          else match rg_OffsetIndex (g_group group) with
          | Err _ => 0%nat
          | Ok oi =>
              if negb (oi_NumPages oi =? ci_NumPages ci)%nat then 0%nat
              else default (rg_NumRows (g_group group)) (page_loop (seq 0 (ci_NumPages ci)) ci oi (Row s))
          end
      end
  end.

Definition pruned (group : rowGroupIndex) (r : Range) : bool :=
  if negb (overlapsRowRange group r) then true
  else match singleRow r, rg_BloomFilter (g_group group) with
  | Some row, Some check => match check row with Ok ok => negb ok | Err _ => false end
  | _, _ => false
  end.

(** The loop of [Seek], from group [i] on. *)
Fixpoint select_groups (i : nat) (groups : list rowGroupIndex) (r : Range) (st : ReadStats) : list (nat * nat) * ReadStats :=
  match groups with
  | [] => ([], st)
  | group :: groups =>
      if pruned group r then
        select_groups (S i) groups r
          (mkStats (RowGroupsTotal st) (RowGroupsRead st) (RowGroupsPruned st + 1) (RowsSkippedPageIndex st) (RowsDecoded st))
      else
        let startRow := pageStartRow group r in
        let '(selected, st) := select_groups (S i) groups r
          (mkStats (RowGroupsTotal st) (RowGroupsRead st) (RowGroupsPruned st) (RowsSkippedPageIndex st + Z.of_nat startRow)
             (RowsDecoded st)) in
        ((i, startRow) :: selected, st)
  end.

Definition set_pos (s : Source) (groupPos : nat) (reader : option (RowGroup * nat)) (batch : list Cell) (top : option Cell)
    (e : option err) (st : ReadStats) : Source :=
  mkSource (s_opener s) (s_groups s) (s_rng s) (s_cfs s) (s_inclusive s) (s_selected s) groupPos reader batch top e st.

Definition count_read (st : ReadStats) : ReadStats :=
  mkStats (RowGroupsTotal st) (RowGroupsRead st + 1) (RowGroupsPruned st) (RowsSkippedPageIndex st) (RowsDecoded st).
Definition count_decoded (st : ReadStats) : ReadStats :=
  mkStats (RowGroupsTotal st) (RowGroupsRead st) (RowGroupsPruned st) (RowsSkippedPageIndex st) (RowsDecoded st + 1).

(** The reader of the turn: the open one, or one on the next selected group. *)
Inductive reader_turn :=
| NoGroup
| ReaderFails (s : Source)
| ReaderAt (s : Source) (group : RowGroup) (pos : nat).

Definition open_reader (s : Source) : reader_turn :=
  match s_reader s with
  | Some (group, pos) => ReaderAt s group pos
  | None =>
      match s_selected s !! s_groupPos s with
      | None => NoGroup
      | Some (index, startRow) =>
          match s_groups s !! index with
          | None => ReaderFails (set_pos s (s_groupPos s) None (s_batch s) (s_top s) (Some Panic) (s_stats s))
          | Some g =>
              let s := set_pos s (S (s_groupPos s)) (Some (g_group g, 0%nat)) (s_batch s) (s_top s) (s_err s) (s_stats s) in
              match (if (startRow =? 0)%nat then None else rg_SeekToRow (g_group g) startRow) with
              | Some e =>
                  ReaderFails (set_pos s (s_groupPos s) (s_reader s) (s_batch s) (s_top s) (Some (Wrap "parquet: seek row group" e))
                    (s_stats s))
              | None => ReaderAt (set_pos s (s_groupPos s) (s_reader s) (s_batch s) (s_top s) (s_err s) (count_read (s_stats s)))
                          (g_group g) startRow
              end
          end
      end
  end.

(** Each turn takes a row of the batch or reads a batch. *)
Fixpoint Source_advance (fuel : nat) (s : Source) : Source * option err :=
  match fuel with
  | O => (s, Some OutOfFuel)
  | S fuel =>
      match s_batch s with
      | (k, v) :: batch =>
          let s := set_pos s (s_groupPos s) (s_reader s) batch (s_top s) (s_err s) (count_decoded (s_stats s)) in
          if BeforeStart (s_rng s) k then Source_advance fuel s
          else if AfterEnd (s_rng s) k then (set_pos s (s_groupPos s) None batch None (s_err s) (s_stats s), None)
          else if negb (cfAllowed (ColumnFamily k) (s_cfs s) (s_inclusive s)) then Source_advance fuel s
          else (set_pos s (s_groupPos s) (s_reader s) batch (Some (k, v)) (s_err s) (s_stats s), None)
      | [] =>
          match open_reader s with
          | NoGroup => (s, None)
          | ReaderFails s => (s, s_err s)
          | ReaderAt s group pos =>
              let '(batch, e) := rg_Read group pos in
              let reader := Some (group, (pos + length batch)%nat) in
              match e with
              | None => Source_advance fuel (set_pos s (s_groupPos s) reader batch (s_top s) (s_err s) (s_stats s))
              | Some e =>
                  if errors_Is e EOF
                  then Source_advance fuel (set_pos s (s_groupPos s) None batch (s_top s) (s_err s) (s_stats s))
                  else
                    let e := Wrap "parquet: read row group" e in
                    (set_pos s (s_groupPos s) reader batch (s_top s) (Some e) (s_stats s), Some e)
              end
          end
      end
  end.

(** Two turns for each row and one for the end of each group. *)
Definition turns (s : Source) : nat :=
  S (list_sum ((fun g => S (2 * rg_NumRows (g_group g))) <$> s_groups s)).

Definition Source_Seek (r : Range) (cfs : list bytes) (inclusive : bool) (s : Source) : Source * option err :=
  let '(selected, st) := select_groups 0 (s_groups s) r (mkStats (RowGroupsTotal (s_stats s)) 0 0 0 0) in
  Source_advance (turns s) (mkSource (s_opener s) (s_groups s) r cfs inclusive selected 0 None [] None None st).

Definition Source_Next (s : Source) : Source * option err :=
  match s_err s with
  | Some e => (s, Some e)
  | None =>
      match s_top s with
      | None => (s, Some (Fail "parquet: Source.Next called without a top"))
      | Some _ =>
          Source_advance (turns s) (set_pos s (s_groupPos s) (s_reader s) (s_batch s) None (s_err s) (s_stats s))
      end
  end.

(** A nil or failing opener panics. *)
Definition Source_DeepCopy (env : IteratorEnvironment) (s : Source) : Source :=
  match s_opener s with
  | Some file =>
      match NewSource file (s_opener s) with
      | Ok copy => copy
      | Err _ => set_pos s (s_groupPos s) None [] None (Some Panic) (s_stats s)
      end
  | None => set_pos s (s_groupPos s) None [] None (Some Panic) (s_stats s)
  end.

#[export] Instance Source_SKVI : SKVI Source := {
  Seek := Source_Seek;
  Next := Source_Next;
  HasTop s := (s, bool_decide (is_Some (s_top s)));
  GetTopKey s := fst <$> s_top s;
  GetTopValue s := snd <$> s_top s;
  DeepCopy := Source_DeepCopy;
  bound s := turns s;
}.

(** ** Encoding, decoding and validation (parquetfile.go) *)

Definition DefaultRowsPerRowGroup : Z := 8192.
Definition ParquetMetadataKey : bytes := str "shoal.embedding_space".

(** The callbacks [Check] and [Observe] are left out. *)
Record EncodeOptions := mkEncodeOptions { RowsPerRowGroup : Z; PageBufferSize : Z; eo_EmbeddingSpace : FileState }.

Definition batch_size : Z := 512.

Section library.
Context (L : Library) (Marshal : FileState -> result bytes) (Unmarshal : bytes -> result FileState).

Definition writeBatch (batch : list Cell) (w : GenericWriter L) : GenericWriter L * option err :=
  if len batch =? 0 then (w, None)
  else match gw_Write L batch w with
       | (w, Some e) => (w, Some (Wrap "parquet: write cells" e))
       | (w, None) => (w, None)
       end.

(** The loop over the iterator, [batch] in hand. *)
Fixpoint encode_loop {I} `{SKVI I} (fuel : nat) (iter : I) (w : GenericWriter L) (batch : list Cell) (count : Z)
  : I * Z * (GenericWriter L * option err) :=
  match fuel with
  | O => (iter, count, (w, Some OutOfFuel))
  | S fuel =>
      let '(iter, has) := HasTop iter in
      if has then
        match GetTopKey iter, GetTopValue iter with
        | Some k, Some v =>
            let batch := batch ++ [(k, v)] in
            let count := count + 1 in
            let '(w, batch, e) :=
              if len batch =? batch_size then let '(w, e) := writeBatch batch w in (w, [], e) else (w, batch, None) in
            match e with
            | Some e => (iter, count, (w, Some e))
            | None =>
                let '(iter, e) := Next iter in
                match e with
                | Some e => (iter, count, (w, Some (Wrap "parquet: advance" e)))
                | None => encode_loop fuel iter w batch count
                end
            end
        | _, _ => (iter, count, (w, Some Panic))
        end
      else (iter, count, writeBatch batch w)
  end.

Definition writer_options (opts : EncodeOptions) : result WriterOptions :=
  let rows := if RowsPerRowGroup opts <=? 0 then DefaultRowsPerRowGroup else RowsPerRowGroup opts in
  let page := if PageBufferSize opts <=? 0 then Z.shiftl 64 10 else PageBufferSize opts in
  if bool_decide (State (eo_EmbeddingSpace opts) = []) then Ok (mkOptions rows page None)
  else
    encoded ← wrap "parquet: encode embedding metadata" (Encode Marshal (eo_EmbeddingSpace opts));
    Ok (mkOptions rows page (Some (ParquetMetadataKey, encoded))).

(** The image, the count, and the iterator it drained. *)
Definition EncodeWithOptions {I} `{SKVI I} (opts : EncodeOptions) (iter : I) : I * result (bytes * Z) :=
  match writer_options opts with
  | Err e => (iter, Err e)
  | Ok wo =>
      let '(iter, count, (w, e)) := encode_loop (S (bound iter)) iter (NewGenericWriter L wo) [] 0 in
      (iter,
       match e with
       | Some e => Err e
       | None => data ← wrap "parquet: close writer" (gw_Close L w); Ok (data, count)
       end)
  end.

Definition ReadEmbeddingSpaceMetadata (data : bytes) : result FileState :=
  file ← wrap "parquet: open file" (OpenFile L data);
  match f_Lookup file ParquetMetadataKey with
  | None => Ok Unknown
  | Some value => wrap "parquet: parse embedding metadata" (Decode Unmarshal value)
  end.

Fixpoint check_sorted (previous : option Key) (cells : list Cell) : option err :=
  match cells with
  | [] => None
  | c :: cells =>
      match previous with
      | Some p => if is_gt (Compare p c.1) then Some (Fail "parquet: cells are not sorted") else check_sorted (Some c.1) cells
      | None => check_sorted (Some c.1) cells
      end
  end.

Definition Decode_cells (data : bytes) : result (list Cell) :=
  rows ← wrap "parquet: read" (ReadRows L data);
  match check_sorted None rows with Some e => Err e | None => Ok rows end.

(** ** Validation of an image *)

Definition validateKeys := option (Key -> option err).

Fixpoint validate_batch (validateKey : validateKeys) (previous : option Key) (batch : list Cell) : option Key * option err :=
  match batch with
  | [] => (previous, None)
  | (k, _) :: batch =>
      if match previous with Some p => is_gt (Compare p k) | None => false end
      then (previous, Some (Fail "parquet: cells are not sorted"))
      else match (match validateKey with Some f => f k | None => None end) with
      | Some e => (previous, Some (Wrap "parquet: validate row" e))
      | None => validate_batch validateKey (Some k) batch
      end
  end.

(** Each turn reads a batch of the group; an empty one without an error ends
    it. *)
Fixpoint validate_group (fuel : nat) (validateKey : validateKeys) (g : RowGroup) (pos : nat) (previous : option Key)
  : option Key * option err :=
  match fuel with
  | O => (previous, Some OutOfFuel)
  | S fuel =>
      let '(batch, readErr) := rg_Read g pos in
      match validate_batch validateKey previous batch with
      | (previous, Some e) => (previous, Some e)
      | (previous, None) =>
          match readErr with
          | Some e => (previous, if bool_decide (e = EOF) then None else Some (Wrap "parquet: read row group" e))
          | None =>
              if (length batch =? 0)%nat then (previous, Some (Fail "parquet: read row group: no progress"))
              else validate_group fuel validateKey g (pos + length batch) previous
          end
      end
  end.

Fixpoint validate_groups (validateKey : validateKeys) (groups : list RowGroup) (previous : option Key) : option err :=
  match groups with
  | [] => None
  | g :: groups =>
      match validate_group (S (rg_NumRows g)) validateKey g 0 previous with
      | (_, Some e) => Some e
      | (previous, None) => validate_groups validateKey groups previous
      end
  end.

Definition Validate (data : bytes) (validateKey : validateKeys) : option err :=
  match wrap "parquet: open" (OpenFile L data) with
  | Err e => Some e
  | Ok file => validate_groups validateKey (f_RowGroups file) None
  end.
End library.

(** ** What the library promises of a row group *)

Definition bytes_le (a b : bytes) : Prop := bytes_Compare a b <> Gt.

(** The pages of a group partition its rows, in order. *)
Definition page_start (ci : ColumnIndex) (oi : OffsetIndex) (cells : list Cell) (p : nat) : nat :=
  if (p <? ci_NumPages ci)%nat then oi_FirstRowIndex oi p else length cells.

Record pages_ok (ci : ColumnIndex) (oi : OffsetIndex) (cells : list Cell) : Prop := {
  po_first : page_start ci oi cells 0 = 0%nat;
  po_mono p : (page_start ci oi cells p <= page_start ci oi cells (S p))%nat;
  po_max p i c : (page_start ci oi cells p <= i < page_start ci oi cells (S p))%nat -> cells !! i = Some c ->
    ci_NullPage ci p = false /\ bytes_le (Row c.1) (ci_MaxValue ci p);
}.

Record serves (g : RowGroup) (cells : list Cell) : Prop := {
  sv_rows : rg_NumRows g = length cells;
  sv_min m : g_minRow (index_group g) = Some m -> Forall (fun c : Cell => bytes_le m (Row c.1)) cells;
  sv_max m : g_maxRow (index_group g) = Some m -> Forall (fun c : Cell => bytes_le (Row c.1) m) cells;
  sv_bloom check row : rg_BloomFilter g = Some check -> check row = Ok false -> Forall (fun c : Cell => Row c.1 <> row) cells;
  sv_pages ci oi : rg_ColumnIndex g = Ok ci -> rg_OffsetIndex g = Ok oi -> ci_IsAscending ci = true ->
    oi_NumPages oi = ci_NumPages ci -> pages_ok ci oi cells;
  sv_seek pos : (pos <= length cells)%nat -> rg_SeekToRow g pos = None;
  sv_read pos : (pos <= length cells)%nat ->
    exists l e, rg_Read g pos = (l, e) /\
      ((e = None /\ l <> [] /\ l `prefix_of` drop pos cells) \/ (e = Some EOF /\ l = drop pos cells));
}.

(** ** Pruning loses nothing *)

Lemma bytes_le_lt a b c : bytes_le a b -> bytes_Compare b c = Lt -> bytes_Compare a c = Lt.
Proof.
  unfold bytes_le. intros H1 H2. destruct (bytes_Compare a b) eqn:E; [|by apply (cmp_trans bytes_Compare _ _ _ E H2)|done].
  apply (cmp_eq bytes_Compare) in E as ->. done.
Qed.

Lemma row_lt_Compare k s : bytes_Compare (Row k) (Row s) = Lt -> Compare k s = Lt.
Proof. intros H. unfold Compare. by rewrite H. Qed.

Lemma row_before r s k :
  InfiniteStart r = false -> Start r = Some s -> bytes_Compare (Row k) (Row s) = Lt -> BeforeStart r k = true.
Proof. intros H1 H2 H3. unfold BeforeStart. by rewrite H1, H2, (row_lt_Compare _ _ H3). Qed.

Lemma row_after r e k :
  InfiniteEnd r = false -> End_ r = Some e -> bytes_Compare (Row e) (Row k) = Lt -> AfterEnd r k = true.
Proof.
  intros H1 H2 H3. unfold AfterEnd. rewrite H1, H2, (cmp_antisym Compare e k), (row_lt_Compare _ _ H3). done.
Qed.

(** Pages skipped hold no row from the start's on. *)
Lemma page_loop_below ci oi cells row p n :
  pages_ok ci oi cells -> (p + n = ci_NumPages ci)%nat ->
  (forall i c, (i < page_start ci oi cells p)%nat -> cells !! i = Some c -> bytes_Compare (Row c.1) row = Lt) ->
  let k := default (length cells) (page_loop (seq p n) ci oi row) in
  (k <= length cells)%nat /\ forall i c, (i < k)%nat -> cells !! i = Some c -> bytes_Compare (Row c.1) row = Lt.
Proof.
  intros Hok. revert p. induction n as [|n IH]; intros p Hp Hb; cbn [seq page_loop].
  - cbn [default]. split; [done|]. intros i c _ Hc. apply (Hb i c); [|done]. unfold page_start.
    destruct (Nat.ltb_spec p (ci_NumPages ci)); [lia|]. by apply lookup_lt_Some in Hc.
  - assert (page_start ci oi cells p = oi_FirstRowIndex oi p) as Ep.
    { unfold page_start. by rewrite (proj2 (Nat.ltb_lt _ _)) by lia. }
    assert (forall (H : ci_NullPage ci p = true \/ bytes_Compare (ci_MaxValue ci p) row = Lt),
      forall i c, (i < page_start ci oi cells (S p))%nat -> cells !! i = Some c -> bytes_Compare (Row c.1) row = Lt) as Hnext.
    { intros H i c Hi Hc. destruct (decide (i < page_start ci oi cells p)%nat) as [Hlt|Hge]; [by eapply Hb|].
      destruct (po_max _ _ _ Hok p i c ltac:(lia) Hc) as [Hnull Hle]. destruct H as [H|H]; [congruence|]. by eapply bytes_le_lt. }
    destruct (ci_NullPage ci p) eqn:En; [apply IH; [lia|]; by apply Hnext; left|].
    destruct (bytes_Compare (ci_MaxValue ci p) row) eqn:Em; cbn [is_lt negb default];
      [|apply IH; [lia|]; by apply Hnext; right|];
      (split; [rewrite <-Ep; transitivity (page_start ci oi cells (ci_NumPages ci));
        [clear -Hp Hok; assert (forall m, (page_start ci oi cells p <= page_start ci oi cells (p + m))%nat) as Hm;
          [induction m as [|m IHm]; [by rewrite Nat.add_0_r|]; rewrite Nat.add_succ_r; etrans; [exact IHm|apply (po_mono _ _ _ Hok)]|];
          rewrite <-Hp; apply Hm
        |unfold page_start; by rewrite Nat.ltb_irrefl]
      |rewrite <-Ep; exact Hb]).
Qed.

Lemma pageStartRow_below g cells r :
  serves g cells ->
  (pageStartRow (index_group g) r <= length cells)%nat /\
  forall i c, (i < pageStartRow (index_group g) r)%nat -> cells !! i = Some c -> BeforeStart r c.1 = true.
Proof.
  intros Hs. unfold pageStartRow. cbn [g_group index_group].
  assert (forall n, n = 0%nat -> (n <= length cells)%nat /\
    forall i c, (i < n)%nat -> cells !! i = Some c -> BeforeStart r c.1 = true) as H0 by (intros ? ->; split; [lia|intros; lia]).
  destruct (InfiniteStart r) eqn:Ei; [by apply H0|]. destruct (Start r) as [s|] eqn:Es; [|by apply H0].
  destruct (rg_ColumnIndex g) as [ci|] eqn:Ec; [|by apply H0]. destruct (ci_IsAscending ci) eqn:Ea; cbn [negb]; [|by apply H0].
  destruct (rg_OffsetIndex g) as [oi|] eqn:Eo; [|by apply H0].
  destruct (Nat.eqb_spec (oi_NumPages oi) (ci_NumPages ci)) as [En|]; cbn [negb]; [|by apply H0].
  pose proof (sv_pages _ _ Hs ci oi Ec Eo Ea En) as Hp. rewrite (sv_rows _ _ Hs).
  destruct (page_loop_below ci oi cells (Row s) 0 (ci_NumPages ci) Hp eq_refl) as [H1 H2].
  { rewrite (po_first _ _ _ Hp). intros; lia. }
  split; [done|]. intros i c Hi Hc. eapply row_before; [done..|]. by eapply H2.
Qed.

(** The range is not taken for a single row, or its cells are of that row. *)
Definition fair (r : Range) (cells : list Cell) : Prop :=
  forall row, singleRow r = Some row -> Forall (fun c : Cell => Contains r c.1 = true -> Row c.1 = row) cells.

Lemma fair_app r a b : fair r (a ++ b) <-> fair r a /\ fair r b.
Proof. unfold fair. setoid_rewrite Forall_app. naive_solver. Qed.

Lemma pruned_outside g cells r :
  serves g cells -> fair r cells -> pruned (index_group g) r = true -> Forall (fun c : Cell => Contains r c.1 = false) cells.
Proof.
  intros Hs Hf. unfold pruned. destruct (overlapsRowRange (index_group g) r) eqn:Eo; cbn [negb].
  - destruct (singleRow r) as [row|] eqn:Er; [|done]. cbn [g_group index_group].
    destruct (rg_BloomFilter g) as [check|] eqn:Eb; [|done]. destruct (check row) as [[]|] eqn:Ec; try done. intros _.
    pose proof (sv_bloom _ _ Hs check row Eb Ec) as Hn. specialize (Hf row Er). apply Forall_forall. intros c Hc.
    rewrite Forall_forall in Hn, Hf. specialize (Hn c Hc). specialize (Hf c Hc). cbn in Hn, Hf. destruct (Contains r c.1); naive_solver.
  - intros _. apply Forall_forall. intros c Hc. unfold overlapsRowRange in Eo.
    destruct (is_empty _ && is_empty _); [done|]. rewrite Contains_split.
    destruct (match Start r, g_maxRow (index_group g) with Some s, Some m => _ | _, _ => false end) eqn:E1.
    + destruct (Start r) as [s|] eqn:Es; [|done]. destruct (g_maxRow (index_group g)) as [m|] eqn:Em; [|done].
      apply andb_true_iff in E1 as [Ei Elt]. apply negb_true_iff in Ei.
      pose proof (sv_max _ _ Hs m Em) as Hm. rewrite Forall_forall in Hm.
      rewrite (row_before r s c.1); [done|done|done|]. eapply bytes_le_lt; [by apply Hm|]. by destruct (bytes_Compare m (Row s)).
    + destruct (match End_ r, g_minRow (index_group g) with Some e, Some m => _ | _, _ => false end) eqn:E2; [|done].
      destruct (End_ r) as [e|] eqn:Ee; [|done]. destruct (g_minRow (index_group g)) as [m|] eqn:Em; [|done].
      apply andb_true_iff in E2 as [Ei Egt]. apply negb_true_iff in Ei.
      pose proof (sv_min _ _ Hs m Em) as Hm. rewrite Forall_forall in Hm. specialize (Hm c Hc). cbn in Hm.
      assert (AfterEnd r c.1 = true) as ->; [|by rewrite andb_false_r]. apply (row_after r e c.1 Ei Ee).
      rewrite (cmp_antisym bytes_Compare (Row e) m) in Egt. destruct (bytes_Compare (Row e) m) eqn:E3; try done.
      unfold bytes_le in Hm. destruct (bytes_Compare m (Row c.1)) eqn:E4; [|by apply (cmp_trans bytes_Compare _ _ _ E3 E4)|done].
      apply (cmp_eq bytes_Compare) in E4 as <-. done.
Qed.

(** ** What is left to read *)

(** The rows of a group from [pos] on, as its reader returns them. *)
Fixpoint read_rows (fuel : nat) (g : RowGroup) (pos : nat) : list Cell :=
  match fuel with
  | O => []
  | S fuel => match rg_Read g pos with (l, None) => l ++ read_rows fuel g (pos + length l) | (l, Some _) => l end
  end.
Definition rows_from (g : RowGroup) (pos : nat) : list Cell := read_rows (S (rg_NumRows g)) g pos.

Lemma read_rows_serves g cells fuel pos :
  serves g cells -> (pos <= length cells)%nat -> (length cells - pos < fuel)%nat -> read_rows fuel g pos = drop pos cells.
Proof.
  intros Hs. revert pos. induction fuel as [|fuel IH]; intros pos Hp Hf; [lia|]. cbn [read_rows].
  destruct (sv_read _ _ Hs pos Hp) as (l & e & -> & [(-> & Hne & [t Ht])|[-> ->]]); [|done].
  pose proof (f_equal length Ht) as Hlen. rewrite length_drop, length_app in Hlen. destruct l as [|x l]; [done|]. cbn [length] in *.
  rewrite IH, Ht by lia. f_equal. rewrite <-drop_drop, Ht. change (S (length l)) with (length (x :: l)).
  by rewrite drop_app_length.
Qed.

Lemma rows_from_serves g cells pos : serves g cells -> (pos <= length cells)%nat -> rows_from g pos = drop pos cells.
Proof. intros Hs Hp. apply read_rows_serves; [done|done|]. rewrite (sv_rows _ _ Hs). lia. Qed.

Definition selected_rows (groups : list rowGroupIndex) (selected : list (nat * nat)) : list Cell :=
  concat ((fun p : nat * nat => match groups !! p.1 with Some g => rows_from (g_group g) p.2 | None => [] end) <$> selected).

Definition remaining (s : Source) : list Cell :=
  s_batch s ++ (match s_reader s with Some (g, pos) => rows_from g pos | None => [] end) ++
  selected_rows (s_groups s) (drop (s_groupPos s) (s_selected s)).

(** The turns that takes. *)
Definition read_cost (g : RowGroup) (pos : nat) : nat := S (2 * (rg_NumRows g - pos)).
Definition selected_cost (groups : list rowGroupIndex) (selected : list (nat * nat)) : nat :=
  list_sum ((fun p : nat * nat => match groups !! p.1 with Some g => read_cost (g_group g) p.2 | None => 1%nat end) <$> selected).
Definition cost (s : Source) : nat :=
  S (length (s_batch s) + (match s_reader s with Some (g, pos) => read_cost g pos | None => 0 end) +
     selected_cost (s_groups s) (drop (s_groupPos s) (s_selected s))).

Definition group_ok (g : rowGroupIndex) : Prop := g = index_group (g_group g) /\ exists cells, serves (g_group g) cells.
Definition all_rows (groups : list rowGroupIndex) : list Cell := concat ((fun g => rows_from (g_group g) 0) <$> groups).
Definition groups_ok (groups : list rowGroupIndex) : Prop := Forall group_ok groups /\ sorted_cells (all_rows groups).
Definition entry_fine (groups : list rowGroupIndex) (p : nat * nat) : Prop :=
  exists g, groups !! p.1 = Some g /\ (p.2 <= rg_NumRows (g_group g))%nat.

(** The source is between two turns. *)
Record reading (s : Source) : Prop := {
  rd_groups : groups_ok (s_groups s);
  rd_selected : Forall (entry_fine (s_groups s)) (s_selected s);
  rd_reader g pos : s_reader s = Some (g, pos) -> (exists cells, serves g cells) /\ (pos <= rg_NumRows g)%nat;
  rd_sorted : sorted_cells (remaining s);
  rd_err : s_err s = None;
  rd_cost : (cost s <= turns s)%nat;
}.

Abbreviation wanted_by s := (fun c : Cell => in_seek (s_rng s) (s_cfs s) (s_inclusive s) c = true).

Definition pq_view (s : Source) : list Cell :=
  match s_top s with Some c => c :: filter (wanted_by s) (remaining s) | None => [] end.
Definition pq_live (s : Source) : Prop :=
  reading s /\ match s_top s with
               | Some c => in_seek (s_rng s) (s_cfs s) (s_inclusive s) c = true /\ Forall (fun d => key_le c.1 d.1) (remaining s)
               | None => True end.

(** Only the position moves. *)
Definition same_seek (s s' : Source) : Prop :=
  s_groups s' = s_groups s /\ s_rng s' = s_rng s /\ s_cfs s' = s_cfs s /\ s_inclusive s' = s_inclusive s /\ s_top s' = s_top s.

(** A batch is read: what is left stays, for less. *)
Lemma read_turn s g pos :
  reading s -> s_batch s = [] -> s_reader s = Some (g, pos) ->
  exists l e, rg_Read g pos = (l, e) /\ (e = None \/ e = Some EOF) /\
    let s' := set_pos s (s_groupPos s) (match e with None => Some (g, (pos + length l)%nat) | Some _ => None end) l (s_top s) (s_err s) (s_stats s) in
    remaining s' = remaining s /\ (cost s' < cost s)%nat /\ reading s'.
Proof.
  intros [Hg Hsel Hrd Hs He Hc] Hb Hr. destruct (Hrd g pos Hr) as [[cells Hsv] Hpos]. pose proof (sv_rows _ _ Hsv) as Hn.
  rewrite Hn in Hpos. destruct (sv_read _ _ Hsv pos Hpos) as (l & e & Erd & Hcase). exists l, e. split; [done|].
  split; [naive_solver|]. cbv zeta. set (s' := set_pos _ _ _ _ _ _ _).
  assert (remaining s' = remaining s /\ (cost s' < cost s)%nat) as [H1 H2].
  { unfold remaining, cost. cbn [s' s_batch s_reader s_groups s_groupPos s_selected set_pos]. rewrite Hb, Hr.
    rewrite (rows_from_serves g cells pos Hsv Hpos). unfold read_cost. rewrite Hn. destruct Hcase as [(-> & Hne & [t Ht])|[-> ->]].
    - pose proof (f_equal length Ht) as Hl. rewrite length_drop, length_app in Hl. rewrite (rows_from_serves g cells) by (done || lia).
      rewrite <-drop_drop, Ht, drop_app_length. cbn [app]. rewrite <-(assoc_L (++)). split; [done|].
      destruct l as [|x l]; [done|]. cbn [length] in *. lia.
    - cbn [app length]. rewrite length_drop. split; [done|]. lia. }
  split; [done|]. split; [done|]. split; [done|done| |by rewrite H1|done|].
  - intros g' pos'. cbn [s' s_reader set_pos]. destruct e; [done|]. intros [= <- <-]. split; [by exists cells|].
    destruct Hcase as [(_ & _ & [t Ht])|[? _]]; [|done]. pose proof (f_equal length Ht) as Hl. rewrite length_drop, length_app in Hl. lia.
  - etrans; [apply Nat.lt_le_incl, H2|]. exact Hc.
Qed.

(** The next selected group is opened. *)
Lemma open_turn s :
  reading s -> s_batch s = [] -> s_reader s = None ->
  match s_selected s !! s_groupPos s with
  | None => remaining s = []
  | Some (index, startRow) =>
      exists g, s_groups s !! index = Some g /\ rg_SeekToRow (g_group g) startRow = None /\
        forall st, let s' := set_pos s (S (s_groupPos s)) (Some (g_group g, startRow)) [] (s_top s) (s_err s) st in
          remaining s' = remaining s /\ cost s' = cost s /\ reading s'
  end.
Proof.
  intros [Hg Hsel Hrd Hs He Hc] Hb Hr. destruct (s_selected s !! s_groupPos s) as [[index startRow]|] eqn:Esel.
  2: { unfold remaining. rewrite Hb, Hr. by rewrite drop_ge by (by apply lookup_ge_None_1). }
  pose proof (Forall_lookup_1 _ _ _ _ Hsel Esel) as (g & Eg & Hstart). cbn [fst snd] in Eg, Hstart. exists g. split; [done|].
  pose proof (Forall_lookup_1 _ _ _ _ (proj1 Hg) Eg) as [_ [cells Hsv]]. pose proof (sv_rows _ _ Hsv) as Hn.
  split; [apply (sv_seek _ _ Hsv); lia|]. intros st. cbv zeta. set (s' := set_pos _ _ _ _ _ _ _).
  assert (remaining s' = remaining s /\ cost s' = cost s) as [H1 H2].
  { unfold remaining, cost, selected_rows, selected_cost. cbn [s' s_batch s_reader s_groups s_groupPos s_selected set_pos]. rewrite Hb, Hr.
    rewrite (drop_S _ _ _ Esel), !fmap_cons. cbn [concat list_sum foldr fst snd]. rewrite Eg. cbn [app length]. split; [done|].
    change (foldr Nat.add 0%nat) with list_sum. lia. }
  split; [done|]. split; [done|]. split; [done|done| |by rewrite H1|done|by rewrite H2].
  intros g' pos'. cbn [s' s_reader set_pos]. intros [= <- <-]. split; [by exists cells|done].
Qed.

(** Taking a row of the batch. *)
Lemma row_turn s c batch top :
  reading s -> s_batch s = c :: batch ->
  let s' := set_pos s (s_groupPos s) (s_reader s) batch top (s_err s) (count_decoded (s_stats s)) in
  remaining s = c :: remaining s' /\ (cost s' < cost s)%nat /\ reading s'.
Proof.
  intros [Hg Hsel Hrd Hs He Hc] Hb. cbv zeta. set (s' := set_pos _ _ _ _ _ _ _).
  assert (remaining s = c :: remaining s' /\ (cost s' < cost s)%nat) as [H1 H2].
  { unfold remaining, cost. cbn [s' s_batch s_reader s_groups s_groupPos s_selected set_pos]. rewrite Hb. split; [done|].
    cbn [length]. lia. }
  split; [done|]. split; [done|]. split; [done|done|exact Hrd| |done|].
  - rewrite H1 in Hs. by apply sorted_cells_cons in Hs as [Hs _].
  - etrans; [apply Nat.lt_le_incl, H2|]. exact Hc.
Qed.

(** The reader is closed, whatever it had left. *)
Lemma reading_close s top : reading s -> reading (set_pos s (s_groupPos s) None (s_batch s) top (s_err s) (s_stats s)).
Proof.
  intros [Hg Hsel Hrd Hs He Hc]. set (s' := set_pos _ _ _ _ _ _ _).
  assert (sublist (remaining s') (remaining s) /\ (cost s' <= cost s)%nat) as [H1 H2].
  { unfold remaining, cost. cbn [s' s_batch s_reader s_groups s_groupPos s_selected set_pos]. split; [|lia].
    apply sublist_app; [done|]. apply sublist_app; [apply sublist_nil_l|done]. }
  split; [done|done|done|by eapply sorted_cells_sublist|done|]. etrans; [exact H2|exact Hc].
Qed.

(** [advance] stops at the next cell of the seek. *)
Lemma Source_advance_ok fuel s :
  reading s -> s_top s = None -> (cost s <= fuel)%nat ->
  exists s', Source_advance fuel s = (s', None) /\ pq_live s' /\ pq_view s' = filter (wanted_by s) (remaining s) /\
    s_groups s' = s_groups s /\ s_rng s' = s_rng s /\ s_cfs s' = s_cfs s /\ s_inclusive s' = s_inclusive s.
Proof.
  revert s. induction fuel as [|fuel IH]; intros s Hs Ht Hf; [unfold cost in Hf; lia|]. cbn [Source_advance].
  assert (forall s1, reading s1 -> s_top s1 = None -> (cost s1 < cost s)%nat -> s_groups s1 = s_groups s -> s_rng s1 = s_rng s ->
    s_cfs s1 = s_cfs s -> s_inclusive s1 = s_inclusive s -> filter (wanted_by s1) (remaining s1) = filter (wanted_by s) (remaining s) ->
    exists s', Source_advance fuel s1 = (s', None) /\ pq_live s' /\ pq_view s' = filter (wanted_by s) (remaining s) /\
    s_groups s' = s_groups s /\ s_rng s' = s_rng s /\ s_cfs s' = s_cfs s /\ s_inclusive s' = s_inclusive s) as Hgo.
  { intros s1 Hr Ht1 Hc H1 H2 H3 H4 H5. destruct (IH s1 Hr Ht1 ltac:(lia)) as (s' & -> & Hl & Hv & G1 & G2 & G3 & G4).
    exists s'. split_and!; congruence. }
  destruct (s_batch s) as [|[k v] batch] eqn:Eb.
  - unfold open_reader. destruct (s_reader s) as [[g pos]|] eqn:Er.
    + destruct (read_turn s g pos Hs Eb Er) as (l & e & -> & He & Hrem & Hc & Hrd).
      destruct He as [-> | ->]; cbv beta iota in *; cbn [errors_Is];
        (apply Hgo; [exact Hrd|exact Ht|exact Hc|done..|by rewrite Hrem]).
    + pose proof (open_turn s Hs Eb Er) as Ho. destruct (s_selected s !! s_groupPos s) as [[index startRow]|].
      2: { exists s. split; [done|]. split; [split; [done|by rewrite Ht]|]. unfold pq_view. rewrite Ht, Ho. by split_and!. }
      destruct Ho as (g & Eg & Esk & Ho). rewrite Eg.
      assert ((if (startRow =? 0)%nat then None else rg_SeekToRow (g_group g) startRow) = None) as -> by (by destruct (_ =? _)%nat).
      destruct (Ho (count_read (s_stats s))) as (Hrem & Hc & Hrd). set (s1 := set_pos s (S _) _ _ _ _ _) in Hrem, Hc, Hrd.
      destruct (read_turn s1 (g_group g) startRow Hrd eq_refl eq_refl) as (l & e & Erd & He & Hrem2 & Hc2 & Hrd2).
      cbn [s_groupPos s_reader s_batch s_top s_err s_stats set_pos] in *. rewrite Erd.
      destruct He as [-> | ->]; cbv beta iota in *; cbn [errors_Is];
        (apply Hgo; [exact Hrd2|exact Ht|rewrite <-Hc; exact Hc2|done..|by rewrite <-Hrem, <-Hrem2]).
  - pose proof (row_turn s (k, v) batch (s_top s) Hs Eb) as (Hrem & Hc & Hrd).
    set (s1 := set_pos s (s_groupPos s) (s_reader s) batch (s_top s) (s_err s) (count_decoded (s_stats s))) in *.
    pose proof (rd_sorted _ Hs) as Hsort. rewrite Hrem in Hsort. apply sorted_cells_cons in Hsort as [_ Hle]. cbn [fst] in Hle.
    assert (in_seek (s_rng s) (s_cfs s) (s_inclusive s) (k, v) =
      negb (BeforeStart (s_rng s) k) && negb (AfterEnd (s_rng s) k) && cfAllowed (ColumnFamily k) (s_cfs s) (s_inclusive s)) as Hin
      by (unfold in_seek; by rewrite Contains_split).
    rewrite Hrem in Hgo. rewrite Hrem.
    change (s_rng s1) with (s_rng s). change (s_cfs s1) with (s_cfs s). change (s_inclusive s1) with (s_inclusive s).
    destruct (BeforeStart (s_rng s) k) eqn:Ebs; cbn [negb andb] in Hin.
    { apply (Hgo s1); try done. by rewrite filter_cons_False by congruence. }
    destruct (AfterEnd (s_rng s) k) eqn:Eae; cbn [negb andb] in Hin.
    + eexists. split; [done|]. split; [|split; [|done]].
      * split; [|done]. exact (reading_close s1 None Hrd).
      * unfold pq_view. cbn [s_top set_pos]. rewrite filter_cons_False by congruence. symmetry. apply filter_none.
        eapply Forall_impl; [exact Hle|]. intros d Hd. unfold in_seek. by rewrite Contains_split, (AfterEnd_mono _ _ _ Hd Eae), andb_false_r.
    + destruct (cfAllowed (ColumnFamily k) (s_cfs s) (s_inclusive s)) eqn:Ecf; cbn [negb].
      2: { apply (Hgo s1); try done. by rewrite filter_cons_False by congruence. }
      eexists. split; [done|]. split; [|split; [|done]].
      * split; [|cbn [s_top set_pos]; split; [done|exact Hle]]. by destruct Hrd.
      * unfold pq_view. cbn [s_top set_pos]. rewrite filter_cons_True by done. done.
Qed.

(** ** A seek reads what was not pruned *)

Definition selection (groups : list rowGroupIndex) (r : Range) : list (nat * nat) :=
  (select_groups 0 groups r (mkStats 0 0 0 0 0)).1.

Lemma select_groups_stats i groups r st st' : (select_groups i groups r st).1 = (select_groups i groups r st').1.
Proof.
  revert i st st'. induction groups as [|g groups IH]; intros i st st'; [done|]. cbn [select_groups].
  destruct (pruned g r); [apply IH|].
  match goal with |- (let '(_, _) := ?x in _).1 = (let '(_, _) := ?y in _).1 => assert (x.1 = y.1) as H by apply IH; destruct x, y end.
  cbn [fst] in *. by rewrite H.
Qed.

Definition pq_scan (s : Source) (r : Range) (cfs : list bytes) (incl : bool) : list Cell :=
  filter (fun c => in_seek r cfs incl c = true) (selected_rows (s_groups s) (selection (s_groups s) r)).

Lemma select_groups_ok whole pre groups r st :
  whole = pre ++ groups -> Forall group_ok groups ->
  let selected := (select_groups (length pre) groups r st).1 in
  Forall (entry_fine whole) selected /\ sublist (selected_rows whole selected) (all_rows groups) /\
  (selected_cost whole selected <= list_sum ((fun g => S (2 * rg_NumRows (g_group g))) <$> groups))%nat /\
  (fair r (all_rows groups) -> forall cfs incl,
     filter (fun c => in_seek r cfs incl c = true) (selected_rows whole selected) =
     filter (fun c => in_seek r cfs incl c = true) (all_rows groups)).
Proof.
  intros Hw Hg. revert pre st Hw. induction Hg as [|g groups [Hi [cells Hs]] Hg IH]; intros pre st Hw; cbv zeta.
  { cbn [select_groups fst]. split_and!; [constructor|done|done|done]. }
  assert (rows_from (g_group g) 0 = cells) as Hrows by (by rewrite (rows_from_serves _ cells) by (done || lia)).
  assert (all_rows (g :: groups) = cells ++ all_rows groups) as Eall.
  { unfold all_rows. rewrite fmap_cons. cbn [concat]. by rewrite Hrows. }
  rewrite Eall, fmap_cons. cbn [select_groups list_sum foldr]. change (foldr Nat.add 0%nat) with list_sum.
  assert (whole = (pre ++ [g]) ++ groups) as Hw' by (by rewrite <-(assoc_L (++))).
  assert (length (pre ++ [g]) = S (length pre)) as El by (rewrite length_app; cbn [length]; lia).
  destruct (pruned g r) eqn:Ep.
  - destruct (IH (pre ++ [g]) (mkStats (RowGroupsTotal st) (RowGroupsRead st) (RowGroupsPruned st + 1) (RowsSkippedPageIndex st)
      (RowsDecoded st)) Hw') as (H1 & H2 & H3 & H4). rewrite El in *.
    split; [done|]. split; [by apply sublist_inserts_l|]. split; [lia|]. intros Hf cfs incl. apply fair_app in Hf as [Hf1 Hf2].
    rewrite filter_app, H4 by done. rewrite (filter_none _ cells); [done|]. rewrite Hi in Ep.
    eapply Forall_impl; [exact (pruned_outside _ _ _ Hs Hf1 Ep)|]. intros c Hc. unfold in_seek. by rewrite Hc.
  - set (st' := mkStats _ _ _ _ _). specialize (IH (pre ++ [g]) st' Hw'). rewrite El in IH.
    destruct (select_groups (S (length pre)) groups r st') as [sel st2]. cbn [fst] in *. destruct IH as (H1 & H2 & H3 & H4).
    assert (whole !! length pre = Some g) as Elk by (rewrite Hw; by apply list_lookup_middle).
    destruct (pageStartRow_below (g_group g) cells r Hs) as [Hp1 Hp2]. rewrite <-Hi in Hp1, Hp2. pose proof (sv_rows _ _ Hs) as Hn.
    assert (selected_rows whole ((length pre, pageStartRow g r) :: sel) = drop (pageStartRow g r) cells ++ selected_rows whole sel) as Esr.
    { unfold selected_rows. rewrite fmap_cons. cbn [concat fst snd]. rewrite Elk. by rewrite (rows_from_serves _ cells) by done. }
    rewrite Esr. split; [constructor; [|done]; exists g; cbn [fst snd]; split; [done|lia]|].
    split; [by apply sublist_app; [apply sublist_drop|]|]. split.
    + unfold selected_cost in *. rewrite fmap_cons. cbn [list_sum foldr fst snd]. change (foldr Nat.add 0%nat) with list_sum.
      rewrite Elk. assert (read_cost (g_group g) (pageStartRow g r) <= S (2 * rg_NumRows (g_group g)))%nat by (unfold read_cost; lia). lia.
    + intros Hf cfs incl. apply fair_app in Hf as [Hf1 Hf2]. rewrite !filter_app, H4 by done. f_equal.
      rewrite <-(take_drop (pageStartRow g r) cells) at 2. rewrite filter_app, (filter_none _ (take _ _)); [done|].
      apply Forall_lookup_2. intros i c Hc. assert (i < pageStartRow g r)%nat as Hlt.
      { apply lookup_lt_Some in Hc. rewrite length_take in Hc. lia. }
      rewrite lookup_take_lt in Hc by done. unfold in_seek. by rewrite Contains_split, (Hp2 i c Hlt Hc).
Qed.

Lemma rows_from_length g pos : (exists cells, serves g cells) -> (pos <= rg_NumRows g)%nat -> length (rows_from g pos) = (rg_NumRows g - pos)%nat.
Proof. intros [cells Hs] Hp. pose proof (sv_rows _ _ Hs) as Hn. rewrite (rows_from_serves g cells), length_drop by (done || lia). lia. Qed.

Lemma remaining_cost s : reading s -> (length (remaining s) < cost s)%nat.
Proof.
  intros [[Hg _] Hsel Hrd _ _ _]. unfold remaining, cost. rewrite !length_app.
  assert (length (match s_reader s with Some (g, pos) => rows_from g pos | None => [] end) <=
    match s_reader s with Some (g, pos) => read_cost g pos | None => 0 end)%nat.
  { destruct (s_reader s) as [[g pos]|]; [|done]. destruct (Hrd g pos eq_refl) as [Hs Hp]. rewrite rows_from_length by done.
    unfold read_cost. lia. }
  assert (length (selected_rows (s_groups s) (drop (s_groupPos s) (s_selected s))) <=
    selected_cost (s_groups s) (drop (s_groupPos s) (s_selected s)))%nat; [|lia].
  apply (Forall_drop _ (s_groupPos s)) in Hsel. unfold selected_rows, selected_cost.
  induction Hsel as [|[i pos] sel (g & Eg & Hp) _ IH]; [done|]. rewrite !fmap_cons. cbn [concat list_sum foldr fst snd] in *.
  change (foldr Nat.add 0%nat) with list_sum in *. rewrite length_app, Eg.
  pose proof (Forall_lookup_1 _ _ _ _ Hg Eg) as [_ Hs]. rewrite rows_from_length by done.
  assert (rg_NumRows (g_group g) - pos <= read_cost (g_group g) pos)%nat by (unfold read_cost; lia). lia.
Qed.

Definition pq_ready (s : Source) : Prop := groups_ok (s_groups s).

Lemma Source_Seek_ok s r cfs incl :
  pq_ready s -> exists s', Source_Seek r cfs incl s = (s', None) /\ pq_live s' /\ pq_view s' = pq_scan s r cfs incl /\ s_groups s' = s_groups s.
Proof.
  intros [Hg Hs]. unfold Source_Seek, pq_scan, selection. set (st := mkStats (RowGroupsTotal (s_stats s)) 0 0 0 0).
  pose proof (select_groups_ok (s_groups s) [] (s_groups s) r st eq_refl Hg) as (H1 & H2 & H3 & _). cbn [length] in *.
  rewrite (select_groups_stats 0 (s_groups s) r (mkStats 0 0 0 0 0) st). destruct (select_groups 0 (s_groups s) r st) as [sel st']. cbn [fst] in *.
  set (s1 := mkSource _ _ r cfs incl sel 0 None [] None None st').
  assert (remaining s1 = selected_rows (s_groups s) sel) as Er by done.
  assert (cost s1 = S (selected_cost (s_groups s) sel)) as Ec by done.
  assert (turns s1 = turns s) as Et by done.
  assert (reading s1) as Hr.
  { split; [done|done|done| |done|].
    - rewrite Er. by eapply sorted_cells_sublist.
    - rewrite Ec. unfold turns. cbn [s1 s_groups]. lia. }
  destruct (Source_advance_ok (turns s) s1 Hr eq_refl) as (s' & -> & Hl & Hv & G1 & _); [rewrite <-Et; apply Hr|].
  exists s'. split; [done|]. split; [done|]. split; [by rewrite Hv, Er|done].
Qed.

#[export, refine] Instance Source_Laws : SKVILaws Source := {
  ready := pq_ready;
  live := pq_live;
  view := pq_view;
  scan := pq_scan;
}.
Proof.
  - intros s [Hr _]. apply Hr.
  - intros s r cfs incl [Hg Hs]. apply sorted_cells_filter. eapply sorted_cells_sublist; [|exact Hs].
    unfold selection. by apply (select_groups_ok (s_groups s) [] (s_groups s) r (mkStats 0 0 0 0 0)).
  - intros s [Hr Ht]. unfold pq_view. destruct (s_top s) as [c|]; [|constructor]. destruct Ht as [_ Hle]. apply sorted_cells_cons.
    split; [apply sorted_cells_filter, Hr|]. eapply sublist_Forall; [apply filter_sublist|done].
  - intros s r cfs incl Hr. destruct (Source_Seek_ok s r cfs incl Hr) as (s' & E & Hl & Hv & Hg). exists s'. split; [exact E|].
    split; [done|]. split; [done|]. unfold pq_scan. by rewrite Hg.
  - intros s Hl. exists s. split; [|done]. cbn [Iter.HasTop Source_SKVI]. unfold pq_view. f_equal. apply bool_decide_ext.
    destruct (s_top s); split; [done|by eexists|by intros []|done].
  - intros s c l _ Hv. unfold pq_view in Hv. cbn [GetTopKey GetTopValue Source_SKVI].
    destruct (s_top s) as [d|]; [|done]. by injection Hv as -> _.
  - intros s c l [Hr Ht] Hv. cbn [Iter.Next Source_SKVI]. unfold Source_Next. rewrite (rd_err _ Hr). unfold pq_view in Hv.
    destruct (s_top s) as [d|] eqn:Et; [|done]. injection Hv as -> <-.
    set (s1 := set_pos s (s_groupPos s) (s_reader s) (s_batch s) None None (s_stats s)).
    assert (reading s1) as Hr1 by (destruct Hr as [H1 H2 H3 H4 H5 H6]; by split).
    destruct (Source_advance_ok (turns s) s1 Hr1 eq_refl) as (s' & E & Hl & Hv & Hg & _); [apply Hr1|].
    exists s'. split; [exact E|]. split; [done|]. split; [done|]. unfold pq_scan. by rewrite Hg.
  - intros s [Hr _]. cbn [bound Source_SKVI]. pose proof (rd_cost _ Hr) as Hc. unfold pq_view. destruct (s_top s) as [c|]; cbn [length]; [|lia].
    pose proof (remaining_cost s Hr).
    pose proof (length_filter (wanted_by s) (remaining s)). lia.
Defined.

(** ** Writing and reading back *)

Section written.
Context (L : Library) (Marshal : FileState -> result bytes) (Unmarshal : bytes -> result FileState).

Fixpoint write_all (batches : list (list Cell)) (w : GenericWriter L) : option (GenericWriter L) :=
  match batches with
  | [] => Some w
  | b :: batches => match gw_Write L b w with (w, None) => write_all batches w | _ => None end
  end.

(** parquet-go writes what it was given and reads it back, in row groups of
    its choice. *)
Definition library_ok : Prop :=
  forall wo batches w data, write_all batches (NewGenericWriter L wo) = Some w -> gw_Close L w = Ok data ->
    data <> [] /\ ReadRows L data = Ok (concat batches) /\
    exists f css, OpenFile L data = Ok f /\ f_has_row_column f = true /\
      (forall key, f_Lookup f key = match KeyValueMetadata wo with Some (k, v) => if bool_decide (k = key) then Some v else None | None => None end) /\
      Forall2 serves (f_RowGroups f) css /\ concat css = concat batches.

Lemma write_all_app b1 b2 w w' : write_all b1 w = Some w' -> write_all (b1 ++ b2) w = write_all b2 w'.
Proof.
  revert w. induction b1 as [|b b1 IH]; intros w; cbn [write_all app]; [by intros [= ->]|].
  destruct (gw_Write L b w) as [w1 [e|]]; [done|apply IH].
Qed.

Lemma writeBatch_all batch w w' : writeBatch L batch w = (w', None) -> exists bs, concat bs = batch /\ write_all bs w = Some w'.
Proof.
  unfold writeBatch. destruct (Z.eqb_spec (len batch) 0) as [E|E].
  - intros [= <-]. exists []. by apply len_0_nil in E as ->.
  - destruct (gw_Write L batch w) as [w1 [e|]] eqn:Ew; [done|]. intros [= <-]. exists [batch]. cbn [concat write_all].
    by rewrite app_nil_r, Ew.
Qed.

(** The loop writes what the iterator drains to, in batches, unless a write or
    an advance fails. *)
Lemma encode_loop_ok {I} `{SKVI I} fuel (iter iter' : I) l e w batch count :
  drains iter l iter' e -> (length l < fuel)%nat -> len batch < batch_size ->
  match encode_loop L fuel iter w batch count with
  | (it, count', (w', None)) =>
      it = iter' /\ e = None /\ count' = count + len l /\ exists batches, concat batches = batch ++ l /\ write_all batches w = Some w'
  | (_, _, (_, Some e')) => (exists e1, e' = Wrap "parquet: write cells" e1) \/ (exists e1, e = Some e1 /\ e' = Wrap "parquet: advance" e1)
  end.
Proof.
  assert (forall b w, match writeBatch L b w with (w', None) => exists bs, concat bs = b /\ write_all bs w = Some w'
    | (_, Some e) => exists e', e = Wrap "parquet: write cells" e' end) as Hwb.
  { intros b w0. destruct (writeBatch L b w0) as [w' [e0|]] eqn:E; [|by apply writeBatch_all].
    unfold writeBatch in E. destruct (_ =? _); [done|]. destruct (gw_Write L b w0) as [? [e1|]]; [|done]. injection E as <- <-. by exists e1. }
  intros Hd. revert fuel w batch count.
  induction Hd as [i i' E|i i1 i2 c l i' e E Hk Hv Hn _ IH|i i1 i' c e E Hk Hv Hn]; intros fuel w batch count Hf Hb;
    (destruct fuel as [|fuel]; [cbn [length] in Hf; lia|]); cbn [encode_loop length] in *; rewrite E; cbv iota; rewrite ?Hk, ?Hv; pose proof (Hwb batch w) as H0.
  - destruct (writeBatch L batch w) as [w' [e|]]; [by left|]. destruct H0 as (bs & H1 & H2).
    split_and!; [done|done|by rewrite len_nil, Z.add_0_r|]. exists bs. by rewrite app_nil_r.
  - pose proof (Hwb (batch ++ [(c.1, c.2)]) w) as H1. rewrite Hn.
    assert (forall w2 bs batch2, write_all bs w = Some w2 -> concat bs ++ batch2 = batch ++ [(c.1, c.2)] -> len batch2 < batch_size ->
      match encode_loop L fuel i2 w2 batch2 (count + 1) with
      | (it, count', (w', None)) => it = i' /\ e = None /\ count' = count + len (c :: l) /\
          exists batches, concat batches = batch ++ c :: l /\ write_all batches w = Some w'
      | (_, _, (_, Some e')) => (exists e1, e' = Wrap "parquet: write cells" e1) \/ (exists e1, e = Some e1 /\ e' = Wrap "parquet: advance" e1)
      end) as Hgo.
    { intros w2 bs batch2 Hw2 Hc2 Hlen. specialize (IH fuel w2 batch2 (count + 1) ltac:(lia) Hlen).
      destruct (encode_loop L fuel i2 w2 batch2 (count + 1)) as [[it ct] [w3 [e3|]]]; [done|]. destruct IH as (-> & -> & H4 & bs3 & H5 & H6).
      split_and!; [done..|rewrite len_cons; lia|]. exists (bs ++ bs3). rewrite concat_app, H5, (assoc_L (++)), Hc2, <-(assoc_L (++)).
      split; [by destruct c|]. by rewrite (write_all_app _ _ _ w2). }
    destruct (Z.eqb_spec (len (batch ++ [(c.1, c.2)])) batch_size) as [Eb|Eb].
    + destruct (writeBatch L (batch ++ [(c.1, c.2)]) w) as [w2 [e2|]]; [by left|]. destruct H1 as (bs & H1 & H2).
      apply (Hgo w2 bs []); [done|by rewrite app_nil_r|by vm_compute].
    + apply (Hgo w [] _ eq_refl); [done|]. rewrite len_app, len_cons, len_nil in *. lia.
  - pose proof (Hwb (batch ++ [(c.1, c.2)]) w) as H1. rewrite Hn.
    destruct (_ =? batch_size); [destruct (writeBatch L (batch ++ [(c.1, c.2)]) w) as [w2 [e2|]]; [by left|]|]; right; by exists e.
Qed.

(** What the image of an embedding state reads as. *)
Definition label_of (s : FileState) : FileState := if bool_decide (State s = []) then Unknown else s.

(** An image that serves the cells. *)
Definition image_of (data : bytes) (label : FileState) (cells : list Cell) : Prop :=
  data <> [] /\
  (forall opener, exists src, NewSource (OpenFile L data) opener = Ok src /\ ready src /\
     forall r cfs incl, fair r cells -> scan src r cfs incl = filter (fun c => in_seek r cfs incl c = true) cells) /\
  Decode_cells L data = Ok cells /\ ReadEmbeddingSpaceMetadata L Unmarshal data = Ok label.

Lemma check_sorted_ok previous cells :
  sorted_cells cells -> match previous with Some p => Forall (fun d : Cell => key_le p d.1) cells | None => True end ->
  check_sorted previous cells = None.
Proof.
  revert previous. induction cells as [|c cells IH]; intros previous Hs Hp; [done|]. apply sorted_cells_cons in Hs as [Hs Hle].
  cbn [check_sorted]. destruct previous as [p|]; [|by apply IH]. apply Forall_cons in Hp as [Hp _]. unfold key_le in Hp.
  destruct (Compare p c.1); try done; by apply IH.
Qed.

Lemma groups_ok_served gs css :
  Forall2 serves gs css -> sorted_cells (concat css) ->
  groups_ok (index_group <$> gs) /\ all_rows (index_group <$> gs) = concat css.
Proof.
  intros Hg Hs. assert (all_rows (index_group <$> gs) = concat css) as E.
  { clear Hs. unfold all_rows. induction Hg as [|g cs gs css H Hg IH]; [done|]. rewrite !fmap_cons. cbn [concat].
    rewrite IH. f_equal. by rewrite (rows_from_serves _ cs) by (done || lia). }
  split; [|done]. split; [|by rewrite E]. clear -Hg. induction Hg as [|g cs gs css H Hg IH]; [constructor|]. rewrite fmap_cons.
  constructor; [|done]. split; [done|by exists cs].
Qed.

Lemma image_written wo batches w data label :
  library_ok -> write_all batches (NewGenericWriter L wo) = Some w -> gw_Close L w = Ok data -> sorted_cells (concat batches) ->
  match KeyValueMetadata wo with
  | Some (k, v) => k = ParquetMetadataKey /\ Decode Unmarshal v = Ok label
  | None => label = Unknown
  end ->
  image_of data label (concat batches).
Proof.
  intros HL Hw Hc Hs Hlab. destruct (HL wo batches w data Hw Hc) as (Hne & Hread & f & css & Hf & Hrow & Hmeta & Hsv & Ec).
  rewrite <-Ec in Hs. destruct (groups_ok_served _ _ Hsv Hs) as [Hok Eall]. rewrite <-Ec in *. split; [done|]. split; [|split].
  - intros opener. unfold NewSource. rewrite Hf. cbn [wrap mbind result_bind]. rewrite Hrow. cbn [negb].
    eexists. split; [done|]. split; [exact Hok|]. intros r cfs incl Hfair. cbn [scan Source_Laws]. unfold pq_scan. cbn [s_groups].
    set (gs := index_group <$> f_RowGroups f) in *. unfold selection.
    destruct (select_groups_ok gs [] gs r (mkStats 0 0 0 0 0) eq_refl (proj1 Hok)) as (_ & _ & _ & H). cbn [length] in H.
    rewrite Eall in H. by apply H.
  - unfold Decode_cells. rewrite Hread. cbn [wrap mbind result_bind]. by rewrite (check_sorted_ok None).
  - unfold ReadEmbeddingSpaceMetadata. rewrite Hf. cbn [wrap mbind result_bind]. rewrite Hmeta.
    destruct (KeyValueMetadata wo) as [[k v]|]; [|by subst]. destruct Hlab as [-> Hd]. rewrite bool_decide_eq_true_2 by done.
    by rewrite Hd.
Qed.

Lemma writer_options_label opts wo :
  json_ok Marshal Unmarshal -> writer_options Marshal opts = Ok wo ->
  match KeyValueMetadata wo with
  | Some (k, v) => k = ParquetMetadataKey /\ Decode Unmarshal v = Ok (label_of (eo_EmbeddingSpace opts))
  | None => label_of (eo_EmbeddingSpace opts) = Unknown
  end.
Proof.
  intros Hj. unfold writer_options, label_of. case_bool_decide as E; [by intros [= <-]|].
  destruct (Encode Marshal (eo_EmbeddingSpace opts)) as [b|] eqn:Ee; [|done]. cbn [wrap mbind result_bind]. intros [= <-]. cbn [KeyValueMetadata].
  split; [done|]. by eapply Decode_Encode.
Qed.

(** What is encoded without error is the image of what the iterator drains
    to. *)
Lemma EncodeWithOptions_ok {I} `{SKVI I} opts (iter iter' it : I) l e data n :
  library_ok -> json_ok Marshal Unmarshal -> drains iter l iter' e -> (length l <= bound iter)%nat -> sorted_cells l ->
  EncodeWithOptions L Marshal opts iter = (it, Ok (data, n)) ->
  it = iter' /\ e = None /\ n = len l /\ image_of data (label_of (eo_EmbeddingSpace opts)) l.
Proof.
  intros HL Hj Hd Hbd Hs. unfold EncodeWithOptions. destruct (writer_options Marshal opts) as [wo|] eqn:Eo; [|done].
  pose proof (encode_loop_ok (S (bound iter)) iter iter' l e (NewGenericWriter L wo) [] 0 Hd ltac:(lia) ltac:(by vm_compute)) as He.
  destruct (encode_loop L (S (bound iter)) iter (NewGenericWriter L wo) [] 0) as [[i ct] [w [e'|]]]; [done|].
  destruct He as (-> & -> & -> & bs & H5 & H6). destruct (gw_Close L w) as [d|] eqn:Ec; [|done]. cbn [wrap mbind result_bind].
  intros [= <- <- <-]. split_and!; [done..|]. cbn [app] in H5. rewrite <-H5. eapply image_written; [done|exact H6|exact Ec| |].
  - by rewrite H5.
  - by apply writer_options_label.
Qed.
End written.

(** ** Validation *)

Lemma validate_batch_app check previous a b :
  validate_batch check previous (a ++ b) =
  match validate_batch check previous a with (p, None) => validate_batch check p b | x => x end.
Proof.
  revert previous. induction a as [|[k v] a IH]; intros previous; [done|]. cbn [validate_batch app].
  destruct (match previous with Some _ => _ | None => _ end); [done|]. destruct (match check with Some _ => _ | None => _ end); [done|]. apply IH.
Qed.

(** A group is validated as its rows. *)
Lemma validate_group_ok check g cells fuel pos previous :
  serves g cells -> (pos <= length cells)%nat -> (length cells - pos < fuel)%nat ->
  validate_group fuel check g pos previous = validate_batch check previous (drop pos cells).
Proof.
  intros Hs. revert pos previous. induction fuel as [|fuel IH]; intros pos previous Hp Hf; [lia|]. cbn [validate_group].
  destruct (sv_read _ _ Hs pos Hp) as (l & e & -> & [(-> & Hne & [t Ht])|[-> ->]]).
  - rewrite Ht, validate_batch_app. destruct (validate_batch check previous l) as [p [e|]]; [done|].
    destruct l as [|x l]; [done|]. cbn [length]. change ((S (length l) =? 0)%nat) with false. cbv iota.
    pose proof (f_equal length Ht) as Hl. rewrite length_drop, length_app in Hl. cbn [length] in Hl. rewrite IH by lia.
    f_equal. rewrite <-drop_drop, Ht. change (S (length l)) with (length (x :: l)). by rewrite drop_app_length.
  - destruct (validate_batch check previous _) as [p [e|]]; [done|]. by rewrite bool_decide_eq_true_2.
Qed.

Lemma validate_groups_ok check gs css previous :
  Forall2 serves gs css -> validate_groups check gs previous = (validate_batch check previous (concat css)).2.
Proof.
  intros H. revert previous. induction H as [|g cells gs css Hs _ IH]; intros previous; [done|]. cbn [validate_groups concat].
  rewrite (validate_group_ok check g cells) by (done || (rewrite (sv_rows _ _ Hs); lia) || lia). rewrite drop_0, validate_batch_app.
  destruct (validate_batch check previous cells) as [p [e|]]; [done|apply IH].
Qed.

Lemma validate_batch_sorted check previous cells :
  sorted_cells cells -> match previous with Some p => Forall (fun d : Cell => key_le p d.1) cells | None => True end ->
  (validate_batch (Some check) previous cells).2 = None <-> Forall (fun c : Cell => check c.1 = None) cells.
Proof.
  revert previous. induction cells as [|[k v] cells IH]; intros previous Hs Hp; [split; [constructor|done]|].
  apply sorted_cells_cons in Hs as [Hs Hle]. cbn [validate_batch]. rewrite Forall_cons. cbn [fst] in *.
  assert (match previous with Some p => is_gt (Compare p k) | None => false end = false) as ->.
  { destruct previous as [p|]; [|done]. apply Forall_cons in Hp as [Hp _]. unfold key_le in Hp. cbn in Hp. by destruct (Compare p k). }
  destruct (check k) as [e|]; [cbn; naive_solver|]. rewrite IH by done. naive_solver.
Qed.

Lemma validate_image {I} `{SKVILaws I} L (HL : library_ok L) Marshal opts (iter iter' : I) data n check :
  live iter -> EncodeWithOptions L Marshal opts iter = (iter', Ok (data, n)) ->
  Validate L data (Some check) = None <-> Forall (fun c : Cell => check c.1 = None) (view iter).
Proof.
  intros Hl. unfold EncodeWithOptions. destruct (writer_options Marshal opts) as [wo|] eqn:Eo; [|done]. pose proof (bound_ok iter Hl) as Hbd.
  destruct (live_drains iter Hl) as (i' & Hdr & _).
  pose proof (encode_loop_ok L (S (bound iter)) iter i' _ _ (NewGenericWriter L wo) [] 0 Hdr ltac:(lia) ltac:(by vm_compute)) as He.
  destruct (encode_loop L (S (bound iter)) iter (NewGenericWriter L wo) [] 0) as [[it ct] [w [e|]]]; [done|].
  destruct He as (_ & _ & _ & bs & H5 & H6). destruct (gw_Close L w) as [d|] eqn:Ec; [|done]. cbn [wrap mbind result_bind].
  intros [= _ <- _]. cbn [app] in H5. destruct (HL wo bs w d H6 Ec) as (_ & _ & f & css & Hf & _ & _ & Hsv & Ecs).
  unfold Validate. rewrite Hf. cbn [wrap]. rewrite (validate_groups_ok _ _ css) by done. rewrite Ecs, H5.
  by apply validate_batch_sorted; [apply view_sorted|].
Qed.

(** ** A library that stores the cells as they are *)

Definition toy_put (b : bytes) : bytes := len b :: b.
Definition toy_get (s : bytes) : option (bytes * bytes) :=
  match s with [] => None | n :: s => Some (take (Z.to_nat n) s, drop (Z.to_nat n) s) end.

Definition toy_cell (c : Cell) : bytes :=
  toy_put (Row c.1) ++ toy_put (ColumnFamily c.1) ++ toy_put (ColumnQualifier c.1) ++ toy_put (ColumnVisibility c.1) ++
  [Timestamp c.1; if Deleted c.1 then 1 else 0] ++ toy_put c.2.

Fixpoint toy_cells (n : nat) (s : bytes) : option (list Cell) :=
  match n with
  | O => Some []
  | S n =>
      '(row, s) ← toy_get s; '(cf, s) ← toy_get s; '(cq, s) ← toy_get s; '(cv, s) ← toy_get s;
      match s with
      | ts :: del :: s =>
          '(v, s) ← toy_get s;
          cells ← toy_cells n s;
          Some ((mkKey row cf cq cv ts (del =? 1), v) :: cells)
      | _ => None
      end
  end.

Definition toy_image (meta : option (bytes * bytes)) (cells : list Cell) : bytes :=
  (match meta with Some (k, v) => 1 :: toy_put k ++ toy_put v | None => [0] end) ++ len cells :: concat (toy_cell <$> cells).

Definition toy_read (data : bytes) : option (option (bytes * bytes) * list Cell) :=
  '(meta, s) ← match data with
    | 1 :: s => '(k, s) ← toy_get s; '(v, s) ← toy_get s; Some (Some (k, v), s)
    | _ :: s => Some (None, s)
    | [] => None
    end;
  match s with n :: s => cells ← toy_cells (Z.to_nat n) s; Some (meta, cells) | [] => None end.

Definition max_row (cells : list Cell) : bytes :=
  foldr (fun (c : Cell) m => if is_gt (bytes_Compare (Row c.1) m) then Row c.1 else m) [] cells.

(** One row group, with its greatest row, an exact filter and a page per row. *)
Definition toy_group (cells : list Cell) : RowGroup :=
  mkRowGroup (length cells) None None (Some (max_row cells)) None
    (Some (fun row => Ok (existsb (fun c : Cell => bytes_Equal (Row c.1) row) cells)))
    (Ok (mkColumnIndex true (length cells) (fun _ => false) (fun p => match cells !! p with Some c => Row c.1 | None => [] end)))
    (Ok (mkOffsetIndex (length cells) (fun p => p))) (fun _ => None)
    (fun pos => match drop pos cells with [] => ([], Some EOF) | rest => (take 256 rest, None) end).

Definition toy_file (meta : option (bytes * bytes)) (cells : list Cell) : File :=
  mkFile (fun key => match meta with Some (k, v) => if bool_decide (k = key) then Some v else None | None => None end) true
    [toy_group cells].

Definition toy_library : Library :=
  mkLibrary (option (bytes * bytes) * list Cell) (fun wo => (KeyValueMetadata wo, [])) (fun b w => ((w.1, w.2 ++ b), None))
    (fun w => Ok (toy_image w.1 w.2))
    (fun data => match toy_read data with Some (meta, cells) => Ok (toy_file meta cells) | None => Err UnexpectedEOF end)
    (fun data => match toy_read data with Some (_, cells) => Ok cells | None => Err UnexpectedEOF end).

Lemma toy_get_put b s : toy_get (toy_put b ++ s) = Some (b, s).
Proof. unfold toy_put. cbn [app toy_get]. unfold len. by rewrite Nat2Z.id, take_app_length, drop_app_length. Qed.

Lemma toy_cells_ok cells s : toy_cells (length cells) (concat (toy_cell <$> cells) ++ s) = Some cells.
Proof.
  induction cells as [|[[row cf cq cv ts del] v] cells IH]; [done|]. rewrite fmap_cons. cbn [concat length toy_cells].
  unfold toy_cell at 1. cbn [fst snd Row ColumnFamily ColumnQualifier ColumnVisibility Timestamp Deleted]. rewrite <-!(assoc_L (++)).
  rewrite !toy_get_put. cbn [mbind option_bind]. rewrite !toy_get_put. cbn [mbind option_bind]. rewrite !toy_get_put. cbn [mbind option_bind].
  rewrite !toy_get_put. cbn [mbind option_bind app]. rewrite toy_get_put. cbn [mbind option_bind]. rewrite IH. cbn [mbind option_bind].
  by destruct del.
Qed.

Lemma toy_read_image meta cells : toy_read (toy_image meta cells) = Some (meta, cells).
Proof.
  unfold toy_read, toy_image. rewrite <-(app_nil_r (concat (toy_cell <$> cells))). unfold len.
  destruct meta as [[k v]|]; cbn [app]; [rewrite <-(assoc_L (++)), toy_get_put; cbn [mbind option_bind]; rewrite toy_get_put|];
    cbn [mbind option_bind]; by rewrite Nat2Z.id, toy_cells_ok.
Qed.

Lemma bytes_le_nil b : bytes_le [] b.
Proof. by destruct b. Qed.

Lemma bytes_le_refl b : bytes_le b b.
Proof. unfold bytes_le. by rewrite (cmp_refl bytes_Compare). Qed.

Lemma max_row_ok cells : Forall (fun c : Cell => bytes_le (Row c.1) (max_row cells)) cells.
Proof.
  induction cells as [|c cells IH]; [constructor|]. cbn [max_row foldr]. fold (max_row cells). constructor.
  - destruct (bytes_Compare (Row c.1) (max_row cells)) eqn:E; cbn [is_gt]; [..|apply bytes_le_refl]; unfold bytes_le; by rewrite E.
  - eapply Forall_impl; [exact IH|]. cbn beta. intros d Hd. destruct (bytes_Compare (Row c.1) (max_row cells)) eqn:E; cbn [is_gt]; try done.
    assert (bytes_Compare (max_row cells) (Row c.1) = Lt) as Hlt by (by rewrite (cmp_antisym bytes_Compare (Row c.1)), E).
    unfold bytes_le. by rewrite (bytes_le_lt _ _ _ Hd Hlt).
Qed.

Lemma toy_group_serves cells : serves (toy_group cells) cells.
Proof.
  split; cbn [toy_group rg_NumRows index_group g_minRow g_maxRow rg_MinValue rg_Min rg_MaxValue rg_Max rg_BloomFilter rg_ColumnIndex
    rg_OffsetIndex rg_SeekToRow rg_Read]; [done|done|..].
  - intros m [= <-]. apply max_row_ok.
  - intros check row [= <-] [= E]. apply Forall_forall. intros c Hc Hr. assert (false = true); [|done]. rewrite <-E. apply existsb_exists.
    exists c. split; [by apply list_elem_of_In|]. by apply bool_decide_eq_true.
  - intros ci oi [= <-] [= <-] _ _. split; cbn [ci_NumPages oi_FirstRowIndex ci_NullPage ci_MaxValue].
    + destruct cells; done.
    + intros p. unfold page_start. cbn [ci_NumPages oi_FirstRowIndex]. destruct (Nat.ltb_spec p (length cells)), (Nat.ltb_spec (S p) (length cells)); lia.
    + unfold page_start. cbn [ci_NumPages oi_FirstRowIndex ci_NullPage ci_MaxValue]. intros p i c Hi Hc. split; [done|].
      pose proof (lookup_lt_Some _ _ _ Hc). assert (i = p) as ->.
      { revert Hi. destruct (Nat.ltb_spec p (length cells)), (Nat.ltb_spec (S p) (length cells)); lia. }
      rewrite Hc. apply bytes_le_refl.
  - done.
  - intros pos Hp. destruct (drop pos cells) as [|c rest] eqn:E.
    + eexists _, _. split; [done|]. by right.
    + eexists _, _. split; [done|]. left. split_and!; [done|done|]. apply prefix_take.
Qed.

Lemma toy_write_all batches w : write_all toy_library batches w = Some (w.1, w.2 ++ concat batches).
Proof.
  revert w. induction batches as [|b batches IH]; intros [m cs]; cbn [write_all concat].
  - by rewrite app_nil_r.
  - change (gw_Write toy_library b (m, cs)) with ((m, cs ++ b), @None err). cbv iota. rewrite IH. cbn [fst snd]. by rewrite <-(assoc_L (++)).
Qed.

Lemma toy_library_ok : library_ok toy_library.
Proof.
  intros wo batches w data Hw. rewrite toy_write_all in Hw. injection Hw as <-. intros Hc. injection Hc as <-. cbn [fst snd app] in *.
  cbn [ReadRows OpenFile toy_library NewGenericWriter]. cbn [fst snd app]. rewrite toy_read_image.
  split; [by destruct (KeyValueMetadata wo) as [[? ?]|]|]. split; [done|].
  eexists _, [concat batches]. split; [done|]. split; [done|]. split; [done|]. split; [|cbn [concat]; by rewrite app_nil_r].
  constructor; [apply toy_group_serves|constructor].
Qed.

(** ** Properties *)

(** C33: Parquet files are read back as they were written, and pruning row
    groups and pages loses nothing.  When an iterator's cells were encoded
    without error, the count returned is theirs; decoding the image gives
    them back; the embedding state is the one of the options; validation
    accepts the image when it accepts every key; and a source on the image
    delivers, for any seek whose range is not mistaken for a single row,
    exactly the cells of the seek. *)
Theorem parquet_roundtrip {I} `{SKVILaws I} L Marshal Unmarshal opts (iter iter' : I) data n opener :
  library_ok L -> json_ok Marshal Unmarshal -> live iter ->
  EncodeWithOptions L Marshal opts iter = (iter', Ok (data, n)) ->
  n = len (view iter) /\ Decode_cells L data = Ok (view iter) /\
  ReadEmbeddingSpaceMetadata L Unmarshal data = Ok (label_of (eo_EmbeddingSpace opts)) /\
  (forall check, Validate L data (Some check) = None <-> Forall (fun c : Cell => check c.1 = None) (view iter)) /\
  exists src, NewSource (OpenFile L data) opener = Ok src /\
    forall r cfs incl, fair r (view iter) ->
      seek_drain r cfs incl src = Ok (filter (fun c => in_seek r cfs incl c = true) (view iter)).
Proof.
  intros HL Hj Hl He.
  destruct (live_drains iter Hl) as (i' & Hdr & _). pose proof (bound_ok iter Hl) as Hbd.
  destruct (EncodeWithOptions_ok L Marshal Unmarshal opts iter i' iter' _ _ data n HL Hj Hdr Hbd) as (_ & _ & Hn & _ & Hsrc & Hd & Hm); [by apply view_sorted|done|].
  split; [done|]. split; [done|]. split; [done|]. split.
  - intros check. apply (validate_image L HL Marshal opts iter iter' data n); done.
  - destruct (Hsrc opener) as (src & Es & Hr & Hs). exists src. split; [done|]. intros r cfs incl Hf.
    rewrite seek_drain_ok by done. by rewrite Hs.
Qed.

Definition pq_cells : list Cell :=
  [(mkKey [1] [102] [1] [] 9 false, [7]); (mkKey [1] [102] [1] [] 5 false, [8]); (mkKey [1; 0] [101] [] [] 5 false, [9]);
   (mkKey [2] [102] [] [] 3 true, [])].
Definition pq_iter : SliceSource := (Iter.Seek InfiniteRange [] false (NewSliceSource pq_cells)).1.
Definition pq_Marshal (s : FileState) : result bytes := Ok (len (State s) :: State s ++ Identity s).
Definition pq_Unmarshal (b : bytes) : result FileState :=
  match b with n :: b => Ok (mkFileState (take (Z.to_nat n) b) (drop (Z.to_nat n) b)) | [] => Err EOF end.
Definition pq_options : EncodeOptions := mkEncodeOptions 0 0 NoEmbeddings.
Definition pq_data : bytes := match (EncodeWithOptions toy_library pq_Marshal pq_options pq_iter).2 with Ok (d, _) => d | Err _ => [] end.

Lemma pq_json : json_ok pq_Marshal pq_Unmarshal.
Proof.
  intros [st ident] b _ _ [= <-]. split; [|done]. cbn [pq_Unmarshal State Identity]. unfold len.
  by rewrite Nat2Z.id, take_app_length, drop_app_length.
Qed.

Lemma pq_iter_live : live pq_iter /\ view pq_iter = pq_cells.
Proof.
  destruct (seek_ok (NewSliceSource pq_cells) InfiniteRange [] false) as (i & E & Hl & Hv & _).
  { by apply (bool_decide_unpack _); vm_compute. }
  assert (i = pq_iter) as -> by (unfold pq_iter; by rewrite E). split; [done|]. rewrite Hv. by vm_compute.
Qed.

Lemma parquet_roundtrip_witness :
  exists n src, Decode_cells toy_library pq_data = Ok pq_cells /\ n = 4 /\
    NewSource (OpenFile toy_library pq_data) None = Ok src /\
    seek_drain (mkRange (Some (mkKey [1; 0] [] [] [] 0 false)) true false None false true) [] false src = Ok (drop 2 pq_cells).
Proof.
  destruct pq_iter_live as [Hl Hv]. set (it := (EncodeWithOptions toy_library pq_Marshal pq_options pq_iter).1).
  destruct (parquet_roundtrip toy_library pq_Marshal pq_Unmarshal pq_options pq_iter it pq_data 4 None toy_library_ok pq_json Hl)
    as (_ & Hd & _ & _ & src & Hs & Hr); [vm_compute; reflexivity|].
  exists 4, src. rewrite Hv in *. split; [exact Hd|]. split; [reflexivity|]. split; [exact Hs|].
  rewrite Hr by (intros row Hrow; discriminate Hrow). reflexivity.
Defined.

(** A range can be taken for a single row that is not one.  A scan from
    row "a" to before the family "x" of row "a\0" reaches cells of the second
    row, but has the form the source tests the bloom filter with row "a" for:
    on a file with no cell of row "a" it returns nothing, where the same cells
    in any other source are returned. *)
Theorem row_range_loses_cells :
  let a := 97 in
  let r := mkRange (Some (mkKey [a] [] [] [] 0 false)) true false (Some (mkKey [a; 0] [120] [] [] 0 false)) false false in
  let cells := [(mkKey [a; 0] [98] [] [] 5 false, [1])] in
  exists data n src, (EncodeWithOptions toy_library pq_Marshal pq_options (Iter.Seek InfiniteRange [] false (NewSliceSource cells)).1).2 = Ok (data, n) /\
    NewSource (OpenFile toy_library data) None = Ok src /\
    seek_drain r [] false src = Ok [] /\ seek_drain r [] false (NewSliceSource cells) = Ok cells.
Proof.
  eexists _, _, _. split; [vm_compute; reflexivity|]. split; [vm_compute; reflexivity|]. split; vm_compute; reflexivity.
Qed.
