(* ===== verification/Store.v ===== *)
(** * Store: the object store a tablet keeps its files in
    (src/internal/storage: WriteAll, Remove, IsCommittedWriteError)

    A tablet's directory is a map from base names to contents.  Storage
    backends are I/O; what the tablet relies on is that an object is replaced
    as a whole, that a failed write may or may not have committed and says
    which, and that the process may stop at any write.  Each write takes its
    outcome from a list of faults, so a theorem for all lists holds of every
    failure and crash. *)

From S2P Require Import Prelude EmbeddingSpace.

Inductive fault :=
| Fine
| Refused           (** nothing is written, an error *)
| CommittedLate     (** written, and an error marked as committed *)
| WrittenUnmarked   (** written, and an error that is not *)
| CrashBefore
| CrashAfter.

Record disk := mkDisk { objects : gmap bytes bytes; faults : list fault }.

(** A crash is not an error: no handler runs. *)
Inductive outcome (A : Type) :=
| Done (a : A)
| Failed (e : err) (committed : bool)
| Crashed.
Arguments Done {A} _.
Arguments Failed {A} _ _.
Arguments Crashed {A}.

Definition next_fault (d : disk) : fault * list fault :=
  match faults d with [] => (Fine, []) | f :: fs => (f, fs) end.

Definition ErrStorage : err := Fail "storage: write".
Definition ErrNotFound : err := Fail "storage: not found".

(** A write that maps the objects to [after]. *)
Definition write_objects (after : gmap bytes bytes) (d : disk) : disk * outcome unit :=
  match next_fault d with
  | (Fine, fs) => (mkDisk after fs, Done tt)
  | (Refused, fs) => (mkDisk (objects d) fs, Failed ErrStorage false)
  | (CommittedLate, fs) => (mkDisk after fs, Failed ErrStorage true)
  | (WrittenUnmarked, fs) => (mkDisk after fs, Failed ErrStorage false)
  | (CrashBefore, fs) => (mkDisk (objects d) fs, Crashed)
  | (CrashAfter, fs) => (mkDisk after fs, Crashed)
  end.

Definition storage_WriteAll (name data : bytes) (d : disk) : disk * outcome unit :=
  write_objects (<[name := data]> (objects d)) d.

Definition removeObject (name : bytes) (d : disk) : disk * outcome unit :=
  match objects d !! name with
  | None => (d, Failed ErrNotFound false)
  | Some _ => write_objects (delete name (objects d)) d
  end.

Definition storage_ReadAll (d : disk) (name : bytes) : result bytes :=
  match objects d !! name with Some b => Ok b | None => Err ErrNotFound end.

Definition objectExists (d : disk) (name : bytes) : bool := bool_decide (is_Some (objects d !! name)).

Lemma write_objects_cases after d d' r :
  write_objects after d = (d', r) ->
  (objects d' = objects d /\ (r = Failed ErrStorage false \/ r = Crashed)) \/
  (objects d' = after /\ (r = Done tt \/ (exists c, r = Failed ErrStorage c) \/ r = Crashed)).
Proof.
  unfold write_objects. destruct (next_fault d) as [[] fs]; intros [= <- <-]; [right|left|right|right|left|right]; cbn; eauto 6.
Qed.

(** A write that reports success or a committed error is there. *)
Lemma write_objects_committed after d d' r :
  write_objects after d = (d', r) -> r = Done tt \/ (exists e, r = Failed e true) -> objects d' = after.
Proof.
  unfold write_objects. destruct (next_fault d) as [[] fs]; intros [= <- <-]; cbn; intros [?|[? ?]]; congruence.
Qed.
