(* ===== verification/TabletFiles.v ===== *)
(** * TabletFiles: a tablet's immutable files and their manifest
    (src/internal/tablet: tablet.go, instance.go, tombstone_retention.go)

    A tablet's files are listed oldest first, and files.json makes the list
    authoritative.  Here are the names files are given, the manifest's
    contents and how it is written and read back, and the registration of
    imported files.  A path is represented by its base name: all of a tablet's
    objects are in its directory.  [encoding/json] is a parameter. *)

From S2P Require Import Prelude GoStd Wire BCFile EmbeddingSpace Store.

Inductive FileFormat := FormatRFile | FormatParquet.
#[export] Instance FileFormat_eq_dec : EqDecision FileFormat.
Proof. solve_decision. Defined.

Definition ParseFileFormat (value : bytes) : result FileFormat :=
  if bool_decide (value = [] \/ value = str "rfile") then Ok FormatRFile
  else if bool_decide (value = str "parquet") then Ok FormatParquet
  else Err (Fail "tablet: unsupported file format").

Definition extension (f : FileFormat) : bytes := match f with FormatParquet => str ".parquet" | FormatRFile => str ".rf" end.

(** [filepath.Ext] of a base name. *)
Fixpoint Ext_loop (rev suffix : bytes) : bytes :=
  match rev with
  | [] => []
  | c :: rev => if c =? 46 then c :: suffix else Ext_loop rev (c :: suffix)
  end.
Definition Ext (name : bytes) : bytes := Ext_loop (reverse name) [].

Definition fileFormat (path : bytes) : FileFormat :=
  if bool_decide (Ext path = str ".parquet") then FormatParquet else FormatRFile.

Definition is_data_file (name : bytes) : bool := bool_decide (Ext name = str ".rf" \/ Ext name = str ".parquet").

(** ** Names *)

(** The decimal digits of a non-negative integer, most significant first. *)
Fixpoint digits_loop (fuel : nat) (v : Z) (acc : bytes) : bytes :=
  match fuel with
  | O => acc
  | S fuel => let acc := (48 + v mod 10) :: acc in if v <? 10 then acc else digits_loop fuel (v / 10) acc
  end.
Definition digits (v : Z) : bytes := digits_loop (S (Z.to_nat (Z.log2 v))) v [].

(** [%0wd]. *)
Definition pad (w : nat) (v : Z) : bytes :=
  let ds := digits (Z.abs v) in
  if v <? 0 then 45 :: replicate (w - 1 - length ds) 48 ++ ds else replicate (w - length ds) 48 ++ ds.

Definition flush_name (ms : Z) (ext : bytes) : bytes := str "F" ++ pad 13 ms ++ ext.
Definition compact_name (ms : Z) (index : nat) (ext : bytes) : bytes :=
  str "C" ++ pad 13 ms ++ str "-" ++ pad 3 (Z.of_nat index) ++ ext.

Fixpoint read_digits (ds : bytes) (ms : Z) : option Z :=
  match ds with
  | [] => Some ms
  | c :: ds => if (c <? 48) || (c >? 57) then None else read_digits ds (ms * 10 + (c - 48))
  end.

Definition nameMillis (name : bytes) : option Z :=
  if (len name <? 14) || negb (bool_decide (head name = Some 70 \/ head name = Some 67)) then None
  else read_digits (take 13 (drop 1 name)) 0.

Definition namesHighWater (floor : Z) (names : list bytes) : Z :=
  foldl (fun floor name => match nameMillis name with Some ms => if ms >? floor then ms else floor | None => floor end) floor names.

(** Each turn rules out one of the existing names. *)
Fixpoint uniqueFlushName_loop (fuel : nat) (base : Z) (ext : bytes) (existing : gset bytes) : option bytes :=
  match fuel with
  | O => None
  | S fuel =>
      let name := flush_name base ext in
      if bool_decide (name ∈ existing) then uniqueFlushName_loop fuel (base + 1) ext existing else Some name
  end.
Definition uniqueFlushName (base : Z) (ext : bytes) (existing : gset bytes) : option bytes :=
  uniqueFlushName_loop (S (base.size existing)) base ext existing.

Fixpoint uniqueCompactionBase_loop (fuel : nat) (base : Z) (outputs : nat) (ext : bytes) (existing : gset bytes) : option Z :=
  match fuel with
  | O => None
  | S fuel =>
      if existsb (fun index => bool_decide (compact_name base index ext ∈ existing)) (seq 0 outputs)
      then uniqueCompactionBase_loop fuel (base + 1) outputs ext existing
      else Some base
  end.
Definition uniqueCompactionBase (base : Z) (outputs : nat) (ext : bytes) (existing : gset bytes) : option Z :=
  uniqueCompactionBase_loop (S (base.size existing)) base outputs ext existing.

(** The wall clock, but above every name used. *)
Definition nextNameMillis (now highWater : Z) : Z := if now <=? highWater then highWater + 1 else now.

(** The clock is read anew each turn of the loops below. *)
Definition clock := nat -> Z.
Definition later (now : clock) : clock := fun k => now (S k).

(** Also skipping objects the tablet does not track; each turn adds one to the
    existing names. *)
Fixpoint freeFlushName_loop (fuel : nat) (d : disk) (now : clock) (highWater : Z) (ext : bytes) (existing : gset bytes)
  : option bytes :=
  match fuel with
  | O => None
  | S fuel =>
      name ← uniqueFlushName (nextNameMillis (now O) highWater) ext existing;
      if objectExists d name then freeFlushName_loop fuel d (later now) highWater ext ({[name]} ∪ existing) else Some name
  end.
Definition freeFlushName (d : disk) (now : clock) (highWater : Z) (ext : bytes) (existing : gset bytes) : option bytes :=
  freeFlushName_loop (S (base.size (objects d))) d now highWater ext existing.

Fixpoint freeCompactionBase_loop (fuel : nat) (d : disk) (now : clock) (highWater : Z) (outputs : nat) (ext : bytes)
    (existing : gset bytes) : option Z :=
  match fuel with
  | O => None
  | S fuel =>
      base ← uniqueCompactionBase (nextNameMillis (now O) highWater) outputs ext existing;
      match List.find (fun index => objectExists d (compact_name base index ext)) (seq 0 outputs) with
      | Some index =>
          freeCompactionBase_loop fuel d (later now) highWater outputs ext ({[compact_name base index ext]} ∪ existing)
      | None => Some base
      end
  end.
Definition freeCompactionBase (d : disk) (now : clock) (highWater : Z) (outputs : nat) (ext : bytes) (existing : gset bytes)
  : option Z :=
  freeCompactionBase_loop (S (base.size (objects d))) d now highWater outputs ext existing.

(** ** The manifest *)

(** files.json; nil lists and maps are empty. *)
Record immutableManifest := mkManifest {
  m_Version : Z;
  m_Ordered : bool;
  m_NameHighWater : Z;
  m_Active : list bytes;
  m_Obsolete : list bytes;
  m_Sources : gmap bytes bytes;
  m_AbsorbedSources : list bytes;
  m_Minted : gmap bytes bytes;
  m_ExportTracked : bool;
  m_Exported : gmap bytes Z;
  m_ExportedLineage : bool;
  m_TombstoneFree : list bytes;
  m_AssumedExportAt : Z;
}.

Record immutableState := mkState {
  active : list bytes;
  obsolete : gset bytes;
  nameHighWater : Z;
  sources : gmap bytes bytes;
  absorbed : gset bytes;
  minted : gmap bytes bytes;
  exported : gmap bytes Z;
  exportedLineage : bool;
  tombstoneFree : gset bytes;
  assumedAt : Z;
}.

Definition immutableManifestVersion : Z := 1.
Definition importNamePrefix : bytes := str ".shoal-import-".
Definition manifest_name : bytes := str "files.json".

Definition has_prefix (p name : bytes) : bool := bool_decide (take (length p) name = p).

Definition legacy_less (a b : bytes) : bool :=
  let ia := has_prefix importNamePrefix a in
  let ib := has_prefix importNamePrefix b in
  if negb (Bool.eqb ia ib) then negb ia else string_less a b.
Definition legacyRecencyOrder (paths : list bytes) : list bytes := SliceStable legacy_less paths.

(** [sort.Strings] of a set. *)
Definition sorted_set (s : gset bytes) : list bytes := SliceStable string_less (elements s).

Definition set_exported (e : gmap bytes Z) (lineage : bool) (st : immutableState) : immutableState :=
  mkState (active st) (obsolete st) (nameHighWater st) (sources st) (absorbed st) (minted st) e lineage
    (tombstoneFree st) (assumedAt st).

(** [now] is the export clock. *)
Definition assumeExportedUntracked (now : Z) (st : immutableState) : immutableState :=
  match active st with
  | [] => st
  | _ =>
      mkState (active st) (obsolete st) (nameHighWater st) (sources st) (absorbed st) (minted st)
        (foldl (fun e name => <[name := now]> e) (exported st) (active st)) (exportedLineage st) (tombstoneFree st) now
  end.

Section json.
Context (Marshal : immutableManifest -> result bytes) (Unmarshal : bytes -> result immutableManifest).

(** A name listed twice is kept at its last position. *)
Fixpoint active_entries (available : gset bytes) (names : list bytes) : result (list bytes) :=
  match names with
  | [] => Ok []
  | name :: names =>
      if negb (bool_decide (name ∈ available)) then Err (Fail "authoritative immutable file is missing")
      else
        rest ← active_entries available names;
        Ok (if bool_decide (name ∈ names) then rest else name :: rest)
  end.

Definition live_only {A} (known : list bytes) (m : gmap bytes A) (ok : A -> bool) : gmap bytes A :=
  filter (fun kv => kv.1 ∈ known /\ ok kv.2 = true) m.

Definition not_empty (s : bytes) : bool := negb (bool_decide (s = [])).

Definition discoverImmutableFilesRaw (now : Z) (d : disk) (adoptUnknown : bool) : result immutableState :=
  let keys := dom (objects d) in
  let available := filter (fun name => name <> manifest_name /\ is_data_file name = true) keys in
  let highWater := namesHighWater 0 (elements available) in
  if negb (bool_decide (manifest_name ∈ keys)) then
    Ok (assumeExportedUntracked now (mkState (legacyRecencyOrder (elements available)) ∅ highWater ∅ ∅ ∅ ∅ false ∅ 0))
  else
    data ← wrap "read immutable manifest" (storage_ReadAll d manifest_name);
    manifest ← wrap "decode immutable manifest" (Unmarshal data);
    if negb (m_Version manifest =? immutableManifestVersion) then Err (Fail "unsupported immutable manifest version")
    else
      let highWater := if m_NameHighWater manifest >? highWater then m_NameHighWater manifest else highWater in
      let obs : gset bytes := list_to_set (m_Obsolete manifest) in
      known ← active_entries available (m_Active manifest);
      let act := if m_Ordered manifest then known else legacyRecencyOrder known in
      let act := if adoptUnknown then act ++ sorted_set (available ∖ list_to_set known ∖ obs) else act in
      let st := mkState act obs highWater (live_only known (m_Sources manifest) not_empty)
                  (list_to_set (m_AbsorbedSources manifest)) (live_only known (m_Minted manifest) not_empty) ∅
                  (m_ExportedLineage manifest) (list_to_set (filter (fun name => name ∈ known) (m_TombstoneFree manifest)))
                  (m_AssumedExportAt manifest) in
      if negb (m_ExportTracked manifest) then Ok (assumeExportedUntracked now st)
      else Ok (set_exported (live_only known (m_Exported manifest) (fun at_ => at_ >? 0)) (exportedLineage st) st).

Definition set_highWater (hw : Z) (st : immutableState) : immutableState :=
  mkState (active st) (obsolete st) hw (sources st) (absorbed st) (minted st) (exported st) (exportedLineage st)
    (tombstoneFree st) (assumedAt st).

Definition discoverImmutableFiles (now : Z) (d : disk) (adoptUnknown : bool) : result immutableState :=
  st ← discoverImmutableFilesRaw now d adoptUnknown;
  Ok (set_highWater (namesHighWater (namesHighWater (nameHighWater st) (active st)) (elements (obsolete st))) st).

(** The manifest of a generation. *)
Definition manifest_of (st : immutableState) : immutableManifest :=
  mkManifest immutableManifestVersion true
    (namesHighWater (namesHighWater (nameHighWater st) (active st)) (elements (obsolete st)))
    (active st) (sorted_set (obsolete st)) (live_only (active st) (sources st) not_empty) (sorted_set (absorbed st))
    (live_only (active st) (minted st) not_empty) true (live_only (active st) (exported st) (fun at_ => at_ >? 0))
    (exportedLineage st) (SliceStable string_less (filter (fun name => name ∈ tombstoneFree st) (active st))) (assumedAt st).

Definition persistImmutableManifest (st : immutableState) (d : disk) : disk * outcome unit :=
  match Marshal (manifest_of st) with
  | Err e => (d, Failed (Wrap "encode immutable manifest" e) false)
  | Ok data => storage_WriteAll manifest_name (data ++ [10]) d
  end.

Record ImportedFile := mkImported { Path : bytes; Source : bytes }.

Definition PublishImmutableFiles (files : list ImportedFile) (d : disk) : disk * outcome unit :=
  match (match objects d !! manifest_name with
         | None => Ok (0, false)
         | Some data =>
             previous ← wrap "decode immutable manifest" (Unmarshal data);
             Ok (Z.max 0 (m_NameHighWater previous), m_ExportedLineage previous)
         end) with
  | Err e => (d, Failed e false)
  | Ok (hw, lineage) =>
      let act := Path <$> files in
      let src := foldl (fun m f => if not_empty (Source f) then <[Path f := Source f]> m else m) ∅ files in
      let obs := filter (fun name => is_data_file name = true /\ name ∉ act) (dom (objects d)) in
      persistImmutableManifest (mkState act obs hw src ∅ ∅ ∅ lineage ∅ 0) d
  end.
End json.

(** ** Identities of imported files *)

Definition hex_digit (c : Z) : bool := ((48 <=? c) && (c <=? 57)) || ((97 <=? c) && (c <=? 102)) || ((65 <=? c) && (c <=? 70)).
Definition to_lower (c : Z) : Z := if (65 <=? c) && (c <=? 90) then c + 32 else c.

(** [inl]: the path itself; [inr]: the digest's identity, which is not a path. *)
Definition immutableFileIdentity (path : bytes) : bytes + bytes :=
  if negb (has_prefix importNamePrefix path) then inl path
  else
    let encoded := drop (length importNamePrefix) path in
    if len encoded <? 64 then inl path
    else
      let digest := take 64 encoded in
      if negb (forallb hex_digit digest) then inl path
      else if match encoded !! 64%nat with None => true | Some c => negb (c =? 45) && negb (c =? 46) end then inl path
      else inr (importNamePrefix ++ (to_lower <$> digest) ++ Ext path).

Definition legacyContentIdentity (path : bytes) : option bytes :=
  match immutableFileIdentity path with inl _ => None | inr identity => Some (str "content:" ++ identity) end.

(** ** Registering imported files *)

Record reg := mkReg {
  rg_active : list bytes;
  rg_sources : gmap bytes bytes;
  rg_absorbed : gset bytes;
  rg_adopted : list bytes;
  rg_obsolete : gset bytes;
}.

Definition held (r : reg) (source : bytes) : bool :=
  bool_decide (source ∈ rg_absorbed r) || existsb (fun kv => bool_decide (kv.2 = source)) (map_to_list (rg_sources r)).

Definition same_identity_as (path existing : bytes) : bool :=
  bool_decide (immutableFileIdentity existing = immutableFileIdentity path).

Definition contentHeld (r : reg) (path : bytes) : bool := existsb (same_identity_as path) (rg_active r).

(** A legacy import with the path's content is claimed for [source]: a live one
    in place, else an absorbed one. *)
Definition claimLegacy (r : reg) (path source : bytes) : option reg :=
  match List.find (fun existing => same_identity_as path existing && negb (not_empty (default [] (rg_sources r !! existing))))
          (rg_active r) with
  | Some existing =>
      Some (mkReg (rg_active r) (<[existing := source]> (rg_sources r)) (rg_absorbed r) (rg_adopted r) (rg_obsolete r))
  | None =>
      match legacyContentIdentity path with
      | Some digest =>
          if bool_decide (digest ∈ rg_absorbed r)
          then Some (mkReg (rg_active r) (rg_sources r) ({[source]} ∪ rg_absorbed r ∖ {[digest]}) (rg_adopted r) (rg_obsolete r))
          else None
      | None => None
      end
  end.

(** [isActive] is membership of [rg_active]. *)
Definition register_one (f : ImportedFile) (r : reg) (d : disk) : reg * disk * outcome unit :=
  if bool_decide (Path f ∈ rg_active r) then (r, d, Done tt)
  else
    let matched :=
      if negb (not_empty (Source f)) then if contentHeld r (Path f) then Some r else None
      else if held r (Source f) then Some r
      else if len (rg_adopted r) =? 0 then claimLegacy r (Path f) (Source f)
      else None in
    match matched with
    | Some r =>
        let '(d, o) := removeObject (Path f) d in
        (r, d, match o with Failed e c => Failed (Wrap "tablet: remove redundant immutable file" e) c | o => o end)
    | None =>
        (mkReg (rg_active r ++ [Path f])
           (if not_empty (Source f) then <[Path f := Source f]> (rg_sources r) else rg_sources r)
           (rg_absorbed r) (rg_adopted r ++ [Path f]) (rg_obsolete r ∖ {[Path f]}), d, Done tt)
    end.

Fixpoint register_loop (files : list ImportedFile) (r : reg) (d : disk) : reg * disk * outcome unit :=
  match files with
  | [] => (r, d, Done tt)
  | f :: files =>
      match register_one f r d with
      | (r, d, Done _) => register_loop files r d
      | x => x
      end
  end.

(** The obsolete set is the tablet's own and keeps what the loop did to it
    even when the registration fails. *)
Definition set_obsolete (obs : gset bytes) (st : immutableState) : immutableState :=
  mkState (active st) obs (nameHighWater st) (sources st) (absorbed st) (minted st) (exported st) (exportedLineage st)
    (tombstoneFree st) (assumedAt st).

Definition RegisterImmutableFiles (Marshal : immutableManifest -> result bytes) (files : list ImportedFile)
    (st : immutableState) (d : disk) : immutableState * disk * outcome (list bytes) :=
  let r := mkReg (active st) (sources st) (absorbed st) [] (obsolete st) in
  let '(r, d, o) := register_loop files r d in
  let st := set_obsolete (rg_obsolete r) st in
  match o with
  | Crashed => (st, d, Crashed)
  | Failed e c => (st, d, Failed e c)
  | Done _ =>
      let next := mkState (rg_active r) (rg_obsolete r) (nameHighWater st) (rg_sources r) (rg_absorbed r) (minted st)
                    (exported st) (exportedLineage st) (tombstoneFree st) (assumedAt st) in
      let '(d, o) := persistImmutableManifest Marshal next d in
      match o with
      | Done _ => (next, d, Done (rg_adopted r))
      | Failed e true => (next, d, Failed e true)
      | Failed e false => (st, d, Failed e false)
      | Crashed => (st, d, Crashed)
      end
  end.

(** ** Exports *)

(** [now] is the export clock; the lineage is what the caller ships. *)
Definition ExportLineage (Marshal : immutableManifest -> result bytes) (now : Z) (st : immutableState) (d : disk)
  : immutableState * disk * outcome (list (bytes * bytes)) :=
  let at_ name := default 0 (exported st !! name) in
  let out := (fun name => (name, default [] (minted st !! name))) <$> active st in
  let e := foldl (fun m name => <[name := if at_ name >? 0 then at_ name else now]> m) ∅ (active st) in
  let changed := (negb (exportedLineage st) && (len (active st) >? 0)) || existsb (fun name => negb (at_ name >? 0)) (active st) in
  if changed then
    let next := set_exported e true st in
    let '(d, o) := persistImmutableManifest Marshal next d in
    match o with
    | Done _ => (next, d, Done out)
    | Failed er c => (if c then next else st, d, Failed (Wrap "tablet: record export" er) c)
    | Crashed => (st, d, Crashed)
    end
  else (st, d, Done out).

(** ** Names are read back, and new ones are free *)

Lemma read_digits_app ds ds' a b : read_digits ds a = Some b -> read_digits (ds ++ ds') a = read_digits ds' b.
Proof.
  revert a. induction ds as [|c ds IH]; intros a; cbn [read_digits app]; [by intros [= ->]|].
  destruct (_ || _); [done|]. apply IH.
Qed.

Lemma read_digits_zeros n a : read_digits (replicate n 48) a = Some (a * 10 ^ Z.of_nat n).
Proof.
  revert a. induction n as [|n IH]; intros a; [cbn; f_equal; lia|]. cbn [replicate read_digits]. rewrite IH. f_equal.
  replace (Z.of_nat (S n)) with (Z.of_nat n + 1) by lia. rewrite Z.pow_add_r by lia. ring.
Qed.

(** The digits of [v]. *)
Lemma digits_loop_ok fuel v acc :
  (0 < fuel)%nat -> 0 <= v < 2 ^ Z.of_nat fuel ->
  exists ds, digits_loop fuel v acc = ds ++ acc /\
    (forall a, read_digits ds a = Some (a * 10 ^ len ds + v)) /\
    (forall n : nat, (0 < n)%nat -> v < 10 ^ Z.of_nat n -> (length ds <= n)%nat).
Proof.
  revert v acc. induction fuel as [|fuel IH]; intros v acc Hf Hv; [lia|]. cbn [digits_loop].
  pose proof (Z.mod_pos_bound v 10 ltac:(lia)) as Hm.
  assert (forall a, read_digits [48 + v mod 10] a = Some (a * 10 + v mod 10)) as Hone.
  { intros a. cbn [read_digits]. replace (48 + v mod 10 <? 48) with false by lia. replace (48 + v mod 10 >? 57) with false by lia.
    cbn [orb]. f_equal. lia. }
  destruct (Z.ltb_spec v 10) as [Hlt|Hge].
  - exists [48 + v mod 10]. split; [done|]. split; [|intros n Hn _; cbn [length]; lia].
    intros a. rewrite Hone. change (len [48 + v mod 10]) with 1. rewrite Z.mod_small by lia. done.
  - destruct (IH (v / 10) ((48 + v mod 10) :: acc)) as (ds & -> & Hread & Hlen).
    { destruct (Nat.eq_dec fuel 0) as [E|E]; [rewrite E in Hv; change (2 ^ Z.of_nat 1) with 2 in Hv|]; lia. }
    { replace (Z.of_nat (S fuel)) with (Z.of_nat fuel + 1) in Hv by lia. rewrite Z.pow_add_r in Hv by lia.
      split; [apply Z.div_pos; lia|]. apply Z.div_lt_upper_bound; lia. }
    exists (ds ++ [48 + v mod 10]). split; [by rewrite <-app_assoc|]. split.
    + intros a. rewrite (read_digits_app _ _ _ _ (Hread a)), Hone. f_equal. rewrite len_app. change (len [48 + v mod 10]) with 1.
      rewrite Z.pow_add_r by (pose proof (len_nonneg ds); lia). pose proof (Z.div_mod v 10 ltac:(lia)). lia.
    + intros [|[|n]] Hn Hb; [lia|change (10 ^ Z.of_nat 1) with 10 in Hb; lia|]. rewrite length_app. cbn [length].
      assert (length ds <= S n)%nat; [|lia]. apply Hlen; [lia|]. apply Z.div_lt_upper_bound; [lia|].
      replace (Z.of_nat (S (S n))) with (Z.of_nat (S n) + 1) in Hb by lia. rewrite Z.pow_add_r in Hb by lia. lia.
Qed.

Lemma pad_ok w v :
  0 <= v -> read_digits (pad w v) 0 = Some v /\ ((0 < w)%nat -> v < 10 ^ Z.of_nat w -> length (pad w v) = w).
Proof.
  intros Hv. unfold pad, digits. rewrite Z.abs_eq by done. replace (v <? 0) with false by lia.
  destruct (digits_loop_ok (S (Z.to_nat (Z.log2 v))) v []) as (ds & -> & Hread & Hlen); [lia| |].
  { split; [done|]. destruct (Z.eq_dec v 0) as [->|Hne]; [cbn; lia|]. pose proof (Z.log2_spec v ltac:(lia)).
    rewrite Nat2Z.inj_succ, Z2Nat.id by apply Z.log2_nonneg. lia. }
  rewrite app_nil_r. split.
  - rewrite (read_digits_app _ _ _ _ (read_digits_zeros _ 0)), Hread. done.
  - intros Hw Hb. rewrite length_app, length_replicate. pose proof (Hlen w Hw Hb). lia.
Qed.

Lemma pad_inj w v v' : 0 <= v -> 0 <= v' -> pad w v = pad w v' -> v = v'.
Proof. intros Hv Hv' E. apply (f_equal (fun ds => read_digits ds 0)) in E. rewrite (proj1 (pad_ok w v Hv)), (proj1 (pad_ok w v' Hv')) in E. by injection E. Qed.

Lemma nameMillis_padded c ms rest :
  (c = 70 \/ c = 67) -> rest <> [] -> 0 <= ms < 10 ^ 13 -> nameMillis (c :: pad 13 ms ++ rest) = Some ms.
Proof.
  intros Hc Hr Hms. destruct (pad_ok 13 ms (proj1 Hms)) as [Hread Hlen]. specialize (Hlen ltac:(lia) (proj2 Hms)).
  assert (len (pad 13 ms) = 13) as Hl by (unfold len; by rewrite Hlen).
  pose proof (len_nonneg rest) as Hn. assert (len rest <> 0) by (by intros ?%len_0_nil).
  unfold nameMillis. rewrite len_cons, len_app, Hl. replace (1 + (13 + len rest) <? 14) with false by lia.
  cbn [head hd_error orb]. rewrite bool_decide_eq_true_2 by (destruct Hc as [-> | ->]; auto).
  cbn [negb drop]. by rewrite drop_0, take_app_le, take_ge by lia.
Qed.

(** The prefix of a name up to a dash that the digits do not contain. *)
Lemma read_digits_no_dash ds a b : read_digits ds a = Some b -> 45 ∉ ds.
Proof.
  revert a. induction ds as [|c ds IH]; intros a; cbn [read_digits]; [intros _ H; by apply elem_of_nil in H|].
  destruct (Z.ltb_spec c 48); cbn [orb]; [done|]. destruct (c >? 57); [done|]. intros Hd [Hc|Hin]%elem_of_cons; [lia|by eapply IH].
Qed.

Lemma dash_split (a b a' b' : bytes) : 45 ∉ a -> 45 ∉ a' -> a ++ 45 :: b = a' ++ 45 :: b' -> a = a' /\ b = b'.
Proof.
  revert a'. induction a as [|c a IH]; intros [|c' a'] Ha Ha'; cbn [app]; intros E; simplify_eq; [done|set_solver..|].
  destruct (IH a') as [-> ->]; set_solver.
Qed.

Lemma flush_name_inj ms ms' ext : 0 <= ms -> 0 <= ms' -> flush_name ms ext = flush_name ms' ext -> ms = ms'.
Proof. unfold flush_name. intros H1 H2 E%app_inv_head%app_inv_tail. by eapply pad_inj. Qed.

Lemma compact_name_inj ms ms' i i' ext :
  0 <= ms -> 0 <= ms' -> compact_name ms i ext = compact_name ms' i' ext -> ms = ms' /\ i = i'.
Proof.
  unfold compact_name. intros H1 H2 E%app_inv_head. change (str "-" ++ pad 3 (Z.of_nat i) ++ ext) with (45 :: pad 3 (Z.of_nat i) ++ ext) in E.
  change (str "-" ++ pad 3 (Z.of_nat i') ++ ext) with (45 :: pad 3 (Z.of_nat i') ++ ext) in E.
  apply dash_split in E as [E1 E2]; [|eapply read_digits_no_dash, (pad_ok 13 ms H1)|eapply read_digits_no_dash, (pad_ok 13 ms' H2)].
  apply app_inv_tail in E2. apply pad_inj in E1, E2; lia.
Qed.

(** More distinct names than a set holds are not all in it. *)
Lemma pigeonhole (f : nat -> bytes) (n : nat) (s : gset bytes) :
  (forall i j, (i < n)%nat -> (j < n)%nat -> f i = f j -> i = j) -> (forall i, (i < n)%nat -> f i ∈ s) -> (n <= base.size s)%nat.
Proof.
  intros Hinj Hin. assert (NoDup (f <$> seq 0 n)) as Hnd.
  { apply NoDup_fmap_2_strong; [|apply NoDup_seq]. intros i j Hi%elem_of_seq Hj%elem_of_seq. apply Hinj; lia. }
  rewrite <-(length_seq n 0), <-(length_fmap f), <-(size_list_to_set (C := gset bytes)) by done. apply subseteq_size.
  intros x [i [-> Hi%elem_of_seq]]%elem_of_list_to_set%list_elem_of_fmap. apply Hin. lia.
Qed.

Lemma uniqueFlushName_loop_ok (fuel : nat) (base : Z) (ext : bytes) (existing : gset bytes) :
  match uniqueFlushName_loop fuel base ext existing with
  | Some name => exists i : nat, name = flush_name (base + Z.of_nat i) ext /\ name ∉ existing
  | None => forall i, (i < fuel)%nat -> flush_name (base + Z.of_nat i) ext ∈ existing
  end.
Proof.
  revert base. induction fuel as [|fuel IH]; intros base; cbn [uniqueFlushName_loop]; [lia|].
  case_bool_decide as Hin; [|exists 0%nat; by rewrite Z.add_0_r]. specialize (IH (base + 1)).
  destruct (uniqueFlushName_loop fuel (base + 1) ext existing) as [name|].
  - destruct IH as (i & -> & Hn). exists (S i). replace (base + Z.of_nat (S i)) with (base + 1 + Z.of_nat i) by lia. done.
  - intros [|i] Hi; [by rewrite Z.add_0_r|]. replace (base + Z.of_nat (S i)) with (base + 1 + Z.of_nat i) by lia. apply IH. lia.
Qed.

Lemma uniqueFlushName_ok base ext existing :
  0 <= base -> exists i : nat, uniqueFlushName base ext existing = Some (flush_name (base + Z.of_nat i) ext) /\
    flush_name (base + Z.of_nat i) ext ∉ existing.
Proof.
  intros Hb. unfold uniqueFlushName. pose proof (uniqueFlushName_loop_ok (S (base.size existing)) base ext existing) as H.
  destruct (uniqueFlushName_loop _ _ _ _) as [name|]; [destruct H as (i & -> & ?); by exists i|]. exfalso.
  assert (S (base.size existing) <= base.size existing)%nat; [|lia].
  apply (pigeonhole (fun i => flush_name (base + Z.of_nat i) ext)); [|done].
  intros i j _ _ E%flush_name_inj; lia.
Qed.

Lemma nextNameMillis_above now hw : hw < nextNameMillis now hw /\ now <= nextNameMillis now hw.
Proof. unfold nextNameMillis. destruct (Z.leb_spec now hw); lia. Qed.

Lemma freeFlushName_loop_ok (fuel : nat) (d : disk) (now : clock) (hw : Z) (ext : bytes) (existing : gset bytes) :
  0 <= hw -> (base.size (dom (objects d) ∖ existing) < fuel)%nat ->
  exists ms, freeFlushName_loop fuel d now hw ext existing = Some (flush_name ms ext) /\ hw < ms /\
    (flush_name ms ext ∉ existing) /\ objects d !! flush_name ms ext = None.
Proof.
  intros Hb. revert now existing. induction fuel as [|fuel IH]; intros now existing Hf; [lia|]. cbn [freeFlushName_loop].
  destruct (nextNameMillis_above (now O) hw) as [Ha _].
  destruct (uniqueFlushName_ok (nextNameMillis (now O) hw) ext existing ltac:(lia)) as (i & -> & Hnew).
  cbn [mbind option_bind]. unfold objectExists. set (name := flush_name _ _) in *. case_bool_decide as Hob.
  - destruct (IH (later now) ({[name]} ∪ existing)) as (ms & Ej & Hlt & Hj & Hn).
    { apply Nat.lt_le_trans with (base.size (dom (objects d) ∖ existing)); [|lia]. apply subset_size.
      apply elem_of_dom in Hob. set_solver. }
    exists ms. split_and!; [done|done|set_solver|done].
  - eexists. split_and!; [done|lia|done|]. by apply eq_None_not_Some.
Qed.

Lemma freeFlushName_ok (d : disk) (now : clock) (hw : Z) (ext : bytes) (existing : gset bytes) :
  0 <= hw ->
  exists ms, freeFlushName d now hw ext existing = Some (flush_name ms ext) /\ hw < ms /\
    (flush_name ms ext ∉ existing) /\ objects d !! flush_name ms ext = None.
Proof.
  intros Hb. apply freeFlushName_loop_ok; [done|]. apply Nat.lt_succ_r.
  rewrite <-(size_dom (D := gset bytes) (objects d)). apply subseteq_size. set_solver.
Qed.

(** A compaction base none of whose names is taken. *)
Definition base_free (base : Z) (outputs : nat) (ext : bytes) (existing : gset bytes) : Prop :=
  forall index, (index < outputs)%nat -> compact_name base index ext ∉ existing.

Lemma existsb_taken (base : Z) (outputs : nat) (ext : bytes) (existing : gset bytes) :
  existsb (fun index => bool_decide (compact_name base index ext ∈ existing)) (seq 0 outputs) = true <->
  exists index, (index < outputs)%nat /\ compact_name base index ext ∈ existing.
Proof.
  rewrite existsb_exists. split.
  - intros (i & Hi & H). apply in_seq in Hi. apply bool_decide_eq_true in H. exists i. split; [lia|done].
  - intros (i & Hi & H). exists i. split; [apply in_seq; lia|by apply bool_decide_eq_true].
Qed.

Lemma uniqueCompactionBase_loop_ok fuel base outputs ext existing :
  match uniqueCompactionBase_loop fuel base outputs ext existing with
  | Some b => base <= b /\ base_free b outputs ext existing
  | None => forall i, (i < fuel)%nat -> exists index, (index < outputs)%nat /\ compact_name (base + Z.of_nat i) index ext ∈ existing
  end.
Proof.
  revert base. induction fuel as [|fuel IH]; intros base; cbn [uniqueCompactionBase_loop]; [lia|].
  destruct (existsb _ _) eqn:E.
  - apply existsb_taken in E. specialize (IH (base + 1)). destruct (uniqueCompactionBase_loop fuel (base + 1) outputs ext existing) as [b|].
    + destruct IH as [Hb Hf]. split; [lia|done].
    + intros [|i] Hi; [by rewrite Z.add_0_r|]. replace (base + Z.of_nat (S i)) with (base + 1 + Z.of_nat i) by lia. apply IH. lia.
  - split; [lia|]. intros index Hi Hin. assert (false = true); [|done]. rewrite <-E. apply existsb_taken. eauto.
Qed.

Lemma uniqueCompactionBase_ok base outputs ext existing :
  0 <= base -> exists b, uniqueCompactionBase base outputs ext existing = Some b /\ base <= b /\ base_free b outputs ext existing.
Proof.
  intros Hb. unfold uniqueCompactionBase. pose proof (uniqueCompactionBase_loop_ok (S (base.size existing)) base outputs ext existing) as H.
  destruct (uniqueCompactionBase_loop _ _ _ _ _) as [b|]; [eauto|]. exfalso.
  assert (forall i, exists index, (i < S (base.size existing))%nat -> compact_name (base + Z.of_nat i) index ext ∈ existing) as Hc.
  { intros i. destruct (decide (i < S (base.size existing))%nat) as [Hi|Hi]; [|by exists 0%nat].
    destruct (H i Hi) as (index & _ & Hin). by exists index. }
  set (idx i := match List.find (fun index => bool_decide (compact_name (base + Z.of_nat i) index ext ∈ existing)) (seq 0 outputs)
                with Some index => index | None => 0%nat end).
  assert (S (base.size existing) <= base.size existing)%nat; [|lia].
  apply (pigeonhole (fun i => compact_name (base + Z.of_nat i) (idx i) ext)).
  - intros i j _ _ [? _]%compact_name_inj; lia.
  - intros i Hi. destruct (H i Hi) as (index & Hlt & Hin). unfold idx.
    destruct (List.find _ _) as [k|] eqn:Ek; [by apply find_some in Ek as [_ Ek%bool_decide_eq_true]|].
    exfalso. eapply find_none in Ek; [|apply in_seq; split; [apply Nat.le_0_l|exact Hlt]]. by apply bool_decide_eq_false in Ek.
Qed.

Lemma freeCompactionBase_loop_ok (fuel : nat) (d : disk) (now : clock) (hw : Z) (outputs : nat) (ext : bytes) (existing : gset bytes) :
  0 <= hw -> (base.size (dom (objects d) ∖ existing) < fuel)%nat ->
  exists b, freeCompactionBase_loop fuel d now hw outputs ext existing = Some b /\ hw < b /\
    base_free b outputs ext existing /\ base_free b outputs ext (dom (objects d)).
Proof.
  intros Hb. revert now existing. induction fuel as [|fuel IH]; intros now existing Hf; [lia|]. cbn [freeCompactionBase_loop].
  destruct (nextNameMillis_above (now O) hw) as [Ha _].
  destruct (uniqueCompactionBase_ok (nextNameMillis (now O) hw) outputs ext existing ltac:(lia)) as (b & -> & Hle & Hfree).
  cbn [mbind option_bind]. destruct (List.find _ _) as [k|] eqn:Ek.
  - apply find_some in Ek as [Hk Eo]. apply in_seq in Hk. apply bool_decide_eq_true, elem_of_dom in Eo.
    pose proof (Hfree k ltac:(lia)) as Hnew.
    destruct (IH (later now) ({[compact_name b k ext]} ∪ existing)) as (b' & Eb & Hlt & Hf1 & Hf2).
    { apply Nat.lt_le_trans with (base.size (dom (objects d) ∖ existing)); [|lia]. apply subset_size. set_solver. }
    exists b'. split_and!; [done|done| |done]. intros i Hi. specialize (Hf1 i Hi). set_solver.
  - exists b. split_and!; [done|lia|done|]. intros i Hi Hin. eapply find_none in Ek; [|apply in_seq; split; [apply Nat.le_0_l|exact Hi]].
    by apply bool_decide_eq_false in Ek; rewrite <-elem_of_dom in Ek.
Qed.

Lemma freeCompactionBase_ok (d : disk) (now : clock) (hw : Z) (outputs : nat) (ext : bytes) (existing : gset bytes) :
  0 <= hw ->
  exists b, freeCompactionBase d now hw outputs ext existing = Some b /\ hw < b /\
    base_free b outputs ext existing /\ base_free b outputs ext (dom (objects d)).
Proof.
  intros Hb. apply freeCompactionBase_loop_ok; [done|]. apply Nat.lt_succ_r.
  rewrite <-(size_dom (D := gset bytes) (objects d)). apply subseteq_size. set_solver.
Qed.

Lemma namesHighWater_ge floor names : floor <= namesHighWater floor names.
Proof.
  revert floor. induction names as [|n names IH]; intros floor; [done|]. cbn [namesHighWater foldl].
  change (foldl _ ?f names) with (namesHighWater f names). etrans; [|apply IH]. destruct (nameMillis n); [|done].
  destruct (Z.gtb_spec z floor); lia.
Qed.

Lemma namesHighWater_bound floor names name ms : name ∈ names -> nameMillis name = Some ms -> ms <= namesHighWater floor names.
Proof.
  intros Hin Hm. revert floor. induction names as [|n names IH]; intros floor; [by apply elem_of_nil in Hin|]. cbn [namesHighWater foldl].
  change (foldl _ ?f names) with (namesHighWater f names). apply elem_of_cons in Hin as [<-|Hin]; [|by apply IH].
  rewrite Hm. etrans; [|apply namesHighWater_ge]. destruct (Z.gtb_spec ms floor); lia.
Qed.

(** ** The manifest is read back *)

(** What the state of a tablet keeps: files are listed once and are there, and
    its records are about them. *)
Record state_ok (st : immutableState) (d : disk) : Prop := {
  so_nodup : NoDup (active st);
  so_present : Forall (fun n => is_Some (objects d !! n) /\ is_data_file n = true) (active st);
  so_sources n s : sources st !! n = Some s -> n ∈ active st /\ s <> [];
  so_minted n s : minted st !! n = Some s -> n ∈ active st /\ s <> [];
  so_exported n t : exported st !! n = Some t -> n ∈ active st /\ 0 < t;
  so_free n : n ∈ tombstoneFree st -> n ∈ active st;
}.

Lemma active_entries_ok (available : gset bytes) names :
  NoDup names -> Forall (fun n => n ∈ available) names -> active_entries available names = Ok names.
Proof.
  induction 1 as [|n names Hn _ IH]; intros Ha; [done|]. apply Forall_cons in Ha as [Hin Ha]. cbn [active_entries].
  rewrite bool_decide_eq_true_2 by done. cbn [negb]. rewrite (IH Ha). cbn [mbind result_bind]. by rewrite bool_decide_eq_false_2.
Qed.

Lemma live_only_id {A} (known : list bytes) (m : gmap bytes A) ok :
  (forall n a, m !! n = Some a -> n ∈ known /\ ok a = true) -> live_only known m ok = m.
Proof. intros H. apply map_filter_id. intros n a Hn. by apply H. Qed.

Lemma sorted_set_elements (s : gset bytes) : list_to_set (sorted_set s) = s.
Proof.
  apply set_eq. intros x. rewrite elem_of_list_to_set. unfold sorted_set. rewrite SliceStable_perm. apply elem_of_elements.
Qed.

(** What is assumed of [encoding/json]: it reads back what it writes. *)
Definition json_manifest_ok (Marshal : immutableManifest -> result bytes) (Unmarshal : bytes -> result immutableManifest) : Prop :=
  forall m b, Marshal m = Ok b -> Unmarshal (b ++ [10]) = Ok m.

Section roundtrip.
Context (Marshal : immutableManifest -> result bytes) (Unmarshal : bytes -> result immutableManifest).
Hypothesis Hjson : json_manifest_ok Marshal Unmarshal.

(** Data files a directory holds. *)
Definition data_files (d : disk) : gset bytes :=
  filter (fun name => name <> manifest_name /\ is_data_file name = true) (dom (objects d)).

Lemma is_data_file_manifest : is_data_file manifest_name = false.
Proof. reflexivity. Qed.

Lemma discover_of st d now data :
  objects d !! manifest_name = Some (data ++ [10]) -> Marshal (manifest_of st) = Ok data -> state_ok st d ->
  exists hw, discoverImmutableFiles Unmarshal now d false = Ok (set_highWater hw st) /\ nameHighWater st <= hw /\
    forall name ms, (name ∈ data_files d \/ name ∈ obsolete st) -> nameMillis name = Some ms -> ms <= hw.
Proof.
  intros Hd Hm [Hnd Hpres Hsrc Hmin Hexp Hfree]. unfold discoverImmutableFiles, discoverImmutableFilesRaw.
  rewrite bool_decide_eq_true_2 by (by apply elem_of_dom_2 in Hd). cbn [negb]. unfold storage_ReadAll. rewrite Hd.
  cbn [wrap mbind result_bind]. rewrite (Hjson _ _ Hm). cbn [wrap mbind result_bind].
  change (m_Version (manifest_of st) =? immutableManifestVersion) with true. cbn [negb].
  fold (data_files d). change (m_Active (manifest_of st)) with (active st).
  rewrite active_entries_ok; [|done|].
  2: { eapply Forall_impl; [exact Hpres|]. intros n [Hn Hdf]. unfold data_files. apply elem_of_filter. split; [|by apply elem_of_dom].
    split; [|done]. intros ->. by rewrite is_data_file_manifest in Hdf. }
  cbn [mbind result_bind]. change (m_Ordered (manifest_of st)) with true. change (m_ExportTracked (manifest_of st)) with true. cbn [negb].
  change (m_Sources (manifest_of st)) with (live_only (active st) (sources st) not_empty).
  change (m_Minted (manifest_of st)) with (live_only (active st) (minted st) not_empty).
  change (m_Exported (manifest_of st)) with (live_only (active st) (exported st) (fun at_ => at_ >? 0)).
  change (m_Obsolete (manifest_of st)) with (sorted_set (obsolete st)).
  change (m_AbsorbedSources (manifest_of st)) with (sorted_set (absorbed st)).
  change (m_TombstoneFree (manifest_of st)) with (SliceStable string_less (filter (fun name => name ∈ tombstoneFree st) (active st))).
  assert (forall m : gmap bytes bytes, (forall n s, m !! n = Some s -> n ∈ active st /\ s <> []) -> live_only (active st) m not_empty = m) as Hlive.
  { intros m H. apply live_only_id. intros n s Hn. destruct (H n s Hn). split; [done|]. unfold not_empty. by rewrite bool_decide_eq_false_2. }
  rewrite !(Hlive (sources st) Hsrc), !(Hlive (minted st) Hmin).
  assert (live_only (active st) (exported st) (fun at_ => at_ >? 0) = exported st) as He.
  { apply live_only_id. intros n t Hn. destruct (Hexp n t Hn). split; [done|lia]. }
  rewrite !He, !sorted_set_elements.
  assert (list_to_set (filter (fun name => name ∈ active st)
    (SliceStable string_less (filter (fun name => name ∈ tombstoneFree st) (active st)))) = tombstoneFree st) as Hfr.
  { apply set_eq. intros x. rewrite elem_of_list_to_set, list_elem_of_filter, SliceStable_perm, list_elem_of_filter. naive_solver. }
  rewrite Hfr. clear Hlive He Hfr Hexp Hsrc Hmin.
  set (hw0 := if m_NameHighWater _ >? _ then _ else _). cbv zeta. unfold set_exported, set_highWater.
  cbn [nameHighWater active obsolete sources absorbed minted exported exportedLineage tombstoneFree assumedAt].
  assert (m_NameHighWater (manifest_of st) <= hw0 /\ namesHighWater 0 (elements (data_files d)) <= hw0) as [H1 H2].
  { unfold hw0. fold (data_files d). destruct (Z.gtb_spec (m_NameHighWater (manifest_of st)) (namesHighWater 0 (elements (data_files d)))); lia. }
  exists (namesHighWater (namesHighWater hw0 (active st)) (elements (obsolete st))). split; [reflexivity|]. pose proof (namesHighWater_ge (namesHighWater hw0 (active st)) (elements (obsolete st))) as H3.
  pose proof (namesHighWater_ge hw0 (active st)) as H4. unfold manifest_of in H1. cbn [m_NameHighWater] in H1.
  pose proof (namesHighWater_ge (namesHighWater (nameHighWater st) (active st)) (elements (obsolete st))) as H5.
  pose proof (namesHighWater_ge (nameHighWater st) (active st)) as H6. split; [lia|]. intros name ms [Hn|Hn] Hms.
  - apply elem_of_elements in Hn. pose proof (namesHighWater_bound 0 _ _ _ Hn Hms). lia.
  - apply elem_of_elements in Hn. pose proof (namesHighWater_bound (namesHighWater hw0 (active st)) _ _ _ Hn Hms). lia.
Qed.
End roundtrip.

(** ** Registration *)

Definition is_held (srcs : gmap bytes bytes) (abs : gset bytes) (s : bytes) : Prop := s ∈ abs \/ exists n, srcs !! n = Some s.

Lemma held_spec r s : held r s = true <-> is_held (rg_sources r) (rg_absorbed r) s.
Proof.
  unfold held, is_held. rewrite orb_true_iff, bool_decide_eq_true, existsb_exists. f_equiv. split.
  - intros ([n s'] & Hin & E%bool_decide_eq_true). cbn in E. subst. exists n. by apply elem_of_map_to_list, list_elem_of_In.
  - intros [n Hn]. exists (n, s). split; [by apply list_elem_of_In, elem_of_map_to_list|by apply bool_decide_eq_true].
Qed.

(** Producer identities are not content digests. *)
Definition producer_identity (s : bytes) : Prop := s <> [] /\ has_prefix (str "content:") s = false.

Lemma legacyContentIdentity_prefix path digest : legacyContentIdentity path = Some digest -> has_prefix (str "content:") digest = true.
Proof.
  unfold legacyContentIdentity. destruct (immutableFileIdentity path); [done|]. intros [= <-]. unfold has_prefix. by apply bool_decide_eq_true.
Qed.

Definition reg_ok (r : reg) : Prop := forall n s, rg_sources r !! n = Some s -> n ∈ rg_active r /\ s <> [].

(** What a turn of the loop keeps of the registration. *)
Record reg_extends (r r' : reg) : Prop := {
  re_ok : reg_ok r';
  re_active : exists new, rg_active r' = rg_active r ++ new /\ rg_adopted r' = rg_adopted r ++ new;
  re_held s : producer_identity s -> is_held (rg_sources r) (rg_absorbed r) s -> is_held (rg_sources r') (rg_absorbed r') s;
}.

Lemma reg_extends_refl r : reg_ok r -> reg_extends r r.
Proof. intros H. split; [done| |done]. exists []. by rewrite !app_nil_r. Qed.

Lemma reg_extends_trans r1 r2 r3 : reg_extends r1 r2 -> reg_extends r2 r3 -> reg_extends r1 r3.
Proof.
  intros [_ (n1 & E1 & F1) H1] [H2 (n2 & E2 & F2) H3]. split; [done| |eauto]. exists (n1 ++ n2). by rewrite E2, F2, E1, F1, <-!app_assoc.
Qed.

(** Keeps what is held when [srcs] is extended at names without a source. *)
Lemma is_held_insert srcs abs n s0 s :
  default [] (srcs !! n) = [] -> s <> [] -> is_held srcs abs s -> is_held (<[n := s0]> srcs) abs s.
Proof.
  intros Hn Hs [H|[m Hm]]; [by left|right]. exists m. rewrite lookup_insert_ne; [done|]. intros <-. rewrite Hm in Hn. cbn in Hn. congruence.
Qed.

Lemma claimLegacy_extends r path source r' :
  reg_ok r -> source <> [] -> claimLegacy r path source = Some r' ->
  reg_extends r r' /\ rg_adopted r' = rg_adopted r /\ is_held (rg_sources r') (rg_absorbed r') source.
Proof.
  intros Hok Hs. unfold claimLegacy. destruct (List.find _ _) as [ex|] eqn:E.
  - apply find_some in E as [Hin [_ Hnone]%andb_true_iff]. apply list_elem_of_In in Hin. intros [= <-].
    assert (default [] (rg_sources r !! ex) = []) as Hd.
    { unfold not_empty in Hnone. rewrite negb_involutive in Hnone. by apply bool_decide_eq_true in Hnone. }
    split; [split|split; [done|]].
    + intros n s. cbn [rg_sources rg_active]. destruct (decide (n = ex)) as [->|Hne].
      * rewrite lookup_insert_eq. by intros [= <-].
      * rewrite lookup_insert_ne by done. apply Hok.
    + exists []. by rewrite !app_nil_r.
    + intros s [Hse _]. by apply is_held_insert.
    + right. exists ex. cbn [rg_sources]. by rewrite lookup_insert_eq.
  - destruct (legacyContentIdentity path) as [digest|] eqn:Ed; [|done]. case_bool_decide; [|done]. intros [= <-]. split; [split|split; [done|]].
    + exact Hok.
    + exists []. by rewrite !app_nil_r.
    + intros s [_ Hp] [H1|H1]; [|by right]. left. cbn [rg_absorbed]. apply elem_of_union. right. apply elem_of_difference. split; [done|].
      intros ->%elem_of_singleton. by rewrite (legacyContentIdentity_prefix _ _ Ed) in Hp.
    + left. cbn [rg_absorbed]. set_solver.
Qed.

Lemma register_one_ok f r d r' d' :
  reg_ok r -> register_one f r d = (r', d', Done tt) ->
  reg_extends r r' /\ (rg_adopted r' = rg_adopted r \/ rg_adopted r' = rg_adopted r ++ [Path f]) /\
  (Source f <> [] -> (Path f ∉ rg_active r) -> is_held (rg_sources r') (rg_absorbed r') (Source f)).
Proof.
  intros Hok. unfold register_one. case_bool_decide as Hact; [intros [= <- <-]; split; [by apply reg_extends_refl|]; split; [by left|done]|].
  set (matched := if negb (not_empty (Source f)) then _ else _).
  assert (forall r1, matched = Some r1 -> reg_extends r r1 /\ rg_adopted r1 = rg_adopted r /\
    (Source f <> [] -> is_held (rg_sources r1) (rg_absorbed r1) (Source f))) as Hm.
  { intros r1. unfold matched, not_empty. case_bool_decide as He; cbn [negb].
    - destruct (contentHeld _ _); [|done]. intros [= <-]. split; [by apply reg_extends_refl|by split].
    - destruct (held r (Source f)) eqn:Eh; [intros [= <-]; split; [by apply reg_extends_refl|]; split; [done|]; intros _; by apply held_spec|].
      destruct (_ =? 0); [|done]. intros Hc. destruct (claimLegacy_extends _ _ _ _ Hok He Hc) as (? & ? & ?). by split_and!. }
  destruct matched as [r1|].
  - destruct (Hm r1 eq_refl) as (Hext & Ha & Hh). destruct (removeObject (Path f) d) as [d1 [[]| |]]; intros [= <- <-].
    split; [done|]. split; [by left|auto].
  - intros [= <- <-]. assert (forall s, is_held (rg_sources r) (rg_absorbed r) s -> s <> [] ->
      is_held (if not_empty (Source f) then <[Path f := Source f]> (rg_sources r) else rg_sources r) (rg_absorbed r) s) as Hkeep.
    { intros s Hh Hs. destruct (not_empty (Source f)); [|done]. apply is_held_insert; [|done..].
      destruct (rg_sources r !! Path f) as [s'|] eqn:E; [|done]. by destruct (Hok _ _ E). }
    split; [split|].
    + intros n s. cbn [rg_sources rg_active]. rewrite elem_of_app, list_elem_of_singleton. unfold not_empty. case_bool_decide as He; cbn [negb].
      * intros Hn. destruct (Hok n s Hn). auto.
      * destruct (decide (n = Path f)) as [->|Hne]; [rewrite lookup_insert_eq; intros [= <-]; auto|].
        rewrite lookup_insert_ne by done. intros Hn. destruct (Hok n s Hn). auto.
    + exists [Path f]. done.
    + intros s [Hs _] Hh. by apply Hkeep.
    + split; [by right|]. intros Hs _. right. exists (Path f). cbn [rg_sources]. unfold not_empty. rewrite bool_decide_eq_false_2 by done. cbn [negb].
      by rewrite lookup_insert_eq.
Qed.

Lemma register_loop_ok files r d r' d' :
  reg_ok r -> register_loop files r d = (r', d', Done tt) ->
  reg_extends r r' /\ (exists new, rg_adopted r' = rg_adopted r ++ new /\ sublist new (Path <$> files)) /\
  (NoDup (Path <$> files) -> Forall (fun f => producer_identity (Source f) /\ (Path f ∉ rg_active r)) files ->
   Forall (fun f => is_held (rg_sources r') (rg_absorbed r') (Source f)) files).
Proof.
  revert r d. induction files as [|f files IH]; intros r d Hok; cbn [register_loop].
  { intros [= <- <-]. split; [by apply reg_extends_refl|]. split; [exists []; by rewrite app_nil_r|done]. }
  destruct (register_one f r d) as [[r1 d1] [[]| |]] eqn:E1; [|done..]. intros E2.
  destruct (register_one_ok _ _ _ _ _ Hok E1) as (Hx1 & Ha1 & Hh1).
  destruct (IH r1 d1 (re_ok _ _ Hx1) E2) as (Hx2 & (new & Ea2 & Hsub) & Hh2).
  split; [by eapply reg_extends_trans|]. split.
  - rewrite fmap_cons. destruct Ha1 as [Ha1|Ha1]; rewrite Ea2, Ha1; [exists new; split; [done|by constructor]|].
    exists (Path f :: new). rewrite <-app_assoc. split; [done|by constructor].
  - rewrite fmap_cons. intros [Hnin Hnd]%NoDup_cons [[Hp Hf] Hfs]%Forall_cons. constructor.
    + apply (re_held _ _ Hx2); [done|]. apply Hh1; [apply Hp|done].
    + apply Hh2; [done|]. destruct (re_active _ _ Hx1) as (n1 & En1 & Fn1).
      eapply Forall_impl; [apply Forall_and; split; [exact Hfs|apply Forall_forall; intros g Hg; exact Hg]|]. intros g [[Hpg Hg] Hin].
      split; [done|]. rewrite En1. intros [H|H]%elem_of_app; [done|]. apply Hnin.
      assert (n1 = [] \/ n1 = [Path f]) as [-> | ->].
      { destruct Ha1 as [Ha1|Ha1]; rewrite Ha1 in Fn1; [left|right].
        - rewrite <-(app_nil_r (rg_adopted r)) in Fn1 at 1. by apply app_inv_head in Fn1.
        - by apply app_inv_head in Fn1. }
      { by apply elem_of_nil in H. }
      apply list_elem_of_singleton in H. rewrite <-H. by apply list_elem_of_fmap_2.
Qed.

(** Files whose producer identity is held are only cleaned up. *)
Lemma register_loop_held files r d :
  reg_ok r -> faults d = [] -> NoDup (Path <$> files) ->
  Forall (fun f => Source f <> [] /\ is_held (rg_sources r) (rg_absorbed r) (Source f) /\
    (Path f ∉ rg_active r) /\ is_Some (objects d !! Path f)) files ->
  register_loop files r d = (r, mkDisk (foldl (fun m f => delete (Path f) m) (objects d) files) [], Done tt).
Proof.
  intros Hok Hd. revert d Hd. induction files as [|f files IH]; intros [obs fs] Hd; cbn in Hd; subst fs; [done|].
  rewrite fmap_cons. intros [Hnin Hnd]%NoDup_cons [(Hs & Hh & Ha & [b Hb]) Hfs]%Forall_cons. cbn [register_loop objects foldl] in *.
  unfold register_one. rewrite bool_decide_eq_false_2 by done. unfold not_empty. rewrite bool_decide_eq_false_2 by done. cbn [negb].
  rewrite (proj2 (held_spec _ _) Hh). unfold removeObject. cbn [objects]. rewrite Hb. unfold write_objects, next_fault. cbn [faults].
  rewrite IH; [done|done|done|]. eapply Forall_impl; [apply Forall_and; split; [exact Hfs|apply Forall_forall; intros g Hg; exact Hg]|].
  intros g [(H1 & H2 & H3 & H4) Hin]. split_and!; [done..|]. cbn [objects]. rewrite lookup_delete_ne; [done|].
  intros E. apply Hnin. rewrite E. by apply list_elem_of_fmap_2.
Qed.

(** ** A JSON of its own

    Used by the witnesses: the manifest's canonical encoding, a bit per byte. *)
Definition manifest_tuple (m : immutableManifest) :=
  (m_Version m, m_Ordered m, m_NameHighWater m, m_Active m, m_Obsolete m, m_Sources m, m_AbsorbedSources m, m_Minted m,
   m_ExportTracked m, m_Exported m, m_ExportedLineage m, m_TombstoneFree m, m_AssumedExportAt m).
Fixpoint pos_bits (p : positive) : bytes :=
  match p with xH => [] | xO p => 0 :: pos_bits p | xI p => 1 :: pos_bits p end.
Fixpoint bits_pos (b : bytes) : positive :=
  match b with [] => xH | c :: b => if c =? 0 then xO (bits_pos b) else xI (bits_pos b) end.
Definition demo_Marshal_manifest (m : immutableManifest) : result bytes := Ok (pos_bits (encode (manifest_tuple m))).
Definition demo_Unmarshal_manifest (b : bytes) : result immutableManifest :=
  match decode (bits_pos (removelast b)) with
  | Some (v, o, n, a, ob, s, ab, mi, et, e, el, tf, aa) => Ok (mkManifest v o n a ob s ab mi et e el tf aa)
  | None => Err (Fail "json: invalid character")
  end.

Lemma bits_pos_bits p : bits_pos (pos_bits p) = p.
Proof. induction p as [p IH|p IH|]; cbn; by rewrite ?IH. Qed.

Lemma demo_manifest_json : json_manifest_ok demo_Marshal_manifest demo_Unmarshal_manifest.
Proof.
  intros m b [= <-]. unfold demo_Unmarshal_manifest. rewrite removelast_last, bits_pos_bits, decode_encode. by destruct m.
Qed.

(** ** Properties *)

(** A new file's name is never one in use.  Whatever the clock says and
    whatever objects and names exist, the search for a flush name and for a
    compaction's base ends, with a name that no tracked file and no object
    has; its millisecond is above every name the tablet has used and is read
    back from the name for another 250 years. *)
Theorem new_names_are_fresh (d : disk) (now : clock) (hw : Z) (ext : bytes) (existing : gset bytes) outputs :
  0 <= hw -> ext <> [] ->
  (exists ms, freeFlushName d now hw ext existing = Some (flush_name ms ext) /\ hw < ms /\
    (flush_name ms ext ∉ existing) /\ objects d !! flush_name ms ext = None /\
     (ms < 10 ^ 13 -> nameMillis (flush_name ms ext) = Some ms)) /\
  (exists base, freeCompactionBase d now hw outputs ext existing = Some base /\ hw < base /\
     forall i, (i < outputs)%nat -> (compact_name base i ext ∉ existing) /\ objects d !! compact_name base i ext = None /\
       (base < 10 ^ 13 -> nameMillis (compact_name base i ext) = Some base)).
Proof.
  intros Hhw Hext. split.
  - destruct (freeFlushName_ok d now hw ext existing Hhw) as (ms & -> & Hlt & Hn & Ho). exists ms. split_and!; [done..|].
    intros Hb. apply (nameMillis_padded 70); [by left|done|lia].
  - destruct (freeCompactionBase_ok d now hw outputs ext existing Hhw) as (b & -> & Hb & Hf & Ho).
    exists b. split; [done|]. split; [lia|]. intros i Hi. split; [by apply Hf|]. split.
    + apply not_elem_of_dom. by apply Ho.
    + intros Hlt. apply (nameMillis_padded 67); [by right|done|lia].
Qed.

(** A stray object has the name the clock suggests. *)
Definition stray_disk : disk := mkDisk {[flush_name 1700000000000 (str ".rf") := [1]]} [].

Lemma new_names_are_fresh_witness :
  freeFlushName stray_disk (fun _ => 1700000000000) 5 (str ".rf") ∅ = Some (str "F1700000000001.rf") /\
  (exists ms, freeFlushName stray_disk (fun _ => 1700000000000) 5 (str ".rf") ∅ = Some (flush_name ms (str ".rf")) /\ 5 < ms /\
     (flush_name ms (str ".rf") ∉ (∅ : gset bytes)) /\ objects stray_disk !! flush_name ms (str ".rf") = None /\
     (ms < 10 ^ 13 -> nameMillis (flush_name ms (str ".rf")) = Some ms)).
Proof.
  split; [vm_compute; reflexivity|].
  apply (fun H1 H2 => proj1 (new_names_are_fresh stray_disk (fun _ => 1700000000000) 5 (str ".rf") ∅ 1 H1 H2)); [lia|done].
Defined.


(** A generation with a flush, a compaction, an imported file and a stray. *)
Definition demo_import : bytes := str ".shoal-import-a.rf".
Definition demo_state : immutableState :=
  mkState [str "C1700000000005-000.rf"; demo_import; str "F1700000000001.rf"] {[str "F1600000000000.rf"]} 1700000000005
    {[demo_import := [9]]} {[str "content:x"]} {[str "F1700000000001.rf" := [7]]} {[demo_import := 12]} true {[str "F1700000000001.rf"]} 0.
Definition demo_objects : disk :=
  mkDisk {[str "C1700000000005-000.rf" := [1]; demo_import := [2]; str "F1700000000001.rf" := [3]; str "F1800000000000.rf" := [4]]}
    [CommittedLate].



(** Two producer files, one of which a compaction absorbed; then both again. *)
Definition demo_before : immutableState :=
  mkState [str "F1700000000001.rf"] ∅ 1700000000001 ∅ {[str "p1"]} ∅ ∅ false ∅ 0.
Definition demo_files : list ImportedFile := [mkImported (str "i1.rf") (str "p1"); mkImported (str "i2.rf") (str "p2")].
Definition demo_again : list ImportedFile := [mkImported (str "j1.rf") (str "p1"); mkImported (str "j2.rf") (str "p2")].
Definition demo_Marshal_any (m : immutableManifest) : result bytes := Ok [len (m_Active m)].

