(* ===== verification/Images.v ===== *)
(** * Images: the immutable files of a tablet, in either format
    (src/internal/tablet/tablet.go: encode, openFileSource,
    embeddingStateFromImage; tablet/rfilecache.go: sharedFile)

    A file is its name, whose extension tells the format, and its contents.
    Cells encoded in either format are served again by the source the tablet
    opens, with the embedding state they were written with.  The tablet's
    cache is absent; [RFileShared] shows that it would change no answer. *)

From S2P Require Import Prelude Wire Iter Drain IterStack IterLaws Merge Stack RelKey BCFile Container Index EmbeddingSpace IndexFile.
From S2P Require Import Codec RFileWriter RFileReader RFileScan RFileClose RFile RFileShared RFileSource.
From S2P Require Parquet.
From S2P Require Import TabletFiles.

#[export] Existing Instances Parquet.Source_SKVI Parquet.Source_Laws.

(** The libraries both formats use: compression, parquet-go, encoding/json,
    and the order in which maps are iterated. *)
Record Formats := mkFormats {
  fm_compression : Libraries;
  fm_order : gmap bytes Z -> list (bytes * Z);
  fm_Marshal : FileState -> result bytes;
  fm_Unmarshal : bytes -> result FileState;
  fm_parquet : Parquet.Library;
}.

Record formats_ok (F : Formats) : Prop := {
  fo_compression : libraries_ok (fm_compression F);
  fo_order : order_ok (fm_order F);
  fo_json : json_ok (fm_Marshal F) (fm_Unmarshal F);
  fo_parquet : Parquet.library_ok (fm_parquet F);
}.

(** The leaf a file is opened as. *)
Abbreviation FileSource := (RFileSource + Parquet.Source)%type.

Section images.
Context (F : Formats).
Abbreviation dec := (Default (fm_compression F)).

(** ** Opening *)

Definition rfile_container (data : bytes) : result Container.Reader := Container.NewReader (bytes_ReadAt data) (len data).

Definition sharedFile (data : bytes) : result (Container.Reader * SharedFile) :=
  bc ← rfile_container data;
  sf ← OpenShared (fm_Unmarshal F) bc dec;
  Ok (bc, sf).

Definition openFileSource (name data : bytes) : result FileSource :=
  if bool_decide (fileFormat name = FormatParquet) then
    src ← Parquet.NewSource (Parquet.OpenFile (fm_parquet F) data) (Some (Parquet.OpenFile (fm_parquet F) data));
    match Parquet.Source_Init (@None unit) src with Some e => Err e | None => Ok (inr src) end
  else
    '(bc, sf) ← sharedFile data;
    let rdr := NewReaderFromShared sf in
    let src := NewRFileSource bc dec rdr (Some (Ok rdr)) in
    match RFileSource_Init (@None unit) src with Some e => Err e | None => Ok (inl src) end.

Definition embeddingStateFromImage (name data : bytes) : result FileState :=
  if bool_decide (fileFormat name = FormatParquet) then Parquet.ReadEmbeddingSpaceMetadata (fm_parquet F) (fm_Unmarshal F) data
  else
    bc ← rfile_container data;
    RFileShared.ReadEmbeddingSpaceMetadata (fm_Unmarshal F) bc dec.

(** ** Encoding *)

(** [for iter.HasTop() { w.Append(...); iter.Next() }], with the labels of its
    errors. *)
Fixpoint append_loop {I} `{SKVI I} (append next : string) (fuel : nat) (iter : I) (w : Writer) (count : Z)
  : I * Z * (Writer * option err) :=
  match fuel with
  | O => (iter, count, (w, Some OutOfFuel))
  | S fuel =>
      let '(iter, has) := HasTop iter in
      if has then
        match Append (GetTopKey iter) (default [] (GetTopValue iter)) w with
        | (w, Err e) => (iter, count, (w, Some (Wrap append e)))
        | (w, Ok _) =>
            let '(iter, e) := Iter.Next iter in
            match e with
            | Some e => (iter, count + 1, (w, Some (Wrap next e)))
            | None => append_loop append next fuel iter w (count + 1)
            end
        end
      else (iter, count, (w, None))
  end.

(** The image, the count, and the iterator it drained. *)
Definition encode_rfile {I} `{SKVI I} (new append next close : string) (o : WriterOptions) (iter : I) : I * result (bytes * Z) :=
  match NewWriter (fm_compression F) o with
  | Err e => (iter, Err (Wrap new e))
  | Ok w =>
      let '(iter, count, (w, e)) := append_loop append next (S (bound iter)) iter w 0 in
      (iter,
       match e with
       | Some e => Err e
       | None =>
           match RFileWriter.Close (fm_order F) (fm_Marshal F) w with
           | (w, Err e) => Err (Wrap close e)
           | (w, Ok _) => Ok (w_out (out w), count)
           end
       end)
  end.

(** The options flushes and compactions write RFiles with. *)
Definition rfile_options (edgeCF : bytes) (label : FileState) : WriterOptions :=
  mkOptions CodecSnappy 0 0 None [] edgeCF label.

Definition encode {I} `{SKVI I} (format : FileFormat) (edgeCF : bytes) (label : FileState) (iter : I) : I * result (bytes * Z) :=
  match format with
  | FormatParquet => Parquet.EncodeWithOptions (fm_parquet F) (fm_Marshal F) (Parquet.mkEncodeOptions 0 0 label) iter
  | FormatRFile =>
      encode_rfile "new rfile writer" "append cell" "next after cell" "close rfile writer" (rfile_options edgeCF label) iter
  end.

(** ** What a file serves *)

(** What a file of the given state reads as. *)
Definition label_of (s : FileState) : FileState := if bool_decide (State s = []) then Unknown else s.

Definition in_range (r : Range) (cfs : list bytes) (incl : bool) (cells : list Cell) : list Cell :=
  filter (fun c => in_seek r cfs incl c = true) cells.

(** The scans of a merge of sources with the given cells. *)
Definition merge_scan (css : list (list Cell)) : scans := fun r cfs incl => merge_all (in_range r cfs incl <$> css).

(** A leaf over the cells, for seeks whose range is not mistaken for a row. *)
Definition leaf_over {I} `{SKVILaws I} (x : I) (cells : list Cell) : Prop :=
  ready x /\ forall r cfs incl, Parquet.fair r cells -> scan x r cfs incl = in_range r cfs incl cells.

(** The file read without the tablet's sharing, as compactions read it. *)
Definition reads (format : FileFormat) (data : bytes) (label : FileState) (cells : list Cell) : Prop :=
  match format with
  | FormatParquet => Parquet.Decode_cells (fm_parquet F) data = Ok cells
  | FormatRFile => exists bc rd, rfile_container data = Ok bc /\ Open (fm_Unmarshal F) bc dec = Ok rd /\ embeddingSpace rd = label /\
      forall opener, let src := NewRFileSource bc dec rd opener in
        ready src /\ forall r cfs incl, scan src r cfs incl = in_range r cfs incl cells
  end.

(** A file in the format its name tells, of the given state and cells. *)
Definition image (name data : bytes) (label : FileState) (cells : list Cell) : Prop :=
  data <> [] /\ sorted_cells cells /\ (exists x, openFileSource name data = Ok x /\ leaf_over x cells) /\
  embeddingStateFromImage name data = Ok label /\ reads (fileFormat name) data label cells.

(** The cells make a file within the RFile format's limits. *)
Definition storable (edgeCF : bytes) (label : FileState) (cells : list Cell) : Prop :=
  groups_ok [cells] /\ len edgeCF < 2 ^ 31 /\
  forall w, write_file (fm_compression F) (fm_order F) (fm_Marshal F) (rfile_options edgeCF label) cells [] = Ok w -> file_fits w.

(** The loop appends what the iterator drains to, as [append_all] does. *)
Lemma append_loop_ok {I} `{SKVI I} append next fuel (iter iter' : I) l e w count :
  drains iter l iter' e -> (length l < fuel)%nat ->
  match append_all l w with
  | (w', Ok _) => append_loop append next fuel iter w count = (iter', count + len l, (w', Wrap next <$> e))
  | (_, Err e') => exists it n w', append_loop append next fuel iter w count = (it, n, (w', Some (Wrap append e')))
  end.
Proof.
  intros Hd. revert fuel w count.
  induction Hd as [i i' E|i i1 i2 [k v] l i' e E Hk Hv Hn _ IH|i i1 i' [k v] e E Hk Hv Hn]; intros fuel w count Hf;
    (destruct fuel as [|fuel]; [cbn [length] in Hf; lia|]); cbn [append_loop append_all length fst snd] in *; rewrite E; cbv iota.
  - by rewrite len_nil, Z.add_0_r.
  - rewrite Hk, Hv. cbn [from_option id]. unfold mbind, meth_bind. destruct (Append (Some k) v w) as [w1 [[]|e1]]; [|by eexists _, _, _].
    rewrite Hn. specialize (IH fuel w1 (count + 1) ltac:(lia)). destruct (append_all l w1) as [w2 [[]|e2]]; [|done].
    rewrite IH, len_cons. f_equal. f_equal. lia.
  - rewrite Hk, Hv. cbn [from_option id]. unfold mbind, meth_bind. destruct (Append (Some k) v w) as [w1 [[]|e1]]; [|by eexists _, _, _].
    rewrite Hn. by rewrite len_cons, len_nil.
Qed.

(** The writer's run is that of [write_file]: exactly, errors included. *)
Lemma encode_rfile_ok {I} `{SKVI I} new append next close o (iter iter' : I) l e :
  drains iter l iter' e -> (length l <= bound iter)%nat ->
  match write_file (fm_compression F) (fm_order F) (fm_Marshal F) o l [], e with
  | Ok w, None => encode_rfile new append next close o iter = (iter', Ok (w_out (out w), len l))
  | _, _ => exists it e', encode_rfile new append next close o iter = (it, Err e')
  end.
Proof.
  intros Hd Hb. unfold encode_rfile, write_file. destruct (NewWriter (fm_compression F) o) as [w0|]; cbn [mbind result_bind]; [|eauto].
  pose proof (append_loop_ok append next (S (bound iter)) iter iter' l e w0 0 Hd ltac:(lia)) as Ha.
  unfold mbind, meth_bind. cbn [append_groups]. destruct (append_all l w0) as [w1 [[]|e1]].
  - rewrite Ha. unfold mret, meth_ret. destruct e as [e|]; cbn [fmap option_fmap option_map].
    + destruct (RFileWriter.Close (fm_order F) (fm_Marshal F) w1) as [w2 [[]|]]; eauto.
    + destruct (RFileWriter.Close (fm_order F) (fm_Marshal F) w1) as [w2 [[]|]]; eauto.
  - destruct Ha as (it & n & w' & ->). eauto.
Qed.

Lemma stands_shared bc rd ls G :
  stands bc dec G rd G -> collectLeaves rd = Ok ls -> sharedLeaves rd = false -> leaves rd = [] -> fresh rd ->
  stands bc dec G (as_shared ls rd) G.
Proof.
  intros (Hf & Hp & ls' & Bs & Hk & Hb & He & Hg & Hs & _) Hc Hsh Hnil Hfr. unfold known_leaves in Hk. rewrite Hsh, Hnil, Hc in Hk.
  injection Hk as <-. split; [done|]. split; [done|]. exists ls, Bs. split_and!; try done. by left.
Qed.

Lemma rfile_image name o cells w :
  formats_ok F -> fileFormat name = FormatRFile -> options_ok o -> groups_ok [cells] ->
  write_file (fm_compression F) (fm_order F) (fm_Marshal F) o cells [] = Ok w -> file_fits w ->
  image name (w_out (out w)) (label_of (opt_EmbeddingSpace o)) cells.
Proof.
  intros [HL Hord Hj _] Hn Ho Hg Hw Hfit.
  destruct (opened (fm_compression F) (fm_Marshal F) (fm_Unmarshal F) (fm_order F) o cells [] w (bytes_ReadAt (w_out (out w))) HL Hord Hj Hw Ho Hg Hfit
    (bytes_Serves _)) as (bc & Hr & (rd & Hrd & Hwk & Hfr & H1 & H2 & _ & Hes) & _).
  pose proof (works_stands _ _ _ _ Hwk Hfr H1 H2) as Hst. destruct (Open_new _ _ _ _ Hrd) as (v & g & codec & blocks & bm & adj & es & Erd).
  assert (exists ls, collectLeaves rd = Ok ls) as [ls Hls].
  { destruct Hwk as (ls & Bs & Hk & _). exists ls. rewrite Erd in *. exact Hk. }
  assert (forall rd', stands bc dec cells rd' cells -> forall opener, let src := NewRFileSource bc dec rd' opener in
    ready src /\ forall r cfs incl, scan src r cfs incl = in_range r cfs incl cells) as Hleaf.
  { intros rd' Hrd' opener src. split; [by exists cells, cells|]. intros r cfs incl. cbn [scan RFileSource_Laws]. unfold rf_scan.
    by rewrite (file_cells_stands src cells cells). }
  split; [intros E; rewrite E in Hr; by vm_compute in Hr|]. split; [by destruct Hst as (_ & _ & ls' & Bs & _ & _ & _ & _ & Hs & _)|].
  assert (embeddingSpace rd = label_of (opt_EmbeddingSpace o)) as Hlab by (by rewrite Hes).
  split; [|split].
  - unfold openFileSource. rewrite Hn. cbn [bool_decide decide_rel decide]. unfold sharedFile, rfile_container. rewrite Hr. cbn [mbind result_bind].
    unfold OpenShared. rewrite Hrd. cbn [mbind result_bind]. rewrite Hls. cbn [mbind result_bind RFileSource_Init].
    eexists. split; [done|]. set (src := NewRFileSource _ _ _ _).
    assert (stands bc dec cells (rf_rdr src) cells) as Hsrc.
    { change (rf_rdr src) with (NewReaderFromShared (mkShared (lg rd) (dataCodec rd) (dataBlocks rd) (RFileReader.bm rd) (RFileReader.adj rd) (embeddingSpace rd) ls)).
      assert (NewReaderFromShared (mkShared (lg rd) (dataCodec rd) (dataBlocks rd) (RFileReader.bm rd) (RFileReader.adj rd) (embeddingSpace rd) ls) = as_shared ls rd) as ->
        by (rewrite Erd; done).
      apply stands_shared; [done|done|by rewrite Erd..|done]. }
    destruct (Hleaf _ Hsrc (Some (Ok (rf_rdr src)))) as [H3 H4]. split; [exact H3|]. intros r cfs incl _. apply H4.
  - unfold embeddingStateFromImage. rewrite Hn. cbn [bool_decide decide_rel decide]. unfold rfile_container. rewrite Hr. cbn [mbind result_bind].
    by rewrite (Open_embedding _ _ _ _ Hrd), Hlab.
  - rewrite Hn. exists bc, rd. split; [exact Hr|]. split; [exact Hrd|]. split; [done|]. by apply Hleaf.
Qed.

Lemma parquet_image name data label cells :
  fileFormat name = FormatParquet -> sorted_cells cells -> Parquet.image_of (fm_parquet F) (fm_Unmarshal F) data label cells ->
  image name data label cells.
Proof.
  intros Hn Hs (Hne & Hsrc & Hd & Hm). split; [done|]. split; [done|]. split; [|split].
  - unfold openFileSource. rewrite Hn. cbn [bool_decide decide_rel decide].
    destruct (Hsrc (Some (Parquet.OpenFile (fm_parquet F) data))) as (src & -> & Hr & Hsc).
    cbn [mbind result_bind Parquet.Source_Init]. eexists. split; [done|]. split; [exact Hr|]. exact Hsc.
  - unfold embeddingStateFromImage. rewrite Hn. exact Hm.
  - by rewrite Hn.
Qed.

(** What is encoded without error, within the limits, is served again. *)
Lemma encode_image {I} `{SKVI I} name format edgeCF label (iter iter' it : I) l e data n :
  formats_ok F -> drains iter l iter' e -> (length l <= bound iter)%nat -> sorted_cells l ->
  encode format edgeCF label iter = (it, Ok (data, n)) ->
  fileFormat name = format -> (format = FormatRFile -> storable edgeCF label l) ->
  it = iter' /\ e = None /\ n = len l /\ image name data (label_of label) l.
Proof.
  intros HF Hd Hb Hs He Hn Hst. unfold encode in He. destruct format.
  - pose proof (encode_rfile_ok "new rfile writer" "append cell" "next after cell" "close rfile writer" (rfile_options edgeCF label) iter iter' l e Hd Hb) as Hr.
    rewrite He in Hr. destruct (write_file _ _ _ _ l []) as [w|] eqn:Hw; [|by destruct Hr as (? & ? & ?)].
    destruct e as [e|]; [by destruct Hr as (? & ? & ?)|]. injection Hr as -> -> ->. destruct (Hst eq_refl) as (Hg & Hcf & Hfit).
    split_and!; [done..|]. apply (rfile_image name (rfile_options edgeCF label)); [done|done| |done|done|by apply Hfit].
    split; [done|by vm_compute|by vm_compute|done].
  - destruct HF as [_ _ Hj Hp].
    destruct (Parquet.EncodeWithOptions_ok _ _ (fm_Unmarshal F) _ _ _ _ _ _ _ _ Hp Hj Hd Hb Hs He) as (-> & -> & -> & Him).
    split_and!; [done..|]. by apply parquet_image.
Qed.
End images.

(** ** Merging files *)

(** A stack only asks its leaf for the range it is given and that range
    started earlier. *)
Lemma denote_agree (R : Range -> Prop) layers (f g : scans) :
  (forall r, R r -> R (maximize_start r)) -> (forall r cfs incl, R r -> f r cfs incl = g r cfs incl) ->
  forall r cfs incl, R r -> denote layers f r cfs incl = denote layers g r cfs incl.
Proof.
  intros HR. revert f g. induction layers as [|l layers IH]; intros f g Hfg r cfs incl Hr; [by apply Hfg|]. cbn [denote]. apply IH; [|done].
  intros r' cfs' incl' Hr'. destruct l; cbn [denote_layer]; by rewrite Hfg by auto.
Qed.

Lemma in_range_all (css : list (list Cell)) : in_range InfiniteRange [] false <$> css = css.
Proof.
  rewrite <-(list_fmap_id css) at 2. apply list_fmap_ext. intros _ l _. unfold in_range. apply filter_all, Forall_forall. intros c _. done.
Qed.
