(* ===== verification/Compaction.v ===== *)
(** * Compaction: merging immutable files into one
    (src/internal/compaction: compaction.go, converge.go, diagnostics.go)

    A compaction opens its inputs, merges them, applies tombstones and the
    iterator stack, and writes the cells that remain into one file, labelled
    with the embedding space all inputs agree on, or re-embedded into the
    table's target space by a [Converger].  Contexts, progress callbacks and
    the budget of the output's size are left out; the converger is a
    parameter, described by its answers and by the calls it receives. *)

From stdpp Require Import strings.
From S2P Require Import Prelude Wire Utf8 Iter Drain IterStack IterLaws Merge Reads Stack BCFile Container EmbeddingSpace Convergence.
From S2P Require Import Codec RFileWriter RFileReader RFileSource.
From S2P Require Parquet.
From S2P Require Import TabletFiles Images.
Import Iter.

(** ** Errors

    [fmt.Errorf] with two [%w] wraps two causes. *)
Inductive cerr := Cause (e : err) | Both (a b : cerr).

Fixpoint Is (e : cerr) (target : err) : bool :=
  match e with
  | Cause e => errors_Is e target
  | Both a b => Is a target || Is b target
  end.

Definition ErrConvergenceUnavailable : err := Fail "embedding space: convergence unavailable".
Definition ErrConvergenceAborted : err := Fail "compaction: convergence aborted".
Definition ErrConvergenceRequired : err := Fail "compaction: convergence required but unavailable".
Definition ErrEmbeddingBackfillRequired : err :=
  Fail "compaction: an input's embedding space has never been established; a backfill is required".

(** ** Refusals (diagnostics.go) *)

Definition unresolvedInput (state : FileState) : bool :=
  bool_decide (State state = []) || bool_decide (State state = StateUnknown).

(** The list of names only matters for being empty: the texts are left out. *)
Definition unresolved (states : list FileState) : list FileState := filter (fun s => unresolvedInput s = true) states.

Definition annotateEmbeddingRefusal (e : cerr) (states : list FileState) : cerr :=
  match unresolved states with
  | [] => e
  | _ => Both (Cause ErrEmbeddingBackfillRequired) e
  end.

Definition annotateIntegrityRefusal (e : cerr) (metadataState : FileState) : cerr :=
  if unresolvedInput metadataState then Both (Cause ErrEmbeddingBackfillRequired) e else e.

(** ** Inputs, the specification and the result (compaction.go) *)

Record Input := mkInput { in_Name : bytes; MetadataEmbedding : FileState; in_Bytes : bytes; in_Format : bytes }.

(** One admitted attempt: its answer to the n-th call of [Convert]. *)
Abbreviation ConvergeAttempt := (nat -> option Key -> option bytes -> result bytes).

Record ConvergeRequest := mkRequest { req_Target : bytes; req_Epoch : bytes; req_Inputs : list FileState }.

(** What [Begin] answers: an attempt, or an error; a nil attempt without an
    error is [Ok None]. *)
Abbreviation Converger := (ConvergeRequest -> result (option ConvergeAttempt)).

(** The calls a converger and its attempts receive. *)
Inductive event := Began (req : ConvergeRequest) | Ended (converted : bool) (cells : nat) (e : option cerr).

Record Spec := mkCompaction {
  Inputs : list Input;
  sp_Stack : list IterSpec;
  sp_Scope : IteratorScope;
  sp_FullMajorCompaction : bool;
  TombstonesOnly : bool;
  sp_Codec : bytes;
  BlockSize : Z;
  sp_AdjacencyEdgeCF : bytes;
  OutputFormat : bytes;
  TargetEmbeddingSpace : bytes;
  EmbeddingEpoch : bytes;
  sp_Converger : option Converger;
}.

Record Result := mkResult {
  Output : bytes;
  TombstonesWritten : Z;
  EntriesWritten : Z;
  re_EmbeddingSpace : FileState;
  re_Converged : bool;
  re_EmbeddingEpoch : bytes;
}.

(** ** tombstoneCounter and tombstonesOnly *)

Record tombstoneCounter (I : Type) := mkCounter { tc_source : I; tc_n : Z }.
Arguments mkCounter {I}.
Arguments tc_source {I}.
Arguments tc_n {I}.

Definition counter_Next {I} `{SKVI I} (c : tombstoneCounter I) : tombstoneCounter I * option err :=
  let '(src, has) := HasTop (tc_source c) in
  let deleted := if has then match GetTopKey src with Some k => Deleted k | None => false end else false in
  let '(src', e) := Next src in
  (mkCounter src' (if deleted then tc_n c + 1 else tc_n c), e).

#[export] Instance counter_SKVI {I} `{SKVI I} : SKVI (tombstoneCounter I) := {
  Seek r cfs incl c := let '(src, e) := Seek r cfs incl (tc_source c) in (mkCounter src (tc_n c), e);
  Next := counter_Next;
  HasTop c := let '(src, h) := HasTop (tc_source c) in (mkCounter src (tc_n c), h);
  GetTopKey c := GetTopKey (tc_source c);
  GetTopValue c := GetTopValue (tc_source c);
  DeepCopy env c := mkCounter (DeepCopy env (tc_source c)) 0;
  bound c := bound (tc_source c);
}.

Record tombstonesOnly (I : Type) := mkTombstones { to_source : I }.
Arguments mkTombstones {I}.
Arguments to_source {I}.

Definition live_cell (k : Key) : bool := negb (Deleted k).

Definition skipLive {I} `{SKVI I} (src : I) : tombstonesOnly I * option err :=
  let '(src, e) := while_key live_cell (S (bound src)) src in (mkTombstones src, e).

#[export] Instance tombstones_SKVI {I} `{SKVI I} : SKVI (tombstonesOnly I) := {
  Seek r cfs incl f :=
    let '(src, e) := Seek r cfs incl (to_source f) in
    match e with Some e => (mkTombstones src, Some e) | None => skipLive src end;
  Next f :=
    let '(src, e) := Next (to_source f) in
    match e with Some e => (mkTombstones src, Some e) | None => skipLive src end;
  HasTop f := let '(src, h) := HasTop (to_source f) in (mkTombstones src, h);
  GetTopKey f := GetTopKey (to_source f);
  GetTopValue f := GetTopValue (to_source f);
  DeepCopy env f := mkTombstones (DeepCopy env (to_source f));
  bound f := bound (to_source f);
}.

(** [tombstonesOnly] surfaces its source's tombstones. *)
Definition deleted_cells (l : list Cell) : list Cell := filter (fun c => live_cell c.1 = false) l.

Section tombstones_laws.
Context {I : Type} `{SKVILaws I}.

Lemma skipLive_ok src :
  live src ->
  exists f, skipLive src = (f, None) /\ live (to_source f) /\ skipped live_cell (view (to_source f)) /\
    deleted_cells (view (to_source f)) = deleted_cells (view src) /\ scan (to_source f) = scan src.
Proof.
  intros Hl. unfold skipLive.
  destruct (while_key_spec live_cell (S (bound src)) src) as (src' & -> & Hl' & Hv & Hsc); [done|pose proof (bound_ok src Hl); lia|].
  eexists. split; [done|]. cbn [to_source]. rewrite Hv. split_and!; [done|by apply skipped_drop_while|by apply filter_drop_while|done].
Qed.

#[export, refine] Instance tombstones_Laws : SKVILaws (tombstonesOnly I) := {
  ready f := ready (to_source f);
  live f := live (to_source f) /\ skipped live_cell (view (to_source f));
  view f := deleted_cells (view (to_source f));
  scan f r cfs incl := deleted_cells (scan (to_source f) r cfs incl);
}.
Proof.
  - intros f [Hf _]. by apply live_ready.
  - intros f r cfs incl Hf. by apply sorted_cells_filter, scan_sorted.
  - intros f [Hf _]. by apply sorted_cells_filter, view_sorted.
  - intros f r cfs incl Hf. cbn [Seek tombstones_SKVI]. destruct (seek_ok _ r cfs incl Hf) as (src & -> & Hl & Hv & Hsc).
    destruct (skipLive_ok src Hl) as (f' & -> & H1 & H2 & H3 & H4). exists f'. rewrite H3, H4, Hv, Hsc. done.
  - intros f [Hf Hk]. cbn [HasTop tombstones_SKVI]. destruct (hastop_ok _ Hf) as (src & -> & Hl & Hv & Hsc).
    eexists. unfold deleted_cells. rewrite (skipped_nonempty _ _ Hk). split; [done|]. cbn [to_source]. by rewrite Hv, Hsc.
  - intros f c l [Hf Hk] Hv. destruct (skipped_cons _ _ _ _ Hk Hv) as (l0 & Hv0 & _). by apply (top_ok (to_source f) c l0).
  - intros f c l [Hf Hk] Hv. destruct (skipped_cons _ _ _ _ Hk Hv) as (l0 & Hv0 & ->). cbn [Next tombstones_SKVI].
    destruct (next_ok _ c l0 Hf Hv0) as (src & -> & Hl & Hv2 & Hsc).
    destruct (skipLive_ok src Hl) as (f' & -> & H1 & H2 & H3 & H4). exists f'. rewrite H3, H4, Hv2, Hsc. done.
  - intros f [Hf _]. cbn [bound tombstones_SKVI]. etrans; [apply sublist_length, filter_sublist|]. by apply bound_ok.
Defined.
End tombstones_laws.

(** ** convergingIterator (converge.go) *)

Record convergingIterator (I : Type) := mkConverging {
  cv_source : I;
  cv_attempt : ConvergeAttempt;
  cv_value : option bytes;
  cv_err : option err;
  cv_converted : nat;
}.
Arguments mkConverging {I}.
Arguments cv_source {I}.
Arguments cv_attempt {I}.
Arguments cv_value {I}.
Arguments cv_err {I}.
Arguments cv_converted {I}.

Definition newConvergingIterator {I} (source : I) (attempt : ConvergeAttempt) : convergingIterator I :=
  mkConverging source attempt None None 0.

Definition convert {I} `{SKVI I} (c : convergingIterator I) : convergingIterator I :=
  match cv_err c with
  | Some e => mkConverging (cv_source c) (cv_attempt c) None (Some e) (cv_converted c)
  | None =>
      let '(src, has) := HasTop (cv_source c) in
      if negb has then mkConverging src (cv_attempt c) None None (cv_converted c)
      else match cv_attempt c (cv_converted c) (GetTopKey src) (GetTopValue src) with
           | Err e => mkConverging src (cv_attempt c) None (Some e) (cv_converted c)
           | Ok v => mkConverging src (cv_attempt c) (Some v) None (S (cv_converted c))
           end
  end.

(** [Seek] and [Next]: the source's, then [convert]. *)
Definition converting {I} `{SKVI I} (move : I -> I * option err) (c : convergingIterator I) : convergingIterator I * option err :=
  let '(src, e) := move (cv_source c) in
  let c := mkConverging src (cv_attempt c) (cv_value c) (cv_err c) (cv_converted c) in
  match e with
  | Some e => (c, Some e)
  | None => let c := convert c in (c, cv_err c)
  end.

Definition prime {I} `{SKVI I} (c : convergingIterator I) : convergingIterator I * option err :=
  let c := convert c in (c, cv_err c).

#[export] Instance converging_SKVI {I} `{SKVI I} : SKVI (convergingIterator I) := {
  Seek r cfs incl := converting (Seek r cfs incl);
  Next := converting Next;
  HasTop c :=
    match cv_err c with
    | Some _ => (c, false)
    | None => let '(src, h) := HasTop (cv_source c) in
              (mkConverging src (cv_attempt c) (cv_value c) (cv_err c) (cv_converted c), h)
    end;
  GetTopKey c := GetTopKey (cv_source c);
  GetTopValue c := cv_value c;
  DeepCopy env c := newConvergingIterator (DeepCopy env (cv_source c)) (cv_attempt c);
  bound c := bound (cv_source c);
}.

(** ** convergeAttempt: the decision about convergence *)

(** [ca_inputs] also stands for [names], which only texts use. *)
Record convergeAttempt := mkAttempt {
  ca_attempt : option ConvergeAttempt;
  ca_target : bytes;
  ca_epoch : bytes;
  ca_label : FileState;
  ca_inputs : list FileState;
}.

Definition active (a : convergeAttempt) : bool := match ca_attempt a with Some _ => true | None => false end.

Definition convergenceRequired (mergeErr : cerr) : cerr := Both (Cause ErrConvergenceRequired) mergeErr.

(** The loop over the inputs' states: is a rewrite wanted? *)
Fixpoint wanted_loop (target : bytes) (states : list FileState) (wanted : bool) : result bool :=
  match states with
  | [] => Ok wanted
  | state :: states =>
      decision ← PlanConvergence target state;
      wanted_loop target states (wanted || bool_decide (decision = DecisionRewrite))
  end.

Definition planConvergence (spec : Spec) (states : list FileState) : (cerr + convergeAttempt) * list event :=
  let epoch := TrimSpace (EmbeddingEpoch spec) in
  match ParseTarget (TargetEmbeddingSpace spec) with
  | Err e => (inl (Cause (Wrap "compaction" e)), [])
  | Ok target =>
      if negb (bool_decide (epoch = [])) && bool_decide (target = []) then
        (inl (Cause (Fail "compaction: embedding epoch set without a target embedding space")), [])
      else
        match wanted_loop target states false with
        | Err e => (inl (Cause (Wrap "compaction" e)), [])
        | Ok wanted =>
            let merged := match Compatible states with Ok label => inr label | Err e => inl (annotateEmbeddingRefusal (Cause e) states) end in
            let unconverged label := mkAttempt None target epoch label states in
            match sp_Converger spec with
            | Some converger =>
                if negb wanted then
                  (match merged with inl e => inl e | inr label => inr (unconverged label) end, [])
                else
                  let req := mkRequest target (EmbeddingEpoch spec) states in
                  (match converger req with
                   | Err beginErr =>
                       if negb (errors_Is beginErr ErrConvergenceUnavailable) then
                         inl (Cause (Wrap "compaction: begin convergence" beginErr))
                       else match merged with inl e => inl (convergenceRequired e) | inr label => inr (unconverged label) end
                   | Ok None => inl (Cause (Fail "compaction: converger admitted the attempt but returned no handle"))
                   | Ok (Some attempt) => inr (mkAttempt (Some attempt) target epoch (EmbeddingSpace.Has target) states)
                   end, [Began req])
            | None => (match merged with inl e => inl e | inr label => inr (unconverged label) end, [])
            end
        end
  end.

(** After a failure half way: the same compaction, unconverged. *)
Definition preserved (a : convergeAttempt) : cerr + convergeAttempt :=
  match Compatible (ca_inputs a) with
  | Err e => inl (convergenceRequired (annotateEmbeddingRefusal (Cause e) (ca_inputs a)))
  | Ok label => inr (mkAttempt None (ca_target a) (ca_epoch a) label (ca_inputs a))
  end.

Fixpoint monotonic_loop (target : bytes) (label : FileState) (states : list FileState) : option err :=
  match states with
  | [] => None
  | state :: states => match EnsureMonotonic target state label with Some e => Some e | None => monotonic_loop target label states end
  end.

Definition verify (a : convergeAttempt) : option cerr :=
  match monotonic_loop (ca_target a) (ca_label a) (ca_inputs a) with
  | Some e => Some (annotateEmbeddingRefusal (Cause (Wrap "compaction" e)) (ca_inputs a))
  | None => Cause <$> Validate (ca_label a)
  end.

(** ** Opening, merging and writing (compaction.go) *)

Definition has_suffix (b suffix : bytes) : bool :=
  (len suffix <=? len b) && bool_decide (drop (Z.to_nat (len b - len suffix)) b = suffix).

Definition input_format (i : Input) : bytes :=
  if bool_decide (in_Format i = []) && has_suffix (in_Name i) (str ".parquet") then str "parquet" else in_Format i.

Definition known_format (format : bytes) : bool := bool_decide (format = []) || bool_decide (format = str "rfile").

(** The leaf an input is opened as. *)
Abbreviation InputSource := (RFileSource + SliceSource)%type.

Section compaction.
Context (F : Formats) (registryByName : gmap string iteratorRegistration).
Abbreviation dec := (Default (fm_compression F)).

Definition open_rfile (data : bytes) : result (Container.Reader * RFileReader.Reader) :=
  bc ← wrap "compaction: bcfile open" (rfile_container data);
  r ← wrap "compaction: rfile open" (RFileReader.Open (fm_Unmarshal F) bc dec);
  Ok (bc, r).

Definition inputEmbeddingSpace (i : Input) : result FileState :=
  if bool_decide (in_Bytes i = []) then Err (Fail "compaction: input is empty")
  else
    let format := input_format i in
    if bool_decide (format = str "parquet") then Parquet.ReadEmbeddingSpaceMetadata (fm_parquet F) (fm_Unmarshal F) (in_Bytes i)
    else if negb (known_format format) then Err (Fail "compaction: unknown input format")
    else '(_, r) ← open_rfile (in_Bytes i); Ok (embeddingSpace r).

Fixpoint inputEmbeddingSpaces (inputs : list Input) : cerr + list FileState :=
  match inputs with
  | [] => inr []
  | i :: inputs =>
      match inputEmbeddingSpace i with
      | Err e => inl (Cause e)
      | Ok state =>
          let checked :=
            if negb (bool_decide (State (MetadataEmbedding i) = [])) then
              match VerifyMetadataMatchesFooter (MetadataEmbedding i) state with
              | Some e => inl (annotateIntegrityRefusal (Cause e) (MetadataEmbedding i))
              | None => inr (MetadataEmbedding i)
              end
            else inr state in
          match checked with
          | inl e => inl e
          | inr state =>
              match inputEmbeddingSpaces inputs with inl e => inl e | inr states => inr (state :: states) end
          end
      end
  end.

Definition openInputSource (i : Input) : result InputSource :=
  if bool_decide (in_Bytes i = []) then Err (Fail "compaction: input is empty")
  else
    let format := input_format i in
    if bool_decide (format = str "parquet") then
      cells ← wrap "compaction: open parquet" (Parquet.Decode_cells (fm_parquet F) (in_Bytes i));
      Ok (inr (NewSliceSource cells))
    else if negb (known_format format) then Err (Fail "compaction: unknown input format")
    else
      '(bc, rdr) ← open_rfile (in_Bytes i);
      let src := NewRFileSource bc dec rdr (Some ('(_, r) ← open_rfile (in_Bytes i); Ok r)) in
      match RFileSource_Init (@None unit) src with
      | Some e => Err (Wrap "compaction: source init" e)
      | None => Ok (inl src)
      end.

Definition compaction_env (spec : Spec) : IteratorEnvironment := mkEnv (sp_Scope spec) (sp_FullMajorCompaction spec) None.

(** The stack over the deleting iterator, before it is seeked. *)
Definition buildTop (spec : Spec) : result Iterator :=
  leaves ← mapM openInputSource (Inputs spec);
  let env := compaction_env spec in
  let merge := NewMergingIterator leaves in
  if TombstonesOnly spec then
    if negb (bool_decide (sp_Stack spec = [])) then Err (Fail "compaction: TombstonesOnly takes no iterator stack")
    else
      delIter ← wrap "compaction: deleting iter init" (DeletingIterator_Init (Some merge) {["propagateDeletes"%string := "true"%string]} env);
      Ok (mkIter (tombstonesOnly (DeletingIterator (MergingIterator InputSource))) _ _ (mkTombstones delIter))
  else
    delIter ← wrap "compaction: deleting iter init" (DeletingIterator_Init (Some merge) ∅ env);
    match BuildStack registryByName (mkIter (DeletingIterator (MergingIterator InputSource)) _ Deleting_Laws delIter) (sp_Stack spec) env with
    | inl _ => Err (Fail "compaction: build stack")
    | inr top => Ok top
    end.

Definition buildSource (spec : Spec) : result Iterator :=
  top ← buildTop spec;
  let '(mkIter T ops laws v) := top in
  let '(v, e) := Seek InfiniteRange [] false v in
  match e with
  | Some e => Err (Wrap "compaction: seek" e)
  | None => Ok (mkIter T ops laws v)
  end.

(** The tombstones counted, with the iterator drained. *)
Definition drain {I} `{SKVI I} (spec : Spec) (top : I) (attempt : convergeAttempt) : I * result Result :=
  let finish (output : bytes) (written tombstones : Z) : Result :=
    mkResult output tombstones written (ca_label attempt) (active attempt) (if active attempt then ca_epoch attempt else []) in
  let tombstones := mkCounter top 0 in
  if bool_decide (OutputFormat spec = str "parquet") then
    let '(tombstones, r) :=
      Parquet.EncodeWithOptions (fm_parquet F) (fm_Marshal F) (Parquet.mkEncodeOptions 0 0 (ca_label attempt)) tombstones in
    (tc_source tombstones,
     match r with Err e => Err (Wrap "compaction" e) | Ok (data, n) => Ok (finish data n (tc_n tombstones)) end)
  else if negb (known_format (OutputFormat spec)) then (top, Err (Fail "compaction: unknown output format"))
  else
    let codec := if bool_decide (sp_Codec spec = []) then CodecSnappy else sp_Codec spec in
    let '(tombstones, r) :=
      encode_rfile F "compaction: new writer" "compaction: append cell" "compaction: advance after cell" "compaction: close writer"
        (mkOptions codec (BlockSize spec) 0 None [] (sp_AdjacencyEdgeCF spec) (ca_label attempt)) tombstones in
    (tc_source tombstones,
     match r with Err e => Err e | Ok (data, n) => Ok (finish data n (tc_n tombstones)) end).

Definition compactOnce (spec : Spec) (attempt : convergeAttempt) : result Result :=
  top ← buildSource spec;
  let '(mkIter T ops laws v) := top in (drain spec v attempt).2.

(** The result and the number of cells converted. *)
Definition compactConverged (spec : Spec) (attempt : convergeAttempt) (convert : ConvergeAttempt) : result Result * nat :=
  match buildSource spec with
  | Err e => (Err e, 0%nat)
  | Ok (mkIter T ops laws v) =>
      let '(converting, e) := prime (newConvergingIterator v convert) in
      match e with
      | Some e => (Err e, cv_converted converting)
      | None =>
          let '(converting, r) := drain spec converting attempt in
          match cv_err converting with
          | Some e => (Err e, cv_converted converting)
          | None => (r, cv_converted converting)
          end
      end
  end.

Definition lift {A} (r : result A) : cerr + A := match r with Err e => inl (Cause e) | Ok a => inr a end.

(** The result, and the calls the converger and its attempt received. *)
Definition CompactContext (spec : Spec) : (cerr + Result) * list event :=
  match inputEmbeddingSpaces (Inputs spec) with
  | inl e => (inl e, [])
  | inr states =>
      let '(planned, began) := planConvergence spec states in
      match planned with
      | inl e => (inl e, began)
      | inr attempt =>
          match ca_attempt attempt with
          | None =>
              (match verify attempt with Some e => inl e | None => lift (compactOnce spec attempt) end, began)
          | Some convert =>
              match verify attempt with
              | Some e => (inl e, began ++ [Ended false 0 (Some e)])
              | None =>
                  match compactConverged spec attempt convert with
                  | (Ok result, cells) => (inr result, began ++ [Ended true cells None])
                  | (Err e, cells) =>
                      (if errors_Is e ErrConvergenceAborted then inl (Cause e)
                       else match preserved attempt with
                            | inl e => inl e
                            | inr fallback =>
                                match verify fallback with Some e => inl e | None => lift (compactOnce spec fallback) end
                            end,
                       began ++ [Ended false cells (Some (Cause e))])
                  end
              end
          end
      end
  end.

(** [StreamCells] with an [emit] that collects. *)
Definition StreamCells (spec : Spec) : result (list Cell) :=
  top ← buildSource spec;
  let '(mkIter T ops laws v) := top in
  let '(cells, _, e) := drain_iter (S (bound v)) v in
  match e with Some e => Err (Wrap "compaction: advance" e) | None => Ok cells end.
End compaction.

(** ** What a drain writes *)

Definition counted {I} (Y : I -> list Cell -> option err -> Prop) (total : Z) (c : tombstoneCounter I) (l : list Cell) (e : option err) : Prop :=
  Y (tc_source c) l e /\ tc_n c + len (deleted_cells l) = total.
Definition counted_end {I} (D : I -> err -> Prop) (total : Z) (c : tombstoneCounter I) (x : err) : Prop :=
  D (tc_source c) x /\ tc_n c = total.

Lemma deleted_cells_cons (c : Cell) l : len (deleted_cells (c :: l)) = (if Deleted c.1 then 1 else 0) + len (deleted_cells l).
Proof.
  unfold deleted_cells, live_cell. rewrite filter_cons. destruct (Deleted c.1) eqn:E; cbn [negb].
  - rewrite decide_True by done. by rewrite len_cons, Z.add_comm.
  - by rewrite decide_False.
Qed.

Lemma counter_yields {I} `{SKVI I} Y D total : yields_laws (I := I) Y D -> yields_laws (counted Y total) (counted_end D total).
Proof.
  intros HY. constructor.
  - intros [i n] l e [Hi Hn]. destruct (yl_HasTop Y D HY i l e Hi) as (i' & E & H1). exists (mkCounter i' n).
    cbn [HasTop counter_SKVI tc_source]. by rewrite E.
  - intros [i n] c l e [Hi Hn]. by apply (yl_top Y D HY i c l e).
  - intros [i n] c l e [Hi Hn]. cbn [tc_source tc_n] in *. rewrite deleted_cells_cons in Hn. cbn [Next counter_SKVI]. unfold counter_Next. cbn [tc_source tc_n].
    destruct (yl_HasTop Y D HY i _ _ Hi) as (i1 & E & H1). rewrite E, bool_decide_eq_true_2 by done.
    destruct (yl_top Y D HY i1 _ _ _ H1) as [-> _]. pose proof (yl_Next Y D HY i1 _ _ _ H1) as Hx.
    remember (len (deleted_cells l)) as m eqn:Em. destruct l as [|d l]; [change (m = 0) in Em; destruct e as [x|]|];
      destruct Hx as (i2 & -> & H2); (eexists; split; [done|]); (split; [exact H2|]); cbn [tc_n] in *; rewrite <-?Em; destruct (Deleted c.1); try lia.
    1,2: change (len (deleted_cells [])) with 0; lia.
Qed.

(** The cells an attempt turns the cells into, until an answer is an error. *)
Fixpoint converted (a : ConvergeAttempt) (n : nat) (cells : list Cell) : list Cell * option err :=
  match cells with
  | [] => ([], None)
  | (k, v) :: cells =>
      match a n (Some k) (Some v) with
      | Err e => ([], Some e)
      | Ok v => let '(l, e) := converted a (S n) cells in ((k, v) :: l, e)
      end
  end.

Definition conv_view {I} `{SKVILaws I} (c : convergingIterator I) (l : list Cell) (e : option err) : Prop :=
  cv_err c = None /\ live (cv_source c) /\
  match view (cv_source c) with
  | [] => l = [] /\ e = None
  | (k, _) :: rest => exists v, cv_value c = Some v /\ l = (k, v) :: (converted (cv_attempt c) (cv_converted c) rest).1 /\
      e = (converted (cv_attempt c) (cv_converted c) rest).2
  end.
Definition conv_end {I} (c : convergingIterator I) (x : err) : Prop := cv_err c = Some x.

Lemma convert_ok {I} `{SKVILaws I} (c : convergingIterator I) :
  live (cv_source c) -> cv_err c = None ->
  let '(l, e) := converted (cv_attempt c) (cv_converted c) (view (cv_source c)) in
  match l, e with
  | [], Some x => cv_err (convert c) = Some x
  | _, _ => conv_view (convert c) l e
  end.
Proof.
  intros Hl He. unfold convert. rewrite He. destruct (hastop_ok _ Hl) as (i1 & -> & Hl1 & Hv1 & _).
  destruct (view (cv_source c)) as [|[k v] rest] eqn:Ev.
  - rewrite bool_decide_eq_false_2 by tauto. cbn [negb converted]. unfold conv_view. cbn [cv_err cv_source]. by rewrite Hv1.
  - rewrite bool_decide_eq_true_2 by done. cbn [negb converted]. destruct (top_ok i1 (k, v) rest Hl1 Hv1) as [-> ->]. cbn [fst snd].
    destruct (cv_attempt c (cv_converted c) (Some k) (Some v)) as [v'|x]; [|done].
    destruct (converted (cv_attempt c) (S (cv_converted c)) rest) as [l e] eqn:E. unfold conv_view. cbn [cv_err cv_source cv_value cv_attempt cv_converted].
    split; [done|]. split; [done|]. rewrite Hv1, E. by exists v'.
Qed.

Lemma converging_yields {I} `{SKVILaws I} : yields_laws (I := convergingIterator I) conv_view conv_end.
Proof.
  constructor.
  - intros c l e (He & Hl & Hv). destruct (hastop_ok _ Hl) as (i1 & E & Hl1 & Hv1 & _). cbn [HasTop converging_SKVI]. rewrite He, E.
    exists (mkConverging i1 (cv_attempt c) (cv_value c) None (cv_converted c)).
    unfold conv_view. cbn [cv_err cv_source cv_value cv_attempt cv_converted]. rewrite Hv1.
    destruct (view (cv_source c)) as [|[k v] rest]; [by destruct Hv as [-> ->]|]. destruct Hv as (v' & -> & -> & ->).
    split; [done|]. split; [done|]. split; [done|]. by exists v'.
  - intros c d l e (He & Hl & Hv). destruct (view (cv_source c)) as [|[k v] rest] eqn:Ev; [by destruct Hv|].
    destruct Hv as (v' & Hv' & [= -> _] & _). split; [|done]. cbn [GetTopKey converging_SKVI]. by destruct (top_ok _ (k, v) rest Hl Ev).
  - intros c d l e (He & Hl & Hv). destruct (view (cv_source c)) as [|[k v] rest] eqn:Ev; [by destruct Hv|].
    destruct Hv as (v' & Hv' & [= -> ->] & ->). cbn [Next converging_SKVI]. unfold converting.
    destruct (next_ok _ (k, v) rest Hl Ev) as (i2 & -> & Hl2 & Hv2 & _).
    pose proof (convert_ok (mkConverging i2 (cv_attempt c) (cv_value c) (cv_err c) (cv_converted c)) Hl2 He) as Hc.
    cbn [cv_source cv_attempt cv_converted] in Hc. rewrite Hv2 in Hc.
    destruct (converted (cv_attempt c) (cv_converted c) rest) as [l e]. cbn [fst snd].
    destruct l as [|d l]; [destruct e as [x|]|]; eexists; [rewrite Hc; split; [done|exact Hc]|..]; (split; [by rewrite (proj1 Hc)|exact Hc]).
Qed.

Section written.
Context (F : Formats) (registryByName : gmap string iteratorRegistration).

Definition output_options (spec : Spec) (label : FileState) : WriterOptions :=
  mkOptions (if bool_decide (sp_Codec spec = []) then CodecSnappy else sp_Codec spec) (BlockSize spec) 0 None [] (sp_AdjacencyEdgeCF spec) label.

Definition result_of (attempt : convergeAttempt) (cells : list Cell) (output : bytes) : Result :=
  mkResult output (len (deleted_cells cells)) (len cells) (ca_label attempt) (active attempt) (if active attempt then ca_epoch attempt else []).

(** The output holds the cells, in the format of the specification. *)
Definition written (spec : Spec) (attempt : convergeAttempt) (cells : list Cell) (r : Result) : Prop :=
  r = result_of attempt cells (Output r) /\
  if bool_decide (OutputFormat spec = str "parquet")
  then Parquet.image_of (fm_parquet F) (fm_Unmarshal F) (Output r) (label_of (ca_label attempt)) cells
  else exists w, RFile.write_file (fm_compression F) (fm_order F) (fm_Marshal F) (output_options spec (ca_label attempt)) cells [] = Ok w /\
    Output r = w_out (out w).

Section drain.
Context {I} `{SKVI I} (Y : I -> list Cell -> option err -> Prop) (D : I -> err -> Prop) (HY : yields_laws Y D).
Context (spec : Spec) (attempt : convergeAttempt) (i : I) (l : list Cell) (e : option err).
Context (Hi : Y i l e) (He : l = [] -> e = None) (Hb : (length l <= bound i)%nat).

Lemma counter_drains :
  exists i', drains (mkCounter i 0) l (mkCounter i' (len (deleted_cells l))) e /\ drained Y D i' e.
Proof.
  destruct (yields_drains _ _ (mkCounter i 0) l e (counter_yields Y D (len (deleted_cells l)) HY)) as ([i' n] & Hd & Hend).
  { split; [exact Hi|]. cbn [tc_n]. lia. }
  { exact He. }
  exists i'. destruct e as [x|]; destruct Hend as [H1 H2]; cbn [tc_source tc_n] in *.
  - subst n. by split.
  - change (len (deleted_cells [])) with 0 in H2. replace n with (len (deleted_cells l)) in Hd by lia. by split.
Qed.

(** RFiles: the run is the writer's, errors included. *)
Lemma drain_rfile :
  known_format (OutputFormat spec) = true ->
  match RFile.write_file (fm_compression F) (fm_order F) (fm_Marshal F) (output_options spec (ca_label attempt)) l [], e with
  | Ok w, None => exists i', drain F spec i attempt = (i', Ok (result_of attempt l (w_out (out w)))) /\ Y i' [] None
  | _, _ => exists i' e', drain F spec i attempt = (i', Err e')
  end.
Proof.
  intros Hk. destruct counter_drains as (i' & Hd & Hend). unfold drain.
  assert (bool_decide (OutputFormat spec = str "parquet") = false) as ->.
  { apply bool_decide_eq_false. intros E. rewrite E in Hk. by vm_compute in Hk. }
  rewrite Hk. cbn [negb]. fold (output_options spec (ca_label attempt)).
  pose proof (encode_rfile_ok F "compaction: new writer" "compaction: append cell" "compaction: advance after cell" "compaction: close writer"
    (output_options spec (ca_label attempt)) _ _ _ _ Hd Hb) as Hr. unfold output_options in *.
  destruct (RFile.write_file _ _ _ _ l []) as [w|]; [destruct e as [x|]|].
  - destruct Hr as (it & e' & ->). eauto.
  - rewrite Hr. cbn [tc_source tc_n]. by exists i'.
  - destruct Hr as (it & e' & ->). eauto.
Qed.

Lemma drain_ok i' r :
  formats_ok F -> sorted_cells l -> drain F spec i attempt = (i', Ok r) -> e = None /\ Y i' [] None /\ written spec attempt l r.
Proof.
  intros HF Hs Hdr. unfold written. destruct (decide (OutputFormat spec = str "parquet")) as [Ep|Ep].
  - rewrite (bool_decide_eq_true_2 _ Ep). unfold drain in Hdr. rewrite (bool_decide_eq_true_2 _ Ep) in Hdr.
    destruct counter_drains as (j & Hd & Hend). destruct (Parquet.EncodeWithOptions _ _ _ _) as [it [[data n]|]] eqn:Een; [|done].
    destruct (Parquet.EncodeWithOptions_ok _ _ (fm_Unmarshal F) _ _ _ _ _ _ _ _ (fo_parquet F HF) (fo_json F HF) Hd Hb Hs Een) as (-> & -> & -> & Him).
    injection Hdr as <- <-. done.
  - rewrite (bool_decide_eq_false_2 _ Ep). destruct (known_format (OutputFormat spec)) eqn:Hk.
    + pose proof (drain_rfile Hk) as Hr. destruct (RFile.write_file _ _ _ _ l []) as [w|]; [destruct e as [x|]|].
      * destruct Hr as (? & ? & Hr). congruence.
      * destruct Hr as (j & Hr & HYj). rewrite Hr in Hdr. injection Hdr as <- <-. split; [done|]. split; [done|]. split; [done|]. by exists w.
      * destruct Hr as (? & ? & Hr). congruence.
    + unfold drain in Hdr. rewrite (bool_decide_eq_false_2 _ Ep), Hk in Hdr. done.
Qed.
End drain.

(** The output read again. *)
Lemma written_image name spec attempt cells r :
  formats_ok F -> sorted_cells cells -> written spec attempt cells r ->
  (fileFormat name = FormatParquet <-> OutputFormat spec = str "parquet") ->
  (OutputFormat spec <> str "parquet" -> let o := output_options spec (ca_label attempt) in
     RFile.options_ok o /\ RFile.groups_ok [cells] /\
     forall w, RFile.write_file (fm_compression F) (fm_order F) (fm_Marshal F) o cells [] = Ok w -> RFile.file_fits w) ->
  image F name (Output r) (label_of (ca_label attempt)) cells.
Proof.
  intros HF Hs [_ Hw] Hn Hst. destruct (decide (OutputFormat spec = str "parquet")) as [Ep|Ep].
  - rewrite (bool_decide_eq_true_2 _ Ep) in Hw. by apply parquet_image; [apply Hn|..].
  - rewrite (bool_decide_eq_false_2 _ Ep) in Hw. destruct Hw as (w & Hw & ->). destruct (Hst Ep) as (Ho & Hg & Hfit).
    apply (rfile_image F name (output_options spec (ca_label attempt))); try done; [|by apply Hfit].
    destruct (fileFormat name); [done|]. by destruct Ep; apply Hn.
Qed.
End written.

(** ** What a compaction reads *)

Section read.
Context (F : Formats) (registryByName : gmap string iteratorRegistration).

(** The input is a file of the given state and cells, and the metadata, where
    there is any, agrees. *)
Definition input_holds (i : Input) (label : FileState) (cells : list Cell) : Prop :=
  in_Bytes i <> [] /\ sorted_cells cells /\ EmbeddingSpace.Validate label = None /\
  (State (MetadataEmbedding i) = [] \/ MetadataEmbedding i = label) /\
  ((input_format i = str "parquet" /\ reads F FormatParquet (in_Bytes i) label cells /\
      Parquet.ReadEmbeddingSpaceMetadata (fm_parquet F) (fm_Unmarshal F) (in_Bytes i) = Ok label) \/
   (known_format (input_format i) = true /\ reads F FormatRFile (in_Bytes i) label cells)).

Lemma known_format_parquet format : known_format format = true -> bool_decide (format = str "parquet") = false.
Proof. intros Hk. apply bool_decide_eq_false. intros ->. by vm_compute in Hk. Qed.

Lemma open_rfile_ok i label cells :
  reads F FormatRFile (in_Bytes i) label cells ->
  exists bc rd, open_rfile F (in_Bytes i) = Ok (bc, rd) /\ embeddingSpace rd = label /\
    forall opener, let src := NewRFileSource bc (Default (fm_compression F)) rd opener in
      ready src /\ forall r cfs incl, scan src r cfs incl = in_range r cfs incl cells.
Proof.
  intros (bc & rd & Hbc & Hrd & Hes & Hl). exists bc, rd. unfold open_rfile. rewrite Hbc. cbn [wrap mbind result_bind]. rewrite Hrd. done.
Qed.

Lemma openInputSource_ok i label cells :
  input_holds i label cells ->
  exists x, openInputSource F i = Ok x /\ ready x /\ forall r cfs incl, scan x r cfs incl = in_range r cfs incl cells.
Proof.
  intros (Hne & Hs & _ & _ & Hf). unfold openInputSource. rewrite (bool_decide_eq_false_2 _ Hne). destruct Hf as [(Hf & Hd & _)|[Hk Hr]].
  - rewrite (bool_decide_eq_true_2 _ Hf). cbn [reads] in Hd. rewrite Hd. cbn [wrap mbind result_bind]. eexists. split; [done|]. by split.
  - rewrite (known_format_parquet _ Hk), Hk. cbn [negb]. destruct (open_rfile_ok i label cells Hr) as (bc & rd & -> & _ & Hl).
    cbn [mbind result_bind RFileSource_Init]. eexists. split; [done|]. exact (Hl (Some (Ok rd))).
Qed.

Lemma inputEmbeddingSpace_ok i label cells : input_holds i label cells -> inputEmbeddingSpace F i = Ok label.
Proof.
  intros (Hne & _ & _ & _ & Hf). unfold inputEmbeddingSpace. rewrite (bool_decide_eq_false_2 _ Hne). destruct Hf as [(Hf & _ & Hm)|[Hk Hr]].
  - by rewrite (bool_decide_eq_true_2 _ Hf).
  - rewrite (known_format_parquet _ Hk), Hk. cbn [negb]. by destruct (open_rfile_ok i label cells Hr) as (bc & rd & -> & <- & _).
Qed.

(** The inputs, with the states and the cells they hold. *)
Definition inputs_hold (inputs : list Input) (states : list FileState) (css : list (list Cell)) : Prop :=
  Forall2 (fun i p => input_holds i p.1 p.2) inputs (zip states css) /\ length states = length css.

Lemma inputEmbeddingSpaces_ok inputs states css :
  inputs_hold inputs states css -> inputEmbeddingSpaces F inputs = inr states.
Proof.
  intros [Hi Hl]. revert states css Hi Hl. induction inputs as [|i inputs IH]; intros [|s states] [|cs css] Hi Hl; try done; try by inversion Hi.
  cbn [zip zip_with] in Hi. apply Forall2_cons in Hi as [H1 Hi]. cbn [inputEmbeddingSpaces fst snd] in *. rewrite (inputEmbeddingSpace_ok _ _ _ H1).
  rewrite (IH states css Hi) by (cbn in Hl; lia). destruct H1 as (_ & _ & Hv & Hm & _).
  destruct (decide (State (MetadataEmbedding i) = [])) as [E|E]; [by rewrite (bool_decide_eq_true_2 _ E)|].
  rewrite (bool_decide_eq_false_2 _ E). cbn [negb]. destruct Hm as [?|Hm]; [done|]. unfold VerifyMetadataMatchesFooter.
  rewrite Hm, Hv, bool_decide_eq_true_2 by done. done.
Qed.

Lemma open_inputs_ok inputs states css :
  inputs_hold inputs states css ->
  exists leaves, mapM (openInputSource F) inputs = Ok leaves /\ Forall ready leaves /\
    forall r cfs incl, (fun f => f r cfs incl) <$> (scan <$> leaves) = in_range r cfs incl <$> css.
Proof.
  intros [Hi Hl]. revert states css Hi Hl. induction inputs as [|i inputs IH]; intros [|s states] [|cs css] Hi Hl; try done; try by inversion Hi.
  { by exists []. }
  cbn [zip zip_with] in Hi. apply Forall2_cons in Hi as [H1 Hi]. cbn [fst snd] in *.
  destruct (openInputSource_ok _ _ _ H1) as (x & Hx & Hr & Hsc). destruct (IH states css Hi) as (xs & Hxs & Hrs & Hscs); [cbn in Hl; lia|].
  exists (x :: xs). cbn [mapM]. rewrite Hx. cbn [mbind result_bind]. rewrite Hxs. cbn [mbind result_bind]. split; [done|]. split; [by constructor|].
  intros r cfs incl. by rewrite !fmap_cons, Hsc, Hscs.
Qed.

(** The deletes a compaction applies keep tombstones unless it leaves its
    output as the only file. *)
Definition propagates (spec : Spec) : bool := negb (bool_decide (sp_Scope spec = ScopeMajc) && sp_FullMajorCompaction spec).

Definition compacted (spec : Spec) (layers : list layer) (css : list (list Cell)) : list Cell :=
  if TombstonesOnly spec then deleted_cells (apply_deletes true None (merge_all css))
  else denote layers (denote_layer (LDeleting (propagates spec)) (merge_scan css)) InfiniteRange [] false.

(** Without a stack, the tombstones applied to the merge. *)
Lemma compacted_no_stack spec css :
  TombstonesOnly spec = false -> compacted spec [] css = apply_deletes (propagates spec) None (merge_all css).
Proof.
  intros Ht. unfold compacted. rewrite Ht. cbn [denote denote_layer]. unfold merge_scan.
  change (maximize_start InfiniteRange) with InfiniteRange. rewrite in_range_all. apply filter_all, Forall_forall. done.
Qed.

(** The specification's stack, read into layers. *)
Definition stack_reads (spec : Spec) (layers : list layer) : Prop :=
  if TombstonesOnly spec then sp_Stack spec = [] /\ layers = []
  else ValidateStack registryByName 0 (sp_Stack spec) (ContextFromScope (sp_Scope spec)) = Some [] /\
    mapM (read_layer (compaction_env spec)) (sp_Stack spec) = Some layers.

(** The deleting iterator over the merge of the inputs. *)
Lemma deleting_merge spec o p (leaves : list InputSource) (css : list (list Cell)) :
  Forall ready leaves -> (forall r cfs incl, (fun f => f r cfs incl) <$> (scan <$> leaves) = in_range r cfs incl <$> css) ->
  read_layer (compaction_env spec) (mkSpec "deleting" o) = Some (LDeleting p) ->
  exists d, DeletingIterator_Init (Some (NewMergingIterator leaves)) o (compaction_env spec) = Ok d /\ ready d /\
    forall r cfs incl, scan d r cfs incl = denote_layer (LDeleting p) (merge_scan css) r cfs incl.
Proof.
  intros Hr Hsc Hl. destruct (deleting_inits _ _ _ Hl (mkIter (MergingIterator InputSource) _ Merging_Laws (NewMergingIterator leaves)) Hr) as (it & Hn & Hready & Hscan).
  cbn [reg_new reg_deleting] in Hn. destruct (DeletingIterator_Init _ o _) as [d|]; [|done]. cbn [mbind result_bind] in Hn. injection Hn as <-.
  exists d. split; [done|]. split; [exact Hready|]. intros r cfs incl. cbn [it_scan] in Hscan. rewrite Hscan. cbn [denote_layer scan Merging_Laws].
  unfold mi_scan. cbn [mi_sources NewMergingIterator]. by rewrite Hsc.
Qed.

Lemma buildTop_ok spec states css layers :
  registry_ok registryByName -> inputs_hold (Inputs spec) states css -> stack_reads spec layers ->
  exists top, buildTop F registryByName spec = Ok top /\ it_ready top /\ it_scan top InfiniteRange [] false = compacted spec layers css.
Proof.
  intros Hreg Hin Hst. destruct (open_inputs_ok _ _ _ Hin) as (leaves & Hm & Hr & Hsc). unfold buildTop. rewrite Hm. cbn [mbind result_bind].
  unfold stack_reads in Hst. unfold compacted. destruct (TombstonesOnly spec).
  - destruct Hst as [Hs ->]. rewrite (bool_decide_eq_true_2 _ Hs). cbn [negb].
    destruct (deleting_merge spec {["propagateDeletes"%string := "true"%string]} true leaves css Hr Hsc) as (d & -> & Hrd & Hscd); [done|].
    cbn [wrap mbind result_bind]. eexists. split; [done|]. split; [exact Hrd|]. cbn [it_scan scan tombstones_Laws to_source].
    rewrite Hscd. cbn [denote_layer]. unfold merge_scan. change (maximize_start InfiniteRange) with InfiniteRange. rewrite in_range_all.
    f_equal. by apply filter_all, Forall_forall.
  - destruct Hst as [Hv Hl]. destruct (deleting_merge spec ∅ (propagates spec) leaves css Hr Hsc) as (d & -> & Hrd & Hscd); [done|].
    cbn [wrap mbind result_bind].
    destruct (BuildStack_denotes registryByName (compaction_env spec) (sp_Stack spec) layers
      (mkIter (DeletingIterator (MergingIterator InputSource)) _ Deleting_Laws d) Hreg Hv Hl Hrd) as (top & -> & Hrt & Hst).
    exists top. split; [done|]. split; [done|]. rewrite Hst. apply (denote_agree (fun _ => True)); [done|intros; apply Hscd|done].
Qed.

Lemma buildSource_ok spec states css layers :
  registry_ok registryByName -> inputs_hold (Inputs spec) states css -> stack_reads spec layers ->
  exists T ops laws v, buildSource F registryByName spec = Ok (mkIter T ops laws v) /\ live v /\ view v = compacted spec layers css.
Proof.
  intros Hreg Hin Hst. destruct (buildTop_ok spec states css layers Hreg Hin Hst) as ([T ops laws v] & Ht & Hr & Hs).
  unfold buildSource. rewrite Ht. cbn [mbind result_bind it_ready it_scan] in *. destruct (seek_ok v InfiniteRange [] false Hr) as (v' & -> & Hl & Hv & _).
  exists T, ops, laws, v'. split; [done|]. split; [done|]. by rewrite Hv.
Qed.

Lemma compacted_sorted spec states css layers :
  registry_ok registryByName -> inputs_hold (Inputs spec) states css -> stack_reads spec layers -> sorted_cells (compacted spec layers css).
Proof.
  intros Hreg Hin Hst. destruct (buildSource_ok spec states css layers Hreg Hin Hst) as (T & ops & laws & v & _ & Hl & <-). by apply view_sorted.
Qed.

(** An unconverged compaction, as far as the writer goes. *)
Lemma compactOnce_ok spec states css layers attempt r :
  formats_ok F -> registry_ok registryByName -> inputs_hold (Inputs spec) states css -> stack_reads spec layers ->
  compactOnce F registryByName spec attempt = Ok r -> written F spec attempt (compacted spec layers css) r.
Proof.
  intros HF Hreg Hin Hst. unfold compactOnce. destruct (buildSource_ok spec states css layers Hreg Hin Hst) as (T & ops & laws & v & -> & Hl & Hv).
  cbn [mbind result_bind]. destruct (drain F spec v attempt) as [v' r'] eqn:Ed. cbn [snd]. intros ->.
  pose proof (bound_ok v Hl) as Hb. rewrite Hv in Hb.
  destruct (drain_ok F live_view (fun _ _ => False) live_yields spec attempt v (compacted spec layers css) None) with (i' := v') (r := r) as (_ & _ & H); try done.
  rewrite <-Hv. by apply view_sorted.
Qed.

Lemma compactOnce_rfile spec states css layers attempt :
  registry_ok registryByName -> inputs_hold (Inputs spec) states css -> stack_reads spec layers ->
  known_format (OutputFormat spec) = true ->
  match RFile.write_file (fm_compression F) (fm_order F) (fm_Marshal F) (output_options spec (ca_label attempt)) (compacted spec layers css) [] with
  | Ok w => compactOnce F registryByName spec attempt = Ok (result_of attempt (compacted spec layers css) (w_out (out w)))
  | Err _ => exists e, compactOnce F registryByName spec attempt = Err e
  end.
Proof.
  intros Hreg Hin Hst Hk. unfold compactOnce. destruct (buildSource_ok spec states css layers Hreg Hin Hst) as (T & ops & laws & v & -> & Hl & Hv).
  cbn [mbind result_bind]. pose proof (bound_ok v Hl) as Hb. rewrite Hv in Hb.
  pose proof (drain_rfile F live_view (fun _ _ => False) live_yields spec attempt v (compacted spec layers css) None) as H.
  specialize (H ltac:(done) ltac:(done) Hb Hk). destruct (RFile.write_file _ _ _ _ _ _) as [w|].
  - by destruct H as (v1 & -> & _).
  - destruct H as (v1 & e1 & ->). by exists e1.
Qed.
End read.

(** ** What is planned, and what is settled *)

Section context.
Context (F : Formats) (registryByName : gmap string iteratorRegistration).

(** An unconverged plan carries the label the inputs agree on. *)
Lemma plan_label spec states attempt evs :
  planConvergence spec states = (inr attempt, evs) ->
  ca_inputs attempt = states /\ ParseTarget (TargetEmbeddingSpace spec) = Ok (ca_target attempt) /\
  match ca_attempt attempt with
  | None => Compatible states = Ok (ca_label attempt) /\
      (evs = [] \/ exists converger req, sp_Converger spec = Some converger /\ evs = [Began req] /\ forall a, converger req <> Ok (Some a))
  | Some a => ca_label attempt = EmbeddingSpace.Has (ca_target attempt) /\
      exists converger req, sp_Converger spec = Some converger /\ converger req = Ok (Some a) /\ evs = [Began req]
  end.
Proof.
  unfold planConvergence. destruct (ParseTarget (TargetEmbeddingSpace spec)) as [target|]; [|done].
  destruct (_ && _); [done|]. destruct (wanted_loop target states false) as [wanted|]; [|done].
  assert (forall evs0, (evs0 = [] \/ exists converger req, sp_Converger spec = Some converger /\ evs0 = [Began req] /\ forall a, converger req <> Ok (Some a)) ->
    (match (match Compatible states with Ok label => inr label | Err e => inl (annotateEmbeddingRefusal (Cause e) states) end : cerr + FileState) with
     | inl e => inl e | inr label => inr (mkAttempt None target (TrimSpace (EmbeddingEpoch spec)) label states) end, evs0) = (inr attempt, evs) ->
    ca_inputs attempt = states /\ Ok target = Ok (ca_target attempt) /\
    match ca_attempt attempt with
    | None => Compatible states = Ok (ca_label attempt) /\
        (evs = [] \/ exists converger req, sp_Converger spec = Some converger /\ evs = [Began req] /\ forall a, converger req <> Ok (Some a))
    | Some a => ca_label attempt = EmbeddingSpace.Has (ca_target attempt) /\
        exists converger req, sp_Converger spec = Some converger /\ converger req = Ok (Some a) /\ evs = [Began req]
    end) as Hun.
  { intros evs0 H0. destruct (Compatible states) as [label|] eqn:El; [|done]. intros [= <- <-]. cbn [ca_inputs ca_target ca_attempt ca_label]. done. }
  destruct (sp_Converger spec) as [converger|] eqn:Ec; [|by apply Hun; left].
  destruct wanted; cbn [negb]; [|by apply Hun; left].
  set (req := mkRequest _ _ _). destruct (converger req) as [[a|]|e] eqn:Eb; [|done|].
  - intros [= <- <-]. cbn [ca_inputs ca_target ca_attempt ca_label]. split; [done|]. split; [done|]. split; [done|]. by exists converger, req.
  - destruct (negb _); [done|]. intros H. destruct (Compatible states) as [label|] eqn:El; [|done]. apply (Hun [Began req]); [|done].
    right. exists converger, req. split; [done|]. split; [done|]. intros a Ha. congruence.
Qed.

Lemma plan_refused spec states e evs :
  planConvergence spec states = (inl e, evs) ->
  evs = [] \/ exists converger req, sp_Converger spec = Some converger /\ evs = [Began req] /\ forall a, converger req <> Ok (Some a).
Proof.
  unfold planConvergence. destruct (ParseTarget _) as [target|]; [|intros [= _ <-]; by left].
  destruct (_ && _); [intros [= _ <-]; by left|]. destruct (wanted_loop _ _ _) as [wanted|]; [|intros [= _ <-]; by left].
  destruct (sp_Converger spec) as [converger|] eqn:Ec; [|intros [= _ <-]; by left].
  destruct wanted; cbn [negb]; [|intros [= _ <-]; by left].
  set (req := mkRequest _ _ _). destruct (converger req) as [[a|]|e0] eqn:Eb; [done|..];
    (intros [= _ <-]; right; exists converger, req; split; [done|]; split; [done|]; intros a Ha; congruence).
Qed.

Lemma preserved_label a fallback :
  preserved a = inr fallback -> ca_attempt fallback = None /\ Compatible (ca_inputs a) = Ok (ca_label fallback).
Proof. unfold preserved. destruct (Compatible (ca_inputs a)) as [label|]; [|done]. by intros [= <-]. Qed.

Lemma drain_converged {I} `{SKVI I} spec (i i' : I) attempt r : drain F spec i attempt = (i', Ok r) -> re_Converged r = active attempt.
Proof.
  unfold drain. case_match.
  - destruct (Parquet.EncodeWithOptions _ _ _ _) as [it [[data n]|]]; [|done]. by intros [= _ <-].
  - case_match; [done|]. destruct (encode_rfile _ _ _ _ _ _ _) as [it [[data n]|]]; [|done]. by intros [= _ <-].
Qed.

Lemma compactOnce_converged spec attempt r : compactOnce F registryByName spec attempt = Ok r -> re_Converged r = active attempt.
Proof.
  unfold compactOnce. destruct (buildSource _ _ _) as [[T ops laws v]|]; [|done]. cbn [mbind result_bind].
  destruct (drain F spec v attempt) as [v' r'] eqn:Ed. cbn [snd]. intros ->. by eapply drain_converged.
Qed.

Lemma compactConverged_converged spec attempt convert r n :
  compactConverged F registryByName spec attempt convert = (Ok r, n) -> re_Converged r = active attempt.
Proof.
  unfold compactConverged. destruct (buildSource _ _ _) as [[T ops laws v]|]; [|done]. destruct (prime _) as [c [e|]]; [done|].
  destruct (drain F spec c attempt) as [c' r'] eqn:Ed. destruct (cv_err c'); [by intros [=]|]. intros [= -> _]. exact (drain_converged spec c c' attempt r Ed).
Qed.

Lemma StronglySorted_sublist {A} (R : A -> A -> Prop) l1 l2 : sublist l1 l2 -> StronglySorted R l2 -> StronglySorted R l1.
Proof.
  induction 1 as [|c l1 l2 Hsub IH|c l1 l2 Hsub IH]; [done|..]; intros [H1 H2]%StronglySorted_inv; [|by apply IH].
  constructor; [by apply IH|]. by eapply sublist_Forall.
Qed.

(** A converged result holds the converted cells. *)
Lemma compactConverged_ok spec states css layers attempt conv r n :
  formats_ok F -> registry_ok registryByName -> inputs_hold F (Inputs spec) states css -> stack_reads registryByName spec layers ->
  compactConverged F registryByName spec attempt conv = (Ok r, n) ->
  exists cells, converted conv 0 (compacted spec layers css) = (cells, None) /\ written F spec attempt cells r.
Proof.
  intros HF Hreg Hin Hst. unfold compactConverged. destruct (buildSource_ok F registryByName spec states css layers Hreg Hin Hst) as (T & ops & laws & v & -> & Hl & Hv).
  unfold prime. pose proof (convert_ok (newConvergingIterator v conv) Hl eq_refl) as Hc. cbn [cv_attempt cv_converted cv_source newConvergingIterator] in Hc.
  rewrite Hv in Hc. destruct (converted conv 0 (compacted spec layers css)) as [cells e] eqn:Ecv. set (c := convert _) in *.
  destruct (decide (cells = [] /\ e <> None)) as [[-> He]|Hne].
  { destruct e as [x|]; [|done]. by rewrite Hc. }
  assert (conv_view c cells e /\ (cells = [] -> e = None)) as [Hcv He].
  { destruct cells as [|d cells]; [|by split]. destruct e; [|by split]. by destruct Hne. }
  clear Hc. rewrite (proj1 Hcv). destruct (drain F spec c attempt) as [c' r'] eqn:Ed. destruct (cv_err c') eqn:Ec'; [by intros [=]|]. intros [= -> _].
  assert (length cells <= bound c /\ sorted_cells cells)%nat as [Hb Hs].
  { pose proof (view_sorted v Hl) as Hsv. pose proof (bound_ok (cv_source c) (proj1 (proj2 Hcv))) as Hb. pose proof Hcv as (_ & _ & Hvw).
    assert (forall n' l, (converted conv n' l).1.*1 `sublist_of` l.*1) as Hsub.
    { intros n' l. revert n'. induction l as [|[k w] l IH]; intros n'; [done|]. cbn [converted]. destruct (conv n' (Some k) (Some w)) as [w'|]; [|by apply sublist_nil_l].
      specialize (IH (S n')). destruct (converted conv (S n') l). cbn in *. by constructor. }
    split.
    - change (bound c) with (bound (cv_source c)). etrans; [|exact Hb]. destruct (view (cv_source c)) as [|[k w] rest]; [by destruct Hvw as [-> _]|].
      destruct Hvw as (w' & _ & -> & _). cbn [length]. apply le_n_S. rewrite <-(length_fmap fst (_).1), <-(length_fmap fst rest). apply sublist_length.
      assert (cv_attempt c = conv) as -> by (unfold c, convert; cbn; repeat case_match; done). apply Hsub.
    - unfold sorted_cells. pose proof (Hsub 0%nat (compacted spec layers css)) as H1. rewrite Ecv in H1. cbn [fst] in H1.
      rewrite Hv in Hsv. unfold sorted_cells in Hsv. eapply StronglySorted_sublist; [exact H1|exact Hsv]. }
  destruct (drain_ok F conv_view conv_end converging_yields spec attempt c cells e Hcv He Hb c' r HF Hs Ed) as (-> & _ & Hw). by exists cells.
Qed.

(** The two ways to succeed. *)
Lemma CompactContext_ok spec states r evs :
  inputEmbeddingSpaces F (Inputs spec) = inr states -> CompactContext F registryByName spec = (inr r, evs) ->
  (exists a, ca_attempt a = None /\ Compatible states = Ok (ca_label a) /\ compactOnce F registryByName spec a = Ok r) \/
  (exists a conv n converger req, sp_Converger spec = Some converger /\ converger req = Ok (Some conv) /\ active a = true /\
     ca_label a = EmbeddingSpace.Has (ca_target a) /\ ParseTarget (TargetEmbeddingSpace spec) = Ok (ca_target a) /\
     compactConverged F registryByName spec a conv = (Ok r, n)).
Proof.
  intros Hin. unfold CompactContext. rewrite Hin.
  destruct (planConvergence spec states) as [[e|attempt] began] eqn:Ep; [done|]. destruct (plan_label _ _ _ _ Ep) as (Hinp & Htar & Hpl).
  assert (forall a, ca_attempt a = None -> Compatible states = Ok (ca_label a) ->
    match verify a with Some e => inl e | None => lift (compactOnce F registryByName spec a) end = inr r ->
    exists a, ca_attempt a = None /\ Compatible states = Ok (ca_label a) /\ compactOnce F registryByName spec a = Ok r) as Hun.
  { intros a Ha Hl. destruct (verify a); [done|]. destruct (compactOnce F registryByName spec a) as [r'|] eqn:Eo; [|done]. intros [= ->]. by exists a. }
  destruct (ca_attempt attempt) as [conv|] eqn:Ea.
  - destruct Hpl as (Hlab & converger & req & Hc & Hb & ->). destruct (verify attempt); [done|].
    destruct (compactConverged F registryByName spec attempt conv) as [[r'|e] n] eqn:Ecv.
    + intros [= -> _]. right. exists attempt, conv, n, converger, req. unfold active. by rewrite Ea.
    + intros H. left. apply (f_equal fst) in H. cbn [fst] in H.
      destruct (errors_Is e ErrConvergenceAborted); [done|]. destruct (preserved attempt) as [|fallback] eqn:Efb; [done|].
      destruct (preserved_label _ _ Efb) as [Hfa Hfl]. rewrite Hinp in Hfl. by apply (Hun fallback).
  - intros H. apply (f_equal fst) in H. left. destruct Hpl as [Hl _]. by apply (Hun attempt).
Qed.
End context.

(** ** Properties *)

Section properties.
Context (F : Formats) (registryByName : gmap string iteratorRegistration).

(** C18: what a compaction publishes is what its label says.  Its output holds
    the cells of the merged inputs with their tombstones and the stack
    applied, with their number and that of their tombstones.  Either they are
    the inputs' own cells, and the label is the space every input was in, or
    unknown; or a converger admitted the compaction, every cell's value was
    converted without an error, and the label is the table's target. *)
Theorem compaction_output spec states css layers r evs :
  formats_ok F -> registry_ok registryByName -> inputs_hold F (Inputs spec) states css -> stack_reads registryByName spec layers ->
  CompactContext F registryByName spec = (inr r, evs) ->
  exists attempt cells, written F spec attempt cells r /\
    ((re_Converged r = false /\ cells = compacted spec layers css /\ Compatible states = Ok (re_EmbeddingSpace r) /\
      (re_EmbeddingSpace r = Unknown \/ Forall (fun s => s = re_EmbeddingSpace r) states)) \/
     (re_Converged r = true /\ exists converger req conv target, sp_Converger spec = Some converger /\ converger req = Ok (Some conv) /\
      converted conv 0 (compacted spec layers css) = (cells, None) /\
      ParseTarget (TargetEmbeddingSpace spec) = Ok target /\ re_EmbeddingSpace r = EmbeddingSpace.Has target)).
Proof.
  intros HF Hreg Hin Hst H. destruct (CompactContext_ok F registryByName spec states r evs (inputEmbeddingSpaces_ok F _ _ _ Hin) H)
    as [(a & Ha & Hl & Ho)|(a & conv & n & converger & req & Hc & Hb & Ha & Hl & Ht & Ho)].
  - pose proof (compactOnce_ok F registryByName _ _ _ _ _ _ HF Hreg Hin Hst Ho) as Hw. exists a, (compacted spec layers css). split; [done|]. left.
    destruct Hw as [Hr _]. rewrite Hr. unfold result_of, active. cbn [re_Converged re_EmbeddingSpace]. rewrite Ha. split; [done|]. split; [done|]. split; [done|].
    destruct (Compatible_label _ _ Hl) as (_ & _ & [->|[_ Hs]]); [by left|by right].
  - destruct (compactConverged_ok F registryByName _ _ _ _ _ _ _ _ HF Hreg Hin Hst Ho) as (cells & Hcells & Hw).
    exists a, cells. split; [done|]. right. destruct Hw as [Hr _]. rewrite Hr. cbn [result_of re_Converged re_EmbeddingSpace].
    split; [done|]. by exists converger, req, conv, (ca_target a).
Qed.

(** A compaction to an RFile that does not converge is total, and is the
    writer's run: it succeeds exactly when the writer takes the merged,
    delete-applied, iterated cells, and otherwise reports an error; no
    converger is called. *)
Theorem compaction_is_the_writer spec states css layers label :
  registry_ok registryByName -> inputs_hold F (Inputs spec) states css -> stack_reads registryByName spec layers ->
  known_format (OutputFormat spec) = true -> TargetEmbeddingSpace spec = [] -> EmbeddingEpoch spec = [] -> Compatible states = Ok label ->
  let cells := compacted spec layers css in
  match RFile.write_file (fm_compression F) (fm_order F) (fm_Marshal F) (output_options spec label) cells [] with
  | Ok w => CompactContext F registryByName spec = (inr (mkResult (w_out (out w)) (len (deleted_cells cells)) (len cells) label false []), [])
  | Err _ => exists e, CompactContext F registryByName spec = (inl (Cause e), [])
  end.
Proof.
  intros Hreg Hin Hst Hk Ht He Hl cells. unfold CompactContext. rewrite (inputEmbeddingSpaces_ok F _ _ _ Hin).
  destruct (Compatible_label _ _ Hl) as (Hval & Hvl & Hsame).
  assert (planConvergence spec states = (inr (mkAttempt None [] [] label states), [])) as ->.
  { unfold planConvergence. rewrite Ht, He. change (ParseTarget []) with (@Ok bytes []). change (TrimSpace []) with (@nil Z). cbn [bool_decide decide_rel decide negb andb].
    assert (wanted_loop [] states false = Ok false) as ->.
    { clear -Hval. induction Hval as [|s states Hs _ IH]; [done|]. cbn [wanted_loop]. unfold PlanConvergence. change (ParseTarget []) with (@Ok bytes []).
      cbn [mbind result_bind]. rewrite Hs. exact IH. }
    rewrite Hl. by destruct (sp_Converger spec). }
  cbn [ca_attempt]. assert (verify (mkAttempt None [] [] label states) = None) as ->.
  { unfold verify. cbn [ca_target ca_label ca_inputs].
    assert (monotonic_loop [] label states = None) as ->; [|by rewrite Hvl].
    assert (Forall (fun s => label = Unknown \/ s = label) states) as Hs.
    { destruct Hsame as [->|[_ H]]; [by apply Forall_forall; left|]. eapply Forall_impl; [exact H|]. tauto. }
    clear -Hval Hvl Hs. induction Hval as [|s states Hv _ IH]; [done|]. apply Forall_cons in Hs as [H1 Hs]. cbn [monotonic_loop].
    rewrite (proj2 (EnsureMonotonic_None [] [] s label eq_refl Hv Hvl)); [by apply IH|]. destruct H1 as [-> | ->]; auto. }
  pose proof (compactOnce_rfile F registryByName spec states css layers (mkAttempt None [] [] label states) Hreg Hin Hst Hk) as H. cbn [ca_label] in H.
  unfold cells. destruct (RFile.write_file _ _ _ _ _ _) as [w|]; [by rewrite H|]. destruct H as (e1 & ->). by exists e1.
Qed.


(** C20: an admitted attempt is settled exactly once, and as converted exactly
    when a converted result is returned; one that was not admitted is never
    settled. *)
Theorem attempt_settled_once spec :
  let '(r, evs) := CompactContext F registryByName spec in
  match evs with
  | [] => True
  | [Began req] => exists converger, sp_Converger spec = Some converger /\ forall a, converger req <> Ok (Some a)
  | [Began req; Ended ok _ _] => (exists converger a, sp_Converger spec = Some converger /\ converger req = Ok (Some a)) /\
      (ok = true <-> exists res, r = inr res /\ re_Converged res = true)
  | _ => False
  end.
Proof.
  unfold CompactContext. destruct (inputEmbeddingSpaces F (Inputs spec)) as [e|states]; [done|].
  destruct (planConvergence spec states) as [[e|attempt] began] eqn:Ep.
  { destruct (plan_refused _ _ _ _ Ep) as [->|(c & req & Hc & -> & Hb)]; [done|]. by exists c. }
  destruct (plan_label _ _ _ _ Ep) as (Hinp & _ & Hpl). destruct (ca_attempt attempt) as [conv|] eqn:Ea.
  - destruct Hpl as (_ & c & req & Hc & Hb & ->). destruct (verify attempt) as [e|].
    { cbn [app]. split; [by exists c, conv|]. split; [done|]. by intros (? & ? & _). }
    destruct (compactConverged F registryByName spec attempt conv) as [[r|e] n] eqn:Ecv; cbn [app]; (split; [by exists c, conv|]).
    + split; [|done]. intros _. exists r. split; [done|]. rewrite (compactConverged_converged _ _ _ _ _ _ _ Ecv). unfold active. by rewrite Ea.
    + split; [done|]. intros (r & Hr & Hcv). destruct (errors_Is e ErrConvergenceAborted); [done|].
      destruct (preserved attempt) as [|fb] eqn:Efb; [done|]. destruct (preserved_label _ _ Efb) as [Hfa _]. destruct (verify fb); [done|].
      destruct (compactOnce F registryByName spec fb) as [r'|] eqn:Eo; [|done]. injection Hr as ->.
      rewrite (compactOnce_converged _ _ _ _ _ Eo) in Hcv. unfold active in Hcv. by rewrite Hfa in Hcv.
  - destruct Hpl as [_ [->|(c & req & Hc & -> & Hb)]]; [done|]. by exists c.
Qed.
End properties.

(** ** Witnesses *)

Definition demo_formats : Formats := mkFormats demo_libraries map_to_list RFile.demo_Marshal RFile.demo_Unmarshal Parquet.toy_library.

Lemma demo_formats_ok : formats_ok demo_formats.
Proof. constructor; [exact demo_libraries_ok|exact (fun m => reflexivity _)|exact RFile.demo_json|exact Parquet.toy_library_ok]. Qed.

Definition demo_cell (row ts : Z) (del : bool) (v : bytes) : Cell := (mkKey [row] [102] [] [] ts del, v).

(** A newer file with a tombstone, an older one with the cell it covers. *)
Definition demo_newer : list Cell := [demo_cell 1 9 true []; demo_cell 2 5 false [20]].
Definition demo_older : list Cell := [demo_cell 1 7 false [10]; demo_cell 3 5 false [30]].

Definition demo_input (label : FileState) (cells : list Cell) : Input :=
  let iter := (Seek InfiniteRange [] false (NewSliceSource cells)).1 in
  mkInput (str "f.parquet") zero_state
    (match (Parquet.EncodeWithOptions Parquet.toy_library RFile.demo_Marshal (Parquet.mkEncodeOptions 0 0 label) iter).2 with Ok (d, _) => d | Err _ => [] end) [].

Definition demo_spec (target format : bytes) (converger : option Converger) : Spec :=
  mkCompaction [demo_input (EmbeddingSpace.Has [97]) demo_newer; demo_input (EmbeddingSpace.Has [97]) demo_older] [] ScopeMajc false false
    CodecNone 0 [] format target [] converger.

(** Converts every value by marking it. *)
Definition demo_converger : Converger := fun _ => Ok (Some (fun _ _ v => Ok (98 :: default [] v))).

Definition demo_states : list FileState := [EmbeddingSpace.Has [97]; EmbeddingSpace.Has [97]].

Lemma demo_inputs_hold target format converger : inputs_hold demo_formats (Inputs (demo_spec target format converger)) demo_states [demo_newer; demo_older].
Proof.
  split; [|done]. cbn [Inputs demo_spec demo_states zip zip_with]. apply Forall2_cons; split; [|apply Forall2_cons; split; [|constructor]]; cbn [fst snd];
    (split; [apply (bool_decide_unpack _); by vm_compute|]); (split; [apply (bool_decide_unpack _); by vm_compute|]);
    (split; [by vm_compute|]); (split; [by left|]); left; (split; [by vm_compute|]); by vm_compute.
Qed.

Lemma demo_stack target format converger : stack_reads base_registry (demo_spec target format converger) [].
Proof. by split. Qed.

Definition demo_result (spec : Spec) : Result :=
  match (CompactContext demo_formats base_registry spec).1 with inr r => r | inl _ => mkResult [] 0 0 Unknown false [] end.

Lemma compaction_output_witness :
  let spec := demo_spec [98] (str "parquet") (Some demo_converger) in
  exists evs, CompactContext demo_formats base_registry spec = (inr (demo_result spec), evs) /\
    re_EmbeddingSpace (demo_result spec) = EmbeddingSpace.Has [98] /\
    Parquet.Decode_cells Parquet.toy_library (Output (demo_result spec)) =
      Ok [demo_cell 1 9 true [98]; demo_cell 2 5 false [98; 20]; demo_cell 3 5 false [98; 30]].
Proof.
  intros spec. set (evs := (CompactContext demo_formats base_registry spec).2). exists evs.
  assert (CompactContext demo_formats base_registry spec = (inr (demo_result spec), evs)) as E by (vm_compute; reflexivity).
  split; [exact E|]. split; [vm_compute; reflexivity|].
  destruct (compaction_output demo_formats base_registry spec demo_states [demo_newer; demo_older] [] _ _ demo_formats_ok base_registry_ok
    (demo_inputs_hold _ _ _) (demo_stack _ _ _) E) as (attempt & cells & Hw & [(Hc & _)|(_ & converger & req & conv & target & Hcv & Hb & Hcells & _)]).
  { assert (re_Converged (demo_result spec) = true) as Ht by (vm_compute; reflexivity). rewrite Ht in Hc. discriminate Hc. }
  injection Hcv as <-. injection Hb as <-. vm_compute in Hcells. injection Hcells as <-.
  destruct Hw as [_ Hw]. change (bool_decide (OutputFormat spec = str "parquet")) with true in Hw. cbv iota in Hw. destruct Hw as (_ & _ & Hd & _). exact Hd.
Defined.

Lemma compaction_is_the_writer_witness :
  let spec := demo_spec [] [] None in
  exists w, RFile.write_file demo_libraries map_to_list RFile.demo_Marshal (output_options spec (EmbeddingSpace.Has [97]))
      [demo_cell 1 9 true []; demo_cell 2 5 false [20]; demo_cell 3 5 false [30]] [] = Ok w /\
    CompactContext demo_formats base_registry spec = (inr (mkResult (w_out (out w)) 1 3 (EmbeddingSpace.Has [97]) false []), []).
Proof.
  intros spec.
  pose proof (compaction_is_the_writer demo_formats base_registry spec demo_states [demo_newer; demo_older] [] (EmbeddingSpace.Has [97]) base_registry_ok
    (demo_inputs_hold _ _ _) (demo_stack _ _ _) eq_refl eq_refl eq_refl ltac:(vm_compute; reflexivity)) as H. cbv zeta in H.
  assert (compacted spec [] [demo_newer; demo_older] = [demo_cell 1 9 true []; demo_cell 2 5 false [20]; demo_cell 3 5 false [30]]) as Hc by (vm_compute; reflexivity).
  rewrite Hc in H. cbn [fm_compression fm_order fm_Marshal demo_formats] in H.
  destruct (RFile.write_file _ _ _ _ _ _) as [w|e] eqn:Ew.
  - exists w. split; [reflexivity|exact H].
  - assert (match RFile.write_file demo_libraries map_to_list RFile.demo_Marshal (output_options spec (EmbeddingSpace.Has [97]))
      [demo_cell 1 9 true []; demo_cell 2 5 false [20]; demo_cell 3 5 false [30]] [] with Ok _ => true | Err _ => false end = true) as Hok by (vm_compute; reflexivity).
    rewrite Ew in Hok. discriminate Hok.
Defined.

