(* ===== verification/Tablet.v ===== *)
(** * Tablet: one range of a table, from its memtable to its files
    (src/internal/tablet/tablet.go, instance.go)

    A tablet is its memtable, its write-ahead log and the generation of
    immutable files it tracks; its directory is a [disk].  The lock makes the
    methods atomic, so they are functions of the tablet and the disk.  What a
    method takes from outside — the clocks, the draw of an instance, whether a
    truncation of the log succeeds, the coins of a fresh skiplist — is an
    argument.  The cache of files and blocks is absent. *)

From stdpp Require Import strings.
From S2P Require Import Prelude Wire GoStd VisFilter Iter IterStack IterLaws Merge Reads Stack Mutation Memtable EmbeddingSpace.
From S2P Require Adjacency LocalWAL RFileShared.
From S2P Require Import RFileSource Store TabletFiles Images.
Import Iter.

(** ** State *)

Record Options := mkOptions {
  FlushThreshold : Z;
  AdjacencyEdgeCF : bytes;
  o_FileFormat : FileFormat;
  DefaultEmbedding : FileState;
  TombstoneRetention : Z;
}.

Record Tablet := mkTablet {
  t_active : skiplistMemtable;
  t_wal : LocalWAL.WAL;
  t_opts : Options;
  t_instance : bytes;
  t_gen : immutableState;
}.

(** The world's part in a call. *)
Record Outside := mkOutside {
  ou_now : clock;
  ou_exportNow : Z;
  ou_drawn : result bytes;
  ou_truncates : bool;
  ou_coins : nat -> bool;
}.

Definition DefaultFlushThreshold : Z := 256000.

Definition set_gen (g : immutableState) (t : Tablet) : Tablet := mkTablet (t_active t) (t_wal t) (t_opts t) (t_instance t) g.
Definition set_wal (w : LocalWAL.WAL) (t : Tablet) : Tablet := mkTablet (t_active t) w (t_opts t) (t_instance t) (t_gen t).
Definition set_active (m : skiplistMemtable) (t : Tablet) : Tablet := mkTablet m (t_wal t) (t_opts t) (t_instance t) (t_gen t).
Definition set_opts (o : Options) (t : Tablet) : Tablet := mkTablet (t_active t) (t_wal t) o (t_instance t) (t_gen t).

Definition ingestMutation (m : Mutation) (sl : skiplistMemtable) : skiplistMemtable := sm_insert_all (Cells m) sl.

(** A truncation that fails leaves the log, with nothing left to sync. *)
Definition wal_Truncate (ok : bool) (w : LocalWAL.WAL) : LocalWAL.WAL * option err :=
  if ok then (LocalWAL.Truncate w, None) else (LocalWAL.set_dirty w false, Some (Fail "localwal: truncate")).

Definition mintInstance (drawn : result bytes) (t : Tablet) : Tablet * result bytes :=
  if not_empty (t_instance t) then (t, Ok (t_instance t))
  else match drawn with
  | Err e => (t, Err (Wrap "tablet: draw name instance" e))
  | Ok instance => (mkTablet (t_active t) (t_wal t) (t_opts t) instance (t_gen t), Ok instance)
  end.

(** The names a new file must avoid. *)
Definition existingNames (g : immutableState) : gset bytes := obsolete g ∪ list_to_set (active g).

Section tablet.
Context (F : Formats) (registryByName : gmap string iteratorRegistration).
Context (Marshal : immutableManifest -> result bytes) (Unmarshal : bytes -> result immutableManifest).

(** ** Flush *)

(** The generation with the flushed file appended as newest. *)
Definition flushed (t : Tablet) (outName instance : bytes) : immutableState :=
  let g := t_gen t in
  mkState (active g ++ [outName]) (obsolete g) (nameHighWater g) (sources g) (absorbed g) (<[outName := instance]> (minted g))
    (exported g) (exportedLineage g)
    (if sm_Deletes (t_active t) =? 0 then {[outName]} ∪ tombstoneFree g else tombstoneFree g) (assumedAt g).

(** The part of [flushLocked] from the write of the file on. *)
Definition publish_flush (x : Outside) (outName data instance : bytes) (t : Tablet) (d : disk) : Tablet * disk * outcome unit :=
  let g := t_gen t in
  let t := set_gen (set_highWater (namesHighWater (nameHighWater g) [outName]) g) t in
  match storage_WriteAll outName data d with
  | (d, Crashed) => (t, d, Crashed)
  | (d, Failed e c) => (t, d, Failed (Wrap "flush: write" e) c)
  | (d, Done _) =>
      let commit := set_active (newSkiplistMemtable (ou_coins x)) (set_gen (flushed t outName instance) t) in
      let '(wal, truncated) := wal_Truncate (ou_truncates x) (t_wal t) in
      match persistImmutableManifest Marshal (flushed t outName instance) d with
      | (d, Crashed) => (t, d, Crashed)
      | (d, Failed e true) => (set_wal wal commit, d, Failed (Wrap "flush: generation committed with cleanup error" e) true)
      | (d, Failed e false) =>
          match removeObject outName d with
          | (d, Crashed) => (t, d, Crashed)
          | (d, _) => (t, d, Failed (Wrap "flush: publish generation" e) false)
          end
      | (d, Done _) =>
          (set_wal wal commit, d,
           match truncated with Some e => Failed (Wrap "flush: truncate wal" e) false | None => Done tt end)
      end
  end.

Definition flushLocked (x : Outside) (t : Tablet) (d : disk) : Tablet * disk * outcome unit :=
  if sm_Len (t_active t) =? 0 then (t, d, Done tt)
  else
    let '(iter, e) := Seek InfiniteRange [] false (sm_Iterator (t_active t)) in
    match e with
    | Some e => (t, d, Failed (Wrap "flush: seek" e) false)
    | None =>
        match (encode F (o_FileFormat (t_opts t)) (AdjacencyEdgeCF (t_opts t)) (DefaultEmbedding (t_opts t)) iter).2 with
        | Err e => (t, d, Failed (Wrap "flush" e) false)
        | Ok (data, _) =>
            let g := t_gen t in
            match freeFlushName d (ou_now x) (nameHighWater g) (extension (o_FileFormat (t_opts t))) (existingNames g) with
            | None => (t, d, Failed OutOfFuel false)
            | Some outName =>
                match mintInstance (ou_drawn x) t with
                | (t, Err e) => (t, d, Failed (Wrap "flush" e) false)
                | (t, Ok instance) => publish_flush x outName data instance t d
                end
            end
        end
    end.

(** ** Writes *)

(** [file], [sync]: what happens to the log's write and its fsync. *)
Definition wal_append (mutations : list Mutation) (file : LocalWAL.write_outcome) (sync : bool) (t : Tablet) : Tablet * option err :=
  let '(w, _, e) := LocalWAL.Append mutations file sync (t_wal t) in
  (set_wal w t, match e with Some e => Some (Wrap "tablet: wal append" e) | None => None end).

Definition ingest (mutations : list Mutation) (t : Tablet) : Tablet :=
  set_active (foldl (fun sl m => ingestMutation m sl) (t_active t) mutations) t.

Definition autoFlush {A} (a : A) (x : Outside) (t : Tablet) (d : disk) : Tablet * disk * outcome A :=
  if sm_Len (t_active t) >=? FlushThreshold (t_opts t) then
    match flushLocked x t d with
    | (t, d, Done _) => (t, d, Done a)
    | (t, d, Failed e c) => (t, d, Failed (Wrap "tablet: auto-flush" e) c)
    | (t, d, Crashed) => (t, d, Crashed)
    end
  else (t, d, Done a).

Definition writeLocked (mutations : list Mutation) (file : LocalWAL.write_outcome) (sync : bool) (x : Outside) (t : Tablet) (d : disk)
  : Tablet * disk * outcome unit :=
  match wal_append mutations file sync t with
  | (t, Some e) => (t, d, Failed e false)
  | (t, None) => autoFlush tt x (ingest mutations t) d
  end.

(** ** Open *)

Definition with_defaults (o : Options) : Options :=
  mkOptions (if FlushThreshold o <=? 0 then DefaultFlushThreshold else FlushThreshold o) (AdjacencyEdgeCF o) (o_FileFormat o)
    (DefaultEmbedding o) (TombstoneRetention o).

(** The format is already one of the two. *)
Definition Open (x : Outside) (mode : LocalWAL.SyncMode) (opts : Options) (d : disk) (walFile : bytes) : result Tablet :=
  let opts := with_defaults opts in
  match (if negb (bool_decide (DefaultEmbedding opts = zero_state)) then EmbeddingSpace.Validate (DefaultEmbedding opts) else None) with
  | Some e => Err (Wrap "tablet: invalid default embedding state" e)
  | None =>
      found ← wrap "tablet: list" (discoverImmutableFiles Unmarshal (ou_exportNow x) d false);
      let wal := LocalWAL.Open walFile mode in
      let '(_, mem, e) := LocalWAL.Replay (fun sl m => Ok (ingestMutation m sl)) (newSkiplistMemtable (ou_coins x)) wal in
      match e with
      | Some e => Err (Wrap "tablet: replay wal" e)
      | None => Ok (mkTablet mem wal opts [] found)
      end
  end.

(** ** Sources and scans *)

Definition newestFirst (files : list bytes) : list bytes := reverse files.

Definition openFile (d : disk) (path : bytes) : result FileSource :=
  data ← storage_ReadAll d path; openFileSource F path data.

Definition sourceWithMem {M} (memIter : M) (t : Tablet) (d : disk) : result (MergingIterator (M + FileSource)) :=
  srcs ← mapM (fun path => wrap "tablet: open" (openFile d path)) (newestFirst (active (t_gen t)));
  Ok (NewMergingIterator (inl memIter :: (inr <$> srcs))).

Definition sourceLocked (t : Tablet) (d : disk) : result (MergingIterator (slIter + FileSource)) :=
  sourceWithMem (sm_Iterator (t_active t)) t d.

(** The memtable copied. *)
Definition SnapshotSource (t : Tablet) (d : disk) : result (MergingIterator (SliceSource + FileSource)) :=
  let '(mem, e) := Seek InfiniteRange [] false (sm_Iterator (t_active t)) in
  match e with
  | Some e => Err e
  | None =>
      let '(cells, _, e) := drain_iter (S (bound mem)) mem in
      match e with
      | Some e => Err e
      | None => sourceWithMem (NewSliceSource cells) t d
      end
  end.

(** The stack over a snapshot, before it is seeked. *)
Definition buildTop (stack : list IterSpec) (env : IteratorEnvironment) (t : Tablet) (d : disk) : result Iterator :=
  merge ← SnapshotSource t d;
  match BuildStack registryByName (mkIter (MergingIterator (SliceSource + FileSource)) _ Merging_Laws merge) stack env with
  | inl _ => Err (Fail "tablet: build stack")
  | inr top => Ok top
  end.

Definition seek_top (r : Range) (cfs : list bytes) (incl : bool) (top : Iterator) : Iterator * option err :=
  let '(mkIter T ops laws v) := top in
  let '(v, e) := Seek r cfs incl v in (mkIter T ops laws v, e).

(** The scanner is the seeked iterator. *)
Definition Scan (r : Range) (cfs : list bytes) (incl : bool) (stack : list IterSpec) (env : IteratorEnvironment) (t : Tablet) (d : disk)
  : result Iterator :=
  if existsb (fun spec => bool_decide (Name spec = "vectorKNN"%string)) stack then
    Err (Fail "vectorKNN requires engine-hosted metadata validation")
  else
    top ← buildTop stack env t d;
    match seek_top r cfs incl top with
    | (_, Some e) => Err (Wrap "tablet: seek" e)
    | (top, None) => Ok top
    end.

(** What a client reads of a scanner: [for sc.Next()], the key and the value,
    [sc.Advance()]. *)
Definition Scanner_cells (sc : Iterator) : result (list Cell) :=
  let '(mkIter T ops laws v) := sc in
  let '(cells, _, e) := drain_iter (S (bound v)) v in
  match e with Some e => Err e | None => Ok cells end.

(** ** Conditional mutations *)

Inductive ConditionKind := ConditionAbsent | ConditionValueEquals | ConditionLatestValueAndTimestampEquals | ConditionUnsupported (kind : Z).
#[export] Instance ConditionKind_eq_dec : EqDecision ConditionKind.
Proof. solve_decision. Defined.

Record Condition := mkCondition {
  cd_ColumnFamily : bytes;
  cd_ColumnQualifier : bytes;
  cd_ColumnVisibility : bytes;
  cd_Timestamp : option Z;
  cd_Kind : ConditionKind;
  cd_Value : bytes;
}.

Record ConditionalMutation := mkConditional { cm_Mutation : Mutation; cm_Conditions : list Condition }.

(** Where the condition's seek starts: before every cell of the coordinate, or
    at the version it names. *)
Definition condition_start (row : bytes) (c : Condition) : Key :=
  let ts := match cd_Timestamp c with
            | Some ts => if bool_decide (cd_Kind c = ConditionLatestValueAndTimestampEquals) then MaxInt64 else ts
            | None => MaxInt64
            end in
  mkKey row (cd_ColumnFamily c) (cd_ColumnQualifier c) (cd_ColumnVisibility c) ts true.

Definition from (k : Key) : Range := mkRange (Some k) true false None false true.

(** The value of the top cell, if it is the one the condition names. *)
Definition condition_cell (row : bytes) (c : Condition) (key : Key) (value : bytes) : option bytes :=
  let sameCoordinate := bytes_Equal (Row key) row && bytes_Equal (ColumnFamily key) (cd_ColumnFamily c) &&
    bytes_Equal (ColumnQualifier key) (cd_ColumnQualifier c) && bytes_Equal (ColumnVisibility key) (cd_ColumnVisibility c) in
  let sameTimestamp := match cd_Timestamp c with None => true | Some ts => Timestamp key =? ts end in
  if sameCoordinate && sameTimestamp && negb (Deleted key) then Some value else None.

(** [key]: the top's, where there is one. *)
Definition condition_holds (c : Condition) (key : option Key) (found : option bytes) : result bool :=
  match cd_Kind c with
  | ConditionAbsent => Ok (negb (bool_decide (is_Some found)))
  | ConditionValueEquals => Ok (match found with Some v => bytes_Equal v (cd_Value c) | None => false end)
  | ConditionLatestValueAndTimestampEquals =>
      Ok (match cd_Timestamp c, found, key with
          | Some ts, Some v, Some k => (Timestamp k =? ts) && bytes_Equal v (cd_Value c)
          | _, _, _ => false
          end)
  | ConditionUnsupported _ => Err (Fail "tablet: unsupported condition kind")
  end.

Fixpoint conditions_loop {I} `{SKVI I} (row : bytes) (conditions : list Condition) (source : I) : result bool :=
  match conditions with
  | [] => Ok true
  | c :: conditions =>
      let '(source, e) := Seek (from (condition_start row c)) [] false source in
      match e with
      | Some e => Err (Wrap "tablet: condition seek" e)
      | None =>
          let '(source, has) := HasTop source in
          let key := if has then GetTopKey source else None in
          let found := match key with Some k => condition_cell row c k (default [] (GetTopValue source)) | None => None end in
          ok ← condition_holds c key found;
          if (ok : bool) then conditions_loop row conditions source else Ok false
      end
  end.

Definition conditionsMatchLocked (row : bytes) (conditions : list Condition) (t : Tablet) (d : disk) : result bool :=
  match conditions with
  | [] => Ok true
  | _ => source ← sourceLocked t d; conditions_loop row conditions source
  end.

(** [logs]: the outcomes of the log's appends, one per mutation applied. *)
Fixpoint conditional_loop (mutations : list ConditionalMutation) (logs : list (LocalWAL.write_outcome * bool)) (results : list bool)
    (t : Tablet) (d : disk) : Tablet * result (list bool) :=
  match mutations with
  | [] => (t, Ok results)
  | m :: mutations =>
      match conditionsMatchLocked (m_row (cm_Mutation m)) (cm_Conditions m) t d with
      | Err e => (t, Err e)
      | Ok false => conditional_loop mutations logs (results ++ [false]) t d
      | Ok true =>
          let '(file, sync) := default (LocalWAL.WriteAll, true) (head logs) in
          match wal_append [cm_Mutation m] file sync t with
          | (t, Some e) => (t, Err e)
          | (t, None) => conditional_loop mutations (tail logs) (results ++ [true]) (ingest [cm_Mutation m] t) d
          end
      end
  end.

Definition ConditionalWrite (mutations : list ConditionalMutation) (logs : list (LocalWAL.write_outcome * bool)) (x : Outside)
    (t : Tablet) (d : disk) : Tablet * disk * outcome (list bool) :=
  match conditional_loop mutations logs [] t d with
  | (t, Err e) => (t, d, Failed e false)
  | (t, Ok results) => autoFlush results x t d
  end.

(** ** Row lookups *)

Definition rowSuccessor (row : bytes) : bytes := row ++ [0].

Definition row_key (row : bytes) : Key := mkKey row [] [] [] 0 false.
Definition row_range (row : bytes) : Range := mkRange (Some (row_key row)) true false (Some (row_key (rowSuccessor row))) false false.

(** The calls of [visit]: the row's position and the cell. *)
Fixpoint lookup_loop {I} `{SKVI I} (order : list (nat * bytes)) (cfs : list bytes) (incl : bool) (top : I) : list (nat * Cell) * option err :=
  match order with
  | [] => ([], None)
  | (idx, row) :: order =>
      let '(top, e) := Seek (row_range row) cfs incl top in
      match e with
      | Some e => ([], Some (Wrap "tablet: lookup seek" e))
      | None =>
          let '(cells, top, e) := drain_iter (S (bound top)) top in
          let visited := pair idx <$> cells in
          match e with
          | Some e => (visited, Some (Wrap "tablet: lookup next" e))
          | None => let '(rest, e) := lookup_loop order cfs incl top in (visited ++ rest, e)
          end
      end
  end.

(** [sort.Slice] leaves the order of equal rows open; it is stable here. *)
Definition lookup_order (rows : list bytes) : list (nat * bytes) :=
  SliceStable (fun a b => bool_decide (bytes_Compare a.2 b.2 = Lt)) (imap pair rows).

Definition LookupRows (rows : list bytes) (cfs : list bytes) (incl : bool) (stack : list IterSpec) (env : IteratorEnvironment)
    (t : Tablet) (d : disk) : list (nat * Cell) * option err :=
  match rows with
  | [] => ([], None)
  | _ =>
      match buildTop stack env t d with
      | Err e => ([], Some e)
      | Ok (mkIter T ops laws top) => lookup_loop (lookup_order rows) cfs incl top
      end
  end.

(** ** Neighbors *)

Abbreviation Edge := Adjacency.Edge.

(** The newest version seen of each column, the first of two live ones with
    the same timestamp. *)
Definition consider (eval : option Evaluator) (winners : gmap (bytes * bytes) Edge) (e : Edge) : option Evaluator * gmap (bytes * bytes) Edge :=
  let '(eval, visible) :=
    match eval with
    | Some ev => let '(ev, v) := VisFilter.Visible ev (Adjacency.Vis e) in (Some ev, v)
    | None => (None, true)
    end in
  if negb visible then (eval, winners)
  else
    let k := (Adjacency.CQ e, Adjacency.Vis e) in
    (eval,
     match winners !! k with
     | Some cur =>
         if (Adjacency.e_Timestamp e >? Adjacency.e_Timestamp cur) || ((Adjacency.e_Timestamp e =? Adjacency.e_Timestamp cur) && Adjacency.e_Deleted e)
         then <[k := e]> winners else winners
     | None => <[k := e]> winners
     end).

Definition cell_edge (c : Cell) : Edge :=
  Adjacency.mkEdge (ColumnQualifier c.1) c.2 (Timestamp c.1) (Deleted c.1) (ColumnVisibility c.1).

(** The edges the scan of the row feeds. *)
Definition scanEdges {I} `{SKVI I} (src : I) (row edgeCF : bytes) : result (list Edge) :=
  match seek_drain (row_range row) [edgeCF] true src with
  | Err e => Err e
  | Ok cells => Ok (cell_edge <$> filter (fun c : Cell => bytes_Equal (ColumnFamily c.1) edgeCF = true) cells)
  end.

Definition sharedForPath (d : disk) (path : bytes) : result RFileShared.SharedFile :=
  data ← storage_ReadAll d path;
  '(_, sf) ← sharedFile F data;
  Ok sf.

(** The edges of every file's index, newest file first; [None] where a file
    has none. *)
Fixpoint indexed_edges (d : disk) (row : bytes) (paths : list bytes) : result (option (list Edge)) :=
  match paths with
  | [] => Ok (Some [])
  | path :: paths =>
      if bool_decide (fileFormat path = FormatParquet) then Ok None
      else
        sf ← wrap "tablet: neighbors open" (sharedForPath d path);
        match RFileShared.SharedFile_Neighbors sf row with
        | None => Ok None
        | Some edges =>
            edges ← edges;
            rest ← indexed_edges d row paths;
            Ok (match rest with Some rest => Some (edges ++ rest) | None => None end)
        end
  end.

Definition edge_less (a b : Edge) : bool :=
  match bytes_Compare (Adjacency.CQ a) (Adjacency.CQ b) with
  | Lt => true
  | Gt => false
  | Eq => is_lt (bytes_Compare (Adjacency.Vis a) (Adjacency.Vis b))
  end.

Definition resolve (eval : option Evaluator) (edges : list Edge) : list Edge :=
  let winners := (foldl (fun '(ev, w) e => consider ev w e) (eval, ∅) edges).2 in
  SliceStable edge_less (filter (fun e => Adjacency.e_Deleted e = false) (map_to_list winners).*2).

Definition Neighbors (row edgeCF : bytes) (env : IteratorEnvironment) (t : Tablet) (d : disk) : result (list Edge) :=
  let eval := match Auths env with
              | Some auths => if bool_decide (Scope env = ScopeScan) then Some (NewEvaluator (NewAuthorizations auths)) else None
              | None => None
              end in
  indexed ← indexed_edges d row (newestFirst (active (t_gen t)));
  match indexed with
  | Some fileEdges =>
      mem ← wrap "tablet: neighbors memtable scan" (scanEdges (sm_Iterator (t_active t)) row edgeCF);
      Ok (resolve eval (mem ++ fileEdges))
  | None =>
      merge ← SnapshotSource t d;
      edges ← wrap "tablet: neighbors scan" (scanEdges merge row edgeCF);
      Ok (resolve eval edges)
  end.

(** ** The rest *)

Definition FileCount (t : Tablet) : Z := len (active (t_gen t)).
Definition RFiles (t : Tablet) : list bytes := active (t_gen t).
Definition MemtableSize (t : Tablet) : Z := sm_Len (t_active t).
Definition RFileLineage (t : Tablet) : list (bytes * bytes) :=
  (fun path => (path, default [] (minted (t_gen t) !! path))) <$> active (t_gen t).

Definition SetFileFormat (format : bytes) (t : Tablet) : Tablet * option err :=
  match ParseFileFormat format with
  | Err e => (t, Some e)
  | Ok f =>
      let o := t_opts t in
      (set_opts (mkOptions (FlushThreshold o) (AdjacencyEdgeCF o) f (DefaultEmbedding o) (TombstoneRetention o)) t, None)
  end.

Definition ErrEmbeddingStateChangeWithUnflushedData : err := Fail "tablet: cannot change default embedding state with unflushed data".

Definition SetDefaultEmbedding (state : FileState) (t : Tablet) : Tablet * option err :=
  match (if negb (bool_decide (state = zero_state)) then EmbeddingSpace.Validate state else None) with
  | Some e => (t, Some e)
  | None =>
      if sm_Len (t_active t) >? 0 then (t, Some (Wrap "unflushed cells" ErrEmbeddingStateChangeWithUnflushedData))
      else
        let o := t_opts t in
        (set_opts (mkOptions (FlushThreshold o) (AdjacencyEdgeCF o) (o_FileFormat o) state (TombstoneRetention o)) t, None)
  end.

Definition EmbeddingStateSnapshot (t : Tablet) (d : disk) : result (list (bytes * FileState) * Z) :=
  states ← mapM (fun path =>
      data ← wrap "tablet: open embedding metadata" (storage_ReadAll d path);
      state ← wrap "tablet: read embedding metadata" (embeddingStateFromImage F path data);
      Ok (path, state)) (active (t_gen t));
  Ok (states, sm_Len (t_active t)).

Definition RefreshFiles (x : Outside) (t : Tablet) (d : disk) : Tablet * disk * outcome Z :=
  match discoverImmutableFiles Unmarshal (ou_exportNow x) d true with
  | Err e => (t, d, Failed (Wrap "tablet: refresh list" e) false)
  | Ok found =>
      let found := if nameHighWater found <? nameHighWater (t_gen t) then set_highWater (nameHighWater (t_gen t)) found else found in
      match persistImmutableManifest Marshal found d with
      | (d, Crashed) => (t, d, Crashed)
      | (d, Failed e c) => (t, d, Failed (Wrap "tablet: refresh manifest" e) c)
      | (d, Done _) => (set_gen found t, d, Done (len (active found)))
      end
  end.

(** A flush that fails is only logged. *)
Definition Close (sync : bool) (x : Outside) (t : Tablet) (d : disk) : Tablet * disk * outcome unit :=
  let '(t, d, o) := if sm_Len (t_active t) >? 0 then flushLocked x t d else (t, d, Done tt) in
  match o with
  | Crashed => (t, d, Crashed)
  | _ =>
      let '(w, e) := LocalWAL.Close sync (t_wal t) in
      (set_wal w t, d, match e with Some e => Failed e false | None => Done tt end)
  end.
End tablet.
