(* ===== verification/TabletOk.v ===== *)
(** * TabletOk: what a tablet serves and what it keeps *)

From stdpp Require Import strings.
From S2P Require Import Prelude Wire GoStd VisFilter Iter Drain IterStack IterLaws Merge Reads History Stack Mutation Memtable EmbeddingSpace.
From S2P Require LocalWAL Parquet Skiplist.
From S2P Require Import RFileSource Store TabletFiles Images Tablet.
Import Iter.

Section tablet.
Context (F : Formats) (registryByName : gmap string iteratorRegistration).
Context (Marshal : immutableManifest -> result bytes) (Unmarshal : bytes -> result immutableManifest).
Context (HF : formats_ok F) (Hreg : registry_ok registryByName) (Hjson : json_manifest_ok Marshal Unmarshal).

(** ** The state of a tablet *)

Definition file_holds (d : disk) (name : bytes) (cs : list Cell) : Prop :=
  exists data label, objects d !! name = Some data /\ image F name data label cs.

(** The memtable's cells, in order. *)
Definition mem_cells (t : Tablet) : list Cell := Skiplist.contents (to_skiplist (t_active t)).

(** The cells of the sources, newest first; [css]: those of the files. *)
Definition cells_of (t : Tablet) (css : list (list Cell)) : list (list Cell) := mem_cells t :: reverse css.

(** The generation's files are on the disk and hold [css], oldest first. *)
Record tracked (g : immutableState) (d : disk) (css : list (list Cell)) : Prop := {
  tr_state : state_ok g d;
  tr_files : Forall2 (file_holds d) (active g) css;
  tr_high : 0 <= nameHighWater g;
}.

Record holds (t : Tablet) (d : disk) (css : list (list Cell)) : Prop := {
  ho_mem : sm_ok (t_active t);
  ho_len : sm_Len (t_active t) = len (mem_cells t);
  ho_files : tracked (t_gen t) d css;
}.

Lemma mem_sorted t : sm_ok (t_active t) -> sorted_cells (mem_cells t).
Proof. intros [[ch Hs] _]. exact (Skiplist.contents_sorted _ ch Hs). Qed.

Lemma cells_of_sorted t d css : holds t d css -> Forall sorted_cells (cells_of t css).
Proof.
  intros [Hm _ [_ Hf _]]. constructor; [by apply mem_sorted|]. apply Forall_reverse.
  eapply Forall2_Forall_r; [exact Hf|]. apply Forall_forall. intros n _ cs (data & label & _ & _ & Hs & _). exact Hs.
Qed.

Lemma mem_Iterator_ok t : sm_ok (t_active t) ->
  ready (sm_Iterator (t_active t)) /\
  forall r cfs incl, scan (sm_Iterator (t_active t)) r cfs incl = filter (fun c => Contains r c.1 = true) (mem_cells t).
Proof. intros [Hwf _]. split; [by exists (to_skiplist (t_active t))|done]. Qed.

Lemma mem_all t : sm_ok (t_active t) -> scan (sm_Iterator (t_active t)) InfiniteRange [] false = mem_cells t.
Proof. intros Hm. rewrite (proj2 (mem_Iterator_ok t Hm)). apply filter_all, Forall_forall. done. Qed.

(** Inserting cells puts them above those the memtable has. *)
Lemma mem_inserted t cells :
  sm_ok (t_active t) -> sm_Len (t_active t) = len (mem_cells t) ->
  let t' := set_active (sm_insert_all cells (t_active t)) t in
  sm_ok (t_active t') /\ sm_Len (t_active t') = len (mem_cells t') /\
  forall k, at_key k (mem_cells t') = reverse (at_key k cells) ++ at_key k (mem_cells t).
Proof.
  intros Hm Hl t'. destruct (sm_insert_all_refines cells _ Hm) as [Href Hok]. split; [exact Hok|].
  unfold mem_cells. change (t_active t') with (sm_insert_all cells (t_active t)). rewrite Href.
  destruct (Skiplist.insert_all_contents cells _ (proj1 Hm)) as [Hp Hk]. split; [|exact Hk].
  rewrite (proj1 (sm_counts cells _)), Hl. unfold len. rewrite (Permutation_length Hp), length_app. unfold mem_cells. lia.
Qed.

(** ** Sources *)

(** The ranges a stack may ask of the files are not taken for a row. *)
Definition fair_range (css : list (list Cell)) (r : Range) : Prop :=
  forall n, Forall (Parquet.fair (Nat.iter n maximize_start r)) css.

Lemma fair_range_maximize css r : fair_range css r -> fair_range css (maximize_start r).
Proof. intros H n. rewrite <-Nat.iter_succ_r. apply H. Qed.

Lemma fair_range_all css : fair_range css InfiniteRange.
Proof.
  intros n. assert (Nat.iter n maximize_start InfiniteRange = InfiniteRange) as -> by (induction n as [|n IH]; [done|by rewrite Nat.iter_succ, IH]).
  apply Forall_forall. intros cs _ H. by vm_compute in H.
Qed.

Lemma fair_range_open css r : End_ r = None -> fair_range css r.
Proof.
  intros He n. assert (forall n, End_ (Nat.iter n maximize_start r) = None) as H.
  { induction n0 as [|k IH]; [done|]. rewrite Nat.iter_succ. unfold maximize_start at 1. destruct (Start _); [|done]. by destruct (InfiniteStart _). }
  apply Forall_forall. intros cs _ row. unfold Parquet.singleRow. rewrite (H n). by destruct (Start _).
Qed.

Lemma openFile_ok d name cs : file_holds d name cs -> exists x, openFile F d name = Ok x /\ leaf_over x cs.
Proof.
  intros (data & label & Hd & _ & _ & (x & Hx & Hl) & _). unfold openFile, storage_ReadAll. rewrite Hd. cbn [mbind result_bind]. eauto.
Qed.

(** The merge over the files and a memtable's iterator. *)
Lemma sourceWithMem_ok {M} `{SKVILaws M} (mem : M) (mcells : list Cell) t d css :
  Forall2 (file_holds d) (active (t_gen t)) css -> ready mem ->
  exists m, sourceWithMem F mem t d = Ok m /\ ready m /\
    forall r cfs incl, scan mem r cfs incl = in_range r cfs incl mcells -> fair_range css r ->
      scan m r cfs incl = merge_scan (mcells :: reverse css) r cfs incl.
Proof.
  intros Hf Hr. unfold sourceWithMem, newestFirst.
  assert (forall names css', Forall2 (file_holds d) names css' ->
    exists srcs, mapM (fun path => wrap "tablet: open" (openFile F d path)) names = Ok srcs /\ Forall2 (fun x cs => leaf_over x cs) srcs css') as Hopen.
  { induction 1 as [|n cs names css' Hn _ (srcs & E & Hs)]; [by exists []|]. destruct (openFile_ok _ _ _ Hn) as (x & Hx & Hl).
    exists (x :: srcs). split; [|by constructor]. cbn [mapM]. rewrite Hx. cbn [wrap mbind result_bind]. by rewrite E. }
  destruct (Hopen _ _ (Forall2_reverse _ _ _ Hf)) as (srcs & -> & Hs). cbn [mbind result_bind]. eexists. split; [done|]. split.
  - cbn [ready Merging_Laws NewMergingIterator mi_sources]. constructor; [exact Hr|]. apply Forall_fmap.
    eapply Forall2_Forall_l; [exact Hs|]. apply Forall_forall. intros cs _ x [Hx _]. exact Hx.
  - intros r cfs incl Hsc Hfair. cbn [scan Merging_Laws NewMergingIterator]. unfold mi_scan, merge_scan. cbn [mi_sources fmap list_fmap].
    apply (f_equal merge_all). apply (f_equal2 cons); [exact Hsc|]. specialize (Hfair O). cbn [Nat.iter nat_rect] in Hfair. apply (Forall_reverse _ _) in Hfair.
    revert Hfair. clear -Hs. induction Hs as [|x cs srcs css' [_ Hx] _ IH]; intros Hfair; [done|]. apply Forall_cons in Hfair as [H1 H2].
    cbn [fmap list_fmap]. f_equal; [|by apply IH]. cbn [scan sum_Laws]. by apply Hx.
Qed.

Lemma SnapshotSource_ok t d css :
  holds t d css ->
  exists m, SnapshotSource F t d = Ok m /\ ready m /\
    forall r cfs incl, fair_range css r -> scan m r cfs incl = merge_scan (cells_of t css) r cfs incl.
Proof.
  intros [Hm _ [_ Hf _]]. unfold SnapshotSource. destruct (mem_Iterator_ok t Hm) as [Hr _].
  destruct (seek_ok _ InfiniteRange [] false Hr) as (i & -> & Hl & Hv & _). cbv iota beta. rewrite mem_all in Hv by done.
  destruct (drain_iter_spec (S (bound i)) i Hl) as (i' & -> & _); [pose proof (bound_ok i Hl); lia|]. rewrite Hv. cbv iota beta.
  assert (ready (NewSliceSource (mem_cells t))) as Hrs by exact (mem_sorted t Hm).
  destruct (sourceWithMem_ok (NewSliceSource (mem_cells t)) (mem_cells t) t d css Hf Hrs) as (m & Hs & Hrm & Hsc).
  exists m. split; [done|]. split; [done|]. intros r cfs incl. by apply Hsc.
Qed.

(** The memtable's own iterator does not ask about families. *)
Lemma sourceLocked_ok t d css :
  holds t d css ->
  exists m, sourceLocked F t d = Ok m /\ ready m /\
    forall r, fair_range css r -> scan m r [] false = merge_scan (cells_of t css) r [] false.
Proof.
  intros [Hm _ [_ Hf _]]. destruct (mem_Iterator_ok t Hm) as [Hr Hs].
  destruct (sourceWithMem_ok (sm_Iterator (t_active t)) (mem_cells t) t d css Hf Hr) as (m & Hso & Hrm & Hsc).
  exists m. split; [done|]. split; [done|]. intros r. apply Hsc. rewrite Hs. unfold in_range. apply list_filter_iff. intros c.
  unfold in_seek, cfAllowed. cbn [existsb negb]. by rewrite andb_true_r.
Qed.

Lemma tablet_top_ok stack layers env t d css :
  holds t d css -> ValidateStack registryByName 0 stack (ContextFromScope (Scope env)) = Some [] -> mapM (read_layer env) stack = Some layers ->
  exists top, Tablet.buildTop F registryByName stack env t d = Ok top /\ it_ready top /\
    forall r cfs incl, fair_range css r -> it_scan top r cfs incl = denote layers (merge_scan (cells_of t css)) r cfs incl.
Proof.
  intros Hh Hv Hl. unfold Tablet.buildTop. destruct (SnapshotSource_ok t d css Hh) as (m & -> & Hr & Hsc). cbn [mbind result_bind].
  destruct (BuildStack_denotes registryByName env stack layers (mkIter _ _ Merging_Laws m) Hreg Hv Hl Hr) as (top & -> & Ht & Hs).
  exists top. split; [done|]. split; [done|]. intros r cfs incl Hf. rewrite Hs. cbn [it_scan].
  apply (denote_agree (fair_range css)); [apply fair_range_maximize|exact Hsc|exact Hf].
Qed.

(** A positioned iterator, and what it has yet to surface. *)
Definition it_live (i : Iterator) : Prop := let '(mkIter T ops laws v) := i in live v.
Definition it_view (i : Iterator) : list Cell := let '(mkIter T ops laws v) := i in view v.

Lemma live_cells sc : it_live sc -> Scanner_cells sc = Ok (it_view sc).
Proof.
  destruct sc as [T ops laws v]. cbn [it_live it_view]. intros Hl. unfold Scanner_cells.
  destruct (drain_iter_spec (S (bound v)) v Hl) as (i' & -> & _); [pose proof (bound_ok v Hl); lia|done].
Qed.

Lemma Scan_live r cfs incl stack layers env t d css :
  holds t d css -> Forall (fun spec => Name spec <> "vectorKNN"%string) stack ->
  ValidateStack registryByName 0 stack (ContextFromScope (Scope env)) = Some [] -> mapM (read_layer env) stack = Some layers ->
  fair_range css r ->
  exists sc, Scan F registryByName r cfs incl stack env t d = Ok sc /\ it_live sc /\
    it_view sc = denote layers (merge_scan (cells_of t css)) r cfs incl /\ sorted_cells (it_view sc).
Proof.
  intros Hh Hk Hv Hl Hf. unfold Scan. destruct (existsb _ stack) eqn:Ex.
  { apply existsb_exists in Ex as (spec & Hin & E%bool_decide_eq_true). rewrite Forall_forall in Hk. by destruct (Hk spec); [apply list_elem_of_In|]. }
  destruct (tablet_top_ok stack layers env t d css Hh Hv Hl) as ([T ops laws v] & -> & Hr & Hs). cbn [mbind result_bind it_ready it_scan seek_top] in *.
  destruct (seek_ok v r cfs incl Hr) as (v' & -> & Hl' & Hv' & _). eexists. split; [done|]. cbn [it_live it_view].
  rewrite Hv', <-Hs by done. split; [done|]. split; [done|]. by apply scan_sorted.
Qed.

Lemma Scan_ok r cfs incl stack layers env t d css :
  holds t d css -> Forall (fun spec => Name spec <> "vectorKNN"%string) stack ->
  ValidateStack registryByName 0 stack (ContextFromScope (Scope env)) = Some [] -> mapM (read_layer env) stack = Some layers ->
  fair_range css r ->
  exists sc, Scan F registryByName r cfs incl stack env t d = Ok sc /\
    Scanner_cells sc = Ok (denote layers (merge_scan (cells_of t css)) r cfs incl) /\
    sorted_cells (denote layers (merge_scan (cells_of t css)) r cfs incl).
Proof.
  intros Hh Hk Hv Hl Hf. destruct (Scan_live r cfs incl stack layers env t d css Hh Hk Hv Hl Hf) as (sc & HS & Hlive & E & Hso).
  exists sc. split; [done|]. by rewrite live_cells, <-E.
Qed.

(** ** Flush *)

(** Writes that fail say so when they have committed. *)
Definition honest (d : disk) : Prop := Forall (fun f => f <> WrittenUnmarked) (faults d).

Lemma write_honest after d d' r :
  honest d -> write_objects after d = (d', r) ->
  honest d' /\
  ((objects d' = objects d /\ (r = Failed ErrStorage false \/ r = Crashed)) \/
   (objects d' = after /\ (r = Done tt \/ r = Failed ErrStorage true \/ r = Crashed))).
Proof.
  unfold honest, write_objects, next_fault. intros Hh. destruct (faults d) as [|f fs].
  { intros [= <- <-]. split; [by constructor|]. right. auto. }
  apply Forall_cons in Hh as [Hf Hfs]. destruct f; intros [= <- <-]; (split; [exact Hfs|]); cbn [objects]; auto 6. done.
Qed.

(** Data files stay. *)
Definition keeps (d d' : disk) : Prop :=
  forall name data, is_data_file name = true -> objects d !! name = Some data -> objects d' !! name = Some data.

Lemma file_holds_keeps d d' name cs : keeps d d' -> is_data_file name = true -> file_holds d name cs -> file_holds d' name cs.
Proof. intros Hk Hn (data & label & Hd & Hi). exists data, label. split; [by apply Hk|done]. Qed.

Lemma tracked_keeps g d d' css : keeps d d' -> tracked g d css -> tracked g d' css.
Proof.
  intros Hk [[Hnd Hp H1 H2 H3 H4] Hf Hh]. split; [split; try done| |done].
  - eapply Forall_impl; [exact Hp|]. intros n [[data Hn] Hdf]. split; [|done]. exists data. by apply Hk.
  - clear -Hk Hp Hf. induction Hf as [|n cs names css Hn _ IH]; [constructor|]. apply Forall_cons in Hp as [[_ Hdf] Hp].
    constructor; [by eapply file_holds_keeps|by apply IH].
Qed.

Lemma keeps_manifest d d' data : objects d' = <[manifest_name := data]> (objects d) -> keeps d d'.
Proof. intros E name v Hn Hv. rewrite E, lookup_insert_ne; [done|]. intros <-. by rewrite is_data_file_manifest in Hn. Qed.

Lemma keeps_refl d d' : objects d' = objects d -> keeps d d'.
Proof. intros E n v _. by rewrite E. Qed.

(** The disk, perhaps with one more data file, of the given cells. *)
Definition grown (d d' : disk) (cs : list Cell) : Prop :=
  objects d' = objects d \/
  exists name data label, objects d !! name = None /\ is_data_file name = true /\ image F name data label cs /\
    objects d' = <[name := data]> (objects d).

Lemma grown_keeps d d' cs : grown d d' cs -> keeps d d'.
Proof.
  intros [E|(name & data & label & Hn & _ & _ & E)]; [by apply keeps_refl|]. intros n v _ Hv. rewrite E, lookup_insert_ne; [done|]. intros ->. congruence.
Qed.

Lemma grown_manifest d d' cs : grown d d' cs -> objects d' !! manifest_name = objects d !! manifest_name.
Proof.
  intros [E|(name & data & label & _ & Hdf & _ & E)]; [by rewrite E|]. rewrite E, lookup_insert_ne; [done|]. intros ->.
  by rewrite is_data_file_manifest in Hdf.
Qed.

(** The manifest on the disk names files that hold [css]. *)
Definition published (d : disk) (css : list (list Cell)) : Prop :=
  exists g data, objects d !! manifest_name = Some (data ++ [10]) /\ Marshal (manifest_of g) = Ok data /\ tracked g d css.

Lemma published_grown d d' cs css : grown d d' cs -> published d css -> published d' css.
Proof.
  intros Hg (g & data & Hd & Hm & Ht). exists g, data. rewrite (grown_manifest _ _ _ Hg). split_and!; [done..|].
  by eapply tracked_keeps, Ht; eapply grown_keeps.
Qed.

(** *** Names *)

Lemma Ext_app a b : b <> [] -> Ext_loop (reverse b) [] = b -> Ext (a ++ b) = b.
Proof.
  intros Hb. unfold Ext. rewrite reverse_app.
  assert (forall r s t, Ext_loop r s <> [] -> Ext_loop (r ++ t) s = Ext_loop r s) as H.
  { intros r. induction r as [|c r IH]; intros s t; cbn [Ext_loop app]; [by intros []|]. destruct (c =? 46); [done|]. apply IH. }
  intros E. by rewrite H; rewrite E.
Qed.

Lemma Ext_extension a f : Ext (a ++ extension f) = extension f.
Proof. apply Ext_app; by destruct f. Qed.

Lemma fileFormat_extension a f : fileFormat (a ++ extension f) = f.
Proof. unfold fileFormat. rewrite Ext_extension. by destruct f. Qed.

Lemma is_data_file_extension a f : is_data_file (a ++ extension f) = true.
Proof. unfold is_data_file. rewrite Ext_extension. by destruct f. Qed.

(** *** The flush *)

Record outside_ok (x : Outside) : Prop := {
  oo_drawn i : ou_drawn x = Ok i -> i <> [];
  oo_now : 0 < ou_exportNow x;
}.

(** The memtable is within the limits of the format it is flushed to. *)
Definition flushable (t : Tablet) : Prop :=
  o_FileFormat (t_opts t) = FormatRFile -> storable F (AdjacencyEdgeCF (t_opts t)) (DefaultEmbedding (t_opts t)) (mem_cells t).

(** Nothing left the memtable. *)
Record kept (t : Tablet) (d : disk) (t' : Tablet) (d' : disk) (css : list (list Cell)) : Prop := {
  ke_active : t_active t' = t_active t;
  ke_wal : t_wal t' = t_wal t;
  ke_disk : grown d d' (mem_cells t);
  ke_holds : holds t' d' css;
}.

(** The memtable's cells are the newest file's. *)
Record moved (x : Outside) (t : Tablet) (t' : Tablet) (d' : disk) (css : list (list Cell)) : Prop := {
  mo_active : t_active t' = newSkiplistMemtable (ou_coins x);
  mo_wal : t_wal t' = (wal_Truncate (ou_truncates x) (t_wal t)).1;
  mo_disk : published d' (css ++ [mem_cells t]);
  mo_holds : holds t' d' (css ++ [mem_cells t]);
}.

Lemma kept_refl t d css : holds t d css -> kept t d t d css.
Proof. intros H. split; [done|done|by left|done]. Qed.

Lemma newSkiplist_cells coins : Skiplist.contents (to_skiplist (newSkiplistMemtable coins)) = [].
Proof. done. Qed.

(** The generation a flush publishes. *)
Lemma flushed_tracked t d css name data label instance d' :
  holds t d css -> objects d !! name = None -> name ∉ existingNames (t_gen t) -> is_data_file name = true -> instance <> [] ->
  objects d' = <[name := data]> (objects d) -> image F name data label (mem_cells t) ->
  tracked (flushed t name instance) d' (css ++ [mem_cells t]).
Proof.
  intros Hh Hn Hex Hdf Hi E Him. assert (keeps d d') as Hk.
  { apply (grown_keeps d d' (mem_cells t)). right. by exists name, data, label. }
  destruct (tracked_keeps _ _ _ _ Hk (ho_files _ _ _ Hh)) as [[Hnd Hp H1 H2 H3 H4] Hf Hhw].
  assert (name ∉ active (t_gen t)) as Hna.
  { intros Hin. apply Hex. unfold existingNames. apply elem_of_union_r, elem_of_list_to_set, Hin. }
  split; [split|..]; cbn [flushed active sources minted exported tombstoneFree nameHighWater].
  - apply NoDup_app. split; [done|]. split; [|by apply NoDup_singleton]. intros n Hin ->%list_elem_of_singleton. done.
  - apply Forall_app. split; [exact Hp|]. constructor; [|constructor]. by rewrite E, lookup_insert_eq.
  - intros n s Hs. destruct (H1 n s Hs). split; [by apply elem_of_app; left|done].
  - intros n s [[-> <-]|[Hne Hs]]%lookup_insert_Some; [split; [by apply elem_of_app; right; apply list_elem_of_singleton|done]|].
    destruct (H2 n s Hs). split; [by apply elem_of_app; left|done].
  - intros n s Hs. destruct (H3 n s Hs). split; [by apply elem_of_app; left|done].
  - intros n. case_match; intros Hin; apply elem_of_app; [apply elem_of_union in Hin as [->%elem_of_singleton|Hin]; [by right; apply list_elem_of_singleton|]|];
      left; by apply H4.
  - apply Forall2_app; [exact Hf|]. constructor; [|constructor]. exists data, label. by rewrite E, lookup_insert_eq.
  - exact Hhw.
Qed.

(** How a flush ends: nothing moved, the cells moved, or a crash after the
    generation was published. *)
Definition flush_ends (x : Outside) (t : Tablet) (d : disk) (css : list (list Cell)) (t' : Tablet) (d' : disk) (crashed : Prop) : Prop :=
  honest d' /\ t_opts t' = t_opts t /\
  (kept t d t' d' css \/ moved x t t' d' css \/ (crashed /\ t_wal t' = t_wal t /\ published d' (css ++ [mem_cells t]))).

Lemma holds_highWater t d css hw : nameHighWater (t_gen t) <= hw -> holds t d css -> holds (set_gen (set_highWater hw (t_gen t)) t) d css.
Proof.
  intros Hhw [Hm Hl [[Hnd Hp H1 H2 H3 H4] Hf Hh]]. split; [done|done|]. split; [by split|done|]. cbn [set_gen t_gen set_highWater nameHighWater]. lia.
Qed.

Lemma holds_grown t d d' css cs : grown d d' cs -> holds t d css -> holds t d' css.
Proof. intros Hg [Hm Hl Ht]. split; [done..|]. eapply tracked_keeps, Ht. by eapply grown_keeps. Qed.

Lemma kept_grown t t1 d d1 css cs :
  t_active t1 = t_active t -> t_wal t1 = t_wal t -> holds t1 d css -> grown d d1 cs -> cs = mem_cells t -> kept t d t1 d1 css.
Proof. intros E1 E2 Hh Hg ->. split; [done|done|done|]. by eapply holds_grown. Qed.

Lemma publish_flush_ok x t d css name data label instance t' d' o :
  honest d -> holds t d css -> objects d !! name = None -> name ∉ existingNames (t_gen t) -> is_data_file name = true -> instance <> [] ->
  image F name data label (mem_cells t) -> publish_flush Marshal x name data instance t d = (t', d', o) ->
  flush_ends x t d css t' d' (o = Crashed).
Proof.
  intros Hhon Hh0 Hn Hex Hdf Hi Him. unfold publish_flush. cbv zeta.
  set (t1 := set_gen _ t). assert (holds t1 d css) as Hh by (apply holds_highWater; [apply namesHighWater_ge|done]).
  assert (forall d1, grown d d1 (mem_cells t) -> kept t d t1 d1 css) as Hkept by (intros d1 Hg; by eapply kept_grown).
  destruct (storage_WriteAll name data d) as [d1 r1] eqn:E1. destruct (write_honest _ _ _ _ Hhon E1) as [Hhon1 Hc1].
  assert (forall d1, objects d1 = <[name := data]> (objects d) -> grown d d1 (mem_cells t)) as Hgrow.
  { intros d2 E. right. by exists name, data, label. }
  destruct Hc1 as [[Eo [-> | ->]]|[Eo [-> | [-> | ->]]]].
  1,2: intros [= <- <- <-]; split; [done|]; split; [done|]; left; apply Hkept; by left.
  2,3: intros [= <- <- <-]; split; [done|]; split; [done|]; left; apply Hkept; by apply Hgrow.
  assert (holds t1 d1 css) as Hh1 by (eapply holds_grown; [by apply Hgrow|done]).
  pose proof (flushed_tracked t1 d css name data label instance d1 Hh Hn Hex Hdf Hi Eo Him) as Htr.
  destruct (wal_Truncate (ou_truncates x) (t_wal t1)) as [wal truncated] eqn:Ew.
  set (commit := set_active _ _).
  assert (forall d2 mdata, Marshal (manifest_of (flushed t1 name instance)) = Ok mdata ->
    objects d2 = <[manifest_name := mdata ++ [10]]> (objects d1) ->
    published d2 (css ++ [mem_cells t]) /\ moved x t (set_wal wal commit) d2 css) as Hmoved.
  { intros d2 mdata Hm E2. assert (tracked (flushed t1 name instance) d2 (css ++ [mem_cells t])) as Ht2.
    { eapply tracked_keeps, Htr. by eapply keeps_manifest. }
    assert (published d2 (css ++ [mem_cells t])) as Hp by (exists (flushed t1 name instance), mdata; by rewrite E2, lookup_insert_eq).
    split; [exact Hp|]. split; [done| |exact Hp|].
    - change (t_wal t) with (t_wal t1). by rewrite Ew.
    - split; [exact (sm_new_ok (ou_coins x))|done|exact Ht2]. }
  assert (forall d2 e r, honest d2 -> objects d2 = objects d1 ->
    match removeObject name d2 with
    | (d3, Crashed) => (t1, d3, @Crashed unit)
    | (d3, _) => (t1, d3, Failed (Wrap "flush: publish generation" e) false)
    end = r -> r = (t', d', o) -> flush_ends x t d css t' d' (o = Crashed)) as Hrm.
  { intros d2 e r Hhon2 E2 Hr ->. unfold removeObject in Hr. rewrite E2, Eo, lookup_insert_eq, delete_insert_id in Hr by done.
    destruct (write_objects (objects d) d2) as [d3 r3] eqn:E3. destruct (write_honest _ _ _ _ Hhon2 E3) as [Hhon3 Hc3].
    assert (kept t d t1 d3 css) as Hk.
    { apply Hkept. destruct Hc3 as [[E _]|[E _]]; [apply Hgrow; congruence|by left]. }
    assert (t' = t1 /\ d' = d3) as [-> ->] by (destruct r3; by injection Hr as <- <- <-). split; [done|]. split; [done|]. by left. }
  unfold persistImmutableManifest. destruct (Marshal (manifest_of (flushed t1 name instance))) as [mdata|em] eqn:Em.
  2: { intros H. by eapply Hrm; [| |exact H|]. }
  destruct (storage_WriteAll manifest_name (mdata ++ [10]) d1) as [d2 r2] eqn:E2. destruct (write_honest _ _ _ _ Hhon1 E2) as [Hhon2 Hc2].
  destruct Hc2 as [[Eo2 [-> | ->]]|[Eo2 [-> | [-> | ->]]]].
  - intros H. by eapply Hrm; [| |exact H|].
  - intros [= <- <- <-]. split; [done|]. split; [done|]. left. apply Hkept. apply Hgrow. congruence.
  - intros [= <- <- <-]. split; [done|]. split; [done|]. right. left. by apply (Hmoved _ mdata).
  - intros [= <- <- <-]. split; [done|]. split; [done|]. right. left. by apply (Hmoved _ mdata).
  - intros [= <- <- <-]. split; [done|]. split; [done|]. right. right. split; [done|]. split; [done|]. by apply (Hmoved _ mdata).
Qed.

Lemma set_instance_holds t d css i : holds t d css -> holds (mkTablet (t_active t) (t_wal t) (t_opts t) i (t_gen t)) d css.
Proof. by intros []. Qed.

Lemma mintInstance_ok drawn t t' i :
  (forall i, drawn = Ok i -> i <> []) -> mintInstance drawn t = (t', Ok i) ->
  i <> [] /\ t' = mkTablet (t_active t) (t_wal t) (t_opts t) i (t_gen t).
Proof.
  intros Hd. unfold mintInstance, not_empty. destruct t as [a w op inst g]; cbn [t_instance t_active t_wal t_opts t_gen]. case_bool_decide; cbn [negb].
  - destruct drawn as [j|]; intros [= <- <-]. split; [by apply Hd|done].
  - by intros [= <- <-].
Qed.

Lemma mintInstance_err drawn t t' e : mintInstance drawn t = (t', Err e) -> t' = t.
Proof. unfold mintInstance. destruct (not_empty _); [done|]. by destruct drawn; intros [= <- _]. Qed.

Lemma flushLocked_ok x t d css t' d' o :
  outside_ok x -> honest d -> holds t d css -> flushable t ->
  flushLocked F Marshal x t d = (t', d', o) -> flush_ends x t d css t' d' (o = Crashed).
Proof.
  intros Hx Hhon Hh Hst. assert (flush_ends x t d css t d (o = Crashed)) as Hsame.
  { split; [done|]. split; [done|]. left. by apply kept_refl. }
  unfold flushLocked. destruct (sm_Len (t_active t) =? 0); [by intros [= <- <- <-]|].
  destruct (mem_Iterator_ok t (ho_mem _ _ _ Hh)) as [Hr _].
  destruct (seek_ok _ InfiniteRange [] false Hr) as (i & -> & Hl & Hv & _). rewrite mem_all in Hv by apply Hh. cbv iota beta.
  destruct (encode F _ _ _ i) as [it [[data n]|e]] eqn:Ee; cbn [snd]; [|by intros [= <- <- <-]].
  set (f := o_FileFormat (t_opts t)) in *.
  destruct (freeFlushName_ok d (ou_now x) (nameHighWater (t_gen t)) (extension f) (existingNames (t_gen t)) (tr_high _ _ _ (ho_files _ _ _ Hh)))
    as (ms & -> & _ & Hex & Hn).
  destruct (live_drains i Hl) as (i' & Hd & _). pose proof (bound_ok i Hl) as Hb.
  destruct (encode_image F (flush_name ms (extension f)) _ _ _ _ _ _ _ _ _ _ HF Hd Hb (view_sorted i Hl) Ee) as (_ & _ & _ & Him).
  { unfold flush_name. rewrite app_assoc. apply fileFormat_extension. }
  { rewrite Hv. exact Hst. }
  rewrite Hv in Him. destruct (mintInstance (ou_drawn x) t) as [t1 [instance|e]] eqn:Em.
  2: { apply mintInstance_err in Em as ->. by intros [= <- <- <-]. }
  apply mintInstance_ok in Em as [Hi ->]; [|apply Hx]. intros Hp.
  destruct (publish_flush_ok x _ d css _ _ _ _ t' d' o Hhon (set_instance_holds t d css instance Hh) Hn Hex
    ltac:(unfold flush_name; rewrite app_assoc; apply is_data_file_extension) Hi Him Hp) as (H1 & H2 & H3).
  split; [done|]. split; [done|]. destruct H3 as [[]|[[]|H3]]; [left; by split|right; left; by split|by right; right].
Qed.

(** ** Discovery *)

Lemma insert_all_lookup {A} (names : list bytes) (a : A) (m : gmap bytes A) n b :
  foldl (fun m name => <[name := a]> m) m names !! n = Some b -> m !! n = Some b \/ (n ∈ names /\ b = a).
Proof.
  revert m. induction names as [|x names IH]; intros m; cbn [foldl]; [by left|].
  intros [[[-> <-]|[_ H]]%lookup_insert_Some|[H1 H2]]%IH; [right; split; [left|done]|by left|right; split; [by right|done]].
Qed.

Lemma discover_fresh d now :
  objects d !! manifest_name = None -> 0 < now ->
  exists g, discoverImmutableFiles Unmarshal now d false = Ok g /\ active g ≡ₚ elements (data_files d) /\ state_ok g d /\ 0 <= nameHighWater g.
Proof.
  intros Hm Hnow. unfold discoverImmutableFiles, discoverImmutableFilesRaw. rewrite bool_decide_eq_false_2 by (by rewrite not_elem_of_dom).
  cbn [negb]. fold (data_files d). cbn [mbind result_bind].
  set (st0 := mkState (legacyRecencyOrder (elements (data_files d))) ∅ (namesHighWater 0 (elements (data_files d))) ∅ ∅ ∅ ∅ false ∅ 0).
  assert (active st0 ≡ₚ elements (data_files d)) as Hp by apply SliceStable_perm.
  assert (NoDup (active st0) /\ Forall (fun n => is_Some (objects d !! n) /\ is_data_file n = true) (active st0)) as [Hnd Hpr].
  { split; [rewrite Hp; apply NoDup_elements|]. rewrite Hp. apply Forall_forall. intros n Hn%elem_of_elements.
    unfold data_files in Hn. by apply elem_of_filter in Hn as [[_ Hdf] Hd%elem_of_dom]. }
  assert (forall st1, active st1 = active st0 -> sources st1 = ∅ -> minted st1 = ∅ -> tombstoneFree st1 = ∅ ->
    (forall n t, exported st1 !! n = Some t -> n ∈ active st0 /\ 0 < t) -> nameHighWater st1 = nameHighWater st0 ->
    exists g, Ok (set_highWater (namesHighWater (namesHighWater (nameHighWater st1) (active st1)) (elements (obsolete st1))) st1) = Ok g /\
      active g ≡ₚ elements (data_files d) /\ state_ok g d /\ 0 <= nameHighWater g) as Hgen.
  { intros st1 E1 E2 E3 E4 E5 E6. eexists. split; [reflexivity|]. cbn [set_highWater active nameHighWater]. rewrite E1. split; [exact Hp|]. split.
    - split; cbn [set_highWater active sources minted exported tombstoneFree]; rewrite ?E1, ?E2, ?E3, ?E4; try done; by intros n; rewrite ?lookup_empty.
    - rewrite E6. etrans; [|apply namesHighWater_ge]. etrans; [|apply namesHighWater_ge]. apply namesHighWater_ge. }
  unfold assumeExportedUntracked. destruct (active st0) as [|n0 ns] eqn:Ea; [by apply Hgen|].
  apply Hgen; try done. cbn [exported]. intros n t [?|[? ->]]%insert_all_lookup; [done|]. done.
Qed.

(** ** The log *)

(** The intact records of a log, which a crash may have torn. *)
Definition log_holds (file : bytes) (ms : list Mutation) : Prop :=
  exists all n, Forall LocalWAL.wal_mutation_ok all /\ file = take n (LocalWAL.encode_all all) /\ LocalWAL.intact n all = ms.

Definition log_clean (file : bytes) (ms : list Mutation) : Prop := Forall LocalWAL.wal_mutation_ok ms /\ file = LocalWAL.encode_all ms.

Lemma intact_all ms n : (length (LocalWAL.encode_all ms) <= n)%nat -> LocalWAL.intact n ms = ms.
Proof. intros Hn. pose proof (LocalWAL.intact_app n ms [] Hn) as H. by rewrite !app_nil_r in H. Qed.

Lemma log_clean_holds file ms : log_clean file ms -> log_holds file ms.
Proof. intros [Hok ->]. exists ms, (length (LocalWAL.encode_all ms)). split; [done|]. by rewrite take_ge, intact_all by lia. Qed.

Lemma Replay_loop_total {A} (f : A -> Mutation -> A) fuel s a acc count :
  LocalWAL.Replay_loop (fun a m => Ok (f a m)) fuel s (foldl f a acc) count =
    (let '(n, l, e) := LocalWAL.Replay_loop LocalWAL.collect fuel s acc count in (n, foldl f a l, e)).
Proof.
  revert s acc count. induction fuel as [|fuel IH]; intros s acc count; [done|]. cbn [LocalWAL.Replay_loop].
  destruct (LocalWAL.readMutation s) as [[m s']|e]; [|by case_match]. cbn [LocalWAL.collect]. rewrite <-IH, foldl_app. done.
Qed.

Lemma Replay_holds {A} (f : A -> Mutation -> A) (a : A) file ms mode :
  log_holds file ms ->
  LocalWAL.Replay (fun a m => Ok (f a m)) a (LocalWAL.Open file mode) = (len ms, foldl f a ms, None).
Proof.
  intros (all & n & Hok & -> & <-). unfold LocalWAL.Replay. change a with (foldl f a []) at 1. rewrite Replay_loop_total.
  pose proof (LocalWAL.Replay_torn all n 0 mode false (length (take n (LocalWAL.encode_all all))) Hok) as H.
  unfold LocalWAL.Replay in H. unfold LocalWAL.Open. by rewrite H.
Qed.

Lemma log_holds_inj file ms ms' : log_holds file ms -> log_holds file ms' -> ms = ms'.
Proof.
  intros H1 H2. pose proof (Replay_holds (fun l m => l ++ [m]) [] file ms LocalWAL.SyncFull H1) as E1.
  pose proof (Replay_holds (fun l m => l ++ [m]) [] file ms' LocalWAL.SyncFull H2) as E2.
  pose proof (eq_trans (eq_sym E1) E2) as E. injection E as _ E.
  assert (forall l acc, foldl (fun l (m : Mutation) => l ++ [m]) acc l = acc ++ l) as Hf.
  { induction l as [|m l IH]; intros acc; cbn [foldl]; [by rewrite app_nil_r|]. by rewrite IH, <-app_assoc. }
  by rewrite !Hf in E.
Qed.

(** ** What the disk and the log keep *)

Definition log_cells (ms : list Mutation) : list Cell := concat (Cells <$> ms).

Lemma log_cells_app a b : log_cells (a ++ b) = log_cells a ++ log_cells b.
Proof. unfold log_cells. by rewrite fmap_app, concat_app. Qed.

(** Every key of the cells is one of the history's. *)
Definition known (hist : list Cell) (cs : list Cell) : Prop := forall c, c ∈ cs -> exists c', c' ∈ hist /\ c'.1 = c.1.

(** What a directory holds of a history. *)
Inductive stored (d : disk) (hist : list Cell) (ms : list Mutation) : Prop :=
| stored_published css :
    published d css -> (forall k, last (at_key k (log_cells ms)) = None -> latest k (reverse css) = last (at_key k hist)) -> stored d hist ms
| stored_unpublished :
    objects d !! manifest_name = None ->
    (forall name, name ∈ data_files d -> exists cs, file_holds d name cs /\ known hist cs) ->
    (forall k, last (at_key k (log_cells ms)) = None -> last (at_key k hist) = None) -> stored d hist ms.

(** The disk and the log's file make up the history: the log holds its last
    cells. *)
Definition durable (d : disk) (file : bytes) (hist : list Cell) : Prop :=
  exists ms, log_holds file ms /\ log_cells ms `suffix_of` hist /\ stored d hist ms.

Lemma last_app_key k a b : last (at_key k (a ++ b)) = match last (at_key k b) with Some c => Some c | None => last (at_key k a) end.
Proof. by rewrite filter_app, last_app. Qed.

Lemma known_app hist more cs : known hist cs -> known (hist ++ more) cs.
Proof. intros H c Hc. destruct (H c Hc) as (c' & ? & ?). exists c'. split; [by apply elem_of_app; left|done]. Qed.

(** The log grows by mutations, the last of them perhaps torn. *)
Lemma durable_append d file hist ms new n :
  log_clean file ms -> durable d file hist -> Forall LocalWAL.wal_mutation_ok new -> (length file <= n)%nat ->
  durable d (take n (file ++ LocalWAL.encode_all new)) (hist ++ log_cells (LocalWAL.intact (n - length file) new)).
Proof.
  intros [Hok Hfile] (ms' & Hl & Hsuf & Hst) Hnew Hn. assert (ms' = ms) as ->.
  { eapply log_holds_inj; [exact Hl|]. by apply log_clean_holds. }
  set (l := LocalWAL.intact _ new). exists (ms ++ l). split; [|split].
  - exists (ms ++ new), n. split; [by apply Forall_app|]. rewrite Hfile, LocalWAL.encode_all_app. split; [done|].
    rewrite LocalWAL.intact_app by (by rewrite <-Hfile). unfold l. by rewrite Hfile.
  - rewrite log_cells_app. destruct Hsuf as [h ->]. exists h. by rewrite <-app_assoc.
  - assert (forall k, last (at_key k (log_cells (ms ++ l))) = None -> last (at_key k (log_cells ms)) = None /\
      last (at_key k (hist ++ log_cells l)) = last (at_key k hist)) as Hnone.
    { intros k. rewrite log_cells_app, !last_app_key. by destruct (last (at_key k (log_cells l))). }
    destruct Hst as [css Hp Hlat|Hm Hfs Hno].
    + apply (stored_published _ _ _ css); [done|]. intros k [H1 ->]%Hnone. by apply Hlat.
    + apply stored_unpublished; [done| |intros k [H1 ->]%Hnone; by apply Hno]. intros name Hin. destruct (Hfs name Hin) as (cs & ? & ?).
      exists cs. split; [done|by apply known_app].
Qed.

Lemma data_files_grown d d' cs name :
  grown d d' cs -> name ∈ data_files d' -> name ∈ data_files d \/ file_holds d' name cs.
Proof.
  intros [E|(n & data & label & _ & _ & Him & E)] Hin; unfold data_files in Hin |- *; [left; by rewrite E in Hin|].
  apply elem_of_filter in Hin as [Hp Hd]. rewrite E, dom_insert in Hd. destruct (decide (name = n)) as [->|Hne].
  - right. exists data, label. by rewrite E, lookup_insert_eq.
  - left. apply elem_of_filter. split; [done|]. by apply elem_of_union in Hd as [Hn%elem_of_singleton|].
Qed.

Lemma durable_grown d d' cs file hist : grown d d' cs -> known hist cs -> durable d file hist -> durable d' file hist.
Proof.
  intros Hg Hc (ms & Hl & Hsuf & Hst). exists ms. split; [done|]. split; [done|]. destruct Hst as [css Hp Hlat|Hm Hfs Hno].
  - apply (stored_published _ _ _ css); [by eapply published_grown|done].
  - apply stored_unpublished; [by rewrite (grown_manifest _ _ _ Hg)| |done]. intros name Hin.
    destruct (data_files_grown d d' cs name Hg Hin) as [Hin'|Hh]; [|by exists cs]. destruct (Hfs name Hin') as (cs' & Hh & Hk). exists cs'. split; [|done].
    eapply file_holds_keeps, Hh; [by eapply grown_keeps|]. unfold data_files in Hin'. by apply elem_of_filter in Hin' as [[_ ?] _].
Qed.

(** Files that hold the whole history need nothing of the log. *)
Lemma durable_published d css file ms hist :
  published d css -> reads_history (reverse css) hist -> log_holds file ms -> log_cells ms `suffix_of` hist -> durable d file hist.
Proof. intros Hp Hr Hl Hs. exists ms. split; [done|]. split; [done|]. apply (stored_published _ _ _ css); [done|]. intros k _. apply Hr. Qed.

(** ** An open tablet *)

(** Every byte of the log is on disk. *)
Definition synced (w : LocalWAL.WAL) : Prop :=
  LocalWAL.w_mode w = LocalWAL.SyncFull /\ LocalWAL.w_dirty w = false /\ LocalWAL.w_synced w = length (LocalWAL.w_file w).

(** An open tablet reads as its history, and so would the disk if it stopped. *)
Definition up (t : Tablet) (d : disk) (hist : list Cell) : Prop :=
  exists css, holds t d css /\ reads_history (cells_of t css) hist /\ durable d (LocalWAL.w_file (t_wal t)) hist /\ synced (t_wal t).

Lemma mem_known t css hist : reads_history (cells_of t css) hist -> known hist (mem_cells t).
Proof.
  intros Hr c Hc. specialize (Hr c.1). unfold cells_of in Hr. rewrite latest_cons in Hr.
  destruct (head (at_key c.1 (mem_cells t))) as [c'|] eqn:E.
  - symmetry in Hr. destruct (last_at_key _ _ _ Hr) as [? ?]. by exists c'.
  - assert (c ∈ at_key c.1 (mem_cells t)) as Hin by (by apply list_elem_of_filter). destruct (at_key c.1 (mem_cells t)); [by apply elem_of_nil in Hin|done].
Qed.

(** The memtable written out, below an empty one. *)
Lemma reads_moved t css hist : reads_history (cells_of t css) hist -> reads_history (reverse (css ++ [mem_cells t])) hist.
Proof. intros H. by rewrite reverse_app. Qed.

Lemma wal_Truncate_ok ok w hist ms :
  synced w -> log_holds (LocalWAL.w_file w) ms -> log_cells ms `suffix_of` hist ->
  synced (wal_Truncate ok w).1 /\ exists ms', log_holds (LocalWAL.w_file (wal_Truncate ok w).1) ms' /\ log_cells ms' `suffix_of` hist.
Proof.
  intros (Hm & Hd & Hs) Hl Hsuf. destruct ok; cbn [wal_Truncate fst]; (split; [done|]).
  - exists []. split; [by apply log_clean_holds|]. exists hist. by rewrite app_nil_r.
  - by exists ms.
Qed.

(** A flush changes nothing that is read, and nothing a stop would lose. *)
Lemma flush_history x t d hist t' d' crashed css :
  up t d hist -> holds t d css -> reads_history (cells_of t css) hist -> flush_ends x t d css t' d' crashed ->
  honest d' /\ t_opts t' = t_opts t /\ durable d' (LocalWAL.w_file (t_wal t')) hist /\ synced (t_wal t') /\ (~ crashed -> up t' d' hist).
Proof.
  intros (_ & _ & _ & Hdur & Hsync) Hh Hr (Hhon & Hopt & Hends). split; [done|]. split; [done|].
  pose proof Hdur as (ms & Hl & Hsuf & _). destruct Hends as [[Ea Ew Hg Hh']|[[Ea Ew Hp Hh']|(Hc & Ew & Hp)]].
  - assert (durable d' (LocalWAL.w_file (t_wal t')) hist) as Hd' by (rewrite Ew; eapply durable_grown; [done|by eapply mem_known|done]).
    split; [done|]. rewrite Ew. split; [done|]. intros _. exists css. split; [done|]. unfold cells_of, mem_cells. rewrite Ea, Ew.
    split; [exact Hr|]. by rewrite Ew in Hd'.
  - destruct (wal_Truncate_ok (ou_truncates x) (t_wal t) hist ms Hsync Hl Hsuf) as (Hsync' & ms' & Hl' & Hsuf'). rewrite <-Ew in Hsync', Hl'.
    assert (durable d' (LocalWAL.w_file (t_wal t')) hist) as Hd' by (eapply durable_published; [done|by apply reads_moved|done|done]).
    split; [done|]. split; [done|]. intros _. exists (css ++ [mem_cells t]). split; [done|]. split; [|done].
    unfold cells_of at 1. unfold mem_cells at 1. rewrite Ea. intros k. rewrite latest_cons, newSkiplist_cells. apply (reads_moved t css hist Hr k).
  - rewrite Ew. split; [|done]. by eapply durable_published; [done|apply reads_moved| |].
Qed.

(** ** Writes *)

Lemma ingest_eq ms t : ingest ms t = set_active (sm_insert_all (log_cells ms) (t_active t)) t.
Proof.
  unfold ingest. f_equal. generalize (t_active t). induction ms as [|m ms IH]; intros sl; [done|]. cbn [foldl]. rewrite IH.
  unfold ingestMutation, log_cells. cbn [fmap list_fmap concat]. unfold sm_insert_all. by rewrite foldl_app.
Qed.

Lemma Append_synced new w :
  synced w -> exists w' seq, LocalWAL.Append new LocalWAL.WriteAll true w = (w', seq, None) /\ synced w' /\
    LocalWAL.w_file w' = LocalWAL.w_file w ++ LocalWAL.encode_all new.
Proof.
  intros (Hm & Hd & Hs). unfold LocalWAL.Append. fold (LocalWAL.encode_all new).
  destruct (Z.gtb_spec (len (LocalWAL.encode_all new)) 0) as [Hl|Hl]; cbv iota beta; cbn [LocalWAL.file_Write LocalWAL.set_dirty LocalWAL.w_mode].
  - rewrite Hm, bool_decide_eq_true_2 by done. cbn [LocalWAL.syncLocked LocalWAL.w_dirty negb LocalWAL.w_file LocalWAL.w_mode LocalWAL.w_seq].
    eexists _, _. split; [done|]. split; done.
  - assert (LocalWAL.encode_all new = []) as -> by (apply len_0_nil; pose proof (len_nonneg (LocalWAL.encode_all new)); lia).
    rewrite Hm, bool_decide_eq_true_2 by done. unfold LocalWAL.syncLocked. rewrite Hd. cbn [negb LocalWAL.w_file LocalWAL.w_seq].
    eexists _, _. split; [done|]. rewrite app_nil_r. done.
Qed.

(** What has been appended to the log and ingested has joined the history. *)
Lemma ingest_up t w d hist ms new :
  up t d hist -> log_clean (LocalWAL.w_file (t_wal t)) ms -> Forall LocalWAL.wal_mutation_ok new -> synced w ->
  LocalWAL.w_file w = LocalWAL.w_file (t_wal t) ++ LocalWAL.encode_all new ->
  up (ingest new (set_wal w t)) d (hist ++ log_cells new).
Proof.
  intros (css & [Hm Hl Ht] & Hr & Hdur & _) Hcl Hnew Hw Ew. rewrite ingest_eq.
  destruct (mem_inserted (set_wal w t) (log_cells new) Hm Hl) as (Hm' & Hl' & Hk). exists css. split; [by split|]. split; [|split; [|done]].
  - intros k. unfold cells_of. rewrite latest_cons, Hk, last_app_key. specialize (Hr k). unfold cells_of in Hr. rewrite latest_cons in Hr.
    rewrite head_app, head_reverse. destruct (last (at_key k (log_cells new))); [done|]. exact Hr.
  - pose proof (durable_append d _ hist ms new (length (LocalWAL.w_file w)) Hcl Hdur Hnew ltac:(rewrite Ew, length_app; lia)) as H.
    rewrite take_ge, intact_all in H by (rewrite Ew, length_app; lia). by rewrite <-Ew in H.
Qed.

Lemma autoFlush_history {A} (a : A) x t d hist t' d' o :
  outside_ok x -> honest d -> flushable t -> up t d hist -> autoFlush F Marshal a x t d = (t', d', o) ->
  honest d' /\ t_opts t' = t_opts t /\ durable d' (LocalWAL.w_file (t_wal t')) hist /\ synced (t_wal t') /\ (o <> Crashed -> up t' d' hist).
Proof.
  intros Hx Hh Hf Hup. unfold autoFlush. destruct (_ >=? _).
  - pose proof Hup as (css & H1 & H2 & _). destruct (flushLocked F Marshal x t d) as [[t1 d1] o1] eqn:Ef.
    pose proof (flush_history x t d hist t1 d1 _ css Hup H1 H2 (flushLocked_ok x t d css t1 d1 o1 Hx Hh H1 Hf Ef)) as (G1 & G2 & G3 & G4 & G5).
    destruct o1 as [[]|e c|]; intros [= <- <- <-]; split_and!; try done; intros ?; by apply G5.
  - intros [= <- <- <-]. pose proof Hup as (css & _ & _ & H3 & H4). done.
Qed.

Lemma writeLocked_history new x t d hist ms t' d' o :
  outside_ok x -> honest d -> up t d hist -> log_clean (LocalWAL.w_file (t_wal t)) ms -> Forall LocalWAL.wal_mutation_ok new ->
  flushable (ingest new t) -> writeLocked F Marshal new LocalWAL.WriteAll true x t d = (t', d', o) ->
  honest d' /\ t_opts t' = t_opts t /\ durable d' (LocalWAL.w_file (t_wal t')) (hist ++ log_cells new) /\ synced (t_wal t') /\
  (o <> Crashed -> up t' d' (hist ++ log_cells new)).
Proof.
  intros Hx Hh Hup Hcl Hnew Hf. unfold writeLocked, wal_append. pose proof Hup as (css & _ & _ & _ & Hs).
  destruct (Append_synced new (t_wal t) Hs) as (w & seq & -> & Hw & Ew). cbv iota beta. intros Hau.
  pose proof (ingest_up t w d hist ms new Hup Hcl Hnew Hw Ew) as Hup'.
  assert (flushable (ingest new (set_wal w t))) as Hf' by exact Hf.
  exact (autoFlush_history tt x (ingest new (set_wal w t)) d (hist ++ log_cells new) t' d' o Hx Hh Hf' Hup' Hau).
Qed.

(** ** Open *)

Lemma unpublished_files d hist names :
  (forall name, name ∈ names -> exists cs, file_holds d name cs /\ known hist cs) ->
  exists css, Forall2 (file_holds d) names css /\ Forall (known hist) css.
Proof.
  induction names as [|n names IH]; intros H; [by exists []|]. destruct (H n ltac:(left)) as (cs & H1 & H2).
  destruct IH as (css & H3 & H4); [intros m Hm; apply H; by right|]. exists (cs :: css). split; by constructor.
Qed.

Lemma known_latest hist css k : Forall (known hist) css -> last (at_key k hist) = None -> latest k css = None.
Proof.
  intros Hk Hn. induction Hk as [|cs css Hc _ IH]; [done|]. rewrite latest_cons. destruct (head (at_key k cs)) as [c|] eqn:E; [|done].
  destruct (head_at_key _ _ _ E) as [<- Hin]. destruct (Hc c Hin) as (c' & Hin' & E').
  apply last_None in Hn. assert (c' ∈ at_key c.1 hist) as Hi by (by apply list_elem_of_filter). rewrite Hn in Hi. by apply elem_of_nil in Hi.
Qed.

Lemma suffix_last (l hist : list Cell) k c : l `suffix_of` hist -> last (at_key k l) = Some c -> last (at_key k hist) = Some c.
Proof. intros [h ->] H. by rewrite last_app_key, H. Qed.

(** What discovery tracks, with the log above it, is the history. *)
Lemma stored_discovered d hist ms now :
  stored d hist ms -> log_cells ms `suffix_of` hist -> 0 < now ->
  exists g css, discoverImmutableFiles Unmarshal now d false = Ok g /\ tracked g d css /\
    forall k, match last (at_key k (log_cells ms)) with Some c => Some c | None => latest k (reverse css) end = last (at_key k hist).
Proof.
  intros Hst Hsuf Hnow.
  assert (forall css, (forall k, last (at_key k (log_cells ms)) = None -> latest k (reverse css) = last (at_key k hist)) ->
    forall k, match last (at_key k (log_cells ms)) with Some c => Some c | None => latest k (reverse css) end = last (at_key k hist)) as Hmatch.
  { intros css H k. destruct (last (at_key k (log_cells ms))) as [c|] eqn:E; [|by apply H]. symmetry. by eapply suffix_last. }
  destruct Hst as [css (g & data & Hd & Hm & [Hok Hf Hhw]) Hlat|Hm Hfs Hno].
  - destruct (discover_of Marshal Unmarshal Hjson g d now data Hd Hm Hok) as (hw & Hdis & Hge & _).
    exists (set_highWater hw g), css. split; [done|]. split; [|by apply Hmatch]. split; [by destruct Hok|done|cbn; lia].
  - destruct (discover_fresh d now Hm Hnow) as (g & Hdis & Hp & Hok & Hhw).
    destruct (unpublished_files d hist (active g)) as (css & Hf & Hk).
    { intros n Hn. apply Hfs. rewrite Hp in Hn. by apply elem_of_elements in Hn. }
    exists g, css. split; [done|]. split; [done|]. apply Hmatch. intros k Hnone. rewrite (Hno k Hnone).
    apply (known_latest hist); [by apply Forall_reverse|by apply Hno].
Qed.

Definition label_valid (o : Options) : Prop := DefaultEmbedding o = zero_state \/ EmbeddingSpace.Validate (DefaultEmbedding o) = None.

Lemma Open_up x opts d file hist :
  durable d file hist -> 0 < ou_exportNow x -> label_valid opts ->
  exists t, Tablet.Open Unmarshal x LocalWAL.SyncFull opts d file = Ok t /\ up t d hist /\ t_opts t = with_defaults opts /\
    t_wal t = LocalWAL.Open file LocalWAL.SyncFull.
Proof.
  intros Hdur Hnow Hlab. pose proof Hdur as (ms & Hl & Hsuf & Hst).
  destruct (stored_discovered d hist ms _ Hst Hsuf Hnow) as (g & css & Hdis & Ht & Hk). unfold Tablet.Open. cbv zeta.
  cbn [with_defaults DefaultEmbedding].
  assert ((if negb (bool_decide (DefaultEmbedding opts = zero_state)) then EmbeddingSpace.Validate (DefaultEmbedding opts) else None) = None) as ->.
  { case_bool_decide; [done|]. by destruct Hlab. }
  rewrite Hdis. cbn [wrap mbind result_bind]. rewrite (Replay_holds _ _ file ms) by done.
  eexists. split; [reflexivity|]. split; [|done]. exists css. set (t0 := mkTablet (newSkiplistMemtable (ou_coins x)) (LocalWAL.Open file LocalWAL.SyncFull) (with_defaults opts) [] g).
  destruct (mem_inserted t0 (log_cells ms) (sm_new_ok _) eq_refl) as (Hm & Hlen & Hkey). rewrite <-ingest_eq in Hm, Hlen, Hkey.
  split; [by split|]. split; [|done]. intros k. change (mkTablet _ _ _ _ _) with (ingest ms t0). unfold cells_of. rewrite latest_cons, Hkey.
  change (mem_cells t0) with (@nil Cell). rewrite app_nil_r, head_reverse. apply Hk.
Qed.
End tablet.
