(* ===== verification/TabletLife.v ===== *)
(** * TabletLife: a tablet against the history of its writes *)

From stdpp Require Import strings.
From S2P Require Import Prelude Wire GoStd VisFilter Iter IterStack IterLaws Merge Reads History Stack Mutation Memtable EmbeddingSpace.
From S2P Require LocalWAL Parquet.
From S2P Require Import RFileSource Store TabletFiles Images Compaction Tablet TabletOk.
Import Iter.

(** ** Specification *)

(** What a query as of [ceiling] reads of a coordinate: the newest cell of the
    history that is no newer, if it is not a tombstone and may be seen. *)
Definition as_of (ceiling : Z) (x : coordinate) (k : Key) : bool := bool_decide (coord k = x) && negb (too_new ceiling k).

Definition read_spec (auths : Authorizations) (ceiling : Z) (x : coordinate) (hist : list Cell) : list Cell :=
  if visible_uncached auths x.2.2.2 then
    match newest (as_of ceiling x) hist with Some c => if Deleted c.1 then [] else [c] | None => [] end
  else [].

(** The versions a condition is about. *)
Definition eligible (row : bytes) (c : Condition) (k : Key) : bool :=
  bool_decide (coord k = (row, (cd_ColumnFamily c, (cd_ColumnQualifier c, cd_ColumnVisibility c)))) &&
  (Timestamp k <=? Timestamp (condition_start row c)).

(** The newest of them, if it is live and of the timestamp asked for. *)
Definition condition_value (row : bytes) (c : Condition) (hist : list Cell) : option bytes :=
  match newest (eligible row c) hist with
  | Some (k, v) =>
      if negb (Deleted k) && match cd_Timestamp c with None => true | Some ts => Timestamp k =? ts end then Some v else None
  | None => None
  end.

Definition condition_spec (row : bytes) (c : Condition) (hist : list Cell) : result bool :=
  match cd_Kind c with
  | ConditionAbsent => Ok (bool_decide (condition_value row c hist = None))
  | ConditionValueEquals => Ok (bool_decide (condition_value row c hist = Some (cd_Value c)))
  | ConditionLatestValueAndTimestampEquals =>
      Ok (bool_decide (is_Some (cd_Timestamp c)) && bool_decide (condition_value row c hist = Some (cd_Value c)))
  | ConditionUnsupported _ => Err (Fail "tablet: unsupported condition kind")
  end.

Fixpoint conditions_spec (row : bytes) (cs : list Condition) (hist : list Cell) : result bool :=
  match cs with
  | [] => Ok true
  | c :: cs => ok ← condition_spec row c hist; if (ok : bool) then conditions_spec row cs hist else Ok false
  end.

(** Each mutation is decided on the history the earlier ones left. *)
Fixpoint conditional_spec (cms : list ConditionalMutation) (hist : list Cell) : list Cell * result (list bool) :=
  match cms with
  | [] => (hist, Ok [])
  | m :: cms =>
      match conditions_spec (m_row (cm_Mutation m)) (cm_Conditions m) hist with
      | Err e => (hist, Err e)
      | Ok b =>
          let '(hist, r) := conditional_spec cms (if b then hist ++ Cells (cm_Mutation m) else hist) in
          (hist, rs ← r; Ok (b :: rs))
      end
  end.

(** ** Reads *)

Lemma head_read auths ceiling x ls hist :
  Forall sorted_cells ls -> reads_history ls hist -> read_at auths ceiling x (merge_all ls) = read_spec auths ceiling x hist.
Proof.
  intros Hs Hr. unfold read_at, read_spec. destruct (visible_uncached auths x.2.2.2); [|done].
  rewrite <-(read_newest (as_of ceiling x) ls hist Hs Hr). unfold at_coord. rewrite list_filter_filter.
  rewrite (list_filter_iff _ (fun d : Cell => as_of ceiling x d.1 = true)).
  2: { intros c. unfold as_of. rewrite andb_true_iff, bool_decide_eq_true, negb_true_iff. tauto. }
  destruct (filter _ (merge_all ls)) as [|c l]; [done|]. cbn [until_delete head hd_error]. by destruct (Deleted c.1).
Qed.

(** A stronger question with the same answer. *)
Lemma newest_restrict (P Q : Key -> bool) hist a :
  newest P hist = Some a -> Q a.1 = true -> (forall k, Q k = true -> P k = true) -> newest Q hist = Some a.
Proof.
  intros Ha HQ HPQ. destruct (newest_Some _ _ _ Ha) as (H1 & H2 & H3). destruct (last_at_key _ _ _ H2) as [_ Hin].
  destruct (newest Q hist) as [b|] eqn:Eb.
  - destruct (newest_Some _ _ _ Eb) as (G1 & G2 & G3). destruct (last_at_key _ _ _ G2) as [_ Gin].
    assert (a.1 = b.1) as E by (apply (anti_symm key_le); [by apply H3, HPQ|by apply G3]). rewrite E in H2. congruence.
  - apply newest_None in Eb. pose proof (proj1 (Forall_forall _ _) Eb a Hin) as Hx. cbn in Hx. congruence.
Qed.

Lemma newest_nothing (P : Key -> bool) hist : (forall c, c ∈ hist -> P c.1 = false) -> newest P hist = None.
Proof.
  intros H. destruct (newest P hist) as [c|] eqn:E; [|done]. destruct (newest_Some _ _ _ E) as (H1 & H2 & _).
  destruct (last_at_key _ _ _ H2) as [_ Hin]. rewrite H in H1 by done. done.
Qed.

Lemma from_Contains s k : Contains (from s) k = bool_decide (key_le s k).
Proof.
  unfold Contains, from. cbn [Start End_ InfiniteStart InfiniteEnd StartInclusive]. rewrite (cmp_antisym Compare s k).
  case_bool_decide as H; unfold key_le in H; destruct (Compare s k); try done; by destruct H.
Qed.

(** ** Conditions *)

Lemma coord_row_key k row cf cq cv :
  bytes_Equal (Row k) row && bytes_Equal (ColumnFamily k) cf && bytes_Equal (ColumnQualifier k) cq && bytes_Equal (ColumnVisibility k) cv =
    bool_decide (coord k = (row, (cf, (cq, cv)))).
Proof.
  unfold bytes_Equal, coord. apply eq_true_iff_eq. rewrite !andb_true_iff, !bool_decide_eq_true. split.
  - by intros [[[-> ->] ->] ->].
  - by intros [= -> -> -> ->].
Qed.

Lemma eligible_from row c k : eligible row c k = true <-> coord k = coord (condition_start row c) /\ key_le (condition_start row c) k.
Proof.
  unfold eligible. rewrite andb_true_iff, bool_decide_eq_true, Z.leb_le. change (row, _) with (coord (condition_start row c)).
  split; intros [Hc Ht]; (split; [done|]); unfold key_le in *; rewrite Compare_coord, (proj2 (CompareRowCFCQCV_eq _ _) (eq_sym Hc)) in *;
    cbn [then_cmp] in *; change (Deleted (condition_start row c)) with true in *;
    destruct (Z.compare_spec (Timestamp k) (Timestamp (condition_start row c))); try lia; try done; by destruct (Deleted k).
Qed.

(** The first cell from the condition's start is the newest eligible one, or
    of another coordinate. *)
Lemma condition_cell_ok row c hist :
  match newest (Contains (from (condition_start row c))) hist with
  | Some (k, v) => condition_cell row c k v
  | None => None
  end = condition_value row c hist.
Proof.
  unfold condition_value. destruct (newest (Contains _) hist) as [[k v]|] eqn:E.
  - unfold condition_cell. rewrite coord_row_key. change (row, _) with (coord (condition_start row c)). case_bool_decide as Hc; cbn [andb].
    + destruct (newest_Some _ _ _ E) as (H1 & _). rewrite from_Contains, bool_decide_eq_true in H1. cbn [fst] in H1.
      rewrite (newest_restrict _ (eligible row c) hist (k, v) E); [by rewrite andb_comm| |].
      * by apply eligible_from.
      * intros k' [_ H]%eligible_from. rewrite from_Contains. by apply bool_decide_eq_true.
    + rewrite newest_nothing; [done|]. intros e He. apply not_true_is_false. intros [H1 H2]%eligible_from.
      destruct (newest_Some _ _ _ E) as (G1 & _ & G3). rewrite from_Contains, bool_decide_eq_true in G1. cbn [fst] in G1, G3.
      apply Hc. eapply key_le_coord_between; [exact G1| |done]. apply G3; [done|]. rewrite from_Contains. by apply bool_decide_eq_true.
  - rewrite newest_nothing; [done|]. intros e He. apply not_true_is_false. intros [H1 H2]%eligible_from.
    apply newest_None in E. pose proof (proj1 (Forall_forall _ _) E e He) as Hx. cbn in Hx. rewrite from_Contains, bool_decide_eq_false in Hx. done.
Qed.

(** The source answers every seek from the history. *)
Definition answers {I} `{SKVILaws I} (src : I) (hist : list Cell) : Prop :=
  ready src /\ forall s, head (scan src (from s) [] false) = newest (Contains (from s)) hist.

Lemma condition_holds_ok row c key value hist :
  condition_value row c hist = match key with Some k => condition_cell row c k value | None => None end ->
  condition_holds c key (match key with Some k => condition_cell row c k value | None => None end) = condition_spec row c hist.
Proof.
  intros E. unfold condition_spec. rewrite E. destruct key as [k|].
  2: { unfold condition_holds. destruct (cd_Kind c); try done. destruct (cd_Timestamp c); by rewrite ?andb_false_r. }
  destruct (condition_cell row c k value) as [v|] eqn:Ec.
  - unfold condition_holds, bytes_Equal. destruct (cd_Kind c); [done| | |done].
    + f_equal. apply bool_decide_ext. split; [by intros ->|by intros [=]].
    + unfold condition_cell in Ec. destruct (cd_Timestamp c) as [ts|]; [|done]. destruct (Timestamp k =? ts); [|by rewrite andb_false_r in Ec].
      cbn [andb]. rewrite (bool_decide_eq_true_2 (is_Some (Some ts))) by (by eexists). cbn [andb]. f_equal. apply bool_decide_ext. split; [by intros ->|by intros [=]].
  - unfold condition_holds. destruct (cd_Kind c); [done|done| |done]. destruct (cd_Timestamp c); by rewrite ?andb_false_r.
Qed.

Lemma conditions_loop_ok {I} `{SKVILaws I} row conds (src : I) hist :
  answers src hist -> conditions_loop row conds src = conditions_spec row conds hist.
Proof.
  revert src. induction conds as [|c conds IH]; intros src [Hr Ha]; [done|]. cbn [conditions_loop conditions_spec].
  destruct (seek_ok src (from (condition_start row c)) [] false Hr) as (s1 & -> & Hl1 & Hv1 & Hs1).
  destruct (hastop_ok s1 Hl1) as (s2 & -> & Hl2 & Hv2 & Hs2). cbv iota beta.
  assert (answers s2 hist) as Hans by (split; [by apply live_ready|]; intros s; rewrite Hs2, Hs1; apply Ha).
  pose proof (condition_cell_ok row c hist) as Hc. rewrite <-Ha, <-Hv1, <-Hv2 in Hc.
  set (key := if bool_decide (view s1 <> []) then GetTopKey s2 else None).
  assert (match key with Some k => condition_cell row c k (default [] (GetTopValue s2)) | None => None end = condition_value row c hist) as Hk.
  { unfold key. rewrite <-Hv2. destruct (view s2) as [|[k v] l] eqn:Ev.
    - by rewrite bool_decide_eq_false_2 by tauto.
    - rewrite bool_decide_eq_true_2 by done. destruct (top_ok s2 (k, v) l Hl2 Ev) as [-> ->]. exact Hc. }
  rewrite (condition_holds_ok row c key (default [] (GetTopValue s2)) hist (eq_sym Hk)).
  destruct (condition_spec row c hist) as [[]|e]; cbn [mbind result_bind]; [by apply IH|done|done].
Qed.

Section tablet.
Context (F : Formats) (registryByName : gmap string iteratorRegistration).
Context (Marshal : immutableManifest -> result bytes) (Unmarshal : bytes -> result immutableManifest).
Context (HF : formats_ok F) (Hreg : registry_ok registryByName) (Hjson : json_manifest_ok Marshal Unmarshal).
Abbreviation holds := (TabletOk.holds F).
Abbreviation up := (TabletOk.up F Marshal).
Abbreviation durable := (TabletOk.durable F Marshal).
Abbreviation flushable := (TabletOk.flushable F).

(** ** Conditional writes *)

Lemma sourceLocked_answers t d css hist :
  holds t d css -> reads_history (cells_of t css) hist ->
  exists m, sourceLocked F t d = Ok m /\ answers m hist.
Proof.
  intros Hh Hr. destruct (sourceLocked_ok F t d css Hh) as (m & Hm & Hrm & Hsc). exists m. split; [done|]. split; [done|].
  intros s. rewrite Hsc by (by apply fair_range_open). unfold merge_scan, in_range. pose proof (cells_of_sorted F t d css Hh) as Hso.
  rewrite <-merge_all_filter by done. rewrite <-(read_newest (Contains (from s)) _ hist Hso Hr). f_equal. apply list_filter_iff. intros c.
  unfold in_seek, cfAllowed. cbn [existsb negb]. by rewrite andb_true_r.
Qed.

Lemma conditionsMatchLocked_ok row conds t d css hist :
  holds t d css -> reads_history (cells_of t css) hist ->
  conditionsMatchLocked F row conds t d = conditions_spec row conds hist.
Proof.
  intros Hh Hr. unfold conditionsMatchLocked. destruct conds as [|c conds]; [done|].
  destruct (sourceLocked_answers t d css hist Hh Hr) as (m & -> & Ha). cbn [mbind result_bind]. by apply conditions_loop_ok.
Qed.

Lemma conditional_loop_ok cms logs results t d hist ms :
  up t d hist -> log_clean (LocalWAL.w_file (t_wal t)) ms -> Forall LocalWAL.wal_mutation_ok (cm_Mutation <$> cms) ->
  Forall (eq (LocalWAL.WriteAll, true)) logs ->
  exists t', conditional_loop F cms logs results t d =
      (t', rs ← (conditional_spec cms hist).2; Ok (results ++ rs)) /\
    up t' d (conditional_spec cms hist).1 /\ (exists ms', log_clean (LocalWAL.w_file (t_wal t')) ms') /\ t_opts t' = t_opts t.
Proof.
  revert logs results t hist ms. induction cms as [|m cms IH]; intros logs results t hist ms Hup Hcl Hok Hlogs.
  { exists t. cbn [conditional_loop conditional_spec fst snd mbind result_bind]. rewrite app_nil_r. eauto. }
  apply Forall_cons in Hok as [Hm Hok]. cbn [conditional_loop conditional_spec]. pose proof Hup as (css & Hh & Hr & _ & Hsync).
  rewrite (conditionsMatchLocked_ok _ _ t d css hist Hh Hr). destruct (conditions_spec _ _ hist) as [[]|e].
  - assert (default (LocalWAL.WriteAll, true) (head logs) = (LocalWAL.WriteAll, true)) as ->.
    { destruct Hlogs as [|? ? <-]; done. }
    unfold wal_append. destruct (Append_synced [cm_Mutation m] (t_wal t) Hsync) as (w & seq & -> & Hw & Ew). cbv iota beta.
    assert (Forall LocalWAL.wal_mutation_ok [cm_Mutation m]) as Hm1 by (by constructor).
    pose proof (ingest_up F Marshal t w d hist ms [cm_Mutation m] Hup Hcl Hm1 Hw Ew) as Hup'.
    change (log_cells [cm_Mutation m]) with (Cells (cm_Mutation m) ++ []) in Hup'. rewrite app_nil_r in Hup'.
    destruct (IH (tail logs) (results ++ [true]) (ingest [cm_Mutation m] (set_wal w t)) (hist ++ Cells (cm_Mutation m)) (ms ++ [cm_Mutation m]))
      as (t' & E & H1 & H2 & H3); [done| |done|by destruct Hlogs|].
    { destruct Hcl as [Hc1 Hc2]. split; [by apply Forall_app|]. change (t_wal (ingest _ _)) with w. rewrite Ew, Hc2. symmetry. apply LocalWAL.encode_all_app. }
    exists t'. rewrite E. destruct (conditional_spec cms _) as [h [rs|e]]; cbn [fst snd mbind result_bind] in *; [|done]. by rewrite <-app_assoc.
  - destruct (IH logs (results ++ [false]) t hist ms Hup Hcl Hok Hlogs) as (t' & E & H1 & H2 & H3).
    exists t'. rewrite E. destruct (conditional_spec cms _) as [h [rs|e]]; cbn [fst snd mbind result_bind] in *; [|done]. by rewrite <-app_assoc.
  - exists t. cbn [fst snd mbind result_bind]. eauto.
Qed.

Lemma ConditionalWrite_history cms logs x t d hist ms rs t' d' o :
  outside_ok x -> honest d -> up t d hist -> log_clean (LocalWAL.w_file (t_wal t)) ms ->
  Forall LocalWAL.wal_mutation_ok (cm_Mutation <$> cms) -> Forall (eq (LocalWAL.WriteAll, true)) logs ->
  (forall t1 r, conditional_loop F cms logs [] t d = (t1, r) -> flushable t1) ->
  ConditionalWrite F Marshal cms logs x t d = (t', d', o) ->
  (conditional_spec cms hist).2 = Ok rs ->
  honest d' /\ t_opts t' = t_opts t /\ durable d' (LocalWAL.w_file (t_wal t')) (conditional_spec cms hist).1 /\ synced (t_wal t') /\
  (o <> Crashed -> up t' d' (conditional_spec cms hist).1) /\ (forall a, o = Done a -> a = rs).
Proof.
  intros Hx Hhon Hup Hcl Hok Hlogs Hf HC Hrs. unfold ConditionalWrite in HC.
  destruct (conditional_loop_ok cms logs [] t d hist ms Hup Hcl Hok Hlogs) as (t1 & E & Hup1 & _ & Hopt). rewrite E, Hrs in HC.
  cbn [mbind result_bind app] in HC. specialize (Hf _ _ E).
  destruct (autoFlush_history F Marshal HF rs x t1 d _ t' d' o Hx Hhon Hf Hup1 HC) as (H1 & H2 & H3 & H4 & H5).
  split_and!; [done|by rewrite H2|done|done|done|]. intros a ->. clear -HC. unfold autoFlush in HC. destruct (_ >=? _) in HC; [|by injection HC as _ _ <-].
  destruct (flushLocked _ _ _ _ _) as [[t2 d2] [[]| |]]; [by injection HC as _ _ <-|done|done].
Qed.

(** ** The life of a tablet *)

Inductive world := Up (t : Tablet) (d : disk) | Down (d : disk) (file : bytes).

(** After a call: a crash leaves the disk and the log's file. *)
Definition after {A} (o : outcome A) (t : Tablet) (d : disk) : world :=
  match o with Crashed => Down d (LocalWAL.w_file (t_wal t)) | _ => Up t d end.

(** A step, and the history it leaves.  Writes need a log without a torn tail,
    which a flush or a fresh start gives ([append_after_torn_tail_is_lost]). *)
Inductive step : world * list Cell -> world * list Cell -> Prop :=
| step_open d file hist x opts t :
    outside_ok x -> label_valid opts -> Tablet.Open Unmarshal x LocalWAL.SyncFull opts d file = Ok t ->
    step (Down d file, hist) (Up t d, hist)
| step_write t d hist x new t' d' o :
    outside_ok x -> (exists ms, log_clean (LocalWAL.w_file (t_wal t)) ms) -> Forall LocalWAL.wal_mutation_ok new -> flushable (ingest new t) ->
    writeLocked F Marshal new LocalWAL.WriteAll true x t d = (t', d', o) ->
    step (Up t d, hist) (after o t' d', hist ++ log_cells new)
| step_conditional t d hist x cms rs t' d' o :
    outside_ok x -> (exists ms, log_clean (LocalWAL.w_file (t_wal t)) ms) -> Forall LocalWAL.wal_mutation_ok (cm_Mutation <$> cms) ->
    (forall t1 r, conditional_loop F cms [] [] t d = (t1, r) -> flushable t1) ->
    ConditionalWrite F Marshal cms [] x t d = (t', d', o) -> (conditional_spec cms hist).2 = Ok rs ->
    step (Up t d, hist) (after o t' d', (conditional_spec cms hist).1)
| step_flush t d hist x t' d' o :
    outside_ok x -> flushable t -> flushLocked F Marshal x t d = (t', d', o) ->
    step (Up t d, hist) (after o t' d', hist)
| step_close t d hist x t' d' o :
    outside_ok x -> flushable t -> Close F Marshal true x t d = (t', d', o) ->
    step (Up t d, hist) (Down d' (LocalWAL.w_file (t_wal t')), hist)
| step_crash t d hist n :
    (LocalWAL.w_synced (t_wal t) <= n)%nat ->
    step (Up t d, hist) (Down d (take n (LocalWAL.w_file (t_wal t))), hist)
| step_torn t d hist new n :
    (exists ms, log_clean (LocalWAL.w_file (t_wal t)) ms) -> Forall LocalWAL.wal_mutation_ok new -> (LocalWAL.w_synced (t_wal t) <= n)%nat ->
    step (Up t d, hist)
      (Down d (take n (LocalWAL.w_file (t_wal t) ++ LocalWAL.encode_all new)),
       hist ++ log_cells (LocalWAL.intact (n - LocalWAL.w_synced (t_wal t)) new))
| step_format t d hist f t' e :
    SetFileFormat f t = (t', e) -> step (Up t d, hist) (Up t' d, hist)
| step_embedding t d hist s t' e :
    SetDefaultEmbedding s t = (t', e) -> step (Up t d, hist) (Up t' d, hist).

(** A directory that is empty at first, and whose writes may fail or stop the
    process at any point, but do not lie about having been made. *)
Definition reachable (fs : list fault) : world * list Cell -> Prop := rtc step (Down (mkDisk ∅ fs) [], []).

Definition world_ok (s : world * list Cell) : Prop :=
  match s with
  | (Up t d, hist) => up t d hist /\ honest d
  | (Down d file, hist) => durable d file hist /\ honest d
  end.

Lemma fresh_ok fs : Forall (fun f => f <> WrittenUnmarked) fs -> world_ok (Down (mkDisk ∅ fs) [], []).
Proof.
  intros Hfs. split; [|exact Hfs]. exists []. split; [by apply log_clean_holds|]. split; [by exists []|].
  apply stored_unpublished; [done| |done]. intros name Hn. unfold data_files in Hn. apply elem_of_filter in Hn as [_ Hn].
  apply elem_of_dom in Hn as [v Hv]. cbn [objects] in Hv. by rewrite lookup_empty in Hv.
Qed.

Lemma set_opts_up o t d hist : up t d hist -> up (set_opts o t) d hist.
Proof. intros (css & [] & ?). exists css. split; [by split|done]. Qed.

Lemma after_ok {A} (o : outcome A) t d hist :
  honest d -> durable d (LocalWAL.w_file (t_wal t)) hist -> (o <> Crashed -> up t d hist) -> world_ok (after o t d, hist).
Proof. intros Hh Hd Hu. destruct o; cbn [after world_ok]; (split; [|done]); [by apply Hu|by apply Hu|done]. Qed.

Lemma Close_history x t d hist t' d' o :
  outside_ok x -> honest d -> flushable t -> up t d hist -> Close F Marshal true x t d = (t', d', o) ->
  honest d' /\ durable d' (LocalWAL.w_file (t_wal t')) hist.
Proof.
  intros Hx Hh Hf Hw. unfold Close. pose proof Hw as (css & H1 & H2 & Hd & _).
  assert (forall w, LocalWAL.w_file (LocalWAL.Close true w).1 = LocalWAL.w_file w) as Hclose.
  { intros w. unfold LocalWAL.Close, LocalWAL.syncLocked. by destruct (LocalWAL.w_dirty w). }
  assert (forall t1 d1 (o1 : outcome unit), honest d1 -> durable d1 (LocalWAL.w_file (t_wal t1)) hist ->
    match o1 with
    | Crashed => (t1, d1, Crashed)
    | _ => let '(w, e) := LocalWAL.Close true (t_wal t1) in (set_wal w t1, d1, match e with Some e => Failed e false | None => Done tt end)
    end = (t', d', o) -> honest d' /\ durable d' (LocalWAL.w_file (t_wal t')) hist) as Hend.
  { intros t1 d1 o1 Hh1 Hd1. specialize (Hclose (t_wal t1)). destruct (LocalWAL.Close true (t_wal t1)) as [w e]; cbn [fst] in Hclose.
    destruct o1 as [[]|? ?|]; intros [= <- <- _]; (split; [done|]); cbn [set_wal t_wal]; by rewrite ?Hclose. }
  destruct (sm_Len (t_active t) >? 0); [|by apply (Hend t d (Done tt))].
  destruct (flushLocked F Marshal x t d) as [[t1 d1] o1] eqn:Ef.
  destruct (flush_history F Marshal x t d hist t1 d1 _ css Hw H1 H2 (flushLocked_ok F Marshal HF x t d css t1 d1 o1 Hx Hh H1 Hf Ef)) as (G1 & _ & G2 & _).
  by apply Hend.
Qed.

Lemma life_step_ok s s' : step s s' -> world_ok s -> world_ok s'.
Proof.
  intros Hs. destruct Hs as [d file hist x opts t Hx Hlab HO|t d hist x new t' d' o Hx [ms Hcl] Hnew Hf HW
    |t d hist x cms rs t' d' o Hx [ms Hcl] Hok Hf HC Hrs|t d hist x t' d' o Hx Hf HF'|t d hist x t' d' o Hx Hf HC|t d hist n Hn|t d hist new n [ms Hcl] Hnew Hn
    |t d hist f t' e HS|t d hist st t' e HS]; cbn [world_ok]; intros [Hw Hh].
  - destruct (Open_up F Marshal Unmarshal Hjson x opts d file hist Hw (oo_now x Hx) Hlab) as (t0 & E & Hu & _). rewrite E in HO. by injection HO as <-.
  - destruct (writeLocked_history F Marshal HF new x t d hist ms t' d' o Hx Hh Hw Hcl Hnew Hf HW) as (H1 & _ & H2 & _ & H3). by apply after_ok.
  - destruct (ConditionalWrite_history cms [] x t d hist ms rs t' d' o Hx Hh Hw Hcl Hok (Forall_nil_2 _) Hf HC Hrs) as (H1 & _ & H2 & _ & H3 & _).
    by apply after_ok.
  - pose proof Hw as (css & H1 & H2 & _).
    destruct (flush_history F Marshal x t d hist t' d' _ css Hw H1 H2 (flushLocked_ok F Marshal HF x t d css t' d' o Hx Hh H1 Hf HF')) as (G1 & _ & G2 & _ & G3).
    by apply after_ok.
  - destruct (Close_history x t d hist t' d' o Hx Hh Hf Hw HC) as [H1 H2]. done.
  - destruct Hw as (css & _ & _ & Hd & (_ & _ & Hs)). split; [|done]. rewrite take_ge by lia. done.
  - destruct Hw as (css & _ & _ & Hd & (_ & _ & Hs)). split; [|done]. rewrite Hs. by apply (durable_append F Marshal d _ hist ms); [| |done|lia].
  - split; [|done]. unfold SetFileFormat in HS. destruct (ParseFileFormat f); injection HS as <- _; [by apply set_opts_up|done].
  - split; [|done]. unfold SetDefaultEmbedding in HS. destruct (if _ : bool then _ else _); [by injection HS as <- _|].
    destruct (_ >? 0); injection HS as <- _; [done|by apply set_opts_up].
Qed.

Lemma life_reachable_ok fs s : Forall (fun f => f <> WrittenUnmarked) fs -> reachable fs s -> world_ok s.
Proof.
  intros Hfs Hr. unfold reachable in Hr. remember (Down (mkDisk ∅ fs) [], []) as s0 eqn:E.
  assert (world_ok s0) as H0 by (subst; by apply fresh_ok). clear E. induction Hr; eauto using life_step_ok.
Qed.

(** The query stack on a tablet reads its history. *)
Lemma Scan_history t d hist auths s ceiling :
  up t d hist -> ParseInt s = Some ceiling -> 0 < ceiling ->
  exists sc, Scan F registryByName InfiniteRange [] false (query_specs s) (mkEnv ScopeScan false (Some auths)) t d = Ok sc /\
    it_live sc /\ sorted_cells (it_view sc) /\ forall x, at_coord x (it_view sc) = read_spec (NewAuthorizations auths) ceiling x hist.
Proof.
  intros (css & Hh & Hh' & _) Hs Hc. pose proof (cells_of_sorted F t d css Hh) as Hso.
  assert (Forall (fun spec => Name spec <> "vectorKNN"%string) (query_specs s)) as Hk by (rewrite query_specs_eq; by repeat constructor).
  destruct (Scan_live F registryByName Hreg InfiniteRange [] false (query_specs s) (query_layers auths ceiling) (mkEnv ScopeScan false (Some auths)) t d css
    Hh Hk (query_specs_valid registryByName Hreg s ceiling Hs Hc) (query_layers_eq auths s ceiling Hs Hc) (fair_range_all css)) as (sc & HS & Hlive & E & Hsorted).
  exists sc. split; [exact HS|]. split; [exact Hlive|]. split; [exact Hsorted|]. rewrite E.
  assert (merge_scan (cells_of t css) InfiniteRange [] false = merge_all (cells_of t css)) as Em by (unfold merge_scan; by rewrite in_range_all).
  intros x. unfold query_layers. rewrite scan_layers_at by (rewrite Em; by apply merge_all_sorted).
  rewrite Em. by apply head_read.
Qed.

(** ** Properties *)



End tablet.

(** ** Witnesses: two versions of a cell are written, the second write flushes
    and fails to truncate the log, the process stops and the tablet is opened
    again. *)

Definition demo_outside (truncates : bool) : Outside := mkOutside (fun _ => 1000) 1000 (Ok [97]) truncates (fun _ => false).
Definition demo_options : Options := mkOptions 2 [] FormatParquet zero_state 0.
Definition demo_write (value : Z) : Mutation := Put [1] [2] [] 5 [value] (mkMutation [82] []).
Definition demo_open (d : disk) (file : bytes) : Tablet :=
  match Tablet.Open demo_Unmarshal_manifest (demo_outside true) LocalWAL.SyncFull demo_options d file with
  | Ok t => t
  | Err _ => mkTablet (newSkiplistMemtable (fun _ => false)) (LocalWAL.Open [] LocalWAL.SyncFull) demo_options [] (mkState [] ∅ 0 ∅ ∅ ∅ ∅ false ∅ 0)
  end.
Definition demo_written (value : Z) (t : Tablet) (d : disk) : Tablet * disk * outcome unit :=
  writeLocked demo_formats demo_Marshal_manifest [demo_write value] LocalWAL.WriteAll true (demo_outside false) t d.

Definition demo_disk : disk := mkDisk ∅ [].
Definition demo_first := demo_written 1 (demo_open demo_disk []) demo_disk.
Definition demo_second := demo_written 2 demo_first.1.1 demo_first.1.2.
Definition demo_file : bytes := LocalWAL.w_file (t_wal demo_second.1.1).
Definition demo_history : list Cell := log_cells [demo_write 1] ++ log_cells [demo_write 2].
Definition demo_reopened : Tablet := demo_open demo_second.1.2 demo_file.

Abbreviation demo_reachable := (reachable demo_formats demo_Marshal_manifest demo_Unmarshal_manifest []).

Lemma demo_outside_ok b : outside_ok (demo_outside b).
Proof. split; [by intros i [= <-]|done]. Qed.

Lemma demo_writes_ok v : 0 <= v < 256 -> Forall LocalWAL.wal_mutation_ok [demo_write v].
Proof. intros Hv. repeat constructor; try done; vm_compute; congruence. Qed.

Lemma demo_write_step t d hist v t' d' :
  demo_reachable (Up t d, hist) -> (exists ms, log_clean (LocalWAL.w_file (t_wal t)) ms) -> 0 <= v < 256 ->
  o_FileFormat (t_opts t) = FormatParquet -> (demo_written v t d).1 = (t', d') -> (demo_written v t d).2 <> Crashed ->
  demo_reachable (Up t' d', hist ++ log_cells [demo_write v]).
Proof.
  intros Hr Hcl Hv Hf E Ho. destruct (demo_written v t d) as [[t1 d1] o] eqn:Ew. cbn in E, Ho. injection E as <- <-.
  replace (Up t1 d1) with (after o t1 d1) by (by destruct o).
  eapply rtc_r; [exact Hr|]. eapply step_write; [apply (demo_outside_ok false)|done|by apply demo_writes_ok| |exact Ew].
  intros H. change (o_FileFormat (t_opts t) = FormatRFile) in H. by rewrite Hf in H.
Qed.

Lemma demo_open_step d file hist :
  demo_reachable (Down d file, hist) ->
  Tablet.Open demo_Unmarshal_manifest (demo_outside true) LocalWAL.SyncFull demo_options d file = Ok (demo_open d file) ->
  demo_reachable (Up (demo_open d file) d, hist).
Proof. intros Hr HO. eapply rtc_r; [exact Hr|]. eapply step_open; [apply (demo_outside_ok true)| |exact HO]. by left. Qed.

Lemma demo_down : demo_reachable (Down demo_second.1.2 demo_file, demo_history).
Proof.
  assert (demo_reachable (Up (demo_open demo_disk []) demo_disk, [])) as H0 by (apply demo_open_step; [apply rtc_refl|vm_compute; reflexivity]).
  assert (demo_reachable (Up demo_first.1.1 demo_first.1.2, log_cells [demo_write 1])) as H1.
  { apply (demo_write_step _ _ [] 1 _ _ H0); [exists []; split; [done|vm_compute; reflexivity]|done|vm_compute; reflexivity|apply surjective_pairing|vm_compute; discriminate]. }
  assert (demo_reachable (Up demo_second.1.1 demo_second.1.2, demo_history)) as H2.
  { apply (demo_write_step _ _ _ 2 _ _ H1); [|done|vm_compute; reflexivity|apply surjective_pairing|vm_compute; discriminate].
    exists [demo_write 1]. split; [by apply demo_writes_ok|vm_compute; reflexivity]. }
  assert (LocalWAL.w_synced (t_wal demo_second.1.1) <= length demo_file)%nat as Hn by (apply Nat.leb_le; vm_compute; reflexivity).
  pose proof (rtc_r _ _ _ H2 (step_crash demo_formats demo_Marshal_manifest demo_Unmarshal_manifest _ _ _ _ Hn)) as H3.
  by rewrite take_ge in H3 by (unfold demo_file; lia).
Qed.

Lemma demo_up : demo_reachable (Up demo_reopened demo_second.1.2, demo_history).
Proof. apply demo_open_step; [exact demo_down|vm_compute; reflexivity]. Qed.



(** The newest value is 2: a second write that expects 1 is refused. *)
Definition demo_conditional : list ConditionalMutation :=
  [mkConditional (demo_write 3) [mkCondition [1] [2] [] None ConditionValueEquals [1]];
   mkConditional (demo_write 4) [mkCondition [1] [2] [] None ConditionValueEquals [2]];
   mkConditional (demo_write 5) [mkCondition [1] [2] [] None ConditionAbsent []]].

