(* ===== verification/TabletCompact.v ===== *)
(** * TabletCompact: compaction of a tablet's files
    (src/internal/tablet: tablet.go, tombstone_retention.go)

    [Compact] replaces every run of consecutive files of one embedding state by
    one file, and beside the only file of a full compaction keeps the
    tombstones that importers of exported files may still need.  The export
    clock is read once.  Of an error with two causes the first is kept. *)

From stdpp Require Import strings.
From S2P Require Import Prelude Wire GoStd Iter IterStack Stack Memtable EmbeddingSpace.
From S2P Require Compaction.
From S2P Require Import Store TabletFiles Images Tablet.
Import Iter.

Abbreviation Input := Compaction.Input.

Fixpoint first_cause (e : Compaction.cerr) : err :=
  match e with Compaction.Cause e => e | Compaction.Both a _ => first_cause a end.

(** ** Runs of files *)

(** [ru_inputs]: oldest first. *)
Record inputRun := mkRun { ru_state : FileState; ru_inputs : list Input }.

Definition same_state (a b : FileState) : bool := bool_decide (String_ a = String_ b).

(** The input joins the last run, or starts one. *)
Fixpoint add_input (runs : list inputRun) (state : FileState) (i : Input) : list inputRun :=
  match runs with
  | [] => [mkRun state [i]]
  | [run] => if same_state (ru_state run) state then [mkRun (ru_state run) (ru_inputs run ++ [i])] else [run; mkRun state [i]]
  | run :: runs => run :: add_input runs state i
  end.

Section runs.
Context (F : Formats).

Definition read_input (d : disk) (path : bytes) : result (FileState * Input) :=
  data ← wrap "tablet: read for compaction" (storage_ReadAll d path);
  state ← wrap "tablet: read embedding state" (embeddingStateFromImage F path data);
  Ok (state, Compaction.mkInput path state data []).

Fixpoint runs_loop (d : disk) (paths : list bytes) (runs : list inputRun) : result (list inputRun) :=
  match paths with
  | [] => Ok runs
  | path :: paths => '(state, i) ← read_input d path; runs_loop d paths (add_input runs state i)
  end.
End runs.

Definition mixed (runs : list inputRun) : bool :=
  match runs with [] => false | run :: runs => existsb (fun r => negb (same_state (ru_state run) (ru_state r))) runs end.

Definition ErrMixedEmbeddingCompactionStack : err := Fail "tablet: mixed embedding states cannot be compacted with a stack".

(** ** Which tombstones stay (tombstone_retention.go) *)

Definition tombstoneBuckets : Z := 4.

(** Nanoseconds to milliseconds. *)
Definition retentionMillis (t : Tablet) : Z :=
  let r := TombstoneRetention (t_opts t) in
  if r <? 0 then 0
  else if r =? 0 then 7 * 24 * 3600 * 1000
  else let ms := r ÷ 1000000 in if ms >? 0 then ms else 1.

Definition exported_at (t : Tablet) (name : bytes) : Z := default 0 (exported (t_gen t) !! name).

Definition effectiveExportTime (t : Tablet) (name : bytes) : option Z :=
  if exported_at t name >? 0 then Some (exported_at t name)
  else if assumedAt (t_gen t) >? 0 then Some (assumedAt (t_gen t)) else None.

Record tombstoneGroup := mkGroup { tg_exportedAt : Z; tg_inputs : list Input }.

(** The bucket an input's tombstones go to and the export time they keep, if
    they are kept. *)
Definition bucket_of (now horizon width : Z) (t : Tablet) (name : bytes) : option (Z * Z) :=
  if bool_decide (name ∈ tombstoneFree (t_gen t)) then None
  else
    let at_ := exported_at t name in
    match (if (at_ =? 0) && negb (exportedLineage (t_gen t)) then effectiveExportTime t name else Some at_) with
    | None => None
    | Some at_ =>
        if at_ >? 0 then if now - at_ >=? horizon then None else Some (at_ ÷ width, at_)
        else Some (-1, at_)
    end.

Definition group_input (now horizon width : Z) (t : Tablet) (groups : gmap Z tombstoneGroup) (i : Input) : gmap Z tombstoneGroup :=
  match bucket_of now horizon width t (Compaction.in_Name i) with
  | None => groups
  | Some (bucket, at_) =>
      let g := default (mkGroup 0 []) (groups !! bucket) in
      <[bucket := mkGroup (if at_ >? tg_exportedAt g then at_ else tg_exportedAt g) (tg_inputs g ++ [i])]> groups
  end.

(** [inputs]: oldest first; the groups' are newest first. *)
Definition planRetainedTombstones (now : Z) (t : Tablet) (inputs : list Input) : list tombstoneGroup :=
  let horizon := retentionMillis t in
  if horizon =? 0 then []
  else
    let width := if horizon ÷ tombstoneBuckets <? 1 then 1 else horizon ÷ tombstoneBuckets in
    let groups := foldl (group_input now horizon width t) ∅ (reverse inputs) in
    (SliceStable (fun a b => a.1 <? b.1) (map_to_list groups)).*2.

Definition compaction_name (f : FileFormat) (name : bytes) : bool :=
  bool_decide (fileFormat name = f) && negb (len name <? 15) && bool_decide (name !! 0%nat = Some 67) && bool_decide (name !! 14%nat = Some 45) &&
  match nameMillis name with Some _ => true | None => false end.

Definition recompactionIsNoOpLocked (t : Tablet) (inputs : list Input) (retained : list tombstoneGroup) : bool :=
  let names := Compaction.in_Name <$> inputs in
  if len inputs <? 2 then false
  else if negb (forallb (compaction_name (o_FileFormat (t_opts t))) names) then false
  else if negb (forallb (fun name => bool_decide (take 15 name = take 15 (default [] (head names)))) names) then false
  else if negb (len (filter (fun name => name ∈ tombstoneFree (t_gen t)) names) =? 1) || negb (len retained =? len inputs - 1) then false
  else forallb (fun g => len (tg_inputs g) =? 1) retained.

(** ** Writing the outputs *)

Record compactedOutput := mkOutput { co_name : bytes; co_entries : Z; co_exportedAt : Z; co_tombstoneFree : bool }.

(** Errors of the removals are ignored. *)
Fixpoint remove_all (names : list bytes) (d : disk) : disk * bool :=
  match names with
  | [] => (d, true)
  | name :: names => match removeObject name d with (d, Crashed) => (d, false) | (d, _) => remove_all names d end
  end.

Definition cleanup_and_fail {A} (outputs : list compactedOutput) (e : err) (committed : bool) (d : disk) : disk * outcome A :=
  match remove_all (co_name <$> outputs) d with (d, true) => (d, Failed e committed) | (d, false) => (d, Crashed) end.

Definition format_name (f : FileFormat) : bytes := match f with FormatRFile => str "rfile" | FormatParquet => str "parquet" end.

Section compact.
Context (F : Formats) (registryByName : gmap string iteratorRegistration).
Context (Marshal : immutableManifest -> result bytes).

Definition run_spec (t : Tablet) (stack : list IterSpec) (full : bool) (run : inputRun) : Compaction.Spec :=
  Compaction.mkCompaction (reverse (ru_inputs run)) stack ScopeMajc full false [] 0 (AdjacencyEdgeCF (t_opts t))
    (format_name (o_FileFormat (t_opts t))) [] [] None.

Definition group_spec (t : Tablet) (g : tombstoneGroup) : Compaction.Spec :=
  Compaction.mkCompaction (tg_inputs g) [] ScopeMajc false true [] 0 (AdjacencyEdgeCF (t_opts t))
    (format_name (o_FileFormat (t_opts t))) [] [] None.

(** A multi-run output of a tablet never exported carries its inputs' latest
    export time. *)
Definition run_exportedAt (t : Tablet) (run : inputRun) : Z :=
  foldl (fun at_ i => match effectiveExportTime t (Compaction.in_Name i) with Some a => if a >? at_ then a else at_ | None => at_ end) 0 (ru_inputs run).

Definition run_output (t : Tablet) (full : bool) (run : inputRun) (name : bytes) (r : Compaction.Result) : compactedOutput :=
  let free := Compaction.TombstonesWritten r =? 0 in
  mkOutput name (Compaction.EntriesWritten r)
    (if negb full && negb free && negb (exportedLineage (t_gen t)) then run_exportedAt t run else 0) free.

Fixpoint write_runs (t : Tablet) (stack : list IterSpec) (full : bool) (base : Z) (index : nat) (runs : list inputRun)
    (outputs : list compactedOutput) (d : disk) : disk * outcome (list compactedOutput) :=
  match runs with
  | [] => (d, Done outputs)
  | run :: runs =>
      match (Compaction.CompactContext F registryByName (run_spec t stack full run)).1 with
      | inl e => cleanup_and_fail outputs (Wrap "tablet: compact" (first_cause e)) false d
      | inr r =>
          let name := compact_name base index (extension (o_FileFormat (t_opts t))) in
          match storage_WriteAll name (Compaction.Output r) d with
          | (d, Crashed) => (d, Crashed)
          | (d, Failed e c) => cleanup_and_fail outputs (Wrap "tablet: write compacted" e) c d
          | (d, Done _) => write_runs t stack full base (S index) runs (outputs ++ [run_output t full run name r]) d
          end
      end
  end.

Fixpoint write_retained (t : Tablet) (base : Z) (index : nat) (groups : list tombstoneGroup) (outputs : list compactedOutput) (d : disk)
  : disk * outcome (list compactedOutput) :=
  match groups with
  | [] => (d, Done outputs)
  | g :: groups =>
      match (Compaction.CompactContext F registryByName (group_spec t g)).1 with
      | inl e => cleanup_and_fail outputs (Wrap "tablet: keep exported tombstones" (first_cause e)) false d
      | inr r =>
          if Compaction.EntriesWritten r =? 0 then write_retained t base (S index) groups outputs d
          else
            let name := compact_name base index (extension (o_FileFormat (t_opts t))) in
            match storage_WriteAll name (Compaction.Output r) d with
            | (d, Crashed) => (d, Crashed)
            | (d, Failed e c) => cleanup_and_fail outputs (Wrap "tablet: write kept tombstones" e) c d
            | (d, Done _) =>
                write_retained t base (S index) groups (outputs ++ [mkOutput name (Compaction.EntriesWritten r) (tg_exportedAt g) false]) d
            end
      end
  end.

(** ** The new generation *)

(** Producers whose files are folded into the outputs stay held. *)
Definition absorb (g : immutableState) : gset bytes :=
  foldl (fun abs old =>
      let source := default [] (sources g !! old) in
      if not_empty source then {[source]} ∪ abs
      else match legacyContentIdentity old with Some digest => {[digest]} ∪ abs | None => abs end)
    (absorbed g) (active g).

Definition compacted_state (g : immutableState) (instance : bytes) (outputs : list compactedOutput) : immutableState :=
  mkState (co_name <$> outputs) (obsolete g ∪ list_to_set (active g)) (nameHighWater g) ∅ (absorb g)
    (foldl (fun m o => <[co_name o := instance]> m) ∅ outputs)
    (foldl (fun m o => if co_exportedAt o >? 0 then <[co_name o := co_exportedAt o]> m else m) ∅ outputs)
    (exportedLineage g)
    (foldl (fun s o => if co_tombstoneFree o then {[co_name o]} ∪ s else s) ∅ outputs)
    (assumedAt g).

(** The old files: what is removed is no longer obsolete. *)
Fixpoint remove_old (names : list bytes) (obs : gset bytes) (d : disk) : gset bytes * disk * bool :=
  match names with
  | [] => (obs, d, true)
  | name :: names =>
      match removeObject name d with
      | (d, Crashed) => (obs, d, false)
      | (d, Done _) => remove_old names (obs ∖ {[name]}) d
      | (d, Failed _ _) => remove_old names obs d
      end
  end.

(** From the manifest of the new generation on. *)
Definition publish_compaction (old : list bytes) (next : immutableState) (outputs : list compactedOutput) (t : Tablet) (d : disk)
  : Tablet * disk * outcome unit :=
  match persistImmutableManifest Marshal next d with
  | (d, Crashed) => (t, d, Crashed)
  | (d, Failed e true) =>
      (set_gen next t, d, Failed (Wrap "tablet: publish compacted generation committed with cleanup error" e) true)
  | (d, Failed e false) =>
      let '(d, o) := cleanup_and_fail outputs (Wrap "tablet: publish compacted generation" e) false d in (t, d, o)
  | (d, Done _) =>
      let '(obs, d, alive) := remove_old old (obsolete next) d in
      let t := set_gen (set_obsolete obs next) t in
      if negb alive then (t, d, Crashed)
      else match persistImmutableManifest Marshal (t_gen t) d with (d, Crashed) => (t, d, Crashed) | (d, _) => (t, d, Done tt) end
  end.

(** Once the runs are known. *)
Definition compact_runs (x : Outside) (stack : list IterSpec) (runs : list inputRun) (retained : list tombstoneGroup) (t : Tablet) (d : disk)
  : Tablet * disk * outcome unit :=
  let g := t_gen t in
  let full := len runs =? 1 in
  match freeCompactionBase d (ou_now x) (nameHighWater g) (length runs + length retained) (extension (o_FileFormat (t_opts t))) (existingNames g) with
  | None => (t, d, Failed OutOfFuel false)
  | Some base =>
      match mintInstance (ou_drawn x) t with
      | (t, Err e) => (t, d, Failed e false)
      | (t, Ok instance) =>
          let t := set_gen (set_highWater base g) t in
          match write_runs t stack full base 0 runs [] d with
          | (d, Crashed) => (t, d, Crashed)
          | (d, Failed e c) => (t, d, Failed e c)
          | (d, Done outputs) =>
              match write_retained t base (length runs) retained outputs d with
              | (d, Crashed) => (t, d, Crashed)
              | (d, Failed e c) => (t, d, Failed e c)
              | (d, Done outputs) => publish_compaction (active g) (compacted_state (t_gen t) instance outputs) outputs t d
              end
          end
      end
  end.

Definition nothing_to_compact (t : Tablet) : bool :=
  match active (t_gen t) with
  | [] => true
  | [path] => bool_decide (fileFormat path = o_FileFormat (t_opts t))
  | _ => false
  end.

Definition Compact (x : Outside) (stack : list IterSpec) (t : Tablet) (d : disk) : Tablet * disk * outcome unit :=
  let g := t_gen t in
  if nothing_to_compact t then (t, d, Done tt)
  else match runs_loop F d (active g) [] with
  | Err e => (t, d, Failed e false)
  | Ok runs =>
      if mixed runs && negb (bool_decide (stack = [])) then (t, d, Failed ErrMixedEmbeddingCompactionStack false)
      else
        let inputs := default [] (ru_inputs <$> head runs) in
        let retained := if len runs =? 1 then planRetainedTombstones (ou_exportNow x) t inputs else [] in
        if (len runs =? 1) && recompactionIsNoOpLocked t inputs retained then (t, d, Done tt)
        else compact_runs x stack runs retained t d
  end.
End compact.
