(* ===== verification/TabletCompactOk.v ===== *)
(** * TabletCompactOk: a compaction of a tablet changes no read *)

From stdpp Require Import strings.
From S2P Require Import Prelude Wire GoStd Iter IterStack IterLaws Merge Reads Stack Memtable EmbeddingSpace Convergence.
From S2P Require RFile RFileReader Parquet.
From S2P Require Import Compaction.
From S2P Require Import Store TabletFiles Images Tablet TabletOk TabletLife TabletCompact.
Import Iter.

(** ** Tombstones after the live cells *)

Definition live_only_cells (l : list Cell) : list Cell := filter (fun c : Cell => Deleted c.1 = false) l.

(** A sorted stream whose tombstones are not before its live cells is cut
    where the live cells end. *)
Lemma until_delete_live l :
  sorted_cells l -> (forall a g, a ∈ l -> g ∈ l -> Deleted a.1 = false -> Deleted g.1 = true -> key_le a.1 g.1) ->
  until_delete false l = live_only_cells l.
Proof.
  induction l as [|c l IH]; [done|]. intros [Hs Hc]%sorted_cells_cons Hle. cbn [until_delete]. unfold live_only_cells. rewrite filter_cons.
  destruct (Deleted c.1) eqn:Ec.
  - rewrite decide_False by done. symmetry. apply filter_none, Forall_forall. intros a Ha Hl.
    assert (key_le a.1 c.1) as H1 by (apply Hle; [by right|by left|done|done]).
    pose proof (proj1 (Forall_forall _ _) Hc a Ha) as H2. assert (a.1 = c.1) by (by apply (anti_symm key_le)). congruence.
  - rewrite decide_True by done. f_equal. apply IH; [done|]. intros a g Ha Hg. by apply Hle; right.
Qed.

Lemma until_delete_sorted_split l a g :
  sorted_cells l -> a ∈ until_delete false l -> g ∈ l -> Deleted g.1 = true -> key_le a.1 g.1.
Proof.
  induction l as [|c l IH]; [by intros _ ?%elem_of_nil|]. intros [Hs Hc]%sorted_cells_cons. cbn [until_delete].
  destruct (Deleted c.1) eqn:Ec; [by intros ?%elem_of_nil|]. intros [->|Ha]%elem_of_cons [->|Hg]%elem_of_cons Hd; [done| |congruence|].
  - by apply (proj1 (Forall_forall _ _) Hc).
  - by apply IH.
Qed.

Lemma until_delete_all_live l : Forall (fun c : Cell => Deleted c.1 = false) (until_delete false l).
Proof. induction l as [|c l IH]; cbn [until_delete]; [constructor|]. destruct (Deleted c.1) eqn:E; [constructor|by constructor]. Qed.

Lemma merge_all_one l : merge_all [l] = l.
Proof. rewrite merge_all_cons. change (merge_all []) with (@nil Cell). apply list_merge_nil_r. Qed.

(** What is left of the files of a full compaction: the main output, and
    tombstones of the inputs. *)
Lemma read_main x m main tombs :
  sorted_cells m -> main = apply_deletes false None m ->
  Forall (fun l => sorted_cells l /\ Forall (fun c : Cell => Deleted c.1 = true /\ c ∈ m) l) tombs ->
  read_coord x (reverse (main :: tombs)) = until_delete false (at_coord x m).
Proof.
  intros Hm -> Ht. unfold read_coord.
  assert (sorted_cells (apply_deletes false None m)) as Hmain by (eapply sorted_cells_sublist; [apply apply_deletes_sublist|done]).
  assert (Forall sorted_cells (reverse (apply_deletes false None m :: tombs))) as Hs.
  { apply Forall_reverse. constructor; [done|]. eapply Forall_impl; [exact Ht|]. intros l [H _]. exact H. }
  assert (forall c, c ∈ at_coord x (merge_all (reverse (apply_deletes false None m :: tombs))) ->
    c ∈ until_delete false (at_coord x m) \/ (Deleted c.1 = true /\ c ∈ at_coord x m)) as Hin.
  { intros c [Hc Hin]%at_coord_elem. rewrite merge_all_perm in Hin. apply list_elem_of_In, in_concat in Hin as (l & Hl%list_elem_of_In & Hin%list_elem_of_In).
    rewrite elem_of_reverse in Hl. apply elem_of_cons in Hl as [->|Hl].
    - left. rewrite <-apply_deletes_at_coord by done. by apply at_coord_elem.
    - right. destruct (proj1 (Forall_forall _ _) Ht l Hl) as [_ H]. destruct (proj1 (Forall_forall _ _) H c Hin) as [Hd Hcm]. split; [done|]. by apply at_coord_elem. }
  assert (sorted_cells (at_coord x m)) as Hmx by (by apply sorted_cells_filter).
  rewrite until_delete_live.
  - unfold live_only_cells. rewrite at_coord_merge_all by done.
    rewrite merge_all_filter by (rewrite Forall_fmap; eapply Forall_impl; [exact Hs|]; intros l Hl; by apply sorted_cells_filter).
    assert (forall ls, Forall (fun l => sorted_cells l /\ Forall (fun c : Cell => Deleted c.1 = true /\ c ∈ m) l) ls ->
      Forall (eq []) (filter (fun c : Cell => Deleted c.1 = false) <$> (at_coord x <$> ls))) as Hnil.
    { intros ls Hls. rewrite !Forall_fmap. eapply Forall_impl; [exact Hls|]. intros l [_ Hl]. symmetry. apply filter_none, Forall_forall.
      intros c [_ Hc]%at_coord_elem. destruct (proj1 (Forall_forall _ _) Hl c Hc) as [H _]. congruence. }
    specialize (Hnil (reverse tombs) ltac:(by apply Forall_reverse)).
    assert (forall ls, Forall sorted_cells ls -> Forall sorted_cells (filter (fun c : Cell => Deleted c.1 = false) <$> (at_coord x <$> ls))) as Hmap.
    { intros ls Hls. rewrite !Forall_fmap. eapply Forall_impl; [exact Hls|]. intros l Hl. by apply sorted_cells_filter, sorted_cells_filter. }
    rewrite reverse_cons in Hs |- *. apply Forall_app in Hs as [Hs1 Hs2]. rewrite !fmap_app, merge_all_app by (by apply Hmap).
    rewrite (merge_all_nil _ Hnil), list_merge_nil_l. cbn [fmap list_fmap]. rewrite merge_all_one, apply_deletes_at_coord by done.
    apply filter_all, until_delete_all_live.
  - by apply sorted_cells_filter, merge_all_sorted.
  - intros a g [Ha|[Hd _]]%Hin [Hg|[_ Hg]]%Hin Hla Hdg.
    + pose proof (proj1 (Forall_forall _ _) (until_delete_all_live _) g Hg) as Hx. cbn in Hx. congruence.
    + by eapply until_delete_sorted_split.
    + congruence.
    + congruence.
Qed.

Lemma read_above x mem ls : sorted_cells mem -> Forall sorted_cells ls -> at_coord x mem = [] -> read_coord x (mem :: ls) = read_coord x ls.
Proof.
  intros Hm Hs E. unfold read_coord. rewrite merge_all_cons, at_coord_merge, E by (by try apply merge_all_sorted). by rewrite list_merge_nil_l.
Qed.

(** Each run of files by its compaction. *)
Definition run_cells (css : list (list Cell)) : list Cell := apply_deletes true None (merge_all css).

Lemma apply_deletes_sorted p l : sorted_cells l -> sorted_cells (apply_deletes p None l).
Proof. intros Hs. eapply sorted_cells_sublist; [apply apply_deletes_sublist|done]. Qed.

Lemma read_runs x newer (csss : list (list (list Cell))) :
  Forall sorted_cells newer -> Forall (Forall sorted_cells) csss ->
  read_coord x (newer ++ (run_cells <$> csss)) = read_coord x (newer ++ concat csss).
Proof.
  intros Hn Hs. revert newer Hn. induction Hs as [|css csss Hc Hs IH]; intros newer Hn; [done|]. cbn [fmap list_fmap concat].
  assert (sorted_cells (run_cells css)) as Hr by (by apply apply_deletes_sorted, merge_all_sorted).
  assert (Forall sorted_cells (run_cells <$> csss)) as Hrs.
  { rewrite Forall_fmap. eapply Forall_impl; [exact Hs|]. intros l Hl. by apply apply_deletes_sorted, merge_all_sorted. }
  change (run_cells css :: (run_cells <$> csss)) with ([run_cells css] ++ (run_cells <$> csss)).
  rewrite (read_coord_replace x newer [run_cells css] css (run_cells <$> csss)); [|done|by repeat constructor|done|done|].
  - rewrite !app_assoc. apply IH. by apply Forall_app.
  - rewrite merge_all_one. unfold run_cells. rewrite apply_deletes_at_coord by (by apply merge_all_sorted). apply until_delete_idem.
Qed.

(** Newer cells over files of which only the live part is left. *)
Lemma until_delete_cut f : exists rest, f = until_delete false f ++ rest /\ (rest = [] \/ exists g l, rest = g :: l /\ Deleted g.1 = true).
Proof.
  induction f as [|c f (rest & E & H)]; [exists []; by split; [|left]|]. cbn [until_delete]. destruct (Deleted c.1) eqn:Ec.
  - exists (c :: f). split; [done|]. right. by exists c, f.
  - exists rest. split; [cbn [app]; by f_equal|done].
Qed.

Lemma until_delete_end l g rest : Deleted g.1 = true -> until_delete false (l ++ g :: rest) = until_delete false l.
Proof. intros Hg. induction l as [|c l IH]; cbn [app until_delete]; [by rewrite Hg|]. destruct (Deleted c.1); [done|]. by rewrite IH. Qed.

Lemma merge_before mem l rest :
  (forall a c, a ∈ mem -> c ∈ rest -> key_le a.1 c.1) -> list_merge cell_le mem (l ++ rest) = list_merge cell_le mem l ++ rest.
Proof.
  revert l. induction mem as [|a mem IH]; intros l Hle; [by rewrite !list_merge_nil_l|].
  assert (forall b c, b ∈ mem -> c ∈ rest -> key_le b.1 c.1) as Hle' by (intros b c Hb; apply Hle; by right).
  induction l as [|b l IHl].
  - cbn [app]. rewrite list_merge_nil_r. destruct rest as [|c rest]; [by rewrite list_merge_nil_r, app_nil_r|].
    rewrite list_merge_cons, decide_True by (apply Hle; by left). cbn [app]. f_equal. rewrite <-(app_nil_l (c :: rest)), IH by done. by rewrite list_merge_nil_r.
  - cbn [app]. rewrite !list_merge_cons. case_decide; cbn [app]; f_equal; [by apply (IH (b :: l))|done].
Qed.

Lemma read_under mem f :
  sorted_cells f -> (forall a g, a ∈ mem -> g ∈ f -> Deleted g.1 = true -> key_le a.1 g.1) ->
  until_delete false (list_merge cell_le mem f) = until_delete false (list_merge cell_le mem (until_delete false f)).
Proof.
  intros Hs Hle. destruct (until_delete_cut f) as (rest & E & [->|(g & l & -> & Hg)]); [by rewrite app_nil_r in E; rewrite <-E|].
  rewrite E in Hs, Hle |- * at 1. rewrite merge_before; [by apply until_delete_end|].
  intros a c Ha Hc. etrans; [apply (Hle a g Ha); [apply elem_of_app; right; by left|done]|].
  apply sorted_cells_app in Hs as (_ & Hs & _). apply sorted_cells_cons in Hs as [_ Hs].
  apply elem_of_cons in Hc as [->|Hc]; [done|]. by apply (proj1 (Forall_forall _ _) Hs).
Qed.

Section compact.
Context (F : Formats) (registryByName : gmap string iteratorRegistration).
Context (Marshal : immutableManifest -> result bytes) (Unmarshal : bytes -> result immutableManifest).
Context (HF : formats_ok F) (Hreg : registry_ok registryByName).
Abbreviation holds := (TabletOk.holds F).
Abbreviation file_holds := (TabletOk.file_holds F).
Abbreviation tracked := (TabletOk.tracked F).
Abbreviation published := (TabletOk.published F Marshal).

(** ** Inputs *)

Lemma Decode_valid U b s : EmbeddingSpace.Decode U b = Ok s -> EmbeddingSpace.Validate s = None.
Proof. unfold Decode. case_bool_decide; [done|]. destruct (U b) as [s'|]; [|done]. intros [Hv ->]%checked_Ok. done. Qed.

(** The state of a file is checked when it is read. *)
Lemma embeddingState_valid name data label : embeddingStateFromImage F name data = Ok label -> EmbeddingSpace.Validate label = None.
Proof.
  unfold embeddingStateFromImage. case_bool_decide.
  - unfold Parquet.ReadEmbeddingSpaceMetadata. destruct (Parquet.OpenFile _ _) as [file|]; [|done]. cbn [wrap mbind result_bind].
    destruct (Parquet.f_Lookup file _) as [v|]; [|by intros [= <-]]. destruct (Decode (fm_Unmarshal F) v) as [s|] eqn:E; [|done].
    intros [= <-]. by eapply Decode_valid.
  - destruct (rfile_container data) as [bc|]; [|done]. cbn [mbind result_bind]. unfold RFileShared.ReadEmbeddingSpaceMetadata, RFileReader.loadEmbeddingSpace.
    destruct (RFileReader.loadSection _ _ _ _) as [[s|]|] eqn:E; [| |done]; cbn [mbind result_bind]; intros [= <-]; [|done].
    unfold RFileReader.loadSection in E. destruct (Container.MetaBlockEntry _ _) as [entry|]; [|done].
    destruct (RFileReader.fetchBlock _ _ _ _) as [raw|]; [|done]. cbn [wrap mbind result_bind] in E.
    destruct (Decode (fm_Unmarshal F) raw) as [s'|] eqn:Ed; [|done]. cbn [wrap mbind result_bind] in E. injection E as <-. by eapply Decode_valid.
Qed.

Lemma Ext_suffix name : exists a, name = a ++ Ext name.
Proof.
  assert (forall r s, exists a, reverse r ++ s = a ++ Ext_loop r s \/ Ext_loop r s = []) as H.
  { intros r. induction r as [|c r IH]; intros s; cbn [Ext_loop]; [exists []; by right|]. destruct (c =? 46).
    - exists (reverse r). left. by rewrite reverse_cons, <-app_assoc.
    - destruct (IH (c :: s)) as (a & [E|E]); [|exists []; by right]. exists a. left. by rewrite <-E, reverse_cons, <-app_assoc. }
  destruct (H (reverse name) []) as (a & E). rewrite reverse_involutive, app_nil_r in E. destruct E as [E|E]; [by exists a|].
  exists name. unfold Ext. by rewrite E, app_nil_r.
Qed.

Lemma has_suffix_app a b : Compaction.has_suffix (a ++ b) b = true.
Proof.
  unfold Compaction.has_suffix. rewrite len_app. pose proof (len_nonneg a). pose proof (len_nonneg b).
  replace (len b <=? len a + len b) with true by lia. cbn [andb]. apply bool_decide_eq_true.
  replace (Z.to_nat (len a + len b - len b)) with (length a) by (unfold len; lia). by rewrite drop_app_length.
Qed.

Lemma has_suffix_Ext name : Compaction.has_suffix name (str ".parquet") = true -> Ext name = str ".parquet".
Proof.
  unfold Compaction.has_suffix. intros [_ H%bool_decide_eq_true]%andb_true_iff.
  rewrite <-(take_drop (Z.to_nat (len name - len (str ".parquet"))) name), H. apply (Ext_extension _ FormatParquet).
Qed.

(** A tracked file is an input of its own format. *)
Lemma input_format_name name state data :
  is_data_file name = true ->
  Compaction.input_format (Compaction.mkInput name state data []) = match fileFormat name with FormatParquet => str "parquet" | FormatRFile => [] end.
Proof.
  intros Hdf. unfold Compaction.input_format. cbn [Compaction.in_Format Compaction.in_Name]. rewrite bool_decide_eq_true_2 by done. cbn [andb].
  unfold fileFormat. case_bool_decide as E.
  - destruct (Ext_suffix name) as [a Ha]. rewrite E in Ha. rewrite Ha. by rewrite has_suffix_app.
  - destruct (Compaction.has_suffix name (str ".parquet")) eqn:Hs; [by apply has_suffix_Ext in Hs|done].
Qed.

Lemma read_input_ok d name cs :
  is_data_file name = true -> file_holds d name cs ->
  exists state i, read_input F d name = Ok (state, i) /\ Compaction.input_holds F i state cs /\ Compaction.in_Name i = name.
Proof.
  intros Hdf (data & label & Hd & Hne & Hs & _ & He & Hr). unfold read_input, storage_ReadAll. rewrite Hd. cbn [wrap mbind result_bind].
  rewrite He. cbn [wrap mbind result_bind]. eexists _, _. split; [done|]. split; [|done]. split; [done|]. split; [done|].
  split; [by eapply embeddingState_valid|]. split; [by right|]. rewrite (input_format_name _ _ _ Hdf). cbn [Compaction.in_Bytes].
  unfold embeddingStateFromImage in He. destruct (fileFormat name) eqn:Ef.
  - right. by split.
  - left. split; [done|]. split; [done|]. by rewrite bool_decide_eq_true_2 in He.
Qed.

(** ** Runs *)

(** The files of a run, oldest first. *)
Definition run_holds (run : inputRun) (css : list (list Cell)) : Prop :=
  css <> [] /\ Forall2 (fun i cs => Compaction.input_holds F i (ru_state run) cs) (ru_inputs run) css.

Lemma String_inj a b : EmbeddingSpace.Validate a = None -> EmbeddingSpace.Validate b = None -> String_ a = String_ b -> a = b.
Proof. intros Ha Hb E. pose proof (Parse_String a Ha) as H. rewrite E, (Parse_String b Hb) in H. congruence. Qed.

Lemma run_state_valid run css : run_holds run css -> EmbeddingSpace.Validate (ru_state run) = None.
Proof. intros [Hne Hf]. destruct Hf as [ |i cs il css (_ & _ & Hv & _) _]; [done|exact Hv]. Qed.

Lemma add_input_ok runs csss state i cs :
  Forall2 run_holds runs csss -> Compaction.input_holds F i state cs ->
  exists csss', Forall2 run_holds (add_input runs state i) csss' /\ concat csss' = concat csss ++ [cs].
Proof.
  intros Hr Hi. assert (run_holds (mkRun state [i]) [cs]) as Hnew.
  { split; [done|]. constructor; [exact Hi|constructor]. }
  induction Hr as [|run css runs csss Hrun Hr IH]; cbn [add_input]; [exists [ [cs] ]; split; [constructor; [exact Hnew|constructor]|done]|].
  destruct runs as [|run2 runs].
  - apply Forall2_nil_inv_l in Hr as ->. unfold same_state. case_bool_decide as E.
    + exists [css ++ [cs]]. cbn [concat]. rewrite !app_nil_r. split; [|done]. constructor; [|constructor]. destruct Hrun as [Hne Hf].
      split; [by destruct css|]. cbn [ru_inputs ru_state]. apply Forall2_app; [done|]. constructor; [|constructor].
      assert (ru_state run = state) as ->; [|done]. apply String_inj; [by eapply run_state_valid|apply Hi|done].
    + exists [css; [cs]]. cbn [concat]. rewrite !app_nil_r. split; [|done]. constructor; [exact Hrun|]. constructor; [exact Hnew|constructor].
  - destruct IH as (csss' & H1 & H2). exists (css :: csss'). split; [by constructor|]. cbn [concat]. by rewrite H2, app_assoc.
Qed.

Lemma runs_loop_ok d paths css runs csss :
  Forall2 (file_holds d) paths css -> Forall (fun p => is_data_file p = true) paths -> Forall2 run_holds runs csss ->
  exists runs' csss', runs_loop F d paths runs = Ok runs' /\ Forall2 run_holds runs' csss' /\ concat csss' = concat csss ++ css.
Proof.
  intros Hf Hdf. revert runs csss. induction Hf as [|p cs paths css Hp _ IH]; intros runs csss Hr.
  { exists runs, csss. by rewrite app_nil_r. }
  apply Forall_cons in Hdf as [Hdf1 Hdf]. cbn [runs_loop]. destruct (read_input_ok d p cs Hdf1 Hp) as (state & i & -> & Hi & _). cbn [mbind result_bind].
  destruct (add_input_ok runs csss state i cs Hr Hi) as (csss1 & H1 & E1). destruct (IH Hdf _ _ H1) as (runs' & csss' & -> & H2 & E2).
  exists runs', csss'. split; [done|]. split; [done|]. by rewrite E2, E1, <-app_assoc.
Qed.

(** The inputs of a retained group are the run's, newest first. *)
Lemma plan_inputs now t inputs g :
  g ∈ planRetainedTombstones now t inputs -> tg_inputs g `sublist_of` reverse inputs.
Proof.
  unfold planRetainedTombstones. destruct (_ =? 0); [by intros ?%elem_of_nil|]. set (width := if _ : bool then _ else _).
  assert (forall l done groups, (forall b g, groups !! b = Some g -> tg_inputs g `sublist_of` done) ->
    forall b g, foldl (group_input now (retentionMillis t) width t) groups l !! b = Some g -> tg_inputs g `sublist_of` done ++ l) as Hl.
  { intros l. induction l as [|j l IH]; intros done groups Hg; [rewrite app_nil_r; exact Hg|]. cbn [foldl].
    replace (done ++ j :: l) with ((done ++ [j]) ++ l) by (by rewrite <-app_assoc). apply IH. intros b g'. unfold group_input. destruct (bucket_of _ _ _ _ _) as [[bucket at_]|].
    - intros [[<- <-]|[Hne H]]%lookup_insert_Some; [|by apply sublist_inserts_r, (Hg b)]. cbn [tg_inputs].
      apply sublist_app; [|done]. destruct (groups !! bucket) as [g0|] eqn:E; cbn [default]; [by apply (Hg bucket)|apply sublist_nil_l].
    - intros H. by apply sublist_inserts_r, (Hg b). }
  intros ([b g'] & -> & Hg)%list_elem_of_fmap. rewrite SliceStable_perm in Hg. apply elem_of_map_to_list in Hg.
  apply (Hl (reverse inputs) [] ∅) in Hg; [exact Hg|]. intros ? ?. by rewrite lookup_empty.
Qed.

Lemma Forall2_sublist {A B} (R : A -> B -> Prop) l k l' :
  Forall2 R l k -> l' `sublist_of` l -> exists k', Forall2 R l' k' /\ k' `sublist_of` k.
Proof.
  intros H Hs. revert k H. induction Hs as [|x l1 l2 Hs IH|x l1 l2 Hs IH]; intros k H.
  - exists []. split; [constructor|apply sublist_nil_l].
  - apply Forall2_cons_inv_l in H as (y & k2 & Hy & H & ->). destruct (IH k2 H) as (k' & H1 & H2). exists (y :: k'). split; by constructor.
  - apply Forall2_cons_inv_l in H as (y & k2 & _ & H & ->). destruct (IH k2 H) as (k' & H1 & H2). exists k'. split; [done|by constructor].
Qed.

(** ** Outputs *)

Lemma inputs_hold_same l s css : Forall2 (fun i cs => Compaction.input_holds F i s cs) l css -> Compaction.inputs_hold F l (replicate (length css) s) css.
Proof.
  intros H. split; [|by rewrite length_replicate]. induction H as [|i cs l css Hi _ IH]; [constructor|]. cbn [length replicate zip zip_with]. by constructor.
Qed.

Lemma inputs_sorted l s css : Forall2 (fun i cs => Compaction.input_holds F i s cs) l css -> Forall sorted_cells css.
Proof. induction 1 as [|i cs l css (_ & Hs & _) _ IH]; by constructor. Qed.

Lemma compacted_submset spec css : Compaction.compacted spec [] css ⊆+ concat css.
Proof.
  rewrite <-merge_all_perm. destruct (TombstonesOnly spec) eqn:E.
  - unfold Compaction.compacted. rewrite E. unfold Compaction.deleted_cells. etrans; [apply sublist_submseteq, sublist_filter|].
    apply sublist_submseteq, apply_deletes_sublist.
  - rewrite Compaction.compacted_no_stack by done. apply sublist_submseteq, apply_deletes_sublist.
Qed.

Lemma compacted_run_sorted spec css : Forall sorted_cells css -> sorted_cells (Compaction.compacted spec [] css).
Proof.
  intros Hs%merge_all_sorted. destruct (TombstonesOnly spec) eqn:E.
  - unfold Compaction.compacted. rewrite E. by apply sorted_cells_filter, apply_deletes_sorted.
  - rewrite Compaction.compacted_no_stack by done. by apply apply_deletes_sorted.
Qed.

(** What a compaction of a run or of a retained group writes. *)
Lemma spec_image spec s name css r :
  Forall2 (fun i cs => Compaction.input_holds F i s cs) (Inputs spec) css -> sp_Stack spec = [] -> sp_Converger spec = None ->
  sp_Codec spec = [] -> BlockSize spec = 0 -> OutputFormat spec = format_name (fileFormat name) ->
  (fileFormat name = FormatRFile -> forall label, storable F (sp_AdjacencyEdgeCF spec) label (Compaction.compacted spec [] css)) ->
  (Compaction.CompactContext F registryByName spec).1 = inr r ->
  (exists label, image F name (Output r) label (Compaction.compacted spec [] css)) /\ EntriesWritten r = len (Compaction.compacted spec [] css).
Proof.
  intros Hin Hst Hcv Hco Hbs Hof Hstor Hr. pose proof (inputs_hold_same _ _ _ Hin) as Hi. pose proof (inputs_sorted _ _ _ Hin) as Hs.
  destruct (Compaction.CompactContext F registryByName spec) as [r' evs] eqn:E. cbn [fst] in Hr. subst r'.
  destruct (CompactContext_ok F registryByName spec _ r evs (inputEmbeddingSpaces_ok F _ _ _ Hi) E) as [(a & _ & _ & Ho)|(? & ? & ? & ? & ? & Hc & _)]; [|congruence].
  assert (Compaction.stack_reads registryByName spec []) as Hreads by (unfold Compaction.stack_reads; rewrite Hst; by destruct (TombstonesOnly spec)).
  pose proof (compactOnce_ok F registryByName _ _ _ _ _ _ HF Hreg Hi Hreads Ho) as Hw. split; [|by destruct Hw as [-> _]].
  exists (label_of (ca_label a)). apply (written_image F name spec a); [done|by apply compacted_run_sorted|done| |].
  - rewrite Hof. by destruct (fileFormat name).
  - rewrite Hof. intros Hne. destruct (fileFormat name); [|done]. unfold output_options. rewrite Hco, Hbs. cbn [bool_decide decide_rel decide].
    destruct (Hstor eq_refl (ca_label a)) as (Hg & Hcf & Hfit). split; [|by split].
    split; [done|by vm_compute|by vm_compute|done].
Qed.

(** ** Writing *)

(** The objects of other names stay. *)
Definition beside (P : bytes -> Prop) (d d' : disk) : Prop := honest d' /\ forall n, ~ P n -> objects d' !! n = objects d !! n.

Lemma beside_refl P d : honest d -> beside P d d.
Proof. by split. Qed.

Lemma beside_trans P d1 d2 d3 : beside P d1 d2 -> beside P d2 d3 -> beside P d1 d3.
Proof. intros [_ H1] [Hh H2]. split; [done|]. intros n Hn. by rewrite H2, H1. Qed.

Lemma beside_file (P : bytes -> Prop) d d' name cs : beside P d d' -> ~ P name -> file_holds d name cs -> file_holds d' name cs.
Proof. intros [_ H] Hn (data & label & Hd & Him). exists data, label. by rewrite H. Qed.

Lemma write_beside (P : bytes -> Prop) name data d d' o :
  honest d -> P name -> storage_WriteAll name data d = (d', o) ->
  beside P d d' /\ (forall u, o = Done u -> objects d' = <[name := data]> (objects d)).
Proof.
  intros Hh Hp E. destruct (write_honest _ _ _ _ Hh E) as [Hh' [[Eo Ho]|[Eo Ho]]].
  - split; [split; [done|by rewrite Eo]|]. intros u ->. by destruct Ho.
  - split; [|done]. split; [done|]. intros n Hn. rewrite Eo, lookup_insert_ne; [done|]. by intros <-.
Qed.

Lemma remove_beside (P : bytes -> Prop) name d d' o : honest d -> P name -> removeObject name d = (d', o) -> beside P d d'.
Proof.
  intros Hh Hp. unfold removeObject. destruct (objects d !! name); [|intros [= <- _]; by apply beside_refl]. intros E.
  destruct (write_honest _ _ _ _ Hh E) as [Hh' [[Eo _]|[Eo _]]]; (split; [done|]); [by rewrite Eo|].
  intros n Hn. rewrite Eo, lookup_delete_ne; [done|]. by intros <-.
Qed.

Lemma remove_all_beside (P : bytes -> Prop) names d d' b : honest d -> Forall P names -> remove_all names d = (d', b) -> beside P d d'.
Proof.
  intros Hh Hp. revert d Hh. induction Hp as [|name names Hn _ IH]; intros d Hh; cbn [remove_all]; [intros [= <- _]; by apply beside_refl|].
  destruct (removeObject name d) as [d1 o] eqn:E. pose proof (remove_beside P _ _ _ _ Hh Hn E) as H1.
  destruct o; [| |intros [= <- _]; done]; intros H; eapply beside_trans; [exact H1|apply IH; [apply H1|done]|exact H1|apply IH; [apply H1|done]].
Qed.

Lemma cleanup_beside {A} (P : bytes -> Prop) outputs e c d d' (o : outcome A) :
  honest d -> Forall P (co_name <$> outputs) -> cleanup_and_fail outputs e c d = (d', o) -> beside P d d' /\ forall a, o <> Done a.
Proof.
  intros Hh Hp. unfold cleanup_and_fail. destruct (remove_all _ d) as [d1 b] eqn:E. pose proof (remove_all_beside P _ _ _ _ Hh Hp E).
  by destruct b; intros [= <- <-].
Qed.

Section outputs.
Context (base : Z) (Hbase : 0 <= base) (ext : bytes) (bound : nat).

Definition reserved (n : bytes) : Prop := exists i, (i < bound)%nat /\ n = compact_name base i ext.

(** The outputs written so far and their cells. *)
Record outputs_ok (index : nat) (outputs : list compactedOutput) (css : list (list Cell)) (d : disk) : Prop := {
  ou_index : (index <= bound)%nat;
  ou_names : Forall (fun n => exists i, (i < index)%nat /\ n = compact_name base i ext) (co_name <$> outputs);
  ou_nodup : NoDup (co_name <$> outputs);
  ou_files : Forall2 (fun o cs => file_holds d (co_name o) cs) outputs css;
}.

Lemma outputs_reserved index outputs css d : outputs_ok index outputs css d -> Forall reserved (co_name <$> outputs).
Proof. intros [Hi Hn _ _]. eapply Forall_impl; [exact Hn|]. intros n (i & Hlt & ->). exists i. split; [lia|done]. Qed.

Lemma outputs_nil d : outputs_ok 0 [] [] d.
Proof. split; [lia|constructor|constructor|constructor]. Qed.

Lemma outputs_skip index outputs css d : (index < bound)%nat -> outputs_ok index outputs css d -> outputs_ok (S index) outputs css d.
Proof. intros Hlt [Hi Hn Hd Hf]. split; [lia| |done|done]. eapply Forall_impl; [exact Hn|]. intros n (i & ? & ->). exists i. split; [lia|done]. Qed.

Lemma outputs_snoc index outputs css d d' o data label cs :
  (index < bound)%nat -> outputs_ok index outputs css d -> co_name o = compact_name base index ext ->
  objects d' = <[co_name o := data]> (objects d) -> image F (co_name o) data label cs ->
  outputs_ok (S index) (outputs ++ [o]) (css ++ [cs]) d'.
Proof.
  intros Hlt [Hi Hn Hd Hf] Ho E Him.
  assert (co_name o ∉ co_name <$> outputs) as Hnew.
  { intros Hin. destruct (proj1 (Forall_forall _ _) Hn _ Hin) as (i & Hlt' & E'). rewrite Ho in E'. apply compact_name_inj in E' as [_ E']; [lia|done..]. }
  split; [lia| | |].
  - rewrite fmap_app. apply Forall_app. split; [|constructor; [by exists index; split; [lia|]|constructor]].
    eapply Forall_impl; [exact Hn|]. intros n (i & ? & ->). exists i. split; [lia|done].
  - rewrite fmap_app. apply NoDup_app. split; [done|]. split; [|by apply NoDup_singleton]. by intros n Hin ->%list_elem_of_singleton.
  - apply Forall2_app; [|constructor; [|constructor]].
    + clear -E Hf Hnew. induction Hf as [|o' cs' outputs css (data' & label' & Hd & Him) _ IH]; [constructor|]. cbn [fmap list_fmap] in Hnew.
      apply not_elem_of_cons in Hnew as [Hne Hnew]. constructor; [|by apply IH]. exists data', label'. by rewrite E, lookup_insert_ne.
    + exists data, label. by rewrite E, lookup_insert_eq.
Qed.
End outputs.

(** The cells a compaction of these files may write are within the limits of
    the format. *)
Definition compactable (t : Tablet) (css : list (list Cell)) : Prop :=
  o_FileFormat (t_opts t) = FormatRFile ->
  forall label cells, cells ⊆+ concat css -> storable F (AdjacencyEdgeCF (t_opts t)) label cells.

Definition run_image (full : bool) (css : list (list Cell)) : list Cell := apply_deletes (negb full) None (merge_all (reverse css)).

Lemma reverse_concat_perm {A} (l : list (list A)) : concat (reverse l) ≡ₚ concat l.
Proof.
  induction l as [|x l IH]; [done|]. rewrite reverse_cons, concat_app. cbn [concat]. rewrite app_nil_r, IH. apply Permutation_app_comm.
Qed.

Lemma concat_sublist {A} (l k : list (list A)) : l `sublist_of` k -> concat l `sublist_of` concat k.
Proof. induction 1; cbn [concat]; [done|by apply sublist_app|by apply sublist_inserts_l]. Qed.

Section writing.
Context (t : Tablet) (base : Z) (Hbase : 0 <= base) (bound : nat).
Abbreviation ext := (extension (o_FileFormat (t_opts t))).
Abbreviation reserved := (reserved base ext bound).

Lemma fileFormat_compact index : fileFormat (compact_name base index ext) = o_FileFormat (t_opts t).
Proof. unfold compact_name. rewrite !app_assoc. apply fileFormat_extension. Qed.

Lemma run_written full run css all index r :
  run_holds run css -> compactable t all -> concat css ⊆+ concat all ->
  (CompactContext F registryByName (run_spec t [] full run)).1 = inr r ->
  exists label, image F (compact_name base index ext) (Output r) label (run_image full css).
Proof.
  intros [_ Hr] Hc Hsub E. assert (run_image full css = compacted (run_spec t [] full run) [] (reverse css)) as ->.
  { rewrite compacted_no_stack by done. unfold run_image, propagates. cbn [run_spec sp_Scope sp_FullMajorCompaction].
    rewrite bool_decide_eq_true_2 by done. done. }
  destruct (spec_image (run_spec t [] full run) (ru_state run) (compact_name base index ext) (reverse css) r) as [H _]; try done.
  - by apply Forall2_reverse.
  - by rewrite fileFormat_compact.
  - rewrite fileFormat_compact. intros Ef label. apply (Hc Ef). etrans; [apply compacted_submset|]. by rewrite reverse_concat_perm.
Qed.

Lemma write_runs_ok full runs csss all index outputs css d d' o :
  honest d -> (index + length runs <= bound)%nat -> Forall2 run_holds runs csss -> compactable t all -> concat (concat csss) ⊆+ concat all ->
  outputs_ok base ext bound index outputs css d ->
  write_runs F registryByName t [] full base index runs outputs d = (d', o) ->
  beside reserved d d' /\
  (forall outs, o = Done outs -> outputs_ok base ext bound (index + length runs) outs (css ++ (run_image full <$> csss)) d').
Proof.
  intros Hh Hb Hr Hc. revert index outputs css d Hh Hb. induction Hr as [|run cs runs csss Hrun _ IH]; intros index outputs css d Hh Hb Hsub Ho; cbn [write_runs].
  { intros [= <- <-]. split; [by apply beside_refl|]. intros outs [= ->]. cbn [length fmap list_fmap]. by rewrite Nat.add_0_r, app_nil_r. }
  cbn [concat] in Hsub. rewrite concat_app in Hsub. cbn [length] in Hb.
  pose proof (outputs_reserved _ _ _ _ _ _ _ Ho) as Hres.
  destruct (CompactContext F registryByName (run_spec t [] full run)).1 as [e|r] eqn:Er.
  { intros E. destruct (cleanup_beside _ _ _ _ _ _ _ Hh Hres E) as [H1 H2]. split; [done|]. intros outs ->. by destruct (H2 outs). }
  destruct (run_written full run cs all index r Hrun Hc ltac:(etrans; [apply submseteq_inserts_r; reflexivity|exact Hsub]) Er) as [label Him].
  set (name := compact_name base index ext) in *.
  destruct (storage_WriteAll name (Output r) d) as [d1 o1] eqn:Ew.
  destruct (write_beside reserved _ _ _ _ _ Hh ltac:(exists index; split; [lia|done]) Ew) as [Hb1 Hd1].
  destruct o1 as [[]|e c|].
  - intros E. apply (IH _ _ (css ++ [run_image full cs])) in E; [|apply Hb1|lia|etrans; [apply submseteq_inserts_l; reflexivity|exact Hsub]|].
    + destruct E as [H1 H2]. split; [by eapply beside_trans|]. intros outs Eo. specialize (H2 outs Eo). rewrite <-app_assoc in H2.
      cbn [length]. rewrite Nat.add_succ_r. exact H2.
    + eapply outputs_snoc; [exact Hbase|lia|exact Ho|done|by apply (Hd1 tt)|exact Him].
  - intros E. destruct (cleanup_beside reserved _ _ _ _ _ _ (proj1 Hb1) Hres E) as [H1 H2]. split; [by eapply beside_trans|]. intros outs ->. by destruct (H2 outs).
  - intros [= <- <-]. by split.
Qed.

(** What the retained groups add are tombstones of the inputs. *)
Definition tombstones_of (m l : list Cell) : Prop := sorted_cells l /\ Forall (fun c : Cell => Deleted c.1 = true /\ c ∈ m) l.

Lemma compacted_tombstones g css all :
  Forall sorted_cells css -> css `sublist_of` reverse all -> tombstones_of (merge_all (reverse all)) (compacted (group_spec t g) [] css).
Proof.
  intros Hs Hsub. split; [by apply compacted_run_sorted|]. unfold compacted. cbn [group_spec TombstonesOnly]. apply Forall_forall. intros c Hc.
  unfold deleted_cells in Hc. apply list_elem_of_filter in Hc as [Hl Hc]. split; [unfold live_cell in Hl; by destruct (Deleted c.1)|].
  assert (c ∈ merge_all css) as Hm by (eapply elem_of_sublist; [exact Hc|apply apply_deletes_sublist]).
  rewrite merge_all_perm in Hm |- *. apply list_elem_of_In, in_concat in Hm as (l & Hl'%list_elem_of_In & Hcl). apply list_elem_of_In, in_concat.
  exists l. split; [|done]. apply list_elem_of_In. by eapply elem_of_sublist.
Qed.

Lemma write_retained_ok run all groups index outputs css d d' o :
  honest d -> (index + length groups <= bound)%nat -> run_holds run all -> compactable t all ->
  Forall (fun g => tg_inputs g `sublist_of` reverse (ru_inputs run)) groups ->
  outputs_ok base ext bound index outputs css d ->
  write_retained F registryByName t base index groups outputs d = (d', o) ->
  beside reserved d d' /\
  (forall outs, o = Done outs -> exists tombs, Forall (tombstones_of (merge_all (reverse all))) tombs /\
     outputs_ok base ext bound (index + length groups) outs (css ++ tombs) d').
Proof.
  intros Hh Hb [_ Hrun] Hc Hg. revert index outputs css d Hh Hb. induction Hg as [|g groups Hsub _ IH]; intros index outputs css d Hh Hb Ho; cbn [write_retained].
  { intros [= <- <-]. split; [by apply beside_refl|]. intros outs [= ->]. exists []. cbn [length]. by rewrite Nat.add_0_r, app_nil_r. }
  cbn [length] in Hb. pose proof (outputs_reserved _ _ _ _ _ _ _ Ho) as Hres.
  destruct (CompactContext F registryByName (group_spec t g)).1 as [e|r] eqn:Er.
  { intros E. destruct (cleanup_beside _ _ _ _ _ _ _ Hh Hres E) as [H1 H2]. split; [done|]. intros outs ->. by destruct (H2 outs). }
  destruct (Forall2_sublist _ _ _ _ (Forall2_reverse _ _ _ Hrun) Hsub) as (gcss & Hgi & Hgs).
  destruct (EntriesWritten r =? 0).
  { intros E. apply (IH _ _ css) in E; [|done|lia|apply outputs_skip; [lia|done]]. destruct E as [H1 H2]. split; [done|]. intros outs Eo.
    cbn [length]. rewrite Nat.add_succ_r. by apply H2. }
  set (name := compact_name base index ext).
  destruct (spec_image (group_spec t g) (ru_state run) name gcss r) as [[label Him] _]; try done.
  { unfold name. by rewrite fileFormat_compact. }
  { unfold name. rewrite fileFormat_compact. intros Ef label. apply (Hc Ef). etrans; [apply compacted_submset|].
    rewrite <-(reverse_concat_perm all). by apply sublist_submseteq, concat_sublist. }
  pose proof (compacted_tombstones g gcss all (inputs_sorted _ _ _ Hgi) Hgs) as Ht. set (tomb := compacted (group_spec t g) [] gcss) in *.
  destruct (storage_WriteAll name (Output r) d) as [d1 o1] eqn:Ew.
  destruct (write_beside reserved _ _ _ _ _ Hh ltac:(exists index; split; [lia|done]) Ew) as [Hb1 Hd1].
  destruct o1 as [[]|e c|].
  - intros E. apply (IH _ _ (css ++ [tomb])) in E; [|apply Hb1|lia|].
    + destruct E as [H1 H2]. split; [by eapply beside_trans|]. intros outs Eo. destruct (H2 outs Eo) as (tombs & Hts & Hok). exists (tomb :: tombs).
      split; [by constructor|]. rewrite <-app_assoc in Hok. cbn [length]. rewrite Nat.add_succ_r. exact Hok.
    + eapply outputs_snoc; [exact Hbase|lia|exact Ho|done|by apply (Hd1 tt)|exact Him].
  - intros E. destruct (cleanup_beside reserved _ _ _ _ _ _ (proj1 Hb1) Hres E) as [H1 H2]. split; [by eapply beside_trans|]. intros outs ->. by destruct (H2 outs).
  - intros [= <- <-]. by split.
Qed.
End writing.

(** ** Reads *)

(** The reads of the tablet over either list of files, but for a coordinate
    where the memtable has a cell older than a tombstone of the files. *)
Definition same_reads (t : Tablet) (css css' : list (list Cell)) : Prop :=
  forall x, (forall a g, a ∈ mem_cells t -> g ∈ concat css -> coord a.1 = x -> coord g.1 = x -> Deleted g.1 = true -> key_le a.1 g.1) ->
    read_coord x (cells_of t css') = read_coord x (cells_of t css).

Lemma same_reads_refl t css : same_reads t css css.
Proof. by intros x _. Qed.

Lemma elem_of_merged c css : c ∈ merge_all (reverse css) <-> c ∈ concat css.
Proof. by rewrite merge_all_perm, reverse_concat_perm. Qed.

Lemma same_reads_of t css css' :
  sm_ok (t_active t) -> Forall sorted_cells css -> Forall sorted_cells css' -> (forall c, c ∈ concat css' -> c ∈ concat css) ->
  (forall x, read_coord x (reverse css') = read_coord x (reverse css)) -> same_reads t css css'.
Proof.
  intros Hm Hs Hs' Hsub Hr x Hx. pose proof (mem_sorted t Hm) as Hmem. unfold cells_of, read_coord. rewrite !merge_all_cons.
  assert (forall ls, Forall sorted_cells ls -> sorted_cells (merge_all (reverse ls))) as Hma by (intros ls Hls; by apply merge_all_sorted, Forall_reverse).
  rewrite !at_coord_merge by auto. rewrite (read_under _ (at_coord x (merge_all (reverse css')))), (read_under _ (at_coord x (merge_all (reverse css)))).
  - f_equal. f_equal. apply Hr.
  - by apply sorted_cells_filter, Hma.
  - intros a g [Ha Hin]%at_coord_elem [Hg Hgin]%at_coord_elem. apply Hx; [done| |done|done]. by apply elem_of_merged.
  - by apply sorted_cells_filter, Hma.
  - intros a g [Ha Hin]%at_coord_elem [Hg Hgin]%at_coord_elem. apply Hx; [done| |done|done]. by apply Hsub, elem_of_merged.
Qed.

(** The only file of a full compaction, with kept tombstones. *)
Lemma same_reads_full t css tombs :
  sm_ok (t_active t) -> Forall sorted_cells css -> Forall (tombstones_of (merge_all (reverse css))) tombs -> same_reads t css (run_image true css :: tombs).
Proof.
  intros Hm Hs Ht. assert (sorted_cells (merge_all (reverse css))) as Hma by (by apply merge_all_sorted, Forall_reverse). apply same_reads_of; [done|done| | |].
  - constructor; [by apply apply_deletes_sorted|]. eapply Forall_impl; [exact Ht|]. by intros l [].
  - intros c. cbn [concat]. rewrite <-elem_of_merged. intros [Hc|Hc]%elem_of_app; [eapply elem_of_sublist; [exact Hc|apply apply_deletes_sublist]|].
    apply list_elem_of_In, in_concat in Hc as (l & Hl%list_elem_of_In & Hc%list_elem_of_In).
    destruct (proj1 (Forall_forall _ _) Ht l Hl) as [_ H]. by destruct (proj1 (Forall_forall _ _) H c Hc).
  - intros x. by apply read_main.
Qed.

(** A file per run. *)
Lemma same_reads_runs t csss :
  sm_ok (t_active t) -> Forall sorted_cells (concat csss) -> same_reads t (concat csss) (run_image false <$> csss).
Proof.
  intros Hm Hs. assert (Forall (Forall sorted_cells) csss) as Hss.
  { clear -Hs. induction csss as [|css csss IH]; [constructor|]. apply Forall_app in Hs as [H1 H2]. constructor; auto. }
  assert (Forall (fun css => sorted_cells (run_image false css)) csss) as Hri.
  { eapply Forall_impl; [exact Hss|]. intros css Hcss. by apply apply_deletes_sorted, merge_all_sorted, Forall_reverse. }
  apply same_reads_of; [done|done|by rewrite Forall_fmap| |].
  - clear -csss. intros c. induction csss as [|css csss IH]; [done|]. cbn [fmap list_fmap concat]. rewrite concat_app. intros [Hc|Hc]%elem_of_app; apply elem_of_app; [left|right; by apply IH].
    apply elem_of_merged. eapply elem_of_sublist; [exact Hc|apply apply_deletes_sublist].
  - intros x. assert (reverse (run_image false <$> csss) = run_cells <$> reverse (reverse <$> csss)) as ->.
    { rewrite <-!fmap_reverse. rewrite <-list_fmap_compose. done. }
    rewrite <-(app_nil_l (_ <$> _)), read_runs; [|constructor|].
    + cbn [app]. f_equal. clear. induction csss as [|css csss IH]; [done|]. cbn [fmap list_fmap concat]. rewrite reverse_cons, concat_app, IH, reverse_app. cbn [concat]. by rewrite app_nil_r.
    + apply Forall_reverse. rewrite Forall_fmap. eapply Forall_impl; [exact Hss|]. intros css Hcss. by apply Forall_reverse.
Qed.

(** ** The new generation *)

Lemma tracked_agree g d d' css :
  (forall n, n ∈ active g -> objects d' !! n = objects d !! n) -> tracked g d css -> tracked g d' css.
Proof.
  intros Ha [[Hnd Hp H1 H2 H3 H4] Hf Hh]. split; [split; try done| |done].
  - apply Forall_forall. intros n Hn. rewrite Ha by done. by apply (proj1 (Forall_forall _ _) Hp).
  - clear -Ha Hf. induction Hf as [|n cs names css (data & label & Hd & Him) _ IH]; [constructor|]. constructor.
    + exists data, label. by rewrite Ha by (by left).
    + apply IH. intros m Hm. apply Ha. by right.
Qed.

Lemma foldl_exported (outs : list compactedOutput) (m : gmap bytes Z) (n : bytes) v :
  foldl (fun m o => if co_exportedAt o >? 0 then <[co_name o := co_exportedAt o]> m else m) m outs !! n = Some v ->
  m !! n = Some v \/ (n ∈ co_name <$> outs /\ 0 < v).
Proof.
  revert m. induction outs as [|o outs IH]; intros m; cbn [foldl]; [by left|]. intros [H|[H1 H2]]%IH; [|right; split; [by right|done]].
  destruct (co_exportedAt o >? 0) eqn:E; [|by left]. apply lookup_insert_Some in H as [[<- <-]|[_ H]]; [right; split; [by left|lia]|by left].
Qed.

Lemma foldl_minted (outs : list compactedOutput) (i : bytes) (m : gmap bytes bytes) (n : bytes) v :
  foldl (fun m o => <[co_name o := i]> m) m outs !! n = Some v -> m !! n = Some v \/ (n ∈ co_name <$> outs /\ v = i).
Proof.
  revert m. induction outs as [|o outs IH]; intros m; cbn [foldl]; [by left|]. intros [H|[H1 H2]]%IH; [|right; split; [by right|done]].
  apply lookup_insert_Some in H as [[<- <-]|[_ H]]; [right; split; [by left|done]|by left].
Qed.

Lemma foldl_free (outs : list compactedOutput) (s : gset bytes) (n : bytes) :
  n ∈ foldl (fun s o => if co_tombstoneFree o then {[co_name o]} ∪ s else s) s outs -> n ∈ s \/ n ∈ co_name <$> outs.
Proof.
  revert s. induction outs as [|o outs IH]; intros s; cbn [foldl]; [by left|]. intros [H|H]%IH; [|right; by right].
  destruct (co_tombstoneFree o); [|by left]. apply elem_of_union in H as [->%elem_of_singleton|H]; [right; by left|by left].
Qed.

Lemma compacted_tracked base ext bound index outs css d g instance :
  outputs_ok base ext bound index outs css d -> instance <> [] -> (exists f, ext = extension f) -> 0 <= nameHighWater g ->
  tracked (compacted_state g instance outs) d css.
Proof.
  intros [_ Hn Hd Hf] Hi [f Hext] Hhw. split; [split|..]; cbn [compacted_state active sources minted exported tombstoneFree nameHighWater].
  - exact Hd.
  - apply Forall_forall. intros n Hin. split.
    + apply list_elem_of_fmap in Hin as (o & -> & Ho). clear -Hf Ho. induction Hf as [|o' cs outs css (data & label & H & _) _ IH]; [by apply elem_of_nil in Ho|].
      apply elem_of_cons in Ho as [->|Ho]; [by exists data|by apply IH].
    + destruct (proj1 (Forall_forall _ _) Hn n Hin) as (j & _ & ->). rewrite Hext. unfold compact_name. rewrite !app_assoc. apply is_data_file_extension.
  - intros n s. by rewrite lookup_empty.
  - intros n s [H|[H ->]]%foldl_minted; [by rewrite lookup_empty in H|done].
  - intros n v [H|H]%foldl_exported; [by rewrite lookup_empty in H|done].
  - intros n [H|H]%foldl_free; [set_solver|done].
  - rewrite Forall2_fmap_l. exact Hf.
  - exact Hhw.
Qed.

(** ** Publishing *)

(** How a compaction ends, however it ends: the tablet and, where there was
    one, the manifest name files of the same reads. *)
Definition compact_ends (t : Tablet) (d : disk) (css : list (list Cell)) (t' : Tablet) (d' : disk) : Prop :=
  honest d' /\ t_active t' = t_active t /\ t_wal t' = t_wal t /\ t_opts t' = t_opts t /\
  (exists css', holds t' d' css' /\ same_reads t css css') /\
  (published d css -> exists css', published d' css' /\ same_reads t css css').

Lemma persist_cases g d d' o :
  honest d -> persistImmutableManifest Marshal g d = (d', o) ->
  honest d' /\ ((objects d' = objects d /\ ((exists e, o = Failed e false) \/ o = Crashed)) \/
    (exists data, Marshal (manifest_of g) = Ok data /\ objects d' = <[manifest_name := data ++ [10]]> (objects d) /\
      ((o = Done tt \/ exists e, o = Failed e true) \/ o = Crashed))).
Proof.
  intros Hh. unfold persistImmutableManifest. destruct (Marshal (manifest_of g)) as [data|e]; [|intros [= <- <-]; split; [done|]; left; eauto].
  intros E. destruct (write_honest _ _ _ _ Hh E) as [Hh' [[Eo [-> | ->]]|[Eo [-> | [-> | ->]]]]]; (split; [done|]).
  1,2: left; eauto.
  all: right; exists data; split; [done|]; split; [done|]; eauto.
Qed.

Lemma published_after g d d' css data :
  tracked g d css -> Marshal (manifest_of g) = Ok data -> objects d' = <[manifest_name := data ++ [10]]> (objects d) -> published d' css.
Proof.
  intros Ht Hm E. exists g, data. rewrite E, lookup_insert_eq. split; [done|]. split; [done|]. by eapply tracked_keeps, Ht; eapply keeps_manifest.
Qed.

Lemma remove_old_ok names obs d obs' d' b :
  honest d -> remove_old names obs d = (obs', d', b) -> beside (fun n => n ∈ names) d d'.
Proof.
  revert obs d. induction names as [|name names IH]; intros obs d Hh; cbn [remove_old]; [intros [= _ <- _]; by apply beside_refl|].
  destruct (removeObject name d) as [d1 o] eqn:E. pose proof (remove_beside (fun n => n ∈ name :: names) _ _ _ _ Hh (list_elem_of_here name names) E) as H1.
  assert (forall obs1, remove_old names obs1 d1 = (obs', d', b) -> beside (fun n => n ∈ name :: names) d d') as H2.
  { intros obs1 Hr. eapply beside_trans; [exact H1|]. destruct (IH _ _ (proj1 H1) Hr) as [Hh' Ho]. split; [done|]. intros n Hn. apply Ho. intros Hin. apply Hn. by right. }
  destruct o; [apply H2|apply H2|by intros [= _ <- _]].
Qed.

(** The disk as it was but for reserved names. *)
Lemma ends_beside P t t1 d d' css :
  holds t1 d css -> t_active t1 = t_active t -> t_wal t1 = t_wal t -> t_opts t1 = t_opts t ->
  (forall n, P n -> objects d !! n = None) -> beside P d d' -> compact_ends t d css t1 d'.
Proof.
  intros [Hm Hl Ht] E1 E2 E3 HP [Hh Hb].
  assert (forall n, is_Some (objects d !! n) -> objects d' !! n = objects d !! n) as Hsame.
  { intros n [v Hv]. apply Hb. intros Hp. rewrite (HP n Hp) in Hv. done. }
  assert (forall g, tracked g d css -> tracked g d' css) as Htr.
  { intros g Hg. apply (tracked_agree _ d); [|done]. intros n Hn. apply Hsame.
    pose proof (proj1 (Forall_forall _ _) (so_present _ _ (tr_state _ _ _ _ Hg)) n Hn) as [H _]. exact H. }
  split; [done|]. split; [done|]. split; [done|]. split; [done|]. split; [|].
  - exists css. split; [split; [done|done|by apply Htr]|apply same_reads_refl].
  - intros (g & data & Hd & Hma & Hg). exists css. split; [|apply same_reads_refl]. exists g, data. split; [|split; [done|by apply Htr]].
    rewrite Hsame; [done|by eexists].
Qed.

Lemma publish_compaction_ok P old outs next t0 t d0 d css css' t' d' o :
  holds t d0 css -> t_active t = t_active t0 -> t_wal t = t_wal t0 -> t_opts t = t_opts t0 ->
  (forall n, P n -> objects d0 !! n = None) -> beside P d0 d -> Forall P (co_name <$> outs) ->
  tracked next d css' -> (forall n, n ∈ active next -> n ∉ old) -> ~ manifest_name ∈ old -> same_reads t0 css css' ->
  publish_compaction Marshal old next outs t d = (t', d', o) -> compact_ends t0 d0 css t' d'.
Proof.
  intros Hh E1 E2 E3 HP Hb Hres Hnext Hnew Hman Hsr. unfold publish_compaction.
  assert (forall d1, beside P d0 d1 -> compact_ends t0 d0 css t d1) as Hsame by (intros d1 Hb1; by eapply ends_beside).
  destruct (persistImmutableManifest Marshal next d) as [d1 o1] eqn:Ep. destruct (persist_cases _ _ _ _ (proj1 Hb) Ep) as [Hh1 Hc].
  assert (objects d1 = objects d -> beside P d0 d1) as Hb1 by (intros Eo; split; [done|intros n Hn; rewrite Eo; by apply Hb]).
  destruct Hc as [(Eo & [[e ->]| ->])|(data & Hma & Eo & Hc)].
  { destruct (cleanup_and_fail _ _ _ _) as [d2 o2] eqn:Ec. intros [= <- <- <-].
    destruct (cleanup_beside P _ _ _ _ _ _ Hh1 Hres Ec) as [H1 _]. apply Hsame. eapply beside_trans; [by apply Hb1|done]. }
  { intros [= <- <- <-]. by apply Hsame, Hb1. }
  assert (published d1 css') as Hp1 by (by eapply published_after).
  assert (tracked next d1 css') as Hnext1 by (eapply tracked_keeps, Hnext; by eapply keeps_manifest).
  assert (forall g t2 d2, tracked g d2 css' -> t_active t2 = t_active t -> t_gen t2 = g -> holds t2 d2 css') as Hho.
  { intros g t2 d2 Hg Ea Eg. destruct Hh as [Hm Hl _]. split; [by rewrite Ea|unfold mem_cells; by rewrite Ea|by rewrite Eg]. }
  assert (forall g t2 d2, tracked g d2 css' -> published d2 css' -> honest d2 -> t2 = set_gen g t -> compact_ends t0 d0 css t2 d2) as Hends.
  { intros g t2 d2 Hg Hp2 Hh2 ->. split; [done|]. split; [done|]. split; [done|]. split; [done|].
    split; [exists css'; split; [by eapply Hho|done]|intros _; by exists css']. }
  destruct Hc as [[->|[e ->]]| ->].
  - destruct (remove_old old (obsolete next) d1) as [[obs d2] alive] eqn:Er. pose proof (remove_old_ok _ _ _ _ _ _ Hh1 Er) as [Hh2 Hb2].
    set (g2 := set_obsolete obs next).
    assert (tracked g2 d2 css') as Hg2.
    { destruct (tracked_agree next d1 d2 css') as [[] ? ?]; [intros n Hn; apply Hb2; by apply Hnew|done|]. split; [split|..]; done. }
    assert (published d2 css') as Hp2.
    { destruct Hp1 as (g & data' & Hd & Hm' & Hg). exists next, data. split; [|split; [done|]].
      - rewrite Hb2 by done. rewrite Eo. by rewrite lookup_insert_eq.
      - apply (tracked_agree _ d1); [intros n Hn; apply Hb2; by apply Hnew|done]. }
    destruct alive; cbn [negb]; [|intros [= <- <- <-]; by eapply Hends].
    cbn [set_gen t_gen]. destruct (persistImmutableManifest Marshal g2 d2) as [d3 o3] eqn:Ep3. intros E.
    assert (t' = set_gen g2 t /\ d' = d3) as [-> ->] by (destruct o3; by injection E as <- <- <-). clear E.
    destruct (persist_cases _ _ _ _ Hh2 Ep3) as [Hh3 [(Eo3 & _)|(data3 & Hm3 & Eo3 & _)]].
    + eapply Hends; [eapply tracked_keeps; [by eapply keeps_refl|exact Hg2]| |done|done].
      destruct Hp2 as (g & data' & Hd & Hm' & Hg). exists g, data'. rewrite Eo3. split; [done|]. split; [done|]. eapply tracked_keeps, Hg. by apply keeps_refl.
    + eapply Hends; [|by eapply published_after|done|done]. eapply tracked_keeps, Hg2. by eapply keeps_manifest.
  - intros [= <- <- <-]. by eapply Hends.
  - intros [= <- <- <-]. split; [done|]. split; [done|]. split; [done|]. split; [done|]. split; [|intros _; by exists css'].
    exists css. split; [|apply same_reads_refl]. destruct Hh as [Hm Hl Ht]. split; [done|done|].
    eapply tracked_keeps; [by eapply keeps_manifest|]. apply (tracked_agree _ d0); [|done]. intros n Hn. apply Hb. intros Hp.
    destruct (proj1 (Forall_forall _ _) (so_present _ _ (tr_state _ _ _ _ Ht)) n Hn) as [[v Hv] _]. by rewrite (HP n Hp) in Hv.
Qed.

Lemma several {A} (a b : A) l : (len (a :: b :: l) =? 1) = false.
Proof. unfold len. rewrite !length_cons. apply Z.eqb_neq. lia. Qed.

(** What the runs and the retained groups write. *)
Lemma compact_writes t base runs csss retained css d d1 o1 :
  0 <= base -> honest d -> holds t d css -> Forall2 run_holds runs csss -> concat csss = css -> compactable t css ->
  match runs with [run] => Forall (fun g => tg_inputs g `sublist_of` reverse (ru_inputs run)) retained | _ => retained = [] end ->
  let ext := extension (o_FileFormat (t_opts t)) in
  let N := (length runs + length retained)%nat in
  write_runs F registryByName t [] (len runs =? 1) base 0 runs [] d = (d1, o1) ->
  beside (reserved base ext N) d d1 /\
  forall outs, o1 = Done outs -> outputs_ok base ext N (length runs) outs (run_image (len runs =? 1) <$> csss) d1 /\
    forall d2 o2, write_retained F registryByName t base (length runs) retained outs d1 = (d2, o2) ->
      beside (reserved base ext N) d1 d2 /\
      forall outs2, o2 = Done outs2 -> exists css', outputs_ok base ext N N outs2 css' d2 /\ same_reads t css css'.
Proof.
  intros Hbase Hh Hho Hr Hcc Hc Hret ext N Hw.
  destruct (write_runs_ok t base Hbase N (len runs =? 1) runs csss css 0 [] [] d d1 o1) as [Hb1 H1]; try done; [lia|by rewrite Hcc|apply outputs_nil|].
  split; [done|]. intros outs Eo. specialize (H1 outs Eo). cbn [plus app] in H1. split; [exact H1|]. intros d2 o2 Hw2.
  assert (Forall sorted_cells css) as Hs.
  { destruct (tr_files _ _ _ _ (ho_files _ _ _ _ Hho)) as [|n cs names css' (data & label & _ & _ & Hs & _) Hf]; [constructor|]. constructor; [done|].
    clear -Hf. induction Hf as [|n cs names css (data & label & _ & _ & Hs & _) _ IH]; by constructor. }
  pose proof (ho_mem _ _ _ _ Hho) as Hm.
  destruct Hr as [|run cs runs' csss' Hrun [|run2 cs2 runs2 csss2 Hrun2 Hr2]].
  - subst retained. injection Hw2 as <- <-. split; [apply beside_refl, Hb1|]. intros outs2 [= <-]. eexists. split; [exact H1|].
    subst css. apply same_reads_refl.
  - change (len [run] =? 1) with true in H1. cbn [fmap list_fmap] in H1. cbn [concat] in Hcc. rewrite app_nil_r in Hcc. subst cs.
    destruct (write_retained_ok t base Hbase N run css retained 1 outs [run_image true css] d1 d2 o2) as [Hb2 H2]; try done; [apply Hb1|].
    split; [done|]. intros outs2 Eo2. destruct (H2 outs2 Eo2) as (tombs & Ht & Hok). eexists. split; [exact Hok|]. by apply same_reads_full.
  - subst retained. injection Hw2 as <- <-. split; [apply beside_refl, Hb1|]. intros outs2 [= <-].
    rewrite several in H1.
    assert (N = length (run :: run2 :: runs2)) as EN by apply Nat.add_0_r.
    eexists. split; [rewrite EN at 2; exact H1|]. rewrite <-Hcc. apply same_reads_runs; [done|]. by rewrite Hcc.
Qed.

Lemma compact_runs_ok x runs csss retained t d css t' d' o :
  outside_ok x -> honest d -> holds t d css -> Forall2 run_holds runs csss -> concat csss = css -> compactable t css ->
  match runs with [run] => Forall (fun g => tg_inputs g `sublist_of` reverse (ru_inputs run)) retained | _ => retained = [] end ->
  compact_runs F registryByName Marshal x [] runs retained t d = (t', d', o) -> compact_ends t d css t' d'.
Proof.
  intros Hx Hh Hho Hr Hcc Hc Hret. unfold compact_runs. set (ext := extension (o_FileFormat (t_opts t))). set (N := (length runs + length retained)%nat).
  destruct (freeCompactionBase_ok d (ou_now x) (nameHighWater (t_gen t)) N ext (existingNames (t_gen t)) (tr_high _ _ _ _ (ho_files _ _ _ _ Hho)))
    as (base & -> & Hlt & Hf1 & Hf2). pose proof (tr_high _ _ _ _ (ho_files _ _ _ _ Hho)) as H0. assert (0 <= base) as Hbase by lia.
  assert (forall n, reserved base ext N n -> objects d !! n = None) as HP.
  { intros n (i & Hi & ->). apply not_elem_of_dom, (Hf2 i Hi). }
  assert (forall t1 d1, holds t1 d css -> t_active t1 = t_active t -> t_wal t1 = t_wal t -> t_opts t1 = t_opts t -> beside (reserved base ext N) d d1 ->
    compact_ends t d css t1 d1) as Hends by (intros t1 d1 H1 H2 H3 H4 H5; by eapply ends_beside).
  destruct (mintInstance (ou_drawn x) t) as [t1 [instance|e]] eqn:Em.
  2: { apply mintInstance_err in Em as ->. intros [= <- <- <-]. by apply Hends. }
  apply mintInstance_ok in Em as [Hi ->]; [|apply Hx]. set (t1 := set_gen _ _).
  assert (holds t1 d css) as Ht1.
  { destruct (holds_highWater F t d css base ltac:(lia) Hho) as [A B C]. by split. }
  destruct (write_runs F registryByName t1 [] (len runs =? 1) base 0 runs [] d) as [d1 o1] eqn:Ew1.
  destruct (compact_writes t1 base runs csss retained css d d1 o1 Hbase Hh Ht1 Hr Hcc Hc Hret Ew1) as [Hb1 H1].
  destruct o1 as [outs|e c|]; [|intros [= <- <- <-]; by apply Hends|intros [= <- <- <-]; by apply Hends].
  destruct (H1 outs eq_refl) as [_ H2]. destruct (write_retained _ _ _ _ _ _ _ _) as [d2 o2] eqn:Ew2. destruct (H2 _ _ eq_refl) as [Hb2 H3]. cbv beta in Hb2.
  assert (beside (reserved base ext N) d d2) as Hb by (by eapply beside_trans).
  destruct o2 as [outs2|e c|]; [|intros [= <- <- <-]; by apply Hends|intros [= <- <- <-]; by apply Hends].
  destruct (H3 outs2 eq_refl) as (css' & Hok & Hsr).
  pose proof (outputs_reserved _ _ _ _ _ _ _ Hok) as Hres.
  apply (publish_compaction_ok (reserved base ext N) _ _ _ t t1 d d2 css css'); try done.
  - eapply compacted_tracked; [exact Hok|done|by eexists|]. exact Hbase.
  - intros n Hn Hold. apply (proj1 (Forall_forall _ _) Hres) in Hn as (i & Hi' & ->). apply (Hf1 i Hi').
    unfold existingNames. by apply elem_of_union_r, elem_of_list_to_set.
  - intros Hin. destruct (proj1 (Forall_forall _ _) (so_present _ _ (tr_state _ _ _ _ (ho_files _ _ _ _ Hho))) _ Hin) as [_ Hd].
    by rewrite is_data_file_manifest in Hd.
Qed.

(** ** Properties *)

End compact.

(** ** A run *)

(** The reopened tablet has a second file after its next write; a compaction
    leaves one. *)
Definition demo_third := demo_written 3 demo_reopened demo_second.1.2.
Definition demo_compacted : Tablet * disk * outcome unit :=
  Compact demo_formats base_registry demo_Marshal_manifest (demo_outside true) [] demo_third.1.1 demo_third.1.2.

Lemma demo_third_holds : exists css, holds demo_formats demo_third.1.1 demo_third.1.2 css /\ honest demo_third.1.2.
Proof.
  assert (exists ms, log_clean (LocalWAL.w_file (t_wal demo_reopened)) ms) as Hl.
  { exists [demo_write 1; demo_write 2]. split; [|vm_compute; reflexivity].
    by apply (Forall_app_2 _ [demo_write 1] [demo_write 2]); apply demo_writes_ok. }
  assert (o_FileFormat (t_opts demo_reopened) = FormatParquet) as Hp by (vm_compute; reflexivity).
  assert ((demo_written 3 demo_reopened demo_second.1.2).2 <> Crashed) as Ho by (vm_compute; discriminate).
  pose proof (demo_write_step demo_reopened demo_second.1.2 demo_history 3 demo_third.1.1 demo_third.1.2 demo_up Hl ltac:(lia) Hp (surjective_pairing _) Ho) as H.
  destruct (life_reachable_ok demo_formats demo_Marshal_manifest demo_Unmarshal_manifest demo_formats_ok demo_manifest_json [] _ (Forall_nil_2 _) H)
    as [(css & Hh & _) Hon]. exists css. split; assumption.
Qed.

Lemma demo_third_parquet : o_FileFormat (t_opts demo_third.1.1) = FormatParquet.
Proof. vm_compute. reflexivity. Qed.

Lemma triple_parts {A B C} (p : A * B * C) : p = (p.1.1, p.1.2, p.2).
Proof. by destruct p as [[? ?] ?]. Qed.

Lemma demo_compacted_parts :
  Compact demo_formats base_registry demo_Marshal_manifest (demo_outside true) [] demo_third.1.1 demo_third.1.2 =
  (demo_compacted.1.1, demo_compacted.1.2, demo_compacted.2).
Proof. unfold demo_compacted. exact (triple_parts _). Qed.

