(* ===== verification/Table.v ===== *)
(** * Table: the tablets of a table (src/internal/engine/table.go)

    A table owns the tablets its split points divide the rows between.  Each
    operation routes its rows to their tablets and runs one call per tablet;
    the calls run in goroutines and touch nothing of each other's, so they are
    applied tablet by tablet, and what arrives in any order is taken in an
    order that is an argument.  A tablet comes with its directory; what a call
    takes from outside is given per tablet.  Contexts, loggers, the callback
    for new files and the file cache are absent. *)

From stdpp Require Import strings.
From S2P Require Import Prelude Wire GoStd VisFilter Iter IterStack Merge Stack Mutation Memtable Utf8 EmbeddingSpace.
From S2P Require LocalWAL Adjacency.
From S2P Require Import RFileSource Store TabletFiles Images Tablet TabletCompact.
Import Iter.

Record tableManifest := mkTableManifest {
  tm_Version : Z;
  tm_Splits : list bytes;
  tm_FileFormat : bytes;
  tm_TargetEmbeddingSpace : bytes;
  tm_DefaultEmbedding : FileState;
}.

Definition tableManifestVersion : Z := 1.

Record table := mkTable {
  tb_tablets : list (Tablet * disk);
  tb_splits : list bytes;
  tb_format : FileFormat;
  tb_target : bytes;
  tb_default : FileState;
}.

Definition set_tablets (ts : list (Tablet * disk)) (tb : table) : table :=
  mkTable ts (tb_splits tb) (tb_format tb) (tb_target tb) (tb_default tb).

(** A scanner is an iterator of any type. *)
Record Scanner := mkScanner { sc_T : Type; sc_ops : SKVI sc_T; sc_val : sc_T }.

(** ** Routing *)

Definition string_before (a b : bytes) : bool := is_lt (bytes_Compare a b).

Definition PrefixSplit (prefixes : list bytes) : list bytes := SliceStable string_before prefixes.

Definition routeTablet (splits : list bytes) (row : bytes) : nat :=
  if bool_decide (splits = []) then 0%nat
  else Search (length splits) (fun i => is_gt (bytes_Compare (default [] (splits !! i)) row)).

(** The mutations of tablet [i], in their order, each with its position. *)
Definition bucket {M} (row : M -> bytes) (splits : list bytes) (i : nat) (l : list M) : list (nat * M) :=
  filter (fun p => routeTablet splits (row p.2) = i) (imap pair l).

(** One call per tablet. *)
Fixpoint each {A} (f : nat -> Tablet -> disk -> Tablet * disk * outcome A) (i : nat) (ts : list (Tablet * disk))
  : list (Tablet * disk) * list (outcome A) :=
  match ts with
  | [] => ([], [])
  | (t, d) :: ts =>
      let '(t, d, o) := f i t d in
      let '(ts, os) := each f (S i) ts in ((t, d) :: ts, o :: os)
  end.

(** [for _, err := range errs { if err != nil { return err } }], where no call
    stopped the process. *)
Fixpoint first_error {A} (os : list (outcome A)) : outcome unit :=
  match os with
  | [] => Done tt
  | Failed e c :: _ => Failed e c
  | _ :: os => first_error os
  end.

Definition crashed {A} (o : outcome A) : bool := match o with Crashed => true | _ => false end.
Definition all_errors {A} (os : list (outcome A)) : outcome unit := if existsb crashed os then Crashed else first_error os.

Section table.
Context (F : Formats) (registryByName : gmap string iteratorRegistration).
Context (Marshal : immutableManifest -> result bytes) (Unmarshal : bytes -> result immutableManifest).
Context (MarshalTable : tableManifest -> result bytes) (UnmarshalTable : bytes -> result tableManifest).

(** ** Writes *)

(** [file], [sync]: what happens to each tablet's log. *)
Definition write (mutations : list Mutation) (file : nat -> LocalWAL.write_outcome) (sync : nat -> bool) (x : nat -> Outside) (tb : table)
  : table * outcome unit :=
  match tb_tablets tb with
  | [(t, d)] =>
      let '(t, d, o) := writeLocked F Marshal mutations (file 0%nat) (sync 0%nat) (x 0%nat) t d in (set_tablets [(t, d)] tb, o)
  | ts =>
      let '(ts, os) := each (fun i t d =>
          match (bucket m_row (tb_splits tb) i mutations).*2 with
          | [] => (t, d, Done tt)
          | batch => writeLocked F Marshal batch (file i) (sync i) (x i) t d
          end) 0 ts in
      (set_tablets ts tb, all_errors os)
  end.

(** [results[indices[i][j]] = ok] for the answers of a tablet. *)
Definition place (results : list bool) (indices : list nat) (accepted : list bool) : list bool :=
  foldl (fun rs p => <[p.1 := p.2]> rs) results (zip indices accepted).

Fixpoint place_all (indices : nat -> list nat) (i : nat) (results : list bool) (os : list (outcome (list bool))) : list bool :=
  match os with
  | [] => results
  | o :: os => place_all indices (S i) (match o with Done accepted => place results (indices i) accepted | _ => results end) os
  end.

Definition cm_row (m : ConditionalMutation) : bytes := m_row (cm_Mutation m).

Definition conditionalWrite (mutations : list ConditionalMutation) (logs : nat -> list (LocalWAL.write_outcome * bool)) (x : nat -> Outside)
    (tb : table) : table * outcome (list bool) :=
  let '(ts, os) := each (fun i t d =>
      match (bucket cm_row (tb_splits tb) i mutations).*2 with
      | [] => (t, d, Done [])
      | batch => ConditionalWrite F Marshal batch (logs i) (x i) t d
      end) 0 (tb_tablets tb) in
  (set_tablets ts tb,
   match all_errors os with
   | Crashed => Crashed
   | Failed e c => Failed e c
   | Done _ => Done (place_all (fun i => (bucket cm_row (tb_splits tb) i mutations).*1) 0 (replicate (length mutations) false) os)
   end).

Definition flush (x : nat -> Outside) (tb : table) : table * outcome unit :=
  let '(ts, os) := each (fun i t d => flushLocked F Marshal (x i) t d) 0 (tb_tablets tb) in (set_tablets ts tb, all_errors os).

Definition compactLocked (x : nat -> Outside) (stack : list IterSpec) (tb : table) : table * outcome unit :=
  let '(ts, os) := each (fun i t d => Compact F registryByName Marshal (x i) stack t d) 0 (tb_tablets tb) in
  (set_tablets ts tb, all_errors os).

(** ** Reads *)

(** The options of a scan that reach the tablets. *)
Record ScanOptions := mkScanOptions {
  so_Stack : list IterSpec;
  so_Authorizations : option (list bytes);
  so_ColumnFamilies : list bytes;
  so_ColumnFamiliesInclusive : bool;
}.

Definition scan_env (opts : ScanOptions) : IteratorEnvironment := mkEnv ScopeScan false (so_Authorizations opts).

(** The visits of one bucket after another; the first error ends them. *)
Fixpoint lookup_buckets (rows : list bytes) (opts : ScanOptions) (splits : list bytes) (i : nat) (ts : list (Tablet * disk))
  : list (nat * Cell) * option err :=
  match ts with
  | [] => ([], None)
  | (t, d) :: ts =>
      let idxs := bucket id splits i rows in
      match idxs.*2 with
      | [] => lookup_buckets rows opts splits (S i) ts
      | subRows =>
          let '(visits, e) := LookupRows F registryByName subRows (so_ColumnFamilies opts) (so_ColumnFamiliesInclusive opts) (so_Stack opts)
                                (scan_env opts) t d in
          let visits := (fun v => (default 0%nat (idxs.*1 !! v.1), v.2)) <$> visits in
          match e with
          | Some e => (visits, Some e)
          | None => let '(rest, e) := lookup_buckets rows opts splits (S i) ts in (visits ++ rest, e)
          end
      end
  end.

Definition lookupRows (rows : list bytes) (opts : ScanOptions) (tb : table) : list (nat * Cell) * option err :=
  match tb_tablets tb with
  | [(t, d)] => LookupRows F registryByName rows (so_ColumnFamilies opts) (so_ColumnFamiliesInclusive opts) (so_Stack opts) (scan_env opts) t d
  | ts => lookup_buckets rows opts (tb_splits tb) 0 ts
  end.

(** [Neighbor]: the target, value, timestamp and visibility of an edge. *)
Record Neighbor := mkNeighbor { nb_Target : bytes; nb_Value : bytes; nb_Timestamp : Z; nb_Vis : bytes }.

Definition edge_Neighbor (e : Adjacency.Edge) : Neighbor :=
  mkNeighbor (Adjacency.CQ e) (Adjacency.Value e) (Adjacency.e_Timestamp e) (Adjacency.Vis e).

Definition neighborsOne (row edgeCF : bytes) (env : IteratorEnvironment) (tb : table) : result (list Neighbor) :=
  match tb_tablets tb !! routeTablet (tb_splits tb) row with
  | None => Err Panic
  | Some (t, d) =>
      match Neighbors F row edgeCF env t d with Err e => Err e | Ok edges => Ok (edge_Neighbor <$> edges) end
  end.

(** Every row is asked for; the first row's error is returned. *)
Definition neighbors (rows : list bytes) (edgeCF : bytes) (opts : ScanOptions) (tb : table) : result (list (list Neighbor)) :=
  mapM (fun row => neighborsOne row edgeCF (scan_env opts) tb) rows.

(** *** Scans *)

(** A tablet's scanner, already seeked, as a source of the merge. *)
Record scannerSKVI := mkScannerSKVI { sk_sc : Iterator }.

(** [DeepCopy], which returns nil, is never called. *)
#[export] Instance scannerSKVI_SKVI : SKVI scannerSKVI := {
  Seek _ _ _ s := (s, None);
  Next s := let '(mkIter T ops laws v) := sk_sc s in let '(v, e) := Next v in (mkScannerSKVI (mkIter T ops laws v), e);
  HasTop s := let '(mkIter T ops laws v) := sk_sc s in let '(v, b) := HasTop v in (mkScannerSKVI (mkIter T ops laws v), b);
  GetTopKey s := let '(mkIter T ops laws v) := sk_sc s in GetTopKey v;
  GetTopValue s := let '(mkIter T ops laws v) := sk_sc s in GetTopValue v;
  DeepCopy _ s := s;
  bound s := let '(mkIter T ops laws v) := sk_sc s in bound v;
}.

Definition VectorKNN : string := "vectorKNN".
Definition VectorKNNEmbeddingSpace : string := "embeddingSpace".
Definition ErrQueryMetadataMissing : err := Fail "embedding space: query source metadata unavailable".

(** The ident the vector iterators of the stack agree on, if there are any;
    [ident] is that of the ones before. *)
Fixpoint exactVectorEmbeddingSpace_loop (stack : list IterSpec) (ident : option bytes) : result (option bytes) :=
  match stack with
  | [] => Ok ident
  | spec :: stack =>
      if negb (bool_decide (Name spec = VectorKNN)) then exactVectorEmbeddingSpace_loop stack ident
      else
        let current := TrimSpace (str (default EmptyString (Stack.Options spec !! VectorKNNEmbeddingSpace))) in
        match ValidateQueryStates current [] with
        | Some e => Err e
        | None =>
            match ident with
            | None => exactVectorEmbeddingSpace_loop stack (Some current)
            | Some ident =>
                match EnsureSameIdentity ident current with
                | Some e => Err e
                | None => exactVectorEmbeddingSpace_loop stack (Some ident)
                end
            end
        end
  end.
Definition exactVectorEmbeddingSpace (stack : list IterSpec) : result (option bytes) := exactVectorEmbeddingSpace_loop stack None.

(** The scanners in the order they arrive; the first error that arrives. *)
Fixpoint collect (answers : list (result Iterator)) : result (list Iterator) :=
  match answers with
  | [] => Ok []
  | answer :: answers => sc ← answer; rest ← collect answers; Ok (sc :: rest)
  end.

(** [arrival]: the order in which the tablets answer. *)
Definition scan (arrival : list nat) (r : Range) (opts : ScanOptions) (tb : table) : result Scanner :=
  exact ← exactVectorEmbeddingSpace (so_Stack opts);
  if bool_decide (is_Some exact) then Err (Wrap "vectorKNN requires ScanHosted" ErrQueryMetadataMissing)
  else
    let tablet_scan := fun '(t, d) =>
      Scan F registryByName r (so_ColumnFamilies opts) (so_ColumnFamiliesInclusive opts) (so_Stack opts) (scan_env opts) t d in
    match tb_tablets tb with
    | [td] => sc ← tablet_scan td; Ok (mkScanner scannerSKVI _ (mkScannerSKVI sc))
    | ts =>
        scanners ← collect ((fun i => match ts !! i with Some td => tablet_scan td | None => Err Panic end) <$> arrival);
        let leaves := mkScannerSKVI <$> scanners in
        match leaves with
        | [leaf] => Ok (mkScanner scannerSKVI _ leaf)
        | _ =>
            match MergingIterator_Seek InfiniteRange [] false (NewMergingIterator leaves) with
            | (_, Some e) => Err e
            | (merge, None) => Ok (mkScanner (MergingIterator scannerSKVI) _ merge)
            end
        end
    end.

(** What a client reads of a scanner. *)
Definition Scanner_cells (sc : Scanner) : result (list Cell) :=
  let '(mkScanner T ops v) := sc in
  let '(cells, _, e) := drain_iter (S (bound v)) v in
  match e with Some e => Err e | None => Ok cells end.

Fixpoint embeddingStates (ts : list (Tablet * disk)) : result (list (bytes * FileState) * Z) :=
  match ts with
  | [] => Ok ([], 0)
  | (t, d) :: ts =>
      '(states, cells) ← EmbeddingStateSnapshot F t d;
      '(files, unflushed) ← embeddingStates ts;
      Ok (states ++ files, cells + unflushed)
  end.

Definition embeddingStateSnapshotLocked (tb : table) : result (list (bytes * FileState) * Z * FileState) :=
  '(files, unflushed) ← embeddingStates (tb_tablets tb);
  Ok (SliceStable (fun a b => string_before a.1 b.1) files, unflushed, tb_default tb).

Fixpoint check_files (ident : bytes) (files : list (bytes * FileState)) : option err :=
  match files with
  | [] => None
  | file :: files =>
      match ValidateQueryStates ident [file.2] with
      | Some e => Some (Wrap "file" e)
      | None => check_files ident files
      end
  end.

Definition validateExactVectorEmbeddingSpaceLocked (ident : bytes) (tb : table) : option err :=
  match embeddingStateSnapshotLocked tb with
  | Err e => Some e
  | Ok (files, unflushed, defaultEmbedding) =>
      match (if unflushed >? 0 then ValidateQueryStates ident [defaultEmbedding] else None) with
      | Some e => Some e
      | None => check_files ident files
      end
  end.

(** The stack over the whole-table merge: the as-of iterators below the
    version cap, the others above it. *)
Definition hostedStack (topStack : list IterSpec) : list IterSpec :=
  filter (fun s => Name s = "asOf"%string) topStack ++ [mkSpec "versioning" {["maxVersions"%string := "1"%string]}] ++
  filter (fun s => Name s <> "asOf"%string) topStack.

Definition scanHosted (r : Range) (opts : ScanOptions) (topStack : list IterSpec) (tb : table) : result Iterator :=
  exact ← exactVectorEmbeddingSpace topStack;
  match exact ≫= (fun ident => validateExactVectorEmbeddingSpaceLocked ident tb) with
  | Some e => Err e
  | None =>
      leaves ← mapM (fun '(t, d) => SnapshotSource F t d) (tb_tablets tb);
      match BuildStack registryByName (mkIter (MergingIterator (MergingIterator (SliceSource + FileSource))) _ Merging_Laws (NewMergingIterator leaves))
              (hostedStack topStack) (scan_env opts) with
      | inl _ => Err (Fail "iterrt: build stack")
      | inr top =>
          match seek_top r (so_ColumnFamilies opts) (so_ColumnFamiliesInclusive opts) top with
          | (_, Some e) => Err e
          | (top, None) => Ok top
          end
      end
  end.

(** ** The manifest *)

(** The directory of a table: its manifest, the subdirectories with the object
    store and the log of each, and those of the directory itself, where a
    legacy table keeps its only tablet. *)
Record tableDir := mkTableDir {
  td_json : option bytes;
  td_tablets : list (bytes * (disk * bytes));
  td_own : disk * bytes;
}.

(** What a write of the manifest comes to: the file is renamed into place, or
    nothing changes; the process may stop on either side. *)
Inductive rename := Renamed | NotRenamed | StoppedBefore | StoppedAfter.

Definition writeTableManifest (manifest : tableManifest) (fate : rename) (dir : tableDir) : tableDir * outcome unit :=
  match MarshalTable manifest with
  | Err e => (dir, Failed (Wrap "table: encode manifest" e) false)
  | Ok data =>
      let after := mkTableDir (Some (data ++ [10])) (td_tablets dir) (td_own dir) in
      match fate with
      | Renamed => (after, Done tt)
      | NotRenamed => (dir, Failed (Fail "table: commit manifest") false)
      | StoppedBefore => (dir, Crashed)
      | StoppedAfter => (after, Crashed)
      end
  end.

Definition format_name (f : FileFormat) : bytes := match f with FormatRFile => str "rfile" | FormatParquet => str "parquet" end.

(** The manifest of an open table, with the settings given. *)
Definition manifest_of (tb : table) (format : FileFormat) (target : bytes) (default : FileState) : tableManifest :=
  mkTableManifest tableManifestVersion (tb_splits tb) (format_name format) target default.

(** A file that is not there is the manifest of an undivided table. *)
Definition readTableManifest (json : option bytes) : result (tableManifest * FileFormat) :=
  match json with
  | None => Ok (mkTableManifest tableManifestVersion [] (format_name FormatRFile) [] zero_state, FormatRFile)
  | Some data =>
      manifest ← wrap "table: decode manifest" (UnmarshalTable data);
      if negb (tm_Version manifest =? tableManifestVersion) then Err (Fail "table: unsupported manifest version")
      else
        format ← ParseFileFormat (tm_FileFormat manifest);
        match (if negb (bool_decide (tm_DefaultEmbedding manifest = zero_state)) then EmbeddingSpace.Validate (tm_DefaultEmbedding manifest) else None) with
        | Some e => Err (Wrap "table: invalid default embedding state" e)
        | None => Ok (manifest, format)
        end
  end.

(** ** Opening and creating *)

Definition is_tablet_dir (name : bytes) : bool := bool_decide (take 2 name = str "t-").
Definition tablet_dir_name (i : nat) : bytes := str "t-" ++ pad 4 (Z.of_nat i).

(** The tablet directories by name; the table's own where there are none. *)
Definition sorted_tablets (dir : tableDir) : list (bytes * (disk * bytes)) :=
  SliceStable (fun a b => string_before a.1 b.1) (filter (fun e => is_tablet_dir e.1 = true) (td_tablets dir)).
Definition tabletDirs (dir : tableDir) : list (disk * bytes) :=
  match sorted_tablets dir with [] => [td_own dir] | entries => entries.*2 end.

(** One tablet after another, all of them unless the process stops; the first
    error is returned. *)
Fixpoint close_loop (sync : nat -> bool) (x : nat -> Outside) (i : nat) (ts : list (Tablet * disk)) : list (Tablet * disk) * outcome unit :=
  match ts with
  | [] => ([], Done tt)
  | (t, d) :: ts =>
      match Close F Marshal (sync i) (x i) t d with
      | (t, d, Crashed) => ((t, d) :: ts, Crashed)
      | (t, d, o) =>
          let '(ts, rest) := close_loop sync x (S i) ts in
          ((t, d) :: ts, match o, rest with Failed e c, Done _ | Failed e c, Failed _ _ => Failed (Wrap "tablet" e) c | _, _ => rest end)
      end
  end.

(** What tablets leave in their directories, and the directories of these
    names with it. *)
Definition left_behind (ts : list (Tablet * disk)) : list (disk * bytes) := (fun td => (td.2, LocalWAL.w_file (t_wal td.1))) <$> ts.

Definition put_back (names : list bytes) (ts : list (Tablet * disk)) (dir : tableDir) : tableDir :=
  mkTableDir (td_json dir)
    (foldl (fun l p => (fun e => if bool_decide (e.1 = p.1) then (e.1, p.2) else e) <$> l) (td_tablets dir) (zip names (left_behind ts))) (td_own dir).

(** A table's directory with what its tablets, the first ones of it, left. *)
Definition restore (ts : list (Tablet * disk)) (dir : tableDir) : tableDir :=
  match sorted_tablets dir with
  | [] => mkTableDir (td_json dir) (td_tablets dir) (default (td_own dir) (head (left_behind ts)))
  | entries => put_back entries.*1 ts dir
  end.

(** A tablet failed to open: the ones before it are closed. *)
Definition open_fails {A} (sync : nat -> bool) (y : nat -> Outside) (ts : list (Tablet * disk)) (back : list (Tablet * disk) -> tableDir) (e : err)
  : tableDir * outcome A :=
  let '(ts, o) := close_loop sync y 0 ts in (back ts, match o with Crashed => Crashed | _ => Failed (Wrap "table: open tablet" e) false end).

(** The tablets that opened, and the error that ended it. *)
Fixpoint open_all (opts : Tablet.Options) (mode : LocalWAL.SyncMode) (x : nat -> Outside) (i : nat) (dirs : list (disk * bytes))
  : list (Tablet * disk) * option err :=
  match dirs with
  | [] => ([], None)
  | (d, wal) :: dirs =>
      match Tablet.Open Unmarshal (x i) mode opts d wal with
      | Err e => ([], Some e)
      | Ok t => let '(ts, e) := open_all opts mode x (S i) dirs in ((t, d) :: ts, e)
      end
  end.

(** [sync], [y]: for the closing of tablets where another fails to open. *)
Definition openTable (mode : LocalWAL.SyncMode) (retention : Z) (x : nat -> Outside) (sync : nat -> bool) (y : nat -> Outside) (dir : tableDir)
  : tableDir * outcome table :=
  match readTableManifest (td_json dir) with
  | Err e => (dir, Failed e false)
  | Ok (manifest, format) =>
      let dirs := tabletDirs dir in
      if (len (tm_Splits manifest) >? 0) && negb (len dirs =? len (tm_Splits manifest) + 1) then (dir, Failed (Fail "table: incomplete layout") false)
      else
        match open_all (mkOptions 0 [] format (tm_DefaultEmbedding manifest) retention) mode x 0 dirs with
        | (tablets, None) =>
            (dir, Done (mkTable tablets (tm_Splits manifest) format (tm_TargetEmbeddingSpace manifest) (tm_DefaultEmbedding manifest)))
        | (tablets, Some e) =>
            open_fails sync y tablets (fun ts => restore ts dir) e
        end
  end.

(** The options of a new table, those of its tablets among them. *)
Record TableOptions := mkTableOptions {
  to_Splits : list bytes;
  to_Workload : bytes;
  to_FileFormat : bytes;
  to_TabletFormat : bytes;
  to_Target : bytes;
  to_DefaultEmbedding : FileState;
  to_TabletEmbedding : FileState;
  to_FlushThreshold : Z;
  to_AdjacencyEdgeCF : bytes;
  to_TombstoneRetention : Z;
}.

Definition ParseStorageFormat (value : bytes) : result bytes :=
  if bool_decide (value = [] \/ value = str "rfile") then Ok (str "rfile")
  else if bool_decide (value = str "parquet") then Ok (str "parquet")
  else Err (Fail "engine: unsupported storage format").

Definition resolve_format (opts : TableOptions) : result FileFormat :=
  tablet_format ← (if bool_decide (to_FileFormat opts = []) then Ok (to_TabletFormat opts)
                   else
                     format ← ParseStorageFormat (to_FileFormat opts);
                     if negb (bool_decide (to_TabletFormat opts = [])) && negb (bool_decide (to_TabletFormat opts = format))
                     then Err (Fail "table: conflicting file formats") else Ok format);
  tablet_format ← (if negb (bool_decide (tablet_format = [])) then Ok tablet_format
                   else if bool_decide (to_Workload opts = [] \/ to_Workload opts = str "operational") then Ok (str "rfile")
                   else if bool_decide (to_Workload opts = str "analytical") then Ok (str "parquet")
                   else Err (Fail "table: unsupported workload"));
  ParseFileFormat tablet_format.

Definition resolve_embedding (opts : TableOptions) : result FileState :=
  state ← (if bool_decide (to_DefaultEmbedding opts = zero_state) then Ok (to_TabletEmbedding opts)
           else if negb (bool_decide (to_TabletEmbedding opts = zero_state)) && negb (bool_decide (to_TabletEmbedding opts = to_DefaultEmbedding opts))
           then Err (Fail "table: conflicting default embedding states") else Ok (to_DefaultEmbedding opts));
  match (if negb (bool_decide (state = zero_state)) then EmbeddingSpace.Validate state else None) with
  | Some e => Err (Wrap "table: invalid default embedding state" e)
  | None => Ok state
  end.

(** The subdirectory of tablet [i], made empty where there is none; [fs]: what
    happens to the writes in a new one. *)
Definition ensure_dir (fs : nat -> list fault) (i : nat) (dir : tableDir) : tableDir * (disk * bytes) :=
  match List.find (fun e => bool_decide (e.1 = tablet_dir_name i)) (td_tablets dir) with
  | Some e => (dir, e.2)
  | None =>
      let empty := (mkDisk ∅ (fs i), []) in
      (mkTableDir (td_json dir) (td_tablets dir ++ [(tablet_dir_name i, empty)]) (td_own dir), empty)
  end.

(** The tablets that opened; [stop]: the process stops before tablet [stop] is. *)
Fixpoint create_tablets (fs : nat -> list fault) (opts : Tablet.Options) (mode : LocalWAL.SyncMode) (x : nat -> Outside) (stop : option nat) (count i : nat)
    (dir : tableDir) : tableDir * list (Tablet * disk) * outcome unit :=
  match count with
  | O => (dir, [], if bool_decide (stop = Some i) then Crashed else Done tt)
  | S count =>
      if bool_decide (stop = Some i) then (dir, [], Crashed)
      else
        let '(dir, (d, wal)) := ensure_dir fs i dir in
        match Tablet.Open Unmarshal (x i) mode opts d wal with
        | Err e => (dir, [], Failed e false)
        | Ok t => let '(dir, ts, o) := create_tablets fs opts mode x stop count (S i) dir in (dir, (t, d) :: ts, o)
        end
  end.

Definition createTable (opts : TableOptions) (mode : LocalWAL.SyncMode) (fate : rename) (stop : option nat) (fs : nat -> list fault)
    (x : nat -> Outside) (sync : nat -> bool) (y : nat -> Outside) (dir : tableDir) : tableDir * outcome table :=
  match (format ← resolve_format opts; state ← resolve_embedding opts; Ok (format, state)) with
  | Err e => (dir, Failed e false)
  | Ok (format, state) =>
      let splits := SliceStable string_before (to_Splits opts) in
      match writeTableManifest (mkTableManifest tableManifestVersion splits (format_name format) (to_Target opts) state) fate dir with
      | (dir, Crashed) => (dir, Crashed)
      | (dir, Failed e c) => (dir, Failed e c)
      | (dir, Done _) =>
          match create_tablets fs (mkOptions (to_FlushThreshold opts) (to_AdjacencyEdgeCF opts) format state (to_TombstoneRetention opts))
                  mode x stop (length splits + 1) 0 dir with
          | (dir, ts, Done _) => (dir, Done (mkTable ts splits format (to_Target opts) state))
          | (dir, ts, Failed e _) => open_fails sync y ts (fun ts => put_back (tablet_dir_name <$> seq 0 (length ts)) ts dir) e
          | (dir, ts, Crashed) => (dir, Crashed)
          end
      end
  end.

(** ** Settings *)

Definition setTargetEmbedding (target : bytes) (fate : rename) (tb : table) (dir : tableDir) : table * tableDir * outcome unit :=
  match writeTableManifest (manifest_of tb (tb_format tb) target (tb_default tb)) fate dir with
  | (dir, Done _) => (mkTable (tb_tablets tb) (tb_splits tb) (tb_format tb) target (tb_default tb), dir, Done tt)
  | (dir, o) => (tb, dir, o)
  end.

Definition setFileFormatLocked (format : bytes) (fate : rename) (tb : table) (dir : tableDir) : table * tableDir * outcome unit :=
  match ParseFileFormat format with
  | Err e => (tb, dir, Failed e false)
  | Ok parsed =>
      match writeTableManifest (manifest_of tb parsed (tb_target tb) (tb_default tb)) fate dir with
      | (dir, Done _) =>
          (mkTable ((fun '(t, d) => ((SetFileFormat (format_name parsed) t).1, d)) <$> tb_tablets tb) (tb_splits tb) parsed (tb_target tb) (tb_default tb),
           dir, Done tt)
      | (dir, o) => (tb, dir, o)
      end
  end.

(** The tablets are asked one after another; the first that refuses ends it. *)
Fixpoint set_embeddings (state : FileState) (ts : list (Tablet * disk)) : list (Tablet * disk) * option err :=
  match ts with
  | [] => ([], None)
  | (t, d) :: ts =>
      match SetDefaultEmbedding state t with
      | (t, Some e) => ((t, d) :: ts, Some e)
      | (t, None) => let '(ts, e) := set_embeddings state ts in ((t, d) :: ts, e)
      end
  end.

Definition setDefaultEmbedding (state : FileState) (fate : rename) (tb : table) (dir : tableDir) : table * tableDir * outcome unit :=
  match (if negb (bool_decide (state = zero_state)) then EmbeddingSpace.Validate state else None) with
  | Some e => (tb, dir, Failed e false)
  | None =>
      if existsb (fun td => MemtableSize td.1 >? 0) (tb_tablets tb) then (tb, dir, Failed (Wrap "table" ErrEmbeddingStateChangeWithUnflushedData) false)
      else
        match writeTableManifest (manifest_of tb (tb_format tb) (tb_target tb) state) fate dir with
        | (dir, Done _) =>
            match set_embeddings state (tb_tablets tb) with
            | (ts, Some e) => (set_tablets ts tb, dir, Failed e false)
            | (ts, None) => (mkTable ts (tb_splits tb) (tb_format tb) (tb_target tb) state, dir, Done tt)
            end
        | (dir, o) => (tb, dir, o)
        end
  end.

Definition migrate (format : bytes) (stack : list IterSpec) (fate : rename) (x y : nat -> Outside) (tb : table) (dir : tableDir)
  : table * tableDir * outcome unit :=
  match setFileFormatLocked format fate tb dir with
  | (tb, dir, Done _) =>
      match flush x tb with
      | (tb, Done _) => let '(tb, o) := compactLocked y stack tb in (tb, dir, o)
      | (tb, o) => (tb, dir, o)
      end
  | (tb, dir, o) => (tb, dir, o)
  end.

(** The total of the tablets' files; the first tablet that fails ends it. *)
Fixpoint refresh_loop (x : nat -> Outside) (i : nat) (ts : list (Tablet * disk)) : list (Tablet * disk) * outcome Z :=
  match ts with
  | [] => ([], Done 0)
  | (t, d) :: ts =>
      match RefreshFiles Marshal Unmarshal (x i) t d with
      | (t, d, Done n) =>
          let '(ts, o) := refresh_loop x (S i) ts in
          ((t, d) :: ts, match o with Done total => Done (n + total) | o => o end)
      | (t, d, Failed e c) => ((t, d) :: ts, Failed e c)
      | (t, d, Crashed) => ((t, d) :: ts, Crashed)
      end
  end.
Definition refreshFiles (x : nat -> Outside) (tb : table) : table * outcome Z :=
  let '(ts, o) := refresh_loop x 0 (tb_tablets tb) in (set_tablets ts tb, o).

Definition close (sync : nat -> bool) (x : nat -> Outside) (tb : table) : table * outcome unit :=
  let '(ts, o) := close_loop sync x 0 (tb_tablets tb) in (set_tablets ts tb, o).
End table.
