(* ===== verification/TableOk.v ===== *)
(** * TableOk: a table against the history of its writes *)

From stdpp Require Import strings.
From Stdlib Require Import FunctionalExtensionality.
From S2P Require Import Prelude Wire GoStd VisFilter Iter IterStack IterLaws Merge Reads History Stack Mutation Memtable EmbeddingSpace.
From S2P Require LocalWAL Parquet.
From S2P Require Import RFileSource Store TabletFiles Images Compaction Tablet TabletOk TabletLife.
From S2P Require Table.
Import Iter.
Import Table (left_behind, table, mkTable, tb_tablets, tb_splits, set_tablets, routeTablet, bucket, each, all_errors, first_error, crashed, place, place_all, cm_row, tableDir, tabletDirs, mkTableDir, td_json, td_tablets, td_own, tablet_dir_name, is_tablet_dir).

(** ** Routing *)

Lemma routeTablet_le splits row : (routeTablet splits row <= length splits)%nat.
Proof. unfold routeTablet. case_bool_decide as E; [lia|]. by destruct (Search_ok (fun i => is_gt (bytes_Compare (default [] (splits !! i)) row)) (length splits)). Qed.

Definition row_le (a b : bytes) : Prop := bytes_Compare a b <> Gt.

Lemma row_le_trans a b c : row_le a b -> row_le b c -> row_le a c.
Proof.
  unfold row_le. intros H1 H2. destruct (bytes_Compare a b) eqn:E1; [apply (cmp_eq bytes_Compare) in E1 as ->; done| |done].
  destruct (bytes_Compare b c) eqn:E2; [apply (cmp_eq bytes_Compare) in E2 as <-; by rewrite E1| |done]. by rewrite (cmp_trans bytes_Compare _ _ _ E1 E2).
Qed.

(** The split points that are no greater than the row are the first ones. *)
Lemma routeTablet_spec splits row :
  StronglySorted row_le splits ->
  let i := routeTablet splits row in
  (forall j s, splits !! j = Some s -> (j < i)%nat -> row_le s row) /\ (forall j s, splits !! j = Some s -> (i <= j)%nat -> bytes_Compare row s = Lt).
Proof.
  intros Hs. unfold routeTablet. case_bool_decide as E; [subst; cbn zeta; by split; intros [|?] ?|].
  set (f := fun i => is_gt (bytes_Compare (default [] (splits !! i)) row)). destruct (Search_ok f (length splits)) as (Hle & Hb & Ha).
  set (i := Search (length splits) f) in *. cbn zeta.
  assert (forall j s, splits !! j = Some s -> f j = is_gt (bytes_Compare s row)) as Hf by (intros j s Hj; unfold f; by rewrite Hj).
  assert (forall j k s s', (j <= k)%nat -> splits !! j = Some s -> splits !! k = Some s' -> row_le s s') as Hmono.
  { intros j k s s' Hjk Hj Hk. destruct (decide (j = k)) as [->|]; [assert (s = s') as -> by congruence; unfold row_le; by rewrite (cmp_refl bytes_Compare)|].
    clear -Hs Hj Hk Hjk n. revert j k Hj Hk Hjk n. induction Hs as [|a l Hs IH Ha]; [done|]. intros [|j] [|k] Hj Hk Hjk Hn; try lia; cbn in Hj, Hk.
    - injection Hj as ->. by apply (Forall_lookup_1 _ _ _ _ Ha Hk).
    - apply (IH j k); [done|done|lia|lia]. }
  split; intros j s Hj Hji.
  - destruct Hb as [Hb|Hb]; [lia|]. destruct (lookup_lt_is_Some_2 splits (pred i) ltac:(lia)) as [p Hp]. rewrite (Hf _ _ Hp) in Hb.
    apply (row_le_trans _ p); [by apply (Hmono j (pred i)); [lia|..]|]. unfold row_le. by destruct (bytes_Compare p row).
  - destruct Ha as [Ha|Ha]; [apply lookup_lt_Some in Hj; lia|]. destruct (lookup_lt_is_Some_2 splits i) as [p Hp]; [apply lookup_lt_Some in Hj; lia|].
    rewrite (Hf _ _ Hp) in Ha. assert (bytes_Compare row p = Lt) as Hlt by (rewrite (cmp_antisym bytes_Compare p row); by destruct (bytes_Compare p row)).
    pose proof (Hmono i j p s Hji Hp Hj) as Hps. unfold row_le in Hps. destruct (bytes_Compare p s) eqn:Eps; [apply (cmp_eq bytes_Compare) in Eps as <-; done| |done].
    by rewrite (cmp_trans bytes_Compare _ _ _ Hlt Eps).
Qed.

(** ** One call per tablet *)

Lemma each_lookup {A} (f : nat -> Tablet -> disk -> Tablet * disk * outcome A) i ts ts' os :
  each f i ts = (ts', os) ->
  length ts' = length ts /\ length os = length ts /\
  forall k t d, ts !! k = Some (t, d) -> exists t' d' o, f (i + k)%nat t d = (t', d', o) /\ ts' !! k = Some (t', d') /\ os !! k = Some o.
Proof.
  revert i ts' os. induction ts as [|[t d] ts IH]; intros i ts' os; cbn [each]; [intros [= <- <-]; by split_and!|].
  destruct (f i t d) as [[t1 d1] o] eqn:Ef. destruct (each f (S i) ts) as [ts1 os1] eqn:Ee. intros [= <- <-].
  destruct (IH _ _ _ Ee) as (H1 & H2 & H3). split; [cbn; lia|]. split; [cbn; lia|]. intros [|k] t2 d2.
  - intros [= <- <-]. rewrite Nat.add_0_r. by exists t1, d1, o.
  - intros Hk. destruct (H3 k t2 d2 Hk) as (t' & d' & o' & E & ?). exists t', d', o'. by rewrite <-Nat.add_succ_comm.
Qed.

Lemma all_errors_crash {A} (os : list (outcome A)) : all_errors os <> Crashed -> forall k o, os !! k = Some o -> o <> Crashed.
Proof.
  unfold all_errors. destruct (existsb crashed os) eqn:E; [done|]. intros _ k o Hk ->.
  assert (existsb crashed os = true); [|congruence]. apply existsb_exists. exists Crashed. split; [by apply list_elem_of_In, (list_elem_of_lookup_2 _ k)|done].
Qed.

(** ** The history of a tablet's rows *)

Section routed.
Context (splits : list bytes).
Abbreviation route := (routeTablet splits).

Definition owned (i : nat) (hist : list Cell) : list Cell := filter (fun c : Cell => route (Row c.1) = i) hist.

Lemma owned_app i a b : owned i (a ++ b) = owned i a ++ owned i b.
Proof. apply filter_app. Qed.

Lemma owned_Cells i m : owned i (Cells m) = if decide (route (m_row m) = i) then Cells m else [].
Proof.
  unfold owned, Cells. induction (m_entries m) as [|e es IH]; [by case_decide|]. rewrite fmap_cons, filter_cons, IH.
  change (Row (entry_cell (m_row m) e).1) with (m_row m). by case_decide.
Qed.

Lemma bucket_cons {M} (row : M -> bytes) k i m l :
  filter (fun p : nat * M => route (row p.2) = i) (imap (fun j => pair (k + j)%nat) (m :: l)) =
    (if decide (route (row m) = i) then [(k, m)] else []) ++ filter (fun p : nat * M => route (row p.2) = i) (imap (fun j => pair (S k + j)%nat) l).
Proof.
  cbn [imap]. rewrite filter_cons. cbn [fst snd]. rewrite Nat.add_0_r.
  assert (imap ((fun j => pair (k + j)%nat) ∘ S) l = imap (fun j => pair (S k + j)%nat) l) as ->; [|by case_decide].
  apply imap_ext. intros j x _. cbn. by rewrite Nat.add_succ_r.
Qed.

Lemma bucket_rows {M} (row : M -> bytes) i l : (bucket row splits i l).*2 = filter (fun m => route (row m) = i) l.
Proof.
  unfold bucket. change (imap pair l) with (imap (fun j => @pair nat M (0 + j)%nat) l). generalize 0%nat. induction l as [|m l IH]; intros k; [done|].
  rewrite bucket_cons, fmap_app, IH, (filter_cons _ m l). by case_decide.
Qed.

Lemma owned_log i ms : owned i (log_cells ms) = log_cells (bucket m_row splits i ms).*2.
Proof.
  rewrite bucket_rows. unfold log_cells. induction ms as [|m ms IH]; [done|].
  rewrite fmap_cons. cbn [concat]. rewrite owned_app, IH, owned_Cells, filter_cons. by case_decide.
Qed.

(** What is asked of one tablet's rows is asked of its history. *)
Lemma newest_owned (P : Key -> bool) i hist : (forall k, P k = true -> route (Row k) = i) -> newest P (owned i hist) = newest P hist.
Proof.
  intros HP. induction hist as [|c hist IH] using rev_ind; [done|]. rewrite owned_app, newest_snoc, <-IH. unfold owned at 2. rewrite filter_cons, filter_nil.
  case_decide as E; [by rewrite newest_snoc|]. rewrite app_nil_r. unfold newer. destruct (P c.1) eqn:EP; [by destruct E; apply HP|done].
Qed.

Lemma as_of_row ceiling x k : as_of ceiling x k = true -> Row k = x.1.
Proof. unfold as_of. rewrite andb_true_iff, bool_decide_eq_true. by intros [<- _]. Qed.

Lemma read_spec_owned auths ceiling x i hist : route x.1 = i -> read_spec auths ceiling x (owned i hist) = read_spec auths ceiling x hist.
Proof. intros Hx. unfold read_spec. rewrite newest_owned; [done|]. intros k Hk%as_of_row. by rewrite Hk. Qed.

Lemma read_spec_elsewhere auths ceiling x i hist : route x.1 <> i -> read_spec auths ceiling x (owned i hist) = [].
Proof.
  intros Hx. unfold read_spec. destruct (visible_uncached _ _); [|done]. rewrite newest_nothing; [done|].
  intros c Hc%list_elem_of_filter. apply not_true_is_false. intros Hk%as_of_row. destruct Hc as [Hc _]. by rewrite Hk in Hc.
Qed.

Lemma condition_value_owned row c i hist : route row = i -> condition_value row c (owned i hist) = condition_value row c hist.
Proof.
  intros Hr. unfold condition_value. rewrite newest_owned; [done|]. intros k. unfold eligible. rewrite andb_true_iff, bool_decide_eq_true.
  unfold coord. intros [[= -> _] _]. done.
Qed.

Lemma conditions_spec_owned row cs i hist : route row = i -> conditions_spec row cs (owned i hist) = conditions_spec row cs hist.
Proof.
  intros Hr. induction cs as [|c cs IH]; [done|]. cbn [conditions_spec].
  assert (condition_spec row c (owned i hist) = condition_spec row c hist) as ->; [unfold condition_spec; by rewrite (condition_value_owned _ _ _ _ Hr)|].
  by destruct (condition_spec row c hist) as [[]|]; cbn [mbind result_bind].
Qed.
End routed.

(** ** Conditional mutations by tablet *)

Lemma Forall_of_filter {A} (P Q : A -> Prop) `{forall x, Decision (Q x)} l : Forall P l -> Forall P (filter Q l).
Proof. rewrite !Forall_forall. intros Hl x [_ Hx]%list_elem_of_filter. by apply Hl. Qed.

Section conditional.
Context (splits : list bytes).
Abbreviation route := (routeTablet splits).
Abbreviation owned := (owned splits).

Definition supported (c : Condition) : bool := match cd_Kind c with ConditionUnsupported _ => false | _ => true end.

Lemma conditions_spec_total row cs hist : Forall (fun c => supported c = true) cs -> exists b, conditions_spec row cs hist = Ok b.
Proof.
  induction 1 as [|c cs Hc _ [b Hb]]; [by exists true|]. cbn [conditions_spec].
  assert (exists b', condition_spec row c hist = Ok b') as [b' ->] by (unfold condition_spec, supported in *; destruct (cd_Kind c); try done; by eexists).
  cbn [mbind result_bind]. destruct b'; [by exists b|by exists false].
Qed.

Lemma conditional_spec_total cms hist :
  Forall (fun m => Forall (fun c => supported c = true) (cm_Conditions m)) cms -> exists hist' rs, conditional_spec cms hist = (hist', Ok rs).
Proof.
  intros H. revert hist. induction H as [|m cms Hm _ IH]; intros hist; [by exists hist, []|]. cbn [conditional_spec].
  destruct (conditions_spec_total (m_row (cm_Mutation m)) _ hist Hm) as [b ->].
  destruct (IH (if b then hist ++ Cells (cm_Mutation m) else hist)) as (hist' & rs & ->). by exists hist', (b :: rs).
Qed.

(** Deciding all the mutations decides those of each tablet. *)
Lemma conditional_spec_buckets cms hist hist' rs :
  conditional_spec cms hist = (hist', Ok rs) ->
  length rs = length cms /\
  forall i, conditional_spec (filter (fun m => route (cm_row m) = i) cms) (owned i hist) =
    (owned i hist', Ok (filter (fun p : ConditionalMutation * bool => route (cm_row p.1) = i) (zip cms rs)).*2).
Proof.
  revert hist rs. induction cms as [|m cms IH]; intros hist rs; cbn [conditional_spec]; [by intros [= <- <-]|].
  destruct (conditions_spec (m_row (cm_Mutation m)) (cm_Conditions m) hist) as [b|] eqn:Eb; [|done].
  destruct (conditional_spec cms _) as [h [rs'|]] eqn:Er; cbn [mbind result_bind]; [|done]. intros [= <- <-].
  destruct (IH _ _ Er) as [H1 H2]. split; [cbn; lia|]. intros i. cbn [zip_with]. rewrite !filter_cons. cbn [fst]. case_decide as Hi.
  - cbn [conditional_spec]. change (m_row (cm_Mutation m)) with (cm_row m) in Eb |- *.
    rewrite (conditions_spec_owned splits _ _ _ _ Hi), Eb. specialize (H2 i). destruct b.
    + rewrite owned_app, owned_Cells, decide_True in H2 by done. by rewrite H2.
    + by rewrite H2.
  - rewrite <-H2. f_equal. destruct b; [|done]. rewrite owned_app, owned_Cells, decide_False by done. by rewrite app_nil_r.
Qed.

(** Writing answers that agree with [rs] where it has them. *)
Lemma place_agrees (rs : list bool) ps init :
  Forall (fun p : nat * bool => rs !! p.1 = Some p.2) ps -> length init = length rs ->
  let out := foldl (fun rs p => <[p.1 := p.2]> rs) init ps in
  length out = length rs /\ forall k, k ∈ ps.*1 \/ init !! k = rs !! k -> out !! k = rs !! k.
Proof.
  intros Hps. revert init. induction Hps as [|[j b] ps Hb Hps IH]; intros init Hl; cbn [foldl fst snd] in *.
  - split; [done|]. intros k [?%elem_of_nil|]; done.
  - destruct (IH (<[j := b]> init)) as [H1 H2]; [by rewrite length_insert|]. split; [done|]. intros k Hk. apply H2.
    destruct (decide (k = j)) as [->|Hne].
    + right. rewrite list_lookup_insert_eq; [done|]. rewrite Hl. by eapply lookup_lt_Some.
    + rewrite list_lookup_insert_ne by done. rewrite fmap_cons in Hk. destruct Hk as [[->|]%elem_of_cons|]; [done|by left|by right].
Qed.

(** The positions of a tablet's mutations, with their answers. *)
Lemma bucket_answers i k cms (rs : list bool) :
  length rs = length cms ->
  let ps := zip (filter (fun p : nat * ConditionalMutation => route (cm_row p.2) = i) (imap (fun j => pair (k + j)%nat) cms)).*1
                (filter (fun p : ConditionalMutation * bool => route (cm_row p.1) = i) (zip cms rs)).*2 in
  Forall (fun p : nat * bool => (k <= p.1)%nat /\ rs !! (p.1 - k)%nat = Some p.2) ps /\
  forall j m, cms !! j = Some m -> route (cm_row m) = i -> (k + j)%nat ∈ ps.*1.
Proof.
  revert k rs. induction cms as [|m cms IH]; intros k [|b rs] Hl; try done; cbn zeta.
  rewrite (bucket_cons splits cm_row). cbn [zip_with]. rewrite (filter_cons _ (m, b)). cbn [fst]. cbn [length] in Hl.
  destruct (IH (S k) rs ltac:(lia)) as [H1 H2]. set (ps := zip _ _) in *.
  assert (Forall (fun p : nat * bool => (k <= p.1)%nat /\ (b :: rs) !! (p.1 - k)%nat = Some p.2) ps) as H1'.
  { eapply Forall_impl; [exact H1|]. intros [j b'] [Hj Hb]. cbn [fst snd] in *. split; [lia|]. by replace (j - k)%nat with (S (j - S k)) by lia. }
  case_decide as Hi; cbn [app fmap list_fmap zip_with fst snd].
  - split; [constructor; [cbn; split; [lia|by rewrite Nat.sub_diag]|exact H1']|]. intros [|j] m' Hj Hm'.
    + rewrite Nat.add_0_r. cbn [fmap list_fmap fst]. by left.
    + right. rewrite <-Nat.add_succ_comm. by apply (H2 j m').
  - split; [exact H1'|]. intros [|j] m' Hj Hm'; [injection Hj as ->; done|]. rewrite <-Nat.add_succ_comm. by apply (H2 j m').
Qed.

Lemma place_all_ok cms rs i os init :
  length rs = length cms -> length init = length rs ->
  (forall k o, os !! k = Some o -> o = Done (filter (fun p : ConditionalMutation * bool => route (cm_row p.1) = (i + k)%nat) (zip cms rs)).*2) ->
  let out := place_all (fun i => (bucket cm_row splits i cms).*1) i init os in
  length out = length rs /\
  forall k m, cms !! k = Some m -> (i <= route (cm_row m) < i + length os)%nat \/ init !! k = rs !! k -> out !! k = rs !! k.
Proof.
  intros Hl. revert i init. induction os as [|o os IH]; intros i init Hli Hos; cbn [place_all length].
  { split; [done|]. intros k m _ [?|?]; [lia|done]. }
  pose proof (Hos 0%nat o eq_refl) as ->. rewrite Nat.add_0_r in *.
  destruct (bucket_answers i 0 cms rs Hl) as [H1 H2]. unfold place, bucket.
  change (imap pair cms) with (imap (fun j => @pair nat ConditionalMutation (0 + j)%nat) cms).
  match type of H1 with Forall _ ?l => set (ps := l) in * end.
  assert (Forall (fun p : nat * bool => rs !! p.1 = Some p.2) ps) as H1' by (eapply Forall_impl; [exact H1|]; intros [j b] [_ Hb]; cbn [fst] in Hb; by rewrite Nat.sub_0_r in Hb).
  destruct (place_agrees rs ps init H1' Hli) as [H3 H4].
  destruct (IH (S i) (foldl (fun rs p => <[p.1 := p.2]> rs) init ps) H3) as [H5 H6].
  { intros k o Hk. rewrite Nat.add_succ_comm. by apply Hos. }
  split; [exact H5|]. intros k m Hk Hr. apply (H6 k m Hk). destruct (decide (route (cm_row m) = i)) as [Hi|Hi].
  - right. apply H4. left. apply (H2 k m Hk Hi).
  - destruct Hr as [Hr|Hr]; [left; lia|right; apply H4; by right].
Qed.
End conditional.

(** ** The merge of the tablets' scanners

    A scanner that has been seeked ignores the merge's own seek.  It is the
    current position of an iterator that a seek takes back to where it was
    parked, which keeps to the iterator's laws. *)

#[local] Existing Instance Table.scannerSKVI_SKVI.

Record parked := mkParked { pk_cur : Iterator; pk_at : Iterator }.

Definition unpark (p : parked) : Table.scannerSKVI := Table.mkScannerSKVI (pk_cur p).

#[export] Instance parked_SKVI : SKVI parked := {
  Seek _ _ _ p := (mkParked (pk_at p) (pk_at p), None);
  Next p := let '(s, e) := Next (unpark p) in (mkParked (Table.sk_sc s) (pk_at p), e);
  HasTop p := let '(s, b) := HasTop (unpark p) in (mkParked (Table.sk_sc s) (pk_at p), b);
  GetTopKey p := GetTopKey (unpark p);
  GetTopValue p := GetTopValue (unpark p);
  DeepCopy _ p := p;
  bound p := bound (unpark p);
}.

Lemma it_view_sorted i : it_live i -> sorted_cells (it_view i).
Proof. destruct i. apply view_sorted. Qed.

#[export, refine] Instance parked_Laws : SKVILaws parked := {
  ready p := it_live (pk_at p);
  live p := it_live (pk_cur p) /\ it_live (pk_at p);
  view p := it_view (pk_cur p);
  scan p _ _ _ := it_view (pk_at p);
}.
Proof.
  - by intros p [_ H].
  - intros p _ _ _ H. by apply it_view_sorted.
  - intros p [H _]. by apply it_view_sorted.
  - intros p r cfs incl H. by eexists.
  - intros [[T ops laws v] a] [H Ha]. cbn in *. destruct (hastop_ok v H) as (v' & -> & Hl & Hv & _). by eexists.
  - intros [[T ops laws v] a] c l [H Ha]. cbn in *. by apply top_ok.
  - intros [[T ops laws v] a] c l [H Ha]. cbn in *. intros Hv. destruct (next_ok v c l H Hv) as (v' & -> & Hl & Hv' & _). by eexists.
  - intros [[T ops laws v] a] [H Ha]. cbn in *. by apply bound_ok.
Defined.

Definition unpark_merge (m : MergingIterator parked) : MergingIterator Table.scannerSKVI := mkMerge (unpark <$> mi_sources m) (mi_h m) (mi_err m).

Lemma parked_HasTop c a : HasTop (mkParked c a) = let '(s, b) := HasTop (Table.mkScannerSKVI c) in (mkParked (Table.sk_sc s) a, b).
Proof. done. Qed.
Lemma parked_Next c a : Next (mkParked c a) = let '(s, e) := Next (Table.mkScannerSKVI c) in (mkParked (Table.sk_sc s) a, e).
Proof. done. Qed.

Lemma unpark_less ss : mergeHeap_Less (unpark <$> ss) = mergeHeap_Less ss.
Proof.
  apply functional_extensionality. intros i. apply functional_extensionality. intros j. unfold mergeHeap_Less.
  assert (forall k, ((unpark <$> ss) !! k ≫= @GetTopKey Table.scannerSKVI _) = (ss !! k ≫= @GetTopKey parked _)) as E; [|by rewrite !E].
  intros k. rewrite list_lookup_fmap. by destruct (ss !! k).
Qed.

Lemma unpark_seek_all r cfs incl i ss :
  Forall (fun p => pk_cur p = pk_at p) ss ->
  seek_all r cfs incl i (unpark <$> ss) = let '(ss', h, e) := seek_all r cfs incl i ss in (unpark <$> ss', h, e).
Proof.
  intros Hp. revert i. induction Hp as [|[c a] ss Hp _ IH]; intros i; [done|]. cbn in Hp. subst a. cbn [fmap list_fmap seek_all]. cbn [Seek Table.scannerSKVI_SKVI parked_SKVI pk_at].
  specialize (IH (S i)). change (unpark (mkParked c c)) with (Table.mkScannerSKVI c). rewrite parked_HasTop.
  destruct (HasTop (Table.mkScannerSKVI c)) as [s b]. rewrite IH. destruct (seek_all r cfs incl (S i) ss) as [[ss' h] e]. by destruct s.
Qed.

Lemma unpark_next m : Next (unpark_merge m) = let '(m', e) := Next m in (unpark_merge m', e).
Proof.
  destruct m as [ss h e]. cbn [Next MergingIterator_SKVI]. unfold MergingIterator_Next, unpark_merge. cbn [mi_sources mi_h mi_err].
  destruct e; [done|]. destruct h as [|i h]; [done|]. rewrite list_lookup_fmap. destruct (ss !! i) as [[c a]|]; [|done]. cbn [fmap option_fmap option_map].
  change (unpark (mkParked c a)) with (Table.mkScannerSKVI c). rewrite parked_Next. destruct (Next (Table.mkScannerSKVI c)) as [s [e|]].
  { cbn [mi_sources mi_h mi_err]. rewrite list_fmap_insert. by destruct s. }
  rewrite parked_HasTop. replace (Table.mkScannerSKVI (Table.sk_sc s)) with s by (by destruct s). destruct (HasTop s) as [s' b].
  assert (<[i := s']> (unpark <$> ss) = unpark <$> <[i := mkParked (Table.sk_sc s') a]> ss) as -> by (rewrite list_fmap_insert; by destruct s').
  rewrite unpark_less. by destruct b.
Qed.

Lemma unpark_drain fuel m : drain_iter fuel (unpark_merge m) = let '(l, m', e) := drain_iter fuel m in (l, unpark_merge m', e).
Proof.
  revert m. induction fuel as [|fuel IH]; intros m; [done|]. cbn [drain_iter].
  assert (HasTop (unpark_merge m) = (unpark_merge m, MergingIterator_HasTop m)) as -> by done.
  change (HasTop m) with (m, MergingIterator_HasTop m). destruct (MergingIterator_HasTop m); [|done].
  assert (GetTopKey (unpark_merge m) = GetTopKey m /\ GetTopValue (unpark_merge m) = GetTopValue m) as [-> ->].
  { cbn [GetTopKey GetTopValue MergingIterator_SKVI]. unfold MergingIterator_GetTopKey, MergingIterator_GetTopValue, unpark_merge. cbn [mi_h mi_sources].
    destruct (mi_h m) as [|i h]; [done|]. rewrite list_lookup_fmap. by destruct (mi_sources m !! i). }
  destruct (GetTopKey m) as [k|]; [|done]. destruct (GetTopValue m) as [v|]; [|done]. rewrite unpark_next.
  destruct (Next m) as [m' [e|]]; [done|]. rewrite IH. by destruct (drain_iter fuel m') as [[l m''] e].
Qed.

(** The merge of positioned scanners delivers the merge of what they have. *)
Lemma merge_scanners its :
  Forall it_live its ->
  exists m, MergingIterator_Seek InfiniteRange [] false (NewMergingIterator (Table.mkScannerSKVI <$> its)) = (m, None) /\
    Table.Scanner_cells (Table.mkScanner (MergingIterator Table.scannerSKVI) _ m) = Ok (merge_all (it_view <$> its)).
Proof.
  intros Hl. set (ps := (fun i => mkParked i i) <$> its).
  assert (Table.mkScannerSKVI <$> its = unpark <$> ps) as -> by (unfold ps; by rewrite <-list_fmap_compose).
  assert (Forall (fun p => pk_cur p = pk_at p) ps) as Hp by (unfold ps; apply Forall_fmap, Forall_true; done).
  assert (Forall ready ps) as Hr by (unfold ps; apply Forall_fmap; eapply Forall_impl; [exact Hl|done]).
  destruct (seek_ok (SKVILaws := Merging_Laws) (NewMergingIterator ps) InfiniteRange [] false Hr) as (m & Hm & Hlm & Hv & _).
  change (Seek InfiniteRange [] false (NewMergingIterator ps)) with (MergingIterator_Seek InfiniteRange [] false (NewMergingIterator ps)) in Hm.
  exists (unpark_merge m). split.
  - revert Hm. unfold MergingIterator_Seek. cbn [mi_sources NewMergingIterator]. rewrite unpark_seek_all by done.
    destruct (seek_all InfiniteRange [] false 0 ps) as [[ss h] [e|]]; [done|]. intros [= <-]. by rewrite unpark_less.
  - unfold Table.Scanner_cells. rewrite unpark_drain.
    assert (bound (unpark_merge m) = bound m) as -> by (cbn; by rewrite <-list_fmap_compose).
    destruct (drain_iter_spec (S (bound m)) m Hlm) as (m' & -> & _); [pose proof (bound_ok m Hlm); lia|].
    rewrite Hv. cbn [scan Merging_Laws]. unfold mi_scan. cbn [mi_sources NewMergingIterator]. unfold ps. by rewrite <-!list_fmap_compose.
Qed.

(** A tablet's scanner read as the only leaf. *)
Lemma drain_scanner fuel (T : Type) (ops : SKVI T) (laws : SKVILaws T) (v : T) :
  drain_iter fuel (Table.mkScannerSKVI (mkIter T ops laws v)) =
    let '(l, v', e) := drain_iter fuel v in (l, Table.mkScannerSKVI (mkIter T ops laws v'), e).
Proof.
  revert v. induction fuel as [|fuel IH]; intros v; [done|]. cbn [drain_iter].
  assert (HasTop (Table.mkScannerSKVI (mkIter T ops laws v)) = let '(v', b) := HasTop v in (Table.mkScannerSKVI (mkIter T ops laws v'), b)) as -> by done.
  destruct (HasTop v) as [v1 [|]]; [|done].
  change (GetTopKey (Table.mkScannerSKVI (mkIter T ops laws v1))) with (GetTopKey v1).
  change (GetTopValue (Table.mkScannerSKVI (mkIter T ops laws v1))) with (GetTopValue v1).
  destruct (GetTopKey v1) as [k|]; [|done]. destruct (GetTopValue v1) as [b|]; [|done].
  assert (Next (Table.mkScannerSKVI (mkIter T ops laws v1)) = let '(v', e) := Next v1 in (Table.mkScannerSKVI (mkIter T ops laws v'), e)) as -> by done.
  destruct (Next v1) as [v2 [e|]]; [done|]. rewrite IH. by destruct (drain_iter fuel v2) as [[l v3] e].
Qed.

Lemma single_scanner sc :
  it_live sc -> Table.Scanner_cells (Table.mkScanner Table.scannerSKVI _ (Table.mkScannerSKVI sc)) = Ok (it_view sc).
Proof.
  destruct sc as [T ops laws v]. intros Hl. unfold Table.Scanner_cells. rewrite drain_scanner. cbn [bound Table.scannerSKVI_SKVI Table.sk_sc it_live it_view] in *.
  destruct (drain_iter_spec (S (bound v)) v Hl) as (i' & -> & _); [pose proof (bound_ok v Hl); lia|done].
Qed.

(** Where only one of the lists is not empty. *)
Lemma merge_all_only (order : list nat) (ls : list (list Cell)) k r :
  Forall2 (fun i l => l = if decide (i = k) then r else []) order ls -> NoDup order -> k ∈ order -> merge_all ls = r.
Proof.
  assert (forall order ls, Forall2 (fun i l => l = if decide (i = k) then r else []) order ls -> k ∉ order -> merge_all ls = []) as Hnone.
  { intros order' ls'. induction 1 as [|i l order' ls' -> _ IH]; [done|]. intros [Hi Hk]%not_elem_of_cons. rewrite merge_all_cons, decide_False by done.
    rewrite list_merge_nil_l. by apply IH. }
  induction 1 as [|i l order ls -> Hls IH]; intros Hnd Hk; [by apply elem_of_nil in Hk|]. apply NoDup_cons in Hnd as [Hi Hnd]. rewrite merge_all_cons.
  destruct (decide (i = k)) as [->|Hne].
  - rewrite (Hnone order ls Hls Hi). by rewrite list_merge_nil_r.
  - rewrite list_merge_nil_l. apply IH; [done|]. apply elem_of_cons in Hk as [->|Hk]; done.
Qed.

(** ** The directory *)

Lemma names_adjacent : forallb (fun i => Table.string_before (tablet_dir_name i) (tablet_dir_name (S i))) (seq 0 (Z.to_nat 9999)) = true.
Proof. vm_compute. reflexivity. Qed.

(** Of up to ten thousand tablets the names are in order. *)
Lemma names_ordered i j : (i < j)%nat -> Z.of_nat j < 10000 -> bytes_Compare (tablet_dir_name i) (tablet_dir_name j) = Lt.
Proof.
  intros Hij Hj. assert (forall k, Z.of_nat k < 9999 -> bytes_Compare (tablet_dir_name k) (tablet_dir_name (S k)) = Lt) as Hadj.
  { intros k Hk. pose proof (proj1 (forallb_forall _ _) names_adjacent k) as H. cbn beta in H. unfold Table.string_before in H.
    assert (In k (seq 0 (Z.to_nat 9999))) as Hin by (apply in_seq; lia). specialize (H Hin). by destruct (bytes_Compare _ _). }
  induction Hij as [|j Hij IH]; [by apply Hadj; lia|]. apply (cmp_trans bytes_Compare _ (tablet_dir_name j)); [apply IH; lia|apply Hadj; lia].
Qed.

Lemma names_inj i j : Z.of_nat i < 10000 -> Z.of_nat j < 10000 -> tablet_dir_name i = tablet_dir_name j -> i = j.
Proof.
  intros Hi Hj E. destruct (lt_eq_lt_dec i j) as [[H|H]|H]; [|done|]; exfalso.
  - pose proof (names_ordered i j H Hj) as Hlt. rewrite E, (cmp_refl bytes_Compare) in Hlt. done.
  - pose proof (names_ordered j i H Hi) as Hlt. rewrite E, (cmp_refl bytes_Compare) in Hlt. done.
Qed.

(** Tablet [i]'s directory under its name, from the [k]-th on. *)
Definition named (k : nat) (dfs : list (disk * bytes)) : list (bytes * (disk * bytes)) := imap (fun i df => (tablet_dir_name (k + i), df)) dfs.

Lemma named_cons k df dfs : named k (df :: dfs) = (tablet_dir_name k, df) :: named (S k) dfs.
Proof. unfold named. cbn [imap]. rewrite Nat.add_0_r. f_equal. apply imap_ext. intros i x _. cbn. by rewrite Nat.add_succ_r. Qed.

Lemma named_snoc k df dfs : named k (dfs ++ [df]) = named k dfs ++ [(tablet_dir_name (k + length dfs), df)].
Proof. unfold named. rewrite imap_app. cbn [imap]. by rewrite Nat.add_0_r. Qed.

Lemma named_elem k dfs e : e ∈ named k dfs -> exists i df, dfs !! i = Some df /\ e = (tablet_dir_name (k + i), df).
Proof. intros [i Hi]%list_elem_of_lookup. unfold named in Hi. rewrite list_lookup_imap in Hi. destruct (dfs !! i) as [df|] eqn:E; [|done]. injection Hi as <-. by exists i, df. Qed.

Lemma named_values k dfs : (named k dfs).*2 = dfs.
Proof. revert k. induction dfs as [|df dfs IH]; intros k; [done|]. by rewrite named_cons, fmap_cons, IH. Qed.

Definition name_le (a b : bytes * (disk * bytes)) : Prop := Table.string_before b.1 a.1 = false.

Lemma named_sorted k dfs : Z.of_nat (k + length dfs) <= 10000 -> StronglySorted name_le (named k dfs).
Proof.
  revert k. induction dfs as [|df dfs IH]; intros k Hk; [constructor|]. cbn [length] in Hk. rewrite named_cons. constructor; [apply IH; lia|].
  apply Forall_forall. intros e (i & df' & Hi & ->)%named_elem. apply lookup_lt_Some in Hi. unfold name_le, Table.string_before. cbn [fst].
  rewrite (cmp_antisym bytes_Compare (tablet_dir_name k)), (names_ordered k (S k + i)) by lia. done.
Qed.

(** However they are listed, the tablets are found in their order. *)
Lemma tabletDirs_named dir dfs :
  filter (fun e => is_tablet_dir e.1 = true) (td_tablets dir) ≡ₚ named 0 dfs -> dfs <> [] -> len dfs <= 10000 -> tabletDirs dir = dfs.
Proof.
  intros Hp Hne Hl. unfold len in Hl. unfold tabletDirs, Table.sorted_tablets. set (l := SliceStable (fun a b => Table.string_before a.1 b.1) _).
  assert (l = named 0 dfs) as ->.
  { apply (StronglySorted_unique_strong name_le).
    - intros a b Ha Hb H1 H2. unfold l in Ha. rewrite SliceStable_perm, Hp in Ha. apply named_elem in Ha as (i & da & Hi & ->). apply named_elem in Hb as (j & db & Hj & ->).
      unfold name_le, Table.string_before in H1, H2. cbn [fst] in H1, H2. rewrite (cmp_antisym bytes_Compare (tablet_dir_name (0 + i))) in H1.
      assert (bytes_Compare (tablet_dir_name (0 + i)) (tablet_dir_name (0 + j)) = Eq) as E%(cmp_eq bytes_Compare) by (by destruct (bytes_Compare _ _)).
      apply names_inj in E; [|apply lookup_lt_Some in Hi; lia|apply lookup_lt_Some in Hj; lia]. assert (i = j) as -> by lia. congruence.
    - unfold l. unfold name_le. apply (SliceStable_sorted (fun a b => Table.string_before a.1 b.1)).
      + intros a. unfold Table.string_before. by rewrite (cmp_refl bytes_Compare).
      + intros a b c. unfold Table.string_before. destruct (bytes_Compare a.1 b.1) eqn:E1; try done. destruct (bytes_Compare b.1 c.1) eqn:E2; try done.
        by rewrite (cmp_trans bytes_Compare _ _ _ E1 E2).
      + intros a b c H1 H2. unfold Table.string_before in *. destruct (bytes_Compare a.1 c.1) eqn:E; try done. exfalso.
        destruct (bytes_Compare a.1 b.1) eqn:E1; [apply (cmp_eq bytes_Compare) in E1; rewrite E1 in E; by rewrite E in H2|done|].
        rewrite (cmp_antisym bytes_Compare b.1 a.1) in E1. destruct (bytes_Compare b.1 a.1) eqn:E3; try done. by rewrite (cmp_trans bytes_Compare _ _ _ E3 E) in H2.
    - by apply named_sorted.
    - unfold l. by rewrite SliceStable_perm. }
  destruct dfs as [|df dfs]; [done|]. rewrite <-(named_values 0 (df :: dfs)) at 2. by rewrite named_cons.
Qed.

Lemma is_tablet_dir_name i : is_tablet_dir (tablet_dir_name i) = true.
Proof. unfold is_tablet_dir, tablet_dir_name. apply bool_decide_eq_true. rewrite take_app_ge by (vm_compute; lia). by vm_compute. Qed.

Lemma named_tablet_dirs k dfs : filter (fun e => is_tablet_dir e.1 = true) (named k dfs) = named k dfs.
Proof.
  revert k. induction dfs as [|df dfs IH]; intros k; [done|]. rewrite named_cons, filter_cons_True by apply is_tablet_dir_name. by rewrite IH.
Qed.

Lemma find_named k dfs i : (k + length dfs <= i)%nat -> Z.of_nat i < 10000 -> List.find (fun e => bool_decide (e.1 = tablet_dir_name i)) (named k dfs) = None.
Proof.
  revert k. induction dfs as [|df dfs IH]; intros k Hk Hi; [done|]. rewrite named_cons. cbn [length] in Hk. cbn [List.find fst].
  rewrite bool_decide_eq_false_2 by (intros E; apply names_inj in E; lia). apply IH; lia.
Qed.

(** A new tablet's directory and log. *)
Definition new_dir (fs : nat -> list fault) (i : nat) : disk * bytes := (mkDisk ∅ (fs i), []).

Section create.
Context (Unmarshal : bytes -> result immutableManifest).

Lemma create_tablets_ok fs opts mode x stop count dfs dir dir' ts r :
  td_tablets dir = named 0 dfs -> Z.of_nat (length dfs + count) <= 10000 ->
  Table.create_tablets Unmarshal fs opts mode x stop count (length dfs) dir = (dir', ts, r) ->
  td_json dir' = td_json dir /\ td_own dir' = td_own dir /\
  match r with
  | Done _ =>
      td_tablets dir' = named 0 (dfs ++ (new_dir fs <$> seq (length dfs) count)) /\ length ts = count /\
      forall k, (k < count)%nat -> exists t, Tablet.Open Unmarshal (x (length dfs + k)%nat) mode opts (new_dir fs (length dfs + k)).1 [] = Ok t /\
        ts !! k = Some (t, (new_dir fs (length dfs + k)).1)
  | Failed _ _ => exists k e, Tablet.Open Unmarshal (x k) mode opts (new_dir fs k).1 [] = Err e
  | Crashed => exists j, stop = Some (length dfs + j)%nat /\ (j <= count)%nat /\ td_tablets dir' = named 0 (dfs ++ (new_dir fs <$> seq (length dfs) j))
  end.
Proof.
  revert dfs dir dir' ts r. induction count as [|count IH]; intros dfs dir dir' ts r Htd Hlen; cbn [Table.create_tablets].
  { intros [= <- <- <-]. split; [done|]. split; [done|]. case_bool_decide as Es.
    - exists 0%nat. rewrite Nat.add_0_r. cbn [seq fmap list_fmap]. rewrite app_nil_r. split; [done|]. by split.
    - cbn [seq fmap list_fmap]. rewrite app_nil_r. split; [done|]. split; [done|]. lia. }
  case_bool_decide as Es.
  { intros [= <- <- <-]. split; [done|]. split; [done|]. exists 0%nat. rewrite Nat.add_0_r. cbn [seq fmap list_fmap]. rewrite app_nil_r. split; [done|]. split; [lia|done]. }
  unfold Table.ensure_dir. rewrite Htd, find_named by lia.
  destruct (Tablet.Open Unmarshal (x (length dfs)) mode opts (mkDisk ∅ (fs (length dfs))) []) as [t|e] eqn:Ht.
  2: { intros [= <- <- <-]. split; [done|]. split; [done|]. by exists (length dfs), e. }
  destruct (Table.create_tablets _ _ _ _ _ _ _ _ _) as [[dir1 ts1] r1] eqn:Ec.
  assert (length (dfs ++ [new_dir fs (length dfs)]) = S (length dfs)) as El by (rewrite length_app; cbn; lia).
  destruct (IH (dfs ++ [new_dir fs (length dfs)]) (mkTableDir (td_json dir) (named 0 dfs ++ [(tablet_dir_name (length dfs), new_dir fs (length dfs))]) (td_own dir)) dir1 ts1 r1)
    as (H1 & H2 & H3); [by rewrite named_snoc|rewrite El; lia|by rewrite El|]. cbn [Table.td_json Table.td_own] in H1, H2. rewrite El in H3.
  intros [= <- <- <-]. split; [done|]. split; [done|]. destruct r1.
  - destruct H3 as (H3 & H4 & H5). split; [by rewrite H3, <-(assoc_L (++))|]. split; [cbn; lia|]. intros [|k] Hk.
    + rewrite Nat.add_0_r. exists t. by split.
    + destruct (H5 k ltac:(lia)) as (t' & E & E'). exists t'. rewrite <-Nat.add_succ_comm. by split.
  - done.
  - destruct H3 as (j & Ej & Hj & E). exists (S j). split; [by rewrite <-Nat.add_succ_comm|]. split; [lia|]. by rewrite E, <-(assoc_L (++)).
Qed.
End create.

Section table.
Context (F : Formats) (registryByName : gmap string iteratorRegistration).
Context (Marshal : immutableManifest -> result bytes) (Unmarshal : bytes -> result immutableManifest).
Context (MarshalTable : Table.tableManifest -> result bytes) (UnmarshalTable : bytes -> result Table.tableManifest).
Context (HF : formats_ok F) (Hreg : registry_ok registryByName) (Hjson : json_manifest_ok Marshal Unmarshal).
Abbreviation up := (TabletOk.up F Marshal).
Abbreviation step := (TabletLife.step F Marshal Unmarshal).

Definition query_options (auths : list bytes) (s : string) : Table.ScanOptions := Table.mkScanOptions (query_specs s) (Some auths) [] false.

Lemma scan_history auths s ceiling hist tb arrival :
  (forall k t d, tb_tablets tb !! k = Some (t, d) -> up t d (owned (tb_splits tb) k hist)) ->
  (length (tb_splits tb) < length (tb_tablets tb))%nat -> arrival ≡ₚ seq 0 (length (tb_tablets tb)) ->
  ParseInt s = Some ceiling -> 0 < ceiling ->
  exists sc out, Table.scan F registryByName arrival InfiniteRange (query_options auths s) tb = Ok sc /\
    Table.Scanner_cells sc = Ok out /\ sorted_cells out /\ forall x, at_coord x out = read_spec (NewAuthorizations auths) ceiling x hist.
Proof.
  intros Hup Hlen Harr Hs Hc. unfold Table.scan.
  assert (Table.exactVectorEmbeddingSpace (Table.so_Stack (query_options auths s)) = Ok None) as ->.
  { unfold query_options. cbn [Table.so_Stack]. rewrite query_specs_eq. reflexivity. }
  cbn [mbind result_bind]. rewrite bool_decide_eq_false_2 by (by intros []).
  set (scan_of := fun td : Tablet * disk => let '(t, d) := td in Scan F registryByName InfiniteRange [] false (query_specs s) (mkEnv ScopeScan false (Some auths)) t d).
  assert (forall k td, tb_tablets tb !! k = Some td -> exists sc, scan_of td = Ok sc /\ it_live sc /\ sorted_cells (it_view sc) /\
    forall x, at_coord x (it_view sc) = if decide (k = routeTablet (tb_splits tb) x.1) then read_spec (NewAuthorizations auths) ceiling x hist else []) as Hscan.
  { intros k [t d] Hk. destruct (Scan_history F registryByName Marshal Hreg t d _ auths s ceiling (Hup k t d Hk) Hs Hc) as (sc & HS & Hlive & Hso & Hx).
    exists sc. split; [exact HS|]. split; [done|]. split; [done|]. intros x. rewrite Hx. case_decide as Hr.
    - by apply read_spec_owned.
    - by apply read_spec_elsewhere. }
  assert (tb_tablets tb = [] \/ (exists td, tb_tablets tb = [td]) \/ (2 <= length (tb_tablets tb))%nat) as [E|[[td E]|Hmany]].
  { destruct (tb_tablets tb) as [|td [|td' ts]]; [by left|right; left; by exists td|right; right; cbn; lia]. }
  { rewrite E in Hlen. cbn in Hlen. lia. }
  { destruct (Hscan 0%nat td) as (sc & HS & Hlive & Hso & Hx); [by rewrite E|]. rewrite E. destruct td as [t d]. unfold scan_of in HS. cbn iota beta.
    change (Table.scan_env (query_options auths s)) with (mkEnv ScopeScan false (Some auths)). cbn [query_options Table.so_Stack Table.so_ColumnFamilies Table.so_ColumnFamiliesInclusive].
    rewrite HS. eexists _, (it_view sc). split; [done|]. split; [by apply single_scanner|]. split; [done|]. intros x. rewrite Hx.
    rewrite decide_True; [done|]. rewrite E in Hlen. cbn in Hlen. pose proof (routeTablet_le (tb_splits tb) x.1). lia. }
  assert (exists its, Table.collect ((fun i => match tb_tablets tb !! i with Some td => scan_of td | None => Err Panic end) <$> arrival) = Ok its /\
    Forall2 (fun i it => exists td, tb_tablets tb !! i = Some td /\ it_live it /\ sorted_cells (it_view it) /\
      forall x, at_coord x (it_view it) = if decide (i = routeTablet (tb_splits tb) x.1) then read_spec (NewAuthorizations auths) ceiling x hist else []) arrival its) as (its & Hits & Hall).
  { assert (Forall (fun i => (i < length (tb_tablets tb))%nat) arrival) as Hin by (rewrite Harr; apply Forall_forall; intros i Hi%elem_of_seq; lia).
    clear -Hin Hscan. induction Hin as [|i arrival Hi _ (its & IH & Hall)]; [exists []; by split|]. rewrite fmap_cons. cbn [Table.collect].
    destruct (lookup_lt_is_Some_2 _ _ Hi) as [td Htd]. rewrite Htd. destruct (Hscan i td Htd) as (sc & -> & Hsc). cbn [mbind result_bind].
    rewrite IH. cbn [mbind result_bind]. exists (sc :: its). split; [done|]. constructor; [by exists td|done]. }
  assert (length its = length (tb_tablets tb)) as Hl by (rewrite <-(Forall2_length _ _ _ Hall), Harr, length_seq; done).
  assert (Forall it_live its) as Hlive by (clear -Hall; induction Hall as [|i it a l (td & _ & H & _)]; by constructor).
  destruct (merge_scanners its Hlive) as (m & Hm & Hcells).
  exists (Table.mkScanner (MergingIterator Table.scannerSKVI) _ m), (merge_all (it_view <$> its)). split.
  { destruct (tb_tablets tb) as [|td1 [|td2 ts]] eqn:Ets; [cbn in Hmany; lia..|]. rewrite <-Ets in *.
    change (Table.scan_env (query_options auths s)) with (mkEnv ScopeScan false (Some auths)). cbn [query_options Table.so_Stack Table.so_ColumnFamilies Table.so_ColumnFamiliesInclusive].
    unfold scan_of in Hits. rewrite Hits. cbn [mbind result_bind]. destruct its as [|i1 [|i2 its]]; [cbn in Hl; lia..|]. cbn [fmap list_fmap] in *. by rewrite Hm. }
  split; [exact Hcells|]. assert (Forall sorted_cells (it_view <$> its)) as Hsort.
  { clear -Hall. rewrite Forall_fmap. induction Hall as [|i it a l (td & _ & _ & H & _)]; by constructor. }
  split; [by apply merge_all_sorted|]. intros x. rewrite at_coord_merge_all by done.
  apply (merge_all_only arrival _ (routeTablet (tb_splits tb) x.1)); [|rewrite Harr; apply NoDup_seq|].
  - rewrite <-list_fmap_compose. clear -Hall. induction Hall as [|i it a l (td & _ & _ & _ & H)]; constructor; [by rewrite <-H|done].
  - rewrite Harr. apply elem_of_seq. pose proof (routeTablet_le (tb_splits tb) x.1). lia.
Qed.

(** ** The life of a table *)

(** Open, or its tablets' directories and logs. *)
Inductive tworld := TUp (tb : table) | TDown (dirs : list (disk * bytes)).

Definition at_tablet (w : tworld) (i : nat) : option world :=
  match w with
  | TUp tb => (fun td => Up td.1 td.2) <$> tb_tablets tb !! i
  | TDown dirs => (fun df => Down df.1 df.2) <$> dirs !! i
  end.

(** A log without a torn tail. *)
Definition clean (t : Tablet) : Prop := exists ms, log_clean (LocalWAL.w_file (t_wal t)) ms.

Abbreviation flushable := (TabletOk.flushable F).
Abbreviation batch tb i ms := ((bucket m_row (tb_splits tb) i ms).*2).
Abbreviation conditional_batch tb i cms := ((bucket cm_row (tb_splits tb) i cms).*2).

(** The calls a table returns from, and the process stopping at any moment:
    every tablet is stopped somewhere, one of its own calls under way or not,
    and what its log holds is the history's part of its rows. *)
Inductive table_step (splits : list bytes) : tworld * list Cell -> tworld * list Cell -> Prop :=
| tstep_create opts fate stop fs x sync y own hist dir tb :
    (forall i, outside_ok (x i)) -> len (Table.to_Splits opts) < 10000 ->
    Table.createTable F Marshal Unmarshal MarshalTable opts LocalWAL.SyncFull fate stop fs x sync y (mkTableDir None [] own) = (dir, Done tb) -> tb_splits tb = splits ->
    table_step splits (TDown (new_dir fs <$> seq 0 (S (length splits))), hist) (TUp tb, hist)
| tstep_open dir hist retention x sync y dir' tb :
    (forall i, outside_ok (x i)) -> Table.openTable F Marshal Unmarshal UnmarshalTable LocalWAL.SyncFull retention x sync y dir = (dir', Done tb) -> tb_splits tb = splits ->
    table_step splits (TDown (tabletDirs dir), hist) (TUp tb, hist)
| tstep_write tb hist ms x tb' o :
    (forall i, outside_ok (x i)) -> Forall LocalWAL.wal_mutation_ok ms ->
    (forall i t d, tb_tablets tb !! i = Some (t, d) -> clean t /\ flushable (ingest (batch tb i ms) t)) ->
    Table.write F Marshal ms (fun _ => LocalWAL.WriteAll) (fun _ => true) x tb = (tb', o) -> o <> Crashed ->
    table_step splits (TUp tb, hist) (TUp tb', hist ++ log_cells ms)
| tstep_conditional tb hist cms x tb' o hist' rs :
    (forall i, outside_ok (x i)) -> Forall LocalWAL.wal_mutation_ok (cm_Mutation <$> cms) ->
    (forall i t d, tb_tablets tb !! i = Some (t, d) ->
      clean t /\ forall t1 r, conditional_loop F (conditional_batch tb i cms) [] [] t d = (t1, r) -> flushable t1) ->
    Table.conditionalWrite F Marshal cms (fun _ => []) x tb = (tb', o) -> o <> Crashed -> conditional_spec cms hist = (hist', Ok rs) ->
    table_step splits (TUp tb, hist) (TUp tb', hist')
| tstep_flush tb hist x tb' o :
    (forall i, outside_ok (x i)) -> (forall i t d, tb_tablets tb !! i = Some (t, d) -> flushable t) ->
    Table.flush F Marshal x tb = (tb', o) -> o <> Crashed ->
    table_step splits (TUp tb, hist) (TUp tb', hist)
| tstep_format tb hist format fate dir tb' dir' o :
    Table.setFileFormatLocked MarshalTable format fate tb dir = (tb', dir', o) -> o <> Crashed ->
    table_step splits (TUp tb, hist) (TUp tb', hist)
| tstep_close tb hist x tb' o :
    (forall i, outside_ok (x i)) -> (forall i t d, tb_tablets tb !! i = Some (t, d) -> flushable t) ->
    Table.close F Marshal (fun _ => true) x tb = (tb', o) -> o <> Crashed ->
    table_step splits (TUp tb, hist) (TDown (left_behind (tb_tablets tb')), hist)
| tstep_stop tb hist dirs hist' :
    length dirs = length (tb_tablets tb) ->
    (forall i t d, tb_tablets tb !! i = Some (t, d) ->
      exists d' file, dirs !! i = Some (d', file) /\ rtc step (Up t d, owned splits i hist) (Down d' file, owned splits i hist')) ->
    table_step splits (TUp tb, hist) (TDown dirs, hist').

Definition table_reachable (splits : list bytes) (fss : list (list fault)) : tworld * list Cell -> Prop :=
  rtc (table_step splits) (TDown ((fun fs => (mkDisk ∅ fs, [])) <$> fss), []).

(** [n] tablets, divided by [splits]. *)
Definition shape (splits : list bytes) (n : nat) (w : tworld) : Prop :=
  match w with TUp tb => tb_splits tb = splits /\ length (tb_tablets tb) = n | TDown dirs => length dirs = n end.

(** A step of the table is, at every tablet, steps of that tablet. *)
Definition tablet_steps (splits : list bytes) (s s' : tworld * list Cell) : Prop :=
  forall i w, at_tablet s.1 i = Some w -> exists w', at_tablet s'.1 i = Some w' /\ rtc step (w, owned splits i s.2) (w', owned splits i s'.2).

Lemma each_steps {A} (f : nat -> Tablet -> disk -> Tablet * disk * outcome A) splits tb ts' os hist hist' :
  each f 0 (tb_tablets tb) = (ts', os) -> all_errors os <> Crashed ->
  (forall i t d t' d' o, tb_tablets tb !! i = Some (t, d) -> f i t d = (t', d', o) -> o <> Crashed ->
    rtc step (Up t d, owned splits i hist) (Up t' d', owned splits i hist')) ->
  tablet_steps splits (TUp tb, hist) (TUp (set_tablets ts' tb), hist') /\ length ts' = length (tb_tablets tb).
Proof.
  intros He Hc Hf. destruct (each_lookup _ _ _ _ _ He) as (H1 & H2 & H3). split; [|done]. intros i w. cbn [fst at_tablet set_tablets tb_tablets].
  destruct (tb_tablets tb !! i) as [[t d]|] eqn:Ei; [|done]. intros [= <-]. destruct (H3 i t d Ei) as (t' & d' & o & Ef & Et & Eo).
  exists (Up t' d'). rewrite Et. split; [done|]. apply (Hf i t d t' d' o Ei Ef). by apply (all_errors_crash os Hc i).
Qed.

Lemma undivided tb i ms : tb_splits tb = [] -> batch tb i ms = if decide (i = 0%nat) then ms else [].
Proof.
  intros E. rewrite bucket_rows, E. change (fun m => routeTablet [] (m_row m) = i) with (fun m : Mutation => 0%nat = i). case_decide as Hi.
  - subst. induction ms as [|m ms IH]; [done|]. by rewrite filter_cons_True, IH.
  - induction ms as [|m ms IH]; [done|]. rewrite filter_cons_False by (intros <-; done). done.
Qed.

Lemma write_steps t d h ms x t' d' o :
  outside_ok x -> Forall LocalWAL.wal_mutation_ok ms -> clean t -> flushable (ingest ms t) ->
  writeLocked F Marshal ms LocalWAL.WriteAll true x t d = (t', d', o) -> o <> Crashed ->
  rtc step (Up t d, h) (Up t' d', h ++ log_cells ms).
Proof.
  intros Hx Hok Hcl Hf HW Ho. apply rtc_once. replace (Up t' d') with (after o t' d') by (by destruct o).
  by apply (step_write F Marshal Unmarshal t d h x ms t' d' o).
Qed.

Lemma write_sim splits tb hist ms x tb' o :
  (length splits < length (tb_tablets tb))%nat -> tb_splits tb = splits ->
  (forall i, outside_ok (x i)) -> Forall LocalWAL.wal_mutation_ok ms ->
  (forall i t d, tb_tablets tb !! i = Some (t, d) -> clean t /\ flushable (ingest (batch tb i ms) t)) ->
  Table.write F Marshal ms (fun _ => LocalWAL.WriteAll) (fun _ => true) x tb = (tb', o) -> o <> Crashed ->
  tablet_steps splits (TUp tb, hist) (TUp tb', hist ++ log_cells ms) /\ shape splits (length (tb_tablets tb)) (TUp tb').
Proof.
  intros Hn Hsp Hx Hok Hready HW Ho. unfold Table.write in HW.
  assert (forall f ts' os, (forall i t d, f i t d = match batch tb i ms with [] => (t, d, Done tt) | b => writeLocked F Marshal b LocalWAL.WriteAll true (x i) t d end) ->
    each f 0 (tb_tablets tb) = (ts', os) -> tb' = set_tablets ts' tb -> o = all_errors os ->
    tablet_steps splits (TUp tb, hist) (TUp tb', hist ++ log_cells ms) /\ shape splits (length (tb_tablets tb)) (TUp tb')) as Hmany.
  { intros f ts' os Hf He -> ->. destruct (each_steps f splits tb ts' os hist (hist ++ log_cells ms) He Ho) as [H1 H2]; [|split; [exact H1|by split]].
    intros i t d t' d' o Hi. rewrite Hf, owned_app, owned_log, <-Hsp. destruct (Hready i t d Hi) as [Hcl Hfl].
    assert (Forall LocalWAL.wal_mutation_ok (batch tb i ms)) as Hb by (rewrite bucket_rows; by apply Forall_of_filter).
    destruct (batch tb i ms) as [|m ms'] eqn:Eb; [intros [= <- <- <-] _; change (log_cells []) with (@nil Cell); rewrite app_nil_r; apply rtc_refl|].
    intros HWi Hoi. by apply (write_steps t d _ (m :: ms') (x i) t' d' o). }
  destruct (tb_tablets tb) as [|[t d] [|td2 ts]] eqn:Ets.
  - cbn in Hn. lia.
  - assert (tb_splits tb = []) as Es by (rewrite Hsp; destruct splits; [done|cbn in Hn; lia]).
    destruct (writeLocked F Marshal ms LocalWAL.WriteAll true (x 0%nat) t d) as [[t' d'] o'] eqn:EW. injection HW as <- <-.
    split; [|split; [exact Hsp|done]]. intros i w. cbn [fst snd at_tablet set_tablets tb_tablets]. rewrite Ets. destruct i as [|i]; [|done]. intros [= <-].
    exists (Up t' d'). split; [done|]. rewrite owned_app, owned_log, <-Hsp, undivided, decide_True by done.
    destruct (Hready 0%nat t d eq_refl) as [Hcl Hfl]. rewrite undivided, decide_True in Hfl by done. by apply (write_steps t d _ ms (x 0%nat) t' d' o').
  - rewrite <-Ets in *. destruct (each _ 0 (tb_tablets tb)) as [ts' os] eqn:He in HW. injection HW as <- <-. by apply (Hmany _ ts' os (fun _ _ _ => eq_refl) He).
Qed.

Lemma conditional_sim splits tb hist cms x tb' o hist' rs :
  tb_splits tb = splits -> (forall i, outside_ok (x i)) -> Forall LocalWAL.wal_mutation_ok (cm_Mutation <$> cms) ->
  (forall i t d, tb_tablets tb !! i = Some (t, d) ->
    clean t /\ forall t1 r, conditional_loop F (conditional_batch tb i cms) [] [] t d = (t1, r) -> flushable t1) ->
  Table.conditionalWrite F Marshal cms (fun _ => []) x tb = (tb', o) -> o <> Crashed -> conditional_spec cms hist = (hist', Ok rs) ->
  tablet_steps splits (TUp tb, hist) (TUp tb', hist') /\ shape splits (length (tb_tablets tb)) (TUp tb').
Proof.
  intros Hsp Hx Hok Hready HC Ho Hspec. unfold Table.conditionalWrite in HC. destruct (each _ 0 (tb_tablets tb)) as [ts' os] eqn:He. injection HC as <- <-.
  assert (all_errors os <> Crashed) as Hc by (intros E; by rewrite E in Ho).
  destruct (each_steps _ splits tb ts' os hist hist' He Hc) as [H1 H2]; [|split; [exact H1|by split]].
  intros i t d t' d' o Hi Hcall Hoi. destruct (Hready i t d Hi) as [Hcl Hfl].
  destruct (conditional_spec_buckets splits cms hist hist' rs Hspec) as [_ Hb]. specialize (Hb i). rewrite <-bucket_rows, <-Hsp in Hb.
  assert (Forall LocalWAL.wal_mutation_ok (cm_Mutation <$> conditional_batch tb i cms)) as Hbok.
  { rewrite Forall_fmap, bucket_rows. rewrite Forall_fmap in Hok. by apply Forall_of_filter. }
  rewrite <-Hsp. destruct (conditional_batch tb i cms) as [|m b] eqn:Eb.
  { injection Hcall as <- <- <-. cbn [conditional_spec] in Hb. injection Hb as -> _. apply rtc_refl. }
  apply rtc_once. replace (Up t' d') with (after o t' d') by (by destruct o). 
  assert ((conditional_spec (m :: b) (owned (tb_splits tb) i hist)).1 = owned (tb_splits tb) i hist') as E by (by rewrite Hb). rewrite <-E.
  eapply (step_conditional F Marshal Unmarshal t d _ (x i) (m :: b)); [apply Hx|exact Hcl|exact Hbok|exact Hfl|exact Hcall|by rewrite Hb].
Qed.

Lemma flush_sim splits tb hist x tb' o :
  tb_splits tb = splits -> (forall i, outside_ok (x i)) -> (forall i t d, tb_tablets tb !! i = Some (t, d) -> flushable t) ->
  Table.flush F Marshal x tb = (tb', o) -> o <> Crashed ->
  tablet_steps splits (TUp tb, hist) (TUp tb', hist) /\ shape splits (length (tb_tablets tb)) (TUp tb').
Proof.
  intros Hsp Hx Hready HF' Ho. unfold Table.flush in HF'. destruct (each _ 0 (tb_tablets tb)) as [ts' os] eqn:He. injection HF' as <- <-.
  destruct (each_steps _ splits tb ts' os hist hist He Ho) as [H1 H2]; [|split; [exact H1|by split]].
  intros i t d t' d' o Hi Hcall Hoi. apply rtc_once. replace (Up t' d') with (after o t' d') by (by destruct o).
  by apply (step_flush F Marshal Unmarshal t d _ (x i) t' d' o); [|apply (Hready i t d)|].
Qed.

Lemma close_loop_ok x i ts ts' o :
  Table.close_loop F Marshal (fun _ => true) x i ts = (ts', o) -> o <> Crashed ->
  length ts' = length ts /\ forall k t d, ts !! k = Some (t, d) ->
    exists t' d' o', Close F Marshal true (x (i + k)%nat) t d = (t', d', o') /\ ts' !! k = Some (t', d').
Proof.
  revert i ts' o. induction ts as [|[t d] ts IH]; intros i ts' o; cbn [Table.close_loop]; [by intros [= <- <-] _|].
  destruct (Close F Marshal true (x i) t d) as [[t1 d1] o1] eqn:EC.
  destruct (Table.close_loop F Marshal (fun _ => true) x (S i) ts) as [ts1 rest] eqn:Er. intros E Ho.
  assert (ts' = (t1, d1) :: ts1 /\ rest <> Crashed) as [-> Hrest] by (destruct o1, rest; injection E as <- <-; done).
  destruct (IH (S i) ts1 rest Er Hrest) as [H1 H2]. split; [cbn; lia|]. intros [|k] t2 d2.
  - intros [= <- <-]. rewrite Nat.add_0_r. by exists t1, d1, o1.
  - intros Hk. destruct (H2 k t2 d2 Hk) as (t' & d' & o' & E' & ?). exists t', d', o'. by rewrite <-Nat.add_succ_comm.
Qed.

Lemma open_all_ok opts x i dirs ts :
  Table.open_all Unmarshal opts LocalWAL.SyncFull x i dirs = (ts, None) ->
  length ts = length dirs /\ forall k d file, dirs !! k = Some (d, file) ->
    exists t, Tablet.Open Unmarshal (x (i + k)%nat) LocalWAL.SyncFull opts d file = Ok t /\ ts !! k = Some (t, d).
Proof.
  revert i ts. induction dirs as [|[d file] dirs IH]; intros i ts; cbn [Table.open_all]; [by intros [= <-]|].
  destruct (Tablet.Open Unmarshal (x i) LocalWAL.SyncFull opts d file) as [t|] eqn:EO; [|done].
  destruct (Table.open_all Unmarshal opts LocalWAL.SyncFull x (S i) dirs) as [ts1 e1] eqn:Ea. intros [= <- ->].
  destruct (IH (S i) ts1 Ea) as [H1 H2]. split; [cbn; lia|]. intros [|k] d2 file2.
  - intros [= <- <-]. rewrite Nat.add_0_r. by exists t.
  - intros Hk. destruct (H2 k d2 file2 Hk) as (t' & E' & ?). exists t'. by rewrite <-Nat.add_succ_comm.
Qed.

(** Where every tablet opens, all of them do. *)
Lemma open_all_opens opts x i dirs :
  (forall k d file, dirs !! k = Some (d, file) -> exists t, Tablet.Open Unmarshal (x (i + k)%nat) LocalWAL.SyncFull opts d file = Ok t) ->
  exists ts, Table.open_all Unmarshal opts LocalWAL.SyncFull x i dirs = (ts, None).
Proof.
  revert i. induction dirs as [|[d file] dirs IH]; intros i Hall; cbn [Table.open_all]; [by exists []|].
  destruct (Hall 0%nat d file eq_refl) as [t Ht]. rewrite Nat.add_0_r in Ht. rewrite Ht.
  destruct (IH (S i)) as [ts ->]; [|by exists ((t, d) :: ts)]. intros k d2 file2 Hk. rewrite Nat.add_succ_comm. by apply Hall.
Qed.

Lemma readTableManifest_label json manifest format :
  Table.readTableManifest UnmarshalTable json = Ok (manifest, format) ->
  Table.tm_DefaultEmbedding manifest = zero_state \/ EmbeddingSpace.Validate (Table.tm_DefaultEmbedding manifest) = None.
Proof.
  unfold Table.readTableManifest. destruct json as [data|]; [|intros [= <- _]; by left].
  destruct (UnmarshalTable data) as [m|]; cbn [wrap mbind result_bind]; [|done]. destruct (negb _); [done|].
  destruct (ParseFileFormat (Table.tm_FileFormat m)) as [f|]; cbn [mbind result_bind]; [|done].
  case_bool_decide as E; cbn [negb]; [intros [= <- _]; by left|]. destruct (EmbeddingSpace.Validate _) eqn:Ev; [done|]. intros [= <- _]. by right.
Qed.

Lemma open_sim splits dir hist retention x sync y dir' tb :
  (forall i, outside_ok (x i)) -> Table.openTable F Marshal Unmarshal UnmarshalTable LocalWAL.SyncFull retention x sync y dir = (dir', Done tb) ->
  tb_splits tb = splits ->
  tablet_steps splits (TDown (tabletDirs dir), hist) (TUp tb, hist) /\ shape splits (length (tabletDirs dir)) (TUp tb).
Proof.
  intros Hx HO Hsp. unfold Table.openTable in HO.
  destruct (Table.readTableManifest UnmarshalTable (Table.td_json dir)) as [[manifest format]|] eqn:Em; [|done].
  pose proof (readTableManifest_label _ _ _ Em) as Hlab. destruct (_ && _); [done|].
  destruct (Table.open_all _ _ _ _ _ _) as [ts [e|]] eqn:Ea.
  { unfold Table.open_fails in HO. destruct (Table.close_loop _ _ _ _ _ _) as [? []]; done. }
  injection HO as <- <-. cbn [tb_splits] in Hsp.
  destruct (open_all_ok _ _ _ _ _ Ea) as [H1 H2]. split; [|split; [exact Hsp|exact H1]].
  intros i w. cbn [fst snd at_tablet tb_tablets]. destruct (tabletDirs dir !! i) as [[d file]|] eqn:Ei; [|done]. intros [= <-].
  destruct (H2 i d file Ei) as (t & Ht & ->). exists (Up t d). split; [done|]. apply rtc_once.
  eapply (step_open F Marshal Unmarshal d file _ (x (0 + i)%nat)); [apply Hx| |exact Ht]. exact Hlab.
Qed.

Lemma format_sim splits tb hist format fate dir tb' dir' o :
  tb_splits tb = splits -> Table.setFileFormatLocked MarshalTable format fate tb dir = (tb', dir', o) ->
  tablet_steps splits (TUp tb, hist) (TUp tb', hist) /\ shape splits (length (tb_tablets tb)) (TUp tb').
Proof.
  intros Hsp HS. unfold Table.setFileFormatLocked in HS.
  assert (tablet_steps splits (TUp tb, hist) (TUp tb, hist) /\ shape splits (length (tb_tablets tb)) (TUp tb)) as Hsame.
  { split; [|by split]. intros i w Hw. exists w. split; [exact Hw|apply rtc_refl]. }
  destruct (ParseFileFormat format) as [parsed|]; [|by injection HS as <- _ _].
  destruct (Table.writeTableManifest _ _ _ _) as [dir1 [[]| |]]; [|by injection HS as <- _ _..]. injection HS as <- _ _.
  split; [|split; [exact Hsp|apply length_fmap]]. intros i w. cbn [fst snd at_tablet tb_tablets]. rewrite list_lookup_fmap.
  destruct (tb_tablets tb !! i) as [[t d]|]; [|done]. intros [= <-]. cbn [fmap option_fmap option_map fst snd]. eexists. split; [done|].
  apply rtc_once. eapply step_format. apply surjective_pairing.
Qed.

Lemma resolve_embedding_label opts state : Table.resolve_embedding opts = Ok state -> state = zero_state \/ EmbeddingSpace.Validate state = None.
Proof.
  unfold Table.resolve_embedding. destruct (if _ : bool then _ else _) as [s|]; cbn [mbind result_bind]; [|done].
  case_bool_decide as E; cbn [negb]; [intros [= <-]; by left|]. destruct (EmbeddingSpace.Validate s) eqn:Ev; [done|]. intros [= <-]. by right.
Qed.

(** What creating a table in an empty directory comes to. *)
Lemma createTable_ok opts fate stop fs x sync y own dir r :
  len (Table.to_Splits opts) < 10000 ->
  Table.createTable F Marshal Unmarshal MarshalTable opts LocalWAL.SyncFull fate stop fs x sync y (mkTableDir None [] own) = (dir, r) ->
  let splits := SliceStable Table.string_before (Table.to_Splits opts) in
  match r with
  | Done tb => exists format state data,
      Table.resolve_format opts = Ok format /\ Table.resolve_embedding opts = Ok state /\
      MarshalTable (Table.mkTableManifest Table.tableManifestVersion splits (Table.format_name format) (Table.to_Target opts) state) = Ok data /\
      dir = mkTableDir (Some (data ++ [10])) (named 0 (new_dir fs <$> seq 0 (S (length splits)))) own /\
      tb_splits tb = splits /\ Table.tb_format tb = format /\ Table.tb_target tb = Table.to_Target opts /\ Table.tb_default tb = state /\
      length (tb_tablets tb) = S (length splits) /\
      forall k, (k < S (length splits))%nat -> exists o t, label_valid o /\ Tablet.Open Unmarshal (x k) LocalWAL.SyncFull o (new_dir fs k).1 [] = Ok t /\
        tb_tablets tb !! k = Some (t, (new_dir fs k).1)
  | _ => True
  end.
Proof.
  intros Hlen HC. cbv zeta. unfold Table.createTable in HC. destruct r as [tb| |]; [|done..].
  destruct (Table.resolve_format opts) as [format|] eqn:Ef; cbn [mbind result_bind] in HC; [|done].
  destruct (Table.resolve_embedding opts) as [state|] eqn:Es; cbn [mbind result_bind] in HC; [|done].
  set (splits := SliceStable Table.string_before (Table.to_Splits opts)) in *. unfold Table.writeTableManifest in HC.
  destruct (MarshalTable _) as [data|] eqn:Em; [|done]. cbn [Table.td_tablets Table.td_own] in HC. destruct fate; [|done..].
  destruct (Table.create_tablets _ _ _ _ _ _ _ _ _) as [[dir1 ts] r1] eqn:Ec.
  destruct r1 as [[]| |]; [|unfold Table.open_fails in HC; by destruct (Table.close_loop _ _ _ _ _ _) as [? []]|done]. injection HC as <- <-.
  assert (length splits = length (Table.to_Splits opts)) as Hsl by (unfold splits; apply Permutation_length, SliceStable_perm).
  change 0%nat with (length (@nil (disk * bytes))) in Ec.
  apply create_tablets_ok in Ec; [|done|unfold len in Hlen; cbn [length]; lia]. cbn [Table.td_json Table.td_own length app Nat.add] in Ec.
  destruct Ec as (H1 & H2 & H3 & H4 & H5). rewrite Nat.add_1_r in *.
  exists format, state, data. split_and!; try done.
  - destruct dir1 as [j tl ow]. cbn [Table.td_json Table.td_own Table.td_tablets] in H1, H2, H3. by rewrite H1, H2, H3.
  - intros k Hk. destruct (H5 k Hk) as (t & Ht & Hts). eexists _, t. split; [|split; [exact Ht|exact Hts]].
    exact (resolve_embedding_label opts state Es).
Qed.

Lemma create_sim splits opts fate stop fs x sync y own hist dir tb :
  len (Table.to_Splits opts) < 10000 -> (forall i, outside_ok (x i)) ->
  Table.createTable F Marshal Unmarshal MarshalTable opts LocalWAL.SyncFull fate stop fs x sync y (mkTableDir None [] own) = (dir, Done tb) -> tb_splits tb = splits ->
  tablet_steps splits (TDown (new_dir fs <$> seq 0 (S (length splits))), hist) (TUp tb, hist) /\ shape splits (S (length splits)) (TUp tb).
Proof.
  intros Hlen Hx HC Hsp. pose proof (createTable_ok opts fate stop fs x sync y own dir (Done tb) Hlen HC) as H. cbv zeta iota in H.
  destruct H as (format & state & data & _ & _ & _ & _ & E & _ & _ & _ & Hl & Hts). rewrite Hsp in E. rewrite <-E in Hl, Hts.
  split; [|by split]. intros i w. cbn [fst snd at_tablet]. rewrite list_lookup_fmap.
  destruct (seq 0 (S (length splits)) !! i) as [j|] eqn:Ei; [|done]. apply lookup_seq in Ei as [-> Hi]. intros [= <-].
  destruct (Hts i Hi) as (o & t & Hlab & Ht & ->). eexists. split; [done|]. apply rtc_once.
  by eapply (step_open F Marshal Unmarshal _ [] _ (x i) o).
Qed.

Lemma table_step_sim splits n w hist w' hist' :
  table_step splits (w, hist) (w', hist') -> (length splits < n)%nat -> shape splits n w ->
  tablet_steps splits (w, hist) (w', hist') /\ shape splits n w'.
Proof.
  intros Hs Hn Hw. inversion Hs as [opts fate stop fs x sync y own h dir tb Hx Hlen HC Hsp|dir h retention x sync y dir' tb Hx HO Hsp|tb h ms x tb' o Hx Hok Hr HW Ho|tb h cms x tb' o h' rs Hx Hok Hr HC Ho Hspec
    |tb h x tb' o Hx Hr HF' Ho|tb h format fate dir tb' dir' o HS Ho|tb h x tb' o Hx Hr HC Ho|tb h dirs h' Hl Hst]; subst; cbn [shape] in Hw.
  - change (length (new_dir fs <$> seq 0 (S (length (tb_splits tb)))) = n) in Hw. rewrite length_fmap, length_seq in Hw. subst n. by apply (create_sim (tb_splits tb) opts fate stop fs x sync y own hist' dir).
  - rewrite <-Hw. by apply (open_sim (tb_splits tb) dir hist' retention x sync y dir').
  - destruct Hw as [Hsp <-]. by apply (write_sim splits tb hist ms x tb' o).
  - destruct Hw as [Hsp <-]. by apply (conditional_sim splits tb hist cms x tb' o hist' rs).
  - destruct Hw as [Hsp <-]. by apply (flush_sim splits tb hist' x tb' o).
  - destruct Hw as [Hsp <-]. by apply (format_sim splits tb hist' format fate dir tb' dir' o).
  - destruct Hw as [Hsp <-]. unfold Table.close in HC. destruct (Table.close_loop _ _ _ _ _ _) as [ts' o'] eqn:Ec. injection HC as <- <-.
    destruct (close_loop_ok x 0 _ _ _ Ec Ho) as [H1 H2]. split; [|cbn [shape set_tablets tb_tablets]; unfold left_behind; by rewrite length_fmap].
    intros i w. cbn [fst snd at_tablet set_tablets tb_tablets]. destruct (tb_tablets tb !! i) as [[t d]|] eqn:Ei; [|done]. intros [= <-].
    destruct (H2 i t d Ei) as (t' & d' & o1 & E & Ht). unfold left_behind. rewrite list_lookup_fmap, Ht. eexists. split; [done|].
    apply rtc_once. by apply (step_close F Marshal Unmarshal t d _ (x (0 + i)%nat) t' d' o1); [|apply (Hr i t d)|].
  - destruct Hw as [Hsp <-]. split; [|exact Hl]. intros i w. cbn [fst snd at_tablet]. destruct (tb_tablets tb !! i) as [[t d]|] eqn:Ei; [|done]. intros [= <-].
    destruct (Hst i t d Ei) as (d' & file & -> & Hsteps). exists (Down d' file). by split.
Qed.

(** In a reachable table every tablet is reachable, with its part of the
    history. *)
Lemma table_reachable_sim splits fss w hist :
  (length splits < length fss)%nat -> table_reachable splits fss (w, hist) ->
  shape splits (length fss) w /\
  forall i fs, fss !! i = Some fs -> exists wi, at_tablet w i = Some wi /\ TabletLife.reachable F Marshal Unmarshal fs (wi, owned splits i hist).
Proof.
  intros Hn Hr. set (Inv := fun s : tworld * list Cell => shape splits (length fss) s.1 /\
    forall i fs, fss !! i = Some fs -> exists wi, at_tablet s.1 i = Some wi /\ TabletLife.reachable F Marshal Unmarshal fs (wi, owned splits i s.2)).
  assert (forall s s', rtc (table_step splits) s s' -> Inv s -> Inv s') as H.
  { induction 1 as [|s s1 s2 Hstep _ IH]; [done|]. intros [Hsh Hall]. apply IH. destruct s as [w0 h0], s1 as [w1 h1].
    destruct (table_step_sim splits _ _ _ _ _ Hstep Hn Hsh) as [Hsim Hsh']. split; [exact Hsh'|]. intros i fs Hi.
    destruct (Hall i fs Hi) as (wi & Hwi & Hri). destruct (Hsim i wi Hwi) as (wi' & Hwi' & Hsteps). exists wi'. split; [exact Hwi'|].
    unfold TabletLife.reachable in *. by etrans. }
  apply (H _ _ Hr). split; [cbn; by rewrite length_fmap|]. intros i fs Hi. exists (Down (mkDisk ∅ fs) []).
  cbn [fst at_tablet]. rewrite list_lookup_fmap, Hi. split; [done|]. apply rtc_refl.
Qed.

Lemma table_reachable_up splits fss tb hist :
  Forall (Forall (fun f => f <> WrittenUnmarked)) fss -> (length splits < length fss)%nat -> table_reachable splits fss (TUp tb, hist) ->
  tb_splits tb = splits /\ length (tb_tablets tb) = length fss /\
  forall k t d, tb_tablets tb !! k = Some (t, d) -> up t d (owned splits k hist) /\ honest d.
Proof.
  intros Hfs Hn Hr. destruct (table_reachable_sim splits fss _ _ Hn Hr) as [[Hsp Hl] Hall]. split; [done|]. split; [done|].
  intros k t d Hk. destruct (lookup_lt_is_Some_2 fss k) as [fs Hk']; [rewrite <-Hl; by eapply lookup_lt_Some|].
  destruct (Hall k fs Hk') as (wi & Hwi & Hri). cbn [at_tablet] in Hwi. rewrite Hk in Hwi. injection Hwi as <-.
  by apply (life_reachable_ok F Marshal Unmarshal HF Hjson fs _ (Forall_lookup_1 _ _ _ _ Hfs Hk') Hri).
Qed.
End table.
