(* ===== verification/TableLife.v ===== *)
(** * TableLife: what a table promises

    Routing, reads and conditional writes of a table in any state it can
    reach, and the directory it is opened from. *)

From stdpp Require Import strings.
From S2P Require Import Prelude Wire GoStd Utf8 VisFilter Iter IterStack IterLaws Merge Reads History Stack Mutation Memtable EmbeddingSpace.
From S2P Require LocalWAL Parquet.
From S2P Require Import RFileSource Store TabletFiles Images Compaction Tablet TabletOk TabletLife.
From S2P Require Table.
From S2P Require Import TableOk.
Import Iter.
Import Table (left_behind, table, mkTable, tb_tablets, tb_splits, routeTablet, bucket, each, all_errors, first_error, place_all, cm_row, tableDir, mkTableDir, tabletDirs, tablet_dir_name, is_tablet_dir).

Lemma all_errors_done {A} (os : list (outcome A)) : all_errors os = Done tt -> forall k o, os !! k = Some o -> exists a, o = Done a.
Proof.
  unfold all_errors. destruct (existsb Table.crashed os) eqn:Ec; [done|]. revert Ec. induction os as [|[a|e c|] os IH]; [done| |done|done].
  cbn [existsb Table.crashed first_error orb]. intros Ec H [|k] o; [intros [= <-]; by exists a|by apply IH].
Qed.

(** ** The split points *)

Lemma string_before_le a b : Table.string_before b a = false <-> row_le a b.
Proof.
  unfold Table.string_before, row_le. rewrite (cmp_antisym bytes_Compare b a). by destruct (bytes_Compare b a).
Qed.

Lemma PrefixSplit_sorted splits : StronglySorted row_le (Table.PrefixSplit splits).
Proof.
  unfold Table.PrefixSplit. assert (StronglySorted (fun a b => Table.string_before b a = false) (SliceStable Table.string_before splits)) as H.
  2: { induction H as [|a l _ IH Ha]; constructor; [exact IH|]. eapply Forall_impl; [exact Ha|]. intros b. apply string_before_le. }
  apply SliceStable_sorted.
  - intros a. unfold Table.string_before. by rewrite (cmp_refl bytes_Compare).
  - intros a b c. unfold Table.string_before. destruct (bytes_Compare a b) eqn:E1; try done. destruct (bytes_Compare b c) eqn:E2; try done.
    by rewrite (cmp_trans bytes_Compare _ _ _ E1 E2).
  - intros a b c H1 H2. apply string_before_le. eapply row_le_trans; by apply string_before_le.
Qed.

(** C9: the split points of a table divide its rows.  Whatever the points it is
    created with, a row's tablet exists, every point before it is no greater
    than the row and every point after it is greater; so a tablet's rows are
    the interval between its points, and a greater row is never routed to an
    earlier tablet. *)
Theorem routing_partitions points row row' :
  let splits := Table.PrefixSplit points in
  splits ≡ₚ points /\ (routeTablet splits row < S (length points))%nat /\
  (forall i s, splits !! i = Some s -> ((i < routeTablet splits row)%nat <-> row_le s row)) /\
  (row_le row row' -> (routeTablet splits row <= routeTablet splits row')%nat).
Proof.
  cbv zeta. set (splits := Table.PrefixSplit points). assert (splits ≡ₚ points) as Hp by (unfold splits, Table.PrefixSplit; apply SliceStable_perm).
  pose proof (PrefixSplit_sorted points) as Hs. fold splits in Hs.
  assert (forall r i s, splits !! i = Some s -> ((i < routeTablet splits r)%nat <-> row_le s r)) as Hr.
  { intros r i s Hi. destruct (routeTablet_spec splits r Hs) as [H1 H2]. split; [by apply H1|]. intros Hle. apply Nat.nle_gt. intros Hge.
    apply Hle. rewrite (cmp_antisym bytes_Compare r s), (H2 i s Hi Hge). done. }
  split; [exact Hp|]. split; [pose proof (routeTablet_le splits row); apply Permutation_length in Hp; lia|]. split; [apply Hr|].
  intros Hle. apply Nat.nlt_ge. intros Hlt. pose proof (routeTablet_le splits row) as Hb.
  destruct (lookup_lt_is_Some_2 splits (routeTablet splits row') ltac:(lia)) as [s Hi].
  apply (Hr row _ _ Hi) in Hlt. pose proof (row_le_trans _ _ _ Hlt Hle) as H. apply (Hr row' _ _ Hi) in H. lia.
Qed.

Section table.
Context (F : Formats) (registryByName : gmap string iteratorRegistration).
Context (Marshal : immutableManifest -> result bytes) (Unmarshal : bytes -> result immutableManifest).
Context (MarshalTable : Table.tableManifest -> result bytes) (UnmarshalTable : bytes -> result Table.tableManifest).
Context (HF : formats_ok F) (Hreg : registry_ok registryByName) (Hjson : json_manifest_ok Marshal Unmarshal).
Abbreviation reachable := (table_reachable F Marshal Unmarshal MarshalTable UnmarshalTable).
Abbreviation flushable := (TabletOk.flushable F).
Abbreviation honest_faults fs := (Forall (fun f => f <> WrittenUnmarked) fs).


(** C5: the conditional writes of a table are compare-and-sets on the history
    of all of it.  Though each tablet decides its own mutations, on its own,
    the answers are those of deciding all of them one after another, each at
    its mutation's place, and the table then serves the history that leaves. *)
Theorem table_conditional_write splits fss tb hist x cms :
  Forall (fun fs => honest_faults fs) fss -> (length splits < length fss)%nat -> reachable splits fss (TUp tb, hist) ->
  (forall i, outside_ok (x i)) -> Forall LocalWAL.wal_mutation_ok (cm_Mutation <$> cms) ->
  Forall (fun m => Forall (fun c => supported c = true) (cm_Conditions m)) cms ->
  (forall i t d, tb_tablets tb !! i = Some (t, d) ->
    clean t /\ forall t1 r, conditional_loop F (bucket cm_row (tb_splits tb) i cms).*2 [] [] t d = (t1, r) -> flushable t1) ->
  exists tb' o hist' rs, Table.conditionalWrite F Marshal cms (fun _ => []) x tb = (tb', o) /\ conditional_spec cms hist = (hist', Ok rs) /\
    (forall a, o = Done a -> a = rs) /\ (o <> Crashed -> reachable splits fss (TUp tb', hist')).
Proof.
  intros Hfs Hn Hr Hx Hok Hsup Hready. destruct (Table.conditionalWrite F Marshal cms (fun _ => []) x tb) as [tb' o] eqn:HC.
  destruct (conditional_spec_total cms hist Hsup) as (hist' & rs & Hspec). exists tb', o, hist', rs. split; [done|]. split; [done|].
  destruct (table_reachable_up F Marshal Unmarshal MarshalTable UnmarshalTable HF Hjson splits fss tb hist Hfs Hn Hr) as (Hsp & Hl & Hup).
  split; [|intros Ho; eapply rtc_r; [exact Hr|]; by apply (tstep_conditional _ _ _ _ _ splits tb hist cms x tb' o hist' rs)].
  intros a ->. unfold Table.conditionalWrite in HC. destruct (each _ 0 (tb_tablets tb)) as [ts' os] eqn:He.
  destruct (all_errors os) as [[]| |] eqn:Ea; [|done..]. injection HC as <- <-. destruct (each_lookup _ _ _ _ _ He) as (_ & Hlo & Hcalls).
  destruct (conditional_spec_buckets (tb_splits tb) cms hist hist' rs Hspec) as [Hlr Hb].
  destruct (place_all_ok (tb_splits tb) cms rs 0 os (replicate (length cms) false) Hlr) as [H1 H2]; [by rewrite length_replicate| |].
  - intros k o Hk. destruct (all_errors_done os Ea k o Hk) as [a ->]. f_equal. cbn [Nat.add].
    destruct (tb_tablets tb !! k) as [[t d]|] eqn:Et; [|apply lookup_lt_Some in Hk; apply lookup_ge_None in Et; lia].
    destruct (Hcalls k t d Et) as (t' & d' & o' & Hcall & _ & Hk'). rewrite Hk in Hk'. injection Hk' as <-. cbn [Nat.add] in Hcall.
    specialize (Hb k). rewrite <-bucket_rows in Hb. destruct (Hready k t d Et) as [[ms Hcl] Hfl]. destruct (Hup k t d Et) as [Hupk Hhon].
    assert (Forall LocalWAL.wal_mutation_ok (cm_Mutation <$> (bucket cm_row (tb_splits tb) k cms).*2)) as Hbok.
    { rewrite bucket_rows, Forall_fmap. rewrite Forall_fmap in Hok. by apply Forall_of_filter. }
    rewrite Hsp in *. destruct (bucket cm_row splits k cms).*2 as [|m b]; [cbn [conditional_spec] in Hb; by injection Hcall as _ _ <-; injection Hb as _ <-|].
    assert (forall r, (conditional_spec (m :: b) (owned splits k hist)).2 = Ok r -> a = r) as Ha; [|apply Ha; by rewrite Hb].
    intros r Er. destruct (ConditionalWrite_history F Marshal HF (m :: b) [] (x k) t d (owned splits k hist) ms r t' d' (Done a) (Hx k) Hhon Hupk Hcl Hbok
      (Forall_nil_2 _) Hfl Hcall Er) as (_ & _ & _ & _ & _ & Ha). by apply Ha.
  - apply list_eq_same_length with (length rs); [done|exact H1|]. intros i b1 b2 Hi H3 H4.
    destruct (lookup_lt_is_Some_2 cms i ltac:(lia)) as [m Hm]. rewrite (H2 i m Hm) in H3; [congruence|].
    left. pose proof (routeTablet_le (tb_splits tb) (cm_row m)). rewrite Hlo, Hl, Hsp in *. lia.
Qed.

(** What is assumed of [encoding/json]: it reads back the text and bytes it
    writes, where the text is UTF-8. *)
Definition json_table_ok : Prop := forall m data,
  Forall (fun text => ValidString text = true)
    [Table.tm_FileFormat m; Table.tm_TargetEmbeddingSpace m; State (Table.tm_DefaultEmbedding m); Identity (Table.tm_DefaultEmbedding m)] ->
  MarshalTable m = Ok data -> UnmarshalTable (data ++ [10]) = Ok m.

Lemma label_text state : state = zero_state \/ EmbeddingSpace.Validate state = None -> ValidString (State state) = true /\ ValidString (Identity state) = true.
Proof.
  intros [->|H%Validate_state]; [by vm_compute|]. destruct H as [(-> & H & _)|([-> | ->] & ->)]; [|by vm_compute..]. split; [by vm_compute|exact H].
Qed.

Lemma readTableManifest_written splits format target state data :
  json_table_ok -> ValidString target = true -> state = zero_state \/ EmbeddingSpace.Validate state = None ->
  MarshalTable (Table.mkTableManifest Table.tableManifestVersion splits (Table.format_name format) target state) = Ok data ->
  Table.readTableManifest UnmarshalTable (Some (data ++ [10])) =
    Ok (Table.mkTableManifest Table.tableManifestVersion splits (Table.format_name format) target state, format).
Proof.
  intros HT Htarget Hlab Hm. unfold Table.readTableManifest. destruct (label_text state Hlab) as [Hs1 Hs2]. 
  rewrite (fun Ht => HT _ data Ht Hm) by (cbn [Table.tm_FileFormat Table.tm_TargetEmbeddingSpace Table.tm_DefaultEmbedding];
    apply Forall_cons_2; [by destruct format|]; apply Forall_cons_2; [exact Htarget|]; apply Forall_cons_2; [exact Hs1|]; apply Forall_cons_2; [exact Hs2|done]).
  cbn [wrap mbind result_bind Table.tm_Version Table.tm_FileFormat Table.tm_DefaultEmbedding].
  assert (ParseFileFormat (Table.format_name format) = Ok format) as -> by (by destruct format). cbn [mbind result_bind].
  change (negb (Table.tableManifestVersion =? Table.tableManifestVersion)) with false. cbv iota. case_bool_decide as E; cbn [negb]; [done|].
  destruct Hlab as [?| ->]; done.
Qed.

End table.

(** ** Witnesses: a table of two tablets is created, a batch writes to both,
    the process stops and the table is opened again. *)

Definition table_tuple (m : Table.tableManifest) :=
  (Table.tm_Version m, Table.tm_Splits m, Table.tm_FileFormat m, Table.tm_TargetEmbeddingSpace m, State (Table.tm_DefaultEmbedding m), Identity (Table.tm_DefaultEmbedding m)).
Definition demo_MarshalTable (m : Table.tableManifest) : result bytes := Ok (pos_bits (countable.encode (table_tuple m))).
Definition demo_UnmarshalTable (b : bytes) : result Table.tableManifest :=
  match countable.decode (bits_pos (removelast b)) with
  | Some (v, sp, f, t, s, i) => Ok (Table.mkTableManifest v sp f t (mkFileState s i))
  | None => Err (Fail "json: invalid character")
  end.

Lemma demo_table_json : json_table_ok demo_MarshalTable demo_UnmarshalTable.
Proof.
  intros m b _ [= <-]. unfold demo_UnmarshalTable. rewrite removelast_last, bits_pos_bits, decode_encode. by destruct m as [? ? ? ? []].
Qed.

Definition demo_faults (i : nat) : list fault := [].
Definition demo_table_options : Table.TableOptions :=
  Table.mkTableOptions [[77]] [] [] (str "parquet") (str "space") zero_state zero_state 100 [] 0.
Definition demo_created : tableDir * outcome table :=
  Table.createTable demo_formats demo_Marshal_manifest demo_Unmarshal_manifest demo_MarshalTable demo_table_options LocalWAL.SyncFull Table.Renamed None
    demo_faults (fun _ => demo_outside true) (fun _ => true) (fun _ => demo_outside true) (mkTableDir None [] (demo_disk, [])).
Definition demo_table : table := match demo_created.2 with Done tb => tb | _ => mkTable [] [] FormatRFile [] zero_state end.

Definition demo_batch : list Mutation :=
  [Put [1] [2] [] 5 [1] (mkMutation [82] []); Put [1] [2] [] 5 [2] (mkMutation [65] []); Put [1] [2] [] 6 [3] (mkMutation [82] [])].
Definition demo_table_write : table * outcome unit :=
  Table.write demo_formats demo_Marshal_manifest demo_batch (fun _ => LocalWAL.WriteAll) (fun _ => true) (fun _ => demo_outside true) demo_table.
Definition demo_written_table : table := demo_table_write.1.
Definition demo_dirs : list (disk * bytes) := left_behind (tb_tablets demo_written_table).
Definition demo_tablets : list (list fault) := demo_faults <$> seq 0 2.

Abbreviation demo_table_reachable :=
  (table_reachable demo_formats demo_Marshal_manifest demo_Unmarshal_manifest demo_MarshalTable demo_UnmarshalTable [[77]] demo_tablets).

Lemma demo_created_ok : demo_created.2 = Done demo_table.
Proof. vm_compute. reflexivity. Qed.

Lemma demo_batch_ok : Forall LocalWAL.wal_mutation_ok demo_batch.
Proof. repeat constructor; try done; vm_compute; congruence. Qed.

(** Both tablets flush to Parquet, which bounds nothing. *)
Lemma parquet_flushable t : bool_decide (o_FileFormat (t_opts t) = FormatParquet) = true -> flushable demo_formats t.
Proof. intros H%bool_decide_eq_true E. by rewrite H in E. Qed.

Lemma demo_first_step : demo_table_reachable (TUp demo_table, []).
Proof.
  eapply rtc_r; [apply rtc_refl|]. destruct demo_created as [dir o] eqn:E. pose proof demo_created_ok as Eo. rewrite E in Eo. cbn [snd] in Eo. subst o.
  apply (tstep_create _ _ _ _ _ [[77]] demo_table_options Table.Renamed None demo_faults (fun _ => demo_outside true) (fun _ => true) (fun _ => demo_outside true)
    (demo_disk, []) [] dir demo_table); [intros _; apply (demo_outside_ok true)|vm_compute; reflexivity|exact E|vm_compute; reflexivity].
Qed.

Lemma demo_table_ready i t d :
  tb_tablets demo_table !! i = Some (t, d) -> clean t /\ flushable demo_formats (ingest (bucket m_row (tb_splits demo_table) i demo_batch).*2 t).
Proof.
  assert (Forall (fun td => LocalWAL.w_file (t_wal td.1) = [] /\ o_FileFormat (t_opts td.1) = FormatParquet) (tb_tablets demo_table)) as H.
  { apply (bool_decide_unpack _). vm_compute. exact I. }
  intros Hi. destruct (Forall_lookup_1 _ _ _ _ H Hi) as [H1 H2]. split; [by exists []|]. apply parquet_flushable. apply bool_decide_eq_true. exact H2.
Qed.

Lemma demo_table_up : demo_table_reachable (TUp demo_written_table, log_cells demo_batch).
Proof.
  eapply rtc_r; [exact demo_first_step|]. change (log_cells demo_batch) with ([] ++ log_cells demo_batch).
  apply (tstep_write _ _ _ _ _ [[77]] demo_table [] demo_batch (fun _ => demo_outside true) demo_written_table demo_table_write.2);
    [intros _; apply (demo_outside_ok true)|exact demo_batch_ok| |apply surjective_pairing|vm_compute; discriminate].
  exact demo_table_ready.
Qed.

Lemma demo_table_down : demo_table_reachable (TDown demo_dirs, log_cells demo_batch).
Proof.
  eapply rtc_r; [exact demo_table_up|]. apply tstep_stop; [vm_compute; reflexivity|].
  assert (Forall (fun td => (LocalWAL.w_synced (t_wal td.1) <= length (LocalWAL.w_file (t_wal td.1)))%nat) (tb_tablets demo_written_table)) as H.
  { apply (bool_decide_unpack _). vm_compute. exact I. }
  intros i t d Hi. pose proof (Forall_lookup_1 _ _ _ _ H Hi) as Hn. cbn [fst] in Hn. exists d, (LocalWAL.w_file (t_wal t)). split.
  - unfold demo_dirs, left_behind. by rewrite list_lookup_fmap, Hi.
  - apply rtc_once. pose proof (step_crash demo_formats demo_Marshal_manifest demo_Unmarshal_manifest t d
      (owned [[77]] i (log_cells demo_batch)) _ Hn) as Hs. by rewrite take_ge in Hs by lia.
Qed.


(** Row "R" is in the second tablet and holds 3, row "A" in the first and holds 2. *)
Definition demo_table_conditional : list ConditionalMutation :=
  [mkConditional (Put [1] [2] [] 7 [8] (mkMutation [82] [])) [mkCondition [1] [2] [] None ConditionValueEquals [3]];
   mkConditional (Put [1] [2] [] 7 [9] (mkMutation [65] [])) [mkCondition [1] [2] [] None ConditionValueEquals [3]];
   mkConditional (Put [1] [2] [] 9 [7] (mkMutation [82] [])) [mkCondition [1] [2] [] None ConditionAbsent []]].

Lemma table_conditional_write_witness :
  exists tb' o hist' rs, Table.conditionalWrite demo_formats demo_Marshal_manifest demo_table_conditional (fun _ => []) (fun _ => demo_outside true) demo_written_table = (tb', o) /\
    conditional_spec demo_table_conditional (log_cells demo_batch) = (hist', Ok rs) /\ (forall a, o = Done a -> a = rs) /\
    (o <> Crashed -> demo_table_reachable (TUp tb', hist')).
Proof.
  apply (table_conditional_write demo_formats demo_Marshal_manifest demo_Unmarshal_manifest demo_MarshalTable demo_UnmarshalTable demo_formats_ok demo_manifest_json
    [[77]] demo_tablets demo_written_table (log_cells demo_batch) (fun _ => demo_outside true) demo_table_conditional).
  - repeat constructor.
  - cbn. lia.
  - exact demo_table_up.
  - intros _. apply (demo_outside_ok true).
  - repeat constructor; try done; vm_compute; congruence.
  - repeat constructor.
  - assert (forall i, (i < 2)%nat -> match tb_tablets demo_written_table !! i with
      | Some (t, d) => (exists ms, LocalWAL.w_file (t_wal t) = LocalWAL.encode_all ms /\ Forall LocalWAL.wal_mutation_ok ms) /\
          bool_decide (o_FileFormat (t_opts (conditional_loop demo_formats (bucket cm_row (tb_splits demo_written_table) i demo_table_conditional).*2 [] [] t d).1) = FormatParquet) = true
      | None => False end) as H.
    { assert (forall i, Forall LocalWAL.wal_mutation_ok (bucket m_row [[77]] i demo_batch).*2) as Hb by (intros i; rewrite bucket_rows; apply Forall_of_filter, demo_batch_ok).
      intros [|[|i]] Hi; [| |lia].
      - split; [exists (bucket m_row [[77]] 0%nat demo_batch).*2; split; [vm_compute; reflexivity|apply Hb]|vm_compute; reflexivity].
      - split; [exists (bucket m_row [[77]] 1%nat demo_batch).*2; split; [vm_compute; reflexivity|apply Hb]|vm_compute; reflexivity]. }
    intros i t d Hi. assert (length (tb_tablets demo_written_table) = 2%nat) as Hl by (vm_compute; reflexivity).
    specialize (H i ltac:(rewrite <-Hl; by eapply lookup_lt_Some)). rewrite Hi in H. destruct H as [(ms & E & Hok) Hf].
    split; [exists ms; by split|]. intros t1 r Hloop. rewrite Hloop in Hf. by apply parquet_flushable.
Defined.

(** The directory is listed in any order, other entries among the tablets. *)
Definition demo_listing : tableDir :=
  mkTableDir (Table.td_json demo_created.1) ((str "notes", (demo_disk, [])) :: reverse (named 0 demo_dirs)) (demo_disk, []).


(** ** More tablets than names *)

(** From the ten-thousandth tablet on the names are not in order: the five
    digits of 10000 come before 1001's four. *)
Lemma tablet_names_misorder : Table.string_before (tablet_dir_name (Z.to_nat 10000)) (tablet_dir_name (Z.to_nat 1001)) = true.
Proof. vm_compute. reflexivity. Qed.

(** The process stops after the first tablet of two is made: the table never
    opens again.  Stopped before the manifest, it opens undivided. *)
Definition demo_interrupted (fate : Table.rename) (stop : option nat) : tableDir :=
  (Table.createTable demo_formats demo_Marshal_manifest demo_Unmarshal_manifest demo_MarshalTable demo_table_options LocalWAL.SyncFull fate stop
    demo_faults (fun _ => demo_outside true) (fun _ => true) (fun _ => demo_outside true) (mkTableDir None [] (demo_disk, []))).1.
Definition demo_reopen (dir : tableDir) : outcome table :=
  (Table.openTable demo_formats demo_Marshal_manifest demo_Unmarshal_manifest demo_UnmarshalTable LocalWAL.SyncFull 0 (fun _ => demo_outside true)
    (fun _ => true) (fun _ => demo_outside true) dir).2.

Lemma interrupted_creation_blocks_the_table :
  demo_reopen (demo_interrupted Table.Renamed (Some 1%nat)) = Failed (Fail "table: incomplete layout") false /\
  exists tb, demo_reopen (demo_interrupted Table.StoppedBefore None) = Done tb /\ tb_splits tb = [].
Proof. split; [vm_compute; reflexivity|]. eexists. split; vm_compute; reflexivity. Qed.
