(* ===== verification/Engine.v ===== *)
(** * Engine: the tables of an embedded engine (src/internal/engine/engine.go)

    The engine's directory has a directory per table, and a table's name is
    that of its entry.  Calls of one table take nothing of another's, and each
    is a step here; what a call takes from outside is an argument.  The cache,
    loggers, contexts and the event bus are absent. *)

From stdpp Require Import strings.
From S2P Require Import Prelude Wire GoStd Iter Merge Stack Mutation Memtable EmbeddingSpace.
From S2P Require LocalWAL.
From S2P Require Import RFileSource Store TabletFiles Images Tablet.
From S2P Require Table.
Import Iter.
Import Table (table, tableDir, mkTableDir, tb_tablets).

(** [atomic.Uint64]s: additions wrap. *)
Record engineCounters := mkCounters {
  ec_writes : Z;
  ec_mutations : Z;
  ec_cellsWritten : Z;
  ec_scans : Z;
  ec_flushes : Z;
  ec_compactions : Z;
}.

Definition zero_counters : engineCounters := mkCounters 0 0 0 0 0 0.

Definition count_write (mutations cells : Z) (c : engineCounters) : engineCounters :=
  mkCounters (uint64 (ec_writes c + 1)) (uint64 (ec_mutations c + mutations)) (uint64 (ec_cellsWritten c + cells)) (ec_scans c) (ec_flushes c) (ec_compactions c).
Definition count_scan (c : engineCounters) : engineCounters :=
  mkCounters (ec_writes c) (ec_mutations c) (ec_cellsWritten c) (uint64 (ec_scans c + 1)) (ec_flushes c) (ec_compactions c).
Definition count_flush (c : engineCounters) : engineCounters :=
  mkCounters (ec_writes c) (ec_mutations c) (ec_cellsWritten c) (ec_scans c) (uint64 (ec_flushes c + 1)) (ec_compactions c).
Definition count_compaction (c : engineCounters) : engineCounters :=
  mkCounters (ec_writes c) (ec_mutations c) (ec_cellsWritten c) (ec_scans c) (ec_flushes c) (uint64 (ec_compactions c + 1)).

(** [en_dirs]: the directory, whose open tables' tablets are with the tables. *)
Record Engine := mkEngine {
  en_tables : gmap bytes table;
  en_dirs : gmap bytes tableDir;
  en_walSyncMode : LocalWAL.SyncMode;
  en_tombstoneRetention : Z;
  en_metrics : engineCounters;
}.

Definition set_table (name : bytes) (tb : table) (dir : tableDir) (e : Engine) : Engine :=
  mkEngine (<[name := tb]> (en_tables e)) (<[name := dir]> (en_dirs e)) (en_walSyncMode e) (en_tombstoneRetention e) (en_metrics e).
Definition set_dir (name : bytes) (dir : tableDir) (e : Engine) : Engine :=
  mkEngine (en_tables e) (<[name := dir]> (en_dirs e)) (en_walSyncMode e) (en_tombstoneRetention e) (en_metrics e).
Definition set_metrics (c : engineCounters) (e : Engine) : Engine :=
  mkEngine (en_tables e) (en_dirs e) (en_walSyncMode e) (en_tombstoneRetention e) c.

(** A directory that [MkdirAll] just made. *)
Definition new_tableDir : tableDir := mkTableDir None [] (mkDisk ∅ [], []).
Definition dir_of (name : bytes) (e : Engine) : tableDir := default new_tableDir (en_dirs e !! name).

Definition not_found : err := Fail "engine: table not found".

(** A call of a table that may change it, and one that only reads. *)
Definition on_table {A} (name : bytes) (call : table -> tableDir -> table * tableDir * outcome A) (e : Engine) : Engine * outcome A :=
  match en_tables e !! name with
  | None => (e, Failed not_found false)
  | Some tb => let '(tb, dir, o) := call tb (dir_of name e) in (set_table name tb dir e, o)
  end.
Definition of_table {A} (name : bytes) (call : table -> result A) (e : Engine) : result A :=
  match en_tables e !! name with None => Err not_found | Some tb => call tb end.

Definition counting {A} (count : A -> engineCounters -> engineCounters) (r : Engine * outcome A) : Engine * outcome A :=
  match r with
  | (e, Done a) => (set_metrics (count a (en_metrics e)) e, Done a)
  | _ => r
  end.

(** The condition kinds the engine passes on. *)
Definition supported_kind (c : Condition) : bool := match cd_Kind c with ConditionUnsupported _ => false | _ => true end.

Definition total_size (ms : list Mutation) : Z := foldr (fun m n => Size m + n) 0 ms.

Section engine.
Context (F : Formats) (registryByName : gmap string iteratorRegistration).
Context (Marshal : immutableManifest -> result bytes) (Unmarshal : bytes -> result immutableManifest).
Context (MarshalTable : Table.tableManifest -> result bytes) (UnmarshalTable : bytes -> result Table.tableManifest).

(** ** Opening, creating and closing *)

(** One table after another, the rest also when one fails; the first error is
    returned. *)
Fixpoint close_tables (sync : bytes -> nat -> bool) (x : bytes -> nat -> Outside) (names : list bytes) (e : Engine) : Engine * outcome unit :=
  match names with
  | [] => (e, Done tt)
  | name :: names =>
      match en_tables e !! name with
      | None => close_tables sync x names e
      | Some tb =>
          let '(tb, o) := Table.close F Marshal (sync name) (x name) tb in
          let e := set_table name tb (Table.restore (tb_tablets tb) (dir_of name e)) e in
          match o with
          | Crashed => (e, Crashed)
          | _ =>
              let '(e, rest) := close_tables sync x names e in
              (e, match o, rest with
                  | Failed err c, Done _ | Failed err c, Failed _ _ => Failed (Wrap "engine: close table" err) c
                  | _, _ => rest
                  end)
          end
      end
  end.

(** [order]: the order the map of tables is ranged over. *)
Definition Close (order : list bytes) (sync : bytes -> nat -> bool) (x : bytes -> nat -> Outside) (e : Engine) : Engine * outcome unit :=
  close_tables sync x order e.

(** The options of an engine. *)
Record Options := mkOptions { op_WALSyncMode : LocalWAL.SyncMode; op_TombstoneRetention : Z }.

(** The tables by name, as [os.ReadDir] lists them; [order] is that of the
    closing where one of them fails to open. *)
Fixpoint open_tables (order : list bytes) (sync : bytes -> nat -> bool) (x y : bytes -> nat -> Outside) (names : list bytes) (e : Engine)
  : Engine * outcome unit :=
  match names with
  | [] => (e, Done tt)
  | name :: names =>
      match Table.openTable F Marshal Unmarshal UnmarshalTable (en_walSyncMode e) (en_tombstoneRetention e) (x name) (sync name) (y name) (dir_of name e) with
      | (dir, Done tb) => open_tables order sync x y names (set_table name tb dir e)
      | (dir, Crashed) => (set_dir name dir e, Crashed)
      | (dir, Failed err c) =>
          let '(e, o) := Close order sync y (set_dir name dir e) in
          (e, match o with Crashed => Crashed | _ => Failed (Wrap "engine: open table" err) c end)
      end
  end.

Definition table_names {A} (m : gmap bytes A) : list bytes := SliceStable Table.string_before (map_to_list m).*1.

Definition Open (opts : Options) (order : list bytes) (sync : bytes -> nat -> bool) (x y : bytes -> nat -> Outside) (dirs : gmap bytes tableDir)
  : Engine * outcome unit :=
  open_tables order sync x y (table_names dirs) (mkEngine ∅ dirs (op_WALSyncMode opts) (op_TombstoneRetention opts) zero_counters).

(** [mode]: the table's own sync mode, which yields to the engine's where it
    is the zero value; so does its retention. *)
Definition table_mode (mode : LocalWAL.SyncMode) (e : Engine) : LocalWAL.SyncMode :=
  match mode with LocalWAL.SyncFull => en_walSyncMode e | _ => mode end.
Definition table_options (opts : Table.TableOptions) (e : Engine) : Table.TableOptions :=
  if Table.to_TombstoneRetention opts =? 0
  then Table.mkTableOptions (Table.to_Splits opts) (Table.to_Workload opts) (Table.to_FileFormat opts) (Table.to_TabletFormat opts) (Table.to_Target opts)
         (Table.to_DefaultEmbedding opts) (Table.to_TabletEmbedding opts) (Table.to_FlushThreshold opts) (Table.to_AdjacencyEdgeCF opts) (en_tombstoneRetention e)
  else opts.

Definition CreateTable (name : bytes) (opts : Table.TableOptions) (mode : LocalWAL.SyncMode) (fate : Table.rename) (stop : option nat)
    (fs : nat -> list fault) (x : nat -> Outside) (sync : nat -> bool) (y : nat -> Outside) (e : Engine) : Engine * outcome unit :=
  match en_tables e !! name with
  | Some _ => (e, Failed (Fail "engine: table already exists") false)
  | None =>
      match Table.createTable F Marshal Unmarshal MarshalTable (table_options opts e) (table_mode mode e) fate stop fs x sync y (dir_of name e) with
      | (dir, Done tb) => (set_table name tb dir e, Done tt)
      | (dir, Failed err c) => (set_dir name dir e, Failed err c)
      | (dir, Crashed) => (set_dir name dir e, Crashed)
      end
  end.

(** ** Writes *)

Definition keeping {A} (call : table -> table * outcome A) (tb : table) (dir : tableDir) : table * tableDir * outcome A :=
  let '(tb, o) := call tb in (tb, dir, o).

Definition Write (name : bytes) (mutations : list Mutation) (file : nat -> LocalWAL.write_outcome) (sync : nat -> bool) (x : nat -> Outside) (e : Engine)
  : Engine * outcome unit :=
  counting (fun _ => count_write (len mutations) (total_size mutations))
    (on_table name (keeping (Table.write F Marshal mutations file sync x)) e).

(** The mutations that were accepted. *)
Definition accepted (mutations : list ConditionalMutation) (results : list bool) : list Mutation :=
  (fun p : ConditionalMutation * bool => cm_Mutation p.1) <$> filter (fun p : ConditionalMutation * bool => p.2 = true) (zip mutations results).

Definition ConditionalWrite (name : bytes) (mutations : list ConditionalMutation) (logs : nat -> list (LocalWAL.write_outcome * bool))
    (x : nat -> Outside) (e : Engine) : Engine * outcome (list bool) :=
  if negb (forallb (fun m => forallb supported_kind (cm_Conditions m)) mutations)
  then (e, Failed (Fail "engine: conditional mutation condition has unsupported kind") false)
  else
    counting (fun results => count_write (len (accepted mutations results)) (total_size (accepted mutations results)))
      (on_table name (keeping (Table.conditionalWrite F Marshal mutations logs x)) e).

(** ** Reads *)

Definition Scan (arrival : list nat) (name : bytes) (r : Range) (opts : Table.ScanOptions) (e : Engine) : Engine * result Table.Scanner :=
  match en_tables e !! name with
  | None => (e, Err not_found)
  | Some tb => (set_metrics (count_scan (en_metrics e)) e, Table.scan F registryByName arrival r opts tb)
  end.

Definition ScanHosted (name : bytes) (r : Range) (opts : Table.ScanOptions) (topStack : list IterSpec) (e : Engine) : Engine * result Iterator :=
  match en_tables e !! name with
  | None => (e, Err not_found)
  | Some tb => (set_metrics (count_scan (en_metrics e)) e, Table.scanHosted F registryByName r opts topStack tb)
  end.

Definition LookupRows (name : bytes) (rows : list bytes) (opts : Table.ScanOptions) (e : Engine) : list (nat * Cell) * option err :=
  match en_tables e !! name with
  | None => ([], Some not_found)
  | Some tb => Table.lookupRows F registryByName rows opts tb
  end.

Definition Neighbors (name : bytes) (rows : list bytes) (edgeCF : bytes) (opts : Table.ScanOptions) : Engine -> result (list (list Table.Neighbor)) :=
  of_table name (Table.neighbors F rows edgeCF opts).

(** ** Maintenance *)

Definition Flush (name : bytes) (x : nat -> Outside) (e : Engine) : Engine * outcome unit :=
  counting (fun _ => count_flush) (on_table name (keeping (Table.flush F Marshal x)) e).

Definition Compact (name : bytes) (x : nat -> Outside) (stack : list IterSpec) (e : Engine) : Engine * outcome unit :=
  counting (fun _ => count_compaction) (on_table name (keeping (Table.compactLocked F registryByName Marshal x stack)) e).

Definition SetTableStorageFormat (name : bytes) (format : bytes) (fate : Table.rename) (e : Engine) : Engine * outcome unit :=
  match Table.ParseStorageFormat format with
  | Err err => (e, Failed err false)
  | Ok parsed => on_table name (Table.setFileFormatLocked MarshalTable parsed fate) e
  end.

Definition SetTableTargetEmbeddingSpace (name identity : bytes) (fate : Table.rename) : Engine -> Engine * outcome unit :=
  on_table name (Table.setTargetEmbedding MarshalTable identity fate).

Definition TableTargetEmbeddingSpace (name : bytes) : Engine -> result bytes := of_table name (fun tb => Ok (Table.tb_target tb)).

Definition SetTableDefaultEmbedding (name : bytes) (state : FileState) (fate : Table.rename) : Engine -> Engine * outcome unit :=
  on_table name (Table.setDefaultEmbedding MarshalTable state fate).

Definition MigrateTableStorageFormat (name format : bytes) (stack : list IterSpec) (fate : Table.rename) (x y : nat -> Outside) (e : Engine)
  : Engine * outcome unit :=
  match Table.ParseStorageFormat format with
  | Err err => (e, Failed err false)
  | Ok parsed =>
      counting (fun _ c => count_compaction (count_flush c))
        (on_table name (Table.migrate F registryByName Marshal MarshalTable parsed stack fate x y) e)
  end.

(** ** Reports *)

Definition TableEmbeddingStateSnapshot (name : bytes) : Engine -> result (list (bytes * FileState) * Z * FileState) :=
  of_table name (Table.embeddingStateSnapshotLocked F).

Definition ValidateExactVectorSpace (name queryIdentity : bytes) (e : Engine) : option err :=
  match TableEmbeddingStateSnapshot name e with
  | Err err => Some err
  | Ok (files, unflushed, defaultEmbedding) =>
      match ValidateQueryStates queryIdentity [] with
      | Some err => Some err
      | None =>
          match (if unflushed >? 0 then ValidateQueryStates queryIdentity [defaultEmbedding] else None) with
          | Some err => Some err
          | None => Table.check_files queryIdentity files
          end
      end
  end.

Record StoragePolicy := mkPolicy {
  sp_Workload : bytes;
  sp_WriteFormat : bytes;
  sp_ReadFormats : list bytes;
  sp_Mixed : bool;
  sp_Role : bytes;
}.

(** The formats of a table's files, in the order of their names. *)
Definition read_formats (files : list bytes) : list bytes :=
  filter (fun f => existsb (fun path => bool_decide (Table.format_name (fileFormat path) = f)) files = true) [str "parquet"; str "rfile"].

Definition TableStoragePolicy (name : bytes) : Engine -> result StoragePolicy :=
  of_table name (fun tb =>
    let formats := read_formats (concat ((fun td => RFiles td.1) <$> tb_tablets tb)) in
    Ok (mkPolicy (match Table.tb_format tb with FormatParquet => str "analytical" | FormatRFile => str "operational" end)
          (Table.format_name (Table.tb_format tb)) formats (len formats >? 1) (str "authoritative"))).

Definition TableNames (e : Engine) : list bytes := table_names (en_tables e).

Record TableStat := mkStat { ts_Name : bytes; ts_Tablets : Z; ts_RFiles : Z }.

Definition table_stat (name : bytes) (tb : table) : TableStat :=
  mkStat name (len (tb_tablets tb)) (foldr (fun td n => len (RFiles td.1) + n) 0 (tb_tablets tb)).

Definition Stats (e : Engine) : list TableStat := omap (fun name => table_stat name <$> en_tables e !! name) (TableNames e).
End engine.
