(* ===== verification/EngineLife.v ===== *)
(** * EngineLife: an engine against the histories of its tables *)

From stdpp Require Import strings.
From S2P Require Import Prelude Wire GoStd VisFilter Iter IterStack IterLaws Reads History Stack Mutation Memtable EmbeddingSpace.
From S2P Require LocalWAL.
From S2P Require Import RFileSource Store TabletFiles Images Compaction Tablet TabletOk TabletLife.
From S2P Require Table Engine.
From S2P Require Import TableOk TableLife.
Import Iter.
Import Table (table, tableDir, tb_tablets, tb_splits, bucket, cm_row, tabletDirs).
Import Engine (Engine, en_tables, en_dirs, on_table).

(** The cells written to each table, in order. *)
Abbreviation histories := (gmap bytes (list Cell)).
Definition history_of (h : histories) (name : bytes) : list Cell := default [] (h !! name).

Lemma history_insert h name hist n : history_of (<[name := hist]> h) n = if decide (n = name) then hist else history_of h n.
Proof. unfold history_of. case_decide as E; [subst; by rewrite lookup_insert_eq|by rewrite lookup_insert_ne]. Qed.

(** A table's new history, if there is such a table. *)
Definition write_to (name : bytes) (hist : list Cell) (e : Engine) (h : histories) : histories :=
  match en_tables e !! name with Some _ => <[name := hist]> h | None => h end.

Section engine.
Context (F : Formats) (registryByName : gmap string iteratorRegistration).
Context (Marshal : immutableManifest -> result bytes) (Unmarshal : bytes -> result immutableManifest).
Context (MarshalTable : Table.tableManifest -> result bytes) (UnmarshalTable : bytes -> result Table.tableManifest).
Context (HF : formats_ok F) (Hreg : registry_ok registryByName) (Hjson : json_manifest_ok Marshal Unmarshal).
Abbreviation flushable := (TabletOk.flushable F).
Abbreviation tablets_ready e name P := (forall tb, en_tables e !! name = Some tb -> forall i t d, tb_tablets tb !! i = Some (t, d) -> P tb i t d).
Abbreviation stops splits := (table_step F Marshal Unmarshal MarshalTable UnmarshalTable splits).

(** The calls an engine returns from, whatever the names they are given, and
    the process stopping and the engine being opened again. *)
Inductive engine_step : Engine * histories -> Engine * histories -> Prop :=
| estep_create e h name opts fate stop fs x sync y e' :
    (forall i, outside_ok (x i)) -> (forall i, Forall (fun f => f <> WrittenUnmarked) (fs i)) -> len (Table.to_Splits opts) < 10000 ->
    Engine.en_walSyncMode e = LocalWAL.SyncFull -> en_dirs e !! name = None ->
    Engine.CreateTable F Marshal Unmarshal MarshalTable name opts LocalWAL.SyncFull fate stop fs x sync y e = (e', Done tt) ->
    engine_step (e, h) (e', <[name := []]> h)
| estep_write e h name ms x e' o :
    (forall i, outside_ok (x i)) -> Forall LocalWAL.wal_mutation_ok ms ->
    tablets_ready e name (fun tb i t d => clean t /\ flushable (ingest (bucket m_row (tb_splits tb) i ms).*2 t)) ->
    Engine.Write F Marshal name ms (fun _ => LocalWAL.WriteAll) (fun _ => true) x e = (e', o) -> o <> Crashed ->
    engine_step (e, h) (e', write_to name (history_of h name ++ log_cells ms) e h)
| estep_conditional e h name cms x e' o hist' rs :
    (forall i, outside_ok (x i)) -> Forall LocalWAL.wal_mutation_ok (cm_Mutation <$> cms) ->
    tablets_ready e name (fun tb i t d => clean t /\ forall t1 r,
      conditional_loop F (bucket cm_row (tb_splits tb) i cms).*2 [] [] t d = (t1, r) -> flushable t1) ->
    Engine.ConditionalWrite F Marshal name cms (fun _ => []) x e = (e', o) -> o <> Crashed ->
    forallb (fun m => forallb Engine.supported_kind (cm_Conditions m)) cms = true -> conditional_spec cms (history_of h name) = (hist', Ok rs) ->
    engine_step (e, h) (e', write_to name hist' e h)
| estep_flush e h name x e' o :
    (forall i, outside_ok (x i)) -> tablets_ready e name (fun _ _ t _ => flushable t) ->
    Engine.Flush F Marshal name x e = (e', o) -> o <> Crashed -> engine_step (e, h) (e', h)
| estep_format e h name format fate e' o :
    Engine.SetTableStorageFormat MarshalTable name format fate e = (e', o) -> o <> Crashed -> engine_step (e, h) (e', h)
| estep_scan arrival e h name r opts e' sc :
    Engine.Scan F registryByName arrival name r opts e = (e', sc) -> engine_step (e, h) (e', h)
| estep_restart e h opts order sync x y dirs h' e' :
    (forall name i, outside_ok (x name i)) -> Engine.op_WALSyncMode opts = LocalWAL.SyncFull ->
    dom dirs = dom (en_tables e) ->
    (forall name tb dir, en_tables e !! name = Some tb -> dirs !! name = Some dir ->
      stops (tb_splits tb) (TUp tb, history_of h name) (TDown (tabletDirs dir), history_of h' name)) ->
    Engine.Open F Marshal Unmarshal UnmarshalTable opts order sync x y dirs = (e', Done tt) ->
    (forall name tb tb', en_tables e !! name = Some tb -> en_tables e' !! name = Some tb' -> tb_splits tb' = tb_splits tb) ->
    engine_step (e, h) (e', h').

Definition engine_reachable (opts : Engine.Options) : Engine * histories -> Prop :=
  rtc engine_step (Engine.mkEngine ∅ ∅ (Engine.op_WALSyncMode opts) (Engine.op_TombstoneRetention opts) Engine.zero_counters, ∅).

(** Every table is one that its own history can have reached. *)
Definition tables_ok (s : Engine * histories) : Prop :=
  forall name tb, en_tables s.1 !! name = Some tb ->
    exists fss, Forall (Forall (fun f => f <> WrittenUnmarked)) fss /\ (length (tb_splits tb) < length fss)%nat /\
      table_reachable F Marshal Unmarshal MarshalTable UnmarshalTable (tb_splits tb) fss (TUp tb, history_of s.2 name).

Lemma tables_ok_metrics e h c : tables_ok (e, h) -> tables_ok (Engine.set_metrics c e, h).
Proof. done. Qed.

(** A call on one table that is a step of it. *)
Lemma on_table_ok {A} name (call : table -> tableDir -> table * tableDir * outcome A) e h hist e' o :
  (forall tb tb' dir', en_tables e !! name = Some tb -> call tb (Engine.dir_of name e) = (tb', dir', o) ->
    stops (tb_splits tb) (TUp tb, history_of h name) (TUp tb', hist)) ->
  tables_ok (e, h) -> on_table name call e = (e', o) ->
  tables_ok (e', write_to name hist e h).
Proof.
  intros Hcall Hok. unfold on_table, write_to. destruct (en_tables e !! name) as [tb|] eqn:En; [|by intros [= <- _]].
  destruct (call tb (Engine.dir_of name e)) as [[tb' dir'] o'] eqn:Ec. intros [= <- ->].
  pose proof (Hcall tb tb' dir' eq_refl Ec) as Hst. intros n tbn. cbn [fst snd Engine.set_table Engine.en_tables]. rewrite history_insert.
  case_decide as E.
  - subst n. rewrite lookup_insert_eq. intros [= <-]. destruct (Hok name tb En) as (fss & H1 & H2 & H3). exists fss.
    pose proof (rtc_r _ _ _ H3 Hst) as H4.
    destruct (table_reachable_up F Marshal Unmarshal MarshalTable UnmarshalTable HF Hjson _ _ _ _ H1 H2 H4) as [-> _]. done.
  - rewrite lookup_insert_ne by done. intros Hn. by apply (Hok n tbn).
Qed.

Lemma tables_ok_same e e' h name : tables_ok (e', write_to name (history_of h name) e h) -> tables_ok (e', h).
Proof.
  unfold write_to. destruct (en_tables e !! name); [|done]. intros H n tb Hn. destruct (H n tb Hn) as (fss & H1 & H2 & H3). exists fss.
  cbn [snd] in *. rewrite history_insert in H3. by case_decide as E; [subst|].
Qed.

Lemma counting_ok {A} (count : A -> Engine.engineCounters -> Engine.engineCounters) r e' o h :
  Engine.counting count r = (e', o) -> tables_ok (r.1, h) -> tables_ok (e', h) /\ r.2 = o.
Proof. destruct r as [e [a| |]]; by intros [= <- <-]. Qed.
(** ** The steps *)

Lemma create_ok e h name opts fate stop fs x sync y e' :
  (forall i, outside_ok (x i)) -> (forall i, Forall (fun f => f <> WrittenUnmarked) (fs i)) -> len (Table.to_Splits opts) < 10000 ->
  Engine.en_walSyncMode e = LocalWAL.SyncFull -> en_dirs e !! name = None ->
  Engine.CreateTable F Marshal Unmarshal MarshalTable name opts LocalWAL.SyncFull fate stop fs x sync y e = (e', Done tt) ->
  tables_ok (e, h) -> tables_ok (e', <[name := []]> h).
Proof.
  intros Hx Hfs Hlen Hmode Hd HC Hok. unfold Engine.CreateTable in HC. destruct (en_tables e !! name); [done|].
  unfold Engine.table_mode in HC. rewrite Hmode in HC. unfold Engine.dir_of in HC. rewrite Hd in HC.
  destruct (Table.createTable _ _ _ _ _ _ _ _ _ _ _ _ _) as [dir [tb| |]] eqn:Ec; [|done..]. injection HC as <-.
  intros n tbn. cbn [fst snd Engine.set_table Engine.en_tables]. rewrite history_insert. case_decide as E.
  2: { rewrite lookup_insert_ne by done. intros Hn. by apply (Hok n tbn). }
  subst n. rewrite lookup_insert_eq. intros [= <-]. exists (fs <$> seq 0 (S (length (tb_splits tb)))).
  split; [apply Forall_fmap, Forall_true; intros i; apply Hfs|]. split; [rewrite length_fmap, length_seq; lia|].
  apply rtc_once. rewrite <-list_fmap_compose. change ((fun fs => (mkDisk ∅ fs, [])) ∘ fs) with (new_dir fs).
  eapply tstep_create; [exact Hx| |exact Ec|done]. unfold Engine.table_options. by destruct (_ =? 0).
Qed.

Lemma keeping_eq {A} (call : table -> table * outcome A) tb dir tb' dir' o : Engine.keeping call tb dir = (tb', dir', o) -> call tb = (tb', o).
Proof. unfold Engine.keeping. destruct (call tb). by intros [= <- _ <-]. Qed.

Lemma counted_ok {A} (count : A -> Engine.engineCounters -> Engine.engineCounters) name (call : table -> table * outcome A) e h hist e' o :
  Engine.counting count (on_table name (Engine.keeping call) e) = (e', o) -> tables_ok (e, h) ->
  (forall tb tb', en_tables e !! name = Some tb -> call tb = (tb', o) ->
    stops (tb_splits tb) (TUp tb, history_of h name) (TUp tb', hist)) ->
  tables_ok (e', write_to name hist e h).
Proof.
  intros HC He Hcall. destruct (on_table name (Engine.keeping call) e) as [e1 o1] eqn:Eo.
  assert (tables_ok (e1, write_to name hist e h) /\ o1 = o -> tables_ok (e', write_to name hist e h)) as H by (intros [H _]; by apply (counting_ok count (e1, o1) e' o)).
  assert (o1 = o) as -> by (destruct o1; by injection HC as _ <-). apply H. split; [|done].
  apply (on_table_ok name (Engine.keeping call) e h hist e1 o); [|done..]. intros tb tb' dir' Hn Hc%keeping_eq. by apply Hcall.
Qed.

Lemma write_ok e h name ms x e' o :
  (forall i, outside_ok (x i)) -> Forall LocalWAL.wal_mutation_ok ms ->
  tablets_ready e name (fun tb i t d => clean t /\ flushable (ingest (bucket m_row (tb_splits tb) i ms).*2 t)) ->
  Engine.Write F Marshal name ms (fun _ => LocalWAL.WriteAll) (fun _ => true) x e = (e', o) -> o <> Crashed ->
  tables_ok (e, h) -> tables_ok (e', write_to name (history_of h name ++ log_cells ms) e h).
Proof.
  intros Hx Hok Hr HW Ho He. eapply counted_ok; [exact HW|exact He|]. intros tb tb' Hn Hc.
  eapply tstep_write; [exact Hx|exact Hok|by apply Hr|exact Hc|exact Ho].
Qed.

Lemma conditional_ok e h name cms x e' o hist' rs :
  (forall i, outside_ok (x i)) -> Forall LocalWAL.wal_mutation_ok (cm_Mutation <$> cms) ->
  tablets_ready e name (fun tb i t d => clean t /\ forall t1 r,
    conditional_loop F (bucket cm_row (tb_splits tb) i cms).*2 [] [] t d = (t1, r) -> flushable t1) ->
  Engine.ConditionalWrite F Marshal name cms (fun _ => []) x e = (e', o) -> o <> Crashed ->
  forallb (fun m => forallb Engine.supported_kind (cm_Conditions m)) cms = true -> conditional_spec cms (history_of h name) = (hist', Ok rs) ->
  tables_ok (e, h) -> tables_ok (e', write_to name hist' e h).
Proof.
  intros Hx Hok Hr HC Ho Hk Hspec He. unfold Engine.ConditionalWrite in HC. rewrite Hk in HC. cbn [negb] in HC.
  eapply counted_ok; [exact HC|exact He|]. intros tb tb' Hn Hc.
  eapply tstep_conditional; [exact Hx|exact Hok|by apply Hr|exact Hc|exact Ho|exact Hspec].
Qed.

Lemma flush_ok e h name x e' o :
  (forall i, outside_ok (x i)) -> tablets_ready e name (fun _ _ t _ => flushable t) ->
  Engine.Flush F Marshal name x e = (e', o) -> o <> Crashed -> tables_ok (e, h) -> tables_ok (e', h).
Proof.
  intros Hx Hr HC Ho He. apply (tables_ok_same e e' h name). eapply counted_ok; [exact HC|exact He|]. intros tb tb' Hn Hc.
  eapply tstep_flush; [exact Hx|by apply Hr|exact Hc|exact Ho].
Qed.

Lemma format_ok e h name format fate e' o :
  Engine.SetTableStorageFormat MarshalTable name format fate e = (e', o) -> o <> Crashed -> tables_ok (e, h) -> tables_ok (e', h).
Proof.
  unfold Engine.SetTableStorageFormat. destruct (Table.ParseStorageFormat format) as [parsed|]; [|by intros [= <- _]]. intros HC Ho He.
  apply (tables_ok_same e e' h name). eapply on_table_ok; [|exact He|exact HC]. intros tb tb' dir' Hn Hc. by eapply tstep_format.
Qed.

(** ** Opening *)

Lemma open_tables_ok order sync x y names e0 e1 :
  NoDup names -> Engine.open_tables F Marshal Unmarshal UnmarshalTable order sync x y names e0 = (e1, Done tt) ->
  dom (en_tables e1) = dom (en_tables e0) ∪ list_to_set names /\
  forall name tb, en_tables e1 !! name = Some tb -> ((name ∉ names) /\ en_tables e0 !! name = Some tb) \/ ((name ∈ names) /\ exists dir',
    Table.openTable F Marshal Unmarshal UnmarshalTable (Engine.en_walSyncMode e0) (Engine.en_tombstoneRetention e0) (x name) (sync name) (y name)
      (Engine.dir_of name e0) = (dir', Done tb)).
Proof.
  intros Hnd. revert e0. induction Hnd as [|name names Hn _ IH]; intros e0; cbn [Engine.open_tables].
  { intros [= <-]. cbn [list_to_set]. rewrite (right_id_L ∅ (∪)). split; [done|]. intros n tb Ht. left. split; [apply not_elem_of_nil|done]. }
  destruct (Table.openTable _ _ _ _ _ _ _ _ _ _) as [dir [tb0|err c|]] eqn:Eo; [|by destruct (Engine.Close _ _ _ _ _ _) as [? []]|done].
  intros H. destruct (IH _ H) as [Hdom Hall]. split.
  { rewrite Hdom. cbn [Engine.set_table Engine.en_tables list_to_set]. rewrite dom_insert_L, (assoc_L (∪)). f_equal. apply (comm_L (∪)). }
  intros n tb Ht. destruct (Hall n tb Ht) as [[Hnn H0]|[Hnn [dir' H0]]].
  - cbn [Engine.set_table Engine.en_tables] in H0. destruct (decide (n = name)) as [->|Hne].
    + rewrite lookup_insert_eq in H0. injection H0 as ->. right. split; [by left|]. by exists dir.
    + rewrite lookup_insert_ne in H0 by done. left. split; [by apply not_elem_of_cons|done].
  - right. split; [by right|]. exists dir'. unfold Engine.dir_of in H0 |- *. cbn [Engine.set_table Engine.en_dirs Engine.en_walSyncMode Engine.en_tombstoneRetention] in H0.
    rewrite lookup_insert_ne in H0; [exact H0|]. intros ->. done.
Qed.

Lemma table_names_ok {A} (m : gmap bytes A) : NoDup (Engine.table_names m) /\ list_to_set (C := gset bytes) (Engine.table_names m) = dom m.
Proof.
  assert (Engine.table_names m ≡ₚ (map_to_list m).*1) as Hp by apply SliceStable_perm. split.
  - rewrite Hp. apply NoDup_fst_map_to_list.
  - rewrite Hp. apply set_eq. intros k. rewrite elem_of_list_to_set, elem_of_dom. split.
    + intros ([k' v] & -> & Hk%elem_of_map_to_list)%list_elem_of_fmap. by exists v.
    + intros [v Hv]. apply list_elem_of_fmap. exists (k, v). split; [done|]. by apply elem_of_map_to_list.
Qed.

Lemma restart_ok e h opts order sync x y dirs h' e' :
  (forall name i, outside_ok (x name i)) -> Engine.op_WALSyncMode opts = LocalWAL.SyncFull -> dom dirs = dom (en_tables e) ->
  (forall name tb dir, en_tables e !! name = Some tb -> dirs !! name = Some dir ->
    stops (tb_splits tb) (TUp tb, history_of h name) (TDown (tabletDirs dir), history_of h' name)) ->
  Engine.Open F Marshal Unmarshal UnmarshalTable opts order sync x y dirs = (e', Done tt) ->
  (forall name tb tb', en_tables e !! name = Some tb -> en_tables e' !! name = Some tb' -> tb_splits tb' = tb_splits tb) ->
  tables_ok (e, h) -> tables_ok (e', h').
Proof.
  intros Hx Hmode Hdom Hstop HO Hsp He n tb' Hn. cbn [fst snd] in *. destruct (table_names_ok dirs) as [Hnd Hset].
  destruct (open_tables_ok _ _ _ _ _ _ _ Hnd HO) as [_ Hall]. destruct (Hall n tb' Hn) as [[_ Hbad]|[Hin [dir' Ho]]].
  { cbn [Engine.en_tables] in Hbad. by rewrite lookup_empty in Hbad. }
  apply (elem_of_list_to_set (C := gset bytes)) in Hin. rewrite Hset in Hin. pose proof Hin as Hin'. rewrite Hdom in Hin'.
  apply elem_of_dom in Hin as [dir Hdir]. apply elem_of_dom in Hin' as [tb Htb].
  unfold Engine.dir_of in Ho. cbn [Engine.en_dirs Engine.en_walSyncMode Engine.en_tombstoneRetention] in Ho. rewrite Hdir, Hmode in Ho. cbn [default] in Ho.
  pose proof (Hsp n tb tb' Htb Hn) as Es. destruct (He n tb Htb) as (fss & H1 & H2 & H3). exists fss. rewrite Es. split; [done|]. split; [done|].
  eapply rtc_r; [eapply rtc_r; [exact H3|by apply (Hstop n tb dir)]|]. eapply tstep_open; [apply Hx|exact Ho|exact Es].
Qed.

Lemma engine_step_ok s s' : engine_step s s' -> tables_ok s -> tables_ok s'.
Proof.
  destruct 1; intros He.
  - by eapply create_ok.
  - by eapply write_ok.
  - by eapply conditional_ok.
  - by eapply flush_ok.
  - by eapply format_ok.
  - unfold Engine.Scan in H. destruct (en_tables e !! name); by injection H as <- _.
  - by eapply restart_ok.
Qed.

End engine.

(** ** Witness: two tables, a batch written to one of them. *)

Definition demo_engine_options : Engine.Options := Engine.mkOptions LocalWAL.SyncFull 0.
Definition demo_engine : Engine := Engine.mkEngine ∅ ∅ LocalWAL.SyncFull 0 Engine.zero_counters.
Definition demo_create (name : bytes) (e : Engine) : Engine * outcome unit :=
  Engine.CreateTable demo_formats demo_Marshal_manifest demo_Unmarshal_manifest demo_MarshalTable name demo_table_options LocalWAL.SyncFull Table.Renamed None
    demo_faults (fun _ => demo_outside true) (fun _ => true) (fun _ => demo_outside true) e.
Definition demo_tables : Engine := (demo_create [98] (demo_create [97] demo_engine).1).1.
Definition demo_engine_write : Engine * outcome unit :=
  Engine.Write demo_formats demo_Marshal_manifest [97] demo_batch (fun _ => LocalWAL.WriteAll) (fun _ => true) (fun _ => demo_outside true) demo_tables.
Definition demo_histories : histories := <[[97] := [] ++ log_cells demo_batch]> (<[[98] := []]> (<[[97] := []]> ∅)).

Abbreviation demo_engine_reachable :=
  (engine_reachable demo_formats base_registry demo_Marshal_manifest demo_Unmarshal_manifest demo_MarshalTable demo_UnmarshalTable demo_engine_options).

Lemma demo_create_step name e h :
  Engine.en_walSyncMode e = LocalWAL.SyncFull -> en_dirs e !! name = None -> (demo_create name e).2 = Done tt ->
  demo_engine_reachable (e, h) -> demo_engine_reachable ((demo_create name e).1, <[name := []]> h).
Proof.
  intros Hm Hd Ho Hr. eapply rtc_r; [exact Hr|].
  apply (estep_create _ _ _ _ _ _ e h name demo_table_options Table.Renamed None demo_faults (fun _ => demo_outside true) (fun _ => true) (fun _ => demo_outside true));
    [intros i; apply (demo_outside_ok true)|intros i; constructor|vm_compute; reflexivity|exact Hm|exact Hd|].
  fold (demo_create name e). by rewrite (surjective_pairing (demo_create name e)), Ho at 1.
Qed.

Lemma demo_engine_up : demo_engine_reachable (demo_engine_write.1, demo_histories).
Proof.
  assert (demo_engine_reachable (demo_tables, <[[98] := []]> (<[[97] := []]> ∅))) as H.
  { apply demo_create_step; [vm_compute; reflexivity..|]. apply demo_create_step; [vm_compute; reflexivity..|]. apply rtc_refl. }
  eapply rtc_r; [exact H|].
  assert (en_tables demo_tables !! [97] = Some demo_table) as Ht by (vm_compute; reflexivity).
  assert (demo_histories = write_to [97] (history_of (<[[98] := []]> (<[[97] := []]> ∅)) [97] ++ log_cells demo_batch) demo_tables (<[[98] := []]> (<[[97] := []]> ∅))) as ->.
  { unfold write_to. by rewrite Ht. }
  eapply estep_write; [intros i; apply (demo_outside_ok true)|exact demo_batch_ok| |apply surjective_pairing|vm_compute; discriminate].
  intros tb Htb. rewrite Ht in Htb. injection Htb as <-. exact demo_table_ready.
Qed.

