(* ===== verification/LogFile.v ===== *)
(** * LogFile: decoding a write-ahead log segment (src/internal/qwal/logfile.go)

    The tablet server's log format: a header, then entries of a key and a
    value that carries mutations.  The decoder reads a stream of bytes that
    ends; a mutation's column updates are decoded from the block of bytes the
    record carries.  [make] of a length no slice can have panics. *)

From stdpp Require Import strings.
From S2P Require Import Prelude Wire GoStd Iter Mutation.
From S2P Require Memtable EmbeddingSpace.
Import Memtable (LogEvent, EventOpen, EventDefineTablet, EventMutation, EventManyMutations, EventCompactionStart, EventCompactionFinish).

Definition logFileHeaderV4 : bytes := EmbeddingSpace.str "--- Log File Header (v4) ---".
Definition logFileHeaderV3 : bytes := EmbeddingSpace.str "--- Log File Header (v3) ---".
Definition logEventCount : Z := 6.
Definition logFileKeyVersion : Z := 2.
Definition maxMutationsPerRecord : Z := 1000000.

Definition ErrEncryptedWAL : err := Fail "qwal: WAL segment is encrypted; decryption is out of scope for W0".
Definition ErrHeaderIncomplete : err := Fail "qwal: WAL header incomplete (writer died before header flush)".

Record KeyExtent := mkExtent { TableID : bytes; EndRow : option bytes; PrevEndRow : option bytes }.

Record LogFileKey := mkLogFileKey {
  lk_Event : LogEvent;
  lk_TabletID : Z;
  lk_Seq : Z;
  TServerSession : bytes;
  Filename : bytes;
  lk_Tablet : option KeyExtent;
}.

(** The value is the list of its mutations. *)
Record Entry := mkEntry { en_Key : LogFileKey; en_Value : list Mutation }.

(** ** Primitives *)

Definition readU8 : reader Z := ReadByte.
Definition readBool : reader bool := b ← ReadByte; mret (negb (b =? 0)).
Definition readInt32 : reader Z := buf ← ReadFull 4; mret (int32 (be_get buf)).
Definition readInt64 : reader Z := buf ← ReadFull 8; mret (int64 (be_get buf)).

Definition readUTF : reader bytes :=
  lenBuf ← ReadFull 2;
  let n := be_get lenBuf in
  if n =? 0 then mret [] else ReadFull n.

Definition readVInt : reader Z := '(v, _) ← ReadVInt; mret v.
Definition readVLong : reader Z := '(v, _) ← ReadVLong; mret v.

Definition readText : reader bytes :=
  n ← readVInt;
  if n <? 0 then rfail (Fail "qwal: negative Text length")
  else if n =? 0 then mret [] else ReadFull n.

(** The longest slice of bytes the runtime makes (on amd64). *)
Definition maxAlloc : Z := 2 ^ 48.
Definition make_bytes (n : Z) : reader unit :=
  if (n <? 0) || (n >? maxAlloc) then rfail (Fail "panic: makeslice: len out of range") else mret tt.

Definition readVBytes : reader bytes :=
  n ← readVLong;
  if n <? 0 then rfail (Fail "qwal: negative vbytes length")
  else if n =? 0 then mret []
  else make_bytes n;; ReadFull n.

(** ** The header *)

Definition header_error (msg : string) (e : err) : err := if eof_like e then ErrHeaderIncomplete else Wrap msg e.

Definition rcatch {A} (f : err -> err) (p : reader A) : reader A := fun s => match p s with Ok r => Ok r | Err e => Err (f e) end.

Definition readHeader : reader unit :=
  magic ← rcatch (header_error "qwal: read WAL magic") (ReadFull (len logFileHeaderV4));
  if bool_decide (magic = logFileHeaderV4) then
    paramLen ← rcatch (header_error "qwal: read crypto params length") readInt32;
    if paramLen <? 0 then rfail (Fail "qwal: negative crypto params length")
    else if paramLen >? 0 then rfail ErrEncryptedWAL
    else mret tt
  else if bool_decide (magic = logFileHeaderV3) then rfail (Fail "qwal: WAL header v3 is not supported by the shoal reader")
  else rfail (Fail "qwal: unrecognized WAL header magic").

(** ** Keys *)

Definition event_of (ev : Z) : option LogEvent :=
  match ev with
  | 0 => Some EventOpen
  | 1 => Some EventDefineTablet
  | 2 => Some EventMutation
  | 3 => Some EventManyMutations
  | 4 => Some EventCompactionStart
  | 5 => Some EventCompactionFinish
  | _ => None
  end.

Definition read_optional (flag text : string) : reader (option bytes) :=
  has ← rwrap flag readBool;
  if (has : bool) then b ← rwrap text readText; mret (Some b) else mret None.

Definition readKeyExtent : reader KeyExtent :=
  tid ← rwrap "tableId" readText;
  endRow ← read_optional "hasEndRow" "endRow";
  prev ← read_optional "hasPrevEndRow" "prevEndRow";
  mret (mkExtent tid endRow prev).

Definition readKey : reader LogFileKey :=
  ev ← readU8;
  match event_of ev with
  | None => rfail (Fail "qwal: invalid LogEvent ordinal")
  | Some EventOpen =>
      v ← rwrap "qwal: OPEN version" readInt32;
      if negb (v =? logFileKeyVersion) then rfail (Fail "qwal: bad WAL version")
      else sess ← rwrap "qwal: OPEN tserverSession" readUTF; mret (mkLogFileKey EventOpen (-1) (-1) sess [] None)
  | Some EventCompactionFinish =>
      seq ← rwrap "qwal: COMPACTION_FINISH seq" readInt64;
      tid ← rwrap "qwal: COMPACTION_FINISH tabletId" readInt32;
      mret (mkLogFileKey EventCompactionFinish tid seq [] [] None)
  | Some EventCompactionStart =>
      seq ← rwrap "qwal: COMPACTION_START seq" readInt64;
      tid ← rwrap "qwal: COMPACTION_START tabletId" readInt32;
      file ← rwrap "qwal: COMPACTION_START filename" readUTF;
      mret (mkLogFileKey EventCompactionStart tid seq [] file None)
  | Some EventDefineTablet =>
      seq ← rwrap "qwal: DEFINE_TABLET seq" readInt64;
      tid ← rwrap "qwal: DEFINE_TABLET tabletId" readInt32;
      ke ← rwrap "qwal: DEFINE_TABLET extent" readKeyExtent;
      mret (mkLogFileKey EventDefineTablet tid seq [] [] (Some ke))
  | Some event =>
      seq ← rwrap "qwal: mutations seq" readInt64;
      tid ← rwrap "qwal: mutations tabletId" readInt32;
      mret (mkLogFileKey event tid seq [] [] None)
  end.

(** ** Mutations *)

(** One column update. *)
Definition decode_update (values : list bytes) (m : Mutation) : reader Mutation :=
  cf ← rwrap "update cf" readVBytes;
  cq ← rwrap "update cq" readVBytes;
  cv ← rwrap "update cv" readVBytes;
  hasTs ← rwrap "update hasTs" readBool;
  ts ← (if (hasTs : bool) then rwrap "update ts" readVLong else mret 0);
  deleted ← rwrap "update deleted" readBool;
  valLen ← rwrap "update valLen" readVLong;
  val ← (if valLen <? 0 then
           let idx := int64 (int64 (- valLen) - 1) in
           if (idx <? 0) || (idx >=? len values) then rfail (Fail "qwal: update value-pool index out of range")
           else mret (default [] (values !! Z.to_nat idx))
         else if valLen =? 0 then mret []
         else make_bytes valLen;; rwrap "update val" (ReadFull valLen));
  mret (if (deleted : bool) then Delete cf cq cv ts m else Put cf cq cv ts val m).

Fixpoint decode_updates (n : nat) (values : list bytes) (m : Mutation) : reader Mutation :=
  match n with O => mret m | S n => m ← decode_update values m; decode_updates n values m end.

Definition decodeMutation (row data : bytes) (entries : Z) (values : list bytes) : result Mutation :=
  m ← NewMutation row;
  '(m, _) ← decode_updates (Z.to_nat entries) values m data;
  Ok m.

(** A length and as many bytes. *)
Definition read_block (what body negative : string) : reader bytes :=
  n ← rwrap what readVInt;
  if n <? 0 then rfail (Fail negative) else rwrap body (ReadFull n).

Definition readServerMutation : reader Mutation :=
  first ← readU8;
  if negb (Z.land first 128 =? 128) then rfail (Fail "qwal: VERSION1 (old) mutation format not supported")
  else
    row ← read_block "rowLen" "row" "qwal: negative row length";
    data ← read_block "dataLen" "data" "qwal: negative data length";
    entries ← rwrap "entries" readVInt;
    if entries <? 0 then rfail (Fail "qwal: negative entry count")
    else
      values ← (if Z.land first 1 =? 1 then
                  numValues ← rwrap "numValues" readVInt;
                  if numValues <? 0 then rfail (Fail "qwal: negative value count")
                  else read_n (read_block "value len" "value body" "qwal: negative value length") (Z.to_nat numValues)
                else mret []);
      (if Z.land first 2 =? 2 then
         numRepl ← rwrap "repl count" readVInt;
         _ ← read_n (rwrap "repl string" readText) (Z.to_nat numRepl); mret tt
       else mret tt);;
      rwrap "systemTime" readVLong;;
      rlift (decodeMutation row data entries values).

Definition readValue : reader (list Mutation) :=
  count ← rwrap "qwal: mutation count" readInt32;
  if (count <? 0) || (count >? maxMutationsPerRecord) then rfail (Fail "qwal: implausible mutation count; frame likely corrupt")
  else read_n (rwrap "qwal: mutation" readServerMutation) (Z.to_nat count).

(** ** The stream of entries (reader.go) *)

Definition key_error (e : err) : err :=
  if bool_decide (e = EOF) then EOF
  else if errors_Is e UnexpectedEOF then Wrap "qwal: truncated WAL entry key (segment ends mid-entry)" e
  else e.

(** [EntryStream.Next]. *)
Definition Next : reader Entry :=
  key ← rcatch key_error readKey;
  value ← rwrap "qwal: decode value" readValue;
  mret (mkEntry key value).

(** What a stream's successive calls of [Next] return, until [io.EOF] or an
    error; every entry takes at least a byte. *)
Fixpoint entries_loop (fuel : nat) (s : bytes) : list (result Entry) :=
  match fuel with
  | O => []
  | S fuel =>
      match Next s with
      | Ok (e, s) => Ok e :: entries_loop fuel s
      | Err e => if bool_decide (e = EOF) then [] else [Err e]
      end
  end.

Definition entries (s : bytes) : list (result Entry) := entries_loop (S (length s)) s.

(** The segment's header read, then its entries. *)
Definition segment_entries (s : bytes) : result (list (result Entry)) :=
  '(_, s) ← readHeader s; Ok (entries s).

(** ** What a tablet server writes

    The layouts the decoder's comments give, as encoders; a mutation's updates
    are the block [Mutation.serialize] makes. *)

Definition vtext (b : bytes) : bytes := (WriteVInt (len b)).1 ++ b.
Definition utf (b : bytes) : bytes := be_put 2 (uint16 (len b)) ++ b.
Definition optional_text (b : option bytes) : bytes := match b with Some b => 1 :: vtext b | None => [0] end.
Definition extent_bytes (ke : KeyExtent) : bytes := vtext (TableID ke) ++ optional_text (EndRow ke) ++ optional_text (PrevEndRow ke).

Definition ordinal (e : LogEvent) : Z :=
  match e with
  | EventOpen => 0 | EventDefineTablet => 1 | EventMutation => 2 | EventManyMutations => 3 | EventCompactionStart => 4 | EventCompactionFinish => 5
  end.

Definition key_bytes (k : LogFileKey) : bytes :=
  ordinal (lk_Event k) ::
  match lk_Event k with
  | EventOpen => WriteInt32 logFileKeyVersion ++ utf (TServerSession k)
  | EventCompactionStart => WriteInt64 (lk_Seq k) ++ WriteInt32 (lk_TabletID k) ++ utf (Filename k)
  | EventDefineTablet => WriteInt64 (lk_Seq k) ++ WriteInt32 (lk_TabletID k) ++ match lk_Tablet k with Some ke => extent_bytes ke | None => [] end
  | _ => WriteInt64 (lk_Seq k) ++ WriteInt32 (lk_TabletID k)
  end.

(** The fields an event does not have are as the reader leaves them. *)
Definition log_key_ok (k : LogFileKey) : Prop :=
  in_int64 (lk_Seq k) /\ in_int32 (lk_TabletID k) /\ len (TServerSession k) < 2 ^ 16 /\ len (Filename k) < 2 ^ 16 /\
  (lk_Event k = EventOpen -> lk_Seq k = -1 /\ lk_TabletID k = -1) /\
  (lk_Event k <> EventOpen -> TServerSession k = []) /\
  (lk_Event k <> EventCompactionStart -> Filename k = []) /\
  match lk_Tablet k with
  | Some ke => lk_Event k = EventDefineTablet /\ len (TableID ke) < 2 ^ 31 /\ len (default [] (EndRow ke)) < 2 ^ 31 /\ len (default [] (PrevEndRow ke)) < 2 ^ 31
  | None => lk_Event k <> EventDefineTablet
  end.

(** A mutation with the time the server received it. *)
Definition mutation_bytes (m : Mutation) (systemTime : Z) : bytes :=
  let '(data, values) := serialize_loop (m_entries m) [] [] in
  [if bool_decide (values = []) then 128 else 129] ++ vtext (m_row m) ++ vtext data ++ (WriteVInt (len (m_entries m))).1 ++
  (if bool_decide (values = []) then [] else (WriteVInt (len values)).1 ++ concat (vtext <$> values)) ++
  (WriteVLong systemTime).1.

Definition update_ok (e : MutationEntry) : Prop :=
  in_int64 (eTimestamp e) /\ len (ColFamily e) < 2 ^ 31 /\ len (ColQualifier e) < 2 ^ 31 /\ len (ColVisibility e) < 2 ^ 31 /\ len (Value e) < 2 ^ 31.

Definition log_mutation_ok (m : Mutation) (systemTime : Z) : Prop :=
  m_row m <> [] /\ len (m_row m) < 2 ^ 31 /\ len (m_entries m) < 2 ^ 31 /\ len (serialize_loop (m_entries m) [] []).1 < 2 ^ 31 /\
  Forall update_ok (m_entries m) /\ in_int64 systemTime.

(** What the reader makes of an update: no timestamp is timestamp 0. *)
Definition logged_entry (e : MutationEntry) : MutationEntry :=
  let ts := if entry_hasTimestamp e then eTimestamp e else 0 in
  if eDeleted e then delete_entry (ColFamily e) (ColQualifier e) (ColVisibility e) ts
  else put_entry (ColFamily e) (ColQualifier e) (ColVisibility e) ts (Value e).
Definition logged (m : Mutation) : Mutation := Mutation.mkMutation (m_row m) (logged_entry <$> m_entries m).

Record Logged := mkLogged { lg_key : LogFileKey; lg_mutations : list (Mutation * Z) }.

Definition entry_bytes (e : Logged) : bytes :=
  key_bytes (lg_key e) ++ WriteInt32 (len (lg_mutations e)) ++ concat ((fun p => mutation_bytes p.1 p.2) <$> lg_mutations e).
Definition logged_ok (e : Logged) : Prop :=
  log_key_ok (lg_key e) /\ len (lg_mutations e) <= maxMutationsPerRecord /\ Forall (fun p => log_mutation_ok p.1 p.2) (lg_mutations e).
Definition decoded (e : Logged) : Entry := mkEntry (lg_key e) ((fun p => logged p.1) <$> lg_mutations e).

Definition header_bytes : bytes := logFileHeaderV4 ++ WriteInt32 0.

(** ** Decoding what was written *)

Lemma parses_readInt32 v : in_int32 v -> parses readInt32 (WriteInt32 v) v.
Proof.
  intros Hv. unfold WriteInt32, readInt32. apply parses_app_nil.
  eapply parses_bind; [apply parses_ReadFull; unfold len; by rewrite be_put_length|].
  rewrite be_get_put, int32_uint32, int32_id by (try done; apply Z.mod_pos_bound; lia). apply parses_ret.
Qed.

Lemma parses_log_readInt64 v : in_int64 v -> parses readInt64 (WriteInt64 v) v.
Proof.
  intros Hv. unfold WriteInt64, readInt64. apply parses_app_nil.
  eapply parses_bind; [apply parses_ReadFull; unfold len; by rewrite be_put_length|].
  rewrite be_get_put, int64_uint64, int64_id by (try done; apply Z.mod_pos_bound; lia). apply parses_ret.
Qed.

Lemma parses_readBool (b : bool) : parses readBool [if b then 1 else 0] b.
Proof. apply parses_app_nil. eapply parses_bind; [apply parses_ReadByte|]. destruct b; apply parses_ret. Qed.

Lemma parses_readVInt v : in_int32 v -> parses readVInt (WriteVInt v).1 v.
Proof. intros Hv. apply parses_app_nil. eapply parses_bind; [by apply ReadVInt_WriteVInt|]. apply parses_ret. Qed.

Lemma parses_readVLong v : in_int64 v -> parses readVLong (WriteVLong v).1 v.
Proof. intros Hv. apply parses_app_nil. eapply parses_bind; [by apply ReadVLong_WriteVLong|]. apply parses_ret. Qed.

Lemma parses_readUTF b : len b < 2 ^ 16 -> parses readUTF (utf b) b.
Proof.
  intros Hb. pose proof (len_nonneg b). unfold readUTF, utf. assert (uint16 (len b) = len b) as E by (apply Z.mod_small; lia).
  eapply parses_bind; [apply parses_ReadFull; unfold len; by rewrite be_put_length|]. rewrite E, be_get_put by (cbn; lia).
  destruct (Z.eqb_spec (len b) 0) as [H0|_]; [rewrite (len_0_nil b H0); apply parses_ret|by apply parses_ReadFull].
Qed.

Lemma len_in_int32 {A} (l : list A) : len l < 2 ^ 31 -> in_int32 (len l).
Proof. pose proof (len_nonneg l). unfold in_int32. lia. Qed.

Lemma parses_readText b : len b < 2 ^ 31 -> parses readText (vtext b) b.
Proof.
  intros Hb. pose proof (len_nonneg b). unfold readText, vtext. eapply parses_bind; [by apply parses_readVInt, len_in_int32|].
  apply parses_if_false; [lia|]. destruct (Z.eqb_spec (len b) 0) as [H0|_]; [rewrite (len_0_nil b H0); apply parses_ret|by apply parses_ReadFull].
Qed.

Lemma parses_read_block what body negative b : len b < 2 ^ 31 -> parses (read_block what body negative) (vtext b) b.
Proof.
  intros Hb. pose proof (len_nonneg b). unfold read_block, vtext. eapply parses_bind; [by apply parses_wrap, parses_readVInt, len_in_int32|].
  apply parses_if_false; [lia|]. by apply parses_wrap, parses_ReadFull.
Qed.

Lemma parses_read_n {A} (p : reader A) (enc : A -> bytes) xs :
  (forall x, x ∈ xs -> parses p (enc x) x) -> parses (read_n p (length xs)) (concat (enc <$> xs)) xs.
Proof.
  induction xs as [|x xs IH]; intros H; [apply parses_ret|]. rewrite fmap_cons. cbn [length read_n concat].
  eapply parses_bind; [apply H; by left|]. apply parses_app_nil.
  eapply parses_bind; [apply IH; intros; apply H; by right|apply parses_ret].
Qed.

#[local] Hint Resolve parses_readInt32 parses_log_readInt64 parses_readBool parses_readVInt parses_readVLong parses_readUTF parses_readText parses_read_block : parse.

Lemma parses_optional flag text b : len (default [] b) < 2 ^ 31 -> parses (read_optional flag text) (optional_text b) b.
Proof.
  intros Hb. unfold read_optional. destruct b as [b|]; cbn [optional_text from_option id] in *.
  - change (1 :: vtext b) with ([1] ++ vtext b). eapply parses_bind; [apply parses_wrap, (parses_readBool true)|].
    apply parses_app_nil. eapply parses_bind; [by apply parses_wrap, parses_readText|apply parses_ret].
  - apply parses_app_nil. eapply parses_bind; [apply parses_wrap, (parses_readBool false)|apply parses_ret].
Qed.

Lemma parses_readKeyExtent ke :
  len (TableID ke) < 2 ^ 31 -> len (default [] (EndRow ke)) < 2 ^ 31 -> len (default [] (PrevEndRow ke)) < 2 ^ 31 ->
  parses readKeyExtent (extent_bytes ke) ke.
Proof.
  intros H1 H2 H3. unfold readKeyExtent, extent_bytes. eapply parses_bind; [by apply parses_wrap, parses_readText|].
  eapply parses_bind; [by apply parses_optional|]. apply parses_app_nil. eapply parses_bind; [by apply parses_optional|]. destruct ke. apply parses_ret.
Qed.

Lemma parses_readKey k : log_key_ok k -> parses readKey (key_bytes k) k.
Proof.
  intros (Hs & Ht & Hts & Hf & Ho & Hno & Hnc & Htab). unfold readKey, key_bytes.
  change (ordinal (lk_Event k) :: ?l) with ([ordinal (lk_Event k)] ++ l). eapply parses_bind; [apply parses_ReadByte|].
  destruct k as [ev tid seq sess file tab]; cbn [lk_Event lk_TabletID lk_Seq TServerSession Filename lk_Tablet] in *.
  destruct ev; cbn [ordinal event_of].
  - destruct (Ho eq_refl) as [-> ->]. rewrite (Hnc ltac:(done)). destruct tab as [ke|]; [by destruct Htab|].
    eapply parses_bind; [by apply parses_wrap, parses_readInt32|]. apply parses_app_nil. eapply parses_bind; [by apply parses_wrap, parses_readUTF|apply parses_ret].
  - rewrite (Hno ltac:(done)), (Hnc ltac:(done)). destruct tab as [ke|]; [|done]. destruct Htab as (_ & H1 & H2 & H3).
    eapply parses_bind; [by apply parses_wrap, parses_log_readInt64|]. eapply parses_bind; [by apply parses_wrap, parses_readInt32|].
    apply parses_app_nil. eapply parses_bind; [by apply parses_wrap, parses_readKeyExtent|apply parses_ret].
  - rewrite (Hno ltac:(done)), (Hnc ltac:(done)). destruct tab as [ke|]; [by destruct Htab|].
    eapply parses_bind; [by apply parses_wrap, parses_log_readInt64|]. apply parses_app_nil. eapply parses_bind; [by apply parses_wrap, parses_readInt32|apply parses_ret].
  - rewrite (Hno ltac:(done)), (Hnc ltac:(done)). destruct tab as [ke|]; [by destruct Htab|].
    eapply parses_bind; [by apply parses_wrap, parses_log_readInt64|]. apply parses_app_nil. eapply parses_bind; [by apply parses_wrap, parses_readInt32|apply parses_ret].
  - rewrite (Hno ltac:(done)). destruct tab as [ke|]; [by destruct Htab|].
    eapply parses_bind; [by apply parses_wrap, parses_log_readInt64|]. eapply parses_bind; [by apply parses_wrap, parses_readInt32|].
    apply parses_app_nil. eapply parses_bind; [by apply parses_wrap, parses_readUTF|apply parses_ret].
  - rewrite (Hno ltac:(done)), (Hnc ltac:(done)). destruct tab as [ke|]; [by destruct Htab|].
    eapply parses_bind; [by apply parses_wrap, parses_log_readInt64|]. apply parses_app_nil. eapply parses_bind; [by apply parses_wrap, parses_readInt32|apply parses_ret].
Qed.

(** *** Updates *)

Lemma reads_readVBytes b : len b <= maxAlloc -> reads readVBytes (writeMutationBytes b) b.
Proof.
  intros Hl. pose proof (len_nonneg b). unfold readVBytes, writeMutationBytes. unfold maxAlloc in Hl.
  eapply reads_bind; [apply parses_reads, parses_readVLong; unfold in_int64; lia|]. intros rest.
  replace (len b <? 0) with false by lia. destruct (Z.eqb_spec (len b) 0) as [H0|_]; [rewrite (len_0_nil b H0); done|].
  unfold make_bytes, maxAlloc. replace ((len b <? 0) || (len b >? 2 ^ 48)) with false by lia.
  unfold mbind, reader_bind, mret, reader_ret. by apply parses_ReadFull.
Qed.

(** The value of an update, in line or from the pool. *)
Definition read_update_value (values : list bytes) : reader bytes :=
  valLen ← rwrap "update valLen" readVLong;
  (if valLen <? 0 then
     let idx := int64 (int64 (- valLen) - 1) in
     if (idx <? 0) || (idx >=? len values) then rfail (Fail "qwal: update value-pool index out of range")
     else mret (default [] (values !! Z.to_nat idx))
   else if valLen =? 0 then mret []
   else make_bytes valLen;; rwrap "update val" (ReadFull valLen)).

Lemma reads_inline values value :
  len value < mutationValueCopyCutoff -> reads (read_update_value values) (writeMutationBytes value) value.
Proof.
  intros Hl. change mutationValueCopyCutoff with 32768 in Hl. pose proof (len_nonneg value). unfold read_update_value, writeMutationBytes.
  eapply reads_bind; [apply reads_wrap, parses_reads, parses_readVLong; unfold in_int64; lia|]. intros rest.
  replace (len value <? 0) with false by lia. destruct (Z.eqb_spec (len value) 0) as [H0|_]; [rewrite (len_0_nil value H0); done|].
  unfold make_bytes, maxAlloc. replace ((len value <? 0) || (len value >? 2 ^ 48)) with false by lia.
  unfold mbind, reader_bind, mret, reader_ret. by apply parses_wrap, parses_ReadFull.
Qed.

Lemma reads_pooled values value more :
  len (values ++ [value]) <= MaxInt64 ->
  reads (read_update_value ((values ++ [value]) ++ more)) (WriteVLong (- len (values ++ [value]))).1 value.
Proof.
  intros Hl. assert (0 < len (values ++ [value])) as Hpos by (unfold len; rewrite length_app; cbn; lia).
  set (n := len (values ++ [value])) in *. unfold read_update_value. apply reads_app_nil.
  eapply reads_bind; [apply reads_wrap, parses_reads, parses_readVLong; unfold in_int64, MaxInt64 in *; lia|]. intros rest.
  replace (- n <? 0) with true by lia. rewrite (int64_id (- - n)), (int64_id (- - n - 1)) by (unfold in_int64, MaxInt64 in *; lia).
  rewrite len_app. fold n. pose proof (len_nonneg more).
  replace ((- - n - 1 <? 0) || (- - n - 1 >=? n + len more)) with false by lia.
  assert (((values ++ [value]) ++ more) !! Z.to_nat (- - n - 1) = Some value) as ->; [|done].
  rewrite <- (assoc_L (++)). unfold n. rewrite len_app.
  replace (Z.to_nat (- - (len values + len [value]) - 1)) with (length values) by (unfold len; cbn [length]; lia).
  apply (list_lookup_middle values more value _ eq_refl).
Qed.

Lemma reads_update e values more m :
  update_ok e -> len (serialize_entry e values).2 <= MaxInt64 ->
  reads (decode_update ((serialize_entry e values).2 ++ more) m) (serialize_entry e values).1 (append_entry (logged_entry e) m).
Proof.
  intros (Hts & Hcf & Hcq & Hcv & Hval) Hl.
  assert (forall b : bytes, len b < 2 ^ 31 -> len b <= maxAlloc) as Hma by (unfold maxAlloc; lia).
  assert (forall vs bs, reads (read_update_value vs) bs (Value e) ->
    reads (decode_update vs m)
      ((writeMutationBytes (ColFamily e) ++ writeMutationBytes (ColQualifier e) ++
        writeMutationBytes (ColVisibility e) ++ [boolByte (entry_hasTimestamp e)] ++
        (if entry_hasTimestamp e then (WriteVLong (eTimestamp e)).1 else []) ++ [boolByte (eDeleted e)]) ++ bs)
      (append_entry (logged_entry e) m)) as Hread.
  { intros vs bs Hv. unfold decode_update. rewrite <- !(assoc_L (++)).
    eapply reads_bind; [by apply reads_wrap, reads_readVBytes, Hma|]. eapply reads_bind; [by apply reads_wrap, reads_readVBytes, Hma|].
    eapply reads_bind; [by apply reads_wrap, reads_readVBytes, Hma|].
    eapply reads_bind; [apply reads_wrap, parses_reads, (parses_readBool (entry_hasTimestamp e))|]. cbv beta.
    eapply reads_bind with (a := if entry_hasTimestamp e then eTimestamp e else 0).
    { destruct (entry_hasTimestamp e); [by apply reads_wrap, parses_reads, parses_readVLong|apply reads_ret]. }
    cbv beta. eapply reads_bind; [apply reads_wrap, parses_reads, (parses_readBool (eDeleted e))|]. cbv beta.
    intros rest. specialize (Hv rest). unfold read_update_value in Hv. revert Hv. unfold mbind at 1 3, reader_bind at 1 3.
    destruct (rwrap "update valLen" readVLong (bs ++ rest)) as [[valLen rest1]|]; [|done]. intros Hv.
    unfold mbind at 1, reader_bind at 1. rewrite Hv. unfold logged_entry, Delete, Put. by destruct (eDeleted e). }
  unfold serialize_entry in *. destruct (Z.ltb_spec (len (Value e)) mutationValueCopyCutoff); cbn [fst snd] in *.
  - apply Hread. by apply reads_inline.
  - apply Hread. by apply reads_pooled.
Qed.

Lemma decode_updates_ok es encoded values m :
  Forall update_ok es -> len (serialize_loop es encoded values).2 <= MaxInt64 ->
  exists bs, (serialize_loop es encoded values).1 = encoded ++ bs /\
    reads (decode_updates (length es) (serialize_loop es encoded values).2 m) bs
      (Mutation.mkMutation (m_row m) (m_entries m ++ (logged_entry <$> es))).
Proof.
  intros Hes. revert encoded values m. induction Hes as [|e es He _ IH]; intros encoded values m Hl; cbn [serialize_loop].
  { exists []. rewrite !app_nil_r. split; [done|]. destruct m. apply reads_ret. }
  cbn [serialize_loop] in Hl. pose proof (reads_update e values) as Hread.
  destruct (serialize_entry e values) as [bs1 values1] eqn:E1.
  destruct (serialize_loop_values es (encoded ++ bs1) values1) as [vs Hvs].
  destruct (IH (encoded ++ bs1) values1 (append_entry (logged_entry e) m) Hl) as (bs2 & Hbs2 & Hr2).
  exists (bs1 ++ bs2). rewrite Hbs2, (assoc_L (++)). split; [done|]. cbn [length decode_updates].
  eapply reads_bind.
  - rewrite Hvs. apply Hread; [done|]. cbn. rewrite Hvs, len_app in Hl. pose proof (len_nonneg vs). lia.
  - cbn [append_entry m_row m_entries] in Hr2. rewrite <- (assoc_L (++)) in Hr2. exact Hr2.
Qed.

Lemma decodeMutation_ok m :
  m_row m <> [] -> len (m_entries m) < 2 ^ 31 -> Forall update_ok (m_entries m) ->
  decodeMutation (m_row m) (serialize_loop (m_entries m) [] []).1 (len (m_entries m)) (serialize_loop (m_entries m) [] []).2 = Ok (logged m).
Proof.
  intros Hrow Hn Hes. unfold decodeMutation, NewMutation.
  rewrite (proj2 (Z.eqb_neq (len (m_row m)) 0)) by (intros E; by apply len_0_nil in E). cbn [mbind result_bind].
  destruct (decode_updates_ok (m_entries m) [] [] (Mutation.mkMutation (m_row m) [])) as (bs & Hbs & Hr); [done|..].
  { pose proof (serialize_loop_count (m_entries m) [] []). rewrite len_nil in *. unfold MaxInt64. lia. }
  replace (Z.to_nat (len (m_entries m))) with (length (m_entries m)) by (unfold len; lia).
  rewrite Hbs. cbn [app]. specialize (Hr []). rewrite app_nil_r in Hr. rewrite Hr. done.
Qed.

Lemma pool_ok es encoded values :
  Forall update_ok es -> Forall (fun v => len v < 2 ^ 31) values -> Forall (fun v => len v < 2 ^ 31) (serialize_loop es encoded values).2.
Proof.
  intros Hes. revert encoded values. induction Hes as [|e es (_ & _ & _ & _ & Hv) _ IH]; intros encoded values Hvs; [done|]. cbn [serialize_loop].
  destruct (serialize_entry e values) as [bs values1] eqn:E. apply IH. unfold serialize_entry in E. destruct (_ <? _); injection E as _ <-; [done|].
  apply Forall_app. by split; [|constructor].
Qed.

Lemma parses_rlift {A} (a : A) : parses (rlift (Ok a)) [] a.
Proof. apply parses_ret. Qed.

Lemma parses_readServerMutation m t : log_mutation_ok m t -> parses readServerMutation (mutation_bytes m t) (logged m).
Proof.
  intros (Hrow & Hrl & Hel & Hdl & Hes & Ht). pose proof (decodeMutation_ok m Hrow Hel Hes) as Hdec.
  pose proof (pool_ok (m_entries m) [] [] Hes (Forall_nil_2 _)) as Hpool. pose proof (serialize_loop_count (m_entries m) [] []) as Hcount.
  unfold mutation_bytes, readServerMutation. destruct (serialize_loop (m_entries m) [] []) as [data values]. cbn [fst snd] in *. rewrite len_nil in Hcount.
  set (first := if bool_decide (values = []) then 128 else 129).
  eapply parses_bind; [apply parses_ReadByte|]. assert ((Z.land first 128 =? 128) = true) as -> by (unfold first; by destruct (bool_decide _)). cbn [negb].
  eapply parses_bind; [by apply parses_read_block|]. eapply parses_bind; [by apply parses_read_block|].
  eapply parses_bind; [by apply parses_wrap, parses_readVInt, len_in_int32|]. pose proof (len_nonneg (m_entries m)). apply parses_if_false; [lia|].
  eapply parses_bind with (a := values).
  { unfold first. case_bool_decide as E; [subst values; apply parses_ret|]. change (Z.land 129 1 =? 1) with true. cbv iota.
    eapply parses_bind; [apply parses_wrap, parses_readVInt; unfold in_int32; pose proof (len_nonneg values); lia|].
    apply parses_if_false; [pose proof (len_nonneg values); lia|]. replace (Z.to_nat (len values)) with (length values) by (unfold len; lia).
    apply parses_read_n. intros v Hv. apply parses_read_block. by apply (proj1 (Forall_forall _ _) Hpool). }
  assert ((Z.land first 2 =? 2) = false) as -> by (unfold first; by destruct (bool_decide _)).
  rewrite <-(app_nil_l (WriteVLong t).1). eapply parses_bind; [apply parses_ret|]. apply parses_app_nil.
  eapply parses_bind; [by apply parses_wrap, parses_readVLong|]. rewrite Hdec. apply parses_rlift.
Qed.

Lemma parses_readValue ms :
  len ms <= maxMutationsPerRecord -> Forall (fun p => log_mutation_ok p.1 p.2) ms ->
  parses readValue (WriteInt32 (len ms) ++ concat ((fun p => mutation_bytes p.1 p.2) <$> ms)) ((fun p => logged p.1) <$> ms).
Proof.
  intros Hl Hms. pose proof (len_nonneg ms). unfold maxMutationsPerRecord in Hl. unfold readValue.
  eapply parses_bind; [apply parses_wrap, parses_readInt32; unfold in_int32; lia|]. unfold maxMutationsPerRecord.
  apply parses_if_false; [lia|]. replace (Z.to_nat (len ms)) with (length ms) by (unfold len; lia).
  clear Hl. induction Hms as [|p ms Hp _ IH]; [apply parses_ret|]. cbn [fmap list_fmap length read_n concat].
  eapply parses_bind; [by apply parses_wrap, parses_readServerMutation|]. apply parses_app_nil.
  eapply parses_bind; [apply IH; apply len_nonneg|apply parses_ret].
Qed.

(** *** Entries and segments *)

Lemma parses_rcatch {A} f (p : reader A) bs a :
  (forall e, eof_like e = true -> eof_like (f e) = true) -> parses p bs a -> parses (rcatch f p) bs a.
Proof.
  intros Hf [Hp Tp]. split; unfold rcatch.
  - intros rest. by rewrite Hp.
  - intros s t Ht E. destruct (Tp s t Ht E) as (e & -> & He). exists (f e). split; [done|by apply Hf].
Qed.

Lemma key_error_eof e : eof_like e = true -> eof_like (key_error e) = true.
Proof. unfold key_error. case_bool_decide; [done|]. destruct (errors_Is e UnexpectedEOF); [by rewrite eof_like_wrap|done]. Qed.

Lemma parses_Next e : logged_ok e -> parses Next (entry_bytes e) (decoded e).
Proof.
  intros (Hk & Hl & Hms). unfold Next, entry_bytes. eapply parses_bind; [apply parses_rcatch; [apply key_error_eof|by apply parses_readKey]|].
  apply parses_app_nil. eapply parses_bind; [by apply parses_wrap, parses_readValue|]. apply parses_ret.
Qed.

(** Readers whose errors are never [io.EOF] itself. *)
Definition no_eof {A} (p : reader A) : Prop := forall s, p s <> Err EOF.

Lemma no_eof_bind {A B} (p : reader A) (q : A -> reader B) : no_eof p -> (forall a, no_eof (q a)) -> no_eof (p ≫= q).
Proof. intros Hp Hq s. unfold mbind, reader_bind. pose proof (Hp s). destruct (p s) as [[a s']|]; [by apply Hq|congruence]. Qed.
Lemma no_eof_wrap {A} msg (p : reader A) : no_eof (rwrap msg p).
Proof. intros s. unfold rwrap, wrap. by destruct (p s). Qed.
Lemma no_eof_ret {A} (a : A) : no_eof (mret a).
Proof. done. Qed.
Lemma no_eof_fail {A} e : e <> EOF -> no_eof (@rfail A e).
Proof. by intros He s [= ->]. Qed.

Create HintDb no_eof.
#[local] Hint Resolve no_eof_wrap no_eof_ret : no_eof.

(** A key ends with [io.EOF] only where there is none. *)
Lemma readKey_EOF s : readKey s = Err EOF -> s = [].
Proof.
  destruct s as [|ev s]; [done|]. unfold readKey. unfold mbind at 1, reader_bind at 1. cbn [readU8 ReadByte].
  assert (forall (p : reader LogFileKey), no_eof p -> p s = Err EOF -> ev :: s = []) as H by (intros p Hp E; by destruct (Hp s)).
  apply H. destruct (event_of ev) as [[]|]; [..|by apply no_eof_fail];
    repeat (apply no_eof_bind; [by auto with no_eof|intros ?]); try by auto with no_eof.
  destruct (negb _); [by apply no_eof_fail|]. apply no_eof_bind; auto with no_eof.
Qed.

Lemma Next_EOF s : Next s = Err EOF -> s = [].
Proof.
  unfold Next, mbind, reader_bind, rcatch. destruct (readKey s) as [[k s1]|e] eqn:Ek.
  - unfold rwrap, wrap. by destruct (readValue s1) as [[v s2]|].
  - unfold key_error. case_bool_decide as E; [subst e; intros _; by apply readKey_EOF|]. destruct (errors_Is e UnexpectedEOF); [done|]. congruence.
Qed.

Lemma entry_bytes_nonempty e : entry_bytes e <> [].
Proof. by unfold entry_bytes, key_bytes. Qed.

(** Whole entries, then a torn one. *)
Lemma entries_ok es torn fuel :
  Forall logged_ok es -> (torn = [] \/ exists e rest, logged_ok e /\ rest <> [] /\ entry_bytes e = torn ++ rest) ->
  (length (concat (entry_bytes <$> es) ++ torn) < fuel)%nat ->
  exists tail, entries_loop fuel (concat (entry_bytes <$> es) ++ torn) = (Ok <$> (decoded <$> es)) ++ tail /\
    (torn = [] /\ tail = [] \/ torn <> [] /\ exists x, tail = [Err x] /\ eof_like x = true /\ x <> EOF).
Proof.
  intros Hes Ht. revert fuel. induction Hes as [|e es He _ IH]; intros fuel Hf; (destruct fuel as [|fuel]; [lia|]); cbn [entries_loop fmap list_fmap concat app].
  - destruct Ht as [->|(e & rest & He & Hr & E)]; [exists []; split; [done|by left]|].
    destruct (proj2 (parses_Next e He) torn rest Hr E) as (x & Hx & Hx'). rewrite Hx. case_bool_decide as Ex.
    + subst x. apply Next_EOF in Hx as ->. exists []. split; [done|by left].
    + exists [Err x]. split; [done|]. right. split; [intros ->; apply Ex; by injection Hx|]. by exists x.
  - rewrite <-(assoc_L (++)), (proj1 (parses_Next e He)). destruct (IH fuel) as (tail & -> & Htail).
    { cbn [fmap list_fmap concat] in Hf. rewrite <-(assoc_L (++)), length_app in Hf. pose proof (entry_bytes_nonempty e). destruct (entry_bytes e); [done|]. cbn [length] in Hf. lia. }
    by exists tail.
Qed.

Lemma header_error_eof msg e : eof_like e = true -> header_error msg e = ErrHeaderIncomplete.
Proof. unfold header_error. by intros ->. Qed.

(** A header that is cut is reported as incomplete. *)
Lemma readHeader_ok :
  (forall rest, readHeader (header_bytes ++ rest) = Ok (tt, rest)) /\
  (forall s t, t <> [] -> header_bytes = s ++ t -> readHeader s = Err ErrHeaderIncomplete).
Proof.
  pose proof (parses_ReadFull logFileHeaderV4 _ eq_refl) as [Hm Tm]. pose proof (parses_readInt32 0 ltac:(unfold in_int32; lia)) as [Hp Tp].
  unfold header_bytes. split.
  - intros rest. unfold readHeader, mbind, reader_bind, rcatch. rewrite <-(assoc_L (++)), Hm. rewrite bool_decide_eq_true_2 by done. by rewrite Hp.
  - intros s t Ht E. unfold readHeader, mbind, reader_bind, rcatch. apply app_eq_inv in E as [(k & E1 & E2)|(k & E1 & E2)].
    + destruct k as [|x k].
      * rewrite app_nil_r in E1. subst s. rewrite <-(app_nil_r logFileHeaderV4), Hm. rewrite bool_decide_eq_true_2 by done.
        cbn [app] in E2. subst t. destruct (Tp [] (WriteInt32 0) Ht eq_refl) as (e & -> & He). by rewrite header_error_eof.
      * destruct (Tm s (x :: k)) as (e & -> & He); [done|done|]. by rewrite header_error_eof.
    + subst s. rewrite Hm. rewrite bool_decide_eq_true_2 by done. destruct (Tp k t Ht E2) as (e & -> & He). by rewrite header_error_eof.
Qed.

(** Where a cut falls. *)
Lemma cut_entries es m : Forall logged_ok es -> exists k torn, take m (concat (entry_bytes <$> es)) = concat (entry_bytes <$> take k es) ++ torn /\
    (torn = [] /\ (length (concat (entry_bytes <$> take k es)) = m \/ (length (concat (entry_bytes <$> take k es)) <= m)%nat /\ k = length es) \/
     exists e rest, es !! k = Some e /\ logged_ok e /\ torn <> [] /\ rest <> [] /\ entry_bytes e = torn ++ rest /\
       m = (length (concat (entry_bytes <$> take k es)) + length torn)%nat).
Proof.
  intros Hes. revert m. induction Hes as [|e es He _ IH]; intros m.
    - exists 0%nat, []. cbn [fmap list_fmap concat]. rewrite !take_nil. split; [done|]. left. split; [done|]. right. cbn. split; [lia|done].
    - cbn [fmap list_fmap concat]. destruct (decide (length (entry_bytes e) <= m)%nat) as [Hm|Hm].
      + rewrite take_app_ge by done. destruct (IH (m - length (entry_bytes e))%nat) as (k & torn & -> & H). exists (S k), torn.
        cbn [take fmap list_fmap concat]. rewrite (assoc_L (++)). split; [done|]. rewrite length_app.
        destruct H as [[-> H]|(e' & rest & H1 & H2 & H3 & H4 & H5 & H6)].
        * left. split; [done|]. destruct H as [H|[H ->]]; [left; lia|right; split; [lia|done]].
        * right. exists e', rest. split; [done|]. split; [done|]. split; [done|]. split; [done|]. split; [done|]. lia.
      + rewrite take_app_le by lia. exists 0%nat, (take m (entry_bytes e)). split; [done|]. destruct (decide (m = 0%nat)) as [->|H0]; [left; split; [done|]; by left|].
        right. exists e, (drop m (entry_bytes e)). split; [done|]. split; [done|]. split; [|split; [|split]].
        * intros E%(f_equal length). rewrite length_take in E. cbn [length] in E. lia.
        * intros E%(f_equal length). rewrite length_drop in E. cbn [length] in E. lia.
        * by rewrite take_drop.
        * cbn [take fmap list_fmap concat length]. rewrite length_take. lia. 
Qed.

(** ** Properties *)

(** C23: a log segment cut anywhere is read up to the cut.  Of a segment a
    tablet server wrote, any prefix — what a quorum agreed on — reads as all
    the entries that are whole in it, each with its key and its mutations,
    then as a clean end where the cut falls between entries and as an error
    elsewhere; a cut in the header is reported as such. *)
Theorem segment_cut es n :
  Forall logged_ok es ->
  let segment := header_bytes ++ concat (entry_bytes <$> es) in
  match segment_entries (take n segment) with
  | Err e => (n < length header_bytes)%nat /\ e = ErrHeaderIncomplete
  | Ok results =>
      exists k tail, results = (Ok <$> (decoded <$> take k es)) ++ tail /\
        let whole := (length header_bytes + length (concat (entry_bytes <$> take k es)))%nat in
        (whole <= n)%nat /\
        (tail = [] /\ (whole = n \/ k = length es) \/
         (whole < n)%nat /\ (exists e, es !! k = Some e /\ (n < whole + length (entry_bytes e))%nat) /\
         exists x, tail = [Err x] /\ eof_like x = true /\ x <> EOF)
  end.
Proof.
  intros Hes segment. unfold segment_entries. destruct readHeader_ok as [Hh Th].
  destruct (decide (n < length header_bytes)%nat) as [Hn|Hn].
  { unfold segment. rewrite take_app_le by lia. rewrite (Th (take n header_bytes) (drop n header_bytes)); [done| |by rewrite take_drop].
    intros E%(f_equal length). rewrite length_drop in E. cbn [length] in E. lia. }
  unfold segment. rewrite take_app_ge by lia. rewrite Hh. cbn [mbind result_bind].
  remember (n - length header_bytes)%nat as m eqn:Em. assert (n = (length header_bytes + m)%nat) as -> by lia. clear Hn Em.
  destruct (cut_entries es m Hes) as (k & torn & Etake & Htorn). rewrite Etake. exists k.
  destruct (entries_ok (take k es) torn (S (length (concat (entry_bytes <$> take k es) ++ torn)))) as (tail & Htail & Hend).
  { by apply Forall_take. }
  { destruct Htorn as [[-> _]|(e & rest & _ & He & _ & Hr & E & _)]; [by left|right; by exists e, rest]. }
  { lia. }
  exists tail. unfold entries. rewrite Htail. split; [done|]. cbv zeta.
  destruct Htorn as [[-> Hl]|(e & rest & Hk & He & Htn & Hrn & E & Em)].
  - destruct Hend as [[_ ->]|[? _]]; [|done]. split; [lia|]. left. split; [done|]. destruct Hl as [->|[_ ->]]; [by left|by right].
  - destruct Hend as [[? _]|[_ Hx]]; [done|]. assert (0 < length torn)%nat by (destruct torn; [done|cbn; lia]).
    assert (0 < length rest)%nat by (destruct rest; [done|cbn; lia]). split; [lia|]. right. split; [lia|]. split; [|done].
    exists e. split; [done|]. rewrite E, length_app. lia.
Qed.

(** *** A segment *)

Definition demo_mutation : Mutation := PutLatest [1] [2] [] [9] (Put [1] [2] [65] 5 [7; 7] (Mutation.mkMutation [82] [])).
Definition demo_segment : list Logged :=
  [mkLogged (mkLogFileKey EventOpen (-1) (-1) [115] [] None) [];
   mkLogged (mkLogFileKey EventDefineTablet 1 0 [] [] (Some (mkExtent [50] (Some [109]) None))) [];
   mkLogged (mkLogFileKey EventMutation 1 1 [] [] None) [(demo_mutation, 1700000000000)];
   mkLogged (mkLogFileKey EventManyMutations 1 2 [] [] None) [(demo_mutation, 1700000000001); (demo_mutation, 1700000000002)]].

Ltac concrete_updates :=
  repeat (apply Forall_cons; split); [..|constructor];
  (split; [split; vm_compute; [congruence|reflexivity]|split_and!; vm_compute; reflexivity]).

Lemma demo_mutation_ok t : in_int64 t -> log_mutation_ok demo_mutation t.
Proof.
  intros Ht. split; [done|]. split; [vm_compute; reflexivity|]. split; [vm_compute; reflexivity|]. split; [vm_compute; reflexivity|].
  split; [|exact Ht]. unfold demo_mutation. cbn [m_entries PutLatest Put append_entry app]. concrete_updates.
Qed.

Lemma demo_key_ok k :
  in_int64 (lk_Seq k) -> in_int32 (lk_TabletID k) -> len (TServerSession k) < 2 ^ 16 -> lk_Event k <> EventCompactionStart -> Filename k = [] ->
  (lk_Event k = EventOpen -> lk_Seq k = -1 /\ lk_TabletID k = -1) -> (lk_Event k <> EventOpen -> TServerSession k = []) ->
  match lk_Tablet k with
  | Some ke => lk_Event k = EventDefineTablet /\ len (TableID ke) < 2 ^ 31 /\ len (default [] (EndRow ke)) < 2 ^ 31 /\ len (default [] (PrevEndRow ke)) < 2 ^ 31
  | None => lk_Event k <> EventDefineTablet
  end -> log_key_ok k.
Proof. intros H1 H2 H3 H4 H5 H6 H7 H8. split_and!; try done. by rewrite H5. Qed.

Lemma demo_segment_ok : Forall logged_ok demo_segment.
Proof.
  assert (forall z, 0 <= z < 2 ^ 62 -> in_int64 z) as H64 by (unfold in_int64; lia).
  unfold demo_segment. repeat (apply Forall_cons; split); [..|constructor]; (split; [|split]); cbn [lg_key lg_mutations].
  all: match goal with
       | |- len _ <= _ => vm_compute; congruence
       | |- Forall _ _ => repeat (apply Forall_cons; split); [..|constructor]; apply demo_mutation_ok, H64; cbn [fst snd]; lia
       | |- log_key_ok _ => apply demo_key_ok; cbn [lk_Event lk_TabletID lk_Seq TServerSession Filename lk_Tablet];
           match goal with
           | |- in_int64 _ => unfold in_int64; lia
           | |- in_int32 _ => unfold in_int32; lia
           | |- len _ < _ => vm_compute; reflexivity
           | |- _ /\ _ => split_and!; [done|vm_compute; reflexivity..]
           | |- _ => done
           end
       end.
Qed.

Definition demo_cut : nat := length (header_bytes ++ concat (entry_bytes <$> take 3 demo_segment)).

(** Cut after the third entry, and one byte further. *)
Lemma segment_cut_witness :
  segment_entries (take demo_cut (header_bytes ++ concat (entry_bytes <$> demo_segment))) = Ok (Ok <$> (decoded <$> take 3 demo_segment)) /\
  match segment_entries (take (S demo_cut) (header_bytes ++ concat (entry_bytes <$> demo_segment))) with
  | Err e => (S demo_cut < length header_bytes)%nat /\ e = ErrHeaderIncomplete
  | Ok results =>
      exists k tail, results = (Ok <$> (decoded <$> take k demo_segment)) ++ tail /\
        let whole := (length header_bytes + length (concat (entry_bytes <$> take k demo_segment)))%nat in
        (whole <= S demo_cut)%nat /\
        (tail = [] /\ (whole = S demo_cut \/ k = length demo_segment) \/
         (whole < S demo_cut)%nat /\ (exists e, demo_segment !! k = Some e /\ (S demo_cut < whole + length (entry_bytes e))%nat) /\
         exists x, tail = [Err x] /\ eof_like x = true /\ x <> EOF)
  end.
Proof. split; [vm_compute; reflexivity|]. exact (segment_cut demo_segment (S demo_cut) demo_segment_ok). Defined.

(** *** Departures *)

(** A column update whose length field is corrupt stops the process instead of
    being reported. *)
Definition corrupt_entry : bytes :=
  key_bytes (mkLogFileKey EventMutation 1 1 [] [] None) ++ WriteInt32 1 ++
  [128] ++ vtext [82] ++ vtext (WriteVLong (2 ^ 62)).1 ++ (WriteVInt 1).1 ++ (WriteVLong 0).1.

Lemma corrupt_length_panics :
  Next corrupt_entry =
  Err (Wrap "qwal: decode value" (Wrap "qwal: mutation" (Wrap "update cf" (Fail "panic: makeslice: len out of range")))).
Proof. vm_compute. reflexivity. Qed.

(** The time the server received a mutation at is read and dropped: an update
    without a timestamp has timestamp 0, whatever the time. *)
Lemma server_time_dropped t :
  in_int64 t ->
  readServerMutation (mutation_bytes (PutLatest [1] [2] [] [9] (Mutation.mkMutation [82] [])) t) =
  Ok (Put [1] [2] [] 0 [9] (Mutation.mkMutation [82] []), []).
Proof.
  intros Ht. assert (log_mutation_ok (PutLatest [1] [2] [] [9] (Mutation.mkMutation [82] [])) t) as Hok.
  { split; [done|]. split; [vm_compute; reflexivity|]. split; [vm_compute; reflexivity|]. split; [vm_compute; reflexivity|].
    split; [|exact Ht]. cbn [m_entries PutLatest Put append_entry app]. concrete_updates. }
  rewrite <-(app_nil_r (mutation_bytes _ _)). by rewrite (proj1 (parses_readServerMutation _ t Hok)).
Qed.

(** A key cut between two of its fields is not reported as truncated. *)
Lemma boundary_cut_unlabelled : Next [2] = Err (Wrap "qwal: mutations seq" EOF).
Proof. vm_compute. reflexivity. Qed.
