(* ===== verification/LogSafe.v ===== *)
(** * LogSafe: what the log decoder accepts is well typed
    (src/internal/qwal/logfile.go)

    Over any bytes at all, not only those a tablet server wrote: the entries
    decoded hold integers of their width, bytes, the fields of their event and
    no others, as many mutations as a record may carry, and mutations a client
    could have built. *)

From S2P Require Import Prelude Wire Iter Mutation LogFile.
From S2P Require Memtable.
Import Memtable (LogEvent, EventOpen, EventDefineTablet, EventMutation, EventManyMutations, EventCompactionStart, EventCompactionFinish).

(** ** What a reader yields *)

(** Over at most [M] bytes. *)
Definition input (M : Z) (s : bytes) : Prop := is_bytes s /\ len s <= M.

(** From an input, [p] yields values of type [P] and a rest no longer. *)
Definition yields {A} (M : Z) (P : A -> Prop) (p : reader A) : Prop :=
  forall s a s', input M s -> p s = Ok (a, s') -> P a /\ input (len s) s'.

Lemma input_le M M' s : input M s -> M <= M' -> input M' s.
Proof. intros [H1 H2] H. split; [done|lia]. Qed.

Lemma yields_bind {A B} M (P : A -> Prop) (Q : B -> Prop) p f :
  yields M P p -> (forall a, P a -> yields M Q (f a)) -> yields M Q (p ≫= f).
Proof.
  intros Hp Hf s b s2 Hs. unfold mbind, reader_bind. destruct (p s) as [[a s1]|e] eqn:E; [|done]. intros H2.
  destruct (Hp _ _ _ Hs E) as [Ha Hs1]. destruct Hs as [_ Hs], Hs1 as [Hb Hl].
  destruct (Hf a Ha s1 b s2) as [Hq Hs2]; [split; [done|lia]|done|]. split; [done|]. by apply (input_le (len s1)).
Qed.

Lemma yields_ret {A} M (P : A -> Prop) a : P a -> yields M P (mret a).
Proof. intros Ha s b s' [Hs _] [= <- <-]. split; [done|]. by split. Qed.
Lemma yields_fail {A} M (P : A -> Prop) e : yields M P (rfail e).
Proof. by intros s a s' _ [=]. Qed.
Lemma yields_wrap {A} M (P : A -> Prop) msg p : yields M P p -> yields M P (rwrap msg p).
Proof. intros Hp s a s' Hs. unfold rwrap, wrap. destruct (p s) as [r|] eqn:E; [|done]. intros [= ->]. by eapply Hp. Qed.
Lemma yields_rcatch {A} M (P : A -> Prop) f p : yields M P p -> yields M P (rcatch f p).
Proof. intros Hp s a s' Hs. unfold rcatch. destruct (p s) as [r|] eqn:E; [|done]. intros [= ->]. by eapply Hp. Qed.
Lemma yields_lift {A} M (P : A -> Prop) r : (forall a, r = Ok a -> P a) -> yields M P (rlift r).
Proof. intros Hr s a s' [Hs _]. unfold rlift. destruct r; [|done]. intros [= <- <-]. split; [by apply Hr|by split]. Qed.
Lemma yields_mono {A} M (P Q : A -> Prop) p : yields M P p -> (forall a, P a -> Q a) -> yields M Q p.
Proof. intros Hp H s a s' Hs E. destruct (Hp _ _ _ Hs E). split; [by apply H|done]. Qed.
Lemma yields_if {A} M (P : A -> Prop) (b : bool) p q : yields M P p -> yields M P q -> yields M P (if b then p else q).
Proof. by destruct b. Qed.
Lemma yields_true {A} M (P : A -> Prop) p : yields M P p -> yields M (fun _ => True) p.
Proof. intros H. by eapply yields_mono. Qed.

Lemma yields_read_n {A} M (P : A -> Prop) p n : yields M P p -> yields M (fun l => Forall P l /\ length l = n) (read_n p n).
Proof.
  intros Hp. induction n as [|n IH]; cbn [read_n]; [by apply yields_ret|]. eapply yields_bind; [exact Hp|]. intros x Hx.
  eapply yields_bind; [exact IH|]. intros xs [Hxs Hn]. apply yields_ret. split; [by constructor|cbn; lia].
Qed.

(** ** The primitives *)

Definition short (N : Z) (b : bytes) : Prop := is_bytes b /\ len b <= N.

Lemma short_nil N : 0 <= N -> short N [].
Proof. split; [by apply Forall_nil|done]. Qed.

Lemma yields_ReadByte M : yields M is_byte ReadByte.
Proof. intros [|b s] a s' [Hs _]; cbn [ReadByte]; [done|]. intros [= <- <-]. apply Forall_cons in Hs as [Hb Hs]. split; [done|]. split; [done|]. rewrite len_cons. lia. Qed.

Lemma yields_ReadFull M n : yields M (fun b => short M b /\ len b = Z.max 0 n) (ReadFull n).
Proof.
  intros s a s' [Hs Hl]. unfold ReadFull. pose proof (len_nonneg s). destruct (Z.leb_spec n 0) as [Hn|Hn].
  { intros [= <- <-]. split; [|by split]. split; [split; [constructor|rewrite len_nil; lia]|rewrite len_nil; lia]. }
  destruct (len s =? 0); [done|]. destruct (Z.ltb_spec (len s) n) as [|Hn']; [done|]. intros [= <- <-].
  assert (len (take (Z.to_nat n) s) = n) as E by (unfold len in *; rewrite length_take; lia).
  split; [split; [split; [by apply Forall_take|lia]|lia]|]. split; [by apply Forall_drop|]. unfold len in *. rewrite length_drop. lia.
Qed.

Lemma lor_int64 i b : is_byte b -> in_int64 (Z.lor (int64 (Z.shiftl i 8)) b).
Proof.
  intros Hb. rewrite Z.shiftl_mul_pow2 by lia. unfold int64.
  pose proof (Z.div_mod (i * 2 ^ 8 + 2 ^ 63) (2 ^ 64) ltac:(lia)) as E. pose proof (Z.mod_pos_bound (i * 2 ^ 8 + 2 ^ 63) (2 ^ 64) ltac:(lia)) as Hm.
  set (q := (i * 2 ^ 8 + 2 ^ 63) / 2 ^ 64) in *. set (m := (i * 2 ^ 8 + 2 ^ 63) mod 2 ^ 64) in *.
  assert (m - 2 ^ 63 = Z.shiftl (i - 2 ^ 56 * q) 8) as -> by (rewrite Z.shiftl_mul_pow2; lia).
  rewrite lor_shiftl_byte by done. unfold is_byte, in_int64 in *. lia.
Qed.

Lemma yields_mag M n i : in_int64 i -> yields M in_int64 (ReadVLong_mag n i).
Proof.
  revert i. induction n as [|n IH]; intros i Hi; cbn [ReadVLong_mag]; [by apply yields_ret|].
  eapply yields_bind; [apply yields_wrap, yields_ReadByte|]. intros b Hb. by apply IH, lor_int64.
Qed.

Lemma yields_ReadVLong M : yields M (fun p => in_int64 p.1) ReadVLong.
Proof.
  eapply yields_bind; [apply yields_ReadByte|]. intros b Hb. cbv zeta. apply yields_if.
  - apply yields_ret. cbn [fst]. unfold in_int64, int8. pose proof (Z.mod_pos_bound (b + 2 ^ 7) (2 ^ 8) ltac:(lia)). lia.
  - apply yields_if; [apply yields_fail|]. eapply yields_bind; [apply yields_mag; unfold in_int64; lia|]. intros i Hi.
    apply yields_ret. cbn [fst]. destruct (IsNegativeVInt b); [|done]. unfold in_int64, Z.lnot in *. lia.
Qed.

Lemma yields_readVLong M : yields M in_int64 readVLong.
Proof. eapply yields_bind; [apply yields_ReadVLong|]. intros [v n] Hv. by apply yields_ret. Qed.

Lemma yields_readVInt M : yields M in_int32 readVInt.
Proof.
  eapply (yields_bind M (fun p => in_int32 p.1)); [|intros [v n] Hv; by apply yields_ret].
  eapply yields_bind; [apply yields_ReadVLong|]. intros [v n] Hv. cbn [fst] in Hv.
  destruct (Z.gtb_spec v (2 ^ 31 - 1)); cbn [orb]; [apply yields_fail|]. destruct (Z.ltb_spec v (- 2 ^ 31)); [apply yields_fail|].
  assert (in_int32 v) by (unfold in_int32; lia). apply yields_ret. cbn [fst]. by rewrite int32_id.
Qed.

Lemma int32_in x : in_int32 (int32 x).
Proof. unfold in_int32, int32. pose proof (Z.mod_pos_bound (x + 2 ^ 31) (2 ^ 32) ltac:(lia)). lia. Qed.
Lemma int64_in x : in_int64 (int64 x).
Proof. unfold in_int64, int64. pose proof (Z.mod_pos_bound (x + 2 ^ 63) (2 ^ 64) ltac:(lia)). lia. Qed.

Lemma yields_readBool M : yields M (fun _ => True) readBool.
Proof. eapply yields_bind; [apply yields_ReadByte|]. intros. by apply yields_ret. Qed.
Lemma yields_readInt32 M : yields M in_int32 readInt32.
Proof. eapply yields_bind; [apply yields_ReadFull|]. intros. apply yields_ret, int32_in. Qed.
Lemma yields_readInt64 M : yields M in_int64 readInt64.
Proof. eapply yields_bind; [apply yields_ReadFull|]. intros. apply yields_ret, int64_in. Qed.

(** A length of two bytes. *)
Lemma yields_readUTF M : yields M (short (2 ^ 16 - 1)) readUTF.
Proof.
  eapply yields_bind; [apply yields_ReadFull|]. intros b [[Hb _] Hl]. cbv zeta. pose proof (be_get_bound b Hb) as Hg. rewrite Hl in Hg.
  change (256 ^ Z.max 0 2) with (2 ^ 16) in Hg.
  apply yields_if; [apply yields_ret, short_nil; lia|].
  eapply yields_mono; [apply yields_ReadFull|]. intros a [[Ha _] Hn]. split; [done|]. lia.
Qed.

(** A length that is an [int32]. *)
Lemma yields_readText M : yields M (short (2 ^ 31 - 1)) readText.
Proof.
  eapply yields_bind; [apply yields_readVInt|]. intros n Hn. apply yields_if; [apply yields_fail|].
  apply yields_if; [apply yields_ret, short_nil; lia|].
  eapply yields_mono; [apply yields_ReadFull|]. intros a [[Ha _] Hl]. split; [done|]. unfold in_int32 in Hn. lia.
Qed.

Lemma yields_read_block M what body negative : yields M (short (2 ^ 31 - 1)) (read_block what body negative).
Proof.
  eapply yields_bind; [apply yields_wrap, yields_readVInt|]. intros n Hn. apply yields_if; [apply yields_fail|]. apply yields_wrap.
  eapply yields_mono; [apply yields_ReadFull|]. intros a [[Ha _] Hl]. split; [done|]. unfold in_int32 in Hn. lia.
Qed.

Lemma yields_make_bytes M n : yields M (fun _ => True) (make_bytes n).
Proof. apply yields_if; [apply yields_fail|by apply yields_ret]. Qed.

(** Bytes of the block the updates are in. *)
Lemma yields_readVBytes M : 0 <= M -> yields M (short M) readVBytes.
Proof.
  intros HM. eapply yields_bind; [apply yields_readVLong|]. intros n _. apply yields_if; [apply yields_fail|].
  apply yields_if; [apply yields_ret, short_nil; lia|].
  eapply yields_bind; [apply yields_make_bytes|]. intros _ _. eapply yields_mono; [apply yields_ReadFull|]. by intros a [Ha _].
Qed.

(** ** Keys and mutations *)

Create HintDb yields.
#[local] Hint Resolve yields_readBool yields_readInt32 yields_readInt64 yields_readUTF yields_readText yields_readVInt yields_readVLong : yields.

Ltac step := eapply yields_bind; [apply yields_wrap; auto with yields|intros ? ?].

Definition key_typed (k : LogFileKey) : Prop :=
  log_key_ok k /\ is_bytes (TServerSession k) /\ is_bytes (Filename k) /\
  match lk_Tablet k with
  | Some ke => is_bytes (TableID ke) /\ is_bytes (default [] (EndRow ke)) /\ is_bytes (default [] (PrevEndRow ke))
  | None => True
  end.

Lemma yields_read_optional M flag text : yields M (fun o => short (2 ^ 31 - 1) (default [] o)) (read_optional flag text).
Proof.
  assert (short (2 ^ 31 - 1) (default [] None)) as Hn by (by apply short_nil).
  unfold read_optional. step. apply yields_if; [step; by apply yields_ret|by apply yields_ret].
Qed.

Lemma yields_readKeyExtent M :
  yields M (fun ke => short (2 ^ 31 - 1) (TableID ke) /\ short (2 ^ 31 - 1) (default [] (EndRow ke)) /\ short (2 ^ 31 - 1) (default [] (PrevEndRow ke))) readKeyExtent.
Proof.
  unfold readKeyExtent. step. eapply yields_bind; [apply yields_read_optional|intros ? ?]. eapply yields_bind; [apply yields_read_optional|intros ? ?]. by apply yields_ret.
Qed.

Lemma plain_key_typed event tid seq :
  event <> EventOpen -> event <> EventDefineTablet -> in_int64 seq -> in_int32 tid -> key_typed (mkLogFileKey event tid seq [] [] None).
Proof.
  intros H1 H2 H3 H4. split; [|split_and!; by constructor]. split_and!; cbn [lk_Event lk_TabletID lk_Seq TServerSession Filename lk_Tablet]; done.
Qed.

(** A reader that starts with a byte takes it. *)
Definition starts {A} (P : A -> Prop) (p : reader A) : Prop := exists f, p = ReadByte ≫= f /\ forall M b, yields M P (f b).

Lemma starts_yields {A} M (P : A -> Prop) p : starts P p -> yields M P p.
Proof. intros (f & -> & Hf). eapply yields_bind; [apply yields_ReadByte|]. intros b _. apply Hf. Qed.

Lemma starts_shorter {A} (P : A -> Prop) p s a s' : starts P p -> is_bytes s -> p s = Ok (a, s') -> len s' < len s.
Proof.
  intros (f & -> & Hf) Hs. destruct s as [|b s]; [done|]. unfold mbind, reader_bind. cbn [ReadByte]. intros E. apply Forall_cons in Hs as [_ Hs].
  destruct (Hf (len s) b s a s' ltac:(split; [done|lia]) E) as [_ [_ Hl]]. rewrite len_cons. lia.
Qed.

Lemma starts_readKey : starts key_typed readKey.
Proof.
  assert (is_bytes []) as Hnil by constructor.
  eexists. split; [reflexivity|]. intros M ev. cbv beta. destruct (event_of ev) as [[]|]; [..|apply yields_fail].
  - step. apply yields_if; [apply yields_fail|]. eapply yields_bind; [apply yields_wrap, yields_readUTF|]. intros sess [Hs Hl]. apply yields_ret.
    split; [|done]. split_and!; cbn [lk_Event lk_TabletID lk_Seq TServerSession Filename lk_Tablet]; try done; unfold in_int64, in_int32; lia.
  - step. step. eapply yields_bind; [apply yields_wrap, yields_readKeyExtent|]. intros ke [[H1 H1'] [[H2 H2'] [H3 H3']]]. apply yields_ret.
    split; [|done]. split_and!; cbn [lk_Event lk_TabletID lk_Seq TServerSession Filename lk_Tablet]; try done. split_and!; [done|lia..].
  - step. step. by apply yields_ret, plain_key_typed.
  - step. step. by apply yields_ret, plain_key_typed.
  - step. step. eapply yields_bind; [apply yields_wrap, yields_readUTF|]. intros file [Hs Hl]. apply yields_ret.
    split; [|done]. split_and!; cbn [lk_Event lk_TabletID lk_Seq TServerSession Filename lk_Tablet]; try done; lia.
  - step. step. by apply yields_ret, plain_key_typed.
Qed.

Definition update_typed (e : MutationEntry) : Prop :=
  update_ok e /\ is_bytes (ColFamily e) /\ is_bytes (ColQualifier e) /\ is_bytes (ColVisibility e) /\ is_bytes (Value e) /\
  HasTimestamp e = negb (eTimestamp e =? MutationLatestTimestamp) /\ (eDeleted e = true -> Value e = []).

Definition mutation_typed (m : Mutation) : Prop :=
  m_row m <> [] /\ short (2 ^ 31 - 1) (m_row m) /\ len (m_entries m) < 2 ^ 31 /\ Forall update_typed (m_entries m).

Lemma pool_value N values i : 0 <= N -> Forall (short N) values -> short N (default [] (values !! i)).
Proof.
  intros HN Hv. destruct (values !! i) as [v|] eqn:E; [by apply (Forall_lookup_1 _ _ _ _ Hv E)|]. by apply short_nil.
Qed.

Lemma yields_decode_update values m :
  Forall (short (2 ^ 31 - 1)) values ->
  yields (2 ^ 31 - 1) (fun m' => exists e, update_typed e /\ m' = append_entry e m) (decode_update values m).
Proof.
  intros Hv.
  pose proof (yields_readVBytes (2 ^ 31 - 1) ltac:(lia)) as HB.
  eapply yields_bind; [apply yields_wrap, HB|]. intros cf [Hcf Lcf]. eapply yields_bind; [apply yields_wrap, HB|]. intros cq [Hcq Lcq].
  eapply yields_bind; [apply yields_wrap, HB|]. intros cv [Hcv Lcv]. step.
  eapply (yields_bind _ in_int64).
  { apply yields_if; [apply yields_wrap, yields_readVLong|apply yields_ret; unfold in_int64; lia]. }
  intros ts Hts. step. step. eapply (yields_bind _ (short (2 ^ 31 - 1))).
  { apply yields_if.
    - cbv zeta. apply yields_if; [apply yields_fail|]. apply yields_ret, pool_value; [lia|done].
    - apply yields_if; [apply yields_ret, short_nil; lia|]. eapply yields_bind; [apply yields_make_bytes|]. intros _ _. apply yields_wrap.
      eapply yields_mono; [apply yields_ReadFull|]. by intros b [Hb _]. }
  intros val [Hval Lval]. apply yields_ret. unfold Delete, Put.
  match goal with |- context [if ?b then _ else _] => destruct b end; eexists; (split; [|reflexivity]).
  all: unfold update_typed, update_ok, put_entry, delete_entry; cbn [ColFamily ColQualifier ColVisibility eTimestamp HasTimestamp Value eDeleted].
  all: assert (len (@nil Z) < 2 ^ 31) by done; split_and!; done || lia || by apply Forall_nil.
Qed.

Lemma yields_decode_updates values n m :
  Forall (short (2 ^ 31 - 1)) values ->
  yields (2 ^ 31 - 1) (fun m' => exists us, Forall update_typed us /\ length us = n /\ m' = Mutation.mkMutation (m_row m) (m_entries m ++ us)) (decode_updates n values m).
Proof.
  intros Hv. revert m. induction n as [|n IH]; intros m; cbn [decode_updates].
  - apply yields_ret. exists []. rewrite app_nil_r. split; [constructor|]. by destruct m.
  - eapply yields_bind; [by apply yields_decode_update|]. intros m' (e & He & ->). eapply yields_mono; [apply IH|].
    intros m'' (us & Hus & Hl & ->). exists (e :: us). split; [by constructor|]. split; [cbn; lia|].
    unfold append_entry. cbn [m_row m_entries]. by rewrite <-(assoc_L (++)).
Qed.

Lemma decodeMutation_typed row data n values m :
  short (2 ^ 31 - 1) row -> short (2 ^ 31 - 1) data -> in_int32 n -> Forall (short (2 ^ 31 - 1)) values ->
  decodeMutation row data n values = Ok m -> mutation_typed m.
Proof.
  intros Hrow Hdata Hn Hv. unfold decodeMutation, NewMutation. destruct (Z.eqb_spec (len row) 0) as [|Hr]; [done|]. cbn [mbind result_bind].
  destruct (decode_updates (Z.to_nat n) values (Mutation.mkMutation row []) data) as [[m' rest]|] eqn:E; [|done]. intros [= <-].
  destruct (yields_decode_updates values _ _ Hv data _ _ Hdata E) as [(us & Hus & Hl & ->) _]. cbn [m_row m_entries app].
  split; [cbn; by intros ->|]. split; [done|]. split; [|done]. unfold len, in_int32 in *. cbn [m_entries app]. lia.
Qed.

Lemma yields_readServerMutation M : yields M mutation_typed readServerMutation.
Proof.
  eapply yields_bind; [apply yields_ReadByte|]. intros first _. apply yields_if; [apply yields_fail|].
  eapply yields_bind; [apply yields_read_block|]. intros row Hrow. eapply yields_bind; [apply yields_read_block|]. intros data Hdata.
  eapply yields_bind; [apply yields_wrap, yields_readVInt|]. intros n Hn. apply yields_if; [apply yields_fail|].
  eapply (yields_bind _ (Forall (short (2 ^ 31 - 1)))).
  { apply yields_if; [|apply yields_ret; constructor]. eapply yields_bind; [apply yields_wrap, yields_readVInt|]. intros k _. apply yields_if; [apply yields_fail|].
    eapply yields_mono; [apply yields_read_n, yields_read_block|]. by intros l [Hl _]. }
  intros values Hv. eapply (yields_bind _ (fun _ => True)).
  { apply yields_if; [|by apply yields_ret]. eapply yields_bind; [apply yields_wrap, yields_readVInt|]. intros k _.
    eapply yields_bind; [apply yields_read_n, yields_wrap, yields_readText|]. intros ? _. by apply yields_ret. }
  intros _ _. eapply yields_bind; [apply yields_wrap, yields_readVLong|]. intros _ _. apply yields_lift. intros m. by apply decodeMutation_typed.
Qed.

Definition entry_typed (e : Entry) : Prop :=
  key_typed (en_Key e) /\ len (en_Value e) <= maxMutationsPerRecord /\ Forall mutation_typed (en_Value e).

Lemma yields_readValue M : yields M (fun v => len v <= maxMutationsPerRecord /\ Forall mutation_typed v) readValue.
Proof.
  eapply yields_bind; [apply yields_wrap, yields_readInt32|]. intros n _. destruct (Z.ltb_spec n 0); cbn [orb]; [apply yields_fail|].
  destruct (Z.gtb_spec n maxMutationsPerRecord); [apply yields_fail|].
  eapply yields_mono; [apply yields_read_n, yields_wrap, yields_readServerMutation|]. intros l [Hl E]. split; [unfold len; lia|done].
Qed.

Lemma yields_Next M : yields M entry_typed Next.
Proof.
  eapply yields_bind; [apply yields_rcatch, starts_yields, starts_readKey|]. intros k Hk.
  eapply yields_bind; [apply yields_wrap, yields_readValue|]. intros v Hv. by apply yields_ret.
Qed.

(** An entry takes at least the byte of its event. *)
Lemma Next_shorter s e s' : is_bytes s -> Next s = Ok (e, s') -> len s' < len s.
Proof.
  intros Hs. unfold Next, mbind, reader_bind, rcatch. destruct (readKey s) as [[k s1]|] eqn:Ek; [|done].
  pose proof (starts_shorter _ _ _ _ _ starts_readKey Hs Ek) as Hlt.
  destruct (starts_yields (len s) _ _ starts_readKey s _ _ ltac:(split; [done|lia]) Ek) as [_ [Hs1 _]].
  destruct (rwrap "qwal: decode value" readValue s1) as [[v s2]|] eqn:Ev; [|done]. intros [= <- <-].
  destruct (yields_wrap (len s1) _ "qwal: decode value" _ (yields_readValue _) s1 _ _ ltac:(split; [done|lia]) Ev) as [_ [_ Hl]]. lia.
Qed.

Lemma entries_loop_typed fuel s :
  is_bytes s -> (length s < fuel)%nat ->
  exists es tail, entries_loop fuel s = (Ok <$> es) ++ tail /\ Forall entry_typed es /\ (length es <= length s)%nat /\
    (tail = [] \/ exists x, tail = [Err x] /\ x <> EOF).
Proof.
  revert s. induction fuel as [|fuel IH]; intros s Hs Hf; [lia|]. cbn [entries_loop]. destruct (Next s) as [[e s']|x] eqn:E.
  - pose proof (Next_shorter _ _ _ Hs E) as Hlt. destruct (yields_Next (len s) s e s' ltac:(split; [done|lia]) E) as [He [Hs' _]].
    unfold len in Hlt. destruct (IH s' Hs' ltac:(lia)) as (es & tail & -> & Hes & Hl & Ht). exists (e :: es), tail.
    split; [done|]. split; [by constructor|]. split; [cbn; lia|done].
  - exists []. case_bool_decide; eexists; (split; [reflexivity|]); (split; [constructor|]); (split; [cbn; lia|]); [by left|right; by exists x].
Qed.

Lemma yields_readHeader M : yields M (fun _ => True) readHeader.
Proof.
  eapply yields_bind; [apply yields_rcatch, yields_ReadFull|]. intros magic _. apply yields_if; [|apply yields_if; apply yields_fail].
  eapply yields_bind; [apply yields_rcatch, yields_readInt32|]. intros n _. apply yields_if; [apply yields_fail|].
  apply yields_if; [apply yields_fail|by apply yields_ret].
Qed.

(** C22: whatever bytes a segment holds, decoding it ends, and what it
    delivers is well typed: each entry has the fields of its event and no
    others, integers of their width, as many mutations as a record may carry,
    and mutations with a row whose updates have bytes in every field, lengths
    that fit, and no value when they delete.  An error ends the stream. *)
Theorem decoder_is_well_typed s :
  is_bytes s ->
  match segment_entries s with
  | Err e => readHeader s = Err e
  | Ok results =>
      exists es tail, results = (Ok <$> es) ++ tail /\ Forall entry_typed es /\ (length es <= length s)%nat /\
        (tail = [] \/ exists x, tail = [Err x] /\ x <> EOF)
  end.
Proof.
  intros Hs. unfold segment_entries. destruct (readHeader s) as [[[] s1]|e] eqn:E; cbn [mbind result_bind]; [|done].
  destruct (yields_readHeader (len s) s _ _ ltac:(split; [done|lia]) E) as [_ [Hs1 Hl]]. unfold len in Hl.
  destruct (entries_loop_typed (S (length s1)) s1 Hs1 ltac:(lia)) as (es & tail & H1 & H2 & H3 & H4).
  exists es, tail. split; [exact H1|]. split; [done|]. split; [lia|done].
Qed.

(** A segment with a damaged byte: what is decoded before it is well typed. *)
Lemma decoder_is_well_typed_witness :
  let s := <[60%nat := 255]> (header_bytes ++ concat (entry_bytes <$> demo_segment)) in
  is_bytes s /\
  match segment_entries s with
  | Err e => readHeader s = Err e
  | Ok results =>
      exists es tail, results = (Ok <$> es) ++ tail /\ Forall entry_typed es /\ (length es <= length s)%nat /\
        (tail = [] \/ exists x, tail = [Err x] /\ x <> EOF)
  end.
Proof.
  intros s. assert (is_bytes s) as Hs.
  { assert (forallb (fun b => (0 <=? b) && (b <? 256)) s = true) as H by (vm_compute; reflexivity).
    apply Forall_forall. intros b Hb%list_elem_of_In. rewrite forallb_forall in H. specialize (H b Hb). unfold is_byte. lia. }
  split; [exact Hs|]. exact (decoder_is_well_typed s Hs).
Defined.
