(* ===== verification/Quorum.v ===== *)
(** * Quorum: which bytes of a write-ahead log segment are read
    (src/internal/qwal: quorum.go, reader.go)

    A segment is replicated to several peers.  Reading it asks every peer for
    the length of its replica, decides on a length, and streams that many
    bytes from a peer at that length.  The peers answer through gRPC, a
    parameter: what [ListSegments] returns at an address, and the chunks
    [ReadSegment] streams.  A stream ends; one that breaks with an error is
    not modelled, nor are contexts and connections. *)

From S2P Require Import Prelude LogFile.

(** ** Agreement (quorum.go) *)

Inductive AgreementOutcome :=
  SealedAgreed | ReadyToSeal | QuorumTruncate | SealedDivergence | UnsealedDivergence | NoPeers.

#[global] Instance AgreementOutcome_eq_dec : EqDecision AgreementOutcome.
Proof. solve_decision. Defined.

Record PeerView := mkView { Addr : bytes; Size : Z; Sealed : bool }.

Record AgreementResult := mkAgreement { Outcome : AgreementOutcome; AgreedSize : Z; MinSealedSize : Z; MaxSealedSize : Z }.

(** What the loop over the peers collects. *)
Record tally := mkTally { sizeCounts : gmap Z Z; anySealed : bool; maxSealed : Z; minSealed : Z }.

Definition count_peer (t : tally) (v : PeerView) : tally :=
  let counts := <[Size v := default 0 (sizeCounts t !! Size v) + 1]> (sizeCounts t) in
  if Sealed v then
    mkTally counts true (if Size v >? maxSealed t then Size v else maxSealed t) (if Size v <? minSealed t then Size v else minSealed t)
  else mkTally counts (anySealed t) (maxSealed t) (minSealed t).

Definition tally_peers (peers : list PeerView) : tally := foldl count_peer (mkTally ∅ false (-1) MaxInt64) peers.

Section agreement.
(** The order a Go map is ranged over. *)
Context (order : gmap Z Z -> list (Z * Z)).

Definition quorum_size (n : Z) (counts : gmap Z Z) : option Z :=
  fst <$> List.find (fun p => p.2 >=? n ÷ 2 + 1) (order counts).

Definition EvaluatePeerAgreement (peers : list PeerView) : AgreementResult :=
  if len peers =? 0 then mkAgreement NoPeers (-1) (-1) (-1)
  else
    let t := tally_peers peers in
    if anySealed t && negb (maxSealed t =? minSealed t) then mkAgreement SealedDivergence (-1) (minSealed t) (maxSealed t)
    else
      match quorum_size (len peers) (sizeCounts t) with
      | None => mkAgreement UnsealedDivergence (-1) (-1) (-1)
      | Some quorumSize =>
          if anySealed t then
            if maxSealed t =? quorumSize then mkAgreement SealedAgreed quorumSize quorumSize quorumSize
            else mkAgreement SealedDivergence (-1) (maxSealed t) (maxSealed t)
          else if Z.of_nat (base.size (sizeCounts t)) =? 1 then mkAgreement ReadyToSeal quorumSize (-1) (-1)
          else mkAgreement QuorumTruncate quorumSize (-1) (-1)
      end.

Definition Retryable (r : AgreementResult) : bool := bool_decide (Outcome r = UnsealedDivergence).

(** ** Resolving a segment (reader.go) *)

Definition ErrSegmentLost : err := Fail "qwal: segment not found on any peer sidecar".
Definition ErrDivergence : err := Fail "qwal: sealed-replica size divergence; operator action required".

Record SegmentInfo := mkInfo { si_Uuid : bytes; si_Size : Z; si_Sealed : bool }.

(** [ListSegments] at an address; a peer that cannot be dialled errs too. *)
Context (ListSegments : bytes -> result (list SegmentInfo)).

Definition queryPeer (addr segmentUUID : bytes) : result (option PeerView) :=
  infos ← ListSegments addr;
  Ok ((fun info => mkView addr (si_Size info) (si_Sealed info)) <$> List.find (fun info => bool_decide (si_Uuid info = segmentUUID)) infos).

Fixpoint query_all (peerAddrs : list bytes) (segmentUUID : bytes) : list PeerView :=
  match peerAddrs with
  | [] => []
  | addr :: peerAddrs =>
      match queryPeer addr segmentUUID with
      | Ok (Some view) => view :: query_all peerAddrs segmentUUID
      | _ => query_all peerAddrs segmentUUID
      end
  end.

Record SegmentResult := mkSegment { Agreement : AgreementResult; Peers : list PeerView; SourcePeer : bytes }.

Definition source_peer (agreed : Z) (views : list PeerView) : bytes :=
  match List.find (fun v => Size v =? agreed) views with Some v => Addr v | None => [] end.

Definition Resolve (peerAddrs : list bytes) (segmentUUID : bytes) : SegmentResult * option err :=
  let views := query_all peerAddrs segmentUUID in
  let agreement := EvaluatePeerAgreement views in
  let res := mkSegment agreement views [] in
  match Outcome agreement with
  | NoPeers => (res, Some ErrSegmentLost)
  | SealedDivergence => (res, Some (Wrap "peers" ErrDivergence))
  | UnsealedDivergence => (res, Some (Fail "qwal: no quorum on segment (retryable)"))
  | SealedAgreed | ReadyToSeal | QuorumTruncate =>
      let res := mkSegment agreement views (source_peer (AgreedSize agreement) views) in
      if bool_decide (SourcePeer res = []) then (res, Some (Fail "qwal: no peer at agreed size")) else (res, None)
  end.
End agreement.

(** ** Streaming (reader.go) *)

Record SegmentChunk := mkChunk { Data : bytes; Last : bool }.

(** [limit]: 0 is no cap.  [stream]: the chunks still to be received. *)
Record chunkReader := mkChunkReader { cr_stream : list SegmentChunk; cr_limit : Z; cr_buf : bytes; cr_served : Z; cr_done : bool }.

Definition set_done (c : chunkReader) : chunkReader := mkChunkReader (cr_stream c) (cr_limit c) (cr_buf c) (cr_served c) true.

(** The chunk, cut at the limit. *)
Definition receive (c : chunkReader) (chunk : SegmentChunk) (stream : list SegmentChunk) : chunkReader :=
  let data := if (cr_limit c >? 0) && (len (Data chunk) >? cr_limit c - cr_served c)
              then take (Z.to_nat (cr_limit c - cr_served c)) (Data chunk) else Data chunk in
  mkChunkReader stream (cr_limit c) data (cr_served c + len data) (if Last chunk then true else cr_done c).

(** Each turn receives a chunk. *)
Fixpoint fill (fuel : nat) (c : chunkReader) : chunkReader * bool :=
  match fuel with
  | O => (c, false)
  | S fuel =>
      if negb (bool_decide (cr_buf c = [])) then (c, true)
      else if cr_done c then (c, false)
      else if (cr_limit c >? 0) && (cr_served c >=? cr_limit c) then (set_done c, false)
      else match cr_stream c with
           | [] => (set_done c, false)
           | chunk :: stream => fill fuel (receive c chunk stream)
           end
  end.

(** [Read(p)] with [len(p) = n]. *)
Definition Read (n : nat) (c : chunkReader) : chunkReader * result bytes :=
  match fill (S (S (length (cr_stream c)))) c with
  | (c, false) => (c, Err EOF)
  | (c, true) => (mkChunkReader (cr_stream c) (cr_limit c) (drop n (cr_buf c)) (cr_served c) (cr_done c), Ok (take n (cr_buf c)))
  end.

(** The bytes the reader delivers. *)
Fixpoint deliver (limit served : Z) (stream : list SegmentChunk) : bytes :=
  if (limit >? 0) && (served >=? limit) then []
  else match stream with
       | [] => []
       | chunk :: stream =>
           let data := if (limit >? 0) && (len (Data chunk) >? limit - served) then take (Z.to_nat (limit - served)) (Data chunk) else Data chunk in
           data ++ (if Last chunk then [] else deliver limit (served + len data) stream)
       end.

(** [ReadSegment] at an address, with the offset zero and the most bytes asked for. *)
Definition open_stream (ReadSegment : bytes -> Z -> result (list SegmentChunk)) (res : SegmentResult) : result chunkReader :=
  stream ← wrap "qwal: ReadSegment" (ReadSegment (SourcePeer res) (AgreedSize (Agreement res)));
  Ok (mkChunkReader stream (AgreedSize (Agreement res)) [] 0 false).

(** ** Majorities *)

Definition count (P : PeerView -> bool) (views : list PeerView) : Z := len (filter (fun v => P v = true) views).
Definition at_size (s : Z) (v : PeerView) : bool := Size v =? s.
Definition majority (s : Z) (views : list PeerView) : Prop := len views < 2 * count (at_size s) views.
Definition view_ok (v : PeerView) : Prop := 0 <= Size v < 2 ^ 63.

Lemma count_cons P v views : count P (v :: views) = (if P v then 1 else 0) + count P views.
Proof. unfold count. rewrite filter_cons. by destruct (P v); case_decide; rewrite ?len_cons. Qed.

Lemma count_nonneg P views : 0 <= count P views.
Proof. apply len_nonneg. Qed.

(** Two properties no peer has both of. *)
Lemma count_disjoint P Q views : (forall v, P v = true -> Q v = true -> False) -> count P views + count Q views <= len views.
Proof.
  intros Hd. induction views as [|v views IH]; [done|]. rewrite !count_cons, len_cons. specialize (Hd v).
  destruct (P v), (Q v); try lia.
Qed.

Lemma majority_unique s s' views : majority s views -> majority s' views -> s = s'.
Proof.
  unfold majority. intros H1 H2. destruct (decide (s = s')) as [|Hne]; [done|].
  pose proof (count_disjoint (at_size s) (at_size s') views) as H. unfold at_size in H at 1 2.
  assert (count (at_size s) views + count (at_size s') views <= len views); [|lia]. apply H. intros v ?%Z.eqb_eq ?%Z.eqb_eq. congruence.
Qed.

Lemma foldl_count views t s :
  default 0 (sizeCounts (foldl count_peer t views) !! s) = default 0 (sizeCounts t !! s) + count (at_size s) views /\
  ((forall s c, sizeCounts t !! s = Some c -> 0 < c) -> forall s c, sizeCounts (foldl count_peer t views) !! s = Some c -> 0 < c).
Proof.
  revert t. induction views as [|v views IH]; intros t; [cbn [foldl]; change (count (at_size s) []) with 0; split; [lia|done]|]. cbn [foldl].
  destruct (IH (count_peer t v)) as [H1 H2]. rewrite H1, count_cons. clear H1 IH.
  assert (sizeCounts (count_peer t v) = <[Size v := default 0 (sizeCounts t !! Size v) + 1]> (sizeCounts t)) as E by (unfold count_peer; by destruct (Sealed v)).
  rewrite E in H2 |- *. split.
  - change (at_size s v) with (Size v =? s). destruct (Z.eqb_spec (Size v) s) as [->|Hne]; [rewrite lookup_insert_eq; cbn [from_option id]; lia|rewrite lookup_insert_ne by done; lia].
  - intros Hpos. apply H2. intros s' c [[<- <-]|[_ Hc]]%lookup_insert_Some; [|by eapply Hpos].
    destruct (sizeCounts t !! Size v) as [c|] eqn:Ec; cbn [from_option id]; [|lia]. specialize (Hpos _ _ Ec). lia.
Qed.

Lemma tally_counts views s c : sizeCounts (tally_peers views) !! s = Some c <-> c = count (at_size s) views /\ 0 < c.
Proof.
  destruct (foldl_count views (mkTally ∅ false (-1) MaxInt64) s) as [H1 H2]. fold (tally_peers views) in H1, H2. cbn [sizeCounts] in H1, H2.
  rewrite lookup_empty in H1. cbn [from_option id] in H1. specialize (H2 ltac:(intros ? ?; by rewrite lookup_empty)).
  destruct (sizeCounts (tally_peers views) !! s) as [c'|] eqn:E; cbn [from_option id] in H1.
  - split; [intros [= <-]; split; [lia|by apply (H2 s)]|intros [-> _]; f_equal; lia].
  - split; [done|lia].
Qed.

(** The sealed sizes collected. *)
Lemma foldl_sealed views t :
  Forall view_ok views ->
  let r := foldl count_peer t views in
  anySealed r = anySealed t || existsb Sealed views /\
  maxSealed t <= maxSealed r /\ minSealed r <= minSealed t /\
  (forall v, v ∈ views -> Sealed v = true -> minSealed r <= Size v <= maxSealed r) /\
  (maxSealed r = maxSealed t \/ exists v, v ∈ views /\ Sealed v = true /\ Size v = maxSealed r) /\
  (minSealed r = minSealed t \/ exists v, v ∈ views /\ Sealed v = true /\ Size v = minSealed r).
Proof.
  intros Hv. revert t. induction Hv as [|v views Hok Hv IH]; intros t; cbn zeta; [cbn; rewrite orb_false_r; split_and!; [done|lia|lia|by intros ? ?%elem_of_nil|by left|by left]|].
  cbn [foldl existsb]. destruct (IH (count_peer t v)) as (H1 & H2 & H3 & H4 & H5 & H6). set (r := foldl count_peer (count_peer t v) views) in *.
  assert (anySealed (count_peer t v) = anySealed t || Sealed v) as Ea by (unfold count_peer; destruct (Sealed v); cbn; [by rewrite orb_true_r|by rewrite orb_false_r]).
  rewrite H1, Ea, orb_assoc. split; [done|].
  assert (Sealed v = true /\ maxSealed (count_peer t v) = Z.max (maxSealed t) (Size v) /\ minSealed (count_peer t v) = Z.min (minSealed t) (Size v) \/
          Sealed v = false /\ maxSealed (count_peer t v) = maxSealed t /\ minSealed (count_peer t v) = minSealed t) as Hc.
  { unfold count_peer. destruct (Sealed v); [left|right; done]. cbn [maxSealed minSealed]. split; [done|].
    destruct (Size v >? maxSealed t) eqn:E1, (Size v <? minSealed t) eqn:E2; lia. }
  split; [lia|]. split; [lia|]. split; [|split].
  - intros w [->|Hw]%elem_of_cons Hs; [destruct Hc as [(_ & E1 & E2)|[Hc _]]; [lia|congruence]|by apply H4].
  - destruct H5 as [H5|(w & Hw & Hs & E)]; [|right; exists w; split; [by right|done]].
    destruct Hc as [(Hs & E1 & E2)|(_ & E1 & E2)]; [|left; lia]. destruct (Z.max_spec (maxSealed t) (Size v)) as [[_ E]|[_ E]]; [right; exists v; split; [by left|split; [done|lia]]|left; lia].
  - destruct H6 as [H6|(w & Hw & Hs & E)]; [|right; exists w; split; [by right|done]].
    destruct Hc as [(Hs & E1 & E2)|(_ & E1 & E2)]; [|left; lia]. destruct (Z.min_spec (minSealed t) (Size v)) as [[_ E]|[_ E]]; [left; lia|right; exists v; split; [by left|split; [done|lia]]].
Qed.

Lemma tally_sealed views :
  Forall view_ok views ->
  anySealed (tally_peers views) = existsb Sealed views /\
  (existsb Sealed views = true ->
   (maxSealed (tally_peers views) = minSealed (tally_peers views) <-> forall v w, v ∈ views -> w ∈ views -> Sealed v = true -> Sealed w = true -> Size v = Size w) /\
   exists v, v ∈ views /\ Sealed v = true /\ Size v = maxSealed (tally_peers views)).
Proof.
  intros Hv. destruct (foldl_sealed views (mkTally ∅ false (-1) MaxInt64) Hv) as (H1 & H2 & H3 & H4 & H5 & H6).
  fold (tally_peers views) in H1, H2, H3, H4, H5, H6. cbn [anySealed maxSealed minSealed orb] in *. split; [done|].
  intros (u & Hu%list_elem_of_In & Hs)%existsb_exists. pose proof (H4 u Hu Hs) as Hb. pose proof (proj1 (Forall_forall _ _) Hv u Hu) as Hok. unfold view_ok in Hok.
  destruct H5 as [H5|Hmax]; [lia|]. split; [|done]. destruct H6 as [H6|Hmin].
  { unfold MaxInt64 in H6. split.
    - intros E v w Hiv Hiw Hsv Hsw. pose proof (H4 v Hiv Hsv). pose proof (H4 w Hiw Hsw). lia.
    - intros Hall. destruct Hmax as (v & Hiv & Hsv & Ev). rewrite <-Ev. pose proof (Hall v u Hiv Hu Hsv Hs). unfold MaxInt64 in *. lia. }
  split.
  - intros E v w Hiv Hiw Hsv Hsw. pose proof (H4 v Hiv Hsv). pose proof (H4 w Hiw Hsw). lia.
  - intros Hall. destruct Hmax as (v & Hiv & Hsv & Ev), Hmin as (w & Hiw & Hsw & Ew). rewrite <-Ev, <-Ew. by apply Hall.
Qed.

(** ** The decision *)

Section decision.
Context (order : gmap Z Z -> list (Z * Z)) (Horder : forall m, order m ≡ₚ map_to_list m).

Lemma quorum_size_ok views s :
  quorum_size order (len views) (sizeCounts (tally_peers views)) = Some s <-> majority s views.
Proof.
  unfold quorum_size. pose proof (len_nonneg views) as Hn.
  assert (len views ÷ 2 = len views / 2) as -> by (by apply Z.quot_div_nonneg).
  assert (forall c, (c >=? len views / 2 + 1) = true <-> len views < 2 * c) as Hq.
  { intros c. pose proof (Z.div_mod (len views) 2 ltac:(lia)). pose proof (Z.mod_pos_bound (len views) 2 ltac:(lia)). rewrite Z.geb_le. lia. }
  assert (forall p, p ∈ order (sizeCounts (tally_peers views)) <-> p.2 = count (at_size p.1) views /\ 0 < p.2) as Hin.
  { intros [z c]. rewrite Horder, elem_of_map_to_list. apply tally_counts. }
  destruct (List.find _ _) as [[z c]|] eqn:E; cbn [fmap option_fmap option_map fst].
  - apply find_some in E as [Hz%list_elem_of_In Hc%Hq]. apply Hin in Hz as [E _]. cbn [fst snd] in *. subst c. split; [intros [= <-]; exact Hc|].
    intros Hm. f_equal. by eapply majority_unique.
  - split; [done|]. intros Hm. exfalso. pose proof (count_nonneg (at_size s) views). unfold majority in Hm.
    assert ((s, count (at_size s) views) ∈ order (sizeCounts (tally_peers views))) as Hs by (apply Hin; cbn [fst snd]; split; [done|lia]).
    eapply find_none in E; [|by apply list_elem_of_In]. cbn [snd] in E. rewrite (proj2 (Hq _) Hm) in E. done.
Qed.

Definition agreed (r : AgreementResult) : bool :=
  match Outcome r with SealedAgreed | ReadyToSeal | QuorumTruncate => true | _ => false end.

Lemma agreed_iff views s :
  Forall view_ok views -> let r := EvaluatePeerAgreement order views in
  (agreed r = true /\ AgreedSize r = s) <-> majority s views /\ forall v, v ∈ views -> Sealed v = true -> Size v = s.
Proof.
  intros Hv. cbn zeta. unfold EvaluatePeerAgreement. destruct (Z.eqb_spec (len views) 0) as [E|Hne].
  { apply len_0_nil in E as ->. split; [by intros []|]. intros [Hm _]. unfold majority in Hm. by cbn in Hm. }
  destruct (tally_sealed views Hv) as [Ha Hs]. cbv zeta. rewrite Ha.
  destruct (existsb Sealed views) eqn:Ex.
  - destruct (Hs eq_refl) as [Hsame (u & Hu & Hus & Eu)]. cbn [andb].
    destruct (Z.eqb_spec (maxSealed (tally_peers views)) (minSealed (tally_peers views))) as [E|Hd]; cbn [negb].
    + pose proof (proj1 Hsame E) as Hall1. destruct (quorum_size order (len views) _) as [q|] eqn:Eq.
      * apply quorum_size_ok in Eq. destruct (Z.eqb_spec (maxSealed (tally_peers views)) q) as [<-|Hmq]; cbn [agreed Outcome AgreedSize].
        -- split.
           ++ intros [_ <-]. split; [done|]. intros v Hiv Hsv. rewrite <-Eu. by apply Hall1.
           ++ intros [Hm Hall]. split; [done|]. by eapply majority_unique.
        -- split; [by intros []|]. intros [Hm Hall]. exfalso. apply Hmq. rewrite <-Eu, (Hall u Hu Hus). by eapply majority_unique.
      * split; [by intros []|]. intros [Hm _]. apply quorum_size_ok in Hm. congruence.
    + split; [by intros []|]. intros [_ Hall]. exfalso. apply Hd, (proj2 Hsame). intros v w Hiv Hiw Hsv Hsw. by rewrite (Hall v), (Hall w).
  - cbn [andb]. assert (forall v, v ∈ views -> Sealed v = true -> False) as Hno.
    { intros v Hiv%list_elem_of_In Hsv. assert (existsb Sealed views = true); [|congruence]. apply existsb_exists. by exists v. }
    destruct (quorum_size order (len views) _) as [q|] eqn:Eq.
    + apply quorum_size_ok in Eq. split.
      * intros [_ E]. assert (q = s) as -> by (by destruct (_ =? 1)). split; [done|]. intros v Hiv Hsv. by destruct (Hno v).
      * intros [Hm _]. pose proof (majority_unique _ _ _ Eq Hm) as ->. by destruct (_ =? 1).
    + split; [by intros []|]. intros [Hm _]. apply quorum_size_ok in Hm. congruence.
Qed.

Lemma find_addr s views v : List.find (fun v => Size v =? s) views = Some v -> v ∈ views /\ Size v = s.
Proof. intros [Hv%list_elem_of_In E%Z.eqb_eq]%find_some. done. Qed.

(** Where a segment resolves, it resolves to a majority's length and a peer
    that has it. *)
Lemma Resolve_ok ListSegments addrs uuid res :
  Forall view_ok (query_all ListSegments addrs uuid) -> Resolve order ListSegments addrs uuid = (res, None) ->
  let views := query_all ListSegments addrs uuid in
  let s := AgreedSize (Agreement res) in
  majority s views /\ (forall v, v ∈ views -> Sealed v = true -> Size v = s) /\ exists v, v ∈ views /\ Size v = s /\ Addr v = SourcePeer res.
Proof.
  intros Hv. cbn zeta. unfold Resolve. set (views := query_all ListSegments addrs uuid) in *. set (r := EvaluatePeerAgreement order views).
  assert (agreed r = true -> (mkSegment r views (source_peer (AgreedSize r) views), None) = (res, @None err) ->
    SourcePeer (mkSegment r views (source_peer (AgreedSize r) views)) <> [] ->
    let s := AgreedSize (Agreement res) in
    majority s views /\ (forall v, v ∈ views -> Sealed v = true -> Size v = s) /\ exists v, v ∈ views /\ Size v = s /\ Addr v = SourcePeer res) as H.
  { intros Hag [= <-] Hne. cbn zeta. cbn [Agreement SourcePeer] in *.
    destruct (proj1 (agreed_iff views (AgreedSize r) Hv) (conj Hag eq_refl)) as [Hm Hall]. split; [done|]. split; [done|].
    unfold source_peer in *. destruct (List.find _ views) as [v|] eqn:E; [|done]. apply find_addr in E as [Hiv Es]. by exists v. }
  destruct (Outcome r) eqn:Eo; try done; (case_bool_decide as Eb; [done|]; intros E; apply H; [unfold agreed; by rewrite Eo|exact E|exact Eb]).
Qed.
End decision.

(** ** Streaming *)

(** The bytes still to be delivered. *)
Definition delivered (c : chunkReader) : bytes :=
  cr_buf c ++ (if cr_done c then [] else deliver (cr_limit c) (cr_served c) (cr_stream c)).

Lemma fill_ok fuel c :
  (S (length (cr_stream c)) < fuel)%nat ->
  let '(c', b) := fill fuel c in
  delivered c' = delivered c /\ (if b then cr_buf c' <> [] else cr_buf c' = [] /\ cr_done c' = true).
Proof.
  revert c. induction fuel as [|fuel IH]; intros c Hf; [lia|]. cbn [fill]. case_bool_decide as Eb; cbn [negb]; [|by split].
  destruct (cr_done c) eqn:Ed; [by split|].
  assert (delivered c = deliver (cr_limit c) (cr_served c) (cr_stream c)) as E by (unfold delivered; by rewrite Eb, Ed).
  destruct ((cr_limit c >? 0) && (cr_served c >=? cr_limit c)) eqn:El.
  { split; [|by split]. rewrite E. unfold delivered. cbn [set_done cr_buf cr_done]. rewrite Eb. destruct (cr_stream c); cbn [deliver]; by rewrite El. }
  destruct (cr_stream c) as [|chunk stream] eqn:Es.
  { split; [|by split]. rewrite E. unfold delivered. cbn [set_done cr_buf cr_done]. rewrite Eb. cbn [deliver]. by rewrite El. }
  cbn [length] in Hf. specialize (IH (receive c chunk stream)). cbn [receive cr_stream] in IH. specialize (IH ltac:(lia)).
  destruct (fill fuel (receive c chunk stream)) as [c' b]. destruct IH as [H1 H2]. split; [|done]. rewrite H1, E.
  cbn [deliver]. rewrite El. unfold delivered. cbn [receive cr_buf cr_done cr_limit cr_served cr_stream]. rewrite Ed.
  by destruct (Last chunk).
Qed.

(** [Read] delivers the bytes in order, and the end after the last. *)
Lemma Read_ok n c :
  (0 < n)%nat ->
  match Read n c with
  | (c', Ok p) => p <> [] /\ (length p <= n)%nat /\ delivered c = p ++ delivered c'
  | (c', Err e) => e = EOF /\ delivered c = [] /\ delivered c' = []
  end.
Proof.
  intros Hn. unfold Read. pose proof (fill_ok (S (S (length (cr_stream c)))) c ltac:(lia)) as H.
  destruct (fill _ c) as [c' [|]]; destruct H as [H1 H2].
  - split; [|split; [rewrite length_take; lia|]].
    + destruct (cr_buf c') as [|b l]; [done|]. destruct n; [lia|]. done.
    + rewrite <-H1. unfold delivered. cbn [cr_buf cr_done cr_limit cr_served cr_stream]. by rewrite app_assoc, take_drop.
  - destruct H2 as [E1 E2]. split; [done|]. rewrite <-H1. unfold delivered. by rewrite E1, E2.
Qed.

Lemma len_take {A} n (l : list A) : len (take n l) = Z.min (Z.of_nat n) (len l).
Proof. unfold len. rewrite length_take. lia. Qed.

(** Only the last chunk says so. *)
Fixpoint last_flagged (stream : list SegmentChunk) : Prop :=
  match stream with [] => True | [_] => True | chunk :: stream => Last chunk = false /\ last_flagged stream end.

Lemma deliver_limit limit served stream :
  0 < limit -> served <= limit -> last_flagged stream ->
  deliver limit served stream = take (Z.to_nat (limit - served)) (concat (Data <$> stream)).
Proof.
  intros Hl. revert served. induction stream as [|chunk stream IH]; intros served Hs Hf; cbn [deliver].
  { change (concat (Data <$> [])) with (@nil Z). rewrite take_nil. by destruct (_ && _). }
  rewrite (proj2 (Z.gtb_lt limit 0)) by lia. cbn [andb]. destruct (Z.geb_spec served limit) as [H|H].
  { by replace (Z.to_nat (limit - served)) with 0%nat by lia. }
  cbn [fmap list_fmap concat]. rewrite take_app. destruct (Z.gtb_spec (len (Data chunk)) (limit - served)) as [Hc|Hc].
  - replace (Z.to_nat (limit - served) - length (Data chunk))%nat with 0%nat by (unfold len in Hc; lia). rewrite take_0, app_nil_r.
    destruct (Last chunk); [by rewrite app_nil_r|].
    replace (served + len (take (Z.to_nat (limit - served)) (Data chunk))) with limit by (rewrite len_take; lia).
    rewrite IH; [|lia|by destruct stream; [|destruct Hf]]. by rewrite Z.sub_diag, app_nil_r.
  - rewrite (take_ge (Data chunk)) by (unfold len in Hc; lia). f_equal. destruct stream as [|chunk2 stream].
    + change (concat (Data <$> [])) with (@nil Z). rewrite take_nil. destruct (Last chunk); [done|]. cbn [deliver]. by destruct (_ && _).
    + destruct Hf as [-> Hf]. rewrite IH by (done || lia). f_equal. unfold len. lia.
Qed.

(** ** Reading a segment *)

(** [Reader.Open]: the stream of the agreed bytes, past the header; its
    entries are then read from it. *)
Definition open_entries (order : gmap Z Z -> list (Z * Z)) (ListSegments : bytes -> result (list SegmentInfo))
    (ReadSegment : bytes -> Z -> result (list SegmentChunk)) (peerAddrs : list bytes) (segmentUUID : bytes) : result (list (result Entry)) :=
  match Resolve order ListSegments peerAddrs segmentUUID with
  | (_, Some e) => Err e
  | (res, None) => c ← open_stream ReadSegment res; segment_entries (delivered c)
  end.

Section read.
Context (order : gmap Z Z -> list (Z * Z)) (Horder : forall m, order m ≡ₚ map_to_list m).
Context (ListSegments : bytes -> result (list SegmentInfo)) (ReadSegment : bytes -> Z -> result (list SegmentChunk)).
Context (addrs : list bytes) (uuid : bytes).
(** What each peer's replica holds when it is asked, whether it is sealed,
    and what it holds when it is read. *)
Context (replica : bytes -> bytes) (sealed : bytes -> bool) (grown : bytes -> bytes).

Record cluster (log : bytes) : Prop := {
  cl_short : len log < 2 ^ 63;
  cl_prefix a : a ∈ addrs -> replica a `prefix_of` log;
  cl_grown a : a ∈ addrs -> replica a `prefix_of` grown a;
  cl_answers a : a ∈ addrs -> queryPeer ListSegments a uuid = Ok (Some (mkView a (len (replica a)) (sealed a)));
  cl_serves a m : a ∈ addrs -> 0 < m -> exists stream, ReadSegment a m = Ok stream /\ last_flagged stream /\
    take (Z.to_nat m) (grown a) `prefix_of` concat (Data <$> stream) /\ concat (Data <$> stream) `prefix_of` grown a;
}.

(** A majority of the peers has stored as many bytes. *)
Definition acknowledged (n : Z) : Prop := len addrs < 2 * len (filter (fun a => n <= len (replica a)) addrs).

Lemma query_all_answers log :
  cluster log -> query_all ListSegments addrs uuid = (fun a => mkView a (len (replica a)) (sealed a)) <$> addrs.
Proof.
  intros Hc. pose proof (cl_answers _ Hc) as H. clear Hc. induction addrs as [|a l IH]; [done|]. cbn [query_all fmap list_fmap].
  rewrite H by (by left). f_equal. apply IH. intros b Hb. apply H. by right.
Qed.

Lemma count_acknowledged n l :
  len (filter (fun a => n <= len (replica a)) l) = count (fun v => n <=? Size v) ((fun a => mkView a (len (replica a)) (sealed a)) <$> l).
Proof.
  induction l as [|a l IH]; [done|]. cbn [fmap list_fmap]. rewrite count_cons, <-IH, filter_cons. cbn [Size].
  destruct (Z.leb_spec n (len (replica a))); case_decide; rewrite ?len_cons; lia.
Qed.

Lemma prefix_take {A} (l k : list A) : l `prefix_of` k -> l = take (length l) k.
Proof. intros [r ->]. by rewrite take_app_length. Qed.

Lemma resolved log res n :
  cluster log -> acknowledged n -> Resolve order ListSegments addrs uuid = (res, None) ->
  n <= AgreedSize (Agreement res) /\
  (0 < AgreedSize (Agreement res) -> exists c, open_stream ReadSegment res = Ok c /\ delivered c = take (Z.to_nat (AgreedSize (Agreement res))) log).
Proof.
  intros Hc Ha Hr. set (views := (fun a => mkView a (len (replica a)) (sealed a)) <$> addrs).
  assert (query_all ListSegments addrs uuid = views) as Eq by (by eapply query_all_answers).
  assert (Forall view_ok views) as Hok.
  { apply Forall_forall. intros v (a & -> & Hin)%list_elem_of_fmap. unfold view_ok. cbn [Size]. pose proof (len_nonneg (replica a)).
    destruct (cl_prefix _ Hc a Hin) as [r E]. pose proof (cl_short _ Hc). rewrite E, len_app in *. pose proof (len_nonneg r). lia. }
  rewrite <-Eq in Hok. destruct (Resolve_ok order Horder ListSegments addrs uuid res Hok Hr) as (Hm & _ & v & Hv & Es & Ev). rewrite Eq in Hm, Hv.
  set (s := AgreedSize (Agreement res)) in *.
  apply list_elem_of_fmap in Hv as (a & -> & Hin). cbn [Addr Size] in *. split.
  - destruct (Z.le_gt_cases n s) as [|Hlt]; [done|]. exfalso. unfold acknowledged in Ha. rewrite count_acknowledged in Ha. fold views in Ha.
    pose proof (count_disjoint (at_size s) (fun v => n <=? Size v) views) as Hd. unfold majority in Hm.
    assert (len views = len addrs) as El by (unfold len, views; by rewrite length_fmap).
    assert (count (at_size s) views + count (fun v => n <=? Size v) views <= len views); [|lia].
    apply Hd. intros w E1%Z.eqb_eq E2%Z.leb_le. lia.
  - intros Hpos. destruct (cl_serves _ Hc a s Hin Hpos) as (stream & Hs & Hf & Hp1 & Hp2). unfold open_stream. rewrite <-Ev. fold s. rewrite Hs.
    eexists. split; [done|]. unfold delivered. cbn [cr_buf cr_done cr_limit cr_served cr_stream app]. rewrite deliver_limit, Z.sub_0_r by (done || lia).
    assert (Z.to_nat s = length (replica a)) as En by (rewrite <-Es; unfold len; lia).
    pose proof (prefix_take _ _ (cl_prefix _ Hc a Hin)) as E1. pose proof (prefix_take _ _ (cl_grown _ Hc a Hin)) as E2.
    rewrite En, <-E1. rewrite En, <-E2 in Hp1. by rewrite <-(prefix_take _ _ Hp1).
Qed.

(** ** Properties *)

End read.

(** The agreement is decided by majority.  A length is agreed on exactly
    when more than half of the peers that answered have it and no sealed
    replica has another, whatever order the sizes are counted in; so it is
    unique, and two callers that see the same replicas read the same bytes. *)
Theorem agreement_decides order order' views s :
  (forall m, order m ≡ₚ map_to_list m) -> (forall m, order' m ≡ₚ map_to_list m) -> Forall view_ok views ->
  ((agreed (EvaluatePeerAgreement order views) = true /\ AgreedSize (EvaluatePeerAgreement order views) = s) <->
   majority s views /\ forall v, v ∈ views -> Sealed v = true -> Size v = s) /\
  EvaluatePeerAgreement order views = EvaluatePeerAgreement order' views.
Proof.
  intros H H' Hv. split; [exact (agreed_iff order H views s Hv)|]. unfold EvaluatePeerAgreement.
  assert (quorum_size order (len views) (sizeCounts (tally_peers views)) = quorum_size order' (len views) (sizeCounts (tally_peers views))) as ->; [|done].
  destruct (quorum_size order _ _) as [q|] eqn:E.
  - apply (quorum_size_ok order H) in E. symmetry. by apply (quorum_size_ok order' H').
  - destruct (quorum_size order' _ _) as [q|] eqn:E'; [|done]. apply (quorum_size_ok order' H'), (quorum_size_ok order H) in E'. congruence.
Qed.

Definition demo_views : list PeerView := [mkView [1] 100 false; mkView [2] 120 false; mkView [3] 100 true].

Lemma agreement_decides_witness :
  EvaluatePeerAgreement map_to_list demo_views = EvaluatePeerAgreement (fun m => reverse (map_to_list m)) demo_views /\
  agreed (EvaluatePeerAgreement map_to_list demo_views) = true /\ AgreedSize (EvaluatePeerAgreement map_to_list demo_views) = 100.
Proof.
  split; [|split; vm_compute; reflexivity].
  refine (proj2 (agreement_decides map_to_list (fun m => reverse (map_to_list m)) demo_views 100 (fun m => reflexivity _) _ _)).
  - intros m. apply reverse_Permutation.
  - repeat constructor; cbn; lia.
Defined.

(** *** Three peers *)

Definition demo_log : bytes := header_bytes ++ concat (entry_bytes <$> demo_segment).
Definition demo_addrs : list bytes := [[1]; [2]; [3]].
(** The third replica is behind; the first grows while it is read. *)
Definition demo_replica (a : bytes) : bytes := take (if bool_decide (a = [3]) then 40 else demo_cut) demo_log.
Definition demo_grown (a : bytes) : bytes := if bool_decide (a = [1]) then demo_log else demo_replica a.
Definition demo_list (a : bytes) : result (list SegmentInfo) := Ok [mkInfo [8] 7 true; mkInfo [9] (len (demo_replica a)) false].
Definition demo_read (a : bytes) (m : Z) : result (list SegmentChunk) := Ok [mkChunk (take 20 (demo_grown a)) false; mkChunk (drop 20 (demo_grown a)) true].

Lemma demo_replica_prefix a : demo_replica a `prefix_of` demo_log.
Proof. eexists. symmetry. apply take_drop. Qed.

Lemma demo_cluster : cluster demo_list demo_read demo_addrs [9] demo_replica (fun _ => false) demo_grown demo_log.
Proof.
  split.
  - vm_compute. reflexivity.
  - intros a _. apply demo_replica_prefix.
  - intros a _. unfold demo_grown. case_bool_decide; [apply demo_replica_prefix|done].
  - done.
  - intros a m _ _. eexists. split; [done|]. split; [done|]. cbn [fmap list_fmap concat Data]. rewrite app_nil_r, take_drop.
    split; [|done]. eexists. symmetry. apply take_drop.
Qed.


(** *** Departures *)

(** The majority is of the peers that answer.  With the two peers that hold
    the acknowledged bytes out of reach, the third's shorter replica is read
    as the whole segment. *)
Definition demo_list_down (a : bytes) : result (list SegmentInfo) :=
  if bool_decide (a = [3]) then demo_list a else Err (Fail "unavailable").

Lemma unreachable_majority_loses_bytes :
  acknowledged demo_addrs demo_replica (Z.of_nat demo_cut) /\
  open_entries map_to_list demo_list_down demo_read demo_addrs [9] = segment_entries (take 40 demo_log) /\
  (40 < demo_cut)%nat.
Proof. unfold acknowledged. split_and!; [vm_compute; reflexivity..|apply Nat.ltb_lt; vm_compute; reflexivity]. Qed.

(** An agreed length of zero is no limit: a source that has grown is read to
    its end. *)
Lemma zero_length_is_unlimited :
  let views := [mkView [1] 0 false; mkView [2] 0 false; mkView [3] 4 false] in
  EvaluatePeerAgreement map_to_list views = mkAgreement QuorumTruncate 0 (-1) (-1) /\
  delivered (mkChunkReader [mkChunk [1; 2; 3; 4] true] 0 [] 0 false) = [1; 2; 3; 4].
Proof. split; vm_compute; reflexivity. Qed.
