(* ===== verification/LogMerge.v ===== *)
(** * LogMerge: merging a tablet's log segments (src/internal/qwal/merge.go)

    A tablet's unflushed writes lie in several segments; they are merged into
    one stream by a heap of the segments' next entries.  A segment is the
    results its [Next] still has to return, [io.EOF] after the last. *)

From S2P Require Import Prelude Heap LogFile.
From S2P Require Memtable.
Import Memtable (LogEvent, EventOpen, EventDefineTablet, EventMutation, EventManyMutations, EventCompactionStart, EventCompactionFinish).

#[global] Instance LogEvent_eq_dec : EqDecision LogEvent.
Proof. solve_decision. Defined.

Definition eventType (e : LogEvent) : Z :=
  match e with
  | EventMutation | EventManyMutations => 3
  | EventDefineTablet => 1
  | EventOpen => 0
  | EventCompactionStart | EventCompactionFinish => 2
  end.

Definition compareLogFileKey (a b : LogFileKey) : Z :=
  let ea := eventType (lk_Event a) in
  let eb := eventType (lk_Event b) in
  if negb (ea =? eb) then (if ea <? eb then -1 else 1)
  else if bool_decide (lk_Event a = EventOpen) then 0
  else if negb (lk_TabletID a =? lk_TabletID b) then (if lk_TabletID a <? lk_TabletID b then -1 else 1)
  else if negb (lk_Seq a =? lk_Seq b) then (if lk_Seq a <? lk_Seq b then -1 else 1)
  else 0.

(** [entry] and [segment]. *)
Abbreviation mergeItem := (Entry * nat)%type.

Definition Less (x y : mergeItem) : bool :=
  let c := compareLogFileKey (en_Key x.1) (en_Key y.1) in
  if negb (c =? 0) then c <? 0 else (x.2 <? y.2)%nat.

Abbreviation segmentSource := (list (result Entry)).

Definition source_Next (src : segmentSource) : segmentSource * result Entry :=
  match src with [] => ([], Err EOF) | r :: src => (src, r) end.

Record MergedStream := mkMerged { ms_sources : list segmentSource; ms_h : list mergeItem; ms_started : bool; ms_err : option err }.

Definition NewMergedStream (sources : list segmentSource) : MergedStream := mkMerged sources [] false None.

(** The sources, from the [i]-th on, with the items of those that have one;
    the first error ends the loop. *)
Fixpoint prime_loop (i : nat) (sources : list segmentSource) : list segmentSource * list mergeItem * option err :=
  match sources with
  | [] => ([], [], None)
  | src :: sources =>
      match source_Next src with
      | (src, Ok e) => let '(sources, h, err) := prime_loop (S i) sources in (src :: sources, (e, i) :: h, err)
      | (src, Err x) =>
          if bool_decide (x = EOF) then let '(sources, h, err) := prime_loop (S i) sources in (src :: sources, h, err)
          else (src :: sources, [], Some x)
      end
  end.

Definition prime (m : MergedStream) : MergedStream :=
  let '(sources, h, e) := prime_loop 0 (ms_sources m) in
  match e with
  | Some e => mkMerged sources h true (Some e)
  | None => mkMerged sources (heap_Init Less h) true (ms_err m)
  end.

Definition Next (m : MergedStream) : MergedStream * result Entry :=
  let m := if ms_started m then m else prime m in
  match ms_err m with
  | Some e => (m, Err e)
  | None =>
      match ms_h m with
      | [] => (m, Err EOF)
      | top :: _ =>
          let h := heap_Pop Less (ms_h m) in
          let '(src, next) := source_Next (default [] (ms_sources m !! top.2)) in
          let sources := <[top.2 := src]> (ms_sources m) in
          match next with
          | Ok e => (mkMerged sources (heap_Push Less h (e, top.2)) true None, Ok top.1)
          | Err x => (mkMerged sources h true (if bool_decide (x = EOF) then None else Some x), Ok top.1)
          end
      end
  end.

(** Calling [Next] until it errs. *)
Fixpoint drain (fuel : nat) (m : MergedStream) : list Entry * option err :=
  match fuel with
  | O => ([], None)
  | S fuel =>
      match Next m with
      | (m, Ok e) => let '(es, x) := drain fuel m in (e :: es, x)
      | (_, Err x) => ([], Some x)
      end
  end.

(** ** The order *)

Definition rank (k : LogFileKey) : Z * (Z * Z) :=
  (eventType (lk_Event k), if bool_decide (lk_Event k = EventOpen) then (0, 0) else (lk_TabletID k, lk_Seq k)).

Definition lex (x y : Z * (Z * Z)) : Prop :=
  x.1 < y.1 \/ (x.1 = y.1 /\ (x.2.1 < y.2.1 \/ (x.2.1 = y.2.1 /\ x.2.2 < y.2.2))).

Lemma compare_rank a b :
  (compareLogFileKey a b = -1 /\ lex (rank a) (rank b)) \/
  (compareLogFileKey a b = 0 /\ rank a = rank b) \/ (compareLogFileKey a b = 1 /\ lex (rank b) (rank a)).
Proof.
  assert (forall e, eventType e = 0 <-> e = EventOpen) as Hopen by (by intros []; cbn; split).
  unfold compareLogFileKey, rank, lex. destruct (Z.eqb_spec (eventType (lk_Event a)) (eventType (lk_Event b))) as [E|E]; cbn [negb fst snd].
  - case_bool_decide as Ea.
    { rewrite (bool_decide_eq_true_2 (lk_Event b = EventOpen)) by (apply Hopen; rewrite <-E; by apply Hopen). right. left. split; [done|]. by rewrite E. }
    rewrite (bool_decide_eq_false_2 (lk_Event b = EventOpen)) by (rewrite <-Hopen, <-E, Hopen; done). cbn [fst snd].
    destruct (Z.eqb_spec (lk_TabletID a) (lk_TabletID b)) as [Et|Et]; cbn [negb].
    + destruct (Z.eqb_spec (lk_Seq a) (lk_Seq b)) as [Es|Es]; cbn [negb]; [right; left; split; [done|congruence]|].
      destruct (Z.ltb_spec (lk_Seq a) (lk_Seq b)); [left|right; right]; (split; [done|lia]).
    + destruct (Z.ltb_spec (lk_TabletID a) (lk_TabletID b)); [left|right; right]; (split; [done|lia]).
  - destruct (Z.ltb_spec (eventType (lk_Event a)) (eventType (lk_Event b))); [left|right; right]; (split; [done|lia]).
Qed.

Lemma item_Less_spec x y :
  Less x y = true <-> lex (rank (en_Key x.1)) (rank (en_Key y.1)) \/ (rank (en_Key x.1) = rank (en_Key y.1) /\ (x.2 < y.2)%nat).
Proof.
  unfold Less. destruct (compare_rank (en_Key x.1) (en_Key y.1)) as [[-> H]|[[-> H]|[-> H]]]; cbn [negb Z.eqb Z.ltb Z.compare].
  - split; [by left|done].
  - rewrite Nat.ltb_lt. split; [intros Hlt; by right|]. intros [Hl|[_ Hl]]; [|done]. rewrite H in Hl. unfold lex in Hl. lia.
  - split; [done|]. intros [Hl|[E Hl]]; unfold lex in *; [lia|]. rewrite E in H. lia.
Qed.

Lemma item_Less_asym x y : Less x y = true -> Less y x = false.
Proof.
  intros H. destruct (Less y x) eqn:E; [|done]. apply item_Less_spec in H, E. unfold lex in *.
  destruct H as [H|[H H']], E as [E|[E E']]; try lia; try (rewrite H in E; lia); try (rewrite E in H; lia).
Qed.

Lemma not_Less x y : Less y x = false <-> lex (rank (en_Key x.1)) (rank (en_Key y.1)) \/ (rank (en_Key x.1) = rank (en_Key y.1) /\ (x.2 <= y.2)%nat).
Proof.
  rewrite <-not_true_iff_false, item_Less_spec. pose proof (compare_rank (en_Key x.1) (en_Key y.1)) as H. unfold lex in *.
  destruct (rank (en_Key x.1)) as (a1, (a2, a3)), (rank (en_Key y.1)) as (b1, (b2, b3)). cbn [fst snd] in *.
  split.
  - intros Hn. destruct H as [[_ H]|[[_ H]|[_ H]]]; [by left|injection H as -> -> ->; right; split; [done|]|destruct Hn; by left].
    destruct (Nat.le_gt_cases x.2 y.2); [done|]. destruct Hn. right. split; [done|lia].
  - intros H1 H2. clear H. destruct H1 as [H1|[E1 H1]], H2 as [H2|[E2 H2]]; simplify_eq; lia.
Qed.

Lemma item_Less_trans x y z : Less y x = false -> Less z y = false -> Less z x = false.
Proof.
  rewrite !not_Less. unfold lex. destruct (rank (en_Key x.1)) as (a1, (a2, a3)), (rank (en_Key y.1)) as (b1, (b2, b3)), (rank (en_Key z.1)) as (c1, (c2, c3)). cbn [fst snd].
  intros [H1|[E1 H1]] [H2|[E2 H2]]; simplify_eq; [left; lia..|right; split; [done|lia]].
Qed.

(** ** What a merge delivers *)

(** The next item of every segment that has one, from the [k]-th on. *)
Fixpoint heads (k : nat) (pend : list (list Entry)) : list mergeItem :=
  match pend with
  | [] => []
  | [] :: pend => heads (S k) pend
  | (e :: _) :: pend => (e, k) :: heads (S k) pend
  end.

Lemma heads_app k a b : heads k (a ++ b) = heads k a ++ heads (k + length a) b.
Proof.
  revert k. induction a as [|[|e l] a IH]; intros k; cbn [app heads length]; [by rewrite Nat.add_0_r|by rewrite IH, Nat.add_succ_r|].
  by rewrite IH, Nat.add_succ_r.
Qed.

Lemma heads_elem k pend e i : (e, i) ∈ heads k pend -> (k <= i)%nat /\ exists es, pend !! (i - k)%nat = Some (e :: es).
Proof.
  revert k. induction pend as [|[|e' l] pend IH]; intros k; cbn [heads]; [by intros ?%elem_of_nil| |].
  - intros [H1 [es H2]]%IH. split; [lia|]. exists es. replace (i - k)%nat with (S (i - S k)) by lia. done.
  - intros [[= -> ->]|[H1 [es H2]]%IH]%elem_of_cons; [split; [done|]; exists l; by rewrite Nat.sub_diag|].
    split; [lia|]. exists es. replace (i - k)%nat with (S (i - S k)) by lia. done.
Qed.

Lemma heads_in k pend i e es : pend !! i = Some (e :: es) -> (e, (k + i)%nat) ∈ heads k pend.
Proof.
  revert k i. induction pend as [|[|e' l] pend IH]; intros k [|i]; cbn [heads lookup list_lookup]; try done.
  - intros H%(IH (S k)). by rewrite <-Nat.add_succ_comm.
  - intros [= -> ->]. rewrite Nat.add_0_r. by left.
  - intros H%(IH (S k)). rewrite <-Nat.add_succ_comm. by right.
Qed.

(** Taking a segment's item replaces it by the segment's next one. *)
Lemma heads_take pend i e es h :
  pend !! i = Some (e :: es) -> heads 0 pend ≡ₚ (e, i) :: h ->
  heads 0 (<[i := es]> pend) ≡ₚ match es with [] => h | e' :: _ => (e', i) :: h end.
Proof.
  intros Hi Hh. pose proof (take_drop_middle pend i (e :: es) Hi) as E. pose proof (lookup_lt_Some _ _ _ Hi) as Hlt.
  set (a := take i pend) in *. set (b := drop (S i) pend) in *.
  assert (length a = i) as Hl by (unfold a; rewrite length_take; lia).
  assert (<[i := es]> pend = a ++ es :: b) as -> by (by apply insert_take_drop).
  rewrite <-E, heads_app, Hl in Hh. cbn [heads Nat.add] in Hh. rewrite heads_app, Hl. cbn [Nat.add].
  rewrite <-Permutation_middle in Hh. apply Permutation_cons_inv in Hh. destruct es as [|e' es]; cbn [heads]; [done|]. by rewrite <-Permutation_middle, Hh.
Qed.

(** A run of the merge: the item taken is one that no other is less than. *)
Inductive merges : list (list Entry) -> list mergeItem -> Prop :=
| merges_end pend : heads 0 pend = [] -> merges pend []
| merges_next pend i e es out :
    pend !! i = Some (e :: es) -> (forall y, y ∈ heads 0 pend -> Less y (e, i) = false) ->
    merges (<[i := es]> pend) out -> merges pend ((e, i) :: out).

Lemma Less_irr x : Less x x = false.
Proof. destruct (Less x x) eqn:E; [|done]. by rewrite (item_Less_asym _ _ E) in E. Qed.

(** The source of a segment's entries. *)
Definition intact (es : list Entry) : segmentSource := Ok <$> es.

(** A stream with the given entries still to come. *)
Record merging (m : MergedStream) (pend : list (list Entry)) : Prop := {
  mg_started : ms_started m = true;
  mg_err : ms_err m = None;
  mg_sources : ms_sources m = (fun es => intact (tail es)) <$> pend;
  mg_heap : heap_ok Less 0 (length (ms_h m)) (ms_h m);
  mg_items : ms_h m ≡ₚ heads 0 pend;
}.

Lemma everything (h : list mergeItem) : Forall (fun _ => True) h.
Proof. by apply Forall_true. Qed.

Lemma prime_loop_ok k (sources : list (list Entry)) :
  prime_loop k (intact <$> sources) = ((fun es => intact (tail es)) <$> sources, heads k sources, None).
Proof.
  revert k. induction sources as [|[|e es] sources IH]; intros k; [done|..]; cbn [fmap list_fmap intact prime_loop source_Next heads tail].
  - rewrite bool_decide_eq_true_2 by done. specialize (IH (S k)). by rewrite IH.
  - specialize (IH (S k)). by rewrite IH.
Qed.

Lemma prime_ok (sources : list (list Entry)) : merging (prime (NewMergedStream (intact <$> sources))) sources.
Proof.
  unfold prime. cbn [NewMergedStream ms_sources ms_err]. rewrite prime_loop_ok.
  destruct (heap_Init_ok Less (fun _ => True) ltac:(intros; by apply item_Less_asym) ltac:(intros; by eapply item_Less_trans) (heads 0 sources) (everything _)) as [H1 H2].
  split; cbn [ms_started ms_err ms_sources ms_h]; [done|done|done| |exact H2].
  by rewrite (Permutation_length H2).
Qed.

Lemma merged_Next_ok m pend :
  merging m pend ->
  match heads 0 pend with
  | [] => Next m = (m, Err EOF)
  | _ => exists i e es m', pend !! i = Some (e :: es) /\ (forall y, y ∈ heads 0 pend -> Less y (e, i) = false) /\
      Next m = (m', Ok e) /\ merging m' (<[i := es]> pend)
  end.
Proof.
  intros [H1 H2 H3 H4 H5]. unfold Next. rewrite H1, H2. destruct (ms_h m) as [|[e i] h] eqn:Eh.
  { apply Permutation_nil_l in H5. by rewrite <-H5. }
  assert ((e, i) ∈ heads 0 pend) as Hin by (rewrite <-H5; by left).
  destruct (heads_elem _ _ _ _ Hin) as [_ [es Hi]]. rewrite Nat.sub_0_r in Hi.
  assert (forall y, y ∈ heads 0 pend -> Less y (e, i) = false) as Hmin.
  { intros y Hy. rewrite <-H5 in Hy. destruct (heap_root Less (fun _ => True) ltac:(intros; by eapply item_Less_trans) (e, i) h y (everything _) H4 Hy) as [H| ->]; [done|].
    apply Less_irr. }
  destruct (heap_Pop_ok Less (fun _ => True) ltac:(intros; by apply item_Less_asym) ltac:(intros; by eapply item_Less_trans) (e, i) h (everything _)) as [H6 H7].
  { intros p c a b Hc Hk. by apply H4; [|lia]. }
  assert (ms_sources m !! i = Some (intact es)) as Hs by (rewrite H3, list_lookup_fmap, Hi; done).
  assert (heads 0 (<[i := es]> pend) ≡ₚ match es with [] => h | e' :: _ => (e', i) :: h end) as Hh' by (apply (heads_take pend i e es h Hi); by symmetry).
  assert (<[i := intact (tail es)]> (ms_sources m) = (fun es => intact (tail es)) <$> <[i := es]> pend) as Hsrc by (by rewrite H3, list_fmap_insert).
  destruct (heads 0 pend) as [|y l] eqn:El; [by apply elem_of_nil in Hin|]. exists i, e, es.
  cbn [fst snd]. rewrite Hs. cbn [from_option id]. destruct es as [|e' es]; cbn [fmap list_fmap intact source_Next tail] in *.
  - rewrite bool_decide_eq_true_2 by done. eexists. split; [done|]. split; [done|]. split; [done|].
    split; cbn [ms_started ms_err ms_sources ms_h]; [done|done|done|by rewrite (Permutation_length H7)|by rewrite H7, Hh'].
  - eexists. split; [done|]. split; [done|]. split; [done|].
    destruct (heap_Push_ok Less (fun _ => True) ltac:(intros; by apply item_Less_asym) ltac:(intros; by eapply item_Less_trans) (heap_Pop Less ((e, i) :: h)) (e', i) (everything _)) as [H8 H9].
    { by rewrite (Permutation_length H7). }
    split; cbn [ms_started ms_err ms_sources ms_h]; [done|done|done| |].
    + assert (length (heap_Push Less (heap_Pop Less ((e, i) :: h)) (e', i)) = length (heap_Pop Less ((e, i) :: h) ++ [(e', i)])) as ->; [|exact H8].
      rewrite H9. rewrite length_app. cbn. lia.
    + by rewrite H9, H7, Hh'.
Qed.

Lemma merged_drain_ok fuel m pend :
  merging m pend -> (length (concat pend) < fuel)%nat -> exists out, merges pend out /\ drain fuel m = (out.*1, Some EOF).
Proof.
  revert m pend. induction fuel as [|fuel IH]; intros m pend Hm Hf; [lia|]. cbn [drain]. pose proof (merged_Next_ok m pend Hm) as H.
  destruct (heads 0 pend) as [|y l] eqn:El.
  - rewrite H. exists []. split; [by constructor|done].
  - destruct H as (i & e & es & m' & Hi & Hmin & -> & Hm'). destruct (IH m' _ Hm') as (out & Hout & ->).
    + pose proof (take_drop_middle pend i _ Hi) as E. pose proof (lookup_lt_Some _ _ _ Hi) as Hlt.
      rewrite insert_take_drop by done. rewrite <-E in Hf. rewrite !concat_app in *. cbn [concat] in *. rewrite !length_app in *. cbn [length] in Hf. lia.
    + exists ((e, i) :: out). split; [|done]. econstructor; [done|by rewrite El|done].
Qed.

(** The entries of segment [i] in a merged stream. *)
Definition from_segment (i : nat) (out : list mergeItem) : list Entry := (filter (fun x => x.2 = i) out).*1.

Lemma from_segment_cons i x out : from_segment i (x :: out) = (if decide (x.2 = i) then [x.1] else []) ++ from_segment i out.
Proof. unfold from_segment. rewrite filter_cons. by destruct (decide (x.2 = i)). Qed.

Lemma merges_segments pend out i : merges pend out -> from_segment i out = default [] (pend !! i).
Proof.
  induction 1 as [pend H|pend j e es out Hj _ _ IH].
  - destruct (pend !! i) as [[|e es]|] eqn:Hi; [done| |done].
    pose proof (heads_in 0 pend i e es Hi) as Hin. rewrite H in Hin. by apply elem_of_nil in Hin.
  - rewrite from_segment_cons. cbn [fst snd]. rewrite IH. destruct (decide (j = i)) as [->|Hn].
    + rewrite Hj, list_lookup_insert_eq by (by eapply lookup_lt_Some). done.
    + by rewrite list_lookup_insert_ne.
Qed.

Lemma merges_from pend out x : merges pend out -> x ∈ out -> exists es : list Entry, pend !! x.2 = Some es /\ x.1 ∈ es.
Proof.
  intros Hm Hx. pose proof (merges_segments pend out x.2 Hm) as H.
  assert (x.1 ∈ from_segment x.2 out) as Hin by (apply list_elem_of_fmap; exists x; split; [done|]; by apply list_elem_of_filter).
  rewrite H in Hin. destruct (pend !! x.2) as [es|]; [by exists es|]. by apply elem_of_nil in Hin.
Qed.

(** A segment in the comparator's order. *)
Definition in_order (es : list Entry) : Prop := StronglySorted (fun a b => 0 <= compareLogFileKey (en_Key b) (en_Key a)) es.

(** The merge's own order: by key, equal keys by segment. *)
Definition merged_order (x y : mergeItem) : Prop := Less y x = false.

Lemma in_order_Less i a b : 0 <= compareLogFileKey (en_Key b) (en_Key a) -> merged_order (a, i) (b, i).
Proof.
  unfold merged_order, Less. cbn [fst snd]. intros H. destruct (compareLogFileKey (en_Key b) (en_Key a) =? 0) eqn:E; cbn [negb]; [by apply Nat.ltb_ge|by apply Z.ltb_ge].
Qed.

Lemma heads_below (pend : list (list Entry)) i e y :
  Forall in_order pend -> (forall z, z ∈ heads 0 pend -> Less z (e, i) = false) ->
  y.1 ∈ default [] (pend !! y.2) -> merged_order (e, i) y.
Proof.
  intros Hs Hmin. destruct y as [f j]. cbn [fst snd]. destruct (pend !! j) as [[|h l]|] eqn:Hj; cbn [default]; [by intros ?%elem_of_nil| |by intros ?%elem_of_nil].
  pose proof (Hmin _ (heads_in 0 pend j h l Hj)) as Hh. cbn [Nat.add] in Hh.
  intros [->|Hf]%elem_of_cons; [done|].
  apply (item_Less_trans _ (h, j)); [done|]. apply in_order_Less.
  pose proof (Forall_lookup_1 _ _ _ _ Hs Hj) as Hl. apply StronglySorted_inv in Hl as [_ Hl]. by apply (proj1 (Forall_forall _ _) Hl).
Qed.

Lemma merges_sorted pend out : merges pend out -> Forall in_order pend -> StronglySorted merged_order out.
Proof.
  induction 1 as [pend H|pend i e es out Hi Hmin Hm IH]; intros Hs; [constructor|].
  assert (in_order es) as Hes by (pose proof (Forall_lookup_1 _ _ _ _ Hs Hi) as Hl; by apply StronglySorted_inv in Hl as [Hl _]).
  constructor; [apply IH; by apply Forall_insert|]. apply Forall_forall. intros y Hy.
  apply (heads_below pend i e y Hs Hmin). destruct (merges_from _ _ _ Hm Hy) as (l & Hl & Hin).
  destruct (decide (y.2 = i)) as [E|Hn].
  - rewrite E in *. rewrite list_lookup_insert_eq in Hl by (by eapply lookup_lt_Some). injection Hl as <-. rewrite Hi. by right.
  - rewrite list_lookup_insert_ne in Hl by done. by rewrite Hl.
Qed.

Lemma drain_primed fuel sources : drain (S fuel) (NewMergedStream sources) = drain (S fuel) (prime (NewMergedStream sources)).
Proof.
  cbn [drain]. unfold Next. cbn [NewMergedStream ms_started].
  assert (ms_started (prime (NewMergedStream sources)) = true) as ->; [|done].
  unfold prime. cbn [NewMergedStream ms_sources ms_err]. by destruct (prime_loop 0 sources) as [[l h] [x|]].
Qed.


Definition demo_entry (ev : LogEvent) (tid seq : Z) : Entry := mkEntry (mkLogFileKey ev tid seq [] [] None) [].
Definition demo_first : list Entry := [demo_entry EventDefineTablet 1 0; demo_entry EventMutation 1 1; demo_entry EventMutation 1 4].
Definition demo_second : list Entry := [demo_entry EventMutation 1 2; demo_entry EventMutation 1 4].

Lemma demo_in_order : Forall in_order [demo_first; demo_second].
Proof. repeat constructor; vm_compute; discriminate. Qed.


(** A server's segment holds the writes of all its tablets in the order they
    were made.  Two segments in which every tablet's sequence numbers rise,
    merged: tablet 1's write 5 comes out before its write 3. *)
Lemma merge_misorders_tablet :
  let a := [demo_entry EventMutation 2 1; demo_entry EventMutation 1 3] in
  let b := [demo_entry EventMutation 1 5] in
  (lk_Seq ∘ en_Key) <$> filter (fun e => lk_TabletID (en_Key e) = 1) (drain 4 (NewMergedStream (intact <$> [a; b]))).1 = [5; 3].
Proof. vm_compute. reflexivity. Qed.
